(* ===== verification/_CoqProject ===== *)
-Q . S2P
Prelude.v
Status.v
ByteStream.v
Base128.v
VByte.v
DeltaDelta.v
Predictor.v
Fcm.v
DataBlock.v
DataBlockProof.v
DataBlockRead.v
IOVec.v
Blocks.v
Crc32c.v
Volume.v
MetaVolume.v
BlockStore.v
BlockStoreProof.v
StorageOpen.v
MemStore.v
Double.v
SubtreeRef.v
Operator.v
Leaf.v
LeafIter.v
Superblock.v
TreeIter.v
TreeRead.v
Extents.v
Content.v
ExtentsProof.v
TreeProof.v
TreeRun.v
TreeClose.v
TreeOpen.v
TreeRepair.v
Events.v
EventsProof.v
EventsTree.v
ColumnStore.v
ColumnStoreProof.v
ColumnStoreClose.v
Merge.v
MergeProof.v
MergeRun.v
Materialize.v
MaterializeProof.v
Aggregate.v
AggTree.v
AggProof.v
AggRun.v
Groups.v
GroupProof.v
GroupRead.v
GroupCombine.v
GroupRun.v
PList.v
PListProof.v
StringPool.v
SeriesName.v
SeriesNameProof.v
InvIndex.v
InvIndexProof.v
InvIndexQuery.v
LogFrame.v
LogVolume.v
LogVolumeProof.v
InputLog.v
InputLogRead.v
InputLogProof.v
InputLogRun.v
Matcher.v
MatcherProof.v
MatcherRun.v
GroupBy.v
LogReplay.v
AggMaterialize.v
QueryNodes.v
QueryPlan.v
QueryPlanProof.v
