(* ===== verification/Prelude.v ===== *)
(** * FastSTDB: a verification library for the storage engine

    FastSTDB stores series of timestamped values.  A sample goes through these
    parts of the program (paths below are under [src/faststdb/]):

    - [index/]: the name of a series is brought to a normal form
      ([seriesparser.cc]), kept in a pool of strings ([stringpool.cc]) and entered
      in an inverted index ([invertedindex.h/.cc]) that queries use; a matcher gives
      every series its id;
    - [storage/column_store.h/.cc]: one tree for each series, sessions with a
      cache of trees, scans, filters, aggregates and group aggregates;
    - [storage/nbtree.cc]: the tree of one series.  A list of extents, one for each
      level: the leaf extent takes points, a full leaf is written to the block
      store and a reference to it goes to the extent above, and so on.  A tree is
      closed (all levels written), opened again, or repaired after a crash;
    - [storage/operators/]: the operators over leaves, subtrees and trees (scan,
      filter, aggregate, group aggregate) and the materializers that chain, merge
      and join columns and make samples of aggregates ([storage/tuples.h]);
    - [query/]: a request is turned into a plan of operators and a materializer
      ([queryplan.cc]), and the samples go through a chain of processing nodes
      ([queryprocessor_framework.cc], [query_processing/]);
    - [storage/compression.h/.cc]: the coder of a leaf, which writes chunks of
      sixteen timestamps (delta-delta, variable-length bytes) and values (xor with
      a prediction) into a block;
    - [storage/volume.h/.cc], [storage/block_store.h/.cc], [common/crc32c.cc]: blocks
      of 4096 bytes, volumes of blocks, stores made of volumes (a ring that recycles
      the oldest one, or one that grows) and in memory, and checksums;
    - [storage/input_log.h/.cc]: the write-ahead log.  Every thread writes points, names
      and rescue points as compressed frames to the volumes of its shard; after a
      crash the shards are read together ([core/storage.cc]).

    ** Files

    - Prelude: machine integers (a [Z] with the wrap-around written out), bytes,
      the error monad on [option] ([None]: an assert fails, [LOG(FATAL)] or memory
      outside its bounds), shared lemmas and tactics.  Status: [common::Status].
    - Coders, compression.h/.cc: ByteStream (the interface of byte sinks and
      sources), Base128, VByte, DeltaDelta, Predictor, Fcm; DataBlock,
      DataBlockProof, DataBlockRead: block writer and reader over any sink; IOVec:
      [IOVecBlock]; Blocks: the two concrete block formats.
    - Stores: Crc32c; Volume, MetaVolume; BlockStore, BlockStoreProof, StorageOpen:
      file-backed stores; MemStore: memory store, cache and the interface
      [BlockStore] with its laws, against which everything above is proved.
    - Nodes, nbtree.cc: Double (the operations on doubles that are used, as an
      interface); SubtreeRef; Operator (aggregates and filters, operator.cc); Leaf,
      LeafIter; Superblock.
    - Tree, nbtree.cc: TreeIter, TreeRead (operators over subtrees); Extents (the list
      of extents: append, commit, close, open, repair, search, filter); Content (what a
      subtree holds), ExtentsProof, TreeProof, TreeRun; TreeClose, TreeOpen;
      TreeRepair.  Events, EventsProof, EventsTree: binary values as runs of points.
    - ColumnStore, ColumnStoreProof, ColumnStoreClose: column_store.h/.cc.
    - Operators: Merge, MergeProof, MergeRun (merge.h); Materialize,
      MaterializeProof (scan.cc, join.cc); AggMaterialize (the materializers of
      aggregate.cc, tuples.h); Aggregate, AggTree, AggProof, AggRun
      (aggregates); Groups, GroupProof, GroupRead, GroupCombine, GroupRun (group
      aggregates).
    - Queries, query/: QueryNodes (samples and processing nodes); QueryPlan,
      QueryPlanProof (requests, plans and their execution).
    - Names, index/: PList, PListProof (postings lists); StringPool; SeriesName,
      SeriesNameProof; InvIndex, InvIndexProof, InvIndexQuery; Matcher, MatcherProof,
      MatcherRun (names and ids, for sessions and for recovery); GroupBy.
    - Log, input_log.h/.cc: LogFrame (frames); LogVolume,
      LogVolumeProof (volumes, with LZ4 as an interface); InputLog (the rings and
      the shards), InputLogRead, InputLogProof, InputLogRun; LogReplay
      (points of the log written to the columns again).

    ** What the theorems show

    - Coders: round trips of each coder and of whole blocks, bit for bit; the free
      space alone decides the status of a write.
    - Stores: histories of a ring and of a growing store; a block is read back as
      it was written or, in a ring and only after its volume was recycled, as
      unavailable, never as another block; how long it stays in a ring.  Both
      implementations of CRC-32C compute the polynomial remainder.
    - Nodes: what is appended to a leaf or an inner node is what is read back, open
      or after commit and load, and metadata describes the content.
    - Tree: points appended are the points found, in either direction and in
      portions of any size; the same after closing and opening; after a crash the
      points of the leaf in memory are lost and no others.
    - Column store: it refines a map from ids to sequences of points, under any
      interleaving of sessions, and across a close; scans, filters (forward, of one
      bound), scans merged by time (of series with points in the range), aggregates
      and group aggregates (forward) deliver what the map says.
    - Queries: selections and aggregates, from the request to what reaches the
      processing nodes; the columns of tuples and cumulative sums.  Lemmas show nodes
      that do something else than they mean to.
    - Names: the normal form of a name with up to 16 tags does not depend on how it
      is written ([std::sort] is the insertion sort that GCC's library uses for so few
      elements, since the predicate of the code is none that the standard allows),
      pools return what was stored, and queries of the index return the series that
      match, as long as no hashes collide and the query is one that the code answers
      ([query_ok]).  Sessions agree on the ids of series, recovery from the log gives every
      series its id back, and grouping by tags joins the series it should.
    - Log: the rows that threads write, under any interleaving, are recovered shard
      by shard in their order and merged by the numbers of the frames, up to what
      rotation removed; a lemma shows where the code itself loses rows.  A column
      that has the first points of its series, with strictly rising times, gets the
      others by a replay.

    ** Bounds and fuel

    Loops of the code that are not structural take fuel, and the theorems state
    that the fuel they need is enough: the levels of a tree are bounded by the
    number of points (fuel of 31 is enough for [2 ^ 64] points and more, since
    every inner node has 32 children); a write needs room for at most 418 blocks
    and a close for 446, which the block-store interface asks for as
    [room]; repair needs as many rounds as the list has levels, at most 16; reading in
    portions takes as many reads as there are points.  Sums of counts are exact below
    [2 ^ 53], where a double still counts; a group aggregate asks for steps up to
    [2 ^ 63] and times below [2 ^ 63], since the code subtracts unsigned numbers.

    ** Not modelled

    Threads and locks (each operation of a store, session or log is one step);
    files, [mmap] and system calls beyond the interfaces named above; the SQL of
    the metadata storage ([meta_storage.cc]), whose contract is the registry of
    MetaVolume; the JSON query parser ([queryparser.cc]), which makes requests from
    trees of a JSON library; of the processing nodes [eval], which depends on
    muParser, and the space saver, whose result depends on the order of a hash
    table; of database and sessions ([core/]) all but the resolution of names, the
    writing of the log and the recovery of names and points from it; splitting of nodes
    ([split]), which nothing but tests calls. *)
From stdpp Require Export base numbers list option gmap strings.
From stdpp Require Import sorting.

Global Open Scope Z_scope.

(** ** Machine integers

    A w-bit unsigned integer of the C++ code is a [Z]; arithmetic on it is
    followed by the wrap-around of its width. *)

Definition u8 (x : Z) : Z := x mod 2 ^ 8.
Definition u16 (x : Z) : Z := x mod 2 ^ 16.
Definition u32 (x : Z) : Z := x mod 2 ^ 32.
Definition u64 (x : Z) : Z := x mod 2 ^ 64.

Definition is_u8 (x : Z) : Prop := 0 ≤ x < 2 ^ 8.
Definition is_u16 (x : Z) : Prop := 0 ≤ x < 2 ^ 16.
Definition is_u32 (x : Z) : Prop := 0 ≤ x < 2 ^ 32.
Definition is_u64 (x : Z) : Prop := 0 ≤ x < 2 ^ 64.

#[export] Instance is_u8_dec x : Decision (is_u8 x).
Proof. unfold is_u8. apply _. Defined.
#[export] Instance is_u16_dec x : Decision (is_u16 x).
Proof. unfold is_u16. apply _. Defined.
#[export] Instance is_u32_dec x : Decision (is_u32 x).
Proof. unfold is_u32. apply _. Defined.
#[export] Instance is_u64_dec x : Decision (is_u64 x).
Proof. unfold is_u64. apply _. Defined.

(** [__builtin_clzll] and [__builtin_ctzll] on a non-zero 64-bit value (the
    code never calls them on zero). *)
Definition clzll (x : Z) : Z := 63 - Z.log2 x.

Fixpoint pos_ctz (p : positive) : Z :=
  match p with
  | xO p => 1 + pos_ctz p
  | _ => 0
  end.

Definition ctzll (x : Z) : Z :=
  match x with Zpos p => pos_ctz p | _ => 0 end.

(** ** Little-endian bytes: a POD of [n] bytes as it sits in memory. *)

Fixpoint le_bytes (n : nat) (v : Z) : list Z :=
  match n with
  | O => []
  | S n => u8 v :: le_bytes n (Z.shiftr v 8)
  end.

Fixpoint le_val (bs : list Z) : Z :=
  match bs with
  | [] => 0
  | b :: bs => Z.lor b (Z.shiftl (le_val bs) 8)
  end.

(** ** Outcomes

    An operation of the code that can abort the process ([LOG(FATAL)], a
    failed [assert], an access out of range) returns [option]: [None] is the
    abort.  A writer returns a boolean next to its new state;
    [m ;;; k] is the idiom [if (!m) return false; k]. *)

Definition wbind {S : Type} (m : option (bool * S)) (k : S → option (bool * S))
    : option (bool * S) :=
  match m with
  | Some (true, s) => k s
  | Some (false, s) => Some (false, s)
  | None => None
  end.

Declare Scope stream_scope.
Delimit Scope stream_scope with stream.
Notation "m ;;; k" := (wbind m k)
  (at level 65, right associativity) : stream_scope.
Global Open Scope stream_scope.

(** [for (i = 0; i < n; i++) out.push_back(f())] on a state. *)
Fixpoint read_n {R A : Type} (f : R → option (A * R)) (n : nat) (r : R)
    : option (list A * R) :=
  match n with
  | O => Some ([], r)
  | S n => '(a, r) ← f r; '(l, r) ← read_n f n r; Some (a :: l, r)
  end.

(** ** Tactics *)

Ltac simplify_option :=
  repeat (simplify_eq/=; try case_match; try done).

(** Decide a closed proposition by evaluation. *)
Ltac by_compute := apply (bool_decide_unpack _); vm_compute; exact I.
Ltac zify_div := Z.to_euclidean_division_equations; nia.

(** ** Lemmas on machine integers *)

Lemma u8_range x : is_u8 (u8 x).
Proof. apply Z.mod_pos_bound. lia. Qed.
Lemma u16_range x : is_u16 (u16 x).
Proof. apply Z.mod_pos_bound. lia. Qed.
Lemma u32_range x : is_u32 (u32 x).
Proof. apply Z.mod_pos_bound. lia. Qed.
Lemma u64_range x : is_u64 (u64 x).
Proof. apply Z.mod_pos_bound. lia. Qed.

Lemma u8_id x : is_u8 x → u8 x = x.
Proof. apply Z.mod_small. Qed.
Lemma u16_id x : is_u16 x → u16 x = x.
Proof. apply Z.mod_small. Qed.
Lemma u32_id x : is_u32 x → u32 x = x.
Proof. apply Z.mod_small. Qed.
Lemma u64_id x : is_u64 x → u64 x = x.
Proof. apply Z.mod_small. Qed.

Lemma u64_add_l x y : u64 (u64 x + y) = u64 (x + y).
Proof. apply Zplus_mod_idemp_l. Qed.
Lemma u64_add_r x y : u64 (x + u64 y) = u64 (x + y).
Proof. apply Zplus_mod_idemp_r. Qed.
Lemma u64_sub_l x y : u64 (u64 x - y) = u64 (x - y).
Proof. apply Zminus_mod_idemp_l. Qed.
Lemma u64_sub_r x y : u64 (x - u64 y) = u64 (x - y).
Proof. apply Zminus_mod_idemp_r. Qed.

(** Parity survives the wrap-around of an unsigned 32-bit counter. *)
Lemma u32_even x : Z.even (u32 x) = Z.even x.
Proof.
  unfold u32. rewrite (Z.div_mod x (2 ^ 32)) at 2 by lia.
  rewrite Z.even_add, Z.even_mul. simpl. by destruct (Z.even _).
Qed.

Lemma land_ones' x n : 0 ≤ n → Z.land x (2 ^ n - 1) = x mod 2 ^ n.
Proof.
  intros. rewrite <- Z.land_ones by done. by rewrite Z.ones_equiv, Z.sub_1_r.
Qed.

Lemma shiftr_div x n : 0 ≤ n → Z.shiftr x n = x / 2 ^ n.
Proof. apply Z.shiftr_div_pow2. Qed.

Lemma shiftl_mul x n : 0 ≤ n → Z.shiftl x n = x * 2 ^ n.
Proof. apply Z.shiftl_mul_pow2. Qed.

Lemma testbit_above x n i : 0 ≤ x < 2 ^ n → n ≤ i → Z.testbit x i = false.
Proof.
  intros Hx Hi. destruct (decide (x = 0)) as [->|]; [apply Z.testbit_0_l|].
  apply Z.bits_above_log2; [lia|].
  assert (Z.log2 x < n) by (apply Z.log2_lt_pow2; lia). lia.
Qed.

Lemma land_shiftl_low a b n : 0 ≤ a < 2 ^ n → 0 ≤ n → Z.land a (Z.shiftl b n) = 0.
Proof.
  intros Ha Hn. apply Z.bits_inj'. intros i Hi.
  rewrite Z.land_spec, Z.bits_0, Z.shiftl_spec by done.
  destruct (decide (i < n)).
  - by rewrite (Z.testbit_neg_r b) by lia; rewrite andb_false_r.
  - by rewrite (testbit_above a n) by lia.
Qed.

(** A value below the shift and a shifted one do not overlap. *)
Lemma lor_shiftl a b n :
  0 ≤ a < 2 ^ n → 0 ≤ n → Z.lor a (Z.shiftl b n) = a + b * 2 ^ n.
Proof.
  intros. rewrite <- Z.add_nocarry_lor by (apply land_shiftl_low; done).
  by rewrite Z.shiftl_mul_pow2.
Qed.

Lemma lt_pow2_bits x n :
  0 ≤ x → 0 ≤ n → (∀ i, n ≤ i → Z.testbit x i = false) → x < 2 ^ n.
Proof.
  intros Hx Hn Hb. destruct (Z.lt_ge_cases x (2 ^ n)) as [|Hge]; [done|exfalso].
  assert (0 < 2 ^ n) by (apply Z.pow_pos_nonneg; lia).
  assert (n ≤ Z.log2 x) by (apply Z.log2_le_pow2; lia).
  specialize (Hb (Z.log2 x)). rewrite Z.bit_log2 in Hb by lia. naive_solver.
Qed.

Lemma pow2_nonneg_exp x n : 0 ≤ x < 2 ^ n → 0 ≤ n.
Proof.
  intros Hx. destruct (Z.le_gt_cases 0 n); [done|].
  rewrite Z.pow_neg_r in Hx by lia. lia.
Qed.

Lemma lor_range a b n : 0 ≤ a < 2 ^ n → 0 ≤ b < 2 ^ n → 0 ≤ Z.lor a b < 2 ^ n.
Proof.
  intros Ha Hb. assert (0 ≤ Z.lor a b) by (apply Z.lor_nonneg; lia).
  split; [done|]. apply lt_pow2_bits; [done|by eapply pow2_nonneg_exp|].
  intros i Hi. by rewrite Z.lor_spec, !(testbit_above _ n).
Qed.

Lemma lxor_range a b n : 0 ≤ a < 2 ^ n → 0 ≤ b < 2 ^ n → 0 ≤ Z.lxor a b < 2 ^ n.
Proof.
  intros Ha Hb. assert (0 ≤ Z.lxor a b) by (apply Z.lxor_nonneg; lia).
  split; [done|]. apply lt_pow2_bits; [done|by eapply pow2_nonneg_exp|].
  intros i Hi. by rewrite Z.lxor_spec, !(testbit_above _ n).
Qed.

(** ** Lemmas on little-endian bytes *)

Lemma length_le_bytes n v : length (le_bytes n v) = n.
Proof. revert v. induction n; intros; simpl; [done|]. by rewrite IHn. Qed.

Lemma le_bytes_u8 n v : Forall is_u8 (le_bytes n v).
Proof. revert v. induction n; simpl; constructor; auto using u8_range. Qed.

Lemma le_val_cons b bs : is_u8 b → le_val (b :: bs) = b + 256 * le_val bs.
Proof. intros. simpl. rewrite lor_shiftl by (unfold is_u8 in *; lia). lia. Qed.

Lemma le_val_bytes n v : le_val (le_bytes n v) = v mod 2 ^ (8 * Z.of_nat n).
Proof.
  revert v. induction n as [|n IH]; intros v; [by rewrite Z.mod_1_r|].
  simpl le_bytes. rewrite le_val_cons by apply u8_range.
  rewrite IH, shiftr_div by lia. unfold u8.
  replace (8 * Z.of_nat (S n)) with (8 + 8 * Z.of_nat n) by lia.
  rewrite Z.pow_add_r by lia. rewrite (Z.rem_mul_r v (2 ^ 8)) by lia. lia.
Qed.

Lemma le_val_bytes_id n v :
  0 ≤ v < 2 ^ (8 * Z.of_nat n) → le_val (le_bytes n v) = v.
Proof. intros. rewrite le_val_bytes. by apply Z.mod_small. Qed.

Lemma le_val_range bs :
  Forall is_u8 bs → 0 ≤ le_val bs < 2 ^ (8 * Z.of_nat (length bs)).
Proof.
  induction 1 as [|b bs Hb _ IH]; [simpl; lia|].
  rewrite le_val_cons by done. unfold is_u8 in Hb. simpl length.
  replace (8 * Z.of_nat (S (length bs))) with (8 + 8 * Z.of_nat (length bs)) by lia.
  rewrite Z.pow_add_r by lia. nia.
Qed.

Lemma le_bytes_val bs : Forall is_u8 bs → le_bytes (length bs) (le_val bs) = bs.
Proof.
  induction 1 as [|b bs Hb Hbs IH]; [done|].
  cbn [le_bytes length]. rewrite le_val_cons by done.
  pose proof Hb as Hb'. unfold is_u8 in Hb'. f_equal.
  - unfold u8. rewrite Z.mul_comm. change 256 with (2 ^ 8).
    rewrite Z_mod_plus_full. by apply Z.mod_small.
  - rewrite shiftr_div by lia. change (2 ^ 8) with 256.
    replace ((b + 256 * le_val bs) / 256) with (le_val bs); [done|].
    rewrite (Z.mul_comm 256), Z_div_plus_full by lia.
    rewrite Z.div_small by lia. lia.
Qed.

Lemma le_bytes_mod n v : le_bytes n (v mod 2 ^ (8 * Z.of_nat n)) = le_bytes n v.
Proof.
  rewrite <- le_val_bytes. rewrite <- (length_le_bytes n v) at 1.
  apply le_bytes_val, le_bytes_u8.
Qed.

(** ** Leading and trailing zeros *)

Lemma clzll_range x : 0 < x < 2 ^ 64 → 0 ≤ clzll x ≤ 63.
Proof.
  intros. unfold clzll. assert (0 ≤ Z.log2 x < 64); [|lia].
  split; [apply Z.log2_nonneg|apply Z.log2_lt_pow2; lia].
Qed.

(** [x] fits in the bytes that [clzll x / 8] leaves. *)
Lemma clzll_bound x : 0 < x < 2 ^ 64 → x < 2 ^ (8 * (8 - clzll x / 8)).
Proof.
  intros Hx. pose proof (clzll_range x Hx).
  apply Z.lt_le_trans with (2 ^ (Z.succ (Z.log2 x))).
  - apply Z.log2_spec. lia.
  - apply Z.pow_le_mono_r; [lia|]. unfold clzll in *. zify_div.
Qed.

Lemma pos_ctz_nonneg p : 0 ≤ pos_ctz p.
Proof. induction p; simpl; lia. Qed.

Lemma pos_ctz_divide p : (2 ^ pos_ctz p | Zpos p).
Proof.
  induction p as [p IH|p [k Hk]|]; simpl; try apply Z.divide_1_l.
  exists k. pose proof (pos_ctz_nonneg p). rewrite Z.pow_add_r by lia. lia.
Qed.

Lemma ctzll_nonneg x : 0 ≤ ctzll x.
Proof. destruct x; simpl; auto using pos_ctz_nonneg; lia. Qed.

Lemma ctzll_divide x : 0 < x → (2 ^ ctzll x | x).
Proof. destruct x; simpl; try lia. intros _. apply pos_ctz_divide. Qed.

Lemma ctzll_lt x : 0 < x < 2 ^ 64 → ctzll x ≤ 63.
Proof.
  intros Hx. destruct (ctzll_divide x) as [k Hk]; [lia|].
  pose proof (ctzll_nonneg x). destruct (Z.le_gt_cases (ctzll x) 63); [done|].
  assert (2 ^ 64 ≤ 2 ^ ctzll x) by (apply Z.pow_le_mono_r; lia).
  remember (2 ^ ctzll x) as p. assert (1 ≤ k) by nia. nia.
Qed.

(** The bytes below [ctzll x / 8] are zero. *)
Lemma ctzll_low_zero x :
  0 < x → x / 2 ^ (8 * (ctzll x / 8)) * 2 ^ (8 * (ctzll x / 8)) = x.
Proof.
  intros Hx. pose proof (ctzll_nonneg x).
  assert ((2 ^ (8 * (ctzll x / 8)) | x)) as [k Hk].
  { etransitivity; [|by apply ctzll_divide].
    exists (2 ^ (ctzll x mod 8)). rewrite <- Z.pow_add_r by (zify_div). f_equal.
    pose proof (Z.div_mod (ctzll x) 8). lia. }
  rewrite Hk at 1. rewrite Z.div_mul; [done|]. apply Z.pow_nonzero; zify_div.
Qed.

(** ** Lemmas on lists and loops *)

Lemma read_n_app {R A} (f : R → option (A * R)) n m r l1 r1 l2 r2 :
  read_n f n r = Some (l1, r1) → read_n f m r1 = Some (l2, r2) →
  read_n f (n + m) r = Some (l1 ++ l2, r2).
Proof.
  revert r l1. induction n as [|n IH]; intros r l1 H1 H2; simpl in *; simplify_eq; [done|].
  destruct (f r) as [[a r']|]; simpl in *; [|done].
  destruct (read_n f n r') as [[l r'']|] eqn:E; simpl in *; simplify_eq.
  by rewrite (IH _ _ E H2).
Qed.

Lemma read_n_S {R A} (f : R → option (A * R)) n r a r1 l r2 :
  f r = Some (a, r1) → read_n f n r1 = Some (l, r2) →
  read_n f (S n) r = Some (a :: l, r2).
Proof. intros E1 E2. simpl. rewrite E1. simpl. by rewrite E2. Qed.

Lemma read_n_S_inv {R A} (f : R → option (A * R)) n r l r2 :
  read_n f (S n) r = Some (l, r2) →
  ∃ a r1 l', f r = Some (a, r1) ∧ read_n f n r1 = Some (l', r2) ∧ l = a :: l'.
Proof.
  simpl. destruct (f r) as [[a r1]|]; simpl; [|done].
  destruct (read_n f n r1) as [[l' r']|] eqn:E; simpl; [|done]. intros. simplify_eq.
  by exists a, r1, l'.
Qed.

Lemma read_n_prefix {R A} (f : R → option (A * R)) n m r l r' :
  read_n f (n + m) r = Some (l, r') → ∃ r'', read_n f n r = Some (take n l, r'').
Proof.
  revert r l. induction n as [|n IH]; intros r l E; simpl in *; [by exists r|].
  destruct (f r) as [[a r1]|]; simpl in *; [|done].
  destruct (read_n f (n + m) r1) as [[l1 r2]|] eqn:E1; simpl in *; [|done].
  simplify_eq. destruct (IH _ _ E1) as (r''&->). by exists r''.
Qed.

Lemma read_n_length {R A} (f : R → option (A * R)) n r l r' :
  read_n f n r = Some (l, r') → length l = n.
Proof.
  revert r l. induction n as [|n IH]; intros r l H; simpl in *; simplify_eq; [done|].
  destruct (f r) as [[a r1]|]; simpl in *; [|done].
  destruct (read_n f n r1) as [[l1 r2]|] eqn:E; simpl in *; simplify_eq.
  simpl. by rewrite (IH _ _ E).
Qed.

Lemma wbind_true {S} (m : option (bool * S)) k s :
  m = Some (true, s) → wbind m k = k s.
Proof. by intros ->. Qed.

Lemma drop_lookup_cons {A} (l : list A) i x tl :
  drop i l = x :: tl → l !! i = Some x ∧ drop (S i) l = tl.
Proof.
  intros H. split.
  - rewrite <- (Nat.add_0_r i), <- lookup_drop, H. done.
  - replace (S i) with (i + 1)%nat by lia. by rewrite <- drop_drop, H.
Qed.

Create HintDb bytes.
Create Rewrite HintDb bytes.
#[export] Hint Resolve u8_range u16_range u32_range u64_range le_bytes_u8 : bytes.
#[export] Hint Rewrite @length_app @length_le_bytes @length_cons @length_nil : bytes.

(** A sublist of a sorted list is sorted. *)
Lemma sorted_sublist {A} (R : A → A → Prop) l1 l2 : sublist l1 l2 → StronglySorted R l2 → StronglySorted R l1.
Proof.
  induction 1 as [|x l1 l2 Hsub IH|x l1 l2 Hsub IH]; [done| |]; intros [Hx Hs]%StronglySorted_cons; [|by apply IH].
  constructor; [by apply IH|]. rewrite Forall_forall in *. intros y Hy. apply Hx. by eapply elem_of_sublist.
Qed.
