(* ===== verification/Status.v ===== *)
(** * Status codes (common/status.h)

    The error codes of [common::Status]; the message goes to a thread-local
    string and does not influence the control flow, so it is left out. *)
From S2P Require Import Prelude.

Inductive Status : Set :=
  | kOk | kOutOfRange | kOverflow | kFileSeekError | kFileWriteError
  | kBadArg | kBadData | kNoData | kUnavailable | kNotFound | kNoMemory
  | kEAccess | kErrIO | kRegullarExpected | kHighCardinality
  | kMissingDataNotSupported | kQueryParsingError | kTimeout | kRetry
  | kGeneral | kLateWrite | kNotPermitted | kBusy | kInternal | kUnknown.

#[export] Instance Status_eq_dec : EqDecision Status.
Proof. solve_decision. Defined.

Definition IsOk (s : Status) : bool := bool_decide (s = kOk).
