(* ===== verification/ByteStream.v ===== *)
(** * Byte sinks and byte sources

    The compressed streams of compression.h are written over two kinds of
    memory: a flat region ([Base128StreamWriter], [VByteStreamWriter],
    [DataBlockWriter]) and the shredded block of volume.h ([IOVecBlock], the
    template argument [BlockT]).  This file states what the streams need of
    either as the classes [ByteSink]/[ByteSource] with their laws, and
    discharges the laws for the flat region.  The laws give the abstract
    contract: a byte vector [sk_mem] that only grows, of capacity [sk_cap]. *)
From S2P Require Import Prelude.

(** ** Interfaces *)

(** What a stream writer does to the memory below it: [sk_space] is
    [space_left()], [sk_put] is [*pos_++ = b] or [block_->put(b)],
    [sk_pos]/[sk_set_pos] save and restore the write position, [sk_load] and
    [sk_store] go through a pointer obtained from [sk_alloc]
    ([allocate<T>()], [None] is [nullptr]). *)
Class ByteSink (S : Type) := {
  sk_space : S → Z;
  sk_put : Z → S → option S;
  sk_pos : S → nat;
  sk_set_pos : nat → S → option S;
  sk_load : nat → S → option Z;
  sk_store : nat → Z → S → option S;
  sk_alloc : nat → S → option nat * S;
  sk_empty : S → bool;
}.

(** The contract of a sink. *)
Class ByteSinkLaws (S : Type) `{ByteSink S} := {
  sk_inv : S → Prop;
  sk_mem : S → list Z;
  sk_cap : S → nat;
  (** bytes that [sk_alloc] can hand out at the current position *)
  sk_contig : S → nat;
  sk_mem_cap s : sk_inv s → (length (sk_mem s) ≤ sk_cap s)%nat;
  sk_space_eq s :
    sk_inv s → sk_space s = Z.of_nat (sk_cap s) - Z.of_nat (length (sk_mem s));
  sk_pos_eq s : sk_inv s → sk_pos s = length (sk_mem s);
  sk_put_ok b s :
    sk_inv s → (length (sk_mem s) < sk_cap s)%nat →
    ∃ s', sk_put b s = Some s' ∧ sk_inv s' ∧
          sk_mem s' = sk_mem s ++ [u8 b] ∧ sk_cap s' = sk_cap s;
  sk_set_pos_ok p s :
    sk_inv s → (p ≤ length (sk_mem s))%nat → (p < sk_cap s)%nat →
    ∃ s', sk_set_pos p s = Some s' ∧ sk_inv s' ∧
          sk_mem s' = take p (sk_mem s) ∧ sk_cap s' = sk_cap s;
  sk_load_ok i s :
    sk_inv s → (i < length (sk_mem s))%nat → sk_load i s = sk_mem s !! i;
  sk_store_ok i b s :
    sk_inv s → (i < length (sk_mem s))%nat →
    ∃ s', sk_store i b s = Some s' ∧ sk_inv s' ∧
          sk_mem s' = <[i := u8 b]> (sk_mem s) ∧ sk_cap s' = sk_cap s;
  sk_alloc_ok n s :
    sk_inv s → (0 < n ≤ sk_contig s)%nat →
    ∃ s' bs, sk_alloc n s = (Some (length (sk_mem s)), s') ∧ sk_inv s' ∧
          length bs = n ∧ sk_mem s' = sk_mem s ++ bs ∧ sk_cap s' = sk_cap s;
  sk_contig_grow s s' n :
    sk_inv s → sk_inv s' → sk_cap s' = sk_cap s →
    length (sk_mem s') = (length (sk_mem s) + n)%nat → (sk_contig s - n ≤ sk_contig s')%nat;
  sk_empty_ok s : sk_inv s → sk_mem s ≠ [] → sk_empty s = false;
}.

(** What a stream reader asks of the memory below it: [src_size] is the number
    of readable bytes, [src_left p] the bytes left after position [p] (an
    unsigned difference in the code), [src_get p] the byte at [p], and
    [src_head p] the byte at [p] through the raw pointer to the first
    component, from which block headers are read. *)
Class ByteSource (S : Type) := {
  src_size : S → nat;
  src_left : S → nat → Z;
  src_get : nat → S → option Z;
  src_head : nat → S → option Z;
}.

Class ByteSourceLaws (S : Type) `{ByteSource S} := {
  src_inv : S → Prop;
  src_bytes : S → list Z;
  src_size_eq s : src_inv s → src_size s = length (src_bytes s);
  src_left_eq s p :
    src_inv s → (p ≤ length (src_bytes s))%nat →
    src_left s p = Z.of_nat (length (src_bytes s)) - Z.of_nat p;
  src_get_eq i s b :
    src_inv s → src_bytes s !! i = Some b → src_get i s = Some b;
  (** bytes behind the raw pointer *)
  src_contig : S → nat;
  src_head_eq i s b :
    src_inv s → (i < src_contig s)%nat → src_bytes s !! i = Some b →
    src_head i s = Some b;
}.

(** ** A flat memory region

    [begin_] is offset 0, [end_] is [length r_buf], [pos_] is [r_pos]. *)

Record Region := mkRegion { r_buf : list Z; r_pos : nat }.

Definition region_space_left (s : Region) : Z :=
  Z.of_nat (length (r_buf s)) - Z.of_nat (r_pos s).

(** [*pos_++ = static_cast<u8>(b)]; writing past [end_] is out of bounds. *)
Definition region_put (b : Z) (s : Region) : option Region :=
  if decide (r_pos s < length (r_buf s))%nat
  then Some (mkRegion (<[r_pos s := u8 b]> (r_buf s)) (S (r_pos s)))
  else None.

Definition region_load (i : nat) (s : Region) : option Z := r_buf s !! i.

Definition region_store (i : nat) (b : Z) (s : Region) : option Region :=
  if decide (i < length (r_buf s))%nat
  then Some (mkRegion (<[i := u8 b]> (r_buf s)) (r_pos s))
  else None.

(** [allocate<T>()] with [sizeof(T) = n]. *)
Definition region_allocate (n : nat) (s : Region) : option nat * Region :=
  if decide (region_space_left s < Z.of_nat n) then (None, s)
  else (Some (r_pos s), mkRegion (r_buf s) (r_pos s + n)).

(** [begin_ == end_]. *)
Definition region_empty (s : Region) : bool :=
  match r_buf s with [] => true | _ => false end.

#[export] Instance region_sink : ByteSink Region := {
  sk_space := region_space_left;
  sk_put := region_put;
  sk_pos := r_pos;
  sk_set_pos p s := Some (mkRegion (r_buf s) p);
  sk_load := region_load;
  sk_store := region_store;
  sk_alloc := region_allocate;
  sk_empty := region_empty;
}.

(** A readable region: the bytes from [begin] to [end]. *)
#[export] Instance region_source : ByteSource (list Z) := {
  src_size l := length l;
  src_left l p := u64 (Z.of_nat (length l) - Z.of_nat p);
  src_get i l := l !! i;
  src_head i l := l !! i;
}.

(** ** Derived operations *)

Section Derived.
Context {S : Type} `{ByteSink S}.

(** Several bytes in order. *)
Fixpoint sk_puts (bs : list Z) (s : S) : option S :=
  match bs with
  | [] => Some s
  | b :: bs => s ← sk_put b s; sk_puts bs s
  end.

(** [*p] and [*p = v] for a [u16* p]. *)
Definition sk_load16 (p : nat) (s : S) : option Z :=
  b0 ← sk_load p s; b1 ← sk_load (p + 1) s; Some (le_val [b0; b1]).

Definition sk_store16 (p : nat) (v : Z) (s : S) : option S :=
  s ← sk_store p (u8 v) s; sk_store (p + 1) (u8 (Z.shiftr v 8)) s.

End Derived.

Section DerivedSource.
Context {S : Type} `{ByteSource S}.

Fixpoint src_gets (n p : nat) (s : S) : option (list Z) :=
  match n with
  | O => Some []
  | Datatypes.S n => b ← src_get p s; bs ← src_gets n (p + 1) s; Some (b :: bs)
  end.

(** [*reinterpret_cast<const T*>(p)] with [sizeof(T) = n] behind the raw
    pointer. *)
Fixpoint src_heads (n p : nat) (s : S) : option (list Z) :=
  match n with
  | O => Some []
  | Datatypes.S n => b ← src_head p s; bs ← src_heads n (p + 1) s; Some (b :: bs)
  end.

Definition src_load (n p : nat) (s : S) : option Z :=
  bs ← src_heads n p s; Some (le_val bs).

End DerivedSource.

(** ** The flat region keeps the contract *)

Definition region_inv (s : Region) : Prop := (r_pos s ≤ length (r_buf s))%nat.

Lemma region_take_snoc (l : list Z) n x :
  (n < length l)%nat → take (S n) (<[n := x]> l) = take n l ++ [x].
Proof.
  intros Hn. rewrite (take_S_r _ _ x).
  - by rewrite take_insert_ge by lia.
  - by apply list_lookup_insert_eq.
Qed.

Lemma region_length_mem s : region_inv s → length (take (r_pos s) (r_buf s)) = r_pos s.
Proof. intros. rewrite length_take. unfold region_inv in *. lia. Qed.

#[export] Program Instance region_sink_laws : ByteSinkLaws Region := {
  sk_inv := region_inv;
  sk_mem s := take (r_pos s) (r_buf s);
  sk_cap s := length (r_buf s);
  sk_contig s := (length (r_buf s) - r_pos s)%nat;
}.
Next Obligation. intros s Hs. simpl. by rewrite region_length_mem. Qed.
Next Obligation. intros s Hs. simpl. by rewrite region_length_mem. Qed.
Next Obligation. intros s Hs. simpl. by rewrite region_length_mem. Qed.
Next Obligation.
  intros b s Hs Hlt. simpl in *. rewrite region_length_mem in Hlt by done. simpl.
  unfold region_put. rewrite decide_True by done. eexists. split_and!; [done|..].
  - unfold region_inv. simpl. rewrite length_insert. lia.
  - simpl. by apply region_take_snoc.
  - simpl. by rewrite length_insert.
Qed.
Next Obligation.
  intros p s Hs Hp Hc. simpl in *. rewrite region_length_mem in Hp by done. simpl.
  eexists. split_and!; [done|..]; simpl; [unfold region_inv; simpl; lia| |done].
  rewrite take_take. f_equal. lia.
Qed.
Next Obligation.
  intros i s Hs Hi. simpl in *. rewrite region_length_mem in Hi by done. simpl.
  unfold region_load. by rewrite lookup_take_lt.
Qed.
Next Obligation.
  intros i b s Hs Hi. simpl in *. rewrite region_length_mem in Hi by done. simpl.
  unfold region_store. unfold region_inv in *. rewrite decide_True by lia.
  eexists. split_and!; [done|..]; simpl; rewrite ?length_insert; try done.
  by rewrite take_insert_lt.
Qed.
Next Obligation.
  intros n s Hs [Hn Hn']. simpl in *. unfold region_allocate, region_space_left.
  unfold region_inv in Hs.
  rewrite decide_False by lia. rewrite region_length_mem by done.
  exists (mkRegion (r_buf s) (r_pos s + n)), (take n (drop (r_pos s) (r_buf s))).
  split_and!; [done|..]; simpl; try done.
  - unfold region_inv. simpl. lia.
  - rewrite length_take, length_drop. lia.
  - by rewrite <- take_take_drop.
Qed.
Next Obligation.
  intros s s' n Hs Hs' Ec El. simpl in *. rewrite !region_length_mem in El by done. lia.
Qed.
Next Obligation. intros [[] p]; simpl; [by rewrite take_nil|done]. Qed.

Definition region_src_inv (l : list Z) : Prop := Z.of_nat (length l) < 2 ^ 64.

#[export] Program Instance region_source_laws : ByteSourceLaws (list Z) := {
  src_inv := region_src_inv;
  src_bytes l := l;
  src_contig l := length l;
}.
Next Obligation. done. Qed.
Next Obligation.
  intros l p Hl Hp. simpl. apply u64_id. unfold is_u64, region_src_inv in *. lia.
Qed.
Next Obligation. done. Qed.
Next Obligation. done. Qed.

#[export] Instance region_inv_dec (s : Region) : Decision (sk_inv s).
Proof. simpl. unfold region_inv. apply _. Defined.
#[export] Instance region_src_inv_dec (l : list Z) : Decision (src_inv l).
Proof. simpl. unfold region_src_inv. apply _. Defined.

(** ** Consequences of the contract, shared by every stream *)

Section SinkFacts.
Context {S : Type} `{ByteSinkLaws S}.

(** [s'] is [s] with [bs] appended. *)
Definition grows (s s' : S) (bs : list Z) : Prop :=
  sk_inv s' ∧ sk_mem s' = sk_mem s ++ bs ∧ sk_cap s' = sk_cap s.

Lemma grows_trans s1 s2 s3 b1 b2 :
  grows s1 s2 b1 → grows s2 s3 b2 → grows s1 s3 (b1 ++ b2).
Proof.
  intros (?&E1&?) (?&E2&?). split_and!; [done| |congruence].
  by rewrite E2, E1, app_assoc.
Qed.

Lemma grows_refl s : sk_inv s → grows s s [].
Proof. intros. split_and!; [done| |done]. by rewrite app_nil_r. Qed.

Lemma grows_space s s' bs :
  sk_inv s → grows s s' bs → sk_space s' = sk_space s - Z.of_nat (length bs).
Proof.
  intros Hs (Hs'&E&Ec). rewrite !sk_space_eq by done.
  rewrite Ec, E, length_app. lia.
Qed.

Lemma grows_contig s s' bs :
  sk_inv s → grows s s' bs → (sk_contig s - length bs ≤ sk_contig s')%nat.
Proof.
  intros Hs (Hs'&E&Ec). apply sk_contig_grow; try done. by rewrite E, length_app.
Qed.

Lemma sk_put_grows b s :
  sk_inv s → 0 < sk_space s → ∃ s', sk_put b s = Some s' ∧ grows s s' [u8 b].
Proof.
  intros Hs Hsp. rewrite sk_space_eq in Hsp by done.
  destruct (sk_put_ok b s) as (s'&?&?&?&?); [done|lia|].
  exists s'. by split_and!.
Qed.

Lemma sk_puts_grows bs s :
  sk_inv s → Z.of_nat (length bs) ≤ sk_space s →
  ∃ s', sk_puts bs s = Some s' ∧ grows s s' (u8 <$> bs).
Proof.
  revert s. induction bs as [|b bs IH]; intros s Hs Hl; simpl in *.
  { exists s. split; [done|]. by apply grows_refl. }
  destruct (sk_put_grows b s) as (s1&->&Hg); [done|lia|]. simpl.
  pose proof (grows_space _ _ _ Hs Hg) as Hsp. simpl in Hsp.
  destruct (IH s1) as (s2&->&Hg2); [apply Hg|lia|].
  exists s2. split; [done|]. by apply (grows_trans _ _ _ _ _ Hg Hg2).
Qed.

Lemma sk_load16_ok p s b0 b1 :
  sk_inv s → sk_mem s !! p = Some b0 → sk_mem s !! (p + 1)%nat = Some b1 →
  sk_load16 p s = Some (le_val [b0; b1]).
Proof.
  intros Hs E0 E1. unfold sk_load16.
  rewrite (sk_load_ok p), E0 by eauto using lookup_lt_Some. simpl.
  rewrite (sk_load_ok (p + 1)), E1 by eauto using lookup_lt_Some. done.
Qed.

Lemma sk_store16_ok p v s :
  sk_inv s → (p + 1 < length (sk_mem s))%nat →
  ∃ s', sk_store16 p v s = Some s' ∧ sk_inv s' ∧ sk_cap s' = sk_cap s ∧
        sk_mem s' = <[(p + 1)%nat := u8 (Z.shiftr v 8)]> (<[p := u8 v]> (sk_mem s)).
Proof.
  intros Hs Hp. unfold sk_store16.
  destruct (sk_store_ok p (u8 v) s) as (s1&->&Hs1&Em&Ec); [done|lia|]. simpl.
  destruct (sk_store_ok (p + 1) (u8 (Z.shiftr v 8)) s1) as (s2&->&Hs2&Em2&Ec2);
    [done|rewrite Em, length_insert; lia|].
  exists s2. split_and!; [done|done|congruence|].
  rewrite Em2, Em. by rewrite !(u8_id (u8 _)) by apply u8_range.
Qed.

End SinkFacts.

Section SourceFacts.
Context {S : Type} `{ByteSourceLaws S}.

Lemma src_gets_ok n p s bs tl :
  src_inv s → drop p (src_bytes s) = bs ++ tl → length bs = n →
  src_gets n p s = Some bs.
Proof.
  revert p bs. induction n as [|n IH]; intros p [|b bs] Hs Hd Hl;
    simpl in *; try lia; [done|].
  apply drop_lookup_cons in Hd as [Hb Hd].
  rewrite (src_get_eq p s b) by done. simpl.
  rewrite (IH _ bs); [done|done| |lia]. by rewrite Nat.add_1_r.
Qed.

Lemma src_heads_ok n p s bs tl :
  src_inv s → drop p (src_bytes s) = bs ++ tl → length bs = n →
  (p + n ≤ src_contig s)%nat → src_heads n p s = Some bs.
Proof.
  revert p bs. induction n as [|n IH]; intros p [|b bs] Hs Hd Hl Hc;
    simpl in *; try lia; [done|].
  apply drop_lookup_cons in Hd as [Hb Hd].
  rewrite (src_head_eq p s b) by (done || lia). simpl.
  rewrite (IH _ bs); [done|done| |lia|lia]. by rewrite Nat.add_1_r.
Qed.

Lemma src_load_ok n p s v tl :
  src_inv s → drop p (src_bytes s) = le_bytes n v ++ tl →
  (p + n ≤ src_contig s)%nat → 0 ≤ v < 2 ^ (8 * Z.of_nat n) →
  src_load n p s = Some v.
Proof.
  intros Hs Hd Hc Hv. unfold src_load.
  rewrite (src_heads_ok n p s (le_bytes n v) tl) by (done || apply length_le_bytes).
  simpl. by rewrite le_val_bytes_id.
Qed.

Lemma src_left_ge n p s bs tl :
  src_inv s → drop p (src_bytes s) = bs ++ tl → length bs = n →
  (p ≤ length (src_bytes s))%nat → Z.of_nat n ≤ src_left s p.
Proof.
  intros Hs Hd Hl Hp. rewrite src_left_eq by done.
  apply (f_equal length) in Hd. rewrite length_drop, length_app in Hd. lia.
Qed.

End SourceFacts.
