(* ===== verification/Base128.v ===== *)
(** * Base-128 integers (compression.h, [Base128Int], [Base128StreamWriter],
    [Base128StreamReader])

    The LEB128 code of an unsigned 64-bit integer: seven bits per byte, least
    significant group first, the top bit of a byte set when another one
    follows.  [TVal] is [u64], the type every caller in the engine uses. *)
From S2P Require Import Prelude ByteStream.

Module Base128Int.

(** A 64-bit value has at most ten groups of seven bits. *)
Definition MAX_BYTES : nat := 10.
#[global] Arguments MAX_BYTES : simpl never.

(** *** [get], the flat and the block version

    The common loop: [None] when the loop does not end or shifts by 64 or more
    (undefined in C++), [Some None] when the input ends inside a value (the
    code returns [begin]), otherwise the position after the value and the
    value. *)
Section Get.
Context {S : Type} `{ByteSource S}.

Fixpoint get_loop (fuel : nat) (s : S) (p : nat) (acc cnt : Z) : option (option (nat * Z)) :=
  match fuel with
  | O => None
  | Datatypes.S fuel =>
    if decide (p = src_size s) then Some None
    else
      byte ← src_get p s;
      let i := Z.land byte 0x7F in
      if decide (64 ≤ cnt) then None
      else
        let acc := Z.lor acc (u64 (Z.shiftl i cnt)) in
        let p := (p + 1)%nat in
        if decide (Z.land byte 0x80 = 0) then Some (Some (p, acc))
        else get_loop fuel s p acc (cnt + 7)
  end.

(** The returned position and the member [value_] after the call. *)
Definition get_block (s : S) (begin : nat) (value_ : Z) : option (nat * Z) :=
  r ← get_loop (src_size s - begin + 1) s begin 0 0;
  match r with
  | None => Some (begin, value_)
  | Some (p, acc) => Some (p, acc)
  end.
End Get.

(** The pointer version asserts [begin < end]. *)
Definition get (buf : list Z) (begin : nat) (value_ : Z) : option (nat * Z) :=
  if decide (begin < length buf)%nat then get_block buf begin value_ else None.

(** *** [put], pointer version: the bytes already written stay in memory when
    the region ends, and [begin] is returned. *)
Fixpoint put_loop (fuel : nat) (value : Z) (p : nat) (buf : list Z)
    : option (option nat * list Z) :=
  match fuel with
  | O => None
  | S fuel =>
    if decide (p = length buf) then Some (None, buf)
    else
      let low := Z.land value 0x7F in
      let value := Z.shiftr value 7 in
      if decide (value ≠ 0)
      then put_loop fuel value (p + 1) (<[p := u8 (Z.lor low 0x80)]> buf)
      else Some (Some (p + 1)%nat, <[p := u8 low]> buf)
  end.

Definition put (value : Z) (begin : nat) (buf : list Z) : option (nat * list Z) :=
  if decide (length buf ≤ begin)%nat then Some (begin, buf)
  else
    '(r, buf) ← put_loop MAX_BYTES value begin buf;
    Some (default begin r, buf).

(** *** [put], block version, through [safe_put] *)
Class SafeSink (S : Type) := safe_put : Z → S → option (bool * S).

Fixpoint put_block_loop {S : Type} `{SafeSink S} (fuel : nat) (value : Z) (s : S)
    : option (bool * S) :=
  match fuel with
  | O => None
  | Datatypes.S fuel =>
    let low := Z.land value 0x7F in
    let value := Z.shiftr value 7 in
    let low := if decide (value ≠ 0) then Z.lor low 0x80 else low in
    safe_put low s ;;; fun s =>
    if decide (value = 0) then Some (true, s) else put_block_loop fuel value s
  end.

Definition put_block {S : Type} `{SafeSink S} (value : Z) (s : S) : option (bool * S) :=
  put_block_loop MAX_BYTES value s.

(** *** Reference encoder *)
Fixpoint bytes_fuel (fuel : nat) (v : Z) : list Z :=
  match fuel with
  | O => []
  | S fuel =>
    if decide (Z.shiftr v 7 = 0) then [Z.land v 0x7F]
    else Z.lor (Z.land v 0x7F) 0x80 :: bytes_fuel fuel (Z.shiftr v 7)
  end.

Definition bytes (v : Z) : list Z := bytes_fuel MAX_BYTES v.

(** *** The encoder's output *)

Lemma low7 v : Z.land v 0x7F = v mod 2 ^ 7.
Proof. apply (land_ones' v 7). lia. Qed.

Lemma low7_range v : 0 ≤ Z.land v 0x7F < 2 ^ 7.
Proof. rewrite low7. apply Z.mod_pos_bound. lia. Qed.

Lemma shiftr7_lt v n : 0 ≤ v < 2 ^ (7 * Z.of_nat (S n)) → 0 ≤ Z.shiftr v 7 < 2 ^ (7 * Z.of_nat n).
Proof.
  intros Hv. rewrite shiftr_div by lia.
  replace (7 * Z.of_nat (S n)) with (7 + 7 * Z.of_nat n) in Hv by lia.
  rewrite Z.pow_add_r in Hv by lia.
  split; [apply Z.div_pos; lia|]. apply Z.div_lt_upper_bound; lia.
Qed.

Lemma lor_high v : Z.lor (Z.land v 0x7F) 0x80 = Z.land v 0x7F + 128.
Proof. apply (lor_shiftl (Z.land v 0x7F) 1 7); [apply low7_range|lia]. Qed.

Lemma land_bit7 x : 2 ^ 7 ≤ x < 2 ^ 8 → Z.land x 0x80 = 0x80.
Proof.
  intros Hx. replace x with (Z.lor (x - 128) (Z.shiftl 1 7))
    by (rewrite lor_shiftl; lia).
  rewrite Z.land_lor_distr_l, (land_shiftl_low _ 1 7) by lia. done.
Qed.

Lemma length_bytes_fuel n v : (length (bytes_fuel n v) ≤ n)%nat.
Proof. revert v. induction n; intros v; simpl; [done|]. case_decide; simpl; [lia|]. specialize (IHn (v ≫ 7)). lia. Qed.

Lemma length_bytes_fuel_pos n v : (1 ≤ length (bytes_fuel (S n) v))%nat.
Proof. cbn [bytes_fuel]. case_decide; simpl; lia. Qed.

Lemma bytes_length v : (1 ≤ length (bytes v) ≤ MAX_BYTES)%nat.
Proof. split; [apply length_bytes_fuel_pos|apply length_bytes_fuel]. Qed.

Lemma bytes_fuel_u8 n v : Forall is_u8 (bytes_fuel n v).
Proof.
  revert v. induction n as [|n IH]; intros v; simpl; [constructor|].
  pose proof (low7_range v).
  case_decide.
  - constructor; [unfold is_u8; lia|constructor].
  - constructor; [|done]. rewrite lor_high. unfold is_u8. lia.
Qed.

Lemma fits_max v : is_u64 v → 0 ≤ v < 2 ^ (7 * Z.of_nat MAX_BYTES).
Proof.
  intros [??]. split; [done|]. eapply Z.lt_le_trans; [done|].
  apply Z.pow_le_mono_r; unfold MAX_BYTES; lia.
Qed.

(** *** Decoding what was encoded *)
Section GetFacts.
Context {S : Type} `{ByteSourceLaws S}.

Lemma get_loop_bytes n fuel (s : S) p v acc cnt tl :
  src_inv s → (length (bytes_fuel n v) ≤ fuel)%nat →
  (p ≤ length (src_bytes s))%nat →
  drop p (src_bytes s) = bytes_fuel n v ++ tl →
  0 ≤ v < 2 ^ (7 * Z.of_nat n) → 0 ≤ cnt → v * 2 ^ cnt < 2 ^ 64 →
  (v = 0 → cnt < 64) → 0 ≤ acc < 2 ^ cnt → (1 ≤ n)%nat →
  get_loop fuel s p acc cnt
    = Some (Some ((p + length (bytes_fuel n v))%nat, acc + v * 2 ^ cnt)).
Proof.
  revert fuel p v acc cnt. induction n as [|n IH]; [lia|].
  intros fuel p v acc cnt Hs Hf Hp Hd Hv Hc H64 H0' Hacc _.
  assert (cnt < 64).
  { destruct (decide (v = 0)); [auto|]. apply (Z.pow_lt_mono_r_iff 2); nia. }
  destruct fuel as [|fuel]; [pose proof (length_bytes_fuel_pos n v); lia|].
  cbn [bytes_fuel] in *. simpl get_loop.
  assert (p ≠ src_size s).
  { rewrite src_size_eq by done. intros ->. rewrite drop_all in Hd.
    case_decide; simplify_eq/=. }
  rewrite decide_False by done. pose proof (low7_range v) as Hlow.
  assert (Hw : u64 (Z.shiftl (Z.land v 127) cnt) = Z.land v 127 * 2 ^ cnt).
  { rewrite shiftl_mul by done. apply u64_id. split; [nia|].
    eapply Z.le_lt_trans; [|exact H64]. rewrite low7.
    apply Z.mul_le_mono_nonneg_r; [lia|]. apply Z.mod_le; lia. }
  case_decide as Hlast.
  - apply drop_lookup_cons in Hd as [Hb Hd].
    rewrite (src_get_eq p s (Z.land v 127)) by done. simpl.
    rewrite (decide_False (P := 64 ≤ cnt)) by lia.
    assert (Ez : Z.land v 127 = v).
    { rewrite low7. rewrite shiftr_div in Hlast by lia. apply Z.mod_small.
      apply Z.div_small_iff in Hlast; lia. }
    rewrite !Ez in *. rewrite Hw.
    assert (Z.land v 128 = 0) as ->.
    { rewrite <- Ez. rewrite <- Z.land_assoc. apply Z.land_0_r. }
    rewrite decide_True by done. simpl. do 3 f_equal.
    rewrite <- shiftl_mul by done. rewrite lor_shiftl by lia. by rewrite shiftl_mul by lia.
  - apply drop_lookup_cons in Hd as [Hb Hd].
    rewrite (src_get_eq p s _ Hs Hb). simpl.
    rewrite (decide_False (P := 64 ≤ cnt)) by lia.
    rewrite !lor_high in *. set (low := Z.land v 127) in *.
    assert (Z.land (low + 128) 127 = low) as ->.
    { rewrite low7. change 128 with (1 * 2 ^ 7). rewrite Z_mod_plus_full.
      by apply Z.mod_small. }
    rewrite (land_bit7 (low + 128)) by lia. rewrite decide_False by lia.
    rewrite Hw, <- shiftl_mul, lor_shiftl by lia.
    assert (Hlow2 : low = v mod 2 ^ 7) by apply low7.
    assert (Hsplit : v = low + Z.shiftr v 7 * 2 ^ 7).
    { rewrite Hlow2, shiftr_div by lia. pose proof (Z.div_mod v (2 ^ 7)). lia. }
    assert (Hp2 : 2 ^ (cnt + 7) = 2 ^ cnt * 2 ^ 7) by (apply Z.pow_add_r; lia).
    specialize (IH fuel (p + 1)%nat (Z.shiftr v 7) (acc + low * 2 ^ cnt) (cnt + 7)).
    rewrite IH; clear IH; [|done|simpl in Hf; lia| | |by apply shiftr7_lt|lia| |done| |].
    + simpl length. do 3 f_equal; [lia|]. rewrite Hp2.
      replace (v * 2 ^ cnt) with ((low + Z.shiftr v 7 * 2 ^ 7) * 2 ^ cnt) by congruence.
      ring.
    + apply lookup_lt_Some in Hb. lia.
    + by rewrite Nat.add_1_r.
    + rewrite Hp2. nia.
    + rewrite Hp2. nia.
    + destruct n; [|lia]. exfalso. apply Hlast.
      rewrite shiftr_div by lia. apply Z.div_small. simpl in Hv. lia.
Qed.

Lemma get_block_bytes (s : S) p v tl v0 :
  src_inv s → (p ≤ length (src_bytes s))%nat → is_u64 v →
  drop p (src_bytes s) = bytes v ++ tl →
  get_block s p v0 = Some ((p + length (bytes v))%nat, v).
Proof.
  intros Hs Hp Hv Hd. unfold get_block.
  pose proof (fits_max v Hv) as Hmax. destruct Hv as [? Hv].
  assert (Hlen : (length (bytes v) ≤ length (src_bytes s) - p)%nat).
  { apply (f_equal length) in Hd. rewrite length_drop, length_app in Hd. lia. }
  rewrite src_size_eq by done.
  rewrite (get_loop_bytes MAX_BYTES _ s p v 0 0 tl);
    [|done|fold (bytes v); lia|done|done|done|lia|lia|lia|lia|unfold MAX_BYTES; lia].
  by rewrite Z.pow_0_r, Z.mul_1_r, Z.add_0_l.
Qed.
End GetFacts.

(** *** The pointer encoder writes exactly [bytes v], or leaves the prefix *)

Lemma put_loop_fits n v p buf :
  0 ≤ v < 2 ^ (7 * Z.of_nat n) → (1 ≤ n)%nat →
  (p + length (bytes_fuel n v) ≤ length buf)%nat →
  ∃ buf', put_loop n v p buf = Some (Some (p + length (bytes_fuel n v))%nat, buf') ∧
    length buf' = length buf ∧
    take (p + length (bytes_fuel n v)) buf' = take p buf ++ bytes_fuel n v.
Proof.
  revert v p buf. induction n as [|n IH]; [lia|]. intros v p buf Hv _ Hl.
  pose proof (length_bytes_fuel_pos n v). pose proof (low7_range v).
  cbn [bytes_fuel put_loop] in *. rewrite (decide_False (P := p = _)) by lia.
  case_decide as Hz.
  - rewrite decide_False by naive_solver. simpl in *.
    eexists. split_and!; [done|by rewrite length_insert|].
    rewrite Nat.add_1_r, region_take_snoc by lia. by rewrite u8_id by (unfold is_u8; lia).
  - rewrite decide_True by done. simpl in Hl.
    destruct (IH (Z.shiftr v 7) (p + 1)%nat (<[p:=u8 (Z.lor (Z.land v 127) 128)]> buf))
      as (buf'&E&El&Et).
    + by apply shiftr7_lt.
    + destruct n; [|lia]. exfalso. apply Hz.
      rewrite shiftr_div by lia. apply Z.div_small. simpl in Hv. lia.
    + rewrite length_insert. lia.
    + exists buf'. rewrite E. simpl. split_and!.
      * do 3 f_equal. lia.
      * by rewrite El, length_insert.
      * replace (p + S (length (bytes_fuel n (v ≫ 7))))%nat
          with (p + 1 + length (bytes_fuel n (v ≫ 7)))%nat by lia.
        rewrite Et, Nat.add_1_r, region_take_snoc by lia.
        rewrite <- app_assoc. simpl. rewrite u8_id; [done|].
        rewrite lor_high. unfold is_u8. lia.
Qed.

Lemma put_loop_overflow n v p buf :
  0 ≤ v < 2 ^ (7 * Z.of_nat n) → (1 ≤ n)%nat → (p ≤ length buf)%nat →
  (length buf < p + length (bytes_fuel n v))%nat →
  ∃ buf', put_loop n v p buf = Some (None, buf') ∧
    length buf' = length buf ∧ take p buf' = take p buf.
Proof.
  revert v p buf. induction n as [|n IH]; [lia|]. intros v p buf Hv _ Hp Hl.
  cbn [bytes_fuel put_loop] in *. destruct (decide (p = length buf)) as [|Hend]; [by exists buf|].
  case_decide as Hz.
  - exfalso. simpl in Hl. lia.
  - rewrite decide_True by done. simpl in Hl.
    destruct (IH (Z.shiftr v 7) (p + 1)%nat (<[p:=u8 (Z.lor (Z.land v 127) 128)]> buf))
      as (buf'&E&El&Et).
    + by apply shiftr7_lt.
    + destruct n; [|lia]. exfalso. apply Hz.
      rewrite shiftr_div by lia. apply Z.div_small. simpl in Hv. lia.
    + rewrite length_insert. lia.
    + rewrite length_insert. lia.
    + exists buf'. rewrite E. split_and!; [done|by rewrite El, length_insert|].
      apply (f_equal (take p)) in Et. rewrite !take_take, Nat.min_l in Et by lia.
      by rewrite Et, take_insert_ge by lia.
Qed.

Lemma put_fits v p buf :
  is_u64 v → (p + length (bytes v) ≤ length buf)%nat →
  ∃ buf', put v p buf = Some ((p + length (bytes v))%nat, buf') ∧
    length buf' = length buf ∧ take (p + length (bytes v)) buf' = take p buf ++ bytes v.
Proof.
  intros Hv Hl. pose proof (bytes_length v). unfold put.
  rewrite decide_False by lia.
  destruct (put_loop_fits MAX_BYTES v p buf) as (buf'&->&?&?);
    [by apply fits_max|unfold MAX_BYTES; lia|done|]. by exists buf'.
Qed.

Lemma put_overflow v p buf :
  is_u64 v → (p ≤ length buf)%nat → (length buf < p + length (bytes v))%nat →
  ∃ buf', put v p buf = Some (p, buf') ∧
    length buf' = length buf ∧ take p buf' = take p buf.
Proof.
  intros Hv Hp Hl. unfold put. case_decide; [by exists buf|].
  destruct (put_loop_overflow MAX_BYTES v p buf) as (buf'&->&?&?);
    [by apply fits_max|unfold MAX_BYTES; lia|done|done|]. by exists buf'.
Qed.

(** *** The block encoder *)

Class SafeSinkLaws (S : Type) `{ByteSinkLaws S} `{!SafeSink S} := {
  safe_put_ok b s :
    sk_inv s → (length (sk_mem s) < sk_cap s)%nat →
    ∃ s', safe_put b s = Some (true, s') ∧ grows s s' [u8 b];
  safe_put_full b s :
    sk_inv s → (length (sk_mem s) = sk_cap s)%nat → safe_put b s = Some (false, s);
}.

Section PutBlock.
Context {S : Type} `{SafeSinkLaws S}.

Lemma put_block_loop_ok n v (s : S) :
  sk_inv s → 0 ≤ v < 2 ^ (7 * Z.of_nat n) → (1 ≤ n)%nat →
  ∃ b s' bs, put_block_loop n v s = Some (b, s') ∧ grows s s' bs ∧
    (if b then bs = bytes_fuel n v
     else sk_space s < Z.of_nat (length (bytes_fuel n v))).
Proof.
  revert v s. induction n as [|n IH]; [lia|]. intros v s Hs Hv _.
  pose proof (low7_range v). pose proof (sk_mem_cap s Hs).
  pose proof (length_bytes_fuel_pos n v).
  cbn [bytes_fuel put_block_loop] in *.
  set (low := if decide (v ≫ 7 ≠ 0) then _ else _).
  assert (Hlow : u8 low = if decide (v ≫ 7 = 0) then Z.land v 127 else Z.lor (Z.land v 127) 128).
  { subst low. rewrite u8_id; repeat case_decide; try done; try naive_solver;
      unfold is_u8; rewrite ?lor_high; lia. }
  destruct (decide (length (sk_mem s) = sk_cap s)) as [Hfull|Hroom].
  { rewrite safe_put_full by done. simpl. exists false, s, []. split; [done|].
    split; [by apply grows_refl|]. rewrite sk_space_eq by done. lia. }
  destruct (safe_put_ok low s) as (s1&->&Hg); [done|lia|]. simpl. rewrite Hlow in Hg.
  case_decide as Hz; [by exists true, s1, [Z.land v 127]|].
  destruct (IH (v ≫ 7) s1) as (b&s2&bs&->&Hg2&Hb).
  - apply Hg.
  - by apply shiftr7_lt.
  - destruct n; [|lia]. exfalso. apply Hz.
    rewrite shiftr_div by lia. apply Z.div_small. simpl in Hv. lia.
  - exists b, s2, (Z.lor (Z.land v 127) 128 :: bs). split; [done|].
    split; [exact (grows_trans _ _ _ _ _ Hg Hg2)|].
    pose proof (grows_space _ _ _ Hs Hg) as Hsp. simpl in Hsp.
    destruct b; [by f_equal|]. simpl. lia.
Qed.
End PutBlock.

End Base128Int.

(** ** Base-128 values over either memory *)

Class Base128Sink (S : Type) := sk_put_base128 : Z → S → option (bool * S).

Class Base128SinkLaws (S : Type) `{ByteSinkLaws S} `{!Base128Sink S} :=
  sk_put_base128_ok v s :
    sk_inv s → is_u64 v →
    ∃ b s' bs, sk_put_base128 v s = Some (b, s') ∧ grows s s' bs ∧
      (if b then bs = Base128Int.bytes v
       else sk_space s < Z.of_nat (length (Base128Int.bytes v))).

(** [VByteStreamWriter::put_base128] and [Base128StreamWriter::put]. *)
Definition region_put_base128 (value : Z) (s : Region) : option (bool * Region) :=
  '(p, buf) ← Base128Int.put value (r_pos s) (r_buf s);
  if decide (r_pos s = p) then Some (false, mkRegion buf (r_pos s))
  else Some (true, mkRegion buf p).

#[export] Instance region_base128 : Base128Sink Region := region_put_base128.

Lemma region_put_base128_spec v s :
  region_inv s → is_u64 v →
  ∃ s', region_inv s' ∧ length (r_buf s') = length (r_buf s) ∧
    if decide (r_pos s + length (Base128Int.bytes v) ≤ length (r_buf s))%nat
    then region_put_base128 v s = Some (true, s') ∧
         take (r_pos s') (r_buf s') = take (r_pos s) (r_buf s) ++ Base128Int.bytes v
    else region_put_base128 v s = Some (false, s') ∧ r_pos s' = r_pos s ∧
         take (r_pos s) (r_buf s') = take (r_pos s) (r_buf s).
Proof.
  intros Hs Hv. unfold region_put_base128, region_inv in *.
  pose proof (Base128Int.bytes_length v).
  case_decide.
  - destruct (Base128Int.put_fits v (r_pos s) (r_buf s)) as (buf'&->&Hl&Ht); [done..|].
    simpl. rewrite decide_False by lia. eexists. split_and!; [..|done|]; simpl; auto; lia.
  - destruct (Base128Int.put_overflow v (r_pos s) (r_buf s)) as (buf'&->&Hl&Ht); [done|done|lia|].
    simpl. rewrite decide_True by done. eexists. split_and!; [..|done|done|]; simpl; auto; lia.
Qed.

#[export] Instance region_base128_laws : Base128SinkLaws Region.
Proof.
  intros v s Hs Hv. destruct (region_put_base128_spec v s Hs Hv) as (s'&Hs'&Hl&Hr).
  case_decide.
  - destruct Hr as [Hr Ht]. exists true, s', (Base128Int.bytes v). by split_and!.
  - destruct Hr as (Hr&Ep&Ht). exists false, s', []. split; [done|]. split.
    + split_and!; [done| |done]. simpl. by rewrite Ep, Ht, app_nil_r.
    + simpl. unfold region_space_left, region_inv in *. lia.
Qed.

(** ** [Base128StreamWriter] *)
Module Base128StreamWriter.

Definition put (value : Z) (s : Region) : option (bool * Region) :=
  region_put_base128 value s.

Fixpoint put_all (iter : list Z) (s : Region) : option (bool * Region) :=
  match iter with
  | [] => Some (true, s)
  | v :: iter => put v s ;;; put_all iter
  end.

(** [commit] is a no-op. *)
Definition commit (s : Region) : bool := true.

(** All the values or none: the old position is restored on failure. *)
Definition tput (iter : list Z) (s : Region) : option (bool * Region) :=
  '(ok, s') ← put_all iter s;
  if ok : bool then Some (commit s', s')
  else Some (false, mkRegion (r_buf s') (r_pos s)).

(** [put_raw] of a value of [n] bytes. *)
Definition put_raw (n : nat) (value : Z) (s : Region) : option (bool * Region) :=
  if decide (region_space_left s < Z.of_nat n) then Some (false, s)
  else s ← sk_puts (le_bytes n value) s; Some (true, s).

Definition size (s : Region) : nat := r_pos s.

(** The encoding of a sequence of values. *)
Definition bytes (l : list Z) : list Z := mbind Base128Int.bytes l.

Lemma put_all_spec l s :
  region_inv s → Forall is_u64 l →
  ∃ b s', put_all l s = Some (b, s') ∧ region_inv s' ∧
    length (r_buf s') = length (r_buf s) ∧
    take (r_pos s) (r_buf s') = take (r_pos s) (r_buf s) ∧
    b = bool_decide (r_pos s + length (bytes l) ≤ length (r_buf s))%nat ∧
    (b = true → take (r_pos s') (r_buf s') = take (r_pos s) (r_buf s) ++ bytes l ∧
                r_pos s' = (r_pos s + length (bytes l))%nat).
Proof.
  intros Hs Hl. revert s Hs. induction Hl as [|v l Hv Hl IH]; intros s Hs; simpl.
  { exists true, s. unfold region_inv in *. split_and!; try done.
    - symmetry. apply bool_decide_eq_true. simpl. lia.
    - intros _. simpl. rewrite app_nil_r. split; [done|lia]. }
  destruct (region_put_base128_spec v s Hs Hv) as (s1&Hs1&Hl1&Hr).
  unfold put. case_decide as Hfit.
  - destruct Hr as [-> Ht]. simpl.
    assert (Hp : r_pos s1 = (r_pos s + length (Base128Int.bytes v))%nat).
    { apply (f_equal length) in Ht. rewrite length_app, !length_take in Ht.
      unfold region_inv in *. lia. }
    destruct (IH s1 Hs1) as (b&s2&->&Hs2&Hl2&Ht2&Hb&Hok).
    exists b, s2. split_and!; [done|done|congruence| | |].
    + apply (f_equal (take (r_pos s))) in Ht2. rewrite !take_take, Nat.min_l in Ht2 by lia.
      rewrite Ht2. apply (f_equal (take (r_pos s))) in Ht.
      rewrite take_take, Nat.min_l, take_app_le, take_take, Nat.min_id in Ht;
        [done| |lia]. rewrite length_take. unfold region_inv in *. lia.
    + rewrite Hb. apply bool_decide_ext. rewrite length_app. rewrite Hp, Hl1. lia.
    + intros ->. destruct Hok as [Hok1 Hok2]; [done|]. split.
      * rewrite Hok1, Ht. by rewrite <- app_assoc.
      * rewrite Hok2, Hp, length_app. lia.
  - destruct Hr as (->&Ep&Ht). simpl. exists false, s1. split_and!; try done.
    symmetry. apply bool_decide_eq_false. rewrite length_app. lia.
Qed.

End Base128StreamWriter.

(** ** [Base128StreamReader] *)
Module Base128StreamReader.

Record t := mk { buf : list Z; pos_ : nat }.

(** [LOG(FATAL)] when nothing could be read. *)
Definition next (r : t) : option (Z * t) :=
  '(p, value) ← Base128Int.get (buf r) (pos_ r) 0;
  if decide (p = pos_ r) then None else Some (value, mk (buf r) p).

Definition space_left (r : t) : Z := u64 (Z.of_nat (length (buf r)) - Z.of_nat (pos_ r)).

Definition read_raw (n : nat) (r : t) : option (Z * t) :=
  if decide (space_left r < Z.of_nat n) then None
  else bs ← src_gets n (pos_ r) (buf r); Some (le_val bs, mk (buf r) (pos_ r + n)).

Lemma next_bytes b p v tl :
  Z.of_nat (length b) < 2 ^ 64 → is_u64 v → drop p b = Base128Int.bytes v ++ tl →
  (p < length b)%nat →
  next (mk b p) = Some (v, mk b (p + length (Base128Int.bytes v))).
Proof.
  intros Hb Hv Hd Hp. unfold next, Base128Int.get. simpl.
  rewrite decide_True by done. pose proof (Base128Int.bytes_length v).
  rewrite (Base128Int.get_block_bytes b p v tl) by (done || (simpl; lia)).
  simpl. by rewrite decide_False by lia.
Qed.

Lemma read_all_bytes l b p tl :
  Z.of_nat (length b) < 2 ^ 64 → Forall is_u64 l →
  drop p b = Base128StreamWriter.bytes l ++ tl → (p ≤ length b)%nat →
  read_n next (length l) (mk b p)
    = Some (l, mk b (p + length (Base128StreamWriter.bytes l))).
Proof.
  intros Hb Hl. revert p. induction Hl as [|v l Hv Hl IH]; intros p Hd Hp; simpl in *.
  { by rewrite Nat.add_0_r. }
  pose proof (Base128Int.bytes_length v).
  rewrite <- app_assoc in Hd.
  assert (p < length b)%nat.
  { apply (f_equal length) in Hd. rewrite length_drop, length_app in Hd. lia. }
  rewrite (next_bytes b p v _ Hb Hv Hd) by done. simpl.
  rewrite IH.
  - simpl. rewrite length_app. do 3 f_equal. lia.
  - rewrite <- drop_drop, Hd, drop_app_length. done.
  - apply (f_equal length) in Hd. rewrite length_drop, !length_app in Hd. lia.
Qed.

End Base128StreamReader.

(** ** Property *)

(** [tput] on a base-128 stream is all or nothing and loses nothing.
    If the encodings fit, it succeeds and a reader that starts at the old
    position returns exactly the values; if not, it fails with the write
    position and every byte before it unchanged. *)
Theorem base128_stream_tput l s :
  region_inv s → Z.of_nat (length (r_buf s)) < 2 ^ 64 → Forall is_u64 l →
  ∃ s', length (r_buf s') = length (r_buf s) ∧
    take (r_pos s) (r_buf s') = take (r_pos s) (r_buf s) ∧
    if decide (r_pos s + length (Base128StreamWriter.bytes l) ≤ length (r_buf s))%nat then
      Base128StreamWriter.tput l s = Some (true, s') ∧
      ∃ r, read_n Base128StreamReader.next (length l)
             (Base128StreamReader.mk (r_buf s') (r_pos s)) = Some (l, r) ∧
           Base128StreamReader.pos_ r = r_pos s'
    else Base128StreamWriter.tput l s = Some (false, s') ∧ r_pos s' = r_pos s.
Proof.
  intros Hs Hb Hl. unfold Base128StreamWriter.tput.
  destruct (Base128StreamWriter.put_all_spec l s Hs Hl) as (b&s'&->&Hs'&El&Et&Eb&Hok).
  cbn [mbind option_bind]. case_decide as Hfit.
  - rewrite bool_decide_eq_true_2 in Eb by done. subst b. destruct (Hok eq_refl) as [Em Ep].
    exists s'. split; [done|]. split; [done|]. split; [done|].
    exists (Base128StreamReader.mk (r_buf s') (r_pos s + length (Base128StreamWriter.bytes l))).
    split; [|by rewrite Ep].
    eapply (Base128StreamReader.read_all_bytes l _ _ (drop (r_pos s') (r_buf s')));
      unfold region_inv in *; [by rewrite El|done| |lia].
    rewrite <- (take_drop (r_pos s') (r_buf s')) at 1. rewrite Em, <- app_assoc.
    apply drop_app_length'. rewrite length_take. lia.
  - rewrite bool_decide_eq_false_2 in Eb by done. subst b.
    exists (mkRegion (r_buf s') (r_pos s)). by split_and!.
Qed.

Lemma base128_stream_tput_witness :
  ∃ s', Base128StreamWriter.tput [300; 5] (mkRegion [0; 0; 0; 0] 0) = Some (true, s') ∧
  ∃ r, read_n Base128StreamReader.next 2 (Base128StreamReader.mk (r_buf s') 0) = Some ([300; 5], r).
Proof.
  destruct (base128_stream_tput [300; 5] (mkRegion [0; 0; 0; 0] 0)) as (s'&_&_&H);
    [by_compute|by_compute|by_compute|].
  rewrite decide_True in H by by_compute. destruct H as (E&r&Er&_). exists s'. split; [exact E|]. by exists r.
Defined.
