(* ===== verification/VByte.v ===== *)
(** * VByte streams (compression.h, [VByteStreamWriter], [VByteStreamReader])

    Values are written in pairs behind one control byte that holds the two
    byte lengths; a chunk of zeros is the single sentinel byte 0xFF.  The code
    has the class twice, over a flat region and over an [IOVecBlock]
    ([IOVecVByteStreamWriter], [IOVecVByteStreamReader]), with the same bodies;
    the model is generic in the memory, through [ByteSink] and [ByteSource]. *)
From S2P Require Import Prelude ByteStream Base128.

(** ** Writer *)

Record VByteStreamWriter (S : Type) := mkVW {
  vw_sink : S;
  vw_cnt : Z;   (* cnt_, u32 *)
  vw_prev : Z;  (* prev_, u64 *)
}.
Arguments mkVW {S} _ _ _.
Arguments vw_sink {S} _.
Arguments vw_cnt {S} _.
Arguments vw_prev {S} _.

Module VByteWriter.

(** The control nibble of a value: its length in bytes, 0 to 8. *)
Definition ctrl (v : Z) : Z :=
  let len := if decide (v ≠ 0) then clzll v else 64 in 8 - len / 8.

Section Writer.
Context {S : Type} `{ByteSink S} `{!Base128Sink S}.
Local Notation VW := (VByteStreamWriter S).

Definition set_sink (s : S) (w : VW) : VW := mkVW s (vw_cnt w) (vw_prev w).

Definition make (s : S) : VW := mkVW s 0 0.

Definition space_left (w : VW) : Z := sk_space (vw_sink w).

(** [encode]: control byte, then the two values, little-endian. *)
Definition encode (fst snd : Z) (w : VW) : option (bool * VW) :=
  let fstctrl := ctrl fst in
  let sndctrl := ctrl snd in
  let ctrlword := u8 (Z.lor fstctrl (Z.shiftl sndctrl 4)) in
  if decide (space_left w < 1 + fstctrl + sndctrl) then Some (false, w)
  else
    s ← sk_put ctrlword (vw_sink w);
    s ← sk_puts (le_bytes (Z.to_nat fstctrl) fst) s;
    s ← sk_puts (le_bytes (Z.to_nat sndctrl) snd) s;
    Some (true, set_sink s w).

Definition put_base128 (value : Z) (w : VW) : option (bool * VW) :=
  '(b, s) ← sk_put_base128 value (vw_sink w); Some (b, set_sink s w).

Definition shortcut (w : VW) : option (bool * VW) :=
  if decide (space_left w = 0) then Some (false, w)
  else s ← sk_put 0xFF (vw_sink w); Some (true, set_sink s w).

(** The pairs of a chunk, in order. *)
Fixpoint encode_pairs (iter : list Z) (w : VW) : option (bool * VW) :=
  match iter with
  | x :: y :: iter => encode x y w ;;; encode_pairs iter
  | _ => Some (true, w)
  end.

(** [tput]: [n] must be even ([assert]); a chunk of zeros takes the shortcut;
    a failed pair restores the old write position. *)
Definition tput (iter : list Z) (w : VW) : option (bool * VW) :=
  if decide (length iter mod 2 ≠ 0)%nat then None
  else
    let oldpos := sk_pos (vw_sink w) in
    if forallb (λ v, bool_decide (v = 0)) iter then shortcut w
    else
      '(ok, w') ← encode_pairs iter w;
      if ok : bool then Some (true, w')
      else s ← sk_set_pos oldpos (vw_sink w'); Some (false, set_sink s w').

(** [put], for the values after the last whole chunk: the first of a pair is
    kept in [prev_]. *)
Definition put (value : Z) (w : VW) : option (bool * VW) :=
  let cnt := u32 (vw_cnt w + 1) in
  if decide (cnt mod 2 ≠ 0) then Some (true, mkVW (vw_sink w) cnt value)
  else encode (vw_prev w) value (mkVW (vw_sink w) cnt (vw_prev w)).

Definition put_raw (n : nat) (value : Z) (w : VW) : option (bool * VW) :=
  if decide (space_left w < Z.of_nat n) then Some (false, w)
  else s ← sk_puts (le_bytes n value) (vw_sink w); Some (true, set_sink s w).

(** [commit] writes the value left over in [prev_] by an odd number of [put]s;
    [prev_] is shifted out byte by byte. *)
Definition commit (w : VW) : option (bool * VW) :=
  if decide (vw_cnt w mod 2 = 1) then
    let c := ctrl (vw_prev w) in
    if decide (space_left w < 1 + c) then Some (false, w)
    else
      s ← sk_put (u8 c) (vw_sink w);
      s ← sk_puts (le_bytes (Z.to_nat c) (vw_prev w)) s;
      Some (true, mkVW s (vw_cnt w) (Z.shiftr (vw_prev w) (8 * c)))
  else Some (true, w).

(** Several [put]s in a row. *)
Fixpoint puts (l : list Z) (w : VW) : option (bool * VW) :=
  match l with
  | [] => Some (true, w)
  | v :: l => put v w ;;; puts l
  end.

Definition size (w : VW) : nat := sk_pos (vw_sink w).

Definition allocate (n : nat) (w : VW) : option nat * VW :=
  let '(p, s) := sk_alloc n (vw_sink w) in (p, set_sink s w).

Definition empty (w : VW) : bool := sk_empty (vw_sink w).

End Writer.

(** *** The bytes of the format *)

Definition pair_bytes (x y : Z) : list Z :=
  (ctrl x + 16 * ctrl y)
    :: le_bytes (Z.to_nat (ctrl x)) x ++ le_bytes (Z.to_nat (ctrl y)) y.

Fixpoint pairs_bytes (l : list Z) : list Z :=
  match l with
  | x :: y :: l => pair_bytes x y ++ pairs_bytes l
  | _ => []
  end.

Definition chunk_bytes (l : list Z) : list Z :=
  if forallb (λ v, bool_decide (v = 0)) l then [0xFF] else pairs_bytes l.

Lemma ctrl_range v : is_u64 v → 0 ≤ ctrl v ≤ 8.
Proof.
  intros [? ?]. unfold ctrl. case_decide; [|zify_div].
  pose proof (clzll_range v). zify_div.
Qed.

(** A value fits in the bytes its control nibble announces. *)
Lemma ctrl_fits v : is_u64 v → 0 ≤ v < 2 ^ (8 * Z.of_nat (Z.to_nat (ctrl v))).
Proof.
  intros Hv. pose proof (ctrl_range v Hv) as Hc. destruct Hv as [? ?].
  rewrite Z2Nat.id by lia. unfold ctrl in *. split; [done|].
  case_decide as Hz; [apply clzll_bound; lia|]. by rewrite Hz.
Qed.

Lemma ctrlword_eq x y :
  is_u64 x → is_u64 y →
  u8 (Z.lor (ctrl x) (Z.shiftl (ctrl y) 4)) = ctrl x + 16 * ctrl y.
Proof.
  intros Hx Hy. pose proof (ctrl_range x Hx). pose proof (ctrl_range y Hy).
  rewrite lor_shiftl by lia. rewrite u8_id by (unfold is_u8; lia). lia.
Qed.

Lemma length_pair_bytes x y :
  is_u64 x → is_u64 y →
  Z.of_nat (length (pair_bytes x y)) = 1 + ctrl x + ctrl y.
Proof.
  intros Hx Hy. pose proof (ctrl_range x Hx). pose proof (ctrl_range y Hy).
  unfold pair_bytes. simpl. rewrite length_app, !length_le_bytes. lia.
Qed.

(** Two consecutive elements at a time. *)
Lemma pair_ind (P : list Z → Prop) :
  P [] → (∀ x, P [x]) → (∀ x y l, P l → P (x :: y :: l)) → ∀ l, P l.
Proof.
  intros H0 H1 H2 l. enough (P l ∧ ∀ x, P (x :: l)) by tauto.
  induction l as [|y l [IH1 IH2]]; split; auto.
Qed.

Lemma length_pairs_bytes l :
  Forall is_u64 l → (length l mod 2 = 0)%nat →
  (length (pairs_bytes l) ≤ 17 * (length l / 2))%nat.
Proof.
  induction l as [|x|x y l IH] using pair_ind; intros Hl Hm; [simpl; lia|done|].
  apply Forall_cons in Hl as [Hx Hl]. apply Forall_cons in Hl as [Hy Hl].
  pose proof (ctrl_range x Hx). pose proof (ctrl_range y Hy).
  pose proof (length_pair_bytes x y Hx Hy).
  cbn [pairs_bytes]. rewrite length_app. cbn [length] in *.
  replace (S (S (length l))) with (length l + 1 * 2)%nat in * by lia.
  rewrite Nat.Div0.mod_add in Hm. rewrite Nat.div_add by lia.
  specialize (IH Hl Hm). lia.
Qed.

(** A chunk of 16 values takes at most 136 bytes. *)
Lemma length_chunk_bytes l :
  Forall is_u64 l → length l = 16%nat → (1 ≤ length (chunk_bytes l) ≤ 136)%nat.
Proof.
  intros Hl Hn. unfold chunk_bytes. destruct (forallb _ l) eqn:E; [simpl; lia|].
  pose proof (length_pairs_bytes l Hl) as Hp. rewrite Hn in Hp. split; [|simpl in Hp; lia].
  destruct l as [|x [|y l]]; simpl; [done|done|lia].
Qed.

(** *** Emission: an operation that appends known bytes when they fit *)

Section Emits.
Context {S : Type} `{ByteSinkLaws S}.
Local Notation VW := (VByteStreamWriter S).

Definition emits (op : VW → option (bool * VW)) (bs : list Z) : Prop :=
  ∀ w, sk_inv (vw_sink w) → Z.of_nat (length bs) ≤ space_left w →
  ∃ w', op w = Some (true, w') ∧ grows (vw_sink w) (vw_sink w') bs ∧
        vw_cnt w' = vw_cnt w ∧ vw_prev w' = vw_prev w.

Lemma emits_seq op1 op2 b1 b2 :
  emits op1 b1 → emits op2 b2 → emits (λ w, op1 w ;;; op2) (b1 ++ b2).
Proof.
  intros H1 H2 w Hw Hl. rewrite length_app in Hl.
  destruct (H1 w) as (w1&E1&Hg1&?&?); [done|lia|].
  pose proof (grows_space _ _ _ Hw Hg1). unfold space_left in *.
  destruct (H2 w1) as (w2&E2&Hg2&?&?); [apply Hg1|unfold space_left; lia|].
  exists w2. rewrite (wbind_true _ _ _ E1). split_and!; [done| |congruence|congruence].
  by apply (grows_trans _ _ _ _ _ Hg1 Hg2).
Qed.

Lemma emits_ret : emits (λ w, Some (true, w)) [].
Proof. intros w Hw _. exists w. split_and!; try done. by apply grows_refl. Qed.

Lemma emits_ext op1 op2 bs : (∀ w, op1 w = op2 w) → emits op1 bs → emits op2 bs.
Proof. intros E Hop w Hw Hl. rewrite <- E. by apply Hop. Qed.

Lemma u8_le_bytes n v : u8 <$> le_bytes n v = le_bytes n v.
Proof.
  revert v. induction n as [|n IH]; intros v; simpl; [done|].
  by rewrite IH, (u8_id (u8 v)) by apply u8_range.
Qed.

Lemma put_raw_emits n v : emits (put_raw n v) (le_bytes n v).
Proof.
  intros w Hw Hl. rewrite length_le_bytes in Hl. unfold put_raw.
  rewrite decide_False by lia.
  destruct (sk_puts_grows (le_bytes n v) (vw_sink w)) as (s'&->&Hg);
    [done|by rewrite length_le_bytes|].
  rewrite u8_le_bytes in Hg. by exists (set_sink s' w).
Qed.

Lemma put_raw_full n v w : space_left w < Z.of_nat n → put_raw n v w = Some (false, w).
Proof. intros. unfold put_raw. by rewrite decide_True. Qed.

Lemma encode_emits x y : is_u64 x → is_u64 y → emits (encode x y) (pair_bytes x y).
Proof.
  intros Hx Hy w Hw Hl. rewrite length_pair_bytes in Hl by done.
  pose proof (ctrl_range x Hx). pose proof (ctrl_range y Hy).
  unfold encode. rewrite decide_False by lia. unfold space_left in *.
  destruct (sk_put_grows (u8 (Z.lor (ctrl x) (ctrl y ≪ 4))) (vw_sink w)) as (s1&->&G1);
    [done|lia|]. pose proof (grows_space _ _ _ Hw G1) as E1. simpl in E1. simpl.
  destruct (sk_puts_grows (le_bytes (Z.to_nat (ctrl x)) x) s1) as (s2&->&G2);
    [apply G1|rewrite length_le_bytes; lia|].
  pose proof (grows_space _ _ _ (proj1 G1) G2) as E2.
  rewrite length_fmap, length_le_bytes in E2. simpl.
  destruct (sk_puts_grows (le_bytes (Z.to_nat (ctrl y)) y) s2) as (s3&->&G3);
    [apply G2|rewrite length_le_bytes; lia|]. simpl.
  exists (set_sink s3 w). split_and!; [done| |done|done]. simpl.
  rewrite (u8_id (u8 _)), ctrlword_eq in G1 by auto with bytes.
  rewrite u8_le_bytes in G2, G3.
  exact (grows_trans _ _ _ _ _ G1 (grows_trans _ _ _ _ _ G2 G3)).
Qed.

Lemma encode_full x y w :
  is_u64 x → is_u64 y → space_left w < Z.of_nat (length (pair_bytes x y)) →
  encode x y w = Some (false, w).
Proof.
  intros Hx Hy. rewrite length_pair_bytes by done. intros. unfold encode.
  by rewrite decide_True.
Qed.

Lemma shortcut_emits : emits shortcut [0xFF].
Proof.
  intros w Hw Hl. simpl in Hl. unfold shortcut. rewrite decide_False by lia.
  unfold space_left in *.
  destruct (sk_put_grows 0xFF (vw_sink w)) as (s'&->&Hg); [done|lia|].
  by exists (set_sink s' w).
Qed.

Lemma encode_pairs_emits l :
  Forall is_u64 l → (length l mod 2 = 0)%nat → emits (encode_pairs l) (pairs_bytes l).
Proof.
  induction l as [|x|x y l IH] using pair_ind; intros Hl Hm; [apply emits_ret|done|].
  apply Forall_cons in Hl as [Hx Hl]. apply Forall_cons in Hl as [Hy Hl].
  simpl length in Hm. replace (Datatypes.S (Datatypes.S (length l)))
    with (length l + 1 * 2)%nat in Hm by lia. rewrite Nat.Div0.mod_add in Hm.
  apply (emits_seq (encode x y)); [by apply encode_emits|auto].
Qed.

Lemma tput_emits l :
  Forall is_u64 l → (length l mod 2 = 0)%nat → emits (tput l) (chunk_bytes l).
Proof.
  intros Hl Hm. unfold chunk_bytes.
  destruct (forallb (λ v, bool_decide (v = 0)) l) eqn:E.
  - eapply emits_ext; [|apply shortcut_emits]. intros w. unfold tput.
    rewrite decide_False, E by lia. done.
  - intros w Hw Hsp. destruct (encode_pairs_emits l Hl Hm w Hw Hsp) as (w'&Ew&Hrest).
    exists w'. split; [|done]. unfold tput. rewrite decide_False, E by lia.
    by rewrite Ew.
Qed.

(** The values after the last chunk, padded to a whole number of pairs. *)
Fixpoint tail_bytes (l : list Z) : list Z :=
  match l with
  | [] => []
  | [x] => pair_bytes x 0
  | x :: y :: l => pair_bytes x y ++ tail_bytes l
  end.

Lemma put_first x w :
  Z.even (vw_cnt w) = true →
  put x w = Some (true, mkVW (vw_sink w) (u32 (vw_cnt w + 1)) x).
Proof.
  intros Hev. unfold put. rewrite decide_True; [done|].
  rewrite Zmod_even, u32_even, Z.even_add, Hev. done.
Qed.

Lemma vbyte_commit_even w : Z.even (vw_cnt w) = true → commit w = Some (true, w).
Proof. intros Hev. unfold commit. rewrite decide_False; [done|]. by rewrite Zmod_even, Hev. Qed.

Lemma commit_odd w :
  Z.even (vw_cnt w) = false → is_u64 (vw_prev w) → sk_inv (vw_sink w) →
  Z.of_nat (length (pair_bytes (vw_prev w) 0)) ≤ space_left w →
  ∃ w', commit w = Some (true, w') ∧ grows (vw_sink w) (vw_sink w') (pair_bytes (vw_prev w) 0).
Proof.
  intros Hev Hp Hw Hl. pose proof (ctrl_range _ Hp) as Hc.
  rewrite length_pair_bytes in Hl by done. change (ctrl 0) with 0 in Hl.
  unfold commit. rewrite decide_True by (by rewrite Zmod_even, Hev).
  rewrite decide_False by lia. unfold space_left in *.
  destruct (sk_put_grows (u8 (ctrl (vw_prev w))) (vw_sink w)) as (s1&->&G1); [done|lia|].
  pose proof (grows_space _ _ _ Hw G1) as E1. simpl in E1. simpl.
  destruct (sk_puts_grows (le_bytes (Z.to_nat (ctrl (vw_prev w))) (vw_prev w)) s1)
    as (s2&->&G2); [apply G1|rewrite length_le_bytes; lia|]. simpl.
  eexists. split; [done|]. simpl. rewrite u8_le_bytes in G2.
  rewrite (u8_id (u8 _)), u8_id in G1 by (auto with bytes || (unfold is_u8; lia)).
  pose proof (grows_trans _ _ _ _ _ G1 G2) as G. unfold pair_bytes.
  change (ctrl 0) with 0. rewrite Z.mul_0_r, Z.add_0_r. by rewrite app_nil_r.
Qed.

Lemma puts_commit_grows l w :
  Forall is_u64 l → Z.even (vw_cnt w) = true → sk_inv (vw_sink w) →
  Z.of_nat (length (tail_bytes l)) ≤ space_left w →
  ∃ w', (puts l w ;;; commit) = Some (true, w') ∧
        grows (vw_sink w) (vw_sink w') (tail_bytes l).
Proof.
  revert w. induction l as [|x|x y l IH] using pair_ind; intros w Hl Hev Hw Hsp.
  - exists w. simpl. rewrite vbyte_commit_even by done. split; [done|]. by apply grows_refl.
  - simpl puts. rewrite put_first by done. simpl wbind. apply Forall_inv in Hl.
    destruct (commit_odd (mkVW (vw_sink w) (u32 (vw_cnt w + 1)) x)) as (w'&E&G);
      [by simpl; rewrite u32_even, Z.even_add, Hev|done|done|done|].
    by exists w'.
  - apply Forall_cons in Hl as [Hx Hl]. apply Forall_cons in Hl as [Hy Hl].
    cbn [tail_bytes] in *. rewrite length_app in Hsp.
    simpl puts. rewrite put_first by done. simpl wbind. unfold put at 1. simpl vw_cnt.
    assert (Hev2 : Z.even (u32 (u32 (vw_cnt w + 1) + 1)) = true)
      by (by rewrite u32_even, Z.even_add, u32_even, Z.even_add, Hev).
    rewrite decide_False by (rewrite Zmod_even, Hev2; by intros []). simpl vw_sink. simpl vw_prev.
    set (w1 := mkVW _ _ _).
    assert (space_left w1 = space_left w) by done.
    destruct (encode_emits x y Hx Hy w1) as (w2&->&G1&Ec&_); [done|lia|].
    pose proof (grows_space _ _ _ Hw G1) as Esp. simpl.
    destruct (IH w2) as (w3&->&G2); [done|by rewrite Ec|apply G1| |].
    { unfold space_left in *. rewrite Esp. lia. }
    exists w3. split; [done|]. exact (grows_trans _ _ _ _ _ G1 G2).
Qed.

(** A chunk that does not fit leaves the stream where it was. *)
Lemma encode_pairs_full l w :
  Forall is_u64 l → (length l mod 2 = 0)%nat → sk_inv (vw_sink w) →
  space_left w < Z.of_nat (length (pairs_bytes l)) →
  ∃ w' bs, encode_pairs l w = Some (false, w') ∧ grows (vw_sink w) (vw_sink w') bs ∧
           vw_cnt w' = vw_cnt w ∧ vw_prev w' = vw_prev w.
Proof.
  revert w. induction l as [|x|x y l IH] using pair_ind; intros w Hl Hm Hw Hsp; [|done|].
  { unfold space_left in Hsp. rewrite sk_space_eq in Hsp by done.
    pose proof (sk_mem_cap _ Hw). simpl in Hsp. lia. }
  apply Forall_cons in Hl as [Hx Hl]. apply Forall_cons in Hl as [Hy Hl].
  cbn [length] in Hm. replace (Datatypes.S (Datatypes.S (length l)))
    with (length l + 1 * 2)%nat in Hm by lia. rewrite Nat.Div0.mod_add in Hm.
  cbn [pairs_bytes encode_pairs] in *. rewrite length_app in Hsp.
  destruct (decide (space_left w < Z.of_nat (length (pair_bytes x y)))) as [Hf|Hf].
  { rewrite encode_full by done. exists w, []. split_and!; try done. by apply grows_refl. }
  destruct (encode_emits x y Hx Hy w Hw) as (w1&->&Hg&Ec&Ep); [lia|]. simpl.
  pose proof (grows_space _ _ _ Hw Hg). unfold space_left in *.
  destruct (IH w1) as (w2&bs&->&Hg2&Ec2&Ep2); [done|done|apply Hg|lia|].
  exists w2, (pair_bytes x y ++ bs). split_and!; [done| |congruence|congruence].
  by apply (grows_trans _ _ _ _ _ Hg Hg2).
Qed.

Lemma tput_full l w :
  Forall is_u64 l → (length l mod 2 = 0)%nat → sk_inv (vw_sink w) →
  0 < space_left w < Z.of_nat (length (chunk_bytes l)) →
  ∃ w', tput l w = Some (false, w') ∧ sk_inv (vw_sink w') ∧
        sk_mem (vw_sink w') = sk_mem (vw_sink w).
Proof.
  intros Hl Hm Hw [Hpos Hsp]. unfold tput, chunk_bytes in *.
  rewrite decide_False by lia. destruct (forallb _ l); [simpl in Hsp; lia|].
  destruct (encode_pairs_full l w Hl Hm Hw Hsp) as (w'&bs&->&(Hi&Em&Ec)&_&_). simpl.
  unfold space_left in Hpos. rewrite sk_space_eq in Hpos by done.
  rewrite sk_pos_eq by done.
  destruct (sk_set_pos_ok (length (sk_mem (vw_sink w))) (vw_sink w')) as (s&->&Hs&Es&_);
    [done|rewrite Em, length_app; lia|lia|].
  eexists. split_and!; [done|done|]. simpl. by rewrite Es, Em, take_app_length.
Qed.

End Emits.
End VByteWriter.

(** ** Reader *)

Record VByteStreamReader (S : Type) := mkVR {
  vr_src : S;
  vr_pos : nat;
  vr_cnt : Z;    (* cnt_, u32 *)
  vr_ctrl : Z;   (* ctrl_, int *)
  vr_scut : Z;   (* scut_elements_, int *)
}.
Arguments mkVR {S} _ _ _ _ _.
Arguments vr_src {S} _.
Arguments vr_pos {S} _.
Arguments vr_cnt {S} _.
Arguments vr_ctrl {S} _.
Arguments vr_scut {S} _.

Module VByteReader.

Definition CHUNK_SIZE : Z := 16.

Section Reader.
Context {S : Type} `{ByteSource S}.
Local Notation VR := (VByteStreamReader S).

Definition make (s : S) (pos : nat) : VR := mkVR s pos 0 0 0.

Definition set_pos (p : nat) (r : VR) : VR :=
  mkVR (vr_src r) p (vr_cnt r) (vr_ctrl r) (vr_scut r).

(** Skip [n] bytes. *)
Definition advance (n : nat) (r : VR) : VR := set_pos (vr_pos r + n) r.

Definition space_left (r : VR) : Z := src_left (vr_src r) (vr_pos r).

Definition read_raw (n : nat) (r : VR) : option (Z * VR) :=
  if decide (space_left r < Z.of_nat n) then None
  else
    bs ← src_gets n (vr_pos r) (vr_src r);
    Some (le_val bs, advance n r).

Definition next_base128 (r : VR) : option (Z * VR) :=
  '(p, value) ← Base128Int.get_block (vr_src r) (vr_pos r) 0;
  if decide (p = vr_pos r) then None else Some (value, set_pos p r).

(** [for (i = 0; i < bytelen*8; i += 8) acc |= byte << i]; a shift by 64 or
    more is undefined. *)
Fixpoint read_le (n : nat) (i acc : Z) (r : VR) : option (Z * VR) :=
  match n with
  | O => Some (acc, r)
  | Datatypes.S n =>
    byte ← src_get (vr_pos r) (vr_src r);
    if decide (64 ≤ i) then None
    else read_le n (i + 8) (Z.lor acc (u64 (Z.shiftl byte i))) (advance 1 r)
  end.

Definition next (r : VR) : option (Z * VR) :=
  if decide (vr_ctrl r = 0xFF ∧ vr_scut r ≠ 0) then
    Some (0, mkVR (vr_src r) (vr_pos r) (u32 (vr_cnt r + 1)) (vr_ctrl r) (vr_scut r - 1))
  else
    let cnt := vr_cnt r in
    let r := mkVR (vr_src r) (vr_pos r) (u32 (vr_cnt r + 1)) (vr_ctrl r) (vr_scut r) in
    let value (bytelen : Z) (r : VR) :=
      if decide (space_left r < bytelen) then None
      else read_le (Z.to_nat bytelen) 0 0 r in
    if decide (cnt mod 2 = 0) then
      '(c, r) ← read_raw 1 r;
      let r := mkVR (vr_src r) (vr_pos r) (vr_cnt r) c (vr_scut r) in
      if decide (Z.shiftr c 4 = 0xF)
      then Some (0, mkVR (vr_src r) (vr_pos r) (vr_cnt r) c (CHUNK_SIZE - 1))
      else value (Z.land c 0xF) r
    else value (Z.shiftr (vr_ctrl r) 4) r.

End Reader.

Section ReaderFacts.
Context {S : Type} `{ByteSourceLaws S}.
Local Notation VR := (VByteStreamReader S).

(** The unread bytes. *)
Definition rest (r : VR) : list Z := drop (vr_pos r) (src_bytes (vr_src r)).

Definition ok (r : VR) : Prop :=
  src_inv (vr_src r) ∧ (vr_pos r ≤ length (src_bytes (vr_src r)))%nat.

(** [op] consumes exactly [bs] and yields [v]. *)
Definition reads {A} (op : VR → option (A * VR)) (bs : list Z) (v : A) : Prop :=
  ∀ r tl, ok r → rest r = bs ++ tl → op r = Some (v, advance (length bs) r).

Lemma advance_rest r bs tl : rest r = bs ++ tl → rest (advance (length bs) r) = tl.
Proof. unfold rest. simpl. intros E. by rewrite <- drop_drop, E, drop_app_length. Qed.

Lemma advance_ok r bs tl : ok r → rest r = bs ++ tl → ok (advance (length bs) r).
Proof.
  intros [Hs Hp] E. split; [done|]. simpl. apply (f_equal length) in E.
  unfold rest in E. rewrite length_drop, length_app in E. lia.
Qed.

Lemma advance_advance n m (r : VR) : advance m (advance n r) = advance (n + m) r.
Proof. unfold advance, set_pos. simpl. by rewrite Nat.add_assoc. Qed.

Lemma read_raw_reads n bs :
  length bs = n → reads (read_raw n) bs (le_val bs).
Proof.
  intros Hn r tl [Hs Hp] E. unfold read_raw, space_left.
  rewrite decide_False.
  - rewrite (src_gets_ok n _ _ bs tl) by done. by rewrite Hn.
  - pose proof (src_left_ge n (vr_pos r) (vr_src r) bs tl Hs E Hn Hp). lia.
Qed.

Lemma read_raw_le n v : 0 ≤ v < 2 ^ (8 * Z.of_nat n) → reads (read_raw n) (le_bytes n v) v.
Proof.
  intros Hv r tl Hok E. rewrite (read_raw_reads n (le_bytes n v)) with (tl := tl) by
    (done || apply length_le_bytes). by rewrite le_val_bytes_id.
Qed.

Lemma next_base128_reads v : is_u64 v → reads next_base128 (Base128Int.bytes v) v.
Proof.
  intros Hv r tl [Hs Hp] E. unfold next_base128.
  rewrite (Base128Int.get_block_bytes (vr_src r) (vr_pos r) v tl) by done. simpl.
  pose proof (Base128Int.bytes_length v). rewrite decide_False by lia. done.
Qed.

Lemma read_le_bytes n i acc v r tl :
  ok r → rest r = le_bytes n v ++ tl → 0 ≤ i → i + 8 * Z.of_nat n ≤ 64 →
  0 ≤ acc < 2 ^ i →
  read_le n i acc r
    = Some (acc + (v mod 2 ^ (8 * Z.of_nat n)) * 2 ^ i, advance n r).
Proof.
  revert i acc v r. induction n as [|n IH]; intros i acc v r Hok E Hi Hb Ha.
  { simpl. rewrite Z.mod_1_r. unfold advance, set_pos. destruct r; simpl.
    by rewrite Nat.add_0_r, Z.add_0_r. }
  cbn [le_bytes app] in E. pose proof (u8_range v) as Hu. unfold is_u8 in Hu.
  pose proof (drop_lookup_cons _ _ _ _ E) as [Eb Ed]. simpl read_le.
  rewrite (src_get_eq _ _ (u8 v)) by (apply Hok || done). simpl.
  rewrite decide_False by lia.
  assert (Hp : 0 < 2 ^ i) by (apply Z.pow_pos_nonneg; lia).
  assert (E8 : 2 ^ (i + 8) = 2 ^ i * 2 ^ 8) by (apply Z.pow_add_r; lia).
  assert (Hlt : u8 v * 2 ^ i < 2 ^ 64).
  { assert (2 ^ (i + 8) ≤ 2 ^ 64) by (apply Z.pow_le_mono_r; lia). nia. }
  rewrite shiftl_mul by lia. rewrite (u64_id (u8 v * 2 ^ i)) by (unfold is_u64; nia).
  rewrite <- shiftl_mul, lor_shiftl by lia.
  rewrite (IH (i + 8) (acc + u8 v * 2 ^ i) (v ≫ 8)).
  - rewrite advance_advance. do 2 f_equal. rewrite E8. unfold u8.
    replace (8 * Z.of_nat (Datatypes.S n)) with (8 + 8 * Z.of_nat n) by lia.
    rewrite (Z.pow_add_r 2 8), (Z.rem_mul_r v (2 ^ 8)), shiftr_div by lia. ring.
  - apply (advance_ok r [u8 v] _ Hok E).
  - by apply (advance_rest r [u8 v]).
  - lia.
  - lia.
  - rewrite E8. nia.
Qed.

(** No value is pending: the next [next] reads a control byte. *)
Definition idle (r : VR) : Prop := ok r ∧ Z.even (vr_cnt r) = true ∧ vr_scut r = 0.

(** [r] with its remaining input replaced by [tl], between two pairs. *)
Definition consumed (r r' : VR) (tl : list Z) : Prop :=
  idle r' ∧ rest r' = tl ∧ vr_src r' = vr_src r.

Lemma even_mod2 x : Z.even x = true ↔ x mod 2 = 0.
Proof. rewrite Zmod_even. by destruct (Z.even x). Qed.

Lemma value_ok c v r tl :
  is_u64 v → c = VByteWriter.ctrl v → ok r →
  rest r = le_bytes (Z.to_nat c) v ++ tl →
  (if decide (space_left r < c) then None else read_le (Z.to_nat c) 0 0 r)
    = Some (v, advance (Z.to_nat c) r).
Proof.
  intros Hv -> Hok E. pose proof (VByteWriter.ctrl_range v Hv).
  rewrite decide_False.
  - rewrite (read_le_bytes _ 0 0 v r tl Hok E) by (simpl; lia).
    rewrite Z.mul_1_r, Z.add_0_l, Z.mod_small by (by apply VByteWriter.ctrl_fits). done.
  - unfold space_left. destruct Hok as [Hs Hp].
    pose proof (src_left_ge (Z.to_nat (VByteWriter.ctrl v)) (vr_pos r) (vr_src r) _ tl Hs E).
    rewrite length_le_bytes in *. lia.
Qed.

Lemma next_pair x y r tl :
  is_u64 x → is_u64 y → idle r → rest r = VByteWriter.pair_bytes x y ++ tl →
  ∃ r', read_n next 2 r = Some ([x; y], r') ∧ consumed r r' tl.
Proof.
  intros Hx Hy (Hok&Hev&Hsc) E.
  pose proof (VByteWriter.ctrl_range x Hx) as Rx.
  pose proof (VByteWriter.ctrl_range y Hy) as Ry.
  set (cx := VByteWriter.ctrl x) in *. set (cy := VByteWriter.ctrl y) in *.
  unfold VByteWriter.pair_bytes in E. fold cx cy in E. cbn [app] in E.
  rewrite <- app_assoc in E.
  assert (Ehi : Z.shiftr (cx + 16 * cy) 4 = cy).
  { rewrite shiftr_div by lia. change (2 ^ 4) with 16. zify_div. }
  assert (Elo : Z.land (cx + 16 * cy) 0xF = cx).
  { change 0xF with (2 ^ 4 - 1). rewrite land_ones' by lia. zify_div. }
  apply even_mod2 in Hev as Hm.
  pose (r1 := mkVR (vr_src r) (vr_pos r + 1) (u32 (vr_cnt r + 1)) (cx + 16 * cy) (vr_scut r)).
  assert (Hok1 : ok r1) by exact (advance_ok r [cx + 16 * cy] _ Hok E).
  assert (E1 : rest r1 = le_bytes (Z.to_nat cx) x ++ le_bytes (Z.to_nat cy) y ++ tl)
    by exact (advance_rest r [cx + 16 * cy] _ E).
  assert (N1 : next r = Some (x, advance (Z.to_nat cx) r1)).
  { unfold next. rewrite decide_False by (intros []; lia). rewrite (decide_True (P := vr_cnt r mod 2 = 0)) by done.
    rewrite (read_raw_reads 1 [cx + 16 * cy]) with (tl := le_bytes (Z.to_nat cx) x
      ++ le_bytes (Z.to_nat cy) y ++ tl) by (done || exact Hok || exact E).
    cbn [mbind option_bind le_val]. rewrite Z.shiftl_0_l, Z.lor_0_r, Ehi, Elo.
    rewrite decide_False by lia. by apply (value_ok _ _ r1 (le_bytes (Z.to_nat cy) y ++ tl)). }
  set (r1' := advance (Z.to_nat cx) r1) in *.
  assert (Hok1' : ok r1').
  { pose proof (advance_ok r1 _ _ Hok1 E1) as H'. by rewrite length_le_bytes in H'. }
  assert (E1' : rest r1' = le_bytes (Z.to_nat cy) y ++ tl).
  { pose proof (advance_rest r1 _ _ E1) as H'. by rewrite length_le_bytes in H'. }
  pose (r2 := mkVR (vr_src r) (vr_pos r1') (u32 (u32 (vr_cnt r + 1) + 1)) (cx + 16 * cy) (vr_scut r)).
  assert (Hodd : u32 (vr_cnt r + 1) mod 2 ≠ 0).
  { rewrite <- even_mod2, u32_even, Z.even_add, Hev. done. }
  assert (N2 : next r1' = Some (y, advance (Z.to_nat cy) r2)).
  { unfold next. simpl vr_scut. rewrite decide_False by (intros []; lia).
    simpl vr_cnt. rewrite decide_False by done. simpl vr_ctrl. rewrite Ehi.
    by apply (value_ok _ _ r2 tl). }
  exists (advance (Z.to_nat cy) r2). simpl read_n. rewrite N1. simpl. rewrite N2. simpl.
  split; [done|]. split_and!; [|by rewrite <- (length_le_bytes (Z.to_nat cy) y);
    apply (advance_rest r2)|done].
  split_and!; simpl; [|by rewrite u32_even, Z.even_add, u32_even, Z.even_add, Hev|done].
  rewrite <- (length_le_bytes (Z.to_nat cy) y). by apply (advance_ok r2 _ tl).
Qed.

Lemma consumed_trans r1 r2 r3 t1 t2 :
  consumed r1 r2 t1 → consumed r2 r3 t2 → consumed r1 r3 t2.
Proof. intros (?&?&E1) (?&?&E2). split_and!; [done|done|congruence]. Qed.

Lemma next_pairs l r tl :
  Forall is_u64 l → (length l mod 2 = 0)%nat → idle r →
  rest r = VByteWriter.pairs_bytes l ++ tl →
  ∃ r', read_n next (length l) r = Some (l, r') ∧ consumed r r' tl.
Proof.
  revert r. induction l as [|x|x y l IH] using VByteWriter.pair_ind; intros r Hl Hm Hi E.
  { by exists r. }
  { done. }
  apply Forall_cons in Hl as [Hx Hl]. apply Forall_cons in Hl as [Hy Hl].
  cbn [length] in *. replace (Datatypes.S (Datatypes.S (length l)))
    with (length l + 1 * 2)%nat in Hm by lia. rewrite Nat.Div0.mod_add in Hm.
  cbn [VByteWriter.pairs_bytes] in E. rewrite <- app_assoc in E.
  destruct (next_pair x y r _ Hx Hy Hi E) as (r1&E1&C1).
  destruct (IH r1) as (r2&E2&C2); [done|done|apply C1|apply C1|].
  exists r2. split; [exact (read_n_app next 2 (length l) _ _ _ _ _ E1 E2)|].
  by eapply consumed_trans.
Qed.

(** The sentinel yields a whole chunk of zeros. *)
Lemma next_shortcut k r :
  vr_ctrl r = 0xFF → vr_scut r = Z.of_nat k →
  ∃ r', read_n next k r = Some (replicate k 0, r') ∧ vr_scut r' = 0 ∧
    vr_src r' = vr_src r ∧ vr_pos r' = vr_pos r ∧
    Z.even (vr_cnt r') = Z.even (vr_cnt r + Z.of_nat k).
Proof.
  revert r. induction k as [|k IH]; intros r Hc Hs; cbn [read_n replicate].
  { exists r. by rewrite Z.add_0_r. }
  pose (r1 := mkVR (vr_src r) (vr_pos r) (u32 (vr_cnt r + 1)) (vr_ctrl r) (vr_scut r - 1)).
  assert (next r = Some (0, r1)) as ->
    by (unfold next; by rewrite decide_True by (split; [done|lia])).
  cbn [mbind option_bind]. destruct (IH r1)
    as (r'&->&?&?&?&Ev); [done|simpl; lia|].
  exists r'. split_and!; [done|done|done|done|]. rewrite Ev. simpl.
  rewrite Z.even_add, u32_even, <- Z.even_add. f_equal. lia.
Qed.

Lemma next_zeros r tl :
  idle r → rest r = 0xFF :: tl →
  ∃ r', read_n next 16 r = Some (replicate 16 0, r') ∧ consumed r r' tl.
Proof.
  intros (Hok&Hev&Hsc) E. apply even_mod2 in Hev as Hm.
  pose (r1 := mkVR (vr_src r) (vr_pos r + 1) (u32 (vr_cnt r + 1)) 0xFF 15).
  assert (N1 : next r = Some (0, r1)).
  { unfold next. rewrite decide_False by (intros []; lia).
    rewrite (decide_True (P := vr_cnt r mod 2 = 0)) by done.
    rewrite (read_raw_reads 1 [0xFF]) with (tl := tl) by (done || exact Hok || exact E).
    done. }
  destruct (next_shortcut 15 r1) as (r'&E2&Hs&Esrc&Epos&Ev); [done|done|].
  exists r'. split; [exact (read_n_S next 15 _ _ _ _ _ N1 E2)|].
  assert (Er : rest r' = tl).
  { unfold rest. rewrite Esrc, Epos. exact (advance_rest r [0xFF] tl E). }
  split_and!; [|done|done]. split_and!; [|by rewrite Ev; simpl;
    rewrite Z.even_add, u32_even, Z.even_add, Hev|done].
  pose proof (advance_ok r [0xFF] tl Hok E) as [??].
  split; [by rewrite Esrc|by rewrite Esrc, Epos].
Qed.

Lemma zeros_replicate l :
  forallb (λ v, bool_decide (v = 0)) l = true → l = replicate (length l) 0.
Proof.
  induction l as [|v l IH]; simpl; [done|]. intros [E1 E2]%andb_prop.
  apply bool_decide_eq_true in E1. rewrite E1. f_equal. auto.
Qed.

(** Reading a chunk gives back the values [tput] was given. *)
Lemma next_chunk l r tl :
  Forall is_u64 l → length l = 16%nat → idle r →
  rest r = VByteWriter.chunk_bytes l ++ tl →
  ∃ r', read_n next 16 r = Some (l, r') ∧ consumed r r' tl.
Proof.
  intros Hl Hn Hi E. unfold VByteWriter.chunk_bytes in E.
  destruct (forallb _ l) eqn:Z0.
  - destruct (next_zeros r tl Hi E) as (r'&E'&C). exists r'. split; [|done].
    rewrite E'. do 2 f_equal. rewrite <- Hn. symmetry. by apply zeros_replicate.
  - rewrite <- Hn. apply next_pairs; [done|by rewrite Hn|done|done].
Qed.

Lemma tail_bytes_pairs l :
  ∃ pad, VByteWriter.tail_bytes l = VByteWriter.pairs_bytes (l ++ pad) ∧
         (length (l ++ pad) mod 2 = 0)%nat ∧ Forall is_u64 pad.
Proof.
  induction l as [|x|x y l (pad&E&Hm&Hp)] using VByteWriter.pair_ind.
  - by exists [].
  - exists [0]. split_and!; [by cbn; rewrite app_nil_r|done|]. constructor; [|constructor].
    unfold is_u64. lia.
  - exists pad. split_and!; [by cbn; rewrite E| |done].
    cbn [app length]. replace (Datatypes.S (Datatypes.S (length (l ++ pad))))
      with (length (l ++ pad) + 1 * 2)%nat by lia. by rewrite Nat.Div0.mod_add.
Qed.

Lemma next_tail l r tl :
  Forall is_u64 l → idle r → rest r = VByteWriter.tail_bytes l ++ tl →
  ∃ r', read_n next (length l) r = Some (l, r').
Proof.
  intros Hl Hi E. destruct (tail_bytes_pairs l) as (pad&Ep&Hm&Hp). rewrite Ep in E.
  destruct (next_pairs (l ++ pad) r tl) as (r'&En&_);
    [by apply Forall_app|done|done|done|].
  rewrite length_app in En. apply read_n_prefix in En as (r''&En).
  exists r''. by rewrite take_app_length in En.
Qed.

End ReaderFacts.
End VByteReader.

(** ** Properties *)

Section Properties.
Context {S R : Type} `{ByteSinkLaws S} `{ByteSourceLaws R}.

Lemma make_idle (src : R) p :
  src_inv src → (p ≤ length (src_bytes src))%nat → VByteReader.idle (VByteReader.make src p).
Proof. intros. by split_and!. Qed.

(** A chunk of 16 values that fits is accepted by [tput], and
    sixteen [next] calls on any memory that holds the stream return exactly
    those values and stop after them. *)
Theorem vbyte_chunk_roundtrip (w : VByteStreamWriter S) l :
  sk_inv (vw_sink w) → Forall is_u64 l → length l = 16%nat →
  Z.of_nat (length (VByteWriter.chunk_bytes l)) ≤ VByteWriter.space_left w →
  ∃ w', VByteWriter.tput l w = Some (true, w') ∧
    ∀ (src : R) tl, src_inv src → src_bytes src = sk_mem (vw_sink w') ++ tl →
    ∃ r', read_n VByteReader.next 16
            (VByteReader.make src (length (sk_mem (vw_sink w)))) = Some (l, r') ∧
          VByteReader.rest r' = tl.
Proof.
  intros Hw Hl Hn Hsp.
  destruct (VByteWriter.tput_emits l Hl ltac:(by rewrite Hn) w Hw Hsp) as (w'&E&(_&Em&_)&_).
  exists w'. split; [done|]. intros src tl Hs Hb. rewrite Em, <- app_assoc in Hb.
  destruct (VByteReader.next_chunk l (VByteReader.make src (length (sk_mem (vw_sink w)))) tl)
    as (r'&Er&(_&Ert&_)); [done|done|apply make_idle; [done|]|..].
  - rewrite Hb, length_app. lia.
  - unfold VByteReader.rest. simpl. by rewrite Hb, drop_app_length.
  - by exists r'.
Qed.

(** A chunk that does not fit is refused and the stream is left
    exactly as it was, the bytes of the pairs already encoded included. *)
Theorem vbyte_tput_transactional (w : VByteStreamWriter S) l :
  sk_inv (vw_sink w) → Forall is_u64 l → length l = 16%nat →
  0 < VByteWriter.space_left w < Z.of_nat (length (VByteWriter.chunk_bytes l)) →
  ∃ w', VByteWriter.tput l w = Some (false, w') ∧ sk_inv (vw_sink w') ∧
        sk_mem (vw_sink w') = sk_mem (vw_sink w).
Proof. intros Hw Hl Hn Hsp. apply VByteWriter.tput_full; [done|by rewrite Hn|done|done]. Qed.

(** Any number of values, odd or even, written one by one with
    [put] and closed with [commit] are read back by as many [next]s. *)
Theorem vbyte_tail_roundtrip (s : S) l :
  sk_inv s → Forall is_u64 l →
  Z.of_nat (length (VByteWriter.tail_bytes l)) ≤ sk_space s →
  ∃ w', (VByteWriter.puts l (VByteWriter.make s) ;;; VByteWriter.commit) = Some (true, w') ∧
    ∀ (src : R) tl, src_inv src → src_bytes src = sk_mem (vw_sink w') ++ tl →
    ∃ r', read_n VByteReader.next (length l)
            (VByteReader.make src (length (sk_mem s))) = Some (l, r').
Proof.
  intros Hs Hl Hsp.
  destruct (VByteWriter.puts_commit_grows l (VByteWriter.make s)) as (w'&E&(_&Em&_)); [done..|].
  exists w'. split; [done|]. intros src tl Hsrc Hb. rewrite Em, <- app_assoc in Hb.
  eapply VByteReader.next_tail; [done|apply make_idle; [done|]|].
  - rewrite Hb, length_app. simpl. lia.
  - unfold VByteReader.rest. simpl. by rewrite Hb, drop_app_length.
Qed.

End Properties.

Lemma vbyte_chunk_roundtrip_witness :
  let l := Z.of_nat <$> seq 250 16 in
  let w := VByteWriter.make (mkRegion (replicate 64 0) 0) in
  ∃ w' r', VByteWriter.tput l w = Some (true, w') ∧
    read_n VByteReader.next 16 (VByteReader.make (sk_mem (vw_sink w')) 0) = Some (l, r').
Proof.
  intros l w. destruct (vbyte_chunk_roundtrip (R := list Z) w l) as (w'&E&Hr);
    [by_compute|by_compute|done|by_compute|].
  assert (w' = default w (snd <$> VByteWriter.tput l w)) as Ew by (by rewrite E).
  destruct (Hr (sk_mem (vw_sink w')) []) as (r'&Er&_); [rewrite Ew; by_compute|by rewrite app_nil_r|].
  exists w', r'. split; [exact E|exact Er].
Defined.

Lemma vbyte_tput_transactional_witness :
  let l := Z.of_nat <$> seq 250 16 in
  let w := VByteWriter.make (mkRegion (replicate 20 0) 0) in
  ∃ w', VByteWriter.tput l w = Some (false, w') ∧ sk_inv (vw_sink w') ∧
        sk_mem (vw_sink w') = sk_mem (vw_sink w).
Proof. intros l w. apply (vbyte_tput_transactional w l); [by_compute|by_compute|done|by_compute]. Defined.

Lemma vbyte_tail_roundtrip_witness :
  let s := mkRegion (replicate 16 0) 0 in
  ∃ w' r', (VByteWriter.puts [7; 70000; 1] (VByteWriter.make s) ;;; VByteWriter.commit) = Some (true, w') ∧
    read_n VByteReader.next 3 (VByteReader.make (sk_mem (vw_sink w')) 0) = Some ([7; 70000; 1], r').
Proof.
  intros s. destruct (vbyte_tail_roundtrip (R := list Z) s [7; 70000; 1]) as (w'&E&Hr);
    [by_compute|by_compute|by_compute|].
  assert (w' = default (VByteWriter.make s)
    (snd <$> (VByteWriter.puts [7; 70000; 1] (VByteWriter.make s) ;;; VByteWriter.commit))) as Ew by (by rewrite E).
  destruct (Hr (sk_mem (vw_sink w')) []) as (r'&Er); [rewrite Ew; by_compute|by rewrite app_nil_r|].
  exists w', r'. split; [exact E|exact Er].
Defined.
