(* ===== verification/DeltaDelta.v ===== *)
(** * Delta-delta coding of timestamps (compression.h,
    [DeltaDeltaStreamWriter<16, u64>], [DeltaDeltaStreamReader<16, u64>])

    A chunk of sixteen timestamps is stored as the smallest difference between
    neighbours, base-128, followed by a VByte chunk of the differences minus
    that smallest one; all arithmetic is modulo [2^64].  The stream is held by
    reference in the code, so the operations take and return it next to the
    coder's own state. *)
From S2P Require Import Prelude ByteStream Base128 VByte.

Definition STEP : nat := 16.
#[global] Arguments STEP : simpl never.

(** ** Writer *)
Module DeltaDeltaStreamWriter.

Record t := mk { prev_ : Z; put_calls_ : Z }.

Definition init : t := mk 0 0.

(** The first loop of [tput]: differences, last value, smallest difference. *)
Fixpoint deltas (prev min : Z) (iter : list Z) : list Z * Z * Z :=
  match iter with
  | [] => ([], prev, min)
  | value :: iter =>
    let result := u64 (value - prev) in
    let '(out, prev, min) := deltas value (Z.min result min) iter in
    (result :: out, prev, min)
  end.

Section Writer.
Context {S : Type} `{ByteSink S} `{!Base128Sink S}.
Local Notation VW := (VByteStreamWriter S).

Definition tput (iter : list Z) (dd : t) (w : VW) : option (bool * (t * VW)) :=
  if decide (length iter = STEP) then
    iter0 ← iter !! 0%nat;
    let '(outbuf, prev, min) := deltas (prev_ dd) (u64 (iter0 - prev_ dd)) iter in
    let dd := mk prev (put_calls_ dd) in
    '(success, w) ← VByteWriter.put_base128 min w;
    if success : bool then
      '(b, w) ← VByteWriter.tput ((λ x, u64 (x - min)) <$> outbuf) w;
      Some (b, (dd, w))
    else Some (false, (dd, w))
  else None.

(** The values after the last chunk; the first [put] writes a zero minimum. *)
Definition put (value : Z) (dd : t) (w : VW) : option (bool * (t * VW)) :=
  '(success, w) ←
    (if decide (put_calls_ dd = 0) then VByteWriter.put_base128 0 w else Some (true, w));
  if success : bool then
    '(success, w) ← VByteWriter.put (u64 (value - prev_ dd)) w;
    Some (success, (mk value (put_calls_ dd + 1), w))
  else Some (false, (dd, w)).

Definition size (w : VW) : nat := VByteWriter.size w.

Definition commit (w : VW) : option (bool * VW) := VByteWriter.commit w.

End Writer.

(** *** The bytes of a chunk *)

Definition chunk_bytes (prev : Z) (l : list Z) : list Z :=
  let '(ds, _, min) := deltas prev (u64 (default 0 (l !! 0%nat) - prev)) l in
  Base128Int.bytes min ++ VByteWriter.chunk_bytes ((λ x, u64 (x - min)) <$> ds).

Lemma deltas_spec l prev m ds p m' :
  deltas prev m l = (ds, p, m') → is_u64 m →
  length ds = length l ∧ Forall is_u64 ds ∧ is_u64 m' ∧ p = default prev (last l).
Proof.
  revert prev m ds p m'. induction l as [|v l IH]; intros prev m ds p m' E Hm; simpl in E.
  { by simplify_eq. }
  destruct (deltas v _ l) as [[ds1 p1] m1] eqn:E1. simplify_eq.
  pose proof (u64_range (v - prev)) as Hd.
  destruct (IH _ _ _ _ _ E1) as (Hl&Hds&Hm1&->).
  { destruct (Z.min_spec (u64 (v - prev)) m) as [[? ->]|[? ->]]; done. }
  split_and!; [simpl; lia|by constructor|done|].
  rewrite last_cons. by destruct (last l).
Qed.

Lemma chunk_bytes_length prev l :
  length l = 16%nat → (2 ≤ length (chunk_bytes prev l) ≤ 146)%nat.
Proof.
  intros Hl. unfold chunk_bytes.
  destruct (deltas _ _ l) as [[ds p] m] eqn:E.
  apply deltas_spec in E as (Hd&Hds&Hm&_); [|apply u64_range].
  rewrite length_app. pose proof (Base128Int.bytes_length m) as Hb.
  unfold Base128Int.MAX_BYTES in Hb.
  assert (1 ≤ length (VByteWriter.chunk_bytes ((λ x, u64 (x - m)) <$> ds)) ≤ 136)%nat; [|lia].
  apply VByteWriter.length_chunk_bytes; [|by rewrite length_fmap, Hd].
  apply Forall_fmap, Forall_true. intros x. apply u64_range.
Qed.

Section Emits.
Context {S : Type} `{Base128SinkLaws S}.
Local Notation VW := (VByteStreamWriter S).

Lemma put_base128_emits v :
  is_u64 v → VByteWriter.emits (S := S) (VByteWriter.put_base128 v) (Base128Int.bytes v).
Proof.
  intros Hv w Hw Hl. unfold VByteWriter.put_base128, VByteWriter.space_left in *.
  destruct (sk_put_base128_ok v (vw_sink w) Hw Hv) as (b&s'&bs&->&Hg&Hb). simpl.
  destruct b; [|lia]. rewrite Hb in Hg. by exists (VByteWriter.set_sink s' w).
Qed.

(** A chunk that fits is written whole, and the coder remembers its last
    timestamp. *)
Lemma dd_tput_grows l dd (w : VW) :
  length l = 16%nat → sk_inv (vw_sink w) →
  Z.of_nat (length (chunk_bytes (prev_ dd) l)) ≤ VByteWriter.space_left w →
  ∃ w', tput l dd w = Some (true, (mk (default (prev_ dd) (last l)) (put_calls_ dd), w')) ∧
        grows (vw_sink w) (vw_sink w') (chunk_bytes (prev_ dd) l) ∧
        vw_cnt w' = vw_cnt w ∧ vw_prev w' = vw_prev w.
Proof.
  intros Hl Hw Hsp. unfold tput. rewrite decide_True by done.
  destruct l as [|x l]; [done|]. simpl (_ !! _). cbn [mbind option_bind].
  unfold chunk_bytes in *. simpl (_ !! _) in *. cbn [default] in *.
  destruct (deltas _ _ (x :: l)) as [[ds p] m] eqn:E.
  apply deltas_spec in E as (Hd&Hds&Hm&->); [|apply u64_range].
  assert (Hds' : Forall is_u64 ((λ x, u64 (x - m)) <$> ds))
    by (apply Forall_fmap, Forall_true; intros y; apply u64_range).
  assert (Hm2 : (length ((λ x, u64 (x - m)) <$> ds) mod 2 = 0)%nat)
    by (by rewrite length_fmap, Hd, Hl).
  destruct (VByteWriter.emits_seq _ _ _ _ (put_base128_emits m Hm)
    (VByteWriter.tput_emits _ Hds' Hm2) w Hw Hsp) as (w'&E'&Hrest).
  exists w'. split; [|done].
  destruct (VByteWriter.put_base128 m w) as [[[] w1]|]; simpl in *; try done.
  by rewrite E'.
Qed.

End Emits.
End DeltaDeltaStreamWriter.

(** ** Reader *)
Module DeltaDeltaStreamReader.

Record t := mk { prev_ : Z; min_ : Z; counter_ : Z }.

Definition init : t := mk 0 0 0.

Section Reader.
Context {S : Type} `{ByteSource S}.
Local Notation VR := (VByteStreamReader S).

Definition next (st : t * VR) : option (Z * (t * VR)) :=
  let '(dd, r) := st in
  '(min, r) ← (if decide (counter_ dd mod Z.of_nat STEP = 0)
               then VByteReader.next_base128 r else Some (min_ dd, r));
  '(delta, r) ← VByteReader.next r;
  let value := u64 (prev_ dd + delta + min) in
  Some (value, (mk value min (counter_ dd + 1), r)).

End Reader.

Section Facts.
Context {S : Type} `{ByteSourceLaws S}.
Local Notation VR := (VByteStreamReader S).

(** The timestamps that a run of differences stands for. *)
Fixpoint sums (prev min : Z) (ds : list Z) : list Z :=
  match ds with
  | [] => []
  | d :: ds => let v := u64 (prev + d + min) in v :: sums v min ds
  end.

Lemma sums_deltas l prev m ds p m' m0 :
  DeltaDeltaStreamWriter.deltas prev m l = (ds, p, m') → Forall is_u64 l →
  sums prev m0 ((λ x, u64 (x - m0)) <$> ds) = l.
Proof.
  revert prev m ds p m'. induction l as [|v l IH]; intros prev m ds p m' E Hl; simpl in E.
  { by simplify_eq. }
  destruct (DeltaDeltaStreamWriter.deltas v _ l) as [[ds1 p1] m1] eqn:E1. simplify_eq/=.
  apply Forall_cons in Hl as [Hv Hl].
  assert (u64 (prev + u64 (u64 (v - prev) - m0) + m0) = v) as ->.
  { rewrite u64_sub_l.
    replace (prev + u64 (v - prev - m0) + m0) with (prev + m0 + u64 (v - prev - m0)) by ring.
    rewrite u64_add_r. replace (prev + m0 + (v - prev - m0)) with v by ring. by apply u64_id. }
  f_equal. by eapply IH.
Qed.

(** Inside a chunk no minimum is read. *)
Lemma dd_next_run ds prev min c (r r' : VR) :
  read_n VByteReader.next (length ds) r = Some (ds, r') →
  0 < c → (c - 1) mod 16 + Z.of_nat (length ds) ≤ 15 →
  read_n next (length ds) (mk prev min c, r)
    = Some (sums prev min ds,
            (mk (default prev (last (sums prev min ds))) min (c + Z.of_nat (length ds)), r')).
Proof.
  revert prev c r. induction ds as [|d ds IH]; intros prev c r E Hc Hb; simpl in E.
  { simplify_eq. simpl. by rewrite Z.add_0_r. }
  destruct (VByteReader.next r) as [[d0 r1]|] eqn:En; simpl in E; [|done].
  destruct (read_n VByteReader.next (length ds) r1) as [[l0 r2]|] eqn:E1; simpl in E; [|done].
  simplify_eq. cbn [length] in *.
  eapply read_n_S with (r1 := (mk (u64 (prev + d + min)) min (c + 1), r1)).
  { unfold next. rewrite decide_False by (simpl; unfold STEP; zify_div).
    simpl. by rewrite En. }
  rewrite (IH _ (c + 1) r1 E1) by zify_div. simpl sums. do 3 f_equal. f_equal; [|lia].
  rewrite last_cons. by destruct (last (sums _ min ds)).
Qed.

(** Sixteen [next]s at a chunk boundary return the chunk. *)
Lemma dd_next_chunk l dd (r : VR) tl :
  Forall is_u64 l → length l = 16%nat → VByteReader.idle r →
  counter_ dd mod 16 = 0 → 0 ≤ counter_ dd →
  VByteReader.rest r = DeltaDeltaStreamWriter.chunk_bytes (prev_ dd) l ++ tl →
  ∃ dd' r', read_n next 16 (dd, r) = Some (l, (dd', r')) ∧
    VByteReader.consumed r r' tl ∧
    prev_ dd' = default (prev_ dd) (last l) ∧ counter_ dd' = counter_ dd + 16.
Proof.
  intros Hl Hn Hi Hc Hc0 E. unfold DeltaDeltaStreamWriter.chunk_bytes in E.
  destruct (DeltaDeltaStreamWriter.deltas _ _ l) as [[ds p] m] eqn:Ed.
  pose proof (DeltaDeltaStreamWriter.deltas_spec _ _ _ _ _ _ Ed (u64_range _))
    as (Hd&Hds&Hm&_).
  pose proof (sums_deltas _ _ _ _ _ _ m Ed Hl) as Hsum.
  set (es := (λ x, u64 (x - m)) <$> ds) in *.
  assert (Hes : length es = 16%nat) by (unfold es; by rewrite length_fmap, Hd).
  rewrite <- app_assoc in E.
  pose proof (VByteReader.next_base128_reads m Hm r _ (proj1 Hi) E) as Emin.
  set (r0 := VByteReader.advance _ r) in *.
  assert (Hi0 : VByteReader.idle r0).
  { destruct Hi as (?&?&?). split_and!; try done. by eapply VByteReader.advance_ok. }
  assert (E0 : VByteReader.rest r0 = VByteWriter.chunk_bytes es ++ tl)
    by (by apply VByteReader.advance_rest).
  destruct (VByteReader.next_chunk es r0 tl) as (r'&En&Hcons); [|done|done|done|].
  { unfold es. apply Forall_fmap, Forall_true. intros y. apply u64_range. }
  destruct es as [|e es]; [done|]. injection Hes as Hes. simpl in Hsum.
  apply read_n_S_inv in En as (e0&r1&es0&E1&E2&[= <- <-]).
  assert (N1 : next (dd, r) = Some (u64 (prev_ dd + e + m),
      (mk (u64 (prev_ dd + e + m)) m (counter_ dd + 1), r1))).
  { unfold next. rewrite decide_True by done. rewrite Emin. simpl. by rewrite E1. }
  rewrite <- Hes in E2.
  pose proof (dd_next_run es (u64 (prev_ dd + e + m)) m (counter_ dd + 1) r1 r' E2) as N2.
  rewrite Hes in N2. specialize (N2 ltac:(lia) ltac:(zify_div)).
  eexists _, r'. split; [|split; [done|]].
  { rewrite <- Hsum. exact (read_n_S next 15 _ _ _ _ _ N1 N2). }
  simpl. split; [|lia]. rewrite <- Hsum, last_cons. by destruct (last (sums _ _ es)).
Qed.
End Facts.
End DeltaDeltaStreamReader.

(** ** Property *)

Section Properties.
Context {S R : Type} `{Base128SinkLaws S} `{ByteSourceLaws R}.

(** C39: a chunk of sixteen timestamps, in any order and of any size, is
    accepted when it fits, and a reader at the same previous timestamp decodes
    exactly the chunk and ends at the same previous timestamp: the coders stay
    in step for the next chunk. *)
Theorem deltadelta_chunk_roundtrip l ddw (w : VByteStreamWriter S) :
  Forall is_u64 l → length l = 16%nat → sk_inv (vw_sink w) →
  Z.of_nat (length (DeltaDeltaStreamWriter.chunk_bytes (DeltaDeltaStreamWriter.prev_ ddw) l))
    ≤ VByteWriter.space_left w →
  ∃ ddw' w', DeltaDeltaStreamWriter.tput l ddw w = Some (true, (ddw', w')) ∧
    ∀ (src : R) tl ddr, src_inv src → src_bytes src = sk_mem (vw_sink w') ++ tl →
    DeltaDeltaStreamReader.prev_ ddr = DeltaDeltaStreamWriter.prev_ ddw →
    DeltaDeltaStreamReader.counter_ ddr mod 16 = 0 →
    0 ≤ DeltaDeltaStreamReader.counter_ ddr →
    ∃ ddr' r', read_n DeltaDeltaStreamReader.next 16
        (ddr, VByteReader.make src (length (sk_mem (vw_sink w)))) = Some (l, (ddr', r')) ∧
      VByteReader.rest r' = tl ∧
      DeltaDeltaStreamReader.prev_ ddr' = DeltaDeltaStreamWriter.prev_ ddw'.
Proof.
  intros Hl Hn Hw Hsp.
  destruct (DeltaDeltaStreamWriter.dd_tput_grows l ddw w Hn Hw Hsp) as (w'&E&(_&Em&_)&_).
  eexists _, w'. split; [done|]. intros src tl ddr Hs Hb Hp Hc Hc0.
  rewrite Em, <- app_assoc in Hb.
  destruct (DeltaDeltaStreamReader.dd_next_chunk l ddr
    (VByteReader.make src (length (sk_mem (vw_sink w)))) tl)
    as (ddr'&r'&Er&(_&Ert&_)&Epr&_); try done.
  - apply make_idle; [done|]. rewrite Hb, length_app. lia.
  - unfold VByteReader.rest. simpl. by rewrite Hb, drop_app_length, Hp.
  - exists ddr', r'. split_and!; [done|done|]. simpl. by rewrite Epr, Hp.
Qed.

End Properties.

Lemma deltadelta_chunk_roundtrip_witness :
  let l := (λ i, 1000 - 3 * Z.of_nat i * Z.of_nat i) <$> seq 0 16 in
  let w := VByteWriter.make (mkRegion (replicate 150 0) 0) in
  ∃ ddw' w' r', DeltaDeltaStreamWriter.tput l DeltaDeltaStreamWriter.init w = Some (true, (ddw', w')) ∧
    read_n DeltaDeltaStreamReader.next 16
      (DeltaDeltaStreamReader.init, VByteReader.make (sk_mem (vw_sink w')) 0) = Some (l, r').
Proof.
  intros l w. destruct (deltadelta_chunk_roundtrip (R := list Z) l DeltaDeltaStreamWriter.init w) as (ddw'&w'&E&Hr);
    [by_compute|done|by_compute|by_compute|].
  assert (w' = default w (snd ∘ snd <$> DeltaDeltaStreamWriter.tput l DeltaDeltaStreamWriter.init w)) as Ew by (by rewrite E).
  destruct (Hr (sk_mem (vw_sink w')) [] DeltaDeltaStreamReader.init) as (ddr'&r'&Er&_);
    [rewrite Ew; by_compute|by rewrite app_nil_r|done|done|done|].
  exists ddw', w', (ddr', r'). split; [exact E|exact Er].
Defined.
