(* ===== verification/Predictor.v ===== *)
(** * Value predictors (compression.cc, [SimplePredictor], [FcmPredictor],
    [DfcmPredictor])

    A predictor guesses the next 64-bit pattern from the ones it has seen.
    The float codec only needs that writer and reader predict alike, which the
    class [PredictorLaws] states; the three predictors of the code are
    instances.  [PredictorT] is [DfcmPredictor] in the engine. *)
From S2P Require Import Prelude.

(** ** What the codec needs of a predictor *)

Class Predictor (P : Type) := {
  predict_next : P → option Z;
  update : Z → P → option P;
}.

Class PredictorLaws (P : Type) `{Predictor P} := {
  pred_ok : P → Prop;
  predict_ok p : pred_ok p → ∃ v, predict_next p = Some v ∧ is_u64 v;
  update_ok v p : pred_ok p → is_u64 v → ∃ p', update v p = Some p' ∧ pred_ok p';
}.

(** ** [SimplePredictor] *)
Module SimplePredictor.

Record t := mk { last_value : Z }.
Definition make : t := mk 0.
Definition predict_next (p : t) : option Z := Some (last_value p).
Definition update (value : Z) (p : t) : option t := Some (mk value).

End SimplePredictor.

(** ** [FcmPredictor]: a table of the values last seen after a hash of the
    recent ones; [table[last_hash]] is an unchecked access. *)
Module FcmPredictor.

Record t := mk { table : list Z; last_hash : Z; MASK_ : Z }.

Definition make (table_size : Z) : option t :=
  let mask := u64 (table_size - 1) in
  if decide (Z.land table_size mask = 0)
  then Some (mk (replicate (Z.to_nat table_size) 0) 0 mask) else None.

Definition predict_next (p : t) : option Z := table p !! Z.to_nat (last_hash p).

Definition hash (last value mask : Z) : Z :=
  Z.land (Z.lxor (u64 (Z.shiftl last 5)) (Z.shiftr value 50)) mask.

Definition update (value : Z) (p : t) : option t :=
  if decide (Z.to_nat (last_hash p) < length (table p))%nat then
    Some (mk (<[Z.to_nat (last_hash p) := value]> (table p))
             (hash (last_hash p) value (MASK_ p)) (MASK_ p))
  else None.

End FcmPredictor.

(** ** [DfcmPredictor]: the same on differences of consecutive values, over a
    fixed array of [PREDICTOR_N] entries; [table.at] throws out of range. *)
Module DfcmPredictor.

Definition PREDICTOR_N : Z := Z.shiftl 1 7.

Record t := mk { table : list Z; last_hash : Z; last_value : Z; MASK_ : Z }.

Definition make (table_size : Z) : option t :=
  let mask := u64 (table_size - 1) in
  if decide (Z.land table_size mask = 0)
  then Some (mk (replicate (Z.to_nat PREDICTOR_N) 0) 0 0 mask) else None.

Definition predict_next (p : t) : option Z :=
  v ← table p !! Z.to_nat (last_hash p); Some (u64 (v + last_value p)).

Definition update (value : Z) (p : t) : option t :=
  if decide (Z.to_nat (last_hash p) < length (table p))%nat then
    let d := u64 (value - last_value p) in
    Some (mk (<[Z.to_nat (last_hash p) := d]> (table p))
             (FcmPredictor.hash (last_hash p) d (MASK_ p)) value (MASK_ p))
  else None.

End DfcmPredictor.

(** ** Instances *)

#[export] Instance simple_predictor : Predictor SimplePredictor.t :=
  {| predict_next := SimplePredictor.predict_next; update := SimplePredictor.update |}.
#[export] Instance fcm_predictor : Predictor FcmPredictor.t :=
  {| predict_next := FcmPredictor.predict_next; update := FcmPredictor.update |}.
#[export] Instance dfcm_predictor : Predictor DfcmPredictor.t :=
  {| predict_next := DfcmPredictor.predict_next; update := DfcmPredictor.update |}.

(** A masked hash is an index below [mask + 1]. *)
Lemma hash_range h v m : 0 ≤ m → 0 ≤ FcmPredictor.hash h v m ≤ m.
Proof.
  intros Hm. unfold FcmPredictor.hash. set (x := Z.lxor _ _). split.
  - apply Z.land_nonneg. by right.
  - assert (E : m - Z.land x m = Z.ldiff m (Z.land x m)).
    { apply Z.sub_nocarry_ldiff. apply Z.bits_inj'. intros i Hi.
      rewrite ?Z.ldiff_spec, ?Z.land_spec, ?Z.lnot_spec, ?Z.bits_0 by done.
      by destruct (Z.testbit x i), (Z.testbit m i). }
    assert (0 ≤ Z.ldiff m (Z.land x m)) by (apply Z.ldiff_nonneg; by left). lia.
Qed.

(** The table is as long as the mask allows and holds 64-bit values. *)
Definition table_ok (table : list Z) (hash mask : Z) : Prop :=
  Forall is_u64 table ∧ 0 ≤ mask ∧ (Z.to_nat mask < length table)%nat ∧ 0 ≤ hash ≤ mask.

Lemma table_lookup table h m :
  table_ok table h m → ∃ v, table !! Z.to_nat h = Some v ∧ is_u64 v.
Proof.
  intros (Hf&Hm&Hl&Hh). destruct (lookup_lt_is_Some_2 table (Z.to_nat h)) as [v Hv]; [lia|].
  exists v. split; [done|]. by eapply Forall_lookup_1.
Qed.

Lemma table_update table h m d :
  table_ok table h m → is_u64 d →
  table_ok (<[Z.to_nat h := d]> table) (FcmPredictor.hash h d m) m.
Proof.
  intros (Hf&Hm&Hl&Hh) Hd. pose proof (hash_range h d m Hm).
  split_and!; [by apply Forall_insert|done| |lia|lia]. by rewrite length_insert.
Qed.

#[export] Program Instance simple_predictor_laws : PredictorLaws SimplePredictor.t := {
  pred_ok p := is_u64 (SimplePredictor.last_value p);
}.
Next Obligation. intros [v] Hv. by exists v. Qed.
Next Obligation. intros v p Hp Hv. by eexists. Qed.

#[export] Program Instance fcm_predictor_laws : PredictorLaws FcmPredictor.t := {
  pred_ok p := table_ok (FcmPredictor.table p) (FcmPredictor.last_hash p) (FcmPredictor.MASK_ p);
}.
Next Obligation. intros p Hp. by apply (table_lookup _ _ _ Hp). Qed.
Next Obligation.
  intros v p Hp Hv. simpl in *. unfold FcmPredictor.update.
  rewrite decide_True by (destruct Hp as (?&?&?&?); lia).
  eexists. split; [done|]. by apply table_update.
Qed.

#[export] Program Instance dfcm_predictor_laws : PredictorLaws DfcmPredictor.t := {
  pred_ok p := table_ok (DfcmPredictor.table p) (DfcmPredictor.last_hash p) (DfcmPredictor.MASK_ p);
}.
Next Obligation.
  intros p Hp. simpl in *. unfold DfcmPredictor.predict_next.
  destruct (table_lookup _ _ _ Hp) as (v&->&Hv). eexists. split; [done|]. apply u64_range.
Qed.
Next Obligation.
  intros v p Hp Hv. simpl in *. unfold DfcmPredictor.update.
  rewrite decide_True by (destruct Hp as (?&?&?&?); lia).
  eexists. split; [done|]. apply table_update; [done|apply u64_range].
Qed.

(** The predictor of the engine: [PredictorT predictor_(PREDICTOR_N)]. *)
Lemma dfcm_make_ok :
  ∃ p, DfcmPredictor.make DfcmPredictor.PREDICTOR_N = Some p ∧ pred_ok p.
Proof.
  exists (DfcmPredictor.mk (replicate 128 0) 0 0 127). split; [reflexivity|].
  split_and!; cbn [DfcmPredictor.table DfcmPredictor.last_hash DfcmPredictor.MASK_]; try lia.
  - apply Forall_replicate. unfold is_u64. lia.
  - rewrite length_replicate. lia.
Qed.

(** A constructor call with a positive power of two below [2^64]. *)
Lemma fcm_make_ok n :
  0 ≤ n < 64 → ∃ p, FcmPredictor.make (2 ^ n) = Some p ∧ pred_ok p.
Proof.
  intros Hn. assert (Hp : 0 < 2 ^ n) by (apply Z.pow_pos_nonneg; lia).
  assert (2 ^ n < 2 ^ 64) by (apply Z.pow_lt_mono_r; lia).
  unfold FcmPredictor.make. rewrite u64_id by (unfold is_u64; lia).
  rewrite land_ones', Z.mod_same by lia. rewrite decide_True by done.
  eexists. split; [done|]. simpl. split_and!; try lia.
  - apply Forall_replicate. unfold is_u64. lia.
  - rewrite length_replicate. lia.
Qed.
