(* ===== verification/Fcm.v ===== *)
(** * Float coding by prediction (compression.h, [encode_value],
    [FcmStreamWriter], [FcmStreamReader])

    A double is handled as its 64-bit pattern (the unions of the code).  The
    pattern is XORed with the prediction and only the bytes of the difference
    that are not zero at one end are stored; two values share a byte of flags;
    sixteen exact predictions are the single byte 0xFF. *)
From S2P Require Import Prelude ByteStream Base128 VByte Predictor.

(** ** Writer *)
Module FcmStreamWriter.

Record t (P : Type) := mk {
  predictor_ : P;
  prev_diff_ : Z;
  prev_flag_ : Z;
  nelements_ : Z;
}.
Arguments mk {P} _ _ _ _.
Arguments predictor_ {P} _.
Arguments prev_diff_ {P} _.
Arguments prev_flag_ {P} _.
Arguments nelements_ {P} _.

Definition init {P} (p : P) : t P := mk p 0 0 0.

(** The flag of a difference: low three bits, bytes stored minus one; bit 3,
    the leading bytes are kept; 0xF, the difference is zero. *)
Definition flag_of (diff : Z) : Z :=
  if decide (diff ≠ 0) then
    let trailing_bytes := ctzll diff / 8 in
    let leading_bytes := clzll diff / 8 in
    if decide (trailing_bytes > leading_bytes) then
      let nbytes := 8 - trailing_bytes in
      let nbytes := if decide (nbytes > 0) then nbytes - 1 else nbytes in
      u8 (Z.lor 8 (Z.land nbytes 7))
    else
      let nbytes := 8 - leading_bytes in
      let nbytes := if decide (nbytes > 0) then nbytes - 1 else nbytes in
      u8 (Z.land nbytes 7)
  else 0xF.

Section Encode.
Context {P : Type} `{Predictor P}.

(** [encode]: predict, update the predictor, difference and flag. *)
Definition encode (bits : Z) (p : P) : option (Z * Z * P) :=
  predicted ← predict_next p;
  p ← update bits p;
  let diff := Z.lxor bits predicted in
  Some (diff, flag_of diff, p).

Fixpoint encode_all (values : list Z) (p : P) : option (list (Z * Z) * P) :=
  match values with
  | [] => Some ([], p)
  | v :: values =>
    '(diff, flag, p) ← encode v p;
    '(dfs, p) ← encode_all values p;
    Some ((diff, flag) :: dfs, p)
  end.
End Encode.

(** Flag 0xF is not stored: one zero byte is. *)
Definition store_flag (flag : Z) : Z := if decide (flag = 0xF) then 0 else flag.

Section Writer.
Context {S : Type} `{ByteSink S} `{!Base128Sink S}.
Local Notation VW := (VByteStreamWriter S).

(** [encode_value]: the switch on the number of bytes, with its
    fall-through cases. *)
Definition case1 (diff : Z) (w : VW) : option (bool * VW) :=
  VByteWriter.put_raw 1 (Z.land diff 0xFF) w.
Definition case2 (diff : Z) (w : VW) : option (bool * VW) :=
  VByteWriter.put_raw 1 (Z.land diff 0xFF) w ;;; case1 (Z.shiftr diff 8).
Definition case3 (diff : Z) (w : VW) : option (bool * VW) :=
  VByteWriter.put_raw 1 (Z.land diff 0xFF) w ;;; case2 (Z.shiftr diff 8).
Definition case4 (diff : Z) (w : VW) : option (bool * VW) :=
  VByteWriter.put_raw 4 (Z.land diff 0xFFFFFFFF) w.
Definition case5 (diff : Z) (w : VW) : option (bool * VW) :=
  VByteWriter.put_raw 1 (Z.land diff 0xFF) w ;;; case4 (Z.shiftr diff 8).
Definition case6 (diff : Z) (w : VW) : option (bool * VW) :=
  VByteWriter.put_raw 1 (Z.land diff 0xFF) w ;;; case5 (Z.shiftr diff 8).
Definition case7 (diff : Z) (w : VW) : option (bool * VW) :=
  VByteWriter.put_raw 1 (Z.land diff 0xFF) w ;;; case6 (Z.shiftr diff 8).
Definition case8 (diff : Z) (w : VW) : option (bool * VW) :=
  VByteWriter.put_raw 8 diff w.

Definition encode_value (diff flag : Z) (w : VW) : option (bool * VW) :=
  let nbytes := Z.land flag 7 + 1 in
  let nshift := (64 - nbytes * 8) * Z.shiftr flag 3 in
  let diff := Z.shiftr diff nshift in
  match nbytes with
  | 8 => case8 diff w
  | 7 => case7 diff w
  | 6 => case6 diff w
  | 5 => case5 diff w
  | 4 => case4 diff w
  | 3 => case3 diff w
  | 2 => case2 diff w
  | 1 => case1 diff w
  | _ => Some (true, w)
  end.

(** A byte of flags and its two values. *)
Definition put_pair (d1 f1 d2 f2 : Z) (w : VW) : option (bool * VW) :=
  let flags := u8 (Z.lor (Z.shiftl f1 4) f2) in
  VByteWriter.put_raw 1 flags w ;;; fun w =>
  encode_value d1 f1 w ;;;
  encode_value d2 f2.

Fixpoint put_pairs (dfs : list (Z * Z)) (w : VW) : option (bool * VW) :=
  match dfs with
  | (d1, f1) :: (d2, f2) :: dfs =>
    put_pair d1 (store_flag f1) d2 (store_flag f2) w ;;; put_pairs dfs
  | _ => Some (true, w)
  end.

Context {P : Type} `{Predictor P}.

(** [commit] closes an odd number of [put]s with an empty second value. *)
Definition commit (f : t P) (w : VW) : option (bool * VW) :=
  (if decide (nelements_ f mod 2 ≠ 0) then
     VByteWriter.put_raw 1 (u8 (Z.shiftl (prev_flag_ f) 4)) w ;;; fun w =>
     encode_value (prev_diff_ f) (prev_flag_ f) w ;;;
     encode_value 0 0
   else Some (true, w)) ;;;
  VByteWriter.commit.

Definition tput (values : list Z) (f : t P) (w : VW) : option (bool * (t P * VW)) :=
  if decide (length values = 16%nat) then
    '(dfs, p) ← encode_all values (predictor_ f);
    let f := mk p (prev_diff_ f) (prev_flag_ f) (nelements_ f) in
    let sum_diff := foldr Z.lor 0 (dfs.*1) in
    '(b, w) ←
      ((if decide (sum_diff = 0) then VByteWriter.put_raw 1 0xFF w
        else put_pairs dfs w) ;;; commit f);
    Some (b, (f, w))
  else None.

Definition put (value : Z) (f : t P) (w : VW) : option (bool * (t P * VW)) :=
  '(diff, flag, p) ← encode value (predictor_ f);
  let flag := store_flag flag in
  if decide (nelements_ f mod 2 = 0) then
    Some (true, (mk p diff flag (nelements_ f + 1), w))
  else
    '(b, w) ← put_pair (prev_diff_ f) (prev_flag_ f) diff flag w;
    Some (b, (mk p (prev_diff_ f) (prev_flag_ f)
                (if b : bool then nelements_ f + 1 else nelements_ f), w)).

End Writer.

(** *** The bytes of the format *)

Definition nbytes (flag : Z) : nat := Z.to_nat (Z.land flag 7 + 1).
Definition nshift (flag : Z) : Z := (64 - (Z.land flag 7 + 1) * 8) * Z.shiftr flag 3.

Definition value_bytes (diff flag : Z) : list Z :=
  le_bytes (nbytes flag) (Z.shiftr diff (nshift flag)).

Definition pair_bytes (d1 f1 d2 f2 : Z) : list Z :=
  (16 * f1 + f2) :: value_bytes d1 f1 ++ value_bytes d2 f2.

Fixpoint pairs_bytes (dfs : list (Z * Z)) : list Z :=
  match dfs with
  | (d1, f1) :: (d2, f2) :: dfs =>
    pair_bytes d1 (store_flag f1) d2 (store_flag f2) ++ pairs_bytes dfs
  | _ => []
  end.

Definition chunk_bytes (dfs : list (Z * Z)) : list Z :=
  if decide (foldr Z.lor 0 (dfs.*1) = 0) then [0xFF] else pairs_bytes dfs.

(** A stored flag describes its difference: the kept bytes determine it. *)
Definition flag_ok (diff flag : Z) : Prop :=
  is_u64 diff ∧ 0 ≤ flag ≤ 14 ∧ 0 ≤ nshift flag ≤ 56 ∧
  Z.shiftr diff (nshift flag) < 2 ^ (8 * Z.of_nat (nbytes flag)) ∧
  u64 (Z.shiftl (Z.shiftr diff (nshift flag)) (nshift flag)) = diff.

Lemma flag_low f : 0 ≤ f ≤ 15 → Z.land f 7 = f mod 8 ∧ Z.shiftr f 3 = f / 8.
Proof. intros. split; [apply (land_ones' f 3); lia|apply shiftr_div; lia]. Qed.

Lemma flag_zero_ok : flag_ok 0 0.
Proof. by split_and!; vm_compute. Qed.

(** Flags below 8 keep the low bytes, flags from 8 on the high ones. *)
Lemma flag_trailing_ok diff n :
  0 ≤ diff < 2 ^ (8 * (n + 1)) → 0 ≤ n ≤ 7 → flag_ok diff n.
Proof.
  intros Hd Hn. destruct (flag_low n) as [El Eh]; [lia|].
  assert (Es : nshift n = 0) by (unfold nshift; rewrite Eh, Z.div_small by lia; lia).
  assert (Hu : is_u64 diff).
  { split; [lia|]. apply Z.lt_le_trans with (2 ^ (8 * (n + 1))); [lia|].
    apply Z.pow_le_mono_r; lia. }
  unfold flag_ok. rewrite Es, Z.shiftr_0_r, Z.shiftl_0_r.
  split_and!; [done|lia|lia|lia|lia| |by apply u64_id].
  unfold nbytes. rewrite El, Z.mod_small by lia.
  replace (Z.of_nat (Z.to_nat (n + 1))) with (n + 1) by lia. lia.
Qed.

Lemma flag_leading_ok diff k :
  is_u64 diff → 1 ≤ k ≤ 7 → diff / 2 ^ (8 * k) * 2 ^ (8 * k) = diff →
  flag_ok diff (8 + (7 - k)).
Proof.
  intros Hd Hk E. destruct (flag_low (8 + (7 - k))) as [El Eh]; [lia|].
  assert (Es : nshift (8 + (7 - k)) = 8 * k).
  { unfold nshift. rewrite El, Eh. replace ((8 + (7 - k)) / 8) with 1 by zify_div.
    replace ((8 + (7 - k)) mod 8) with (7 - k) by zify_div. lia. }
  unfold flag_ok. rewrite Es, shiftr_div, shiftl_mul, E by lia.
  split_and!; [done|lia|lia|lia|lia| |by apply u64_id].
  unfold nbytes. rewrite El. replace ((8 + (7 - k)) mod 8) with (7 - k) by zify_div.
  apply Z.div_lt_upper_bound; [apply Z.pow_pos_nonneg; lia|].
  rewrite <- Z.pow_add_r by lia. replace (8 * k + _) with 64 by lia. apply Hd.
Qed.

Lemma store_flag_ok diff : is_u64 diff → flag_ok diff (store_flag (flag_of diff)).
Proof.
  intros Hd. unfold flag_of. case_decide as Hz; [|rewrite Hz; apply flag_zero_ok].
  assert (Hpos : 0 < diff < 2 ^ 64) by (destruct Hd; lia).
  pose proof (clzll_range diff Hpos) as Hc. pose proof (ctzll_lt diff Hpos) as Ht.
  pose proof (ctzll_nonneg diff).
  assert (Hl7 : ∀ n, 0 ≤ n ≤ 7 → Z.land n 7 = n).
  { intros n Hn. change 7 with (2 ^ 3 - 1). rewrite land_ones' by lia. apply Z.mod_small. lia. }
  case_decide as Hgt.
  - rewrite decide_True by zify_div. set (k := ctzll diff / 8) in *.
    assert (1 ≤ k ≤ 7) by (unfold k; zify_div).
    rewrite Hl7 by lia. assert (Z.lor 8 (8 - k - 1) = 8 + (7 - k)) as ->.
    { rewrite Z.lor_comm. transitivity (8 - k - 1 + 1 * 2 ^ 3); [|lia].
      apply (lor_shiftl (8 - k - 1) 1 3); lia. }
    rewrite u8_id by (unfold is_u8; lia). unfold store_flag. rewrite decide_False by lia.
    apply flag_leading_ok; [done|lia|]. apply ctzll_low_zero. lia.
  - rewrite decide_True by zify_div. set (k := clzll diff / 8) in *.
    assert (0 ≤ k ≤ 7) by (unfold k; zify_div).
    rewrite Hl7 by lia. rewrite u8_id by (unfold is_u8; lia).
    unfold store_flag. rewrite decide_False by lia.
    apply flag_trailing_ok; [|lia]. replace (8 * (8 - k - 1 + 1)) with (8 * (8 - k)) by lia.
    split; [lia|]. by apply clzll_bound.
Qed.

Lemma length_value_bytes diff flag : 0 ≤ flag → (1 ≤ length (value_bytes diff flag) ≤ 8)%nat.
Proof.
  intros. unfold value_bytes. rewrite length_le_bytes. unfold nbytes.
  assert (Z.land flag 7 = flag mod 8) as -> by (apply (land_ones' flag 3); lia).
  pose proof (Z.mod_pos_bound flag 8). lia.
Qed.

(** *** Emission *)
Section Emits.
Context {S : Type} `{ByteSinkLaws S}.
Local Notation VW := (VByteStreamWriter S).
Local Notation emits := (VByteWriter.emits (S := S)).

Lemma put_byte_emits d : emits (VByteWriter.put_raw 1 (Z.land d 0xFF)) [u8 d].
Proof.
  assert ([u8 d] = le_bytes 1 (Z.land d 255)) as ->; [|apply VByteWriter.put_raw_emits].
  simpl. f_equal. change 255 with (2 ^ 8 - 1). rewrite land_ones' by lia.
  unfold u8. by rewrite Z.mod_mod by lia.
Qed.

Lemma byte_then_emits n d op :
  emits (op (Z.shiftr d 8)) (le_bytes n (Z.shiftr d 8)) →
  emits (λ w, VByteWriter.put_raw 1 (Z.land d 0xFF) w ;;; op (Z.shiftr d 8))
        (le_bytes (Datatypes.S n) d).
Proof. intros Hop. apply (VByteWriter.emits_seq _ _ [u8 d]); [apply put_byte_emits|done]. Qed.

Lemma case1_emits d : emits (case1 d) (le_bytes 1 d).
Proof. apply put_byte_emits. Qed.
Lemma case2_emits d : emits (case2 d) (le_bytes 2 d).
Proof. apply (byte_then_emits 1 d case1), case1_emits. Qed.
Lemma case3_emits d : emits (case3 d) (le_bytes 3 d).
Proof. apply (byte_then_emits 2 d case2), case2_emits. Qed.
Lemma case4_emits d : emits (case4 d) (le_bytes 4 d).
Proof.
  rewrite <- le_bytes_mod. change (8 * Z.of_nat 4) with 32.
  rewrite <- land_ones' by lia. apply VByteWriter.put_raw_emits.
Qed.
Lemma case5_emits d : emits (case5 d) (le_bytes 5 d).
Proof. apply (byte_then_emits 4 d case4), case4_emits. Qed.
Lemma case6_emits d : emits (case6 d) (le_bytes 6 d).
Proof. apply (byte_then_emits 5 d case5), case5_emits. Qed.
Lemma case7_emits d : emits (case7 d) (le_bytes 7 d).
Proof. apply (byte_then_emits 6 d case6), case6_emits. Qed.

Lemma encode_value_emits diff flag :
  0 ≤ flag ≤ 15 → emits (encode_value diff flag) (value_bytes diff flag).
Proof.
  intros Hf. unfold encode_value, value_bytes, nbytes. fold (nshift flag).
  set (d := Z.shiftr diff (nshift flag)).
  assert (Hn : 1 ≤ Z.land flag 7 + 1 ≤ 8).
  { destruct (flag_low flag) as [-> _]; [lia|]. pose proof (Z.mod_pos_bound flag 8). lia. }
  assert (Hc : Z.land flag 7 + 1 = 1 ∨ Z.land flag 7 + 1 = 2 ∨ Z.land flag 7 + 1 = 3 ∨
    Z.land flag 7 + 1 = 4 ∨ Z.land flag 7 + 1 = 5 ∨ Z.land flag 7 + 1 = 6 ∨
    Z.land flag 7 + 1 = 7 ∨ Z.land flag 7 + 1 = 8) by lia.
  destruct Hc as [->|[->|[->|[->|[->|[->|[->| ->]]]]]]].
  - apply case1_emits.
  - apply case2_emits.
  - apply case3_emits.
  - apply case4_emits.
  - apply case5_emits.
  - apply case6_emits.
  - apply case7_emits.
  - apply VByteWriter.put_raw_emits.
Qed.

Lemma flags_byte f1 f2 :
  0 ≤ f1 ≤ 14 → 0 ≤ f2 ≤ 14 → u8 (Z.lor (Z.shiftl f1 4) f2) = 16 * f1 + f2.
Proof.
  intros. rewrite Z.lor_comm, lor_shiftl by lia.
  rewrite u8_id by (unfold is_u8; lia). lia.
Qed.

Lemma put_pair_emits d1 f1 d2 f2 :
  0 ≤ f1 ≤ 14 → 0 ≤ f2 ≤ 14 → emits (put_pair d1 f1 d2 f2) (pair_bytes d1 f1 d2 f2).
Proof.
  intros H1 H2. unfold put_pair, pair_bytes. rewrite flags_byte by lia.
  apply (VByteWriter.emits_seq _ _ [16 * f1 + f2]).
  - assert ([16 * f1 + f2] = le_bytes 1 (16 * f1 + f2)) as E
      by (simpl; rewrite u8_id by (unfold is_u8; lia); done).
    rewrite E. apply VByteWriter.put_raw_emits.
  - apply VByteWriter.emits_seq; apply encode_value_emits; lia.
Qed.

(** Differences and flags as [encode] makes them. *)
Definition dfs_ok (dfs : list (Z * Z)) : Prop :=
  Forall (λ df, is_u64 df.1 ∧ df.2 = flag_of df.1) dfs.

Lemma store_flag_range df : is_u64 df.1 → df.2 = flag_of df.1 → 0 ≤ store_flag df.2 ≤ 14.
Proof. intros Hd ->. by apply store_flag_ok in Hd as (_&?&_). Qed.

Lemma put_pairs_emits n dfs :
  dfs_ok dfs → length dfs = (2 * n)%nat → emits (put_pairs dfs) (pairs_bytes dfs).
Proof.
  revert dfs. induction n as [|n IH]; intros dfs Hok Hl.
  { destruct dfs; [|done]. apply VByteWriter.emits_ret. }
  destruct dfs as [|[d1 f1] [|[d2 f2] dfs]]; simpl in Hl; try lia.
  apply Forall_cons in Hok as [[??] Hok]. apply Forall_cons in Hok as [[??] Hok].
  apply (VByteWriter.emits_seq (put_pair _ _ _ _)); [|apply IH; [done|lia]].
  apply put_pair_emits; [apply (store_flag_range (d1, f1))|apply (store_flag_range (d2, f2))]; done.
Qed.

Lemma fcm_length_pairs_bytes n dfs :
  dfs_ok dfs → length dfs = (2 * n)%nat → (3 * n ≤ length (pairs_bytes dfs) ≤ 17 * n)%nat.
Proof.
  revert dfs. induction n as [|n IH]; intros dfs Hok Hl.
  { by destruct dfs. }
  destruct dfs as [|[d1 f1] [|[d2 f2] dfs]]; simpl in Hl; try lia.
  apply Forall_cons in Hok as [[??] Hok]. apply Forall_cons in Hok as [[??] Hok].
  cbn [pairs_bytes]. unfold pair_bytes. rewrite length_app, length_cons, length_app.
  specialize (IH dfs Hok).
  assert (0 ≤ store_flag f1 ≤ 14) by (by apply (store_flag_range (d1, f1))).
  assert (0 ≤ store_flag f2 ≤ 14) by (by apply (store_flag_range (d2, f2))).
  pose proof (length_value_bytes d1 (store_flag f1)).
  pose proof (length_value_bytes d2 (store_flag f2)). lia.
Qed.

Lemma fcm_length_chunk_bytes dfs :
  dfs_ok dfs → length dfs = 16%nat → (1 ≤ length (chunk_bytes dfs) ≤ 136)%nat.
Proof.
  intros Hok Hl. unfold chunk_bytes. case_decide; [simpl; lia|].
  pose proof (fcm_length_pairs_bytes 8 dfs Hok Hl). lia.
Qed.

Context {P : Type} `{PredictorLaws P}.

(** [encode_all] never fails, and its differences are 64-bit. *)
Lemma encode_all_ok values (p : P) :
  pred_ok p → Forall is_u64 values →
  ∃ dfs p', encode_all values p = Some (dfs, p') ∧ dfs_ok dfs ∧
            length dfs = length values ∧ pred_ok p'.
Proof.
  intros Hp Hv. revert p Hp. induction Hv as [|v values Hv Hvs IH]; intros p Hp; simpl.
  { exists [], p. by split_and!; [|constructor|..]. }
  unfold encode. destruct (predict_ok p Hp) as (g&->&Hg). simpl.
  destruct (update_ok v p Hp Hv) as (p1&->&Hp1). simpl.
  destruct (IH p1 Hp1) as (dfs&p2&->&Hd&Hl&Hp2). simpl.
  eexists _, p2. split_and!; [done| |simpl; lia|done].
  constructor; [|done]. split; [|done]. by apply lxor_range.
Qed.

Lemma fcm_commit_even f (w : VW) :
  nelements_ (P := P) f mod 2 = 0 → Z.even (vw_cnt w) = true → commit f w = Some (true, w).
Proof.
  intros Hn Hc. unfold commit. rewrite decide_False by (by intros []).
  simpl. by apply VByteWriter.vbyte_commit_even.
Qed.

(** A chunk that fits is written whole; the predictor ends where
    [encode_all] leaves it. *)
Lemma fcm_tput_grows values f (w : VW) dfs p' :
  length values = 16%nat → encode_all values (predictor_ f) = Some (dfs, p') →
  dfs_ok dfs → length dfs = 16%nat →
  nelements_ f mod 2 = 0 → Z.even (vw_cnt w) = true → sk_inv (vw_sink w) →
  Z.of_nat (length (chunk_bytes dfs)) ≤ VByteWriter.space_left w →
  ∃ w', tput values f w
          = Some (true, (mk p' (prev_diff_ f) (prev_flag_ f) (nelements_ f), w')) ∧
        grows (vw_sink w) (vw_sink w') (chunk_bytes dfs) ∧ vw_cnt w' = vw_cnt w.
Proof.
  intros Hl E Hd Hdl Hn Hc Hw Hsp. unfold tput. rewrite decide_True by done.
  rewrite E. cbn [mbind option_bind]. unfold chunk_bytes in *.
  assert (∃ w', (if decide (foldr Z.lor 0 dfs.*1 = 0) then VByteWriter.put_raw 1 255 w
      else put_pairs dfs w) = Some (true, w') ∧
      grows (vw_sink w) (vw_sink w')
        (if decide (foldr Z.lor 0 dfs.*1 = 0) then [255] else pairs_bytes dfs) ∧
      vw_cnt w' = vw_cnt w) as (w'&->&Hg&Hc').
  { case_decide.
    - destruct (VByteWriter.put_raw_emits 1 255 w Hw Hsp) as (w'&->&?&?&_). by exists w'.
    - destruct (put_pairs_emits 8 dfs Hd Hdl w Hw Hsp) as (w'&->&?&?&_). by exists w'. }
  exists w'. simpl wbind. rewrite fcm_commit_even by (by rewrite ?Hc'). done.
Qed.

End Emits.
End FcmStreamWriter.

(** ** Reader *)
Module FcmStreamReader.

Record t (P : Type) := mk {
  predictor_ : P;
  flags_ : Z;    (* u32 *)
  iter_ : Z;     (* u32 *)
  nzeroes_ : Z;  (* u32 *)
}.
Arguments mk {P} _ _ _ _.
Arguments predictor_ {P} _.
Arguments flags_ {P} _.
Arguments iter_ {P} _.
Arguments nzeroes_ {P} _.

Definition init {P} (p : P) : t P := mk p 0 0 0.

Section Reader.
Context {S : Type} `{ByteSource S}.
Local Notation VR := (VByteStreamReader S).

(** The loop of [decode_value]. *)
Fixpoint decode_bytes (n : nat) (i diff : Z) (r : VR) : option (Z * VR) :=
  match n with
  | O => Some (diff, r)
  | Datatypes.S n =>
    '(delta, r) ← VByteReader.read_raw 1 r;
    decode_bytes n (i + 1) (Z.lor diff (u64 (Z.shiftl delta (i * 8)))) r
  end.

Definition decode_value (flag : Z) (r : VR) : option (Z * VR) :=
  let nbytes := Z.land flag 7 + 1 in
  '(diff, r) ← decode_bytes (Z.to_nat nbytes) 0 0 r;
  let shift_width := (64 - nbytes * 8) * Z.shiftr flag 3 in
  Some (u64 (Z.shiftl diff shift_width), r).

(** The first half of [next]: flags and difference. *)
Definition next_diff {P} (st : t P * VR) : option (Z * (t P * VR)) :=
  let '(f, r) := st in
  '(flag, f, r) ←
    (if decide (iter_ f mod 2 = 0 ∧ nzeroes_ f = 0) then
       '(flags, r) ← VByteReader.read_raw 1 r;
       Some (u8 (Z.shiftr flags 4),
             mk (predictor_ f) flags (u32 (iter_ f + 1))
                (if decide (flags = 0xFF) then 16 else nzeroes_ f), r)
     else Some (u8 (Z.land (flags_ f) 0xF),
                mk (predictor_ f) (flags_ f) (u32 (iter_ f + 1)) (nzeroes_ f), r));
  if decide (nzeroes_ f = 0) then
    '(diff, r) ← decode_value flag r; Some (diff, (f, r))
  else
    Some (0, (mk (predictor_ f) (flags_ f) (iter_ f) (u32 (nzeroes_ f - 1)), r)).

Context {P : Type} `{Predictor P}.

Definition next (st : t P * VR) : option (Z * (t P * VR)) :=
  '(diff, (f, r)) ← next_diff st;
  predicted ← predict_next (predictor_ f);
  let bits := Z.lxor predicted diff in
  p ← update bits (predictor_ f);
  Some (bits, (mk p (flags_ f) (iter_ f) (nzeroes_ f), r)).

End Reader.

Section Facts.
Context {S : Type} `{ByteSourceLaws S}.
Local Notation VR := (VByteStreamReader S).

Lemma read_byte b (r : VR) tl :
  VByteReader.ok r → VByteReader.rest r = b :: tl →
  VByteReader.read_raw 1 r = Some (b, VByteReader.advance 1 r).
Proof.
  intros Hr E. rewrite (VByteReader.read_raw_reads 1 [b] eq_refl r tl Hr E).
  simpl. by rewrite Z.lor_0_r.
Qed.

Lemma decode_bytes_ok n i acc v (r : VR) tl :
  VByteReader.ok r → VByteReader.rest r = le_bytes n v ++ tl →
  0 ≤ i → 8 * (i + Z.of_nat n) ≤ 64 → 0 ≤ acc < 2 ^ (8 * i) →
  decode_bytes n i acc r
    = Some (acc + (v mod 2 ^ (8 * Z.of_nat n)) * 2 ^ (8 * i), VByteReader.advance n r).
Proof.
  revert i acc v r. induction n as [|n IH]; intros i acc v r Hok E Hi Hb Ha.
  { simpl. rewrite Z.mod_1_r. unfold VByteReader.advance, VByteReader.set_pos. destruct r; simpl.
    by rewrite Nat.add_0_r, Z.add_0_r. }
  cbn [le_bytes app] in E. pose proof (u8_range v) as Hu. unfold is_u8 in Hu.
  cbn [decode_bytes]. rewrite (read_byte (u8 v) r _ Hok E). cbn [mbind option_bind].
  assert (Hp : 0 < 2 ^ (8 * i)) by (apply Z.pow_pos_nonneg; lia).
  assert (E8 : 2 ^ (8 * (i + 1)) = 2 ^ (8 * i) * 2 ^ 8)
    by (rewrite <- Z.pow_add_r by lia; f_equal; lia).
  assert (Hlt : u8 v * 2 ^ (8 * i) < 2 ^ 64).
  { assert (2 ^ (8 * (i + 1)) ≤ 2 ^ 64) by (apply Z.pow_le_mono_r; lia). nia. }
  rewrite (Z.mul_comm i 8), shiftl_mul by lia.
  rewrite (u64_id (u8 v * 2 ^ (8 * i))) by (unfold is_u64; nia).
  rewrite <- shiftl_mul, lor_shiftl by lia.
  rewrite (IH (i + 1) (acc + u8 v * 2 ^ (8 * i)) (v ≫ 8)).
  - rewrite VByteReader.advance_advance. do 2 f_equal. rewrite E8. unfold u8.
    replace (8 * Z.of_nat (Datatypes.S n)) with (8 + 8 * Z.of_nat n) by lia.
    rewrite (Z.pow_add_r 2 8), (Z.rem_mul_r v (2 ^ 8)), shiftr_div by lia. ring.
  - apply (VByteReader.advance_ok r [u8 v] _ Hok E).
  - by apply (VByteReader.advance_rest r [u8 v]).
  - lia.
  - lia.
  - rewrite E8. nia.
Qed.

(** A stored value is decoded to its difference. *)
Lemma decode_value_ok diff flag (r : VR) tl :
  FcmStreamWriter.flag_ok diff flag → VByteReader.ok r →
  VByteReader.rest r = FcmStreamWriter.value_bytes diff flag ++ tl →
  decode_value flag r
    = Some (diff, VByteReader.advance (length (FcmStreamWriter.value_bytes diff flag)) r).
Proof.
  intros (Hu&Hf&Hs&Hlt&Eq) Hok E. unfold decode_value, FcmStreamWriter.value_bytes in *.
  fold (FcmStreamWriter.nbytes flag). fold (FcmStreamWriter.nshift flag).
  assert (Hn : (FcmStreamWriter.nbytes flag ≤ 8)%nat).
  { unfold FcmStreamWriter.nbytes.
    destruct (FcmStreamWriter.flag_low flag) as [-> _]; [lia|].
    pose proof (Z.mod_pos_bound flag 8). lia. }
  rewrite (decode_bytes_ok _ 0 0 _ r tl Hok E) by (simpl; lia).
  cbn [mbind option_bind]. rewrite Z.mod_small.
  - by rewrite Z.mul_1_r, Z.add_0_l, Eq, length_le_bytes.
  - split; [|done]. apply Z.shiftr_nonneg. destruct Hu; lia.
Qed.

(** Between two pairs, with no zeros pending. *)
Definition aligned {P} (f : t P) : Prop := Z.even (iter_ f) = true ∧ nzeroes_ f = 0.

Lemma next_diff_first {P} (f : t P) d1 f1 d2 f2 (r : VR) tl :
  aligned f → FcmStreamWriter.flag_ok d1 f1 → 0 ≤ f2 ≤ 14 → VByteReader.ok r →
  VByteReader.rest r = FcmStreamWriter.pair_bytes d1 f1 d2 f2 ++ tl →
  next_diff (f, r)
    = Some (d1, (mk (predictor_ f) (16 * f1 + f2) (u32 (iter_ f + 1)) 0,
        VByteReader.advance (1 + length (FcmStreamWriter.value_bytes d1 f1)) r)).
Proof.
  intros [Hev Hnz] Hf1 Hf2 Hok E. pose proof Hf1 as (_&Hr1&_).
  unfold FcmStreamWriter.pair_bytes in E. cbn [app] in E. rewrite <- app_assoc in E.
  unfold next_diff. rewrite decide_True by (by rewrite <- VByteReader.even_mod2).
  rewrite (read_byte _ r _ Hok E). cbn [mbind option_bind nzeroes_ predictor_ flags_ iter_].
  rewrite (decide_False (P := 16 * f1 + f2 = 255)) by lia.
  rewrite Hnz, decide_True by done.
  assert (u8 ((16 * f1 + f2) ≫ 4) = f1) as ->.
  { rewrite shiftr_div by lia. change (2 ^ 4) with 16.
    replace ((16 * f1 + f2) / 16) with f1 by zify_div. apply u8_id. unfold is_u8. lia. }
  rewrite (decode_value_ok d1 f1 _ (FcmStreamWriter.value_bytes d2 f2 ++ tl)); [|done|..].
  - cbn [mbind option_bind]. by rewrite VByteReader.advance_advance.
  - by apply (VByteReader.advance_ok r [16 * f1 + f2] _ Hok E).
  - by apply (VByteReader.advance_rest r [16 * f1 + f2]).
Qed.

Lemma next_diff_second {P} (f : t P) f1 d2 f2 (r : VR) tl :
  Z.even (iter_ f) = false → nzeroes_ f = 0 → flags_ f = 16 * f1 + f2 → 0 ≤ f1 →
  FcmStreamWriter.flag_ok d2 f2 → VByteReader.ok r →
  VByteReader.rest r = FcmStreamWriter.value_bytes d2 f2 ++ tl →
  next_diff (f, r)
    = Some (d2, (mk (predictor_ f) (flags_ f) (u32 (iter_ f + 1)) 0,
        VByteReader.advance (length (FcmStreamWriter.value_bytes d2 f2)) r)).
Proof.
  intros Hev Hnz Hfl Hf1 Hf2 Hok E. pose proof Hf2 as (_&Hr2&_).
  unfold next_diff.
  rewrite decide_False by (intros [H1 _]; by rewrite <- VByteReader.even_mod2, Hev in H1).
  cbn [mbind option_bind nzeroes_ predictor_ flags_ iter_]. rewrite Hnz, decide_True by done.
  assert (u8 (Z.land (flags_ f) 15) = f2) as ->.
  { rewrite Hfl. change 15 with (2 ^ 4 - 1). rewrite land_ones' by lia.
    replace ((16 * f1 + f2) mod 2 ^ 4) with f2 by (change (2 ^ 4) with 16; zify_div).
    apply u8_id. unfold is_u8. lia. }
  by rewrite (decode_value_ok d2 f2 _ tl).
Qed.

Lemma next_diff_pair {P} (f : t P) d1 f1 d2 f2 (r : VR) tl :
  aligned f → FcmStreamWriter.flag_ok d1 f1 → FcmStreamWriter.flag_ok d2 f2 →
  VByteReader.ok r → VByteReader.rest r = FcmStreamWriter.pair_bytes d1 f1 d2 f2 ++ tl →
  ∃ f', read_n next_diff 2 (f, r) = Some ([d1; d2], (f',
          VByteReader.advance (length (FcmStreamWriter.pair_bytes d1 f1 d2 f2)) r)) ∧
        aligned f' ∧ predictor_ f' = predictor_ f.
Proof.
  intros Ha Hf1 Hf2 Hok E. pose proof Ha as [Hev Hnz].
  pose proof Hf1 as (_&?&_). pose proof Hf2 as (_&?&_).
  pose proof (next_diff_first f d1 f1 d2 f2 r tl Ha Hf1 ltac:(lia) Hok E) as N1.
  set (hd := (16 * f1 + f2) :: FcmStreamWriter.value_bytes d1 f1).
  assert (E' : VByteReader.rest r = hd ++ FcmStreamWriter.value_bytes d2 f2 ++ tl).
  { rewrite E. unfold FcmStreamWriter.pair_bytes, hd. simpl. by rewrite <- app_assoc. }
  change (1 + length (FcmStreamWriter.value_bytes d1 f1))%nat with (length hd) in N1.
  pose proof (VByteReader.advance_ok r hd _ Hok E') as Hok1.
  pose proof (VByteReader.advance_rest r hd _ E') as Er1.
  eassert (N2 : next_diff (_, VByteReader.advance (length hd) r) = _).
  { eapply (next_diff_second (mk (predictor_ f) (16 * f1 + f2) (u32 (iter_ f + 1)) 0)
      f1 d2 f2 _ tl); try done; [|simpl; lia].
    simpl. by rewrite u32_even, Z.even_add, Hev. }
  rewrite VByteReader.advance_advance in N2.
  eexists. split.
  - eapply read_n_S; [exact N1|]. eapply read_n_S; [exact N2|].
    simpl. do 4 f_equal. unfold FcmStreamWriter.pair_bytes, hd. simpl. by rewrite length_app.
  - split; [|done]. split; [|done]. simpl.
    by rewrite u32_even, Z.even_add, u32_even, Z.even_add, Hev.
Qed.

Lemma next_diff_pairs {P} n dfs (f : t P) (r : VR) tl :
  FcmStreamWriter.dfs_ok dfs → length dfs = (2 * n)%nat → aligned f → VByteReader.ok r →
  VByteReader.rest r = FcmStreamWriter.pairs_bytes dfs ++ tl →
  ∃ f', read_n next_diff (2 * n) (f, r) = Some (dfs.*1, (f',
          VByteReader.advance (length (FcmStreamWriter.pairs_bytes dfs)) r)) ∧
        aligned f' ∧ predictor_ f' = predictor_ f.
Proof.
  revert dfs f r. induction n as [|n IH]; intros dfs f r Hd Hl Ha Hok E.
  { destruct dfs; [|done]. exists f. split; [|done]. simpl.
    unfold VByteReader.advance, VByteReader.set_pos. destruct r. simpl. by rewrite Nat.add_0_r. }
  destruct dfs as [|[d1 f1] [|[d2 f2] dfs]]; simpl in Hl; try lia.
  apply Forall_cons in Hd as [[Hu1 Hf1] Hd]. apply Forall_cons in Hd as [[Hu2 Hf2] Hd].
  simpl in Hu1, Hf1, Hu2, Hf2.
  cbn [FcmStreamWriter.pairs_bytes] in *. rewrite <- app_assoc in E.
  pose proof (FcmStreamWriter.store_flag_ok d1 Hu1) as Ho1. rewrite <- Hf1 in Ho1.
  pose proof (FcmStreamWriter.store_flag_ok d2 Hu2) as Ho2. rewrite <- Hf2 in Ho2.
  destruct (next_diff_pair f d1 _ d2 _ r _ Ha Ho1 Ho2 Hok E) as (f1'&N1&Ha1&Hp1).
  destruct (IH dfs f1' _ Hd ltac:(lia) Ha1 (VByteReader.advance_ok r _ _ Hok E)
    (VByteReader.advance_rest r _ _ E)) as (f2'&N2&Ha2&Hp2).
  exists f2'. split; [|split; [done|congruence]].
  replace (2 * Datatypes.S n)%nat with (2 + 2 * n)%nat by lia.
  rewrite length_app, <- VByteReader.advance_advance.
  exact (read_n_app next_diff 2 (2 * n) _ _ _ _ _ N1 N2).
Qed.

(** Sixteen exact predictions. *)
Lemma next_diff_pending {P} k (f : t P) (r : VR) :
  nzeroes_ f = Z.of_nat k → (k ≤ 16)%nat →
  ∃ f', read_n next_diff k (f, r) = Some (replicate k 0, (f', r)) ∧
    nzeroes_ f' = 0 ∧ Z.even (iter_ f') = Z.even (iter_ f + Z.of_nat k) ∧
    predictor_ f' = predictor_ f.
Proof.
  revert f. induction k as [|k IH]; intros f Hz Hk.
  { exists f. by rewrite Z.add_0_r. }
  set (f1 := mk (predictor_ f) (flags_ f) (u32 (iter_ f + 1)) (Z.of_nat k)).
  assert (N1 : next_diff (f, r) = Some (0, (f1, r))).
  { unfold next_diff. rewrite decide_False by (intros []; lia). simpl.
    rewrite decide_False by lia. do 3 f_equal. unfold f1. f_equal.
    rewrite u32_id by (unfold is_u32; lia). lia. }
  destruct (IH f1) as (f'&N2&?&Hev&?); [done|lia|].
  exists f'. split_and!; [by eapply read_n_S|done| |done].
  rewrite Hev. simpl. rewrite Z.even_add, u32_even, <- Z.even_add. f_equal. lia.
Qed.

Lemma next_diff_zeros {P} (f : t P) (r : VR) tl :
  aligned f → VByteReader.ok r → VByteReader.rest r = 0xFF :: tl →
  ∃ f', read_n next_diff 16 (f, r)
          = Some (replicate 16 0, (f', VByteReader.advance 1 r)) ∧
        aligned f' ∧ predictor_ f' = predictor_ f.
Proof.
  intros [Hev Hnz] Hok E.
  set (f1 := mk (predictor_ f) 0xFF (u32 (iter_ f + 1)) 15).
  assert (N1 : next_diff (f, r) = Some (0, (f1, VByteReader.advance 1 r))).
  { unfold next_diff. rewrite decide_True by (by rewrite <- VByteReader.even_mod2).
    by rewrite (read_byte _ r _ Hok E). }
  destruct (next_diff_pending 15 f1 (VByteReader.advance 1 r)) as (f'&N2&?&Hev'&?);
    [done|lia|].
  exists f'. split; [exact (read_n_S next_diff 15 _ _ _ _ _ N1 N2)|]. split; [|done].
  split; [|done]. rewrite Hev'. simpl. by rewrite Z.even_add, u32_even, Z.even_add, Hev.
Qed.

Lemma foldr_lor_zero (l : list Z) : foldr Z.lor 0 l = 0 → l = replicate (length l) 0.
Proof.
  induction l as [|x l IH]; simpl; [done|]. intros [-> E]%Z.lor_eq_0_iff. f_equal. auto.
Qed.

Lemma next_diff_chunk {P} dfs (f : t P) (r : VR) tl :
  FcmStreamWriter.dfs_ok dfs → length dfs = 16%nat → aligned f → VByteReader.ok r →
  VByteReader.rest r = FcmStreamWriter.chunk_bytes dfs ++ tl →
  ∃ f', read_n next_diff 16 (f, r) = Some (dfs.*1, (f',
          VByteReader.advance (length (FcmStreamWriter.chunk_bytes dfs)) r)) ∧
        aligned f' ∧ predictor_ f' = predictor_ f.
Proof.
  intros Hd Hl Ha Hok E. unfold FcmStreamWriter.chunk_bytes in *. case_decide as Hz.
  - apply foldr_lor_zero in Hz. rewrite length_fmap, Hl in Hz. rewrite Hz.
    exact (next_diff_zeros f r tl Ha Hok E).
  - exact (next_diff_pairs 8 dfs f r tl Hd Hl Ha Hok E).
Qed.

(** The difference does not depend on the predictor. *)
Definition with_pred {P} (p : P) (f : t P) : t P := mk p (flags_ f) (iter_ f) (nzeroes_ f).

Lemma next_diff_pred {P} (p : P) f (r : VR) d f' r' :
  next_diff (f, r) = Some (d, (f', r')) →
  next_diff (with_pred p f, r) = Some (d, (with_pred p f', r')) ∧ predictor_ f' = predictor_ f.
Proof.
  unfold next_diff, with_pred. simpl. destruct f as [q fl it nz]. simpl.
  destruct (decide (it mod 2 = 0 ∧ nz = 0)).
  - destruct (VByteReader.read_raw 1 r) as [[b r1]|]; simpl; [|done].
    destruct (decide (b = 255)); simpl; [by intros; simplify_eq|].
    destruct (decide (nz = 0)); simpl; [|by intros; simplify_eq].
    destruct (decode_value _ r1) as [[d1 r2]|]; simpl; [|done]. by intros; simplify_eq.
  - simpl. destruct (decide (nz = 0)); simpl; [|by intros; simplify_eq].
    destruct (decode_value _ r) as [[d1 r2]|]; simpl; [|done]. by intros; simplify_eq.
Qed.

Lemma read_diffs_pred {P} (p : P) n f (r : VR) ds f' r' :
  read_n next_diff n (f, r) = Some (ds, (f', r')) →
  read_n next_diff n (with_pred p f, r) = Some (ds, (with_pred p f', r')).
Proof.
  revert f r ds. induction n as [|n IH]; intros f r ds N; [by simpl in *; simplify_eq|].
  apply read_n_S_inv in N as (d&[f1 r1]&ds'&N1&N2&->).
  destruct (next_diff_pred p _ _ _ _ _ N1) as [M1 _].
  eapply read_n_S; [exact M1|]. by apply IH.
Qed.

Context {P : Type} `{PredictorLaws P}.

(** Reading differences that a writer with the same predictor produced gives
    its values, and the two predictors end alike. *)
Lemma fcm_next_run values (f f' : t P) (r r' : VR) dfs p' :
  FcmStreamWriter.encode_all values (predictor_ f) = Some (dfs, p') →
  read_n next_diff (length values) (f, r) = Some (dfs.*1, (f', r')) →
  read_n next (length values) (f, r) = Some (values, (with_pred p' f', r')).
Proof.
  revert f f' r r' dfs. induction values as [|v values IH]; intros f f' r r' dfs E N; simpl in E.
  { simplify_eq. simpl in *. simplify_eq. by destruct f'. }
  unfold FcmStreamWriter.encode in E.
  destruct (predict_next (predictor_ f)) as [g|] eqn:Eg; simpl in E; [|done].
  destruct (update v (predictor_ f)) as [p1|] eqn:Eu; simpl in E; [|done].
  destruct (FcmStreamWriter.encode_all values p1) as [[dfs1 p2]|] eqn:E1; simpl in E; [|done].
  simplify_eq. cbn [length fmap list_fmap] in N.
  apply read_n_S_inv in N as (d&[f1 r1]&ds&N1&N2&[= <- <-]).
  destruct (next_diff_pred p1 f r _ f1 r1 N1) as [_ Ep].
  assert (M1 : next (f, r) = Some (v, (with_pred p1 f1, r1))).
  { unfold next. rewrite N1. cbn [mbind option_bind]. rewrite Ep, Eg. simpl.
    assert (Z.lxor g (Z.lxor v g) = v) as ->.
    { rewrite (Z.lxor_comm v), <- Z.lxor_assoc, Z.lxor_nilpotent. apply Z.lxor_0_l. }
    by rewrite Eu. }
  eapply read_n_S; [exact M1|].
  apply (IH (with_pred p1 f1) (with_pred p1 f') r1 r' dfs1); [done|].
  by apply read_diffs_pred.
Qed.

(** Sixteen [next]s return the chunk that [tput] was given. *)
Lemma fcm_next_chunk values (f : t P) (r : VR) tl dfs p' :
  FcmStreamWriter.encode_all values (predictor_ f) = Some (dfs, p') →
  FcmStreamWriter.dfs_ok dfs → length values = 16%nat → length dfs = 16%nat →
  aligned f → VByteReader.ok r →
  VByteReader.rest r = FcmStreamWriter.chunk_bytes dfs ++ tl →
  ∃ f', read_n next 16 (f, r) = Some (values, (f',
          VByteReader.advance (length (FcmStreamWriter.chunk_bytes dfs)) r)) ∧
        aligned f' ∧ predictor_ f' = p'.
Proof.
  intros E Hd Hv Hl Ha Hok Er.
  destruct (next_diff_chunk dfs f r tl Hd Hl Ha Hok Er) as (f'&N&Ha'&_).
  rewrite <- Hv in N. apply (fcm_next_run _ _ _ _ _ _ _ E) in N. rewrite Hv in N.
  by exists (with_pred p' f').
Qed.

End Facts.
End FcmStreamReader.

(** ** Property *)

Section Properties.
Context {S R P : Type} `{ByteSinkLaws S} `{ByteSourceLaws R} `{PredictorLaws P}.

(** C38: for any predictor, a chunk of sixteen 64-bit patterns needs at most
    136 bytes, is accepted when it fits, and a reader with the same predictor
    state returns exactly the patterns and ends with the writer's predictor
    state. *)
Theorem fcm_chunk_roundtrip values (fw : FcmStreamWriter.t P) (w : VByteStreamWriter S) :
  Forall is_u64 values → length values = 16%nat → sk_inv (vw_sink w) →
  pred_ok (FcmStreamWriter.predictor_ fw) → FcmStreamWriter.nelements_ fw = 0 →
  vw_cnt w = 0 → 136 ≤ VByteWriter.space_left w →
  ∃ fw' w', FcmStreamWriter.tput values fw w = Some (true, (fw', w')) ∧
    pred_ok (FcmStreamWriter.predictor_ fw') ∧
    (length (sk_mem (vw_sink w')) ≤ length (sk_mem (vw_sink w)) + 136)%nat ∧
    ∀ (src : R) tl fr, src_inv src → src_bytes src = sk_mem (vw_sink w') ++ tl →
    FcmStreamReader.predictor_ fr = FcmStreamWriter.predictor_ fw →
    FcmStreamReader.iter_ fr mod 2 = 0 → FcmStreamReader.nzeroes_ fr = 0 →
    ∃ fr' r', read_n FcmStreamReader.next 16
        (fr, VByteReader.make src (length (sk_mem (vw_sink w)))) = Some (values, (fr', r')) ∧
      VByteReader.rest r' = tl ∧
      FcmStreamReader.predictor_ fr' = FcmStreamWriter.predictor_ fw'.
Proof.
  intros Hv Hl Hw Hp Hn Hc Hsp.
  destruct (FcmStreamWriter.encode_all_ok values _ Hp Hv) as (dfs&p'&E&Hd&Hdl&Hp').
  rewrite Hl in Hdl. pose proof (FcmStreamWriter.fcm_length_chunk_bytes dfs Hd Hdl).
  destruct (FcmStreamWriter.fcm_tput_grows values fw w dfs p') as (w'&Et&(_&Em&_)&_);
    try done; [by rewrite Hn|by rewrite Hc|lia|].
  eexists _, w'. split_and!; [done|done|by rewrite Em, length_app; lia|].
  intros src tl fr Hs Hb Hpr Hit Hnz. rewrite Em, <- app_assoc in Hb. rewrite <- Hpr in E.
  set (r := VByteReader.make src (length (sk_mem (vw_sink w)))).
  assert (Hok : VByteReader.ok r) by (split; [done|simpl; rewrite Hb, length_app; lia]).
  assert (Er : VByteReader.rest r = FcmStreamWriter.chunk_bytes dfs ++ tl)
    by (unfold VByteReader.rest, r; simpl; by rewrite Hb, drop_app_length).
  destruct (FcmStreamReader.fcm_next_chunk values fr r tl dfs p' E Hd Hl Hdl) as (fr'&N&_&Ep);
    [split; [by apply VByteReader.even_mod2|done]|done|done|].
  eexists fr', _. split_and!; [done| |done]. by apply VByteReader.advance_rest.
Qed.

(** The flag the encoder picks always lets the decoder rebuild the
    difference, so no byte that matters is ever dropped, and the byte of flags
    of a pair is never the sentinel 0xFF. *)
Theorem fcm_value_lossless diff (r : VByteStreamReader R) tl :
  is_u64 diff → VByteReader.ok r →
  let flag := FcmStreamWriter.store_flag (FcmStreamWriter.flag_of diff) in
  VByteReader.rest r = FcmStreamWriter.value_bytes diff flag ++ tl →
  0 ≤ flag ≤ 14 ∧
  ∃ r', FcmStreamReader.decode_value flag r = Some (diff, r') ∧ VByteReader.rest r' = tl.
Proof.
  intros Hd Hok flag E. pose proof (FcmStreamWriter.store_flag_ok diff Hd) as Hf.
  split; [apply Hf|]. eexists. split; [by apply (FcmStreamReader.decode_value_ok _ _ _ tl)|].
  by apply VByteReader.advance_rest.
Qed.

End Properties.

Lemma fcm_chunk_roundtrip_witness :
  let l := Z.of_nat <$> seq 250 16 in
  let w := VByteWriter.make (mkRegion (replicate 200 0) 0) in
  let fw := FcmStreamWriter.init SimplePredictor.make in
  ∃ fw' w' r', FcmStreamWriter.tput l fw w = Some (true, (fw', w')) ∧
    read_n FcmStreamReader.next 16
      (FcmStreamReader.init SimplePredictor.make, VByteReader.make (sk_mem (vw_sink w')) 0) = Some (l, r').
Proof.
  intros l w fw. destruct (fcm_chunk_roundtrip (R := list Z) l fw w) as (fw'&w'&E&_&_&Hr);
    [by_compute|done|by_compute|done|done|done|by_compute|].
  assert (w' = default w (snd ∘ snd <$> FcmStreamWriter.tput l fw w)) as Ew by (by rewrite E).
  destruct (Hr (sk_mem (vw_sink w')) [] (FcmStreamReader.init SimplePredictor.make)) as (fr'&r'&Er&_);
    [rewrite Ew; by_compute|by rewrite app_nil_r|done|done|done|].
  exists fw', w', (fr', r'). split; [exact E|exact Er].
Defined.

Lemma fcm_value_lossless_witness :
  let diff := 0xABCDEF0000000000 in
  let flag := FcmStreamWriter.store_flag (FcmStreamWriter.flag_of diff) in
  0 ≤ flag ≤ 14 ∧
  ∃ r', FcmStreamReader.decode_value flag (VByteReader.make (FcmStreamWriter.value_bytes diff flag) 0) = Some (diff, r') ∧
        VByteReader.rest r' = [].
Proof.
  intros diff flag.
  apply (fcm_value_lossless diff (VByteReader.make (FcmStreamWriter.value_bytes diff flag) 0) []);
    [by_compute|split; by_compute|done].
Defined.
