(* ===== verification/DataBlock.v ===== *)
(** * Data blocks (compression.h/.cc, [DataBlockWriter], [DataBlockReader],
    [IOVecBlockWriter], [IOVecBlockReader])

    A block is a header (version, number of chunks, number of tail elements,
    series id), the compressed chunks of sixteen points, and a tail of raw
    points.  Writer and reader are generic in the memory below them, as the two
    pairs of classes of the code are; the flat instance is given at the end,
    the [IOVecBlock] instance in [IOVec]. *)
From S2P Require Import Prelude Status ByteStream Base128 VByte DeltaDelta Predictor Fcm.

Definition FASTSTDB_VERSION : Z := 101.
Definition CHUNK_SIZE : Z := 16.
Definition CHUNK_MASK : Z := 15.
Definition HEADER_SIZE : nat := 14.
Definition MARGIN : Z := 10 * 16 + 9 * 16.

(** A timestamp and the bits of a double. *)
Notation point := (Z * Z)%type.
Definition point_ok (x : point) : Prop := is_u64 x.1 ∧ is_u64 x.2.

(** ** Writer *)
Module BlockWriter.

Record t (S : Type) := mk {
  stream_ : VByteStreamWriter S;
  ts_stream_ : DeltaDeltaStreamWriter.t;
  val_stream_ : FcmStreamWriter.t DfcmPredictor.t;
  write_index_ : Z;
  ts_writebuf_ : list Z;
  val_writebuf_ : list Z;
  nchunks_ : option nat;  (* u16*, an offset into the memory *)
  ntail_ : option nat;    (* u16* *)
}.
Arguments mk {S} _ _ _ _ _ _ _ _.
Arguments stream_ {S} _.
Arguments ts_stream_ {S} _.
Arguments val_stream_ {S} _.
Arguments write_index_ {S} _.
Arguments ts_writebuf_ {S} _.
Arguments val_writebuf_ {S} _.
Arguments nchunks_ {S} _.
Arguments ntail_ {S} _.

Section Writer.
Context {S : Type} `{ByteSink S} `{!Base128Sink S}.
Local Notation VW := (VByteStreamWriter S).
Local Notation W := (t S).

Definition set_stream (w : VW) (b : W) : W :=
  mk w (ts_stream_ b) (val_stream_ b) (write_index_ b) (ts_writebuf_ b)
     (val_writebuf_ b) (nchunks_ b) (ntail_ b).

(** [*p = v] and [*p += 1] for a [u16*] member; a null pointer aborts. *)
Definition poke (p : option nat) (v : Z) (b : W) : option W :=
  p ← p;
  s ← sk_store16 p v (vw_sink (stream_ b));
  Some (set_stream (VByteWriter.set_sink s (stream_ b)) b).

Definition peek (p : option nat) (b : W) : option Z :=
  p ← p; sk_load16 p (vw_sink (stream_ b)).

Definition incr (p : option nat) (b : W) : option W :=
  v ← peek p b; poke p (u16 (v + 1)) b.

(** The constructor body that both versions share: the header. *)
Definition init (id : Z) (b : W) : option W :=
  '(ok1, w) ← VByteWriter.put_raw 2 FASTSTDB_VERSION (stream_ b);
  let '(nchunks, w) := VByteWriter.allocate 2 w in
  let '(ntail, w) := VByteWriter.allocate 2 w in
  '(ok2, w) ← VByteWriter.put_raw 8 id w;
  let b := mk w (ts_stream_ b) (val_stream_ b) (write_index_ b) (ts_writebuf_ b)
              (val_writebuf_ b) nchunks ntail in
  if decide (ok2 && ok1 = false ∨ nchunks = None ∨ ntail = None) then None
  else
    b ← poke ntail 0 b;
    poke nchunks 0 b.

(** The members before the header is written.  The write buffers are
    uninitialised in the code; an entry is always written before it is read. *)
Definition make (s : S) : option W :=
  p ← DfcmPredictor.make DfcmPredictor.PREDICTOR_N;
  Some (mk (VByteWriter.make s) DeltaDeltaStreamWriter.init (FcmStreamWriter.init p) 0
           (replicate 16 0) (replicate 16 0) None None).

Definition room_for_chunk (b : W) : bool :=
  negb (bool_decide (VByteWriter.space_left (stream_ b) < MARGIN)).

(** Flush a full write buffer; a failed [tput] hits [assert(false)]. *)
Definition flush_chunk (b : W) : option (Status * W) :=
  '(ok, (dd, w)) ← DeltaDeltaStreamWriter.tput (ts_writebuf_ b) (ts_stream_ b) (stream_ b);
  if negb ok then None else
  '(ok, (f, w)) ← FcmStreamWriter.tput (val_writebuf_ b) (val_stream_ b) w;
  if negb ok then None else
  let b := mk w dd f (write_index_ b) (ts_writebuf_ b) (val_writebuf_ b)
              (nchunks_ b) (ntail_ b) in
  b ← incr (nchunks_ b) b;
  Some (kOk, b).

Definition put (ts value : Z) (b : W) : option (Status * W) :=
  if room_for_chunk b then
    let ix := Z.to_nat (Z.land (write_index_ b) CHUNK_MASK) in
    let b := mk (stream_ b) (ts_stream_ b) (val_stream_ b) (write_index_ b + 1)
                (<[ix := ts]> (ts_writebuf_ b)) (<[ix := value]> (val_writebuf_ b))
                (nchunks_ b) (ntail_ b) in
    if decide (Z.land (write_index_ b) CHUNK_MASK = 0) then flush_chunk b
    else Some (kOk, b)
  else if decide (Z.land (write_index_ b) CHUNK_MASK = 0) then
    '(ok, w) ← VByteWriter.put_raw 8 ts (stream_ b);
    if negb ok then Some (kOverflow, set_stream w b) else
    '(ok, w) ← VByteWriter.put_raw 8 value w;
    if negb ok then Some (kOverflow, set_stream w b) else
    b ← incr (ntail_ b) (set_stream w b);
    Some (kOk, b)
  else None.

(** The loop of [commit] over the write buffer. *)
Fixpoint commit_tail (pts : list point) (b : W) : option W :=
  match pts with
  | [] => Some b
  | (ts, value) :: pts =>
    '(ok1, w) ← VByteWriter.put_raw 8 ts (stream_ b);
    '(ok2, w) ← VByteWriter.put_raw 8 value w;
    if negb (ok2 && ok1) then None else
    b ← incr (ntail_ b) (set_stream w b);
    commit_tail pts (mk (stream_ b) (ts_stream_ b) (val_stream_ b) (write_index_ b - 1)
                        (ts_writebuf_ b) (val_writebuf_ b) (nchunks_ b) (ntail_ b))
  end.

Definition commit (b : W) : option (nat * W) :=
  let nchunks := write_index_ b / CHUNK_SIZE in
  let buftail := Z.to_nat (write_index_ b mod CHUNK_SIZE) in
  b ← (if decide (buftail ≠ 0)%nat then
         n ← peek (ntail_ b) b;
         if decide (n ≠ 0) then None
         else commit_tail (take buftail (zip (ts_writebuf_ b) (val_writebuf_ b))) b
       else Some b);
  if decide (nchunks ≤ 0xFFFF) then
    b ← poke (nchunks_ b) (u16 nchunks) b;
    Some (VByteWriter.size (stream_ b), b)
  else None.

Definition read_tail_elements (b : W) : list point :=
  take (Z.to_nat (Z.land (write_index_ b) CHUNK_MASK)) (zip (ts_writebuf_ b) (val_writebuf_ b)).

Definition get_write_index (b : W) : option Z :=
  if negb (VByteWriter.empty (stream_ b)) then
    n ← peek (ntail_ b) b; Some (n + write_index_ b)
  else Some 0.

(** A sequence of [put]s with their statuses. *)
Fixpoint put_many (pts : list point) (b : W) : option (list Status * W) :=
  match pts with
  | [] => Some ([], b)
  | (ts, value) :: pts =>
    '(st, b) ← put ts value b;
    '(sts, b) ← put_many pts b;
    Some (st :: sts, b)
  end.

End Writer.
End BlockWriter.

(** ** Reader *)
Module BlockReader.

Record t (S : Type) := mk {
  begin_ : nat;
  stream_ : VByteStreamReader S;
  ts_stream_ : DeltaDeltaStreamReader.t;
  val_stream_ : FcmStreamReader.t DfcmPredictor.t;
  read_buffer_ : list Z;
  read_index_ : Z;  (* u32 *)
}.
Arguments mk {S} _ _ _ _ _ _.
Arguments begin_ {S} _.
Arguments stream_ {S} _.
Arguments ts_stream_ {S} _.
Arguments val_stream_ {S} _.
Arguments read_buffer_ {S} _.
Arguments read_index_ {S} _.

Section Reader.
Context {S : Type} `{ByteSource S}.

(** The header accessors. *)
Definition get_block_version (s : S) (pdata : nat) : option Z := src_load 2 pdata s.
Definition get_main_size (s : S) (pdata : nat) : option Z :=
  main ← src_load 2 (pdata + 2) s; Some (main * CHUNK_SIZE).
Definition get_total_size (s : S) (pdata : nat) : option Z :=
  main ← src_load 2 (pdata + 2) s;
  tail ← src_load 2 (pdata + 4) s;
  Some (tail + main * CHUNK_SIZE).
Definition get_block_id (s : S) (pdata : nat) : option Z := src_load 8 (pdata + 6) s.

(** The constructor: the header starts at [offset]. *)
Definition make (s : S) (offset : nat) : option (t S) :=
  p ← DfcmPredictor.make DfcmPredictor.PREDICTOR_N;
  Some (mk offset (VByteReader.make s (offset + HEADER_SIZE)) DeltaDeltaStreamReader.init
           (FcmStreamReader.init p) (replicate 16 0) 0).

Definition src (b : t S) : S := vr_src (stream_ b).

Definition next (b : t S) : option (Status * Z * Z * t S) :=
  main ← get_main_size (src b) (begin_ b);
  if decide (read_index_ b < main) then
    let chunk_index := Z.to_nat (Z.land (read_index_ b) CHUNK_MASK) in
    '(buf, dd, r) ←
      (if decide (chunk_index = 0)%nat then
         '(l, (dd, r)) ← read_n DeltaDeltaStreamReader.next 16 (ts_stream_ b, stream_ b);
         Some (l, dd, r)
       else Some (read_buffer_ b, ts_stream_ b, stream_ b));
    '(value, (f, r)) ← FcmStreamReader.next (val_stream_ b, r);
    ts ← buf !! chunk_index;
    Some (kOk, ts, value, mk (begin_ b) r dd f buf (u32 (read_index_ b + 1)))
  else
    total ← get_total_size (src b) (begin_ b);
    if decide (read_index_ b < total) then
      '(ts, r) ← VByteReader.read_raw 8 (stream_ b);
      '(value, r) ← VByteReader.read_raw 8 r;
      Some (kOk, ts, value,
            mk (begin_ b) r (ts_stream_ b) (val_stream_ b) (read_buffer_ b)
               (u32 (read_index_ b + 1)))
    else Some (kNoData, 0, 0, b).

Definition nelements (b : t S) : option Z := get_total_size (src b) (begin_ b).
Definition get_id (b : t S) : option Z := get_block_id (src b) (begin_ b).
Definition version (b : t S) : option Z := get_block_version (src b) (begin_ b).

(** [next], expecting a point. *)
Definition next_point (b : t S) : option (point * t S) :=
  '(st, ts, value, b) ← next b;
  if decide (st = kOk) then Some ((ts, value), b) else None.

End Reader.
End BlockReader.
