(* ===== verification/DataBlockProof.v ===== *)
(** * Data blocks: the writer's invariant and the round trip

    The invariant describes the memory of an open block byte by byte: header,
    chunks, raw tail.  Every operation keeps it; [commit] turns it into a
    closed block; the reader is proved to return the points of a closed
    block. *)
From S2P Require Import Prelude Status ByteStream Base128 VByte DeltaDelta Predictor Fcm DataBlock.

(** ** The format *)

Definition header (nch ntl id : Z) : list Z :=
  le_bytes 2 FASTSTDB_VERSION ++ le_bytes 2 nch ++ le_bytes 2 ntl ++ le_bytes 8 id.

(** The bytes of a run of chunks, with the states the coders end in. *)
Fixpoint chunks_bytes (prev : Z) (p : DfcmPredictor.t) (chs : list (list point))
    : option (list Z * Z * DfcmPredictor.t) :=
  match chs with
  | [] => Some ([], prev, p)
  | c :: chs =>
    '(dfs, p) ← FcmStreamWriter.encode_all (c.*2) p;
    '(bs, prev', p') ← chunks_bytes (default prev (last (c.*1))) p chs;
    Some (DeltaDeltaStreamWriter.chunk_bytes prev (c.*1)
            ++ FcmStreamWriter.chunk_bytes dfs ++ bs, prev', p')
  end.

Definition tail_bytes (pts : list point) : list Z :=
  pts ≫= λ x, le_bytes 8 x.1 ++ le_bytes 8 x.2.

Definition chunk_ok (c : list point) : Prop := length c = 16%nat ∧ Forall point_ok c.

Definition start_pred : DfcmPredictor.t := DfcmPredictor.mk (replicate 128 0) 0 0 127.

Lemma start_pred_eq : DfcmPredictor.make DfcmPredictor.PREDICTOR_N = Some start_pred.
Proof. reflexivity. Qed.

Lemma start_pred_ok : pred_ok start_pred.
Proof. destruct dfcm_make_ok as (p&E&Hp). rewrite start_pred_eq in E. by simplify_eq. Qed.

Lemma length_header a b c : length (header a b c) = HEADER_SIZE.
Proof. unfold header. by rewrite !length_app, !length_le_bytes. Qed.

Lemma tail_bytes_app l1 l2 : tail_bytes (l1 ++ l2) = tail_bytes l1 ++ tail_bytes l2.
Proof. apply bind_app. Qed.

Lemma tail_bytes_single x : tail_bytes [x] = le_bytes 8 x.1 ++ le_bytes 8 x.2.
Proof. apply app_nil_r. Qed.

Lemma length_tail_bytes l : length (tail_bytes l) = (16 * length l)%nat.
Proof.
  induction l as [|x l IH]; [done|]. unfold tail_bytes in *. cbn [mbind list_bind].
  rewrite !length_app, IH, !length_le_bytes. simpl. lia.
Qed.

(** Appending a chunk continues where the coders stopped. *)
Lemma chunks_bytes_snoc chs prev p bs prev' p' c dfs p'' :
  chunks_bytes prev p chs = Some (bs, prev', p') →
  FcmStreamWriter.encode_all (c.*2) p' = Some (dfs, p'') →
  chunks_bytes prev p (chs ++ [c])
    = Some (bs ++ DeltaDeltaStreamWriter.chunk_bytes prev' (c.*1)
               ++ FcmStreamWriter.chunk_bytes dfs, default prev' (last (c.*1)), p'').
Proof.
  revert prev p bs. induction chs as [|d chs IH]; intros prev p bs E Ec; simpl in E.
  { simplify_eq. simpl. rewrite Ec. simpl. by rewrite app_nil_r. }
  simpl. destruct (FcmStreamWriter.encode_all (d.*2) p) as [[dfs1 p1]|]; simpl in *; [|done].
  destruct (chunks_bytes _ p1 chs) as [[[bs1 prev1] p2]|] eqn:E1; simpl in *; [|done].
  simplify_eq. rewrite (IH _ _ _ E1 Ec). simpl. by rewrite <- !app_assoc.
Qed.

(** ** Writing through the header pointers *)

Lemma header_nchunks pre a b id rest v :
  <[(length pre + 2 + 1)%nat := u8 (Z.shiftr v 8)]>
    (<[(length pre + 2)%nat := u8 v]> (pre ++ header a b id ++ rest))
  = pre ++ header v b id ++ rest.
Proof.
  rewrite <- Nat.add_assoc, !insert_app_r. by unfold header.
Qed.

Lemma header_ntail pre a b id rest v :
  <[(length pre + 4 + 1)%nat := u8 (Z.shiftr v 8)]>
    (<[(length pre + 4)%nat := u8 v]> (pre ++ header a b id ++ rest))
  = pre ++ header a v id ++ rest.
Proof.
  rewrite <- Nat.add_assoc, !insert_app_r. by unfold header.
Qed.

Lemma header_lookup pre a b id rest i x :
  header a b id !! i = Some x → (pre ++ header a b id ++ rest) !! (length pre + i)%nat = Some x.
Proof. intros E. rewrite lookup_app_r, Nat.add_sub_swap, Nat.sub_diag by lia. by apply lookup_app_l_Some. Qed.

Section WriterFacts.
Context {S : Type} `{Base128SinkLaws S}.
Local Notation W := (BlockWriter.t S).
Import BlockWriter.

Local Notation mem b := (sk_mem (vw_sink (stream_ b))).

(** [b'] is [b] with other memory contents of the same capacity. *)
Definition same_but_mem (b b' : W) (m : list Z) : Prop :=
  ∃ s, b' = set_stream (VByteWriter.set_sink s (stream_ b)) b ∧
       sk_inv s ∧ sk_mem s = m ∧ sk_cap s = sk_cap (vw_sink (stream_ b)).

Lemma poke_ok p v (b : W) :
  sk_inv (vw_sink (stream_ b)) → (p + 1 < length (mem b))%nat →
  ∃ b', poke (Some p) v b = Some b' ∧
    same_but_mem b b' (<[(p + 1)%nat := u8 (Z.shiftr v 8)]> (<[p := u8 v]> (mem b))).
Proof.
  intros Hs Hp. unfold poke. cbn [mbind option_bind].
  destruct (sk_store16_ok p v (vw_sink (stream_ b)) Hs Hp) as (s&->&?&?&?). simpl.
  eexists. split; [done|]. by exists s.
Qed.

Lemma poke_nchunks pre a c id rest v (b : W) :
  sk_inv (vw_sink (stream_ b)) → mem b = pre ++ header a c id ++ rest →
  ∃ b', poke (Some (length pre + 2)%nat) v b = Some b' ∧
        same_but_mem b b' (pre ++ header v c id ++ rest).
Proof.
  intros Hs Em. rewrite <- (header_nchunks pre a c id rest v), <- Em. apply poke_ok; [done|].
  rewrite Em, !length_app, length_header. unfold HEADER_SIZE. lia.
Qed.

Lemma poke_ntail pre a c id rest v (b : W) :
  sk_inv (vw_sink (stream_ b)) → mem b = pre ++ header a c id ++ rest →
  ∃ b', poke (Some (length pre + 4)%nat) v b = Some b' ∧
        same_but_mem b b' (pre ++ header a v id ++ rest).
Proof.
  intros Hs Em. rewrite <- (header_ntail pre a c id rest v), <- Em. apply poke_ok; [done|].
  rewrite Em, !length_app, length_header. unfold HEADER_SIZE. lia.
Qed.

Lemma load16_value a : le_val [u8 a; u8 (Z.shiftr a 8)] = u16 a.
Proof. apply (le_val_bytes 2 a). Qed.

Lemma peek_nchunks pre a c id rest (b : W) :
  sk_inv (vw_sink (stream_ b)) → mem b = pre ++ header a c id ++ rest →
  peek (Some (length pre + 2)%nat) b = Some (u16 a).
Proof.
  intros Hs Em. unfold peek. cbn [mbind option_bind]. rewrite <- load16_value.
  apply sk_load16_ok; [done|rewrite Em; by apply header_lookup|].
  rewrite Em, <- Nat.add_assoc. by apply header_lookup.
Qed.

Lemma peek_ntail pre a c id rest (b : W) :
  sk_inv (vw_sink (stream_ b)) → mem b = pre ++ header a c id ++ rest →
  peek (Some (length pre + 4)%nat) b = Some (u16 c).
Proof.
  intros Hs Em. unfold peek. cbn [mbind option_bind]. rewrite <- load16_value.
  apply sk_load16_ok; [done|rewrite Em; by apply header_lookup|].
  rewrite Em, <- Nat.add_assoc. by apply header_lookup.
Qed.

End WriterFacts.

(** ** The invariant of an open block *)

Lemma point_ok_ts l : Forall point_ok l → Forall is_u64 (l.*1).
Proof. intros Hl. apply Forall_fmap. eapply Forall_impl; [done|]. by intros x [??]. Qed.

Lemma point_ok_val l : Forall point_ok l → Forall is_u64 (l.*2).
Proof. intros Hl. apply Forall_fmap. eapply Forall_impl; [done|]. by intros x [??]. Qed.

(** What a chunk takes: at least 3 bytes, at most 282. *)
Lemma chunk_encoding c p :
  chunk_ok c → pred_ok p →
  ∃ dfs p', FcmStreamWriter.encode_all (c.*2) p = Some (dfs, p') ∧ pred_ok p' ∧
    FcmStreamWriter.dfs_ok dfs ∧ length dfs = 16%nat ∧
    ∀ prev, (3 ≤ length (DeltaDeltaStreamWriter.chunk_bytes prev (c.*1)
               ++ FcmStreamWriter.chunk_bytes dfs) ≤ 282)%nat.
Proof.
  intros [Hl Hc] Hp.
  destruct (FcmStreamWriter.encode_all_ok (c.*2) p Hp (point_ok_val _ Hc))
    as (dfs&p'&E&Hd&Hdl&Hp').
  rewrite length_fmap, Hl in Hdl. exists dfs, p'. split_and!; try done. intros prev.
  rewrite length_app. pose proof (FcmStreamWriter.fcm_length_chunk_bytes dfs Hd Hdl).
  pose proof (DeltaDeltaStreamWriter.chunk_bytes_length prev (c.*1)
    ltac:(by rewrite length_fmap)). lia.
Qed.

Lemma chunks_bytes_length chs prev p bs prev' p' :
  Forall chunk_ok chs → pred_ok p → chunks_bytes prev p chs = Some (bs, prev', p') →
  (3 * length chs ≤ length bs)%nat.
Proof.
  intros Hc. revert prev p bs. induction Hc as [|c chs Hc _ IH]; intros prev p bs Hp E;
    simpl in E; [simplify_eq; simpl; lia|].
  destruct (chunk_encoding c p Hc Hp) as (dfs&p1&E1&Hp1&_&_&Hlen). rewrite E1 in E.
  simpl in E. destruct (chunks_bytes _ p1 chs) as [[[bs1 prev1] p2]|] eqn:E2; [|done].
  simpl in E. simplify_eq. specialize (IH _ _ _ Hp1 E2). specialize (Hlen prev).
  rewrite app_assoc, length_app. simpl length. lia.
Qed.

Section Invariant.
Context {S : Type} `{Base128SinkLaws S}.
Local Notation W := (BlockWriter.t S).
Import BlockWriter.

Local Notation mem b := (sk_mem (vw_sink (stream_ b))).
Local Notation space b := (VByteWriter.space_left (stream_ b)).

(** [pre] is what precedes the block in its memory, [chs] the chunks written,
    [buf] the points in the write buffer, [tail] the raw points, [junk] the
    half point a refused [put] can leave behind. *)
Record block_inv (pre : list Z) (id : Z) (b : W) (chs : list (list point))
    (buf tail : list point) (junk : list Z) : Prop := {
  bi_sink : sk_inv (vw_sink (stream_ b));
  bi_cap : Z.of_nat (sk_cap (vw_sink (stream_ b))) < 3 * 2 ^ 16;
  bi_nch : nchunks_ b = Some (length pre + 2)%nat;
  bi_ntl : ntail_ b = Some (length pre + 4)%nat;
  bi_mem : ∃ bs,
    chunks_bytes 0 start_pred chs = Some (bs, DeltaDeltaStreamWriter.prev_ (ts_stream_ b),
                                          FcmStreamWriter.predictor_ (val_stream_ b)) ∧
    mem b = pre ++ header (Z.of_nat (length chs)) (Z.of_nat (length tail)) id
              ++ bs ++ tail_bytes tail ++ junk;
  bi_pred : pred_ok (FcmStreamWriter.predictor_ (val_stream_ b));
  bi_nel : FcmStreamWriter.nelements_ (val_stream_ b) = 0;
  bi_cnt : vw_cnt (stream_ b) = 0;
  bi_chs : Forall chunk_ok chs;
  bi_buf : Forall point_ok buf;
  bi_buf_len : (length buf < 16)%nat;
  bi_tail : Forall point_ok tail;
  bi_index : write_index_ b = 16 * Z.of_nat (length chs) + Z.of_nat (length buf);
  bi_ts_len : length (ts_writebuf_ b) = 16%nat;
  bi_val_len : length (val_writebuf_ b) = 16%nat;
  bi_ts : take (length buf) (ts_writebuf_ b) = buf.*1;
  bi_val : take (length buf) (val_writebuf_ b) = buf.*2;
  bi_mode :
    (tail = [] ∧ junk = [] ∧ (buf ≠ [] → MARGIN ≤ space b)) ∨
    (buf = [] ∧ space b + 16 * Z.of_nat (length tail) + Z.of_nat (length junk) < MARGIN ∧
     (junk ≠ [] → space b < 8));
}.

(** The points the block has accepted, in order. *)
Definition holds pre id (b : W) (pts : list point) : Prop :=
  ∃ chs buf tail junk, block_inv pre id b chs buf tail junk ∧
    pts = concat chs ++ buf ++ tail.

(** The bytes in front of a block are not the block's. *)
Lemma holds_pre pre pre' id (b : W) pts s :
  holds pre id b pts → sk_inv s → length pre' = length pre →
  sk_mem s = pre' ++ drop (length pre) (mem b) → sk_cap s = sk_cap (vw_sink (stream_ b)) →
  holds pre' id (set_stream (VByteWriter.set_sink s (stream_ b)) b) pts.
Proof.
  intros (chs&buf&tail&junk&I&->) Hs Hl Em Ec. exists chs, buf, tail, junk. split; [|done].
  pose proof (bi_sink _ _ _ _ _ _ _ I) as Hs0. destruct (bi_mem _ _ _ _ _ _ _ I) as (bs&Ebs&Em0).
  assert (Hlen : length (sk_mem s) = length (mem b)).
  { rewrite Em, Em0, drop_app_length, !length_app. lia. }
  assert (Hsp : space (set_stream (VByteWriter.set_sink s (stream_ b)) b) = space b).
  { unfold VByteWriter.space_left. simpl. rewrite !sk_space_eq by done. lia. }
  destruct I. constructor; rewrite ?Hl, ?Hsp; try done; simpl.
  - by rewrite Ec.
  - exists bs. split; [done|]. by rewrite Em, Em0, drop_app_length.
Qed.

Lemma mask_index n k : (k < 16)%nat → Z.land (16 * Z.of_nat n + Z.of_nat k) CHUNK_MASK = Z.of_nat k.
Proof.
  intros. change CHUNK_MASK with (2 ^ 4 - 1). rewrite land_ones' by lia.
  change (2 ^ 4) with 16. zify_div.
Qed.

Lemma room_true (b : W) : room_for_chunk b = true ↔ MARGIN ≤ space b.
Proof.
  unfold room_for_chunk. rewrite negb_true_iff, bool_decide_eq_false. lia.
Qed.

Lemma space_nonneg (b : W) : sk_inv (vw_sink (stream_ b)) → 0 ≤ space b.
Proof.
  intros Hs. unfold VByteWriter.space_left. rewrite sk_space_eq by done.
  pose proof (sk_mem_cap _ Hs). lia.
Qed.

(** With room for a chunk nothing has gone to the tail yet. *)
Lemma inv_room pre id b chs buf tail junk :
  block_inv pre id b chs buf tail junk → MARGIN ≤ space b → tail = [] ∧ junk = [].
Proof.
  intros I Hr. destruct (bi_mode _ _ _ _ _ _ _ I) as [(?&?&_)|(_&Hsp&_)]; [done|lia].
Qed.

(** Without it the write buffer is empty: the [assert] of [put] holds. *)
Lemma inv_no_room pre id b chs buf tail junk :
  block_inv pre id b chs buf tail junk → space b < MARGIN →
  buf = [] ∧ space b + 16 * Z.of_nat (length tail) + Z.of_nat (length junk) < MARGIN ∧
  (junk ≠ [] → space b < 8).
Proof.
  intros I Hr. destruct (bi_mode _ _ _ _ _ _ _ I) as [(->&->&Hb)|(?&?&?)]; [|done].
  split_and!; [|simpl; lia|done].
  destruct buf; [done|]. specialize (Hb ltac:(done)). lia.
Qed.

Lemma nchunks_bound pre id b chs buf tail junk :
  block_inv pre id b chs buf tail junk → Z.of_nat (length chs) ≤ 0xFFFF.
Proof.
  intros I. destruct (bi_mem _ _ _ _ _ _ _ I) as (bs&E&Em).
  pose proof (chunks_bytes_length _ _ _ _ _ _ (bi_chs _ _ _ _ _ _ _ I) start_pred_ok E).
  pose proof (sk_mem_cap _ (bi_sink _ _ _ _ _ _ _ I)) as Hc.
  pose proof (bi_cap _ _ _ _ _ _ _ I).
  rewrite Em, !length_app in Hc. lia.
Qed.

Lemma take_snoc_insert (l : list Z) (k : list Z) n x :
  take n l = k → (n < length l)%nat → take (n + 1) (<[n := x]> l) = k ++ [x].
Proof. intros <- Hn. rewrite Nat.add_1_r. by apply region_take_snoc. Qed.

(** A point that only goes to the write buffer. *)
Lemma put_buffer pre id b chs buf tail junk ts v :
  block_inv pre id b chs buf tail junk → MARGIN ≤ space b → point_ok (ts, v) →
  (length buf < 15)%nat →
  ∃ b', put ts v b = Some (kOk, b') ∧ block_inv pre id b' chs (buf ++ [(ts, v)]) tail junk.
Proof.
  intros I Hr Hx Hl. destruct (inv_room _ _ _ _ _ _ _ I Hr) as [-> ->].
  unfold put. rewrite (proj2 (room_true b) Hr).
  rewrite (bi_index _ _ _ _ _ _ _ I), mask_index, Nat2Z.id by lia.
  cbn [write_index_]. rewrite <- Z.add_assoc.
  replace (Z.of_nat (length buf) + 1) with (Z.of_nat (length buf + 1)) by lia.
  rewrite mask_index by lia. rewrite decide_False by lia. eexists. split; [done|].
  destruct I. constructor; cbn [stream_ ts_stream_ val_stream_ write_index_ ts_writebuf_
    val_writebuf_ nchunks_ ntail_]; try done; rewrite ?length_insert, ?length_app; try done.
  - apply Forall_app; split; [done|]. by constructor.
  - simpl. lia.
  - rewrite fmap_app. apply take_snoc_insert; [done|lia].
  - rewrite fmap_app. apply take_snoc_insert; [done|lia].
  - left. by split_and!.
Qed.

(** [*p += 1] on the two counters of the header. *)
Lemma incr_nchunks pre n c id rest (b : W) :
  sk_inv (vw_sink (stream_ b)) → nchunks_ b = Some (length pre + 2)%nat →
  mem b = pre ++ header n c id ++ rest → 0 ≤ n < 0xFFFF →
  ∃ b', incr (nchunks_ b) b = Some b' ∧ same_but_mem b b' (pre ++ header (n + 1) c id ++ rest).
Proof.
  intros Hs -> Em Hn. unfold incr. rewrite (peek_nchunks pre n c id rest) by done.
  cbn [mbind option_bind]. rewrite (u16_id n) by (unfold is_u16; lia).
  rewrite u16_id by (unfold is_u16; lia). by eapply poke_nchunks.
Qed.

Lemma incr_ntail pre n c id rest (b : W) :
  sk_inv (vw_sink (stream_ b)) → ntail_ b = Some (length pre + 4)%nat →
  mem b = pre ++ header n c id ++ rest → 0 ≤ c < 0xFFFF →
  ∃ b', incr (ntail_ b) b = Some b' ∧ same_but_mem b b' (pre ++ header n (c + 1) id ++ rest).
Proof.
  intros Hs -> Em Hn. unfold incr. rewrite (peek_ntail pre n c id rest) by done.
  cbn [mbind option_bind]. rewrite (u16_id c) by (unfold is_u16; lia).
  rewrite u16_id by (unfold is_u16; lia). by eapply poke_ntail.
Qed.

(** Flushing a full write buffer [c]: never the [assert(false)], because a
    chunk takes at most 282 of the 304 bytes that were free. *)
Lemma flush_chunk_ok pre id b chs c :
  block_inv pre id b chs [] [] [] →
  MARGIN ≤ space b → chunk_ok c →
  ∀ ix tsb vb, tsb = c.*1 → vb = c.*2 →
  ix = 16 * Z.of_nat (length chs) + 16 →
  ∃ b', flush_chunk (mk (stream_ b) (ts_stream_ b) (val_stream_ b) ix tsb vb
                        (nchunks_ b) (ntail_ b)) = Some (kOk, b') ∧
        block_inv pre id b' (chs ++ [c]) [] [] [].
Proof.
  intros I Hr Hc ix tsb vb -> -> Hix. pose proof Hc as [Hcl Hcp].
  destruct (bi_mem _ _ _ _ _ _ _ I) as (bs&Ebs&Em).
  destruct (chunk_encoding c _ Hc (bi_pred _ _ _ _ _ _ _ I)) as (dfs&p'&Edf&Hp'&Hd&Hdl&Hlen).
  specialize (Hlen (DeltaDeltaStreamWriter.prev_ (ts_stream_ b))). rewrite length_app in Hlen.
  pose proof (bi_sink _ _ _ _ _ _ _ I) as Hs. unfold MARGIN in Hr.
  unfold flush_chunk. cbn [ts_writebuf_ val_writebuf_ ts_stream_ val_stream_ stream_ write_index_
    nchunks_ ntail_].
  destruct (DeltaDeltaStreamWriter.dd_tput_grows (c.*1) (ts_stream_ b) (stream_ b))
    as (w1&->&G1&Ec1&_); [by rewrite length_fmap|done|lia|]. cbn [mbind option_bind negb].
  pose proof (grows_space _ _ _ Hs G1) as Es1.
  destruct (FcmStreamWriter.fcm_tput_grows (c.*2) (val_stream_ b) w1 dfs p')
    as (w2&->&G2&Ec2); try done.
  { by rewrite length_fmap. }
  { by rewrite (bi_nel _ _ _ _ _ _ _ I). }
  { by rewrite Ec1, (bi_cnt _ _ _ _ _ _ _ I). }
  { apply G1. }
  { unfold VByteWriter.space_left in *. lia. }
  cbn [mbind option_bind negb].
  pose proof (grows_trans _ _ _ _ _ G1 G2) as (Hs2&Em2&Ecap). rewrite Em, <- !app_assoc in Em2.
  pose proof (chunks_bytes_length _ _ _ _ _ _ (bi_chs _ _ _ _ _ _ _ I) start_pred_ok Ebs).
  pose proof (sk_mem_cap _ Hs2) as Hcap2. pose proof (bi_cap _ _ _ _ _ _ _ I).
  rewrite Em2, !length_app, Ecap in Hcap2.
  set (b2 := mk w2 _ _ _ _ _ _ _).
  destruct (incr_nchunks pre (Z.of_nat (length chs)) 0 id (bs ++ tail_bytes [] ++ []
      ++ DeltaDeltaStreamWriter.chunk_bytes (DeltaDeltaStreamWriter.prev_ (ts_stream_ b)) (c.*1)
      ++ FcmStreamWriter.chunk_bytes dfs) b2)
    as (b3&E3&(s3&->&Hs3&Em3&Ecap3)); [done|apply (bi_nch _ _ _ _ _ _ _ I)|done|lia|].
  change (nchunks_ b2) with (nchunks_ b) in E3. rewrite E3. cbn [mbind option_bind]. eexists. split; [done|]. destruct I.
  constructor; cbn; try done.
  - by rewrite Ecap3; simpl; rewrite Ecap.
  - eexists. split; [by apply (chunks_bytes_snoc _ _ _ _ _ _ _ _ _ Ebs Edf)|].
    rewrite Em3, length_app. simpl. rewrite Nat2Z.inj_add, <- !app_assoc. simpl.
    by rewrite app_nil_r.
  - by rewrite Ec2, Ec1.
  - apply Forall_app. by repeat constructor.
  - rewrite length_app. simpl. lia.
  - by rewrite length_fmap.
  - by rewrite length_fmap.
  - by left.
Qed.

(** The point that fills the write buffer. *)
Lemma put_flush pre id b chs buf tail junk ts v :
  block_inv pre id b chs buf tail junk → MARGIN ≤ space b → point_ok (ts, v) →
  length buf = 15%nat →
  ∃ b', put ts v b = Some (kOk, b') ∧
        block_inv pre id b' (chs ++ [buf ++ [(ts, v)]]) [] [] [].
Proof.
  intros I Hr Hx Hl. destruct (inv_room _ _ _ _ _ _ _ I Hr) as [-> ->].
  unfold put. rewrite (proj2 (room_true b) Hr).
  rewrite (bi_index _ _ _ _ _ _ _ I), mask_index, Nat2Z.id by lia.
  cbn [write_index_]. rewrite Hl.
  replace (16 * Z.of_nat (length chs) + Z.of_nat 15 + 1)
    with (16 * Z.of_nat (length chs + 1) + Z.of_nat 0) by lia.
  rewrite mask_index, decide_True by lia.
  assert (Hfull : ∀ (l : list Z) (k : list Z) x, length l = 16%nat →
    take (length buf) l = k → <[15%nat := x]> l = k ++ [x]).
  { intros l k x Hll Ht. rewrite <- (take_ge (<[15%nat:=x]> l) 16) by (rewrite length_insert; lia).
    apply (take_snoc_insert l k 15 x); [by rewrite <- Hl|lia]. }
  eapply (flush_chunk_ok pre id
    (mk (stream_ b) (ts_stream_ b) (val_stream_ b) (16 * Z.of_nat (length chs))
        (ts_writebuf_ b) (val_writebuf_ b) (nchunks_ b) (ntail_ b)) chs); try done.
  - destruct I. constructor; cbn; try done; [lia|lia|by left].
  - split; [rewrite length_app; simpl; lia|]. apply Forall_app.
    split; [apply (bi_buf _ _ _ _ _ _ _ I)|by apply Forall_singleton].
  - rewrite fmap_app. apply Hfull; [apply (bi_ts_len _ _ _ _ _ _ _ I)|apply (bi_ts _ _ _ _ _ _ _ I)].
  - rewrite fmap_app. apply Hfull; [apply (bi_val_len _ _ _ _ _ _ _ I)|apply (bi_val _ _ _ _ _ _ _ I)].
  - lia.
Qed.

(** A point that goes to the raw tail, or is refused. *)
Lemma put_tail pre id b chs buf tail junk ts v :
  block_inv pre id b chs buf tail junk → space b < MARGIN → point_ok (ts, v) →
  ∃ st b', put ts v b = Some (st, b') ∧
    ((st = kOk ∧ 16 ≤ space b ∧ block_inv pre id b' chs buf (tail ++ [(ts, v)]) junk) ∨
     (st = kOverflow ∧ space b' ≤ space b < 16 ∧ ∃ junk', block_inv pre id b' chs buf tail junk')).
Proof.
  intros I Hr Hx. destruct (inv_no_room _ _ _ _ _ _ _ I Hr) as (->&Hsp&Hj).
  pose proof (bi_sink _ _ _ _ _ _ _ I) as Hs. pose proof (space_nonneg b Hs).
  unfold put. destruct (room_for_chunk b) eqn:Hrm; [apply room_true in Hrm; lia|].
  rewrite (bi_index _ _ _ _ _ _ _ I), mask_index by (simpl; lia). rewrite decide_True by done.
  destruct (decide (space b < 8)) as [H8|H8].
  { rewrite VByteWriter.put_raw_full by done. cbn [mbind option_bind negb].
    eexists _, _. split; [done|]. right. split; [done|]. cbn. split; [lia|]. exists junk.
    destruct I. constructor; try done. }
  assert (junk = []) as -> by (destruct junk; [done|specialize (Hj ltac:(done)); lia]).
  destruct (bi_mem _ _ _ _ _ _ _ I) as (bs&Ebs&Em).
  destruct (VByteWriter.put_raw_emits 8 ts (stream_ b) Hs) as (w1&->&G1&Ec1&_);
    [rewrite length_le_bytes; lia|]. cbn [mbind option_bind negb].
  pose proof (grows_space _ _ _ Hs G1) as Es1. rewrite length_le_bytes in Es1.
  pose proof G1 as (Hs1&Em1&Ecap1). unfold VByteWriter.space_left in *.
  destruct (decide (sk_space (vw_sink w1) < 8)) as [H16|H16].
  { rewrite VByteWriter.put_raw_full by done. cbn [mbind option_bind negb].
    eexists _, _. split; [done|]. right. split; [done|]. cbn. split; [lia|].
    exists (le_bytes 8 ts).
    destruct I. constructor; cbn; try done.
    - by rewrite Ecap1.
    - exists bs. split; [done|]. rewrite Em1, Em. by rewrite <- !app_assoc, app_nil_l.
    - by rewrite Ec1.
    - right. unfold VByteWriter.space_left. cbn. rewrite Es1. simpl in Hsp. split_and!; try done; lia. }
  destruct (VByteWriter.put_raw_emits 8 v w1 Hs1) as (w2&->&G2&Ec2&_);
    [rewrite length_le_bytes; unfold VByteWriter.space_left; lia|]. cbn [mbind option_bind negb].
  pose proof (grows_space _ _ _ Hs1 G2) as Es2. rewrite length_le_bytes in Es2.
  pose proof (grows_trans _ _ _ _ _ G1 G2) as (Hs2&Em2&Ecap2).
  rewrite Em, <- !app_assoc in Em2. simpl length in Hsp.
  set (b2 := set_stream w2 b).
  destruct (incr_ntail pre (Z.of_nat (length chs)) (Z.of_nat (length tail)) id
    (bs ++ tail_bytes tail ++ [] ++ le_bytes 8 ts ++ le_bytes 8 v) b2)
    as (b3&E3&(s3&->&Hs3&Em3&Ecap3)); [done|apply (bi_ntl _ _ _ _ _ _ _ I)|done|unfold MARGIN in *; lia|].
  change (ntail_ b2) with (ntail_ b) in E3. rewrite E3. cbn [mbind option_bind].
  eexists _, _. split; [done|]. left. split_and!; [done|lia|].
  assert (Esp3 : sk_space s3 = sk_space (vw_sink (stream_ b)) - 16).
  { rewrite (sk_space_eq s3), (sk_space_eq (vw_sink (stream_ b))) by done.
    rewrite Ecap3, Em3, Em. cbn [b2 stream_ set_stream]. rewrite Ecap2, !length_app, !length_header,
      !length_le_bytes. simpl length. lia. }
  destruct I. constructor; cbn; try done.
  - by rewrite Ecap3; simpl; rewrite Ecap2.
  - exists bs. split; [done|]. rewrite Em3, tail_bytes_app, length_app, tail_bytes_single.
    rewrite Nat2Z.inj_add. by rewrite ?app_nil_r, <- ?app_assoc.
  - by rewrite Ec2, Ec1.
  - apply Forall_app. split; [done|]. by constructor.
  - right. unfold VByteWriter.space_left. cbn. rewrite Esp3, length_app. simpl.
    split_and!; try done. lia.
Qed.

(** ** Opening a block *)

Lemma allocate_grows n w :
  sk_inv (vw_sink w) → (0 < n ≤ sk_contig (vw_sink w))%nat →
  ∃ w' bs, VByteWriter.allocate n w = (Some (length (sk_mem (vw_sink w))), w') ∧
    grows (vw_sink w) (vw_sink w') bs ∧ length bs = n ∧ vw_cnt w' = vw_cnt w.
Proof.
  intros Hs Hn. unfold VByteWriter.allocate.
  destruct (sk_alloc_ok n (vw_sink w) Hs Hn) as (s'&bs&->&?&?&?&?).
  eexists _, bs. split; [done|]. by split_and!.
Qed.

Lemma two_bytes (bs : list Z) : length bs = 2%nat → ∃ x y, bs = [x; y].
Proof. destruct bs as [|x [|y [|]]]; simpl; try lia. eauto. Qed.

(** A sink with room for the header becomes an empty block behind the bytes
    it already holds. *)
Lemma block_init_ok (s : S) id :
  sk_inv s → is_u64 id → (6 ≤ sk_contig s)%nat → 14 ≤ sk_space s →
  Z.of_nat (sk_cap s) < 3 * 2 ^ 16 →
  ∃ b0 b, make s = Some b0 ∧ init id b0 = Some b ∧ block_inv (sk_mem s) id b [] [] [] [].
Proof.
  intros Hs Hid Hc Hsp Hcap. unfold make. rewrite start_pred_eq. cbn [mbind option_bind].
  eexists. set (b0 := mk _ _ _ _ _ _ _ _). unfold init.
  destruct (VByteWriter.put_raw_emits 2 FASTSTDB_VERSION (stream_ b0) Hs) as (w1&->&G1&Ec1&_);
    [rewrite length_le_bytes; unfold VByteWriter.space_left; simpl; lia|]. cbn [mbind option_bind].
  pose proof (grows_contig _ _ _ Hs G1) as C1. pose proof (grows_space _ _ _ Hs G1) as P1.
  rewrite length_le_bytes in C1, P1. cbn [b0 stream_ VByteWriter.make vw_sink] in *.
  destruct (allocate_grows 2 w1) as (w2&b2&->&G2&L2&Ec2); [apply G1|lia|].
  pose proof (grows_contig _ _ _ (proj1 G1) G2) as C2.
  pose proof (grows_space _ _ _ (proj1 G1) G2) as P2. rewrite L2 in C2, P2.
  destruct (allocate_grows 2 w2) as (w3&b3&->&G3&L3&Ec3); [apply G2|lia|].
  pose proof (grows_space _ _ _ (proj1 G2) G3) as P3. rewrite L3 in P3.
  destruct (VByteWriter.put_raw_emits 8 id w3 (proj1 G3)) as (w4&->&G4&Ec4&_);
    [rewrite length_le_bytes; unfold VByteWriter.space_left; lia|].
  cbn [mbind option_bind ts_stream_ val_stream_ write_index_ ts_writebuf_ val_writebuf_].
  pose proof (grows_trans _ _ _ _ _ G1 (grows_trans _ _ _ _ _ G2 (grows_trans _ _ _ _ _ G3 G4)))
    as (Hs4&Em4&Ecap4).
  destruct (two_bytes _ L2) as (x2&y2&->), (two_bytes _ L3) as (x3&y3&->).
  rewrite (proj1 (proj2 G2)), (proj1 (proj2 G1)), !length_app, !length_le_bytes.
  rewrite decide_False by (intros [?|[?|?]]; done). rewrite <- Nat.add_assoc. cbn [length Nat.add].
  set (b4 := mk w4 _ _ _ _ _ _ _).
  destruct (poke_ok (length (sk_mem s) + 4) 0 b4) as (b5&->&(s5&->&Hs5&Em5&Ecap5)); [done|..].
  { cbn [b4 stream_]. rewrite Em4, !length_app. simpl. lia. }
  cbn [mbind option_bind b4 set_stream stream_] in *.
  destruct (poke_ok (length (sk_mem s) + 2) 0 (set_stream (VByteWriter.set_sink s5 w4) b4))
    as (b6&->&(s6&->&Hs6&Em6&Ecap6)); [done|..].
  { cbn. rewrite Em5, !length_insert, Em4, !length_app. simpl. lia. }
  eexists. split_and!; [done..|].
  assert (Em : sk_mem s6 = sk_mem s ++ header 0 0 id ++ []).
  { rewrite Em6. cbn [b4 stream_ set_stream VByteWriter.set_sink vw_sink]. rewrite Em5, Em4, <- !Nat.add_assoc.
    rewrite !insert_app_r. done. }
  assert (Ecap : sk_cap s6 = sk_cap s) by (rewrite Ecap6; cbn; by rewrite Ecap5).
  constructor; cbn; try done.
  - by rewrite Ecap.
  - by eexists.
  - apply start_pred_ok.
  - by rewrite Ec4, Ec3, Ec2, Ec1.
  - simpl. lia.
  - by left.
Qed.

(** ** The operations, up to the points held *)

Lemma put_cases pre id b pts ts v :
  holds pre id b pts → point_ok (ts, v) →
  ∃ st b', put ts v b = Some (st, b') ∧
    ((st = kOk ∧ 16 ≤ space b ∧ holds pre id b' (pts ++ [(ts, v)])) ∨
     (st = kOverflow ∧ space b' ≤ space b < 16 ∧ holds pre id b' pts)).
Proof.
  intros (chs&buf&tail&junk&I&->) Hx. destruct (decide (MARGIN ≤ space b)) as [Hr|Hr].
  - destruct (inv_room _ _ _ _ _ _ _ I Hr) as [-> ->]. unfold MARGIN in Hr.
    destruct (decide (length buf < 15)%nat) as [Hl|Hl].
    + destruct (put_buffer _ _ _ _ _ _ _ ts v I Hr Hx Hl) as (b'&->&I').
      eexists _, _. split; [done|]. left. split_and!; [done|lia|].
      exists chs, (buf ++ [(ts, v)]), [], []. split; [done|]. by rewrite !app_nil_r, <- app_assoc.
    + pose proof (bi_buf_len _ _ _ _ _ _ _ I).
      destruct (put_flush _ _ _ _ _ _ _ ts v I Hr Hx ltac:(lia)) as (b'&->&I').
      eexists _, _. split; [done|]. left. split_and!; [done|lia|].
      eexists _, [], [], []. split; [done|]. rewrite concat_app. simpl.
      by rewrite !app_nil_r, <- app_assoc.
  - destruct (put_tail _ _ _ _ _ _ _ ts v I ltac:(lia) Hx) as (st&b'&->&[(->&Hsp&I')|(->&Hsp&junk'&I')]);
      eexists _, _; (split; [done|]).
    + left. split_and!; [done..|]. eexists _, _, _, _. split; [done|]. by rewrite <- !app_assoc.
    + right. split_and!; [done|lia|lia|]. by eexists _, _, _, _.
Qed.

(** Once a [put] is refused every later one is. *)
Lemma put_many_full pts b0 pre id b :
  holds pre id b b0 → Forall point_ok pts → space b < 16 →
  ∃ b', put_many pts b = Some (replicate (length pts) kOverflow, b') ∧ holds pre id b' b0.
Proof.
  intros Hb Hp. revert b Hb. induction Hp as [|[ts v] pts Hx _ IH]; intros b Hb Hsp; simpl.
  { by eexists. }
  destruct (put_cases _ _ _ _ ts v Hb Hx) as (st&b1&->&[(_&?&_)|(->&Hsp1&Hb1)]); [lia|].
  cbn [mbind option_bind]. destruct (IH b1 Hb1 ltac:(lia)) as (b2&->&Hb2). by eexists.
Qed.

Lemma put_many_cases pts b0 pre id b :
  holds pre id b b0 → Forall point_ok pts →
  ∃ b' n, put_many pts b = Some (replicate n kOk ++ replicate (length pts - n) kOverflow, b') ∧
    (n ≤ length pts)%nat ∧ holds pre id b' (b0 ++ take n pts).
Proof.
  intros Hb Hp. revert b0 b Hb. induction Hp as [|[ts v] pts Hx Hp IH]; intros b0 b Hb.
  { exists b, 0%nat. simpl. by rewrite app_nil_r. }
  simpl. destruct (put_cases _ _ _ _ ts v Hb Hx) as (st&b1&->&[(->&_&Hb1)|(->&Hsp1&Hb1)]);
    cbn [mbind option_bind].
  - destruct (IH _ _ Hb1) as (b2&n&->&Hn&Hb2). exists b2, (1 + n)%nat. simpl. split_and!; [done|lia|].
    by rewrite <- app_assoc in Hb2.
  - destruct (put_many_full pts _ _ _ _ Hb1 Hp ltac:(lia)) as (b2&->&Hb2).
    exists b2, 0%nat. simpl. split_and!; [done|lia|]. by rewrite app_nil_r.
Qed.

(** ** Closing a block *)

(** The loop of [commit] moves the write buffer to the tail. *)
Lemma commit_tail_ok pts pre n k id rest (b : W) :
  sk_inv (vw_sink (stream_ b)) → ntail_ b = Some (length pre + 4)%nat →
  mem b = pre ++ header n k id ++ rest →
  0 ≤ k → k + Z.of_nat (length pts) ≤ 0xFFFF → 16 * Z.of_nat (length pts) ≤ space b →
  ∃ b', commit_tail pts b = Some b' ∧ sk_inv (vw_sink (stream_ b')) ∧
    sk_cap (vw_sink (stream_ b')) = sk_cap (vw_sink (stream_ b)) ∧
    nchunks_ b' = nchunks_ b ∧ ntail_ b' = ntail_ b ∧
    write_index_ b' = write_index_ b - Z.of_nat (length pts) ∧
    mem b' = pre ++ header n (k + Z.of_nat (length pts)) id ++ rest ++ tail_bytes pts.
Proof.
  revert k rest b. induction pts as [|[ts v] pts IH]; intros k rest b Hs Ent Em Hk Hkl Hsp.
  { exists b. simpl. rewrite Z.add_0_r, Z.sub_0_r, app_nil_r. by split_and!. }
  cbn [length] in *. cbn [commit_tail]. unfold VByteWriter.space_left in *.
  destruct (VByteWriter.put_raw_emits 8 ts (stream_ b) Hs) as (w1&->&G1&_);
    [rewrite length_le_bytes; unfold VByteWriter.space_left; lia|]. cbn [mbind option_bind].
  pose proof (grows_space _ _ _ Hs G1) as P1. rewrite length_le_bytes in P1.
  destruct (VByteWriter.put_raw_emits 8 v w1 (proj1 G1)) as (w2&->&G2&_);
    [rewrite length_le_bytes; unfold VByteWriter.space_left; lia|]. cbn [mbind option_bind negb andb].
  pose proof (grows_space _ _ _ (proj1 G1) G2) as P2. rewrite length_le_bytes in P2.
  pose proof (grows_trans _ _ _ _ _ G1 G2) as (Hs2&Em2&Ecap2). rewrite Em, <- !app_assoc in Em2.
  destruct (incr_ntail pre n k id (rest ++ le_bytes 8 ts ++ le_bytes 8 v) (set_stream w2 b))
    as (b3&E3&(s3&->&Hs3&Em3&Ecap3)); [done|done|done|lia|].
  change (ntail_ (set_stream w2 b)) with (ntail_ b) in E3. rewrite E3. cbn [mbind option_bind].
  assert (P3 : sk_space s3 = sk_space (vw_sink w2)).
  { rewrite (sk_space_eq s3), (sk_space_eq (vw_sink w2)) by done. rewrite Ecap3, Em3, Em2.
    cbn [set_stream stream_]. by rewrite !length_app, !length_header. }
  edestruct (IH (k + 1) (rest ++ le_bytes 8 ts ++ le_bytes 8 v)) as (b'&->&Hb'&Ecb&En&En'&Ei&Em');
    [done..|lia|lia|cbn; lia|].
  exists b'. split; [done|]. cbn in Ecb, En, En', Ei. rewrite Ecap3 in Ecb. cbn in Ecb.
  split_and!; [done|by rewrite Ecb|done|done|lia|].
  rewrite Em'. unfold tail_bytes. cbn [mbind list_bind fst snd]. rewrite <- !app_assoc.
  do 3 f_equal. lia.
Qed.

Lemma inv_write_buffer pre id b chs buf tail junk :
  block_inv pre id b chs buf tail junk →
  take (length buf) (zip (ts_writebuf_ b) (val_writebuf_ b)) = buf.
Proof.
  intros I. rewrite <- (zip_fst_snd buf) at 2.
  rewrite <- (bi_ts _ _ _ _ _ _ _ I), <- (bi_val _ _ _ _ _ _ _ I).
  generalize (ts_writebuf_ b) (val_writebuf_ b) (length buf). clear.
  intros l k n. revert l k. induction n as [|n IH]; intros [|x l] [|y k]; simpl; try done.
  f_equal. apply IH.
Qed.

(** A closed block: everything written, the counters of the header right. *)
Definition closed_block (id : Z) (chs : list (list point)) (tail : list point)
    (junk l : list Z) : Prop :=
  ∃ bs prev p, chunks_bytes 0 start_pred chs = Some (bs, prev, p) ∧
    l = header (Z.of_nat (length chs)) (Z.of_nat (length tail)) id ++ bs ++ tail_bytes tail ++ junk ∧
    Forall chunk_ok chs ∧ Forall point_ok tail ∧
    Z.of_nat (length chs) ≤ 0xFFFF ∧ Z.of_nat (length tail) ≤ 0xFFFF.

Lemma inv_index pre id b chs buf tail junk :
  block_inv pre id b chs buf tail junk →
  write_index_ b / CHUNK_SIZE = Z.of_nat (length chs) ∧
  write_index_ b mod CHUNK_SIZE = Z.of_nat (length buf).
Proof.
  intros I. rewrite (bi_index _ _ _ _ _ _ _ I). pose proof (bi_buf_len _ _ _ _ _ _ _ I).
  unfold CHUNK_SIZE. split; zify_div.
Qed.

Lemma commit_inv pre id b chs buf tail junk :
  block_inv pre id b chs buf tail junk →
  ∃ n b' l, commit b = Some (n, b') ∧ sk_inv (vw_sink (stream_ b')) ∧
    sk_cap (vw_sink (stream_ b')) = sk_cap (vw_sink (stream_ b)) ∧
    mem b' = pre ++ l ∧ n = length (pre ++ l) ∧ closed_block id chs (buf ++ tail) junk l.
Proof.
  intros I. destruct (bi_mem _ _ _ _ _ _ _ I) as (bs&Ebs&Em).
  pose proof (nchunks_bound _ _ _ _ _ _ _ I) as Hn.
  destruct (inv_index _ _ _ _ _ _ _ I) as [Ei1 Ei2].
  pose proof (bi_sink _ _ _ _ _ _ _ I) as Hs. pose proof (bi_buf_len _ _ _ _ _ _ _ I) as Hbl.
  unfold commit. rewrite Ei1, Ei2, Nat2Z.id.
  assert (∃ b1, sk_inv (vw_sink (stream_ b1)) ∧
    sk_cap (vw_sink (stream_ b1)) = sk_cap (vw_sink (stream_ b)) ∧ nchunks_ b1 = nchunks_ b ∧
    (if decide (length buf ≠ 0)%nat then
       n ← peek (ntail_ b) b;
       if decide (n ≠ 0) then None
       else commit_tail (take (length buf) (zip (ts_writebuf_ b) (val_writebuf_ b))) b
     else Some b) = Some b1 ∧
    mem b1 = pre ++ header (Z.of_nat (length chs)) (Z.of_nat (length (buf ++ tail))) id
      ++ bs ++ tail_bytes (buf ++ tail) ++ junk) as (b1&Hs1&Ec1&En1&->&Em1).
  { case_decide as Hb; [|exists b; destruct buf; [by rewrite Em|done]].
    destruct (bi_mode _ _ _ _ _ _ _ I) as [(->&->&Hm)|(->&_)]; [|done].
    specialize (Hm ltac:(by intros ->)). unfold MARGIN in Hm. simpl in Em.
    rewrite (bi_ntl _ _ _ _ _ _ _ I), (peek_ntail _ _ _ _ _ _ Hs Em).
    cbn [mbind option_bind]. rewrite decide_False by (intros Hz; by apply Hz).
    rewrite (inv_write_buffer _ _ _ _ _ _ _ I).
    destruct (commit_tail_ok buf _ _ 0 _ _ b Hs (bi_ntl _ _ _ _ _ _ _ I) Em)
      as (b1&->&Hs1&Ec1&En1&_&_&Em1); [lia..|]. exists b1. split_and!; try done.
    rewrite Em1, !app_nil_r. simpl. by rewrite ?app_nil_r. }
  cbn [mbind option_bind]. rewrite decide_True by done. rewrite En1, (bi_nch _ _ _ _ _ _ _ I).
  destruct (poke_nchunks _ _ _ _ _ (u16 (Z.of_nat (length chs))) b1 Hs1 Em1)
    as (b2&->&(s2&->&Hs2&Em2&Ec2)). cbn [mbind option_bind].
  rewrite u16_id in Em2 by (unfold is_u16; lia).
  eexists _, _, _. split_and!; [done|done|by rewrite <- Ec1|exact Em2|by rewrite <- Em2; apply sk_pos_eq|].
  eexists _, _, _. split_and!; [done..|apply (bi_chs _ _ _ _ _ _ _ I)| |done|].
  - apply Forall_app. split; [apply (bi_buf _ _ _ _ _ _ _ I)|apply (bi_tail _ _ _ _ _ _ _ I)].
  - pose proof (space_nonneg b Hs).
    destruct (bi_mode _ _ _ _ _ _ _ I) as [(->&_)|(_&Hsp&_)]; rewrite length_app; simpl;
      unfold MARGIN in *; lia.
Qed.

End Invariant.
