(* ===== verification/DataBlockRead.v ===== *)
(** * Data blocks: the reader, and the round trip

    The reader is followed through a closed block: chunk by chunk, then the
    raw tail, then [NoData].  The properties of the block format are at the
    end. *)
From S2P Require Import Prelude Status ByteStream Base128 VByte DeltaDelta Predictor Fcm DataBlock DataBlockProof.

Lemma mask_aligned k : Z.land (16 * Z.of_nat k) CHUNK_MASK = 0.
Proof. rewrite <- (Z.add_0_r (16 * _)). apply (mask_index k 0). lia. Qed.

Lemma concat_chunks_length chs :
  Forall chunk_ok chs → length (concat chs) = (16 * length chs)%nat.
Proof.
  induction 1 as [|c chs [Hc _] _ IH]; simpl; [done|]. rewrite length_app, IH. lia.
Qed.

Section ReaderFacts.
Context {R : Type} `{ByteSourceLaws R}.
Import BlockReader.

(** Reading never moves to another memory. *)
Lemma read_raw_src n (r : VByteStreamReader R) v r' :
  VByteReader.read_raw n r = Some (v, r') → vr_src r' = vr_src r.
Proof.
  unfold VByteReader.read_raw. case_decide; [done|].
  destruct (src_gets _ _ _); simpl; [|done]. by intros [= <- <-].
Qed.

Lemma decode_bytes_src n i d (r : VByteStreamReader R) v r' :
  FcmStreamReader.decode_bytes n i d r = Some (v, r') → vr_src r' = vr_src r.
Proof.
  revert i d r. induction n as [|n IH]; simpl; intros i d r; [by intros [= <- <-]|].
  destruct (VByteReader.read_raw 1 r) as [[x r1]|] eqn:E; simpl; [|done].
  intros ->%IH. by eapply read_raw_src.
Qed.

Lemma decode_value_src fl (r : VByteStreamReader R) v r' :
  FcmStreamReader.decode_value fl r = Some (v, r') → vr_src r' = vr_src r.
Proof.
  unfold FcmStreamReader.decode_value.
  destruct (FcmStreamReader.decode_bytes _ _ _ r) as [[x r1]|] eqn:E; simpl; [|done].
  intros [= <- <-]. by eapply decode_bytes_src.
Qed.

Lemma next_diff_src {P} (f : FcmStreamReader.t P) (r : VByteStreamReader R) v f' r' :
  FcmStreamReader.next_diff (f, r) = Some (v, (f', r')) → vr_src r' = vr_src r.
Proof.
  unfold FcmStreamReader.next_diff. case_decide.
  - destruct (VByteReader.read_raw 1 r) as [[x r1]|] eqn:E; simpl; [|done].
    apply read_raw_src in E. rewrite <- E. case_decide; [|by intros; simplify_eq].
    destruct (FcmStreamReader.decode_value _ r1) as [[y r2]|] eqn:E2; simpl; [|done].
    intros [= <- <- <-]. by eapply decode_value_src.
  - simpl. case_decide; [|by intros; simplify_eq].
    destruct (FcmStreamReader.decode_value _ r) as [[y r2]|] eqn:E2; simpl; [|done].
    intros [= <- <- <-]. by eapply decode_value_src.
Qed.

Lemma fcm_next_src {P} `{Predictor P} (f : FcmStreamReader.t P) (r : VByteStreamReader R) v f' r' :
  FcmStreamReader.next (f, r) = Some (v, (f', r')) → vr_src r' = vr_src r.
Proof.
  unfold FcmStreamReader.next.
  destruct (FcmStreamReader.next_diff _) as [[d [f1 r1]]|] eqn:E; simpl; [|done].
  destruct (predict_next _); simpl; [|done]. destruct (update _ _); simpl; [|done].
  intros [= <- <- <-]. by eapply next_diff_src.
Qed.

(** ** The header *)

Section Header.
Variables (s : R) (pre rest : list Z) (nch ntl id : Z).
Hypothesis Hs : src_inv s.
Hypothesis Hb : src_bytes s = pre ++ header nch ntl id ++ rest.
Hypothesis Hc : (length pre + HEADER_SIZE ≤ src_contig s)%nat.
Hypothesis Hnch : 0 ≤ nch ≤ 0xFFFF.
Hypothesis Hntl : 0 ≤ ntl ≤ 0xFFFF.
Hypothesis Hid : is_u64 id.

Local Lemma at_header : drop (length pre) (src_bytes s) = header nch ntl id ++ rest.
Proof using Hb. by rewrite Hb, drop_app_length. Qed.

Local Lemma at_field k n v tl :
  header nch ntl id ++ rest = take k (header nch ntl id) ++ le_bytes n v ++ tl →
  (k ≤ HEADER_SIZE)%nat → (k + n ≤ HEADER_SIZE)%nat → 0 ≤ v < 2 ^ (8 * Z.of_nat n) →
  src_load n (length pre + k) s = Some v.
Proof using Hs Hb Hc.
  intros E Hk Hkn Hv. apply (src_load_ok n _ s v tl); [done| |lia|done].
  rewrite <- drop_drop, at_header, E. rewrite drop_app_length'; [done|].
  rewrite length_take, length_header. lia.
Qed.

Lemma header_version : get_block_version s (length pre) = Some FASTSTDB_VERSION.
Proof using Hs Hb Hc.
  unfold get_block_version. rewrite <- (Nat.add_0_r (length pre)).
  eapply at_field; [cbn; reflexivity|unfold HEADER_SIZE; lia..|by vm_compute].
Qed.

Lemma header_main : get_main_size s (length pre) = Some (nch * CHUNK_SIZE).
Proof using Hs Hb Hc Hnch.
  unfold get_main_size. rewrite (at_field 2 2 nch (le_bytes 2 ntl ++ le_bytes 8 id ++ rest));
    [done|done|unfold HEADER_SIZE; lia..].
Qed.

Lemma header_total : get_total_size s (length pre) = Some (ntl + nch * CHUNK_SIZE).
Proof using Hs Hb Hc Hnch Hntl.
  unfold get_total_size. rewrite (at_field 2 2 nch (le_bytes 2 ntl ++ le_bytes 8 id ++ rest));
    [|done|unfold HEADER_SIZE; lia..]. cbn [mbind option_bind].
  rewrite (at_field 4 2 ntl (le_bytes 8 id ++ rest)); [done|done|unfold HEADER_SIZE; lia..].
Qed.

Lemma header_id : get_block_id s (length pre) = Some id.
Proof using Hs Hb Hc Hid.
  unfold get_block_id. apply (at_field 6 8 id rest); [done|unfold HEADER_SIZE; lia..|].
  unfold is_u64 in Hid. simpl. lia.
Qed.

(** ** One chunk *)

Local Notation B := (BlockReader.t R).
Implicit Types b : B.

(** The points of a chunk whose timestamps are in the read buffer. *)
Lemma next_buffered b k n vs f' r' :
  begin_ b = length pre → src b = s → length (read_buffer_ b) = 16%nat →
  read_index_ b = 16 * Z.of_nat k + Z.of_nat (16 - n) → (n < 16)%nat → Z.of_nat k < nch →
  read_n FcmStreamReader.next n (val_stream_ b, stream_ b) = Some (vs, (f', r')) →
  read_n next_point n b = Some (zip (drop (16 - n) (read_buffer_ b)) vs,
    mk (begin_ b) r' (ts_stream_ b) f' (read_buffer_ b) (16 * Z.of_nat k + 16)).
Proof using Hs Hb Hc Hnch.
  revert b vs. induction n as [|n IH]; intros b vs Ebg Esrc Hbl Eix Hn Hk E.
  { simpl in E. simplify_eq. simpl. rewrite drop_ge by lia. simpl. destruct b; simpl in *.
    do 3 f_equal. lia. }
  apply read_n_S_inv in E as (v&[f1 r1]&vs'&E1&E2&->).
  destruct (lookup_lt_is_Some_2 (read_buffer_ b) (16 - Datatypes.S n)) as [ts Ets]; [lia|].
  assert (N1 : next_point b = Some ((ts, v),
    mk (begin_ b) r1 (ts_stream_ b) f1 (read_buffer_ b) (u32 (read_index_ b + 1)))).
  { unfold next_point, next. rewrite Esrc, Ebg, header_main. cbn [mbind option_bind].
    rewrite Eix, decide_True by (unfold CHUNK_SIZE; lia).
    rewrite mask_index, Nat2Z.id by lia. rewrite decide_False by lia. cbn [mbind option_bind].
    rewrite E1. cbn [mbind option_bind]. rewrite Ets. cbn [mbind option_bind].
    rewrite decide_True by done. by rewrite ?Eix. }
  eapply read_n_S in N1; [|eapply IH]; cbn [begin_ stream_ ts_stream_ val_stream_ read_buffer_ read_index_];
    try done; [|unfold src; simpl; rewrite (fcm_next_src _ _ _ _ _ E1); done| |lia].
  - rewrite N1, (drop_S _ _ _ Ets).
    by replace (Datatypes.S (16 - Datatypes.S n)) with (16 - n)%nat by lia.
  - rewrite Eix, u32_id by (unfold is_u32; lia). lia.
Qed.

(** Where the reader stands between two chunks. *)
Record between (b : B) (k : nat) (prev : Z) (p : DfcmPredictor.t) (tl : list Z) : Prop := {
  bt_begin : begin_ b = length pre;
  bt_src : src b = s;
  bt_idle : VByteReader.idle (stream_ b);
  bt_rest : VByteReader.rest (stream_ b) = tl;
  bt_prev : DeltaDeltaStreamReader.prev_ (ts_stream_ b) = prev;
  bt_counter : DeltaDeltaStreamReader.counter_ (ts_stream_ b) = 16 * Z.of_nat k;
  bt_pred : FcmStreamReader.predictor_ (val_stream_ b) = p;
  bt_aligned : FcmStreamReader.aligned (val_stream_ b);
  bt_index : read_index_ b = 16 * Z.of_nat k;
}.

Lemma block_next_chunk b k c prev p dfs p' tl :
  between b k prev p (DeltaDeltaStreamWriter.chunk_bytes prev (c.*1)
                        ++ FcmStreamWriter.chunk_bytes dfs ++ tl) →
  chunk_ok c → Z.of_nat k < nch → FcmStreamWriter.encode_all (c.*2) p = Some (dfs, p') →
  FcmStreamWriter.dfs_ok dfs → length dfs = 16%nat →
  ∃ b', read_n next_point 16 b = Some (c, b') ∧
        between b' (k + 1) (default prev (last (c.*1))) p' tl.
Proof using Hs Hb Hc Hnch.
  intros [Ebg Esrc Hi Er Ep Ec Epr Ha Eix] [Hcl Hcp] Hk E Hd Hdl.
  destruct (DeltaDeltaStreamReader.dd_next_chunk (c.*1) (ts_stream_ b) (stream_ b)
    (FcmStreamWriter.chunk_bytes dfs ++ tl)) as (dd'&r1&N1&(Hi1&Er1&Es1)&Epd&Ecd);
    [by apply point_ok_ts|by rewrite length_fmap|done|rewrite Ec; zify_div|lia|by rewrite Ep|].
  rewrite <- Epr in E.
  destruct (FcmStreamReader.fcm_next_chunk (c.*2) (val_stream_ b) r1 tl dfs p' E Hd)
    as (f'&N2&Ha'&Epf); [by rewrite length_fmap|done|done|apply Hi1|done|].
  set (r2 := VByteReader.advance _ r1) in *.
  apply (read_n_S_inv _ 15) in N2 as (v&[f1 r1']&vs&F1&F2&Evs).
  destruct (c.*1) as [|ts tss] eqn:Ets; [by destruct c|].
  set (b1 := mk (begin_ b) r1' dd' f1 (ts :: tss) (16 * Z.of_nat k + 1)).
  assert (M1 : next_point b = Some ((ts, v), b1)).
  { unfold next_point, next. rewrite Esrc, Ebg, header_main. cbn [mbind option_bind].
    rewrite Eix, decide_True by (unfold CHUNK_SIZE; lia).
    rewrite mask_aligned. rewrite (decide_True (P := Z.to_nat 0 = 0%nat)) by done. rewrite N1. cbn [mbind option_bind]. rewrite F1.
    change ((ts :: tss) !! Z.to_nat 0) with (Some ts). cbn [mbind option_bind].
    rewrite decide_True by done. unfold b1. rewrite u32_id by (unfold is_u32; lia). by rewrite Ebg. }
  assert (Hlen : length (ts :: tss) = 16%nat) by (by rewrite <- Ets, length_fmap).
  assert (Hr1' : vr_src r1' = vr_src r1) by (by eapply fcm_next_src).
  pose proof (next_buffered b1 k 15 vs f' r2 Ebg ltac:(unfold src; simpl; by rewrite Hr1', Es1)
    Hlen ltac:(done) ltac:(lia) Hk F2) as M2.
  eexists. split.
  { rewrite (read_n_S _ _ _ _ _ _ _ M1 M2). cbn [b1 read_buffer_ drop Nat.sub].
    rewrite <- (zip_fst_snd c), Ets, Evs. done. }
  constructor; cbn; try done.
  - unfold src. simpl. by rewrite Es1.
  - destruct Hi1 as (Hok&Hev&Hsc). split_and!; [|done|done]. by eapply VByteReader.advance_ok.
  - by apply VByteReader.advance_rest.
  - by rewrite Epd, Ep.
  - lia.
  - lia.
Qed.

(** ** All chunks, then the tail *)

Lemma next_chunks chs b k prev p bs prev' p' tl :
  between b k prev p (bs ++ tl) → chunks_bytes prev p chs = Some (bs, prev', p') →
  pred_ok p → Forall chunk_ok chs → Z.of_nat (k + length chs) ≤ nch →
  ∃ b', read_n next_point (16 * length chs) b = Some (concat chs, b') ∧
        between b' (k + length chs) prev' p' tl.
Proof using Hs Hb Hc Hnch.
  intros Hbt E Hp Hch. revert b k prev p bs Hbt E Hp.
  induction Hch as [|c chs Hcc Hch IH]; intros b k prev p bs Hbt E Hp Hk; simpl in E.
  { simplify_eq. exists b. rewrite Nat.add_0_r. done. }
  destruct (chunk_encoding c p Hcc Hp) as (dfs&p1&E1&Hp1&Hd&Hdl&_). rewrite E1 in E. simpl in E.
  destruct (chunks_bytes _ p1 chs) as [[[bs1 prev1] p2]|] eqn:E2; simpl in E; [|done].
  simplify_eq. rewrite <- !app_assoc in Hbt. cbn [length] in *.
  destruct (block_next_chunk b k c prev p dfs p1 (bs1 ++ tl) Hbt Hcc ltac:(lia) E1 Hd Hdl)
    as (b1&N1&Hbt1).
  destruct (IH b1 (k + 1)%nat _ p1 bs1 Hbt1 E2 Hp1 ltac:(lia)) as (b2&N2&Hbt2).
  exists b2. replace (k + Datatypes.S (length chs))%nat with (k + 1 + length chs)%nat by lia.
  split; [|done]. replace (16 * Datatypes.S (length chs))%nat with (16 + 16 * length chs)%nat by lia.
  exact (read_n_app _ _ _ _ _ _ _ _ N1 N2).
Qed.

Lemma block_next_tail pts b tl :
  begin_ b = length pre → src b = s → VByteReader.ok (stream_ b) →
  VByteReader.rest (stream_ b) = tail_bytes pts ++ tl → Forall point_ok pts →
  read_index_ b = nch * CHUNK_SIZE + ntl - Z.of_nat (length pts) → Z.of_nat (length pts) ≤ ntl →
  ∃ b', read_n next_point (length pts) b = Some (pts, b') ∧
    begin_ b' = length pre ∧ src b' = s ∧ read_index_ b' = nch * CHUNK_SIZE + ntl.
Proof using Hs Hb Hc Hnch Hntl.
  intros Ebg Esrc Hok Er Hpts. revert b Ebg Esrc Hok Er.
  induction Hpts as [|[ts v] pts [Hts Hv] Hpts IH]; intros b Ebg Esrc Hok Er Eix Hle.
  { exists b. cbn [length] in *. split_and!; [done..|lia]. }
  unfold tail_bytes in Er. cbn [mbind list_bind fst snd] in *. fold (tail_bytes pts) in Er.
  rewrite <- !app_assoc in Er. cbn [length] in *. unfold is_u64 in Hts, Hv.
  pose proof (VByteReader.read_raw_le 8 ts ltac:(done) _ _ Hok Er) as R1.
  pose proof (VByteReader.advance_ok _ _ _ Hok Er) as Hok1.
  pose proof (VByteReader.advance_rest _ _ _ Er) as Er1.
  pose proof (VByteReader.read_raw_le 8 v ltac:(done) _ _ Hok1 Er1) as R2.
  pose proof (VByteReader.advance_ok _ _ _ Hok1 Er1) as Hok2.
  pose proof (VByteReader.advance_rest _ _ _ Er1) as Er2.
  set (r2 := VByteReader.advance _ (VByteReader.advance _ _)) in *.
  set (b1 := mk (begin_ b) r2 (ts_stream_ b) (val_stream_ b) (read_buffer_ b) (read_index_ b + 1)).
  unfold CHUNK_SIZE in *.
  destruct (IH b1) as (b'&N2&?&?&?); try done; [unfold b1; simpl; lia|lia|].
  exists b'. split_and!; try done. eapply read_n_S; [|exact N2].
  unfold next_point, next. rewrite Esrc, Ebg, header_main. cbn [mbind option_bind].
  rewrite decide_False by (unfold CHUNK_SIZE; lia). rewrite header_total. cbn [mbind option_bind].
  rewrite decide_True by (unfold CHUNK_SIZE; lia). rewrite R1. cbn [mbind option_bind].
  rewrite R2. cbn [mbind option_bind]. rewrite decide_True by done.
  rewrite u32_id by (unfold is_u32; lia). unfold b1. by rewrite Ebg.
Qed.

Lemma next_end b :
  begin_ b = length pre → src b = s → read_index_ b = nch * CHUNK_SIZE + ntl →
  next b = Some (kNoData, 0, 0, b).
Proof using Hs Hb Hc Hnch Hntl.
  intros Ebg Esrc Eix. unfold next. rewrite Esrc, Ebg, header_main. cbn [mbind option_bind].
  rewrite decide_False by lia. rewrite header_total. cbn [mbind option_bind].
  by rewrite decide_False by lia.
Qed.

End Header.

(** What a reader gives back: the points, then [NoData]; and what the header
    says of the block. *)
Definition returns (b : BlockReader.t R) (id : Z) (pts : list point) : Prop :=
  nelements b = Some (Z.of_nat (length pts)) ∧ get_id b = Some id ∧
  version b = Some FASTSTDB_VERSION ∧
  ∃ b', read_n next_point (length pts) b = Some (pts, b') ∧ next b' = Some (kNoData, 0, 0, b').

Lemma closed_block_read (s : R) pre id chs tail junk l :
  src_inv s → is_u64 id → closed_block id chs tail junk l → src_bytes s = pre ++ l →
  (length pre + HEADER_SIZE ≤ src_contig s)%nat →
  ∃ b, make s (length pre) = Some b ∧ returns b id (concat chs ++ tail).
Proof.
  intros Hs Hid (bs&prev&p&Ech&->&Hch&Htl&Hn&Hnt) Hb Hc.
  unfold make. rewrite start_pred_eq. cbn [mbind option_bind]. eexists. split; [done|].
  set (b := mk _ _ _ _ _ _). pose proof Hb as Hb'.
  assert (Hbt : between s pre b 0 0 start_pred (bs ++ tail_bytes tail ++ junk)).
  { constructor; try done; cbn.
    - apply make_idle; [done|]. rewrite Hb, !length_app, length_header. lia.
    - unfold VByteReader.rest. simpl. rewrite <- drop_drop, Hb, drop_app_length.
      rewrite drop_app_length'; [done|]. by rewrite length_header. }
  destruct (next_chunks s pre _ (Z.of_nat (length chs)) _ id Hs Hb Hc ltac:(lia) chs b 0 0 start_pred
    bs prev p _ Hbt Ech start_pred_ok Hch ltac:(lia)) as (b1&N1&[]).
  destruct (block_next_tail s pre _ (Z.of_nat (length chs)) _ id Hs Hb Hc ltac:(lia) ltac:(split; [lia|exact Hnt])
    tail b1 junk) as (b2&N2&Ebg&Esrc&Eix); try done.
  { apply bt_idle0. }
  { rewrite bt_index0. unfold CHUNK_SIZE. lia. }
  pose proof (concat_chunks_length chs Hch) as Hlen.
  split_and!.
  - unfold nelements. unfold b at 1, src. simpl.
    rewrite (header_total s pre _ (Z.of_nat (length chs)) (Z.of_nat (length tail)) id Hs Hb Hc) by lia.
    rewrite length_app, Hlen. unfold CHUNK_SIZE. f_equal. lia.
  - by apply (header_id s pre _ _ _ id Hs Hb).
  - by apply (header_version s pre _ _ _ id Hs Hb).
  - exists b2. split.
    + rewrite length_app, Hlen. exact (read_n_app _ _ _ _ _ _ _ _ N1 N2).
    + apply (next_end s pre _ _ _ id Hs Hb Hc ltac:(lia) ltac:(split; [lia|exact Hnt])); done.
Qed.

End ReaderFacts.

Lemma closed_block_more id chs tail junk l post :
  closed_block id chs tail junk l → closed_block id chs tail (junk ++ post) (l ++ post).
Proof.
  intros (bs&prev&p&?&->&?). exists bs, prev, p. split; [done|]. split; [|done].
  by rewrite <- !app_assoc.
Qed.

Lemma closed_block_size id chs tail junk l (pre : list Z) :
  closed_block id chs tail junk l → (length pre + HEADER_SIZE ≤ length (pre ++ l))%nat.
Proof. intros (bs&prev&p&_&->&_). rewrite !length_app, length_header. lia. Qed.

(** ** Writing a block, generically *)
Section Generic.
Context {S R : Type} `{Base128SinkLaws S} `{ByteSourceLaws R}.
Import BlockWriter.

Lemma write_block (s : S) id pts :
  sk_inv s → is_u64 id → Forall point_ok pts →
  (6 ≤ sk_contig s)%nat → 14 ≤ sk_space s → Z.of_nat (sk_cap s) < 3 * 2 ^ 16 →
  ∃ b0 b1 b2 b3 k size,
    make s = Some b0 ∧ init id b0 = Some b1 ∧ (k ≤ length pts)%nat ∧
    put_many pts b1 = Some (replicate k kOk ++ replicate (length pts - k) kOverflow, b2) ∧
    commit b2 = Some (size, b3) ∧ sk_inv (vw_sink (stream_ b3)) ∧
    size = length (sk_mem (vw_sink (stream_ b3))) ∧
    (length (sk_mem s) + HEADER_SIZE ≤ size)%nat ∧
    Z.of_nat (sk_cap (vw_sink (stream_ b3))) < 3 * 2 ^ 16 ∧
    ∀ (src : R) post, src_inv src → src_bytes src = sk_mem (vw_sink (stream_ b3)) ++ post →
      (length (sk_mem s) + HEADER_SIZE ≤ src_contig src)%nat →
      ∃ r, BlockReader.make src (length (sk_mem s)) = Some r ∧ returns r id (take k pts).
Proof.
  intros Hs Hid Hp Hc Hsp Hcap.
  destruct (block_init_ok s id Hs Hid Hc Hsp Hcap) as (b0&b1&E0&E1&I).
  assert (Hb : holds (sk_mem s) id b1 []) by (by exists [], [], [], []).
  destruct (put_many_cases pts _ _ _ _ Hb Hp) as (b2&k&E2&Hk&(chs&buf&tail&junk&I2&Epts)).
  destruct (commit_inv _ _ _ _ _ _ _ I2) as (n&b3&l&E3&Hs3&Ec3&Em&->&Hcl).
  exists b0, b1, b2, b3, k, (length (sk_mem s ++ l)).
  split_and!; try done; [by rewrite Em|by eapply closed_block_size| |].
  { rewrite Ec3. by eapply bi_cap. }
  intros src post Hsrc Hbytes Hct. rewrite Em, <- app_assoc in Hbytes. simpl in Epts. rewrite Epts.
  eapply closed_block_read; [done|done|by apply closed_block_more|done|done].
Qed.

End Generic.

(** ** Properties *)

Section Properties.
Context {S R : Type} `{Base128SinkLaws S} `{ByteSourceLaws R}.
Import BlockWriter.

Local Notation mem b := (sk_mem (vw_sink (stream_ b))).
Local Notation space b := (VByteWriter.space_left (stream_ b)).

(** C36: the status of [put] is decided by the free space alone: it is
    [Overflow] exactly when fewer than 16 bytes are left, the points already
    accepted are kept in either case, and neither the [assert(false)] of a
    failed flush nor the [assert] on a non-empty write buffer can be reached. *)
Theorem block_put_status (b : BlockWriter.t S) pre id pts ts v :
  holds pre id b pts → point_ok (ts, v) →
  ∃ b', put ts v b = Some (if decide (space b < 16) then kOverflow else kOk, b') ∧
        holds pre id b' (if decide (space b < 16) then pts else pts ++ [(ts, v)]).
Proof.
  intros Hb Hx. destruct (put_cases _ _ _ _ ts v Hb Hx) as (st&b'&E&[(->&Hsp&Hb')|(->&Hsp&Hb')]);
    exists b'; case_decide; try lia; done.
Qed.

(** Reading an open block. *)
Lemma open_block_read (b : BlockWriter.t S) pre id pts (src : R) post :
  holds pre id b pts → is_u64 id → src_inv src → src_bytes src = mem b ++ post →
  (length pre + HEADER_SIZE ≤ src_contig src)%nat →
  get_write_index b = Some (Z.of_nat (length pts)) ∧
  ∃ r written, BlockReader.make src (length pre) = Some r ∧ returns r id written ∧
    pts = written ++ read_tail_elements b.
Proof.
  intros (chs&buf&tail&junk&I&->) Hid Hsrc Hbytes Hc.
  pose proof (bi_sink _ _ _ _ _ _ _ I) as Hs. pose proof (bi_buf_len _ _ _ _ _ _ _ I).
  assert (Hread : read_tail_elements b = buf).
  { unfold read_tail_elements. rewrite (bi_index _ _ _ _ _ _ _ I), mask_index, Nat2Z.id by done.
    by eapply inv_write_buffer. }
  destruct (bi_mem _ _ _ _ _ _ _ I) as (bs&Ebs&Em). rewrite Hread.
  assert (Htl : Z.of_nat (length tail) ≤ 0xFFFF).
  { pose proof (space_nonneg b Hs).
    destruct (bi_mode _ _ _ _ _ _ _ I) as [(->&_)|(_&Hsp&_)]; unfold MARGIN in *; simpl; lia. }
  split.
  - unfold get_write_index, VByteWriter.empty. rewrite sk_empty_ok;
      [|done|by rewrite Em; intros [_ [=]]%app_nil].
    simpl. rewrite (bi_ntl _ _ _ _ _ _ _ I), (peek_ntail _ _ _ _ _ _ Hs Em).
    cbn [mbind option_bind]. rewrite u16_id by (unfold is_u16; lia).
    rewrite (bi_index _ _ _ _ _ _ _ I), !length_app. f_equal.
    rewrite (concat_chunks_length chs (bi_chs _ _ _ _ _ _ _ I)). lia.
  - rewrite Em, <- app_assoc in Hbytes.
    destruct (closed_block_read src pre id chs tail (junk ++ post)
      ((header (Z.of_nat (length chs)) (Z.of_nat (length tail)) id ++ bs ++ tail_bytes tail ++ junk)
         ++ post)) as (r&Er&Hr); try done.
    { apply closed_block_more. eexists bs, _, _. split_and!; try done.
      - apply (bi_chs _ _ _ _ _ _ _ I).
      - apply (bi_tail _ _ _ _ _ _ _ I).
      - by eapply nchunks_bound. }
    exists r, (concat chs ++ tail). split_and!; try done.
    destruct (bi_mode _ _ _ _ _ _ _ I) as [(->&_)|(->&_)]; by rewrite ?app_nil_r.
Qed.

(** An open block can be read without closing it.  The bytes
    written so far, followed by anything, read back as a prefix of the accepted
    points; [read_tail_elements] returns the others; and [get_write_index] is
    the number of accepted points. *)
Theorem block_open_read (b : BlockWriter.t S) pre id pts (src : R) post :
  holds pre id b pts → is_u64 id → src_inv src → src_bytes src = mem b ++ post →
  (length pre + HEADER_SIZE ≤ src_contig src)%nat →
  get_write_index b = Some (Z.of_nat (length pts)) ∧
  ∃ r written, BlockReader.make src (length pre) = Some r ∧ returns r id written ∧
    pts = written ++ read_tail_elements b.
Proof. apply open_block_read. Qed.

End Properties.

(** An empty block over 100 bytes. *)
Lemma sample_block :
  ∃ b, holds (S := Region) [] 7 b [] ∧ (BlockWriter.make (mkRegion (replicate 100 0) 0) ≫= BlockWriter.init 7) = Some b.
Proof.
  destruct (block_init_ok (mkRegion (replicate 100 0) 0) 7) as (b0&b&E0&E1&I);
    [by_compute|by_compute|by_compute|by_compute|by_compute|].
  exists b. split; [by exists [], [], [], []|]. by rewrite E0.
Qed.

Lemma block_put_status_witness :
  ∃ b b', BlockWriter.put 1000 5 b = Some (kOk, b') ∧ holds (S := Region) [] 7 b' [(1000, 5)].
Proof.
  destruct sample_block as (b&Hb&E).
  destruct (block_put_status b [] 7 [] 1000 5 Hb) as (b'&Ep&Hb'); [by_compute|].
  assert (VByteWriter.space_left (BlockWriter.stream_ b) = 86) as Hs by (vm_compute in E; by injection E as <-).
  rewrite Hs in Ep, Hb'. exists b, b'. split; [exact Ep|exact Hb'].
Defined.

Lemma block_open_read_witness :
  ∃ b r, holds (S := Region) [] 7 b [] ∧ BlockWriter.get_write_index b = Some 0 ∧
    BlockReader.make (sk_mem (vw_sink (BlockWriter.stream_ b))) 0 = Some r ∧ returns r 7 [].
Proof.
  destruct sample_block as (b&Hb&E).
  destruct (block_open_read (R := list Z) b [] 7 [] (sk_mem (vw_sink (BlockWriter.stream_ b))) [] Hb) as (Ei&r&written&Er&Hr&Ew);
    [by_compute| | | |].
  - vm_compute in E. injection E as <-. by_compute.
  - by rewrite app_nil_r.
  - vm_compute in E. injection E as <-. by_compute.
  - symmetry in Ew. apply app_nil in Ew as [-> _]. exists b, r. split_and!; [exact Hb|exact Ei|exact Er|exact Hr].
Defined.
