(* ===== verification/IOVec.v ===== *)
(** * The scattered memory block (volume.h/.cc, [IOVecBlock])

    A 4 KiB block kept as four components of 1 KiB that are allocated when
    first written, or as one component of 4 KiB when it was read from a
    volume.  The block is shown to behave as one flat array of bytes: it
    implements the interfaces the streams and the block writer and reader are
    built on, so all their theorems hold for it. *)
From S2P Require Import Prelude Status ByteStream Base128 VByte.

Definition FASTSTDB_BLOCK_SIZE : nat := 4096.
Definition NCOMPONENTS : nat := 4.
Definition COMPONENT_SIZE : nat := 1024.
(** A component after [resize]. *)
Definition blank : list Z := replicate COMPONENT_SIZE 0.
Definition EMPTY_ADDR : Z := 2 ^ 64 - 1.

Lemma length_blank : length blank = COMPONENT_SIZE.
Proof. apply length_replicate. Qed.

Lemma blank_u8 : Forall is_u8 blank.
Proof. apply Forall_replicate. by unfold is_u8. Qed.

Lemma component_pos : (0 < COMPONENT_SIZE)%nat.
Proof. unfold COMPONENT_SIZE. lia. Qed.

Lemma component_eq : COMPONENT_SIZE = 1024%nat.
Proof. done. Qed.

Lemma block_size_eq : FASTSTDB_BLOCK_SIZE = (COMPONENT_SIZE * 4)%nat.
Proof. done. Qed.

#[global] Opaque COMPONENT_SIZE FASTSTDB_BLOCK_SIZE blank.

Record IOVecBlock := mkIOVec {
  data_ : list (list Z);  (* std::vector<u8>[NCOMPONENTS] *)
  pos_ : nat;             (* int *)
  addr_ : Z;              (* LogicAddr *)
}.

Module IOVec.

Definition set_data (d : list (list Z)) (b : IOVecBlock) := mkIOVec d (pos_ b) (addr_ b).
Definition set_pos (p : nat) (b : IOVecBlock) := mkIOVec (data_ b) p (addr_ b).

(** The two constructors. *)
Definition make : IOVecBlock := mkIOVec (replicate NCOMPONENTS []) 0 EMPTY_ADDR.
Definition make_allocated : IOVecBlock :=
  mkIOVec (replicate FASTSTDB_BLOCK_SIZE 0 :: replicate 3 []) FASTSTDB_BLOCK_SIZE EMPTY_ADDR.

Definition set_addr (a : Z) (b : IOVecBlock) : IOVecBlock := mkIOVec (data_ b) (pos_ b) a.
Definition get_addr (b : IOVecBlock) : Z := addr_ b.
Definition is_readonly (b : IOVecBlock) : bool := false.
Definition space_left (b : IOVecBlock) : Z := Z.of_nat FASTSTDB_BLOCK_SIZE - Z.of_nat (pos_ b).

(** [pos_ - offset] is computed in [u32]. *)
Definition bytes_to_read (offset : nat) (b : IOVecBlock) : Z :=
  u32 (Z.of_nat (pos_ b) - Z.of_nat offset).
Definition size (b : IOVecBlock) : nat := pos_ b.
Definition get_write_pos (b : IOVecBlock) : nat := pos_ b.

(** [data_[c].resize(COMPONENT_SIZE)] when the component is empty. *)
Definition touch (c : nat) (b : IOVecBlock) : option IOVecBlock :=
  d ← data_ b !! c;
  match d with
  | [] => Some (set_data (<[c := blank]> (data_ b)) b)
  | _ => Some b
  end.

(** [data_[c][i] = val]. *)
Definition poke (c i : nat) (val : Z) (b : IOVecBlock) : option IOVecBlock :=
  d ← data_ b !! c;
  if decide (i < length d)%nat
  then Some (set_data (<[c := <[i := u8 val]> d]> (data_ b)) b)
  else None.

Fixpoint add_loop (i : nat) (l : list (list Z)) : option (nat * list (list Z)) :=
  match l with
  | [] => None
  | [] :: l => Some (i, blank :: l)
  | d :: l => '(k, l) ← add_loop (i + 1) l; Some (k, d :: l)
  end.

(** The index of the new component, [None] for [-1]. *)
Definition add (b : IOVecBlock) : option nat * IOVecBlock :=
  match add_loop 0 (data_ b) with
  | Some (i, d) => (Some i, set_data d b)
  | None => (None, b)
  end.

(** [data_[4]] is out of bounds. *)
Definition put (val : Z) (b : IOVecBlock) : option IOVecBlock :=
  let c := (pos_ b / COMPONENT_SIZE)%nat in
  let i := (pos_ b mod COMPONENT_SIZE)%nat in
  b ← touch c b;
  b ← poke c i val b;
  Some (set_pos (pos_ b + 1) b).

Definition safe_put (val : Z) (b : IOVecBlock) : option (bool * IOVecBlock) :=
  if decide (NCOMPONENTS ≤ pos_ b / COMPONENT_SIZE)%nat then Some (false, b)
  else b ← put val b; Some (true, b).

(** [put<POD>]. *)
Fixpoint put_pod (bs : list Z) (b : IOVecBlock) : option IOVecBlock :=
  match bs with [] => Some b | x :: bs => b ← put x b; put_pod bs b end.

(** [allocate(size)] and [allocate<POD>()]; the result is the offset of the
    pointer. *)
Definition allocate (n : nat) (b : IOVecBlock) : option nat * IOVecBlock :=
  let c := (pos_ b / COMPONENT_SIZE)%nat in
  let i := (pos_ b mod COMPONENT_SIZE)%nat in
  if decide (NCOMPONENTS ≤ c)%nat then (None, b) else
  match touch c b with
  | None => (None, b)
  | Some b =>
    if decide (u64 (Z.of_nat (length (default [] (data_ b !! c))) - Z.of_nat i) < Z.of_nat n)
    then (None, b)
    else (Some (pos_ b), set_pos (pos_ b + n) b)
  end.

(** A block that was read from a volume is one component. *)
Definition single (b : IOVecBlock) : bool :=
  bool_decide (length (default [] (data_ b !! 0%nat)) = FASTSTDB_BLOCK_SIZE).

(** Out of range is [LOG(FATAL)]. *)
Definition get (offset : nat) (b : IOVecBlock) : option Z :=
  let '(c, i) := if single b then (0%nat, offset)
                 else ((offset / COMPONENT_SIZE)%nat, (offset mod COMPONENT_SIZE)%nat) in
  if decide (NCOMPONENTS ≤ c)%nat then None else d ← data_ b !! c; d !! i.

Fixpoint get_raw_bytes (n offset : nat) (b : IOVecBlock) : option (list Z) :=
  match n with
  | O => Some []
  | S n => x ← get offset b; l ← get_raw_bytes n (offset + 1) b; Some (x :: l)
  end.

Definition get_raw (n offset : nat) (b : IOVecBlock) : option Z :=
  bs ← get_raw_bytes n offset b; Some (le_val bs).

(** A write position past the last component is [LOG(FATAL)]. *)
Definition set_write_pos (p : nat) (b : IOVecBlock) : option IOVecBlock :=
  if decide (NCOMPONENTS ≤ p / COMPONENT_SIZE)%nat then None else Some (set_pos p b).

(** Through a pointer into a component, by the offset [allocate] returned. *)
Definition load (i : nat) (b : IOVecBlock) : option Z :=
  d ← data_ b !! (i / COMPONENT_SIZE)%nat; d !! (i mod COMPONENT_SIZE)%nat.
Definition store (i : nat) (v : Z) (b : IOVecBlock) : option IOVecBlock :=
  poke (i / COMPONENT_SIZE)%nat (i mod COMPONENT_SIZE)%nat v b.

(** [memcpy(data_[c].data() + i, src)]. *)
Definition write_at (c i : nat) (src : list Z) (b : IOVecBlock) : option IOVecBlock :=
  d ← data_ b !! c;
  if decide (i + length src ≤ length d)%nat
  then Some (set_data (<[c := take i d ++ src ++ drop (i + length src) d]> (data_ b)) b)
  else None.

Definition read_at (c i n : nat) (b : IOVecBlock) : option (list Z) :=
  d ← data_ b !! c;
  if decide (i + n ≤ length d)%nat then Some (take n (drop i d)) else None.

(** The loop of [copy_from] over the components of a scattered block. *)
Fixpoint copy_loop (i : nat) (src dst : list (list Z)) : list (list Z) :=
  match src, dst with
  | d :: src, e :: dst =>
    match d with
    | [] => e :: dst
    | _ => take COMPONENT_SIZE d :: copy_loop (i + 1) src dst
    end
  | _, dst => dst
  end.

(** [copy_from] does not touch [pos_] or [addr_]. *)
Definition copy_from (other b : IOVecBlock) : IOVecBlock :=
  if single other then
    let d := default [] (data_ other !! 0%nat) in
    set_data ((λ i, take COMPONENT_SIZE (drop (i * COMPONENT_SIZE) d)) <$> seq 0 NCOMPONENTS) b
  else set_data (copy_loop 0 (data_ other) (data_ b)) b.

(** The bytes copied; [Some (0, _)] when a component is missing.  Addressing
    a fifth component is out of bounds. *)
Definition read_chunk (offset n : nat) (b : IOVecBlock) : option (nat * list Z) :=
  if single b then bs ← read_at 0 offset n b; Some (n, bs)
  else
    let ixbegin := (offset / COMPONENT_SIZE)%nat in
    let offbegin := (offset mod COMPONENT_SIZE)%nat in
    let ixend := ((offset + n) / COMPONENT_SIZE)%nat in
    d ← data_ b !! ixbegin;
    if decide (d = []) then Some (0%nat, []) else
    if decide (ixbegin = ixend) then
      bs ← read_at ixbegin offbegin n b; Some (n, bs)
    else
      let l1 := (COMPONENT_SIZE - offbegin)%nat in
      bs1 ← read_at ixbegin offbegin l1 b;
      e ← data_ b !! ixend;
      if decide (e = []) then Some (0%nat, bs1) else
      bs2 ← read_at ixend 0 (n - l1) b; Some (n, bs1 ++ bs2).

(** Allocate component [ix] through [add]; another index is [LOG(FATAL)]. *)
Definition add_expect (ix : nat) (b : IOVecBlock) : option IOVecBlock :=
  d ← data_ b !! ix;
  match d with
  | [] => let '(k, b) := add b in if decide (k = Some ix) then Some b else None
  | _ => Some b
  end.

(** The new write position, or 0. *)
Definition append_chunk (source : list Z) (b : IOVecBlock) : option (nat * IOVecBlock) :=
  let n := length source in
  if is_readonly b then Some (0%nat, b) else
  if single b then
    if decide (FASTSTDB_BLOCK_SIZE < pos_ b + n)%nat then Some (0%nat, b)
    else b ← write_at 0 (pos_ b) source b;
         let b := set_pos (pos_ b + n) b in Some (pos_ b, b)
  else
    let ixbegin := (pos_ b / COMPONENT_SIZE)%nat in
    let offbegin := (pos_ b mod COMPONENT_SIZE)%nat in
    let ixend := ((pos_ b + n) / COMPONENT_SIZE)%nat in
    if decide (NCOMPONENTS ≤ ixbegin ∨ NCOMPONENTS ≤ ixend)%nat then Some (0%nat, b) else
    b ← add_expect ixbegin b;
    b ← (if decide (ixbegin = ixend) then write_at ixbegin offbegin source b
         else
           let l1 := (COMPONENT_SIZE - offbegin)%nat in
           b ← write_at ixbegin offbegin (take l1 source) b;
           b ← add_expect ixend b;
           write_at ixend 0 (drop l1 source) b);
    let b := set_pos (pos_ b + n) b in Some (pos_ b, b).

Fixpoint shrink_loop (ix component : nat) (l : list (list Z)) : list (list Z) :=
  match l with
  | [] => []
  | d :: l => (if decide (component < ix)%nat then [] else d) :: shrink_loop (ix + 1) component l
  end.

Definition set_write_pos_and_shrink (top : nat) (b : IOVecBlock) : option IOVecBlock :=
  b ← set_write_pos top b;
  if is_readonly b || single b then Some b
  else Some (set_data (shrink_loop 0 (pos_ b / COMPONENT_SIZE)%nat (data_ b)) b).

Definition get_data (component : nat) (b : IOVecBlock) : option (list Z) := data_ b !! component.
Definition get_size (component : nat) (b : IOVecBlock) : option nat :=
  d ← data_ b !! component; Some (length d).

End IOVec.

#[export] Instance iovec_sink : ByteSink IOVecBlock := {
  sk_space := IOVec.space_left;
  sk_put := IOVec.put;
  sk_pos := pos_;
  sk_set_pos := IOVec.set_write_pos;
  sk_load := IOVec.load;
  sk_store := IOVec.store;
  sk_alloc := IOVec.allocate;
  sk_empty b := bool_decide (IOVec.size b = 0%nat);
}.

#[export] Instance iovec_safe : Base128Int.SafeSink IOVecBlock := IOVec.safe_put.
#[export] Instance iovec_base128 : Base128Sink IOVecBlock := Base128Int.put_block.

(** A header is read through [get_data(0)]. *)
#[export] Instance iovec_source : ByteSource IOVecBlock := {
  src_size := IOVec.size;
  src_left b p := IOVec.bytes_to_read p b;
  src_get := IOVec.get;
  src_head i b := d ← data_ b !! 0%nat; d !! i;
}.

(** ** The block as a flat array *)

Section Pieces.
Context {A : Type} (n : nat).
Implicit Types (l : list (list A)) (d : list A).

Lemma length_concat_eq l : Forall (λ d, length d = n) l → length (concat l) = (n * length l)%nat.
Proof. induction 1 as [|d l Hd _ IH]; simpl; [lia|]. rewrite length_app, IH. lia. Qed.

(** The piece that holds position [i], and where [i] lies in it. *)
Lemma concat_split l i :
  (0 < n)%nat → Forall (λ d, length d = n) l → (i < n * length l)%nat →
  ∃ l1 d l2, l = l1 ++ d :: l2 ∧ length l1 = (i / n)%nat ∧ length d = n ∧
    length (concat l1) = (i / n * n)%nat ∧ (i mod n < n)%nat.
Proof.
  intros Hn Hl Hi.
  assert (i / n < length l)%nat as Hlt by (apply Nat.Div0.div_lt_upper_bound; lia).
  destruct (lookup_lt_is_Some_2 _ _ Hlt) as [d Hd].
  pose proof (take_drop_middle _ _ _ Hd) as E.
  exists (take (i / n) l), d, (drop (Datatypes.S (i / n)) l).
  assert (length (take (i / n) l) = i / n)%nat as El by (rewrite length_take; lia).
  split_and!; [done|done| | |apply Nat.mod_upper_bound; lia].
  - exact (Forall_lookup_1 _ _ _ _ Hl Hd).
  - rewrite length_concat_eq, El by (by apply Forall_take). lia.
Qed.

Lemma concat_lookup l i :
  (0 < n)%nat → Forall (λ d, length d = n) l → (i < n * length l)%nat →
  concat l !! i = l !! (i / n)%nat ≫= λ d, d !! (i mod n)%nat.
Proof.
  intros Hn Hl Hi. destruct (concat_split l i Hn Hl Hi) as (l1&d&l2&->&E1&Ed&Ec&Hm).
  pose proof (Nat.div_mod_eq i n).
  rewrite concat_app. simpl. rewrite lookup_app_r by lia. rewrite lookup_app_l by lia.
  rewrite lookup_app_r, E1, Nat.sub_diag by lia. simpl. f_equal. lia.
Qed.

Lemma concat_write l i d src :
  (0 < n)%nat → Forall (λ d, length d = n) l → l !! (i / n)%nat = Some d →
  (i mod n + length src ≤ n)%nat →
  let d' := take (i mod n) d ++ src ++ drop (i mod n + length src) d in
  concat (<[(i / n)%nat := d']> l) = take i (concat l) ++ src ++ drop (i + length src) (concat l) ∧
  length d' = n.
Proof.
  intros Hn Hl Hd Hs d'.
  assert (i / n < length l)%nat as Hlt by (by eapply lookup_lt_Some).
  assert (length d = n) as Hdl by (exact (Forall_lookup_1 _ _ _ _ Hl Hd)).
  pose proof (take_drop_middle _ _ _ Hd) as E. pose proof (Nat.div_mod_eq i n).
  set (l1 := take (i / n) l) in *. set (l2 := drop (Datatypes.S (i / n)) l) in *.
  assert (length l1 = i / n)%nat as El by (unfold l1; rewrite length_take; lia).
  assert (length (concat l1) = i / n * n)%nat as Ec.
  { rewrite length_concat_eq, El by (by apply Forall_take). lia. }
  split.
  - rewrite <- E. rewrite <- El at 1. rewrite insert_app_r_alt, Nat.sub_diag by lia. simpl.
    rewrite !concat_app. simpl. unfold d'.
    rewrite take_app_ge by lia. rewrite drop_app_ge by lia.
    replace (i - length (concat l1))%nat with (i mod n)%nat by lia.
    replace (i + length src - length (concat l1))%nat with (i mod n + length src)%nat by lia.
    rewrite take_app_le by lia. rewrite drop_app_le by lia. by rewrite <- !app_assoc.
  - unfold d'. rewrite !length_app, length_take, length_drop. lia.
Qed.

End Pieces.

Lemma insert_as_write {A} (l : list A) i x :
  (i < length l)%nat → <[i := x]> l = take i l ++ [x] ++ drop (i + 1) l.
Proof. intros. rewrite insert_take_drop by done. by rewrite Nat.add_1_r. Qed.

(** The allocated components are a prefix, and reach past the write position. *)
Record iov_shape (full : list (list Z)) (b : IOVecBlock) : Prop := {
  sh_data : data_ b = full ++ replicate (NCOMPONENTS - length full) [];
  sh_full : Forall (λ d, length d = COMPONENT_SIZE) full;
  sh_len : (length full ≤ NCOMPONENTS)%nat;
  sh_pos : (pos_ b ≤ COMPONENT_SIZE * length full)%nat;
  sh_u8 : Forall (Forall is_u8) full;
}.

Definition iov_inv (b : IOVecBlock) : Prop := ∃ full, iov_shape full b.
Definition flat (b : IOVecBlock) : list Z := concat (data_ b).

Lemma flat_shape full b : iov_shape full b → flat b = concat full.
Proof.
  intros [E _ _ _ _]. unfold flat. rewrite E, concat_app.
  assert (concat (replicate (NCOMPONENTS - length full) ([] : list Z)) = []) as ->.
  { generalize (NCOMPONENTS - length full)%nat. intros m. by induction m. }
  apply app_nil_r.
Qed.

Lemma length_flat full b : iov_shape full b → length (flat b) = (COMPONENT_SIZE * length full)%nat.
Proof. intros Hb. rewrite (flat_shape _ _ Hb). apply length_concat_eq, Hb. Qed.

Lemma flat_u8 b : iov_inv b → Forall is_u8 (flat b).
Proof. intros [full Hb]. rewrite (flat_shape _ _ Hb). apply Forall_concat, Hb. Qed.

Lemma flat_lookup full b i :
  iov_shape full b → (i < length (flat b))%nat →
  flat b !! i = data_ b !! (i / COMPONENT_SIZE)%nat ≫= λ d, d !! (i mod COMPONENT_SIZE)%nat.
Proof.
  intros Hb Hi. rewrite (length_flat _ _ Hb) in Hi. rewrite (flat_shape _ _ Hb).
  rewrite (concat_lookup COMPONENT_SIZE) by (apply component_pos || apply Hb || done).
  rewrite (sh_data _ _ Hb), lookup_app_l; [done|]. apply Nat.Div0.div_lt_upper_bound. lia.
Qed.

(** Component [c] is allocated if it is the first missing one. *)
Lemma touch_ok full b c :
  iov_shape full b → (c ≤ length full)%nat → (c < NCOMPONENTS)%nat →
  ∃ b' full' z, IOVec.touch c b = Some b' ∧ iov_shape full' b' ∧ (c < length full')%nat ∧
    pos_ b' = pos_ b ∧ addr_ b' = addr_ b ∧ flat b' = flat b ++ z.
Proof.
  intros Hb Hc Hc4. unfold IOVec.touch. pose proof Hb as [E Hf Hl Hp Hu].
  destruct (decide (c < length full)%nat) as [Hlt|Hge].
  - destruct (lookup_lt_is_Some_2 _ _ Hlt) as [d Hd].
    rewrite E, lookup_app_l, Hd by done. cbn [mbind option_bind].
    assert (length d = COMPONENT_SIZE) by (exact (Forall_lookup_1 _ _ _ _ Hf Hd)).
    destruct d; [done|]. exists b, full, []. rewrite app_nil_r. by split_and!.
  - assert (c = length full) as -> by lia.
    destruct (NCOMPONENTS - length full)%nat as [|m] eqn:Em; [lia|]. simpl in E.
    rewrite E, list_lookup_middle by done. cbn [mbind option_bind].
    assert (Hb' : iov_shape (full ++ [blank])
      (IOVec.set_data (full ++ [blank] ++ replicate m []) b)).
    { constructor; simpl.
      - rewrite length_app, <- app_assoc. simpl. do 3 f_equal. lia.
      - apply Forall_app. split; [done|]. apply Forall_singleton, length_blank.
      - rewrite length_app. simpl. lia.
      - rewrite length_app. simpl length. lia.
      - apply Forall_app. split; [done|]. apply Forall_singleton, blank_u8. }
    rewrite insert_app_r_alt, Nat.sub_diag by lia. cbn [insert list_insert].
    eexists _, _, (blank). split_and!; [done|exact Hb'|rewrite length_app; simpl; lia|done|done|].
    etransitivity; [apply (flat_shape _ _ Hb')|].
    rewrite (flat_shape _ _ Hb), concat_app. simpl. by rewrite app_nil_r.
Qed.

(** Writing inside the allocated part writes the flat array. *)
Lemma write_at_ok full b i src :
  iov_shape full b → (i < length (flat b))%nat →
  (i mod COMPONENT_SIZE + length src ≤ COMPONENT_SIZE)%nat → Forall is_u8 src →
  ∃ b' full', IOVec.write_at (i / COMPONENT_SIZE) (i mod COMPONENT_SIZE) src b = Some b' ∧
    iov_shape full' b' ∧ length full' = length full ∧ pos_ b' = pos_ b ∧ addr_ b' = addr_ b ∧
    flat b' = take i (flat b) ++ src ++ drop (i + length src) (flat b).
Proof.
  intros Hb Hi Hs Hsu. pose proof Hb as [E Hf Hl Hp Hu]. rewrite (length_flat _ _ Hb) in Hi.
  assert (i / COMPONENT_SIZE < length full)%nat as Hlt by (apply Nat.Div0.div_lt_upper_bound; lia).
  destruct (lookup_lt_is_Some_2 _ _ Hlt) as [d Hd].
  assert (length d = COMPONENT_SIZE) as Hdl by (exact (Forall_lookup_1 _ _ _ _ Hf Hd)).
  destruct (concat_write COMPONENT_SIZE full i d src component_pos Hf Hd Hs) as [Ew El].
  unfold IOVec.write_at. rewrite E, lookup_app_l, Hd by done. cbn [mbind option_bind].
  rewrite decide_True by lia. rewrite insert_app_l by done.
  set (full' := <[_ := _]> full) in *.
  set (b' := IOVec.set_data _ b).
  assert (Hb' : iov_shape full' b').
  { constructor; simpl; unfold full'; rewrite ?length_insert; try done.
    - apply Forall_insert; [done|]. exact El.
    - pose proof (Forall_lookup_1 _ _ _ _ Hu Hd). apply Forall_insert; [done|].
      apply Forall_app; split; [by apply Forall_take|]. apply Forall_app; split; [done|by apply Forall_drop]. }
  exists b', full'. split_and!; try done; [by unfold full'; rewrite length_insert|].
  by rewrite (flat_shape _ _ Hb'), (flat_shape _ _ Hb).
Qed.

Lemma poke_write_at c i v b :
  IOVec.poke c i v b = IOVec.write_at c i [u8 v] b.
Proof.
  unfold IOVec.poke, IOVec.write_at. destruct (data_ b !! c) as [d|]; simpl; [|done].
  repeat case_decide; try lia; [|done]. by rewrite (insert_as_write d).
Qed.

Lemma poke_flat full b i v :
  iov_shape full b → (i < length (flat b))%nat →
  ∃ b' full', IOVec.poke (i / COMPONENT_SIZE) (i mod COMPONENT_SIZE) v b = Some b' ∧
    iov_shape full' b' ∧ length full' = length full ∧ pos_ b' = pos_ b ∧ addr_ b' = addr_ b ∧
    flat b' = <[i := u8 v]> (flat b).
Proof.
  intros Hb Hi. rewrite poke_write_at, insert_as_write by done.
  apply write_at_ok; [done|done| |by apply Forall_singleton, u8_range].
  simpl. pose proof (Nat.mod_upper_bound i COMPONENT_SIZE). pose proof component_pos. lia.
Qed.

Lemma flat_set_pos p b : flat (IOVec.set_pos p b) = flat b.
Proof. done. Qed.

Lemma iov_length_mem b : iov_inv b → length (take (pos_ b) (flat b)) = pos_ b.
Proof.
  intros [full Hb]. rewrite length_take, (length_flat _ _ Hb). pose proof (sh_pos _ _ Hb). lia.
Qed.

Lemma iov_pos_cap b : iov_inv b → (pos_ b ≤ FASTSTDB_BLOCK_SIZE)%nat.
Proof.
  intros [full Hb]. pose proof (sh_pos _ _ Hb). pose proof (sh_len _ _ Hb).
  rewrite block_size_eq. unfold NCOMPONENTS in *. nia.
Qed.

Lemma component_lt p : (p < FASTSTDB_BLOCK_SIZE)%nat → (p / COMPONENT_SIZE < NCOMPONENTS)%nat.
Proof. rewrite block_size_eq. intros. by apply Nat.Div0.div_lt_upper_bound. Qed.

Lemma component_ge p : (FASTSTDB_BLOCK_SIZE ≤ p)%nat → (NCOMPONENTS ≤ p / COMPONENT_SIZE)%nat.
Proof.
  rewrite block_size_eq. intros. apply Nat.div_le_lower_bound; [pose proof component_pos; lia|done].
Qed.

(** The component at the write position is there or is allocated. *)
Lemma touch_at_pos full b :
  iov_shape full b → (pos_ b < FASTSTDB_BLOCK_SIZE)%nat →
  ∃ b' full' z, IOVec.touch (pos_ b / COMPONENT_SIZE) b = Some b' ∧ iov_shape full' b' ∧
    (pos_ b / COMPONENT_SIZE < length full')%nat ∧
    pos_ b' = pos_ b ∧ addr_ b' = addr_ b ∧ flat b' = flat b ++ z ∧
    (pos_ b < length (flat b'))%nat.
Proof.
  intros Hb Hp. pose proof (sh_pos _ _ Hb) as Hpos. pose proof component_pos.
  destruct (touch_ok full b (pos_ b / COMPONENT_SIZE) Hb) as (b'&full'&z&Et&Hb'&Hlt&Ep&Ea&Ef).
  - apply Nat.lt_succ_r, Nat.Div0.div_lt_upper_bound. lia.
  - by apply component_lt.
  - exists b', full', z. split_and!; try done. rewrite (length_flat _ _ Hb').
    pose proof (Nat.div_mod_eq (pos_ b) COMPONENT_SIZE).
    pose proof (Nat.mod_upper_bound (pos_ b) COMPONENT_SIZE). nia.
Qed.

Lemma iov_put_ok v b :
  iov_inv b → (pos_ b < FASTSTDB_BLOCK_SIZE)%nat →
  ∃ b', IOVec.put v b = Some b' ∧ iov_inv b' ∧ addr_ b' = addr_ b ∧
    take (pos_ b') (flat b') = take (pos_ b) (flat b) ++ [u8 v].
Proof.
  intros [full Hb] Hp. unfold IOVec.put.
  destruct (touch_at_pos full b Hb Hp) as (b1&full1&z&->&Hb1&_&Ep1&Ea1&Ef1&Hlt).
  cbn [mbind option_bind].
  destruct (poke_flat full1 b1 (pos_ b) v Hb1 Hlt) as (b2&full2&->&Hb2&El2&Ep2&Ea2&Ef2).
  cbn [mbind option_bind]. eexists. split; [done|].
  assert (Hlen : (pos_ b + 1 ≤ COMPONENT_SIZE * length full2)%nat).
  { rewrite El2, <- (length_flat _ _ Hb1). lia. }
  pose proof (sh_pos _ _ Hb) as Hpos. rewrite <- (length_flat _ _ Hb) in Hpos.
  split_and!; simpl.
  - exists full2. destruct Hb2. constructor; simpl; try done. by rewrite Ep2, Ep1.
  - by rewrite Ea2, Ea1.
  - rewrite flat_set_pos, Ef2, Ep2, Ep1, Nat.add_1_r, region_take_snoc by done.
    rewrite Ef1. by rewrite take_app_le by lia.
Qed.

Definition iov_contig (b : IOVecBlock) : nat :=
  if decide (pos_ b < FASTSTDB_BLOCK_SIZE)%nat
  then (COMPONENT_SIZE - pos_ b mod COMPONENT_SIZE)%nat else 0%nat.

Lemma iov_allocate_ok n b :
  iov_inv b → (0 < n ≤ iov_contig b)%nat →
  ∃ b' bs, IOVec.allocate n b = (Some (pos_ b), b') ∧ iov_inv b' ∧ length bs = n ∧
    take (pos_ b') (flat b') = take (pos_ b) (flat b) ++ bs.
Proof.
  intros [full Hb] [Hn Hc]. unfold iov_contig in Hc. case_decide as Hp; [|lia].
  unfold IOVec.allocate. pose proof (component_lt _ Hp).
  rewrite decide_False by lia.
  destruct (touch_at_pos full b Hb Hp) as (b1&full1&z&->&Hb1&Hlt1&Ep1&Ea1&Ef1&Hlt).
  pose proof component_pos. pose proof (Nat.mod_upper_bound (pos_ b) COMPONENT_SIZE).
  pose proof (Nat.div_mod_eq (pos_ b) COMPONENT_SIZE).
  destruct (lookup_lt_is_Some_2 _ _ Hlt1) as [d Hd].
  assert (length d = COMPONENT_SIZE) as Hdl by exact (Forall_lookup_1 _ _ _ _ (sh_full _ _ Hb1) Hd).
  rewrite (sh_data _ _ Hb1), lookup_app_l, Hd by done. cbn [default from_option id]. rewrite Hdl.
  rewrite u64_id by (unfold is_u64; rewrite component_eq in *; lia).
  rewrite decide_False by lia. rewrite Ep1.
  eexists _, (take n (drop (pos_ b) (flat b1))). split; [done|].
  assert (Hlen : (pos_ b + n ≤ COMPONENT_SIZE * length full1)%nat) by nia.
  pose proof (sh_pos _ _ Hb) as Hpos. rewrite <- (length_flat _ _ Hb) in Hpos.
  split_and!; simpl.
  - exists full1. destruct Hb1. constructor; simpl; done.
  - rewrite length_take, length_drop, (length_flat _ _ Hb1). lia.
  - rewrite flat_set_pos, <- take_take_drop. f_equal.
    rewrite Ef1. by rewrite take_app_le by lia.
Qed.

#[export] Program Instance iovec_sink_laws : ByteSinkLaws IOVecBlock := {
  sk_inv := iov_inv;
  sk_mem b := take (pos_ b) (flat b);
  sk_cap _ := FASTSTDB_BLOCK_SIZE;
  sk_contig := iov_contig;
}.
Next Obligation. intros b Hb. simpl. rewrite iov_length_mem by done. by apply iov_pos_cap. Qed.
Next Obligation. intros b Hb. simpl. by rewrite iov_length_mem. Qed.
Next Obligation. intros b Hb. simpl. by rewrite iov_length_mem. Qed.
Next Obligation.
  intros v b Hb Hlt. simpl in *. rewrite iov_length_mem in Hlt by done.
  destruct (iov_put_ok v b Hb Hlt) as (b'&?&?&_&?). by exists b'.
Qed.
Next Obligation.
  intros p b Hb Hp Hc. simpl in *. rewrite iov_length_mem in Hp by done.
  unfold IOVec.set_write_pos. pose proof (component_lt p Hc). rewrite decide_False by lia.
  eexists. split_and!; [done| | |done].
  - destruct Hb as [full Hb]. exists full. destruct Hb. constructor; simpl; try done. lia.
  - rewrite flat_set_pos, take_take. f_equal. simpl. lia.
Qed.
Next Obligation.
  intros i b Hb Hi. simpl in *. rewrite iov_length_mem in Hi by done.
  pose proof (iov_length_mem b Hb) as Hl. rewrite length_take in Hl. destruct Hb as [full Hb].
  rewrite lookup_take_lt by done. symmetry. apply (flat_lookup full); [done|lia].
Qed.
Next Obligation.
  intros i v b Hb Hi. simpl in *. rewrite iov_length_mem in Hi by done.
  pose proof (iov_length_mem b Hb) as Hl. rewrite length_take in Hl. destruct Hb as [full Hb].
  destruct (poke_flat full b i v Hb) as (b'&full'&E&Hb'&_&Ep&_&Ef); [lia|].
  exists b'. split_and!; [done|by exists full'| |done]. rewrite Ep, Ef. by rewrite take_insert_lt.
Qed.
Next Obligation.
  intros n b Hb Hn. simpl in *. rewrite iov_length_mem by done.
  destruct (iov_allocate_ok n b Hb Hn) as (b'&bs&?&?&?&?). by exists b', bs.
Qed.
Next Obligation.
  intros b b' n Hb Hb' _ El. simpl in *. rewrite !iov_length_mem in El by done.
  unfold iov_contig. pose proof component_pos. pose proof (iov_pos_cap _ Hb').
  pose proof (Nat.mod_upper_bound (pos_ b) COMPONENT_SIZE).
  pose proof (Nat.mod_upper_bound (pos_ b') COMPONENT_SIZE).
  rewrite El, block_size_eq in *. case_decide; [|lia].
  destruct (decide (n < COMPONENT_SIZE - pos_ b mod COMPONENT_SIZE)%nat); [|lia].
  pose proof (Nat.div_mod_eq (pos_ b) COMPONENT_SIZE).
  assert ((pos_ b + n) mod COMPONENT_SIZE = pos_ b mod COMPONENT_SIZE + n)%nat as Em.
  { symmetry. apply (Nat.mod_unique _ _ (pos_ b / COMPONENT_SIZE)); lia. }
  rewrite Em. rewrite decide_True; [lia|].
  assert (pos_ b / COMPONENT_SIZE < 4)%nat by (by apply Nat.Div0.div_lt_upper_bound). nia.
Qed.
Next Obligation.
  intros b Hb Hne. simpl in *. apply bool_decide_eq_false. intros E. apply Hne.
  unfold IOVec.size in E. by rewrite E.
Qed.

#[export] Instance iovec_safe_laws : Base128Int.SafeSinkLaws IOVecBlock.
Proof.
  split; intros v b Hb Hl; simpl in *; rewrite iov_length_mem in Hl by done;
    unfold Base128Int.safe_put, iovec_safe, IOVec.safe_put.
  - pose proof (component_lt _ Hl). rewrite decide_False by lia.
    destruct (iov_put_ok v b Hb Hl) as (b'&->&?&_&?). exists b'. by split_and!.
  - rewrite decide_True; [done|]. apply component_ge. lia.
Qed.

#[export] Instance iovec_base128_laws : Base128SinkLaws IOVecBlock.
Proof.
  intros v b Hb Hv. apply Base128Int.put_block_loop_ok; [done| |unfold Base128Int.MAX_BYTES; lia].
  by apply Base128Int.fits_max.
Qed.

(** ** Reading *)

(** A block that was read from a volume. *)
Definition iov_single (b : IOVecBlock) : Prop :=
  ∃ d, data_ b = d :: replicate 3 [] ∧ length d = FASTSTDB_BLOCK_SIZE ∧
       (pos_ b ≤ FASTSTDB_BLOCK_SIZE)%nat.

Lemma single_true b : iov_single b → IOVec.single b = true.
Proof. intros (d&E&Hl&_). unfold IOVec.single. rewrite E. by apply bool_decide_eq_true. Qed.

Lemma single_false b : iov_inv b → IOVec.single b = false.
Proof.
  intros [full Hb]. unfold IOVec.single. apply bool_decide_eq_false.
  rewrite (sh_data _ _ Hb), block_size_eq. pose proof component_pos.
  destruct full as [|d full]; simpl.
  - lia.
  - pose proof (Forall_inv (sh_full _ _ Hb)) as ->. lia.
Qed.

Lemma flat_single b d : data_ b = d :: replicate 3 [] → flat b = d.
Proof. unfold flat. intros ->. simpl. apply app_nil_r. Qed.

Definition iov_readable (b : IOVecBlock) : Prop := iov_inv b ∨ iov_single b.

Lemma readable_pos b : iov_readable b → (pos_ b ≤ length (flat b))%nat ∧ (pos_ b ≤ FASTSTDB_BLOCK_SIZE)%nat.
Proof.
  intros [Hb|(d&E&Hl&Hp)].
  - split; [|by apply iov_pos_cap]. destruct Hb as [full Hb].
    rewrite (length_flat _ _ Hb). apply (sh_pos _ _ Hb).
  - rewrite (flat_single b d E). lia.
Qed.

Lemma iov_get_ok i b x : iov_readable b → flat b !! i = Some x → IOVec.get i b = Some x.
Proof.
  intros Hb Hi. unfold IOVec.get. destruct Hb as [Hb|Hb].
  - rewrite single_false by done. destruct Hb as [full Hb].
    pose proof (lookup_lt_Some _ _ _ Hi) as Hlt.
    pose proof (length_flat _ _ Hb) as Hl. pose proof (sh_len _ _ Hb).
    assert (i / COMPONENT_SIZE < NCOMPONENTS)%nat.
    { apply component_lt. rewrite block_size_eq. unfold NCOMPONENTS in *. nia. }
    rewrite decide_False by lia. rewrite (flat_lookup full) in Hi by done. exact Hi.
  - rewrite single_true by done. destruct Hb as (d&E&_).
    rewrite (flat_single b d E) in Hi. simpl. by rewrite E.
Qed.

#[export] Program Instance iovec_source_laws : ByteSourceLaws IOVecBlock := {
  src_inv := iov_readable;
  src_bytes b := take (pos_ b) (flat b);
  src_contig b := length (default [] (data_ b !! 0%nat));
}.
Next Obligation.
  intros b Hb. simpl. rewrite length_take. pose proof (readable_pos b Hb). unfold IOVec.size. lia.
Qed.
Next Obligation.
  intros b p Hb Hp. simpl in *. rewrite length_take in *. pose proof (readable_pos b Hb) as [??].
  rewrite block_size_eq, component_eq in *. unfold IOVec.bytes_to_read.
  rewrite u32_id by (unfold is_u32; lia). lia.
Qed.
Next Obligation.
  intros i b x Hb Hi. simpl in *. apply lookup_take_Some in Hi as [Hi _]. by apply iov_get_ok.
Qed.
Next Obligation.
  intros i b x Hb Hc Hi. simpl in *. apply lookup_take_Some in Hi as [Hi _].
  destruct (data_ b) as [|d l] eqn:E; simpl in *; [lia|].
  unfold flat in Hi. rewrite E in Hi. simpl in Hi. by rewrite lookup_app_l in Hi.
Qed.

(** ** Chunks of bytes *)

Lemma add_loop_full full m i :
  Forall (λ d : list Z, length d = COMPONENT_SIZE) full →
  IOVec.add_loop i (full ++ [] :: replicate m []) = Some ((i + length full)%nat, full ++ blank :: replicate m []).
Proof.
  intros Hf. revert i. induction Hf as [|d full Hd _ IH]; intros i; simpl; [by rewrite Nat.add_0_r|].
  pose proof component_pos. destruct d as [|x d]; [simpl in Hd; lia|].
  rewrite IH. simpl. by rewrite <- Nat.add_assoc.
Qed.

(** The first missing component is the one [add] allocates. *)
Lemma add_expect_touch full b c :
  iov_shape full b → (c ≤ length full)%nat → IOVec.add_expect c b = IOVec.touch c b.
Proof.
  intros Hb Hc. unfold IOVec.add_expect, IOVec.touch.
  destruct (data_ b !! c) as [d|] eqn:Ed; simpl; [|done]. destruct d as [|]; [|done].
  pose proof component_pos. pose proof Hb as [E Hf Hl Hp Hu].
  assert (c = length full) as ->.
  { destruct (decide (c < length full)%nat) as [Hlt|]; [|lia]. rewrite E, lookup_app_l in Ed by done.
    pose proof (Forall_lookup_1 _ _ _ _ Hf Ed) as Hx. simpl in Hx. lia. }
  unfold IOVec.add. rewrite E in *. rewrite lookup_app_r, Nat.sub_diag in Ed by lia.
  destruct (NCOMPONENTS - length full)%nat as [|m]; [done|]. simpl replicate in *.
  rewrite add_loop_full by done. simpl. rewrite decide_True by done.
  by rewrite insert_app_r_alt, Nat.sub_diag by lia.
Qed.

(** Writing [src] over the flat array at the write position. *)
Lemma take_write {A} (l src : list A) p :
  (p + length src ≤ length l)%nat →
  take (p + length src) (take p l ++ src ++ drop (p + length src) l) = take p l ++ src.
Proof.
  intros Hp. rewrite app_assoc. apply take_app_length'.
  rewrite length_app, length_take. lia.
Qed.

Lemma write_write {A} (l s1 s2 : list A) p :
  (p + length s1 + length s2 ≤ length l)%nat →
  let l1 := take p l ++ s1 ++ drop (p + length s1) l in
  take (p + length s1) l1 ++ s2 ++ drop (p + length s1 + length s2) l1
  = take p l ++ (s1 ++ s2) ++ drop (p + length (s1 ++ s2)) l.
Proof.
  intros Hp l1. unfold l1. rewrite take_write by lia. rewrite <- !app_assoc. do 3 f_equal.
  rewrite !drop_app_ge by (rewrite ?length_take; lia). rewrite drop_drop. f_equal.
  rewrite length_app, !length_take. lia.
Qed.

(** [b'] is [b] with [src] written at flat position [p]; more components may
    have been allocated. *)
Definition written (b b' : IOVecBlock) (p : nat) (src : list Z) : Prop :=
  ∃ full z, iov_shape full b' ∧ pos_ b' = pos_ b ∧ addr_ b' = addr_ b ∧
    (p + length src < length (flat b'))%nat ∧
    flat b' = take p (flat b ++ z) ++ src ++ drop (p + length src) (flat b ++ z).

Lemma write_one full b src :
  iov_shape full b → (pos_ b < FASTSTDB_BLOCK_SIZE)%nat →
  (pos_ b mod COMPONENT_SIZE + length src < COMPONENT_SIZE)%nat → Forall is_u8 src →
  ∃ b1 b2, IOVec.add_expect (pos_ b / COMPONENT_SIZE) b = Some b1 ∧
    IOVec.write_at (pos_ b / COMPONENT_SIZE) (pos_ b mod COMPONENT_SIZE) src b1 = Some b2 ∧
    written b b2 (pos_ b) src.
Proof.
  intros Hb Hp Hs Hu. pose proof (sh_pos _ _ Hb). pose proof component_pos.
  destruct (touch_at_pos full b Hb Hp) as (b1&full1&z&Et&Hb1&Hlt1&Ep1&Ea1&Ef1&Hlt).
  rewrite (add_expect_touch full) by (done || apply Nat.lt_succ_r, Nat.Div0.div_lt_upper_bound; lia).
  destruct (write_at_ok full1 b1 (pos_ b) src Hb1 Hlt) as (b2&full2&Ew&Hb2&El2&Ep2&Ea2&Ef2); [lia|done|].
  exists b1, b2. split_and!; [done..|]. exists full2, z. rewrite <- Ef1.
  split_and!; [done|congruence|congruence| |done]. rewrite (length_flat _ _ Hb2), El2.
  pose proof (Nat.div_mod_eq (pos_ b) COMPONENT_SIZE). nia.
Qed.

Lemma write_two full b src :
  let l1 := (COMPONENT_SIZE - pos_ b mod COMPONENT_SIZE)%nat in
  iov_shape full b → (pos_ b + length src < FASTSTDB_BLOCK_SIZE)%nat →
  (l1 ≤ length src < l1 + COMPONENT_SIZE)%nat → Forall is_u8 src →
  ∃ b1 b2 b3 b4, IOVec.add_expect (pos_ b / COMPONENT_SIZE) b = Some b1 ∧
    IOVec.write_at (pos_ b / COMPONENT_SIZE) (pos_ b mod COMPONENT_SIZE) (take l1 src) b1 = Some b2 ∧
    IOVec.add_expect (pos_ b / COMPONENT_SIZE + 1) b2 = Some b3 ∧
    IOVec.write_at (pos_ b / COMPONENT_SIZE + 1) 0 (drop l1 src) b3 = Some b4 ∧
    written b b4 (pos_ b) src.
Proof.
  intros l1 Hb Hp Hs Hu. pose proof (sh_pos _ _ Hb). pose proof component_pos.
  pose proof (Nat.div_mod_eq (pos_ b) COMPONENT_SIZE) as Edm.
  pose proof (Nat.mod_upper_bound (pos_ b) COMPONENT_SIZE).
  destruct (touch_at_pos full b Hb) as (b1&full1&z&Et&Hb1&Hlt1&Ep1&Ea1&Ef1&Hlt); [lia|].
  rewrite (add_expect_touch full) by (done || apply Nat.lt_succ_r, Nat.Div0.div_lt_upper_bound; lia).
  assert (Hl1 : length (take l1 src) = l1) by (rewrite length_take; lia).
  destruct (write_at_ok full1 b1 (pos_ b) (take l1 src) Hb1 Hlt)
    as (b2&full2&Ew&Hb2&El2&Ep2&Ea2&Ef2); [lia|by apply Forall_take|].
  rewrite Hl1 in Ef2.
  destruct (touch_ok full2 b2 (pos_ b / COMPONENT_SIZE + 1) Hb2)
    as (b3&full3&z3&Et3&Hb3&Hlt3&Ep3&Ea3&Ef3); [lia| |].
  { rewrite block_size_eq in Hp. unfold NCOMPONENTS. nia. }
  set (i := (pos_ b + l1)%nat).
  assert (Ei : i = ((pos_ b / COMPONENT_SIZE + 1) * COMPONENT_SIZE)%nat) by (unfold i; nia).
  assert (Ed : (i / COMPONENT_SIZE)%nat = (pos_ b / COMPONENT_SIZE + 1)%nat)
    by (rewrite Ei; apply Nat.div_mul; lia).
  assert (Em : (i mod COMPONENT_SIZE)%nat = 0%nat) by (rewrite Ei; apply Nat.Div0.mod_mul).
  pose proof (write_at_ok full3 b3 i (drop l1 src) Hb3) as Hw. rewrite Ed, Em, length_drop in Hw.
  destruct Hw as (b4&full4&Ew4&Hb4&El4&Ep4&Ea4&Ef4).
  { rewrite (length_flat _ _ Hb3), Ei. nia. }
  { lia. }
  { by apply Forall_drop. }
  exists b1, b2, b3, b4. split_and!; try done.
  { by rewrite (add_expect_touch full2) by (done || lia). }
  exists full4, (z ++ z3). split_and!; [done|congruence|congruence| |].
  { rewrite (length_flat _ _ Hb4), El4. nia. }
  assert (Hfl : (pos_ b + length (take l1 src) ≤ length (flat b1))%nat).
  { rewrite Hl1, (length_flat _ _ Hb1). fold i. rewrite Ei. nia. }
  assert (E3 : flat b3 = take (pos_ b) (flat b1 ++ z3) ++ take l1 src ++ drop (pos_ b + l1) (flat b1 ++ z3)).
  { rewrite Ef3, Ef2, take_app_le, drop_app_le by lia. by rewrite <- !app_assoc. }
  assert (Hl3 : (pos_ b + length src ≤ length (flat b1 ++ z3))%nat).
  { replace (length (flat b1 ++ z3)) with (length (flat b3)).
    - rewrite (length_flat _ _ Hb3). nia.
    - rewrite E3, !length_app, length_take, length_drop, !length_app, Hl1. lia. }
  rewrite (app_assoc (flat b)), <- Ef1, Ef4, E3. unfold i.
  pose proof (write_write (flat b1 ++ z3) (take l1 src) (drop l1 src) (pos_ b)) as Eww.
  rewrite take_drop, Hl1, length_drop in Eww. apply Eww. lia.
Qed.

Lemma div_same p n :
  (p mod COMPONENT_SIZE + n < COMPONENT_SIZE)%nat →
  ((p + n) / COMPONENT_SIZE = p / COMPONENT_SIZE)%nat.
Proof.
  intros Hn. pose proof component_pos. pose proof (Nat.div_mod_eq p COMPONENT_SIZE).
  symmetry. apply (Nat.div_unique _ _ _ (p mod COMPONENT_SIZE + n)); lia.
Qed.

Lemma div_next p n :
  (COMPONENT_SIZE ≤ p mod COMPONENT_SIZE + n < 2 * COMPONENT_SIZE)%nat →
  ((p + n) / COMPONENT_SIZE = p / COMPONENT_SIZE + 1)%nat.
Proof.
  intros Hn. pose proof component_pos. pose proof (Nat.div_mod_eq p COMPONENT_SIZE).
  symmetry. apply (Nat.div_unique _ _ _ (p mod COMPONENT_SIZE + n - COMPONENT_SIZE)); lia.
Qed.

Lemma written_append b b' src :
  iov_inv b → written b b' (pos_ b) src →
  let b'' := IOVec.set_pos (pos_ b' + length src) b' in
  iov_inv b'' ∧ pos_ b'' = (pos_ b + length src)%nat ∧ (pos_ b'' < length (flat b''))%nat ∧
  take (pos_ b'') (flat b'') = take (pos_ b) (flat b) ++ src.
Proof.
  intros Hb (full&z&Hb'&Ep&_&Hlt&Ef) b''. unfold b''. simpl. rewrite flat_set_pos, Ep.
  pose proof (readable_pos b (or_introl Hb)) as [Hpos _].
  split_and!; [|done|done|].
  - exists full. pose proof (length_flat _ _ Hb') as Hl. destruct Hb'. constructor; simpl; try done. lia.
  - assert (pos_ b + length src ≤ length (flat b ++ z))%nat.
    { rewrite Ef, !length_app, length_take, length_drop, !length_app in Hlt. rewrite length_app. lia. }
    rewrite Ef, take_write by done. f_equal. by rewrite take_app_le.
Qed.

Lemma append_chunk_ok b src :
  iov_inv b → (length src ≤ COMPONENT_SIZE)%nat → (pos_ b + length src < FASTSTDB_BLOCK_SIZE)%nat →
  Forall is_u8 src →
  ∃ b', IOVec.append_chunk src b = Some ((pos_ b + length src)%nat, b') ∧ iov_inv b' ∧
    pos_ b' = (pos_ b + length src)%nat ∧ (pos_ b' < length (flat b'))%nat ∧
    take (pos_ b') (flat b') = take (pos_ b) (flat b) ++ src.
Proof.
  intros Hb Hs Hp Hu. unfold IOVec.append_chunk. cbn [IOVec.is_readonly].
  rewrite single_false by done. destruct Hb as [full Hb]. pose proof component_pos.
  pose proof (Nat.mod_upper_bound (pos_ b) COMPONENT_SIZE).
  pose proof (component_lt (pos_ b) ltac:(lia)). pose proof (component_lt _ Hp).
  rewrite decide_False by lia.
  destruct (decide (pos_ b mod COMPONENT_SIZE + length src < COMPONENT_SIZE)%nat) as [Hone|Htwo].
  - destruct (write_one full b src Hb) as (b1&b2&->&E2&Hw); [lia|done|done|]. cbn [mbind option_bind].
    rewrite div_same, decide_True by done. rewrite E2. cbn [mbind option_bind].
    destruct (written_append b b2 src (ex_intro _ full Hb) Hw) as (?&Ep&?&?).
    rewrite Ep. eexists. by split_and!.
  - destruct (write_two full b src Hb) as (b1&b2&b3&b4&->&E2&E3&E4&Hw); [lia|lia|done|].
    cbn [mbind option_bind]. rewrite div_next, decide_False by lia. rewrite E2. cbn [mbind option_bind].
    rewrite E3. cbn [mbind option_bind]. rewrite E4. cbn [mbind option_bind].
    destruct (written_append b b4 src (ex_intro _ full Hb) Hw) as (?&Ep&?&?).
    rewrite Ep. eexists. by split_and!.
Qed.

Lemma read_at_ok full b i n :
  iov_shape full b → (i < length (flat b))%nat → (i mod COMPONENT_SIZE + n ≤ COMPONENT_SIZE)%nat →
  IOVec.read_at (i / COMPONENT_SIZE) (i mod COMPONENT_SIZE) n b = Some (take n (drop i (flat b))).
Proof.
  intros Hb Hi Hn. rewrite (length_flat _ _ Hb) in Hi.
  destruct (concat_split COMPONENT_SIZE full i component_pos (sh_full _ _ Hb) Hi)
    as (l1&d&l2&E&E1&Ed&Ec&_).
  pose proof (Nat.div_mod_eq i COMPONENT_SIZE).
  unfold IOVec.read_at. rewrite (sh_data _ _ Hb), (flat_shape _ _ Hb), E, <- app_assoc.
  rewrite lookup_app_r, E1, Nat.sub_diag by lia. cbn [mbind option_bind lookup list_lookup app].
  rewrite decide_True by lia. f_equal. rewrite concat_app. simpl.
  rewrite drop_app_ge, Ec by lia. replace (i - i / COMPONENT_SIZE * COMPONENT_SIZE)%nat
    with (i mod COMPONENT_SIZE)%nat by lia.
  rewrite drop_app_le, take_app_le by (rewrite ?length_drop; lia). done.
Qed.

Lemma component_nonempty full b i :
  iov_shape full b → (i < length (flat b))%nat →
  ∃ d, data_ b !! (i / COMPONENT_SIZE)%nat = Some d ∧ d ≠ [].
Proof.
  intros Hb Hi. rewrite (length_flat _ _ Hb) in Hi.
  destruct (concat_split COMPONENT_SIZE full i component_pos (sh_full _ _ Hb) Hi)
    as (l1&d&l2&E&E1&Ed&Ec&?).
  exists d. split; [|intros ->; simpl in Ed; pose proof component_pos; lia].
  rewrite (sh_data _ _ Hb), E, <- app_assoc, lookup_app_r, E1, Nat.sub_diag by lia. done.
Qed.

Lemma read_chunk_ok b i n :
  iov_inv b → (i + n < length (flat b))%nat → (n ≤ COMPONENT_SIZE)%nat →
  IOVec.read_chunk i n b = Some (n, take n (drop i (flat b))).
Proof.
  intros Hb Hi Hn. unfold IOVec.read_chunk. rewrite single_false by done.
  destruct Hb as [full Hb]. pose proof component_pos.
  pose proof (Nat.mod_upper_bound i COMPONENT_SIZE).
  destruct (component_nonempty full b i Hb ltac:(lia)) as (d&->&Hd). cbn [mbind option_bind].
  rewrite decide_False by done.
  destruct (decide (i mod COMPONENT_SIZE + n < COMPONENT_SIZE)%nat) as [Hone|Htwo].
  - rewrite div_same, decide_True by done. rewrite (read_at_ok full) by (done || lia). done.
  - rewrite div_next, decide_False by lia. set (l1 := (COMPONENT_SIZE - i mod COMPONENT_SIZE)%nat).
    rewrite (read_at_ok full) by (done || lia). cbn [mbind option_bind].
    assert (Ei : (i + l1 = (i / COMPONENT_SIZE + 1) * COMPONENT_SIZE)%nat).
    { pose proof (Nat.div_mod_eq i COMPONENT_SIZE). unfold l1. nia. }
    assert (Ed : ((i + l1) / COMPONENT_SIZE)%nat = (i / COMPONENT_SIZE + 1)%nat)
      by (rewrite Ei; apply Nat.div_mul; lia).
    assert (Em : ((i + l1) mod COMPONENT_SIZE)%nat = 0%nat) by (rewrite Ei; apply Nat.Div0.mod_mul).
    destruct (component_nonempty full b (i + l1) Hb ltac:(lia)) as (e&He&Hne). rewrite Ed in He.
    rewrite He. cbn [mbind option_bind]. rewrite decide_False by done.
    pose proof (read_at_ok full b (i + l1) (n - l1) Hb ltac:(lia)) as Hr.
    rewrite Ed, Em in Hr. rewrite Hr by lia. cbn [mbind option_bind]. do 2 f_equal.
    rewrite <- drop_drop, take_take_drop. f_equal. lia.
Qed.

Lemma iov_make_inv : iov_inv IOVec.make.
Proof. exists []. constructor; simpl; try done; unfold NCOMPONENTS; lia. Qed.

(** ** Properties *)

(** A chunk of at most a component that leaves the block not
    completely full is appended, across a component border too, and
    [read_chunk] at the old write position returns it; everything before the
    old position is untouched.  A chunk that would reach the end of the block
    is refused without a change, although one that ends exactly there would
    fit. *)
Theorem iovec_append_read_chunk b src :
  iov_inv b → (length src ≤ COMPONENT_SIZE)%nat → Forall is_u8 src →
  if decide (pos_ b + length src < FASTSTDB_BLOCK_SIZE)%nat then
    ∃ b', IOVec.append_chunk src b = Some ((pos_ b + length src)%nat, b') ∧ iov_inv b' ∧
      IOVec.read_chunk (pos_ b) (length src) b' = Some (length src, src) ∧
      ∀ i n, (i + n ≤ pos_ b)%nat → (n ≤ COMPONENT_SIZE)%nat →
        IOVec.read_chunk i n b' = Some (n, take n (drop i (flat b)))
  else IOVec.append_chunk src b = Some (0%nat, b).
Proof.
  intros Hb Hs Hu. case_decide as Hp.
  - destruct (append_chunk_ok b src Hb Hs Hp Hu) as (b'&E&Hb'&Ep&Hlt&Em). rewrite Ep in *.
    assert (Hpre : ∀ i n, (i + n ≤ pos_ b + length src)%nat →
      take n (drop i (flat b')) = take n (drop i (take (pos_ b) (flat b) ++ src))).
    { intros i n Hin. rewrite <- Em, skipn_firstn_comm, take_take. f_equal. lia. }
    pose proof (readable_pos b (or_introl Hb)) as [Hpos _].
    exists b'. split_and!; [done|done| |].
    + rewrite read_chunk_ok, Hpre by (done || lia).
      rewrite drop_app_length' by (rewrite length_take; lia). by rewrite take_ge.
    + intros i n Hin Hn. rewrite read_chunk_ok, Hpre by (done || lia).
      rewrite drop_app_le, take_app_le by (rewrite ?length_drop, length_take; lia).
      rewrite skipn_firstn_comm, take_take. do 3 f_equal. lia.
  - unfold IOVec.append_chunk. cbn [IOVec.is_readonly]. rewrite single_false by done.
    rewrite decide_True; [done|]. right. apply component_ge. lia.
Qed.

Lemma iovec_append_read_chunk_witness :
  ∃ b', IOVec.append_chunk [1; 2; 3] IOVec.make = Some (3%nat, b') ∧
    IOVec.read_chunk 0 3 b' = Some (3%nat, [1; 2; 3]).
Proof.
  pose proof (iovec_append_read_chunk IOVec.make [1; 2; 3] iov_make_inv) as Hc.
  rewrite decide_True in Hc by by_compute.
  destruct Hc as (b'&E&_&Er&_); [by_compute|by_compute|]. exists b'. split; [exact E|exact Er].
Defined.
