(* ===== verification/Blocks.v ===== *)
(** * The concrete block writers and readers (compression.h/.cc)

    [DataBlockWriter]/[DataBlockReader] work on a flat buffer,
    [IOVecBlockWriter]/[IOVecBlockReader] on an [IOVecBlock]; both are the
    generic writer and reader over a memory.  The end-to-end properties of the
    compression layer are stated here. *)
From S2P Require Import Prelude Status ByteStream Base128 VByte DeltaDelta Predictor Fcm DataBlock DataBlockProof DataBlockRead IOVec.

Module DataBlockWriter.
Definition t := BlockWriter.t Region.

(** [DataBlockWriter(id, buf, size)]. *)
Definition make (id : Z) (buf : list Z) : option t :=
  b ← BlockWriter.make (mkRegion buf 0); BlockWriter.init id b.

Definition put (ts value : Z) (b : t) : option (Status * t) := BlockWriter.put ts value b.
Definition commit (b : t) : option (nat * t) := BlockWriter.commit b.
Definition read_tail_elements (b : t) : list point := BlockWriter.read_tail_elements b.
Definition get_write_index (b : t) : option Z := BlockWriter.get_write_index b.

(** The buffer the writer writes to. *)
Definition buffer (b : t) : list Z := r_buf (vw_sink (BlockWriter.stream_ b)).
End DataBlockWriter.

Module DataBlockReader.
Definition t := BlockReader.t (list Z).

(** [DataBlockReader(buf, bufsize)]; [assert(bufsize > 13)]. *)
Definition make (buf : list Z) : option t :=
  if decide (13 < length buf)%nat then BlockReader.make buf 0 else None.

Definition next (b : t) : option (Status * Z * Z * t) := BlockReader.next b.
Definition nelements (b : t) : option Z := BlockReader.nelements b.
Definition get_id (b : t) : option Z := BlockReader.get_id b.
Definition version (b : t) : option Z := BlockReader.version b.
End DataBlockReader.

(** The stream classes over an [IOVecBlock]. *)
Module IOVecVByteStreamWriter.
Definition t := VByteStreamWriter IOVecBlock.

Definition make (block : IOVecBlock) : t := VByteWriter.make block.
Definition skip (n : nat) (w : t) : option nat * t :=
  let '(p, b) := IOVec.allocate n (vw_sink w) in (p, VByteWriter.set_sink b w).
Definition empty (w : t) : bool := VByteWriter.empty w.
Definition encode (fst snd : Z) (w : t) : option (bool * t) := VByteWriter.encode fst snd w.
Definition put_base128 (value : Z) (w : t) : option (bool * t) := VByteWriter.put_base128 value w.
Definition shortcut (w : t) : option (bool * t) := VByteWriter.shortcut w.
Definition tput (iter : list Z) (w : t) : option (bool * t) := VByteWriter.tput iter w.
Definition put (value : Z) (w : t) : option (bool * t) := VByteWriter.put value w.
Definition put_raw (n : nat) (value : Z) (w : t) : option (bool * t) := VByteWriter.put_raw n value w.
Definition commit (w : t) : option (bool * t) := VByteWriter.commit w.
Definition size (w : t) : nat := VByteWriter.size w.
Definition space_left (w : t) : Z := VByteWriter.space_left w.
Definition allocate (n : nat) (w : t) : option nat * t := VByteWriter.allocate n w.
End IOVecVByteStreamWriter.

Module IOVecVByteStreamReader.
Definition t := VByteStreamReader IOVecBlock.

Definition make (block : IOVecBlock) : t := VByteReader.make block 0.
Definition skip (n : nat) (r : t) : nat * t := (vr_pos r, VByteReader.advance n r).
Definition next (r : t) : option (Z * t) := VByteReader.next r.
Definition next_base128 (r : t) : option (Z * t) := VByteReader.next_base128 r.
Definition read_raw (n : nat) (r : t) : option (Z * t) := VByteReader.read_raw n r.
Definition space_left (r : t) : Z := VByteReader.space_left r.
Definition pos (r : t) : nat := vr_pos r.
End IOVecVByteStreamReader.

Module IOVecBlockWriter.
Definition t := BlockWriter.t IOVecBlock.

(** [IOVecBlockWriter(block, offset)]: [stream_.skip(offset)]. *)
Definition make (block : IOVecBlock) (offset : nat) : option t :=
  let block := if decide (0 < offset)%nat then (IOVec.allocate offset block).2 else block in
  BlockWriter.make block.

Definition init (id : Z) (b : t) : option t := BlockWriter.init id b.
Definition put (ts value : Z) (b : t) : option (Status * t) := BlockWriter.put ts value b.
Definition commit (b : t) : option (nat * t) := BlockWriter.commit b.
Definition read_tail_elements (b : t) : list point := BlockWriter.read_tail_elements b.
Definition get_write_index (b : t) : option Z := BlockWriter.get_write_index b.
Definition block (b : t) : IOVecBlock := vw_sink (BlockWriter.stream_ b).
End IOVecBlockWriter.

Module IOVecBlockReader.
Definition t := BlockReader.t IOVecBlock.

(** [IOVecBlockReader(block, offset)]: two [skip]s, the second gives [begin_]. *)
Definition make (block : IOVecBlock) (offset : nat) : option t := BlockReader.make block offset.

Definition next (b : t) : option (Status * Z * Z * t) := BlockReader.next b.
Definition nelements (b : t) : option Z := BlockReader.nelements b.
Definition get_id (b : t) : option Z := BlockReader.get_id b.
Definition version (b : t) : option Z := BlockReader.version b.
End IOVecBlockReader.

(** ** Lemmas on the scattered instance *)

(** A fresh block with [offset] bytes skipped. *)
Lemma skip_ok offset :
  (offset ≤ COMPONENT_SIZE)%nat →
  ∃ block, (if decide (0 < offset)%nat then (IOVec.allocate offset IOVec.make).2 else IOVec.make) = block ∧
    iov_inv block ∧ pos_ block = offset.
Proof.
  intros Ho. case_decide as H0; [|exists IOVec.make; split_and!; [done|apply iov_make_inv|simpl; lia]].
  destruct (iov_allocate_ok offset IOVec.make iov_make_inv) as (b&bs&E&Hb&Hl&Em).
  { unfold iov_contig. rewrite decide_True by (rewrite block_size_eq; pose proof component_pos; simpl; lia).
    simpl pos_. rewrite Nat.Div0.mod_0_l. lia. }
  exists b. rewrite E. split_and!; [done|done|].
  pose proof (iov_length_mem b Hb) as Hp. rewrite Em in Hp. simpl in Hp. lia.
Qed.

(** The first component of a readable block that is not empty. *)
Lemma readable_head b :
  iov_readable b → (0 < pos_ b)%nat → (COMPONENT_SIZE ≤ length (default [] (data_ b !! 0%nat)))%nat.
Proof.
  intros [[full Hb]|(d&E&Hl&_)] Hp.
  - rewrite (sh_data _ _ Hb). pose proof (sh_pos _ _ Hb). destruct full as [|d full]; simpl in *; [lia|].
    by rewrite (Forall_inv (sh_full _ _ Hb)).
  - rewrite E. simpl. rewrite Hl, block_size_eq. lia.
Qed.

Lemma iov_contig_ok b offset :
  pos_ b = offset → (offset + HEADER_SIZE ≤ COMPONENT_SIZE)%nat → (6 ≤ iov_contig b)%nat.
Proof.
  intros <- Ho. unfold iov_contig, HEADER_SIZE in *.
  rewrite decide_True by (rewrite block_size_eq; lia). rewrite Nat.mod_small by lia. lia.
Qed.

(** ** Properties *)

(** C31: the round trip of a flat data block.  Whatever the points
    (any timestamps, any 64-bit patterns), constructing a [DataBlockWriter]
    over a buffer that holds at least a header and has fewer than 3 * 2^16 bytes
    (a longer one can take more chunks than the 16-bit counter of the header
    holds, which the commit asserts against), putting the points and committing
    never aborts; the statuses are [Ok] for a prefix and [Overflow] for the rest;
    and a [DataBlockReader] on the buffer reports the right element count, id and
    version, returns exactly the accepted prefix, bit for bit, and then
    [NoData]. *)
Theorem datablock_roundtrip buf id pts :
  is_u64 id → Forall point_ok pts →
  14 ≤ Z.of_nat (length buf) < 3 * 2 ^ 16 →
  ∃ b1 b2 b3 k size r,
    DataBlockWriter.make id buf = Some b1 ∧ (k ≤ length pts)%nat ∧
    BlockWriter.put_many pts b1
      = Some (replicate k kOk ++ replicate (length pts - k) kOverflow, b2) ∧
    DataBlockWriter.commit b2 = Some (size, b3) ∧
    DataBlockReader.make (take size (DataBlockWriter.buffer b3)) = Some r ∧
    returns r id (take k pts).
Proof.
  intros Hid Hp Hl.
  destruct (write_block (R := list Z) (mkRegion buf 0) id pts)
    as (b0&b1&b2&b3&k&size&E0&E1&Hk&E2&E3&Hs3&Esz&Hmin&Hcap&Hread); try done.
  { unfold sk_inv. simpl. unfold region_inv. simpl. lia. }
  { simpl. lia. }
  { simpl. unfold region_space_left. simpl. lia. }
  { simpl. lia. }
  unfold HEADER_SIZE in Hmin. simpl in Hs3, Hmin, Hcap, Hread, Esz.
  rewrite region_length_mem in Esz by done. rewrite <- Esz in Hread.
  destruct (Hread (take size (DataBlockWriter.buffer b3)) []) as (r&Er&Hr).
  { unfold src_inv. simpl. unfold region_src_inv. rewrite length_take. unfold region_inv in Hs3.
    lia. }
  { simpl. unfold DataBlockWriter.buffer. by rewrite Esz, app_nil_r. }
  { simpl. unfold DataBlockWriter.buffer. rewrite length_take. unfold region_inv, HEADER_SIZE in *. lia. }
  exists b1, b2, b3, k, size, r. split_and!; try done.
  - unfold DataBlockWriter.make. rewrite E0. done.
  - unfold DataBlockReader.make, DataBlockWriter.buffer. rewrite decide_True; [done|].
    rewrite length_take. unfold region_inv in Hs3. lia.
Qed.

(** C30: the round trip of a block in scattered memory.  A block with
    [offset] bytes reserved in front (the leaf's [SubtreeRef]), filled with any
    points and committed, is read back by an [IOVecBlockReader] at that offset,
    from the block itself or from any readable block that starts with the same
    bytes (such as the 4 KiB image read from a volume): count, id, version and
    exactly the accepted points. *)
Theorem iovec_block_roundtrip offset id pts :
  is_u64 id → Forall point_ok pts → (offset + HEADER_SIZE ≤ COMPONENT_SIZE)%nat →
  ∃ b0 b1 b2 b3 k size,
    IOVecBlockWriter.make IOVec.make offset = Some b0 ∧ IOVecBlockWriter.init id b0 = Some b1 ∧
    (k ≤ length pts)%nat ∧
    BlockWriter.put_many pts b1
      = Some (replicate k kOk ++ replicate (length pts - k) kOverflow, b2) ∧
    IOVecBlockWriter.commit b2 = Some (size, b3) ∧
    iov_readable (IOVecBlockWriter.block b3) ∧ size = pos_ (IOVecBlockWriter.block b3) ∧
    ∀ rb, iov_readable rb →
      take size (flat rb) = take size (flat (IOVecBlockWriter.block b3)) → (size ≤ pos_ rb)%nat →
      ∃ r, IOVecBlockReader.make rb offset = Some r ∧ returns r id (take k pts).
Proof.
  intros Hid Hp Ho. unfold HEADER_SIZE in Ho.
  destruct (skip_ok offset ltac:(lia)) as (s&Es&Hs&Hpos).
  destruct (write_block (R := IOVecBlock) s id pts)
    as (b0&b1&b2&b3&k&size&E0&E1&Hk&E2&E3&Hs3&Esz&Hmin&Hcap&Hread); try done.
  { by apply (iov_contig_ok s offset). }
  { simpl. unfold IOVec.space_left. rewrite block_size_eq, Hpos. lia. }
  exists b0, b1, b2, b3, k, size. simpl in Esz, Hs3. rewrite iov_length_mem in Esz by done.
  split_and!; try done.
  - unfold IOVecBlockWriter.make. by rewrite Es.
  - by left.
  - intros rb Hrb Hbytes Hle. simpl in Hread. rewrite iov_length_mem, Hpos in Hread by done.
    apply (Hread rb (drop size (take (pos_ rb) (flat rb)))); [done| |].
    + rewrite <- Esz. change (flat (vw_sink _)) with (flat (IOVecBlockWriter.block b3)).
      rewrite <- Hbytes, <- (take_drop size (take (pos_ rb) _)) at 1. f_equal.
      rewrite take_take. f_equal. lia.
    + etransitivity; [|apply readable_head; [done|]];
        unfold HEADER_SIZE in *; lia.
Qed.

Lemma datablock_roundtrip_witness :
  let pts := (λ i, (1000 + Z.of_nat i, Z.of_nat (i * i))) <$> seq 0 20 in
  ∃ b1 b2 b3 k size r,
    DataBlockWriter.make 42 (replicate 200 0) = Some b1 ∧ (k ≤ 20)%nat ∧
    BlockWriter.put_many pts b1 = Some (replicate k kOk ++ replicate (20 - k) kOverflow, b2) ∧
    DataBlockWriter.commit b2 = Some (size, b3) ∧
    DataBlockReader.make (take size (DataBlockWriter.buffer b3)) = Some r ∧
    returns r 42 (take k pts).
Proof. intros pts. apply (datablock_roundtrip (replicate 200 0) 42 pts); [by_compute|by_compute|by_compute]. Defined.

Lemma iovec_block_roundtrip_witness :
  let pts := (λ i, (1000 + Z.of_nat i, Z.of_nat (i * i))) <$> seq 0 20 in
  ∃ b0 b1 b2 b3 k size r,
    IOVecBlockWriter.make IOVec.make 110 = Some b0 ∧ IOVecBlockWriter.init 42 b0 = Some b1 ∧
    BlockWriter.put_many pts b1 = Some (replicate k kOk ++ replicate (20 - k) kOverflow, b2) ∧
    IOVecBlockWriter.commit b2 = Some (size, b3) ∧
    IOVecBlockReader.make (IOVecBlockWriter.block b3) 110 = Some r ∧ returns r 42 (take k pts).
Proof.
  intros pts. destruct (iovec_block_roundtrip 110 42 pts) as (b0&b1&b2&b3&k&size&E0&E1&_&E2&E3&Hr&Es&Hread);
    [by_compute|by_compute|by_compute|].
  destruct (Hread (IOVecBlockWriter.block b3) Hr eq_refl) as (r&Er&Hret); [by rewrite Es|].
  exists b0, b1, b2, b3, k, size, r. split_and!; assumption.
Defined.
