(* ===== verification/Crc32c.v ===== *)
(** * CRC-32C (common/crc32c.cc)

    The table-driven software routine (a byte at a time, eight bytes at a time)
    and the routine built on the processor's [crc32] instructions, with its
    three-way interleaving and its operators for runs of zeros.  Both are
    proved equal to the bit-by-bit definition of the checksum.  The
    instructions [crc32b] and [crc32q] are not part of the program: the
    hardware routine is parametric in them. *)
From S2P Require Import Prelude.

Definition POLY : Z := 0x82f63b78.

(** ** Reference: one bit, [n] bits, one byte, a string of bytes *)

Definition step (crc : Z) : Z :=
  if decide (Z.land crc 1 ≠ 0) then Z.lxor (Z.shiftr crc 1) POLY else Z.shiftr crc 1.

Fixpoint steps (n : nat) (crc : Z) : Z :=
  match n with O => crc | S n => steps n (step crc) end.

Definition crc_byte (crc b : Z) : Z := steps 8 (Z.lxor crc b).
Definition crc_bytes (crc : Z) (bs : list Z) : Z := foldl crc_byte crc bs.

(** CRC-32C of [bs], continuing from [crci]. *)
Definition crc32c_ref (crci : Z) (bs : list Z) : Z :=
  Z.lxor (crc_bytes (Z.lxor crci 0xffffffff) bs) 0xffffffff.

(** ** The software routine *)

(** [crc32c_init_sw], [crc32c_table[0][n]]: eight unrolled steps. *)
Definition table0_entry (n : Z) : Z :=
  step (step (step (step (step (step (step (step n))))))).

Definition table0 : list Z := (λ n, table0_entry (Z.of_nat n)) <$> seq 0 256.

(** [crc32c_table[k][n]] from [crc32c_table[k - 1][n]]. *)
Definition table_next (t0 : list Z) (crc : Z) : Z :=
  Z.lxor (default 0 (t0 !! Z.to_nat (Z.land crc 0xff))) (Z.shiftr crc 8).

Fixpoint tables (k : nat) (t0 row : list Z) : list (list Z) :=
  match k with
  | O => [row]
  | S k => row :: tables k t0 (table_next t0 <$> row)
  end.

Definition crc32c_table : list (list Z) := tables 7 table0 table0.

(** [crc32c_table[k][i]]. *)
Definition lookup_table (k : nat) (i : Z) : Z :=
  default 0 (crc32c_table !! k ≫= λ row, row !! Z.to_nat i).

(** One byte: the first and the last loop of [crc32c_sw]. *)
Definition sw_byte (crc b : Z) : Z :=
  Z.lxor (lookup_table 0 (Z.land (Z.lxor crc b) 0xff)) (Z.shiftr crc 8).

(** Eight bytes: the body of the middle loop. *)
Definition sw_quad (crc q : Z) : Z :=
  let crc := Z.lxor crc q in
  let t k i := lookup_table k (Z.land (Z.shiftr crc (8 * i)) 0xff) in
  Z.lxor (Z.lxor (Z.lxor (Z.lxor (Z.lxor (Z.lxor (Z.lxor
    (lookup_table 7 (Z.land crc 0xff)) (t 6%nat 1)) (t 5%nat 2)) (t 4%nat 3))
    (t 3%nat 4)) (t 2%nat 5)) (t 1%nat 6)) (lookup_table 0 (Z.shiftr crc 56)).

(** The middle loop; [fuel] bounds the number of quadwords. *)
Fixpoint sw_quads (fuel : nat) (crc : Z) (bs : list Z) : Z * list Z :=
  match fuel with
  | O => (crc, bs)
  | S fuel =>
    if decide (8 ≤ length bs)%nat then sw_quads fuel (sw_quad crc (le_val (take 8 bs))) (drop 8 bs)
    else (crc, bs)
  end.

(** Bytes up to the next address that is a multiple of eight. *)
Definition misaligned (addr : Z) : nat := Z.to_nat ((8 - Z.land addr 7) mod 8).

Definition crc32c_sw (addr crci : Z) (buf : list Z) : Z :=
  let crc := Z.lxor crci 0xffffffff in
  let crc := foldl sw_byte crc (take (misaligned addr) buf) in
  let buf := drop (misaligned addr) buf in
  let '(crc, buf) := sw_quads (length buf) crc buf in
  let crc := foldl sw_byte crc buf in
  Z.lxor (u32 crc) 0xffffffff.

(** ** The routine for the [crc32] instructions *)

(** The loop of [gf2_matrix_times]: [mat] moves with [vec]. *)
Fixpoint gf2_matrix_times (mat : list Z) (vec sum : Z) : Z :=
  if decide (vec = 0) then sum else
  match mat with
  | [] => sum
  | m :: mat =>
    gf2_matrix_times mat (Z.shiftr vec 1)
      (if decide (Z.land vec 1 ≠ 0) then Z.lxor sum m else sum)
  end.

Definition gf2_matrix_square (mat : list Z) : list Z := (λ row, gf2_matrix_times mat row 0) <$> mat.

(** The operator for one zero bit: [odd] before the squarings. *)
Definition one_zero_bit : list Z := POLY :: ((λ n, u32 (Z.shiftl 1 (Z.of_nat n))) <$> seq 0 31).

(** The [do ... while (len)] loop; [fuel] bounds the bits of [len]. *)
Fixpoint zeros_loop (fuel : nat) (odd : list Z) (len : Z) : list Z :=
  let even := gf2_matrix_square odd in
  let len := Z.shiftr len 1 in
  if decide (len = 0) then even else
  let odd := gf2_matrix_square even in
  let len := Z.shiftr len 1 in
  match fuel with
  | O => odd
  | S fuel => if decide (len = 0) then odd else zeros_loop fuel odd len
  end.

Definition crc32c_zeros_op (len : Z) : list Z :=
  let even := gf2_matrix_square one_zero_bit in
  let odd := gf2_matrix_square even in
  zeros_loop 64 odd len.

Definition crc32c_zeros (len : Z) : list (list Z) :=
  let op := crc32c_zeros_op len in
  (λ j, (λ n, gf2_matrix_times op (Z.shiftl (Z.of_nat n) (8 * Z.of_nat j)) 0) <$> seq 0 256) <$> seq 0 4.

Definition crc32c_shift (zeros : list (list Z)) (crc : Z) : Z :=
  let z j i := default 0 (zeros !! j ≫= λ row, row !! Z.to_nat i) in
  Z.lxor (Z.lxor (Z.lxor (z 0%nat (Z.land crc 0xff)) (z 1%nat (Z.land (Z.shiftr crc 8) 0xff)))
    (z 2%nat (Z.land (Z.shiftr crc 16) 0xff))) (z 3%nat (Z.shiftr crc 24)).

Definition LONG : nat := Z.to_nat 8192.
Definition SHORT : nat := 256.

Inductive CRC32C_hint := DETECT | FORCE_SW | FORCE_HW.
(** The address of the buffer, the initial value and the bytes. *)
Definition crc32c_impl_t : Type := Z → Z → list Z → Z.

Section Hardware.
(** The instructions: [crc32b] accumulates a byte, [crc32q] a quadword. *)
Variables (crc32b crc32q : Z → Z → Z).

Definition quad_at (p : nat) (bs : list Z) : Z := le_val (take 8 (drop p bs)).

(** The inner loop: three independent checksums, [len] bytes apart. *)
Fixpoint hw_lanes (n p len : nat) (bs : list Z) (c : Z * Z * Z) : Z * Z * Z :=
  match n with
  | O => c
  | S n =>
    let '(c0, c1, c2) := c in
    hw_lanes n (p + 8) len bs
      (crc32q c0 (quad_at p bs), crc32q c1 (quad_at (p + len) bs),
       crc32q c2 (quad_at (p + 2 * len) bs))
  end.

(** A block of three times [len] bytes. *)
Definition hw_block (len : nat) (zeros : list (list Z)) (crc0 : Z) (bs : list Z) : Z :=
  let '(c0, c1, c2) := hw_lanes (len / 8) 0 len bs (crc0, 0, 0) in
  let c0 := Z.lxor (crc32c_shift zeros (u32 c0)) c1 in
  Z.lxor (crc32c_shift zeros (u32 c0)) c2.

Fixpoint hw_blocks (fuel len : nat) (zeros : list (list Z)) (crc0 : Z) (bs : list Z) : Z * list Z :=
  match fuel with
  | O => (crc0, bs)
  | S fuel =>
    if decide (3 * len ≤ length bs)%nat
    then hw_blocks fuel len zeros (hw_block len zeros crc0 bs) (drop (3 * len) bs)
    else (crc0, bs)
  end.

(** The remaining quadwords. *)
Fixpoint hw_quads (n : nat) (crc0 : Z) (bs : list Z) : Z * list Z :=
  match n with
  | O => (crc0, bs)
  | S n => hw_quads n (crc32q crc0 (quad_at 0 bs)) (drop 8 bs)
  end.

Definition crc32c_hw (addr crc : Z) (buf : list Z) : Z :=
  let crc0 := Z.lxor crc 0xffffffff in
  let crc0 := foldl crc32b crc0 (take (misaligned addr) buf) in
  let buf := drop (misaligned addr) buf in
  let '(crc0, buf) := hw_blocks (length buf) LONG (crc32c_zeros (Z.of_nat LONG)) crc0 buf in
  let '(crc0, buf) := hw_blocks (length buf) SHORT (crc32c_zeros (Z.of_nat SHORT)) crc0 buf in
  let '(crc0, buf) := hw_quads (length buf / 8) crc0 buf in
  let crc0 := foldl crc32b crc0 buf in
  Z.lxor (u32 crc0) 0xffffffff.


(** ** The choice of the implementation; [ecx] is what [cpuid] leaves there. *)

Definition hardwared_crc32c_available (ecx : Z) : bool :=
  bool_decide (Z.land (Z.shiftr ecx 20) 1 ≠ 0).

Definition chose_crc32c_implementation (ecx : Z) (hint : CRC32C_hint) : crc32c_impl_t :=
  match hint with
  | FORCE_HW => crc32c_hw
  | FORCE_SW => crc32c_sw
  | DETECT => if hardwared_crc32c_available ecx then crc32c_hw else crc32c_sw
  end.

End Hardware.

(** ** [step] is linear over GF(2) *)

Lemma land_1_odd x : Z.land x 1 ≠ 0 ↔ Z.odd x = true.
Proof.
  change 1 with (Z.ones 1) at 1. rewrite Z.land_ones by lia. change (2 ^ 1) with 2.
  rewrite Zmod_odd. by destruct (Z.odd x).
Qed.

Lemma step_eq x : step x = Z.lxor (Z.shiftr x 1) (if Z.odd x then POLY else 0).
Proof.
  unfold step. case_decide as Hx.
  - apply land_1_odd in Hx. by rewrite Hx.
  - destruct (Z.odd x) eqn:E; [by apply land_1_odd in E|]. by rewrite Z.lxor_0_r.
Qed.

Lemma lxor_swap a b c d : Z.lxor (Z.lxor a b) (Z.lxor c d) = Z.lxor (Z.lxor a c) (Z.lxor b d).
Proof. rewrite !Z.lxor_assoc. f_equal. rewrite <- !Z.lxor_assoc. by rewrite (Z.lxor_comm b). Qed.

Lemma step_lxor x y : step (Z.lxor x y) = Z.lxor (step x) (step y).
Proof.
  rewrite !step_eq, Z.shiftr_lxor, lxor_swap. f_equal.
  rewrite <- !Z.bit0_odd, Z.lxor_spec. destruct (Z.testbit x 0), (Z.testbit y 0); simpl;
    by rewrite ?Z.lxor_nilpotent, ?Z.lxor_0_l, ?Z.lxor_0_r.
Qed.

Lemma steps_lxor n x y : steps n (Z.lxor x y) = Z.lxor (steps n x) (steps n y).
Proof. revert x y. induction n as [|n IH]; intros x y; simpl; [done|]. by rewrite step_lxor, IH. Qed.

Lemma steps_0 n : steps n 0 = 0.
Proof. induction n as [|n IH]; simpl; [done|]. exact IH. Qed.

Lemma steps_add n m x : steps (n + m) x = steps m (steps n x).
Proof. revert x. induction n as [|n IH]; intros x; simpl; [done|]. by rewrite IH. Qed.

Lemma steps_shiftl n x : steps n (Z.shiftl x (Z.of_nat n)) = x.
Proof.
  induction n as [|n IH]; [by rewrite Z.shiftl_0_r|]. simpl steps.
  assert (step (Z.shiftl x (Z.of_nat (S n))) = Z.shiftl x (Z.of_nat n)) as ->; [|done].
  rewrite step_eq. replace (Z.of_nat (S n)) with (Z.of_nat n + 1) by lia.
  rewrite <- Z.shiftl_shiftl, <- Z.bit0_odd, Z.shiftl_spec_low by lia.
  rewrite Z.lxor_0_r, Z.shiftr_shiftl_l, Z.shiftl_0_r by lia. done.
Qed.

Lemma step_u32 x : is_u32 x → is_u32 (step x).
Proof.
  intros Hx. rewrite step_eq. unfold is_u32 in *. apply lxor_range.
  - rewrite shiftr_div by lia. zify_div.
  - by destruct (Z.odd x).
Qed.

Lemma steps_u32 n x : is_u32 x → is_u32 (steps n x).
Proof. revert x. induction n as [|n IH]; intros x Hx; simpl; [done|]. by apply IH, step_u32. Qed.

(** Low bits and the rest. *)
Lemma split_low x n :
  0 ≤ n → x = Z.lxor (Z.shiftl (Z.shiftr x n) n) (Z.land x (Z.ones n)).
Proof.
  intros Hn. apply Z.bits_inj'. intros i Hi. rewrite Z.lxor_spec, Z.land_spec, Z.shiftl_spec by done.
  destruct (decide (i < n)).
  - rewrite (Z.testbit_neg_r (Z.shiftr x n)), Z.ones_spec_low by lia. by rewrite andb_true_r, xorb_false_l.
  - rewrite Z.shiftr_spec, Z.ones_spec_high, andb_false_r, xorb_false_r by lia. f_equal. lia.
Qed.

(** Eight steps split off the low byte. *)
Lemma steps_split k x :
  0 ≤ x → steps (8 * (k + 1)) x = Z.lxor (steps (8 * (k + 1)) (Z.land x 0xff)) (steps (8 * k) (Z.shiftr x 8)).
Proof.
  intros Hx. rewrite (split_low x 8) at 1 by lia. rewrite steps_lxor, Z.lxor_comm. f_equal.
  replace (8 * (k + 1))%nat with (8 + 8 * k)%nat by lia. rewrite steps_add.
  by rewrite (steps_shiftl 8).
Qed.

#[local] Opaque step.

(** ** Strings of bytes *)

Lemma crc_byte_u32 c b : is_u32 c → is_u8 b → is_u32 (crc_byte c b).
Proof.
  intros Hc Hb. apply steps_u32. unfold is_u32, is_u8 in *. apply lxor_range; lia.
Qed.

Lemma crc_bytes_u32 bs c : is_u32 c → Forall is_u8 bs → is_u32 (crc_bytes c bs).
Proof.
  intros Hc Hb. revert c Hc. induction Hb as [|b bs Hb _ IH]; intros c Hc; [done|].
  simpl. by apply IH, crc_byte_u32.
Qed.

Lemma crc_bytes_app c l1 l2 : crc_bytes c (l1 ++ l2) = crc_bytes (crc_bytes c l1) l2.
Proof. unfold crc_bytes. apply foldl_app. Qed.

(** The register and the data contribute independently. *)
Lemma crc_bytes_linear bs c d :
  crc_bytes (Z.lxor c d) bs = Z.lxor (steps (8 * length bs) c) (crc_bytes d bs).
Proof.
  revert c d. induction bs as [|b bs IH]; intros c d; [done|].
  change (crc_bytes (crc_byte (Z.lxor c d) b) bs
    = Z.lxor (steps (8 * length (b :: bs)) c) (crc_bytes (crc_byte d b) bs)).
  replace (8 * length (b :: bs))%nat with (8 + 8 * length bs)%nat by (simpl length; lia).
  unfold crc_byte. rewrite Z.lxor_assoc, steps_lxor, (IH (steps 8 c)), (steps_add 8). reflexivity.
Qed.

(** The whole string at once: [8 n] steps of the register xor the string as a
    little-endian integer. *)
Lemma crc_bytes_steps bs c :
  Forall is_u8 bs → crc_bytes c bs = steps (8 * length bs) (Z.lxor c (le_val bs)).
Proof.
  intros Hb. revert c. induction Hb as [|b bs Hb Hbs IH]; intros c; [by rewrite Z.lxor_0_r|].
  cbn [length]. replace (8 * S (length bs))%nat with (8 + 8 * length bs)%nat by lia.
  rewrite steps_add. change (crc_bytes c (b :: bs)) with (crc_bytes (crc_byte c b) bs).
  rewrite IH. apply (f_equal (steps _)). simpl le_val. unfold crc_byte.
  assert (Z.lor b (le_val bs ≪ 8) = Z.lxor b (le_val bs ≪ 8)) as ->.
  { rewrite <- Z.add_nocarry_lor, Z.add_nocarry_lxor; [done|..];
      apply land_shiftl_low; unfold is_u8 in Hb; lia. }
  rewrite <- Z.lxor_assoc, (steps_lxor 8 (Z.lxor c b)). by rewrite (steps_shiftl 8).
Qed.

(** ** Tables *)

Lemma land_ff_range x : 0 ≤ Z.land x 0xff < 256.
Proof. change 0xff with (2 ^ 8 - 1). rewrite land_ones' by lia. zify_div. Qed.

Lemma table0_lookup i : 0 ≤ i < 256 → table0 !! Z.to_nat i = Some (steps 8 i).
Proof.
  intros Hi. unfold table0. rewrite list_lookup_fmap, lookup_seq_lt by lia. simpl.
  by rewrite Z2Nat.id by lia.
Qed.

Lemma table_next_steps x : 0 ≤ x → table_next table0 x = steps 8 x.
Proof.
  intros Hx. unfold table_next. rewrite table0_lookup by apply land_ff_range. simpl default.
  symmetry. apply (steps_split 0 x Hx).
Qed.

Lemma tables_lookup k row j i x :
  (j ≤ k)%nat → row !! i = Some x → is_u32 x →
  (tables k table0 row !! j ≫= λ r, r !! i) = Some (steps (8 * j) x).
Proof.
  revert row j x. induction k as [|k IH]; intros row [|j] x Hj Hr Hx; try lia; try done.
  change (tables (S k) table0 row !! S j) with (tables k table0 (table_next table0 <$> row) !! j).
  rewrite (IH _ j (steps 8 x)); [|lia| |by apply steps_u32].
  - rewrite <- steps_add. do 2 f_equal. lia.
  - rewrite list_lookup_fmap, Hr. simpl. f_equal. apply table_next_steps. unfold is_u32 in Hx. lia.
Qed.

Lemma lookup_table_steps k i :
  (k ≤ 7)%nat → 0 ≤ i < 256 → lookup_table k i = steps (8 * (k + 1)) i.
Proof.
  intros Hk Hi. unfold lookup_table, crc32c_table.
  rewrite (tables_lookup 7 table0 k (Z.to_nat i) (steps 8 i)); [|done|by apply table0_lookup|].
  - cbn [default from_option id]. rewrite <- steps_add. by replace (8 * (k + 1))%nat with (8 + 8 * k)%nat by lia.
  - apply steps_u32. unfold is_u32. lia.
Qed.

Lemma shiftr8_lxor_byte c b : is_u8 b → Z.shiftr (Z.lxor c b) 8 = Z.shiftr c 8.
Proof.
  intros Hb. rewrite Z.shiftr_lxor, (shiftr_div b) by lia. unfold is_u8 in Hb.
  rewrite (Z.div_small b) by lia. apply Z.lxor_0_r.
Qed.

Lemma sw_byte_ok c b : is_u32 c → is_u8 b → sw_byte c b = crc_byte c b.
Proof.
  intros Hc Hb. unfold sw_byte, crc_byte, is_u32 in *.
  assert (0 ≤ Z.lxor c b) by (apply Z.lxor_nonneg; unfold is_u8 in Hb; lia).
  rewrite lookup_table_steps by (lia || apply land_ff_range).
  rewrite <- (shiftr8_lxor_byte c b) by done. symmetry. by apply (steps_split 0).
Qed.

Lemma sw_bytes_ok bs c : is_u32 c → Forall is_u8 bs → foldl sw_byte c bs = crc_bytes c bs.
Proof.
  intros Hc Hb. revert c Hc. induction Hb as [|b bs Hb _ IH]; intros c Hc; [done|].
  simpl. rewrite sw_byte_ok by done. by apply IH, crc_byte_u32.
Qed.

Lemma shiftr_nonneg x n : 0 ≤ x → 0 ≤ n → 0 ≤ Z.shiftr x n.
Proof. intros. by apply Z.shiftr_nonneg. Qed.

(** One level of the eight-byte lookup. *)
Lemma lookup_split k n m i j x :
  (k ≤ 7)%nat → n = (8 * (k + 1))%nat → m = (8 * k)%nat → 0 ≤ x → 0 ≤ i → j = i + 8 →
  steps n (Z.shiftr x i)
  = Z.lxor (lookup_table k (Z.land (Z.shiftr x i) 0xff)) (steps m (Z.shiftr x j)).
Proof.
  intros Hk -> -> Hx Hi ->. rewrite lookup_table_steps by (done || apply land_ff_range).
  rewrite (steps_split k) by (apply shiftr_nonneg; lia). by rewrite Z.shiftr_shiftr by lia.
Qed.

Lemma sw_quad_steps c q :
  is_u32 c → is_u64 q → sw_quad c q = steps 64 (Z.lxor c q).
Proof.
  intros Hc Hq. unfold sw_quad. cbv zeta. set (x := Z.lxor c q).
  assert (Hx : 0 ≤ x < 2 ^ 64) by (unfold is_u32, is_u64 in *; apply lxor_range; lia).
  assert (E56 : Z.shiftr x 56 = Z.land (Z.shiftr x 56) 0xff).
  { change 0xff with (2 ^ 8 - 1). rewrite land_ones', shiftr_div by lia. zify_div. }
  assert (E64 : Z.shiftr x 64 = 0) by (rewrite shiftr_div by lia; zify_div).
  pose proof (lookup_split 7 64 56 0 8 x) as E7. rewrite Z.shiftr_0_r in E7. rewrite E7 by lia.
  rewrite (lookup_split 6 56 48 8 16), (lookup_split 5 48 40 16 24), (lookup_split 4 40 32 24 32),
    (lookup_split 3 32 24 32 40), (lookup_split 2 24 16 40 48), (lookup_split 1 16 8 48 56),
    (lookup_split 0 8 0 56 64) by lia.
  change (steps 0 (Z.shiftr x 64)) with (Z.shiftr x 64). rewrite E64, Z.lxor_0_r, <- E56.
  by rewrite <- !Z.lxor_assoc.
Qed.

Lemma sw_quad_ok c bs :
  is_u32 c → Forall is_u8 bs → length bs = 8%nat → sw_quad c (le_val bs) = crc_bytes c bs.
Proof.
  intros Hc Hb Hl. rewrite crc_bytes_steps, Hl by done. apply sw_quad_steps; [done|].
  pose proof (le_val_range bs Hb) as Hr. rewrite Hl in Hr. exact Hr.
Qed.

Lemma sw_quads_ok fuel c bs :
  is_u32 c → Forall is_u8 bs →
  ∃ l1 l2, bs = l1 ++ l2 ∧ sw_quads fuel c bs = (crc_bytes c l1, l2).
Proof.
  revert c bs. induction fuel as [|fuel IH]; intros c bs Hc Hb; simpl; [by exists [], bs|].
  case_decide as Hl; [|by exists [], bs].
  assert (H8 : length (take 8 bs) = 8%nat) by (rewrite length_take; lia).
  rewrite sw_quad_ok by (done || by apply Forall_take).
  destruct (IH (crc_bytes c (take 8 bs)) (drop 8 bs)) as (l1&l2&E&->);
    [by apply crc_bytes_u32, Forall_take|by apply Forall_drop|].
  exists (take 8 bs ++ l1), l2. rewrite <- app_assoc, <- E, take_drop, crc_bytes_app. done.
Qed.

Lemma lxor_ones_u32 c : is_u32 c → is_u32 (Z.lxor c 0xffffffff).
Proof. intros. unfold is_u32 in *. apply lxor_range; lia. Qed.

Lemma finish_u32 c : is_u32 c → Z.lxor (u32 c) 0xffffffff = Z.lxor c 0xffffffff.
Proof. intros. by rewrite u32_id. Qed.

(** ** Linear operators as matrices *)

(** [mat] holds the images of the unit vectors under [f]. *)
Definition represents (mat : list Z) (f : Z → Z) : Prop :=
  length mat = 32%nat ∧ ∀ i, (i < 32)%nat → mat !! i = Some (f (2 ^ Z.of_nat i)).

Definition linear (f : Z → Z) : Prop := ∀ x y, f (Z.lxor x y) = Z.lxor (f x) (f y).

Lemma linear_0 f : linear f → f 0 = 0.
Proof. intros Hf. rewrite <- (Z.lxor_nilpotent 0) at 1. rewrite Hf. apply Z.lxor_nilpotent. Qed.

Lemma linear_steps n : linear (steps n).
Proof. intros x y. apply steps_lxor. Qed.

Lemma odd_split v : v = Z.lxor (if Z.odd v then 1 else 0) (2 * Z.shiftr v 1).
Proof.
  rewrite (split_low v 1) at 1 by lia. rewrite Z.lxor_comm. f_equal.
  rewrite Z.land_ones by lia. change (2 ^ 1) with 2. rewrite Zmod_odd. by destruct (Z.odd v).
Qed.

(** The loop adds up the rows of the set bits. *)
Lemma times_ok f mat k vec sum :
  linear f → (∀ i, (i < length mat)%nat → mat !! i = Some (f (2 ^ (Z.of_nat k + Z.of_nat i)))) →
  0 ≤ vec < 2 ^ Z.of_nat (length mat) →
  gf2_matrix_times mat vec sum = Z.lxor sum (f (Z.shiftl vec (Z.of_nat k))).
Proof.
  intros Hf. revert k vec sum. induction mat as [|m mat IH]; intros k vec sum Hm Hv.
  - simpl in Hv. assert (vec = 0) as -> by lia. simpl. rewrite Z.shiftl_0_l, (linear_0 f Hf).
    by rewrite Z.lxor_0_r.
  - cbn [gf2_matrix_times]. case_decide as Hz.
    { subst vec. by rewrite Z.shiftl_0_l, (linear_0 f Hf), Z.lxor_0_r. }
    pose proof (Hm 0%nat ltac:(simpl; lia)) as H0. simpl in H0. injection H0 as ->.
    rewrite Z.add_0_r. cbn [length] in Hv. rewrite Nat2Z.inj_succ, Z.pow_succ_r in Hv by lia.
    rewrite (IH (S k)); [|intros i Hi|rewrite shiftr_div by lia; zify_div].
    + assert (f (Z.shiftl vec (Z.of_nat k)) = Z.lxor (f (Z.shiftl (if Z.odd vec then 1 else 0) (Z.of_nat k)))
        (f (Z.shiftl (2 * Z.shiftr vec 1) (Z.of_nat k)))) as ->
        by (by rewrite <- Hf, <- Z.shiftl_lxor, <- odd_split).
      rewrite <- Z.lxor_assoc. f_equal.
      * destruct (Z.odd vec) eqn:Eo.
        -- rewrite decide_True by (by apply land_1_odd). by rewrite Z.shiftl_1_l.
        -- rewrite decide_False by (rewrite land_1_odd; congruence).
           by rewrite Z.shiftl_0_l, (linear_0 f Hf), Z.lxor_0_r.
      * f_equal. rewrite !shiftl_mul by lia. rewrite Nat2Z.inj_succ, Z.pow_succ_r by lia. ring.
    + specialize (Hm (S i) ltac:(simpl; lia)). simpl in Hm. rewrite Hm. do 3 f_equal. lia.
Qed.

Lemma represents_times mat f v :
  linear f → represents mat f → is_u32 v → gf2_matrix_times mat v 0 = f v.
Proof.
  intros Hf [Hl Hm] Hv. rewrite (times_ok f mat 0) by (done || rewrite Hl; done).
  by rewrite Z.shiftl_0_r, Z.lxor_0_l.
Qed.

Lemma represents_square mat f :
  linear f → (∀ x, is_u32 x → is_u32 (f x)) → represents mat f →
  represents (gf2_matrix_square mat) (λ x, f (f x)).
Proof.
  intros Hf Hr Hm. pose proof Hm as [Hl Hi]. split; [by unfold gf2_matrix_square; rewrite length_fmap|].
  intros i Hi'. unfold gf2_matrix_square. rewrite list_lookup_fmap, (Hi i Hi'). simpl. f_equal.
  apply represents_times; [done..|]. apply Hr. unfold is_u32. split; [lia|].
  apply Z.pow_lt_mono_r; lia.
Qed.

Lemma one_zero_bit_ok : represents one_zero_bit (steps 1).
Proof.
  split; [done|]. intros [|i] Hi; [done|].
  change (one_zero_bit !! S i) with (((λ n, u32 (Z.shiftl 1 (Z.of_nat n))) <$> seq 0 31) !! i).
  rewrite list_lookup_fmap, lookup_seq_lt by lia. simpl fmap. f_equal.
  rewrite Z.shiftl_1_l, u32_id.
  - replace (2 ^ Z.of_nat (S i)) with (Z.shiftl (2 ^ Z.of_nat i) (Z.of_nat 1));
      [by rewrite steps_shiftl|].
    rewrite shiftl_mul, (Nat2Z.inj_succ i), Z.pow_succ_r by lia. by rewrite Z.mul_comm.
  - unfold is_u32. split; [lia|]. apply Z.pow_lt_mono_r; lia.
Qed.

Lemma square_steps mat n : represents mat (steps n) → represents (gf2_matrix_square mat) (steps (2 * n)).
Proof.
  intros Hm. destruct (represents_square mat (steps n) (linear_steps n) (steps_u32 n) Hm) as [Hl Hi].
  split; [done|]. intros i Hi'. rewrite (Hi i Hi'). f_equal. rewrite <- steps_add.
  by replace (2 * n)%nat with (n + n)%nat by lia.
Qed.

(** The loop on a power of two. *)
Lemma zeros_loop_ok fuel odd n k :
  represents odd (steps n) → (k ≤ 2 * fuel + 1)%nat →
  represents (zeros_loop fuel odd (2 ^ Z.of_nat k)) (steps (2 * n * 2 ^ k)).
Proof.
  assert (Hs : ∀ m, Z.shiftr (2 ^ Z.of_nat (S m)) 1 = 2 ^ Z.of_nat m).
  { intros m. rewrite shiftr_div, Nat2Z.inj_succ, Z.pow_succ_r by lia. change (2 ^ 1) with 2.
    rewrite Z.mul_comm. by apply Z.div_mul. }
  revert odd n k. induction fuel as [|fuel IH]; intros odd n k Ho Hk.
  - destruct k as [|[|k]]; [..|lia].
    + simpl zeros_loop. replace (2 * n * 2 ^ 0)%nat with (2 * n)%nat by (simpl; lia).
      by apply square_steps.
    + cbn [zeros_loop]. rewrite Hs. rewrite decide_False by (simpl; lia).
      replace (2 * n * 2 ^ 1)%nat with (2 * (2 * n))%nat by (simpl; lia).
      by apply square_steps, square_steps.
  - cbn [zeros_loop]. destruct k as [|[|k]].
    + rewrite decide_True by done. replace (2 * n * 2 ^ 0)%nat with (2 * n)%nat by (simpl; lia).
      by apply square_steps.
    + rewrite Hs. rewrite decide_False by (simpl; lia). rewrite decide_True by done.
      replace (2 * n * 2 ^ 1)%nat with (2 * (2 * n))%nat by (simpl; lia).
      by apply square_steps, square_steps.
    + rewrite !Hs. rewrite !decide_False by (pose proof (Z.pow_pos_nonneg 2); lia).
      replace (2 * n * 2 ^ S (S k))%nat with (2 * (2 * (2 * n)) * 2 ^ k)%nat by (simpl; lia).
      apply IH; [|lia]. by apply square_steps, square_steps.
Qed.

Lemma zeros_op_ok k :
  (k ≤ 129)%nat → represents (crc32c_zeros_op (2 ^ Z.of_nat k)) (steps (8 * 2 ^ k)).
Proof.
  intros Hk. unfold crc32c_zeros_op.
  replace (8 * 2 ^ k)%nat with (2 * (2 * (2 * 1)) * 2 ^ k)%nat by lia.
  apply zeros_loop_ok; [|lia]. apply square_steps, square_steps, one_zero_bit_ok.
Qed.

Lemma zeros_lookup op n j i :
  represents op (steps n) → (j < 4)%nat → 0 ≤ i < 256 →
  ((λ j, (λ m, gf2_matrix_times op (Z.shiftl (Z.of_nat m) (8 * Z.of_nat j)) 0) <$> seq 0 256) <$> seq 0 4)
    !! j ≫= (λ row, row !! Z.to_nat i) = Some (steps n (Z.shiftl i (8 * Z.of_nat j))).
Proof.
  intros Ho Hj Hi. rewrite list_lookup_fmap, lookup_seq_lt by lia. cbn [fmap option_fmap option_map mbind option_bind].
  rewrite list_lookup_fmap, lookup_seq_lt by lia. cbn [fmap option_fmap option_map]. f_equal.
  rewrite !Nat.add_0_l, Z2Nat.id by lia.
  apply (represents_times _ _ _ (linear_steps n) Ho). unfold is_u32. rewrite shiftl_mul by lia.
  assert (0 < 2 ^ (8 * Z.of_nat j)) by (apply Z.pow_pos_nonneg; lia).
  assert (2 ^ (8 * Z.of_nat j) ≤ 2 ^ 24) by (apply Z.pow_le_mono_r; lia).
  change (2 ^ 32) with (256 * 2 ^ 24). nia.
Qed.

Lemma four_bytes x a1 a2 a3 b0 b1 b2 :
  x = Z.lxor (Z.shiftl a1 8) b0 → a1 = Z.lxor (Z.shiftl a2 8) b1 → a2 = Z.lxor (Z.shiftl a3 8) b2 →
  x = Z.lxor (Z.lxor (Z.lxor b0 (Z.shiftl b1 8)) (Z.shiftl b2 16)) (Z.shiftl a3 24).
Proof.
  intros -> -> ->. rewrite !Z.shiftl_lxor, !Z.shiftl_shiftl by lia.
  change (8 + 8) with 16. change (16 + 8) with 24.
  rewrite (Z.lxor_comm _ b0), (Z.lxor_comm _ (Z.shiftl b1 8)), (Z.lxor_comm (Z.shiftl a3 24)).
  by rewrite !Z.lxor_assoc.
Qed.

(** The lookup tables apply the operator for [len] zero bytes. *)
Lemma crc32c_shift_ok k crc :
  (k ≤ 129)%nat → is_u32 crc →
  crc32c_shift (crc32c_zeros (2 ^ Z.of_nat k)) crc = steps (8 * 2 ^ k) crc.
Proof.
  intros Hk Hc. unfold crc32c_shift. cbv zeta. unfold crc32c_zeros. cbv zeta.
  pose proof (zeros_op_ok k Hk) as Ho. unfold is_u32 in Hc.
  assert (H24 : 0 ≤ Z.shiftr crc 24 < 256) by (rewrite shiftr_div by lia; zify_div).
  rewrite !(zeros_lookup _ _ _ _ Ho) by (lia || apply land_ff_range).
  cbn [default from_option id Z.of_nat Pos.of_succ_nat Z.mul Pos.mul]. rewrite Z.shiftl_0_r, <- !steps_lxor.
  symmetry. apply (f_equal (steps _)).
  apply (four_bytes crc (Z.shiftr crc 8) (Z.shiftr crc 16) (Z.shiftr crc 24)).
  - by apply split_low.
  - rewrite (split_low (Z.shiftr crc 8) 8) at 1 by lia. by rewrite Z.shiftr_shiftr by lia.
  - rewrite (split_low (Z.shiftr crc 16) 8) at 1 by lia. by rewrite Z.shiftr_shiftr by lia.
Qed.

(** ** The interleaved routine *)

Section HardwareFacts.
Variables (crc32b crc32q : Z → Z → Z).
(** What the processor's manual says of the two instructions. *)
Hypothesis crc32b_spec : ∀ c b, is_u32 c → is_u8 b → crc32b c b = crc_byte c b.
Hypothesis crc32q_spec : ∀ c q, is_u32 c → is_u64 q → crc32q c q = crc_bytes c (le_bytes 8 q).

Lemma quad_ok c p bs :
  is_u32 c → Forall is_u8 bs → (p + 8 ≤ length bs)%nat →
  crc32q c (quad_at p bs) = crc_bytes c (take 8 (drop p bs)).
Proof using crc32q_spec.
  intros Hc Hb Hp. unfold quad_at.
  assert (Hf : Forall is_u8 (take 8 (drop p bs))) by (by apply Forall_take, Forall_drop).
  assert (Hl : length (take 8 (drop p bs)) = 8%nat) by (rewrite length_take, length_drop; lia).
  pose proof (le_val_range _ Hf) as Hr. rewrite Hl in Hr. rewrite crc32q_spec by done.
  pose proof (le_bytes_val _ Hf) as Hbv. rewrite Hl in Hbv. by rewrite Hbv.
Qed.

Lemma take_8_S n p (bs : list Z) :
  take (8 * S n) (drop p bs) = take 8 (drop p bs) ++ take (8 * n) (drop (p + 8) bs).
Proof.
  replace (8 * S n)%nat with (8 + 8 * n)%nat by lia.
  by rewrite <- take_take_drop, drop_drop.
Qed.

Lemma hw_lanes_ok n p len bs c0 c1 c2 :
  is_u32 c0 → is_u32 c1 → is_u32 c2 → Forall is_u8 bs → (p + 2 * len + 8 * n ≤ length bs)%nat →
  hw_lanes crc32q n p len bs (c0, c1, c2)
  = (crc_bytes c0 (take (8 * n) (drop p bs)), crc_bytes c1 (take (8 * n) (drop (p + len) bs)),
     crc_bytes c2 (take (8 * n) (drop (p + 2 * len) bs))).
Proof using crc32q_spec.
  intros H0 H1 H2 Hb. revert p c0 c1 c2 H0 H1 H2.
  induction n as [|n IH]; intros p c0 c1 c2 H0 H1 H2 Hl; [done|].
  cbn [hw_lanes]. rewrite !quad_ok by (done || lia).
  rewrite IH by ((apply crc_bytes_u32; [done|by apply Forall_take, Forall_drop]) || lia).
  rewrite !take_8_S, !crc_bytes_app.
  replace (p + 8 + len)%nat with (p + len + 8)%nat by lia.
  by replace (p + 8 + 2 * len)%nat with (p + 2 * len + 8)%nat by lia.
Qed.

(** Appending [l]: the operator for zeros moves the checksum past it. *)
Lemma combine c l n :
  length l = n → Z.lxor (steps (8 * n) c) (crc_bytes 0 l) = crc_bytes c l.
Proof. intros <-. rewrite <- (crc_bytes_linear l c 0). by rewrite Z.lxor_0_r. Qed.

Lemma hw_block_ok k c bs :
  (3 ≤ k ≤ 129)%nat → is_u32 c → Forall is_u8 bs → (3 * 2 ^ k ≤ length bs)%nat →
  hw_block crc32q (2 ^ k) (crc32c_zeros (2 ^ Z.of_nat k)) c bs = crc_bytes c (take (3 * 2 ^ k) bs).
Proof using crc32q_spec.
  intros Hk Hc Hb Hl. unfold hw_block.
  assert (E8 : (8 * (2 ^ k / 8) = 2 ^ k)%nat).
  { replace k with (3 + (k - 3))%nat by lia. rewrite Nat.pow_add_r. change (2 ^ 3)%nat with 8%nat.
    rewrite Nat.mul_comm, (Nat.mul_comm 8), Nat.div_mul by lia. done. }
  set (n := (2 ^ k)%nat) in *.
  rewrite hw_lanes_ok, E8 by (done || lia). rewrite !drop_0, !Nat.add_0_l.
  assert (Hf : ∀ p, Forall is_u8 (take n (drop p bs))) by (intros; by apply Forall_take, Forall_drop).
  assert (Hlen : ∀ p, (p + n ≤ length bs)%nat → length (take n (drop p bs)) = n)
    by (intros; rewrite length_take, length_drop; lia).
  pose proof (Hf 0%nat) as Hf0. rewrite drop_0 in Hf0.
  assert (Hc0 : is_u32 (crc_bytes c (take n bs))) by (by apply crc_bytes_u32).
  rewrite (u32_id (crc_bytes c (take n bs))), (crc32c_shift_ok k (crc_bytes c (take n bs)))
    by (done || lia). fold n. rewrite combine by (apply Hlen; lia).
  assert (Hc1 : is_u32 (crc_bytes (crc_bytes c (take n bs)) (take n (drop n bs)))) by (by apply crc_bytes_u32).
  rewrite u32_id, crc32c_shift_ok by (done || lia). fold n. rewrite combine by (apply Hlen; lia).
  rewrite <- !crc_bytes_app. f_equal. replace (2 * n)%nat with (n + n)%nat by lia.
  rewrite <- drop_drop, !take_take_drop. f_equal. lia.
Qed.

Lemma hw_blocks_ok fuel k c bs :
  (3 ≤ k ≤ 129)%nat → is_u32 c → Forall is_u8 bs →
  ∃ l1 l2, bs = l1 ++ l2 ∧
    hw_blocks crc32q fuel (2 ^ k) (crc32c_zeros (2 ^ Z.of_nat k)) c bs = (crc_bytes c l1, l2).
Proof using crc32q_spec.
  intros Hk. revert c bs. induction fuel as [|fuel IH]; intros c bs Hc Hb; cbn [hw_blocks];
    [by exists [], bs|].
  case_decide as Hl; [|by exists [], bs]. rewrite hw_block_ok by done.
  destruct (IH (crc_bytes c (take (3 * 2 ^ k) bs)) (drop (3 * 2 ^ k) bs)) as (l1&l2&E&->);
    [by apply crc_bytes_u32, Forall_take|by apply Forall_drop|].
  exists (take (3 * 2 ^ k) bs ++ l1), l2. rewrite <- app_assoc, <- E, take_drop, crc_bytes_app. done.
Qed.

Lemma hw_quads_ok n c bs :
  is_u32 c → Forall is_u8 bs → (8 * n ≤ length bs)%nat →
  ∃ l1 l2, bs = l1 ++ l2 ∧ hw_quads crc32q n c bs = (crc_bytes c l1, l2).
Proof using crc32q_spec.
  revert c bs. induction n as [|n IH]; intros c bs Hc Hb Hl; cbn [hw_quads]; [by exists [], bs|].
  rewrite quad_ok, drop_0 by (done || lia).
  destruct (IH (crc_bytes c (take 8 bs)) (drop 8 bs)) as (l1&l2&E&->);
    [by apply crc_bytes_u32, Forall_take|by apply Forall_drop|rewrite length_drop; lia|].
  exists (take 8 bs ++ l1), l2. rewrite <- app_assoc, <- E, take_drop, crc_bytes_app. done.
Qed.

Lemma hw_bytes_ok bs c : is_u32 c → Forall is_u8 bs → foldl crc32b c bs = crc_bytes c bs.
Proof using crc32b_spec.
  intros Hc Hb. revert c Hc. induction Hb as [|b bs Hb _ IH]; intros c Hc; [done|].
  simpl. rewrite crc32b_spec by done. by apply IH, crc_byte_u32.
Qed.

(** The three-way interleaved routine computes the bit-by-bit CRC-32C. *)
Lemma crc32c_hw_ok addr crci buf :
  is_u32 crci → Forall is_u8 buf → crc32c_hw crc32b crc32q addr crci buf = crc32c_ref crci buf.
Proof using crc32b_spec crc32q_spec.
  intros Hc Hb. unfold crc32c_hw, crc32c_ref.
  assert (EL : LONG = (2 ^ 13)%nat) by (by vm_compute).
  assert (ES : SHORT = (2 ^ 8)%nat) by (by vm_compute).
  pose proof (lxor_ones_u32 _ Hc) as Hc0. set (c := Z.lxor crci 0xffffffff) in *.
  assert (Hm : Forall is_u8 (take (misaligned addr) buf)) by (by apply Forall_take).
  assert (Hr : Forall is_u8 (drop (misaligned addr) buf)) by (by apply Forall_drop).
  rewrite hw_bytes_ok by done. set (c1 := crc_bytes c _).
  assert (Hc1 : is_u32 c1) by (by apply crc_bytes_u32).
  rewrite EL, (Nat2Z.inj_pow 2 13). change (Z.of_nat 2) with 2.
  destruct (hw_blocks_ok (length (drop (misaligned addr) buf)) 13 c1 _ ltac:(lia) Hc1 Hr)
    as (l1&r1&E1&->).
  rewrite E1 in Hr. apply Forall_app in Hr as [Hl1 Hr1].
  assert (Hc2 : is_u32 (crc_bytes c1 l1)) by (by apply crc_bytes_u32).
  rewrite ES, (Nat2Z.inj_pow 2 8). change (Z.of_nat 2) with 2.
  destruct (hw_blocks_ok (length r1) 8 _ _ ltac:(lia) Hc2 Hr1) as (l2&r2&E2&->).
  rewrite E2 in Hr1. apply Forall_app in Hr1 as [Hl2 Hr2].
  assert (Hc3 : is_u32 (crc_bytes (crc_bytes c1 l1) l2)) by (by apply crc_bytes_u32).
  destruct (hw_quads_ok (length r2 / 8) _ r2 Hc3 Hr2) as (l3&r3&E3&->).
  { apply Nat.Div0.mul_div_le. }
  rewrite E3 in Hr2. apply Forall_app in Hr2 as [Hl3 Hr3].
  assert (Hc4 : is_u32 (crc_bytes (crc_bytes (crc_bytes c1 l1) l2) l3)) by (by apply crc_bytes_u32).
  rewrite hw_bytes_ok, finish_u32 by (done || by apply crc_bytes_u32).
  unfold c1. rewrite <- !crc_bytes_app. by rewrite <- E3, <- E2, <- E1, take_drop.
Qed.

End HardwareFacts.

(** The slicing-by-eight software routine computes the bit-by-bit CRC-32C. *)
Lemma crc32c_sw_ok addr crci buf :
  is_u32 crci → Forall is_u8 buf → crc32c_sw addr crci buf = crc32c_ref crci buf.
Proof.
  intros Hc Hb. unfold crc32c_sw, crc32c_ref. pose proof (lxor_ones_u32 _ Hc) as Hc0.
  set (c := Z.lxor crci 0xffffffff) in *.
  assert (Hm : Forall is_u8 (take (misaligned addr) buf)) by (by apply Forall_take).
  assert (Hr : Forall is_u8 (drop (misaligned addr) buf)) by (by apply Forall_drop).
  rewrite sw_bytes_ok by done. set (c1 := crc_bytes c _).
  assert (Hc1 : is_u32 c1) by (by apply crc_bytes_u32).
  destruct (sw_quads_ok (length (drop (misaligned addr) buf)) c1 _ Hc1 Hr) as (l1&l2&E&->).
  rewrite E in Hr. apply Forall_app in Hr as [Hl1 Hl2].
  assert (Hc2 : is_u32 (crc_bytes c1 l1)) by (by apply crc_bytes_u32).
  rewrite sw_bytes_ok, finish_u32 by (done || by apply crc_bytes_u32).
  unfold c1. rewrite <- !crc_bytes_app. by rewrite <- E, take_drop.
Qed.

(** The checksum can be computed piecewise. *)
Lemma crc32c_ref_app crci l1 l2 :
  crc32c_ref (crc32c_ref crci l1) l2 = crc32c_ref crci (l1 ++ l2).
Proof.
  unfold crc32c_ref. rewrite Z.lxor_assoc, Z.lxor_nilpotent, Z.lxor_0_r. by rewrite crc_bytes_app.
Qed.

Lemma crc32c_ref_u32 crci l : is_u32 crci → Forall is_u8 l → is_u32 (crc32c_ref crci l).
Proof. intros. by apply lxor_ones_u32, crc_bytes_u32; [apply lxor_ones_u32|]. Qed.

(** What the block stores and the nodes of the tree rely on. *)
Class Crc32cImpl (impl : crc32c_impl_t) : Prop :=
  crc_impl_ok : ∀ addr crci buf, is_u32 crci → Forall is_u8 buf → impl addr crci buf = crc32c_ref crci buf.

#[export] Instance crc32c_sw_impl : Crc32cImpl crc32c_sw.
Proof. exact crc32c_sw_ok. Qed.

(** ** Properties *)

(** C37: whichever implementation is selected, by the hint or by the
    processor, computes the bit-by-bit CRC-32C for every initial value, every
    buffer and every alignment of it, given that the two [crc32] instructions
    do what the processor's manual says. *)
Theorem crc32c_implementations_correct crc32b crc32q ecx hint addr crci buf :
  (∀ c b, is_u32 c → is_u8 b → crc32b c b = crc_byte c b) →
  (∀ c q, is_u32 c → is_u64 q → crc32q c q = crc_bytes c (le_bytes 8 q)) →
  is_u32 crci → Forall is_u8 buf →
  chose_crc32c_implementation crc32b crc32q ecx hint addr crci buf = crc32c_ref crci buf.
Proof.
  intros Hb Hq Hc Hbuf. unfold chose_crc32c_implementation.
  destruct hint; [destruct (hardwared_crc32c_available ecx)|..]; auto using crc32c_sw_ok, crc32c_hw_ok.
Qed.

(** The hypotheses hold for the instructions written out bit by bit. *)
Lemma crc32c_implementations_correct_witness :
  chose_crc32c_implementation crc_byte (λ c q, crc_bytes c (le_bytes 8 q)) (2 ^ 20) DETECT 3 0
    [49; 50; 51; 52; 53; 54; 55; 56; 57] = crc32c_ref 0 [49; 50; 51; 52; 53; 54; 55; 56; 57].
Proof.
  apply (crc32c_implementations_correct crc_byte (λ c q, crc_bytes c (le_bytes 8 q)));
    [done|done|by unfold is_u32|]. repeat constructor; unfold is_u8; lia.
Defined.

(** The check value of CRC-32C. *)
Example crc32c_check_value : crc32c_sw 0 0 [49; 50; 51; 52; 53; 54; 55; 56; 57] = 0xE3069283.
Proof. vm_compute. reflexivity. Qed.
