(* ===== verification/Volume.v ===== *)
(** * Volumes (volume.h/.cc: [Volume], [MetaVolume]; volume_registry.h)

    A volume is a file of 4 KiB blocks, appended through the file descriptor
    and read through a mapping of the same file.  The meta-volume keeps the
    counters of every volume in a write buffer and mirrors each change to the
    volume registry, an interface the metadata database implements. *)
From S2P Require Import Prelude Status ByteStream Base128 VByte IOVec.

(** ** [Volume] *)

Record Volume := mkVolume {
  v_file_size : Z;   (* u32, in blocks *)
  v_write_pos : Z;   (* u32, in blocks *)
  v_path : string;
  v_data : list Z;   (* the file *)
}.

(** What [lseek] and [writev] do: succeed, fail to seek, or write only [n]
    bytes. *)
Inductive Io := IoOk | IoSeekError | IoShort (n : nat).

(** The bytes [append_block] gathers: 1 KiB per component, zeros for a
    component that was never allocated. *)
Definition component_image (d : list Z) : list Z :=
  match d with [] => blank | _ => take COMPONENT_SIZE d end.
Definition image (b : IOVecBlock) : list Z := data_ b ≫= component_image.

(** [memcpy] into the file; [None] is out of bounds. *)
Definition write_file (offset : nat) (bs data : list Z) : option (list Z) :=
  if decide (offset + length bs ≤ length data)%nat
  then Some (take offset data ++ bs ++ drop (offset + length bs) data) else None.
Definition read_file (offset n : nat) (data : list Z) : option (list Z) :=
  if decide (offset + n ≤ length data)%nat then Some (take n (drop offset data)) else None.

Module Vol.

Definition set (p : Z) (d : list Z) (v : Volume) : Volume :=
  mkVolume (v_file_size v) p (v_path v) d.

(** [write_pos_ * FASTSTDB_BLOCK_SIZE] is computed in [u32]. *)
Definition offset (ix : Z) : nat := Z.to_nat (u32 (ix * Z.of_nat FASTSTDB_BLOCK_SIZE)).

(** [open_existing(path, pos)] of a file with contents [data]. *)
Definition open_existing (path : string) (pos : Z) (data : list Z) : Volume :=
  mkVolume (u32 (Z.of_nat (length data / FASTSTDB_BLOCK_SIZE))) (u32 pos) path data.

(** [create_new(path, capacity)]: the new file. *)
Definition create_new (capacity : Z) : list Z :=
  replicate (Z.to_nat capacity * FASTSTDB_BLOCK_SIZE) 0.

Definition reset (v : Volume) : Volume := set 0 (v_data v) v.
Definition get_size (v : Volume) : Z := v_file_size v.
Definition get_path (v : Volume) : string := v_path v.

(** [append_block] of 4096 raw bytes. *)
Definition append_raw (source : list Z) (v : Volume) : option (Status * Z * Volume) :=
  if decide (v_file_size v ≤ v_write_pos v) then Some (kOverflow, 0, v) else
  d ← write_file (offset (v_write_pos v)) (take FASTSTDB_BLOCK_SIZE source) (v_data v);
  Some (kOk, v_write_pos v, set (u32 (v_write_pos v + 1)) d v).

(** [append_block] of an [IOVecBlock]. *)
Definition append_block (io : Io) (source : IOVecBlock) (v : Volume) : option (Status * Z * Volume) :=
  if decide (v_file_size v ≤ v_write_pos v) then Some (kOverflow, 0, v) else
  match io with
  | IoSeekError => Some (kFileSeekError, 0, v)
  | IoShort n =>
    d ← write_file (offset (v_write_pos v)) (take n (image source)) (v_data v);
    Some (kFileWriteError, 0, set (v_write_pos v) d v)
  | IoOk =>
    d ← write_file (offset (v_write_pos v)) (image source) (v_data v);
    Some (kOk, v_write_pos v, set (u32 (v_write_pos v + 1)) d v)
  end.

(** [read_block(ix, dest)] and [read_block_zero_copy(ix)]: the bytes. *)
Definition read_block (ix : Z) (v : Volume) : option (Status * list Z) :=
  if decide (v_write_pos v ≤ ix) then Some (kOverflow, []) else
  bs ← read_file (offset ix) FASTSTDB_BLOCK_SIZE (v_data v); Some (kOk, bs).

(** [read_block(ix)]: a block of one component. *)
Definition read_iovec (ix : Z) (v : Volume) : option (Status * IOVecBlock) :=
  '(st, bs) ← read_block ix v;
  let block := IOVec.make_allocated in
  Some (st, if decide (st = kOk) then IOVec.set_data (bs :: replicate 3 []) block else block).

End Vol.

(** ** Proofs about volumes *)

(** A volume whose file is as long as its header says, with fewer than 2^20
    blocks, so that offsets do not wrap. *)
Record vol_inv (v : Volume) : Prop := {
  vi_size : 0 ≤ v_file_size v ≤ 2 ^ 20;
  vi_data : length (v_data v) = (Z.to_nat (v_file_size v) * FASTSTDB_BLOCK_SIZE)%nat;
  vi_pos : 0 ≤ v_write_pos v ≤ v_file_size v;
}.

(** Block [ix] of a file. *)
Definition block_at (ix : Z) (data : list Z) : list Z :=
  take FASTSTDB_BLOCK_SIZE (drop (Z.to_nat ix * FASTSTDB_BLOCK_SIZE) data).

Lemma block_size_Z : Z.of_nat FASTSTDB_BLOCK_SIZE = 4096.
Proof. rewrite block_size_eq, component_eq. done. Qed.

Lemma offset_small ix : 0 ≤ ix < 2 ^ 20 → Vol.offset ix = (Z.to_nat ix * FASTSTDB_BLOCK_SIZE)%nat.
Proof.
  intros Hix. unfold Vol.offset. rewrite block_size_Z, u32_id by (unfold is_u32; lia).
  rewrite Z2Nat.inj_mul by lia. by rewrite <- block_size_Z, Nat2Z.id.
Qed.

(** The block every component of which is allocated or missing as a whole. *)
Definition block_ok (b : IOVecBlock) : Prop :=
  length (data_ b) = NCOMPONENTS ∧
  Forall (λ d, d = [] ∨ (COMPONENT_SIZE ≤ length d)%nat) (data_ b).

Lemma length_image b : block_ok b → length (image b) = FASTSTDB_BLOCK_SIZE.
Proof.
  intros [Hl Hf]. rewrite block_size_eq. unfold image, NCOMPONENTS in *. revert Hl.
  assert (∀ l, Forall (λ d : list Z, d = [] ∨ (COMPONENT_SIZE ≤ length d)%nat) l →
    length (l ≫= component_image) = (COMPONENT_SIZE * length l)%nat) as Hgen.
  { clear b Hf. induction 1 as [|d l Hd _ IH]; [by rewrite Nat.mul_0_r|].
    cbn [mbind list_bind length]. rewrite length_app, IH.
    assert (length (component_image d) = COMPONENT_SIZE) as ->; [|lia].
    destruct Hd as [->|Hd]; [apply length_blank|]. pose proof component_pos.
    destruct d; [simpl in Hd; lia|]. unfold component_image. rewrite length_take. lia. }
  intros Hl. by rewrite (Hgen _ Hf), Hl.
Qed.

Lemma iov_block_ok b : iov_inv b → block_ok b.
Proof.
  intros [full Hb]. unfold block_ok. rewrite (sh_data _ _ Hb). pose proof (sh_len _ _ Hb).
  split; [rewrite length_app, length_replicate; lia|]. apply Forall_app. split.
  - eapply Forall_impl; [apply (sh_full _ _ Hb)|]. intros d Hd. right. simpl in Hd. lia.
  - apply Forall_replicate. by left.
Qed.

(** The image of a scattered block starts with its bytes. *)
Lemma image_u8 b : iov_inv b → Forall is_u8 (image b).
Proof.
  intros [full [Ed _ _ _ Hu]]. unfold image. rewrite Ed, bind_app. apply Forall_app. split; apply Forall_bind.
  - eapply Forall_impl; [exact Hu|]. intros d Hd. destruct d; [apply blank_u8|]. by apply Forall_take.
  - apply Forall_replicate, blank_u8.
Qed.

Lemma image_flat b : iov_inv b → take (length (flat b)) (image b) = flat b.
Proof.
  intros [full Hb]. rewrite (flat_shape _ _ Hb). unfold image. rewrite (sh_data _ _ Hb), bind_app.
  assert (full ≫= component_image = concat full) as ->; [|by rewrite take_app_length].
  pose proof (sh_full _ _ Hb) as Hf. clear Hb. induction Hf as [|d full Hd _ IH]; [done|].
  cbn [mbind list_bind concat]. rewrite IH. f_equal. pose proof component_pos.
  destruct d; [simpl in Hd; lia|]. unfold component_image. rewrite <- Hd. by apply take_ge.
Qed.

Lemma write_block_at (data bs : list Z) ix n :
  length data = (n * FASTSTDB_BLOCK_SIZE)%nat → length bs = FASTSTDB_BLOCK_SIZE → 0 ≤ ix < Z.of_nat n →
  ∃ data', write_file (Z.to_nat ix * FASTSTDB_BLOCK_SIZE) bs data = Some data' ∧
    length data' = length data ∧ block_at ix data' = bs ∧
    ∀ j, 0 ≤ j → j ≠ ix → block_at j data' = block_at j data.
Proof.
  intros Hl Hb Hix. unfold write_file, block_at. set (o := (Z.to_nat ix * FASTSTDB_BLOCK_SIZE)%nat).
  assert (Ho : (o + FASTSTDB_BLOCK_SIZE ≤ length data)%nat) by (unfold o; nia).
  rewrite Hb, decide_True by done. eexists. split; [done|].
  assert (Hlo : length (take o data) = o) by (rewrite length_take; lia).
  split_and!.
  - rewrite !length_app, length_drop, Hlo. lia.
  - rewrite drop_app_length' by done. by rewrite take_app_length'.
  - intros j Hj Hne. set (p := (Z.to_nat j * FASTSTDB_BLOCK_SIZE)%nat).
    destruct (decide (p + FASTSTDB_BLOCK_SIZE ≤ o)%nat) as [Hlt|Hge].
    + rewrite drop_app_le, take_app_le by (rewrite ?length_drop; lia).
      rewrite skipn_firstn_comm, take_take. f_equal. lia.
    + assert (o + FASTSTDB_BLOCK_SIZE ≤ p)%nat by (unfold o, p in *; nia).
      rewrite drop_app_ge, Hlo, drop_app_ge, Hb, drop_drop by lia. do 2 f_equal. lia.
Qed.

(** ** Properties *)

Lemma read_block_ok v ix :
  vol_inv v → 0 ≤ ix < v_write_pos v → Vol.read_block ix v = Some (kOk, block_at ix (v_data v)).
Proof.
  intros [Hsz Hd Hp] Hix. unfold Vol.read_block. rewrite decide_False by lia.
  rewrite offset_small by lia. unfold read_file. rewrite decide_True by (rewrite Hd; nia). done.
Qed.

(** A successful append, on the file. *)
Lemma vol_append_ok v b :
  vol_inv v → block_ok b → v_write_pos v < v_file_size v →
  ∃ d, Vol.append_block IoOk b v = Some (kOk, v_write_pos v, Vol.set (v_write_pos v + 1) d v) ∧
    vol_inv (Vol.set (v_write_pos v + 1) d v) ∧ block_at (v_write_pos v) d = image b ∧
    ∀ ix, 0 ≤ ix → ix ≠ v_write_pos v → block_at ix d = block_at ix (v_data v).
Proof.
  intros [Hsz Hd Hp] Hb Hlt. unfold Vol.append_block. rewrite decide_False by lia.
  rewrite offset_small by lia.
  destruct (write_block_at (v_data v) (image b) (v_write_pos v) (Z.to_nat (v_file_size v)) Hd)
    as (d&->&Hl&Hat&Hother); [by apply length_image|lia|].
  cbn [mbind option_bind]. exists d. rewrite u32_id by (unfold is_u32; lia).
  split_and!; try done. constructor; simpl; [done|by rewrite Hl|lia].
Qed.

(** ** Properties *)

(** While a volume has free blocks, a successful [append_block]
    returns the old write position as the address; reading that address
    returns the block, every block appended before reads as before, and the
    invariant is kept.  A full volume answers [Overflow] and is unchanged, and
    no read or write leaves the file. *)
Theorem volume_append_read v b :
  vol_inv v → block_ok b →
  if decide (v_write_pos v < v_file_size v) then
    ∃ v', Vol.append_block IoOk b v = Some (kOk, v_write_pos v, v') ∧ vol_inv v' ∧
      Vol.read_block (v_write_pos v) v' = Some (kOk, image b) ∧
      ∀ ix, 0 ≤ ix < v_write_pos v → Vol.read_block ix v' = Vol.read_block ix v
  else Vol.append_block IoOk b v = Some (kOverflow, 0, v).
Proof.
  intros Hv Hb. pose proof (vi_pos _ Hv). case_decide as Hlt.
  - destruct (vol_append_ok v b Hv Hb Hlt) as (d&E&Hv'&Hat&Hother). eexists. split_and!; [done..| |].
    + rewrite read_block_ok by (done || simpl; lia). simpl. by rewrite Hat.
    + intros ix Hix. rewrite !read_block_ok by (done || simpl; lia). simpl. by rewrite Hother by lia.
  - unfold Vol.append_block. by rewrite decide_True by lia.
Qed.

(** The byte offset of a block is computed in 32 bits, so a volume
    of more than 2^20 blocks (4 GiB) loses data: appending the block with index
    2^20 succeeds and overwrites block 0, whatever that held. *)
Theorem volume_offset_wraps v b :
  v_write_pos v = 2 ^ 20 → 2 ^ 20 < v_file_size v → block_ok b →
  length (v_data v) = (Z.to_nat (v_file_size v) * FASTSTDB_BLOCK_SIZE)%nat →
  ∃ v', Vol.append_block IoOk b v = Some (kOk, 2 ^ 20, v') ∧
        Vol.read_block 0 v' = Some (kOk, image b).
Proof.
  intros Hp Hsz Hb Hd. unfold Vol.append_block. rewrite Hp, decide_False by lia.
  assert (Vol.offset (2 ^ 20) = (Z.to_nat 0 * FASTSTDB_BLOCK_SIZE)%nat) as ->.
  { unfold Vol.offset. rewrite block_size_Z. done. }
  destruct (write_block_at (v_data v) (image b) 0 (Z.to_nat (v_file_size v)) Hd)
    as (d&->&Hl&Hat&_); [by apply length_image|lia|].
  cbn [mbind option_bind]. eexists. split; [done|]. unfold Vol.read_block. simpl v_write_pos.
  rewrite u32_id, decide_False by (unfold is_u32; lia). unfold read_file. simpl v_data.
  assert (Vol.offset 0 = 0%nat) as ->.
  { unfold Vol.offset. rewrite block_size_Z. done. }
  rewrite decide_True.
  - cbn [mbind option_bind]. rewrite <- Hat. done.
  - rewrite Hl, Hd. nia.
Qed.

Lemma volume_append_read_witness :
  ∃ v', Vol.append_block IoOk IOVec.make (mkVolume 2 1 "v" (Vol.create_new 2)) = Some (kOk, 1, v') ∧
    Vol.read_block 1 v' = Some (kOk, image IOVec.make).
Proof.
  pose proof (volume_append_read (mkVolume 2 1 "v" (Vol.create_new 2)) IOVec.make) as Hv.
  rewrite decide_True in Hv by done.
  destruct Hv as (v'&E&_&Er&_); [|split; [done|by repeat constructor]|exists v'; split; [exact E|exact Er]].
  constructor; [simpl; lia|apply length_replicate|simpl; lia].
Defined.

Lemma volume_offset_wraps_witness :
  ∃ v', Vol.append_block IoOk IOVec.make (mkVolume (2 ^ 20 + 1) (2 ^ 20) "v" (Vol.create_new (2 ^ 20 + 1)))
          = Some (kOk, 2 ^ 20, v') ∧
        Vol.read_block 0 v' = Some (kOk, image IOVec.make).
Proof.
  apply (volume_offset_wraps (mkVolume (2 ^ 20 + 1) (2 ^ 20) "v" (Vol.create_new (2 ^ 20 + 1))) IOVec.make);
    [reflexivity|reflexivity|split; [done|by repeat constructor]|apply length_replicate].
Defined.
