(* ===== verification/MetaVolume.v ===== *)
(** * The meta-volume (volume.cc, [MetaVolume]; volume_registry.h)

    The write buffer holds one [VolumeRef] per volume; every change of it is
    mirrored to the volume registry.  The registry is an interface that the
    metadata database implements: the meta-volume is modelled, and proved,
    against what the interface promises. *)
From S2P Require Import Prelude Status ByteStream Base128 VByte DataBlock IOVec.

(** [VolumeRegistry::VolumeDesc]; [VolumeRef] has the same fields, with the
    path as a C string. *)
Record VolumeDesc := mkDesc {
  d_id : Z;
  d_path : string;
  d_version : Z;
  d_nblocks : Z;
  d_capacity : Z;
  d_generation : Z;
}.

(** [VolumeRegistry]. *)
Class VolumeRegistry (M : Type) := {
  get_volumes : M → list VolumeDesc;
  reg_add_volume : VolumeDesc → M → M;
  reg_update_volume : VolumeDesc → M → M;
}.

Definition replace_desc (d x : VolumeDesc) : VolumeDesc := if decide (d_id x = d_id d) then d else x.

Class VolumeRegistryLaws (M : Type) `{VolumeRegistry M} := {
  get_add_volume d m : get_volumes (reg_add_volume d m) ≡ₚ get_volumes m ++ [d];
  get_update_volume d m : get_volumes (reg_update_volume d m) ≡ₚ replace_desc d <$> get_volumes m;
}.

(** A registry that is a list. *)
#[export] Instance list_registry : VolumeRegistry (list VolumeDesc) := {
  get_volumes m := m;
  reg_add_volume d m := m ++ [d];
  reg_update_volume d m := replace_desc d <$> m;
}.

#[export] Instance list_registry_laws : VolumeRegistryLaws (list VolumeDesc).
Proof. by split. Qed.

Module MetaVolume.

Record t (M : Type) := mk { refs : list VolumeDesc; meta_ : M }.
Arguments mk {M} _ _.
Arguments refs {M} _.
Arguments meta_ {M} _.

(** [sizeof(VolumeRef)]. *)
Definition REF_SIZE : nat := 20.

(** What is read back from a [char] array: the bytes before the first NUL. *)
Fixpoint c_str (s : string) : string :=
  match s with
  | EmptyString => EmptyString
  | String c s => if decide (c = Ascii.zero) then EmptyString else String c (c_str s)
  end.

(** A zeroed block of the buffer. *)
Definition empty_ref : VolumeDesc := mkDesc 0 EmptyString 0 0 0 0.

(** The [VolumeRef] of a buffer block, by byte offset [id * BLOCK_SIZE] in
    32 bits. *)
Definition slot (id : Z) : nat := Z.to_nat (u32 (id * Z.of_nat FASTSTDB_BLOCK_SIZE) / Z.of_nat FASTSTDB_BLOCK_SIZE).

Definition volcpy (desc : VolumeDesc) : VolumeDesc :=
  mkDesc (d_id desc) (c_str (d_path desc)) (d_version desc) (d_nblocks desc) (d_capacity desc)
         (d_generation desc).

(** The loop of the constructor; a duplicate id is [LOG(FATAL)], an id outside
    the buffer is out of bounds. *)
Fixpoint load_refs (vols : list VolumeDesc) (seen : list Z) (refs : list VolumeDesc)
    : option (list VolumeDesc) :=
  match vols with
  | [] => Some refs
  | vol :: vols =>
    if decide (d_id vol ∈ seen) then None else
    if decide (slot (d_id vol) < length refs)%nat
    then load_refs vols (d_id vol :: seen) (<[slot (d_id vol) := volcpy vol]> refs)
    else None
  end.

(** The assignments of the setters. *)
Definition with_nblocks (x : Z) (p : VolumeDesc) : VolumeDesc :=
  mkDesc (d_id p) (d_path p) (d_version p) x (d_capacity p) (d_generation p).
Definition with_capacity (x : Z) (p : VolumeDesc) : VolumeDesc :=
  mkDesc (d_id p) (d_path p) (d_version p) (d_nblocks p) x (d_generation p).
Definition with_generation (x : Z) (p : VolumeDesc) : VolumeDesc :=
  mkDesc (d_id p) (d_path p) (d_version p) (d_nblocks p) (d_capacity p) x.

Section Ops.
Context {M : Type} `{VolumeRegistry M}.

Definition open_existing (meta : M) : option (t M) :=
  let volumes := get_volumes meta in
  r ← load_refs volumes [] (replicate (length volumes) empty_ref);
  Some (mk r meta).

Definition get_nvolumes (mv : t M) : nat := length (refs mv).

(** [id < file_size_ / FASTSTDB_BLOCK_SIZE], then the [VolumeRef]. *)
Definition get_volref (id : Z) (mv : t M) : option VolumeDesc :=
  if decide (id < Z.of_nat (length (refs mv))) then refs mv !! slot id else None.

Definition get_field (f : VolumeDesc → Z) (id : Z) (mv : t M) : Status * Z :=
  match get_volref id mv with Some pvol => (kOk, f pvol) | None => (kOutOfRange, 0) end.

Definition get_nblocks (id : Z) (mv : t M) : Status * Z := get_field d_nblocks id mv.
Definition get_capacity (id : Z) (mv : t M) : Status * Z := get_field d_capacity id mv.
Definition get_generation (id : Z) (mv : t M) : Status * Z := get_field d_generation id mv.

(** Writing the terminating NUL of a path of exactly [BLOCK_SIZE -
    sizeof(VolumeRef)] bytes is out of bounds. *)
Definition add_volume (id capacity : Z) (path : string) (mv : t M) : option (Status * t M) :=
  let room := (FASTSTDB_BLOCK_SIZE - REF_SIZE)%nat in
  if decide (room < String.length path)%nat then Some (kBadArg, mv) else
  if decide (String.length path = room) then None else
  let vol := mkDesc id path FASTSTDB_VERSION 0 capacity id in
  Some (kOk, mk (refs mv ++ [volcpy vol]) (reg_add_volume vol (meta_ mv))).

(** Change a [VolumeRef] and send it to the registry. *)
Definition modify (f : VolumeDesc → VolumeDesc) (id : Z) (mv : t M) : Status * t M :=
  match get_volref id mv with
  | None => (kOutOfRange, mv)
  | Some pvol =>
    let pvol := f pvol in
    (kOk, mk (<[slot id := pvol]> (refs mv)) (reg_update_volume pvol (meta_ mv)))
  end.

Definition update (id nblocks capacity gen : Z) (mv : t M) : Status * t M :=
  modify (λ p, mkDesc (d_id p) (d_path p) (d_version p) nblocks capacity gen) id mv.
Definition set_nblocks (id nblocks : Z) (mv : t M) : Status * t M := modify (with_nblocks nblocks) id mv.
Definition set_capacity (id cap : Z) (mv : t M) : Status * t M := modify (with_capacity cap) id mv.
Definition set_generation (id gen : Z) (mv : t M) : Status * t M := modify (with_generation gen) id mv.

End Ops.

(** ** Invariant: buffer and registry agree *)

Lemma c_str_idem s : c_str (c_str s) = c_str s.
Proof. induction s as [|c s IH]; simpl; [done|]. case_decide; simpl; [done|]. rewrite decide_False by done. by rewrite IH. Qed.

Lemma slot_small id : 0 ≤ id < 2 ^ 20 → slot id = Z.to_nat id.
Proof.
  intros Hid. unfold slot. rewrite block_size_eq, component_eq. change (Z.of_nat (1024 * 4)) with 4096.
  rewrite u32_id by (unfold is_u32; lia). by rewrite Z.div_mul.
Qed.

Section Invariant.
Context {M : Type} `{VolumeRegistryLaws M}.

(** Slot [i] describes volume [i], and the registry holds the same
    descriptions. *)
Record synced (mv : t M) : Prop := {
  sy_count : Z.of_nat (length (refs mv)) ≤ 2 ^ 20;
  sy_id i d : refs mv !! i = Some d → d_id d = Z.of_nat i;
  sy_registry : get_volumes (meta_ mv) ≡ₚ refs mv;
}.

Lemma get_volref_ok id mv :
  synced mv → 0 ≤ id → get_volref id mv = refs mv !! Z.to_nat id.
Proof.
  intros Hs Hid. pose proof (sy_count _ Hs). unfold get_volref. case_decide.
  - by rewrite slot_small by lia.
  - symmetry. apply lookup_ge_None. lia.
Qed.

Lemma replace_refs (l : list VolumeDesc) i d :
  (∀ j x, l !! j = Some x → d_id x = Z.of_nat j) → d_id d = Z.of_nat i → (i < length l)%nat →
  replace_desc d <$> l = <[i := d]> l.
Proof.
  intros Hl Hd Hi. apply list_eq. intros j. rewrite list_lookup_fmap.
  destruct (decide (j = i)) as [->|Hne].
  - rewrite list_lookup_insert_eq by done. destruct (lookup_lt_is_Some_2 l i Hi) as [x Hx].
    rewrite Hx. simpl. unfold replace_desc. by rewrite (Hl _ _ Hx), Hd, decide_True.
  - rewrite list_lookup_insert_ne by done. destruct (l !! j) as [x|] eqn:Hx; [|done]. simpl.
    unfold replace_desc. rewrite (Hl _ _ Hx), Hd, decide_False by lia. done.
Qed.

(** Every setter is [modify] with a function that keeps the id. *)
Lemma modify_ok f id mv d :
  synced mv → (∀ x, d_id (f x) = d_id x) → refs mv !! Z.to_nat id = Some d → 0 ≤ id →
  ∃ mv', modify f id mv = (kOk, mv') ∧ synced mv' ∧ refs mv' = <[Z.to_nat id := f d]> (refs mv).
Proof.
  intros Hs Hf Hd Hid. pose proof (sy_count _ Hs). pose proof (lookup_lt_Some _ _ _ Hd) as Hlt.
  unfold modify. rewrite get_volref_ok, Hd by done. rewrite slot_small by lia.
  eexists. split_and!; [done| |done].
  assert (Hfd : d_id (f d) = Z.of_nat (Z.to_nat id)) by (by rewrite Hf, (sy_id _ Hs _ _ Hd)).
  constructor; simpl.
  - by rewrite length_insert.
  - intros i x. destruct (decide (i = Z.to_nat id)) as [->|Hne].
    + rewrite list_lookup_insert_eq by done. by intros [= <-].
    + rewrite list_lookup_insert_ne by done. apply (sy_id _ Hs).
  - rewrite get_update_volume, (sy_registry _ Hs). by erewrite replace_refs by (done || apply (sy_id _ Hs)).
Qed.

Lemma modify_out f id mv :
  synced mv → Z.of_nat (length (refs mv)) ≤ id → modify f id mv = (kOutOfRange, mv).
Proof.
  intros Hs Hid. unfold modify. rewrite get_volref_ok by (done || lia).
  rewrite lookup_ge_None_2 by lia. done.
Qed.

Lemma get_field_ok f id mv d :
  synced mv → refs mv !! Z.to_nat id = Some d → 0 ≤ id → get_field f id mv = (kOk, f d).
Proof. intros Hs Hd Hid. unfold get_field. by rewrite get_volref_ok, Hd. Qed.

Lemma add_volume_ok id cap path mv :
  synced mv → id = Z.of_nat (length (refs mv)) → id < 2 ^ 20 →
  (String.length path < FASTSTDB_BLOCK_SIZE - REF_SIZE)%nat → c_str path = path →
  ∃ mv', add_volume id cap path mv = Some (kOk, mv') ∧ synced mv' ∧
    refs mv' = refs mv ++ [mkDesc id path FASTSTDB_VERSION 0 cap id].
Proof.
  intros Hs -> Hid Hp Hc. unfold add_volume. rewrite !decide_False by lia.
  eexists. split_and!; [done| |by unfold volcpy; simpl; rewrite Hc]. constructor; simpl.
  - rewrite length_app. simpl. lia.
  - intros i x. rewrite lookup_app_Some. intros [Hx|[Hge Hx]]; [by apply (sy_id _ Hs)|].
    apply list_lookup_singleton_Some in Hx as [Hz <-]. simpl. lia.
  - rewrite get_add_volume, (sy_registry _ Hs). unfold volcpy. simpl. by rewrite Hc.
Qed.

(** ** Opening *)

Lemma load_refs_ok vols seen r0 :
  NoDup (d_id <$> vols) → (∀ v, v ∈ vols → d_id v ∉ seen) →
  (∀ v, v ∈ vols → 0 ≤ d_id v < Z.of_nat (length r0)) → Z.of_nat (length r0) ≤ 2 ^ 20 →
  ∃ r, load_refs vols seen r0 = Some r ∧ length r = length r0 ∧
    (∀ v, v ∈ vols → r !! Z.to_nat (d_id v) = Some (volcpy v)) ∧
    (∀ i, (∀ v, v ∈ vols → Z.to_nat (d_id v) ≠ i) → r !! i = r0 !! i).
Proof.
  revert seen r0. induction vols as [|v vols IH]; intros seen r0 Hnd Hseen Hr Hn; simpl.
  { exists r0. split_and!; try done. intros v Hv. by apply not_elem_of_nil in Hv. }
  apply NoDup_cons in Hnd as [Hv Hnd]. pose proof (Hr v ltac:(by left)) as Hvr.
  rewrite decide_False by (apply Hseen; by left). rewrite slot_small, decide_True by lia.
  assert (Hfresh : ∀ w, w ∈ vols → d_id w ≠ d_id v).
  { intros w Hw E. apply Hv. rewrite <- E. by apply list_elem_of_fmap_2. }
  destruct (IH (d_id v :: seen) (<[Z.to_nat (d_id v) := volcpy v]> r0)) as (r&->&Hl&Hin&Hout); try done.
  - intros w Hw. rewrite not_elem_of_cons. split; [by apply Hfresh|apply Hseen; by right].
  - intros w Hw. rewrite length_insert. apply Hr. by right.
  - by rewrite length_insert.
  - rewrite length_insert in Hl. exists r. split_and!; [done|done| |].
    + intros w [->|Hw]%elem_of_cons; [|by apply Hin].
      rewrite Hout; [by rewrite list_lookup_insert_eq by lia|].
      intros w Hw E. apply (Hfresh w Hw). pose proof (Hr w ltac:(by right)). lia.
    + intros i Hi. rewrite Hout by (intros w Hw; apply Hi; by right).
      apply list_lookup_insert_ne. apply Hi. by left.
Qed.

Lemma open_existing_ok (m : M) n :
  d_id <$> get_volumes m ≡ₚ Z.of_nat <$> seq 0 n → Z.of_nat n ≤ 2 ^ 20 →
  Forall (λ d, c_str (d_path d) = d_path d) (get_volumes m) →
  ∃ mv, open_existing m = Some mv ∧ synced mv ∧ length (refs mv) = n ∧ meta_ mv = m.
Proof.
  intros Hids Hn Hpath.
  assert (Hlen : length (get_volumes m) = n).
  { apply Permutation_length in Hids. rewrite !length_fmap, length_seq in Hids. done. }
  assert (Hnd : NoDup (d_id <$> get_volumes m)).
  { rewrite Hids. apply NoDup_fmap_2; [apply _|apply NoDup_seq]. }
  assert (Hrange : ∀ v, v ∈ get_volumes m → 0 ≤ d_id v < Z.of_nat n).
  { intros v Hv. assert (d_id v ∈ Z.of_nat <$> seq 0 n) as Hin.
    { rewrite <- Hids. by apply list_elem_of_fmap_2. }
    apply list_elem_of_fmap in Hin as (i&->&Hi%elem_of_seq). lia. }
  destruct (load_refs_ok (get_volumes m) [] (replicate n empty_ref) Hnd)
    as (r&E&Hl&Hin&_).
  { intros v _. apply not_elem_of_nil. }
  { by rewrite length_replicate. }
  { by rewrite length_replicate. }
  rewrite length_replicate in Hl. unfold open_existing. rewrite Hlen, E.
  eexists. split_and!; [done| |done|done].
  assert (Hcpy : ∀ v, v ∈ get_volumes m → volcpy v = v).
  { intros v Hv. rewrite Forall_forall in Hpath. unfold volcpy. rewrite (Hpath v Hv). by destruct v. }
  assert (Hslot : ∀ i d, r !! i = Some d → d ∈ get_volumes m ∧ d_id d = Z.of_nat i).
  { intros i d Hd. pose proof (lookup_lt_Some _ _ _ Hd) as Hlt. rewrite Hl in Hlt.
    assert (Z.of_nat i ∈ d_id <$> get_volumes m) as Hi.
    { rewrite Hids. apply list_elem_of_fmap_2. apply elem_of_seq. lia. }
    apply list_elem_of_fmap in Hi as (v&Ev&Hv). pose proof (Hin v Hv) as Hrv.
    rewrite <- Ev, Nat2Z.id, Hd, Hcpy in Hrv by done. injection Hrv as ->. done. }
  constructor; simpl; [lia|intros i d Hd; by apply Hslot|].
  apply NoDup_Permutation.
  - by eapply NoDup_fmap_1.
  - apply NoDup_alt. intros i j d Hi Hj. apply Hslot in Hi as [_ Hi], Hj as [_ Hj]. lia.
  - intros d. split.
    + intros Hd. rewrite list_elem_of_lookup. eexists. rewrite Hin by done. by rewrite Hcpy.
    + intros [i Hi]%list_elem_of_lookup. by apply (Hslot i).
Qed.

End Invariant.
End MetaVolume.

(** ** Properties *)

Section Properties.
Context {M : Type} `{VolumeRegistryLaws M}.
Import MetaVolume.

(** Opening a meta-volume over a registry whose volume ids are
    0..n-1 in any order succeeds, sorts the records by id into the write
    buffer, and the buffer and the registry agree. *)
Theorem metavolume_open (m : M) n :
  d_id <$> get_volumes m ≡ₚ Z.of_nat <$> seq 0 n → Z.of_nat n ≤ 2 ^ 20 →
  Forall (λ d, c_str (d_path d) = d_path d) (get_volumes m) →
  ∃ mv, open_existing m = Some mv ∧ synced mv ∧ get_nvolumes mv = n.
Proof.
  intros Hids Hn Hp. destruct (open_existing_ok m n Hids Hn Hp) as (mv&?&?&?&_). by exists mv.
Qed.

(** Every setter changes exactly the field it names of exactly the
    volume it names, keeps the write buffer and the registry in agreement, and
    answers [OutOfRange] without a change for a volume that does not exist. *)
Theorem metavolume_setters (mv : t M) id x :
  synced mv → 0 ≤ id →
  if decide (id < Z.of_nat (get_nvolumes mv)) then
    ∃ mv1 mv2 mv3,
      set_nblocks id x mv = (kOk, mv1) ∧ set_capacity id x mv = (kOk, mv2) ∧
      set_generation id x mv = (kOk, mv3) ∧ synced mv1 ∧ synced mv2 ∧ synced mv3 ∧
      get_nblocks id mv1 = (kOk, x) ∧ get_capacity id mv1 = get_capacity id mv ∧
      get_generation id mv1 = get_generation id mv ∧
      get_capacity id mv2 = (kOk, x) ∧ get_nblocks id mv2 = get_nblocks id mv ∧
      get_generation id mv3 = (kOk, x) ∧ get_nblocks id mv3 = get_nblocks id mv ∧
      ∀ j f, 0 ≤ j → j ≠ id → get_field f j mv1 = get_field f j mv ∧
        get_field f j mv2 = get_field f j mv ∧ get_field f j mv3 = get_field f j mv
  else set_nblocks id x mv = (kOutOfRange, mv) ∧ set_capacity id x mv = (kOutOfRange, mv) ∧
       set_generation id x mv = (kOutOfRange, mv).
Proof.
  intros Hs Hid. unfold get_nvolumes. case_decide as Hlt.
  - destruct (lookup_lt_is_Some_2 (refs mv) (Z.to_nat id)) as [d Hd]; [lia|].
    assert (Hother : ∀ mv' y f j, synced mv' → refs mv' = <[Z.to_nat id := y]> (refs mv) → 0 ≤ j →
      j ≠ id → get_field f j mv' = get_field f j mv).
    { intros mv' y f j Hs' E Hj Hne. unfold get_field. rewrite !get_volref_ok, E by done.
      rewrite list_lookup_insert_ne by lia. done. }
    destruct (modify_ok (with_nblocks x) id mv d Hs (λ x, eq_refl) Hd Hid) as (mv1&E1&Hs1&R1).
    destruct (modify_ok (with_capacity x) id mv d Hs (λ x, eq_refl) Hd Hid) as (mv2&E2&Hs2&R2).
    destruct (modify_ok (with_generation x) id mv d Hs (λ x, eq_refl) Hd Hid) as (mv3&E3&Hs3&R3).
    exists mv1, mv2, mv3.
    assert (Hat : ∀ mv' y f, synced mv' → refs mv' = <[Z.to_nat id := y]> (refs mv) →
      get_field f id mv' = (kOk, f y)).
    { intros mv' y f Hs' E. apply get_field_ok; [done| |done]. rewrite E.
      apply list_lookup_insert_eq. lia. }
    unfold get_nblocks, get_capacity, get_generation.
    rewrite !(get_field_ok _ id mv d), !(Hat mv1 _ _ Hs1 R1), !(Hat mv2 _ _ Hs2 R2),
      !(Hat mv3 _ _ Hs3 R3) by done.
    split_and!; try done. intros j f Hj Hne. split_and!; by eapply Hother.
  - unfold set_nblocks, set_capacity, set_generation. rewrite !modify_out by (done || lia). done.
Qed.

End Properties.

Lemma metavolume_open_witness :
  ∃ mv, MetaVolume.open_existing [mkDesc 1 "/b" 1 0 4 1; mkDesc 0 "/a" 1 4 4 0] = Some mv ∧
    MetaVolume.synced mv ∧ MetaVolume.get_nvolumes mv = 2%nat.
Proof.
  apply (metavolume_open [mkDesc 1 "/b" 1 0 4 1; mkDesc 0 "/a" 1 4 4 0] 2);
    [apply perm_swap|done|by repeat constructor].
Defined.

Lemma metavolume_setters_witness :
  let mv := MetaVolume.mk [mkDesc 0 "/a" 1 4 4 0] [mkDesc 0 "/a" 1 4 4 0] in
  ∃ mv1, MetaVolume.set_nblocks 0 3 mv = (kOk, mv1) ∧ MetaVolume.get_nblocks 0 mv1 = (kOk, 3).
Proof.
  intros mv. pose proof (metavolume_setters mv 0 3) as Hm. rewrite decide_True in Hm by done.
  destruct Hm as (mv1&_&_&E&_&_&_&_&_&En&_); [|done|exists mv1; split; [exact E|exact En]].
  constructor; [done| |done]. intros [|[|i]] d; simpl; intros [= <-]. done.
Defined.
