(* ===== verification/BlockStore.v ===== *)
(** * Block stores (block_store.h/.cc, common/file_utils.h)

    A block store hands out logical addresses for 4 KiB blocks and finds the
    blocks again.  [FileStorage] keeps them in volumes, a ring that recycles the
    next volume ([FixedSizeFileStorage]) or a list that grows
    ([ExpandableFileStorage]); [MemStore] keeps them in memory; [BlockCache] is
    a direct-mapped cache.  The locks only serialise the operations, which the
    model takes one at a time. *)
From S2P Require Import Prelude Status ByteStream Base128 VByte DataBlock IOVec Volume MetaVolume.

(** ** Logical addresses: generation and block *)

Definition extract_gen (addr : Z) : Z := u32 (Z.shiftr addr 32).
Definition extract_vol (addr : Z) : Z := Z.land addr 0xFFFFFFFF.
Definition make_logic (gen addr : Z) : Z := Z.lor (Z.shiftl gen 32) addr.

(** ** Paths *)

Definition slash : Ascii.ascii := Ascii.ascii_of_nat 47.

(** [GetParentDir]: up to and including the last slash. *)
Fixpoint GetParentDir (s : string) : string :=
  match s with
  | EmptyString => EmptyString
  | String c s =>
    let p := GetParentDir s in
    if decide (p = EmptyString)
    then if decide (c = slash) then String c EmptyString else EmptyString
    else String c p
  end.

(** [std::to_string] of a [u32]: at most ten digits. *)
Fixpoint to_string_fuel (fuel : nat) (n : Z) (acc : string) : string :=
  match fuel with
  | O => acc
  | S fuel =>
    let acc := String (Ascii.ascii_of_nat (48 + Z.to_nat (n mod 10))) acc in
    if decide (n / 10 = 0) then acc else to_string_fuel fuel (n / 10) acc
  end.
Definition to_string (n : Z) : string := to_string_fuel 10 n EmptyString.

(** The path of a new volume beside the volume at [path]. *)
Definition new_volume_path (db_name path : string) (id : Z) : string :=
  (GetParentDir path +:+ (db_name +:+ "_" +:+ to_string id +:+ ".vol"))%string.

(** ** [FileStorage] *)

Inductive StorageKind := FixedSize | Expandable (db_name : string).

Record BlockStoreStats := mkStats { block_size : Z; capacity : Z; nblocks : Z }.

Module FileStorage.

Record t (M : Type) := mk {
  kind : StorageKind;
  meta : MetaVolume.t M;
  volumes : list Volume;
  dirty : list Z;
  current_volume : Z;  (* u32 *)
  current_gen : Z;     (* u32 *)
  total_size : Z;
  volume_names : list string;
}.
Arguments mk {M} _ _ _ _ _ _ _ _.
Arguments kind {M} _.
Arguments meta {M} _.
Arguments volumes {M} _.
Arguments dirty {M} _.
Arguments current_volume {M} _.
Arguments current_gen {M} _.
Arguments total_size {M} _.
Arguments volume_names {M} _.

Section Ops.
Context {M : Type} `{VolumeRegistry M}.
Local Notation FS := (t M).

Definition set_meta (m : MetaVolume.t M) (fs : FS) : FS :=
  mk (kind fs) m (volumes fs) (dirty fs) (current_volume fs) (current_gen fs) (total_size fs) (volume_names fs).
Definition set_volumes (v : list Volume) (fs : FS) : FS :=
  mk (kind fs) (meta fs) v (dirty fs) (current_volume fs) (current_gen fs) (total_size fs) (volume_names fs).
Definition set_current (c : Z) (fs : FS) : FS :=
  mk (kind fs) (meta fs) (volumes fs) (dirty fs) c (current_gen fs) (total_size fs) (volume_names fs).
Definition set_gen (g : Z) (fs : FS) : FS :=
  mk (kind fs) (meta fs) (volumes fs) (dirty fs) (current_volume fs) g (total_size fs) (volume_names fs).

(** [dirty_[ix]++]. *)
Definition touch_dirty (ix : Z) (fs : FS) : FS :=
  mk (kind fs) (meta fs) (volumes fs) (alter (λ d, d + 1) (Z.to_nat ix) (dirty fs))
     (current_volume fs) (current_gen fs) (total_size fs) (volume_names fs).

(** [std::sort] by id. *)
Fixpoint insert_desc (d : VolumeDesc) (l : list VolumeDesc) : list VolumeDesc :=
  match l with
  | [] => [d]
  | e :: l => if decide (d_id d < d_id e) then d :: e :: l else e :: insert_desc d l
  end.
Definition sort_descs (l : list VolumeDesc) : list VolumeDesc := foldr insert_desc [] l.

(** The loop that opens the volumes; [disk] gives the contents of a file and
    [None] when it cannot be opened. *)
Fixpoint open_volumes (disk : string → option (list Z)) (m : MetaVolume.t M) (ix : Z)
    (descs : list VolumeDesc) : option (list Volume) :=
  match descs with
  | [] => Some []
  | d :: descs =>
    let '(st, nblocks) := MetaVolume.get_nblocks ix m in
    if decide (st ≠ kOk) then None else
    data ← disk (d_path d);
    vs ← open_volumes disk m (ix + 1) descs;
    Some (Vol.open_existing (d_path d) nblocks data :: vs)
  end.

(** The first volume with free space, with its generation. *)
Fixpoint find_current (m : MetaVolume.t M) (ix : Z) (vs : list Volume) : option (option (Z * Z)) :=
  match vs with
  | [] => Some None
  | v :: vs =>
    let '(st, gen) := MetaVolume.get_generation ix m in
    if decide (st ≠ kOk) then None else
    let '(_, nblocks) := MetaVolume.get_nblocks ix m in
    if decide (nblocks < Vol.get_size v) then Some (Some (ix, gen)) else find_current m (ix + 1) vs
  end.

(** The constructor; without a volume with free space volume 0 and generation 0
    stay selected. *)
Definition open (k : StorageKind) (disk : string → option (list Z)) (reg : M) : option FS :=
  m ← MetaVolume.open_existing reg;
  let descs := sort_descs (get_volumes reg) in
  vs ← open_volumes disk m 0 descs;
  cur ← find_current m 0 vs;
  let '(c, g) := default (0, 0) cur in
  Some (mk k m vs (replicate (length vs) 0) c g
           (foldr (λ v s, Vol.get_size v + s) 0 vs) (d_path <$> descs)).

(** [ExpandableFileStorage::create_new_volume]. *)
Definition create_new_volume (db_name : string) (id : Z) (fs : FS) : option Volume :=
  let prev_id := u32 (current_volume fs - 1) in
  prev ← volumes fs !! Z.to_nat prev_id;
  let path := new_volume_path db_name (Vol.get_path prev) id in
  Some (Vol.open_existing path 0 (Vol.create_new (Vol.get_size prev))).

Definition adjust_current_volume (fs : FS) : option FS :=
  match kind fs with
  | FixedSize =>
    Some (set_current (u32 ((current_volume fs + 1) mod Z.of_nat (length (volumes fs)))) fs)
  | Expandable db_name =>
    let fs := set_current (u32 (current_volume fs + 1)) fs in
    if decide (Z.of_nat (length (volumes fs)) ≤ current_volume fs) then
      vol ← create_new_volume db_name (current_volume fs) fs;
      '(_, m) ← MetaVolume.add_volume (current_volume fs) (Vol.get_size vol) (Vol.get_path vol) (meta fs);
      Some (mk (kind fs) m (volumes fs ++ [vol]) (dirty fs ++ [0]) (current_volume fs) (current_gen fs)
               (total_size fs + Vol.get_size vol) (volume_names fs ++ [Vol.get_path vol]))
    else Some fs
  end.

Definition handle_volume_transition (fs : FS) : option FS :=
  fs ← adjust_current_volume fs;
  let '(st, gen) := MetaVolume.get_generation (current_volume fs) (meta fs) in
  let fs := set_gen gen fs in
  if decide (st ≠ kOk) then None else
  let '(st, nblocks) := MetaVolume.get_nblocks (current_volume fs) (meta fs) in
  if decide (st ≠ kOk) then None else
  if decide (nblocks ≠ 0) then
    let fs := set_gen (u32 (current_gen fs + Z.of_nat (length (volumes fs)))) fs in
    let '(st, m) := MetaVolume.set_generation (current_volume fs) (current_gen fs) (meta fs) in
    if decide (st ≠ kOk) then None else
    let '(st, m) := MetaVolume.set_nblocks (current_volume fs) 0 m in
    if decide (st ≠ kOk) then None else
    v ← volumes fs !! Z.to_nat (current_volume fs);
    Some (touch_dirty (current_volume fs)
      (set_volumes (<[Z.to_nat (current_volume fs) := Vol.reset v]> (volumes fs)) (set_meta m fs)))
  else Some fs.

(** [volumes_[current_volume_]->append_block(&data)]. *)
Definition append_current (io : Io) (data : IOVecBlock) (fs : FS) : option (Status * Z * FS) :=
  v ← volumes fs !! Z.to_nat (current_volume fs);
  '(st, addr, v) ← Vol.append_block io data v;
  Some (st, addr, set_volumes (<[Z.to_nat (current_volume fs) := v]> (volumes fs)) fs).

(** The rest of [append_block]. *)
Definition finish_append (block_addr : Z) (data : IOVecBlock) (fs : FS)
    : option (Status * Z * IOVecBlock * FS) :=
  let data := IOVec.set_addr block_addr data in
  let '(st, m) := MetaVolume.set_nblocks (current_volume fs) (u32 (block_addr + 1)) (meta fs) in
  if decide (st ≠ kOk) then None else
  let fs := touch_dirty (current_volume fs) (set_meta m fs) in
  Some (st, make_logic (current_gen fs) block_addr, data, fs).

(** [io1] and [io2] are what the disk does in the two attempts. *)
Definition append_block (io1 io2 : Io) (data : IOVecBlock) (fs : FS)
    : option (Status * Z * IOVecBlock * FS) :=
  '(st, block_addr, fs) ← append_current io1 data fs;
  if decide (st = kOverflow) then
    fs ← handle_volume_transition fs;
    '(st, block_addr, fs) ← append_current io2 data fs;
    if decide (st ≠ kOk) then Some (st, 0, data, fs) else finish_append block_addr data fs
  else finish_append block_addr data fs.

(** The volume a generation lives in. *)
Definition volume_index (gen : Z) (fs : FS) : Z :=
  match kind fs with
  | FixedSize => gen mod Z.of_nat (length (volumes fs))
  | Expandable _ => gen
  end.

Definition exists_addr (addr : Z) (fs : FS) : bool :=
  let gen := extract_gen addr in
  let vol := extract_vol addr in
  let volix := volume_index gen fs in
  let '(st, actual_gen) := MetaVolume.get_generation volix (meta fs) in
  if decide (st ≠ kOk) then false else
  let '(st, nblocks) := MetaVolume.get_nblocks volix (meta fs) in
  if decide (st ≠ kOk) then false else
  bool_decide (actual_gen = gen) && bool_decide (vol < nblocks).

Definition read_iovec_block (addr : Z) (fs : FS) : option (Status * option IOVecBlock) :=
  let gen := extract_gen addr in
  let vol := extract_vol addr in
  let volix := volume_index gen fs in
  let '(st, actual_gen) := MetaVolume.get_generation volix (meta fs) in
  if decide (st ≠ kOk) then Some (kBadArg, None) else
  let '(st, nblocks) := MetaVolume.get_nblocks volix (meta fs) in
  if decide (st ≠ kOk) then Some (kBadArg, None) else
  if decide (actual_gen ≠ gen ∨ nblocks ≤ vol) then Some (kUnavailable, None) else
  v ← volumes fs !! Z.to_nat volix;
  '(st, block) ← Vol.read_iovec vol v;
  if decide (st = kOk) then Some (st, Some block) else Some (st, None).

Definition get_top_address (fs : FS) : option Z :=
  v ← volumes fs !! Z.to_nat (current_volume fs);
  Some (make_logic (current_gen fs) (Vol.get_size v)).

Definition volume_stats (ix : nat) (fs : FS) : BlockStoreStats :=
  let get '(st, res) := if decide (st = kOk) then res else 0 in
  mkStats 4096 (get (MetaVolume.get_capacity (Z.of_nat ix) (meta fs)))
               (get (MetaVolume.get_nblocks (Z.of_nat ix) (meta fs))).

Definition get_stats (fs : FS) : BlockStoreStats :=
  let l := (λ ix, volume_stats ix fs) <$> seq 0 (MetaVolume.get_nvolumes (meta fs)) in
  mkStats 4096 (foldr (λ s a, capacity s + a) 0 l) (foldr (λ s a, nblocks s + a) 0 l).

End Ops.
End FileStorage.
