(* ===== verification/BlockStoreProof.v ===== *)
(** * File-backed block stores: what happens to a stored block

    The state of a [FileStorage] is followed together with the history of the
    blocks it accepted.  A ring of volumes gives a block back unchanged until
    the volume is recycled, and says so afterwards; a growing list of volumes
    gives every block back. *)
From S2P Require Import Prelude Status ByteStream Base128 VByte DataBlock IOVec Volume MetaVolume BlockStore.

(** ** Addresses *)

Lemma make_logic_eq g b : 0 ≤ b < 2 ^ 32 → make_logic g b = g * 2 ^ 32 + b.
Proof.
  intros Hb. unfold make_logic. rewrite Z.lor_comm, lor_shiftl by lia. lia.
Qed.

Lemma extract_gen_logic g b : is_u32 g → is_u32 b → extract_gen (make_logic g b) = g.
Proof.
  intros Hg Hb. unfold is_u32 in *. unfold extract_gen. rewrite make_logic_eq, shiftr_div by lia.
  rewrite Z.div_add_l, Z.div_small, Z.add_0_r by lia. by apply u32_id.
Qed.

Lemma extract_vol_logic g b : is_u32 b → extract_vol (make_logic g b) = b.
Proof.
  intros Hb. unfold is_u32 in *. unfold extract_vol. change 0xFFFFFFFF with (2 ^ 32 - 1).
  rewrite land_ones', make_logic_eq by lia. rewrite Z.add_comm, Z_mod_plus_full. by apply Z.mod_small.
Qed.

(** ** Paths *)

Fixpoint no_slash (s : string) : Prop :=
  match s with EmptyString => True | String c s => c ≠ slash ∧ no_slash s end.

Lemma parent_no_slash s : no_slash s → GetParentDir s = EmptyString.
Proof. induction s as [|c s IH]; simpl; [done|]. intros [Hc Hs]. rewrite (IH Hs), decide_True by done. by rewrite decide_False. Qed.

(** A file beside another one has the same parent. *)
Lemma parent_beside p s : no_slash s → GetParentDir (GetParentDir p +:+ s) = GetParentDir p.
Proof.
  intros Hs. induction p as [|c p IH]; simpl; [by apply parent_no_slash|].
  case_decide as Hp.
  - rewrite Hp in IH. simpl in IH. case_decide as Hc; simpl; rewrite IH; [|done].
    rewrite decide_True by done. by rewrite decide_True.
  - simpl. rewrite IH. by rewrite decide_False.
Qed.

Lemma no_slash_app s1 s2 : no_slash s1 → no_slash s2 → no_slash (s1 +:+ s2).
Proof. induction s1 as [|c s1 IH]; simpl; [done|]. intros [??] ?. split; [done|auto]. Qed.

Lemma to_string_no_slash n : no_slash (to_string n).
Proof.
  unfold to_string. assert (no_slash EmptyString) as H0 by done. revert H0.
  generalize EmptyString. generalize 10%nat. intros fuel. revert n.
  induction fuel as [|fuel IH]; intros n acc Ha; cbn [to_string_fuel]; [done|].
  set (c := Ascii.ascii_of_nat _). assert (no_slash (String c acc)) as Hacc.
  { split; [|done]. intros E. apply (f_equal Ascii.nat_of_ascii) in E. unfold c, slash in E.
    pose proof (Z.mod_pos_bound n 10). rewrite !Ascii.nat_ascii_embedding in E by lia. lia. }
  case_decide; [done|]. by apply IH.
Qed.

Lemma new_path_beside db p id id' :
  no_slash db → new_volume_path db (new_volume_path db p id) id' = new_volume_path db p id'.
Proof.
  intros Hdb. unfold new_volume_path at 1. unfold new_volume_path at 1. rewrite parent_beside; [done|].
  apply no_slash_app; [done|]. apply no_slash_app; [by split|].
  apply no_slash_app; [apply to_string_no_slash|]. by repeat split.
Qed.

(** A path the meta-volume can store. *)
Definition path_ok (p : string) : Prop :=
  (String.length p < FASTSTDB_BLOCK_SIZE - MetaVolume.REF_SIZE)%nat ∧ MetaVolume.c_str p = p.

(** Projections of an updated state. *)
Ltac fs_cbn :=
  cbn [mbind option_bind FileStorage.set_gen FileStorage.set_current FileStorage.set_volumes
       FileStorage.set_meta FileStorage.current_volume FileStorage.current_gen FileStorage.meta
       FileStorage.volumes FileStorage.kind FileStorage.dirty FileStorage.total_size
       FileStorage.volume_names].

(** ** Invariant *)

Section Proof.
Context {M : Type} `{VolumeRegistryLaws M}.
Import FileStorage MetaVolume.
Local Notation FS := (FileStorage.t M).
Local Notation descs fs := (refs (FileStorage.meta fs)).
Local Notation nvol fs := (Z.of_nat (length (volumes fs))).

Record vol_good (fs : FS) (i : nat) (v : Volume) (d : VolumeDesc) : Prop := {
  vg_inv : vol_inv v;
  vg_size : 0 < v_file_size v;
  vg_nblocks : v_write_pos v = d_nblocks d;
  vg_gen : is_u32 (d_generation d);
  vg_index : volume_index (d_generation d) fs = Z.of_nat i;
}.

Record fs_inv (fs : FS) : Prop := {
  fi_meta : synced (FileStorage.meta fs);
  fi_len : length (descs fs) = length (volumes fs);
  fi_vol i v d : volumes fs !! i = Some v → descs fs !! i = Some d → vol_good fs i v d;
  fi_cur : 0 ≤ current_volume fs < nvol fs;
  fi_gen d : descs fs !! Z.to_nat (current_volume fs) = Some d → current_gen fs = d_generation d;
  fi_next i d : kind fs ≠ FixedSize → current_volume fs < Z.of_nat i →
                descs fs !! i = Some d → d_nblocks d = 0;
  fi_path db v id : kind fs = Expandable db → v ∈ volumes fs → is_u32 id →
                    no_slash db ∧ path_ok (new_volume_path db (v_path v) id);
}.

(** The generations and the sizes of the volumes, and the number of blocks in the
    current one. *)
Definition gens (fs : FS) : list Z := d_generation <$> descs fs.
Definition sizes (fs : FS) : list Z := v_file_size <$> volumes fs.
Definition here (fs : FS) (n : Z) : Prop := ∃ v, volumes fs !! Z.to_nat (current_volume fs) = Some v ∧ v_write_pos v = n.

(** A block number of a volume that [vol_inv] admits. *)
Definition is_block (b : Z) : Prop := 0 ≤ b < 2 ^ 20.

(** The history: what every address that was handed out stands for.  A block
    is in the volume of its generation, or the volume has moved on (only in a
    ring). *)
Definition hist_ok (fs : FS) (hist : gmap Z (list Z)) : Prop :=
  ∀ addr img, hist !! addr = Some img →
  ∃ g b v d, addr = make_logic g b ∧ is_u32 g ∧ is_block b ∧ 0 ≤ volume_index g fs ∧
    volumes fs !! Z.to_nat (volume_index g fs) = Some v ∧
    descs fs !! Z.to_nat (volume_index g fs) = Some d ∧
    g ≤ d_generation d ∧
    (g = d_generation d → b < d_nblocks d ∧ block_at b (v_data v) = img) ∧
    (kind fs ≠ FixedSize → g = d_generation d).

(** Room for [k] more volume switches. *)
Definition budget (k : nat) (fs : FS) : Prop :=
  match kind fs with
  | FixedSize => ∀ d, d ∈ descs fs → d_generation d + Z.of_nat k * nvol fs < 2 ^ 32
  | Expandable _ => nvol fs + Z.of_nat k ≤ 2 ^ 20
  end.

Lemma current_lookup fs :
  fs_inv fs → ∃ v d, volumes fs !! Z.to_nat (current_volume fs) = Some v ∧
    descs fs !! Z.to_nat (current_volume fs) = Some d ∧ vol_good fs (Z.to_nat (current_volume fs)) v d.
Proof.
  intros I. pose proof (fi_cur _ I). pose proof (fi_len _ I).
  destruct (lookup_lt_is_Some_2 (volumes fs) (Z.to_nat (current_volume fs))) as [v Hv]; [lia|].
  destruct (lookup_lt_is_Some_2 (descs fs) (Z.to_nat (current_volume fs))) as [d Hd]; [lia|].
  exists v, d. split_and!; [done..|]. by apply (fi_vol _ I).
Qed.

(** Updating the current volume and its record keeps the others good. *)
Lemma inv_update fs v d m v' d' g drt :
  fs_inv fs → volumes fs !! Z.to_nat (current_volume fs) = Some v →
  descs fs !! Z.to_nat (current_volume fs) = Some d →
  synced m → refs m = <[Z.to_nat (current_volume fs) := d']> (descs fs) →
  vol_inv v' → v_file_size v' = v_file_size v → v_path v' = v_path v → v_write_pos v' = d_nblocks d' →
  is_u32 (d_generation d') → volume_index (d_generation d') fs = current_volume fs →
  g = d_generation d' →
  fs_inv (FileStorage.mk (kind fs) m (<[Z.to_nat (current_volume fs) := v']> (volumes fs)) drt
            (current_volume fs) g (total_size fs) (volume_names fs)).
Proof.
  intros I Hv Hd Hm Er Hv' Hsz Hpath Hwp Hg Hix ->. pose proof (fi_cur _ I). pose proof (fi_len _ I) as Hlen.
  set (c := Z.to_nat (current_volume fs)) in *.
  assert (Hcv : (c < length (volumes fs))%nat) by (unfold c; lia).
  assert (Hidx : ∀ x, volume_index x (FileStorage.mk (kind fs) m (<[c := v']> (volumes fs)) drt
    (current_volume fs) (d_generation d') (total_size fs) (volume_names fs)) = volume_index x fs).
  { intros x. unfold volume_index. simpl. by rewrite length_insert. }
  constructor; simpl.
  - done.
  - by rewrite Er, !length_insert.
  - rewrite Er. intros i w e. destruct (decide (i = c)) as [->|Hne].
    + rewrite !list_lookup_insert_eq by lia. intros [= <-] [= <-].
      pose proof (fi_vol _ I _ _ _ Hv Hd) as []. constructor; [done|lia|done|done|].
      rewrite Hidx, Hix. unfold c. lia.
    + rewrite !list_lookup_insert_ne by done. intros Hw He.
      pose proof (fi_vol _ I _ _ _ Hw He) as []. constructor; try done. by rewrite Hidx.
  - rewrite length_insert. lia.
  - rewrite Er. intros e. fold c. rewrite list_lookup_insert_eq by lia. by intros [= <-].
  - rewrite Er. intros i e Hk Hi. rewrite list_lookup_insert_ne by (unfold c; lia). by apply (fi_next _ I).
  - intros db w id Hk Hw Hid.
    apply list_elem_of_lookup in Hw as [i Hi]. destruct (decide (i = c)) as [->|Hne].
    + rewrite list_lookup_insert_eq in Hi by done. injection Hi as <-. rewrite Hpath.
      apply (fi_path _ I); [done| |done]. by eapply list_elem_of_lookup_2.
    + rewrite list_lookup_insert_ne in Hi by done. apply (fi_path _ I); [done| |done].
      by eapply list_elem_of_lookup_2.
Qed.

(** An address past the end of the current volume was never handed out. *)
Lemma hist_fresh fs hist b d :
  fs_inv fs → hist_ok fs hist → descs fs !! Z.to_nat (current_volume fs) = Some d →
  is_u32 b → d_nblocks d ≤ b → hist !! make_logic (current_gen fs) b = None.
Proof.
  intros I Hh Hd Hb Hle. destruct (hist !! _) as [img|] eqn:Eh; [|done].
  destruct (current_lookup fs I) as (v&d0&Hv&Hd0&[_ _ _ Gg Gx]).
  rewrite Hd in Hd0. injection Hd0 as <-. pose proof (fi_gen _ I _ Hd) as Hcg.
  destruct (Hh _ _ Eh) as (g&b0&w&e&Ea&Hg&Hb0&_&_&He&_&Hst&_). rewrite Hcg in Ea.
  pose proof (f_equal extract_gen Ea) as E1. pose proof (f_equal extract_vol Ea) as E2.
  rewrite !extract_gen_logic in E1 by (done || unfold is_u32, is_block in *; lia).
  rewrite !extract_vol_logic in E2 by (done || unfold is_u32, is_block in *; lia).
  rewrite <- E1, Gx, Nat2Z.id, Hd in He. injection He as <-. destruct (Hst (eq_sym E1)). lia.
Qed.

(** Appending to a current volume that has room. *)
Lemma append_here fs hist b v :
  fs_inv fs → hist_ok fs hist → block_ok b →
  volumes fs !! Z.to_nat (current_volume fs) = Some v → v_write_pos v < v_file_size v →
  ∃ fs1 addr fs', append_current IoOk b fs = Some (kOk, v_write_pos v, fs1) ∧
    finish_append (v_write_pos v) b fs1 = Some (kOk, addr, IOVec.set_addr (v_write_pos v) b, fs') ∧
    fs_inv fs' ∧ hist !! addr = None ∧ hist_ok fs' (<[addr := image b]> hist) ∧
    kind fs' = kind fs ∧ length (volumes fs') = length (volumes fs) ∧
    (∀ d', d' ∈ descs fs' → ∃ d, d ∈ descs fs ∧ d_generation d' = d_generation d) ∧
    addr = make_logic (current_gen fs) (v_write_pos v) ∧
    current_volume fs' = current_volume fs ∧ gens fs' = gens fs ∧ sizes fs' = sizes fs ∧ here fs' (v_write_pos v + 1).
Proof.
  intros I Hh Hb Hv Hroom. destruct (current_lookup fs I) as (v0&d&Hv0&Hd&G).
  rewrite Hv in Hv0. injection Hv0 as <-. destruct G as [Gi Gs Gn Gg Gx].
  pose proof (fi_cur _ I) as Hcur. rewrite Z2Nat.id in Gx by lia.
  destruct (vol_append_ok v b Gi Hb Hroom) as (data&E&Gi'&Hat&Hother).
  pose proof (vi_pos _ Gi) as Hwp. pose proof (vi_size _ Gi) as Hsz.
  unfold append_current. rewrite Hv. cbn [mbind option_bind]. rewrite E. cbn [mbind option_bind].
  set (c := Z.to_nat (current_volume fs)) in *. set (v' := Vol.set (v_write_pos v + 1) data v) in *.
  destruct (modify_ok (with_nblocks (v_write_pos v + 1)) (current_volume fs) (FileStorage.meta fs) d
    (fi_meta _ I) (λ x, eq_refl) Hd ltac:(lia)) as (m&Em&Hm&Er).
  eexists _, (make_logic (current_gen fs) (v_write_pos v)), _. split; [done|].
  split.
  { unfold finish_append. cbn [set_volumes current_volume FileStorage.meta].
    rewrite u32_id by (unfold is_u32; lia). unfold set_nblocks. rewrite Em.
    rewrite decide_False by (intros Hx; by apply Hx). done. }
  assert (Hcv : (c < length (volumes fs))%nat) by (unfold c; lia).
  pose proof (fi_len _ I) as Hlen.
  set (fs' := touch_dirty _ _).
  assert (Hidx : ∀ x, volume_index x fs' = volume_index x fs).
  { intros x. unfold volume_index. simpl. by rewrite length_insert. }
  split_and!; try done.
  - apply (inv_update fs v d m v' (with_nblocks (v_write_pos v + 1) d)); try done.
    exact (fi_gen _ I _ Hd).
  - apply (hist_fresh fs hist _ d); try done; [unfold is_u32; lia|lia].
  - intros addr img. rewrite lookup_insert_Some. intros [[<- <-]|[Hne Ha]].
    + pose proof (fi_gen _ I _ Hd) as Hcg.
      exists (current_gen fs), (v_write_pos v), v', (with_nblocks (v_write_pos v + 1) d).
      rewrite Hidx, Hcg, Gx. fold c. simpl. rewrite Er. fold c.
      rewrite !list_lookup_insert_eq by lia. split_and!; try done; try (unfold is_u32, is_block; lia).
      intros _. split; [lia|done].
    + destruct (Hh _ _ Ha) as (g&b0&w&e&Ea&Hg&Hb0&Hix&Hw&He&Hle&Hst&Hk).
      destruct (decide (Z.to_nat (volume_index g fs) = c)) as [Ec|Ec].
      * rewrite Ec in *. rewrite Hv in Hw. rewrite Hd in He. injection Hw as <-. injection He as <-.
        exists g, b0, v', (with_nblocks (v_write_pos v + 1) d). rewrite Hidx, Ec. simpl. rewrite Er. fold c.
        rewrite !list_lookup_insert_eq by lia. split_and!; try done.
        intros Hge. destruct (Hst Hge) as [Hbl Hbi]. split; [lia|].
        unfold v'. simpl. rewrite Hother; [done|unfold is_block in Hb0; lia|lia].
      * exists g, b0, w, e. rewrite Hidx. simpl. rewrite Er. fold c.
        rewrite !list_lookup_insert_ne by done. by split_and!.
  - simpl. by rewrite length_insert.
  - simpl. rewrite Er. intros d' [i Hi]%list_elem_of_lookup. destruct (decide (i = c)) as [->|Hne].
    + rewrite list_lookup_insert_eq in Hi by lia. injection Hi as <-. exists d.
      split; [by eapply list_elem_of_lookup_2|done].
    + rewrite list_lookup_insert_ne in Hi by done. exists d'. split; [by eapply list_elem_of_lookup_2|done].
  - unfold gens. simpl. rewrite Er, list_fmap_insert. fold c. apply list_insert_id. by rewrite list_lookup_fmap, Hd.
  - unfold sizes. simpl. rewrite list_fmap_insert. fold c. apply list_insert_id. by rewrite list_lookup_fmap, Hv.
  - exists v'. simpl. fold c. rewrite list_lookup_insert_eq by done. done.
Qed.

(** Selecting another volume. *)
Lemma inv_select fs c d :
  fs_inv fs → kind fs = FixedSize ∨ current_volume fs ≤ c → 0 ≤ c < nvol fs →
  descs fs !! Z.to_nat c = Some d → fs_inv (set_gen (d_generation d) (set_current c fs)).
Proof.
  intros I Hk Hc Hd. destruct I. constructor; simpl; try done.
  - intros i v e Hv He. destruct (fi_vol0 i v e Hv He). by constructor.
  - intros e. rewrite Hd. by intros [= <-].
  - intros i e Hne Hi. apply fi_next0; [done|]. destruct Hk; [done|lia].
Qed.

Lemma hist_select fs c g hist : hist_ok fs hist → hist_ok (set_gen g (set_current c fs)) hist.
Proof. done. Qed.

Lemma gen_ok id (mv : MetaVolume.t M) d :
  synced mv → refs mv !! Z.to_nat id = Some d → 0 ≤ id →
  get_generation id mv = (kOk, d_generation d) ∧ get_nblocks id mv = (kOk, d_nblocks d).
Proof. intros Hs Hd Hid. split; by apply get_field_ok. Qed.

(** What a switch of volumes establishes. *)
Definition switched (k : nat) (fs fs' : FS) (hist : gmap Z (list Z)) : Prop :=
  fs_inv fs' ∧ hist_ok fs' hist ∧ kind fs' = kind fs ∧ budget k fs' ∧
  ∃ v, volumes fs' !! Z.to_nat (current_volume fs') = Some v ∧ v_write_pos v < v_file_size v.

(** Recycling the selected volume of a ring. *)
Lemma recycle fs k hist v d :
  fs_inv fs → hist_ok fs hist → budget (S k) fs → kind fs = FixedSize →
  volumes fs !! Z.to_nat (current_volume fs) = Some v →
  descs fs !! Z.to_nat (current_volume fs) = Some d →
  let g := d_generation d + nvol fs in
  ∃ m m', set_generation (current_volume fs) g (FileStorage.meta fs) = (kOk, m) ∧
    set_nblocks (current_volume fs) 0 m = (kOk, m') ∧ is_u32 g ∧
    refs m' = <[Z.to_nat (current_volume fs) := with_nblocks 0 (with_generation g d)]> (descs fs) ∧
    ∀ drt, switched k fs (FileStorage.mk FixedSize m'
      (<[Z.to_nat (current_volume fs) := Vol.reset v]> (volumes fs)) drt
      (current_volume fs) g (total_size fs) (volume_names fs)) hist.
Proof.
  intros I Hh Hbud Hk Hv Hd g. pose proof (fi_cur _ I) as Hcur. pose proof (fi_len _ I) as Hlen.
  destruct (fi_vol _ I _ _ _ Hv Hd) as [Gi Gs Gn Gg Gx]. rewrite Z2Nat.id in Gx by lia.
  set (c := Z.to_nat (current_volume fs)) in *.
  unfold budget in Hbud. rewrite Hk in Hbud.
  pose proof (Hbud d ltac:(by eapply list_elem_of_lookup_2)) as Hd32. unfold is_u32 in Gg.
  assert (Hg : is_u32 g) by (unfold is_u32, g; lia).
  destruct (modify_ok (with_generation g) (current_volume fs) _ d (fi_meta _ I) (λ x, eq_refl) Hd
    ltac:(lia)) as (m&Em&Hm&Er).
  destruct (modify_ok (with_nblocks 0) (current_volume fs) m (with_generation g d) Hm (λ x, eq_refl))
    as (m'&Em'&Hm'&Er'); [rewrite Er; apply list_lookup_insert_eq; unfold c; lia|lia|].
  rewrite Er, list_insert_insert_eq in Er'.
  exists m, m'. split_and!; try done. intros drt.
  assert (Hcv : (c < length (volumes fs))%nat) by (unfold c; lia).
  assert (Hix : volume_index g fs = current_volume fs).
  { unfold volume_index in *. rewrite Hk in *. unfold g.
    rewrite <- (Z.mul_1_l (nvol fs)) at 1. rewrite Z_mod_plus_full. done. }
  set (fs' := FileStorage.mk _ _ _ _ _ _ _ _).
  assert (Hidx : ∀ x, volume_index x fs' = volume_index x fs).
  { intros x. unfold volume_index. simpl. rewrite Hk. by rewrite length_insert. }
  split_and!; [| |done| |].
  - pose proof (inv_update fs v d m' (Vol.reset v) (with_nblocks 0 (with_generation g d)) g drt I Hv Hd Hm'
      Er') as Hinv. rewrite Hk in Hinv. apply Hinv; try done.
    destruct Gi. constructor; simpl; try done. lia.
  - intros addr img Ha. destruct (Hh _ _ Ha) as (g0&b0&w&e&Ea&Hg0&Hb0&Hi0&Hw&He&Hle&Hst&Hkk).
    destruct (decide (Z.to_nat (volume_index g0 fs) = c)) as [Ec|Ec].
    + rewrite Ec in *. rewrite Hd in He. injection He as <-.
      exists g0, b0, (Vol.reset v), (with_nblocks 0 (with_generation g d)). rewrite Hidx, Ec. simpl. rewrite Er'. fold c.
      rewrite !list_lookup_insert_eq by lia. split_and!; try done; [simpl; lia|].
      simpl. intros ->. lia.
    + exists g0, b0, w, e. rewrite Hidx. simpl. rewrite Er'. fold c.
      rewrite !list_lookup_insert_ne by done. split_and!; done.
  - unfold budget. simpl. rewrite length_insert, Er'. intros d' [i Hi]%list_elem_of_lookup.
    destruct (decide (i = c)) as [->|Hne].
    + rewrite list_lookup_insert_eq in Hi by lia. injection Hi as <-. simpl. unfold g. lia.
    + rewrite list_lookup_insert_ne in Hi by done.
      pose proof (Hbud d' ltac:(by eapply list_elem_of_lookup_2)). lia.
  - exists (Vol.reset v). simpl. fold c. rewrite list_lookup_insert_eq by done. done.
Qed.

Lemma budget_le k fs : budget (S k) fs → budget k fs.
Proof.
  unfold budget. destruct (kind fs); [|lia]. intros Hb d Hd. specialize (Hb d Hd). lia.
Qed.

(** An empty volume is selected as it is. *)
Lemma switch_empty fs k hist c d :
  fs_inv fs → hist_ok fs hist → budget k fs → kind fs = FixedSize ∨ current_volume fs ≤ c →
  0 ≤ c < nvol fs → descs fs !! Z.to_nat c = Some d → d_nblocks d = 0 →
  switched k fs (set_gen (d_generation d) (set_current c fs)) hist.
Proof.
  intros I Hh Hb Hk Hc Hd Hz. split_and!; try done; [by apply inv_select|].
  destruct (lookup_lt_is_Some_2 (volumes fs) (Z.to_nat c)) as [v Hv]; [lia|].
  destruct (fi_vol _ I _ _ _ Hv Hd). exists v. simpl. split; [done|lia].
Qed.

Lemma transition_fixed fs k hist :
  fs_inv fs → hist_ok fs hist → budget (S k) fs → kind fs = FixedSize →
  ∃ fs', handle_volume_transition fs = Some fs' ∧ switched k fs fs' hist ∧
    current_volume fs' = (current_volume fs + 1) mod nvol fs ∧ sizes fs' = sizes fs ∧ here fs' 0 ∧
    ∀ i, i ≠ Z.to_nat (current_volume fs') → gens fs' !! i = gens fs !! i.
Proof.
  intros I Hh Hb Hk. pose proof (fi_cur _ I) as Hcur. pose proof (fi_len _ I) as Hlen.
  pose proof (sy_count _ (fi_meta _ I)) as Hcount.
  set (c := (current_volume fs + 1) mod nvol fs).
  assert (Hc : 0 ≤ c < nvol fs) by (apply Z.mod_pos_bound; lia).
  destruct (lookup_lt_is_Some_2 (descs fs) (Z.to_nat c)) as [d Hd]; [lia|].
  destruct (lookup_lt_is_Some_2 (volumes fs) (Z.to_nat c)) as [v Hv]; [lia|].
  destruct (gen_ok c _ d (fi_meta _ I) Hd ltac:(lia)) as [Eg En].
  unfold handle_volume_transition, adjust_current_volume. rewrite Hk. fold c.
  rewrite u32_id by (unfold is_u32; lia). fs_cbn. rewrite Eg. rewrite decide_False by (intros Hx; by apply Hx). fs_cbn.
  rewrite En. rewrite decide_False by (intros Hx; by apply Hx).
  case_decide as Hn.
  - set (fs1 := set_gen (d_generation d) (set_current c fs)).
    destruct (recycle fs1 k hist v d) as (m&m'&E1&E2&Hg&Er&Hsw); try done.
    { by apply inv_select; [|left|..]. }
    unfold fs1 in *. cbn [set_gen set_current current_volume current_gen FileStorage.meta volumes kind
      total_size volume_names] in *. rewrite u32_id by exact Hg. rewrite E1. rewrite decide_False by (intros Hx; by apply Hx).
    rewrite E2. rewrite decide_False by (intros Hx; by apply Hx).
    rewrite Hv. cbn [mbind option_bind]. eexists. split; [done|].
    destruct (Hsw (alter (λ d, d + 1) (Z.to_nat c) (dirty fs))) as (?&?&?&?&?).
    unfold touch_dirty, set_volumes, set_meta. fs_cbn. rewrite Hk. split; [by split_and!|]. split_and!.
    + done.
    + unfold sizes. simpl. rewrite list_fmap_insert. apply list_insert_id. by rewrite list_lookup_fmap, Hv.
    + exists (Vol.reset v). simpl. by rewrite list_lookup_insert_eq by lia.
    + intros i Hi. unfold gens. simpl. rewrite Er. unfold fs1. simpl. rewrite list_fmap_insert, list_lookup_insert_ne by done. done.
  - eexists. split; [done|]. split; [apply switch_empty; auto using budget_le; lia|]. split_and!; [done|done| |done].
    exists v. destruct (fi_vol _ I _ _ _ Hv Hd) as [_ _ Gn _ _]. split; [done|]. rewrite Gn. by destruct (decide (d_nblocks d = 0)).
Qed.

(** Adding a volume. *)
Lemma grow fs k hist db v :
  fs_inv fs → hist_ok fs hist → budget (S k) fs → kind fs = Expandable db →
  volumes fs !! Z.to_nat (current_volume fs) = Some v →
  let id := nvol fs in
  let vol := Vol.open_existing (new_volume_path db (v_path v) id) 0 (Vol.create_new (v_file_size v)) in
  let desc := mkDesc id (v_path vol) FASTSTDB_VERSION 0 (v_file_size vol) id in
  ∃ m, add_volume id (v_file_size vol) (v_path vol) (FileStorage.meta fs) = Some (kOk, m) ∧
    get_generation id m = (kOk, id) ∧ get_nblocks id m = (kOk, 0) ∧
    ∀ drt tot names, switched k fs
      (FileStorage.mk (Expandable db) m (volumes fs ++ [vol]) drt id id tot names) hist.
Proof.
  intros I Hh Hbud Hk Hv id vol desc. pose proof (fi_cur _ I) as Hcur. pose proof (fi_len _ I) as Hlen.
  unfold budget in Hbud. rewrite Hk in Hbud.
  assert (Hid : is_u32 id) by (unfold is_u32, id; lia).
  destruct (fi_path _ I db v id Hk ltac:(by eapply list_elem_of_lookup_2) Hid) as [Hdb [Hpl Hpc]].
  destruct (current_lookup fs I) as (v0&d0&Hv0&Hd0&[Gi Gs _ _ _]). rewrite Hv in Hv0. injection Hv0 as <-.
  pose proof (vi_size _ Gi) as Hsz.
  assert (Esz : v_file_size vol = v_file_size v).
  { unfold vol, Vol.open_existing, Vol.create_new. simpl. rewrite length_replicate, Nat.div_mul.
    - rewrite Z2Nat.id by lia. apply u32_id. unfold is_u32. lia.
    - rewrite block_size_eq. pose proof component_pos. lia. }
  assert (Ewp : v_write_pos vol = 0) by done.
  assert (Hvol : vol_inv vol).
  { constructor; rewrite ?Esz, ?Ewp; [done| |lia]. unfold vol, Vol.open_existing, Vol.create_new. simpl.
    apply length_replicate. }
  destruct (add_volume_ok id (v_file_size vol) (v_path vol) (FileStorage.meta fs) (fi_meta _ I))
    as (m&Em&Hm&Er); [unfold id; lia|unfold id; lia|done|done|].
  exists m. split; [done|].
  assert (Hnew : refs m !! Z.to_nat id = Some desc).
  { rewrite Er, lookup_app_r by (unfold id; lia). unfold id at 1. by rewrite Nat2Z.id, <- Hlen, Nat.sub_diag. }
  destruct (gen_ok id m desc Hm Hnew ltac:(unfold id; lia)) as [Eg En]. split_and!; [done..|].
  intros drt tot names. split_and!; [| |done| |].
  - constructor; simpl.
    + done.
    + rewrite Er, !length_app, Hlen. done.
    + intros i w e Hw He. destruct (decide (i < length (volumes fs))%nat) as [Hlt|Hge].
      * rewrite lookup_app_l in Hw by done. rewrite Er, lookup_app_l in He by lia.
        destruct (fi_vol _ I i w e Hw He) as [?? ? ? Hx]. constructor; try done.
        unfold volume_index in *. rewrite Hk in Hx. done.
      * apply lookup_lt_Some in Hw as Hlt. rewrite length_app in Hlt. simpl in Hlt.
        assert (i = length (volumes fs)) as -> by lia.
        rewrite lookup_app_r, Nat.sub_diag in Hw by lia. simpl in Hw. injection Hw as <-.
        unfold id in Hnew. rewrite Nat2Z.id, He in Hnew. injection Hnew as ->.
        constructor; [done|by rewrite Esz|done..].
    + unfold id. rewrite length_app. simpl. lia.
    + intros e. rewrite Hnew. by intros [= <-].
    + intros i e _ Hi He. apply lookup_lt_Some in He. rewrite Er, length_app in He. simpl in He.
      unfold id in Hi. lia.
    + intros db' w id' [= <-] Hw Hid'. split; [done|]. apply elem_of_app in Hw as [Hw|Hw].
      * by apply (fi_path _ I).
      * apply list_elem_of_singleton in Hw as ->. unfold vol. simpl. rewrite new_path_beside by done.
        apply (fi_path _ I db v id' Hk); [by eapply list_elem_of_lookup_2|done].
  - intros addr img Ha. destruct (Hh _ _ Ha) as (g0&b0&w&e&Ea&Hg0&Hb0&Hi0&Hw&He&Hle&Hst&Hkk).
    exists g0, b0, w, e. unfold volume_index in *. rewrite Hk in Hi0, Hw, He. simpl. rewrite Er.
    rewrite (lookup_app_l_Some _ _ _ _ Hw), (lookup_app_l_Some _ _ _ _ He). split_and!; try done.
    intros _. apply Hkk. by rewrite Hk.
  - unfold budget. simpl. rewrite length_app. simpl. lia.
  - exists vol. fs_cbn. split; [|rewrite Esz, Ewp; lia]. unfold id. rewrite Nat2Z.id.
    by rewrite lookup_app_r, Nat.sub_diag by lia.
Qed.

Lemma transition_expandable fs k hist db :
  fs_inv fs → hist_ok fs hist → budget (S k) fs → kind fs = Expandable db →
  ∃ fs', handle_volume_transition fs = Some fs' ∧ switched k fs fs' hist.
Proof.
  intros I Hh Hb Hk. pose proof (fi_cur _ I) as Hcur. pose proof (fi_len _ I) as Hlen.
  pose proof Hb as Hb'. unfold budget in Hb'. rewrite Hk in Hb'.
  unfold handle_volume_transition, adjust_current_volume. rewrite Hk.
  rewrite u32_id by (unfold is_u32; lia). fs_cbn. case_decide as Hn.
  - assert (Ec : current_volume fs + 1 = nvol fs) by lia. rewrite Ec.
    destruct (current_lookup fs I) as (v&d&Hv&Hd&_).
    destruct (grow fs k hist db v I Hh Hb Hk Hv) as (m&Em&Eg&En&Hsw).
    unfold create_new_volume. fs_cbn. rewrite <- Ec.
    replace (current_volume fs + 1 - 1) with (current_volume fs) by lia.
    rewrite u32_id, Hv by (unfold is_u32; lia). fs_cbn. rewrite Ec.
    unfold Vol.get_size, Vol.get_path. rewrite Em. fs_cbn.
    rewrite Eg. rewrite decide_False by (intros Hx; by apply Hx). fs_cbn.
    rewrite En. rewrite decide_False by (intros Hx; by apply Hx).
    rewrite decide_False by (intros Hx; by apply Hx). eexists. split; [done|]. fs_cbn. rewrite Hk.
    apply Hsw.
  - destruct (lookup_lt_is_Some_2 (descs fs) (Z.to_nat (current_volume fs + 1))) as [d Hd]; [lia|].
    destruct (gen_ok (current_volume fs + 1) _ d (fi_meta _ I) Hd ltac:(lia)) as [Eg En].
    assert (H00 : d_nblocks d = 0).
    { apply (fi_next _ I (Z.to_nat (current_volume fs + 1)) d); [by rewrite Hk|lia|done]. }
    fs_cbn. rewrite Eg. rewrite decide_False by (intros Hx; by apply Hx). fs_cbn.
    rewrite En. rewrite decide_False by (intros Hx; by apply Hx).
    rewrite H00. rewrite decide_False by (intros Hx; by apply Hx).
    eexists. split; [done|]. apply switch_empty; auto using budget_le; [right|]; lia.
Qed.

Lemma transition fs k hist :
  fs_inv fs → hist_ok fs hist → budget (S k) fs →
  ∃ fs', handle_volume_transition fs = Some fs' ∧ switched k fs fs' hist.
Proof.
  intros I Hh Hb. destruct (kind fs) as [|db] eqn:Hk; [|by eapply transition_expandable].
  destruct (transition_fixed fs k hist I Hh Hb Hk) as (fs'&?&?&_). by exists fs'.
Qed.

(** A store of either kind accepts every block and gives it a new address. *)
Lemma append_block_ok fs hist k b :
  fs_inv fs → hist_ok fs hist → budget (S k) fs → block_ok b →
  ∃ addr b' fs', append_block IoOk IoOk b fs = Some (kOk, addr, b', fs') ∧
    fs_inv fs' ∧ hist !! addr = None ∧ hist_ok fs' (<[addr := image b]> hist) ∧ budget k fs' ∧
    kind fs' = kind fs ∧ b' = IOVec.set_addr (addr_ b') b.
Proof.
  intros I Hh Hb Hbl. destruct (current_lookup fs I) as (v&d&Hv&Hd&[Gi Gs Gn _ _]).
  assert (Hbud : ∀ fs1 fs2 : FS, kind fs2 = kind fs1 → length (volumes fs2) = length (volumes fs1) →
    (∀ d', d' ∈ descs fs2 → ∃ d, d ∈ descs fs1 ∧ d_generation d' = d_generation d) →
    budget k fs1 → budget k fs2).
  { intros fs1 fs2 Ek El Hg. unfold budget. rewrite Ek, El. destruct (kind fs1); [|done].
    intros Hall d' Hd'. destruct (Hg d' Hd') as (e&He&->). by apply Hall. }
  unfold append_block. destruct (decide (v_write_pos v < v_file_size v)) as [Hroom|Hfull].
  - destruct (append_here fs hist b v I Hh Hbl Hv Hroom) as (fs1&addr&fs'&E1&E2&I'&Hf&Hh'&Ek&El&Hg&_).
    rewrite E1. cbn [mbind option_bind]. rewrite decide_False by done. rewrite E2.
    eexists _, _, _. split; [done|]. split_and!; try done. apply (Hbud fs); auto using budget_le.
  - assert (Eo : append_current IoOk b fs = Some (kOverflow, 0, fs)).
    { unfold append_current. rewrite Hv. cbn [mbind option_bind]. unfold Vol.append_block.
      rewrite decide_True by lia. cbn [mbind option_bind]. unfold set_volumes.
      rewrite list_insert_id by done. by destruct fs. }
    rewrite Eo. cbn [mbind option_bind]. rewrite decide_True by done.
    destruct (transition fs k hist I Hh Hb) as (fs1&->&(I1&Hh1&Ek1&Hb1&v1&Hv1&Hr1)).
    cbn [mbind option_bind].
    destruct (append_here fs1 hist b v1 I1 Hh1 Hbl Hv1 Hr1) as (fs2&addr&fs'&E1&E2&I'&Hf&Hh'&Ek&El&Hg&_).
    rewrite E1. cbn [mbind option_bind]. rewrite decide_False by (intros Hx; by apply Hx). rewrite E2.
    eexists _, _, _. split; [done|]. split_and!; try done; [by apply (Hbud fs1)|congruence].
Qed.

(** *** How long a block lives in a ring *)

(** Free blocks in the current volume. *)
Definition room (fs : FS) : Z :=
  match volumes fs !! Z.to_nat (current_volume fs) with Some v => v_file_size v - v_write_pos v | None => 0 end.

(** One append: into the current volume, or into the next one. *)
Definition ring_step (fs fs' : FS) (addr : Z) : Prop :=
  sizes fs' = sizes fs ∧ gens fs' !! Z.to_nat (current_volume fs') = Some (extract_gen addr) ∧
  ((current_volume fs' = current_volume fs ∧ gens fs' = gens fs ∧ room fs' = room fs - 1) ∨
   (current_volume fs' = (current_volume fs + 1) mod nvol fs ∧ room fs ≤ 0 ∧ (∀ s, Forall (Z.le s) (sizes fs) → s - 1 ≤ room fs') ∧
    ∀ i, i ≠ Z.to_nat (current_volume fs') → gens fs' !! i = gens fs !! i)).

Lemma here_room fs n z : here fs n → sizes fs !! Z.to_nat (current_volume fs) = Some z → room fs = z - n.
Proof.
  intros (v&Hv&<-) Hz. unfold sizes in Hz. rewrite list_lookup_fmap, Hv in Hz. injection Hz as <-. unfold room. by rewrite Hv.
Qed.

Lemma gens_current fs : fs_inv fs → is_u32 (current_gen fs) ∧ gens fs !! Z.to_nat (current_volume fs) = Some (current_gen fs).
Proof.
  intros I. destruct (current_lookup fs I) as (v&d&Hv&Hd&[_ _ _ Gg _]). rewrite (fi_gen _ I _ Hd). split; [done|].
  unfold gens. by rewrite list_lookup_fmap, Hd.
Qed.

Lemma append_block_ring fs hist k b addr b' fs' :
  fs_inv fs → hist_ok fs hist → budget (S k) fs → block_ok b → kind fs = FixedSize →
  append_block IoOk IoOk b fs = Some (kOk, addr, b', fs') → ring_step fs fs' addr.
Proof.
  intros I Hh Hb Hbl Hk. destruct (current_lookup fs I) as (v&d&Hv&Hd&[Gi Gs Gn _ _]).
  assert (Hsz : ∀ (f : FS) w, volumes f !! Z.to_nat (current_volume f) = Some w → sizes f !! Z.to_nat (current_volume f) = Some (v_file_size w))
    by (intros f w Hw; unfold sizes; by rewrite list_lookup_fmap, Hw).
  unfold append_block. destruct (decide (v_write_pos v < v_file_size v)) as [Hroom|Hfull].
  - destruct (append_here fs hist b v I Hh Hbl Hv Hroom) as (fs1&a&fs2&E1&E2&I'&_&_&_&_&_&->&Ec&Eg&Es&Hhere).
    rewrite E1. cbn [mbind option_bind]. rewrite decide_False by done. rewrite E2. intros [= <- _ <-].
    destruct (gens_current fs I) as [Hu Hg]. pose proof (vi_pos _ Gi). pose proof (vi_size _ Gi).
    split_and!; [done|rewrite extract_gen_logic, Eg, Ec by (done || unfold is_u32; lia); done|left; split_and!; [done|done|]].
    rewrite (here_room fs2 _ (v_file_size v) Hhere) by (rewrite Es, Ec; by apply Hsz). unfold room. rewrite Hv. lia.
  - assert (Eo : append_current IoOk b fs = Some (kOverflow, 0, fs)).
    { unfold append_current. rewrite Hv. cbn [mbind option_bind]. unfold Vol.append_block.
      rewrite decide_True by lia. cbn [mbind option_bind]. unfold set_volumes.
      rewrite list_insert_id by done. by destruct fs. }
    rewrite Eo. cbn [mbind option_bind]. rewrite decide_True by done.
    destruct (transition_fixed fs k hist I Hh Hb Hk) as (fs1&->&(I1&Hh1&Ek1&Hb1&v1&Hv1&Hr1)&Ec1&Es1&(v2&Hv2&Ew)&Hg1).
    rewrite Hv1 in Hv2. injection Hv2 as <-. cbn [mbind option_bind].
    destruct (append_here fs1 hist b v1 I1 Hh1 Hbl Hv1 Hr1) as (fs2&a&fs3&E1&E2&I'&_&_&_&_&_&->&Ec&Eg&Es&Hhere).
    rewrite E1. cbn [mbind option_bind]. rewrite decide_False by (intros Hx; by apply Hx). rewrite E2. intros [= <- _ <-].
    destruct (gens_current fs1 I1) as [Hu Hg]. rewrite Ew in *.
    split_and!; [congruence|rewrite extract_gen_logic, Eg, Ec by done; done|right; split_and!].
    + by rewrite Ec.
    + unfold room. rewrite Hv. lia.
    + intros z Hz. rewrite (here_room fs3 _ (v_file_size v1) Hhere) by (rewrite Es, Ec; by apply Hsz).
      rewrite <- Es1 in Hz. rewrite Forall_forall in Hz. specialize (Hz (v_file_size v1) ltac:(by eapply list_elem_of_lookup_2, Hsz)). lia.
    + intros i Hi. rewrite Eg. apply Hg1. by rewrite <- Ec.
Qed.

(** The block at [a] is there, and stays there for [n] more appends, if every
    volume holds [z] blocks. *)
Definition alive (z : Z) (fs : FS) (a n : Z) : Prop :=
  ∃ i, gens fs !! i = Some (extract_gen a) ∧ n ≤ room fs + z * ((Z.of_nat i - current_volume fs - 1) mod nvol fs).

Lemma sizes_nvol fs fs' : sizes fs' = sizes fs → nvol fs' = nvol fs.
Proof. unfold sizes. intros E%(f_equal length). rewrite !length_fmap in E. by rewrite E. Qed.

Lemma alive_step z fs fs' addr a n :
  fs_inv fs → ring_step fs fs' addr → 0 ≤ z → Forall (Z.le z) (sizes fs) → 0 ≤ n → alive z fs a (n + 1) → alive z fs' a n.
Proof.
  intros I (Es&_&Hmove) Hz Hs Hn (i&Hi&Hlife). pose proof (sizes_nvol _ _ Es) as En. pose proof (fi_cur _ I) as Hcur. exists i.
  rewrite En. destruct Hmove as [(->&->&->)|(Ec&Hfull&Hroom&Hg)]; [split; [done|lia]|].
  specialize (Hroom z Hs). set (m := (Z.of_nat i - current_volume fs - 1) mod nvol fs) in *.
  assert (Hm : 0 ≤ m < nvol fs) by (apply Z.mod_pos_bound; lia). assert (1 ≤ m) as Hm1 by nia.
  assert (Hne : i ≠ Z.to_nat (current_volume fs')).
  { intros ->. assert (Hc' : 0 ≤ current_volume fs') by (rewrite Ec; apply Z.mod_pos_bound; lia). revert Hm1. unfold m.
    rewrite Z2Nat.id, Ec by lia. rewrite <- Z.sub_add_distr, Zminus_mod_idemp_l, Z.sub_diag, Zmod_0_l. lia. }
  split; [by rewrite Hg|]. rewrite Ec.
  assert ((Z.of_nat i - (current_volume fs + 1) mod nvol fs - 1) mod nvol fs = m - 1) as ->; [|nia].
  replace (Z.of_nat i - (current_volume fs + 1) mod nvol fs - 1) with ((Z.of_nat i - 1) - (current_volume fs + 1) mod nvol fs) by lia.
  rewrite Zminus_mod_idemp_r. replace (Z.of_nat i - 1 - (current_volume fs + 1)) with ((Z.of_nat i - current_volume fs - 1) - 1) by lia.
  rewrite <- Zminus_mod_idemp_l. fold m. apply Z.mod_small. lia.
Qed.

Lemma alive_new z fs fs' addr : fs_inv fs' → ring_step fs fs' addr → 0 ≤ z → alive z fs' addr (z * (nvol fs' - 1)).
Proof.
  intros I (_&Hg&_) Hz. pose proof (fi_cur _ I) as Hcur. exists (Z.to_nat (current_volume fs')). split; [done|]. rewrite Z2Nat.id by lia.
  destruct (current_lookup fs' I) as (v&d&Hv&_&[Gi _ _ _ _]). pose proof (vi_pos _ Gi). unfold room. rewrite Hv.
  replace (current_volume fs' - current_volume fs' - 1) with ((nvol fs' - 1) + (-1) * nvol fs') by lia.
  rewrite Z_mod_plus_full, Z.mod_small by lia. lia.
Qed.

(** The first block of an empty storage is at address 0. *)
Definition first_free (fs : FS) : Prop :=
  current_volume fs = 0 ∧ current_gen fs = 0 ∧ ∃ v, volumes fs !! 0%nat = Some v ∧ v_write_pos v = 0.

Lemma append_block_first fs hist b addr b' fs' :
  fs_inv fs → hist_ok fs hist → block_ok b → first_free fs →
  append_block IoOk IoOk b fs = Some (kOk, addr, b', fs') → addr = 0.
Proof.
  intros I Hh Hb (Ec&Eg&v&Hv&Ew). destruct (current_lookup fs I) as (v0&d&Hv0&Hd&[Gi Gs Gn _ _]).
  rewrite Ec in *. change (Z.to_nat 0) with 0%nat in *. rewrite Hv in Hv0. injection Hv0 as <-.
  destruct (append_here fs hist b v I Hh Hb) as (fs1&a&fs2&E1&E2&_&_&_&_&_&_&->&_); [by rewrite Ec|lia|].
  unfold append_block. rewrite E1. cbn [mbind option_bind]. rewrite decide_False by done. rewrite E2, Eg, Ew.
  by intros [= <- _ _].
Qed.

(** The block that a read returns for an image. *)
Definition loaded (img : list Z) : IOVecBlock :=
  mkIOVec (img :: replicate 3 []) FASTSTDB_BLOCK_SIZE EMPTY_ADDR.

(** A block of the current generation of its volume is read. *)
Lemma read_present fs i v d b :
  fs_inv fs → volumes fs !! i = Some v → descs fs !! i = Some d → 0 ≤ b < d_nblocks d →
  read_iovec_block (make_logic (d_generation d) b) fs = Some (kOk, Some (loaded (block_at b (v_data v)))) ∧
  exists_addr (make_logic (d_generation d) b) fs = true.
Proof.
  intros I Hv Hd Hb. pose proof (fi_vol _ I _ _ _ Hv Hd) as [Gi _ Gn Gg Gx].
  pose proof (vi_pos _ Gi). pose proof (vi_size _ Gi).
  unfold read_iovec_block, exists_addr. rewrite extract_gen_logic, extract_vol_logic by (done || unfold is_u32; lia).
  rewrite Gx. destruct (gen_ok (Z.of_nat i) _ d (fi_meta _ I) ltac:(by rewrite Nat2Z.id) ltac:(lia)) as [Eg En].
  rewrite Eg, !(decide_False (P := kOk ≠ kOk)), En, !(decide_False (P := kOk ≠ kOk)) by (intros Hx; by apply Hx).
  rewrite decide_False by (intros [?|?]; [done|lia]). rewrite Nat2Z.id, Hv. cbn [mbind option_bind].
  unfold Vol.read_iovec. rewrite read_block_ok by (done || lia). cbn [mbind option_bind].
  rewrite !decide_True by done. split; [done|]. apply andb_true_iff.
  split; apply bool_decide_eq_true; [done|lia].
Qed.

(** A block is read as long as its volume has the generation of the address. *)
Lemma read_hist_gen fs hist addr img :
  fs_inv fs → hist_ok fs hist → hist !! addr = Some img →
  ∃ g', gens fs !! Z.to_nat (volume_index (extract_gen addr) fs) = Some g' ∧
    ((extract_gen addr = g' ∧ read_iovec_block addr fs = Some (kOk, Some (loaded img)) ∧ exists_addr addr fs = true) ∨
     (extract_gen addr < g' ∧ read_iovec_block addr fs = Some (kUnavailable, None) ∧ exists_addr addr fs = false ∧ kind fs = FixedSize)).
Proof.
  intros I Hh Ha. destruct (Hh _ _ Ha) as (g&b&v&d&->&Hg&Hb&Hix&Hv&Hd&Hle&Hst&Hk).
  rewrite extract_gen_logic by (done || unfold is_u32, is_block in *; lia). exists (d_generation d).
  split; [unfold gens; by rewrite list_lookup_fmap, Hd|].
  destruct (decide (g = d_generation d)) as [E|Hne].
  { left. split; [done|]. destruct (Hst E) as [Hlt <-]. rewrite E in *.
    apply (read_present fs _ v d b I Hv Hd). unfold is_block in Hb. lia. }
  right. unfold read_iovec_block, exists_addr.
  rewrite extract_gen_logic, extract_vol_logic by (done || unfold is_u32, is_block in *; lia).
  destruct (gen_ok _ _ d (fi_meta _ I) Hd Hix) as [Eg En].
  rewrite Eg, !(decide_False (P := kOk ≠ kOk)), En, !(decide_False (P := kOk ≠ kOk)) by (intros Hx; by apply Hx).
  rewrite decide_True by (left; congruence). split_and!; [lia|done| |].
  - by rewrite bool_decide_eq_false_2 by congruence.
  - destruct (kind fs) eqn:Ek; [done|]. exfalso. by apply Hne, Hk.
Qed.

Lemma read_hist fs hist addr img :
  fs_inv fs → hist_ok fs hist → hist !! addr = Some img →
  (read_iovec_block addr fs = Some (kOk, Some (loaded img)) ∧ exists_addr addr fs = true) ∨
  (read_iovec_block addr fs = Some (kUnavailable, None) ∧ exists_addr addr fs = false ∧ kind fs = FixedSize).
Proof. intros I Hh Ha. destruct (read_hist_gen fs hist addr img I Hh Ha) as (g'&_&[(_&?)|(_&?)]); auto. Qed.

Lemma read_alive z fs hist addr img :
  fs_inv fs → hist_ok fs hist → hist !! addr = Some img → alive z fs addr 0 →
  read_iovec_block addr fs = Some (kOk, Some (loaded img)) ∧ exists_addr addr fs = true.
Proof.
  intros I Hh Ha (i&Hi&_). destruct (read_hist_gen fs hist addr img I Hh Ha) as (g'&Hg'&[(_&?)|(Hlt&_)]); [done|]. exfalso.
  unfold gens in Hi. rewrite list_lookup_fmap in Hi. destruct (descs fs !! i) as [d|] eqn:Hd; [|done]. injection Hi as Ed.
  destruct (lookup_lt_is_Some_2 (volumes fs) i) as [v Hv]; [rewrite <- (fi_len _ I); by eapply lookup_lt_Some|].
  destruct (fi_vol _ I _ _ _ Hv Hd) as [_ _ _ _ Gx]. rewrite Ed in Gx. unfold gens in Hg'. rewrite Gx, Nat2Z.id, list_lookup_fmap, Hd in Hg'.
  injection Hg' as <-. lia.
Qed.
End Proof.

(** ** Properties *)

Section Properties.
Context {M : Type} `{VolumeRegistryLaws M}.
Import FileStorage.

(** A run of appends with the addresses they returned. *)
Fixpoint append_all (blocks : list IOVecBlock) (fs : FileStorage.t M) : option (list Z * FileStorage.t M) :=
  match blocks with
  | [] => Some ([], fs)
  | b :: blocks =>
    '(st, addr, _, fs) ← append_block IoOk IoOk b fs;
    if decide (st ≠ kOk) then None else
    '(addrs, fs) ← append_all blocks fs;
    Some (addr :: addrs, fs)
  end.

Lemma append_all_ok blocks (fs : FileStorage.t M) hist :
  fs_inv fs → hist_ok fs hist → budget (length blocks) fs → Forall block_ok blocks →
  ∃ addrs fs' hist', append_all blocks fs = Some (addrs, fs') ∧ fs_inv fs' ∧ hist_ok fs' hist' ∧
    hist ⊆ hist' ∧ kind fs' = kind fs ∧ NoDup addrs ∧ (∀ a, a ∈ addrs → hist !! a = None) ∧
    Forall2 (λ a b, hist' !! a = Some (image b)) addrs blocks.
Proof.
  intros I Hh Hb Hbl. revert fs hist I Hh Hb. induction Hbl as [|b blocks Hblk _ IH];
    intros fs hist I Hh Hb; simpl.
  { exists [], fs, hist. split_and!; try done; [apply NoDup_nil_2|]. intros a Ha. by apply not_elem_of_nil in Ha. }
  destruct (append_block_ok fs hist (length blocks) b I Hh Hb Hblk) as (addr&b'&fs1&->&I1&Hf&Hh1&Hb1&Ek1&_).
  cbn [mbind option_bind]. rewrite decide_False by (intros Hx; by apply Hx).
  destruct (IH fs1 _ I1 Hh1 Hb1) as (addrs&fs'&hist'&->&I'&Hh'&Hsub&Ek'&Hnd&Hfr&Hall).
  cbn [mbind option_bind]. exists (addr :: addrs), fs', hist'.
  assert (Hna : addr ∉ addrs).
  { intros Hin. specialize (Hfr _ Hin). by rewrite lookup_insert_eq in Hfr. }
  split_and!; try done.
  - etransitivity; [|exact Hsub]. by apply insert_subseteq.
  - congruence.
  - by apply NoDup_cons_2.
  - intros a [->|Ha]%elem_of_cons; [done|]. specialize (Hfr _ Ha). by apply lookup_insert_None in Hfr as [? _].
  - constructor; [|done]. eapply lookup_weaken; [|exact Hsub]. by rewrite lookup_insert_eq.
Qed.

(** In a ring the last blocks are there. *)
Lemma append_all_alive z blocks (fs : FileStorage.t M) hist addrs fs' :
  fs_inv fs → hist_ok fs hist → budget (length blocks) fs → Forall block_ok blocks → kind fs = FixedSize →
  append_all blocks fs = Some (addrs, fs') → 0 ≤ z → Forall (Z.le z) (sizes fs) →
  length (volumes fs') = length (volumes fs) ∧
  (∀ a n, 0 ≤ n → alive z fs a (n + Z.of_nat (length blocks)) → alive z fs' a n) ∧
  (∀ i a, addrs !! i = Some a → Z.of_nat (length blocks - S i) ≤ z * (Z.of_nat (length (volumes fs)) - 1) → alive z fs' a 0).
Proof.
  intros I Hh Hb Hbl Hk E Hz. revert fs hist addrs I Hh Hb Hk E. induction Hbl as [|b blocks Hblk _ IH]; intros fs hist addrs I Hh Hb Hk E Hs; simpl in E.
  { injection E as <- <-. split_and!; [done|intros a n _; by rewrite Z.add_0_r|done]. }
  destruct (append_block_ok fs hist (length blocks) b I Hh Hb Hblk) as (addr&b'&fs1&E1&I1&_&Hh1&Hb1&Ek1&_).
  pose proof (append_block_ring fs hist (length blocks) b addr b' fs1 I Hh Hb Hblk Hk E1) as Hstep.
  rewrite E1 in E. cbn [mbind option_bind] in E. rewrite decide_False in E by (intros Hx; by apply Hx).
  destruct (append_all blocks fs1) as [[addrs' fs2]|] eqn:Er; [|done]. injection E as <- <-.
  pose proof (proj1 Hstep) as Es. pose proof (sizes_nvol _ _ Es) as En.
  destruct (IH fs1 _ addrs' I1 Hh1 Hb1 ltac:(congruence) Er) as (El&Hold&Hnew); [by rewrite Es|].
  split_and!; [lia| |].
  - intros a n Hn Ha. apply Hold; [done|]. eapply alive_step; [exact I|exact Hstep|..]; try done; [lia|]. simpl length in Ha.
    by replace (n + Z.of_nat (length blocks) + 1) with (n + Z.of_nat (S (length blocks))) by lia.
  - intros [|i] a Ha Hlen; simpl in Ha.
    + injection Ha as <-. apply Hold; [done|]. destruct (alive_new z fs fs1 addr I1 Hstep Hz) as (i&Hi&Hl). exists i. split; [done|]. simpl in Hlen. lia.
    + apply (Hnew i a Ha). simpl in Hlen. lia.
Qed.

(** C28: in a ring of volumes every append succeeds with an address that
    was never used before.  At any later time the address gives back exactly the
    block that was stored as long as its volume has the generation of the address,
    and [Unavailable] exactly when the volume has a later one, because it was
    recycled: never another block, also when positions in a volume are reused.
    A volume is recycled only when the ring comes around to it: if every volume
    holds [z] blocks, a block is there as long as no more than [z] blocks for
    each other volume came after it. *)
Theorem fixed_storage_history blocks (fs : FileStorage.t M) :
  fs_inv fs → kind fs = FixedSize → budget (length blocks) fs → Forall block_ok blocks →
  ∃ addrs fs', append_all blocks fs = Some (addrs, fs') ∧ fs_inv fs' ∧ NoDup addrs ∧
    Forall2 (λ a b, ∃ g, gens fs' !! Z.to_nat (volume_index (extract_gen a) fs') = Some g ∧
      ((extract_gen a = g ∧ read_iovec_block a fs' = Some (kOk, Some (loaded (image b))) ∧ exists_addr a fs' = true) ∨
       (extract_gen a < g ∧ read_iovec_block a fs' = Some (kUnavailable, None) ∧ exists_addr a fs' = false))) addrs blocks ∧
    ∀ z i a b, 0 ≤ z → Forall (Z.le z) (sizes fs) → addrs !! i = Some a → blocks !! i = Some b →
      Z.of_nat (length blocks - S i) ≤ z * (Z.of_nat (length (volumes fs)) - 1) →
      read_iovec_block a fs' = Some (kOk, Some (loaded (image b))) ∧ exists_addr a fs' = true.
Proof.
  intros I Hk Hb Hbl. assert (Hh : hist_ok fs ∅) by (by intros a img; rewrite lookup_empty).
  destruct (append_all_ok blocks fs ∅ I Hh Hb Hbl) as (addrs&fs'&hist&E&I'&Hh'&_&_&Hnd&_&Hall).
  exists addrs, fs'. split_and!; try done.
  - eapply Forall2_impl; [exact Hall|]. intros a b Ha. destruct (read_hist_gen fs' hist a _ I' Hh' Ha) as (g&Hg&[?|(?&?&?&_)]); exists g; auto.
  - intros z i a b Hz Hs Ha Hbi Hlen. apply (read_alive z fs' hist); [done|done|exact (Forall2_lookup_lr _ _ _ _ _ _ Hall Ha Hbi)|].
    by apply (append_all_alive z blocks fs ∅ addrs fs' I Hh Hb Hbl Hk E Hz Hs) with (i := i).
Qed.

(** C29: an expandable store whose volumes after the current one are empty
    ([fs_inv], which holds of one that was just created, or opened with room in its
    last volume) loses no block: every append succeeds with a fresh address,
    adding volumes as needed, and every address stays readable with exactly the
    block that was stored.  A store that is opened with all its volumes full is not
    of this kind: see [expandable_reopen_full]. *)
Theorem expandable_storage_history blocks (fs : FileStorage.t M) db :
  fs_inv fs → kind fs = Expandable db → budget (length blocks) fs → Forall block_ok blocks →
  ∃ addrs fs', append_all blocks fs = Some (addrs, fs') ∧ fs_inv fs' ∧ NoDup addrs ∧
    Forall2 (λ a b, read_iovec_block a fs' = Some (kOk, Some (loaded (image b))) ∧
                    exists_addr a fs' = true) addrs blocks.
Proof.
  intros I Hk Hb Hbl.
  destruct (append_all_ok blocks fs ∅ I ltac:(by intros a img; rewrite lookup_empty) Hb Hbl)
    as (addrs&fs'&hist&E&I'&Hh'&_&Ek&Hnd&_&Hall).
  exists addrs, fs'. split_and!; try done. eapply Forall2_impl; [exact Hall|].
  intros a b Ha. destruct (read_hist fs' hist a _ I' Hh' Ha) as [?|(_&_&Hx)]; [done|congruence].
Qed.

(** A failed write is reported as a success.  [append_block] only
    looks for [Overflow]; when the disk fails to seek or to write, it returns
    [Ok] with the address of block 0 of the current volume, whose record now
    says that it holds one block: the blocks after the first are given up. *)
Theorem append_error_reported_ok (fs : FileStorage.t M) v b io :
  fs_inv fs → volumes fs !! Z.to_nat (current_volume fs) = Some v → v_write_pos v < v_file_size v →
  block_ok b → io = IoSeekError ∨ (∃ n, io = IoShort n) →
  ∃ b' fs', append_block io IoOk b fs = Some (kOk, make_logic (current_gen fs) 0, b', fs') ∧
    MetaVolume.get_nblocks (current_volume fs) (FileStorage.meta fs') = (kOk, 1).
Proof.
  intros I Hv Hroom Hb Hio. pose proof (fi_cur _ I) as Hcur.
  destruct (current_lookup fs I) as (v0&d&Hv0&Hd&[Gi _ _ _ _]). rewrite Hv in Hv0. injection Hv0 as <-.
  destruct (MetaVolume.modify_ok (MetaVolume.with_nblocks 1) (current_volume fs) (FileStorage.meta fs) d
    (fi_meta _ I) (λ x, eq_refl) Hd ltac:(lia)) as (m&Em&Hm&Er).
  assert (∃ st v', Vol.append_block io b v = Some (st, 0, v') ∧ st ≠ kOverflow ∧ st ≠ kOk)
    as (st&v'&E&Hst&_).
  { unfold Vol.append_block. rewrite decide_False by lia. destruct Hio as [->|[n ->]]; [by eexists _, _|].
    unfold write_file. rewrite decide_True; [by eexists _, _|].
    pose proof (vi_pos _ Gi). pose proof (vi_size _ Gi). rewrite offset_small by lia.
    rewrite length_take, (length_image b Hb), (vi_data _ Gi). nia. }
  unfold append_block, append_current. rewrite Hv. cbn [mbind option_bind]. rewrite E. cbn [mbind option_bind].
  rewrite decide_False by done. unfold finish_append. fs_cbn. rewrite (u32_id (0 + 1)) by (unfold is_u32; lia).
  unfold MetaVolume.set_nblocks. change (0 + 1) with 1. rewrite Em.
  rewrite decide_False by (intros Hx; by apply Hx). eexists _, _. split; [done|]. simpl.
  apply (MetaVolume.get_field_ok d_nblocks _ _ (MetaVolume.with_nblocks 1 d)); [done| |lia].
  rewrite Er. apply list_lookup_insert_eq. pose proof (fi_len _ I). lia.
Qed.

End Properties.

(** An expandable store whose volumes are all full when it is
    opened destroys its second volume.  No volume has free space, so volume 0
    stays selected; the next append moves on to volume 1, finds it in use,
    recycles it as a ring would, and gives it a generation that no volume index
    matches: the block that was there is gone, and the new one cannot be read
    either.  Here with two volumes of one block. *)
Theorem expandable_reopen_full :
  let reg := [mkDesc 0 "/d/db_0.vol" 101 1 1 0; mkDesc 1 "/d/db_1.vol" 101 1 1 1] in
  let disk p := Some (replicate FASTSTDB_BLOCK_SIZE (if decide (p = "/d/db_1.vol"%string) then 9 else 7)) in
  (fs ← FileStorage.open (Expandable "db") disk reg;
   '(st, addr, _, fs') ← FileStorage.append_block IoOk IoOk IOVec.make fs;
   Some (FileStorage.read_iovec_block (make_logic 1 0) fs, st, addr,
         FileStorage.read_iovec_block (make_logic 1 0) fs', FileStorage.read_iovec_block addr fs'))
  = Some (Some (kOk, Some (loaded (replicate FASTSTDB_BLOCK_SIZE 9))), kOk, make_logic 3 0,
          Some (kUnavailable, None), Some (kBadArg, None)).
Proof. vm_compute. reflexivity. Qed.
