(* ===== verification/StorageOpen.v ===== *)
(** * Opening a file-backed block store (block_store.cc)

    The constructor of [FileStorage] reads the registry, opens every volume and
    selects the first one with free space.  Over a consistent registry this
    gives a store with the invariant of [BlockStoreProof]. *)
From stdpp Require Import sorting.
From S2P Require Import Prelude Status ByteStream Base128 VByte DataBlock IOVec Volume MetaVolume BlockStore BlockStoreProof.

(** ** Sorting the registry *)

Section Sorting.
Import FileStorage.

Lemma insert_desc_perm d l : insert_desc d l ≡ₚ d :: l.
Proof.
  induction l as [|e l IH]; simpl; [done|]. case_decide; [done|]. rewrite IH. apply perm_swap.
Qed.

Lemma sort_descs_perm l : sort_descs l ≡ₚ l.
Proof. induction l as [|d l IH]; simpl; [done|]. rewrite insert_desc_perm. by rewrite IH. Qed.

Local Notation by_id := (λ x y : VolumeDesc, d_id x ≤ d_id y).

Lemma insert_desc_sorted d l : StronglySorted by_id l → StronglySorted by_id (insert_desc d l).
Proof.
  induction 1 as [|e l Hs IH Hall]; simpl; [by repeat constructor|]. case_decide as Hd.
  - constructor; [by constructor|]. constructor; [lia|]. eapply Forall_impl; [exact Hall|]. simpl. lia.
  - constructor; [done|]. rewrite insert_desc_perm. constructor; [lia|done].
Qed.

Lemma sort_descs_sorted l : StronglySorted by_id (sort_descs l).
Proof. induction l as [|d l IH]; simpl; [constructor|]. by apply insert_desc_sorted. Qed.

(** A sorted list of records with ids 0..n-1 is the list of records by id. *)
Lemma sorted_by_id (l r : list VolumeDesc) :
  StronglySorted by_id l → l ≡ₚ r → (∀ i d, r !! i = Some d → d_id d = Z.of_nat i) → l = r.
Proof.
  intros Hs Hp Hr.
  assert (Hir : d_id <$> r = Z.of_nat <$> seq 0 (length r)).
  { apply list_eq. intros i. rewrite !list_lookup_fmap. destruct (r !! i) as [d|] eqn:Ei; simpl.
    - rewrite lookup_seq_lt by (by eapply lookup_lt_Some). simpl. f_equal. by apply Hr.
    - apply lookup_ge_None in Ei. by rewrite lookup_seq_ge. }
  assert (Hil : d_id <$> l = d_id <$> r).
  { apply (StronglySorted_unique Z.le).
    - clear Hp. induction Hs as [|d l _ IH Hall]; simpl; [constructor|]. constructor; [done|]. by apply Forall_fmap.
    - rewrite Hir. clear Hir. generalize 0%nat. induction (length r) as [|n IHn]; intros k; simpl; [constructor|].
      constructor; [apply IHn|]. apply Forall_fmap, Forall_forall. intros j Hj%elem_of_seq. simpl. lia.
    - by rewrite Hp. }
  apply list_eq. intros i. destruct (l !! i) as [d|] eqn:Ei.
  - assert (d ∈ r) as [j Hj]%list_elem_of_lookup by (rewrite <- Hp; by eapply list_elem_of_lookup_2).
    assert (d_id d = Z.of_nat i) as Hd.
    { pose proof (f_equal (.!! i) Hil) as E. rewrite !list_lookup_fmap, Ei in E. simpl in E.
      destruct (r !! i) as [d'|] eqn:Er; [|done]. simpl in E. injection E as E. rewrite E. by apply Hr. }
    rewrite (Hr _ _ Hj) in Hd. assert (j = i) as -> by lia. done.
  - apply lookup_ge_None in Ei. symmetry. apply lookup_ge_None. by rewrite <- Hp.
Qed.

End Sorting.

(** ** The constructor *)

Section Open.
Context {M : Type} `{VolumeRegistryLaws M}.
Import FileStorage MetaVolume.

(** What the registry says of a volume agrees with the file on the disk. *)
Record desc_ok (k : StorageKind) (disk : string → option (list Z)) (n : nat) (d : VolumeDesc) : Prop := {
  do_file : ∃ data, disk (d_path d) = Some data ∧
              length data = (Z.to_nat (d_capacity d) * FASTSTDB_BLOCK_SIZE)%nat;
  do_cap : 0 < d_capacity d ≤ 2 ^ 20;
  do_blocks : 0 ≤ d_nblocks d ≤ d_capacity d;
  do_gen : is_u32 (d_generation d);
  do_slot : match k with FixedSize => d_generation d mod Z.of_nat n | Expandable _ => d_generation d end = d_id d;
  do_path : c_str (d_path d) = d_path d;
  do_new db id : k = Expandable db → is_u32 id → no_slash db ∧ path_ok (new_volume_path db (d_path d) id);
}.

(** The volume opened for a record. *)
Definition opened (disk : string → option (list Z)) (v : Volume) (d : VolumeDesc) : Prop :=
  vol_inv v ∧ v_file_size v = d_capacity d ∧ v_write_pos v = d_nblocks d ∧ v_path v = d_path d ∧
  disk (d_path d) = Some (v_data v).

Lemma open_volume_ok k disk n d data :
  desc_ok k disk n d → disk (d_path d) = Some data →
  opened disk (Vol.open_existing (d_path d) (d_nblocks d) data) d.
Proof.
  intros [(data'&E&Hl) Hc Hb _ _ _ _] E'. rewrite E in E'. injection E' as <-. unfold opened, Vol.open_existing.
  assert (length data' / FASTSTDB_BLOCK_SIZE = Z.to_nat (d_capacity d))%nat as Hdiv.
  { rewrite Hl. apply Nat.div_mul. rewrite block_size_eq, component_eq. done. }
  assert (u32 (Z.of_nat (length data' / FASTSTDB_BLOCK_SIZE)) = d_capacity d) as Hsz.
  { rewrite Hdiv, Z2Nat.id by lia. apply u32_id. unfold is_u32. lia. }
  assert (u32 (d_nblocks d) = d_nblocks d) as Hp by (apply u32_id; unfold is_u32; lia).
  split_and!; simpl; [|done..]. constructor; simpl; rewrite ?Hsz, ?Hp; [lia|done|lia].
Qed.

Lemma open_volumes_ok k disk n (m : MetaVolume.t M) l pre :
  synced m → refs m = pre ++ l → Forall (desc_ok k disk n) l →
  ∃ vs, open_volumes disk m (Z.of_nat (length pre)) l = Some vs ∧ Forall2 (opened disk) vs l.
Proof.
  intros Hm E Hl. revert pre E. induction Hl as [|d l Hd _ IH]; intros pre E; simpl; [by exists []|].
  assert (refs m !! Z.to_nat (Z.of_nat (length pre)) = Some d) as Hlk
    by (rewrite Nat2Z.id, E; by apply list_lookup_middle).
  unfold get_nblocks. rewrite (get_field_ok d_nblocks _ _ d Hm Hlk) by lia.
  rewrite decide_False by (intros Hx; by apply Hx). destruct (do_file _ _ _ _ Hd) as (data&Ed&_).
  rewrite Ed. cbn [mbind option_bind].
  destruct (IH (pre ++ [d])) as (vs&Ev&Hvs); [by rewrite <- app_assoc|].
  rewrite length_app in Ev. simpl in Ev.
  replace (Z.of_nat (length pre) + 1) with (Z.of_nat (length pre + 1)) by lia. rewrite Ev. cbn [mbind option_bind].
  eexists. split; [done|]. constructor; [by eapply open_volume_ok|done].
Qed.

(** The first volume with free space is selected. *)
Lemma find_current_ok disk (m : MetaVolume.t M) vs l pre :
  synced m → refs m = pre ++ l → Forall2 (opened disk) vs l →
  Exists (λ d, d_nblocks d < d_capacity d) l →
  ∃ i d, find_current m (Z.of_nat (length pre)) vs = Some (Some (Z.of_nat (length pre + i), d_generation d)) ∧
    l !! i = Some d ∧ d_nblocks d < d_capacity d.
Proof.
  intros Hm E Hvs. revert pre E. induction Hvs as [|v d vs l (_&Hsz&_) Hvs IH]; intros pre E Hex;
    [by apply Exists_nil in Hex|]. simpl.
  assert (refs m !! Z.to_nat (Z.of_nat (length pre)) = Some d) as Hlk
    by (rewrite Nat2Z.id, E; by apply list_lookup_middle).
  unfold get_generation, get_nblocks. rewrite !(get_field_ok _ _ _ d Hm Hlk) by lia.
  rewrite (decide_False (P := kOk ≠ kOk)) by (intros Hx; by apply Hx). unfold Vol.get_size. rewrite Hsz.
  case_decide as Hfree.
  - exists 0%nat, d. by rewrite Nat.add_0_r.
  - apply Exists_cons in Hex as [Hx|Hex]; [lia|].
    destruct (IH (pre ++ [d])) as (i&d'&Ef&Hi&Hd'); [by rewrite <- app_assoc|done|].
    exists (S i), d'. rewrite length_app in Ef. simpl in Ef.
    replace (Z.of_nat (length pre) + 1) with (Z.of_nat (length pre + 1)) by lia. rewrite Ef.
    split_and!; [|done|done]. do 3 f_equal. lia.
Qed.

(** A registry that a store can be opened from. *)
Record registry_ok (k : StorageKind) (disk : string → option (list Z)) (reg : M) (n : nat) : Prop := {
  ro_ids : d_id <$> get_volumes reg ≡ₚ Z.of_nat <$> seq 0 n;
  ro_n : Z.of_nat n ≤ 2 ^ 20;
  ro_descs : Forall (desc_ok k disk n) (get_volumes reg);
  ro_free : Exists (λ d, d_nblocks d < d_capacity d) (get_volumes reg);
  ro_next d d' : k ≠ FixedSize → d ∈ get_volumes reg → d' ∈ get_volumes reg → d_id d < d_id d' →
                 d_nblocks d < d_capacity d → d_nblocks d' = 0;
}.

Lemma open_ok k disk (reg : M) n :
  registry_ok k disk reg n →
  ∃ fs, open k disk reg = Some fs ∧ fs_inv fs ∧ kind fs = k ∧ length (volumes fs) = n ∧
    get_volumes reg ≡ₚ refs (FileStorage.meta fs) ∧
    Forall2 (opened disk) (volumes fs) (refs (FileStorage.meta fs)).
Proof.
  intros [Hids Hn Hd Hfree Hnext].
  destruct (MetaVolume.open_existing_ok reg n Hids Hn) as (m&Em&Hm&Hlen&Emr).
  { eapply Forall_impl; [exact Hd|]. intros d Hk. apply Hk. }
  assert (Hperm : get_volumes reg ≡ₚ refs m) by (rewrite <- Emr; apply Hm).
  assert (Hsort : sort_descs (get_volumes reg) = refs m).
  { apply sorted_by_id; [apply sort_descs_sorted| |apply Hm]. by rewrite sort_descs_perm. }
  rewrite Hperm in Hd, Hfree. unfold open. rewrite Em. cbn [mbind option_bind]. rewrite Hsort.
  destruct (open_volumes_ok k disk n m (refs m) [] Hm eq_refl Hd) as (vs&Ev&Hvs). simpl in Ev.
  change (Z.of_nat 0) with 0 in Ev. rewrite Ev.
  cbn [mbind option_bind].
  destruct (find_current_ok disk m vs (refs m) [] Hm eq_refl Hvs Hfree) as (i&d&Ef&Hi&Hdf). simpl in Ef.
  change (Z.of_nat 0) with 0 in Ef. rewrite Ef.
  cbn [mbind option_bind default from_option id]. eexists. split; [done|].
  pose proof (Forall2_length _ _ _ Hvs) as Hl. pose proof (lookup_lt_Some _ _ _ Hi) as Hlt.
  split_and!; [|done|simpl; congruence|done|done].
  constructor; simpl; [done|congruence| |lia| | |].
  - intros j v d' Hv Hd'. destruct (Forall2_lookup_lr _ _ _ _ _ _ Hvs Hv Hd') as (Hvi&Hsz&Hwp&_).
    rewrite Forall_lookup in Hd. destruct (Hd _ _ Hd') as [_ Hc _ Hg Hslot _ _].
    constructor; [done|lia|done|done|]. unfold volume_index. simpl. rewrite Hl, Hlen.
    rewrite <- (sy_id _ Hm _ _ Hd'). by destruct k.
  - intros d' Hd'. rewrite Nat2Z.id, Hi in Hd'. by injection Hd' as <-.
  - intros j d' Hk Hj Hd'. apply (Hnext d d' Hk); [..|done].
    + rewrite Hperm. by eapply list_elem_of_lookup_2.
    + rewrite Hperm. by eapply list_elem_of_lookup_2.
    + rewrite (sy_id _ Hm _ _ Hi), (sy_id _ Hm _ _ Hd'). lia.
  - intros db v id Ek Hv Hid. apply list_elem_of_lookup in Hv as [j Hv].
    destruct (Forall2_lookup_l _ _ _ _ _ Hvs Hv) as (d'&Hd'&_&_&_&Hp&_). rewrite Hp.
    rewrite Forall_lookup in Hd. by apply (do_new _ _ _ _ (Hd _ _ Hd')).
Qed.

(** ** Properties *)

(** C34: what was stored survives a restart.  Opening a store, of either
    kind, over a registry that agrees with the files and has a volume with free
    space succeeds, establishes the invariant the other properties need, and
    every block the registry counts is readable at its address with the bytes
    that are in the file. *)
Theorem storage_open_reads k disk (reg : M) n :
  registry_ok k disk reg n →
  ∃ fs, open k disk reg = Some fs ∧ fs_inv fs ∧ kind fs = k ∧
    ∀ d data b, d ∈ get_volumes reg → disk (d_path d) = Some data → 0 ≤ b < d_nblocks d →
      let addr := make_logic (d_generation d) b in
      read_iovec_block addr fs = Some (kOk, Some (loaded (block_at b data))) ∧ exists_addr addr fs = true.
Proof.
  intros Hr. destruct (open_ok k disk reg n Hr) as (fs&E&I&Ek&_&Hp&Hvs). exists fs. split_and!; [done..|].
  intros d data b Hd Ed Hb. rewrite Hp in Hd. apply list_elem_of_lookup in Hd as [i Hd].
  destruct (Forall2_lookup_r _ _ _ _ _ Hvs Hd) as (v&Hv&_&_&_&_&Edv). rewrite Ed in Edv. injection Edv as ->.
  by apply (read_present fs i v d b).
Qed.

End Open.

(** ** A registry of two volumes *)

Lemma string_length_app s1 s2 : String.length (s1 +:+ s2) = (String.length s1 + String.length s2)%nat.
Proof. induction s1 as [|c s1 IH]; simpl; [done|]. by rewrite IH. Qed.

Lemma c_str_app s1 s2 :
  MetaVolume.c_str s1 = s1 → MetaVolume.c_str s2 = s2 → MetaVolume.c_str (s1 +:+ s2) = s1 +:+ s2.
Proof.
  intros H1 H2. induction s1 as [|c s1 IH]; [done|]. simpl in *. case_decide; [done|].
  injection H1 as H1. by rewrite (IH H1).
Qed.

Lemma to_string_ok n : (String.length (to_string n) ≤ 10)%nat ∧ MetaVolume.c_str (to_string n) = to_string n.
Proof.
  unfold to_string. set (acc := EmptyString).
  assert (∀ fuel n acc, MetaVolume.c_str acc = acc →
    (String.length (to_string_fuel fuel n acc) ≤ fuel + String.length acc)%nat ∧
    MetaVolume.c_str (to_string_fuel fuel n acc) = to_string_fuel fuel n acc) as Hfuel.
  { clear. intros fuel. induction fuel as [|fuel IH]; intros n acc Ha; cbn [to_string_fuel]; [split; [lia|done]|].
    set (c := Ascii.ascii_of_nat _). assert (c ≠ Ascii.zero) as Hz.
    { intros E. apply (f_equal Ascii.nat_of_ascii) in E. unfold c in E. pose proof (Z.mod_pos_bound n 10).
      rewrite Ascii.nat_ascii_embedding in E by lia. change (Ascii.nat_of_ascii Ascii.zero) with 0%nat in E. lia. }
    clearbody c. assert (MetaVolume.c_str (String c acc) = String c acc) as Hc
      by (simpl; by rewrite Ha, decide_False).
    case_decide; [split; [simpl; lia|done]|]. destruct (IH (n / 10) (String c acc) Hc) as [Hl Hs].
    split; [|done]. simpl in Hl. lia. }
  destruct (Hfuel 10%nat n acc eq_refl) as [Hl Hs].
  change (String.length acc) with 0%nat in Hl. split; [lia|done].
Qed.

Definition sample_disk : string → option (list Z) := λ _, Some (Vol.create_new 2).
Definition sample_registry : list VolumeDesc :=
  [mkDesc 1 "/d/db_1.vol" FASTSTDB_VERSION 0 2 1; mkDesc 0 "/d/db_0.vol" FASTSTDB_VERSION 1 2 0].

Lemma sample_path_ok d id :
  d ∈ sample_registry → path_ok (new_volume_path "db" (d_path d) id).
Proof.
  intros Hd. assert (GetParentDir (d_path d) = "/d/"%string) as E
    by (repeat (apply elem_of_cons in Hd as [->|Hd]; [done|]); by apply not_elem_of_nil in Hd).
  destruct (to_string_ok id) as [Hl Hc]. unfold path_ok, new_volume_path. rewrite E. split.
  - rewrite !string_length_app. simpl. rewrite block_size_eq, component_eq. unfold MetaVolume.REF_SIZE. lia.
  - apply c_str_app; [done|]. apply c_str_app; [done|]. apply c_str_app; [done|]. by apply c_str_app.
Qed.

Lemma sample_registry_ok k :
  k = FixedSize ∨ k = Expandable "db" → registry_ok k sample_disk sample_registry 2.
Proof.
  intros Hk. constructor.
  - apply perm_swap.
  - done.
  - assert (Hs : Forall (λ d, d_capacity d = 2 ∧ 0 ≤ d_nblocks d ≤ 2 ∧ d_generation d = d_id d ∧
                              0 ≤ d_id d < 2 ∧ MetaVolume.c_str (d_path d) = d_path d) sample_registry)
      by (repeat constructor; done).
    apply Forall_forall. intros d Hd. rewrite Forall_forall in Hs.
    destruct (Hs d Hd) as (Hc&Hn&Hg&Hi&Hp). constructor; rewrite ?Hc, ?Hg; [|lia|done|unfold is_u32; lia| |done|].
    + eexists. split; [done|]. apply length_replicate.
    + destruct Hk as [->| ->]; [by apply Z.mod_small|done].
    + intros db id E _. destruct Hk as [->| ->]; [done|]. injection E as <-. split; [by repeat split|].
      by apply sample_path_ok.
  - by apply Exists_cons_hd.
  - intros d d' _ Hd Hd' Hlt Hfree.
    repeat (apply elem_of_cons in Hd as [->|Hd]); [| |by apply not_elem_of_nil in Hd];
    repeat (apply elem_of_cons in Hd' as [->|Hd']); try (by apply not_elem_of_nil in Hd'); simpl in *; done || lia.
Qed.

(** The store opened from it. *)
Lemma sample_storage k :
  k = FixedSize ∨ k = Expandable "db" →
  ∃ fs, FileStorage.open k sample_disk sample_registry = Some fs ∧ fs_inv fs ∧ FileStorage.kind fs = k ∧
    (∀ j, (j ≤ 100)%nat → budget j fs) ∧ FileStorage.current_volume fs = 0.
Proof.
  intros Hk. destruct (open_ok k sample_disk sample_registry 2 (sample_registry_ok k Hk)) as (fs&E&I&Ek&Hl&Hp&_).
  exists fs. split_and!; [done..| |].
  - intros j Hj. unfold budget. rewrite Ek, Hl. destruct Hk as [->| ->]; [|lia].
    intros d Hd. rewrite <- Hp in Hd.
    repeat (apply elem_of_cons in Hd as [->|Hd]); [simpl; lia..|by apply not_elem_of_nil in Hd].
  - destruct Hk as [->| ->]; vm_compute in E; by injection E as <-.
Qed.

Lemma make_block_ok : block_ok IOVec.make.
Proof. split; [done|]. repeat constructor. Qed.

Lemma storage_open_reads_witness :
  ∃ fs, FileStorage.open FixedSize sample_disk sample_registry = Some fs ∧
    FileStorage.read_iovec_block (make_logic 0 0) fs = Some (kOk, Some (loaded (block_at 0 (Vol.create_new 2)))).
Proof.
  destruct (storage_open_reads FixedSize sample_disk sample_registry 2) as (fs&E&_&_&Hr);
    [apply sample_registry_ok; by left|].
  exists fs. split; [exact E|].
  apply (Hr (mkDesc 0 "/d/db_0.vol" FASTSTDB_VERSION 1 2 0) (Vol.create_new 2) 0); [|done|simpl; lia].
  apply elem_of_cons. right. by apply list_elem_of_singleton.
Defined.

(** Nine blocks in a ring of two volumes of two blocks: the last one is read, the
    first one is gone. *)
Lemma fixed_storage_history_witness :
  ∃ fs addrs fs', FileStorage.open FixedSize sample_disk sample_registry = Some fs ∧
    append_all (replicate 9 IOVec.make) fs = Some (addrs, fs') ∧ NoDup addrs ∧
    (∃ a, addrs !! 8%nat = Some a ∧ FileStorage.read_iovec_block a fs' = Some (kOk, Some (loaded (image IOVec.make)))) ∧
    ∃ a, addrs !! 0%nat = Some a ∧ FileStorage.read_iovec_block a fs' = Some (kUnavailable, None).
Proof.
  destruct (sample_storage FixedSize) as (fs&E&I&Ek&Hb&_); [by left|].
  destruct (fixed_storage_history (replicate 9 IOVec.make) fs I Ek) as (addrs&fs'&Ea&_&Hn&Hall&Hlast).
  { apply Hb. simpl. lia. }
  { apply Forall_replicate, make_block_ok. }
  assert (Hgone : (fs ← FileStorage.open FixedSize sample_disk sample_registry; '(addrs, fs') ← append_all (replicate 9 IOVec.make) fs;
    a ← addrs !! 0%nat; Some (FileStorage.exists_addr a fs')) = Some false) by (vm_compute; reflexivity).
  rewrite E in Hgone. cbn [mbind option_bind] in Hgone. rewrite Ea in Hgone. cbn [mbind option_bind] in Hgone.
  exists fs, addrs, fs'. split_and!; [exact E|exact Ea|exact Hn| |].
  - pose proof (Forall2_length _ _ _ Hall) as Hl. rewrite length_replicate in Hl.
    destruct (lookup_lt_is_Some_2 addrs 8%nat) as [a Ha]; [lia|]. exists a. split; [exact Ha|].
    apply (Hlast 0 8%nat a IOVec.make); [lia| |exact Ha|reflexivity|simpl; lia].
    unfold sizes. apply Forall_fmap, Forall_forall. intros v (i&Hi)%list_elem_of_lookup. simpl.
    destruct (lookup_lt_is_Some_2 (MetaVolume.refs (FileStorage.meta fs)) i) as [d Hd]; [rewrite (fi_len _ I); by eapply lookup_lt_Some|].
    destruct (fi_vol _ I _ _ _ Hi Hd). lia.
  - destruct (addrs !! 0%nat) as [a|] eqn:Ha; [|done]. cbn [mbind option_bind] in Hgone. injection Hgone as Hgone. exists a. split; [done|].
    destruct (Forall2_lookup_lr _ _ _ 0%nat a IOVec.make Hall Ha eq_refl) as (g&_&[(_&_&Hx)|(_&Hr&_)]); [congruence|exact Hr].
Defined.

(** In an expandable store of the same volumes the first one is still read. *)
Lemma expandable_storage_history_witness :
  ∃ fs addrs fs' a, FileStorage.open (Expandable "db") sample_disk sample_registry = Some fs ∧
    append_all (replicate 9 IOVec.make) fs = Some (addrs, fs') ∧ NoDup addrs ∧
    addrs !! 0%nat = Some a ∧ FileStorage.read_iovec_block a fs' = Some (kOk, Some (loaded (image IOVec.make))).
Proof.
  destruct (sample_storage (Expandable "db")) as (fs&E&I&Ek&Hb&_); [by right|].
  destruct (expandable_storage_history (replicate 9 IOVec.make) fs "db" I Ek) as (addrs&fs'&Ea&_&Hn&Hall).
  { apply Hb. simpl. lia. }
  { apply Forall_replicate, make_block_ok. }
  pose proof (Forall2_length _ _ _ Hall) as Hl. rewrite length_replicate in Hl.
  destruct (lookup_lt_is_Some_2 addrs 0%nat) as [a Ha]; [lia|]. exists fs, addrs, fs', a. split_and!; [exact E|exact Ea|exact Hn|exact Ha|].
  apply (Forall2_lookup_lr _ _ _ 0%nat a IOVec.make Hall Ha eq_refl).
Defined.

Lemma append_error_reported_ok_witness :
  ∃ fs b' fs', FileStorage.open FixedSize sample_disk sample_registry = Some fs ∧
    FileStorage.append_block IoSeekError IoOk IOVec.make fs
      = Some (kOk, make_logic (FileStorage.current_gen fs) 0, b', fs') ∧
    MetaVolume.get_nblocks (FileStorage.current_volume fs) (FileStorage.meta fs') = (kOk, 1).
Proof.
  destruct (sample_storage FixedSize) as (fs&E&I&Ek&Hb&Ec); [by left|].
  assert (FileStorage.volumes fs !! 0%nat = Some (Vol.open_existing "/d/db_0.vol" 1 (Vol.create_new 2))) as Hv
    by (vm_compute in E; by injection E as <-).
  destruct (append_error_reported_ok fs _ IOVec.make IoSeekError I ltac:(rewrite Ec; exact Hv))
    as (b'&fs'&Ea&En); [by_compute|apply make_block_ok|by left|].
  exists fs, b', fs'. split_and!; [exact E|exact Ea|exact En].
Defined.
