(* ===== verification/MemStore.v ===== *)
(** * The memory store, the block cache and the interface of block stores
    (block_store.h/.cc)

    [BlockStore] is the abstract class of block_store.h that the tree is written
    against, [BlockStoreLaws] what it promises: a history of the blocks that
    were accepted, each at an address of its own, none of them ever read back
    changed.  [MemStore] and both kinds of [FileStorage] keep the promise. *)
From S2P Require Import Prelude Status ByteStream Base128 VByte DataBlock IOVec Volume MetaVolume BlockStore BlockStoreProof Crc32c.

(** ** The interface *)

Class BlockStore (B : Type) := {
  bs_read : Z → B → option (Status * option IOVecBlock);
  bs_append : IOVecBlock → B → option (Status * Z * IOVecBlock * B);
  bs_exists : Z → B → bool;
}.

(** [bs_inv k s hist]: the store [s] has accepted the blocks of [hist] and has
    room for [k] more.  Address 0 is handed out first if at all. *)
Class BlockStoreLaws (B : Type) `{BlockStore B} := {
  bs_inv : nat → B → gmap Z (list Z) → Prop;
  bs_append_ok k s hist b : bs_inv (S k) s hist → block_ok b →
    ∃ addr b' s', bs_append b s = Some (kOk, addr, b', s') ∧ hist !! addr = None ∧
      is_u64 addr ∧ addr ≠ EMPTY_ADDR ∧ bs_inv k s' (<[addr := image b]> hist) ∧ (hist ≠ ∅ → addr ≠ 0) ∧
      b' = IOVec.set_addr (addr_ b') b;
  bs_weaken k s hist : bs_inv (S k) s hist → bs_inv k s hist;
  bs_read_ok k s hist addr img : bs_inv k s hist → hist !! addr = Some img →
    (bs_read addr s = Some (kOk, Some (loaded img)) ∧ bs_exists addr s = true) ∨
    (bs_read addr s = Some (kUnavailable, None) ∧ bs_exists addr s = false);
}.

(** ** Checksums *)

Section Checksum.
Variable impl : crc32c_impl_t.

(** [checksum(data, size)] of [size] bytes at address [at]. *)
Definition checksum (at_ : Z) (data : list Z) : Z := impl at_ 0 data.

(** [checksum(block, offset, size)]; [at_ i] is the address of component [i].
    The loop stops at the first component that is missing or too short. *)
Fixpoint checksum_loop (at_ : nat → Z) (i : nat) (comps : list (list Z)) (offset size : nat) (crc32 : Z) : Z :=
  match comps with
  | [] => crc32
  | d :: comps =>
    if decide (length d < offset ∨ length d = 0 ∨ size = 0)%nat then crc32 else
    let sz := Nat.min (length d - offset) size in
    checksum_loop at_ (i + 1) comps 0 (size - sz)
      (impl (at_ i + Z.of_nat offset) crc32 (take sz (drop offset d)))
  end.

Definition checksum_block (at_ : nat → Z) (block : IOVecBlock) (offset size : nat) : Z :=
  checksum_loop at_ 0 (data_ block) offset size 0.

Context `{!Crc32cImpl impl}.

Lemma checksum_ok at_ data : Forall is_u8 data → checksum at_ data = crc32c_ref 0 data.
Proof. intros. apply crc_impl_ok; [|done]. by unfold is_u32. Qed.

Lemma crc32c_ref_nil c : is_u32 c → crc32c_ref c [] = c.
Proof. intros. unfold crc32c_ref. simpl. by rewrite Z.lxor_assoc, Z.lxor_nilpotent, Z.lxor_0_r. Qed.

Lemma checksum_loop_ok at_ full k i offset size crc32 :
  Forall (λ d, Forall is_u8 d ∧ length d = COMPONENT_SIZE) full → is_u32 crc32 →
  (offset < COMPONENT_SIZE)%nat → (offset + size ≤ length (concat full))%nat →
  checksum_loop at_ i (full ++ replicate k []) offset size crc32
  = crc32c_ref crc32 (take size (drop offset (concat full))).
Proof using Crc32cImpl0.
  intros Hf Hc Ho Hs. revert i offset size crc32 Hc Ho Hs.
  induction Hf as [|d full [Hd Hl] Hf IH]; intros i offset size crc32 Hc Ho Hs; simpl in Hs |- *.
  { assert (size = 0%nat) as -> by lia. rewrite take_0, crc32c_ref_nil by done.
    destruct k; [done|]. simpl. rewrite decide_True by lia. done. }
  rewrite length_app in Hs. case_decide as Hstop.
  { destruct Hstop as [?|[?|Hz]]; [lia|lia|]. subst size. by rewrite take_0, crc32c_ref_nil. }
  rewrite crc_impl_ok by (done || by apply Forall_take, Forall_drop).
  destruct (decide (length d - offset ≤ size)%nat) as [Hle|Hgt].
  - rewrite Nat.min_l by done. rewrite IH; [|by apply crc32c_ref_u32, Forall_take, Forall_drop|lia|lia].
    rewrite crc32c_ref_app. f_equal. rewrite drop_0, drop_app_le by lia.
    rewrite (take_app_ge (drop offset d)) by (rewrite length_drop; lia).
    rewrite length_drop, (take_ge (drop offset d)) by (rewrite length_drop; lia). done.
  - rewrite Nat.min_r by lia. replace (size - size)%nat with 0%nat by lia.
    rewrite IH; [|by apply crc32c_ref_u32, Forall_take, Forall_drop|pose proof component_pos; lia|lia].
    rewrite take_0, crc32c_ref_nil by (by apply crc32c_ref_u32, Forall_take, Forall_drop).
    f_equal. rewrite drop_app_le, take_app_le by (rewrite ?length_drop; lia). done.
Qed.

(** The checksum of a scattered block is the checksum of its bytes. *)
Lemma checksum_block_ok at_ b offset size :
  iov_inv b → (offset < COMPONENT_SIZE)%nat →
  (offset + size ≤ length (flat b))%nat →
  checksum_block at_ b offset size = crc32c_ref 0 (take size (drop offset (flat b))).
Proof using Crc32cImpl0.
  intros Hb0 Ho Hs. pose proof (flat_u8 b Hb0) as Hu. destruct Hb0 as [full Hb]. unfold checksum_block. rewrite (flat_shape _ _ Hb) in *.
  rewrite (sh_data _ _ Hb). apply checksum_loop_ok; [|by unfold is_u32|done|done].
  apply Forall_forall. intros d Hd. split.
  - apply Forall_concat in Hu. rewrite Forall_forall in Hu. by apply Hu.
  - pose proof (sh_full _ _ Hb) as Hf. rewrite Forall_forall in Hf. by apply Hf.
Qed.

End Checksum.

(** ** [MemStore] *)

Definition MEMSTORE_BASE : Z := 619.

(** The callbacks observe the store; the model records their calls. *)
Inductive Callback := AppendCallback (addr : Z) | ReadCallback (addr : Z).

Record MemStore := mkMemStore {
  buffer_ : list Z;
  append_callback_ : bool;  (* whether the callback is set *)
  read_callback_ : bool;
  write_pos_ : Z;           (* u32 *)
  removed_pos_ : Z;         (* u32 *)
  calls : list Callback;
}.

Module Mem.

Definition make (append_cb read_cb : bool) : MemStore := mkMemStore [] append_cb read_cb 0 0 [].

Definition set_calls (l : list Callback) (s : MemStore) : MemStore :=
  mkMemStore (buffer_ s) (append_callback_ s) (read_callback_ s) (write_pos_ s) (removed_pos_ s) l.

(** [buffer_.resize(n)]. *)
Definition resize (n : nat) (l : list Z) : list Z := take n l ++ replicate (n - length l) 0.

(** The removed position, in blocks, is compared with the size in bytes. *)
Definition remove (n : Z) (s : MemStore) : Z * MemStore :=
  let removed := u32 n in
  let s :=
    if decide (Z.of_nat (length (buffer_ s)) < removed)
    then mkMemStore (resize (Z.to_nat (u32 (removed * Z.of_nat FASTSTDB_BLOCK_SIZE))) (buffer_ s))
           (append_callback_ s) (read_callback_ s) (u32 n) removed (calls s)
    else mkMemStore (buffer_ s) (append_callback_ s) (read_callback_ s) (write_pos_ s) removed (calls s) in
  (u64 (n + MEMSTORE_BASE), s).

(** The byte offset is computed in 32 bits. *)
Definition read_iovec_block (addr : Z) (s : MemStore) : option (Status * option IOVecBlock * MemStore) :=
  let addr := u64 (addr - MEMSTORE_BASE) in
  let offset := u32 (u64 (Z.of_nat FASTSTDB_BLOCK_SIZE * addr)) in
  if decide (Z.of_nat (length (buffer_ s)) < u32 (offset + Z.of_nat FASTSTDB_BLOCK_SIZE))
  then Some (kBadArg, None, s) else
  if decide (addr < removed_pos_ s) then Some (kUnavailable, None, s) else
  bs ← read_file (Z.to_nat offset) FASTSTDB_BLOCK_SIZE (buffer_ s);
  let block := IOVec.set_data (bs :: replicate 3 []) IOVec.make_allocated in
  let s := if read_callback_ s then set_calls (calls s ++ [ReadCallback addr]) s else s in
  Some (kOk, Some block, s).

Definition append_block (data : IOVecBlock) (s : MemStore) : Status * Z * IOVecBlock * MemStore :=
  let buffer := buffer_ s ++ image data in
  let log := if append_callback_ s
             then calls s ++ [AppendCallback (write_pos_ s + MEMSTORE_BASE)] else calls s in
  let addr := u32 (write_pos_ s + MEMSTORE_BASE) in
  (kOk, addr, IOVec.set_addr addr data,
   mkMemStore buffer (append_callback_ s) (read_callback_ s) (u32 (write_pos_ s + 1)) (removed_pos_ s) log).

Definition exists_addr (addr : Z) (s : MemStore) : bool :=
  let addr := u64 (addr - MEMSTORE_BASE) in
  bool_decide (removed_pos_ s ≤ addr) && bool_decide (addr < write_pos_ s).

Definition get_stats (s : MemStore) : BlockStoreStats := mkStats 4096 (1024 * 4096) (write_pos_ s).
Definition get_volume_stats (s : MemStore) : list (string * BlockStoreStats) := [("mem"%string, get_stats s)].
Definition get_write_pos (s : MemStore) : Z := write_pos_ s.
Definition reset_write_pos (pos : Z) (s : MemStore) : Z * MemStore :=
  (write_pos_ s, mkMemStore (buffer_ s) (append_callback_ s) (read_callback_ s) (u32 pos) (removed_pos_ s) (calls s)).
Definition get_top_address (s : MemStore) : Z := MEMSTORE_BASE + write_pos_ s.

(** *** Invariant: the buffer holds [write_pos_] blocks, [k] fewer than fit *)

Record mem_inv (k : nat) (s : MemStore) (hist : gmap Z (list Z)) : Prop := {
  mi_len : length (buffer_ s) = (Z.to_nat (write_pos_ s) * FASTSTDB_BLOCK_SIZE)%nat;
  mi_pos : 0 ≤ write_pos_ s ∧ write_pos_ s + Z.of_nat k < 2 ^ 20;
  mi_hist addr img : hist !! addr = Some img →
    MEMSTORE_BASE ≤ addr < MEMSTORE_BASE + write_pos_ s ∧
    block_at (addr - MEMSTORE_BASE) (buffer_ s) = img;
}.

Lemma block_at_app ix l1 l2 :
  ((Z.to_nat ix + 1) * FASTSTDB_BLOCK_SIZE ≤ length l1)%nat → block_at ix (l1 ++ l2) = block_at ix l1.
Proof. intros Hix. unfold block_at. rewrite drop_app_le, take_app_le; [done|rewrite ?length_drop; nia|nia]. Qed.

Lemma mem_append_ok k s hist b :
  mem_inv (S k) s hist → block_ok b →
  ∃ addr b' s', append_block b s = (kOk, addr, b', s') ∧ hist !! addr = None ∧
    is_u64 addr ∧ addr ≠ EMPTY_ADDR ∧ mem_inv k s' (<[addr := image b]> hist) ∧ addr ≠ 0 ∧
    b' = IOVec.set_addr (addr_ b') b.
Proof.
  intros [Hl Hp Hh] Hb. unfold append_block, is_u64, EMPTY_ADDR.
  rewrite !(u32_id (write_pos_ s + _)) by (unfold is_u32, MEMSTORE_BASE; lia).
  assert (Hn : hist !! (write_pos_ s + MEMSTORE_BASE) = None).
  { destruct (hist !! _) as [img|] eqn:E; [|done]. apply Hh in E. lia. }
  eexists _, _, _. split; [done|]. unfold MEMSTORE_BASE in *. split_and!; [done|lia|lia|lia| |lia|done].
  constructor; simpl; [|lia|].
  - rewrite length_app, Hl, length_image by done. rewrite Z2Nat.inj_add by lia. lia.
  - intros addr img [[<- <-]|[Hne Ha]]%lookup_insert_Some; unfold MEMSTORE_BASE in *.
    + split; [lia|]. replace (write_pos_ s + 619 - 619) with (write_pos_ s) by lia.
      unfold block_at. rewrite <- Hl, drop_app_length. by rewrite take_ge by (rewrite length_image by done; lia).
    + destruct (Hh _ _ Ha) as [Hr <-]. split; [lia|]. apply block_at_app. rewrite Hl. nia.
Qed.

Lemma read_ok k s hist addr img :
  mem_inv k s hist → hist !! addr = Some img → 0 ≤ removed_pos_ s →
  if decide (addr - MEMSTORE_BASE < removed_pos_ s)
  then read_iovec_block addr s = Some (kUnavailable, None, s) ∧ exists_addr addr s = false
  else (∃ s', read_iovec_block addr s = Some (kOk, Some (loaded img), s')) ∧ exists_addr addr s = true.
Proof.
  intros [Hl Hp Hh] Ha Hr. destruct (Hh _ _ Ha) as [Hlt <-]. unfold read_iovec_block, exists_addr.
  unfold MEMSTORE_BASE in *. set (ix := addr - 619) in *. rewrite !(u64_id ix) by (unfold is_u64, ix; lia).
  rewrite block_size_Z, (u64_id (4096 * ix)) by (unfold is_u64, ix; lia).
  rewrite (u32_id (4096 * ix)), u32_id by (unfold is_u32, ix; lia).
  pose proof block_size_Z as Hbs.
  rewrite (decide_False (P := Z.of_nat (length (buffer_ s)) < _)) by (rewrite Hl; unfold ix; nia).
  case_decide as Hrm.
  - split; [done|]. by rewrite bool_decide_eq_false_2 by lia.
  - rewrite !bool_decide_eq_true_2 by (unfold ix in *; lia). split; [|done].
    unfold read_file. rewrite decide_True by (rewrite Hl; unfold ix; nia).
    cbn [mbind option_bind]. eexists. unfold block_at, ix.
    replace (Z.to_nat (4096 * (addr - 619))) with (Z.to_nat (addr - 619) * FASTSTDB_BLOCK_SIZE)%nat by nia.
    done.
Qed.

End Mem.

Arguments Mem.append_block : simpl never.
Arguments Mem.read_iovec_block : simpl never.

#[export] Instance memstore_store : BlockStore MemStore := {
  bs_read addr s := '(st, b, _) ← Mem.read_iovec_block addr s; Some (st, b);
  bs_append b s := Some (Mem.append_block b s);
  bs_exists := Mem.exists_addr;
}.

#[export] Program Instance memstore_laws : BlockStoreLaws MemStore := {
  bs_inv k s hist := Mem.mem_inv k s hist ∧ 0 ≤ removed_pos_ s;
}.
Next Obligation.
  intros k s hist b [I Hr] Hb. destruct (Mem.mem_append_ok k s hist b I Hb) as (addr&b'&s'&E&?&?&?&I'&?&Eb).
  exists addr, b', s'. simpl. rewrite E. split_and!; try done. by injection E as <- <- <-.
Qed.
Next Obligation.
  intros k s hist [[Hl Hp Hh] Hr]. split; [|done]. constructor; [done|lia|done].
Qed.
Next Obligation.
  intros k s hist addr img [I Hr] Ha. pose proof (Mem.read_ok k s hist addr img I Ha Hr) as Hread.
  simpl. case_decide; [right|left].
  - destruct Hread as [-> ->]. done.
  - destruct Hread as [[s' ->] ->]. done.
Qed.

(** ** File storages behind the interface *)

#[export] Instance filestorage_store {M} `{VolumeRegistry M} : BlockStore (FileStorage.t M) := {
  bs_read := FileStorage.read_iovec_block;
  bs_append := FileStorage.append_block IoOk IoOk;
  bs_exists := FileStorage.exists_addr;
}.

#[export] Program Instance filestorage_laws {M} `{VolumeRegistryLaws M} : BlockStoreLaws (FileStorage.t M) := {
  bs_inv k s hist := fs_inv s ∧ hist_ok s hist ∧ budget k s ∧ (is_Some (hist !! 0) ∨ hist = ∅ ∧ first_free s);
}.
Next Obligation.
  intros M ?? k s hist b (I&Hh&Hk&Hz) Hb.
  destruct (append_block_ok s hist k b I Hh Hk Hb) as (addr&b'&s'&E&I'&Hf&Hh'&Hk'&_&Eb).
  exists addr, b', s'. simpl.
  assert (is_u64 addr ∧ addr ≠ EMPTY_ADDR) as [??].
  { destruct (Hh' addr (image b)) as (g&n&_&_&->&Hg&Hn&_); [by rewrite lookup_insert_eq|].
    unfold is_u32, is_block, is_u64, EMPTY_ADDR in *. rewrite make_logic_eq by lia. lia. }
  split_and!; try done; destruct Hz as [[img Hi]|[-> Hz]].
  - left. destruct (decide (addr = 0)) as [->|]; [by rewrite lookup_insert_eq; eauto|].
    rewrite lookup_insert_ne by done. eauto.
  - left. rewrite (append_block_first s ∅ b addr b' s' I Hh Hb Hz E), lookup_insert_eq. eauto.
  - intros _ ->. by rewrite Hf in Hi.
  - done.
Qed.
Next Obligation.
  intros M ?? k s hist (I&Hh&Hk&Hz). split_and!; try done. by apply budget_le.
Qed.
Next Obligation.
  intros M ?? k s hist addr img (I&Hh&_) Ha.
  destruct (read_hist s hist addr img I Hh Ha) as [?|(?&?&_)]; [by left|by right].
Qed.

(** ** [BlockCache] *)

(** A shared block with the number of its owners outside the cache. *)
Record PBlock := mkPBlock { pb_block : IOVecBlock; pb_owners : Z }.

Definition hash32 (value bits seed : Z) : Z :=
  let a := u64 (u64 (Z.shiftl 1 32) - 1) in
  Z.shiftr (u64 (u64 (a * value) + seed)) (64 - bits).

Definition hash (value bits : Z) : Z :=
  let a := hash32 (Z.land value 0xFFFFFFFF) bits 277 in
  let b := hash32 (u32 (Z.shiftr value 32)) bits 337 in
  Z.lxor a b.

Record BlockCache := mkCache { block_cache_ : list (option PBlock); bits_ : Z }.

Module Cache.

Definition make (Nbits : Z) : BlockCache := mkCache (replicate (Z.to_nat (2 ^ Nbits)) None) Nbits.

(** [block_cache_.at(h)], which throws out of range. *)
Definition at_ (h : Z) (c : BlockCache) : option (option PBlock) := block_cache_ c !! Z.to_nat h.
Definition set_at (h : Z) (p : option PBlock) (c : BlockCache) : option BlockCache :=
  _ ← at_ h c; Some (mkCache (<[Z.to_nat h := p]> (block_cache_ c)) (bits_ c)).

Definition probe (addr : Z) (c : BlockCache) : option Z :=
  b ← at_ (hash addr (bits_ c)) c;
  match b with
  | Some b => Some (if decide (IOVec.get_addr (pb_block b) = addr) then 2 else 1)
  | None => Some 0
  end.

(** The eviction; [p1] and [p2] are local owners of both blocks. *)
Definition evict (h1 h2 : Z) (c : BlockCache) : option BlockCache :=
  p1 ← at_ h1 c;
  p2 ← at_ h2 c;
  match p1, p2 with
  | Some p1, Some p2 =>
    if decide (pb_owners p2 < pb_owners p1) then set_at h2 None c
    else if decide (pb_owners p1 < pb_owners p2) then set_at h1 None c
    else if decide (IOVec.get_addr (pb_block p1) < IOVec.get_addr (pb_block p2)) then set_at h1 None c
    else set_at h2 None c
  | _, _ => Some c
  end.

(** [h1] and [h2] are the draws of [dist_(gen_)], from 0 to [2 ^ Nbits]
    inclusive. *)
Definition insert (h1 h2 : Z) (block : PBlock) (c : BlockCache) : option BlockCache :=
  let addr := IOVec.get_addr (pb_block block) in
  pr ← probe addr c;
  if decide (pr = 2) then Some c else
  c ← (if decide (pr = 0) then evict h1 h2 c else Some c);
  set_at (hash addr (bits_ c)) (Some block) c.

(** An empty cell is dereferenced. *)
Definition loockup (addr : Z) (c : BlockCache) : option (option PBlock) :=
  p ← at_ (hash addr (bits_ c)) c;
  p ← p;
  Some (if decide (IOVec.get_addr (pb_block p) ≠ addr) then None else Some p).

Record cache_inv (c : BlockCache) : Prop := {
  ci_bits : 1 ≤ bits_ c ≤ 32;
  ci_len : length (block_cache_ c) = Z.to_nat (2 ^ bits_ c);
}.

Lemma hash32_range v bits seed : 1 ≤ bits ≤ 32 → 0 ≤ hash32 v bits seed < 2 ^ bits.
Proof.
  intros Hb. unfold hash32. pose proof (u64_range (u64 (u64 (u64 (Z.shiftl 1 32) - 1) * v) + seed)) as Hr.
  set (x := u64 _) in *. unfold is_u64 in Hr. rewrite shiftr_div by lia.
  split; [apply Z.div_pos; lia|]. apply Z.div_lt_upper_bound; [lia|].
  rewrite <- Z.pow_add_r by lia. replace (64 - bits + bits) with 64 by lia. lia.
Qed.

Lemma cache_hash_range v bits : 1 ≤ bits ≤ 32 → 0 ≤ hash v bits < 2 ^ bits.
Proof.
  intros Hb. unfold hash. pose proof (hash32_range (Z.land v 0xFFFFFFFF) bits 277 Hb).
  pose proof (hash32_range (u32 (Z.shiftr v 32)) bits 337 Hb). by apply lxor_range.
Qed.

Lemma at_ok h c : cache_inv c → 0 ≤ h < 2 ^ bits_ c → is_Some (at_ h c).
Proof. intros [Hb Hl] Hh. apply lookup_lt_is_Some_2. rewrite Hl. lia. Qed.

Lemma set_at_ok h p c :
  cache_inv c → 0 ≤ h < 2 ^ bits_ c →
  ∃ c', set_at h p c = Some c' ∧ cache_inv c' ∧ bits_ c' = bits_ c ∧ at_ h c' = Some p.
Proof.
  intros I Hh. destruct (at_ok h c I Hh) as [q Hq]. unfold set_at. rewrite Hq. eexists. split; [done|].
  destruct I as [Hb Hl]. split_and!; [|done|].
  - constructor; simpl; [done|by rewrite length_insert].
  - apply list_lookup_insert_eq. rewrite Hl. lia.
Qed.

Lemma evict_ok h1 h2 c :
  cache_inv c → 0 ≤ h1 < 2 ^ bits_ c → 0 ≤ h2 < 2 ^ bits_ c →
  ∃ c', evict h1 h2 c = Some c' ∧ cache_inv c' ∧ bits_ c' = bits_ c.
Proof.
  intros I H1 H2. destruct (at_ok h1 c I H1) as [p1 E1], (at_ok h2 c I H2) as [p2 E2].
  destruct (set_at_ok h1 None c I H1) as (c1&S1&I1&B1&_), (set_at_ok h2 None c I H2) as (c2&S2&I2&B2&_).
  unfold evict. rewrite E1, E2. cbn [mbind option_bind].
  destruct p1, p2; repeat case_decide; eauto.
Qed.

End Cache.

(** ** Properties *)

(** The block cache never goes wrong on draws inside the table: an
    insertion succeeds, and a lookup of the inserted address then returns a
    block with that address, the inserted one unless the address was cached
    before. *)
Theorem cache_insert_lookup c h1 h2 b :
  Cache.cache_inv c → 0 ≤ h1 < 2 ^ bits_ c → 0 ≤ h2 < 2 ^ bits_ c →
  let addr := IOVec.get_addr (pb_block b) in
  ∃ c' p, Cache.insert h1 h2 b c = Some c' ∧ Cache.cache_inv c' ∧
    Cache.loockup addr c' = Some (Some p) ∧ IOVec.get_addr (pb_block p) = addr ∧
    (Cache.probe addr c ≠ Some 2 → p = b).
Proof.
  intros I H1 H2 addr. pose proof (Cache.cache_hash_range addr _ (Cache.ci_bits _ I)) as Hr.
  destruct (Cache.at_ok _ c I Hr) as [q Hq].
  assert (∀ c1, Cache.cache_inv c1 → bits_ c1 = bits_ c → ∃ c',
    Cache.set_at (hash addr (bits_ c1)) (Some b) c1 = Some c' ∧ Cache.cache_inv c' ∧
    Cache.loockup addr c' = Some (Some b)) as Hset.
  { intros c1 I1 B1. rewrite B1.
    destruct (Cache.set_at_ok (hash addr (bits_ c)) (Some b) c1 I1 ltac:(by rewrite B1)) as (c'&E&I'&B'&Ha).
    exists c'. split_and!; [done..|]. unfold Cache.loockup. rewrite B', B1, Ha. cbn [mbind option_bind].
    by rewrite decide_False by (intros Hx; by apply Hx). }
  unfold Cache.insert. fold addr. destruct q as [p|].
  - assert (Hp : Cache.probe addr c = Some (if decide (IOVec.get_addr (pb_block p) = addr) then 2 else 1)).
    { unfold Cache.probe. by rewrite Hq. }
    rewrite Hp. cbn [mbind option_bind]. destruct (decide (IOVec.get_addr (pb_block p) = addr)) as [Ha|Ha].
    + exists c, p. split_and!; try done. unfold Cache.loockup. rewrite Hq. cbn [mbind option_bind].
      by rewrite decide_False by (intros Hx; by apply Hx).
    + destruct (Hset c I eq_refl) as (c'&E&I'&El). exists c', b. by split_and!.
  - assert (Hp : Cache.probe addr c = Some 0) by (unfold Cache.probe; by rewrite Hq).
    rewrite Hp. cbn [mbind option_bind]. rewrite decide_False, decide_True by done.
    destruct (Cache.evict_ok h1 h2 c I H1 H2) as (c1&->&I1&B1). cbn [mbind option_bind].
    destruct (Hset c1 I1 B1) as (c'&E&I'&El). exists c', b. by split_and!.
Qed.

(** The draws come from a closed interval, so one of them can be
    [2 ^ Nbits], one past the table: inserting into a free cell then throws,
    whatever the cache holds. *)
Theorem cache_insert_out_of_range c h2 b :
  Cache.cache_inv c → Cache.probe (IOVec.get_addr (pb_block b)) c = Some 0 →
  Cache.insert (2 ^ bits_ c) h2 b c = None.
Proof.
  intros [Hb Hl] Hp. unfold Cache.insert. rewrite Hp. cbn [mbind option_bind].
  rewrite decide_False, decide_True by done. unfold Cache.evict, Cache.at_.
  by rewrite (lookup_ge_None_2 _ (Z.to_nat (2 ^ bits_ c))) by lia.
Qed.

Lemma cache_make_inv n : 1 ≤ n ≤ 32 → Cache.cache_inv (Cache.make n).
Proof. intros. constructor; simpl; [done|by rewrite length_replicate]. Qed.

Lemma cache_insert_lookup_witness :
  let b := mkPBlock (IOVec.set_addr 5 IOVec.make) 1 in
  ∃ c' p, Cache.insert 0 1 b (Cache.make 2) = Some c' ∧ Cache.cache_inv c' ∧
    Cache.loockup 5 c' = Some (Some p) ∧ IOVec.get_addr (pb_block p) = 5 ∧
    (Cache.probe 5 (Cache.make 2) ≠ Some 2 → p = b).
Proof.
  apply (cache_insert_lookup (Cache.make 2) 0 1 (mkPBlock (IOVec.set_addr 5 IOVec.make) 1));
    [apply cache_make_inv; lia|simpl; lia|simpl; lia].
Defined.

Lemma cache_insert_out_of_range_witness :
  Cache.insert 4 0 (mkPBlock (IOVec.set_addr 5 IOVec.make) 1) (Cache.make 2) = None.
Proof.
  apply (cache_insert_out_of_range (Cache.make 2) 0 (mkPBlock (IOVec.set_addr 5 IOVec.make) 1));
    [apply cache_make_inv; lia|by vm_compute].
Defined.

(** The checksum of a scattered block, computed component by
    component when a node is committed, is the checksum of the same range of
    the flat block that is read back, for any correct implementations of the
    CRC and any placement in memory. *)
Theorem checksum_scattered impl impl' `{!Crc32cImpl impl, !Crc32cImpl impl'} at_ at' b offset size :
  iov_inv b → (offset < COMPONENT_SIZE)%nat → (offset + size ≤ pos_ b)%nat →
  checksum_block impl at_ b offset size = checksum impl' at' (take size (drop offset (image b))).
Proof.
  intros Hb Ho Hs. pose proof (readable_pos b (or_introl Hb)) as [Hp _]. pose proof (flat_u8 b Hb) as Hu.
  rewrite checksum_block_ok by (done || lia).
  assert (take size (drop offset (flat b)) = take size (drop offset (image b))) as E.
  { rewrite <- (image_flat b Hb) at 1. rewrite skipn_firstn_comm, take_take. f_equal. lia. }
  rewrite (checksum_ok impl') by (rewrite <- E; by apply Forall_take, Forall_drop). by rewrite E.
Qed.

(** A memory store gives every appended block the next address and
    returns it unchanged; [remove] makes exactly the blocks below its argument
    unavailable, as long as that many blocks were written. *)
Theorem memstore_append_remove blocks n (s : MemStore) hist :
  Mem.mem_inv (length blocks) s hist → Forall block_ok blocks → removed_pos_ s = 0 →
  0 ≤ n ≤ write_pos_ s + Z.of_nat (length blocks) →
  let s1 := foldl (λ s b, (Mem.append_block b s).2) s blocks in
  let '(first, s2) := Mem.remove n s1 in
  first = MEMSTORE_BASE + n ∧ write_pos_ s1 = write_pos_ s + Z.of_nat (length blocks) ∧
  ∀ i b, blocks !! i = Some b →
    let addr := MEMSTORE_BASE + write_pos_ s + Z.of_nat i in
    if decide (addr < first)
    then Mem.read_iovec_block addr s2 = Some (kUnavailable, None, s2) ∧ Mem.exists_addr addr s2 = false
    else (∃ s3, Mem.read_iovec_block addr s2 = Some (kOk, Some (loaded (image b)), s3)) ∧
         Mem.exists_addr addr s2 = true.
Proof.
  intros I Hb Hr Hn s1.
  assert (∃ hist1, Mem.mem_inv 0 s1 hist1 ∧ write_pos_ s1 = write_pos_ s + Z.of_nat (length blocks) ∧
    removed_pos_ s1 = 0 ∧ hist ⊆ hist1 ∧ ∀ i b, blocks !! i = Some b →
      hist1 !! (MEMSTORE_BASE + write_pos_ s + Z.of_nat i) = Some (image b))
    as (hist1&I1&Hw&Hr1&_&Hh1).
  { unfold s1. clear s1 Hn. revert s hist I Hr. induction Hb as [|b blocks Hb _ IH]; intros s hist I Hr.
    { exists hist. split_and!; try done. simpl. lia. }
    destruct (Mem.mem_append_ok _ s hist b I Hb) as (addr&b'&s'&E&Hf&_&_&I'&_).
    assert (Hpos := Mem.mi_pos _ _ _ I).
    assert (addr = MEMSTORE_BASE + write_pos_ s ∧ write_pos_ s' = write_pos_ s + 1 ∧ removed_pos_ s' = 0)
      as (->&Hw&Hr').
    { unfold Mem.append_block in E. rewrite !(u32_id (write_pos_ s + _)) in E by (unfold is_u32, MEMSTORE_BASE; lia).
      injection E as <- <- <-. simpl. split_and!; [lia|done|done]. }
    assert ((Mem.append_block b s).2 = s') as Es by (by rewrite E). cbn [foldl]. rewrite Es.
    destruct (IH s' _ I' Hr') as (hist1&I1&Hw1&Hr1&Hsub&Hh1). exists hist1.
    split_and!; [done|simpl in *; lia|done| |].
    - etransitivity; [|exact Hsub]. by apply insert_subseteq.
    - intros [|i] x Hx; simpl in Hx.
      + injection Hx as ->. eapply lookup_weaken; [|exact Hsub]. rewrite lookup_insert_Some. left. split; [lia|done].
      + replace (MEMSTORE_BASE + write_pos_ s + Z.of_nat (S i)) with (MEMSTORE_BASE + write_pos_ s' + Z.of_nat i) by lia.
        by apply Hh1. }
  pose proof (Mem.mi_pos _ _ _ I1) as Hp1. unfold Mem.remove. rewrite u32_id by (unfold is_u32; lia).
  pose proof (Mem.mi_len _ _ _ I1) as Hl1. pose proof block_size_Z as Hbs.
  rewrite decide_False by (rewrite Hl1; nia). rewrite u64_id by (unfold is_u64, MEMSTORE_BASE; lia).
  split_and!; [lia|done|]. intros i b Hi. simpl.
  set (s2 := mkMemStore _ _ _ _ n _). assert (I2 : Mem.mem_inv 0 s2 hist1) by (destruct I1; by constructor).
  pose proof (Mem.read_ok 0 s2 hist1 _ _ I2 (Hh1 i b Hi) (proj1 Hn)) as Hread. simpl in Hread.
  repeat case_decide; try done; lia.
Qed.

(** The memory store computes byte offsets in 32 bits: an address
    2^20 past that of a stored block, which was never handed out, is read as
    that block. *)
Theorem memstore_offset_wraps k (s : MemStore) hist addr img :
  Mem.mem_inv k s hist → hist !! addr = Some img → removed_pos_ s = 0 →
  Mem.exists_addr (addr + 2 ^ 20) s = false ∧
  ∃ s', Mem.read_iovec_block (addr + 2 ^ 20) s = Some (kOk, Some (loaded img), s').
Proof.
  intros [Hl Hp Hh] Ha Hr. destruct (Hh _ _ Ha) as [Hlt <-]. unfold Mem.read_iovec_block, Mem.exists_addr.
  unfold MEMSTORE_BASE in *. replace (addr + 2 ^ 20 - 619) with (addr - 619 + 2 ^ 20) by lia.
  set (ix := addr - 619) in *. rewrite !(u64_id (ix + 2 ^ 20)) by (unfold is_u64, ix; lia).
  rewrite block_size_Z, (u64_id (4096 * _)) by (unfold is_u64, ix; lia).
  assert (u32 (4096 * (ix + 2 ^ 20)) = 4096 * ix) as ->.
  { unfold u32. replace (4096 * (ix + 2 ^ 20)) with (4096 * ix + 1 * 2 ^ 32) by lia.
    rewrite Z_mod_plus_full. apply Z.mod_small. unfold ix. lia. }
  rewrite u32_id by (unfold is_u32, ix; lia). pose proof block_size_Z as Hbs.
  rewrite (bool_decide_eq_false_2 (_ < write_pos_ s)), andb_false_r by (unfold ix; lia). split; [done|].
  rewrite !decide_False by (rewrite ?Hl, ?Hr; unfold ix; nia).
  unfold read_file. rewrite decide_True by (rewrite Hl; unfold ix; nia).
  cbn [mbind option_bind]. eexists. unfold block_at, ix.
  replace (Z.to_nat (4096 * (addr - 619))) with (Z.to_nat (addr - 619) * FASTSTDB_BLOCK_SIZE)%nat by nia.
  done.
Qed.

Lemma mem_make_inv k : Z.of_nat k < 2 ^ 20 → Mem.mem_inv k (Mem.make false false) ∅.
Proof. intros Hk. constructor; [done|simpl; lia|]. intros addr img Ha. by rewrite lookup_empty in Ha. Qed.

Lemma checksum_scattered_witness :
  let b := (IOVec.append_chunk [1; 2; 3; 4] IOVec.make) in
  ∃ b', b = Some (4%nat, b') ∧
    checksum_block crc32c_sw (λ _, 0) b' 1 3 = checksum crc32c_sw 7 (take 3 (drop 1 (image b'))).
Proof.
  destruct (append_chunk_ok IOVec.make [1; 2; 3; 4] iov_make_inv) as (b'&E&Hb&Hp&_); [by_compute..|].
  exists b'. split; [exact E|]. apply (checksum_scattered crc32c_sw crc32c_sw); [exact Hb|by_compute|].
  rewrite Hp. by_compute.
Defined.

Lemma memstore_append_remove_witness :
  let s1 := foldl (λ s b, (Mem.append_block b s).2) (Mem.make false false) [IOVec.make; IOVec.make] in
  let s2 := (Mem.remove 1 s1).2 in
  Mem.exists_addr MEMSTORE_BASE s2 = false ∧ Mem.exists_addr (MEMSTORE_BASE + 1) s2 = true.
Proof.
  pose proof (memstore_append_remove [IOVec.make; IOVec.make] 1 (Mem.make false false) ∅) as Hm. cbv zeta in Hm |- *.
  destruct (Mem.remove 1 _) as [first s2] eqn:E. destruct Hm as (Ef&_&Hm);
    [apply mem_make_inv; simpl; lia|repeat constructor|done|simpl; lia|].
  split; [specialize (Hm 0%nat _ eq_refl)|specialize (Hm 1%nat _ eq_refl)]; rewrite Ef in Hm.
  - rewrite decide_True in Hm by by_compute. exact (proj2 Hm).
  - rewrite decide_False in Hm by by_compute. exact (proj2 Hm).
Defined.

Lemma memstore_offset_wraps_witness :
  ∃ s img s', Mem.exists_addr (MEMSTORE_BASE + 2 ^ 20) s = false ∧
    Mem.read_iovec_block (MEMSTORE_BASE + 2 ^ 20) s = Some (kOk, Some (loaded img), s').
Proof.
  destruct (Mem.mem_append_ok 0 (Mem.make false false) ∅ IOVec.make) as (addr&b'&s&E&_&_&_&I&_);
    [apply mem_make_inv; simpl; lia|by repeat constructor|].
  injection E as E1 _ E2. rewrite <- E1 in I. clear E1.
  destruct (memstore_offset_wraps 0 s _ MEMSTORE_BASE (image IOVec.make) I) as (Hx&s'&Hr);
    [by rewrite lookup_insert_eq|by rewrite <- E2|].
  exists s, (image IOVec.make), s'. split; [exact Hx|exact Hr].
Defined.
