(* ===== verification/Double.v ===== *)
(** * Doubles

    A [double] is its 64 bits.  Comparison is sign and magnitude on the bits,
    false when an operand is NaN; addition, subtraction and division are those
    of the Standard Library's specification of IEEE 754 ([SpecFloat]) with the
    parameters of binary64 and rounding to nearest even.  A NaN result is one
    fixed quiet NaN: which one the machine produces is not specified. *)
From S2P Require Import Prelude.
From Stdlib Require Import SpecFloat.

Definition SIGN : Z := 2 ^ 63.
Definition INF : Z := 0x7FF0000000000000.
Definition QNAN : Z := 0x7FF8000000000000.
(** [std::numeric_limits<double>::max()] and [lowest()]. *)
Definition DBL_MAX : Z := 0x7FEFFFFFFFFFFFFF.
Definition DBL_LOWEST : Z := 0xFFEFFFFFFFFFFFFF.

Definition magnitude (x : Z) : Z := x mod SIGN.
Definition negative (x : Z) : bool := bool_decide (SIGN ≤ x).
Definition is_nan (x : Z) : bool := bool_decide (INF < magnitude x).

(** The position on the line of doubles; both zeros are 0. *)
Definition rank (x : Z) : Z := if negative x then - magnitude x else magnitude x.

Definition dlt (x y : Z) : bool := negb (is_nan x) && negb (is_nan y) && bool_decide (rank x < rank y).
Definition dle (x y : Z) : bool := negb (is_nan x) && negb (is_nan y) && bool_decide (rank x ≤ rank y).
Definition deq (x y : Z) : bool := negb (is_nan x) && negb (is_nan y) && bool_decide (rank x = rank y).

(** ** Conversion to and from the specification *)

Definition sf_of_bits (x : Z) : spec_float :=
  let s := negative x in
  let e := magnitude x / 2 ^ 52 in
  let m := magnitude x mod 2 ^ 52 in
  if decide (e = 2047) then (if decide (m = 0) then S754_infinity s else S754_nan)
  else if decide (e = 0) then
    match m with Zpos p => S754_finite s p (-1074) | _ => S754_zero s end
  else match m + 2 ^ 52 with Zpos p => S754_finite s p (e - 1075) | _ => S754_nan end.

Definition sign_bits (s : bool) : Z := if s then SIGN else 0.

(** A pattern is 64 bits wide. *)
Definition bits_of_sf (f : spec_float) : Z :=
  u64 match f with
      | S754_zero s => sign_bits s
      | S754_infinity s => sign_bits s + INF
      | S754_nan => QNAN
      | S754_finite s p e =>
        if decide (Zpos p < 2 ^ 52) then sign_bits s + Zpos p
        else sign_bits s + (e + 1075) * 2 ^ 52 + (Zpos p - 2 ^ 52)
      end.

Definition dadd (x y : Z) : Z := bits_of_sf (SFadd 53 1024 (sf_of_bits x) (sf_of_bits y)).
Definition dsub (x y : Z) : Z := bits_of_sf (SFsub 53 1024 (sf_of_bits x) (sf_of_bits y)).
Definition ddiv (x y : Z) : Z := bits_of_sf (SFdiv 53 1024 (sf_of_bits x) (sf_of_bits y)).

(** The conversion of an unsigned integer: exact below 2^53, rounded above. *)
Definition double_of_u64 (n : Z) : Z :=
  if decide (n = 0) then 0
  else if decide (n < 2 ^ 53) then (Z.log2 n + 1022) * 2 ^ 52 + n * 2 ^ (52 - Z.log2 n)
  else bits_of_sf (binary_normalize 53 1024 n 0 false).

(** [std::min(a, b)] and [std::max(a, b)]. *)
Definition dmin (a b : Z) : Z := if dlt b a then b else a.
Definition dmax (a b : Z) : Z := if dlt a b then b else a.

(** ** Lemmas *)

Lemma magnitude_range x : 0 ≤ magnitude x < SIGN.
Proof. apply Z.mod_pos_bound. done. Qed.

Lemma sign_magnitude x : is_u64 x → x = sign_bits (negative x) + magnitude x.
Proof.
  unfold is_u64, sign_bits, negative, magnitude, SIGN. intros Hx. case_bool_decide as Hs.
  - rewrite <- (Z_mod_plus_full x (-1)), Z.mod_small by lia. lia.
  - rewrite Z.mod_small; lia.
Qed.

Lemma dadd_u64 x y : is_u64 (dadd x y).
Proof. apply u64_range. Qed.

Lemma bits_of_sf_of_bits x : is_u64 x → is_nan x = false → bits_of_sf (sf_of_bits x) = x.
Proof.
  intros Hx Hn. unfold is_nan in Hn. apply bool_decide_eq_false in Hn.
  unfold bits_of_sf. rewrite <- (u64_id x Hx) at 2. f_equal. rewrite (sign_magnitude x Hx) at 2.
  unfold sf_of_bits. pose proof (magnitude_range x) as Hm.
  set (s := negative x). set (m := magnitude x) in *. unfold INF, SIGN in *.
  pose proof (Z.div_mod m (2 ^ 52) ltac:(lia)) as Edm. pose proof (Z.mod_pos_bound m (2 ^ 52) ltac:(lia)) as Hlo.
  assert (0 ≤ m / 2 ^ 52) by (apply Z.div_pos; lia).
  set (e := m / 2 ^ 52) in *. set (f := m mod 2 ^ 52) in *. clearbody e f s.
  case_decide as He.
  { subst e. case_decide as Hf; simpl; unfold INF; lia. }
  case_decide as He0.
  - subst e. destruct f as [|p|p] eqn:Ef; simpl; [lia| |lia]. rewrite decide_True by lia. lia.
  - destruct (f + 2 ^ 52) as [|p|p] eqn:Ef; [lia| |lia]. simpl. rewrite decide_False by lia. lia.
Qed.

(** Adding to a positive zero changes nothing but the sign of a zero. *)
Lemma dadd_zero_l x :
  is_u64 x → is_nan x = false → x ≠ SIGN → dadd 0 x = x.
Proof.
  intros Hx Hn Hs. unfold dadd. change (sf_of_bits 0) with (S754_zero false). simpl.
  destruct (sf_of_bits x) as [s|s| |s p e] eqn:E; try (rewrite <- E; by apply bits_of_sf_of_bits).
  pose proof (bits_of_sf_of_bits x Hx Hn) as Eb. rewrite E in Eb. destruct s; [|done].
  exfalso. by apply Hs.
Qed.

Lemma dlt_trans x y z : dlt x y = true → dlt y z = true → dlt x z = true.
Proof.
  unfold dlt. rewrite !andb_true_iff, !bool_decide_eq_true. intros [[??]?] [[??]?]. split_and!; [done..|lia].
Qed.

Lemma dlt_irrefl x : dlt x x = false.
Proof. unfold dlt. rewrite (bool_decide_eq_false_2 (rank x < rank x)) by lia. apply andb_false_r. Qed.

(** Without NaN the order is that of the positions. *)
Lemma dlt_rank x y : is_nan x = false → is_nan y = false → dlt x y = bool_decide (rank x < rank y).
Proof. unfold dlt. by intros -> ->. Qed.
Lemma dle_rank x y : is_nan x = false → is_nan y = false → dle x y = bool_decide (rank x ≤ rank y).
Proof. unfold dle. by intros -> ->. Qed.

Example dadd_example : dadd 0x3FF8000000000000 0x4002000000000000 = 0x400E000000000000.
Proof. vm_compute. reflexivity. Qed.
Example double_of_u64_example :
  double_of_u64 3 = 0x4008000000000000 ∧ double_of_u64 (2 ^ 53 - 1) = 0x433FFFFFFFFFFFFF ∧
  double_of_u64 1000 = bits_of_sf (binary_normalize 53 1024 1000 0 false) ∧
  double_of_u64 (2 ^ 64 - 1) = 0x43F0000000000000.
Proof. vm_compute. done. Qed.

(** A double that is neither NaN nor infinite. *)
Definition finite (x : Z) : Prop := is_u64 x ∧ magnitude x < INF.

#[export] Instance finite_dec x : Decision (finite x).
Proof. unfold finite. apply _. Defined.

Lemma finite_not_nan x : finite x → is_nan x = false.
Proof. intros [_ Hx]. apply bool_decide_eq_false. lia. Qed.

Lemma finite_rank x : finite x → rank DBL_LOWEST ≤ rank x ≤ rank DBL_MAX.
Proof.
  intros [_ Hx]. change (rank DBL_LOWEST) with (- (INF - 1)). change (rank DBL_MAX) with (INF - 1).
  pose proof (magnitude_range x). unfold rank. destruct (negative x); lia.
Qed.

(** Counting from zero. *)
Lemma dadd_zero_count n : 0 ≤ n < 2 ^ 53 → dadd 0 (double_of_u64 n) = double_of_u64 n.
Proof.
  intros Hn. unfold double_of_u64. case_decide as H0; [done|]. rewrite decide_True by lia.
  pose proof (Z.log2_spec n ltac:(lia)) as [Hlo Hhi]. pose proof (Z.log2_nonneg n).
  assert (Z.log2 n < 53) by (apply Z.log2_lt_pow2; lia). set (e := Z.log2 n) in *.
  assert (Hm : 2 ^ 52 ≤ n * 2 ^ (52 - e) < 2 ^ 53).
  { split.
    - replace (2 ^ 52) with (2 ^ e * 2 ^ (52 - e)) by (rewrite <- Z.pow_add_r by lia; f_equal; lia).
      apply Z.mul_le_mono_nonneg_r; [lia|done].
    - replace (2 ^ 53) with (2 ^ Z.succ e * 2 ^ (52 - e)) by (rewrite <- Z.pow_add_r by lia; f_equal; lia).
      apply Z.mul_lt_mono_pos_r; [lia|done]. }
  set (m := n * 2 ^ (52 - e)) in *. clearbody m e.
  apply dadd_zero_l; [unfold is_u64; lia| |unfold SIGN; lia].
  unfold is_nan, magnitude, SIGN, INF. rewrite Z.mod_small by lia. apply bool_decide_eq_false. lia.
Qed.

(** ** Counting is exact below 2^53 *)

Lemma digits2_log2 p : Zpos (digits2_pos p) = Z.log2 (Zpos p) + 1.
Proof.
  induction p as [p IH|p IH|]; [| |done]; cbn [digits2_pos]; rewrite Pos2Z.inj_succ, IH.
  - rewrite Pos2Z.inj_xI, Z.log2_succ_double by lia. lia.
  - rewrite Pos2Z.inj_xO, Z.log2_double by lia. lia.
Qed.

Lemma iter_pos_nat {A} (f : A → A) p x : iter_pos f p x = Nat.iter (Pos.to_nat p) f x.
Proof.
  revert x. induction p as [p IH|p IH|]; intros x; cbn [iter_pos]; [| |done].
  - rewrite !IH, <- Nat.iter_add, Pos2Nat.inj_xI, <- Nat.iter_succ_r. f_equal. lia.
  - rewrite !IH, <- Nat.iter_add, Pos2Nat.inj_xO. f_equal. lia.
Qed.

Lemma shr_exact k m : 0 < m →
  Nat.iter k shr_1 (Build_shr_record (m * 2 ^ Z.of_nat k) false false) = Build_shr_record m false false.
Proof.
  intros Hm. induction k as [|k IH]; [simpl; f_equal; lia|].
  rewrite Nat.iter_succ_r. replace (m * 2 ^ Z.of_nat (S k)) with (2 * (m * 2 ^ Z.of_nat k))
    by (rewrite Nat2Z.inj_succ, Z.pow_succ_r by lia; lia).
  rewrite <- IH. f_equal. assert (0 < m * 2 ^ Z.of_nat k) by (apply Z.mul_pos_pos; [lia|apply Z.pow_pos_nonneg; lia]).
  by destruct (m * 2 ^ Z.of_nat k).
Qed.

(** The double of a positive integer below 2^53. *)
Lemma sf_of_count n :
  0 < n < 2 ^ 53 → sf_of_bits (double_of_u64 n) = S754_finite false (Z.to_pos (n * 2 ^ (52 - Z.log2 n))) (Z.log2 n - 52).
Proof.
  intros Hn. unfold double_of_u64. rewrite decide_False, decide_True by lia.
  pose proof (Z.log2_spec n ltac:(lia)) as [Hlo Hhi]. pose proof (Z.log2_nonneg n).
  assert (Z.log2 n < 53) by (apply Z.log2_lt_pow2; lia). set (e := Z.log2 n) in *.
  assert (Hm : 2 ^ 52 ≤ n * 2 ^ (52 - e) < 2 ^ 53).
  { split.
    - replace (2 ^ 52) with (2 ^ e * 2 ^ (52 - e)) by (rewrite <- Z.pow_add_r by lia; f_equal; lia).
      apply Z.mul_le_mono_nonneg_r; [lia|done].
    - replace (2 ^ 53) with (2 ^ Z.succ e * 2 ^ (52 - e)) by (rewrite <- Z.pow_add_r by lia; f_equal; lia).
      apply Z.mul_lt_mono_pos_r; [lia|done]. }
  set (m := n * 2 ^ (52 - e)) in *. clearbody m e. clear Hlo Hhi.
  unfold sf_of_bits, negative, magnitude, SIGN. rewrite bool_decide_eq_false_2 by lia.
  rewrite (Z.mod_small _ (2 ^ 63)) by lia.
  assert (E1 : ((e + 1022) * 2 ^ 52 + m) / 2 ^ 52 = e + 1023) by (symmetry; apply (Z.div_unique _ _ _ (m - 2 ^ 52)); lia).
  assert (E2 : ((e + 1022) * 2 ^ 52 + m) mod 2 ^ 52 = m - 2 ^ 52) by (symmetry; apply (Z.mod_unique _ _ (e + 1023)); lia).
  rewrite E1, E2, !decide_False by lia. replace (m - 2 ^ 52 + 2 ^ 52) with m by lia.
  destruct m; [lia|f_equal; lia|lia].
Qed.

Lemma bits_of_count n :
  0 < n < 2 ^ 53 → bits_of_sf (S754_finite false (Z.to_pos (n * 2 ^ (52 - Z.log2 n))) (Z.log2 n - 52)) = double_of_u64 n.
Proof.
  intros Hn. rewrite <- sf_of_count by done. apply bits_of_sf_of_bits; unfold double_of_u64;
    rewrite decide_False, decide_True by lia;
    pose proof (Z.log2_nonneg n); assert (Z.log2 n < 53) by (apply Z.log2_lt_pow2; lia);
    pose proof (Z.log2_spec n ltac:(lia)) as [Hlo Hhi]; set (e := Z.log2 n) in *;
    assert (Hm : 0 < n * 2 ^ (52 - e) < 2 ^ 53) by
     (split; [apply Z.mul_pos_pos; [lia|apply Z.pow_pos_nonneg; lia]|];
      replace (2 ^ 53) with (2 ^ Z.succ e * 2 ^ (52 - e)) by (rewrite <- Z.pow_add_r by lia; f_equal; lia);
      apply Z.mul_lt_mono_pos_r; [lia|done]);
    set (m := n * 2 ^ (52 - e)) in *; clearbody m e.
  - unfold is_u64. lia.
  - unfold is_nan, magnitude, SIGN, INF. rewrite Z.mod_small by lia. apply bool_decide_eq_false. lia.
Qed.

Lemma shl_align_pos m e e' : e' ≤ e → Zpos (fst (shl_align m e e')) = Zpos m * 2 ^ (e - e').
Proof.
  intros He. unfold shl_align. destruct (e' - e) as [|d|d] eqn:Ed; [|lia|]; cbn [fst].
  - replace (e - e') with 0 by lia. lia.
  - replace (e - e') with (Zpos d) by lia.
    clear. induction d as [|d IH] using Pos.peano_ind; [simpl; lia|].
    rewrite Pos2Z.inj_succ, Z.pow_succ_r, Pos.iter_succ by lia. lia.
Qed.

(** Rounding an integer below 2^53 given with [k] more binary places. *)
Lemma round_count v k :
  0 < v < 2 ^ 53 → 0 ≤ k → 52 - Z.log2 v ≤ k ≤ 52 →
  binary_normalize 53 1024 (v * 2 ^ k) (- k) false = S754_finite false (Z.to_pos (v * 2 ^ (52 - Z.log2 v))) (Z.log2 v - 52).
Proof.
  intros Hv Hk Hek. pose proof (Z.log2_nonneg v). assert (Z.log2 v < 53) by (apply Z.log2_lt_pow2; lia).
  assert (El : ∀ j, 0 ≤ j → Z.log2 (v * 2 ^ j) = Z.log2 v + j) by (intros; rewrite Z.log2_mul_pow2 by lia; lia).
  assert (Hp : ∀ j, 0 ≤ j → 0 < v * 2 ^ j) by (intros; apply Z.mul_pos_pos; [lia|apply Z.pow_pos_nonneg; lia]).
  pose proof (Hp k Hk) as Hpk. unfold binary_normalize. destruct (v * 2 ^ k) as [|M|M] eqn:EM; [lia| |lia].
  assert (Ed : Zpos (digits2_pos M) = Z.log2 v + k + 1) by (rewrite digits2_log2, <- EM, El by lia; lia).
  unfold binary_round. rewrite Ed.
  assert (Ef : ∀ x, -1021 - 52 ≤ x → fexp 53 1024 (x + 53) = x) by (intros; unfold fexp, emin; lia).
  replace (Z.log2 v + k + 1 + - k) with (Z.log2 v - 52 + 53) by lia. rewrite Ef by lia.
  assert (Es : shl_align M (- k) (Z.log2 v - 52) = (M, - k)).
  { unfold shl_align. destruct (Z.log2 v - 52 - - k) eqn:E; [done|done|lia]. }
  rewrite Es. unfold binary_round_aux.
  assert (E1 : shr_fexp 53 1024 (Zpos M) (- k) loc_Exact = (Build_shr_record (v * 2 ^ (52 - Z.log2 v)) false false, Z.log2 v - 52)).
  { unfold shr_fexp, Zdigits2, shr_record_of_loc, shr. rewrite Ed.
    replace (Z.log2 v + k + 1 + - k) with (Z.log2 v - 52 + 53) by lia. rewrite Ef by lia.
    destruct (Z.log2 v - 52 - - k) as [|d|d] eqn:E; [| |lia].
    - f_equal; [|lia]. f_equal. rewrite <- EM. do 2 f_equal. lia.
    - f_equal; [|lia]. rewrite iter_pos_nat, <- EM.
      replace (v * 2 ^ k) with (v * 2 ^ (52 - Z.log2 v) * 2 ^ Z.of_nat (Pos.to_nat d)).
      + apply shr_exact, Hp. lia.
      + rewrite <- Z.mul_assoc, <- Z.pow_add_r by lia. do 2 f_equal. lia. }
  rewrite E1. cbn [shr_m loc_of_shr_record round_nearest_even].
  pose proof (Hp (52 - Z.log2 v) ltac:(lia)) as Hq. pose proof (El (52 - Z.log2 v) ltac:(lia)) as Eq.
  destruct (v * 2 ^ (52 - Z.log2 v)) as [|q|q] eqn:EQ; [lia| |lia].
  unfold shr_fexp, Zdigits2, shr_record_of_loc, shr. rewrite digits2_log2, Eq.
  replace (Z.log2 v + (52 - Z.log2 v) + 1 + (Z.log2 v - 52)) with (Z.log2 v - 52 + 53) by lia. rewrite Ef by lia.
  rewrite Z.sub_diag. cbn [shr_m]. by rewrite (proj2 (Z.leb_le (Z.log2 v - 52) (1024 - 53))) by lia.
Qed.

Lemma dadd_count n m :
  0 ≤ n → 0 ≤ m → n + m < 2 ^ 53 → dadd (double_of_u64 n) (double_of_u64 m) = double_of_u64 (n + m).
Proof.
  intros Hn Hm Hs. destruct (decide (n = 0)) as [->|Hn0]; [by apply dadd_zero_count|].
  destruct (decide (m = 0)) as [->|Hm0].
  { unfold dadd. rewrite sf_of_count by lia. change (sf_of_bits (double_of_u64 0)) with (S754_zero false).
    cbn [SFadd]. rewrite bits_of_count by lia. by rewrite Z.add_0_r. }
  unfold dadd. rewrite !sf_of_count by lia. cbn [SFadd cond_Zopp].
  pose proof (Z.log2_nonneg n). pose proof (Z.log2_nonneg m).
  assert (Z.log2 n < 53 ∧ Z.log2 m < 53) as [??] by (split; apply Z.log2_lt_pow2; lia).
  rewrite !shl_align_pos by lia.
  assert (Hp : ∀ x, 0 < x → Z.log2 x < 53 → 0 < x * 2 ^ (52 - Z.log2 x))
    by (intros; apply Z.mul_pos_pos; [lia|apply Z.pow_pos_nonneg; lia]).
  rewrite !Z2Pos.id by (apply Hp; lia).
  set (k := 52 - Z.min (Z.log2 n) (Z.log2 m)).
  assert (Hx : ∀ x, Z.log2 x < 53 → Z.min (Z.log2 n) (Z.log2 m) ≤ Z.log2 x →
    x * 2 ^ (52 - Z.log2 x) * 2 ^ (Z.log2 x - 52 - Z.min (Z.log2 n - 52) (Z.log2 m - 52)) = x * 2 ^ k).
  { intros x Hx Hl. rewrite <- Z.mul_assoc, <- Z.pow_add_r by lia. do 2 f_equal. lia. }
  rewrite !Hx by lia. rewrite <- Z.mul_add_distr_r.
  replace (Z.min (Z.log2 n - 52) (Z.log2 m - 52)) with (- k) by lia.
  assert (Z.log2 n ≤ Z.log2 (n + m)) by (apply Z.log2_le_mono; lia).
  rewrite round_count by (unfold k in *; lia). apply bits_of_count. lia.
Qed.

(** ** Sums

    [adds l s]: [s] comes from adding the values of [l] in their order, with
    some grouping and perhaps zeros. *)
Inductive adds : list Z → Z → Prop :=
  | adds_nil : adds [] 0
  | adds_one x : adds [x] x
  | adds_app l1 l2 s1 s2 : adds l1 s1 → adds l2 s2 → adds (l1 ++ l2) (dadd s1 s2).

Lemma adds_foldl l l0 s : adds l0 s → adds (l0 ++ l) (foldl dadd s l).
Proof.
  revert l0 s. induction l as [|x l IH]; intros l0 s Hs; [by rewrite app_nil_r|].
  replace (l0 ++ x :: l) with ((l0 ++ [x]) ++ l) by (by rewrite <- app_assoc). apply IH.
  by apply adds_app, adds_one.
Qed.
