(* ===== verification/SubtreeRef.v ===== *)
(** * References to tree nodes (nbtree_def.h, nbtree.cc)

    [SubtreeRef] is a packed structure of 110 bytes: it heads every node on
    disk, and an inner node is an array of them.  Its image in memory is given
    field by field. *)
From S2P Require Import Prelude DataBlock IOVec Double.

(** [NBTreeBlockType]; the field can hold any 16-bit value. *)
Definition LEAF : Z := 0.
Definition INNER : Z := 1.
Definition NBTREE_FANOUT : Z := 32.
Definition TS_MAX : Z := 2 ^ 64 - 1.

Record SubtreeRef := mkRef {
  sr_count : Z;
  sr_id : Z;
  sr_begin : Z;
  sr_end : Z;
  sr_addr : Z;
  sr_min : Z;        (* double *)
  sr_min_time : Z;
  sr_max : Z;        (* double *)
  sr_max_time : Z;
  sr_sum : Z;        (* double *)
  sr_first : Z;      (* double *)
  sr_last : Z;       (* double *)
  sr_type : Z;
  sr_level : Z;
  sr_payload_size : Z;
  sr_version : Z;
  sr_fanout_index : Z;
  sr_checksum : Z;
}.

Definition INIT_SUBTREE_REF : SubtreeRef :=
  mkRef 0 0 0 0 EMPTY_ADDR DBL_MAX TS_MAX DBL_LOWEST 0 0 0 0 LEAF 0 0 FASTSTDB_VERSION 0 0.
Definition ZERO_REF : SubtreeRef := mkRef 0 0 0 0 0 0 0 0 0 0 0 0 0 0 0 0 0 0.

(** ** The image in memory *)

Definition layout : list nat := replicate 12 8%nat ++ replicate 5 2%nat ++ [4%nat].
Definition SUBTREE_REF_SIZE : nat := 110.

Definition to_fields (r : SubtreeRef) : list Z :=
  [sr_count r; sr_id r; sr_begin r; sr_end r; sr_addr r; sr_min r; sr_min_time r; sr_max r;
   sr_max_time r; sr_sum r; sr_first r; sr_last r; sr_type r; sr_level r; sr_payload_size r;
   sr_version r; sr_fanout_index r; sr_checksum r].

Definition of_fields (l : list Z) : SubtreeRef :=
  let f i := default 0 (l !! i) in
  mkRef (f 0%nat) (f 1%nat) (f 2%nat) (f 3%nat) (f 4%nat) (f 5%nat) (f 6%nat) (f 7%nat) (f 8%nat)
        (f 9%nat) (f 10%nat) (f 11%nat) (f 12%nat) (f 13%nat) (f 14%nat) (f 15%nat) (f 16%nat) (f 17%nat).

Fixpoint encode_fields (sizes : list nat) (l : list Z) : list Z :=
  match sizes, l with
  | n :: sizes, x :: l => le_bytes n x ++ encode_fields sizes l
  | _, _ => []
  end.

Fixpoint decode_fields (sizes : list nat) (bs : list Z) : list Z :=
  match sizes with
  | [] => []
  | n :: sizes => le_val (take n bs) :: decode_fields sizes (drop n bs)
  end.

Definition encode_ref (r : SubtreeRef) : list Z := encode_fields layout (to_fields r).
Definition decode_ref (bs : list Z) : SubtreeRef := of_fields (decode_fields layout bs).

(** The fields fit their widths. *)
Definition ref_ok (r : SubtreeRef) : Prop :=
  Forall2 (λ n x, 0 ≤ x < 2 ^ (8 * Z.of_nat n)) layout (to_fields r).

#[export] Instance ref_ok_dec r : Decision (ref_ok r).
Proof. apply _. Defined.

Lemma decode_encode_fields sizes l tl :
  Forall2 (λ n x, 0 ≤ x < 2 ^ (8 * Z.of_nat n)) sizes l →
  decode_fields sizes (encode_fields sizes l ++ tl) = l.
Proof.
  induction 1 as [|n x sizes l Hx _ IH]; [done|]. simpl. rewrite <- app_assoc.
  rewrite take_app_length', drop_app_length' by (by rewrite length_le_bytes). rewrite IH.
  by rewrite le_val_bytes, Z.mod_small.
Qed.

Lemma length_encode_fields sizes l :
  length sizes = length l → length (encode_fields sizes l) = sum_list sizes.
Proof.
  revert l. induction sizes as [|n sizes IH]; intros [|x l]; simpl; try done.
  intros [= E]. rewrite length_app, length_le_bytes. by rewrite IH.
Qed.

Lemma encode_fields_u8 sizes l : Forall is_u8 (encode_fields sizes l).
Proof.
  revert l. induction sizes as [|n sizes IH]; intros [|x l]; simpl; try done.
  apply Forall_app. split; [apply le_bytes_u8|apply IH].
Qed.

Lemma ref_size_eq : SUBTREE_REF_SIZE = 110%nat.
Proof. done. Qed.

Lemma length_encode_ref r : length (encode_ref r) = SUBTREE_REF_SIZE.
Proof. by apply length_encode_fields. Qed.

Lemma encode_ref_u8 r : Forall is_u8 (encode_ref r).
Proof. apply encode_fields_u8. Qed.

Lemma decode_encode_ref r tl : ref_ok r → decode_ref (encode_ref r ++ tl) = r.
Proof.
  intros Hr. unfold decode_ref, encode_ref. rewrite decode_encode_fields by done. by destruct r.
Qed.

(** What is read from memory always fits. *)
Lemma decode_ref_ok bs : Forall is_u8 bs → ref_ok (decode_ref bs).
Proof.
  intros Hb. unfold ref_ok, decode_ref.
  assert (∀ sizes bs, Forall is_u8 bs →
    Forall2 (λ n x, 0 ≤ x < 2 ^ (8 * Z.of_nat n)) sizes (decode_fields sizes bs)) as Hd.
  { clear. intros sizes. induction sizes as [|n sizes IH]; intros bs Hb; simpl; constructor.
    - pose proof (le_val_range (take n bs) ltac:(by apply Forall_take)) as Hr.
      rewrite length_take in Hr. assert (2 ^ (8 * Z.of_nat (n `min` length bs)) ≤ 2 ^ (8 * Z.of_nat n));
        [apply Z.pow_le_mono_r; lia|lia].
    - by apply IH, Forall_drop. }
  specialize (Hd layout bs Hb). revert Hd. generalize (decode_fields layout bs). intros l Hl.
  pose proof (Forall2_length _ _ _ Hl) as Hlen. do 18 (destruct l as [|? l]; [done|]).
  destruct l; [|done]. exact Hl.
Qed.

#[global] Opaque encode_ref decode_ref SUBTREE_REF_SIZE.
