(* ===== verification/Operator.v ===== *)
(** * Aggregates and value filters (storage/operators/operator.h/.cc)

    [AggregationResult] accumulates the components of an aggregate, from raw
    points, from the metadata of a node or from another result; [ValueFilter]
    is an interval of values that can be tested on a point and on the metadata
    of a node; [AggregateFilter] combines one filter per component. *)
From stdpp Require Import sorting.
From S2P Require Import Prelude DataBlock IOVec Double SubtreeRef.

(** ** [AggregationResult] *)

Record AggregationResult := mkAgg {
  ag_cnt : Z;    (* double *)
  ag_sum : Z;    (* double *)
  ag_min : Z;    (* double *)
  ag_max : Z;    (* double *)
  ag_first : Z;  (* double *)
  ag_last : Z;   (* double *)
  ag_mints : Z;
  ag_maxts : Z;
  ag_begin : Z;
  ag_end : Z;
}.

Definition INIT_AGGRES : AggregationResult := mkAgg 0 0 DBL_MAX DBL_LOWEST 0 0 TS_MAX 0 TS_MAX 0.

Module Agg.

Definition copy_from (r : SubtreeRef) : AggregationResult :=
  mkAgg (double_of_u64 (sr_count r)) (sr_sum r) (sr_min r) (sr_max r) (sr_first r) (sr_last r)
        (sr_min_time r) (sr_max_time r) (sr_begin r) (sr_end r).

(** [if (min > xs) { min = xs; mints = ts; }] and its counterpart. *)
Definition min_step (s : Z * Z) (x : point) : Z * Z := if dlt x.2 s.1 then (x.2, x.1) else s.
Definition max_step (s : Z * Z) (x : point) : Z * Z := if dlt s.1 x.2 then (x.2, x.1) else s.

(** [assert(size)]. *)
Definition do_the_math (pts : list point) (inverted : bool) (a : AggregationResult) : option AggregationResult :=
  fst_ ← head pts;
  lst ← last pts;
  let '(mn, mints) := foldl min_step (ag_min a, ag_mints a) pts in
  let '(mx, maxts) := foldl max_step (ag_max a, ag_maxts a) pts in
  let '(b, e) := if inverted then (lst, fst_) else (fst_, lst) in
  Some (mkAgg (dadd (ag_cnt a) (double_of_u64 (Z.of_nat (length pts)))) (foldl dadd (ag_sum a) (pts.*2))
              mn mx b.2 e.2 mints maxts b.1 e.1).

Definition add (ts xs : Z) (forward : bool) (a : AggregationResult) : AggregationResult :=
  let '(mn, mints) := min_step (ag_min a, ag_mints a) (ts, xs) in
  let '(mx, maxts) := max_step (ag_max a, ag_maxts a) (ts, xs) in
  let '(first_, begin_, last_, end_) :=
    if deq (ag_cnt a) 0
    then if forward then (xs, ts, ag_last a, ag_end a) else (ag_first a, ag_begin a, xs, ts)
    else (ag_first a, ag_begin a, ag_last a, ag_end a) in
  let '(first_, begin_, last_, end_) :=
    if forward then (first_, begin_, xs, ts) else (xs, ts, last_, end_) in
  mkAgg (dadd (ag_cnt a) (double_of_u64 1)) (dadd (ag_sum a) xs) mn mx first_ last_ mints maxts begin_ end_.

Definition combine (other a : AggregationResult) : AggregationResult :=
  let '(mn, mints) := min_step (ag_min a, ag_mints a) (ag_mints other, ag_min other) in
  let '(mx, maxts) := max_step (ag_max a, ag_maxts a) (ag_maxts other, ag_max other) in
  let '(first_, begin_) :=
    if decide (ag_begin other < ag_begin a) then (ag_first other, ag_begin other) else (ag_first a, ag_begin a) in
  let '(last_, end_) :=
    if decide (ag_end a < ag_end other) then (ag_last other, ag_end other) else (ag_last a, ag_end a) in
  mkAgg (dadd (ag_cnt a) (ag_cnt other)) (dadd (ag_sum a) (ag_sum other)) mn mx first_ last_ mints maxts begin_ end_.

(** *** The extrema of a list from the extrema of its parts *)

Lemma min_step_lt s x :
  is_nan s.1 = false → is_nan x.2 = false → rank x.2 < rank s.1 → min_step s x = (x.2, x.1).
Proof. intros. unfold min_step. by rewrite dlt_rank, bool_decide_eq_true_2. Qed.
Lemma min_step_ge s x :
  is_nan s.1 = false → is_nan x.2 = false → rank s.1 ≤ rank x.2 → min_step s x = s.
Proof. intros. unfold min_step. by rewrite dlt_rank, bool_decide_eq_false_2 by (done || lia). Qed.
Lemma max_step_lt s x :
  is_nan s.1 = false → is_nan x.2 = false → rank s.1 < rank x.2 → max_step s x = (x.2, x.1).
Proof. intros. unfold max_step. by rewrite dlt_rank, bool_decide_eq_true_2. Qed.
Lemma max_step_ge s x :
  is_nan s.1 = false → is_nan x.2 = false → rank x.2 ≤ rank s.1 → max_step s x = s.
Proof. intros. unfold max_step. by rewrite dlt_rank, bool_decide_eq_false_2 by (done || lia). Qed.

Lemma min_fold_le pts s :
  is_nan s.1 = false → Forall (λ x, is_nan x.2 = false) pts →
  is_nan (foldl min_step s pts).1 = false ∧ rank (foldl min_step s pts).1 ≤ rank s.1.
Proof.
  intros Hs Hp. revert s Hs. induction Hp as [|x pts Hx _ IH]; intros s Hs; [by split|].
  simpl. unfold min_step at 2 4. rewrite dlt_rank by done. case_bool_decide as Hlt; [|by apply IH].
  destruct (IH (x.2, x.1) Hx) as [H1 H2]. split; [done|]. simpl in *. lia.
Qed.

Lemma min_fold_split pts s s0 :
  is_nan s.1 = false → is_nan s0.1 = false → rank s.1 ≤ rank s0.1 → Forall (λ x, is_nan x.2 = false) pts →
  foldl min_step s pts =
    if dlt (foldl min_step s0 pts).1 s.1 then foldl min_step s0 pts else s.
Proof.
  intros Hs Hs0 Hle Hp. revert s s0 Hs Hs0 Hle. induction Hp as [|x pts Hx Hp IH]; intros s s0 Hs Hs0 Hle; simpl.
  { rewrite dlt_rank, bool_decide_eq_false_2 by (done || lia). done. }
  destruct (decide (rank x.2 < rank s.1)) as [H1|H1].
  - rewrite !min_step_lt by (done || lia). destruct (min_fold_le pts (x.2, x.1) Hx Hp) as [Hn Hr]. simpl in Hr.
    by rewrite dlt_rank, bool_decide_eq_true_2 by (done || lia).
  - rewrite (min_step_ge s) by (done || lia).
    destruct (decide (rank x.2 < rank s0.1)) as [H2|H2].
    + rewrite (min_step_lt s0) by done. apply IH; simpl; done || lia.
    + rewrite (min_step_ge s0) by (done || lia). apply IH; simpl; done || lia.
Qed.

Lemma max_fold_ge pts s :
  is_nan s.1 = false → Forall (λ x, is_nan x.2 = false) pts →
  is_nan (foldl max_step s pts).1 = false ∧ rank s.1 ≤ rank (foldl max_step s pts).1.
Proof.
  intros Hs Hp. revert s Hs. induction Hp as [|x pts Hx _ IH]; intros s Hs; [by split|].
  simpl. unfold max_step at 2 4. rewrite dlt_rank by done. case_bool_decide as Hlt; [|by apply IH].
  destruct (IH (x.2, x.1) Hx) as [H1 H2]. split; [done|]. simpl in *. lia.
Qed.

Lemma max_fold_split pts s s0 :
  is_nan s.1 = false → is_nan s0.1 = false → rank s0.1 ≤ rank s.1 → Forall (λ x, is_nan x.2 = false) pts →
  foldl max_step s pts =
    if dlt s.1 (foldl max_step s0 pts).1 then foldl max_step s0 pts else s.
Proof.
  intros Hs Hs0 Hle Hp. revert s s0 Hs Hs0 Hle. induction Hp as [|x pts Hx Hp IH]; intros s s0 Hs Hs0 Hle; simpl.
  { rewrite dlt_rank, bool_decide_eq_false_2 by (done || lia). done. }
  destruct (decide (rank s.1 < rank x.2)) as [H1|H1].
  - rewrite !max_step_lt by (done || lia). destruct (max_fold_ge pts (x.2, x.1) Hx Hp) as [Hn Hr]. simpl in Hr.
    by rewrite dlt_rank, bool_decide_eq_true_2 by (done || lia).
  - rewrite (max_step_ge s) by (done || lia).
    destruct (decide (rank s0.1 < rank x.2)) as [H2|H2].
    + rewrite (max_step_lt s0) by done. apply IH; simpl; done || lia.
    + rewrite (max_step_ge s0) by (done || lia). apply IH; simpl; done || lia.
Qed.

(** The extremum of a run takes the place of the run. *)
Lemma min_step_run pts s m t t0 :
  is_nan s.1 = false → rank s.1 ≤ rank DBL_MAX → Forall (λ x, is_nan x.2 = false) pts →
  (m, t) = foldl min_step (DBL_MAX, t0) pts → min_step s (t, m) = foldl min_step s pts.
Proof.
  intros Hs Hr Hp E. rewrite (min_fold_split pts s (DBL_MAX, t0)) by done. rewrite <- E. unfold min_step. simpl.
  by destruct (dlt m s.1).
Qed.
Lemma max_step_run pts s m t t0 :
  is_nan s.1 = false → rank DBL_LOWEST ≤ rank s.1 → Forall (λ x, is_nan x.2 = false) pts →
  (m, t) = foldl max_step (DBL_LOWEST, t0) pts → max_step s (t, m) = foldl max_step s pts.
Proof.
  intros Hs Hr Hp E. rewrite (max_fold_split pts s (DBL_LOWEST, t0)) by done. rewrite <- E. unfold max_step. simpl.
  by destruct (dlt s.1 m).
Qed.

End Agg.

(** ** [ValueFilter] *)

Definition LT : Z := 0.
Definition LE : Z := 1.
Definition GT : Z := 2.
Definition GE : Z := 3.

Inductive RangeOverlap := NO_OVERLAP | FULL_OVERLAP | PARTIAL_OVERLAP.

Record ValueFilter := mkFilter { vf_mask : Z; vf_thresholds : list Z }.

Module Filter.

Definition make : ValueFilter := mkFilter 0 (replicate 4 0).
Definition thr (i : Z) (f : ValueFilter) : Z := default 0 (vf_thresholds f !! Z.to_nat i).
Definition has (i : Z) (f : ValueFilter) : bool := Z.testbit (vf_mask f) i.

Definition match_ (value : Z) (f : ValueFilter) : bool :=
  (if has LT f then dlt value (thr LT f) else if has LE f then dle value (thr LE f) else true) &&
  (if has GT f then dlt (thr GT f) value else if has GE f then dle (thr GE f) value else true).

(** [__builtin_popcount(mask)]; the setters use the four low bits. *)
Definition get_rank (f : ValueFilter) : nat :=
  sum_list ((λ i : nat, if Z.testbit (vf_mask f) (Z.of_nat i) then 1%nat else 0%nat) <$> seq 0 32).

Definition hi (f : ValueFilter) : Z := if has LT f then thr LT f else thr LE f.
Definition lo (f : ValueFilter) : Z := if has GT f then thr GT f else thr GE f.

Definition is_ordered (f : ValueFilter) : bool :=
  if decide (get_rank f = 2%nat) then dlt (lo f) (hi f) else true.

Definition get_overlap (ref : SubtreeRef) (f : ValueFilter) : RangeOverlap :=
  let begin_ := match_ (sr_min ref) f in
  let end_ := match_ (sr_max ref) f in
  if decide (get_rank f < 2)%nat then
    if begin_ && end_ then FULL_OVERLAP
    else if begin_ || end_ then PARTIAL_OVERLAP else NO_OVERLAP
  else
    let mn := dmin (sr_min ref) (lo f) in
    let mx := dmax (sr_max ref) (hi f) in
    let w1 := dsub (sr_max ref) (sr_min ref) in
    let w2 := dsub (hi f) (lo f) in
    let inclusive := has LE f && has GE f in
    let overlap := if inclusive then dle (dsub mx mn) (dadd w1 w2) else dlt (dsub mx mn) (dadd w1 w2) in
    if overlap then if begin_ && end_ then FULL_OVERLAP else PARTIAL_OVERLAP
    else NO_OVERLAP.

Definition set (i value : Z) (f : ValueFilter) : ValueFilter :=
  mkFilter (Z.lor (vf_mask f) (Z.shiftl 1 i)) (<[Z.to_nat i := value]> (vf_thresholds f)).
Definition less_than (value : Z) (f : ValueFilter) : ValueFilter := set LT value f.
Definition less_or_equal (value : Z) (f : ValueFilter) : ValueFilter := set LE value f.
Definition greater_than (value : Z) (f : ValueFilter) : ValueFilter := set GT value f.
Definition greater_or_equal (value : Z) (f : ValueFilter) : ValueFilter := set GE value f.

Definition validate (f : ValueFilter) : bool :=
  if decide (vf_mask f = 0) then false
  else if has LT f && has LE f then false
  else if has GT f && has GE f then false
  else is_ordered f.

End Filter.

(** ** [AggregateFilter] *)

Inductive Mode := ALL | ANY.

Definition AVG : nat := 0.
Definition MIN : nat := 1.
Definition MAX : nat := 2.
Definition FIRST : nat := 3.
Definition LAST : nat := 4.

Record AggregateFilter := mkAggFilter {
  af_filters : list ValueFilter;
  af_bitmap : Z;  (* u32 *)
  af_mode : Mode;
}.

Module AggFilter.

(** The constructor does not set the mode. *)
Definition make (mode : Mode) : AggregateFilter := mkAggFilter (replicate 5 Filter.make) 0 mode.

Definition set_filter (op : Z) (filter : ValueFilter) (f : AggregateFilter) : bool * AggregateFilter :=
  if decide (op < 5)
  then (true, mkAggFilter (<[Z.to_nat op := filter]> (af_filters f)) (Z.lor (af_bitmap f) (Z.shiftl 1 op)) (af_mode f))
  else (false, f).

Definition component (bit : nat) (res : AggregationResult) : Z :=
  if decide (bit = AVG) then ddiv (ag_sum res) (ag_cnt res)
  else if decide (bit = MIN) then ag_min res
  else if decide (bit = MAX) then ag_max res
  else if decide (bit = FIRST) then ag_first res
  else if decide (bit = LAST) then ag_last res
  else 0.

Definition is_all (m : Mode) : bool := match m with ALL => true | ANY => false end.

Fixpoint match_loop (bits : list nat) (res : AggregationResult) (f : AggregateFilter) (result : bool) : bool :=
  match bits with
  | [] => result
  | bit :: bits =>
    match_loop bits res f
      (if Z.testbit (af_bitmap f) (Z.of_nat bit) then
         let m := Filter.match_ (component bit res) (default Filter.make (af_filters f !! bit)) in
         match af_mode f with ALL => result && m | ANY => result || m end
       else result)
  end.

Definition match_ (res : AggregationResult) (f : AggregateFilter) : bool :=
  match_loop (seq 0 5) res f (is_all (af_mode f)).

End AggFilter.

(** ** Properties *)

(** The bounds of a node say what a filter does to its values. *)
Lemma match_between f mn mx v :
  Filter.match_ mn f = true → Filter.match_ mx f = true →
  is_nan mn = false → is_nan mx = false → is_nan v = false → rank mn ≤ rank v ≤ rank mx →
  Filter.match_ v f = true.
Proof.
  unfold Filter.match_, dlt, dle. intros H1 H2 N1 N2 N3 Hr. rewrite N1, N2, N3 in *.
  repeat case_match; rewrite ?andb_true_iff, ?bool_decide_eq_true in *; simpl in *; intuition lia.
Qed.

Lemma rank_bits f :
  ((if Filter.has LT f then 1 else 0) + (if Filter.has LE f then 1 else 0) +
   (if Filter.has GT f then 1 else 0) + (if Filter.has GE f then 1 else 0) ≤ Filter.get_rank f)%nat.
Proof.
  unfold Filter.get_rank, Filter.has, LT, LE, GT, GE. change (seq 0 32) with ([0; 1; 2; 3]%nat ++ seq 4 28).
  assert (∀ (g : nat → nat) l, g 0 + g 1 + g 2 + g 3 ≤ sum_list (g <$> [0; 1; 2; 3] ++ l))%nat as Hg
    by (intros; simpl; lia).
  apply (Hg (λ i : nat, if Z.testbit (vf_mask f) (Z.of_nat i) then 1%nat else 0%nat)).
Qed.

Lemma match_outside f mn mx v :
  (Filter.get_rank f < 2)%nat → Filter.match_ mn f = false → Filter.match_ mx f = false →
  is_nan mn = false → is_nan mx = false → is_nan v = false → rank mn ≤ rank v ≤ rank mx →
  Filter.match_ v f = false.
Proof.
  intros Hr. pose proof (rank_bits f) as Hb. revert Hb. unfold Filter.match_, dlt, dle.
  intros Hb H1 H2 N1 N2 N3 Hv. rewrite N1, N2, N3 in *.
  destruct (Filter.has LT f), (Filter.has LE f), (Filter.has GT f), (Filter.has GE f); try lia; try done;
    rewrite ?andb_true_r, ?andb_true_l in *; simpl in *;
    rewrite ?andb_false_iff, ?bool_decide_eq_false in *; intuition (lia || eauto).
Qed.

Lemma overlap_sound f ref v :
  is_nan (sr_min ref) = false → is_nan (sr_max ref) = false → is_nan v = false →
  rank (sr_min ref) ≤ rank v ≤ rank (sr_max ref) →
  (Filter.get_overlap ref f = FULL_OVERLAP → Filter.match_ v f = true) ∧
  (Filter.get_overlap ref f = NO_OVERLAP → (Filter.get_rank f < 2)%nat → Filter.match_ v f = false).
Proof.
  intros N1 N2 N3 Hv. unfold Filter.get_overlap.
  destruct (Filter.match_ (sr_min ref) f) eqn:E1, (Filter.match_ (sr_max ref) f) eqn:E2; simpl; split.
  - intros _. exact (match_between f _ _ v E1 E2 N1 N2 N3 Hv).
  - intros Hn Hr. by rewrite decide_True in Hn.
  - case_decide; [done|]. by destruct (if _ && _ then _ else _).
  - intros Hn Hr. by rewrite decide_True in Hn.
  - case_decide; [done|]. by destruct (if _ && _ then _ else _).
  - intros Hn Hr. by rewrite decide_True in Hn.
  - case_decide; [done|]. by destruct (if _ && _ then _ else _).
  - intros _ Hr. exact (match_outside f _ _ v Hr E1 E2 N1 N2 N3 Hv).
Qed.

(** C40: the overlap of a filter with a node is safe to act on.  A full
    overlap means that every value between the node's bounds passes; for a
    filter with at most one bound, no overlap means that none does. *)
Theorem filter_overlap_sound f ref v :
  is_nan (sr_min ref) = false → is_nan (sr_max ref) = false → is_nan v = false →
  rank (sr_min ref) ≤ rank v ≤ rank (sr_max ref) →
  (Filter.get_overlap ref f = FULL_OVERLAP → Filter.match_ v f = true) ∧
  (Filter.get_overlap ref f = NO_OVERLAP → (Filter.get_rank f < 2)%nat → Filter.match_ v f = false).
Proof. apply overlap_sound. Qed.

(** With two strict bounds the overlap is decided by comparing
    widths, and a node whose values are all equal has width 0: it is reported as
    not overlapping although its value lies strictly between the bounds, so
    every point of such a leaf is left out of the result.  Here the value 1 and
    the filter 0.5 < x < 2. *)
Theorem filter_drops_constant_node :
  let f := Filter.less_than 0x4000000000000000 (Filter.greater_than 0x3FE0000000000000 Filter.make) in
  let one := 0x3FF0000000000000 in
  let ref := mkRef 5 1 10 20 EMPTY_ADDR one 10 one 10 0 one one LEAF 0 0 FASTSTDB_VERSION 0 0 in
  Filter.validate f = true ∧ Filter.match_ one f = true ∧ Filter.get_overlap ref f = NO_OVERLAP.
Proof. vm_compute. done. Qed.

(** Aggregates of adjacent runs of points, combined, are the aggregate of
    the whole run: extrema with the times they were first reached, first and
    last point, range of time.  (The sums are added, so they agree up to the
    order of the additions.) *)
Theorem aggregate_combine p1 p2 a1 a2 a :
  Agg.do_the_math p1 false INIT_AGGRES = Some a1 → Agg.do_the_math p2 false INIT_AGGRES = Some a2 →
  Agg.do_the_math (p1 ++ p2) false INIT_AGGRES = Some a →
  Forall (λ x, finite x.2) (p1 ++ p2) → StronglySorted (λ x y, x.1 < y.1) (p1 ++ p2) →
  let c := Agg.combine a2 a1 in
  ag_min c = ag_min a ∧ ag_mints c = ag_mints a ∧ ag_max c = ag_max a ∧ ag_maxts c = ag_maxts a ∧
  ag_first c = ag_first a ∧ ag_last c = ag_last a ∧ ag_begin c = ag_begin a ∧ ag_end c = ag_end a ∧
  ag_sum c = dadd (ag_sum a1) (ag_sum a2) ∧ ag_cnt c = dadd (ag_cnt a1) (ag_cnt a2).
Proof.
  unfold Agg.do_the_math, mbind, option_bind. intros E1 E2 E Hf Hs.
  destruct (head p1) as [f1|] eqn:F1, (last p1) as [l1|] eqn:L1; try done.
  destruct (head p2) as [f2|] eqn:F2, (last p2) as [l2|] eqn:L2; try done.
  assert (Hh : head (p1 ++ p2) = Some f1) by (by destruct p1).
  assert (Hl : last (p1 ++ p2) = Some l2) by (by rewrite last_app, L2).
  rewrite Hh, Hl, !foldl_app in E. apply Forall_app in Hf as [Hf1 Hf2].
  assert (Hn1 : Forall (λ x : point, is_nan x.2 = false) p1) by (eapply Forall_impl; [done|]; intros; by apply finite_not_nan).
  assert (Hn2 : Forall (λ x : point, is_nan x.2 = false) p2) by (eapply Forall_impl; [done|]; intros; by apply finite_not_nan).
  cbn [INIT_AGGRES ag_min ag_mints ag_max ag_maxts] in *.
  destruct (Agg.min_fold_le p1 (DBL_MAX, TS_MAX) eq_refl Hn1) as [Nm Rm].
  destruct (Agg.max_fold_ge p1 (DBL_LOWEST, 0) eq_refl Hn1) as [Nx Rx].
  rewrite (Agg.min_fold_split p2 _ (DBL_MAX, TS_MAX)), (Agg.max_fold_split p2 _ (DBL_LOWEST, 0)) in E by done.
  set (m1 := foldl Agg.min_step _ p1) in *. set (x1 := foldl Agg.max_step _ p1) in *.
  set (m2 := foldl Agg.min_step _ p2) in *. set (x2 := foldl Agg.max_step _ p2) in *.
  assert (Hb : f1.1 < f2.1 ∧ l1.1 < l2.1).
  { split; apply (StronglySorted_app_1_elem_of (λ x y : point, x.1 < y.1) p1 p2);
      eauto using head_Some_elem_of, last_Some_elem_of. }
  clearbody m1 m2 x1 x2. destruct m1 as [mn1 mt1], m2 as [mn2 mt2], x1 as [mx1 xt1], x2 as [mx2 xt2].
  injection E1 as <-. injection E2 as <-. unfold Agg.combine, Agg.min_step, Agg.max_step. simpl in *.
  rewrite (decide_False (P := f2.1 < f1.1)), (decide_True (P := l1.1 < l2.1)) by lia.
  destruct (dlt mn2 mn1), (dlt mx1 mx2); simpl in *; injection E as <-; by split_and!.
Qed.

(** A node with values from 1 to 2 and the filter x > 0.5, the value 1. *)
Lemma filter_overlap_sound_witness :
  let f := Filter.greater_than 0x3FE0000000000000 Filter.make in
  let ref := mkRef 5 1 10 20 EMPTY_ADDR 0x3FF0000000000000 10 0x4000000000000000 20 0 0 0 LEAF 0 0 FASTSTDB_VERSION 0 0 in
  Filter.get_overlap ref f = FULL_OVERLAP ∧ Filter.match_ 0x3FF0000000000000 f = true.
Proof.
  intros f ref. assert (Filter.get_overlap ref f = FULL_OVERLAP) as Hf by (by vm_compute).
  split; [exact Hf|].
  apply (filter_overlap_sound f ref 0x3FF0000000000000);
    [by vm_compute|by vm_compute|by vm_compute|by_compute|exact Hf].
Defined.

Lemma aggregate_combine_witness :
  let p1 := [(10, 0x3FF0000000000000); (20, 0x4000000000000000)] in
  let p2 := [(30, 0x3FE0000000000000)] in
  ∃ a1 a2 a, Agg.do_the_math p1 false INIT_AGGRES = Some a1 ∧ Agg.do_the_math p2 false INIT_AGGRES = Some a2 ∧
    Agg.do_the_math (p1 ++ p2) false INIT_AGGRES = Some a ∧
    ag_min (Agg.combine a2 a1) = ag_min a ∧ ag_mints (Agg.combine a2 a1) = ag_mints a.
Proof.
  intros p1 p2.
  assert (∃ a1, Agg.do_the_math p1 false INIT_AGGRES = Some a1) as [a1 E1] by (eexists; by vm_compute).
  assert (∃ a2, Agg.do_the_math p2 false INIT_AGGRES = Some a2) as [a2 E2] by (eexists; by vm_compute).
  assert (∃ a, Agg.do_the_math (p1 ++ p2) false INIT_AGGRES = Some a) as [a E] by (eexists; by vm_compute).
  destruct (aggregate_combine p1 p2 a1 a2 a E1 E2 E) as (Hm&Ht&_); [by_compute|repeat constructor; simpl; lia|].
  exists a1, a2, a. split_and!; assumption.
Defined.
