(* ===== verification/Leaf.v ===== *)
(** * Leaf nodes of the tree (nbtree.h/.cc, [IOVecLeaf])

    A leaf is one block: a [SubtreeRef] that describes it, then a data block
    with the points.  The writer of an open leaf works on the same block the
    metadata is kept in; a leaf read from a block store has no writer. *)
From S2P Require Import Prelude Status ByteStream Base128 VByte DeltaDelta Predictor Fcm DataBlock DataBlockProof DataBlockRead IOVec Blocks Volume Crc32c MetaVolume BlockStore BlockStoreProof MemStore Double SubtreeRef Operator.

(** [get_header<SubtreeRef>()]: the start of component 0. *)
Definition get_header (b : IOVecBlock) : option SubtreeRef :=
  d ← IOVec.get_data 0 b;
  if decide (SUBTREE_REF_SIZE ≤ length d)%nat then Some (decode_ref d) else None.
Definition set_header (r : SubtreeRef) (b : IOVecBlock) : option IOVecBlock :=
  IOVec.write_at 0 0 (encode_ref r) b.

(** ** Reading a node from a block store *)

Section Nodes.
Context {B : Type} `{BlockStore B}.
Variables (impl : crc32c_impl_t) (at_ : Z).

(** The checksum covers [payload_size] bytes after the header. *)
Definition node_checksum_ok (block : IOVecBlock) : option bool :=
  d ← IOVec.get_data 0 block;
  if decide (length d = FASTSTDB_BLOCK_SIZE) then
    subtree ← get_header block;
    let n := Z.to_nat (sr_payload_size subtree) in
    if decide (length d < SUBTREE_REF_SIZE + n)%nat then None else
    Some (bool_decide (checksum impl (at_ + 110) (take n (drop SUBTREE_REF_SIZE d)) = sr_checksum subtree))
  else Some true.

Definition read_and_check (curr : Z) (bstore : B) : option (Status * option IOVecBlock) :=
  '(status, block) ← bs_read curr bstore;
  if decide (status ≠ kOk) then Some (status, block) else
  b ← block;
  ok ← node_checksum_ok b;
  Some (if ok : bool then status else kBadData, block).

(** Any error is [LOG(FATAL)]. *)
Definition read_iovec_block_from_bstore (curr : Z) (bstore : B) : option IOVecBlock :=
  '(status, block) ← bs_read curr bstore;
  if decide (status ≠ kOk) then None else
  b ← block;
  ok ← node_checksum_ok b;
  if ok : bool then Some b else None.

End Nodes.

(** ** The leaf *)

Inductive LeafNode :=
  | Loaded (block : IOVecBlock)
  | Open (writer : IOVecBlockWriter.t).

Record IOVecLeaf := mkLeaf {
  lf_prev : Z;       (* LogicAddr prev_ *)
  lf_node : LeafNode;  (* block_ and writer_ *)
  lf_fanout : Z;     (* u16 fanout_index_ *)
}.

Module Leaf.

Definition block_ (l : IOVecLeaf) : IOVecBlock :=
  match lf_node l with Loaded b => b | Open w => IOVecBlockWriter.block w end.

(** The writer after a change of the block behind it. *)
Definition with_block (b : IOVecBlock) (w : IOVecBlockWriter.t) : IOVecBlockWriter.t :=
  BlockWriter.set_stream (VByteWriter.set_sink b (BlockWriter.stream_ w)) w.
Definition set_block (b : IOVecBlock) (l : IOVecLeaf) : IOVecLeaf :=
  mkLeaf (lf_prev l) (match lf_node l with Loaded _ => Loaded b | Open w => Open (with_block b w) end)
         (lf_fanout l).

(** [get_leafmeta] and the update of some of its fields. *)
Definition get_leafmeta (l : IOVecLeaf) : option SubtreeRef := get_header (block_ l).
Definition update_header (f : SubtreeRef → SubtreeRef) (l : IOVecLeaf) : option IOVecLeaf :=
  h ← get_leafmeta l;
  b ← set_header (f h) (block_ l);
  Some (set_block b l).

(** The constructor of an empty leaf; the checksum is not set. *)
Definition init_meta (id prev fanout_index : Z) (h : SubtreeRef) : SubtreeRef :=
  mkRef 0 id TS_MAX 0 prev DBL_MAX TS_MAX DBL_LOWEST 0 0 0 0 LEAF 0 0 FASTSTDB_VERSION fanout_index
        (sr_checksum h).

Definition make (id prev fanout_index : Z) : option IOVecLeaf :=
  w ← IOVecBlockWriter.make IOVec.make 0;
  let '(subtree, b) := IOVec.allocate SUBTREE_REF_SIZE (IOVecBlockWriter.block w) in
  if decide (subtree = None) then None else
  h ← get_header b;
  b ← set_header (init_meta id prev fanout_index h) b;
  w ← IOVecBlockWriter.init id (with_block b w);
  Some (mkLeaf prev (Open w) fanout_index).

(** The constructors that take a block, or read one. *)
Definition load (block : IOVecBlock) : option IOVecLeaf :=
  h ← get_header block;
  Some (mkLeaf (sr_addr h) (Loaded block) (sr_fanout_index h)).

Definition open {B} `{BlockStore B} (impl : crc32c_impl_t) (at_ : Z) (bstore : B) (curr : Z)
    : option IOVecLeaf :=
  b ← read_iovec_block_from_bstore impl at_ curr bstore; load b.

(** [writer_.get_write_index()]; 0 without a writer. *)
Definition get_write_index (l : IOVecLeaf) : option Z :=
  match lf_node l with Loaded _ => Some 0 | Open w => IOVecBlockWriter.get_write_index w end.
Definition get_uncommitted_size := get_write_index.

Definition bytes_used (l : IOVecLeaf) : nat := sum_list (length <$> data_ (block_ l)).
Definition nelements (l : IOVecLeaf) : option Z := h ← get_leafmeta l; Some (sr_count h).
Definition get_fanout (l : IOVecLeaf) : Z := lf_fanout l.
Definition get_id (l : IOVecLeaf) : option Z := h ← get_leafmeta l; Some (sr_id h).
Definition get_timestamps (l : IOVecLeaf) : option (Z * Z) := h ← get_leafmeta l; Some (sr_begin h, sr_end h).
Definition get_addr (l : IOVecLeaf) : Z := IOVec.get_addr (block_ l).
Definition get_prev_addr (l : IOVecLeaf) : Z := lf_prev l.

Definition with_addr (a : Z) (h : SubtreeRef) : SubtreeRef :=
  mkRef (sr_count h) (sr_id h) (sr_begin h) (sr_end h) a (sr_min h) (sr_min_time h) (sr_max h)
    (sr_max_time h) (sr_sum h) (sr_first h) (sr_last h) (sr_type h) (sr_level h) (sr_payload_size h)
    (sr_version h) (sr_fanout_index h) (sr_checksum h).
Definition with_fanout (f : Z) (h : SubtreeRef) : SubtreeRef :=
  mkRef (sr_count h) (sr_id h) (sr_begin h) (sr_end h) (sr_addr h) (sr_min h) (sr_min_time h) (sr_max h)
    (sr_max_time h) (sr_sum h) (sr_first h) (sr_last h) (sr_type h) (sr_level h) (sr_payload_size h)
    (sr_version h) f (sr_checksum h).

Definition set_prev_addr (addr : Z) (l : IOVecLeaf) : option IOVecLeaf :=
  update_header (with_addr addr) (mkLeaf addr (lf_node l) (lf_fanout l)).

(** [assert(fanout <= NBTREE_FANOUT)]. *)
Definition set_node_fanout (fanout : Z) (l : IOVecLeaf) : option IOVecLeaf :=
  if decide (NBTREE_FANOUT < fanout) then None
  else update_header (with_fanout fanout) (mkLeaf (lf_prev l) (lf_node l) fanout).

(** The loop of [read_all]. *)
Fixpoint read_loop (n : nat) (r : IOVecBlockReader.t) (acc : list point) : option (Status * list point) :=
  match n with
  | O => Some (kOk, acc)
  | S n =>
    '(status, ts, value, r) ← IOVecBlockReader.next r;
    if decide (status ≠ kOk) then Some (status, acc) else read_loop n r (acc ++ [(ts, value)])
  end.

(** The points that were pushed to the two vectors. *)
Definition read_all (l : IOVecLeaf) : option (Status * list point) :=
  windex ← get_write_index l;
  r ← IOVecBlockReader.make (block_ l) SUBTREE_REF_SIZE;
  sz ← IOVecBlockReader.nelements r;
  '(status, pts) ← read_loop (Z.to_nat sz) r [];
  if decide (status ≠ kOk) then Some (status, pts) else
  match lf_node l with
  | Open w => Some (kOk, if decide (windex ≠ 0) then pts ++ IOVecBlockWriter.read_tail_elements w else pts)
  | Loaded _ => Some (kOk, pts)
  end.

(** The metadata after one more point. *)
Definition add_point (ts value : Z) (h : SubtreeRef) : SubtreeRef :=
  let first_ := bool_decide (sr_count h = 0) in
  let gt := dlt (sr_max h) value in
  let lt := dlt value (sr_min h) in
  mkRef (u64 (sr_count h + 1)) (sr_id h) (if first_ then ts else sr_begin h) ts (sr_addr h)
    (if lt then value else sr_min h) (if lt then ts else sr_min_time h)
    (if gt then value else sr_max h) (if gt then ts else sr_max_time h)
    (dadd (sr_sum h) value) (if first_ then value else sr_first h) value (sr_type h) (sr_level h)
    (sr_payload_size h) (sr_version h) (sr_fanout_index h) (sr_checksum h).

(** A leaf without a writer dereferences a null pointer. *)
Definition append (ts value : Z) (l : IOVecLeaf) : option (Status * IOVecLeaf) :=
  match lf_node l with
  | Loaded _ => None
  | Open w =>
    '(status, w) ← IOVecBlockWriter.put ts value w;
    let l := mkLeaf (lf_prev l) (Open w) (lf_fanout l) in
    if decide (status = kOk) then l ← update_header (add_point ts value) l; Some (status, l)
    else Some (status, l)
  end.

(** The fields [commit] sets. *)
Definition close_meta (prev fanout_index size crc : Z) (h : SubtreeRef) : SubtreeRef :=
  mkRef (sr_count h) (sr_id h) (sr_begin h) (sr_end h)
    (if decide (prev ≠ EMPTY_ADDR ∧ 0 < fanout_index) then prev else EMPTY_ADDR)
    (sr_min h) (sr_min_time h) (sr_max h) (sr_max_time h) (sr_sum h) (sr_first h) (sr_last h)
    LEAF 0 size FASTSTDB_VERSION fanout_index crc.

(** [at_] are the addresses of the components. *)
Definition commit {B} `{BlockStore B} (impl : crc32c_impl_t) (at_ : nat → Z) (l : IOVecLeaf) (bstore : B)
    : option (Status * Z * IOVecLeaf * B) :=
  n ← nelements l;
  if decide (n = 0) then None else
  match lf_node l with
  | Loaded _ => None
  | Open w =>
    '(total, w) ← IOVecBlockWriter.commit w;
    let size := u16 (u16 (Z.of_nat total) - Z.of_nat SUBTREE_REF_SIZE) in
    if decide (size = 0) then None else
    let l := mkLeaf (lf_prev l) (Open w) (lf_fanout l) in
    let crc := checksum_block impl at_ (block_ l) SUBTREE_REF_SIZE (Z.to_nat size) in
    l ← update_header (close_meta (lf_prev l) (lf_fanout l) size crc) l;
    '(status, addr, b, bstore) ← bs_append (block_ l) bstore;
    Some (status, addr, set_block b l, bstore)
  end.

(** [init_subtree_from_leaf]: the reference to put in the parent. *)
Definition init_subtree_from_leaf (l : IOVecLeaf) : option (Status * option SubtreeRef) :=
  h ← get_leafmeta l;
  if decide (sr_count h = 0) then Some (kBadArg, None) else
  Some (kOk, Some (mkRef (sr_count h) (sr_id h) (sr_begin h) (sr_end h) EMPTY_ADDR (sr_min h) (sr_min_time h)
    (sr_max h) (sr_max_time h) (sr_sum h) (sr_first h) (sr_last h) LEAF (sr_level h) 0
    (sr_version h) (sr_fanout_index h) 0)).

End Leaf.

(** ** Proofs *)

Lemma head_component b :
  iov_readable b → (0 < pos_ b)%nat →
  ∃ d rest, data_ b !! 0%nat = Some d ∧ flat b = d ++ rest ∧ (COMPONENT_SIZE ≤ length d)%nat.
Proof.
  intros Hb Hp. pose proof (readable_head b Hb Hp) as Hl. unfold flat.
  destruct (data_ b) as [|d rest]; [simpl in Hl; pose proof component_pos; lia|].
  by exists d, (concat rest).
Qed.

Lemma ref_size_component : (SUBTREE_REF_SIZE + HEADER_SIZE ≤ COMPONENT_SIZE)%nat.
Proof. rewrite component_eq, ref_size_eq. unfold HEADER_SIZE. lia. Qed.

Lemma get_header_ok b r rest :
  iov_readable b → (0 < pos_ b)%nat → flat b = encode_ref r ++ rest → ref_ok r → get_header b = Some r.
Proof.
  intros Hb Hp Ef Hr. destruct (head_component b Hb Hp) as (d&tl&Ed&Efd&Hl).
  unfold get_header, IOVec.get_data. rewrite Ed. cbn [mbind option_bind]. pose proof ref_size_component.
  rewrite decide_True by lia. f_equal. rewrite Ef in Efd. pose proof (length_encode_ref r) as Hlr.
  assert (d = encode_ref r ++ drop SUBTREE_REF_SIZE d) as ->; [|by apply decode_encode_ref].
  rewrite <- (take_drop SUBTREE_REF_SIZE d) at 1. f_equal.
  assert (take SUBTREE_REF_SIZE (d ++ tl) = take SUBTREE_REF_SIZE (encode_ref r ++ rest)) as E by (by rewrite Efd).
  rewrite take_app_le in E by lia. rewrite E. by rewrite take_app_length'.
Qed.

Lemma set_header_ok b r :
  iov_inv b → (0 < pos_ b)%nat →
  ∃ b', set_header r b = Some b' ∧ iov_inv b' ∧ pos_ b' = pos_ b ∧ addr_ b' = addr_ b ∧
    flat b' = encode_ref r ++ drop SUBTREE_REF_SIZE (flat b).
Proof.
  intros [full Hb] Hp. pose proof (sh_pos _ _ Hb). pose proof ref_size_component.
  destruct (write_at_ok full b 0 (encode_ref r) Hb) as (b'&full'&E&Hb'&_&Ep&Ea&Ef).
  { rewrite (length_flat _ _ Hb). lia. }
  { rewrite Nat.Div0.mod_0_l, length_encode_ref. lia. }
  { apply encode_ref_u8. }
  rewrite Nat.Div0.div_0_l, Nat.Div0.mod_0_l in E. exists b'. split_and!; [done|by exists full'|done|done|].
  rewrite Ef, length_encode_ref. done.
Qed.

Lemma holds_mem {S} `{Base128SinkLaws S} pre id (b : BlockWriter.t S) pts :
  holds pre id b pts →
  sk_inv (vw_sink (BlockWriter.stream_ b)) ∧
  ∃ rest, sk_mem (vw_sink (BlockWriter.stream_ b)) = pre ++ rest ∧ (HEADER_SIZE ≤ length rest)%nat.
Proof.
  intros (chs&buf&tail&junk&I&_). split; [apply (bi_sink _ _ _ _ _ _ _ I)|].
  destruct (bi_mem _ _ _ _ _ _ _ I) as (bs&_&Em). eexists. split; [exact Em|].
  rewrite length_app, length_header. lia.
Qed.

(** A block of 4 KiB holds fewer than 22000 points. *)
Lemma holds_capacity pre id (b : IOVecBlockWriter.t) pts : holds pre id b pts → Z.of_nat (length pts) < 22000.
Proof.
  intros (chs&buf&tail&junk&I&->). destruct (bi_mem _ _ _ _ _ _ _ I) as (bs&Ebs&Em).
  pose proof (bi_sink _ _ _ _ _ _ _ I) as Hs. pose proof (bi_buf_len _ _ _ _ _ _ _ I).
  pose proof (chunks_bytes_length _ _ _ _ _ _ (bi_chs _ _ _ _ _ _ _ I) start_pred_ok Ebs) as Hb.
  pose proof (sk_mem_cap _ Hs) as Hc. rewrite Em in Hc.
  rewrite !length_app, length_header, length_tail_bytes in Hc. simpl in Hc. rewrite block_size_eq, component_eq in Hc.
  rewrite !length_app, (concat_chunks_length chs (bi_chs _ _ _ _ _ _ _ I)). lia.
Qed.

Section LeafInvariant.
Import Leaf.

(** An open leaf with metadata [h] that has accepted [pts]. *)
Definition leaf_inv (l : IOVecLeaf) (id : Z) (h : SubtreeRef) (pts : list point) : Prop :=
  ∃ w, lf_node l = Open w ∧ holds (encode_ref h) id w pts ∧ ref_ok h.

Lemma leaf_block l id h pts :
  leaf_inv l id h pts →
  iov_inv (block_ l) ∧ (SUBTREE_REF_SIZE + HEADER_SIZE ≤ pos_ (block_ l))%nat ∧ get_leafmeta l = Some h ∧
  ∃ rest, flat (block_ l) = encode_ref h ++ rest.
Proof.
  intros (w&E&Hw&Hh). unfold get_leafmeta, block_. rewrite E.
  destruct (holds_mem _ _ _ _ Hw) as [Hs (rest&Em&Hr)]. simpl in Hs, Em.
  change (vw_sink (BlockWriter.stream_ w)) with (IOVecBlockWriter.block w) in *.
  set (b := IOVecBlockWriter.block w) in *.
  pose proof (iov_length_mem b Hs) as Hl. rewrite Em, length_app, length_encode_ref in Hl.
  assert (Ef : flat b = encode_ref h ++ (rest ++ drop (pos_ b) (flat b))).
  { rewrite app_assoc, <- Em. by rewrite take_drop. }
  split_and!; [done|lia| |by eexists]. eapply (get_header_ok b h); [by left| |exact Ef|done].
  rewrite ref_size_eq in Hl. lia.
Qed.

Lemma leaf_set_header l id h pts r :
  leaf_inv l id h pts → ref_ok r →
  ∃ b, set_header r (block_ l) = Some b ∧ leaf_inv (set_block b l) id r pts ∧ pos_ b = pos_ (block_ l) ∧
    flat b = encode_ref r ++ drop SUBTREE_REF_SIZE (flat (block_ l)).
Proof.
  intros Hl Hr. destruct (leaf_block _ _ _ _ Hl) as (Hb&Hp&_&(rest&Ef)). destruct Hl as (w&E&Hw&Hh).
  destruct (set_header_ok (block_ l) r Hb) as (b&Es&Hb'&Ep&_&Efb); [rewrite ref_size_eq in Hp; lia|].
  exists b. split_and!; [done| |done|done].
  exists (with_block b w). unfold set_block. rewrite E. split_and!; [done| |done].
  unfold block_ in *. rewrite E in *.
  apply (holds_pre (encode_ref h)); [done|done|by rewrite !length_encode_ref| |done].
  simpl. rewrite Ep, Efb. fold (IOVecBlockWriter.block w). rewrite length_encode_ref.
  rewrite take_app_ge by (rewrite length_encode_ref; lia). f_equal.
  by rewrite length_encode_ref, skipn_firstn_comm.
Qed.

Lemma update_header_ok l id h pts f :
  leaf_inv l id h pts → ref_ok (f h) →
  ∃ b, update_header f l = Some (set_block b l) ∧ leaf_inv (set_block b l) id (f h) pts ∧
    pos_ b = pos_ (block_ l) ∧ flat b = encode_ref (f h) ++ drop SUBTREE_REF_SIZE (flat (block_ l)).
Proof.
  intros Hl Hf. destruct (leaf_block _ _ _ _ Hl) as (_&_&Eh&_).
  destruct (leaf_set_header l id h pts (f h) Hl Hf) as (b&Es&Hb&Ep&Efl).
  exists b. unfold update_header. rewrite Eh. cbn [mbind option_bind]. rewrite Es. done.
Qed.

Lemma ref_ok_fields (r : SubtreeRef) :
  ref_ok r ↔ Forall is_u64 [sr_count r; sr_id r; sr_begin r; sr_end r; sr_addr r; sr_min r; sr_min_time r;
    sr_max r; sr_max_time r; sr_sum r; sr_first r; sr_last r] ∧
  Forall is_u16 [sr_type r; sr_level r; sr_payload_size r; sr_version r; sr_fanout_index r] ∧
  is_u32 (sr_checksum r).
Proof.
  unfold ref_ok, layout, to_fields, is_u64, is_u16, is_u32. simpl.
  rewrite !Forall2_cons, Forall2_nil, !Forall_cons, !Forall_nil. simpl. tauto.
Qed.

Lemma add_point_ok ts v h : point_ok (ts, v) → ref_ok h → ref_ok (add_point ts v h).
Proof.
  intros [Hts Hv] Hh. simpl in *. rewrite ref_ok_fields in Hh |- *. rewrite !Forall_cons in *. simpl.
  pose proof (u64_range (sr_count h + 1)). pose proof (dadd_u64 (sr_sum h) v).
  destruct Hh as ((?&?&?&?&?&?&?&?&?&?&?&?&_)&(?&?&?&?&?&_)&?). repeat case_match; by split_and!.
Qed.

Lemma init_meta_ok id prev fanout h :
  is_u64 id → is_u64 prev → is_u16 fanout → ref_ok h → ref_ok (init_meta id prev fanout h).
Proof.
  intros Hid Hp Hf Hh. rewrite ref_ok_fields in Hh |- *. rewrite !Forall_cons in *. simpl.
  destruct Hh as (_&_&?). by split_and!.
Qed.

Lemma leaf_close_meta_ok prev fanout size crc h :
  is_u64 prev → is_u16 fanout → is_u16 size → is_u32 crc → ref_ok h →
  ref_ok (close_meta prev fanout size crc h).
Proof.
  intros Hp Hf Hs Hc Hh. rewrite ref_ok_fields in Hh |- *. rewrite !Forall_cons in *. simpl.
  destruct Hh as ((?&?&?&?&?&?&?&?&?&?&?&?&_)&(?&?&?&?&?&_)&?). case_match; by split_and!.
Qed.

Definition leaf_space (l : IOVecLeaf) : Z := IOVec.space_left (block_ l).

Lemma allocate_first :
  IOVec.allocate SUBTREE_REF_SIZE IOVec.make = (Some 0%nat, mkIOVec [blank; []; []; []] 110 EMPTY_ADDR) ∧
  get_header (mkIOVec [blank; []; []; []] 110 EMPTY_ADDR) = Some ZERO_REF.
Proof. split; vm_compute; reflexivity. Qed.

Lemma leaf_make_ok id prev fanout :
  is_u64 id → is_u64 prev → is_u16 fanout →
  ∃ l, make id prev fanout = Some l ∧ leaf_inv l id (init_meta id prev fanout ZERO_REF) [] ∧
    lf_prev l = prev ∧ lf_fanout l = fanout ∧ leaf_space l = 3972.
Proof.
  intros Hid Hp Hf. pose proof ref_size_component. unfold HEADER_SIZE in *. pose proof component_pos.
  destruct allocate_first as [Ea Eh].
  set (b := mkIOVec _ 110 _) in *.
  assert (Hb : iov_inv b).
  { exists [blank]. constructor; simpl; [done|by apply Forall_singleton, length_blank|unfold NCOMPONENTS; lia|
      rewrite component_eq; lia|apply Forall_singleton, blank_u8]. }
  destruct (set_header_ok b (init_meta id prev fanout ZERO_REF) Hb ltac:(simpl; lia)) as (b'&Es&Hb'&Ep&_&Ef).
  simpl in Ep.
  destruct (block_init_ok b' id) as (w0&w&E0&E1&I); [exact Hb'|exact Hid| | | |].
  { simpl. apply (iov_contig_ok b' 110 Ep). unfold HEADER_SIZE. rewrite component_eq. lia. }
  { simpl. unfold IOVec.space_left. rewrite block_size_eq, component_eq, Ep. lia. }
  { simpl. rewrite block_size_eq, component_eq. lia. }
  unfold make. unfold IOVecBlockWriter.make. rewrite decide_False by lia.
  unfold BlockWriter.make in *. rewrite start_pred_eq in *. cbn [mbind option_bind] in *.
  cbn [IOVecBlockWriter.block BlockWriter.stream_ VByteWriter.make vw_sink]. rewrite Ea.
  rewrite decide_False by done. rewrite Eh. cbn [mbind option_bind]. rewrite Es. cbn [mbind option_bind].
  injection E0 as <-. unfold with_block, BlockWriter.set_stream, VByteWriter.set_sink.
  cbn -[BlockWriter.init]. unfold IOVecBlockWriter.init. simpl in E1. unfold VByteWriter.make in E1. rewrite E1.
  cbn [mbind option_bind].
  assert (Emem : sk_mem b' = encode_ref (init_meta id prev fanout ZERO_REF)).
  { simpl. rewrite Ep, Ef. by rewrite take_app_length' by (by rewrite length_encode_ref, ref_size_eq). }
  rewrite Emem in I. eexists. split; [done|]. split_and!; try done; cycle 1.
  { unfold leaf_space, block_, IOVec.space_left. simpl. pose proof (bi_sink _ _ _ _ _ _ _ I) as Hw.
    destruct (bi_mem _ _ _ _ _ _ _ I) as (bs&Ebs&Em). injection Ebs as <- _ _.
    assert (Hl : length (sk_mem (vw_sink (BlockWriter.stream_ w))) = pos_ (vw_sink (BlockWriter.stream_ w)))
      by (exact (iov_length_mem _ Hw)).
    rewrite Em, !length_app, length_encode_ref, ref_size_eq in Hl.
    rewrite length_header in Hl. unfold HEADER_SIZE in Hl. simpl in Hl. unfold IOVecBlockWriter.block.
    rewrite block_size_eq, component_eq, <- Hl. lia. }
  exists w. split_and!; [done| |].
  - exists [], [], [], []. by split.
  - apply init_meta_ok; [done..|]. apply (bool_decide_unpack _). by vm_compute.
Qed.

Lemma leaf_append_ok l id h pts ts v :
  leaf_inv l id h pts → point_ok (ts, v) →
  ∃ st l', append ts v l = Some (st, l') ∧ lf_prev l' = lf_prev l ∧ lf_fanout l' = lf_fanout l ∧
    ((st = kOk ∧ 16 ≤ leaf_space l ∧ leaf_inv l' id (add_point ts v h) (pts ++ [(ts, v)])) ∨
     (st = kOverflow ∧ leaf_space l' ≤ leaf_space l < 16 ∧ leaf_inv l' id h pts)).
Proof.
  intros (w&E&Hw&Hh) Hx. unfold append. rewrite E.
  destruct (put_cases _ _ _ _ ts v Hw Hx) as (st&w'&E'&Hc). unfold IOVecBlockWriter.put. rewrite E'.
  cbn [mbind option_bind]. set (l1 := mkLeaf _ (Open w') _).
  assert (leaf_space l = VByteWriter.space_left (BlockWriter.stream_ w)) as -> by (unfold leaf_space, block_; by rewrite E).
  destruct Hc as [(->&?&Hw')|(->&?&Hw')].
  - rewrite decide_True by done.
    assert (Hl1 : leaf_inv l1 id h (pts ++ [(ts, v)])) by (by exists w').
    destruct (update_header_ok l1 _ _ _ (add_point ts v) Hl1 (add_point_ok _ _ _ Hx Hh)) as (b&->&Hl2&_).
    cbn [mbind option_bind]. eexists _, _. split; [done|]. split_and!; [done|done|]. by left; split_and!.
  - rewrite decide_False by done. eexists _, _. split; [done|]. split_and!; [done|done|].
    right. change (leaf_space l1) with (VByteWriter.space_left (BlockWriter.stream_ w')).
    split_and!; [done|lia|lia|]. by exists w'.
Qed.

Lemma leaf_read_loop_ok n r acc pts r' :
  read_n BlockReader.next_point n r = Some (pts, r') → read_loop n r acc = Some (kOk, acc ++ pts).
Proof.
  revert r acc pts. induction n as [|n IH]; intros r acc pts E; simpl in E |- *.
  { injection E as <- <-. by rewrite app_nil_r. }
  unfold BlockReader.next_point in E. unfold IOVecBlockReader.next.
  destruct (BlockReader.next r) as [[[[st ts] v] r1]|]; cbn [mbind option_bind] in *; [|done].
  case_decide as Hst; cbn [mbind option_bind] in E; [|done].
  destruct (read_n _ n r1) as [[pts1 r2]|] eqn:E1; cbn [mbind option_bind] in E; [|done].
  injection E as <- <-. rewrite decide_False by (by rewrite Hst; intros Hx; apply Hx).
  rewrite (IH _ _ _ E1). by rewrite <- app_assoc.
Qed.

Lemma read_all_open l id h pts :
  leaf_inv l id h pts → is_u64 id → read_all l = Some (kOk, pts).
Proof.
  intros Hl Hid. destruct (leaf_block _ _ _ _ Hl) as (Hb&Hp&_&_). destruct Hl as (w&E&Hw&Hh).
  unfold block_ in *. rewrite E in *. pose proof ref_size_component.
  destruct (open_block_read w _ id pts (IOVecBlockWriter.block w) [] Hw Hid) as (Ei&r&written&Er&Hr&->).
  { by left. }
  { by rewrite app_nil_r. }
  { rewrite length_encode_ref. etransitivity; [|apply readable_head; [by left|unfold HEADER_SIZE in *; lia]]. done. }
  destruct Hr as (En&_&_&(r'&Ern&_)).
  unfold read_all, get_write_index, block_. rewrite E. unfold IOVecBlockWriter.get_write_index.
  rewrite Ei. cbn [mbind option_bind]. unfold IOVecBlockReader.make. rewrite length_encode_ref in Er. rewrite Er.
  cbn [mbind option_bind]. unfold IOVecBlockReader.nelements. rewrite En. cbn [mbind option_bind].
  rewrite Nat2Z.id, (leaf_read_loop_ok _ _ [] _ _ Ern). cbn [mbind option_bind].
  rewrite decide_False by (intros Hx; by apply Hx). do 2 f_equal. case_decide as Hn; [done|].
  rewrite length_app in Hn. unfold IOVecBlockWriter.read_tail_elements.
  destruct (BlockWriter.read_tail_elements w); [by rewrite app_nil_r|simpl in Hn; lia].
Qed.

Lemma update_header_block f l h rest :
  iov_inv (block_ l) → (0 < pos_ (block_ l))%nat → flat (block_ l) = encode_ref h ++ rest → ref_ok h →
  ∃ b, update_header f l = Some (set_block b l) ∧ iov_inv b ∧ pos_ b = pos_ (block_ l) ∧
    flat b = encode_ref (f h) ++ rest.
Proof.
  intros Hb Hp Ef Hh. unfold update_header, get_leafmeta.
  erewrite (get_header_ok (block_ l) h); [|by left|done|exact Ef|done]. cbn [mbind option_bind].
  destruct (set_header_ok (block_ l) (f h) Hb Hp) as (b&->&Hb'&Ep&_&Efb). cbn [mbind option_bind].
  exists b. split_and!; [done..|]. rewrite Efb, Ef. by rewrite drop_app_length' by (by rewrite length_encode_ref).
Qed.

Lemma block_set_block b l : block_ (set_block b l) = b.
Proof. unfold block_, set_block. by destruct (lf_node l). Qed.

(** A committed leaf on disk: the metadata, the closed data block, the rest. *)
Definition leaf_image (id : Z) (h : SubtreeRef) (pts : list point) (img : list Z) : Prop :=
  ∃ chs tail junk l post, img = encode_ref h ++ l ++ post ∧ closed_block id chs tail junk l ∧
    pts = concat chs ++ tail ∧ length img = FASTSTDB_BLOCK_SIZE ∧ ref_ok h ∧
    sr_payload_size h = Z.of_nat (length l) ∧ Forall is_u8 l ∧ sr_checksum h = crc32c_ref 0 l.

Lemma loaded_readable img : length img = FASTSTDB_BLOCK_SIZE → iov_readable (loaded img).
Proof. intros Hl. right. exists img. by split_and!. Qed.

Lemma flat_loaded img : flat (loaded img) = img.
Proof. unfold flat, loaded. simpl. by rewrite app_nil_r. Qed.

(** What is read back from the image. *)
Lemma leaf_image_header id h pts img : leaf_image id h pts img → get_header (loaded img) = Some h.
Proof.
  intros (chs&tail&junk&l&post&E&_&_&Hl&Hh&_). eapply (get_header_ok (loaded img) h).
  - by apply loaded_readable.
  - simpl. rewrite block_size_eq. pose proof component_pos. lia.
  - by rewrite flat_loaded.
  - done.
Qed.

Lemma leaf_image_checksum impl `{!Crc32cImpl impl} at_ id h pts img :
  leaf_image id h pts img → node_checksum_ok impl at_ (loaded img) = Some true.
Proof.
  intros Hi. pose proof (leaf_image_header _ _ _ _ Hi) as Eh.
  destruct Hi as (chs&tail&junk&l&post&E&_&_&Hl&Hh&Ep&Hu&Ec).
  unfold node_checksum_ok, IOVec.get_data. simpl. rewrite decide_True by done. rewrite Eh.
  cbn [mbind option_bind]. rewrite Ep, Nat2Z.id.
  assert (Hlen : (SUBTREE_REF_SIZE + length l ≤ length img)%nat).
  { rewrite E, !length_app, length_encode_ref. lia. }
  rewrite decide_False by lia. rewrite E, drop_app_length' by (by rewrite length_encode_ref).
  rewrite take_app_length. rewrite (checksum_ok impl) by done. by rewrite Ec, bool_decide_eq_true_2.
Qed.

Lemma leaf_image_read id h pts img :
  leaf_image id h pts img → is_u64 id →
  ∃ l, load (loaded img) = Some l ∧ get_leafmeta l = Some h ∧ read_all l = Some (kOk, pts).
Proof.
  intros Hi Hid. pose proof (leaf_image_header _ _ _ _ Hi) as Eh.
  destruct Hi as (chs&tail&junk&l&post&E&Hcl&->&Hl&Hh&_).
  unfold load. rewrite Eh. cbn [mbind option_bind]. eexists. split; [done|]. split; [exact Eh|].
  pose proof ref_size_component. pose proof component_pos.
  destruct (closed_block_read (loaded img) (encode_ref h) id chs tail (junk ++ post) (l ++ post))
    as (r&Er&(En&_&_&(r'&Ern&_))).
  { by apply loaded_readable. }
  { done. }
  { by apply closed_block_more. }
  { simpl. by rewrite flat_loaded, take_ge, E by lia. }
  { simpl. rewrite length_encode_ref, Hl, block_size_eq. lia. }
  unfold read_all, get_write_index, block_. cbn [lf_node mbind option_bind]. unfold IOVecBlockReader.make.
  rewrite length_encode_ref in Er. rewrite Er. cbn [mbind option_bind].
  unfold IOVecBlockReader.nelements. rewrite En. cbn [mbind option_bind].
  rewrite Nat2Z.id, (leaf_read_loop_ok _ _ [] _ _ Ern). cbn [mbind option_bind].
  by rewrite decide_False by (intros Hx; by apply Hx).
Qed.

(** Committing an open leaf stores an image of it. *)
Lemma leaf_commit_ok {B} `{BlockStore B} impl `{!Crc32cImpl impl} at_ l id h pts (s : B) :
  leaf_inv l id h pts → sr_count h ≠ 0 → is_u64 (lf_prev l) → is_u16 (lf_fanout l) →
  ∃ size crc b l1,
    block_ok b ∧ leaf_image id (close_meta (lf_prev l) (lf_fanout l) size crc h) pts (image b) ∧
    get_header b = Some (close_meta (lf_prev l) (lf_fanout l) size crc h) ∧
    commit impl at_ l s = ('(st, addr, b', s') ← bs_append b s; Some (st, addr, set_block b' l1, s')).
Proof.
  intros Hl Hc Hprev Hfan. destruct (leaf_block _ _ _ _ Hl) as (_&_&Em&_).
  destruct Hl as (w&E&(chs&buf&tail&junk&I&->)&Hh).
  destruct (commit_inv _ _ _ _ _ _ _ I) as (n&w'&lb&Ecm&Hs&_&Emem&->&Hcl).
  simpl in Hs, Emem. change (vw_sink (BlockWriter.stream_ w')) with (IOVecBlockWriter.block w') in *.
  set (b0 := IOVecBlockWriter.block w') in *. set (l1 := mkLeaf (lf_prev l) (Open w') (lf_fanout l)).
  pose proof (iov_length_mem b0 Hs) as Hpos. rewrite Emem, length_app, length_encode_ref in Hpos.
  pose proof (iov_pos_cap b0 Hs) as Hcap. rewrite block_size_eq, component_eq in Hcap.
  pose proof (closed_block_size _ _ _ _ _ (encode_ref h) Hcl) as Hsz. rewrite length_app in Hsz.
  unfold HEADER_SIZE in Hsz.
  assert (Ef0 : flat b0 = encode_ref h ++ (lb ++ drop (pos_ b0) (flat b0))).
  { rewrite app_assoc, <- Emem. by rewrite take_drop. }
  set (size := Z.of_nat (length lb)).
  set (crc := checksum_block impl at_ b0 SUBTREE_REF_SIZE (Z.to_nat size)).
  assert (Hlb : take (length lb) (drop SUBTREE_REF_SIZE (flat b0)) = lb).
  { rewrite Ef0, drop_app_length' by (by rewrite length_encode_ref). by rewrite take_app_length. }
  assert (Hu : Forall is_u8 lb).
  { rewrite <- Hlb. by apply Forall_take, Forall_drop, flat_u8. }
  pose proof (readable_pos b0 (or_introl Hs)) as [Hpf _].
  assert (Ecrc : crc = crc32c_ref 0 lb).
  { unfold crc, size. rewrite Nat2Z.id, checksum_block_ok; [by rewrite Hlb|done|done| |lia].
    pose proof ref_size_component. unfold HEADER_SIZE in *. lia. }
  assert (Hp0 : (0 < pos_ (block_ l1))%nat) by (change (block_ l1) with b0; lia).
  destruct (update_header_block (close_meta (lf_prev l) (lf_fanout l) size crc) l1 h _ Hs Hp0 Ef0 Hh)
    as (b&Eu&Hb&Epb&Efb).
  assert (Hcm : ref_ok (close_meta (lf_prev l) (lf_fanout l) size crc h)).
  { apply leaf_close_meta_ok; try done; [unfold is_u16, size; lia|].
    rewrite Ecrc. apply crc32c_ref_u32; [by unfold is_u32|done]. }
  exists size, crc, b, (set_block b l1). split_and!; [by apply iov_block_ok| | |].
  - exists chs, (buf ++ tail), junk, lb.
    pose proof (image_flat b Hb) as Hi. pose proof (length_image b (iov_block_ok b Hb)) as Hil.
    eexists (drop (pos_ b0) (flat b0) ++ drop (length (flat b)) (image b)).
    split_and!; try done.
    + rewrite <- (take_drop (length (flat b)) (image b)) at 1. rewrite Hi, Efb. by rewrite <- !app_assoc.
  - eapply (get_header_ok b); [by left|by rewrite Epb|exact Efb|exact Hcm].
  - unfold commit, nelements. rewrite Em. cbn [mbind option_bind]. rewrite decide_False by done. rewrite E.
    unfold IOVecBlockWriter.commit. rewrite Ecm. cbn [mbind option_bind].
    rewrite length_app, length_encode_ref, (u16_id (Z.of_nat _)) by (unfold is_u16; lia).
    replace (Z.of_nat (SUBTREE_REF_SIZE + length lb) - Z.of_nat SUBTREE_REF_SIZE) with size by (unfold size; lia).
    rewrite u16_id by (unfold is_u16, size; lia). rewrite decide_False by (unfold size; lia).
    fold l1. change (block_ l1) with b0. fold crc. cbn [lf_prev lf_fanout l1] in *. rewrite Eu.
    cbn [mbind option_bind]. by rewrite block_set_block.
Qed.

(** A run of [append]s with their statuses. *)
Fixpoint append_many (pts : list point) (l : IOVecLeaf) : option (list Status * IOVecLeaf) :=
  match pts with
  | [] => Some ([], l)
  | (ts, v) :: pts =>
    '(st, l) ← append ts v l;
    '(sts, l) ← append_many pts l;
    Some (st :: sts, l)
  end.

Definition add_points (pts : list point) (h : SubtreeRef) : SubtreeRef :=
  foldl (λ h x, add_point x.1 x.2 h) h pts.

Lemma append_many_full pts l id h old :
  leaf_inv l id h old → Forall point_ok pts → leaf_space l < 16 →
  ∃ l', append_many pts l = Some (replicate (length pts) kOverflow, l') ∧ leaf_inv l' id h old ∧
    lf_prev l' = lf_prev l ∧ lf_fanout l' = lf_fanout l.
Proof.
  intros Hl Hp. revert l Hl. induction Hp as [|[ts v] pts Hx _ IH]; intros l Hl Hsp; simpl.
  { by exists l. }
  destruct (leaf_append_ok l id h old ts v Hl Hx) as (st&l1&->&Epr&Efn&[(_&?&_)|(->&Hsp1&Hl1)]); [lia|].
  cbn [mbind option_bind]. destruct (IH l1 Hl1 ltac:(lia)) as (l'&->&Hl'&Epr'&Efn'). cbn [mbind option_bind].
  exists l'. split_and!; [done|done|congruence|congruence].
Qed.

Lemma append_many_ok pts l id h old :
  leaf_inv l id h old → Forall point_ok pts →
  ∃ k l', (k ≤ length pts)%nat ∧
    append_many pts l = Some (replicate k kOk ++ replicate (length pts - k) kOverflow, l') ∧
    leaf_inv l' id (add_points (take k pts) h) (old ++ take k pts) ∧
    lf_prev l' = lf_prev l ∧ lf_fanout l' = lf_fanout l ∧ (pts ≠ [] → 16 ≤ leaf_space l → (0 < k)%nat).
Proof.
  intros Hl Hp. revert l h old Hl. induction Hp as [|[ts v] pts Hx Hp IH]; intros l h old Hl.
  { exists 0%nat, l. split_and!; try done. by rewrite take_nil, app_nil_r. }
  cbn [append_many]. destruct (leaf_append_ok l id h old ts v Hl Hx) as (st&l1&->&Epr&Efn&[(->&_&Hl1)|(->&Hsp1&Hl1)]);
    cbn [mbind option_bind].
  - destruct (IH l1 _ _ Hl1) as (k&l'&Hk&->&Hl'&Epr'&Efn'&_). cbn [mbind option_bind].
    exists (S k), l'. rewrite <- app_assoc in Hl'. split_and!; [simpl; lia|done|done|congruence|congruence|lia].
  - destruct (append_many_full pts l1 id h old Hl1 Hp ltac:(lia)) as (l'&->&Hl'&Epr'&Efn'). cbn [mbind option_bind].
    exists 0%nat, l'. rewrite take_0, app_nil_r. split_and!; [lia|done|done|congruence|congruence|lia].
Qed.

Lemma add_points_id pts h : sr_id (add_points pts h) = sr_id h.
Proof. revert h. induction pts as [|x pts IH]; intros h; [done|]. unfold add_points in *. simpl. by rewrite IH. Qed.

Lemma add_points_count pts h :
  Z.of_nat (length pts) + sr_count h < 2 ^ 64 → 0 ≤ sr_count h →
  sr_count (add_points pts h) = sr_count h + Z.of_nat (length pts).
Proof.
  revert h. induction pts as [|[ts v] pts IH]; intros h Hlt H0; [simpl; lia|].
  unfold add_points in *. cbn [foldl fst snd]. simpl length in *.
  assert (E : sr_count (add_point ts v h) = sr_count h + 1) by (simpl; apply u64_id; unfold is_u64; lia).
  rewrite IH; lia.
Qed.

End LeafInvariant.

(** ** What the metadata says of the points *)

Record summarises (h : SubtreeRef) (pts : list point) : Prop := {
  su_count : sr_count h = Z.of_nat (length pts);
  su_begin x : head pts = Some x → sr_begin h = x.1 ∧ sr_first h = x.2;
  su_end x : last pts = Some x → sr_end h = x.1 ∧ sr_last h = x.2;
  su_sum : sr_sum h = foldl dadd 0 (pts.*2);
  su_min_time : (sr_min h, sr_min_time h) = foldl Agg.min_step (DBL_MAX, TS_MAX) pts;
  su_max_time : (sr_max h, sr_max_time h) = foldl Agg.max_step (DBL_LOWEST, 0) pts;
  su_nan : is_nan (sr_min h) = false ∧ is_nan (sr_max h) = false;
  su_min x : x ∈ pts → rank (sr_min h) ≤ rank x.2;
  su_max x : x ∈ pts → rank x.2 ≤ rank (sr_max h);
  su_min_in : if decide (pts = []) then sr_min h = DBL_MAX else ∃ x, x ∈ pts ∧ rank (sr_min h) = rank x.2;
  su_max_in : if decide (pts = []) then sr_max h = DBL_LOWEST else ∃ x, x ∈ pts ∧ rank (sr_max h) = rank x.2;
}.

Lemma summarises_init id prev fanout h : summarises (Leaf.init_meta id prev fanout h) [].
Proof. by constructor; try (intros x Hx; by apply not_elem_of_nil in Hx). Qed.

Lemma summarises_add h pts ts v :
  summarises h pts → finite v → Z.of_nat (length pts) + 1 < 2 ^ 64 →
  summarises (Leaf.add_point ts v h) (pts ++ [(ts, v)]).
Proof.
  intros [Hc Hb He Hs Hmt Hxt [Hn1 Hn2] Hmin Hmax Hmi Hma] Hv Hlen. pose proof (finite_not_nan v Hv) as Hnv.
  pose proof (finite_rank v Hv) as Hr. unfold Leaf.add_point. rewrite !dlt_rank by done.
  assert (Hne : pts ++ [(ts, v)] ≠ []) by (by destruct pts).
  constructor; simpl; rewrite ?(decide_False (P := _ ++ _ = [])) by done.
  - rewrite Hc, length_app, u64_id by (unfold is_u64; lia). simpl. lia.
  - intros x Hx. rewrite Hc. destruct pts as [|y pts]; simpl in *; [by injection Hx as <-|]. by apply Hb.
  - intros x. rewrite last_snoc. by intros [= <-].
  - rewrite Hs, fmap_app, foldl_app. done.
  - rewrite foldl_app, <- Hmt. simpl. unfold Agg.min_step. simpl. rewrite dlt_rank by done. by case_bool_decide.
  - rewrite foldl_app, <- Hxt. simpl. unfold Agg.max_step. simpl. rewrite dlt_rank by done. by case_bool_decide.
  - by split; case_bool_decide.
  - intros x [Hx|Hx%list_elem_of_singleton]%elem_of_app; [pose proof (Hmin x Hx)|subst x];
      case_bool_decide; simpl; lia.
  - intros x [Hx|Hx%list_elem_of_singleton]%elem_of_app; [pose proof (Hmax x Hx)|subst x];
      case_bool_decide; simpl; lia.
  - case_bool_decide as Hlt; [exists (ts, v); split; [set_solver|done]|]. case_decide as Hp.
    + exists (ts, v). split; [set_solver|]. rewrite Hmi in *. simpl. lia.
    + destruct Hmi as (x&Hx&E). exists x. split; [set_solver|done].
  - case_bool_decide as Hlt; [exists (ts, v); split; [set_solver|done]|]. case_decide as Hp.
    + exists (ts, v). split; [set_solver|]. rewrite Hma in *. simpl. lia.
    + destruct Hma as (x&Hx&E). exists x. split; [set_solver|done].
Qed.

Lemma summarises_points pts h old :
  summarises h old → Forall (λ x, finite x.2) pts → Z.of_nat (length old + length pts) < 2 ^ 64 →
  summarises (add_points pts h) (old ++ pts).
Proof.
  intros Hs Hf. revert h old Hs. induction Hf as [|[ts v] pts Hv _ IH]; intros h old Hs Hlen.
  { by rewrite app_nil_r. }
  unfold add_points. cbn [foldl fst snd] in *. simpl in Hlen.
  replace (old ++ (ts, v) :: pts) with ((old ++ [(ts, v)]) ++ pts) by (by rewrite <- app_assoc).
  apply IH; [apply summarises_add; [done|done|lia]|]. rewrite length_app. simpl. lia.
Qed.

Lemma summarises_close prev fanout size crc h pts :
  summarises h pts → summarises (Leaf.close_meta prev fanout size crc h) pts.
Proof. by intros []. Qed.

(** ** Properties *)

Section LeafProperties.
Import Leaf.

(** C33: a leaf can be read while it is being written, and its metadata
    always describes its points.  After any run of appends the accepted points
    are a prefix (statuses [Ok], then [Overflow]); [read_all] returns exactly
    them, flushed to the block or not; and the metadata holds their number, the
    first and the last of them, their sum in order, and bounds of their values
    that are attained. *)
Theorem leaf_append_read id prev fanout pts :
  is_u64 id → is_u64 prev → is_u16 fanout →
  Forall point_ok pts → Forall (λ x, finite x.2) pts → Z.of_nat (length pts) < 2 ^ 64 →
  ∃ l0 k l h, make id prev fanout = Some l0 ∧ (k ≤ length pts)%nat ∧ Z.of_nat k < 22000 ∧
    append_many pts l0 = Some (replicate k kOk ++ replicate (length pts - k) kOverflow, l) ∧
    read_all l = Some (kOk, take k pts) ∧ get_leafmeta l = Some h ∧ summarises h (take k pts).
Proof.
  intros Hid Hp Hf Hpts Hfin Hlen. destruct (leaf_make_ok id prev fanout Hid Hp Hf) as (l0&E0&Hl0&_).
  destruct (append_many_ok pts l0 id _ [] Hl0 Hpts) as (k&l&Hk&E&Hl&_).
  destruct (leaf_block _ _ _ _ Hl) as (_&_&Eh&_).
  exists l0, k, l, (add_points (take k pts) (init_meta id prev fanout ZERO_REF)).
  assert (Hcap : Z.of_nat k < 22000).
  { destruct Hl as (w&_&Hw&_). pose proof (holds_capacity _ _ _ _ Hw) as Hc. simpl in Hc. rewrite length_take in Hc. lia. }
  split_and!; [exact E0|exact Hk|exact Hcap|exact E|exact (read_all_open _ _ _ _ Hl Hid)|exact Eh|].
  apply (summarises_points _ _ []); [apply summarises_init|by apply Forall_take|].
  rewrite length_take. simpl. lia.
Qed.

(** C26: a leaf survives the trip to disk, through any block store that
    keeps the interface's promise.  Committing a leaf with at least one point
    succeeds at a fresh address; later, whatever else was stored meanwhile, the
    store either says that the block is gone or the checksum matches, the leaf
    can be opened, [read_all] gives back every point bit for bit, and the
    metadata still describes them. *)
Theorem leaf_commit_load {B} `{BlockStoreLaws B} impl `{!Crc32cImpl impl} at_ at' id prev fanout pts
    (s : B) k hist :
  is_u64 id → is_u64 prev → is_u16 fanout → pts ≠ [] →
  Forall point_ok pts → Forall (λ x, finite x.2) pts → Z.of_nat (length pts) < 2 ^ 64 →
  bs_inv (S k) s hist →
  ∃ l0 n l addr l' s' img, make id prev fanout = Some l0 ∧ (0 < n ≤ length pts)%nat ∧
    append_many pts l0 = Some (replicate n kOk ++ replicate (length pts - n) kOverflow, l) ∧
    commit impl at_ l s = Some (kOk, addr, l', s') ∧ hist !! addr = None ∧
    bs_inv k s' (<[addr := img]> hist) ∧
    ∀ k2 s2 hist2, bs_inv k2 s2 hist2 → hist2 !! addr = Some img →
      read_and_check impl at' addr s2 = Some (kUnavailable, None) ∨
      ∃ b l2 h2, read_and_check impl at' addr s2 = Some (kOk, Some b) ∧ open impl at' s2 addr = Some l2 ∧
        read_all l2 = Some (kOk, take n pts) ∧ get_leafmeta l2 = Some h2 ∧ sr_id h2 = id ∧
        summarises h2 (take n pts).
Proof.
  intros Hid Hp Hf Hne Hpts Hfin Hlen Hs. destruct (leaf_make_ok id prev fanout Hid Hp Hf) as (l0&E0&Hl0&Epr0&Efn0&Esp).
  destruct (append_many_ok pts l0 id _ [] Hl0 Hpts) as (n&l&Hn&E&Hl&Epr&Efn&Hpos).
  specialize (Hpos Hne ltac:(lia)). rewrite Epr0 in Epr. rewrite Efn0 in Efn.
  set (h := add_points (take n pts) (init_meta id prev fanout ZERO_REF)) in *.
  assert (Hsum : summarises h (take n pts)).
  { apply (summarises_points _ _ []); [apply summarises_init|by apply Forall_take|].
    rewrite length_take. simpl. lia. }
  assert (Hcnt : sr_count h ≠ 0) by (rewrite (su_count _ _ Hsum), length_take; lia).
  destruct (leaf_commit_ok impl at_ l id h _ s Hl Hcnt) as (size&crc&b&l1&Hb&Hi&_&Ec); [by rewrite Epr|by rewrite Efn|].
  destruct (bs_append_ok k s hist b Hs Hb) as (addr&b'&s'&Ea&Hfr&_&_&Hs'&_).
  rewrite Ea in Ec. cbn [mbind option_bind] in Ec.
  exists l0, n, l, addr, (set_block b' l1), s', (image b).
  split_and!; [exact E0|exact Hpos|exact Hn|exact E|exact Ec|exact Hfr|exact Hs'|].
  intros k2 s2 hist2 Hs2 Ha. unfold read_and_check, open, read_iovec_block_from_bstore.
  destruct (bs_read_ok k2 s2 hist2 addr _ Hs2 Ha) as [[-> _]|[-> _]]; [right|by left].
  cbn [mbind option_bind]. rewrite decide_False by (intros Hx; by apply Hx).
  rewrite (leaf_image_checksum impl at' _ _ _ _ Hi). cbn [mbind option_bind].
  destruct (leaf_image_read _ _ _ _ Hi Hid) as (l2&E2&Eh2&Er2).
  eexists _, l2, _. split_and!; [done|exact E2|exact Er2|exact Eh2| |by apply summarises_close].
  simpl. unfold h. by rewrite add_points_id.
Qed.

End LeafProperties.

Lemma leaf_append_read_witness :
  let pts := [(10, 0x3FF0000000000000); (20, 0x4000000000000000); (30, 0)] in
  ∃ l0 k l, Leaf.make 42 EMPTY_ADDR 0 = Some l0 ∧ (k ≤ 3)%nat ∧
    append_many pts l0 = Some (replicate k kOk ++ replicate (3 - k) kOverflow, l) ∧
    Leaf.read_all l = Some (kOk, take k pts).
Proof.
  intros pts. destruct (leaf_append_read 42 EMPTY_ADDR 0 pts) as (l0&k&l&h&E0&Hk&_&E&Er&_);
    [by_compute|by_compute|by_compute|by_compute|by_compute|by_compute|].
  exists l0, k, l. split_and!; [exact E0|exact Hk|exact E|exact Er].
Defined.

(** Through a memory store and the software CRC. *)
Lemma leaf_commit_load_witness :
  let pts := [(10, 0x3FF0000000000000); (20, 0x4000000000000000); (30, 0)] in
  ∃ n l addr l' s', (0 < n ≤ 3)%nat ∧
    Leaf.commit crc32c_sw (λ _, 0) l (Mem.make false false) = Some (kOk, addr, l', s') ∧
    (read_and_check crc32c_sw 0 addr s' = Some (kUnavailable, None) ∨
     ∃ l2, Leaf.open crc32c_sw 0 s' addr = Some l2 ∧ Leaf.read_all l2 = Some (kOk, take n pts)).
Proof.
  intros pts.
  destruct (leaf_commit_load (B := MemStore) crc32c_sw (λ _, 0) 0 42 EMPTY_ADDR 0 pts (Mem.make false false) 0 ∅)
    as (l0&n&l&addr&l'&s'&img&_&Hn&_&Ec&_&Hs'&Hread);
    [by_compute|by_compute|by_compute|done|by_compute|by_compute|by_compute|split; [by apply mem_make_inv|done]|].
  exists n, l, addr, l', s'. split_and!; [apply Hn|apply Hn|exact Ec|].
  destruct (Hread _ _ _ Hs') as [Hu|(b&l2&h2&_&Eo&Er&_)]; [by rewrite lookup_insert_eq|by left|right].
  exists l2. split; [exact Eo|exact Er].
Defined.
