(* ===== verification/LeafIter.v ===== *)
(** * Operators over one leaf (nbtree.cc)

    [NBTreeLeafIterator] returns the points of a leaf in a range of time,
    forward or backward; [NBTreeLeafFilter] also tests their values;
    [NBTreeLeafAggregator] computes their aggregate, from the metadata when the
    range covers the leaf; [EmptyIterator] and [ValueAggregator] return nothing
    and one value.  A [read] returns what the code writes to the destination
    buffers. *)
From stdpp Require Import sorting.
From S2P Require Import Prelude Status ByteStream Base128 VByte DataBlock DataBlockProof IOVec Blocks Volume Double SubtreeRef Operator Leaf.

(** ** [std::lower_bound] and [std::upper_bound]

    The halving loop of the library; [p] is the comparison. *)

Fixpoint bound_loop (fuel : nat) (p : Z → bool) (l : list Z) (first_ len : nat) : option nat :=
  match fuel with
  | O => Some first_
  | S fuel =>
    if decide (len = 0)%nat then Some first_ else
    let half := (len / 2)%nat in
    let middle := (first_ + half)%nat in
    x ← l !! middle;
    if p x then bound_loop fuel p l (middle + 1) (len - half - 1) else bound_loop fuel p l first_ half
  end.

Definition lower_bound (l : list Z) (v : Z) : option nat :=
  bound_loop (length l) (λ x, bool_decide (x < v)) l 0 (length l).
Definition upper_bound (l : list Z) (v : Z) : option nat :=
  bound_loop (length l) (λ x, negb (bool_decide (v < x))) l 0 (length l).

Inductive Direction := FORWARD | BACKWARD.
Definition direction (begin_ end_ : Z) : Direction := if decide (begin_ < end_) then FORWARD else BACKWARD.

(** ** [NBTreeLeafIterator] *)

Record LeafIterator := mkIter {
  li_begin : Z;
  li_end : Z;
  li_buf : list point;  (* tsbuf_, xsbuf_ *)
  li_from : Z;
  li_to : Z;
  li_status : Status;
}.

Module LeafIter.

Definition outside (begin_ end_ : Z) (l : IOVecLeaf) : option bool :=
  '(nb, ne) ← Leaf.get_timestamps l;
  Some (bool_decide (Z.max begin_ end_ < nb) || bool_decide (ne < Z.min begin_ end_)).

(** [init]; the [assert] of the forward direction is [None]. *)
Definition init (l : IOVecLeaf) (it : LeafIterator) : option LeafIterator :=
  let b := li_begin it in
  let e := li_end it in
  out ← outside b e l;
  if out : bool then Some (mkIter b e (li_buf it) (li_from it) (li_to it) kNoData) else
  '(status, pts) ← Leaf.read_all l;
  if decide (status ≠ kOk) then Some (mkIter b e pts (li_from it) (li_to it) status) else
  let tss := pts.*1 in
  if decide (b < e) then
    i ← lower_bound tss b;
    j ← lower_bound tss e;
    if decide (i < length tss)%nat then Some (mkIter b e pts (Z.of_nat i) (Z.of_nat j) status)
    else front ← head tss;
         if decide (b < front) then Some (mkIter b e pts 0 (Z.of_nat j) status) else None
  else
    i ← upper_bound tss b;
    j ← upper_bound tss e;
    Some (mkIter b e (reverse pts) (Z.of_nat (length tss - i)) (Z.of_nat (length tss - j)) status).

Definition make_delayed (begin_ end_ : Z) : LeafIterator := mkIter begin_ end_ [] 0 0 kNoData.
Definition make (begin_ end_ : Z) (l : IOVecLeaf) : option LeafIterator :=
  init l (make_delayed begin_ end_).
Definition make_failed (status : Status) : LeafIterator := mkIter 0 0 [] 0 0 status.

Definition get_size (it : LeafIterator) : option Z :=
  if decide (li_to it < li_from it) then None else Some (li_to it - li_from it).

(** A negative count is out of bounds. *)
Definition read (size : nat) (it : LeafIterator) : option (Status * list point * LeafIterator) :=
  if decide (li_status it ≠ kOk) then Some (li_status it, [], it) else
  let toread := Z.min (li_to it - li_from it) (Z.of_nat size) in
  if decide (toread = 0) then Some (kNoData, [], it) else
  if decide (toread < 0 ∨ Z.of_nat (length (li_buf it)) < li_from it + toread) then None else
  let out := take (Z.to_nat toread) (drop (Z.to_nat (li_from it)) (li_buf it)) in
  Some (kOk, out, mkIter (li_begin it) (li_end it) (li_buf it) (li_from it + toread) (li_to it) (li_status it)).

Definition get_direction (it : LeafIterator) : Direction := direction (li_begin it) (li_end it).

(** Reading until an error, in portions of [size]. *)
Fixpoint drain (fuel size : nat) (it : LeafIterator) : option (list point * Status) :=
  match fuel with
  | O => None
  | S fuel =>
    '(st, out, it) ← read size it;
    if decide (st ≠ kOk) then Some (out, st) else
    '(rest, st) ← drain fuel size it;
    Some (out ++ rest, st)
  end.

End LeafIter.

(** ** [NBTreeLeafFilter] *)

Record LeafFilter := mkLeafFilter {
  lt_begin : Z;
  lt_end : Z;
  lt_buf : list point;
  lt_status : Status;
  lt_filter : ValueFilter;
  lt_pos : nat;
}.

Module LeafFilterOp.

Definition matching (f : ValueFilter) (pts : list point) : list point :=
  filter (λ x, Filter.match_ x.2 f = true) pts.

(** [for (ix = from; ix >= to; ix--)] reads the points between the two
    positions, both included; [xss[-1]] and [xss[n]] are out of bounds. *)
Definition backward_run (pts : list point) (from to : Z) : option (list point) :=
  if decide (from < to) then Some [] else
  if decide (0 ≤ to ∧ from < Z.of_nat (length pts))
  then Some (reverse (take (Z.to_nat (from - to + 1)) (drop (Z.to_nat to) pts))) else None.

Definition make (begin_ end_ : Z) (f : ValueFilter) (l : IOVecLeaf) : option LeafFilter :=
  out ← LeafIter.outside begin_ end_ l;
  if out : bool then Some (mkLeafFilter begin_ end_ [] kNoData f 0) else
  '(status, pts) ← Leaf.read_all l;
  if decide (status ≠ kOk) then Some (mkLeafFilter begin_ end_ [] status f 0) else
  let tss := pts.*1 in
  i ← lower_bound tss begin_;
  buf ←
    (if decide (begin_ < end_) then
       j ← lower_bound tss end_;
       if decide (i < length tss)%nat then Some (matching f (take (j - i) (drop i pts)))
       else front ← head tss;
            if decide (begin_ < front) then Some (matching f (take j pts)) else None
     else
       let from := if decide (i < length tss)%nat then Z.of_nat i else Z.of_nat (length tss) - 1 in
       j ← upper_bound tss end_;
       run ← backward_run pts from (Z.of_nat j);
       Some (matching f run));
  Some (mkLeafFilter begin_ end_ buf status f 0).

Definition get_size (it : LeafFilter) : nat := length (lt_buf it).

Definition read (size : nat) (it : LeafFilter) : Status * list point * LeafFilter :=
  if decide (lt_status it ≠ kOk) then (lt_status it, [], it) else
  let toread := Nat.min (length (lt_buf it) - lt_pos it) size in
  if decide (toread = 0)%nat then (kNoData, [], it) else
  (kOk, take toread (drop (lt_pos it) (lt_buf it)),
   mkLeafFilter (lt_begin it) (lt_end it) (lt_buf it) (lt_status it) (lt_filter it) (lt_pos it + toread)).

Definition get_direction (it : LeafFilter) : Direction := direction (lt_begin it) (lt_end it).

End LeafFilterOp.

(** ** Operators that return nothing or one value *)

Module EmptyIter.
Definition read (size : nat) : Status * list point := (kNoData, []).
End EmptyIter.

Record ValueAggregator := mkValueAgg {
  va_ts : Z;
  va_value : AggregationResult;
  va_dir : Direction;
  va_used : bool;
}.

Module ValueAgg.
Definition make (ts : Z) (value : AggregationResult) (dir : Direction) : ValueAggregator :=
  mkValueAgg ts value dir false.
Definition read (size : nat) (a : ValueAggregator) : Status * list (Z * AggregationResult) * ValueAggregator :=
  if decide (size = 0)%nat then (kBadArg, [], a)
  else if va_used a then (kNoData, [], a)
  else (kOk, [(va_ts a, va_value a)], mkValueAgg (va_ts a) (va_value a) (va_dir a) true).
End ValueAgg.

(** ** [NBTreeLeafAggregator] *)

Record LeafAggregator := mkLeafAgg {
  la_iter : LeafIterator;
  la_cached : bool;  (* enable_cached_metadata_ *)
  la_meta : SubtreeRef;
}.

Module LeafAgg.

Definition make (begin_ end_ : Z) (l : IOVecLeaf) : option LeafAggregator :=
  '(nodemin, nodemax) ← Leaf.get_timestamps l;
  let it := LeafIter.make_delayed begin_ end_ in
  if decide (Z.min begin_ end_ ≤ nodemin ∧ nodemax < Z.max begin_ end_) then
    h ← Leaf.get_leafmeta l; Some (mkLeafAgg it true h)
  else it ← LeafIter.init l it; Some (mkLeafAgg it false INIT_SUBTREE_REF).

(** At most one result. *)
Definition read (size : nat) (a : LeafAggregator)
    : option (Status * option (Z * AggregationResult) * LeafAggregator) :=
  if decide (size = 0)%nat then Some (kBadArg, None, a) else
  if la_cached a then
    Some (kOk, Some (sr_begin (la_meta a), Agg.copy_from (la_meta a)), mkLeafAgg (la_iter a) false (la_meta a))
  else
    n ← LeafIter.get_size (la_iter a);
    if decide (n = 0) then Some (kNoData, None, a) else
    '(st, pts, it) ← LeafIter.read (Z.to_nat n) (la_iter a);
    let a := mkLeafAgg it (la_cached a) (la_meta a) in
    if decide (st ≠ kOk) then Some (st, None, a) else
    if decide (pts = []) then Some (kNoData, None, a) else
    if decide (Z.of_nat (length pts) ≠ n) then None else
    let inverted := match LeafIter.get_direction it with BACKWARD => true | FORWARD => false end in
    outval ← Agg.do_the_math pts inverted INIT_AGGRES;
    x ← head pts;
    Some (kOk, Some (x.1, outval), a).

End LeafAgg.

(** ** Proofs *)

Lemma bound_loop_ok p (l : list Z) k :
  (∀ i x, l !! i = Some x → p x = bool_decide (i < k)%nat) →
  ∀ fuel first_ len, (first_ ≤ k ≤ first_ + len)%nat → (first_ + len ≤ length l)%nat → (len ≤ fuel)%nat →
  bound_loop fuel p l first_ len = Some k.
Proof.
  intros Hp fuel. induction fuel as [|fuel IH]; intros first_ len Hk Hl Hf; cbn [bound_loop];
    [f_equal; lia|].
  case_decide as H0; [f_equal; lia|]. pose proof (Nat.div_lt len 2 ltac:(lia) ltac:(lia)).
  pose proof (Nat.div_mod_eq len 2). pose proof (Nat.mod_upper_bound len 2 ltac:(lia)).
  destruct (lookup_lt_is_Some_2 l (first_ + len / 2)) as [x Hx]; [lia|]. rewrite Hx. cbn [mbind option_bind].
  rewrite (Hp _ _ Hx). case_bool_decide; apply IH; lia.
Qed.

Definition ts_sorted (pts : list point) : Prop := StronglySorted (λ x y, x.1 ≤ y.1) pts.

Lemma filter_none {A} (P : A → Prop) `{∀ x, Decision (P x)} l : Forall (λ x, ¬ P x) l → filter P l = [].
Proof. induction 1; [done|]. by rewrite filter_cons_False. Qed.

(** A sorted list splits at a bound. *)
Lemma sorted_split (P : Z → Prop) `{∀ x, Decision (P x)} pts :
  ts_sorted pts → (∀ x y, x ≤ y → P y → P x) →
  pts = filter (λ x, P x.1) pts ++ filter (λ x, ¬ P x.1) pts.
Proof.
  intros Hs HP. induction Hs as [|x pts Hs IH Hx]; [done|]. rewrite !filter_cons.
  destruct (decide (P x.1)) as [Hd|Hd].
  - rewrite (decide_False (P := ¬ P x.1)) by tauto. simpl. by rewrite <- IH.
  - rewrite decide_True by done. f_equal.
    assert (filter (λ x, P x.1) pts = []) as E.
    { apply filter_none. eapply Forall_impl; [exact Hx|]. intros y Hy Hc. simpl in *. eauto. }
    rewrite E in IH |- *. simpl in IH |- *. by f_equal.
Qed.

Lemma bound_ok (P : Z → Prop) `{∀ x, Decision (P x)} p pts :
  ts_sorted pts → (∀ x y, x ≤ y → P y → P x) → (∀ x, p x = bool_decide (P x)) →
  bound_loop (length (pts.*1)) p (pts.*1) 0 (length (pts.*1)) = Some (length (filter (λ x, P x.1) pts)).
Proof.
  intros Hs HP Hp. pose proof (sorted_split P pts Hs HP) as E.
  assert (Hle : (length (filter (λ x, P x.1) pts) ≤ length pts)%nat) by (apply length_filter).
  apply bound_loop_ok; [|rewrite length_fmap; lia..].
  intros i x. rewrite list_lookup_fmap, fmap_Some. intros (y&Hy&->). rewrite Hp. apply bool_decide_ext.
  rewrite E in Hy. apply lookup_app_Some in Hy as [Hy|[Hge Hy]].
  - apply lookup_lt_Some in Hy as Hlt. apply list_elem_of_lookup_2, list_elem_of_filter in Hy. tauto.
  - apply list_elem_of_lookup_2, list_elem_of_filter in Hy. simpl in Hy. split; [tauto|lia].
Qed.

Lemma lower_bound_ok pts v :
  ts_sorted pts → lower_bound (pts.*1) v = Some (length (filter (λ x, x.1 < v) pts)).
Proof.
  intros Hs. pose proof (bound_ok (λ t, t < v) (λ x, bool_decide (x < v)) pts Hs) as Hb. by apply Hb; [lia|].
Qed.

Lemma upper_bound_ok pts v :
  ts_sorted pts → upper_bound (pts.*1) v = Some (length (filter (λ x, x.1 ≤ v) pts)).
Proof.
  intros Hs. pose proof (bound_ok (λ t, t ≤ v) (λ x, negb (bool_decide (v < x))) pts Hs) as Hb.
  apply Hb; [lia|]. intros x. symmetry.
  case_bool_decide; case_bool_decide; simpl; done || lia.
Qed.

(** The points between two bounds. *)
Lemma between_bounds (P Q : Z → Prop) `{∀ x, Decision (P x)} `{∀ x, Decision (Q x)} pts :
  ts_sorted pts → (∀ x y, x ≤ y → P y → P x) → (∀ x y, x ≤ y → Q y → Q x) → (∀ x, P x → Q x) →
  take (length (filter (λ x, Q x.1) pts) - length (filter (λ x, P x.1) pts))
       (drop (length (filter (λ x, P x.1) pts)) pts) = filter (λ x, ¬ P x.1 ∧ Q x.1) pts.
Proof.
  intros Hs HP HQ HPQ. rewrite <- skipn_firstn_comm.
  assert (take (length (filter (λ x, Q x.1) pts)) pts = filter (λ x, Q x.1) pts) as ->.
  { rewrite (sorted_split Q pts Hs HQ) at 2. apply take_app_length. }
  rewrite (sorted_split P pts Hs HP) at 2. rewrite filter_app, list_filter_filter_r by eauto.
  rewrite drop_app_length, list_filter_filter. apply list_filter_iff. naive_solver.
Qed.

Section IterProofs.
Import LeafIter.

Lemma drain_ok fuel size it :
  li_status it = kOk → 0 ≤ li_from it ≤ li_to it → li_to it ≤ Z.of_nat (length (li_buf it)) →
  (0 < size)%nat → li_to it - li_from it < Z.of_nat fuel →
  drain fuel size it
    = Some (take (Z.to_nat (li_to it - li_from it)) (drop (Z.to_nat (li_from it)) (li_buf it)), kNoData).
Proof.
  revert it. induction fuel as [|fuel IH]; intros it Hst Hft Hto Hsz Hf; [lia|].
  cbn [drain]. unfold read. rewrite decide_False by (rewrite Hst; intros Hx; by apply Hx).
  destruct (decide (li_to it = li_from it)) as [E|Hne].
  { rewrite decide_True by lia. cbn [mbind option_bind]. rewrite decide_True by done.
    replace (li_to it - li_from it) with 0 by lia. done. }
  rewrite !decide_False by lia. cbn [mbind option_bind]. rewrite decide_False by (intros Hx; by apply Hx).
  set (n := Z.min _ _). rewrite IH by (simpl; done || lia). cbn [mbind option_bind li_to li_from li_buf].
  do 2 f_equal. rewrite Z2Nat.inj_add, <- drop_drop, take_take_drop by lia. f_equal. lia.
Qed.

(** What a range query should return. *)
Definition range_points (b e : Z) (pts : list point) : list point :=
  if decide (b < e) then filter (λ x, b ≤ x.1 ∧ x.1 < e) pts
  else reverse (filter (λ x, e < x.1 ∧ x.1 ≤ b) pts).

(** A leaf that holds [pts], open or loaded. *)
Definition leaf_reads (l : IOVecLeaf) (h : SubtreeRef) (pts : list point) : Prop :=
  Leaf.read_all l = Some (kOk, pts) ∧ Leaf.get_leafmeta l = Some h ∧ summarises h pts.

Lemma sorted_ends pts h x :
  ts_sorted pts → summarises h pts → x ∈ pts → sr_begin h ≤ x.1 ≤ sr_end h.
Proof.
  intros Hs Hh Hx. destruct pts as [|y pts]; [by apply not_elem_of_nil in Hx|].
  destruct (su_begin _ _ Hh y eq_refl) as [-> _]. apply StronglySorted_cons in Hs as Hs'. destruct Hs' as [Hy _].
  rewrite Forall_forall in Hy. split; [apply elem_of_cons in Hx as [->|Hx]; [lia|by apply Hy]|].
  destruct (last (y :: pts)) as [z|] eqn:El; [|by apply last_None in El].
  destruct (su_end _ _ Hh z El) as [-> _]. apply last_Some in El as (q&Eq). rewrite Eq in Hs, Hx.
  apply elem_of_app in Hx as [Hx|Hx%list_elem_of_singleton]; [|by subst].
  by apply (StronglySorted_app_1_elem_of (λ x y : point, x.1 ≤ y.1) q [z]); [..|set_solver].
Qed.

Lemma outside_ok l h pts b e :
  leaf_reads l h pts → ts_sorted pts →
  ∃ out, outside b e l = Some out ∧
    (out = true → range_points b e pts = []) ∧ (out = false → Z.min b e ≤ sr_end h).
Proof.
  intros (_&Eh&Hh) Hs. unfold outside, Leaf.get_timestamps. rewrite Eh. cbn [mbind option_bind].
  eexists. split; [done|]. split.
  - intros Ho. unfold range_points. rewrite orb_true_iff, !bool_decide_eq_true in Ho.
    case_decide as Hbe; [|change [] with (reverse (@nil point)); f_equal]; apply filter_none, Forall_forall; intros x Hx;
      pose proof (sorted_ends _ _ _ Hs Hh Hx); lia.
  - rewrite orb_false_iff, !bool_decide_eq_false. lia.
Qed.

(** The positions an iterator works on. *)
Definition ready (it : LeafIterator) (pts : list point) : Prop :=
  0 ≤ li_from it ≤ li_to it ∧ li_to it ≤ Z.of_nat (length (li_buf it)) ∧
  take (Z.to_nat (li_to it - li_from it)) (drop (Z.to_nat (li_from it)) (li_buf it)) = pts.

Lemma iter_init_ok l h pts b e :
  leaf_reads l h pts → ts_sorted pts → pts ≠ [] →
  ∃ it, make b e l = Some it ∧ li_begin it = b ∧ li_end it = e ∧ ready it (range_points b e pts) ∧
    (length (li_buf it) ≤ length pts)%nat ∧ (li_status it = kOk ∨ li_status it = kNoData ∧ range_points b e pts = []).
Proof.
  intros Hl Hs Hne. destruct (outside_ok l h pts b e Hl Hs) as (out&Eo&Ho1&Ho2). destruct Hl as (Er&Eh&Hh).
  unfold make, init. simpl. rewrite Eo. cbn [mbind option_bind]. destruct out.
  { rewrite (Ho1 eq_refl). eexists. split; [done|]. split_and!; simpl; try done; [lia|by right]. }
  specialize (Ho2 eq_refl). rewrite Er. cbn [mbind option_bind]. rewrite decide_False by (intros Hx; by apply Hx).
  rewrite !lower_bound_ok, !upper_bound_ok by done. cbn [mbind option_bind]. rewrite length_fmap.
  unfold range_points. case_decide as Hbe.
  - pose proof (length_filter (λ x : point, (x.1 < e)%Z) pts) as Hle.
    pose proof (between_bounds (λ t, t < b) (λ t, t < e) pts Hs ltac:(cbv beta; lia) ltac:(cbv beta; lia) ltac:(cbv beta; lia)) as Hbb. cbv beta in Hbb.
    assert (Hi : (length (filter (λ x : point, (x.1 < b)%Z) pts) < length pts)%nat).
    { destruct (last pts) as [z|] eqn:El; [|by apply last_None in El].
      apply (length_filter_lt _ _ z); [by eapply last_Some_elem_of|].
      destruct (su_end _ _ Hh z El) as [Ez _]. lia. }
    rewrite decide_True by done. eexists. split; [done|]. split_and!; try done; [|by left].
    assert (length (filter (λ x : point, (x.1 < b)%Z) pts) ≤ length (filter (λ x : point, (x.1 < e)%Z) pts))%nat.
    { rewrite <- (list_filter_filter_l (λ x : point, (x.1 < b)%Z) (λ x : point, (x.1 < e)%Z) pts) by (intros; lia).
      apply length_filter. }
    unfold ready. simpl. split_and!; [lia..|].
    rewrite <- Nat2Z.inj_sub, !Nat2Z.id by lia. rewrite Hbb. apply list_filter_iff. intros x. lia.
  - pose proof (length_filter (λ x : point, (x.1 ≤ b)%Z) pts) as Hlb.
    pose proof (between_bounds (λ t, t ≤ e) (λ t, t ≤ b) pts Hs ltac:(cbv beta; lia) ltac:(cbv beta; lia) ltac:(cbv beta; lia)) as Hbb. cbv beta in Hbb.
    assert (Hij : (length (filter (λ x : point, (x.1 ≤ e)%Z) pts) ≤ length (filter (λ x : point, (x.1 ≤ b)%Z) pts))%nat).
    { rewrite <- (list_filter_filter_l (λ x : point, (x.1 ≤ e)%Z) (λ x : point, (x.1 ≤ b)%Z) pts) by (intros; lia).
      apply length_filter. }
    set (i := length (filter (λ x : point, (x.1 ≤ b)%Z) pts)) in *.
    set (j := length (filter (λ x : point, (x.1 ≤ e)%Z) pts)) in *.
    eexists. split; [done|]. split_and!; try done; [|by simpl; rewrite length_reverse|by left].
    unfold ready. simpl. rewrite length_reverse. split_and!; [lia..|].
    rewrite <- Nat2Z.inj_sub, !Nat2Z.id by lia. rewrite drop_reverse.
    replace (length pts - (length pts - i))%nat with i by lia. rewrite take_reverse.
    rewrite length_take, Nat.min_l by lia. replace (i - (length pts - j - (length pts - i)))%nat with j by lia.
    rewrite skipn_firstn_comm, Hbb. f_equal. apply list_filter_iff. intros x. lia.
Qed.

End IterProofs.

(** ** Properties *)

(** C27: a range query over a leaf with points in time order returns
    exactly the points of the range, in order, in portions of any size, and
    then [NoData]: [begin <= ts < end] forward, [end < ts <= begin] backward.
    No [assert] fails and no buffer is overrun. *)
Theorem leaf_range_query l h pts b e size :
  leaf_reads l h pts → ts_sorted pts → pts ≠ [] → (0 < size)%nat →
  ∃ it, LeafIter.make b e l = Some it ∧ LeafIter.get_direction it = direction b e ∧
    LeafIter.drain (length pts + 1) size it = Some (range_points b e pts, kNoData).
Proof.
  intros Hl Hs Hne Hsz. destruct (iter_init_ok l h pts b e Hl Hs Hne) as (it&E&<-&<-&(H1&H2&H3)&Hlen&Hst).
  exists it. split_and!; [done|done|]. destruct Hst as [Hst|[Hst Hn]].
  - by rewrite drain_ok, H3 by (done || lia).
  - rewrite Nat.add_1_r. cbn [LeafIter.drain]. unfold LeafIter.read. rewrite decide_True by (by rewrite Hst).
    cbn [mbind option_bind]. rewrite decide_True by (by rewrite Hst). by rewrite Hst, Hn.
Qed.

Lemma ready_length it pts : ready it pts → li_to it - li_from it = Z.of_nat (length pts).
Proof. intros (H1&H2&<-). rewrite length_take, length_drop. lia. Qed.

(** The metadata is the aggregate of the points. *)
Lemma summarises_math h pts :
  summarises h pts → pts ≠ [] → Z.of_nat (length pts) < 2 ^ 53 →
  Agg.do_the_math pts false INIT_AGGRES = Some (Agg.copy_from h).
Proof.
  intros Hh Hne Hlen. unfold Agg.do_the_math.
  destruct (head pts) as [x|] eqn:Ex; [|by apply head_None in Ex].
  destruct (last pts) as [y|] eqn:Ey; [|by apply last_None in Ey]. cbn [mbind option_bind].
  simpl ag_min. simpl ag_mints. simpl ag_max. simpl ag_maxts. simpl ag_cnt. simpl ag_sum.
  rewrite <- (su_min_time _ _ Hh), <- (su_max_time _ _ Hh), <- (su_sum _ _ Hh).
  rewrite dadd_zero_count by lia. unfold Agg.copy_from. rewrite (su_count _ _ Hh).
  destruct (su_begin _ _ Hh x Ex) as [-> ->], (su_end _ _ Hh y Ey) as [-> ->]. done.
Qed.

Lemma do_the_math_some pts inv a : pts ≠ [] → is_Some (Agg.do_the_math pts inv a).
Proof.
  intros Hne. unfold Agg.do_the_math. destruct (head pts) eqn:Ex; [|by apply head_None in Ex].
  destruct (last pts) eqn:Ey; [|by apply last_None in Ey]. cbn [mbind option_bind].
  repeat case_match; eauto.
Qed.

(** Reading the aggregate from the points. *)
Lemma agg_read_slow it rp size r :
  li_begin it < li_end it → ready it rp → (li_status it = kOk ∨ li_status it = kNoData ∧ rp = []) →
  (0 < size)%nat →
  ∃ a', if decide (rp = []) then LeafAgg.read size (mkLeafAgg it false r) = Some (kNoData, None, a')
    else ∃ x agg, head rp = Some x ∧ Agg.do_the_math rp false INIT_AGGRES = Some agg ∧
      LeafAgg.read size (mkLeafAgg it false r) = Some (kOk, Some (x.1, agg), a').
Proof.
  intros Hbe Hr Hst Hsz. pose proof (ready_length _ _ Hr) as Hn. destruct Hr as (H1&H2&H3).
  unfold LeafAgg.read. rewrite (decide_False (P := size = 0%nat)) by lia. cbn [la_cached la_iter la_meta].
  unfold LeafIter.get_size. rewrite (decide_False (P := li_to it < li_from it)) by lia. cbn [mbind option_bind].
  rewrite Hn. destruct (decide (rp = [])) as [->|Hne].
  { eexists. by rewrite decide_True. }
  destruct Hst as [Hst|[_ ?]]; [|done]. assert (0 < length rp)%nat by (destruct rp; [done|simpl; lia]).
  rewrite (decide_False (P := Z.of_nat (length rp) = 0)) by lia. unfold LeafIter.read.
  rewrite (decide_False (P := li_status it ≠ kOk)) by (rewrite Hst; intros Hx; by apply Hx).
  rewrite Nat2Z.id, Hn, Z.min_id, (decide_False (P := Z.of_nat (length rp) = 0)) by lia.
  rewrite (decide_False (P := _ ∨ _)) by lia. cbn [mbind option_bind].
  rewrite <- Hn, H3, (decide_False (P := kOk ≠ kOk)) by (intros Hx; by apply Hx).
  rewrite (decide_False (P := rp = [])) by done.
  rewrite Hn, (decide_False (P := Z.of_nat (length rp) ≠ Z.of_nat (length rp))) by (intros Hx; by apply Hx).
  unfold LeafIter.get_direction, direction. cbn [li_begin li_end]. rewrite (decide_True (P := li_begin it < li_end it)) by done.
  destruct (do_the_math_some rp false INIT_AGGRES Hne) as [agg Ea].
  destruct (head rp) as [x|] eqn:Ex; [|by apply head_None in Ex].
  eexists. exists x, agg. split_and!; [done..|]. by rewrite Ea.
Qed.

(** A forward aggregate over a leaf is the aggregate of the points of
    the range, whichever path computes it: the cached metadata, when the range
    covers the leaf, is exactly what adding up the points would give, the sum
    and the times of the extrema included.  An empty range gives [NoData]. *)
Theorem leaf_aggregate_forward l h pts b e size :
  leaf_reads l h pts → ts_sorted pts → pts ≠ [] → Z.of_nat (length pts) < 2 ^ 53 → b < e → (0 < size)%nat →
  ∃ a a', LeafAgg.make b e l = Some a ∧
    if decide (range_points b e pts = []) then LeafAgg.read size a = Some (kNoData, None, a')
    else ∃ x agg, head (range_points b e pts) = Some x ∧
      Agg.do_the_math (range_points b e pts) false INIT_AGGRES = Some agg ∧
      LeafAgg.read size a = Some (kOk, Some (x.1, agg), a').
Proof.
  intros Hl Hs Hne Hlen Hbe Hsz. pose proof Hl as (Er&Eh&Hh). unfold LeafAgg.make, Leaf.get_timestamps.
  rewrite Eh. cbn [mbind option_bind]. case_decide as Hc.
  - assert (Ef : range_points b e pts = pts).
    { unfold range_points. rewrite decide_True by done. rewrite <- (app_nil_r pts) at 2.
      clear Hlen Hne Er Hl. assert (Hin : ∀ x, x ∈ pts → b ≤ x.1 ∧ x.1 < e).
      { intros x Hx. pose proof (sorted_ends _ _ _ Hs Hh Hx). lia. }
      rewrite app_nil_r. clear Hh Hs. induction pts as [|y pts IH]; [done|].
      rewrite filter_cons_True by (apply Hin; set_solver). f_equal. apply IH. set_solver. }
    eexists _, _. split; [done|]. rewrite Ef, decide_False by done.
    destruct (head pts) as [x|] eqn:Ex; [|by apply head_None in Ex].
    exists x, (Agg.copy_from h). split; [done|]. split; [by apply summarises_math|].
    unfold LeafAgg.read. rewrite decide_False by lia. simpl. by destruct (su_begin _ _ Hh x Ex) as [-> _].
  - destruct (iter_init_ok l h pts b e Hl Hs Hne) as (it&E&Eb&Ee&Hr&_&Hst). unfold LeafIter.make in E. rewrite E.
    cbn [mbind option_bind]. eexists _. destruct (agg_read_slow it _ size INIT_SUBTREE_REF ltac:(lia) Hr Hst Hsz) as (a'&Ha).
    exists a'. split; [done|]. exact Ha.
Qed.

(** The buffer of a forward filter. *)
Lemma leaf_filter_make l h pts b e f :
  leaf_reads l h pts → ts_sorted pts → pts ≠ [] → b < e →
  ∃ it, LeafFilterOp.make b e f l = Some it ∧ lt_pos it = 0%nat ∧
    lt_buf it = LeafFilterOp.matching f (range_points b e pts) ∧
    (lt_status it = kOk ∨ lt_status it = kNoData ∧ lt_buf it = []).
Proof.
  intros Hl Hs Hne Hbe. destruct (outside_ok l h pts b e Hl Hs) as (out&Eo&Ho1&Ho2).
  pose proof Hl as (Er&Eh&Hh). unfold LeafFilterOp.make. rewrite Eo. cbn [mbind option_bind]. destruct out.
  { rewrite (Ho1 eq_refl). eexists. split; [done|]. split_and!; [done|done|by right]. }
  rewrite Er. cbn [mbind option_bind]. rewrite (decide_False (P := kOk ≠ kOk)) by (intros Hx; by apply Hx).
  rewrite !lower_bound_ok by done. cbn [mbind option_bind]. rewrite (decide_True (P := b < e)) by done.
  rewrite length_fmap, decide_True.
  2: { destruct (last pts) as [z|] eqn:El; [|by apply last_None in El].
       apply (length_filter_lt _ _ z); [by eapply last_Some_elem_of|].
       destruct (su_end _ _ Hh z El) as [Ez _]. specialize (Ho2 eq_refl). lia. }
  cbn [mbind option_bind].
  pose proof (between_bounds (λ t, t < b) (λ t, t < e) pts Hs ltac:(cbv beta; lia) ltac:(cbv beta; lia) ltac:(cbv beta; lia)) as Hbb.
  cbv beta in Hbb. rewrite Hbb. eexists. split; [done|]. split_and!; [done| |by left]. cbn [lt_buf].
  unfold range_points. rewrite decide_True by done. f_equal. apply list_filter_iff. intros x. lia.
Qed.

(** A forward filter over a leaf returns exactly the points of
    the range whose values pass, in order. *)
Theorem leaf_filter_forward l h pts b e f :
  leaf_reads l h pts → ts_sorted pts → pts ≠ [] → b < e →
  ∃ it, LeafFilterOp.make b e f l = Some it ∧
    let expected := filter (λ x, Filter.match_ x.2 f = true) (range_points b e pts) in
    ∀ size, (length pts ≤ size)%nat →
      if decide (expected = []) then LeafFilterOp.read size it = (kNoData, [], it)
      else ∃ it', LeafFilterOp.read size it = (kOk, expected, it') ∧ LeafFilterOp.read size it' = (kNoData, [], it').
Proof.
  intros Hl Hs Hne Hbe. destruct (leaf_filter_make l h pts b e f Hl Hs Hne Hbe) as (it&E&Ep&Eb&Hst).
  exists it. split; [done|]. cbv zeta. intros size Hsz. unfold LeafFilterOp.matching in Eb.
  set (expected := filter (λ x, Filter.match_ x.2 f = true) (range_points b e pts)) in *.
  assert (length expected ≤ length pts)%nat.
  { unfold expected, range_points. rewrite decide_True by done. etransitivity; apply length_filter. }
  unfold LeafFilterOp.read. rewrite Ep, Eb in *. destruct Hst as [Hst|[Hst He]].
  2: { rewrite (decide_True (P := expected = [])) by done. by rewrite decide_True, Hst by (by rewrite Hst). }
  rewrite (decide_False (P := lt_status it ≠ kOk)) by (rewrite Hst; intros Hx; by apply Hx).
  rewrite Nat.sub_0_r, Nat.min_l by lia. case_decide as He.
  - rewrite He. by rewrite decide_True.
  - rewrite decide_False by (by destruct expected). rewrite drop_0, take_ge by lia. eexists. split; [done|].
    cbn [lt_status lt_buf lt_pos lt_begin lt_end lt_filter].
    rewrite (decide_False (P := lt_status it ≠ kOk)) by (rewrite Hst; intros Hx; by apply Hx). by rewrite decide_True by lia.
Qed.

(** Backward, the filter starts at the first point that is
    not before [begin], so it returns a point later than [begin] whenever
    [begin] falls between two points.  Here a query from 15 back to 5 over
    points at 10, 20 and 30 returns 20 and 10, while the iterator without a
    filter returns 10. *)
Theorem leaf_filter_backward_late :
  let pts := [(10, 0); (20, 0); (30, 0)] in
  (l ← Leaf.make 1 EMPTY_ADDR 0;
   '(_, l) ← append_many pts l;
   it ← LeafIter.make 15 5 l;
   r ← LeafIter.drain 4 4 it;
   fl ← LeafFilterOp.make 15 5 Filter.make l;
   Some (r, lt_buf fl)) = Some (([(10, 0)], kNoData), [(20, 0); (10, 0)]).
Proof. vm_compute. reflexivity. Qed.

(** ** A leaf of three points *)

Definition sample_points : list point := [(10, 0x3FF0000000000000); (20, 0x4000000000000000); (30, 0)].

Lemma sample_leaf : ∃ l h, leaf_reads l h sample_points.
Proof.
  destruct (leaf_make_ok 42 EMPTY_ADDR 0) as (l0&E0&Hl0&_); [by_compute..|].
  destruct (append_many_ok sample_points l0 42 _ [] Hl0) as (k&l&Hk&E&Hl&_); [by_compute|].
  assert (k = 3%nat) as ->.
  { assert (fst <$> (Leaf.make 42 EMPTY_ADDR 0 ≫= append_many sample_points) = Some [kOk; kOk; kOk]) as Ev
      by (vm_compute; reflexivity).
    rewrite E0 in Ev. cbn [mbind option_bind] in Ev. rewrite E in Ev. simpl in Hk.
    destruct k as [|[|[|[|k]]]]; [done..|lia]. }
  change ([] ++ take 3 sample_points) with sample_points in Hl.
  change (take 3 sample_points) with sample_points in Hl.
  eexists l, _. split; [|split].
  - eapply read_all_open; [exact Hl|by_compute].
  - destruct (leaf_block _ _ _ _ Hl) as (_&_&Eh&_). exact Eh.
  - apply (summarises_points _ _ []); [apply summarises_init|by_compute|by_compute].
Qed.

Lemma sample_sorted : ts_sorted sample_points.
Proof. repeat constructor; simpl; lia. Qed.

Lemma leaf_range_query_witness :
  ∃ l it, LeafIter.make 25 5 l = Some it ∧
    LeafIter.drain 4 1 it = Some ([(20, 0x4000000000000000); (10, 0x3FF0000000000000)], kNoData).
Proof.
  destruct sample_leaf as (l&h&Hl).
  destruct (leaf_range_query l h sample_points 25 5 1 Hl sample_sorted) as (it&E&_&Ed); [done|lia|].
  exists l, it. split; [exact E|exact Ed].
Defined.

Lemma leaf_aggregate_forward_witness :
  ∃ l a a' x agg, LeafAgg.make 5 25 l = Some a ∧ LeafAgg.read 1 a = Some (kOk, Some (x, agg), a').
Proof.
  destruct sample_leaf as (l&h&Hl).
  destruct (leaf_aggregate_forward l h sample_points 5 25 1 Hl sample_sorted) as (a&a'&E&Hr);
    [done|by_compute|lia|lia|].
  rewrite decide_False in Hr by done. destruct Hr as (x&agg&_&_&Er).
  exists l, a, a', x.1, agg. split; [exact E|exact Er].
Defined.

Lemma leaf_filter_forward_witness :
  let f := Filter.greater_than 0x3FE0000000000000 Filter.make in
  ∃ l it it', LeafFilterOp.make 15 40 f l = Some it ∧
    LeafFilterOp.read 3 it = (kOk, [(20, 0x4000000000000000)], it').
Proof.
  intros f. destruct sample_leaf as (l&h&Hl).
  destruct (leaf_filter_forward l h sample_points 15 40 f Hl sample_sorted) as (it&E&Hr); [done|lia|].
  cbv zeta in Hr. specialize (Hr 3%nat ltac:(simpl; lia)).
  replace (filter _ (range_points 15 40 sample_points)) with [(20, 0x4000000000000000)] in Hr by (by vm_compute).
  rewrite decide_False in Hr by done. destruct Hr as (it'&Er&_). exists l, it, it'. split; [exact E|exact Er].
Defined.
