(* ===== verification/Superblock.v ===== *)
(** * Inner nodes of the tree (nbtree.h/.cc, [IOVecSuperblock])

    A superblock is an array of at most 32 references to its children behind a
    reference that describes the node itself; the children's metadata is
    aggregated into the latter when the node is committed. *)
From S2P Require Import Prelude Status ByteStream Base128 VByte DataBlock IOVec Blocks Volume Crc32c MetaVolume BlockStore BlockStoreProof MemStore Double SubtreeRef Operator Leaf.

Record IOVecSuperblock := mkSuper {
  sb_block : IOVecBlock;
  sb_id : Z;
  sb_write_pos : nat;   (* u32 *)
  sb_fanout : Z;        (* u16 *)
  sb_level : Z;         (* u16 *)
  sb_prev : Z;          (* LogicAddr *)
  sb_immutable : bool;
}.

Module Super.

Definition set_block (b : IOVecBlock) (s : IOVecSuperblock) : IOVecSuperblock :=
  mkSuper b (sb_id s) (sb_write_pos s) (sb_fanout s) (sb_level s) (sb_prev s) (sb_immutable s).

Definition inner_ref : SubtreeRef := mkRef 0 0 0 0 0 0 0 0 0 0 0 0 INNER 0 0 0 0 0.

(** A new node; [assert(prev_ != 0)]. *)
Definition make (id prev fanout lvl : Z) : option IOVecSuperblock :=
  '(_, b) ← IOVec.append_chunk (encode_ref inner_ref) IOVec.make;
  if decide (prev = 0) then None else Some (mkSuper b id 0 fanout lvl prev false).

(** A read-only node over a block; the [assert]s on type and link. *)
Definition load (block : IOVecBlock) : option IOVecSuperblock :=
  ref ← get_header block;
  if decide (sr_type ref = INNER ∧ sr_addr ref ≠ 0) then
    Some (mkSuper block (sr_id ref) (Z.to_nat (sr_payload_size ref)) (sr_fanout_index ref) (sr_level ref)
                  (sr_addr ref) true)
  else None.

Definition open {B} `{BlockStore B} (impl : crc32c_impl_t) (at_ : Z) (addr : Z) (bstore : B)
    : option IOVecSuperblock :=
  b ← read_iovec_block_from_bstore impl at_ addr bstore; load b.

(** A writable copy of a stored node, without its last child on request. *)
Definition copy_on_write {B} `{BlockStore B} (impl : crc32c_impl_t) (at_ : Z) (addr : Z) (bstore : B)
    (remove_last : bool) : option IOVecSuperblock :=
  block ← read_iovec_block_from_bstore impl at_ addr bstore;
  ref ← get_header block;
  if decide (sr_type ref = INNER ∧ sr_addr ref ≠ 0) then
    let n := Z.to_nat (sr_payload_size ref) in
    let n := if remove_last && bool_decide (n ≠ 0%nat) then (n - 1)%nat else n in
    let b := IOVec.copy_from block IOVec.make in
    b ← IOVec.set_write_pos_and_shrink ((n + 1) * SUBTREE_REF_SIZE) b;
    Some (mkSuper b (sr_id ref) n (sr_fanout_index ref) (sr_level ref) (sr_addr ref) false)
  else None.

Definition get_sblockmeta (s : IOVecSuperblock) : option SubtreeRef := get_header (sb_block s).
Definition nelements (s : IOVecSuperblock) : nat := sb_write_pos s.
Definition get_level (s : IOVecSuperblock) : Z := sb_level s.
Definition get_fanout (s : IOVecSuperblock) : Z := sb_fanout s.
Definition get_id (s : IOVecSuperblock) : Z := sb_id s.
Definition get_prev_addr (s : IOVecSuperblock) : Z := sb_prev s.
Definition get_addr (s : IOVecSuperblock) : Z := IOVec.get_addr (sb_block s).
Definition get_timestamps (s : IOVecSuperblock) : option (Z * Z) :=
  h ← get_sblockmeta s; Some (sr_begin h, sr_end h).

Definition update_header (f : SubtreeRef → SubtreeRef) (s : IOVecSuperblock) : option IOVecSuperblock :=
  h ← get_sblockmeta s;
  b ← set_header (f h) (sb_block s);
  Some (set_block b s).

(** [assert(addr != 0)] and [assert(newfanout <= NBTREE_FANOUT)]. *)
Definition set_prev_addr (addr : Z) (s : IOVecSuperblock) : option IOVecSuperblock :=
  if decide (addr = 0) then None else
  update_header (Leaf.with_addr addr)
    (mkSuper (sb_block s) (sb_id s) (sb_write_pos s) (sb_fanout s) (sb_level s) addr (sb_immutable s)).
Definition set_node_fanout (fanout : Z) (s : IOVecSuperblock) : option IOVecSuperblock :=
  if decide (NBTREE_FANOUT < fanout) then None else
  update_header (Leaf.with_fanout fanout)
    (mkSuper (sb_block s) (sb_id s) (sb_write_pos s) fanout (sb_level s) (sb_prev s) (sb_immutable s)).

Definition is_full (s : IOVecSuperblock) : bool := bool_decide (NBTREE_FANOUT ≤ Z.of_nat (sb_write_pos s)).

(** The range of time of the node covers that of the new child. *)
Definition extend_range (first_ : bool) (p h : SubtreeRef) : SubtreeRef :=
  mkRef (sr_count h) (sr_id h) (if first_ then sr_begin p else sr_begin h) (sr_end p) (sr_addr h)
    (sr_min h) (sr_min_time h) (sr_max h) (sr_max_time h) (sr_sum h) (sr_first h) (sr_last h) (sr_type h)
    (sr_level h) (sr_payload_size h) (sr_version h) (sr_fanout_index h) (sr_checksum h).

Definition append (p : SubtreeRef) (s : IOVecSuperblock) : option (Status * IOVecSuperblock) :=
  if is_full s then Some (kOverflow, s) else
  if sb_immutable s then Some (kBadData, s) else
  '(bytes_written, b) ← IOVec.append_chunk (encode_ref p) (sb_block s);
  let s := set_block b s in
  if decide (bytes_written = 0)%nat then Some (kNoMemory, s) else
  s ← update_header (extend_range (bool_decide (sb_write_pos s = 0%nat)) p) s;
  Some (kOk, mkSuper (sb_block s) (sb_id s) (sb_write_pos s + 1) (sb_fanout s) (sb_level s) (sb_prev s)
                     (sb_immutable s)).

(** The loop of [read_all]. *)
Fixpoint read_loop (n ix : nat) (b : IOVecBlock) (acc : list SubtreeRef) : option (Status * list SubtreeRef) :=
  match n with
  | O => Some (kOk, acc)
  | S n =>
    '(res, bs) ← IOVec.read_chunk (SUBTREE_REF_SIZE * (ix + 1)) SUBTREE_REF_SIZE b;
    if decide (res = 0)%nat then Some (kBadData, acc)
    else read_loop n (ix + 1) b (acc ++ [decode_ref bs])
  end.

Definition read_all (s : IOVecSuperblock) : option (Status * list SubtreeRef) :=
  read_loop (sb_write_pos s) 0 (sb_block s) [].

Definition top (s : IOVecSuperblock) : option (option SubtreeRef) :=
  if decide (sb_write_pos s = 0)%nat then Some None else
  '(res, bs) ← IOVec.read_chunk (SUBTREE_REF_SIZE * sb_write_pos s) SUBTREE_REF_SIZE (sb_block s);
  Some (if decide (res = 0)%nat then None else Some (decode_ref bs)).
Definition top_addr (s : IOVecSuperblock) : option (option Z) :=
  match top s with Some child => Some (option_map sr_addr child) | None => None end.

(** The loop of [init_subtree_from_subtree]: count, sum, extrema. *)
Definition aggregate_child (a : Z * Z * (Z * Z) * (Z * Z)) (r : SubtreeRef) : Z * Z * (Z * Z) * (Z * Z) :=
  let '(count, sum, mn, mx) := a in
  (u64 (count + sr_count r), dadd sum (sr_sum r), Agg.min_step mn (sr_min_time r, sr_min r),
   Agg.max_step mx (sr_max_time r, sr_max r)).

(** The children are never empty when it is called. *)
Definition init_subtree_from_subtree (s : IOVecSuperblock) (backref : SubtreeRef)
    : option (Status * SubtreeRef) :=
  '(status, refs) ← read_all s;
  if decide (status ≠ kOk) then Some (status, backref) else
  front ← head refs;
  back ← last refs;
  let '(count, sum, (mn, mints), (mx, maxts)) :=
    foldl aggregate_child (0, 0, (DBL_MAX, 0), (DBL_LOWEST, 0)) refs in
  Some (kOk, mkRef count (get_id s) (sr_begin front) (sr_end back) (sr_addr backref) mn mints mx maxts sum
    (sr_first front) (sr_last back) INNER (get_level s) 0 FASTSTDB_VERSION (get_fanout s) (sr_checksum backref)).

(** The remaining fields that [commit] sets. *)
Definition close_meta (s : IOVecSuperblock) (size crc : Z) (h : SubtreeRef) : SubtreeRef :=
  mkRef (sr_count h) (sb_id s) (sr_begin h) (sr_end h) (sb_prev s) (sr_min h) (sr_min_time h) (sr_max h)
    (sr_max_time h) (sr_sum h) (sr_first h) (sr_last h) INNER (sb_level s) size FASTSTDB_VERSION (sb_fanout s) crc.

(** The payload size is the number of children; the checksum covers as many
    bytes.  [at_] is the address of component 0. *)
Definition commit {B} `{BlockStore B} (impl : crc32c_impl_t) (at_ : Z) (s : IOVecSuperblock) (bstore : B)
    : option (Status * Z * IOVecSuperblock * B) :=
  if decide (nelements s = 0)%nat then None else
  if sb_immutable s then Some (kBadData, EMPTY_ADDR, s, bstore) else
  h ← get_sblockmeta s;
  '(status, h) ← init_subtree_from_subtree s h;
  if decide (status ≠ kOk) then Some (status, EMPTY_ADDR, s, bstore) else
  let size := u16 (Z.of_nat (sb_write_pos s)) in
  if decide (Z.of_nat FASTSTDB_BLOCK_SIZE ≤ size + Z.of_nat SUBTREE_REF_SIZE) then None else
  d ← IOVec.get_data 0 (sb_block s);
  if decide (length d < SUBTREE_REF_SIZE + Z.to_nat size)%nat then None else
  let crc := checksum impl (at_ + 110) (take (Z.to_nat size) (drop SUBTREE_REF_SIZE d)) in
  b ← set_header (close_meta s size crc h) (sb_block s);
  '(status, addr, b, bstore) ← bs_append b bstore;
  Some (status, addr, set_block b s, bstore).

End Super.

(** ** Proofs *)

Definition refs_bytes (refs : list SubtreeRef) : list Z := refs ≫= encode_ref.

Lemma length_refs_bytes refs : length (refs_bytes refs) = (SUBTREE_REF_SIZE * length refs)%nat.
Proof.
  induction refs as [|r refs IH]; [simpl; lia|].
  change (refs_bytes (r :: refs)) with (encode_ref r ++ refs_bytes refs).
  rewrite length_app, length_encode_ref, IH. simpl length. lia.
Qed.

Lemma refs_bytes_app l1 l2 : refs_bytes (l1 ++ l2) = refs_bytes l1 ++ refs_bytes l2.
Proof. apply bind_app. Qed.

Lemma refs_bytes_lookup refs i r :
  refs !! i = Some r → take SUBTREE_REF_SIZE (drop (SUBTREE_REF_SIZE * i) (refs_bytes refs)) = encode_ref r.
Proof.
  intros Hi. destruct (list_elem_of_split_length refs i r Hi) as (l1&l2&->&Hl).
  rewrite refs_bytes_app, drop_app_length' by (rewrite length_refs_bytes; lia).
  change (refs_bytes (r :: l2)) with (encode_ref r ++ refs_bytes l2). by rewrite take_app_length' by (by rewrite length_encode_ref).
Qed.

Section SuperInvariant.
Import Super.

(** An open node with metadata [h] and children [refs]. *)
Record super_inv (s : IOVecSuperblock) (h : SubtreeRef) (refs : list SubtreeRef) : Prop := {
  si_iov : iov_inv (sb_block s);
  si_pos : pos_ (sb_block s) = (SUBTREE_REF_SIZE * (length refs + 1))%nat;
  si_mem : take (pos_ (sb_block s)) (flat (sb_block s)) = encode_ref h ++ refs_bytes refs;
  si_len : sb_write_pos s = length refs;
  si_fan : (length refs ≤ 32)%nat;
  si_head : ref_ok h;
  si_refs : Forall ref_ok refs;
  si_mut : sb_immutable s = false;
  si_room : (pos_ (sb_block s) < length (flat (sb_block s)))%nat;
}.

Lemma super_flat s h refs :
  super_inv s h refs → ∃ rest, flat (sb_block s) = encode_ref h ++ refs_bytes refs ++ rest.
Proof.
  intros I. exists (drop (pos_ (sb_block s)) (flat (sb_block s))).
  rewrite app_assoc, <- (si_mem _ _ _ I). by rewrite take_drop.
Qed.

Lemma super_pos s h refs : super_inv s h refs → (0 < pos_ (sb_block s))%nat.
Proof. intros I. rewrite (si_pos _ _ _ I), ref_size_eq. lia. Qed.

Lemma super_header s h refs : super_inv s h refs → get_sblockmeta s = Some h.
Proof.
  intros I. destruct (super_flat _ _ _ I) as (rest&Ef). unfold get_sblockmeta.
  eapply (get_header_ok _ h); [left; apply (si_iov _ _ _ I)|by eapply super_pos|exact Ef|apply (si_head _ _ _ I)].
Qed.

(** A reference in a block whose bytes are known. *)
Lemma read_ref b h refs rest i r :
  iov_readable b → flat b = encode_ref h ++ refs_bytes refs ++ rest → refs !! i = Some r → ref_ok r →
  (SUBTREE_REF_SIZE * (length refs + 1) < length (flat b))%nat →
  ∃ bs, IOVec.read_chunk (SUBTREE_REF_SIZE * (i + 1)) SUBTREE_REF_SIZE b = Some (SUBTREE_REF_SIZE, bs) ∧
        decode_ref bs = r.
Proof.
  intros Hb Ef Hi Hr Hlen. pose proof (lookup_lt_Some _ _ _ Hi) as Hlt. pose proof ref_size_component.
  assert (Hd : take SUBTREE_REF_SIZE (drop (SUBTREE_REF_SIZE * (i + 1)) (flat b)) = encode_ref r).
  { rewrite Ef, drop_app_ge by (rewrite length_encode_ref; lia). rewrite length_encode_ref.
    replace (SUBTREE_REF_SIZE * (i + 1) - SUBTREE_REF_SIZE)%nat with (SUBTREE_REF_SIZE * i)%nat by lia.
    rewrite drop_app_le by (rewrite length_refs_bytes; nia).
    rewrite take_app_le by (rewrite length_drop, length_refs_bytes; nia). by apply refs_bytes_lookup. }
  exists (encode_ref r). split; [|by rewrite <- (app_nil_r (encode_ref r)), decode_encode_ref].
  destruct Hb as [Hb|Hb].
  - rewrite read_chunk_ok; [by rewrite Hd|done| |lia]. nia.
  - unfold IOVec.read_chunk. rewrite single_true by done. destruct Hb as (d&Ed&Hl&_).
    unfold IOVec.read_at. rewrite Ed. cbn [mbind option_bind lookup list_lookup].
    rewrite (flat_single b d Ed) in *. rewrite decide_True by nia. by rewrite <- Hd.
Qed.

Lemma super_read_loop_ok b h refs rest :
  iov_readable b → flat b = encode_ref h ++ refs_bytes refs ++ rest → Forall ref_ok refs →
  (SUBTREE_REF_SIZE * (length refs + 1) < length (flat b))%nat →
  read_loop (length refs) 0 b [] = Some (kOk, refs).
Proof.
  intros Hb Ef Hr Hlen.
  assert (∀ n ix, (ix + n = length refs)%nat → read_loop n ix b (take ix refs) = Some (kOk, refs)) as Hgen.
  { induction n as [|n IH]; intros ix Hix; cbn [read_loop]; [by rewrite take_ge by lia|].
    destruct (lookup_lt_is_Some_2 refs ix) as [r Hi]; [lia|].
    destruct (read_ref b h refs rest ix r Hb Ef Hi (Forall_lookup_1 _ _ _ _ Hr Hi) Hlen) as (bs&->&Ebs).
    cbn [mbind option_bind]. rewrite decide_False by (rewrite ref_size_eq; lia). rewrite Ebs, <- take_S_r by done.
    rewrite Nat.add_1_r. apply IH. lia. }
  apply (Hgen (length refs) 0%nat). lia.
Qed.

Lemma super_make_ok id prev fanout lvl :
  prev ≠ 0 → ∃ s, make id prev fanout lvl = Some s ∧ super_inv s inner_ref [] ∧
    sb_id s = id ∧ sb_prev s = prev ∧ sb_fanout s = fanout ∧ sb_level s = lvl.
Proof.
  intros Hp. pose proof ref_size_component. pose proof (length_encode_ref inner_ref) as Hl.
  destruct (append_chunk_ok IOVec.make (encode_ref inner_ref) iov_make_inv) as (b&E&Hb&Ep&Hlt&Em).
  { rewrite Hl. lia. }
  { rewrite Hl, block_size_eq. simpl. pose proof component_pos. unfold HEADER_SIZE in *. lia. }
  { apply encode_ref_u8. }
  unfold make. rewrite E. cbn [mbind option_bind]. rewrite decide_False by done.
  eexists. split; [done|]. split_and!; try done. constructor; simpl; try done.
  - lia.
  - apply (bool_decide_unpack _). by vm_compute.
Qed.

Lemma extend_range_ok b p h : ref_ok p → ref_ok h → ref_ok (extend_range b p h).
Proof.
  intros Hp Hh. rewrite ref_ok_fields in *. rewrite !Forall_cons in *. simpl.
  destruct Hh as ((?&?&?&?&?&?&?&?&?&?&?&?&_)&(?&?&?&?&?&_)&?), Hp as ((?&?&?&?&?&?&?&?&?&?&?&?&_)&_).
  destruct b; by split_and!.
Qed.

Lemma super_append_ok p s h refs :
  super_inv s h refs → ref_ok p →
  if decide (length refs = 32%nat) then append p s = Some (kOverflow, s)
  else ∃ s', append p s = Some (kOk, s') ∧
    super_inv s' (extend_range (bool_decide (refs = [])) p h) (refs ++ [p]) ∧
    sb_id s' = sb_id s ∧ sb_prev s' = sb_prev s ∧ sb_fanout s' = sb_fanout s ∧ sb_level s' = sb_level s.
Proof.
  intros I Hp. pose proof (si_fan _ _ _ I) as Hf. pose proof (si_pos _ _ _ I) as Hpos. pose proof ref_size_component.
  unfold append, is_full, NBTREE_FANOUT. rewrite (si_len _ _ _ I). case_decide as H32.
  { by rewrite bool_decide_eq_true_2 by lia. }
  rewrite bool_decide_eq_false_2 by lia. rewrite (si_mut _ _ _ I).
  pose proof (length_encode_ref p) as Hl.
  destruct (append_chunk_ok (sb_block s) (encode_ref p) (si_iov _ _ _ I)) as (b&E&Hb&Ep&Hlt&Em).
  { lia. }
  { rewrite Hl, Hpos, block_size_eq, component_eq, ref_size_eq. lia. }
  { apply encode_ref_u8. }
  rewrite E. cbn [mbind option_bind]. rewrite decide_False by (rewrite Hl, ref_size_eq; lia).
  rewrite (si_mem _ _ _ I), <- app_assoc in Em.
  assert (Ef : flat b = encode_ref h ++ (refs_bytes refs ++ encode_ref p ++ drop (pos_ b) (flat b))).
  { rewrite <- (take_drop (pos_ b) (flat b)) at 1. rewrite Em. by rewrite <- !app_assoc. }
  assert (Hp0 : (0 < pos_ b)%nat) by (rewrite Ep, Hl, ref_size_eq; lia).
  unfold update_header, get_sblockmeta. cbn [sb_block set_block].
  erewrite (get_header_ok b h); [|by left|done|exact Ef|apply (si_head _ _ _ I)]. cbn [mbind option_bind].
  set (h' := extend_range _ p h).
  destruct (set_header_ok b h' Hb Hp0) as (b'&->&Hb'&Ep'&_&Ef'). cbn [mbind option_bind].
  assert (Eh : h' = extend_range (bool_decide (refs = [])) p h).
  { unfold h'. simpl. rewrite (si_len _ _ _ I). f_equal. apply bool_decide_ext. by destruct refs. }
  rewrite Ef, drop_app_length' in Ef' by (by rewrite length_encode_ref).
  eexists. split; [done|]. split_and!; try done. rewrite <- Eh. constructor; simpl; try done.
  - rewrite Ep', Ep, Hpos, Hl, length_app. simpl. lia.
  - rewrite refs_bytes_app. change (refs_bytes [p]) with (encode_ref p ++ []). rewrite app_nil_r.
    rewrite Ef', Ep', Ep, Hpos, Hl, !app_assoc. apply take_app_length'.
    rewrite !length_app, !length_encode_ref, length_refs_bytes. lia.
  - rewrite length_app, (si_len _ _ _ I). simpl. lia.
  - rewrite length_app. simpl. lia.
  - apply extend_range_ok; [done|apply (si_head _ _ _ I)].
  - apply Forall_app. split; [apply (si_refs _ _ _ I)|by apply Forall_singleton].
  - apply (si_mut _ _ _ I).
  - rewrite Ep', Ef', length_app, length_encode_ref, <- (length_encode_ref h), <- length_app, <- Ef. done.
Qed.

Lemma read_all_ok s h refs : super_inv s h refs → read_all s = Some (kOk, refs).
Proof.
  intros I. destruct (super_flat _ _ _ I) as (rest&Ef). unfold read_all. rewrite (si_len _ _ _ I).
  eapply super_read_loop_ok; [left; apply (si_iov _ _ _ I)|exact Ef|apply (si_refs _ _ _ I)|].
  rewrite <- (si_pos _ _ _ I). apply (si_room _ _ _ I).
Qed.

Lemma top_ok s h refs : super_inv s h refs → top s = Some (last refs).
Proof.
  intros I. destruct (super_flat _ _ _ I) as (rest&Ef). unfold top. rewrite (si_len _ _ _ I).
  case_decide as H0; [by destruct refs|]. destruct (last refs) as [r|] eqn:El; [|by apply last_None in El; subst].
  rewrite last_lookup in El. pose proof (lookup_lt_Some _ _ _ El) as Hlt.
  destruct (read_ref _ h refs rest _ r (or_introl (si_iov _ _ _ I)) Ef El) as (bs&Er&Ebs).
  { apply (Forall_lookup_1 _ _ _ _ (si_refs _ _ _ I) El). }
  { rewrite <- (si_pos _ _ _ I). apply (si_room _ _ _ I). }
  replace (length refs) with (pred (length refs) + 1)%nat by lia. rewrite Er. cbn [mbind option_bind].
  rewrite decide_False by (rewrite ref_size_eq; lia). by rewrite Ebs.
Qed.

(** The loop over the children computes four independent folds. *)
Lemma foldl_aggregate refs c sm mn mx :
  foldl aggregate_child (c, sm, mn, mx) refs
  = (foldl (λ c r, u64 (c + sr_count r)) c refs, foldl (λ x r, dadd x (sr_sum r)) sm refs,
     foldl Agg.min_step mn ((λ r, (sr_min_time r, sr_min r)) <$> refs),
     foldl Agg.max_step mx ((λ r, (sr_max_time r, sr_max r)) <$> refs)).
Proof. revert c sm mn mx. induction refs as [|r refs IH]; intros c sm mn mx; [done|]. simpl. by rewrite IH. Qed.

(** What the metadata of a committed node says of its children. *)
Record covers (h : SubtreeRef) (refs : list SubtreeRef) : Prop := {
  cv_count : sr_count h = foldl (λ c r, u64 (c + sr_count r)) 0 refs;
  cv_sum : sr_sum h = foldl (λ x r, dadd x (sr_sum r)) 0 refs;
  cv_begin r : head refs = Some r → sr_begin h = sr_begin r ∧ sr_first h = sr_first r;
  cv_end r : last refs = Some r → sr_end h = sr_end r ∧ sr_last h = sr_last r;
  cv_min r : r ∈ refs → Forall (λ r, is_nan (sr_min r) = false) refs → rank (sr_min h) ≤ rank (sr_min r);
  cv_max r : r ∈ refs → Forall (λ r, is_nan (sr_max r) = false) refs → rank (sr_max r) ≤ rank (sr_max h);
  cv_nan : Forall (λ r, is_nan (sr_min r) = false) refs → Forall (λ r, is_nan (sr_max r) = false) refs →
    is_nan (sr_min h) = false ∧ is_nan (sr_max h) = false;
  cv_min_time : (sr_min h, sr_min_time h) = foldl Agg.min_step (DBL_MAX, 0) ((λ r, (sr_min_time r, sr_min r)) <$> refs);
  cv_max_time : (sr_max h, sr_max_time h) = foldl Agg.max_step (DBL_LOWEST, 0) ((λ r, (sr_max_time r, sr_max r)) <$> refs);
}.

Lemma fold_min_le l s x :
  is_nan s.1 = false → Forall (λ x : point, is_nan x.2 = false) l → x ∈ l →
  rank (foldl Agg.min_step s l).1 ≤ rank x.2.
Proof.
  intros Hs Hl Hx. apply list_elem_of_split in Hx as (l1&l2&->). apply Forall_app in Hl as [H1 H2].
  apply Forall_cons in H2 as [Hx H2]. rewrite foldl_app. simpl.
  destruct (Agg.min_fold_le l1 s Hs H1) as [Hn _]. set (t := foldl Agg.min_step s l1) in *.
  assert (is_nan (Agg.min_step t x).1 = false ∧ rank (Agg.min_step t x).1 ≤ rank x.2) as [Hn2 Hr].
  { unfold Agg.min_step. rewrite dlt_rank by done. case_bool_decide; simpl; split; done || lia. }
  destruct (Agg.min_fold_le l2 _ Hn2 H2) as [_ Hle]. lia.
Qed.

Lemma fold_max_ge l s x :
  is_nan s.1 = false → Forall (λ x : point, is_nan x.2 = false) l → x ∈ l →
  rank x.2 ≤ rank (foldl Agg.max_step s l).1.
Proof.
  intros Hs Hl Hx. apply list_elem_of_split in Hx as (l1&l2&->). apply Forall_app in Hl as [H1 H2].
  apply Forall_cons in H2 as [Hx H2]. rewrite foldl_app. simpl.
  destruct (Agg.max_fold_ge l1 s Hs H1) as [Hn _]. set (t := foldl Agg.max_step s l1) in *.
  assert (is_nan (Agg.max_step t x).1 = false ∧ rank x.2 ≤ rank (Agg.max_step t x).1) as [Hn2 Hr].
  { unfold Agg.max_step. rewrite dlt_rank by done. case_bool_decide; simpl; split; done || lia. }
  destruct (Agg.max_fold_ge l2 _ Hn2 H2) as [_ Hle]. lia.
Qed.

Lemma fold_step_ok (step : Z * Z → point → Z * Z) l s :
  (∀ s x, step s x = s ∨ step s x = (x.2, x.1)) → is_u64 s.1 → is_u64 s.2 →
  Forall (λ x : point, is_u64 x.1 ∧ is_u64 x.2) l → is_u64 (foldl step s l).1 ∧ is_u64 (foldl step s l).2.
Proof.
  intros Hst H1 H2 Hl. revert s H1 H2. induction Hl as [|x l [Hx1 Hx2] _ IH]; intros s H1 H2; [done|].
  simpl. destruct (Hst s x) as [->| ->]; by apply IH.
Qed.

Lemma fold_u64 {A} (f : Z → A → Z) l c : (∀ c x, is_u64 (f c x)) → is_u64 c → is_u64 (foldl f c l).
Proof. intros Hf. revert c. induction l as [|x l IH]; intros c Hc; [done|]. simpl. apply IH, Hf. Qed.

Lemma init_subtree_reads s h refs :
  read_all s = Some (kOk, refs) → Forall ref_ok refs → ref_ok h →
  refs ≠ [] → is_u64 (sb_id s) → is_u16 (sb_level s) → is_u16 (sb_fanout s) →
  ∃ h', init_subtree_from_subtree s h = Some (kOk, h') ∧ covers h' refs ∧ ref_ok h' ∧
    sr_id h' = sb_id s ∧ sr_type h' = INNER ∧ sr_level h' = sb_level s.
Proof.
  intros Er Hrefs Hh Hne Hid Hlv Hfo. unfold init_subtree_from_subtree. rewrite Er. cbn [mbind option_bind].
  rewrite decide_False by (intros Hx; by apply Hx).
  destruct (head refs) as [f|] eqn:Ef; [|by apply head_None in Ef].
  destruct (last refs) as [l|] eqn:El; [|by apply last_None in El]. cbn [mbind option_bind].
  rewrite foldl_aggregate.
  destruct (foldl Agg.min_step _ _) as [mn mints] eqn:Emn, (foldl Agg.max_step _ _) as [mx maxts] eqn:Emx.
  eexists. split; [done|]. split; [|split; [|done]].
  - constructor; simpl; try done.
    + intros r Hr. rewrite Ef in Hr. by injection Hr as <-.
    + intros r Hr. rewrite El in Hr. by injection Hr as <-.
    + intros r Hr Hn. change mn with ((mn, mints).1). rewrite <- Emn.
      apply (fold_min_le _ (DBL_MAX, 0) (sr_min_time r, sr_min r)); [done|by apply Forall_fmap|].
      apply list_elem_of_fmap; eauto.
    + intros r Hr Hn. change mx with ((mx, maxts).1). rewrite <- Emx.
      apply (fold_max_ge _ (DBL_LOWEST, 0) (sr_max_time r, sr_max r)); [done|by apply Forall_fmap|].
      apply list_elem_of_fmap; eauto.
    + intros H1 H2. change mn with ((mn, mints).1). change mx with ((mx, maxts).1). rewrite <- Emn, <- Emx.
      split; [eapply (Agg.min_fold_le _ (DBL_MAX, 0))|eapply (Agg.max_fold_ge _ (DBL_LOWEST, 0))];
        by try apply Forall_fmap.
  - assert (Hok : ∀ r, r ∈ refs → ref_ok r) by (by apply Forall_forall).
    assert (Hf : ref_ok f) by (by apply Hok, head_Some_elem_of).
    assert (Hl : ref_ok l) by (by apply Hok, last_Some_elem_of).
    assert (H1 : is_u64 (mn, mints).1 ∧ is_u64 (mn, mints).2).
    { rewrite <- Emn. apply fold_step_ok; [|done|done|].
      - intros t x. unfold Agg.min_step. case_match; eauto.
      - apply Forall_fmap, Forall_forall. intros r Hr. apply Hok, ref_ok_fields in Hr. rewrite !Forall_cons in Hr.
        simpl. tauto. }
    assert (H2 : is_u64 (mx, maxts).1 ∧ is_u64 (mx, maxts).2).
    { rewrite <- Emx. apply fold_step_ok; [|done|done|].
      - intros t x. unfold Agg.max_step. case_match; eauto.
      - apply Forall_fmap, Forall_forall. intros r Hr. apply Hok, ref_ok_fields in Hr. rewrite !Forall_cons in Hr.
        simpl. tauto. }
    assert (H3 : is_u64 (foldl (λ c r, u64 (c + sr_count r)) 0 refs)) by (apply fold_u64; [intros; apply u64_range|done]).
    assert (H4 : is_u64 (foldl (λ x r, dadd x (sr_sum r)) 0 refs)) by (apply fold_u64; [intros; apply dadd_u64|done]).
    rewrite ref_ok_fields in *. rewrite !Forall_cons in *. simpl in *.
    destruct Hf as ((?&?&?&?&?&?&?&?&?&?&?&?&_)&_), Hl as ((?&?&?&?&?&?&?&?&?&?&?&?&_)&_).
    destruct Hh as ((?&?&?&?&?&?&?&?&?&?&?&?&_)&(?&?&?&?&?&_)&?). split_and!; try done; tauto.
Qed.

Lemma init_subtree_ok s h refs :
  super_inv s h refs → refs ≠ [] → is_u64 (sb_id s) → is_u16 (sb_level s) → is_u16 (sb_fanout s) →
  ∃ h', init_subtree_from_subtree s h = Some (kOk, h') ∧ covers h' refs ∧ ref_ok h'.
Proof.
  intros I Hne Hid Hlv Hfo. destruct (init_subtree_reads s h refs) as (h'&?&?&?&_);
    [by eapply read_all_ok|apply (si_refs _ _ _ I)|apply (si_head _ _ _ I)|done..|eauto].
Qed.

(** A committed node on disk. *)
Definition super_image (h : SubtreeRef) (refs : list SubtreeRef) (img : list Z) : Prop :=
  ∃ post, img = encode_ref h ++ refs_bytes refs ++ post ∧ length img = FASTSTDB_BLOCK_SIZE ∧ ref_ok h ∧
    Forall ref_ok refs ∧ (length refs ≤ 32)%nat ∧ sr_payload_size h = Z.of_nat (length refs) ∧
    sr_type h = INNER ∧ Forall is_u8 (refs_bytes refs) ∧
    sr_checksum h = crc32c_ref 0 (take (length refs) (drop SUBTREE_REF_SIZE img)).

Lemma refs_bytes_u8 refs : Forall is_u8 (refs_bytes refs).
Proof.
  induction refs as [|r refs IH]; [done|]. change (refs_bytes (r :: refs)) with (encode_ref r ++ refs_bytes refs).
  apply Forall_app. split; [apply encode_ref_u8|done].
Qed.

Lemma super_close_meta_ok s size crc h :
  is_u64 (sb_id s) → is_u64 (sb_prev s) → is_u16 (sb_level s) → is_u16 (sb_fanout s) → is_u16 size → is_u32 crc →
  ref_ok h → ref_ok (close_meta s size crc h).
Proof.
  intros ?????? Hh. rewrite ref_ok_fields in *. rewrite !Forall_cons in *. simpl.
  destruct Hh as ((?&?&?&?&?&?&?&?&?&?&?&?&_)&(?&?&?&?&?&_)&?). by split_and!.
Qed.

Lemma super_commit_ok {B} `{BlockStore B} impl `{!Crc32cImpl impl} at_ s h refs (bstore : B) :
  super_inv s h refs → refs ≠ [] →
  is_u64 (sb_id s) → is_u64 (sb_prev s) → is_u16 (sb_level s) → is_u16 (sb_fanout s) →
  ∃ h' b, block_ok b ∧ super_image h' refs (image b) ∧ covers h' refs ∧
    sr_id h' = sb_id s ∧ sr_addr h' = sb_prev s ∧ sr_level h' = sb_level s ∧ sr_fanout_index h' = sb_fanout s ∧
    super_inv (set_block b s) h' refs ∧
    commit impl at_ s bstore
      = ('(st, addr, b', bstore') ← bs_append b bstore; Some (st, addr, set_block b' s, bstore')).
Proof.
  intros I Hne Hid Hpr Hlv Hfo. destruct (init_subtree_ok s h refs I Hne Hid Hlv Hfo) as (h1&E1&Hc1&Hh1).
  pose proof (si_fan _ _ _ I) as Hf. pose proof (si_iov _ _ _ I) as Hb. pose proof ref_size_component as Hrs.
  destruct (super_flat _ _ _ I) as (rest&Ef). pose proof (super_pos _ _ _ I) as Hp.
  destruct (head_component _ (or_introl Hb) Hp) as (d&tl&Ed&Efd&Hdl).
  assert (0 < length refs)%nat by (destruct refs; [done|simpl; lia]).
  assert (Hd : take (length refs) (drop SUBTREE_REF_SIZE d) = take (length refs) (refs_bytes refs)).
  { assert (take (length refs) (drop SUBTREE_REF_SIZE (d ++ tl)) = take (length refs) (refs_bytes refs)) as Hx.
    { rewrite <- Efd, Ef, drop_app_length' by (by rewrite length_encode_ref).
      rewrite take_app_le; [done|]. rewrite length_refs_bytes, ref_size_eq. lia. }
    rewrite drop_app_le, take_app_le in Hx; [done|..]; rewrite ?length_drop; rewrite component_eq, ref_size_eq in *; lia. }
  set (size := Z.of_nat (length refs)).
  set (crc := checksum impl (at_ + 110) (take (Z.to_nat size) (drop SUBTREE_REF_SIZE d))).
  assert (Hu : Forall is_u8 (take (length refs) (refs_bytes refs))) by (apply Forall_take, refs_bytes_u8).
  assert (Ecrc : crc = crc32c_ref 0 (take (length refs) (refs_bytes refs))).
  { unfold crc, size. rewrite Nat2Z.id, Hd. by apply checksum_ok. }
  set (h' := close_meta s size crc h1).
  assert (Hh' : ref_ok h').
  { apply super_close_meta_ok; try done; [unfold is_u16, size; lia|]. rewrite Ecrc. apply crc32c_ref_u32; [by unfold is_u32|done]. }
  destruct (set_header_ok (sb_block s) h' Hb Hp) as (b&Es&Hb'&Epb&_&Efb).
  rewrite Ef, drop_app_length' in Efb by (by rewrite length_encode_ref).
  pose proof (image_flat b Hb') as Hi. pose proof (length_image b (iov_block_ok b Hb')) as Hil.
  assert (Eimg : image b = encode_ref h' ++ refs_bytes refs ++ (rest ++ drop (length (flat b)) (image b))).
  { rewrite <- (take_drop (length (flat b)) (image b)) at 1. rewrite Hi, Efb. by rewrite <- !app_assoc. }
  exists h', b. split; [by apply iov_block_ok|]. split.
  { eexists. split; [exact Eimg|]. split_and!; try done; [apply (si_refs _ _ _ I)|apply refs_bytes_u8|].
    unfold h'. simpl. rewrite Ecrc. f_equal. fold h'.
    rewrite Eimg, drop_app_length' by (by rewrite length_encode_ref).
    rewrite take_app_le; [done|]. rewrite length_refs_bytes, ref_size_eq. lia. }
  split; [by destruct Hc1|]. split_and!; try done.
  { destruct I. constructor; simpl; try done; [congruence| |].
    - rewrite Epb, Efb, app_assoc, take_app_le by (rewrite si_pos0, length_app, length_encode_ref, length_refs_bytes; lia).
      apply take_ge. rewrite si_pos0, length_app, length_encode_ref, length_refs_bytes. lia.
    - rewrite Epb. apply (f_equal length) in Ef, Efb. rewrite !length_app, !length_encode_ref in *. lia. }
  unfold commit, nelements. rewrite (si_len _ _ _ I), decide_False by lia. rewrite (si_mut _ _ _ I).
  rewrite (super_header _ _ _ I). cbn [mbind option_bind]. rewrite E1. cbn [mbind option_bind].
  rewrite (decide_False (P := kOk ≠ kOk)) by (intros Hx; by apply Hx). rewrite u16_id by (unfold is_u16; lia). fold size.
  rewrite (decide_False (P := Z.of_nat FASTSTDB_BLOCK_SIZE ≤ _))
    by (rewrite block_size_eq, component_eq, ref_size_eq; unfold size; lia).
  unfold IOVec.get_data. rewrite Ed. cbn [mbind option_bind].
  rewrite (decide_False (P := (length d < _)%nat))
    by (unfold size; rewrite component_eq, ref_size_eq in *; lia).
  fold crc. fold h'. rewrite Es. done.
Qed.

Lemma super_image_header h refs img : super_image h refs img → get_header (loaded img) = Some h.
Proof.
  intros (post&E&Hl&Hh&_). eapply (get_header_ok (loaded img) h).
  - by apply loaded_readable.
  - simpl. rewrite block_size_eq. pose proof component_pos. lia.
  - by rewrite flat_loaded.
  - done.
Qed.

Lemma super_image_checksum impl `{!Crc32cImpl impl} at_ h refs img :
  super_image h refs img → node_checksum_ok impl at_ (loaded img) = Some true.
Proof.
  intros Hi. pose proof (super_image_header _ _ _ Hi) as Eh. destruct Hi as (post&E&Hl&Hh&_&Hn&Ep&_&Hu&Ec).
  unfold node_checksum_ok, IOVec.get_data. simpl. rewrite decide_True by done. rewrite Eh.
  cbn [mbind option_bind]. rewrite Ep, Nat2Z.id.
  rewrite decide_False by (rewrite Hl, block_size_eq, component_eq, ref_size_eq; lia).
  rewrite (checksum_ok impl); [by rewrite Ec, bool_decide_eq_true_2|].
  rewrite E, drop_app_length' by (by rewrite length_encode_ref).
  rewrite take_app_le by (rewrite length_refs_bytes, ref_size_eq; lia). by apply Forall_take.
Qed.

Lemma super_image_read h refs img :
  super_image h refs img → sr_addr h ≠ 0 →
  ∃ s, load (loaded img) = Some s ∧ get_sblockmeta s = Some h ∧ read_all s = Some (kOk, refs) ∧ sb_immutable s = true.
Proof.
  intros Hi Ha. pose proof (super_image_header _ _ _ Hi) as Eh. destruct Hi as (post&E&Hl&Hh&Hr&Hn&Ep&Et&_).
  unfold load. rewrite Eh. cbn [mbind option_bind]. rewrite decide_True by done.
  eexists. split; [done|]. split_and!; [exact Eh| |done].
  unfold read_all. cbn [sb_write_pos sb_block]. rewrite Ep, Nat2Z.id.
  apply (super_read_loop_ok (loaded img) h refs post); [by apply loaded_readable|by rewrite flat_loaded|done|].
  rewrite flat_loaded, Hl, block_size_eq, component_eq, ref_size_eq. lia.
Qed.

(** *** The writable copy of a node *)

Lemma concat_chunks n c (l : list Z) :
  concat ((λ i, take c (drop (i * c) l)) <$> seq 0 n) = take (n * c) l.
Proof.
  induction n as [|n IH]; [done|]. rewrite seq_S, fmap_app, concat_app, IH. simpl. rewrite app_nil_r.
  rewrite take_take_drop. f_equal. lia.
Qed.

Lemma shrink_loop_ok ix c l :
  (ix ≤ c + 1)%nat → IOVec.shrink_loop ix c l = take (c + 1 - ix) l ++ replicate (length l - (c + 1 - ix)) [].
Proof.
  revert ix. induction l as [|d l IH]; intros ix Hix; cbn [IOVec.shrink_loop]; [by rewrite take_nil|].
  case_decide as Hc.
  - replace (c + 1 - ix)%nat with 0%nat by lia. simpl. f_equal. clear IH. revert ix Hix Hc.
    induction l as [|e l IH]; intros ix Hix Hc; [done|]. cbn [IOVec.shrink_loop length replicate].
    rewrite decide_True by lia. f_equal. assert (∀ j, (c < j)%nat → IOVec.shrink_loop j c l = replicate (length l) []) as Hall.
    { clear. induction l as [|x l IH]; intros j Hj; [done|]. cbn [IOVec.shrink_loop length replicate]. rewrite decide_True by lia.
      f_equal. apply IH. lia. }
    apply Hall. lia.
  - rewrite IH by lia. replace (c + 1 - ix)%nat with (S (c + 1 - (ix + 1))) by lia. done.
Qed.

Lemma copy_shrink_ok img top :
  length img = FASTSTDB_BLOCK_SIZE → Forall is_u8 img → (top < FASTSTDB_BLOCK_SIZE)%nat →
  ∃ b m, IOVec.set_write_pos_and_shrink top (IOVec.copy_from (loaded img) IOVec.make) = Some b ∧ iov_inv b ∧
    pos_ b = top ∧ flat b = take m img ∧ (top < m ≤ length img)%nat.
Proof.
  intros Hl Hu Ht. pose proof component_pos as Hc0. rewrite block_size_eq in *.
  set (c := (top / COMPONENT_SIZE)%nat).
  assert (Hc : (c < 4)%nat) by (unfold c; apply Nat.Div0.div_lt_upper_bound; lia).
  assert (Htop : (c * COMPONENT_SIZE ≤ top < (c + 1) * COMPONENT_SIZE)%nat).
  { unfold c. pose proof (Nat.div_mod_eq top COMPONENT_SIZE). pose proof (Nat.mod_upper_bound top COMPONENT_SIZE). nia. }
  set (chunk := λ i, take COMPONENT_SIZE (drop (i * COMPONENT_SIZE) img)).
  assert (Hchunk : ∀ i, (i < 4)%nat → length (chunk i) = COMPONENT_SIZE).
  { intros i Hi. unfold chunk. rewrite length_take, length_drop, Hl. nia. }
  assert (Ecp : IOVec.copy_from (loaded img) IOVec.make = mkIOVec (chunk <$> seq 0 4) 0 EMPTY_ADDR).
  { unfold IOVec.copy_from. rewrite single_true; [done|]. exists img. by rewrite block_size_eq. }
  exists (mkIOVec (take (c + 1) (chunk <$> seq 0 4) ++ replicate (4 - (c + 1)) []) top EMPTY_ADDR), ((c + 1) * COMPONENT_SIZE)%nat.
  assert (Etk : take (c + 1) (chunk <$> seq 0 4) = chunk <$> seq 0 (c + 1)) by (rewrite <- fmap_take, take_seq; f_equal; f_equal; lia).
  assert (Hfull : iov_shape (chunk <$> seq 0 (c + 1)) (mkIOVec (take (c + 1) (chunk <$> seq 0 4) ++ replicate (4 - (c + 1)) []) top EMPTY_ADDR)).
  { constructor; cbn [data_ pos_].
    - rewrite Etk, length_fmap, length_seq. done.
    - apply Forall_fmap, Forall_forall. intros i Hi%elem_of_seq. apply Hchunk. lia.
    - rewrite length_fmap, length_seq. unfold NCOMPONENTS. lia.
    - rewrite length_fmap, length_seq. lia.
    - apply Forall_fmap, Forall_forall. intros i _. by apply Forall_take, Forall_drop. }
  split; [|split; [by eexists|split; [done|split]]].
  - unfold IOVec.set_write_pos_and_shrink, IOVec.set_write_pos. fold c. rewrite decide_False by (unfold NCOMPONENTS; lia).
    rewrite Ecp. cbn [mbind option_bind].
    assert (Es : IOVec.single (IOVec.set_pos top (mkIOVec (chunk <$> seq 0 4) 0 EMPTY_ADDR)) = false).
    { apply bool_decide_eq_false_2. change (length (chunk 0%nat) ≠ FASTSTDB_BLOCK_SIZE). rewrite Hchunk, block_size_eq by lia. lia. }
    rewrite Es. cbn [IOVec.set_pos IOVec.set_data IOVec.is_readonly orb pos_ data_ addr_]. fold c. rewrite shrink_loop_ok by lia.
    rewrite length_fmap, length_seq, Nat.sub_0_r. done.
  - rewrite (flat_shape _ _ Hfull). apply concat_chunks.
  - rewrite Hl. nia.
Qed.

Lemma super_cow_ok {B} `{BlockStore B} impl at_ addr (bstore : B) h refs img :
  read_iovec_block_from_bstore impl at_ addr bstore = Some (loaded img) → super_image h refs img → Forall is_u8 img →
  sr_addr h ≠ 0 →
  ∃ s, copy_on_write impl at_ addr bstore false = Some s ∧ super_inv s h refs ∧ sb_id s = sr_id h ∧
    sb_level s = sr_level h ∧ sb_fanout s = sr_fanout_index h ∧ sb_prev s = sr_addr h.
Proof.
  intros Er Hi Hu Ha. pose proof (super_image_header _ _ _ Hi) as Eh. destruct Hi as (post&E&Hl&Hh&Hr&Hn&Ep&Et&_).
  set (top := ((length refs + 1) * SUBTREE_REF_SIZE)%nat).
  assert (Htop : (top < FASTSTDB_BLOCK_SIZE)%nat) by (unfold top; rewrite block_size_eq, component_eq, ref_size_eq; lia).
  destruct (copy_shrink_ok img top Hl Hu Htop) as (b&m&Eb&Hb&Epos&Ef&Hm).
  exists (mkSuper b (sr_id h) (length refs) (sr_fanout_index h) (sr_level h) (sr_addr h) false). split.
  { unfold copy_on_write. rewrite Er. cbn [mbind option_bind]. rewrite Eh. cbn [mbind option_bind andb].
    rewrite decide_True by done. rewrite Ep, Nat2Z.id. fold top. rewrite Eb. done. }
  split; [|by split_and!]. constructor; cbn [sb_block sb_write_pos sb_immutable]; try done.
  - rewrite Epos. unfold top. lia.
  - rewrite Epos, Ef, take_take, Nat.min_l, E, app_assoc by lia. apply take_app_length'.
    rewrite length_app, length_encode_ref, length_refs_bytes. unfold top. lia.
  - rewrite Epos, Ef, length_take. lia.
Qed.

End SuperInvariant.

(** A run of [append]s with their statuses. *)
Fixpoint append_refs (refs : list SubtreeRef) (s : IOVecSuperblock) : option (list Status * IOVecSuperblock) :=
  match refs with
  | [] => Some ([], s)
  | r :: refs =>
    '(st, s) ← Super.append r s;
    '(sts, s) ← append_refs refs s;
    Some (st :: sts, s)
  end.

Lemma append_refs_full refs s h old :
  super_inv s h old → length old = 32%nat → Forall ref_ok refs →
  append_refs refs s = Some (replicate (length refs) kOverflow, s).
Proof.
  intros I Hl Hr. induction Hr as [|r refs Hr _ IH]; [done|]. cbn [append_refs].
  pose proof (super_append_ok r s h old I Hr) as Ha. rewrite decide_True in Ha by done. rewrite Ha.
  cbn [mbind option_bind]. by rewrite IH.
Qed.

Lemma append_refs_ok refs s h old :
  super_inv s h old → Forall ref_ok refs →
  let k := Nat.min (length refs) (32 - length old) in
  ∃ s' h', append_refs refs s = Some (replicate k kOk ++ replicate (length refs - k) kOverflow, s') ∧
    super_inv s' h' (old ++ take k refs) ∧
    sb_id s' = sb_id s ∧ sb_prev s' = sb_prev s ∧ sb_fanout s' = sb_fanout s ∧ sb_level s' = sb_level s.
Proof.
  intros I Hr. revert s h old I. induction Hr as [|r refs Hr Hrs IH]; intros s h old I.
  { simpl. exists s, h. by rewrite app_nil_r. }
  pose proof (si_fan _ _ _ I) as Hf. pose proof (super_append_ok r s h old I Hr) as Ha. case_decide as H32.
  - rewrite H32. simpl length. rewrite Nat.sub_diag, Nat.min_0_r. cbn [append_refs]. rewrite Ha. cbn [mbind option_bind].
    rewrite (append_refs_full refs s h old I H32 Hrs). exists s, h. rewrite take_0, app_nil_r. by split_and!.
  - destruct Ha as (s1&Ea&I1&Ei&Ep&Efn&El). cbn [append_refs]. rewrite Ea. cbn [mbind option_bind].
    destruct (IH s1 _ _ I1) as (s'&h'&E&I'&Ei'&Ep'&Efn'&El'). rewrite E. cbn [mbind option_bind].
    rewrite length_app in *. simpl length in *.
    assert (∃ m, 32 - length old = S m ∧ 32 - (length old + 1) = m)%nat as (m&Em1&Em2)
      by (exists (32 - (length old + 1))%nat; lia).
    rewrite Em2, <- app_assoc in *. rewrite Em1. cbn [Nat.min] in *.
    exists s', h'. split_and!; [done|exact I'|congruence..].
Qed.

(** ** Properties *)

(** C35: an inner node takes exactly 32 children.  Appending any references
    to a new node gives [Ok] for the first 32 and [Overflow] after that, without
    an [assert] failing; [read_all] returns the accepted ones in order and [top]
    the last of them. *)
Theorem superblock_append_read id prev fanout lvl refs :
  prev ≠ 0 → Forall ref_ok refs →
  let k := Nat.min (length refs) 32 in
  ∃ s0 s, Super.make id prev fanout lvl = Some s0 ∧
    append_refs refs s0 = Some (replicate k kOk ++ replicate (length refs - k) kOverflow, s) ∧
    Super.nelements s = k ∧ Super.is_full s = bool_decide (32 ≤ length refs)%nat ∧
    Super.read_all s = Some (kOk, take k refs) ∧ Super.top s = Some (last (take k refs)).
Proof.
  intros Hp Hr k. destruct (super_make_ok id prev fanout lvl Hp) as (s0&E0&I0&_).
  destruct (append_refs_ok refs s0 _ [] I0 Hr) as (s&h&E&I&_). rewrite Nat.sub_0_r in *. simpl in I.
  exists s0, s. assert (Hlen : length (take k refs) = k) by (rewrite length_take; unfold k; lia).
  split_and!; [done|done| | |by eapply read_all_ok|by eapply top_ok].
  - unfold Super.nelements. by rewrite (si_len _ _ _ I).
  - unfold Super.is_full. rewrite (si_len _ _ _ I). fold k. rewrite Hlen. apply bool_decide_ext.
    unfold NBTREE_FANOUT, k. lia.
Qed.

(** C32: an inner node survives the trip to disk, through any block
    store that keeps the interface's promise.  Committing a node with children
    succeeds at a fresh address; later the store either says that the block is
    gone or the node opens, read-only, with every child reference unchanged,
    and its metadata covers the children: counts and sums added up, the range of
    time from the first to the last, bounds of all their bounds. *)
Theorem superblock_commit_load {B} `{BlockStoreLaws B} impl `{!Crc32cImpl impl} at_ at' id prev fanout lvl refs
    (st : B) k hist :
  is_u64 id → is_u64 prev → prev ≠ 0 → is_u16 fanout → is_u16 lvl →
  refs ≠ [] → (length refs ≤ 32)%nat → Forall ref_ok refs → bs_inv (S k) st hist →
  ∃ s0 s addr s' st' img, Super.make id prev fanout lvl = Some s0 ∧
    append_refs refs s0 = Some (replicate (length refs) kOk, s) ∧
    Super.commit impl at_ s st = Some (kOk, addr, s', st') ∧ hist !! addr = None ∧
    bs_inv k st' (<[addr := img]> hist) ∧
    ∀ k2 st2 hist2, bs_inv k2 st2 hist2 → hist2 !! addr = Some img →
      read_and_check impl at' addr st2 = Some (kUnavailable, None) ∨
      ∃ b s2 h2, read_and_check impl at' addr st2 = Some (kOk, Some b) ∧
        Super.open impl at' addr st2 = Some s2 ∧ Super.read_all s2 = Some (kOk, refs) ∧ sb_immutable s2 = true ∧
        Super.get_sblockmeta s2 = Some h2 ∧ covers h2 refs ∧
        sr_id h2 = id ∧ sr_addr h2 = prev ∧ sr_level h2 = lvl ∧ sr_fanout_index h2 = fanout.
Proof.
  intros Hid Hpr Hp0 Hfo Hlv Hne Hle Hr Hst. destruct (super_make_ok id prev fanout lvl Hp0) as (s0&E0&I0&Ei&Ep&Efn&El).
  destruct (append_refs_ok refs s0 _ [] I0 Hr) as (s&h&E&I&Ei'&Ep'&Efn'&El').
  simpl length in *. rewrite Nat.sub_0_r, Nat.min_l, Nat.sub_diag, app_nil_r in E by lia.
  rewrite Nat.sub_0_r, Nat.min_l, take_ge in I by lia. simpl in I.
  destruct (super_commit_ok impl at_ s h refs st I Hne) as (h'&b&Hb&Himg&Hcv&E1&E2&E3&E4&_&Ec); [congruence..|].
  destruct (bs_append_ok k st hist b Hst Hb) as (addr&b'&st'&Ea&Hfr&_&_&Hst'&_).
  rewrite Ea in Ec. cbn [mbind option_bind] in Ec.
  exists s0, s, addr, (Super.set_block b' s), st', (image b). split_and!; [done|done|done|done|done|].
  intros k2 st2 hist2 Hs2 Ha. unfold read_and_check, Super.open, read_iovec_block_from_bstore.
  destruct (bs_read_ok k2 st2 hist2 addr _ Hs2 Ha) as [[-> _]|[-> _]]; [right|by left].
  cbn [mbind option_bind]. rewrite decide_False by (intros Hx; by apply Hx).
  rewrite (super_image_checksum impl at' _ _ _ Himg). cbn [mbind option_bind].
  destruct (super_image_read _ _ _ Himg) as (s2&El2&Eh2&Er2&Eim); [congruence|].
  eexists _, s2, h'. split_and!; [done|exact El2|done|done|done|done|congruence..].
Qed.

(** The checksum of an inner node is computed over as many bytes as
    the node has children, not over the children: whatever happens to the block
    after those first bytes of the first child, the node still passes the
    check. *)
Theorem superblock_corruption_undetected impl `{!Crc32cImpl impl} at_ h refs img bad :
  super_image h refs img → length bad = FASTSTDB_BLOCK_SIZE →
  take (SUBTREE_REF_SIZE + length refs) bad = take (SUBTREE_REF_SIZE + length refs) img →
  node_checksum_ok impl at_ (loaded bad) = Some true.
Proof.
  intros Hi Hl Et. pose proof (super_image_checksum impl at_ _ _ _ Hi) as Hok.
  destruct Hi as (post&E&Hli&Hh&_&Hn&Ep&_).
  assert (Hhd : ∀ m, length m = FASTSTDB_BLOCK_SIZE →
    take (SUBTREE_REF_SIZE + length refs) m = take (SUBTREE_REF_SIZE + length refs) img →
    get_header (loaded m) = Some h ∧
    take (length refs) (drop SUBTREE_REF_SIZE m) = take (length refs) (drop SUBTREE_REF_SIZE img)).
  { intros m Hm Em. split.
    - eapply (get_header_ok (loaded m) h (drop SUBTREE_REF_SIZE m)); [by apply loaded_readable| | |done].
      + simpl. rewrite block_size_eq. pose proof component_pos. lia.
      + rewrite flat_loaded. rewrite <- (take_drop SUBTREE_REF_SIZE m) at 1. f_equal.
        apply (f_equal (take SUBTREE_REF_SIZE)) in Em. rewrite !take_take, !Nat.min_l in Em by lia.
        rewrite Em, E. by rewrite take_app_length' by (by rewrite length_encode_ref).
    - apply (f_equal (drop SUBTREE_REF_SIZE)) in Em. rewrite !skipn_firstn_comm in Em.
      by replace (SUBTREE_REF_SIZE + length refs - SUBTREE_REF_SIZE)%nat with (length refs) in Em by lia. }
  destruct (Hhd bad Hl Et) as [Eh1 Ed1], (Hhd img Hli eq_refl) as [Eh2 _].
  unfold node_checksum_ok, IOVec.get_data in *. simpl in *. rewrite Eh2 in Hok. rewrite Eh1.
  rewrite decide_True in Hok by done. rewrite decide_True by done. cbn [mbind option_bind] in *. rewrite Ep, Nat2Z.id in *.
  rewrite Hli in Hok. rewrite Hl, Ed1. exact Hok.
Qed.

(** ** A node with two children *)

Definition sample_child (b e : Z) : SubtreeRef :=
  mkRef 3 42 b e 7 0 b 0x3FF0000000000000 e 0x3FF0000000000000 0 0x3FF0000000000000 LEAF 0 64 FASTSTDB_VERSION 0 9.
Definition sample_children : list SubtreeRef := [sample_child 10 20; sample_child 21 30].

Lemma superblock_append_read_witness :
  ∃ s0 s, Super.make 42 EMPTY_ADDR 0 1 = Some s0 ∧ append_refs sample_children s0 = Some ([kOk; kOk], s) ∧
    Super.read_all s = Some (kOk, sample_children).
Proof.
  destruct (superblock_append_read 42 EMPTY_ADDR 0 1 sample_children) as (s0&s&E0&E&_&_&Er&_); [done|by_compute|].
  exists s0, s. split_and!; [exact E0|exact E|exact Er].
Defined.

Lemma superblock_commit_load_witness :
  ∃ s addr s' st', Super.commit crc32c_sw 0 s (Mem.make false false) = Some (kOk, addr, s', st') ∧
    (read_and_check crc32c_sw 0 addr st' = Some (kUnavailable, None) ∨
     ∃ s2, Super.open crc32c_sw 0 addr st' = Some s2 ∧ Super.read_all s2 = Some (kOk, sample_children)).
Proof.
  destruct (superblock_commit_load (B := MemStore) crc32c_sw 0 0 42 EMPTY_ADDR 0 1 sample_children
    (Mem.make false false) 0 ∅) as (s0&s&addr&s'&st'&img&_&_&Ec&_&Hs'&Hread);
    [by_compute|by_compute|done|by_compute|by_compute|done|by_compute|by_compute|split; [by apply mem_make_inv|done]|].
  exists s, addr, s', st'. split; [exact Ec|].
  destruct (Hread _ _ _ Hs') as [Hu|(b&s2&h2&_&Eo&Er&_)]; [by rewrite lookup_insert_eq|by left|right].
  exists s2. split; [exact Eo|exact Er].
Defined.

(** An image of that node, and the same with every byte after the checksum's
    range overwritten. *)
Definition sample_header : SubtreeRef :=
  mkRef 6 42 10 30 EMPTY_ADDR 0 10 0x3FF0000000000000 20 0x4000000000000000 0 0x3FF0000000000000 INNER 1 2
    FASTSTDB_VERSION 0 (crc32c_ref 0 (take 2 (refs_bytes sample_children))).
Definition sample_image (fill : Z) : list Z :=
  encode_ref sample_header ++ refs_bytes sample_children
    ++ replicate (FASTSTDB_BLOCK_SIZE - SUBTREE_REF_SIZE * 3) fill.
Definition sample_damaged : list Z :=
  take (SUBTREE_REF_SIZE + 2) (sample_image 0) ++ replicate (FASTSTDB_BLOCK_SIZE - SUBTREE_REF_SIZE - 2) 255.

Lemma superblock_corruption_undetected_witness :
  take 300 sample_damaged ≠ take 300 (sample_image 0) ∧
  node_checksum_ok crc32c_sw 0 (loaded sample_damaged) = Some true.
Proof.
  split; [by_compute|].
  apply (superblock_corruption_undetected crc32c_sw 0 sample_header sample_children (sample_image 0) sample_damaged);
    [|by_compute|by_compute].
  eexists. split_and!; [reflexivity|by_compute|by_compute|by_compute|by_compute|by_compute|by_compute|by_compute|].
  by_compute.
Defined.
