(* ===== verification/TreeIter.v ===== *)
(** * Operators over a subtree and over a chain of them (nbtree.cc, scan.cc)

    [NBTreeSBlockIterator] and [NBTreeSBlockFilter] walk over the children of an
    inner node, in either direction, and open an operator for each child;
    [ChainOperator] reads one operator after another.  The operators form a
    tree of their own, which is the state that [read] advances. *)
From S2P Require Import Prelude Status ByteStream Base128 VByte DataBlock DataBlockProof IOVec Blocks Volume Crc32c BlockStoreProof MemStore Double SubtreeRef Operator Leaf LeafIter Superblock.

(** ** State *)

(** [NBTreeSBlockIteratorBase], without the nested operator.  A filter makes it
    an [NBTreeSBlockFilter]. *)
Record SBlockIter := mkSBlockIter {
  si_begin : Z;
  si_end : Z;
  si_addr : Z;                     (* LogicAddr addr_ *)
  si_children : list SubtreeRef;   (* refs_ *)
  si_fsm_pos : Z;                  (* u32 *)
  si_refs_pos : Z;                 (* i32 *)
  si_filter : option ValueFilter;
}.

Inductive RealValuedOperator :=
  | OpLeaf (it : LeafIterator)
  | OpLeafFilter (it : LeafFilter)
  | OpEmpty (begin_ end_ : Z)
  | OpSBlock (s : SBlockIter) (iter : option RealValuedOperator)
  | OpChain (iters : list RealValuedOperator) (iter_index : nat).

#[export] Instance Direction_eq_dec : EqDecision Direction.
Proof. solve_decision. Defined.

(** [subtree_in_range]. *)
Definition subtree_in_range (ref : SubtreeRef) (begin_ end_ : Z) : bool :=
  negb (bool_decide (sr_end ref < begin_) || bool_decide (end_ < sr_begin ref)).

Module SBlock.

(** The constructors: over the address of a node, over a node in memory. *)
Definition make (addr begin_ end_ : Z) (f : option ValueFilter) : SBlockIter :=
  mkSBlockIter begin_ end_ addr [] 0 0 f.

Definition start_pos (begin_ end_ : Z) (refs : list SubtreeRef) : Z :=
  if decide (begin_ < end_) then 0 else Z.of_nat (length refs) - 1.

Definition of_node (sblock : IOVecSuperblock) (begin_ end_ : Z) (f : option ValueFilter) : option SBlockIter :=
  '(status, refs) ← Super.read_all sblock;
  let pos := if decide (status ≠ kOk)
             then if decide (begin_ < end_) then Z.of_nat (length refs) else -1
             else start_pos begin_ end_ refs in
  Some (mkSBlockIter begin_ end_ EMPTY_ADDR refs 1 pos f).

Definition get_direction (s : SBlockIter) : Direction := direction (si_begin s) (si_end s).

Definition set_pos (p : Z) (s : SBlockIter) : SBlockIter :=
  mkSBlockIter (si_begin s) (si_end s) (si_addr s) (si_children s) (si_fsm_pos s) p (si_filter s).
Definition set_fsm (p : Z) (s : SBlockIter) : SBlockIter :=
  mkSBlockIter (si_begin s) (si_end s) (si_addr s) (si_children s) p (si_refs_pos s) (si_filter s).

Section Ops.
Context {B : Type} `{BlockStore B}.
Variables (impl : crc32c_impl_t) (at_ : Z) (bstore : B).

Definition init (s : SBlockIter) : option (Status * SBlockIter) :=
  '(status, block) ← read_and_check impl at_ (si_addr s) bstore;
  if decide (status ≠ kOk) then Some (status, s) else
  b ← block;
  current ← Super.load b;
  '(status, refs) ← Super.read_all current;
  let refs := si_children s ++ refs in
  Some (status, mkSBlockIter (si_begin s) (si_end s) (si_addr s) refs (si_fsm_pos s)
                  (start_pos (si_begin s) (si_end s) refs) (si_filter s)).

(** The operator for a leaf that was read. *)
Definition leaf_operator (s : SBlockIter) (block : IOVecBlock) (blockref : SubtreeRef)
    : option RealValuedOperator :=
  match si_filter s with
  | None => l ← Leaf.load block; it ← LeafIter.make (si_begin s) (si_end s) l; Some (OpLeaf it)
  | Some f =>
    match Filter.get_overlap blockref f with
    | FULL_OVERLAP => l ← Leaf.load block; it ← LeafIter.make (si_begin s) (si_end s) l; Some (OpLeaf it)
    | PARTIAL_OVERLAP =>
      l ← Leaf.load block; it ← LeafFilterOp.make (si_begin s) (si_end s) f l; Some (OpLeafFilter it)
    | NO_OVERLAP => Some (OpEmpty (si_begin s) (si_end s))
    end
  end.

(** The [assert]s are [None]. *)
Definition make_leaf_iterator (ref : SubtreeRef) (s : SBlockIter)
    : option (Status * option RealValuedOperator) :=
  if decide (sr_type ref ≠ LEAF) then None else
  '(status, block) ← read_and_check impl at_ (sr_addr ref) bstore;
  if decide (status ≠ kOk) then Some (status, None) else
  b ← block;
  blockref ← get_header b;
  if decide (sr_type blockref ≠ sr_type ref) then None else
  op ← leaf_operator s b blockref;
  Some (kOk, Some op).

Definition make_superblock_iterator (ref : SubtreeRef) (s : SBlockIter) : Status * option RealValuedOperator :=
  let below f := OpSBlock (make (sr_addr ref) (si_begin s) (si_end s) f) None in
  match si_filter s with
  | None => (kOk, Some (below None))
  | Some f =>
    match Filter.get_overlap ref f with
    | FULL_OVERLAP => (kOk, Some (below None))
    | PARTIAL_OVERLAP => (kOk, Some (below (Some f)))
    | NO_OVERLAP => (kOk, Some (OpEmpty (si_begin s) (si_end s)))
    end
  end.

(** The reference at the current position, and the position after it. *)
Definition next_ref (s : SBlockIter) : option (option SubtreeRef * SBlockIter) :=
  match get_direction s with
  | FORWARD =>
    if decide (si_refs_pos s = Z.of_nat (length (si_children s))) then Some (None, s)
    else if decide (si_refs_pos s < 0) then None
    else ref ← si_children s !! Z.to_nat (si_refs_pos s); Some (Some ref, set_pos (si_refs_pos s + 1) s)
  | BACKWARD =>
    if decide (si_refs_pos s < 0) then Some (None, s)
    else ref ← si_children s !! Z.to_nat (si_refs_pos s); Some (Some ref, set_pos (si_refs_pos s - 1) s)
  end.

(** The operator over a child, when there is anything to read in it. *)
Definition open_child (ref : SubtreeRef) (s : SBlockIter) : option (Status * option RealValuedOperator) :=
  if negb (bs_exists (sr_addr ref) bstore) then Some (kUnavailable, None) else
  if negb (subtree_in_range ref (Z.min (si_begin s) (si_end s)) (Z.max (si_begin s) (si_end s)))
  then Some (kNotFound, None) else
  if decide (sr_type ref = LEAF) then make_leaf_iterator ref s
  else Some (make_superblock_iterator ref s).

Definition get_next_iter (s : SBlockIter) : option (Status * option RealValuedOperator * SBlockIter) :=
  '(next, s) ← next_ref s;
  match next with
  | None => Some (kNoData, None, s)
  | Some ref => '(status, it) ← open_child ref s; Some (status, it, s)
  end.

(** [read] of the operators, the loop of [iter] and that of
    [ChainOperator::read]; each takes one unit of fuel per call or round. *)
Fixpoint read (fuel size : nat) (op : RealValuedOperator) {struct fuel}
    : option (Status * list point * RealValuedOperator) :=
  match fuel with
  | O => None
  | S fuel =>
    match op with
    | OpLeaf it => '(st, out, it) ← LeafIter.read size it; Some (st, out, OpLeaf it)
    | OpLeafFilter it => let '(st, out, it) := LeafFilterOp.read size it in Some (st, out, OpLeafFilter it)
    | OpEmpty b e => Some (kNoData, [], OpEmpty b e)
    | OpSBlock s iter =>
      '(status, s) ←
        (if decide (si_fsm_pos s = 0) then
           '(status, s) ← init s;
           Some (status, if decide (status ≠ kOk) then s else set_fsm (si_fsm_pos s + 1) s)
         else Some (kOk, s));
      if decide (status ≠ kOk) then Some (status, [], OpSBlock s iter) else
      iter_loop fuel size s iter kNoData []
    | OpChain iters ix => chain_loop fuel size iters ix kNoData []
    end
  end
with iter_loop (fuel size : nat) (s : SBlockIter) (iter : option RealValuedOperator) (status : Status)
    (out : list point) {struct fuel} : option (Status * list point * RealValuedOperator) :=
  match fuel with
  | O => None
  | S fuel =>
    if decide (size ≤ length out)%nat then Some (status, out, OpSBlock s iter) else
    '(status, iter, s) ←
      match iter with
      | Some it => Some (kOk, Some it, s)
      | None => get_next_iter s
      end;
    if decide (status = kNotFound ∨ status = kUnavailable) then iter_loop fuel size s iter status out else
    if decide (status ≠ kOk) then Some (status, out, OpSBlock s iter) else
    it ← iter;
    '(status, more, it) ← read fuel (size - length out) it;
    let out := out ++ more in
    if decide (status = kNoData ∨ status = kUnavailable ∧ get_direction s = FORWARD)
    then iter_loop fuel size s None status out
    else if decide (status ≠ kOk) then Some (status, out, OpSBlock s (Some it))
    else iter_loop fuel size s (Some it) status out
  end
with chain_loop (fuel size : nat) (iters : list RealValuedOperator) (ix : nat) (status : Status)
    (out : list point) {struct fuel} : option (Status * list point * RealValuedOperator) :=
  match fuel with
  | O => None
  | S fuel =>
    if decide (length iters ≤ ix)%nat then Some (status, out, OpChain iters ix) else
    it ← iters !! ix;
    '(status, more, it) ← read fuel (size - length out) it;
    let out := out ++ more in
    let iters := <[ix := it]> iters in
    if decide (size - length out = 0)%nat then Some (status, out, OpChain iters ix) else
    if decide (status = kNoData ∨ status = kUnavailable) then chain_loop fuel size iters (ix + 1) status out
    else if decide (status ≠ kOk) then Some (status, out, OpChain iters ix)
    else chain_loop fuel size iters ix status out
  end.

(** Reading in portions of [size] until the status is not [Ok]. *)
Fixpoint drain (rounds fuel size : nat) (op : RealValuedOperator) : option (list point * Status) :=
  match rounds with
  | O => None
  | S rounds =>
    '(st, out, op) ← read fuel size op;
    if decide (st ≠ kOk) then Some (out, st) else
    '(rest, st) ← drain rounds fuel size op;
    Some (out ++ rest, st)
  end.

End Ops.
End SBlock.
