(* ===== verification/TreeRead.v ===== *)
(** * Reading from the operators of the tree

    [view bstore n op pts]: the operator [op], over a subtree of height [n], has
    the points [pts] still to deliver.  [read] hands out a prefix of them, in
    portions of any size, and says [NoData] at the end and not before: the
    loops of [NBTreeSBlockIteratorBase::iter] and [ChainOperator::read]
    terminate, and lose and repeat nothing. *)
From S2P Require Import Prelude Status ByteStream Base128 VByte DataBlock DataBlockProof IOVec Blocks Volume Crc32c BlockStoreProof MemStore Double SubtreeRef Operator Leaf LeafIter Superblock TreeIter.

(** ** Positions *)

Section Positions.
Import SBlock.

(** The references that are still ahead, in the order they will be taken. *)
Definition pending (s : SBlockIter) : list SubtreeRef :=
  match get_direction s with
  | FORWARD => drop (Z.to_nat (si_refs_pos s)) (si_children s)
  | BACKWARD => reverse (take (Z.to_nat (si_refs_pos s + 1)) (si_children s))
  end.

Definition pos_ok (s : SBlockIter) : Prop :=
  match get_direction s with
  | FORWARD => 0 ≤ si_refs_pos s ≤ Z.of_nat (length (si_children s))
  | BACKWARD => -1 ≤ si_refs_pos s < Z.of_nat (length (si_children s))
  end.

Lemma get_direction_pos p s : get_direction (set_pos p s) = get_direction s.
Proof. done. Qed.

Lemma next_ref_ok s :
  pos_ok s →
  match pending s with
  | [] => next_ref s = Some (None, s)
  | r :: rs => ∃ p, next_ref s = Some (Some r, set_pos p s) ∧ pos_ok (set_pos p s) ∧ pending (set_pos p s) = rs
  end.
Proof.
  unfold pos_ok, pending, next_ref. rewrite ?get_direction_pos. destruct (get_direction s) eqn:Ed; intros Hp.
  - case_decide as Hend.
    { by rewrite drop_ge by lia. }
    rewrite decide_False by lia.
    destruct (lookup_lt_is_Some_2 (si_children s) (Z.to_nat (si_refs_pos s))) as [r Hr]; [lia|].
    rewrite (drop_S _ _ _ Hr), Hr. cbn [mbind option_bind]. exists (si_refs_pos s + 1). rewrite get_direction_pos, Ed.
    split_and!; [done|simpl; lia|simpl; lia|]. simpl. f_equal. lia.
  - case_decide as Hend.
    { by replace (Z.to_nat (si_refs_pos s + 1)) with 0%nat by lia. }
    destruct (lookup_lt_is_Some_2 (si_children s) (Z.to_nat (si_refs_pos s))) as [r Hr]; [lia|].
    replace (Z.to_nat (si_refs_pos s + 1)) with (S (Z.to_nat (si_refs_pos s))) by lia.
    rewrite (take_S_r _ _ _ Hr), reverse_app, Hr. cbn [mbind option_bind]. simpl app.
    exists (si_refs_pos s - 1). rewrite get_direction_pos, Ed.
    split_and!; [done|simpl; lia|simpl; lia|]. simpl. do 2 f_equal. lia.
Qed.

(** All the children, from the first. *)
Lemma start_pending b e addr refs fsm f :
  let s := mkSBlockIter b e addr refs fsm (start_pos b e refs) f in
  pos_ok s ∧ pending s = if decide (b < e) then refs else reverse refs.
Proof.
  unfold pos_ok, pending, start_pos, get_direction, direction. simpl.
  case_decide; [by split; [lia|]|]. split; [lia|].
  replace (Z.to_nat (Z.of_nat (length refs) - 1 + 1)) with (length refs) by lia. by rewrite take_ge by lia.
Qed.

End Positions.

(** ** What an operator has left *)

Section Read.
Import SBlock.
Context {B : Type} `{BlockStore B}.
Variables (impl : crc32c_impl_t) (at_ : Z) (bstore : B).

Notation read := (read impl at_ bstore).
Notation iter_loop := (iter_loop impl at_ bstore).
Notation chain_loop := (chain_loop impl at_ bstore).
Notation open_child := (open_child impl at_ bstore).

(** The operator that opening a child gives has [pts] to deliver; a child that
    is gone or out of range has nothing. *)
Definition opens (P : RealValuedOperator → list point → Prop) (s : SBlockIter) (ref : SubtreeRef)
    (pts : list point) : Prop :=
  (∃ st, open_child ref s = Some (st, None) ∧ (st = kNotFound ∨ st = kUnavailable) ∧ pts = []) ∨
  (∃ op, open_child ref s = Some (kOk, Some op) ∧ P op pts).

Definition view_node (P : RealValuedOperator → list point → Prop) (s : SBlockIter)
    (iter : option RealValuedOperator) (pts : list point) : Prop :=
  ∃ p0 pss, pos_ok s ∧ si_fsm_pos s ≠ 0 ∧ match iter with Some it => P it p0 | None => p0 = [] end ∧
    Forall2 (opens P s) (pending s) pss ∧ pts = p0 ++ concat pss.

Fixpoint view (n : nat) (op : RealValuedOperator) (pts : list point) : Prop :=
  match n, op with
  | _, OpEmpty _ _ => pts = []
  | O, OpLeaf it => ready it pts ∧ (li_status it = kOk ∨ li_status it = kNoData ∧ pts = [])
  | O, OpLeafFilter it => pts = drop (lt_pos it) (lt_buf it) ∧ (lt_status it = kOk ∨ lt_status it = kNoData ∧ pts = [])
  | S n, OpSBlock s iter =>
    if decide (si_fsm_pos s = 0) then
      iter = None ∧ ∃ s', init impl at_ bstore s = Some (kOk, s') ∧ si_fsm_pos s' = 0 ∧
        view_node (view n) (set_fsm (si_fsm_pos s' + 1) s') None pts
    else view_node (view n) s iter pts
  | _, _ => False
  end.

(** What a call of [read] may return. *)
Definition delivered (P : RealValuedOperator → list point → Prop) (size : nat) (pts : list point)
    (r : Status * list point * RealValuedOperator) : Prop :=
  let '(st, out, op) := r in
  ∃ rest, pts = out ++ rest ∧ (length out ≤ size)%nat ∧
    P op rest ∧
    (st = kOk ∧ out ≠ [] ∧ (rest = [] ∨ length out = size) ∨ st = kNoData ∧ rest = [] ∧ (length out < size)%nat).

Definition reads (P : RealValuedOperator → list point → Prop) : Prop :=
  ∀ op pts size, P op pts → (0 < size)%nat →
    ∃ N r, (∀ fuel, (N ≤ fuel)%nat → read fuel size op = Some r) ∧ delivered P size pts r.

(** ** Leaves *)

Lemma leaf_read_ok it pts size :
  ready it pts → (li_status it = kOk ∨ li_status it = kNoData ∧ pts = []) → (0 < size)%nat →
  ∃ st out it', LeafIter.read size it = Some (st, out, it') ∧ delivered (view 0) size pts (st, out, OpLeaf it').
Proof.
  intros Hr Hst Hsz. pose proof (ready_length _ _ Hr) as Hn. pose proof Hr as (H1&H2&H3). unfold LeafIter.read.
  destruct Hst as [Hst|[Hst ->]].
  2: { rewrite decide_True by (by rewrite Hst). eexists _, _, _. split; [done|]. exists [].
       split_and!; [done|simpl; lia|split; [done|by right]|]. right. rewrite Hst. split_and!; [done|done|simpl; lia]. }
  rewrite decide_False by (rewrite Hst; intros Hx; by apply Hx). rewrite Hn in *. case_decide as Hz.
  { eexists _, _, _. split; [done|]. exists []. assert (pts = []) as -> by (apply nil_length_inv; lia).
    split_and!; [done|simpl; lia|split; [done|by left]|]. right. split_and!; [done|done|simpl; lia]. }
  rewrite decide_False by lia. eexists _, _, _. split; [done|].
  set (m := Z.min _ _) in *. exists (drop (Z.to_nat m) pts).
  assert (Ho : take (Z.to_nat m) (drop (Z.to_nat (li_from it)) (li_buf it)) = take (Z.to_nat m) pts).
  { rewrite <- H3, take_take. f_equal. lia. }
  rewrite Ho. split_and!; [by rewrite take_drop|rewrite length_take; lia| |left; split; [done|split]].
  2: { intros E%(f_equal length). rewrite length_take in E. simpl in E. lia. }
  2: { destruct (decide (Z.of_nat size ≤ Z.of_nat (length pts))); [right; rewrite length_take; lia|left; apply drop_ge; lia]. }
  - simpl. split; [|by left]. unfold ready. simpl. split_and!; [lia..|].
    rewrite <- H3. replace (li_to it - (li_from it + m)) with (Z.of_nat (length pts) - m) by lia.
    rewrite Z2Nat.inj_add, <- drop_drop by lia. rewrite skipn_firstn_comm. f_equal. lia.
Qed.

Lemma leaf_filter_read_ok it pts size :
  pts = drop (lt_pos it) (lt_buf it) → (lt_status it = kOk ∨ lt_status it = kNoData ∧ pts = []) → (0 < size)%nat →
  ∃ st out it', LeafFilterOp.read size it = (st, out, it') ∧ delivered (view 0) size pts (st, out, OpLeafFilter it').
Proof.
  intros Ep Hst Hsz. unfold LeafFilterOp.read. destruct Hst as [Hst|[Hst ->]].
  2: { rewrite decide_True by (by rewrite Hst). eexists _, _, _. split; [done|]. exists [].
       split_and!; [done|simpl; lia|split; [done|by right]|]. right. rewrite Hst. split_and!; [done|done|simpl; lia]. }
  rewrite decide_False by (rewrite Hst; intros Hx; by apply Hx).
  rewrite <- length_drop, <- Ep. case_decide as Hz.
  { eexists _, _, _. split; [done|]. exists []. assert (pts = []) as -> by (apply nil_length_inv; lia).
    split_and!; [done|simpl; lia|split; [by rewrite <- Ep|by left]|]. right. split_and!; [done|done|simpl; lia]. }
  eexists _, _, _. split; [done|]. set (m := Nat.min _ _) in *. exists (drop m pts).
  split_and!; [by rewrite take_drop|rewrite length_take; lia| |left; split; [done|split]].
  - simpl. split; [|by left]. by rewrite Ep, drop_drop.
  - intros E%(f_equal length). rewrite length_take in E. simpl in E. lia.
  - destruct (decide (size ≤ length pts)%nat); [right; rewrite length_take; lia|left; apply drop_ge; lia].
Qed.

Lemma reads_leaf : reads (view 0).
Proof.
  intros op pts size Hv Hsz. destruct op as [it|it|b e| |]; try done; simpl in Hv.
  - destruct Hv as [Hr Hst]. destruct (leaf_read_ok it pts size Hr Hst Hsz) as (st&out&it'&E&Hd).
    exists 1%nat, (st, out, OpLeaf it'). split; [|done]. intros [|fuel] Hf; [lia|]. simpl. by rewrite E.
  - destruct Hv as [Hr Hst]. destruct (leaf_filter_read_ok it pts size Hr Hst Hsz) as (st&out&it'&E&Hd).
    exists 1%nat, (st, out, OpLeafFilter it'). split; [|done]. intros [|fuel] Hf; [lia|]. simpl. by rewrite E.
  - subst. exists 1%nat, (kNoData, [], OpEmpty b e). split; [by intros [|fuel] Hf; [lia|]|].
    exists []. split_and!; [done|simpl; lia|done|]. right. split_and!; [done|done|simpl; lia].
Qed.

(** ** Inner nodes *)

Lemma opens_pos P p s ref pts : opens P (set_pos p s) ref pts = opens P s ref pts.
Proof. done. Qed.

(** Taking the next child, when there is no current one. *)
Lemma next_iter_ok P s pts :
  view_node P s None pts →
  (pending s = [] ∧ pts = [] ∧ get_next_iter impl at_ bstore s = Some (kNoData, None, s)) ∨
  ∃ st it s' , get_next_iter impl at_ bstore s = Some (st, it, s') ∧ get_direction s' = get_direction s ∧
    length (pending s) = S (length (pending s')) ∧ view_node P s' it pts ∧
    (it = None ∧ (st = kNotFound ∨ st = kUnavailable) ∨ (∃ op, it = Some op) ∧ st = kOk).
Proof.
  intros (p0&pss&Hp&Hfsm&->&Hf&->). pose proof (next_ref_ok s Hp) as Hn. unfold get_next_iter.
  destruct (pending s) as [|r rs].
  { left. apply Forall2_nil_inv_l in Hf as ->. by rewrite Hn. }
  right. destruct Hn as (p&->&Hp'&<-). cbn [mbind option_bind].
  apply Forall2_cons_inv_l in Hf as (q&pss'&Ho&Hf&->).
  change (open_child r (set_pos p s)) with (open_child r s).
  destruct Ho as [(st&->&Hst&->)|(op&->&Hop)]; cbn [mbind option_bind]; eexists _, _, _; split; try done;
    (split; [done|]; split; [done|]; split; [|eauto]).
  - exists [], pss'. by split_and!.
  - exists q, pss'. by split_and!.
Qed.

(** The outcome of the loop: the points that were added to [out]. *)
Definition loops (P : RealValuedOperator → list point → Prop) (size : nat) (pts out : list point)
    (run : nat → option (Status * list point * RealValuedOperator)) : Prop :=
  ∃ N st more op' rest, (∀ fuel, (N ≤ fuel)%nat → run fuel = Some (st, out ++ more, op')) ∧
    pts = more ++ rest ∧ (length (out ++ more) ≤ size)%nat ∧
    (∃ s iter, op' = OpSBlock s iter ∧ view_node P s iter rest) ∧
    (st = kOk ∧ out ++ more ≠ [] ∧ (rest = [] ∨ length (out ++ more) = size) ∨ st = kNoData ∧ rest = [] ∧ (length (out ++ more) < size)%nat).

(** The rounds that are left, at most. *)
Definition work (s : SBlockIter) (iter : option RealValuedOperator) (room : nat) : nat :=
  2 * length (pending s) + (if iter then 1 else 0) + room.

(** The part of the loop after the operator is known. *)
Definition read_round (size : nat) (s : SBlockIter) (it : RealValuedOperator) (out : list point) (fuel : nat) :=
  '(status, more, it) ← read fuel (size - length out) it;
  let out := out ++ more in
  if decide (status = kNoData ∨ status = kUnavailable ∧ get_direction s = FORWARD)
  then iter_loop fuel size s None status out
  else if decide (status ≠ kOk) then Some (status, out, OpSBlock s (Some it))
  else iter_loop fuel size s (Some it) status out.

Lemma iter_loop_some fuel size s it status out :
  (length out < size)%nat → iter_loop (S fuel) size s (Some it) status out = read_round size s it out fuel.
Proof.
  intros Hlt. cbn [SBlock.iter_loop]. rewrite decide_False by lia. cbn [mbind option_bind].
  rewrite (decide_False (P := kOk = kNotFound ∨ _)) by (intros [?|?]; done).
  by rewrite (decide_False (P := kOk ≠ kOk)) by (intros Hx; by apply Hx).
Qed.

Lemma iter_loop_none fuel size s status out st it s' :
  (length out < size)%nat → get_next_iter impl at_ bstore s = Some (st, it, s') →
  iter_loop (S fuel) size s None status out =
    if decide (st = kNotFound ∨ st = kUnavailable) then iter_loop fuel size s' it st out else
    if decide (st ≠ kOk) then Some (st, out, OpSBlock s' it) else it ← it; read_round size s' it out fuel.
Proof. intros Hlt En. cbn [SBlock.iter_loop]. rewrite decide_False by lia. by rewrite En. Qed.

Lemma loops_S P size pts out run run' :
  (∀ fuel, run (S fuel) = run' fuel) → loops P size pts out run' → loops P size pts out run.
Proof.
  intros Er (N&st&more&op'&rest&E&Hc). exists (S N), st, more, op', rest. split; [|done].
  intros [|fuel] Hf; [lia|]. rewrite Er. apply E. lia.
Qed.

Definition loop_spec (P : RealValuedOperator → list point → Prop) (size m : nat) : Prop :=
  ∀ s iter pts status out, view_node P s iter pts → (length out ≤ size)%nat → (size = length out → status = kOk)%nat →
    (work s iter (size - length out) < m)%nat → loops P size pts out (λ fuel, iter_loop fuel size s iter status out).

Lemma read_round_ok P size m s it pts out :
  reads P → loop_spec P size m → view_node P s (Some it) pts → (length out < size)%nat →
  (work s (Some it) (size - length out) ≤ m)%nat → loops P size pts out (read_round size s it out).
Proof.
  intros HP IH (p0&pss&Hp&Hfsm&Hit&Hf&->) Hlt Hm. unfold work in *.
  destruct (HP it p0 (size - length out)%nat Hit ltac:(lia)) as (N1&[[st1 m1] it1]&E1&(r1&->&Hl1&Hit1&Hc)).
  assert (∃ iter1, view_node P s iter1 (r1 ++ concat pss) ∧ (size = length (out ++ m1) → st1 = kOk) ∧
    (work s iter1 (size - length (out ++ m1)) < m)%nat ∧
    ∀ fuel, (N1 ≤ fuel)%nat → read_round size s it out fuel = iter_loop fuel size s iter1 st1 (out ++ m1))
    as (iter1&Hv1&Hs1&Hm1&Eq).
  { unfold work, read_round. rewrite !length_app. destruct Hc as [(->&Hne&_)|(->&->&Hlt1)].
    - exists (Some it1). assert (0 < length m1)%nat by (destruct m1; [done|simpl; lia]).
      split_and!; [exists r1, pss; by split_and!|done|lia|]. intros fuel Hfu. rewrite E1 by done. cbn [mbind option_bind].
      rewrite decide_False by (intros [?|[? _]]; done). by rewrite decide_False by (intros Hx; by apply Hx).
    - exists None. split_and!; [exists [], pss; by split_and!|lia|lia|].
      intros fuel Hfu. rewrite E1 by done. cbn [mbind option_bind]. by rewrite decide_True by (by left). }
  assert (Hl : (length (out ++ m1) ≤ size)%nat) by (rewrite length_app; lia).
  destruct (IH s iter1 _ st1 (out ++ m1) Hv1 Hl Hs1 Hm1) as (N2&st2&more&op'&rest&E2&Er&Hl2&Hc2).
  exists (Nat.max N1 N2), st2, (m1 ++ more), op', rest. rewrite app_assoc. split.
  - intros fuel Hfu. rewrite Eq by lia. apply E2. lia.
  - rewrite <- !app_assoc in *. rewrite Er. by rewrite ?app_assoc in *.
Qed.

Lemma iter_loop_ok P size m : reads P → (0 < size)%nat → loop_spec P size m.
Proof.
  intros HP Hsz. induction m as [|m IH]; intros s iter pts status out Hv Hout Hst Hm; [lia|].
  destruct (decide (size = length out)) as [Efull|Hroom].
  { exists 1%nat, status, [], (OpSBlock s iter), pts. rewrite app_nil_r. split_and!; [|done|done|eauto|].
    - intros [|fuel] Hf; [lia|]. cbn [SBlock.iter_loop]. by rewrite decide_True by lia.
    - left. split_and!; [by apply Hst|by destruct out; [simpl in Efull; lia|]|by right]. }
  assert (Hlt : (length out < size)%nat) by lia. destruct iter as [it|].
  - eapply loops_S; [intros fuel; apply iter_loop_some; lia|]. eapply read_round_ok; [done|exact IH|done|lia|lia].
  - destruct (next_iter_ok P s pts Hv) as [(Ep&->&En)|(st&it&s'&En&Hd&Hl&Hv'&Hc)].
    + exists 1%nat, kNoData, [], (OpSBlock s None), []. rewrite app_nil_r. split_and!; [|done|lia|eauto|right; split_and!; [done..|lia]].
      intros [|fuel] Hf; [lia|]. rewrite (iter_loop_none _ _ _ _ _ _ _ _ Hlt En).
      rewrite decide_False by (intros [?|?]; done). by rewrite decide_True.
    + unfold work in *. destruct Hc as [[-> Hst']|[[op ->] ->]].
      * apply (loops_S _ _ _ _ _ (λ fuel, iter_loop fuel size s' None st out)).
        { intros fuel. rewrite (iter_loop_none _ _ _ _ _ _ _ _ Hlt En). by rewrite decide_True. }
        apply IH; [done|lia|lia|unfold work; lia].
      * apply (loops_S _ _ _ _ _ (read_round size s' op out)).
        { intros fuel. rewrite (iter_loop_none _ _ _ _ _ _ _ _ Hlt En). rewrite decide_False by (intros [?|?]; done).
          by rewrite decide_False by (intros Hx; by apply Hx). }
        eapply read_round_ok; [done|exact IH|done|lia|unfold work; lia].
Qed.

Lemma view_node_view n s iter pts : view_node (view n) s iter pts → view (S n) (OpSBlock s iter) pts.
Proof. intros Hv. simpl. rewrite decide_False; [done|]. by destruct Hv as (?&?&?&?&?). Qed.

Lemma reads_inner n : reads (view n) → reads (view (S n)).
Proof.
  intros HP op pts size Hv Hsz. destruct op as [it|it|b e|s iter|]; try done.
  { simpl in Hv. subst. exists 1%nat, (kNoData, [], OpEmpty b e). split; [by intros [|fuel] Hf; [lia|]|].
    exists []. split_and!; [done|simpl; lia|done|]. right. split_and!; [done|done|simpl; lia]. }
  assert (Hgo : ∀ s iter, view_node (view n) s iter pts →
    ∃ N r, (∀ fuel, (N ≤ fuel)%nat → iter_loop fuel size s iter kNoData [] = Some r) ∧ delivered (view (S n)) size pts r).
  { intros s1 iter1 Hv1. destruct (iter_loop_ok (view n) size _ HP Hsz s1 iter1 pts kNoData [] Hv1 ltac:(simpl; lia)
      ltac:(simpl; lia) (Nat.lt_succ_diag_r _)) as (N&st&more&op'&rest&E&Ep&Hl&Hop&Hc).
    exists N, (st, more, op'). split; [done|]. exists rest. simpl in Hl, Hc. destruct Hop as (s'&iter'&->&Hv'). split_and!; [done|done| |done].
    by apply view_node_view. }
  simpl in Hv. case_decide as Hfsm.
  - destruct Hv as (->&s'&Ei&Hz&Hv). destruct (Hgo _ _ Hv) as (N&r&E&Hd). exists (S N), r. split; [|done].
    intros [|fuel] Hf; [lia|]. cbn [SBlock.read]. rewrite decide_True by done. rewrite Ei. cbn [mbind option_bind].
    rewrite !(decide_False (P := kOk ≠ kOk)) by (intros Hx; by apply Hx). apply E. lia.
  - destruct (Hgo _ _ Hv) as (N&r&E&Hd). exists (S N), r. split; [|done].
    intros [|fuel] Hf; [lia|]. cbn [SBlock.read]. rewrite decide_False by done. cbn [mbind option_bind].
    rewrite (decide_False (P := kOk ≠ kOk)) by (intros Hx; by apply Hx). apply E. lia.
Qed.

Lemma reads_view n : reads (view n).
Proof. induction n; [apply reads_leaf|by apply reads_inner]. Qed.

(** ** Chains *)

Definition view_any (op : RealValuedOperator) (pts : list point) : Prop := ∃ n, view n op pts.

Definition view_chain (op : RealValuedOperator) (pts : list point) : Prop :=
  ∃ iters ix pss, op = OpChain iters ix ∧ Forall2 view_any (drop ix iters) pss ∧ pts = concat pss.

Lemma reads_any : reads view_any.
Proof.
  intros op pts size [n Hv] Hsz. destruct (reads_view n op pts size Hv Hsz) as (N&[[st out] op']&E&rest&Ep&Hl&Hop&Hc).
  exists N, (st, out, op'). split; [done|]. exists rest. split_and!; [done|done|by exists n|done].
Qed.

Lemma chain_loop_ok m iters ix pss size status out :
  Forall2 view_any (drop ix iters) pss → (length out < size)%nat → (length iters ≤ ix → status = kNoData)%nat →
  (length pss + (size - length out) < m)%nat →
  ∃ N st more op' rest, (∀ fuel, (N ≤ fuel)%nat → chain_loop fuel size iters ix status out = Some (st, out ++ more, op')) ∧
    concat pss = more ++ rest ∧ (length (out ++ more) ≤ size)%nat ∧
    view_chain op' rest ∧
    (st = kOk ∧ out ++ more ≠ [] ∧ (rest = [] ∨ length (out ++ more) = size) ∨ st = kNoData ∧ rest = [] ∧ (length (out ++ more) < size)%nat).
Proof.
  revert iters ix pss status out. induction m as [|m IH]; intros iters ix pss status out Hf Hlt Hst Hm; [lia|].
  destruct (decide (length iters ≤ ix)%nat) as [Hend|Hix].
  { rewrite drop_ge in Hf by done. apply Forall2_nil_inv_l in Hf as ->.
    exists 1%nat, kNoData, [], (OpChain iters ix), []. rewrite app_nil_r. split_and!; [|done|lia| |by right].
    2: { exists iters, ix, []. rewrite drop_ge by done. by split_and!. }
    intros [|fuel] Hfu; [lia|]. cbn [SBlock.chain_loop]. rewrite decide_True by done. by rewrite Hst. }
  destruct (lookup_lt_is_Some_2 iters ix) as [it Hit]; [lia|]. rewrite (drop_S _ _ _ Hit) in Hf.
  apply Forall2_cons_inv_l in Hf as (p0&pss'&Hv&Hf&->).
  destruct (reads_any it p0 (size - length out)%nat Hv ltac:(lia)) as (N1&[[st1 m1] it1]&E1&(r1&->&Hl1&Hit1&Hc)).
  assert (Hd : ∀ l, Forall2 view_any (l :: drop (S ix) iters) (r1 :: pss') → Forall2 view_any (drop ix (<[ix := l]> iters)) (r1 :: pss')).
  { intros l Hl. by rewrite (drop_S _ l) by (rewrite list_lookup_insert_eq; [done|lia]); rewrite drop_insert_lt by lia. }
  assert (Estep : ∀ fuel, (N1 ≤ fuel)%nat → chain_loop (S fuel) size iters ix status out =
    if decide (size - length (out ++ m1) = 0)%nat then Some (st1, out ++ m1, OpChain (<[ix := it1]> iters) ix) else
    if decide (st1 = kNoData ∨ st1 = kUnavailable) then chain_loop fuel size (<[ix := it1]> iters) (ix + 1) st1 (out ++ m1)
    else if decide (st1 ≠ kOk) then Some (st1, out ++ m1, OpChain (<[ix := it1]> iters) ix)
    else chain_loop fuel size (<[ix := it1]> iters) ix st1 (out ++ m1)).
  { intros fuel Hfu. cbn [SBlock.chain_loop]. rewrite decide_False by done. rewrite Hit. cbn [mbind option_bind].
    by rewrite E1. }
  simpl length in Hm. rewrite length_app in Estep. simpl concat.
  destruct Hc as [(->&Hne&_)|(->&->&Hlt1)].
  - assert (0 < length m1)%nat by (destruct m1; [done|simpl; lia]).
    assert (Hf1 : Forall2 view_any (drop ix (<[ix := it1]> iters)) (r1 :: pss')) by (apply Hd; by constructor).
    destruct (decide (size - (length out + length m1) = 0)%nat) as [Hfull|Hroom].
    + exists (S N1), kOk, m1, (OpChain (<[ix := it1]> iters) ix), (r1 ++ concat pss').
      split_and!; [|by rewrite app_assoc|rewrite length_app; lia| |].
      * intros [|fuel] Hfu; [lia|]. by rewrite Estep by lia.
      * by exists (<[ix := it1]> iters), ix, (r1 :: pss').
      * left. split_and!; [done|by destruct out, m1|right; rewrite length_app; lia].
    + destruct (IH (<[ix := it1]> iters) ix (r1 :: pss') kOk (out ++ m1) Hf1) as (N2&st&more&op'&rest&E2&Er&Hl&Hop&Hc);
        [rewrite length_app; lia|rewrite length_insert; lia|rewrite length_app; simpl length; lia|].
      exists (S (Nat.max N1 N2)), st, (m1 ++ more), op', rest. rewrite app_assoc. split_and!; [|simpl in Er; by rewrite <- !app_assoc, Er|done|done|done].
      intros [|fuel] Hfu; [lia|]. rewrite Estep by lia. rewrite decide_False by (intros [?|?]; done).
      rewrite decide_False by (intros Hx; by apply Hx). apply E2. lia.
  - destruct (IH (<[ix := it1]> iters) (ix + 1)%nat pss' kNoData (out ++ m1)) as (N2&st&more&op'&rest&E2&Er&Hl&Hop&Hc);
      [by rewrite drop_insert_lt, Nat.add_1_r by lia|rewrite length_app; lia|done|rewrite length_app; lia|].
    exists (S (Nat.max N1 N2)), st, (m1 ++ more), op', rest. rewrite app_assoc, app_nil_r.
    split_and!; [|by rewrite <- app_assoc, Er|done|done|done].
    intros [|fuel] Hfu; [lia|]. rewrite Estep by lia. rewrite decide_False by lia. rewrite decide_True by (by left). apply E2. lia.
Qed.

Lemma reads_chain : reads view_chain.
Proof.
  intros op pts size (iters&ix&pss&->&Hf&->) Hsz.
  destruct (chain_loop_ok _ iters ix pss size kNoData [] Hf ltac:(simpl; lia) ltac:(done) (Nat.lt_succ_diag_r _))
    as (N&st&more&op'&rest&E&Ep&Hl&Hc).
  exists (S N), (st, more, op'). split; [|by exists rest].
  intros [|fuel] Hfu; [lia|]. apply E. lia.
Qed.

(** ** Reading to the end *)

Lemma drain_reads P op pts size :
  reads P → P op pts → (0 < size)%nat →
  ∃ N, ∀ rounds fuel, (N ≤ fuel)%nat → (length pts < rounds)%nat →
    drain impl at_ bstore rounds fuel size op = Some (pts, kNoData).
Proof.
  intros HP Hop Hsz. remember (length pts) as m eqn:Hm. revert op pts Hop Hm.
  induction m as [m IH] using lt_wf_ind. intros op pts Hop ->.
  destruct (HP op pts size Hop Hsz) as (N1&[[st out] op']&E&rest&->&Hl&Hop'&[(->&Hne&_)|(->&->&_)]).
  - assert (0 < length out)%nat by (destruct out; [done|simpl; lia]).
    destruct (IH (length rest) ltac:(rewrite length_app; lia) op' rest Hop' eq_refl) as (N2&E2).
    exists (Nat.max N1 N2). intros [|rounds] fuel Hf Hr; [lia|]. cbn [drain]. rewrite E by lia. cbn [mbind option_bind].
    rewrite decide_False by (intros Hx; by apply Hx). rewrite length_app in Hr. by rewrite E2 by lia.
  - exists N1. intros [|rounds] fuel Hf Hr; [lia|]. cbn [drain]. rewrite E by lia. cbn [mbind option_bind].
    rewrite app_nil_r. by rewrite decide_True.
Qed.

End Read.
