(* ===== verification/Extents.v ===== *)
(** * The tree: extents and the list of them (nbtree.cc)

    [NBTreeExtentsList] keeps one extent per level of the tree: a leaf that is
    being filled, and above it one inner node per level whose children are
    already on disk.  A node that is full is committed and a reference to it
    goes to the extent of the next level, which may be full in turn.  The
    rescue points hold the address of the last node that was committed at each
    level. *)
From S2P Require Import Prelude Status ByteStream Base128 VByte DataBlock DataBlockProof IOVec Blocks Volume Crc32c BlockStoreProof MemStore Double SubtreeRef Operator Leaf LeafIter Superblock TreeIter.

(** ** State *)

(** [NBTreeLeafExtent] and [NBTreeSBlockExtent]; the id, the store and the list
    they belong to are those of the list. *)
Record LeafExt := mkLeafExt {
  le_last : Z;           (* LogicAddr *)
  le_leaf : IOVecLeaf;
  le_fanout : Z;         (* u16 *)
}.

Record SBlockExt := mkSBlockExt {
  se_curr : IOVecSuperblock;
  se_last : Z;           (* LogicAddr *)
  se_fanout : Z;         (* u16 *)
  se_level : Z;          (* u16 *)
  se_killed : bool;
}.

Inductive NBTreeExtent :=
  | LeafExtent (e : LeafExt)
  | SBlockExtent (e : SBlockExt).

Inductive ExtentStatus := EXT_OK | EXT_NEW | KILLED_BY_RETENTION.
#[export] Instance ExtentStatus_eq_dec : EqDecision ExtentStatus.
Proof. solve_decision. Defined.

Inductive NBTreeAppendResult := OK | OK_FLUSH_NEEDED | FAIL_LATE_WRITE | FAIL_BAD_ID | FAIL_BAD_VALUE.
#[export] Instance NBTreeAppendResult_eq_dec : EqDecision NBTreeAppendResult.
Proof. solve_decision. Defined.

Inductive RepairStatus := REPAIR_OK | SKIP | REPAIR.

Record ExtentsList := mkList {
  el_extents : list NBTreeExtent;
  el_id : Z;
  el_last : Z;               (* Timestamp last_ *)
  el_rescue : list Z;        (* rescue_points_ *)
  el_initialized : bool;
  el_write_count : Z;        (* u64 *)
}.

Module Tree.

Definition set_extents (es : list NBTreeExtent) (l : ExtentsList) : ExtentsList :=
  mkList es (el_id l) (el_last l) (el_rescue l) (el_initialized l) (el_write_count l).
Definition set_extent (i : nat) (e : NBTreeExtent) (l : ExtentsList) : ExtentsList :=
  set_extents (<[i := e]> (el_extents l)) l.
Definition set_rescue (rs : list Z) (l : ExtentsList) : ExtentsList :=
  mkList (el_extents l) (el_id l) (el_last l) rs (el_initialized l) (el_write_count l).
Definition set_last (t : Z) (l : ExtentsList) : ExtentsList :=
  mkList (el_extents l) (el_id l) t (el_rescue l) (el_initialized l) (el_write_count l).
Definition set_initialized (b : bool) (l : ExtentsList) : ExtentsList :=
  mkList (el_extents l) (el_id l) (el_last l) (el_rescue l) b (el_write_count l).
Definition count_write (l : ExtentsList) : ExtentsList :=
  mkList (el_extents l) (el_id l) (el_last l) (el_rescue l) (el_initialized l) (u64 (el_write_count l + 1)).
(** [extents_.push_back(..); rescue_points_.push_back(EMPTY_ADDR)]. *)
Definition push_extent (e : NBTreeExtent) (l : ExtentsList) : ExtentsList :=
  set_rescue (el_rescue l ++ [EMPTY_ADDR]) (set_extents (el_extents l ++ [e]) l).

(** The constructor; a tree that is too deep is [LOG(FATAL)]. *)
Definition make (id : Z) (addresses : list Z) : option ExtentsList :=
  if decide (2 ^ 16 - 1 ≤ Z.of_nat (length addresses)) then None
  else Some (mkList [] id 0 addresses false 0).

Section Ops.
Context {B : Type} `{BlockStore B}.
Variables (impl : crc32c_impl_t) (at_ : nat → Z).

(** ** Extents *)

(** [fanout_index_] and [last_] after a node with index [fanout] was committed
    at [addr], or when the next node after it is made. *)
Definition next_link (fanout addr : Z) : Z * Z :=
  let fanout := u16 (fanout + 1) in
  if decide (fanout = NBTREE_FANOUT) then (0, EMPTY_ADDR) else (fanout, addr).

Definition reset_leaf (id last fanout : Z) : option LeafExt :=
  leaf ← Leaf.make id last fanout; Some (mkLeafExt last leaf fanout).

(** The constructor of [NBTreeLeafExtent]. *)
Definition make_leaf_extent (id last : Z) (bstore : B) : option LeafExt :=
  if decide (last = EMPTY_ADDR) then reset_leaf id last 0 else
  '(status, block) ← read_and_check impl (at_ 0) last bstore;
  if decide (status = kUnavailable) then reset_leaf id EMPTY_ADDR 0 else
  if decide (status ≠ kOk) then None else
  b ← block;
  psubtree ← get_header b;
  let '(fanout, last) := next_link (sr_fanout_index psubtree) last in
  reset_leaf id last fanout.

(** The constructor of [NBTreeSBlockExtent].  A node that is read from [addr]
    is copied; [last_] is the node before it. *)
Definition make_sblock_extent (id addr level : Z) (bstore : B) : option SBlockExt :=
  let fresh killed :=
    curr ← Super.make id EMPTY_ADDR 0 level; Some (mkSBlockExt curr EMPTY_ADDR 0 level killed) in
  if decide (addr = EMPTY_ADDR) then fresh false else
  '(status, block) ← read_and_check impl (at_ 0) addr bstore;
  if decide (status = kUnavailable) then fresh true else
  if decide (status ≠ kOk) then None else
  b ← block;
  psubtree ← get_header b;
  let fanout := u16 (sr_fanout_index psubtree + 1) in
  let fanout := if decide (fanout = NBTREE_FANOUT) then 0 else fanout in
  curr ← Super.copy_on_write impl (at_ 0) addr bstore false;
  Some (mkSBlockExt curr (sr_addr psubtree) fanout level false).

Definition ext_status (e : NBTreeExtent) : option ExtentStatus :=
  match e with
  | LeafExtent e => n ← Leaf.nelements (le_leaf e); Some (if decide (n = 0) then EXT_NEW else EXT_OK)
  | SBlockExtent e =>
    Some (if se_killed e then KILLED_BY_RETENTION
          else if decide (Super.nelements (se_curr e) = 0)%nat then EXT_NEW else EXT_OK)
  end.

Definition is_dirty (e : NBTreeExtent) : option bool :=
  match e with
  | LeafExtent e => n ← Leaf.nelements (le_leaf e); Some (bool_decide (n ≠ 0))
  | SBlockExtent e => Some (bool_decide (Super.nelements (se_curr e) ≠ 0%nat))
  end.

(** [search] and [filter] of an extent. *)
Definition ext_search (begin_ end_ : Z) (f : option ValueFilter) (e : NBTreeExtent) : option RealValuedOperator :=
  match e, f with
  | LeafExtent e, None => it ← LeafIter.make begin_ end_ (le_leaf e); Some (OpLeaf it)
  | LeafExtent e, Some f => it ← LeafFilterOp.make begin_ end_ f (le_leaf e); Some (OpLeafFilter it)
  | SBlockExtent e, f => s ← SBlock.of_node (se_curr e) begin_ end_ f; Some (OpSBlock s None)
  end.

(** [payload.addr = addr]. *)
Definition link (ref : SubtreeRef) (addr : Z) : SubtreeRef := Leaf.with_addr addr ref.

(** The extent at a level; [extents_[i]]. *)
Definition leaf_at (l : ExtentsList) : option LeafExt :=
  match el_extents l !! 0%nat with Some (LeafExtent e) => Some e | _ => None end.
Definition sblock_at (i : nat) (l : ExtentsList) : option SBlockExt :=
  match el_extents l !! i with Some (SBlockExtent e) => Some e | _ => None end.

(** ** Appending a reference: [NBTreeExtentsList::append(SubtreeRef)],
    [NBTreeSBlockExtent::append] and [NBTreeSBlockExtent::commit]

    They call each other up the levels; each call takes a unit of fuel.  An
    error of the store is [LOG(FATAL)]. *)

(** The part of [commit] before the parent is told. *)
Definition save_sblock (i : nat) (l : ExtentsList) (bstore : B) : option (SubtreeRef * Z * ExtentsList * B) :=
  e ← sblock_at i l;
  '(status, addr, curr, bstore) ← Super.commit impl (at_ 0) (se_curr e) bstore;
  if decide (status ≠ kOk) then None else
  '(status, payload) ← Super.init_subtree_from_subtree curr INIT_SUBTREE_REF;
  if decide (status ≠ kOk) then None else
  Some (link payload addr, addr,
        set_extent i (SBlockExtent (mkSBlockExt curr (se_last e) (se_fanout e) (se_level e) (se_killed e))) l, bstore).

(** The part after it. *)
Definition renew_sblock (i : nat) (addr : Z) (l : ExtentsList) : option ExtentsList :=
  e ← sblock_at i l;
  let '(fanout, last) := next_link (se_fanout e) addr in
  curr ← Super.make (el_id l) last fanout (se_level e);
  Some (set_extent i (SBlockExtent (mkSBlockExt curr last fanout (se_level e) (se_killed e))) l).

(** The rescue point of a level. *)
Definition save_point (lvl : nat) (addr : Z) (l : ExtentsList) : option ExtentsList :=
  if decide (lvl < length (el_rescue l))%nat then Some (set_rescue (<[lvl := addr]> (el_rescue l)) l)
  else if decide (length (el_rescue l) = lvl) then Some (set_rescue (el_rescue l ++ [addr]) l)
  else None.

Fixpoint append_ref (fuel : nat) (pl : SubtreeRef) (l : ExtentsList) (bstore : B) {struct fuel}
    : option (bool * ExtentsList * B) :=
  match fuel with
  | O => None
  | S fuel =>
    let lvl := Z.to_nat (u16 (sr_level pl + 1)) in
    l ← (if decide (lvl < length (el_extents l))%nat then Some l
         else if decide (length (el_extents l) = lvl) then
           e ← make_sblock_extent (el_id l) EMPTY_ADDR (Z.of_nat lvl) bstore; Some (push_extent (SBlockExtent e) l)
         else None);
    '(parent_saved, addr, l, bstore) ← extent_append fuel lvl pl (count_write l) bstore;
    if decide (addr ≠ EMPTY_ADDR) then l ← save_point lvl addr l; Some (true, l, bstore)
    else Some (false, l, bstore)
  end
with extent_append (fuel i : nat) (pl : SubtreeRef) (l : ExtentsList) (bstore : B) {struct fuel}
    : option (bool * Z * ExtentsList * B) :=
  match fuel with
  | O => None
  | S fuel =>
    match el_extents l !! i with
    | None => None
    | Some (LeafExtent _) => Some (false, 0, l, bstore)   (* a value-initialised tuple *)
    | Some (SBlockExtent e) =>
      '(status, curr) ← Super.append pl (se_curr e);
      let l := set_extent i (SBlockExtent (mkSBlockExt curr (se_last e) (se_fanout e) (se_level e) (se_killed e))) l in
      if decide (status = kOverflow) then
        '(payload, addr, l, bstore) ← save_sblock i l bstore;
        '(parent_saved, l, bstore) ← append_ref fuel payload l bstore;
        l ← renew_sblock i addr l;
        '(_, _, l, bstore) ← extent_append fuel i pl l bstore;
        Some (parent_saved, addr, l, bstore)
      else Some (false, EMPTY_ADDR, l, bstore)
    end
  end.

(** [roots_collection->append] in [commit]; [close] makes no new root. *)
Definition tell_parent (fuel : nat) (final : bool) (payload : SubtreeRef) (l : ExtentsList) (bstore : B)
    : option (bool * ExtentsList * B) :=
  if decide (final = false ∨ sr_level payload + 1 < Z.of_nat (length (el_rescue l)))
  then append_ref fuel payload l bstore else Some (false, l, bstore).

Definition sblock_commit (fuel i : nat) (final : bool) (l : ExtentsList) (bstore : B)
    : option (bool * Z * ExtentsList * B) :=
  '(payload, addr, l, bstore) ← save_sblock i l bstore;
  '(parent_saved, l, bstore) ← tell_parent fuel final payload l bstore;
  l ← renew_sblock i addr l;
  Some (parent_saved, addr, l, bstore).

(** ** The leaf: [NBTreeLeafExtent::append] and [::commit] *)

Definition save_leaf (l : ExtentsList) (bstore : B) : option (SubtreeRef * Z * ExtentsList * B) :=
  e ← leaf_at l;
  '(status, addr, leaf, bstore) ← Leaf.commit impl at_ (le_leaf e) bstore;
  if decide (status ≠ kOk) then None else
  '(status, payload) ← Leaf.init_subtree_from_leaf leaf;
  if decide (status ≠ kOk) then None else
  payload ← payload;
  Some (link payload addr, addr, set_extent 0 (LeafExtent (mkLeafExt (le_last e) leaf (le_fanout e))) l, bstore).

Definition renew_leaf (addr : Z) (l : ExtentsList) : option ExtentsList :=
  e ← leaf_at l;
  let '(fanout, last) := next_link (le_fanout e) addr in
  e ← reset_leaf (el_id l) last fanout;
  Some (set_extent 0 (LeafExtent e) l).

Definition leaf_commit (fuel : nat) (final : bool) (l : ExtentsList) (bstore : B)
    : option (bool * Z * ExtentsList * B) :=
  '(payload, addr, l, bstore) ← save_leaf l bstore;
  '(parent_saved, l, bstore) ← tell_parent fuel final payload l bstore;
  l ← renew_leaf addr l;
  Some (parent_saved, addr, l, bstore).

(** A status other than [Overflow] is not looked at. *)
Fixpoint leaf_append (fuel : nat) (ts value : Z) (l : ExtentsList) (bstore : B)
    : option (bool * Z * ExtentsList * B) :=
  match fuel with
  | O => None
  | S fuel =>
    e ← leaf_at l;
    '(status, leaf) ← Leaf.append ts value (le_leaf e);
    let l := set_extent 0 (LeafExtent (mkLeafExt (le_last e) leaf (le_fanout e))) l in
    if decide (status = kOverflow) then
      '(parent_saved, addr, l, bstore) ← leaf_commit fuel false l bstore;
      '(_, _, l, bstore) ← leaf_append fuel ts value l bstore;
      Some (parent_saved, addr, l, bstore)
    else Some (false, EMPTY_ADDR, l, bstore)
  end.

(** ** Queries *)

Fixpoint ext_searches (begin_ end_ : Z) (f : option ValueFilter) (es : list NBTreeExtent)
    : option (list RealValuedOperator) :=
  match es with
  | [] => Some []
  | e :: es => op ← ext_search begin_ end_ f e; ops ← ext_searches begin_ end_ f es; Some (op :: ops)
  end.

(** [search] and [filter] of a list that is initialized. *)
Definition search (begin_ end_ : Z) (f : option ValueFilter) (l : ExtentsList) : option RealValuedOperator :=
  match el_extents l with
  | [] => Some (OpEmpty begin_ end_)
  | es =>
    ops ← ext_searches begin_ end_ f (if decide (begin_ < end_) then reverse es else es);
    match ops with
    | [op] => Some op
    | _ => Some (OpChain ops 0)
    end
  end.

(** ** Opening *)

(** [repair_status]. *)
Definition repair_status (rescue_points : list Z) : RepairStatus :=
  let count := Z.of_nat (length rescue_points)
               - Z.of_nat (length (filter (λ a, a = EMPTY_ADDR) rescue_points)) in
  if decide (count = 1 ∧ last rescue_points ≠ Some EMPTY_ADDR) then REPAIR_OK else REPAIR.

(** The inner nodes between the leaf and the root are new. *)
Fixpoint make_inner (id : Z) (n lvl : nat) (bstore : B) : option (list NBTreeExtent) :=
  match n with
  | O => Some []
  | S n =>
    e ← make_sblock_extent id EMPTY_ADDR (Z.of_nat lvl) bstore;
    es ← make_inner id n (S lvl) bstore;
    Some (SBlockExtent e :: es)
  end.

(** Extents at the end of the list that retention has removed. *)
Fixpoint count_killed (es : list NBTreeExtent) : option nat :=
  match es with
  | [] => Some 0%nat
  | e :: es =>
    st ← ext_status e;
    if decide (st = KILLED_BY_RETENTION) then n ← count_killed es; Some (S n) else Some 0%nat
  end.

(** [Restore `last_`]: the latest point of the root. *)
Definition restore_last (fuel : nat) (l : ExtentsList) (bstore : B) : option ExtentsList :=
  match last (el_extents l) with
  | None => Some l
  | Some e =>
    op ← ext_search TS_MAX 0 None e;
    '(status, out, _) ← SBlock.read impl (at_ 0) bstore fuel 1 op;
    if decide (status ≠ kOk) then Some (set_last 0 l) else
    x ← head out;
    Some (set_last x.1 l)
  end.

(** The end of [open], with its [assert]. *)
Definition open_finish (fuel : nat) (l : ExtentsList) (bstore : B) : option ExtentsList :=
  n ← count_killed (reverse (el_extents l));
  let l := set_rescue (take (length (el_rescue l) - n) (el_rescue l))
             (set_extents (take (length (el_extents l) - n) (el_extents l)) l) in
  l ← restore_last fuel l bstore;
  if decide (length (el_rescue l) = length (el_extents l)) then Some l else None.

Definition open_ (fuel : nat) (l : ExtentsList) (bstore : B) : option ExtentsList :=
  if decide (length (el_rescue l) < 2)%nat then
    root ← make_sblock_extent (el_id l) EMPTY_ADDR 1 bstore;
    addr ← head (el_rescue l);
    '(status, block) ← read_and_check impl (at_ 0) addr bstore;
    if decide (status ≠ kOk) then
      leaf ← make_leaf_extent (el_id l) EMPTY_ADDR bstore;
      Some (set_initialized true (set_extents (el_extents l ++ [LeafExtent leaf]) l))
    else
      b ← block;
      leaf ← Leaf.load b;
      '(status, sref) ← Leaf.init_subtree_from_leaf leaf;
      if decide (status ≠ kOk) then None else
      sref ← sref;
      '(status, curr) ← Super.append (link sref addr) (se_curr root);
      if decide (status = kOverflow) then None else
      leaf ← make_leaf_extent (el_id l) addr bstore;
      let root := mkSBlockExt curr (se_last root) (se_fanout root) (se_level root) (se_killed root) in
      open_finish fuel (set_rescue (el_rescue l ++ [EMPTY_ADDR])
        (set_extents (el_extents l ++ [LeafExtent leaf; SBlockExtent root]) l)) bstore
  else
    let root_level := (length (el_rescue l) - 1)%nat in
    addr ← last (el_rescue l);
    root ← make_sblock_extent (el_id l) addr (u16 (Z.of_nat root_level)) bstore;
    leaf ← make_leaf_extent (el_id l) EMPTY_ADDR bstore;
    inner ← make_inner (el_id l) (root_level - 1) 1 bstore;
    open_finish fuel (set_extents (el_extents l ++ LeafExtent leaf :: inner ++ [SBlockExtent root]) l) bstore.

(** [create_empty_extents]. *)
Definition create_empty_extents (id : Z) (nlevels : nat) (bstore : B) : option (list NBTreeExtent) :=
  match nlevels with
  | O => Some []
  | S n =>
    leaf ← make_leaf_extent id EMPTY_ADDR bstore;
    inner ← make_inner id n 1 bstore;
    Some (LeafExtent leaf :: inner)
  end.

Fixpoint append_refs (fuel : nat) (refs : list SubtreeRef) (l : ExtentsList) (bstore : B)
    : option (ExtentsList * B) :=
  match refs with
  | [] => Some (l, bstore)
  | r :: refs => '(_, l, bstore) ← append_ref fuel r l bstore; append_refs fuel refs l bstore
  end.

(** The loop of [repair]; [stack] has its top first and [refs] its last element
    first.  A node that cannot be summarized is logged and used as it is. *)
Fixpoint repair_loop (rounds fuel : nat) (stack : list Z) (refs : list SubtreeRef) (l : ExtentsList) (bstore : B)
    : option (ExtentsList * B) :=
  match rounds with
  | O => None
  | S rounds =>
    match stack with
    | [] => Some (l, bstore)
    | curr :: stack =>
      if decide (curr = EMPTY_ADDR) then
        '(l, bstore) ← append_refs fuel refs l bstore;
        repair_loop rounds fuel stack [] l bstore
      else
        '(status, block) ← read_and_check impl (at_ 0) curr bstore;
        if decide (status ≠ kOk) then repair_loop rounds fuel (EMPTY_ADDR :: stack) refs l bstore else
        b ← block;
        h ← get_header b;
        if decide (sr_type h = LEAF) then
          leaf ← Leaf.load b;
          '(status, ref) ← Leaf.init_subtree_from_leaf leaf;
          let ref := default INIT_SUBTREE_REF ref in
          repair_loop rounds fuel (Leaf.get_prev_addr leaf :: stack) (link ref curr :: refs) l bstore
        else
          sblock ← Super.load b;
          '(status, ref) ← Super.init_subtree_from_subtree sblock INIT_SUBTREE_REF;
          repair_loop rounds fuel (Super.get_prev_addr sblock :: stack) (link ref curr :: refs) l bstore
    end
  end.

Definition repair (rounds fuel : nat) (l : ExtentsList) (bstore : B) : option (ExtentsList * B) :=
  es ← create_empty_extents (el_id l) (length (el_rescue l)) bstore;
  repair_loop rounds fuel (reverse (el_rescue l)) [] (set_extents (el_extents l ++ es) l) bstore.

Definition init (rounds fuel : nat) (l : ExtentsList) (bstore : B) : option (ExtentsList * B) :=
  let l := set_initialized true l in
  if decide (el_rescue l = []) then Some (l, bstore) else
  match repair_status (el_rescue l) with
  | REPAIR_OK => l ← open_ fuel l bstore; Some (l, bstore)
  | _ => repair rounds fuel l bstore
  end.

Definition force_init (rounds fuel : nat) (l : ExtentsList) (bstore : B) : option (ExtentsList * B) :=
  if el_initialized l then Some (l, bstore) else init rounds fuel l bstore.

(** [search] and [filter] of the list, which initialize it first. *)
Definition query (rounds fuel : nat) (begin_ end_ : Z) (f : option ValueFilter) (l : ExtentsList) (bstore : B)
    : option (RealValuedOperator * ExtentsList * B) :=
  '(l, bstore) ← force_init rounds fuel l bstore;
  op ← search begin_ end_ f l;
  Some (op, l, bstore).

(** ** Appending a point *)

Definition append_ready (fuel : nat) (ts value : Z) (allow_duplicate_timestamps : bool) (l : ExtentsList) (bstore : B)
    : option (NBTreeAppendResult * ExtentsList * B) :=
  if (if allow_duplicate_timestamps then bool_decide (ts < el_last l) else bool_decide (ts ≤ el_last l))
  then Some (FAIL_LATE_WRITE, l, bstore) else
  let l := count_write (set_last ts l) in
  l ← (if decide (el_extents l = []) then
         e ← make_leaf_extent (el_id l) EMPTY_ADDR bstore; Some (push_extent (LeafExtent e) l)
       else Some l);
  '(parent_saved, addr, l, bstore) ← leaf_append fuel ts value l bstore;
  if decide (addr ≠ EMPTY_ADDR) then
    l ← save_point 0 addr l; Some (OK_FLUSH_NEEDED, l, bstore)
  else Some (OK, l, bstore).

Definition append (rounds fuel : nat) (ts value : Z) (allow_duplicate_timestamps : bool) (l : ExtentsList) (bstore : B)
    : option (NBTreeAppendResult * ExtentsList * B) :=
  '(l, bstore) ← force_init rounds fuel l bstore;
  append_ready fuel ts value allow_duplicate_timestamps l bstore.

(** ** Closing *)

Definition ext_commit (fuel i : nat) (final : bool) (e : NBTreeExtent) (l : ExtentsList) (bstore : B)
    : option (bool * Z * ExtentsList * B) :=
  match e with
  | LeafExtent _ => leaf_commit fuel final l bstore
  | SBlockExtent _ => sblock_commit fuel i final l bstore
  end.

(** The loop over the extents, [n] of them from [index] on. *)
Fixpoint close_loop (n fuel index : nat) (res : bool * Z) (l : ExtentsList) (bstore : B)
    : option (bool * Z * ExtentsList * B) :=
  match n with
  | O => None
  | S n =>
    if decide (length (el_extents l) ≤ index)%nat then Some (res.1, res.2, l, bstore) else
    e ← el_extents l !! index;
    dirty ← is_dirty e;
    if dirty : bool then
      '(parent_saved, addr, l, bstore) ← ext_commit fuel index true e l bstore;
      close_loop n fuel (index + 1) (parent_saved, addr) l bstore
    else close_loop n fuel (index + 1) res l bstore
  end.

(** [result.back() = addr]. *)
Definition set_back (addr : Z) (rs : list Z) : option (list Z) :=
  if decide (rs = []) then None else Some (<[(length rs - 1)%nat := addr]> rs).

Definition close (n fuel : nat) (l : ExtentsList) (bstore : B) : option (list Z * ExtentsList * B) :=
  '(l, bstore) ←
    (if el_initialized l then
       if decide (el_write_count l ≠ 0) then
         '(parent_saved, addr, l, bstore) ← close_loop n fuel 0 (false, EMPTY_ADDR) l bstore;
         if parent_saved : bool then None else
         result ← set_back addr (replicate (length (el_rescue l)) EMPTY_ADDR);
         Some (set_rescue result l, bstore)
       else if decide (length (el_rescue l) = 2%nat ∧ last (el_rescue l) = Some EMPTY_ADDR)
       then Some (set_rescue (take 1 (el_rescue l)) l, bstore)
       else Some (l, bstore)
     else Some (l, bstore));
  let l := set_initialized false (set_extents [] l) in
  Some (el_rescue l, l, bstore).

(** [get_roots], [_get_uncommitted_size]. *)
Definition get_roots (l : ExtentsList) : list Z := el_rescue l.
Definition get_uncommitted_size (l : ExtentsList) : option Z :=
  if decide (el_extents l = []) then Some 0 else e ← leaf_at l; Leaf.get_uncommitted_size (le_leaf e).
Definition bytes_used (l : ExtentsList) : nat * nat :=
  (match leaf_at l with Some e => Leaf.bytes_used (le_leaf e) | None => 0%nat end,
   if decide (1 < length (el_extents l))%nat then (0x1000 * (length (el_extents l) - 1))%nat else 0%nat).

End Ops.
End Tree.
