(* ===== verification/Content.v ===== *)
(** * What a subtree holds

    [tree id hist n ref ps]: the blocks of the history [hist] below the
    reference [ref] form a subtree of height [n] that holds the pieces [ps], one
    per leaf: the addresses of the blocks on the way to it, and its points.
    What the metadata of [ref] says of them is [describes]. *)
From stdpp Require Import sorting.
From S2P Require Import Prelude Status ByteStream Base128 VByte DataBlock DataBlockProof IOVec Blocks Volume Crc32c BlockStoreProof MemStore Double SubtreeRef Operator Leaf LeafIter Superblock TreeIter TreeRead.

(** ** Pieces *)

Notation piece := (list Z * list point)%type.

Definition points (ps : list piece) : list point := concat (ps.*2).
Definition under (addr : Z) (ps : list piece) : list piece := (λ p, (addr :: p.1, p.2)) <$> ps.

(** The points in leaves all of whose blocks are still there. *)
Definition shown (ex : Z → bool) (ps : list piece) : list point :=
  points (filter (λ p, Forall (λ a, ex a = true) p.1) ps).

Lemma points_app ps1 ps2 : points (ps1 ++ ps2) = points ps1 ++ points ps2.
Proof. unfold points. by rewrite fmap_app, concat_app. Qed.
Lemma points_concat pss : points (concat pss) = concat (points <$> pss).
Proof. induction pss as [|ps pss IH]; [done|]. simpl. by rewrite points_app, IH. Qed.
Lemma points_under addr ps : points (under addr ps) = points ps.
Proof. unfold points, under. rewrite <- list_fmap_compose. done. Qed.

Lemma shown_app ex ps1 ps2 : shown ex (ps1 ++ ps2) = shown ex ps1 ++ shown ex ps2.
Proof. unfold shown. by rewrite filter_app, points_app. Qed.
Lemma shown_concat ex pss : shown ex (concat pss) = concat (shown ex <$> pss).
Proof. induction pss as [|ps pss IH]; [done|]. simpl. by rewrite shown_app, IH. Qed.
Lemma shown_sub ex ps x : x ∈ shown ex ps → x ∈ points ps.
Proof.
  unfold shown, points. rewrite !list_elem_of_In, !in_concat. intros (l&Hl&Hx). exists l. split; [|done].
  rewrite <- list_elem_of_In, list_elem_of_fmap in *. destruct Hl as (p&->&[_ Hp]%list_elem_of_filter). eauto.
Qed.
Lemma filter_all {A} (P : A → Prop) `{∀ x, Decision (P x)} l : Forall P l → filter P l = l.
Proof. induction 1 as [|x l Hx _ IH]; [done|]. by rewrite filter_cons_True, IH. Qed.
Lemma shown_all ex ps : Forall (λ p, Forall (λ a, ex a = true) p.1) ps → shown ex ps = points ps.
Proof. intros Hf. unfold shown. by rewrite filter_all. Qed.
Lemma shown_under ex addr ps : shown ex (under addr ps) = if ex addr then shown ex ps else [].
Proof.
  unfold shown, under. induction ps as [|p ps IH]; [by destruct (ex addr)|].
  rewrite fmap_cons, !filter_cons. simpl. destruct (ex addr) eqn:Ea.
  - destruct (decide (Forall (λ a, ex a = true) p.1)).
    + rewrite decide_True by (by constructor). unfold points in *. rewrite !fmap_cons. cbn [concat snd]. by rewrite IH.
    + rewrite decide_False by (by intros [_ ?]%Forall_cons). exact IH.
  - rewrite decide_False by (intros [? _]%Forall_cons; congruence). exact IH.
Qed.

(** ** What the metadata says *)

Record describes (ref : SubtreeRef) (pts : list point) : Prop := {
  de_count : sr_count ref = u64 (Z.of_nat (length pts));
  de_begin x : head pts = Some x → sr_begin ref = x.1 ∧ sr_first ref = x.2;
  de_end x : last pts = Some x → sr_end ref = x.1 ∧ sr_last ref = x.2;
  de_nan : is_nan (sr_min ref) = false ∧ is_nan (sr_max ref) = false;
  de_value x : x ∈ pts → is_nan x.2 = false ∧ rank (sr_min ref) ≤ rank x.2 ≤ rank (sr_max ref);
  de_sum : adds (pts.*2) (sr_sum ref);
  de_min_time : ∃ t0, (sr_min ref, sr_min_time ref) = foldl Agg.min_step (DBL_MAX, t0) pts;
  de_max_time : ∃ t0, (sr_max ref, sr_max_time ref) = foldl Agg.max_step (DBL_LOWEST, t0) pts;
}.

Lemma describes_leaf h pts :
  summarises h pts → ref_ok h → Forall (λ x, finite x.2) pts → describes h pts.
Proof.
  intros Hs Hr Hf. constructor; try by destruct Hs.
  - rewrite (su_count _ _ Hs), u64_id; [done|]. rewrite <- (su_count _ _ Hs).
    apply ref_ok_fields in Hr. rewrite !Forall_cons in Hr. tauto.
  - intros x Hx. split; [apply finite_not_nan; by eapply Forall_forall in Hf|].
    split; [by apply (su_min _ _ Hs)|by apply (su_max _ _ Hs)].
  - rewrite (su_sum _ _ Hs). apply (adds_foldl _ []), adds_nil.
  - eexists. apply (su_min_time _ _ Hs).
  - eexists. apply (su_max_time _ _ Hs).
Qed.

Lemma describes_same r h pts :
  describes h pts → sr_count r = sr_count h → sr_begin r = sr_begin h → sr_end r = sr_end h →
  sr_first r = sr_first h → sr_last r = sr_last h → sr_min r = sr_min h → sr_max r = sr_max h →
  sr_sum r = sr_sum h → sr_min_time r = sr_min_time h → sr_max_time r = sr_max_time h → describes r pts.
Proof.
  intros [] E1 E2 E3 E4 E5 E6 E7 E8 E9 E10. constructor;
    rewrite ?E1, ?E2, ?E3, ?E4, ?E5, ?E6, ?E7, ?E8, ?E9, ?E10; eauto.
Qed.

Lemma fold_count refs (pts : list (list point)) n :
  Forall2 (λ r p, sr_count r = u64 (Z.of_nat (length p))) refs pts →
  foldl (λ c r, u64 (c + sr_count r)) (u64 n) refs = u64 (n + Z.of_nat (length (concat pts))).
Proof.
  intros Hf. revert n. induction Hf as [|r p refs pts Hr _ IH]; intros n; simpl; [by rewrite Z.add_0_r|].
  rewrite Hr. replace (u64 (u64 n + _)) with (u64 (n + Z.of_nat (length p))) by (unfold u64; by rewrite Zplus_mod).
  rewrite IH, length_app. f_equal. lia.
Qed.

Lemma head_concat (l : list point) (ls : list (list point)) : l ≠ [] → head (concat (l :: ls)) = head l.
Proof. by destruct l. Qed.
Lemma last_concat (l : list point) (ls : list (list point)) : l ≠ [] → last (concat (ls ++ [l])) = last l.
Proof.
  intros Hl. rewrite concat_app. simpl. rewrite app_nil_r, last_app. by destruct (last l) eqn:E; [|apply last_None in E].
Qed.

Lemma adds_children refs (pts : list (list point)) l0 s :
  Forall2 (λ r p, adds (p.*2) (sr_sum r)) refs pts → adds l0 s →
  adds (l0 ++ (concat pts).*2) (foldl (λ x r, dadd x (sr_sum r)) s refs).
Proof.
  intros Hf. revert l0 s. induction Hf as [|r p refs pts Hr _ IH]; intros l0 s Hs; simpl; [by rewrite app_nil_r|].
  rewrite fmap_app, app_assoc. apply IH. by apply adds_app.
Qed.

(** The extrema of the children are those of their points. *)
Lemma min_children refs (pts : list (list point)) s :
  Forall2 describes refs pts → is_nan s.1 = false → rank s.1 ≤ rank DBL_MAX →
  foldl Agg.min_step s ((λ r, (sr_min_time r, sr_min r)) <$> refs) = foldl Agg.min_step s (concat pts).
Proof.
  intros Hf. revert s. induction Hf as [|r p refs pts Hr _ IH]; intros s Hs Hm; [done|].
  simpl. rewrite foldl_app. destruct (de_min_time _ _ Hr) as [t0 E].
  assert (Hp : Forall (λ x : point, is_nan x.2 = false) p) by (apply Forall_forall; intros x Hx; by apply (de_value _ _ Hr)).
  rewrite (Agg.min_step_run p _ _ _ t0) by done. destruct (Agg.min_fold_le p s Hs Hp). apply IH; [done|lia].
Qed.
Lemma max_children refs (pts : list (list point)) s :
  Forall2 describes refs pts → is_nan s.1 = false → rank DBL_LOWEST ≤ rank s.1 →
  foldl Agg.max_step s ((λ r, (sr_max_time r, sr_max r)) <$> refs) = foldl Agg.max_step s (concat pts).
Proof.
  intros Hf. revert s. induction Hf as [|r p refs pts Hr _ IH]; intros s Hs Hm; [done|].
  simpl. rewrite foldl_app. destruct (de_max_time _ _ Hr) as [t0 E].
  assert (Hp : Forall (λ x : point, is_nan x.2 = false) p) by (apply Forall_forall; intros x Hx; by apply (de_value _ _ Hr)).
  rewrite (Agg.max_step_run p _ _ _ t0) by done. destruct (Agg.max_fold_ge p s Hs Hp). apply IH; [done|lia].
Qed.

Lemma describes_inner h refs pts :
  covers h refs → Forall2 describes refs pts → Forall (λ p, p ≠ []) pts → refs ≠ [] → describes h (concat pts).
Proof.
  intros Hc Hd Hne Hr.
  assert (Hn1 : Forall (λ r, is_nan (sr_min r) = false) refs ∧ Forall (λ r, is_nan (sr_max r) = false) refs).
  { split; (eapply Forall2_Forall_l; [exact Hd|]); apply Forall_true; intros p r Hx; apply (de_nan _ _ Hx). }
  destruct Hn1 as [Hn1 Hn2]. constructor.
  - rewrite (cv_count _ _ Hc). change 0 with (u64 0) at 1. rewrite (fold_count refs pts 0); [done|].
    eapply Forall2_impl; [exact Hd|]. intros r p Hx. apply (de_count _ _ Hx).
  - intros x Hx. destruct Hd as [|r p refs pts Hrp _]; [done|]. apply Forall_cons in Hne as [Hp _].
    rewrite head_concat in Hx by done. destruct (cv_begin _ _ Hc r eq_refl) as [-> ->]. by apply (de_begin _ _ Hrp).
  - intros x Hx. destruct (last refs) as [r|] eqn:El; [|by apply last_None in El].
    destruct (cv_end _ _ Hc r El) as [-> ->]. apply last_Some in El as (refs'&->).
    apply Forall2_app_inv_l in Hd as (pts1&pts2&_&Hd&->). apply Forall2_cons_inv_l in Hd as (p&?&Hrp&->%Forall2_nil_inv_l&->).
    apply Forall_app in Hne as [_ [Hp _]%Forall_cons]. rewrite last_concat in Hx by done. by apply (de_end _ _ Hrp).
  - by apply (cv_nan _ _ Hc).
  - intros x (p&Hx&Hp)%list_elem_of_In%in_concat. apply list_elem_of_In in Hx, Hp.
    apply list_elem_of_lookup in Hx as [i Hi]. destruct (Forall2_lookup_r _ _ _ _ _ Hd Hi) as (r&Hri&Hrp).
    destruct (de_value _ _ Hrp x Hp) as [? ?]. split; [done|].
    pose proof (cv_min _ _ Hc r (list_elem_of_lookup_2 _ _ _ Hri) Hn1).
    pose proof (cv_max _ _ Hc r (list_elem_of_lookup_2 _ _ _ Hri) Hn2). lia.
  - rewrite (cv_sum _ _ Hc). apply (adds_children refs pts []); [|apply adds_nil].
    eapply Forall2_impl; [exact Hd|]. intros r p Hx. apply (de_sum _ _ Hx).
  - exists 0. rewrite (cv_min_time _ _ Hc). by apply min_children.
  - exists 0. rewrite (cv_max_time _ _ Hc). by apply max_children.
Qed.

Lemma describes_times ref pts x :
  describes ref pts → ts_sorted pts → x ∈ pts → sr_begin ref ≤ x.1 ≤ sr_end ref.
Proof.
  intros Hd Hs Hx. destruct pts as [|y pts]; [by apply not_elem_of_nil in Hx|].
  destruct (de_begin _ _ Hd y eq_refl) as [-> _]. apply StronglySorted_cons in Hs as Hs'. destruct Hs' as [Hy _].
  rewrite Forall_forall in Hy. split; [apply elem_of_cons in Hx as [->|Hx]; [lia|by apply Hy]|].
  destruct (last (y :: pts)) as [z|] eqn:El; [|by apply last_None in El].
  destruct (de_end _ _ Hd z El) as [-> _]. apply last_Some in El as (q&Eq). rewrite Eq in Hs, Hx.
  apply elem_of_app in Hx as [Hx|Hx%list_elem_of_singleton]; [|by subst].
  by apply (StronglySorted_app_1_elem_of (λ x y : point, x.1 ≤ y.1) q [z]); [..|set_solver].
Qed.

(** ** Subtrees *)

(** What the metadata in the block of a node says of the node. *)
Definition node_meta (id : Z) (n : nat) (h : SubtreeRef) : Prop :=
  sr_level h = Z.of_nat n ∧ 0 ≤ sr_fanout_index h < 32 ∧ (n ≠ 0%nat → sr_id h = id).

Fixpoint tree (id : Z) (hist : gmap Z (list Z)) (n : nat) (ref : SubtreeRef) (ps : list piece) : Prop :=
  ref_ok ref ∧ ts_sorted (points ps) ∧ points ps ≠ [] ∧ describes ref (points ps) ∧ sr_level ref = Z.of_nat n ∧
  ∃ img h, hist !! sr_addr ref = Some img ∧ sr_type h = sr_type ref ∧ node_meta id n h ∧
  match n with
  | O => sr_type ref = LEAF ∧ ∃ pts, leaf_image id h pts img ∧ summarises h pts ∧ Forall (λ x, finite x.2) pts ∧
      ps = [([sr_addr ref], pts)]
  | S n => sr_type ref = INNER ∧ ∃ refs pss, super_image h refs img ∧ Forall is_u8 img ∧ sr_addr h ≠ 0 ∧ refs ≠ [] ∧
      Forall2 (tree id hist n) refs pss ∧ ps = under (sr_addr ref) (concat pss)
  end.

Lemma tree_common id hist n ref ps :
  tree id hist n ref ps →
  ref_ok ref ∧ ts_sorted (points ps) ∧ points ps ≠ [] ∧ describes ref (points ps) ∧ sr_level ref = Z.of_nat n ∧
  is_Some (hist !! sr_addr ref).
Proof. destruct n; intros (?&?&?&?&?&img&h&?&_); by split_and!. Qed.

Lemma tree_mono id hist hist' n ref ps : hist ⊆ hist' → tree id hist n ref ps → tree id hist' n ref ps.
Proof.
  intros Hsub. revert ref ps. induction n as [|n IH]; intros ref ps (?&?&?&?&?&img&h&Hi&Ht&Hnm&Hrest).
  - split_and!; try done. exists img, h. split; [by eapply lookup_weaken|]. by split.
  - destruct Hrest as (?&refs&pss&?&?&?&?&Hf&->). split_and!; try done. exists img, h.
    split; [by eapply lookup_weaken|]. split; [done|]. split; [done|]. split; [done|]. exists refs, pss.
    split_and!; try done. eapply Forall2_impl; [exact Hf|]. intros; by apply IH.
Qed.

(** ** Ranges of a concatenation *)

Lemma range_points_in b e pts x : x ∈ range_points b e pts → x ∈ pts.
Proof.
  unfold range_points. case_decide; rewrite ?elem_of_reverse; by intros [_ ?]%list_elem_of_filter.
Qed.

Lemma range_none b e pts :
  (∀ x, x ∈ pts → ¬ (Z.min b e ≤ x.1 ∧ x.1 ≤ Z.max b e)) → range_points b e pts = [].
Proof.
  intros Hx. unfold range_points. case_decide; [|change [] with (reverse (@nil point)); f_equal];
    apply filter_none, Forall_forall; intros x Hin; specialize (Hx x Hin); lia.
Qed.

(** The order in which a query visits the parts. *)
Definition visit {A} (b e : Z) (l : list A) : list A := if decide (b < e) then l else reverse l.

Lemma range_concat b e (l : list (list point)) :
  range_points b e (concat l) = concat (range_points b e <$> visit b e l).
Proof.
  unfold range_points, visit. case_decide.
  - induction l as [|x l IH]; [done|]. simpl. by rewrite filter_app, IH.
  - induction l as [|x l IH]; [done|]. simpl concat at 1. rewrite filter_app, reverse_app, reverse_cons.
    rewrite fmap_app, concat_app. simpl. by rewrite app_nil_r, IH.
Qed.

(** What a query with a filter should return. *)
Definition select (f : option ValueFilter) (b e : Z) (pts : list point) : list point :=
  match f with
  | None => range_points b e pts
  | Some f => LeafFilterOp.matching f (range_points b e pts)
  end.

Lemma select_in f b e pts x : x ∈ select f b e pts → x ∈ pts.
Proof.
  destruct f; simpl; [|apply range_points_in]. unfold LeafFilterOp.matching.
  intros [_ ?]%list_elem_of_filter. by eapply range_points_in.
Qed.

Lemma select_empty f b e pts : range_points b e pts = [] → select f b e pts = [].
Proof. intros Hr. destruct f; simpl; by rewrite Hr. Qed.

Lemma select_concat f b e l : select f b e (concat l) = concat (select f b e <$> visit b e l).
Proof.
  destruct f; simpl; rewrite range_concat; [|done]. unfold LeafFilterOp.matching.
  induction (visit b e l) as [|x l' IH]; [done|]. rewrite !fmap_cons. cbn [concat]. by rewrite filter_app, IH.
Qed.

(** The queries that the operators answer exactly: all without a filter, and
    forward ones with a filter of at most one bound. *)
Definition exact_query (f : option ValueFilter) (b e : Z) : Prop :=
  match f with None => True | Some f => b < e ∧ (Filter.get_rank f < 2)%nat end.

Lemma select_full f b e ref pts all :
  Filter.get_overlap ref f = FULL_OVERLAP → describes ref all → (∀ x, x ∈ pts → x ∈ all) →
  select (Some f) b e pts = select None b e pts.
Proof.
  intros Ho Hd Hsub. simpl. unfold LeafFilterOp.matching. apply filter_all, Forall_forall.
  intros x Hx%range_points_in%Hsub. destruct (de_nan _ _ Hd), (de_value _ _ Hd x Hx) as [??].
  by eapply overlap_sound.
Qed.

Lemma select_no f b e ref pts all :
  Filter.get_overlap ref f = NO_OVERLAP → (Filter.get_rank f < 2)%nat → describes ref all →
  (∀ x, x ∈ pts → x ∈ all) → select (Some f) b e pts = [].
Proof.
  intros Ho Hk Hd Hsub. simpl. unfold LeafFilterOp.matching. apply filter_none, Forall_forall.
  intros x Hx%range_points_in%Hsub. destruct (de_nan _ _ Hd), (de_value _ _ Hd x Hx) as [? Hv].
  destruct (overlap_sound f ref x.2) as [_ Hn]; [done..|]. by rewrite Hn.
Qed.

(** ** Opening subtrees *)

Section Opens.
Context {B : Type} `{BlockStoreLaws B}.
Context (impl : crc32c_impl_t) `{!Crc32cImpl impl} (at_ : Z).
Variables (k : nat) (bstore : B) (hist : gmap Z (list Z)) (id : Z).
Hypotheses (Hstore : bs_inv k bstore hist) (Hid : is_u64 id).

Notation view := (view impl at_ bstore).
Notation opens := (opens impl at_ bstore).
Notation ex := (λ a, bs_exists a bstore).

Lemma read_leaf addr img h pts :
  hist !! addr = Some img → bs_exists addr bstore = true → leaf_image id h pts img →
  read_and_check impl at_ addr bstore = Some (kOk, Some (loaded img)).
Proof.
  intros Ha He Hi. unfold read_and_check. destruct (bs_read_ok _ _ _ _ _ Hstore Ha) as [[-> _]|[_ ?]]; [|congruence].
  cbn [mbind option_bind]. rewrite decide_False by (intros Hx; by apply Hx). by rewrite (leaf_image_checksum impl at_ _ _ _ _ Hi).
Qed.

Lemma read_super addr img h refs :
  hist !! addr = Some img → bs_exists addr bstore = true → super_image h refs img →
  read_and_check impl at_ addr bstore = Some (kOk, Some (loaded img)).
Proof.
  intros Ha He Hi. unfold read_and_check. destruct (bs_read_ok _ _ _ _ _ Hstore Ha) as [[-> _]|[_ ?]]; [|congruence].
  cbn [mbind option_bind]. rewrite decide_False by (intros Hx; by apply Hx). by rewrite (super_image_checksum impl at_ _ _ _ Hi).
Qed.

(** The operator over a leaf in memory or read. *)
Lemma leaf_view l h pts b e :
  leaf_reads l h pts → ts_sorted pts → pts ≠ [] →
  ∃ it, LeafIter.make b e l = Some it ∧ view 0 (OpLeaf it) (select None b e pts).
Proof.
  intros Hl Hs Hne. destruct (iter_init_ok l h pts b e Hl Hs Hne) as (it&E&_&_&Hr&_&Hst).
  exists it. split; [done|]. by split.
Qed.

Lemma leaf_filter_view l h pts b e f :
  leaf_reads l h pts → ts_sorted pts → pts ≠ [] → b < e →
  ∃ it, LeafFilterOp.make b e f l = Some it ∧ view 0 (OpLeafFilter it) (select (Some f) b e pts).
Proof.
  intros Hl Hs Hne Hbe. destruct (leaf_filter_make l h pts b e f Hl Hs Hne Hbe) as (it&E&Ep&Eb&Hst).
  exists it. split; [done|]. simpl. rewrite Ep, Eb in *. by split.
Qed.

Lemma leaf_opens ref ps s :
  tree id hist 0 ref ps → exact_query (si_filter s) (si_begin s) (si_end s) → bs_exists (sr_addr ref) bstore = true →
  ∃ op, SBlock.make_leaf_iterator impl at_ bstore ref s = Some (kOk, Some op) ∧
    view 0 op (select (si_filter s) (si_begin s) (si_end s) (shown ex ps)).
Proof.
  intros (Hr&Hs&Hne&Hd&_&img&h&Ha&Eth&_&Et&pts&Hi&Hsum&Hfin&->) Hq He.
  assert (Esh : shown ex [([sr_addr ref], pts)] = pts).
  { rewrite shown_all by (by repeat constructor). unfold points. simpl. by rewrite app_nil_r. }
  unfold points in Hs, Hne. simpl in Hs, Hne. rewrite app_nil_r in Hs, Hne. rewrite Esh.
  assert (Hrh : ref_ok h) by (by destruct Hi as (?&?&?&?&?&?&?&?&?&?&?)).
  pose proof (describes_leaf h pts Hsum Hrh Hfin) as Hdh.
  destruct (leaf_image_read _ _ _ _ Hi Hid) as (l&El&Eh&Er).
  assert (Hl : leaf_reads l h pts) by (by split_and!).
  unfold SBlock.make_leaf_iterator. rewrite decide_False by (rewrite Et; intros Hx; by apply Hx).
  rewrite (read_leaf _ _ _ _ Ha He Hi). cbn [mbind option_bind]. rewrite decide_False by (intros Hx; by apply Hx).
  rewrite (leaf_image_header _ _ _ _ Hi). cbn [mbind option_bind]. rewrite decide_False by (rewrite Eth; intros Hx; by apply Hx).
  unfold SBlock.leaf_operator. rewrite El. cbn [mbind option_bind].
  destruct (leaf_view l h pts (si_begin s) (si_end s) Hl Hs Hne) as (it&Eit&Hv).
  destruct (si_filter s) as [f|]; [|rewrite Eit; eauto]. destruct Hq as [Hbe Hk].
  destruct (Filter.get_overlap h f) eqn:Eo.
  - eexists. split; [done|]. by apply (select_no f _ _ h pts pts).
  - rewrite Eit. eexists. split; [done|]. by rewrite (select_full f _ _ h pts pts).
  - destruct (leaf_filter_view l h pts (si_begin s) (si_end s) f Hl Hs Hne Hbe) as (it'&->&Hv'). eauto.
Qed.

(** A child that is gone or out of range. *)
Lemma skipped_opens n ref ps s :
  tree id hist n ref ps →
  bs_exists (sr_addr ref) bstore = false ∨
  subtree_in_range ref (Z.min (si_begin s) (si_end s)) (Z.max (si_begin s) (si_end s)) = false →
  opens (view n) s ref (select (si_filter s) (si_begin s) (si_end s) (shown ex ps)).
Proof.
  intros Ht Hc. destruct (tree_common _ _ _ _ _ Ht) as (_&Hs&_&Hd&_). left. unfold SBlock.open_child.
  destruct (bs_exists (sr_addr ref) bstore) eqn:He; simpl.
  - destruct Hc as [?|Hc]; [done|]. rewrite Hc. exists kNotFound. split_and!; [done|by left|].
    apply select_empty, range_none. intros x Hx%shown_sub. pose proof (describes_times _ _ _ Hd Hs Hx).
    unfold subtree_in_range in Hc. rewrite negb_false_iff, orb_true_iff, !bool_decide_eq_true in Hc. lia.
  - exists kUnavailable. split_and!; [done|by right|]. apply select_empty.
    assert (shown ex ps = []) as ->; [|by unfold range_points; case_decide].
    destruct n; destruct Ht as (_&_&_&_&_&img&h&_&_&_&_&Ht).
    + destruct Ht as (pts&_&_&_&->). unfold shown. rewrite filter_cons_False; [done|]. simpl.
      rewrite Forall_singleton. congruence.
    + destruct Ht as (refs&pss&_&_&_&_&_&->). by rewrite shown_under, He.
Qed.

(** The operator over the children of a node, wherever they come from. *)
Lemma node_view n refs pss s :
  Forall2 (λ r p, opens (view n) s r (select (si_filter s) (si_begin s) (si_end s) (shown ex p))) refs pss →
  si_children s = refs → si_refs_pos s = SBlock.start_pos (si_begin s) (si_end s) refs → si_fsm_pos s ≠ 0 →
  view_node impl at_ bstore (view n) s None (select (si_filter s) (si_begin s) (si_end s) (shown ex (concat pss))).
Proof.
  intros Hf Ec Ep Hfsm. destruct s as [b e a ch fsm pos f]. simpl in *. subst ch pos.
  destruct (start_pending b e a refs fsm f) as [Hp Epend].
  exists [], (select f b e <$> (shown ex <$> visit b e pss)). split_and!; [done|done|done| |].
  - rewrite Epend. rewrite <- list_fmap_compose. apply Forall2_fmap_r. unfold visit. case_decide; [exact Hf|by apply Forall2_reverse].
  - rewrite shown_concat, select_concat. simpl. unfold visit. by case_decide; rewrite ?fmap_reverse.
Qed.

Lemma super_opens n ref ps b e f :
  (∀ ref ps s, tree id hist n ref ps → exact_query (si_filter s) (si_begin s) (si_end s) →
    opens (view n) s ref (select (si_filter s) (si_begin s) (si_end s) (shown ex ps))) →
  tree id hist (S n) ref ps → exact_query f b e → bs_exists (sr_addr ref) bstore = true →
  view (S n) (OpSBlock (SBlock.make (sr_addr ref) b e f) None) (select f b e (shown ex ps)).
Proof.
  intros IH (Hr&Hs&Hne&Hd&_&img&h&Ha&Eth&_&Et&refs&pss&Hi&_&Hn0&Hrne&Hf&->) Hq He.
  rewrite shown_under, He. simpl. split; [done|].
  destruct (super_image_read _ _ _ Hi Hn0) as (sb&El&_&Er&_).
  unfold SBlock.init. simpl. rewrite (read_super _ _ _ _ Ha He Hi). cbn [mbind option_bind].
  rewrite decide_False by (intros Hx; by apply Hx). rewrite El. cbn [mbind option_bind]. rewrite Er. cbn [mbind option_bind].
  eexists. split; [done|]. split; [done|].
  set (s := SBlock.set_fsm _ _).
  apply (node_view n refs pss s); [|done|done|done].
  eapply Forall2_impl; [exact Hf|]. intros r p Hrp. by apply (IH r p s).
Qed.

Lemma tree_opens n ref ps s :
  tree id hist n ref ps → exact_query (si_filter s) (si_begin s) (si_end s) →
  opens (view n) s ref (select (si_filter s) (si_begin s) (si_end s) (shown ex ps)).
Proof.
  revert ref ps s. induction n as [|n IH]; intros ref ps s Ht Hq;
    (destruct (bs_exists (sr_addr ref) bstore) eqn:He; [|by apply skipped_opens; eauto]);
    (destruct (subtree_in_range ref (Z.min (si_begin s) (si_end s)) (Z.max (si_begin s) (si_end s))) eqn:Hin;
      [|by apply skipped_opens; eauto]); right; unfold SBlock.open_child; rewrite He, Hin; simpl negb; cbn iota.
  - destruct (leaf_opens ref ps s Ht Hq He) as (op&E&Hv). exists op. split; [|done].
    destruct Ht as (_&_&_&_&_&img&h&_&_&_&Et&_). by rewrite decide_True.
  - pose proof Ht as (_&_&_&Hd&_&img&h&_&_&_&Et&_). rewrite decide_False by (by rewrite Et).
    assert (Hin' : ∀ x, x ∈ shown ex ps → x ∈ points ps) by (intros x; apply shown_sub).
    unfold SBlock.make_superblock_iterator. destruct (si_filter s) as [f|].
    + destruct Hq as [Hbe Hk]. destruct (Filter.get_overlap ref f) eqn:Eo; (eexists; split; [done|]).
      * simpl. by apply (select_no f _ _ ref _ (points ps)).
      * rewrite (select_full f _ _ ref _ (points ps)) by done. by apply super_opens.
      * by apply super_opens.
    + eexists. split; [done|]. by apply super_opens.
Qed.

End Opens.
