(* ===== verification/ExtentsProof.v ===== *)
(** * The cascade: appending references to the levels of the tree

    The invariant of the levels above the leaf, and the theorem about
    [NBTreeExtentsList::append(SubtreeRef)]: whatever is full on the way up is
    committed, and the points below the levels are the old ones followed by those
    of the new child.  With [lk] the invariant also says how the nodes of a
    level are linked, which crash recovery relies on. *)
From stdpp Require Import sorting.
From S2P Require Import Prelude Status ByteStream Base128 VByte DataBlock DataBlockProof IOVec Blocks Volume Crc32c BlockStoreProof MemStore Double SubtreeRef Operator Leaf LeafIter Superblock TreeIter TreeRead Extents Content.

(** ** References *)

Lemma ref_ok_link ref addr : ref_ok ref → is_u64 addr → ref_ok (Tree.link ref addr).
Proof.
  intros Hr Ha. rewrite ref_ok_fields in *. rewrite !Forall_cons in *. simpl.
  destruct Hr as ((?&?&?&?&?&?&?&?&?&?&?&?&_)&(?&?&?&?&?&_)&?). by split_and!.
Qed.

Lemma ref_addr_u64 ref : ref_ok ref → is_u64 (sr_addr ref).
Proof. intros Hr. rewrite ref_ok_fields, !Forall_cons in Hr. by destruct Hr as ((?&?&?&?&?&?&?&?&?&?&?&?&_)&_). Qed.

Lemma init_ref_ok : ref_ok INIT_SUBTREE_REF.
Proof. by_compute. Qed.

(** A child in memory: its reference and its pieces. *)
Notation child := (SubtreeRef * list piece)%type.

(** The link to the previous node in the block of a reference. *)
Definition prev_of (hist : gmap Z (list Z)) (ref : SubtreeRef) (a : Z) : Prop :=
  sr_addr ref ≠ EMPTY_ADDR ∧ ∃ img h, hist !! sr_addr ref = Some img ∧ get_header (loaded img) = Some h ∧ sr_addr h = a.

Definition tail_addr (cs : list child) : Z :=
  match last cs with Some c => sr_addr c.1 | None => EMPTY_ADDR end.

(** The children of a node are linked from the last to the first. *)
Inductive chained (hist : gmap Z (list Z)) : list child → Prop :=
  | chained_nil : chained hist []
  | chained_snoc cs c : chained hist cs → prev_of hist c.1 (tail_addr cs) → chained hist (cs ++ [c]).

(** The link that the next node after [cs] gets: a group of 32 starts anew. *)
Definition next_prev (cs : list child) : Z := if decide (length cs = 32)%nat then EMPTY_ADDR else tail_addr cs.
Definition next_fanout (cs : list child) : Z := Z.of_nat (length cs) mod 32.
Definition next_children (cs : list child) (c : child) : list child :=
  (if decide (length cs = 32)%nat then [] else cs) ++ [c].

Lemma prev_of_mono hist hist' ref a : hist ⊆ hist' → prev_of hist ref a → prev_of hist' ref a.
Proof. intros Hs (?&img&h&Hi&?). split; [done|]. exists img, h. split; [by eapply lookup_weaken|done]. Qed.
Lemma chained_mono hist hist' cs : hist ⊆ hist' → chained hist cs → chained hist' cs.
Proof. intros Hs. induction 1; constructor; [done|]. by eapply prev_of_mono. Qed.

Lemma chained_next hist cs c :
  chained hist cs → prev_of hist c.1 (next_prev cs) → chained hist (next_children cs c).
Proof. intros Hc Hp. unfold next_prev, next_children in *. case_decide; [|by constructor]. by apply (chained_snoc _ []); [constructor|]. Qed.

Lemma next_children_ne cs c : next_children cs c ≠ [].
Proof. unfold next_children. intros E. by apply app_nil in E as [_ ?]. Qed.

Lemma tail_next cs c : tail_addr (next_children cs c) = sr_addr c.1.
Proof. unfold tail_addr, next_children. by rewrite last_snoc. Qed.

(** The index and the link of a node and those of the next one agree. *)
Lemma next_link_ok cs c :
  (length cs ≤ 32)%nat →
  Tree.next_link (next_fanout cs) (sr_addr c.1) = (next_fanout (next_children cs c), next_prev (next_children cs c)).
Proof.
  intros Hl. unfold Tree.next_link, next_fanout, next_prev. rewrite tail_next. unfold NBTREE_FANOUT, next_children.
  rewrite !length_app. simpl length. destruct (decide (length cs = 32%nat)) as [->|Hne].
  - rewrite u16_id by (unfold is_u16; done). rewrite decide_False by done. rewrite decide_False by (simpl; lia). done.
  - rewrite (Z.mod_small (Z.of_nat (length cs))) by lia. rewrite u16_id by (unfold is_u16; lia).
    destruct (decide (length cs = 31)%nat) as [->|Hne2].
    + rewrite decide_True by done. rewrite decide_True by done. done.
    + rewrite decide_False by lia. rewrite decide_False by lia. rewrite Z.mod_small by lia. f_equal. lia.
Qed.

Lemma next_link_range fanout addr f a :
  0 ≤ fanout < 32 → Tree.next_link fanout addr = (f, a) → 0 ≤ f < 32 ∧ (a = addr ∨ a = EMPTY_ADDR).
Proof.
  intros Hf. unfold Tree.next_link, NBTREE_FANOUT. rewrite u16_id by (unfold is_u16; lia).
  case_decide; intros [= <- <-]; [split; [lia|by right]|split; [lia|by left]].
Qed.

(** ** The levels *)

Section Levels.
Variables (lk : bool) (id : Z).

Record inner_holds (hist : gmap Z (list Z)) (i : nat) (e : SBlockExt) (cs : list child) : Prop := {
  ih_node : ∃ h, super_inv (se_curr e) h (cs.*1);
  ih_children : Forall (λ c, tree id hist (i - 1) c.1 c.2) cs;
  ih_id : sb_id (se_curr e) = id;
  ih_level : sb_level (se_curr e) = Z.of_nat i ∧ se_level e = Z.of_nat i;
  ih_prev : is_u64 (sb_prev (se_curr e)) ∧ sb_prev (se_curr e) ≠ 0;
  ih_fanout : 0 ≤ sb_fanout (se_curr e) < 32 ∧ 0 ≤ se_fanout e < 32;
  ih_link : lk = true → sb_prev (se_curr e) = se_last e ∧ sb_fanout (se_curr e) = se_fanout e;
}.

(** An extent, its rescue point and the children of the extent above. *)
Definition link_ok (hist : gmap Z (list Z)) (fanout last r : Z) (up : list child) : Prop :=
  lk = true → fanout = next_fanout up ∧ last = next_prev up ∧ r = tail_addr up ∧ chained hist up.

Definition above (lv : list (list child)) : list child := default [] (head lv).

Fixpoint levels_ok (hist : gmap Z (list Z)) (i : nat) (es : list NBTreeExtent) (lv : list (list child))
    (rs : list Z) : Prop :=
  match es, lv, rs with
  | [], [], [] => True
  | SBlockExtent e :: es, cs :: lv, r :: rs =>
    inner_holds hist i e cs ∧ link_ok hist (se_fanout e) (se_last e) r (above lv) ∧ levels_ok hist (S i) es lv rs
  | _, _, _ => False
  end.

(** The points of the levels, from the top. *)
Definition level_pieces (cs : list child) : list piece := concat (cs.*2).
Fixpoint levels_pieces (lv : list (list child)) : list piece :=
  match lv with [] => [] | cs :: lv => levels_pieces lv ++ level_pieces cs end.

(** The number of children in memory, and the number of nodes of the lowest
    level that they stand for. *)
Definition kept (lv : list (list child)) : nat := sum_list (length <$> lv).
Fixpoint weight (lv : list (list child)) : Z :=
  match lv with [] => 0 | cs :: lv => Z.of_nat (length cs) + 32 * weight lv end.

Lemma kept_cons cs lv : kept (cs :: lv) = (length cs + kept lv)%nat.
Proof. done. Qed.

Lemma weight_nonneg lv : 0 ≤ weight lv.
Proof. induction lv; simpl; lia. Qed.

(** The highest level is not empty, so there are few levels. *)
Definition top_ok (lv : list (list child)) : Prop := ∀ cs, last lv = Some cs → cs ≠ [].

Lemma top_ok_tail cs lv : top_ok (cs :: lv) → top_ok lv.
Proof. intros Ht cs' Hl. apply Ht. simpl. destruct lv; [done|exact Hl]. Qed.
Lemma top_ok_cons cs lv : cs ≠ [] ∨ lv ≠ [] → top_ok lv → top_ok (cs :: lv).
Proof. intros Hc Ht cs' Hl. destruct lv as [|c lv]; [|by apply Ht]. injection Hl as <-. by destruct Hc. Qed.

Lemma top_weight cs lv : top_ok (cs :: lv) → 32 ^ Z.of_nat (length lv) ≤ weight (cs :: lv).
Proof.
  revert cs. induction lv as [|cs' lv IH]; intros cs Ht.
  - specialize (Ht cs eq_refl). destruct cs; [done|]. simpl. lia.
  - specialize (IH cs' (top_ok_tail _ _ Ht)). cbn [length]. rewrite Nat2Z.inj_succ, Z.pow_succ_r by lia.
    change (weight (cs :: cs' :: lv)) with (Z.of_nat (length cs) + 32 * weight (cs' :: lv)). lia.
Qed.

Lemma inner_mono hist hist' i e cs : hist ⊆ hist' → inner_holds hist i e cs → inner_holds hist' i e cs.
Proof.
  intros Hs []. constructor; try done. eapply Forall_impl; [done|]. intros c. by apply tree_mono.
Qed.
Lemma link_mono hist hist' f l r up : hist ⊆ hist' → link_ok hist f l r up → link_ok hist' f l r up.
Proof. intros Hs Hl Hk. destruct (Hl Hk) as (?&?&?&?). split_and!; try done. by eapply chained_mono. Qed.
Lemma levels_mono hist hist' i es lv rs : hist ⊆ hist' → levels_ok hist i es lv rs → levels_ok hist' i es lv rs.
Proof.
  intros Hs. revert i lv rs. induction es as [|[|e] es IH]; intros i [|cs lv] [|r rs]; try done.
  intros (?&?&?). split_and!; [by eapply inner_mono|by eapply link_mono|by apply IH].
Qed.

Lemma levels_length hist i es lv rs : levels_ok hist i es lv rs → length es = length lv ∧ length rs = length lv.
Proof.
  revert i lv rs. induction es as [|[|e] es IH]; intros i [|cs lv] [|r rs]; try done.
  intros (_&_&Hl). destruct (IH _ _ _ Hl). simpl. lia.
Qed.

Lemma inner_full hist i e cs : inner_holds hist i e cs → (length cs ≤ 32)%nat.
Proof. intros [[h Hs] _ _ _ _ _ _]. pose proof (si_fan _ _ _ Hs) as Hf. by rewrite length_fmap in Hf. Qed.

Lemma level_pieces_one c : level_pieces [c] = c.2.
Proof. unfold level_pieces. simpl. apply app_nil_r. Qed.
Lemma level_pieces_snoc cs c : level_pieces (cs ++ [c]) = level_pieces cs ++ c.2.
Proof. unfold level_pieces. rewrite fmap_app, concat_app. simpl. by rewrite app_nil_r. Qed.

(** ** One extent *)

(** Adding a child to a node that has room. *)
Lemma inner_append hist i e cs c :
  inner_holds hist i e cs → tree id hist (i - 1) c.1 c.2 → (length cs ≠ 32)%nat →
  ∃ curr, Super.append c.1 (se_curr e) = Some (kOk, curr) ∧
    inner_holds hist i (mkSBlockExt curr (se_last e) (se_fanout e) (se_level e) (se_killed e)) (cs ++ [c]).
Proof.
  intros [[h Hs] Hc Hi Hl Hp Hf Hk] Ht Hne. destruct (tree_common _ _ _ _ _ Ht) as (Hr&_).
  pose proof (super_append_ok c.1 _ _ _ Hs Hr) as Ha. rewrite decide_False in Ha by (by rewrite length_fmap).
  destruct Ha as (curr&E&Hs'&E1&E2&E3&E4). exists curr. split; [done|].
  constructor; simpl; rewrite ?E1, ?E2, ?E3, ?E4; try done.
  - eexists. rewrite fmap_app. exact Hs'.
  - apply Forall_app. split; [done|]. by apply Forall_singleton.
Qed.

(** A node without children. *)
Lemma inner_make hist i last fanout level killed :
  is_u64 last → last ≠ 0 → 0 ≤ fanout < 32 → level = Z.of_nat i →
  ∃ curr, Super.make id last fanout level = Some curr ∧
    inner_holds hist i (mkSBlockExt curr last fanout level killed) [].
Proof.
  intros Hl Hn Hf ->. destruct (super_make_ok id last fanout (Z.of_nat i) Hn) as (curr&E&Hs&E1&E2&E3&E4).
  exists curr. split; [done|]. constructor; simpl; rewrite ?E1, ?E2, ?E3, ?E4; try done. by eexists.
Qed.

(** Set of the address of a block does not change what is in it. *)
Lemma super_inv_addr a s h refs :
  super_inv s h refs → super_inv (Super.set_block (IOVec.set_addr a (sb_block s)) s) h refs.
Proof. intros [[full Hf] H2 H3 H4 H5 H6 H7 H8 H9]. constructor; simpl; try done. exists full. by destruct Hf. Qed.

Lemma children_nonempty hist n cs : Forall (λ c, tree id hist n c.1 c.2) cs → Forall (λ p, p ≠ []) (points <$> cs.*2).
Proof.
  intros Hc. rewrite !Forall_fmap. eapply Forall_impl; [exact Hc|]. intros c Ht. by destruct (tree_common _ _ _ _ _ Ht) as (_&_&?&_).
Qed.

Lemma children_trees hist n cs : Forall (λ c, tree id hist n c.1 c.2) cs → Forall2 (tree id hist n) (cs.*1) (cs.*2).
Proof. induction 1; simpl; by constructor. Qed.

Lemma level_points_ne hist n cs : Forall (λ c, tree id hist n c.1 c.2) cs → cs ≠ [] → points (level_pieces cs) ≠ [].
Proof.
  intros Hc Hne E. apply children_nonempty in Hc. destruct cs as [|c cs]; [done|].
  unfold level_pieces in E. rewrite points_concat in E. simpl in E. apply app_nil in E as [E _]. by apply Forall_cons in Hc as [? _].
Qed.

Section Save.
Context {B : Type} `{BlockStoreLaws B} (impl : crc32c_impl_t) `{!Crc32cImpl impl} (at_ : nat → Z).
Hypothesis Hid : is_u64 id.

(** The reference to a node that is on disk, from a copy of it in memory. *)
Lemma node_ref hist hist' i s h refs pss img addr :
  Super.read_all s = Some (kOk, refs) → super_image h refs img → Forall is_u8 img → sr_addr h ≠ 0 → refs ≠ [] →
  sb_id s = id → sb_level s = Z.of_nat (S i) → Z.of_nat (S i) < 2 ^ 16 → 0 ≤ sb_fanout s < 32 → node_meta id (S i) h →
  Forall2 (tree id hist i) refs pss → ts_sorted (points (concat pss)) → is_u64 addr →
  hist' !! addr = Some img → hist ⊆ hist' →
  ∃ payload, Super.init_subtree_from_subtree s INIT_SUBTREE_REF = Some (kOk, payload) ∧
    sr_level payload = Z.of_nat (S i) ∧ tree id hist' (S i) (Tree.link payload addr) (under addr (concat pss)).
Proof.
  intros Er Hi Hu8 Hn0 Hne Es Elv Hlv Hfan Hnm Hf Hsort Hau Ha Hsub.
  assert (Hrefs : Forall ref_ok refs) by (by destruct Hi as (?&?&?&?&?&_)).
  destruct (init_subtree_reads s INIT_SUBTREE_REF refs Er Hrefs init_ref_ok Hne) as (p&Ep&Hc&Hp&Epi&Ept&Epl);
    [by rewrite Es|unfold is_u16; lia|unfold is_u16; lia|].
  exists p. split; [done|]. rewrite Epl. split; [done|].
  assert (Hd : describes p (points (concat pss))).
  { rewrite points_concat. apply (describes_inner p refs); [done| | |done].
    - apply Forall2_fmap_r. eapply Forall2_impl; [exact Hf|]. intros r q Ht. by destruct (tree_common _ _ _ _ _ Ht) as (_&_&_&?&_).
    - apply Forall_fmap. eapply Forall2_Forall_r; [exact Hf|]. apply Forall_true. intros r q Ht.
      by destruct (tree_common _ _ _ _ _ Ht) as (_&_&?&_). }
  assert (Hpne : points (concat pss) ≠ []).
  { destruct Hf as [|r q refs pss Ht Hf]; [done|]. destruct (tree_common _ _ _ _ _ Ht) as (_&_&Hq&_).
    rewrite points_concat. simpl. intros E. by apply app_nil in E as [? _]. }
  simpl tree. rewrite points_under. split_and!; [by apply ref_ok_link|done|done|by eapply describes_same|simpl; congruence|].
  exists img, h. split; [done|]. assert (sr_type h = INNER) as Eth by (destruct Hi as (?&_&_&_&_&_&_&?&_); congruence).
  split; [simpl; congruence|]. split; [done|]. split; [done|]. exists refs, pss. split_and!; try done.
  eapply Forall2_impl; [exact Hf|]. intros r q. by apply tree_mono.
Qed.

Lemma save_node hist i e cs k (s : B) :
  inner_holds hist (S i) e cs → cs ≠ [] → ts_sorted (points (level_pieces cs)) → Z.of_nat (S i) < 2 ^ 16 → bs_inv (S k) s hist →
  ∃ addr curr payload s' img,
    Super.commit impl (at_ 0%nat) (se_curr e) s = Some (kOk, addr, curr, s') ∧
    Super.init_subtree_from_subtree curr INIT_SUBTREE_REF = Some (kOk, payload) ∧
    is_u64 addr ∧ addr ≠ EMPTY_ADDR ∧ addr ≠ 0 ∧ hist !! addr = None ∧ bs_inv k s' (<[addr := img]> hist) ∧
    sr_level payload = Z.of_nat (S i) ∧
    tree id (<[addr := img]> hist) (S i) (Tree.link payload addr) (under addr (level_pieces cs)) ∧
    prev_of (<[addr := img]> hist) (Tree.link payload addr) (sb_prev (se_curr e)).
Proof.
  intros [[h Hs] Hc Ei [El _] [Hp Hp0] [Hf _] _] Hne Hsort Hi Hk.
  replace (S i - 1)%nat with i in Hc by lia.
  assert (Hne1 : cs.*1 ≠ []) by (by destruct cs).
  destruct (super_commit_ok impl (at_ 0%nat) (se_curr e) h _ s Hs Hne1) as (h'&b&Hb&Himg&Hcv&E1&E2&E3&E4&Hs'&Ec);
    [by rewrite Ei|done|unfold is_u16; lia|unfold is_u16; lia|].
  destruct (bs_append_ok k s hist b Hk Hb) as (addr&b'&s'&Ea&Hfr&Hau&Hae&Hs2&Ha0&Eb).
  rewrite Ea in Ec. cbn [mbind option_bind] in Ec. rewrite Eb in Ec.
  set (curr := Super.set_block (IOVec.set_addr (addr_ b') b) (se_curr e)) in *.
  assert (Hcurr : super_inv curr h' (cs.*1)) by (exact (super_inv_addr (addr_ b') _ _ _ Hs')).
  assert (Hsub : hist ⊆ <[addr := image b]> hist) by (by apply insert_subseteq).
  destruct (node_ref hist (<[addr := image b]> hist) i curr h' (cs.*1) (cs.*2) (image b) addr)
    as (payload&Epl&Elv&Ht); try done; [by eapply read_all_ok|apply image_u8, (si_iov _ _ _ Hs')|congruence|split_and!; intros; congruence || lia|by apply children_trees|by rewrite lookup_insert_eq|].
  exists addr, curr, payload, s', (image b). split_and!; try done.
  - apply Ha0. intros ->. destruct cs as [|c cs]; [done|]. apply Forall_cons in Hc as [Ht' _].
    destruct (tree_common _ _ _ _ _ Ht') as (_&_&_&_&_&[x Hx]). by rewrite lookup_empty in Hx.
  - split; [done|]. exists (image b), h'. simpl. rewrite lookup_insert_eq. split_and!; [done|by eapply super_image_header|done].
Qed.

(** ** The cascade *)

Definition same_meta (l l' : ExtentsList) : Prop :=
  el_id l' = el_id l ∧ el_last l' = el_last l ∧ el_initialized l' = el_initialized l.

Lemma insert_middle {A} (l1 l2 : list A) x y i : length l1 = i → <[i := y]> (l1 ++ x :: l2) = l1 ++ y :: l2.
Proof. intros <-. rewrite insert_app_r_alt by lia. by rewrite Nat.sub_diag. Qed.
Lemma lookup_middle {A} (l1 l2 : list A) x i : length l1 = i → (l1 ++ x :: l2) !! i = Some x.
Proof. intros <-. by apply list_lookup_middle. Qed.

(** The list after the extent at [i] was replaced. *)
Lemma set_extent_middle l lower e e' es i :
  el_extents l = lower ++ e :: es → length lower = i → el_extents (Tree.set_extent i e' l) = lower ++ e' :: es.
Proof. intros El Hi. simpl. rewrite El. by apply insert_middle. Qed.

Lemma sblock_at_middle l lower e es i :
  el_extents l = lower ++ SBlockExtent e :: es → length lower = i → Tree.sblock_at i l = Some e.
Proof. intros El Hi. unfold Tree.sblock_at. by rewrite El, lookup_middle. Qed.

Lemma extent_append_room fuel l lower e es i hist cs c (s : B) :
  el_extents l = lower ++ SBlockExtent e :: es → length lower = i → inner_holds hist i e cs →
  tree id hist (i - 1) c.1 c.2 → (length cs ≠ 32)%nat →
  ∃ e', Tree.extent_append impl at_ (S fuel) i c.1 l s
      = Some (false, EMPTY_ADDR, Tree.set_extent i (SBlockExtent e') l, s) ∧
    inner_holds hist i e' (cs ++ [c]) ∧ se_fanout e' = se_fanout e ∧ se_last e' = se_last e.
Proof.
  intros El Hi Hh Ht Hne. destruct (inner_append hist i e cs c Hh Ht Hne) as (curr&Ea&Hh').
  eexists. split; [|split; [exact Hh'|done]]. cbn [Tree.extent_append]. rewrite El, lookup_middle by done.
  rewrite Ea. cbn [mbind option_bind]. by rewrite decide_False.
Qed.

(** The place for a reference. *)
Definition make_level (lvl : nat) (l : ExtentsList) (s : B) : option ExtentsList :=
  if decide (lvl < length (el_extents l))%nat then Some l
  else if decide (length (el_extents l) = lvl) then
    e ← Tree.make_sblock_extent impl at_ (el_id l) EMPTY_ADDR (Z.of_nat lvl) s; Some (Tree.push_extent (SBlockExtent e) l)
  else None.

Lemma append_ref_S fuel c l (s : B) i :
  sr_level c = Z.of_nat i → Z.of_nat (S i) < 2 ^ 16 →
  Tree.append_ref impl at_ (S fuel) c l s =
    (l ← make_level (S i) l s;
     '(parent_saved, addr, l, s) ← Tree.extent_append impl at_ fuel (S i) c (Tree.count_write l) s;
     if decide (addr ≠ EMPTY_ADDR) then l ← Tree.save_point (S i) addr l; Some (true, l, s) else Some (false, l, s)).
Proof.
  intros Hlv Hi. cbn [Tree.append_ref]. rewrite Hlv, u16_id by (unfold is_u16; lia).
  by replace (Z.to_nat (Z.of_nat i + 1)) with (S i) by lia.
Qed.

(** Placing the reference in the extent of its level, which is there. *)
Lemma append_ref_here fuel c l (s : B) lower e es i :
  el_extents l = lower ++ SBlockExtent e :: es → length lower = S i → sr_level c = Z.of_nat i → Z.of_nat (S i) < 2 ^ 16 →
  Tree.append_ref impl at_ (S fuel) c l s =
    ('(parent_saved, addr, l, s) ← Tree.extent_append impl at_ fuel (S i) c (Tree.count_write l) s;
     if decide (addr ≠ EMPTY_ADDR) then l ← Tree.save_point (S i) addr l; Some (true, l, s) else Some (false, l, s)).
Proof.
  intros El Hl Hlv Hi. rewrite (append_ref_S fuel c l s i) by done. unfold make_level.
  by rewrite decide_True by (rewrite El, length_app, Hl; simpl; lia).
Qed.

(** The reference is the first of a new level. *)
Lemma append_ref_new fuel c l (s : B) hist i :
  el_id l = id → length (el_extents l) = S i → length (el_rescue l) = S i → Z.of_nat (S i) < 2 ^ 16 → tree id hist i c.1 c.2 →
  (lk = true → prev_of hist c.1 EMPTY_ADDR) →
  ∃ l' e, Tree.append_ref impl at_ (S (S fuel)) c.1 l s = Some (false, l', s) ∧ same_meta l l' ∧
    el_extents l' = el_extents l ++ [SBlockExtent e] ∧ el_rescue l' = el_rescue l ++ [EMPTY_ADDR] ∧
    levels_ok hist (S i) [SBlockExtent e] [[c]] [EMPTY_ADDR] ∧ el_write_count l' = u64 (el_write_count l + 1).
Proof.
  intros Ei Ee Er Hi Ht Hlk. destruct (tree_common _ _ _ _ _ Ht) as (_&_&_&_&Elv&_).
  destruct (inner_make hist (S i) EMPTY_ADDR 0 (Z.of_nat (S i)) false) as (curr&Em&Hh0);
    [unfold is_u64, EMPTY_ADDR; lia|done|lia|done|].
  set (e0 := mkSBlockExt curr EMPTY_ADDR 0 (Z.of_nat (S i)) false) in *.
  set (l1 := Tree.count_write (Tree.push_extent (SBlockExtent e0) l)).
  destruct (extent_append_room fuel l1 (el_extents l) e0 [] (S i) hist [] c s) as (e&Ea&Hh&Efn&Els);
    [done|done|done|by replace (S i - 1)%nat with i by lia|done|].
  exists (Tree.set_extent (S i) (SBlockExtent e) l1), e. split_and!; try done.
  - rewrite (append_ref_S _ c.1 l s i) by done. unfold make_level. rewrite decide_False by lia. rewrite decide_True by done. unfold Tree.make_sblock_extent.
    rewrite decide_True by done. rewrite Ei, Em. cbn [mbind option_bind]. fold e0. fold l1. rewrite Ea.
    cbn [mbind option_bind]. by rewrite decide_False by (intros Hx; by apply Hx).
  - by apply (set_extent_middle l1 (el_extents l) (SBlockExtent e0) (SBlockExtent e) []).
  - split; [exact Hh|]. split; [|done]. intros Hk. rewrite Efn, Els. split_and!; try done. constructor.
Qed.

Lemma extent_append_S fuel i pl l (s : B) e :
  el_extents l !! i = Some (SBlockExtent e) →
  Tree.extent_append impl at_ (S fuel) i pl l s =
    ('(status, curr) ← Super.append pl (se_curr e);
     let l := Tree.set_extent i (SBlockExtent (mkSBlockExt curr (se_last e) (se_fanout e) (se_level e) (se_killed e))) l in
     if decide (status = kOverflow) then
       '(payload, addr, l, s) ← Tree.save_sblock impl at_ i l s;
       '(parent_saved, l, s) ← Tree.append_ref impl at_ fuel payload l s;
       l ← Tree.renew_sblock i addr l;
       '(_, _, l, s) ← Tree.extent_append impl at_ fuel i pl l s;
       Some (parent_saved, addr, l, s)
     else Some (false, EMPTY_ADDR, l, s)).
Proof. intros E. cbn [Tree.extent_append]. by rewrite E. Qed.

(** What one reference costs: a block of the store and two writes, counted
    against the children that are kept in memory. *)
Definition cascade_post (k : nat) (l : ExtentsList) (hist : gmap Z (list Z)) (lower : list NBTreeExtent)
    (rlower : list Z) (lv : list (list child)) (i : nat) (c : child) (l' : ExtentsList) (s' : B) : Prop :=
  ∃ hist' es' lv' rs', same_meta l l' ∧ el_extents l' = lower ++ es' ∧ el_rescue l' = rlower ++ rs' ∧
    hist ⊆ hist' ∧ levels_ok hist' (S i) es' lv' rs' ∧ bs_inv (k + kept lv') s' hist' ∧
    points (levels_pieces lv') = points (levels_pieces lv ++ c.2) ∧ weight lv' = weight lv + 1 ∧
    above lv' = next_children (above lv) c ∧ (length lv' ≤ S (length lv))%nat ∧ (top_ok lv → top_ok lv') ∧
    el_write_count l < el_write_count l' ∧
    el_write_count l' + Z.of_nat (kept lv') ≤ el_write_count l + Z.of_nat (kept lv) + 2.

(** A full node on the way: it is saved, its parent told, and a new one takes
    its place. *)
Lemma extent_append_full fuel l lower e es i hist cs c (s : B) k :
  el_extents l = lower ++ SBlockExtent e :: es → length lower = S i → el_id l = id →
  inner_holds hist (S i) e cs → tree id hist i c.1 c.2 → length cs = 32%nat → ts_sorted (points (level_pieces cs)) →
  Z.of_nat (S i) < 2 ^ 16 → bs_inv (S k) s hist →
  ∃ e1 hist1 payload addr s1 l1, hist ⊆ hist1 ∧ bs_inv k s1 hist1 ∧ addr ≠ EMPTY_ADDR ∧
    sr_addr payload = addr ∧ tree id hist1 (S i) payload (under addr (level_pieces cs)) ∧
    prev_of hist1 payload (sb_prev (se_curr e)) ∧ sr_level payload = Z.of_nat (S i) ∧
    se_fanout e1 = se_fanout e ∧ l1 = Tree.set_extent (S i) (SBlockExtent e1) l ∧
    (∀ l2 s2 es2, Tree.append_ref impl at_ (S fuel) payload l1 s1 = Some (es2, l2, s2) →
      ∀ es', el_extents l2 = lower ++ SBlockExtent e1 :: es' → el_id l2 = id →
      ∀ hist2, hist1 ⊆ hist2 →
      ∃ e2 l3, Tree.extent_append impl at_ (S (S fuel)) (S i) c.1 l s = Some (es2, addr, l3, s2) ∧
        l3 = Tree.set_extent (S i) (SBlockExtent e2) l2 ∧ inner_holds hist2 (S i) e2 [c] ∧
        (se_fanout e2, se_last e2) = Tree.next_link (se_fanout e) addr).
Proof.
  intros El Hl Ei Hh Ht Hlen Hsort Hi Hk. pose proof Hh as [[h Hs] Hc _ [_ Elv] _ [_ Hfan] _].
  destruct (save_node hist i e cs k s Hh) as (addr&curr&p&s1&img&Ecm&Ein&Hau&Hae&Ha0&Hfr&Hk1&Epl&Htp&Hpv);
    [by destruct cs|done|done|done|].
  set (e1 := mkSBlockExt curr (se_last e) (se_fanout e) (se_level e) (se_killed e)).
  exists e1, (<[addr := img]> hist), (Tree.link p addr), addr, s1, (Tree.set_extent (S i) (SBlockExtent e1) l).
  split_and!; try done; [by apply insert_subseteq|].
  intros l2 s2 sv Er es' El2 Ei2 hist2 Hsub.
  destruct (Tree.next_link (se_fanout e) addr) as [fan last] eqn:Enl.
  destruct (next_link_range _ _ _ _ Hfan Enl) as [Hfan' Hlast].
  destruct (inner_make hist2 (S i) last fan (se_level e) (se_killed e)) as (curr2&Em&Hh2);
    [destruct Hlast as [->| ->]; [done|unfold is_u64, EMPTY_ADDR; lia]|by destruct Hlast as [->| ->]|done|done|].
  set (e2 := mkSBlockExt curr2 last fan (se_level e) (se_killed e)) in *.
  set (l2' := Tree.set_extent (S i) (SBlockExtent e2) l2).
  assert (El2' : el_extents l2' = lower ++ SBlockExtent e2 :: es') by (by eapply set_extent_middle).
  destruct (extent_append_room fuel l2' lower e2 es' (S i) hist2 [] c s2) as (e3&Ea3&Hh3&Efn3&Els3);
    [done|done|done| |done|].
  { replace (S i - 1)%nat with i by lia. eapply tree_mono; [|exact Ht]. etransitivity; [by apply (insert_subseteq hist addr img)|done]. }
  exists e3, (Tree.set_extent (S i) (SBlockExtent e3) l2'). split_and!.
  - pose proof (super_append_ok c.1 _ _ _ Hs) as Ha. destruct (tree_common _ _ _ _ _ Ht) as (Hrc&_).
    specialize (Ha Hrc). rewrite decide_True in Ha by (by rewrite length_fmap).
    rewrite (extent_append_S _ _ _ l s e) by (by rewrite El, lookup_middle). rewrite Ha. cbn [mbind option_bind].
    rewrite decide_True by done. set (l0 := Tree.set_extent _ _ l).
    assert (El0 : el_extents l0 = lower ++ SBlockExtent e :: es).
    { unfold l0. rewrite (set_extent_middle l lower (SBlockExtent e) _ es) by done. by destruct e. }
    unfold Tree.save_sblock. rewrite (sblock_at_middle l0 lower e es) by done. cbn [mbind option_bind].
    rewrite Ecm. cbn [mbind option_bind]. rewrite decide_False by (intros Hx; by apply Hx).
    rewrite Ein. cbn [mbind option_bind]. rewrite decide_False by (intros Hx; by apply Hx). cbn [mbind option_bind]. fold e1.
    assert (Tree.set_extent (S i) (SBlockExtent e1) l0 = Tree.set_extent (S i) (SBlockExtent e1) l) as ->.
    { unfold l0, Tree.set_extent. simpl. by rewrite list_insert_insert_eq. }
    rewrite Er. cbn [mbind option_bind]. unfold Tree.renew_sblock. rewrite (sblock_at_middle l2 lower e1 es') by done.
    cbn [mbind option_bind]. change (se_fanout e1) with (se_fanout e). rewrite Enl, Ei2. cbn [mbind option_bind].
    change (se_level e1) with (se_level e). rewrite Em. cbn [mbind option_bind].
    change (se_killed e1) with (se_killed e). fold e2. fold l2'. rewrite Ea3. done.
  - unfold l2', Tree.set_extent. simpl. by rewrite list_insert_insert_eq.
  - exact Hh3.
  - by rewrite Efn3, Els3.
Qed.

Lemma sorted_app_l pts1 pts2 : ts_sorted (pts1 ++ pts2) → ts_sorted pts1.
Proof. unfold ts_sorted. apply StronglySorted_app_1_l. Qed.
Lemma sorted_app_r pts1 pts2 : ts_sorted (pts1 ++ pts2) → ts_sorted pts2.
Proof. unfold ts_sorted. apply StronglySorted_app_1_r. Qed.

Lemma bs_weaken_by n k (s : B) hist : bs_inv (n + k) s hist → bs_inv k s hist.
Proof. induction n as [|n IH]; [done|]. intros Hs. apply IH, bs_weaken, Hs. Qed.

Lemma append_ref_room fuel c l (s : B) hist lower rlower e es cs lv r rs i k :
  el_extents l = lower ++ SBlockExtent e :: es → el_rescue l = rlower ++ r :: rs → length lower = S i →
  levels_ok hist (S i) (SBlockExtent e :: es) (cs :: lv) (r :: rs) → tree id hist i c.1 c.2 → (length cs ≠ 32)%nat →
  bs_inv (S k + kept (cs :: lv)) s hist → Z.of_nat (S i) < 2 ^ 16 →
  0 ≤ el_write_count l ∧ el_write_count l + Z.of_nat (kept (cs :: lv)) + 2 < 2 ^ 64 →
  ∃ sv l' s', Tree.append_ref impl at_ (S (S fuel)) c.1 l s = Some (sv, l', s') ∧
    cascade_post k l hist lower rlower (cs :: lv) i c l' s'.
Proof.
  intros El Er Hl (Hh&Hlk&Hlv) Ht Hne Hk Hi Hw. destruct (tree_common _ _ _ _ _ Ht) as (_&_&_&_&Elv&_).
  destruct (extent_append_room fuel (Tree.count_write l) lower e es (S i) hist cs c s) as (e'&Ea&Hh'&Efn&Els);
    [done|done|done|by replace (S i - 1)%nat with i by lia|done|].
  eexists _, _, s. split.
  { rewrite (append_ref_here _ _ _ _ _ _ _ _ El Hl Elv Hi), Ea. cbn [mbind option_bind].
    by rewrite decide_False by (intros Hx; by apply Hx). }
  exists hist, (SBlockExtent e' :: es), ((cs ++ [c]) :: lv), (r :: rs).
  rewrite !kept_cons in *. rewrite length_app. cbn [length]. split_and!; try done.
  - by rewrite (set_extent_middle _ lower (SBlockExtent e) (SBlockExtent e') es) by done.
  - split; [exact Hh'|]. rewrite Efn, Els. by split.
  - by replace (k + (length cs + 1 + kept lv))%nat with (S k + (length cs + kept lv))%nat by lia.
  - simpl. by rewrite level_pieces_snoc, app_assoc.
  - simpl. rewrite length_app. simpl. lia.
  - unfold above, next_children. simpl. by rewrite decide_False.
  - simpl. lia.
  - intros Hto. apply top_ok_cons; [left; by destruct cs|]. by eapply top_ok_tail.
  - simpl. rewrite u64_id by (unfold is_u64; lia). lia.
  - simpl el_write_count. rewrite u64_id by (unfold is_u64; lia). lia.
Qed.

(** The specification, for the extents [es] of the levels above [i]. *)
Definition cascade (es : list NBTreeExtent) : Prop :=
  ∀ fuel c l (s : B) hist lower rlower lv rs i k,
  el_id l = id → el_extents l = lower ++ es → el_rescue l = rlower ++ rs → length lower = S i → length rlower = S i →
  levels_ok hist (S i) es lv rs → tree id hist i c.1 c.2 → ts_sorted (points (levels_pieces lv ++ c.2)) →
  (lk = true → prev_of hist c.1 (next_prev (above lv))) →
  bs_inv (S k + kept lv) s hist → Z.of_nat (i + length lv) + 1 < 2 ^ 16 →
  0 ≤ el_write_count l ∧ el_write_count l + Z.of_nat (kept lv) + 2 < 2 ^ 64 → (2 * length es + 2 ≤ fuel)%nat →
  ∃ sv l' s', Tree.append_ref impl at_ fuel c.1 l s = Some (sv, l', s') ∧ cascade_post k l hist lower rlower lv i c l' s'.

Lemma append_ref_full fuel c l (s : B) hist lower rlower e es cs lv r rs i k :
  cascade es →
  el_id l = id → el_extents l = lower ++ SBlockExtent e :: es → el_rescue l = rlower ++ r :: rs →
  length lower = S i → length rlower = S i →
  levels_ok hist (S i) (SBlockExtent e :: es) (cs :: lv) (r :: rs) → tree id hist i c.1 c.2 →
  ts_sorted (points (levels_pieces (cs :: lv) ++ c.2)) → length cs = 32%nat → Z.of_nat (S i) < 2 ^ 16 →
  bs_inv (S k + kept (cs :: lv)) s hist → Z.of_nat (i + length (cs :: lv)) + 1 < 2 ^ 16 →
  0 ≤ el_write_count l ∧ el_write_count l + Z.of_nat (kept (cs :: lv)) + 2 < 2 ^ 64 →
  (2 * length (SBlockExtent e :: es) + 2 ≤ S (S fuel))%nat →
  ∃ sv l' s', Tree.append_ref impl at_ (S (S fuel)) c.1 l s = Some (sv, l', s') ∧
    cascade_post k l hist lower rlower (cs :: lv) i c l' s'.
Proof.
  intros IH Ei El Er Hl Hrl (Hh&Hlk&Hlv) Ht Hsort H32 Hi Hk Hwt Hw Hfuel.
  destruct (tree_common _ _ _ _ _ Ht) as (_&_&_&_&Elv&_). destruct fuel as [|fuel]; [simpl in Hfuel; lia|].
  cbn [levels_pieces] in Hsort. rewrite <- app_assoc, !points_app in Hsort. pose proof Hsort as Hs2.
  rewrite app_assoc in Hs2. apply sorted_app_l in Hs2. pose proof (sorted_app_r _ _ Hs2) as Hscs.
  rewrite kept_cons, H32 in *.
  destruct (extent_append_full fuel (Tree.count_write l) lower e es i hist cs c s (k + 32 + kept lv)%nat)
    as (e1&hist1&p&addr&s1&l1&Hsub1&Hk1&Hae&Epa&Htp&Hpv&Epl&Ef1&->&Hgo); try done.
  { by replace (S (k + 32 + kept lv)) with (S k + (32 + kept lv))%nat by lia. }
  set (l1 := Tree.set_extent (S i) (SBlockExtent e1) (Tree.count_write l)) in *.
  assert (Hwc : el_write_count l1 = el_write_count l + 1) by (simpl; rewrite u64_id by (unfold is_u64; clear - Hw; lia); done).
  destruct (IH (S fuel) (p, under addr (level_pieces cs)) l1 s1 hist1 (lower ++ [SBlockExtent e1]) (rlower ++ [r]) lv rs (S i) (k + 31)%nat)
    as (sv&l2&s2&Er2&hist2&es2&lv2&rs2&(Em1&Em2&Em3)&Ee2&Ers2&Hsub2&Hlv2&Hk2&Ept&Ewt&Eab&Hlen2&Hto2&Hw1&Hw2).
  { done. }
  { unfold l1. rewrite (set_extent_middle _ lower (SBlockExtent e) (SBlockExtent e1) es) by done. by rewrite <- app_assoc. }
  { simpl. by rewrite Er, <- app_assoc. }
  { rewrite length_app, Hl. simpl. lia. }
  { rewrite length_app, Hrl. simpl. lia. }
  { by eapply levels_mono. }
  { done. }
  { rewrite points_app. simpl. by rewrite points_under. }
  { intros Hlt. simpl. destruct (Hlk Hlt) as (_&Els&_). destruct (ih_link _ _ _ _ Hh Hlt) as [Epv _]. congruence. }
  { by replace (S (k + 31) + kept lv)%nat with (k + 32 + kept lv)%nat by lia. }
  { clear - Hwt. cbn [length] in Hwt. lia. }
  { rewrite Hwc. clear - Hw. lia. }
  { simpl in Hfuel. clear - Hfuel. lia. }
  rewrite <- app_assoc in Ee2. rewrite <- app_assoc in Ers2. simpl in Ee2, Ers2.
  destruct (Hgo l2 s2 sv Er2 es2 Ee2 ltac:(by rewrite Em1) hist2 Hsub2) as (e2&l3&Ea3&->&Hh3&Enl).
  set (l3 := Tree.set_extent (S i) (SBlockExtent e2) l2) in *.
  assert (Ers3 : el_rescue l3 = rlower ++ r :: rs2) by done.
  exists true, (Tree.set_rescue (rlower ++ addr :: rs2) l3), s2. split.
  { rewrite (append_ref_here _ _ _ _ _ _ _ _ El Hl Elv Hi), Ea3. cbn [mbind option_bind]. rewrite decide_True by done.
    unfold Tree.save_point. rewrite Ers3, decide_True by (rewrite length_app, Hrl; simpl; lia).
    cbn [mbind option_bind]. by rewrite insert_middle. }
  exists hist2, (SBlockExtent e2 :: es2), ([c] :: lv2), (addr :: rs2).
  rewrite kept_cons. cbn [length]. split_and!; try done.
  - unfold l3. simpl el_extents. rewrite Ee2. by apply insert_middle.
  - by etransitivity.
  - cbn [levels_ok]. split; [exact Hh3|]. split; [|exact Hlv2]. intros Hlt. rewrite Eab.
    destruct (Hlk Hlt) as (Efan&_&_&Hch).
    assert (Hch1 : chained hist2 (next_children (above lv) (p, under addr (level_pieces cs)))).
    { apply chained_next; [eapply chained_mono; [|exact Hch]; by etransitivity|]. eapply prev_of_mono; [exact Hsub2|]. simpl.
      destruct (Hlk Hlt) as (_&Els&_). destruct (ih_link _ _ _ _ Hh Hlt) as [Epv _]. congruence. }
    assert (Hup : (length (above lv) ≤ 32)%nat).
    { destruct es as [|[|e'] es], lv as [|cs' lv], rs as [|r' rs]; try done; [simpl; lia|].
      destruct Hlv as [Hh' _]. by apply inner_full in Hh'. }
    pose proof (next_link_ok (above lv) (p, under addr (level_pieces cs)) Hup) as Hnl. cbn [fst] in Hnl.
    rewrite Efan, <- Epa, Hnl in Enl.
    rewrite tail_next. injection Enl as -> ->. by split_and!.
  - replace (k + (1 + kept lv2))%nat with (1 + (k + kept lv2))%nat by lia.
    apply (bs_weaken_by 30). by replace (30 + (1 + (k + kept lv2)))%nat with (k + 31 + kept lv2)%nat by lia.
  - cbn [levels_pieces]. rewrite level_pieces_one, !points_app, Ept, points_app. simpl. by rewrite points_under.
  - cbn [weight]. rewrite Ewt, H32. cbn [length]. lia.
  - unfold above, next_children. simpl. by rewrite decide_True.
  - simpl. clear - Hlen2. lia.
  - intros Hto. apply top_ok_cons; [by left|]. by eapply Hto2, top_ok_tail.
  - rewrite Hwc in Hw1. unfold l3. simpl el_write_count. clear - Hw1. lia.
  - rewrite Hwc in Hw2. unfold l3. simpl el_write_count. rewrite kept_cons, H32. clear - Hw2. lia.
Qed.

Lemma append_ref_ok es : cascade es.
Proof.
  induction es as [|e es IH]; intros fuel c l s hist lower rlower lv rs i k Ei El Er Hl Hrl Hlv Ht Hsort Hlk Hk Hwt Hw Hfuel;
    assert (Hi' : Z.of_nat (S i) < 2 ^ 16) by (clear - Hwt; lia);
    (destruct fuel as [|[|fuel]]; [simpl in Hfuel; lia|simpl in Hfuel; lia|]).
  - destruct lv, rs; try done. rewrite app_nil_r in *.
    destruct (append_ref_new fuel c l s hist i) as (l'&e&Ea&Hm&Ee'&Er'&Hlv'&Ew); try done; [by rewrite El|by rewrite Er|].
    exists false, l', s. split; [done|]. exists hist, [SBlockExtent e], [[c]], [EMPTY_ADDR].
    change (kept [[c]]) with 1%nat. change (kept []) with 0%nat in *. rewrite Ew, u64_id by (unfold is_u64; clear - Hw; lia).
    split_and!; try done; try (clear - Hw; lia); [by rewrite Ee', El|by rewrite Er', Er| | |by intros _; apply top_ok_cons; [left|intros cs ?]].
    + by replace (k + 1)%nat with (S k + 0)%nat by lia.
    + cbn [levels_pieces app]. by rewrite level_pieces_one.
  - destruct e as [|e], lv as [|cs lv], rs as [|r rs]; try done.
    destruct (decide (length cs = 32%nat)) as [H32|Hne].
    2: { by eapply append_ref_room. }
    by eapply (append_ref_full fuel c l s hist lower rlower e es cs lv r rs i k IH).
Qed.

End Save.
End Levels.
