(* ===== verification/TreeProof.v ===== *)
(** * Appending points to the tree and searching it

    [tree_ok] is the invariant of an [NBTreeExtentsList] that is in use: its
    contents are the points of the levels, from the top, followed by those of the
    open leaf. *)
From stdpp Require Import sorting.
From S2P Require Import Prelude Status ByteStream Base128 VByte DataBlock DataBlockProof IOVec Blocks Volume Crc32c BlockStoreProof MemStore Double SubtreeRef Operator Leaf LeafIter Superblock TreeIter TreeRead Extents Content ExtentsProof.

Section Trees.
Variables (lk : bool) (id : Z).

Record leaf_holds (e : LeafExt) (pts : list point) : Prop := {
  lh_leaf : ∃ h, leaf_inv (le_leaf e) id h pts ∧ summarises h pts;
  lh_finite : Forall (λ x, finite x.2) pts;
  lh_prev : is_u64 (lf_prev (le_leaf e));
  lh_fanout : lf_fanout (le_leaf e) = le_fanout e ∧ 0 ≤ le_fanout e < 32;
  lh_link : lk = true → lf_prev (le_leaf e) = le_last e;
  lh_room : pts = [] → 16 ≤ leaf_space (le_leaf e);
  lh_empty : pts = [] → ∃ h, Leaf.get_leafmeta (le_leaf e) = Some h ∧ sr_begin h = TS_MAX ∧ sr_end h = 0;
}.

Definition content (pts : list point) (lv : list (list child)) : list point := points (levels_pieces lv) ++ pts.

Record tree_ok (l : ExtentsList) (hist : gmap Z (list Z)) (pts : list point) (lv : list (list child)) : Prop := {
  to_exts : match el_extents l, el_rescue l with
    | [], [] => pts = [] ∧ lv = []
    | LeafExtent e :: es, r :: rs =>
      leaf_holds e pts ∧ link_ok lk hist (le_fanout e) (le_last e) r (above lv) ∧ levels_ok lk id hist 1 es lv rs
    | _, _ => False
    end;
  to_sorted : ts_sorted (content pts lv);
  to_last x : x ∈ content pts lv → x.1 ≤ el_last l;
  to_ready : el_initialized l = true ∧ el_id l = id;
  to_top : top_ok lv;
}.

Lemma tree_ok_mono l hist hist' pts lv : hist ⊆ hist' → tree_ok l hist pts lv → tree_ok l hist' pts lv.
Proof.
  intros Hs [He H2 H3 H4 H5]. constructor; try done. destruct (el_extents l) as [|[e|] es], (el_rescue l) as [|r rs]; try done.
  destruct He as (?&?&?). split_and!; [done|by eapply link_mono|by eapply levels_mono].
Qed.

(** ** The leaf *)

Lemma leaf_make_holds last fanout :
  is_u64 id → is_u64 last → 0 ≤ fanout < 32 →
  ∃ e, Tree.reset_leaf id last fanout = Some e ∧ leaf_holds e [] ∧ le_last e = last ∧ le_fanout e = fanout.
Proof.
  intros Hid Hl Hf. destruct (leaf_make_ok id last fanout Hid Hl) as (leaf&E&Hinv&Ep&Ef&Esp); [unfold is_u16; lia|].
  exists (mkLeafExt last leaf fanout). split; [unfold Tree.reset_leaf; rewrite E; reflexivity|].
  split; [|split; reflexivity]. constructor; cbn [le_leaf le_last le_fanout].
  - eexists. split; [exact Hinv|apply summarises_init].
  - constructor.
  - rewrite Ep. exact Hl.
  - split; [exact Ef|exact Hf].
  - intros _. exact Ep.
  - intros _. rewrite Esp. lia.
  - intros _. destruct (leaf_block _ _ _ _ Hinv) as (_&_&Eh&_). eexists. split; [exact Eh|]. split; reflexivity.
Qed.

Section Leaf.
Context {B : Type} `{BlockStoreLaws B} (impl : crc32c_impl_t) `{!Crc32cImpl impl} (at_ : nat → Z).
Hypothesis Hid : is_u64 id.

(** The reference to a leaf that is on disk, from its metadata. *)
Lemma leaf_ref hist l h pts img addr :
  Leaf.get_leafmeta l = Some h → leaf_image id h pts img → summarises h pts → Forall (λ x, finite x.2) pts →
  sr_type h = LEAF → sr_level h = 0 → 0 ≤ sr_fanout_index h < 32 → ts_sorted pts → pts ≠ [] → is_u64 addr → hist !! addr = Some img →
  ∃ payload, Leaf.init_subtree_from_leaf l = Some (kOk, Some payload) ∧ sr_level payload = 0 ∧
    tree id hist 0 (Tree.link payload addr) [([addr], pts)].
Proof.
  intros Eh Hi Hs Hf Et El Hfo Hsort Hne Hau Ha. unfold Leaf.init_subtree_from_leaf. rewrite Eh. cbn [mbind option_bind].
  assert (0 < length pts)%nat by (destruct pts; [done|simpl; lia]).
  rewrite decide_False by (rewrite (su_count _ _ Hs); lia).
  assert (Hh : ref_ok h) by (by destruct Hi as (?&?&?&?&?&?&?&?&?&?&?)).
  eexists. split; [done|]. split; [done|]. simpl tree. unfold points. simpl concat. rewrite app_nil_r.
  split_and!; try done.
  - apply ref_ok_link; [|done]. rewrite ref_ok_fields in Hh |- *. rewrite !Forall_cons in *. simpl.
    destruct Hh as ((?&?&?&?&?&?&?&?&?&?&?&?&_)&(?&?&?&?&?&_)&?). split_and!; try done; unfold EMPTY_ADDR, is_u64; lia.
  - eapply (describes_same _ h); [by apply describes_leaf|done..].
  - exists img, h. split; [done|]. split; [done|]. split; [by split|]. split; [done|]. by exists pts.
Qed.

Lemma save_leaf_ok hist e pts k (s : B) :
  leaf_holds e pts → pts ≠ [] → ts_sorted pts → bs_inv (S k) s hist →
  ∃ addr leaf payload s' img, Leaf.commit impl at_ (le_leaf e) s = Some (kOk, addr, leaf, s') ∧
    Leaf.init_subtree_from_leaf leaf = Some (kOk, Some payload) ∧ is_u64 addr ∧ addr ≠ EMPTY_ADDR ∧
    hist !! addr = None ∧ bs_inv k s' (<[addr := img]> hist) ∧ sr_level payload = 0 ∧
    tree id (<[addr := img]> hist) 0 (Tree.link payload addr) [([addr], pts)] ∧
    prev_of (<[addr := img]> hist) (Tree.link payload addr)
      (if decide (lf_prev (le_leaf e) ≠ EMPTY_ADDR ∧ 0 < le_fanout e) then lf_prev (le_leaf e) else EMPTY_ADDR).
Proof.
  intros [(h&Hinv&Hsum) Hfin Hp [Ef Hf] _ _ _] Hne Hsort Hk.
  assert (0 < length pts)%nat by (destruct pts; [done|simpl; lia]).
  destruct (leaf_commit_ok impl at_ (le_leaf e) id h pts s Hinv) as (size&crc&b&l1&Hb&Hi&Eh&Ec);
    [rewrite (su_count _ _ Hsum); lia|done|unfold is_u16; lia|].
  destruct (bs_append_ok k s hist b Hk Hb) as (addr&b'&s'&Ea&Hfr&Hau&Hae&Hs2&_&Eb).
  rewrite Ea in Ec. cbn [mbind option_bind] in Ec. rewrite Eb in Ec.
  set (leaf := Leaf.set_block (IOVec.set_addr (addr_ b') b) l1) in *.
  set (h1 := Leaf.close_meta _ _ _ _ _) in *.
  destruct (leaf_ref (<[addr := image b]> hist) leaf h1 pts (image b) addr) as (payload&Epl&Elv&Ht); try done.
  { unfold leaf, Leaf.get_leafmeta. by rewrite block_set_block. }
  { by apply summarises_close. }
  { simpl. lia. }
  { by rewrite lookup_insert_eq. }
  exists addr, leaf, payload, s', (image b). split_and!; try done.
  split; [done|]. exists (image b), h1. simpl. rewrite lookup_insert_eq. split_and!; [done|by eapply leaf_image_header|].
  by rewrite Ef.
Qed.

(** Replacing the leaf extent. *)
Lemma leaf_at_head l e es : el_extents l = LeafExtent e :: es → Tree.leaf_at l = Some e.
Proof. intros El. unfold Tree.leaf_at. by rewrite El. Qed.
Lemma set_extent_head l e e' es : el_extents l = e :: es → el_extents (Tree.set_extent 0 e' l) = e' :: es.
Proof. intros El. simpl. by rewrite El. Qed.

Lemma above_le hist i es lv rs : levels_ok lk id hist i es lv rs → (length (above lv) ≤ 32)%nat.
Proof.
  destruct es as [|[|e] es], lv as [|cs lv], rs as [|r rs]; try done; [simpl; lia|]. intros [Hh _]. by apply inner_full in Hh.
Qed.

(** The link in a leaf that was committed. *)
Lemma leaf_prev_next hist e r pts up :
  lk = true → leaf_holds e pts → link_ok lk hist (le_fanout e) (le_last e) r up → (length up ≤ 32)%nat →
  (if decide (lf_prev (le_leaf e) ≠ EMPTY_ADDR ∧ 0 < le_fanout e) then lf_prev (le_leaf e) else EMPTY_ADDR) = next_prev up.
Proof.
  intros Hlk Hh Hl Hup. destruct (Hl Hlk) as (Ef&El&_). rewrite (lh_link _ _ Hh Hlk), El, Ef. case_decide as Hc; [done|].
  destruct (decide (next_prev up = EMPTY_ADDR)) as [->|Hne]; [done|].
  unfold next_fanout, next_prev, tail_addr in *. destruct (decide (length up = 32%nat)) as [E32|]; [done|].
  destruct up as [|c up _] using rev_ind; [done|].
  exfalso. apply Hc. split; [done|]. rewrite length_app in *. simpl in *. rewrite Z.mod_small by lia. lia.
Qed.

Lemma leaf_commit_told fuel final l (s : B) hist pts lv e es r rs k :
  el_extents l = LeafExtent e :: es → el_rescue l = r :: rs → el_id l = id → leaf_holds e pts → pts ≠ [] →
  link_ok lk hist (le_fanout e) (le_last e) r (above lv) → levels_ok lk id hist 1 es lv rs → ts_sorted (content pts lv) →
  bs_inv (S (S k) + kept lv) s hist → Z.of_nat (length lv) + 1 < 2 ^ 16 →
  0 ≤ el_write_count l ∧ el_write_count l + Z.of_nat (kept lv) + 2 < 2 ^ 64 → (2 * length es + 2 ≤ fuel)%nat →
  final = false ∨ rs ≠ [] →
  ∃ sv addr l' s' hist' e' es' lv' rs', Tree.leaf_commit impl at_ fuel final l s = Some (sv, addr, l', s') ∧
    addr ≠ EMPTY_ADDR ∧ same_meta l l' ∧ el_extents l' = LeafExtent e' :: es' ∧ el_rescue l' = r :: rs' ∧ hist ⊆ hist' ∧
    leaf_holds e' [] ∧ link_ok lk hist' (le_fanout e') (le_last e') addr (above lv') ∧ levels_ok lk id hist' 1 es' lv' rs' ∧
    bs_inv (k + kept lv') s' hist' ∧ points (levels_pieces lv') = content pts lv ∧ weight lv' = weight lv + 1 ∧
    (length lv' ≤ S (length lv))%nat ∧ (top_ok lv → top_ok lv') ∧ above lv' ≠ [] ∧ el_write_count l < el_write_count l' ∧
    el_write_count l' + Z.of_nat (kept lv') ≤ el_write_count l + Z.of_nat (kept lv) + 2.
Proof.
  intros El Er Ei Hh Hne Hlk Hlv Hsort Hk Hwt Hw Hfuel Hfin. pose proof (above_le _ _ _ _ _ Hlv) as Hup.
  destruct (save_leaf_ok hist e pts (S k + kept lv) s Hh Hne (sorted_app_r _ _ Hsort) Hk)
    as (addr&leaf&p&s1&img&Ec&Ep&Hau&Hae&Hfr&Hk1&Epl&Ht&Hpv).
  set (hist1 := <[addr := img]> hist) in *. assert (Hsub : hist ⊆ hist1) by (by apply insert_subseteq).
  set (c := (Tree.link p addr, [([addr], pts)]) : child).
  set (e1 := mkLeafExt (le_last e) leaf (le_fanout e)). set (l1 := Tree.set_extent 0 (LeafExtent e1) l).
  assert (El1 : el_extents l1 = [LeafExtent e1] ++ es) by (by apply (set_extent_head l (LeafExtent e))).
  destruct (append_ref_ok lk id impl at_ Hid es fuel c l1 s1 hist1 [LeafExtent e1] [r] lv rs 0%nat k)
    as (sv&l2&s2&Ea&hist2&es2&lv2&rs2&Hm&Ee2&Er2&Hsub2&Hlv2&Hk2&Ept&Ewt&Eab&Hlen&Hto&Hw1&Hw2); try done.
  { by eapply levels_mono. }
  { rewrite points_app. unfold c, points at 2. simpl. by rewrite app_nil_r. }
  { intros Hl. rewrite <- (leaf_prev_next _ _ _ _ _ Hl Hh Hlk Hup). exact Hpv. }
  destruct (Tree.next_link (le_fanout e) addr) as [fan last] eqn:Enl.
  destruct (next_link_range _ _ _ _ (proj2 (lh_fanout _ _ Hh)) Enl) as [Hfan Hlast].
  destruct (leaf_make_holds last fan Hid) as (e'&Em&Hh'&Ela&Efa);
    [destruct Hlast as [->| ->]; [done|unfold is_u64, EMPTY_ADDR; lia]|done|].
  exists sv, addr, (Tree.set_extent 0 (LeafExtent e') l2), s2, hist2, e', es2, lv2, rs2.
  split.
  { unfold Tree.leaf_commit, Tree.save_leaf. rewrite (leaf_at_head l e es El). cbn [mbind option_bind]. rewrite Ec.
    cbn [mbind option_bind]. rewrite decide_False by (intros Hx; by apply Hx). rewrite Ep. cbn [mbind option_bind].
    rewrite decide_False by (intros Hx; by apply Hx). fold e1. fold l1. cbn [mbind option_bind]. unfold Tree.tell_parent.
    rewrite decide_True.
    2: { destruct Hfin as [->|Hrs]; [by left|right]. simpl. rewrite Epl, Er. destruct rs; [destruct (Hrs eq_refl)|clear; cbn [length]; lia]. }
    change (Tree.link p addr) with c.1. rewrite Ea. cbn [mbind option_bind]. unfold Tree.renew_leaf.
    rewrite (leaf_at_head l2 e1 es2 Ee2). cbn [mbind option_bind]. change (le_fanout e1) with (le_fanout e). rewrite Enl.
    destruct Hm as (->&_). change (el_id l1) with (el_id l). rewrite Ei, Em. reflexivity. }
  split; [exact Hae|]. split; [exact Hm|]. split; [exact (set_extent_head l2 (LeafExtent e1) _ _ Ee2)|].
  split; [exact Er2|]. split; [by etransitivity|]. split; [exact Hh'|]. split; [|split; [exact Hlv2|split; [exact Hk2|split; [|split; [exact Ewt|split; [exact Hlen|split; [exact Hto|split; [rewrite Eab; apply next_children_ne|split; [exact Hw1|exact Hw2]]]]]]]]].
  - intros Hl. destruct (Hlk Hl) as (Ef&_&_&Hch). rewrite Ef in Enl. rewrite Ela, Efa, Eab.
    pose proof (next_link_ok (above lv) c Hup) as Hnl.
    change (sr_addr c.1) with addr in Hnl. rewrite Enl in Hnl. injection Hnl as -> ->.
    split_and!; [done|done|by rewrite tail_next|]. apply chained_next; [eapply chained_mono; [|exact Hch]; by etransitivity|].
    eapply prev_of_mono; [exact Hsub2|]. rewrite <- (leaf_prev_next _ _ _ _ _ Hl Hh Hlk Hup). exact Hpv.
  - rewrite Ept, points_app. unfold c, content, points at 2. simpl. by rewrite app_nil_r.
Qed.

(** Adding a point to the leaf, unless it is full. *)
Lemma leaf_room e pts ts v :
  leaf_holds e pts → point_ok (ts, v) → finite v →
  ∃ st leaf, Leaf.append ts v (le_leaf e) = Some (st, leaf) ∧
    let e' := mkLeafExt (le_last e) leaf (le_fanout e) in
    (st = kOk ∧ leaf_holds e' (pts ++ [(ts, v)]) ∨ st = kOverflow ∧ pts ≠ [] ∧ leaf_holds e' pts).
Proof.
  intros [(h&Hinv&Hsum) Hfin Hp [Ef Hf] Hlk Hroom _] Hx Hv.
  destruct (leaf_append_ok _ _ _ _ ts v Hinv Hx) as (st&leaf&E&Epr&Efn&Hc). exists st, leaf. split; [exact E|]. cbv zeta.
  destruct Hc as [(->&_&Hinv')|(->&Hsp&Hinv')]; [left|right].
  - split; [reflexivity|]. assert (Hcap : Z.of_nat (length pts) < 22000).
    { destruct Hinv as (w&_&Hw&_). exact (holds_capacity _ _ _ _ Hw). }
    constructor; cbn [le_leaf le_last le_fanout].
    + eexists. split; [exact Hinv'|]. apply summarises_add; [exact Hsum|exact Hv|lia].
    + apply Forall_app. split; [exact Hfin|]. apply Forall_singleton. exact Hv.
    + rewrite Epr. exact Hp.
    + rewrite Efn. split; [exact Ef|exact Hf].
    + rewrite Epr. exact Hlk.
    + intros E2. destruct pts; discriminate E2.
    + intros E2. destruct pts; discriminate E2.
  - split; [reflexivity|]. assert (Hne : pts ≠ []) by (intros E2; specialize (Hroom E2); lia). split; [exact Hne|].
    constructor; cbn [le_leaf le_last le_fanout].
    + eexists. split; [exact Hinv'|exact Hsum].
    + exact Hfin.
    + rewrite Epr. exact Hp.
    + rewrite Efn. split; [exact Ef|exact Hf].
    + rewrite Epr. exact Hlk.
    + intros E2. destruct (Hne E2).
    + intros E2. destruct (Hne E2).
Qed.

Lemma leaf_append_room fuel l (s : B) e es pts ts v :
  el_extents l = LeafExtent e :: es → leaf_holds e pts → point_ok (ts, v) → finite v →
  (∃ e', Tree.leaf_append impl at_ (S fuel) ts v l s = Some (false, EMPTY_ADDR, Tree.set_extent 0 (LeafExtent e') l, s) ∧
     leaf_holds e' (pts ++ [(ts, v)]) ∧ le_fanout e' = le_fanout e ∧ le_last e' = le_last e) ∨
  (pts ≠ [] ∧ ∃ e', leaf_holds e' pts ∧ le_fanout e' = le_fanout e ∧ le_last e' = le_last e ∧
     Tree.leaf_append impl at_ (S fuel) ts v l s =
       ('(parent_saved, addr, l, s) ← Tree.leaf_commit impl at_ fuel false (Tree.set_extent 0 (LeafExtent e') l) s;
        '(_, _, l, s) ← Tree.leaf_append impl at_ fuel ts v l s;
        Some (parent_saved, addr, l, s))).
Proof.
  intros El Hh Hx Hv. destruct (leaf_room e pts ts v Hh Hx Hv) as (st&leaf&E&[[-> Hh']|(->&Hne&Hh')]); [left|right].
  - eexists. split; [|split; [exact Hh'|split; reflexivity]]. cbn [Tree.leaf_append]. rewrite (leaf_at_head l e es El).
    cbn [mbind option_bind]. rewrite E. cbn [mbind option_bind]. rewrite decide_False by (intros Hx2; discriminate Hx2). reflexivity.
  - split; [exact Hne|]. eexists. split; [exact Hh'|]. split; [reflexivity|]. split; [reflexivity|].
    cbn [Tree.leaf_append]. rewrite (leaf_at_head l e es El).
    cbn [mbind option_bind]. rewrite E. cbn [mbind option_bind]. rewrite decide_True by reflexivity. reflexivity.
Qed.

(** The first leaf is made when it is needed. *)
Lemma ensure_leaf l (s : B) hist pts lv :
  tree_ok l hist pts lv →
  ∃ l1 e es r rs,
    (if decide (el_extents l = []) then
       e ← Tree.make_leaf_extent impl at_ (el_id l) EMPTY_ADDR s; Some (Tree.push_extent (LeafExtent e) l)
     else Some l) = Some l1 ∧ same_meta l l1 ∧ el_write_count l1 = el_write_count l ∧
    el_extents l1 = LeafExtent e :: es ∧ el_rescue l1 = r :: rs ∧ (length es ≤ length (el_extents l))%nat ∧
    leaf_holds e pts ∧ link_ok lk hist (le_fanout e) (le_last e) r (above lv) ∧ levels_ok lk id hist 1 es lv rs.
Proof.
  intros [He _ _ [_ Ei] _]. destruct (el_extents l) as [|[e|e] es] eqn:Ee, (el_rescue l) as [|r rs] eqn:Er; try done.
  - destruct He as [-> ->]. rewrite decide_True by reflexivity. unfold Tree.make_leaf_extent. rewrite decide_True by reflexivity.
    destruct (leaf_make_holds EMPTY_ADDR 0 Hid) as (e&Em&Hh&Ela&Efa); [unfold is_u64, EMPTY_ADDR; lia|lia|].
    rewrite Ei, Em. cbn [mbind option_bind]. exists (Tree.push_extent (LeafExtent e) l), e, [], EMPTY_ADDR, [].
    split; [reflexivity|]. split; [repeat split|]. split; [reflexivity|].
    cbn [Tree.push_extent Tree.set_rescue Tree.set_extents el_extents el_rescue]. rewrite Ee, Er.
    split; [reflexivity|]. split; [reflexivity|]. split; [simpl; lia|]. split; [exact Hh|]. split; [|exact I].
    intros _. rewrite Ela, Efa. repeat split. constructor.
  - destruct He as (Hh&Hl&Hlv). rewrite decide_False by (intros E; discriminate E). exists l, e, es, r, rs.
    split; [reflexivity|]. split; [repeat split|]. split; [reflexivity|]. split; [exact Ee|]. split; [exact Er|].
    split; [cbn [length]; lia|]. split; [exact Hh|]. split; [exact Hl|exact Hlv].
Qed.

Lemma sorted_snoc pts ts v t : ts_sorted pts → (∀ x, x ∈ pts → x.1 ≤ t) → t ≤ ts → ts_sorted (pts ++ [(ts, v)]).
Proof.
  intros Hs Hle Ht. apply StronglySorted_app. split_and!; [|done|by repeat constructor].
  intros x y Hx ->%list_elem_of_singleton. specialize (Hle x Hx). simpl. lia.
Qed.

(** What appending a point costs at most. *)
Definition append_post (k : nat) (l : ExtentsList) (hist : gmap Z (list Z)) (pts : list point) (lv : list (list child))
    (x : point) (l' : ExtentsList) (s' : B) : Prop :=
  ∃ hist' pts' lv', hist ⊆ hist' ∧ tree_ok l' hist' pts' lv' ∧ pts' ≠ [] ∧
    content pts' lv' = content pts lv ++ [x] ∧ bs_inv (k + kept lv') s' hist' ∧ weight lv' ≤ weight lv + 1 ∧
    el_last l' = x.1 ∧ (length lv' ≤ S (length lv))%nat ∧ el_write_count l < el_write_count l' ∧
    el_write_count l' + Z.of_nat (kept lv') ≤ el_write_count l + Z.of_nat (kept lv) + 3.

Lemma append_ready_ok fuel l (s : B) hist pts lv ts v dup k :
  tree_ok l hist pts lv → point_ok (ts, v) → finite v → (if dup : bool then el_last l ≤ ts else el_last l < ts) →
  bs_inv (S (S k) + kept lv) s hist → Z.of_nat (length lv) + 1 < 2 ^ 16 →
  0 ≤ el_write_count l ∧ el_write_count l + Z.of_nat (kept lv) + 3 < 2 ^ 64 → (2 * length lv + 5 ≤ fuel)%nat →
  ∃ res l' s', Tree.append_ready impl at_ fuel ts v dup l s = Some (res, l', s') ∧
    (res = OK ∨ res = OK_FLUSH_NEEDED) ∧ append_post k l hist pts lv (ts, v) l' s'.
Proof.
  intros Hok Hx Hv Hlate Hk Hwt Hw Hfuel. pose proof Hok as [_ Hsort Hlast [Hini Ei] Htop].
  assert (Hle : el_last l ≤ ts) by (destruct dup; lia).
  set (l0 := Tree.count_write (Tree.set_last ts l)).
  assert (Hw0 : el_write_count l0 = el_write_count l + 1) by (cbn [l0 Tree.count_write Tree.set_last el_write_count]; rewrite u64_id by (unfold is_u64; lia); lia).
  assert (Hok0 : tree_ok l0 hist pts lv).
  { destruct Hok as [He H2 H3 H4 H5]. constructor; [exact He|exact H2| |exact H4|exact H5]. intros x Hin. specialize (H3 x Hin). simpl. lia. }
  destruct (ensure_leaf l0 s hist pts lv Hok0) as (l1&e&es&r&rs&El&(Em1&Em2&Em3)&Ewc&Ee&Er&Hlen&Hh&Hlk&Hlv).
  destruct (levels_length _ _ _ _ _ _ _ Hlv) as [Hes _].
  assert (Hnl : (if dup then bool_decide (ts < el_last l) else bool_decide (ts ≤ el_last l)) = false)
    by (destruct dup; apply bool_decide_eq_false_2; lia).
  unfold Tree.append_ready. rewrite Hnl.
  fold l0. rewrite El. cbn [mbind option_bind].
  destruct fuel as [|fuel]; [lia|].
  destruct (leaf_append_room fuel l1 s e es pts ts v Ee Hh Hx Hv) as [(e'&Ea&Hh'&Efa&Ela)|(Hne&e'&Hh'&Efa&Ela&Ea)].
  - rewrite Ea. cbn [mbind option_bind]. rewrite decide_False by (intros Hx2; by apply Hx2).
    eexists OK, _, s. split; [reflexivity|]. split; [left; reflexivity|]. exists hist, (pts ++ [(ts, v)]), lv.
    assert (Hc : content (pts ++ [(ts, v)]) lv = content pts lv ++ [(ts, v)]) by (unfold content; by rewrite app_assoc).
    split; [reflexivity|]. split; [|split; [by destruct pts|split; [exact Hc|split; [|split; [lia|split; [exact Em2|split; [lia|]]]]]]].
    + constructor.
      * rewrite (set_extent_head l1 (LeafExtent e) _ es Ee). simpl el_rescue. rewrite Er.
        split; [exact Hh'|]. rewrite Efa, Ela. split; [exact Hlk|exact Hlv].
      * rewrite Hc. by eapply sorted_snoc.
      * intros x. rewrite Hc. simpl el_last. rewrite Em2. intros [Hin|Hin]%elem_of_app; [specialize (Hlast x Hin); simpl; lia|].
        apply list_elem_of_singleton in Hin as ->. simpl. lia.
      * simpl. rewrite Em1, Em3. by split.
      * exact Htop.
    + apply (bs_weaken_by 2). exact Hk.
    + simpl el_write_count. rewrite Ewc, Hw0. lia.
  - rewrite Ea. set (l1' := Tree.set_extent 0 (LeafExtent e') l1).
    assert (Ee1 : el_extents l1' = LeafExtent e' :: es) by (exact (set_extent_head l1 (LeafExtent e) _ es Ee)).
    destruct (leaf_commit_told fuel false l1' s hist pts lv e' es r rs k)
      as (sv&addr&l2&s2&hist2&e2&es2&lv2&rs2&Ec&Hae&(Em4&Em5&Em6)&Ee2&Er2&Hsub&Hh2&Hlk2&Hlv2&Hk2&Ept&Ewt&Hlen2&Hto2&_&Hw1&Hw2);
      [exact Ee1|exact Er|simpl; by rewrite Em1|exact Hh'|exact Hne|by rewrite Efa, Ela|exact Hlv|exact Hsort|exact Hk|exact Hwt
      |simpl el_write_count; rewrite Ewc, Hw0; clear - Hw; lia|clear - Hfuel Hes; lia|left; reflexivity|].
    rewrite Ec. cbn [mbind option_bind]. destruct fuel as [|fuel]; [clear - Hfuel; lia|].
    destruct (leaf_append_room fuel l2 s2 e2 es2 [] ts v Ee2 Hh2 Hx Hv) as [(e3&Ea3&Hh3&Efa3&Ela3)|(Hno&_)]; [|destruct (Hno eq_refl)].
    rewrite Ea3. cbn [mbind option_bind]. rewrite decide_True by exact Hae.
    unfold Tree.save_point. simpl el_rescue. rewrite Er2. rewrite decide_True by (cbn [length]; clear; lia).
    cbn [mbind option_bind]. eexists OK_FLUSH_NEEDED, _, s2. split; [reflexivity|]. split; [right; reflexivity|].
    exists hist2, [(ts, v)], lv2.
    assert (Hc : content [(ts, v)] lv2 = content pts lv ++ [(ts, v)]) by (unfold content at 1; by rewrite Ept).
    split; [exact Hsub|]. split; [|split; [intros E; discriminate E|split; [exact Hc|split; [exact Hk2|split; [lia|split; [|split; [exact Hlen2|]]]]]]].
    + constructor.
      * simpl el_extents. rewrite Ee2. simpl. split; [exact Hh3|]. rewrite Efa3, Ela3. split; [exact Hlk2|exact Hlv2].
      * rewrite Hc. by eapply sorted_snoc.
      * intros x. rewrite Hc. simpl el_last. rewrite Em5. simpl el_last. rewrite Em2.
        intros [Hin|Hin]%elem_of_app; [specialize (Hlast x Hin); simpl; lia|].
        apply list_elem_of_singleton in Hin as ->. simpl. lia.
      * simpl. rewrite Em4, Em6. simpl. rewrite Em1, Em3. by split.
      * exact (Hto2 Htop).
    + simpl el_last. rewrite Em5. exact Em2.
    + simpl el_write_count in *. rewrite Ewc, Hw0 in *. lia.
Qed.

(** ** Searching *)

(** The forward query over all times. *)
Definition everything (b e : Z) : Prop := b ≤ 0 ∧ TS_MAX ≤ e.

Lemma range_nil b e : range_points b e [] = [].
Proof. unfold range_points. by case_decide. Qed.
Lemma select_nil f b e : select f b e [] = [].
Proof. apply select_empty, range_nil. Qed.

Section Search.
Variables (k : nat) (bstore : B) (hist : gmap Z (list Z)).
Hypothesis Hstore : bs_inv k bstore hist.

Notation view := (view impl (at_ 0%nat) bstore).
Notation view_any := (view_any impl (at_ 0%nat) bstore).
Notation ex := (λ a, bs_exists a bstore).

(** A leaf without points; its range of time is empty. *)
Lemma empty_leaf_view l h f b e :
  Leaf.get_leafmeta l = Some h → sr_begin h = TS_MAX → sr_end h = 0 → Leaf.read_all l = Some (kOk, []) →
  exact_query f b e → ¬ (b < e ∧ everything b e) →
  ∃ op, match f with
    | None => it ← LeafIter.make b e l; Some (OpLeaf it)
    | Some f => it ← LeafFilterOp.make b e f l; Some (OpLeafFilter it)
    end = Some op ∧ view 0 op [].
Proof.
  intros Eh Eb Ee Er Hq Hev. assert (Eo : LeafIter.outside b e l = Some (bool_decide (Z.max b e < TS_MAX) || bool_decide (0 < Z.min b e))).
  { unfold LeafIter.outside, Leaf.get_timestamps. rewrite Eh. cbn [mbind option_bind]. by rewrite Eb, Ee. }
  unfold everything in Hev. destruct f as [f|].
  - destruct Hq as [Hbe _]. unfold LeafFilterOp.make. rewrite Eo. cbn [mbind option_bind].
    assert (bool_decide (Z.max b e < TS_MAX) || bool_decide (0 < Z.min b e) = true) as ->
      by (rewrite orb_true_iff, !bool_decide_eq_true; lia).
    eexists. split; [reflexivity|]. split; [reflexivity|]. right. by split.
  - unfold LeafIter.make, LeafIter.init. cbn [LeafIter.make_delayed li_begin li_end li_buf li_from li_to].
    rewrite Eo. cbn [mbind option_bind]. destruct (_ || _) eqn:Ho.
    + eexists. split; [reflexivity|]. split; [|right; by split]. split_and!; simpl; try lia. reflexivity.
    + rewrite orb_false_iff, !bool_decide_eq_false in Ho. rewrite Er. cbn [mbind option_bind].
      rewrite decide_False by (intros Hx; by apply Hx). rewrite decide_False by lia.
      eexists. split; [reflexivity|]. split; [|by left]. split_and!; simpl; try lia. reflexivity.
Qed.

Lemma leaf_ext_view e pts f b e' :
  leaf_holds e pts → ts_sorted pts → exact_query f b e' → pts ≠ [] ∨ ¬ (b < e' ∧ everything b e') →
  ∃ op, Tree.ext_search b e' f (LeafExtent e) = Some op ∧ view_any op (select f b e' pts).
Proof.
  intros Hh Hs Hq Hne. destruct (lh_leaf _ _ Hh) as (h&Hinv&Hsum). pose proof (read_all_open _ _ _ _ Hinv Hid) as Er.
  destruct (leaf_block _ _ _ _ Hinv) as (_&_&Eh&_). destruct (decide (pts = [])) as [->|Hp].
  - destruct Hne as [?|Hne]; [done|]. destruct (lh_empty _ _ Hh eq_refl) as (h'&Eh'&Eb&Ee).
    destruct (empty_leaf_view (le_leaf e) h' f b e' Eh' Eb Ee Er Hq Hne) as (op&E&Hv). exists op.
    split; [|rewrite select_nil; by exists 0%nat]. rewrite <- E. by destruct f.
  - assert (Hl : leaf_reads (le_leaf e) h pts) by (split; [exact Er|split; [exact Eh|exact Hsum]]). destruct f as [f|].
    + destruct (leaf_filter_view impl (at_ 0%nat) bstore _ _ _ b e' f Hl Hs Hp (proj1 Hq)) as (it&E&Hv).
      exists (OpLeafFilter it). split; [unfold Tree.ext_search; rewrite E; reflexivity|by exists 0%nat].
    + destruct (leaf_view impl (at_ 0%nat) bstore _ _ _ b e' Hl Hs Hp) as (it&E&Hv).
      exists (OpLeaf it). split; [unfold Tree.ext_search; rewrite E; reflexivity|by exists 0%nat].
Qed.

Lemma inner_ext_view i e cs f b e' :
  inner_holds lk id hist (S i) e cs → exact_query f b e' →
  ∃ op, Tree.ext_search b e' f (SBlockExtent e) = Some op ∧ view_any op (select f b e' (shown ex (level_pieces cs))).
Proof.
  intros [[h Hs] Hc _ _ _ _ _] Hq. unfold Tree.ext_search, SBlock.of_node. rewrite (read_all_ok _ _ _ Hs).
  replace (S i - 1)%nat with i in Hc by lia.
  cbn [mbind option_bind]. rewrite decide_False by (intros Hx; by apply Hx).
  destruct f as [f|]; (eexists; split; [reflexivity|]; exists (S i); apply view_node_view;
    match goal with |- view_node _ _ _ _ ?s _ _ => apply (node_view impl (at_ 0%nat) bstore i (cs.*1) (cs.*2) s) end;
    [|done..]; (eapply Forall2_impl; [by apply children_trees|]); intros r p Ht;
    by eapply (tree_opens impl (at_ 0%nat) k bstore hist id Hstore Hid)).
Qed.

(** All the extents, from the leaf up. *)
Definition ext_points (pts : list point) (lv : list (list child)) : list (list point) :=
  pts :: ((λ cs, shown ex (level_pieces cs)) <$> lv).

Definition visible (pts : list point) (lv : list (list child)) : list point := shown ex (levels_pieces lv) ++ pts.

Lemma visible_concat pts lv : visible pts lv = concat (reverse (ext_points pts lv)).
Proof.
  unfold visible, ext_points. rewrite reverse_cons, concat_app. simpl. rewrite app_nil_r. f_equal.
  induction lv as [|cs lv IH]; [done|]. rewrite fmap_cons, reverse_cons, concat_app. simpl.
  by rewrite shown_app, IH, app_nil_r.
Qed.

Lemma levels_view i es lv rs f b e :
  levels_ok lk id hist (S i) es lv rs → exact_query f b e →
  Forall2 (λ x pts, ∃ op, Tree.ext_search b e f x = Some op ∧ view_any op (select f b e pts)) es
    ((λ cs, shown ex (level_pieces cs)) <$> lv).
Proof.
  intros Hlv Hq. revert i lv rs Hlv. induction es as [|[|x] es IH]; intros i [|cs lv] [|r rs]; try done.
  intros (Hh&_&Hlv). constructor; [by eapply inner_ext_view|by eapply IH].
Qed.

Lemma ext_searches_ok f b e es pss :
  Forall2 (λ x pts, ∃ op, Tree.ext_search b e f x = Some op ∧ view_any op (select f b e pts)) es pss →
  ∃ ops, Tree.ext_searches b e f es = Some ops ∧ Forall2 view_any ops (select f b e <$> pss) ∧ length ops = length es.
Proof.
  induction 1 as [|x p es pss (op&E&Hv) _ (ops&Es&Hf&Hl)]; [by exists []|]. exists (op :: ops).
  simpl. rewrite E. cbn [mbind option_bind]. rewrite Es. split; [reflexivity|]. split; [by constructor|simpl; lia].
Qed.

(** The operator that a query gets has exactly the points of the range to
    deliver. *)
Lemma search_view l pts lv f b e :
  tree_ok l hist pts lv → exact_query f b e → pts ≠ [] ∨ ¬ (b < e ∧ everything b e) →
  ∃ op P, Tree.search b e f l = Some op ∧ reads impl (at_ 0%nat) bstore P ∧ P op (select f b e (visible pts lv)).
Proof.
  intros [He Hsort _ _ _] Hq Hne. unfold Tree.search.
  destruct (el_extents l) as [|[x|x] es] eqn:Ee, (el_rescue l) as [|r rs]; try done.
  - destruct He as [-> ->]. eexists _, (view 0). split; [reflexivity|]. split; [exact (reads_view impl (at_ 0%nat) bstore 0)|].
    rewrite visible_concat. simpl. by rewrite select_nil.
  - destruct He as (Hh&_&Hlv). destruct (leaf_ext_view x pts f b e Hh (sorted_app_r _ _ Hsort) Hq Hne) as (op0&E0&Hv0).
    assert (Hall : Forall2 (λ x pts, ∃ op, Tree.ext_search b e f x = Some op ∧ view_any op (select f b e pts))
      (visit b e (reverse (LeafExtent x :: es))) (visit b e (reverse (ext_points pts lv)))).
    { assert (Hf : Forall2 (λ x pts, ∃ op, Tree.ext_search b e f x = Some op ∧ view_any op (select f b e pts))
        (LeafExtent x :: es) (ext_points pts lv)) by (constructor; [eauto|by eapply levels_view]).
      unfold visit. case_decide; [by apply Forall2_reverse|]. by rewrite !reverse_involutive. }
    destruct (ext_searches_ok f b e _ _ Hall) as (ops&Eops&Hops&Hlen).
    assert ((if decide (b < e) then reverse (LeafExtent x :: es) else LeafExtent x :: es) = visit b e (reverse (LeafExtent x :: es))) as ->.
    { unfold visit. case_decide; [done|]. by rewrite reverse_involutive. }
    rewrite Eops. cbn [mbind option_bind]. rewrite visible_concat, select_concat.
    set (want := select f b e <$> visit b e (reverse (ext_points pts lv))) in *.
    pose proof (reads_chain impl (at_ 0%nat) bstore) as Hrc.
    destruct ops as [|op1 [|op2 ops]].
    + apply Forall2_nil_inv_l in Hops. eexists _, _. split; [reflexivity|]. split; [exact Hrc|]. rewrite Hops.
      exists [], 0%nat, []. split; [reflexivity|]. split; [constructor|reflexivity].
    + apply Forall2_cons_inv_l in Hops as (w&?&Hv&->%Forall2_nil_inv_l&->). eexists _, _. split; [reflexivity|].
      split; [apply reads_any|]. simpl concat. by rewrite app_nil_r.
    + eexists _, _. split; [reflexivity|]. split; [exact Hrc|].
      eexists _, 0%nat, want. split; [reflexivity|]. split; [exact Hops|reflexivity].
Qed.

Lemma search_ok l pts lv f b e :
  tree_ok l hist pts lv → exact_query f b e → pts ≠ [] ∨ ¬ (b < e ∧ everything b e) →
  ∃ op, Tree.search b e f l = Some op ∧ ∀ size, (0 < size)%nat → ∃ N, ∀ rounds fuel, (N ≤ fuel)%nat →
    (length (select f b e (visible pts lv)) < rounds)%nat →
    SBlock.drain impl (at_ 0%nat) bstore rounds fuel size op = Some (select f b e (visible pts lv), kNoData).
Proof.
  intros Hok Hq Hne. destruct (search_view l pts lv f b e Hok Hq Hne) as (op&P&E&HP&Hop). exists op. split; [exact E|].
  intros size Hsz. exact (drain_reads impl (at_ 0%nat) bstore P op _ size HP Hop Hsz).
Qed.

End Search.

End Leaf.
End Trees.
