(* ===== verification/TreeRun.v ===== *)
(** * A tree in use: appends and queries

    The theorems about a whole series, from an empty list on. *)
From stdpp Require Import sorting.
From S2P Require Import Prelude Status ByteStream Base128 VByte DataBlock DataBlockProof IOVec Blocks Volume Crc32c BlockStoreProof MemStore Double SubtreeRef Operator Leaf LeafIter Superblock TreeIter TreeRead Extents Content ExtentsProof TreeProof.

(** ** What is visible *)

Lemma shown_sublist ex ps : sublist (shown ex ps) (points ps).
Proof.
  unfold shown. induction ps as [|p ps IH]; [done|]. rewrite filter_cons.
  change (points (p :: ps)) with (p.2 ++ points ps). case_decide; [|by apply sublist_inserts_l].
  change (points (p :: filter (λ p, Forall (λ a, ex a = true) p.1) ps)) with (p.2 ++ points (filter (λ p, Forall (λ a, ex a = true) p.1) ps)).
  by apply sublist_app.
Qed.

(** Every block on the way to a piece is in the history. *)
Lemma tree_paths id hist n ref ps :
  tree id hist n ref ps → Forall (λ p, Forall (λ a, is_Some (hist !! a)) p.1) ps.
Proof.
  revert ref ps. induction n as [|n IH]; intros ref ps (_&_&_&_&_&img&h&Ha&_&_&_&Ht).
  - destruct Ht as (pts&_&_&_&->). by repeat constructor.
  - destruct Ht as (refs&pss&_&_&_&_&Hf&->). unfold under. apply Forall_fmap, Forall_concat.
    eapply Forall2_Forall_r; [exact Hf|]. apply Forall_true. intros r p Hrp. eapply Forall_impl; [by eapply IH|].
    intros q Hq. simpl. by constructor.
Qed.

Lemma levels_paths lk id hist i es lv rs :
  levels_ok lk id hist (S i) es lv rs → Forall (λ p, Forall (λ a, is_Some (hist !! a)) p.1) (levels_pieces lv).
Proof.
  revert i lv rs. induction es as [|[|e] es IH]; intros i [|cs lv] [|r rs]; try done.
  intros (Hh&_&Hlv). cbn [levels_pieces]. apply Forall_app. split; [exact (IH _ _ _ Hlv)|].
  unfold level_pieces. apply Forall_concat, Forall_fmap. eapply Forall_impl; [apply (ih_children _ _ _ _ _ _ Hh)|].
  intros c Hc. exact (tree_paths _ _ _ _ _ Hc).
Qed.

Lemma visible_all {B} `{BlockStore B} (s : B) lk id l hist pts lv :
  tree_ok lk id l hist pts lv → (∀ a, is_Some (hist !! a) → bs_exists a s = true) → visible s pts lv = content pts lv.
Proof.
  intros [He _ _ _ _] Hex. unfold visible, content. f_equal. apply shown_all.
  assert (Forall (λ p, Forall (λ a, is_Some (hist !! a)) p.1) (levels_pieces lv)) as Hp.
  { destruct (el_extents l) as [|[e|] es], (el_rescue l) as [|r rs]; try done; [by destruct He as [_ ->]|].
    destruct He as (_&_&Hlv). by eapply levels_paths. }
  eapply Forall_impl; [exact Hp|]. intros p Hq. eapply Forall_impl; [exact Hq|]. exact Hex.
Qed.

Lemma visible_sublist {B} `{BlockStore B} (s : B) pts lv : sublist (visible s pts lv) (content pts lv).
Proof. unfold visible, content. apply sublist_app; [apply shown_sublist|done]. Qed.

(** Fewer than 2^64 nodes make at most 13 levels above the leaves. *)
Lemma few_levels lv : top_ok lv → weight lv < 2 ^ 64 → (length lv ≤ 13)%nat.
Proof.
  intros Ht Hw. destruct lv as [|cs lv]; [simpl; lia|]. pose proof (top_weight cs lv Ht) as Hp.
  assert (32 ^ Z.of_nat (length lv) < 32 ^ 13) as Hlt by lia. apply Z.pow_lt_mono_r_iff in Hlt; simpl; lia.
Qed.

(** ** A run of appends *)

Section Run.
Context {B : Type} `{BlockStoreLaws B} (impl : crc32c_impl_t) `{!Crc32cImpl impl} (at_ : nat → Z).
Variables (lk : bool) (id : Z).
Hypothesis Hid : is_u64 id.

Fixpoint append_points (rounds fuel : nat) (pts : list point) (l : ExtentsList) (s : B)
    : option (list NBTreeAppendResult * ExtentsList * B) :=
  match pts with
  | [] => Some ([], l, s)
  | x :: pts =>
    '(r, l, s) ← Tree.append impl at_ rounds fuel x.1 x.2 true l s;
    '(rs, l, s) ← append_points rounds fuel pts l s;
    Some (r :: rs, l, s)
  end.

Lemma append_ok rounds fuel l (s : B) hist pts lv ts v dup k :
  tree_ok lk id l hist pts lv → point_ok (ts, v) → finite v → (if dup : bool then el_last l ≤ ts else el_last l < ts) →
  bs_inv (S (S k) + kept lv) s hist → weight lv < 2 ^ 64 →
  0 ≤ el_write_count l ∧ el_write_count l + Z.of_nat (kept lv) + 3 < 2 ^ 64 → (31 ≤ fuel)%nat →
  ∃ res l' s', Tree.append impl at_ rounds fuel ts v dup l s = Some (res, l', s') ∧
    (res = OK ∨ res = OK_FLUSH_NEEDED) ∧ append_post lk id k l hist pts lv (ts, v) l' s'.
Proof.
  intros Hok Hx Hv Hlate Hk Hwt Hw Hfuel. pose proof (few_levels lv (to_top _ _ _ _ _ _ Hok) Hwt) as Hlen.
  unfold Tree.append, Tree.force_init. rewrite (proj1 (to_ready _ _ _ _ _ _ Hok)). cbn [mbind option_bind].
  apply append_ready_ok; try assumption; clear - Hlen Hfuel; lia.
Qed.

Lemma append_points_ok rounds fuel pts l (s : B) hist old lv k :
  tree_ok lk id l hist old lv → Forall point_ok pts → Forall (λ x, finite x.2) pts → ts_sorted pts →
  (∀ x, head pts = Some x → el_last l ≤ x.1) →
  bs_inv (2 * length pts + k + kept lv) s hist → weight lv + Z.of_nat (length pts) ≤ 2 ^ 64 →
  0 ≤ el_write_count l ∧ el_write_count l + Z.of_nat (kept lv) + 3 * Z.of_nat (length pts) < 2 ^ 64 → (31 ≤ fuel)%nat →
  ∃ rs l' s' hist' pts' lv', append_points rounds fuel pts l s = Some (rs, l', s') ∧
    Forall (λ r, r = OK ∨ r = OK_FLUSH_NEEDED) rs ∧ hist ⊆ hist' ∧ tree_ok lk id l' hist' pts' lv' ∧
    content pts' lv' = content old lv ++ pts ∧ (old ≠ [] ∨ pts ≠ [] → pts' ≠ []) ∧
    bs_inv (k + kept lv') s' hist' ∧ weight lv' ≤ weight lv + Z.of_nat (length pts) ∧
    (pts ≠ [] → el_write_count l < el_write_count l') ∧ el_write_count l ≤ el_write_count l' ∧
    el_write_count l' + Z.of_nat (kept lv') ≤ el_write_count l + Z.of_nat (kept lv) + 3 * Z.of_nat (length pts).
Proof.
  intros Hok Hp Hf Hs. revert l s hist old lv Hok. induction pts as [|[ts v] pts IH]; intros l s hist old lv Hok Hh Hk Hwt Hw Hfuel.
  { exists [], l, s, hist, old, lv. rewrite app_nil_r. simpl in *. split_and!; try done; try lia. by intros [?|?]. }
  apply Forall_cons in Hp as [Hx Hp]. apply Forall_cons in Hf as [Hv Hf]. apply StronglySorted_cons in Hs as [Hle Hs].
  cbn [length] in *. pose proof (Hh _ eq_refl) as Hts.
  destruct (append_ok rounds fuel l s hist old lv ts v true (2 * length pts + k)%nat)
    as (r&l1&s1&Ea&Hr&hist1&pts1&lv1&Hsub1&Hok1&Hne1&Hc1&Hk1&Hwt1&Hl1&_&Hw1&Hw2); try assumption; try lia.
  { by replace (S (S (2 * length pts + k)) + kept lv)%nat with (2 * S (length pts) + k + kept lv)%nat by lia. }
  destruct (IH Hp Hf Hs l1 s1 hist1 pts1 lv1 Hok1)
    as (rs&l'&s'&hist'&pts'&lv'&Es&Hrs&Hsub&Hok'&Hc&Hne&Hk'&Hwt'&Hw3&Hw3'&Hw4); try assumption; try lia.
  { intros x Hx2. rewrite Hl1. destruct pts as [|y pts]; [done|]. injection Hx2 as ->. by apply Forall_cons in Hle as [? _]. }
  exists (r :: rs), l', s', hist', pts', lv'. cbn [append_points]. cbn [fst snd]. rewrite Ea. cbn [mbind option_bind].
  rewrite Es. split; [reflexivity|]. split; [by constructor|]. split; [by etransitivity|]. split; [exact Hok'|].
  split; [rewrite Hc, Hc1, <- app_assoc; reflexivity|]. split; [intros _; apply Hne; by left|].
  split; [exact Hk'|]. split; [lia|]. split; [lia|]. split; lia.
Qed.

(** ** From an empty list *)

Lemma fresh_ok hist : tree_ok lk id (mkList [] id 0 [] true 0) hist [] [].
Proof. constructor; try done; [constructor|]. intros x Hx. by apply not_elem_of_nil in Hx. Qed.

Lemma append_points_fresh rounds fuel pts (s : B) :
  pts ≠ [] →
  append_points rounds fuel pts (mkList [] id 0 [] false 0) s = append_points rounds fuel pts (mkList [] id 0 [] true 0) s.
Proof. by destruct pts. Qed.

Lemma length_select f b e pts : (length (select f b e pts) ≤ length pts)%nat.
Proof.
  assert (length (range_points b e pts) ≤ length pts)%nat as Hr.
  { unfold range_points. case_decide; rewrite ?length_reverse; apply length_filter. }
  destruct f; [|exact Hr]. simpl. unfold LeafFilterOp.matching. etransitivity; [apply length_filter|exact Hr].
Qed.

Lemma fresh_run rounds fuel pts (s : B) hist k :
  Forall point_ok pts → Forall (λ x, finite x.2) pts → ts_sorted pts → pts ≠ [] → Z.of_nat (length pts) < 2 ^ 62 →
  bs_inv (2 * length pts + k) s hist → (31 ≤ fuel)%nat →
  ∃ l0 rs l s' hist' pts' lv', Tree.make id [] = Some l0 ∧ append_points rounds fuel pts l0 s = Some (rs, l, s') ∧
    Forall (λ r, r = OK ∨ r = OK_FLUSH_NEEDED) rs ∧ hist ⊆ hist' ∧ tree_ok lk id l hist' pts' lv' ∧
    content pts' lv' = pts ∧ pts' ≠ [] ∧ bs_inv (k + kept lv') s' hist' ∧ weight lv' ≤ Z.of_nat (length pts) ∧
    0 < el_write_count l ∧ el_write_count l + Z.of_nat (kept lv') ≤ 3 * Z.of_nat (length pts).
Proof.
  intros Hp Hf Hs Hne Hlen Hk Hfuel. unfold Tree.make. rewrite decide_False by (simpl; lia).
  destruct (append_points_ok rounds fuel pts (mkList [] id 0 [] true 0) s hist [] [] k)
    as (rs&l&s'&hist'&pts'&lv'&E&Hrs&Hsub&Hok&Hc&Hpne&Hk'&Hwt&Hw1&_&Hw2); try assumption; try apply fresh_ok.
  { intros x Hx. rewrite Forall_forall in Hp. apply head_Some_elem_of in Hx. destruct (Hp x Hx) as [[? _] _]. done. }
  { by rewrite Nat.add_0_r. }
  { simpl. lia. }
  { cbn [el_write_count]. change (kept []) with 0%nat. lia. }
  eexists _, rs, l, s', hist', pts', lv'. split; [reflexivity|]. rewrite append_points_fresh by done.
  split; [exact E|]. split; [exact Hrs|]. split; [exact Hsub|]. split; [exact Hok|]. split; [exact Hc|].
  split; [apply Hpne; by right|]. split; [exact Hk'|]. split; [exact Hwt|]. specialize (Hw1 Hne). cbn [el_write_count] in *.
  change (kept []) with 0%nat in *. lia.
Qed.

End Run.

(** ** Properties *)


(** ** Witnesses *)

Definition sample_points : list point := [(10, 0x3FF0000000000000); (20, 0x4000000000000000); (30, 0)].

