(* ===== verification/TreeClose.v ===== *)
(** * Closing the tree and opening it again

    [close] commits every extent from the leaf up and leaves one address, that
    of the root; a list made from it and opened shows the same points. *)
From stdpp Require Import sorting.
From S2P Require Import Prelude Status ByteStream Base128 VByte DataBlock DataBlockProof IOVec Blocks Volume Crc32c BlockStoreProof MemStore Double SubtreeRef Operator Leaf LeafIter Superblock TreeIter TreeRead Extents Content ExtentsProof TreeProof TreeRun.

Section Close.
Context {B : Type} `{BlockStoreLaws B} (impl : crc32c_impl_t) `{!Crc32cImpl impl} (at_ : nat → Z).
Variables (lk : bool) (id : Z) (K : nat).
Hypotheses (Hid : is_u64 id) (HK : (K ≤ 12)%nat).

(** ** The two halves of a commit *)

Lemma save_sblock_ok l lower e es i hist cs (s : B) k :
  el_extents l = lower ++ SBlockExtent e :: es → length lower = S i → inner_holds lk id hist (S i) e cs → cs ≠ [] →
  ts_sorted (points (level_pieces cs)) → Z.of_nat (S i) < 2 ^ 16 → bs_inv (S k) s hist →
  ∃ e1 payload addr s1 hist1,
    Tree.save_sblock impl at_ (S i) l s = Some (payload, addr, Tree.set_extent (S i) (SBlockExtent e1) l, s1) ∧
    hist ⊆ hist1 ∧ bs_inv k s1 hist1 ∧ is_u64 addr ∧ addr ≠ EMPTY_ADDR ∧ addr ≠ 0 ∧ sr_addr payload = addr ∧
    tree id hist1 (S i) payload (under addr (level_pieces cs)) ∧ prev_of hist1 payload (sb_prev (se_curr e)) ∧
    sr_level payload = Z.of_nat (S i) ∧ se_fanout e1 = se_fanout e ∧ se_level e1 = se_level e.
Proof.
  intros El Hl Hh Hne Hsort Hi Hk.
  destruct (save_node lk id impl at_ Hid hist i e cs k s Hh Hne Hsort Hi Hk)
    as (addr&curr&p&s1&img&Ecm&Ein&Hau&Hae&Ha0&Hfr&Hk1&Epl&Htp&Hpv).
  eexists _, (Tree.link p addr), addr, s1, (<[addr := img]> hist). split.
  { unfold Tree.save_sblock. rewrite (sblock_at_middle l lower e es) by assumption. cbn [mbind option_bind].
    rewrite Ecm. cbn [mbind option_bind]. rewrite decide_False by (intros Hx; by apply Hx).
    rewrite Ein. cbn [mbind option_bind]. rewrite decide_False by (intros Hx; by apply Hx). reflexivity. }
  split; [by apply insert_subseteq|]. split_and!; try assumption; reflexivity.
Qed.

Lemma renew_sblock_ok l lower e es i addr :
  el_id l = id → el_extents l = lower ++ SBlockExtent e :: es → length lower = S i → 0 ≤ se_fanout e < 32 →
  is_u64 addr → addr ≠ 0 →
  ∃ e', Tree.renew_sblock (S i) addr l = Some (Tree.set_extent (S i) (SBlockExtent e') l).
Proof.
  intros Ei El Hl Hf Hau Ha0. destruct (Tree.next_link (se_fanout e) addr) as [fan last] eqn:Enl.
  destruct (next_link_range _ _ _ _ Hf Enl) as [Hfan Hlast].
  destruct (super_make_ok id last fan (se_level e)) as (curr&Em&_); [by destruct Hlast as [->| ->]|].
  eexists. unfold Tree.renew_sblock. rewrite (sblock_at_middle l lower e es) by assumption. cbn [mbind option_bind].
  rewrite Enl, Ei. cbn [mbind option_bind]. rewrite Em. reflexivity.
Qed.

(** ** The loop over the inner levels *)

(** The root of a tree that was closed; it has at most [S K] levels above the
    leaves. *)
Definition closed_at (l : ExtentsList) (hist : gmap Z (list Z)) (addr : Z) (pts : list point) : Prop :=
  ∃ n ref ps, length (el_rescue l) = S n ∧ (n ≤ S K)%nat ∧ tree id hist n ref ps ∧ sr_addr ref = addr ∧ points ps = pts ∧
    is_u64 addr ∧ addr ≠ EMPTY_ADDR.

(** Few levels: [w] nodes of the level below. *)
Lemma level_bound i cs lv :
  top_ok (cs :: lv) → lv ≠ [] → (weight (cs :: lv) - 1) * 32 ^ Z.of_nat i < 32 ^ Z.of_nat K → (i + length lv ≤ K)%nat.
Proof.
  intros Ht Hne Hw. pose proof (top_weight cs lv Ht) as Hp. destruct lv as [|c lv]; [done|]. clear Hne. cbn [length] in *.
  rewrite Nat2Z.inj_succ, Z.pow_succ_r in Hp by lia.
  pose proof (Z.pow_pos_nonneg 32 (Z.of_nat (length lv)) ltac:(lia) ltac:(lia)).
  pose proof (Z.pow_pos_nonneg 32 (Z.of_nat i) ltac:(lia) ltac:(lia)).
  assert (32 ^ (Z.of_nat i + Z.of_nat (length lv)) < 32 ^ Z.of_nat K) as Hlt.
  { rewrite Z.pow_add_r by lia. eapply Z.le_lt_trans; [|exact Hw]. rewrite Z.mul_comm. apply Z.mul_le_mono_nonneg_r; lia. }
  apply Z.pow_lt_mono_r_iff in Hlt; lia.
Qed.

Lemma close_step i cs lv lv' :
  (length cs ≤ 32)%nat → cs ≠ [] → weight lv' = weight lv + 1 →
  (weight (cs :: lv) - 1) * 32 ^ Z.of_nat i < 32 ^ Z.of_nat K → (weight lv' - 1) * 32 ^ Z.of_nat (S i) < 32 ^ Z.of_nat K.
Proof.
  intros Hl Hne -> Hw. eapply Z.le_lt_trans; [|exact Hw]. rewrite Nat2Z.inj_succ, Z.pow_succ_r by lia.
  pose proof (Z.pow_pos_nonneg 32 (Z.of_nat i) ltac:(lia) ltac:(lia)).
  assert (1 ≤ Z.of_nat (length cs)) by (destruct cs; [done|simpl; lia]). cbn [weight].
  rewrite Z.mul_assoc. apply Z.mul_le_mono_nonneg_r; lia.
Qed.

Lemma close_loop_S n fuel index res l (s : B) e :
  el_extents l !! index = Some e →
  Tree.close_loop impl at_ (S n) fuel index res l s =
    (dirty ← Tree.is_dirty e;
     if dirty : bool then
       '(parent_saved, addr, l, s) ← Tree.ext_commit impl at_ fuel index true e l s;
       Tree.close_loop impl at_ n fuel (index + 1) (parent_saved, addr) l s
     else Tree.close_loop impl at_ n fuel (index + 1) res l s).
Proof.
  intros E. cbn [Tree.close_loop]. rewrite decide_False by (apply Nat.nle_gt; by eapply lookup_lt_Some).
  by rewrite E.
Qed.

Lemma close_loop_end n fuel index res l (s : B) :
  (length (el_extents l) ≤ index)%nat → Tree.close_loop impl at_ (S n) fuel index res l s = Some (res.1, res.2, l, s).
Proof. intros Hl. cbn [Tree.close_loop]. by rewrite decide_True. Qed.

Lemma inner_dirty hist i e cs : inner_holds lk id hist i e cs → cs ≠ [] → Tree.is_dirty (SBlockExtent e) = Some true.
Proof.
  intros [[h Hs] _ _ _ _ _ _] Hne. cbn [Tree.is_dirty]. unfold Super.nelements. rewrite (si_len _ _ _ Hs), length_fmap.
  by rewrite bool_decide_eq_true_2 by (by destruct cs).
Qed.

(** The root: nobody is told. *)
Lemma close_root n fuel i l (s : B) hist lower rlower e cs r res k :
  el_id l = id → el_extents l = lower ++ [SBlockExtent e] → el_rescue l = rlower ++ [r] →
  length lower = S i → length rlower = S i → inner_holds lk id hist (S i) e cs → cs ≠ [] →
  ts_sorted (points (level_pieces cs)) → (i ≤ K)%nat → bs_inv (S k) s hist →
  ∃ addr l' s' hist', Tree.close_loop impl at_ (S (S n)) fuel (S i) res l s = Some (false, addr, l', s') ∧
    same_meta l l' ∧ hist ⊆ hist' ∧ bs_inv k s' hist' ∧ closed_at l' hist' addr (points (level_pieces cs)).
Proof.
  intros Ei El Er Hl Hrl Hh Hne Hsort HiK Hk. assert (Hi : Z.of_nat (S i) < 2 ^ 16) by lia.
  destruct (save_sblock_ok l lower e [] i hist cs s k El Hl Hh Hne Hsort Hi Hk)
    as (e1&p&addr&s1&hist1&Es&Hsub&Hk1&Hau&Hae&Ha0&Epa&Ht&_&Epl&Ef1&_).
  set (l1 := Tree.set_extent (S i) (SBlockExtent e1) l) in *.
  assert (El1 : el_extents l1 = lower ++ [SBlockExtent e1]) by (by eapply set_extent_middle).
  destruct (renew_sblock_ok l1 lower e1 [] i addr) as (e2&Ern); try assumption.
  { rewrite Ef1. apply (ih_fanout _ _ _ _ _ _ Hh). }
  exists addr, (Tree.set_extent (S i) (SBlockExtent e2) l1), s1, hist1. split.
  { rewrite (close_loop_S _ _ _ _ _ _ (SBlockExtent e)) by (by rewrite El, lookup_middle).
    rewrite (inner_dirty _ _ _ _ Hh Hne). cbn [mbind option_bind Tree.ext_commit]. unfold Tree.sblock_commit.
    rewrite Es. cbn [mbind option_bind]. unfold Tree.tell_parent. rewrite decide_False.
    2: { rewrite Epl. change (el_rescue l1) with (el_rescue l). rewrite Er, length_app, Hrl. simpl. intros [?|?]; [done|lia]. }
    cbn [mbind option_bind]. rewrite Ern. cbn [mbind option_bind].
    rewrite close_loop_end; [reflexivity|]. cbn [Tree.set_extent Tree.set_extents el_extents].
    rewrite length_insert, El1, length_app, Hl. simpl. lia. }
  split; [repeat split|]. split; [exact Hsub|]. split; [exact Hk1|].
  exists (S i), p, (under addr (level_pieces cs)). split; [|split; [lia|split; [exact Ht|split; [exact Epa|split; [apply points_under|by split]]]]].
  change (el_rescue (Tree.set_extent (S i) (SBlockExtent e2) l1)) with (el_rescue l). rewrite Er, length_app, Hrl. simpl. lia.
Qed.

(** A level below the root: its parent is told. *)
Lemma close_told n fuel i l (s : B) hist lower rlower e es cs lv r rs res k :
  el_id l = id → el_extents l = lower ++ SBlockExtent e :: es → el_rescue l = rlower ++ r :: rs →
  length lower = S i → length rlower = S i →
  levels_ok lk id hist (S i) (SBlockExtent e :: es) (cs :: lv) (r :: rs) → cs ≠ [] → lv ≠ [] →
  ts_sorted (points (levels_pieces (cs :: lv))) → Z.of_nat (S i + length lv) + 1 < 2 ^ 16 →
  bs_inv (S (S k) + kept lv) s hist →
  0 ≤ el_write_count l ∧ el_write_count l + Z.of_nat (kept lv) + 2 < 2 ^ 64 → (2 * length lv + 2 ≤ fuel)%nat →
  ∃ sv addr l' s' hist' lower' rlower' es' lv' rs',
    Tree.close_loop impl at_ (S n) fuel (S i) res l s = Tree.close_loop impl at_ n fuel (S (S i)) (sv, addr) l' s' ∧
    same_meta l l' ∧ hist ⊆ hist' ∧ el_extents l' = lower' ++ es' ∧ el_rescue l' = rlower' ++ rs' ∧
    length lower' = S (S i) ∧ length rlower' = S (S i) ∧ levels_ok lk id hist' (S (S i)) es' lv' rs' ∧
    bs_inv (k + kept lv') s' hist' ∧ points (levels_pieces lv') = points (levels_pieces (cs :: lv)) ∧
    weight lv' = weight lv + 1 ∧ above lv' ≠ [] ∧ (top_ok lv → top_ok lv') ∧
    el_write_count l ≤ el_write_count l' ∧
    el_write_count l' + Z.of_nat (kept lv') ≤ el_write_count l + Z.of_nat (kept lv) + 2.
Proof.
  intros Ei El Er Hl Hrl (Hh&Hlk&Hlv) Hne Hlne Hsort Hi Hk Hw Hfuel.
  destruct (levels_length _ _ _ _ _ _ _ Hlv) as [Hes Hrs]. cbn [levels_pieces] in Hsort. rewrite points_app in Hsort.
  assert (Hi' : Z.of_nat (S i) < 2 ^ 16) by (clear - Hi; lia).
  destruct (save_sblock_ok l lower e es i hist cs s (S k + kept lv) El Hl Hh Hne (sorted_app_r _ _ Hsort) Hi' Hk)
    as (e1&p&addr&s1&hist1&Es&Hsub&Hk1&Hau&Hae&Ha0&Epa&Ht&Hpv&Epl&Ef1&_).
  set (l1 := Tree.set_extent (S i) (SBlockExtent e1) l) in *.
  assert (El1 : el_extents l1 = lower ++ SBlockExtent e1 :: es) by (by eapply set_extent_middle).
  set (c := (p, under addr (level_pieces cs)) : child).
  destruct (append_ref_ok lk id impl at_ Hid es fuel c l1 s1 hist1 (lower ++ [SBlockExtent e1]) (rlower ++ [r]) lv rs (S i) k)
    as (sv&l2&s2&Ea&hist2&es2&lv2&rs2&(Em1&Em2&Em3)&Ee2&Er2&Hsub2&Hlv2&Hk2&Ept&Ewt&Eab&_&Hto&Hw1&Hw2); try assumption.
  { by rewrite <- app_assoc. }
  { change (el_rescue l1) with (el_rescue l). by rewrite Er, <- app_assoc. }
  { rewrite length_app, Hl. simpl. lia. }
  { rewrite length_app, Hrl. simpl. lia. }
  { by eapply levels_mono. }
  { rewrite points_app. cbn [c snd]. by rewrite points_under. }
  { intros Hlt. destruct (Hlk Hlt) as (_&Els&_). destruct (ih_link _ _ _ _ _ _ Hh Hlt) as [Epv _]. cbn [c fst]. congruence. }
  { lia. }
  rewrite <- app_assoc in Ee2. rewrite <- app_assoc in Er2. cbn [app] in Ee2, Er2.
  destruct (renew_sblock_ok l2 lower e1 es2 i addr) as (e2&Ern); try assumption.
  { by rewrite Em1. }
  { rewrite Ef1. apply (ih_fanout _ _ _ _ _ _ Hh). }
  exists sv, addr, (Tree.set_extent (S i) (SBlockExtent e2) l2), s2, hist2, (lower ++ [SBlockExtent e2]), (rlower ++ [r]), es2, lv2, rs2.
  split.
  { rewrite (close_loop_S _ _ _ _ _ _ (SBlockExtent e)) by (by rewrite El, lookup_middle).
    rewrite (inner_dirty _ _ _ _ Hh Hne). cbn [mbind option_bind Tree.ext_commit]. unfold Tree.sblock_commit.
    rewrite Es. cbn [mbind option_bind]. unfold Tree.tell_parent. rewrite decide_True.
    2: { right. rewrite Epl. change (el_rescue l1) with (el_rescue l). rewrite Er, length_app, Hrl. simpl.
         assert (0 < length lv)%nat by (destruct lv; [done|simpl; lia]). lia. }
    change p with c.1. rewrite Ea. cbn [mbind option_bind]. rewrite Ern. cbn [mbind option_bind].
    by replace (S i + 1)%nat with (S (S i)) by lia. }
  split; [by split|]. split; [by etransitivity|]. split.
  { rewrite <- app_assoc. by eapply set_extent_middle. }
  split; [by rewrite <- app_assoc|]. split; [rewrite length_app; simpl; lia|]. split; [rewrite length_app; simpl; lia|].
  split; [exact Hlv2|]. split; [exact Hk2|]. split.
  { rewrite Ept, points_app. cbn [c snd levels_pieces]. by rewrite points_under, points_app. }
  split; [exact Ewt|]. split; [rewrite Eab; apply next_children_ne|]. split; [exact Hto|]. split; [|exact Hw2].
  change (el_write_count l1) with (el_write_count l) in Hw1. change (el_write_count (Tree.set_extent (S i) (SBlockExtent e2) l2)) with (el_write_count l2). clear - Hw1. lia.
Qed.

Lemma close_levels d n fuel i l (s : B) hist lower rlower es cs lv rs res k :
  el_id l = id → el_extents l = lower ++ es → el_rescue l = rlower ++ rs → length lower = S i → length rlower = S i →
  levels_ok lk id hist (S i) es (cs :: lv) rs → cs ≠ [] → top_ok (cs :: lv) →
  ts_sorted (points (levels_pieces (cs :: lv))) → (weight (cs :: lv) - 1) * 32 ^ Z.of_nat i < 32 ^ Z.of_nat K → (i ≤ K)%nat →
  bs_inv (S (2 * d) + k + kept (cs :: lv)) s hist →
  0 ≤ el_write_count l ∧ el_write_count l + Z.of_nat (kept (cs :: lv)) + 2 * Z.of_nat (S d) < 2 ^ 64 →
  (31 ≤ fuel)%nat → (d + 2 ≤ n)%nat → (K ≤ i + d)%nat →
  ∃ addr l' s' hist', Tree.close_loop impl at_ n fuel (S i) res l s = Some (false, addr, l', s') ∧
    same_meta l l' ∧ hist ⊆ hist' ∧ bs_inv k s' hist' ∧ closed_at l' hist' addr (points (levels_pieces (cs :: lv))).
Proof.
  revert n i l s hist lower rlower es cs lv rs res.
  induction d as [|d IH]; intros n i l s hist lower rlower es cs lv rs res Ei El Er Hl Hrl Hlv Hne Hto Hsort Hwt Hi Hk Hw Hfuel Hn Hd;
    pose proof Hlv as Hlv0; destruct es as [|[|e] es], rs as [|r rs]; try (destruct Hlv; fail); destruct Hlv0 as (Hh&_&Hlv1);
    destruct (levels_length _ _ _ _ _ _ _ Hlv1) as [Hes Hrs]; rewrite kept_cons in *;
    (destruct (decide (lv = [])) as [->|Hlne];
      [|pose proof (level_bound i cs lv Hto Hlne Hwt) as Hlen; assert (0 < length lv)%nat by (destruct lv; [done|simpl; lia])]).
  - apply nil_length_inv in Hes as ->. apply nil_length_inv in Hrs as ->. destruct n as [|[|n]]; [lia|lia|].
    cbn [levels_pieces app] in *. eapply close_root; try eassumption.
    apply (bs_weaken_by (length cs)). change (kept []) with 0%nat in Hk.
    by replace (length cs + S k)%nat with (S (2 * 0) + k + (length cs + 0))%nat by lia.
  - lia.
  - apply nil_length_inv in Hes as ->. apply nil_length_inv in Hrs as ->. destruct n as [|[|n]]; [lia|lia|].
    cbn [levels_pieces app] in *. eapply close_root; try eassumption.
    apply (bs_weaken_by (2 * S d + length cs)). change (kept []) with 0%nat in Hk.
    by replace (2 * S d + length cs + S k)%nat with (S (2 * S d) + k + (length cs + 0))%nat by lia.
  - destruct n as [|n]; [lia|].
    destruct (close_told n fuel i l s hist lower rlower e es cs lv r rs res (S (2 * d) + k + length cs))
      as (sv&addr&l1&s1&hist1&lower1&rlower1&es1&lv1&rs1&E&(Em1&Em2&Em3)&Hsub&El1&Er1&Hl1&Hrl1&Hlv1'&Hk1&Ept&Ewt&Hab&Hto1&Hw1&Hw2);
      try assumption; try lia.
    { by replace (S (S (S (2 * d) + k + length cs)) + kept lv)%nat with (S (2 * S d) + k + (length cs + kept lv))%nat by lia. }
    destruct lv1 as [|cs1 lv1]; [by destruct (Hab eq_refl)|]. assert (Hne1 : cs1 ≠ []) by (exact Hab).
    destruct (IH n (S i) l1 s1 hist1 lower1 rlower1 es1 cs1 lv1 rs1 (sv, addr)) as (addr'&l'&s'&hist'&E'&(Em4&Em5&Em6)&Hsub'&Hk'&Hcl);
      try assumption; try lia.
    { by eapply Hto1, top_ok_tail. }
    { by rewrite Ept. }
    { eapply close_step; [by eapply inner_full|exact Hne|exact Ewt|exact Hwt]. }
    { apply (bs_weaken_by (length cs)).
      by replace (length cs + (S (2 * d) + k + kept (cs1 :: lv1)))%nat with (S (2 * d) + k + length cs + kept (cs1 :: lv1))%nat by lia. }
    exists addr', l', s', hist'. rewrite E, E'. split; [reflexivity|]. split; [split_and!; congruence|].
    split; [by etransitivity|]. split; [exact Hk'|]. by rewrite <- Ept.
Qed.

(** ** The whole list *)

Lemma leaf_dirty e pts : leaf_holds lk id e pts → pts ≠ [] → Tree.is_dirty (LeafExtent e) = Some true.
Proof.
  intros [(h&Hinv&Hsum) _ _ _ _ _ _] Hne. cbn [Tree.is_dirty]. unfold Leaf.nelements.
  destruct (leaf_block _ _ _ _ Hinv) as (_&_&Eh&_). rewrite Eh. cbn [mbind option_bind]. rewrite (su_count _ _ Hsum).
  rewrite bool_decide_eq_true_2; [reflexivity|]. destruct pts; [destruct (Hne eq_refl)|cbn [length]; lia].
Qed.

(** A tree of one leaf. *)
Lemma close_leaf n fuel l (s : B) hist e pts r k res :
  el_extents l = [LeafExtent e] → el_rescue l = [r] → el_id l = id → leaf_holds lk id e pts → pts ≠ [] → ts_sorted pts →
  bs_inv (S k) s hist →
  ∃ addr l' s' hist', Tree.close_loop impl at_ (S (S n)) fuel 0 res l s = Some (false, addr, l', s') ∧
    same_meta l l' ∧ hist ⊆ hist' ∧ bs_inv k s' hist' ∧ closed_at l' hist' addr pts.
Proof.
  intros El Er Ei Hh Hne Hsort Hk.
  destruct (save_leaf_ok lk id impl at_ hist e pts k s Hh Hne Hsort Hk) as (addr&leaf&p&s1&img&Ec&Ep&Hau&Hae&Hfr&Hk1&Epl&Ht&_).
  destruct (Tree.next_link (le_fanout e) addr) as [fan last] eqn:Enl.
  destruct (next_link_range _ _ _ _ (proj2 (lh_fanout _ _ _ _ Hh)) Enl) as [Hfan Hlast].
  destruct (leaf_make_holds lk id last fan Hid) as (e'&Em&_);
    [destruct Hlast as [->| ->]; [exact Hau|unfold is_u64, EMPTY_ADDR; lia]|exact Hfan|].
  set (e1 := mkLeafExt (le_last e) leaf (le_fanout e)). set (l1 := Tree.set_extent 0 (LeafExtent e1) l).
  assert (El1 : el_extents l1 = [LeafExtent e1]) by (exact (set_extent_head l _ _ _ El)).
  exists addr, (Tree.set_extent 0 (LeafExtent e') l1), s1, (<[addr := img]> hist). split.
  { rewrite (close_loop_S _ _ _ _ _ _ (LeafExtent e)) by (rewrite El; reflexivity).
    rewrite (leaf_dirty e pts Hh Hne). cbn [mbind option_bind Tree.ext_commit]. unfold Tree.leaf_commit, Tree.save_leaf.
    rewrite (leaf_at_head l e [] El). cbn [mbind option_bind]. rewrite Ec. cbn [mbind option_bind].
    rewrite decide_False by (intros Hx; by apply Hx). rewrite Ep. cbn [mbind option_bind].
    rewrite decide_False by (intros Hx; by apply Hx). fold e1. fold l1. cbn [mbind option_bind]. unfold Tree.tell_parent.
    rewrite decide_False.
    2: { intros [Hx|Hx]; [discriminate Hx|]. change (el_rescue l1) with (el_rescue l) in Hx. rewrite Er in Hx.
         change (sr_level (Tree.link p addr)) with (sr_level p) in Hx. rewrite Epl in Hx. cbn [length] in Hx. lia. }
    cbn [mbind option_bind]. unfold Tree.renew_leaf. rewrite (leaf_at_head l1 e1 [] El1). cbn [mbind option_bind].
    change (le_fanout e1) with (le_fanout e). rewrite Enl. change (el_id l1) with (el_id l). rewrite Ei, Em.
    cbn [mbind option_bind]. rewrite close_loop_end; [reflexivity|]. cbn [Tree.set_extent Tree.set_extents el_extents].
    rewrite length_insert, El1. cbn [length]. lia. }
  split; [repeat split|]. split; [by apply insert_subseteq|]. split; [exact Hk1|].
  exists 0%nat, (Tree.link p addr), [([addr], pts)]. split; [change (length (el_rescue l) = 1%nat); by rewrite Er|].
  split; [lia|]. split; [exact Ht|]. split; [reflexivity|]. split; [unfold points; simpl; by rewrite app_nil_r|]. by split.
Qed.

Lemma close_tree n fuel l (s : B) hist pts lv k :
  tree_ok lk id l hist pts lv → pts ≠ [] → weight lv < 32 ^ Z.of_nat K →
  bs_inv (30 + k + kept lv) s hist →
  0 ≤ el_write_count l ∧ el_write_count l + Z.of_nat (kept lv) + 32 < 2 ^ 64 → (31 ≤ fuel)%nat → (16 ≤ n)%nat →
  ∃ addr l' s' hist', Tree.close_loop impl at_ n fuel 0 (false, EMPTY_ADDR) l s = Some (false, addr, l', s') ∧
    same_meta l l' ∧ hist ⊆ hist' ∧ bs_inv k s' hist' ∧ closed_at l' hist' addr (content pts lv).
Proof.
  intros [He Hsort _ [_ Ei] Hto] Hne Hwt Hk Hw Hfuel Hn.
  destruct (el_extents l) as [|[e|] es] eqn:El, (el_rescue l) as [|r rs] eqn:Er; try (destruct He; fail).
  { destruct He as [-> _]. destruct (Hne eq_refl). }
  destruct He as (Hh&Hlk&Hlv). destruct (levels_length _ _ _ _ _ _ _ Hlv) as [Hes Hrs].
  destruct n as [|[|n]]; [lia|lia|]. destruct (decide (lv = [])) as [->|Hlne].
  { apply nil_length_inv in Hes as ->. apply nil_length_inv in Hrs as ->.
    eapply close_leaf; try eassumption. apply (bs_weaken_by 29). change (kept []) with 0%nat in Hk.
    by replace (29 + S k)%nat with (30 + k + 0)%nat by lia. }
  assert (Hrne : rs ≠ []) by (intros ->; destruct lv; [by apply Hlne|discriminate Hrs]).
  assert (Hlen : (length lv ≤ 13)%nat).
  { apply few_levels; [exact Hto|]. eapply Z.lt_le_trans; [exact Hwt|]. transitivity (32 ^ 12); [apply Z.pow_le_mono_r; lia|lia]. }
  destruct (leaf_commit_told lk id impl at_ Hid fuel true l s hist pts lv e es r rs (28 + k))
    as (sv&addr&l1&s1&hist1&e1&es1&lv1&rs1&Ec&Hae&(Em1&Em2&Em3)&El1&Er1&Hsub&_&_&Hlv1&Hk1&Ept&Ewt&_&Hto1&Hab&Hw1&Hw2);
    try assumption; try lia; [by right|].
  destruct lv1 as [|cs1 lv1]; [simpl in Ewt; pose proof (weight_nonneg lv); lia|].
  assert (Hne1 : cs1 ≠ []) by (exact Hab).
  destruct (close_levels 13 (S n) fuel 0 l1 s1 hist1 [LeafExtent e1] [r] es1 cs1 lv1 rs1 (sv, addr) k)
    as (addr'&l'&s'&hist'&E'&(Em4&Em5&Em6)&Hsub'&Hk'&Hcl); try assumption; try lia; try (cbn [length]; reflexivity).
  { by apply Hto1. }
  { by rewrite Ept. }
  { apply (bs_weaken_by 1). by replace (1 + (S (2 * 13) + k + kept (cs1 :: lv1)))%nat with (28 + k + kept (cs1 :: lv1))%nat by lia. }
  exists addr', l', s', hist'. split; [|split; [split_and!; congruence|split; [by etransitivity|split; [exact Hk'|]]]].
  - rewrite (close_loop_S _ _ _ _ _ _ (LeafExtent e)) by (rewrite El; reflexivity).
    rewrite (leaf_dirty e pts Hh Hne). cbn [mbind option_bind Tree.ext_commit]. rewrite Ec. cbn [mbind option_bind]. exact E'.
  - by rewrite <- Ept.
Qed.

End Close.
