(* ===== verification/TreeOpen.v ===== *)
(** * Opening a tree that was closed

    [close] leaves one rescue point, the address of the root.  A list made from
    it has the root's children in the extent of its level, and everything below is
    new: the points it shows are those of the tree that was closed, and it accepts
    the points that follow. *)
From stdpp Require Import sorting.
From S2P Require Import Prelude Status ByteStream Base128 VByte DataBlock DataBlockProof IOVec Blocks Volume Crc32c BlockStoreProof MemStore Double SubtreeRef Operator Leaf LeafIter Superblock TreeIter TreeRead Extents Content ExtentsProof TreeProof TreeRun TreeClose.

Section Open.
Context {B : Type} `{BlockStoreLaws B} (impl : crc32c_impl_t) `{!Crc32cImpl impl} (at_ : nat → Z).
Variables (id : Z).
Hypotheses (Hid : is_u64 id).

Section Store.
Variables (k : nat) (s : B) (hist : gmap Z (list Z)).
Hypotheses (Hstore : bs_inv k s hist) (Hex : ∀ a, is_Some (hist !! a) → bs_exists a s = true).

(** ** The extents *)

Lemma zip_children n refs pss :
  Forall2 (tree id hist n) refs pss →
  Forall (λ c, tree id hist n c.1 c.2) (zip refs pss) ∧ (zip refs pss).*1 = refs ∧ (zip refs pss).*2 = pss.
Proof. induction 1 as [|r p refs pss Ht _ (IH1&IH2&IH3)]; [done|]. cbn [zip zip_with]. rewrite !fmap_cons, IH2, IH3. split_and!; [by constructor|reflexivity..]. Qed.

Lemma open_root n ref ps :
  tree id hist (S n) ref ps → sr_addr ref ≠ EMPTY_ADDR →
  ∃ e cs, Tree.make_sblock_extent impl at_ id (sr_addr ref) (Z.of_nat (S n)) s = Some e ∧
    inner_holds false id hist (S n) e cs ∧ cs ≠ [] ∧ points (level_pieces cs) = points ps ∧ se_killed e = false.
Proof.
  intros (_&_&_&_&_&img&h&Ha&_&(Hlv&Hfan&Hhid)&_&refs&pss&Hi&Hu&Hn0&Hne&Hf&->) Hae.
  destruct (zip_children n refs pss Hf) as (Hc&E1&E2).
  destruct (bs_read_ok _ _ _ _ _ Hstore Ha) as [[Erd _]|[_ Hno]]; [|rewrite Hex in Hno by eauto; discriminate Hno].
  pose proof (super_image_header _ _ _ Hi) as Eh. pose proof (super_image_checksum impl (at_ 0%nat) _ _ _ Hi) as Eck.
  assert (Er : read_iovec_block_from_bstore impl (at_ 0%nat) (sr_addr ref) s = Some (loaded img)).
  { unfold read_iovec_block_from_bstore. rewrite Erd. cbn [mbind option_bind]. rewrite decide_False by (intros Hx; by apply Hx).
    by rewrite Eck. }
  destruct (super_cow_ok impl (at_ 0%nat) (sr_addr ref) s h refs img Er Hi Hu Hn0) as (curr&Ec&Hs&Ei&El&Efo&Epv).
  assert (Hfan' : 0 ≤ (if decide (u16 (sr_fanout_index h + 1) = NBTREE_FANOUT) then 0 else u16 (sr_fanout_index h + 1)) < 32).
  { rewrite u16_id by (unfold is_u16; lia). unfold NBTREE_FANOUT. case_decide; lia. }
  eexists _, (zip refs pss). split.
  { unfold Tree.make_sblock_extent. rewrite decide_False by exact Hae.
    rewrite (read_super impl (at_ 0%nat) k s hist Hstore (sr_addr ref) img h refs Ha) by (eauto using Hex).
    cbn [mbind option_bind]. rewrite (decide_False (P := kOk = kUnavailable)) by discriminate.
    rewrite (decide_False (P := kOk ≠ kOk)) by (intros Hx; by apply Hx). rewrite Eh. cbn [mbind option_bind].
    rewrite Ec. cbn [mbind option_bind]. reflexivity. }
  assert (Hh : ref_ok h) by (by destruct Hi as (?&?&?&?&_)).
  split; [|split; [|split; [|reflexivity]]].
  - constructor; cbn [se_curr se_level se_last se_fanout].
    + exists h. rewrite E1. exact Hs.
    + by replace (S n - 1)%nat with n by lia.
    + rewrite Ei. by apply Hhid.
    + rewrite El, Hlv. by split.
    + rewrite Epv. split; [by apply ref_addr_u64|exact Hn0].
    + rewrite Efo. split; [exact Hfan|exact Hfan'].
    + discriminate.
  - destruct Hf; [by destruct Hne|discriminate].
  - unfold level_pieces. by rewrite E2, points_under.
Qed.

(** The new inner nodes below the root. *)
Lemma open_inner m lvl e cs :
  (Z.of_nat (lvl + m) < 2 ^ 16) → inner_holds false id hist (lvl + m) e cs →
  ∃ es, Tree.make_inner impl at_ id m lvl s = Some es ∧ length es = m ∧
    ∀ rs, length rs = S m → levels_ok false id hist lvl (es ++ [SBlockExtent e]) (replicate m [] ++ [cs]) rs.
Proof.
  revert lvl. induction m as [|m IH]; intros lvl Hlt Hh.
  - exists []. split; [reflexivity|]. split; [reflexivity|]. intros [|r [|? ?]] Hr; try discriminate Hr. simpl.
    rewrite Nat.add_0_r in Hh. split; [exact Hh|]. split; [discriminate|exact I].
  - destruct (inner_make false id hist lvl EMPTY_ADDR 0 (Z.of_nat lvl) false) as (curr&E&Hn);
      [unfold is_u64, EMPTY_ADDR; lia|unfold EMPTY_ADDR; lia|lia|reflexivity|].
    destruct (IH (S lvl)) as (es&Es&Hl&Hlv); [lia|by replace (S lvl + m)%nat with (lvl + S m)%nat by lia|].
    eexists (_ :: es). split.
    { cbn [Tree.make_inner]. unfold Tree.make_sblock_extent at 1. rewrite decide_True by reflexivity.
      rewrite E. cbn [mbind option_bind]. rewrite Es. reflexivity. }
    split; [simpl; lia|]. intros [|r rs] Hr; [discriminate Hr|]. simpl. split; [exact Hn|]. split; [discriminate|].
    apply Hlv. simpl in Hr. lia.
Qed.

(** A leaf that starts anew, and one that goes on after [addr]. *)
Lemma open_leaf_new :
  ∃ e, Tree.make_leaf_extent impl at_ id EMPTY_ADDR s = Some e ∧ leaf_holds false id e [] ∧
    le_last e = EMPTY_ADDR ∧ le_fanout e = 0.
Proof.
  destruct (leaf_make_holds false id EMPTY_ADDR 0 Hid) as (e&E&Hh&El&Ef); [unfold is_u64, EMPTY_ADDR; lia|lia|].
  exists e. split; [|split; [exact Hh|split; [exact El|exact Ef]]]. unfold Tree.make_leaf_extent. rewrite decide_True by reflexivity. exact E.
Qed.

Lemma open_leaf_next ref ps :
  tree id hist 0 ref ps → sr_addr ref ≠ EMPTY_ADDR →
  ∃ e, Tree.make_leaf_extent impl at_ id (sr_addr ref) s = Some e ∧ leaf_holds false id e [].
Proof.
  intros (Hr&_&_&_&_&img&h&Ha&_&(_&Hfan&_)&_&pts&Hi&_) Hae.
  destruct (Tree.next_link (sr_fanout_index h) (sr_addr ref)) as [fan last] eqn:Enl.
  destruct (next_link_range _ _ _ _ Hfan Enl) as [Hf Hl].
  pose proof (ref_addr_u64 ref Hr) as Hau.
  destruct (leaf_make_holds false id last fan Hid) as (e&E&Hh&_);
    [destruct Hl as [->| ->]; [exact Hau|unfold is_u64, EMPTY_ADDR; lia]|exact Hf|].
  exists e. split; [|exact Hh]. unfold Tree.make_leaf_extent. rewrite decide_False by exact Hae.
  rewrite (read_leaf impl (at_ 0%nat) k s hist id Hstore (sr_addr ref) img h pts Ha) by (eauto using Hex).
  cbn [mbind option_bind]. rewrite (decide_False (P := kOk = kUnavailable)) by discriminate.
  rewrite (decide_False (P := kOk ≠ kOk)) by (intros Hx; by apply Hx).
  rewrite (leaf_image_header _ _ _ _ Hi). cbn [mbind option_bind]. rewrite Enl. exact E.
Qed.

(** ** The latest point *)

Lemma tree_times n ref ps x : tree id hist n ref ps → x ∈ points ps → 0 ≤ x.1 ≤ TS_MAX.
Proof.
  intros Ht Hx. destruct (tree_common _ _ _ _ _ Ht) as (Hr&Hs&_&Hd&_). pose proof (describes_times ref _ x Hd Hs Hx) as Hb.
  rewrite ref_ok_fields, !Forall_cons in Hr. destruct Hr as ((?&?&?&?&?&?&?&?&?&?&?&?&_)&_).
  unfold is_u64, TS_MAX in *. lia.
Qed.

Lemma latest_none pts x :
  (∀ x, x ∈ pts → 0 ≤ x.1 ≤ TS_MAX) → range_points TS_MAX 0 pts = [] → x ∈ pts → x.1 ≤ 0.
Proof.
  intros Ht E Hx. unfold range_points in E. rewrite decide_False in E by (unfold TS_MAX; lia).
  destruct (decide (x.1 ≤ 0)) as [|Hp]; [done|]. exfalso. specialize (Ht x Hx).
  assert (Hin : x ∈ reverse (filter (λ x : point, 0 < x.1 ∧ x.1 ≤ TS_MAX) pts)) by (rewrite elem_of_reverse, list_elem_of_filter; split; [lia|done]).
  rewrite E in Hin. by apply not_elem_of_nil in Hin.
Qed.

Lemma sorted_filter (P : point → Prop) `{∀ x, Decision (P x)} pts : ts_sorted pts → ts_sorted (filter P pts).
Proof.
  intros Hs. induction Hs as [|x pts Hs IH Hx]; [constructor|]. rewrite filter_cons. case_decide; [|exact IH].
  constructor; [exact IH|]. rewrite Forall_forall in *. intros y Hy. apply Hx. by apply list_elem_of_filter in Hy as [_ ?].
Qed.

Lemma latest_some pts y rest x :
  (∀ x, x ∈ pts → 0 ≤ x.1 ≤ TS_MAX) → ts_sorted pts → range_points TS_MAX 0 pts = y :: rest → x ∈ pts → x.1 ≤ y.1.
Proof.
  intros Ht Hs E Hx. unfold range_points in E. rewrite decide_False in E by (unfold TS_MAX; lia).
  apply (f_equal reverse) in E. rewrite reverse_involutive, reverse_cons in E.
  assert (Hy : y ∈ filter (λ x : point, 0 < x.1 ∧ x.1 ≤ TS_MAX) pts) by (rewrite E; apply elem_of_app; right; by apply list_elem_of_singleton).
  apply list_elem_of_filter in Hy as [Hy _]. specialize (Ht x Hx). destruct (decide (x.1 ≤ 0)) as [|Hp]; [lia|].
  assert (Hin : x ∈ filter (λ x : point, 0 < x.1 ∧ x.1 ≤ TS_MAX) pts) by (apply list_elem_of_filter; split; [lia|done]).
  pose proof (sorted_filter (λ x : point, 0 < x.1 ∧ x.1 ≤ TS_MAX) pts Hs) as Hf. rewrite E in Hf, Hin.
  apply StronglySorted_app in Hf as (Hc&_&_). apply elem_of_app in Hin as [Hin|Hin%list_elem_of_singleton]; [|by subst].
  apply Hc; [exact Hin|by apply list_elem_of_singleton].
Qed.

(** [last_] is at least the time of every point of the root. *)
Lemma restore_last_ok l lower e n cs :
  el_extents l = lower ++ [SBlockExtent e] → inner_holds false id hist (S n) e cs →
  ts_sorted (points (level_pieces cs)) →
  ∃ N t, (∀ fuel, (N ≤ fuel)%nat → Tree.restore_last impl at_ fuel l s = Some (Tree.set_last t l)) ∧
    (∀ x, x ∈ points (level_pieces cs) → x.1 ≤ t) ∧
    (t = 0 ∨ ∃ x, x ∈ points (level_pieces cs) ∧ x.1 = t).
Proof.
  intros El Hh Hs. destruct (inner_ext_view false id impl at_ Hid k s hist Hstore n e cs None TS_MAX 0 Hh I) as (op&Eop&Hv).
  assert (Hsh : shown (λ a, bs_exists a s) (level_pieces cs) = points (level_pieces cs)).
  { apply shown_all. unfold level_pieces. apply Forall_concat, Forall_fmap. eapply Forall_impl; [apply (ih_children _ _ _ _ _ _ Hh)|].
    intros c Hc. eapply Forall_impl; [exact (tree_paths _ _ _ _ _ Hc)|]. intros p Hp. eapply Forall_impl; [exact Hp|exact Hex]. }
  rewrite Hsh in Hv. assert (Ht : ∀ x, x ∈ points (level_pieces cs) → 0 ≤ x.1 ≤ TS_MAX).
  { intros x Hx. unfold level_pieces in Hx. rewrite points_concat in Hx. apply list_elem_of_In, in_concat in Hx as (q&Hq&Hx). apply list_elem_of_In in Hq, Hx.
    apply list_elem_of_fmap in Hq as (ps&->&Hq). apply list_elem_of_fmap in Hq as (c&->&Hq).
    pose proof (ih_children _ _ _ _ _ _ Hh) as Hc. rewrite Forall_forall in Hc. exact (tree_times _ _ _ x (Hc c Hq) Hx). }
  destruct (reads_any impl (at_ 0%nat) s op _ 1%nat Hv) as (N&[[st out] op']&HN&rest&Epts&Hlen&_&Hcase); [lia|].
  exists N. unfold Tree.restore_last. rewrite El, last_snoc, Eop. cbn [mbind option_bind]. simpl select in Epts.
  destruct Hcase as [(->&Hne&_)|(->&->&Hl0)].
  - destruct out as [|y out]; [by destruct Hne|]. exists y.1. split; [|split; [intros x; by eapply latest_some|right]].
    + intros fuel Hf. rewrite (HN fuel Hf). cbn [mbind option_bind]. rewrite decide_False by (intros Hx; by apply Hx). reflexivity.
    + exists y. split; [|reflexivity]. apply (range_points_in TS_MAX 0). rewrite Epts. by left.
  - destruct out; [|simpl in Hl0; lia]. exists 0. split; [|split; [intros x; by eapply latest_none|by left]].
    intros fuel Hf. rewrite (HN fuel Hf). cbn [mbind option_bind]. by rewrite decide_True.
Qed.

(** ** The list *)

Lemma open_finish_ok l lower e n cs :
  el_extents l = lower ++ [SBlockExtent e] → inner_holds false id hist (S n) e cs → cs ≠ [] → se_killed e = false →
  ts_sorted (points (level_pieces cs)) → length (el_rescue l) = length (el_extents l) →
  ∃ N t, (∀ fuel, (N ≤ fuel)%nat → Tree.open_finish impl at_ fuel l s = Some (Tree.set_last t l)) ∧
    (∀ x, x ∈ points (level_pieces cs) → x.1 ≤ t) ∧
    (t = 0 ∨ ∃ x, x ∈ points (level_pieces cs) ∧ x.1 = t).
Proof.
  intros El Hh Hne Hk Hs Hlen. destruct (restore_last_ok l lower e n cs El Hh Hs) as (N&t&HN&Ht1&Ht2).
  exists N, t. split; [|by split]. intros fuel Hf. unfold Tree.open_finish.
  assert (Tree.count_killed (reverse (el_extents l)) = Some 0%nat) as ->.
  { rewrite El, reverse_app. cbn [reverse rev_append app Tree.count_killed Tree.ext_status]. rewrite Hk.
    destruct (ih_node _ _ _ _ _ _ Hh) as [h Hsb]. unfold Super.nelements. rewrite (si_len _ _ _ Hsb), length_fmap.
    rewrite decide_False by (by destruct cs). reflexivity. }
  cbn [mbind option_bind]. rewrite !Nat.sub_0_r, !take_ge by lia.
  replace (Tree.set_rescue (el_rescue l) (Tree.set_extents (el_extents l) l)) with l by (by destruct l).
  rewrite (HN fuel Hf). cbn [mbind option_bind]. by rewrite decide_True.
Qed.

Lemma levels_empty m cs : levels_pieces (replicate m [] ++ [cs]) = level_pieces cs.
Proof. induction m as [|m IH]; [done|]. simpl. rewrite IH. unfold level_pieces at 2. simpl. apply app_nil_r. Qed.
Lemma kept_empty m cs : kept (replicate m [] ++ [cs]) = length cs.
Proof. induction m as [|m IH]; [unfold kept; simpl; lia|]. exact IH. Qed.
Lemma weight_empty m cs : weight (replicate m [] ++ [cs]) = 32 ^ Z.of_nat m * Z.of_nat (length cs).
Proof.
  induction m as [|m IH]; [simpl weight; lia|]. change (weight (replicate (S m) [] ++ [cs])) with (0 + 32 * weight (replicate m [] ++ [cs])).
  rewrite IH, Nat2Z.inj_succ, Z.pow_succ_r by lia. lia.
Qed.

Lemma closed_status n addr : addr ≠ EMPTY_ADDR → Tree.repair_status (replicate n EMPTY_ADDR ++ [addr]) = REPAIR_OK.
Proof.
  intros Hae. unfold Tree.repair_status. rewrite last_snoc, filter_app, length_app, filter_cons_False by exact Hae.
  rewrite filter_all by (by apply Forall_replicate). rewrite !length_app, !length_replicate. simpl.
  rewrite decide_True; [done|]. split; [lia|congruence].
Qed.

(** A list that is ready to go on, with an empty leaf: a bound on the nodes that
    its levels stand for, and [last_]. *)
Definition reopened (pts : list point) (w : Z) (l : ExtentsList) : Prop :=
  ∃ lv, tree_ok false id l hist [] lv ∧ content [] lv = pts ∧ 0 ≤ el_write_count l ≤ 416 ∧ (kept lv ≤ 416)%nat ∧
    weight lv ≤ w ∧ (el_last l = 0 ∨ ∃ x, x ∈ pts ∧ x.1 = el_last l).

(** What [open] made, whatever the height. *)
Lemma reopened_intro n leaf inner e m cs t r rs ps :
  leaf_holds false id leaf [] → length rs = S m →
  (∀ rs, length rs = S m → levels_ok false id hist 1 (inner ++ [SBlockExtent e]) (replicate m [] ++ [cs]) rs) →
  inner_holds false id hist (S m) e cs → cs ≠ [] → points (level_pieces cs) = points ps → ts_sorted (points ps) → (m ≤ n)%nat →
  (∀ x, x ∈ points (level_pieces cs) → x.1 ≤ t) → (t = 0 ∨ ∃ x, x ∈ points (level_pieces cs) ∧ x.1 = t) →
  reopened (points ps) (32 ^ Z.of_nat (S n)) (mkList (LeafExtent leaf :: inner ++ [SBlockExtent e]) id t (r :: rs) true 0).
Proof.
  intros Hleaf Hrs Hlv Hh Hne Ep Hs Hm Ht1 Ht2. exists (replicate m [] ++ [cs]).
  assert (Ec : content [] (replicate m [] ++ [cs]) = points ps) by (unfold content; rewrite levels_empty, app_nil_r; exact Ep).
  pose proof (inner_full _ _ _ _ _ _ Hh) as Hf. split; [constructor|split_and!].
  - cbn [el_extents el_rescue]. split; [exact Hleaf|]. split; [discriminate|]. by apply Hlv.
  - by rewrite Ec.
  - intros x. rewrite Ec, <- Ep. exact (Ht1 x).
  - by split.
  - intros cs' Hl. rewrite last_snoc in Hl. by injection Hl as <-.
  - exact Ec.
  - cbn [el_write_count]. lia.
  - cbn [el_write_count]. lia.
  - rewrite kept_empty. lia.
  - rewrite weight_empty, Nat2Z.inj_succ, Z.pow_succ_r by lia. rewrite (Z.mul_comm 32).
    apply Z.mul_le_mono_nonneg; [lia|apply Z.pow_le_mono_r; lia|lia|lia].
  - rewrite <- Ep. exact Ht2.
Qed.

(** A tree that was one leaf gets a root above it. *)
Lemma open_one ref ps :
  tree id hist 0 ref ps → sr_addr ref ≠ EMPTY_ADDR →
  ∃ N l, reopened (points ps) (32 ^ Z.of_nat 1) l ∧ ∀ fuel, (N ≤ fuel)%nat →
    Tree.open_ impl at_ fuel (mkList [] id 0 [sr_addr ref] true 0) s = Some l.
Proof.
  intros Ht Hae. destruct (open_leaf_next ref ps Ht Hae) as (leaf&Eleaf&Hleaf).
  destruct Ht as (Hr&Hs&Hne&_&_&img&h&Ha&Eth&(Hlv&Hfan&_)&Et&pts&Hi&Hsum&Hfin&->).
  destruct (leaf_image_read _ _ _ _ Hi Hid) as (lf&El&Eh&_).
  unfold points in Hs, Hne. simpl in Hs, Hne. rewrite app_nil_r in Hs, Hne.
  pose proof (ref_addr_u64 ref Hr) as Hau.
  destruct (leaf_ref id hist lf h pts img (sr_addr ref)) as (p&Ep&_&Htp); try assumption; [congruence|].
  destruct (inner_make false id hist 1 EMPTY_ADDR 0 1 false) as (curr&Em&Hh);
    [unfold is_u64, EMPTY_ADDR; lia|unfold EMPTY_ADDR; lia|lia|reflexivity|].
  destruct (inner_append false id hist 1 _ [] (Tree.link p (sr_addr ref), [([sr_addr ref], pts)]) Hh Htp) as (curr'&Ea&Hh'); [done|].
  cbn [se_curr se_last se_fanout se_level se_killed fst app] in Ea, Hh'.
  set (root := mkSBlockExt curr' EMPTY_ADDR 0 1 false) in *.
  assert (Epp : points (level_pieces [(Tree.link p (sr_addr ref), [([sr_addr ref], pts)])]) = points [([sr_addr ref], pts)]) by reflexivity.
  destruct (open_finish_ok (mkList [LeafExtent leaf; SBlockExtent root] id 0 [sr_addr ref; EMPTY_ADDR] true 0)
    [LeafExtent leaf] root 0 _ eq_refl Hh') as (N&t&HN&Ht1&Ht2); try done.
  { rewrite Epp. unfold points. simpl. by rewrite app_nil_r. }
  exists N, (mkList [LeafExtent leaf; SBlockExtent root] id t [sr_addr ref; EMPTY_ADDR] true 0). split.
  { apply (reopened_intro 0 leaf [] root 0 [(Tree.link p (sr_addr ref), [([sr_addr ref], pts)])]); try assumption; try done.
    - intros [|r [|? ?]] Hrs; try discriminate Hrs. simpl. split; [exact Hh'|]. split; [discriminate|exact I].
    - unfold points. simpl. by rewrite app_nil_r. }
  intros fuel Hf. unfold Tree.open_. rewrite decide_True by (simpl; lia). unfold Tree.make_sblock_extent at 1.
  rewrite decide_True by reflexivity. cbn [el_id]. rewrite Em. cbn [mbind option_bind head el_rescue].
  rewrite (read_leaf impl (at_ 0%nat) k s hist id Hstore (sr_addr ref) img h pts Ha) by (eauto using Hex).
  cbn [mbind option_bind]. rewrite decide_False by (intros Hx; by apply Hx). rewrite El. cbn [mbind option_bind].
  rewrite Ep. cbn [mbind option_bind]. rewrite decide_False by (intros Hx; by apply Hx). cbn [se_curr]. rewrite Ea.
  cbn [mbind option_bind]. rewrite decide_False by discriminate. rewrite Eleaf. cbn [mbind option_bind]. exact (HN fuel Hf).
Qed.

Lemma open_many n ref ps :
  tree id hist (S n) ref ps → sr_addr ref ≠ EMPTY_ADDR → (n < 14)%nat →
  ∃ N l, reopened (points ps) (32 ^ Z.of_nat (S (S n))) l ∧ ∀ fuel, (N ≤ fuel)%nat →
    Tree.open_ impl at_ fuel (mkList [] id 0 (replicate (S n) EMPTY_ADDR ++ [sr_addr ref]) true 0) s = Some l.
Proof.
  intros Ht Hae Hn. destruct (tree_common _ _ _ _ _ Ht) as (_&Hs&_).
  destruct (open_root n ref ps Ht Hae) as (root&cs&Er&Hh&Hne&Ep&Hk). destruct open_leaf_new as (leaf&Eleaf&Hleaf&_).
  destruct (open_inner n 1 root cs) as (inner&Ei&Hli&Hlv); [lia|exact Hh|].
  set (rs := replicate n EMPTY_ADDR ++ [sr_addr ref]).
  assert (Hrs : length rs = S n) by (unfold rs; rewrite length_app, length_replicate; simpl; lia).
  change (replicate (S n) EMPTY_ADDR ++ [sr_addr ref]) with (EMPTY_ADDR :: rs).
  destruct (open_finish_ok (mkList (LeafExtent leaf :: inner ++ [SBlockExtent root]) id 0 (EMPTY_ADDR :: rs) true 0)
    (LeafExtent leaf :: inner) root n cs eq_refl Hh Hne Hk) as (N&t&HN&Ht1&Ht2).
  { by rewrite Ep. }
  { cbn [el_rescue el_extents length]. rewrite length_app, Hrs, Hli. simpl. lia. }
  eexists N, _. split; [eapply (reopened_intro (S n) leaf inner root n cs t EMPTY_ADDR rs ps); try eassumption; lia|].
  intros fuel Hf. unfold Tree.open_. cbn [el_rescue el_id]. rewrite decide_False by (simpl; lia).
  replace (length (EMPTY_ADDR :: rs) - 1)%nat with (S n) by (simpl; lia).
  replace (last (EMPTY_ADDR :: rs)) with (Some (sr_addr ref)) by (symmetry; exact (last_snoc (sr_addr ref) (EMPTY_ADDR :: replicate n EMPTY_ADDR))).
  cbn [mbind option_bind]. rewrite u16_id by (unfold is_u16; lia). rewrite Er. cbn [mbind option_bind].
  rewrite Eleaf. cbn [mbind option_bind]. replace (S n - 1)%nat with n by lia. rewrite Ei. cbn [mbind option_bind].
  exact (HN fuel Hf).
Qed.

Lemma open_closed n ref ps :
  tree id hist n ref ps → sr_addr ref ≠ EMPTY_ADDR → (n ≤ 14)%nat →
  ∃ N l, reopened (points ps) (32 ^ Z.of_nat (S n)) l ∧ ∀ rounds fuel, (N ≤ fuel)%nat →
    Tree.force_init impl at_ rounds fuel (mkList [] id 0 (replicate n EMPTY_ADDR ++ [sr_addr ref]) false 0) s = Some (l, s).
Proof.
  intros Ht Hae Hn.
  assert (∃ N l, reopened (points ps) (32 ^ Z.of_nat (S n)) l ∧ ∀ fuel, (N ≤ fuel)%nat →
    Tree.open_ impl at_ fuel (mkList [] id 0 (replicate n EMPTY_ADDR ++ [sr_addr ref]) true 0) s = Some l) as (N&l&Hl&HN).
  { destruct n as [|n]; [by apply open_one|apply open_many; [exact Ht|exact Hae|lia]]. }
  exists N, l. split; [exact Hl|]. intros rounds fuel Hf. unfold Tree.force_init, Tree.init. cbn [el_initialized].
  cbn [Tree.set_initialized el_rescue el_extents el_id el_last el_write_count].
  rewrite decide_False by (by destruct n). rewrite closed_status by exact Hae.
  exact (f_equal (λ o, l ← o; Some (l, s)) (HN fuel Hf)).
Qed.

End Store.

(** ** Closing *)

Lemma set_back_ok n addr : Tree.set_back addr (replicate (S n) EMPTY_ADDR) = Some (replicate n EMPTY_ADDR ++ [addr]).
Proof.
  unfold Tree.set_back. rewrite decide_False by discriminate. rewrite length_replicate. f_equal.
  replace (S n - 1)%nat with n by lia. rewrite replicate_S_end, insert_app_r_alt by (rewrite length_replicate; lia).
  by rewrite length_replicate, Nat.sub_diag.
Qed.

Lemma close_ok lk K n fuel l (s : B) hist pts lv k :
  tree_ok lk id l hist pts lv → pts ≠ [] → (K ≤ 12)%nat → weight lv < 32 ^ Z.of_nat K → bs_inv (30 + k + kept lv) s hist →
  0 < el_write_count l ∧ el_write_count l + Z.of_nat (kept lv) + 32 < 2 ^ 64 → (31 ≤ fuel)%nat → (16 ≤ n)%nat →
  ∃ m ref ps l' s' hist', Tree.close impl at_ n fuel l s = Some (replicate m EMPTY_ADDR ++ [sr_addr ref], l', s') ∧
    el_initialized l' = false ∧ el_extents l' = [] ∧
    hist ⊆ hist' ∧ bs_inv k s' hist' ∧ (m ≤ S K)%nat ∧ tree id hist' m ref ps ∧ points ps = content pts lv ∧
    sr_addr ref ≠ EMPTY_ADDR.
Proof.
  intros Hok Hne HK Hwt Hk Hw Hfuel Hn.
  destruct (close_tree impl at_ lk id K Hid HK n fuel l s hist pts lv k Hok Hne) as (addr&l'&s'&hist'&E&_&Hsub&Hk'&m&ref&ps&Hlen&Hm&Ht&Ea&Ep&_&Hae);
    [exact Hwt|exact Hk|lia|exact Hfuel|exact Hn|].
  eexists m, ref, ps, _, s', hist'. split.
  { unfold Tree.close. rewrite (proj1 (to_ready _ _ _ _ _ _ Hok)). rewrite decide_True by lia. rewrite E. cbn [mbind option_bind].
    rewrite Hlen, set_back_ok, Ea. cbn [mbind option_bind]. reflexivity. }
  rewrite Ea. by split_and!.
Qed.

(** ** The next session *)

Lemma append_points_init rounds fuel pts l l1 (s : B) :
  Tree.force_init impl at_ rounds fuel l s = Some (l1, s) → el_initialized l1 = true → pts ≠ [] →
  append_points impl at_ rounds fuel pts l s = append_points impl at_ rounds fuel pts l1 s.
Proof.
  intros E Hi Hne. destruct pts as [|x pts]; [by destruct Hne|]. cbn [append_points].
  assert (∀ ts v, Tree.append impl at_ rounds fuel ts v true l s = Tree.append impl at_ rounds fuel ts v true l1 s) as ->; [|done].
  intros ts v. unfold Tree.append. rewrite E. unfold Tree.force_init. by rewrite Hi.
Qed.

Lemma init_done rounds fuel l (s : B) : el_initialized l = true → Tree.force_init impl at_ rounds fuel l s = Some (l, s).
Proof. intros E. unfold Tree.force_init. by rewrite E. Qed.

Definition fine (rs : list NBTreeAppendResult) : Prop := Forall (λ r, r = OK ∨ r = OK_FLUSH_NEEDED) rs.

(** Appending to a list that was opened, and searching it. *)
Lemma next_session rounds fuel old pts l (s : B) hist w f b e size k :
  reopened hist old w l → w ≤ 2 ^ 60 → Forall point_ok pts → Forall (λ x, finite x.2) pts → ts_sorted (old ++ pts) →
  Z.of_nat (length pts) < 2 ^ 60 → bs_inv (416 + 2 * length pts + k) s hist → (31 ≤ fuel)%nat →
  exact_query f b e → pts ≠ [] ∨ ¬ (b < e ∧ everything b e) → (0 < size)%nat →
  ∃ rs l' s' hist' op vis N, append_points impl at_ rounds fuel pts l s = Some (rs, l', s') ∧ fine rs ∧
    el_initialized l' = true ∧ hist ⊆ hist' ∧ (∃ k, bs_inv k s' hist') ∧ Tree.search b e f l' = Some op ∧
    (∀ rounds' fuel', (length (old ++ pts) < rounds')%nat → (N ≤ fuel')%nat →
      SBlock.drain impl (at_ 0%nat) s' rounds' fuel' size op = Some (select f b e vis, kNoData)) ∧
    sublist vis (old ++ pts) ∧ ((∀ a, is_Some (hist' !! a) → bs_exists a s' = true) → vis = old ++ pts).
Proof.
  intros (lv&Hok&Hc&Hw&Hkp&Hwt&Hl) Hn Hp Hf Hs Hlen Hk Hfuel Hq Hne Hsz.
  destruct (append_points_ok impl at_ false id Hid rounds fuel pts l s hist [] lv k)
    as (rs&l'&s'&hist'&pts'&lv'&E&Hrs&Hsub&Hok'&Hc'&Hpne&Hk'&_); try assumption; try lia.
  { by apply sorted_app_r in Hs. }
  { intros x Hx. apply head_Some_elem_of in Hx. destruct Hl as [->|(y&Hy&<-)].
    - rewrite Forall_forall in Hp. destruct (Hp x Hx) as [[? _] _]. done.
    - apply StronglySorted_app in Hs as (Hxy&_&_). by apply Hxy. }
  { apply (bs_weaken_by (416 - kept lv)). by replace (416 - kept lv + (2 * length pts + k + kept lv))%nat with (416 + 2 * length pts + k)%nat by lia. }
  rewrite Hc in Hc'.
  destruct (search_ok false id impl at_ Hid _ s' hist' Hk' l' pts' lv' f b e Hok' Hq) as (op&Eop&Hread).
  { destruct Hne as [Hne|Hne]; [left; apply Hpne; by right|by right]. }
  destruct (Hread size Hsz) as (N&HN). pose proof (visible_sublist s' pts' lv') as Hvs. rewrite Hc' in Hvs.
  exists rs, l', s', hist', op, (visible s' pts' lv'), N. split; [exact E|]. split; [exact Hrs|].
  split; [exact (proj1 (to_ready _ _ _ _ _ _ Hok'))|]. split; [exact Hsub|]. split; [eauto|]. split; [exact Eop|].
  split; [|split; [exact Hvs|]].
  - intros rounds' fuel' Hr Hf'. apply HN; [exact Hf'|]. apply sublist_length in Hvs.
    pose proof (length_select f b e (visible s' pts' lv')). lia.
  - intros Hx. by rewrite (visible_all s' false id l' hist' pts' lv' Hok' Hx).
Qed.

End Open.

(** ** Properties *)

(** C2: a tree survives being closed and opened again, and grows on.  Points
    that go into an empty tree are written by [close], which returns one address
    per level with only the last one set; a list made from them and used again -
    it opens itself on the first use - accepts the points that follow and a query
    returns, in either direction, exactly those of the range among all the
    points, in order.  One query is left out: the forward one over all times,
    [0] to [TS_MAX], of a list that got no point since it was opened.  The blocks
    must all be there when the list is opened; when blocks are recycled later the
    result is that for a subsequence of the points. *)
Theorem tree_close_reopen {B} `{BlockStoreLaws B} impl `{!Crc32cImpl impl} at_ id pts1 pts2 f b e size n rounds fuel
    (s : B) hist k :
  is_u64 id → Forall point_ok (pts1 ++ pts2) → Forall (λ x, finite x.2) (pts1 ++ pts2) → ts_sorted (pts1 ++ pts2) →
  pts1 ≠ [] → Z.of_nat (length (pts1 ++ pts2)) < 2 ^ 50 →
  bs_inv (2 * length pts1 + 30 + (416 + 2 * length pts2 + k)) s hist → (31 ≤ fuel)%nat → (16 ≤ n)%nat →
  exact_query f b e → pts2 ≠ [] ∨ ¬ (b < e ∧ everything b e) → (0 < size)%nat →
  ∃ l0 rs1 l1 s1 addr m lc s2 hist2 l2, Tree.make id [] = Some l0 ∧
    append_points impl at_ rounds fuel pts1 l0 s = Some (rs1, l1, s1) ∧ fine rs1 ∧
    Tree.close impl at_ n fuel l1 s1 = Some (replicate m EMPTY_ADDR ++ [addr], lc, s2) ∧
    Tree.make id (replicate m EMPTY_ADDR ++ [addr]) = Some l2 ∧ (∃ k2, bs_inv k2 s2 hist2) ∧
    ((∀ a, is_Some (hist2 !! a) → bs_exists a s2 = true) → ∃ N, ∀ fuel2, (N ≤ fuel2)%nat →
      ∃ rs3 l3 s3 hist3 op l4 vis N3, append_points impl at_ rounds fuel2 pts2 l2 s2 = Some (rs3, l3, s3) ∧ fine rs3 ∧
        (∃ k3, bs_inv k3 s3 hist3) ∧ Tree.query impl at_ rounds fuel2 b e f l3 s3 = Some (op, l4, s3) ∧
        (∀ rounds' fuel', (length (pts1 ++ pts2) < rounds')%nat → (N3 ≤ fuel')%nat →
          SBlock.drain impl (at_ 0%nat) s3 rounds' fuel' size op = Some (select f b e vis, kNoData)) ∧
        sublist vis (pts1 ++ pts2) ∧ ((∀ a, is_Some (hist3 !! a) → bs_exists a s3 = true) → vis = pts1 ++ pts2)).
Proof.
  intros Hid Hp Hf Hs Hne Hlen Hk Hfuel Hn Hq Hev Hsz. rewrite length_app in Hlen.
  apply Forall_app in Hp as [Hp1 Hp2]. apply Forall_app in Hf as [Hf1 Hf2].
  destruct (fresh_run impl at_ true id Hid rounds fuel pts1 s hist (30 + (416 + 2 * length pts2 + k)) Hp1 Hf1)
    as (l0&rs1&l1&s1&hist1&pts'&lv'&E0&E1&Hrs1&_&Hok&Hc&Hpne&Hk1&Hwt&Hw1&Hw2); try assumption.
  { by apply sorted_app_l in Hs. }
  { lia. }
  { by replace (2 * length pts1 + (30 + (416 + 2 * length pts2 + k)))%nat with (2 * length pts1 + 30 + (416 + 2 * length pts2 + k))%nat by lia. }
  destruct (close_ok impl at_ id Hid true 10 n fuel l1 s1 hist1 pts' lv' (416 + 2 * length pts2 + k) Hok Hpne)
    as (m&ref&ps&lc&s2&hist2&Ec&_&_&_&Hk2&Hm&Ht&Ep&Hae); [lia|change (32 ^ Z.of_nat 10) with (2 ^ 50); lia|exact Hk1|lia|exact Hfuel|exact Hn|].
  rewrite Hc in Ep. eexists l0, rs1, l1, s1, (sr_addr ref), m, lc, s2, hist2, _.
  split; [exact E0|]. split; [exact E1|]. split; [exact Hrs1|]. split; [exact Ec|]. split.
  { unfold Tree.make. rewrite decide_False; [reflexivity|]. rewrite length_app, length_replicate. simpl. lia. }
  split; [eauto|]. intros Hex. destruct (open_closed impl at_ id Hid _ s2 hist2 Hk2 Hex m ref ps Ht Hae) as (N&l3&Hre&HN); [lia|].
  exists (N + 31)%nat. intros fuel2 Hf2'. specialize (HN rounds fuel2 ltac:(lia)). rewrite Ep in Hre.
  destruct (next_session impl at_ id Hid rounds fuel2 pts1 pts2 l3 s2 hist2 (32 ^ Z.of_nat (S m)) f b e size k Hre)
    as (rs3&l4&s3&hist3&op&vis&N3&E3&Hrs3&Hini&_&Hk3&Eop&Hdr&Hsub&Hall); try assumption; try lia.
  { transitivity (32 ^ 12); [apply Z.pow_le_mono_r; lia|lia]. }
  assert (Hi3 : el_initialized l3 = true) by (destruct Hre as (?&Ho&_); exact (proj1 (to_ready _ _ _ _ _ _ Ho))).
  destruct (decide (pts2 = [])) as [->|Hne2].
  - cbn [append_points] in E3. injection E3 as <- <- <-.
    eexists [], _, s2, hist3, op, l3, vis, N3. split; [reflexivity|]. split; [constructor|]. split; [exact Hk3|].
    split; [unfold Tree.query; rewrite HN; cbn [mbind option_bind]; by rewrite Eop|]. by split_and!.
  - exists rs3, l4, s3, hist3, op, l4, vis, N3. rewrite (append_points_init impl at_ rounds fuel2 pts2 _ l3 s2 HN Hi3 Hne2).
    split; [exact E3|]. split; [exact Hrs3|]. split; [exact Hk3|].
    split; [unfold Tree.query; rewrite init_done by exact Hini; cbn [mbind option_bind]; by rewrite Eop|]. by split_and!.
Qed.

(** ** Witnesses *)

Definition later_points : list point := [(40, 0x3FF0000000000000)].

(** A run: three points, [close], a new list, one more point, a query back. *)
Definition reopen_run : option (list Z * option (list point * Status)) :=
  l ← Tree.make 42 [];
  '(_, l, s) ← append_points crc32c_sw (λ _, 0) 1 31 sample_points l (Mem.make false false);
  '(addrs, _, s) ← Tree.close crc32c_sw (λ _, 0) 16 31 l s;
  l ← Tree.make 42 addrs;
  '(_, l, s) ← append_points crc32c_sw (λ _, 0) 1 31 later_points l s;
  '(op, _, s) ← Tree.query crc32c_sw (λ _, 0) 1 31 40 10 None l s;
  Some (addrs, SBlock.drain crc32c_sw 0 s 10 10 10 op).

Lemma tree_close_reopen_witness :
  (∃ l0 rs1 l1 s1 addr m lc s2 l2, Tree.make 42 [] = Some l0 ∧
    append_points crc32c_sw (λ _, 0) 1 31 sample_points l0 (Mem.make false false) = Some (rs1, l1, s1) ∧
    Tree.close crc32c_sw (λ _, 0) 16 31 l1 s1 = Some (replicate m EMPTY_ADDR ++ [addr], lc, s2) ∧
    Tree.make 42 (replicate m EMPTY_ADDR ++ [addr]) = Some l2) ∧
  reopen_run = Some ([619], Some ([(40, 0x3FF0000000000000); (30, 0); (20, 0x4000000000000000)], kNoData)).
Proof.
  split; [|vm_compute; reflexivity].
  destruct (tree_close_reopen (B := MemStore) crc32c_sw (λ _, 0) 42 sample_points later_points None 40 10 10 16 1 31
    (Mem.make false false) ∅ 0) as (l0&rs1&l1&s1&addr&m&lc&s2&hist2&l2&E0&E1&_&E2&E3&_);
    [by_compute|by_compute|by_compute|repeat constructor; by_compute|done|by_compute|split; [by apply mem_make_inv|done]|lia|lia|done|left; done|lia|].
  exists l0, rs1, l1, s1, addr, m, lc, s2, l2. split; [exact E0|]. split; [exact E1|]. split; [exact E2|exact E3].
Defined.
