(* ===== verification/TreeRepair.v ===== *)
(** * Recovery after a crash

    A tree that was not closed has only its rescue points: for every level the
    address of the last node that was written.  [repair] follows the links from
    there to the earlier nodes of the group and rebuilds the extents, from the top
    down: everything that reached the disk is there again, and the points of the
    leaf in memory are lost. *)
From stdpp Require Import sorting.
From S2P Require Import Prelude Status ByteStream Base128 VByte DataBlock DataBlockProof IOVec Blocks Volume Crc32c BlockStoreProof MemStore Double SubtreeRef Operator Leaf LeafIter Superblock TreeIter TreeRead Extents Content ExtentsProof TreeProof TreeRun TreeClose TreeOpen.

Section Repair.
Context {B : Type} `{BlockStoreLaws B} (impl : crc32c_impl_t) `{!Crc32cImpl impl} (at_ : nat → Z).
Variables (id : Z) (k : nat) (s : B) (hist : gmap Z (list Z)).
Hypotheses (Hid : is_u64 id) (Hstore : bs_inv k s hist) (Hex : ∀ a, is_Some (hist !! a) → bs_exists a s = true).

Notation repair_loop := (Tree.repair_loop impl at_).

(** ** One node of the chain *)

Lemma repair_leaf ref ps prev :
  tree id hist 0 ref ps → prev_of hist ref prev →
  ∃ ref', tree id hist 0 ref' ps ∧ ∀ rounds fuel stack refs l,
    repair_loop (S rounds) fuel (sr_addr ref :: stack) refs l s = repair_loop rounds fuel (prev :: stack) (ref' :: refs) l s.
Proof.
  intros (Hr&Hs&Hne&_&_&img&h&Ha&Eth&(Hlv&Hfan&_)&Et&pts&Hi&Hsum&Hfin&->) (Hae&img'&h'&Ha'&Eh'&Ep).
  assert (img' = img) as -> by congruence. pose proof (leaf_image_header _ _ _ _ Hi) as Eh.
  assert (h' = h) as -> by congruence. unfold points in Hs, Hne. simpl in Hs, Hne. rewrite app_nil_r in Hs, Hne.
  assert (El : Leaf.load (loaded img) = Some (mkLeaf (sr_addr h) (Loaded (loaded img)) (sr_fanout_index h))) by (unfold Leaf.load; by rewrite Eh).
  destruct (leaf_ref id hist (mkLeaf (sr_addr h) (Loaded (loaded img)) (sr_fanout_index h)) h pts img (sr_addr ref))
    as (p&Ep'&_&Htp); try assumption; [congruence|by apply ref_addr_u64|].
  exists (Tree.link p (sr_addr ref)). split; [exact Htp|]. intros rounds fuel stack refs l. cbn [Tree.repair_loop]. rewrite decide_False by exact Hae.
  rewrite (read_leaf impl (at_ 0%nat) k s hist id Hstore (sr_addr ref) img h pts Ha) by (eauto using Hex).
  cbn [mbind option_bind]. rewrite decide_False by (intros Hx; by apply Hx). rewrite Eh. cbn [mbind option_bind].
  rewrite decide_True by congruence. rewrite El. cbn [mbind option_bind]. rewrite Ep'. cbn [mbind option_bind Leaf.get_prev_addr lf_prev default].
  by rewrite Ep.
Qed.

Lemma repair_inner n ref ps prev :
  tree id hist (S n) ref ps → prev_of hist ref prev → Z.of_nat (S n) < 2 ^ 16 →
  ∃ ref', tree id hist (S n) ref' ps ∧ ∀ rounds fuel stack refs l,
    repair_loop (S rounds) fuel (sr_addr ref :: stack) refs l s = repair_loop rounds fuel (prev :: stack) (ref' :: refs) l s.
Proof.
  intros (Hr&Hs&_&_&_&img&h&Ha&Eth&(Hlv&Hfan&Hhid)&Et&chs&pss&Hi&Hu&Hn0&Hne&Hf&->) (Hae&img'&h'&Ha'&Eh'&Ep) Hn.
  assert (img' = img) as -> by congruence. pose proof (super_image_header _ _ _ Hi) as Eh.
  assert (h' = h) as -> by congruence. rewrite points_under in Hs.
  destruct (super_image_read _ _ _ Hi Hn0) as (sb&El&_&Er&_). pose proof El as El'. unfold Super.load in El'. rewrite Eh in El'.
  cbn [mbind option_bind] in El'. rewrite decide_True in El' by (split; [congruence|exact Hn0]). injection El' as Esb.
  destruct (node_ref id Hid hist hist n sb h chs pss img (sr_addr ref)) as (p&Ep'&_&Htp); try assumption; try (rewrite <- Esb; assumption).
  { rewrite <- Esb. by apply Hhid. }
  { split; [exact Hlv|]. split; [exact Hfan|exact Hhid]. }
  { by apply ref_addr_u64. }
  { reflexivity. }
  exists (Tree.link p (sr_addr ref)). split; [exact Htp|]. intros rounds fuel stack refs l. cbn [Tree.repair_loop]. rewrite decide_False by exact Hae.
  rewrite (read_super impl (at_ 0%nat) k s hist Hstore (sr_addr ref) img h chs Ha) by (eauto using Hex).
  cbn [mbind option_bind]. rewrite decide_False by (intros Hx; by apply Hx). rewrite Eh. cbn [mbind option_bind].
  rewrite decide_False by (rewrite Eth, Et; discriminate). rewrite El. cbn [mbind option_bind]. rewrite Ep'. cbn [mbind option_bind].
  unfold Super.get_prev_addr. rewrite <- Esb. cbn [sb_prev]. by rewrite Ep.
Qed.

Lemma repair_node n ref ps prev :
  tree id hist n ref ps → prev_of hist ref prev → Z.of_nat n < 2 ^ 16 →
  ∃ ref', tree id hist n ref' ps ∧ ∀ rounds fuel stack refs l,
    repair_loop (S rounds) fuel (sr_addr ref :: stack) refs l s = repair_loop rounds fuel (prev :: stack) (ref' :: refs) l s.
Proof. intros Ht Hp Hn. destruct n as [|n]; [by apply repair_leaf|by apply repair_inner]. Qed.

(** The nodes of a group, back to the first. *)
Lemma repair_chain n cs :
  chained hist cs → Forall (λ c, tree id hist n c.1 c.2) cs → Z.of_nat n < 2 ^ 16 →
  ∃ cs', Forall (λ c, tree id hist n c.1 c.2) cs' ∧ cs'.*2 = cs.*2 ∧ ∀ rounds fuel stack refs l,
    repair_loop (length cs + rounds) fuel (tail_addr cs :: stack) refs l s
    = repair_loop rounds fuel (EMPTY_ADDR :: stack) (cs'.*1 ++ refs) l s.
Proof.
  intros Hc Ht Hn. induction Hc as [|cs c Hc IH Hp]; [by exists []|].
  apply Forall_app in Ht as [Ht Hx]. rewrite Forall_singleton in Hx. destruct (IH Ht) as (cs'&Ht'&E2&Hrun).
  destruct (repair_node n c.1 c.2 (tail_addr cs) Hx Hp Hn) as (r&Hr&Hstep).
  exists (cs' ++ [(r, c.2)]). split; [apply Forall_app; split; [exact Ht'|by apply Forall_singleton]|].
  split; [by rewrite !fmap_app, E2|]. intros rounds fuel stack refs l. unfold tail_addr at 1. rewrite last_snoc, length_app.
  replace (length cs + length [c] + rounds)%nat with (S (length cs + rounds)) by (simpl; lia).
  rewrite Hstep, Hrun, fmap_app, <- app_assoc. reflexivity.
Qed.

(** They go back into the extent of the next level. *)
Lemma refill n cs fuel l lower e es old :
  el_extents l = lower ++ SBlockExtent e :: es → length lower = S n → inner_holds false id hist (S n) e old →
  Forall (λ c, tree id hist n c.1 c.2) cs → (length (old ++ cs) ≤ 32)%nat → Z.of_nat (S n) < 2 ^ 16 → (2 ≤ fuel)%nat →
  ∃ l' e', Tree.append_refs impl at_ fuel (cs.*1) l s = Some (l', s) ∧ el_extents l' = lower ++ SBlockExtent e' :: es ∧
    inner_holds false id hist (S n) e' (old ++ cs) ∧ same_meta l l' ∧ el_rescue l' = el_rescue l ∧
    (0 ≤ el_write_count l → 0 ≤ el_write_count l' ≤ el_write_count l + Z.of_nat (length cs)).
Proof.
  intros El Hl Hh Hc Hlen Hn Hfuel. revert l e old El Hh Hlen.
  induction Hc as [|c cs Hx Hc IH]; intros l e old El Hh Hlen.
  { exists l, e. rewrite app_nil_r. split; [reflexivity|]. split; [exact El|]. split; [exact Hh|]. split; [by split|]. split; [reflexivity|]. simpl. lia. }
  destruct fuel as [|[|fuel]]; [lia|lia|]. destruct (tree_common _ _ _ _ _ Hx) as (_&_&_&_&Elv&_). rewrite length_app in Hlen. simpl in Hlen.
  destruct (extent_append_room false id impl at_ fuel (Tree.count_write l) lower e es (S n) hist old c s) as (e1&Ea&Hh1&_);
    [exact El|exact Hl|exact Hh|by replace (S n - 1)%nat with n by lia|lia|].
  destruct (IH (Tree.set_extent (S n) (SBlockExtent e1) (Tree.count_write l)) e1 (old ++ [c])) as (l'&e'&Er&El'&Hh'&(Em1&Em2&Em3)&Ers&Hwc).
  { by eapply set_extent_middle. }
  { exact Hh1. }
  { rewrite !length_app. simpl. lia. }
  exists l', e'. split; [|split; [exact El'|split; [by rewrite <- app_assoc in Hh'|split; [by split|split; [exact Ers|]]]]].
  2: { intros H0w. cbn [Tree.set_extent Tree.set_extents Tree.count_write el_write_count length] in *.
       pose proof (u64_range (el_write_count l + 1)) as [Hr1 _]. assert (u64 (el_write_count l + 1) ≤ el_write_count l + 1) by (unfold u64; apply Z.mod_le; lia). lia. }
  rewrite fmap_cons. cbn [Tree.append_refs]. rewrite (append_ref_here impl at_ (S fuel) c.1 l s lower e es n) by assumption. rewrite Ea.
  cbn [mbind option_bind]. rewrite decide_False by (intros Hy; by apply Hy). exact Er.
Qed.

(** ** All the levels, from the top *)

Lemma new_levels m lvl :
  Z.of_nat (lvl + m) < 2 ^ 16 →
  ∃ es, Tree.make_inner impl at_ id m lvl s = Some es ∧ ∀ rs, length rs = m → levels_ok false id hist lvl es (replicate m []) rs.
Proof.
  revert lvl. induction m as [|m IH]; intros lvl Hlt.
  { exists []. split; [reflexivity|]. by intros [|]. }
  destruct (inner_make false id hist lvl EMPTY_ADDR 0 (Z.of_nat lvl) false) as (curr&E&Hn);
    [unfold is_u64, EMPTY_ADDR; lia|unfold EMPTY_ADDR; lia|lia|reflexivity|].
  destruct (IH (S lvl)) as (es&Es&Hlv); [lia|]. eexists (_ :: es). split.
  { cbn [Tree.make_inner]. unfold Tree.make_sblock_extent at 1. rewrite decide_True by reflexivity.
    rewrite E. cbn [mbind option_bind]. rewrite Es. reflexivity. }
  intros [|r rs] Hr; [discriminate Hr|]. simpl. split; [exact Hn|]. split; [discriminate|]. apply Hlv. simpl in Hr. lia.
Qed.

Lemma repair_levels fuel lv i es0 rs f la r l lower es stack :
  link_ok true hist f la r (above lv) → levels_ok true id hist (S i) es0 lv rs →
  el_extents l = lower ++ es → length lower = S i → levels_ok false id hist (S i) es (replicate (length lv) []) rs →
  (2 ≤ fuel)%nat → Z.of_nat (S i + length lv) < 2 ^ 16 →
  ∃ m l' es' lv', (∀ rounds, repair_loop (m + rounds) fuel (reverse (r :: rs) ++ stack) [] l s = repair_loop rounds fuel stack [] l' s) ∧
    same_meta l l' ∧ el_rescue l' = el_rescue l ∧ el_extents l' = lower ++ es' ∧ levels_ok false id hist (S i) es' lv' rs ∧
    levels_pieces lv' = levels_pieces lv ∧ length <$> lv' = length <$> lv ∧
    (0 ≤ el_write_count l → 0 ≤ el_write_count l' ≤ el_write_count l + Z.of_nat (kept lv)).
Proof.
  revert i es0 rs f la r l lower es stack.
  induction lv as [|cs lv IH]; intros i es0 rs f la r l lower es stack Hlk Hlv0 El Hl Hlv Hfuel Hi.
  { destruct es0 as [|[|] es0], rs; try (destruct Hlv0; fail). destruct es as [|[|] es]; try (destruct Hlv; fail). destruct (Hlk eq_refl) as (_&_&->&_).
    exists 1%nat, l, [], []. split; [reflexivity|]. split_and!; try done. change (kept []) with 0%nat. lia. }
  destruct es0 as [|[|e0] es0], rs as [|r1 rs]; try (destruct Hlv0; fail). destruct Hlv0 as (Hh0&Hlk1&Hlv1).
  destruct es as [|[|e] es]; try (destruct Hlv; fail). destruct Hlv as (Hh&_&Hlv).
  destruct (IH (S i) es0 rs _ _ r1 l (lower ++ [SBlockExtent e]) es (r :: stack) Hlk1 Hlv1)
    as (m&l1&es1&lv1&Hrun&(Em1&Em2&Em3)&Ers&Ee1&Hlv'&Epc&Elen&Hwc); try assumption.
  { by rewrite <- app_assoc. }
  { rewrite length_app, Hl. simpl. lia. }
  { simpl in Hi. lia. }
  destruct (Hlk eq_refl) as (_&_&Er&Hch). change (above (cs :: lv)) with cs in Er, Hch.
  pose proof (ih_children _ _ _ _ _ _ Hh0) as Hc. replace (S i - 1)%nat with i in Hc by lia.
  destruct (repair_chain i cs Hch Hc) as (cs'&Hc'&E2&Hwalk); [lia|].
  assert (Elen' : length cs' = length cs) by (apply (f_equal length) in E2; by rewrite !length_fmap in E2).
  rewrite <- app_assoc in Ee1. cbn [app] in Ee1.
  destruct (refill i cs' fuel l1 lower e es1 []) as (l2&e2&Eapp&Ee2&Hh2&(Em4&Em5&Em6)&Ers2&Hwc2); try assumption.
  { simpl. rewrite Elen'. by eapply inner_full. }
  { lia. }
  exists (m + (length cs + 1))%nat, l2, (SBlockExtent e2 :: es1), (cs' :: lv1). split; [|split; [split_and!; congruence|split; [congruence|split; [exact Ee2|split; [|split; [|split]]]]]].
  - intros rounds. rewrite reverse_cons, <- app_assoc. cbn [app]. replace (m + (length cs + 1) + rounds)%nat with (m + (length cs + S rounds))%nat by lia.
    rewrite Hrun, Er, Hwalk. cbn [Tree.repair_loop]. rewrite decide_True by reflexivity.
    rewrite app_nil_r, Eapp. reflexivity.
  - split; [exact Hh2|]. split; [discriminate|exact Hlv'].
  - cbn [levels_pieces]. rewrite Epc. unfold level_pieces. by rewrite E2.
  - rewrite !fmap_cons. congruence.
  - rewrite kept_cons. intros Hw0. specialize (Hwc Hw0). rewrite Elen' in Hwc2. lia.
Qed.

Lemma last_rescue i es lv r rs f la :
  link_ok true hist f la r (above lv) → levels_ok true id hist (S i) es lv rs → last (r :: rs) = Some EMPTY_ADDR.
Proof.
  revert i es r rs f la. induction lv as [|cs lv IH]; intros i es r rs f la Hlk Hlv;
    destruct es as [|[|e] es], rs as [|r1 rs]; try (destruct Hlv; fail).
  - by destruct (Hlk eq_refl) as (_&_&->&_).
  - destruct Hlv as (_&Hlk1&Hlv). change (last (r1 :: rs) = Some EMPTY_ADDR). by eapply IH.
Qed.

Lemma crash_status rs : last rs = Some EMPTY_ADDR → Tree.repair_status rs = REPAIR.
Proof. intros E. unfold Tree.repair_status. rewrite E. rewrite decide_False; [done|]. by intros [_ ?]. Qed.

Lemma same_lengths (lv lv' : list (list child)) :
  length <$> lv' = length <$> lv → weight lv' = weight lv ∧ kept lv' = kept lv ∧ (top_ok lv → top_ok lv').
Proof.
  revert lv'. induction lv as [|cs lv IH]; intros [|cs' lv'] E; try discriminate E; [done|].
  rewrite !fmap_cons in E. injection E as E1 E. destruct (IH lv' E) as (Hw&Hk&Ht). rewrite !kept_cons. cbn [weight].
  split_and!; [by rewrite E1, Hw|by rewrite E1, Hk|]. intros Hto. apply top_ok_cons; [|by eapply Ht, top_ok_tail].
  destruct lv as [|c lv], lv' as [|c' lv']; try discriminate E; [left|by right].
  specialize (Hto cs eq_refl). intros ->. by destruct cs.
Qed.

(** ** The list *)

Lemma kept_le lk i es lv rs : levels_ok lk id hist i es lv rs → (kept lv ≤ 32 * length lv)%nat.
Proof.
  revert i lv rs. induction es as [|[|e] es IH]; intros i [|cs lv] [|r rs] Hlv; try (destruct Hlv; fail); [done|].
  destruct Hlv as (Hh&_&Hlv). apply inner_full in Hh. specialize (IH _ _ _ Hlv). rewrite kept_cons. cbn [length]. lia.
Qed.

Lemma repair_ok fuel l pts lv t :
  (2 ≤ fuel)%nat → tree_ok true id l hist pts lv → el_extents l ≠ [] → weight lv < 2 ^ 60 →
  (∀ x, x ∈ points (levels_pieces lv) → x.1 ≤ t) → (t = 0 ∨ ∃ x, x ∈ points (levels_pieces lv) ∧ x.1 = t) →
  ∃ m l', (∀ rounds, (m ≤ rounds)%nat →
      Tree.force_init impl at_ rounds fuel (mkList [] id 0 (el_rescue l) false 0) s = Some (l', s)) ∧
    el_last l' = 0 ∧ (∃ ext, Tree.leaf_at l' = Some ext ∧ le_last ext = EMPTY_ADDR ∧ le_fanout ext = 0) ∧
    reopened id hist (points (levels_pieces lv)) (2 ^ 60) (Tree.set_last t l').
Proof.
  intros Hfuel [He Hsort _ [_ Ei] Hto] Hne Hwt Ht1 Ht2. destruct (el_extents l) as [|[e|] es], (el_rescue l) as [|r rs]; try (destruct He; fail);
    [by destruct Hne|]. destruct He as (_&Hlk&Hlv). pose proof (few_levels lv Hto ltac:(lia)) as Hlen.
  destruct (levels_length _ _ _ _ _ _ _ Hlv) as [_ Hrs].
  destruct (open_leaf_new impl at_ id Hid s) as (leaf&Eleaf&Hleaf&Ella&Elfa).
  destruct (new_levels (length lv) 1) as (es0&Ees&Hnew); [lia|].
  set (l1 := mkList (LeafExtent leaf :: es0) id 0 (r :: rs) true 0).
  destruct (repair_levels fuel lv 0 es rs _ _ r l1 [LeafExtent leaf] es0 [] Hlk Hlv eq_refl eq_refl)
    as (m&l'&es'&lv'&Hrun&(Em1&Em2&Em3)&Ers&Ee&Hlv'&Epc&Elen&Hwc); [by apply Hnew|exact Hfuel|lia|].
  destruct (same_lengths lv lv' Elen) as (Ew&Ek&Htop). pose proof (kept_le _ _ _ _ _ Hlv) as Hkp.
  exists (m + 1)%nat, l'. split; [|split; [exact Em2|split; [exists leaf; split; [by eapply leaf_at_head|split; [exact Ella|exact Elfa]]|]]].
  - intros rounds Hr. unfold Tree.force_init, Tree.init. cbn [el_initialized Tree.set_initialized el_rescue el_extents el_id el_last el_write_count].
    rewrite decide_False by discriminate. rewrite crash_status by (by eapply last_rescue). unfold Tree.repair.
    cbn [el_initialized Tree.set_initialized el_rescue el_extents el_id el_last el_write_count length Tree.create_empty_extents]. rewrite Eleaf.
    cbn [mbind option_bind]. rewrite Hrs, Ees. cbn [mbind option_bind].
    specialize (Hrun (rounds - m)%nat). rewrite app_nil_r in Hrun. replace (m + (rounds - m))%nat with rounds in Hrun by lia.
    destruct (rounds - m)%nat eqn:Er; [lia|]. exact Hrun.
  - exists lv'. assert (Ec : content [] lv' = points (levels_pieces lv)) by (unfold content; by rewrite Epc, app_nil_r).
    split; [constructor|split_and!].
    + cbn [Tree.set_last el_extents el_rescue]. rewrite Ee, Ers. split; [exact Hleaf|]. split; [discriminate|exact Hlv'].
    + rewrite Ec. by apply sorted_app_l in Hsort.
    + rewrite Ec. exact Ht1.
    + cbn [Tree.set_last el_initialized el_id]. rewrite Em3, Em1. split; reflexivity.
    + exact (Htop Hto).
    + exact Ec.
    + cbn [Tree.set_last el_write_count l1] in *. lia.
    + cbn [Tree.set_last el_write_count l1] in *. lia.
    + lia.
    + lia.
    + exact Ht2.
Qed.

End Repair.

(** ** Going on after the recovery *)

Lemma append_points_last {B} `{BlockStore B} impl at_ rounds fuel pts l (s : B) t :
  el_initialized l = true → el_last l = 0 → pts ≠ [] → (∀ x, head pts = Some x → t ≤ x.1 ∧ 0 ≤ x.1) →
  append_points impl at_ rounds fuel pts (Tree.set_last t l) s = append_points impl at_ rounds fuel pts l s.
Proof.
  intros Hi Hl Hne Hh. destruct pts as [|x pts]; [by destruct Hne|]. destruct (Hh x eq_refl) as [H1 H2]. cbn [append_points].
  assert (Tree.append impl at_ rounds fuel x.1 x.2 true (Tree.set_last t l) s = Tree.append impl at_ rounds fuel x.1 x.2 true l s) as ->; [|done].
  unfold Tree.append. rewrite !init_done by exact Hi. cbn [mbind option_bind]. unfold Tree.append_ready.
  change (el_last (Tree.set_last t l)) with t. rewrite Hl, !bool_decide_eq_false_2 by lia. reflexivity.
Qed.

Lemma latest pts : ts_sorted pts → ∃ t, (∀ x, x ∈ pts → x.1 ≤ t) ∧ (t = 0 ∨ ∃ x, x ∈ pts ∧ x.1 = t).
Proof.
  intros Hs. destruct pts as [|y pts _] using rev_ind; [exists 0; split; [intros x Hx; by apply not_elem_of_nil in Hx|by left]|].
  exists y.1. apply StronglySorted_app in Hs as (Hy&_&_). split.
  - intros x [Hx|Hx%list_elem_of_singleton]%elem_of_app; [apply Hy; [exact Hx|by apply list_elem_of_singleton]|by subst].
  - right. exists y. split; [|done]. apply elem_of_app. right. by apply list_elem_of_singleton.
Qed.

Lemma sorted_drop_middle l1 l2 l3 : ts_sorted ((l1 ++ l2) ++ l3) → ts_sorted (l1 ++ l3).
Proof.
  intros Hs. apply StronglySorted_app in Hs as (Hx&Hl&H3). apply sorted_app_l in Hl. apply StronglySorted_app.
  split_and!; [|exact Hl|exact H3]. intros x y Hx1 Hy. apply Hx; [apply elem_of_app; by left|exact Hy].
Qed.

(** ** Properties *)

(** C3: a crash loses the open leaf and nothing else.  After any run of
    appends, take the rescue points as they are - the tree is not closed - and the
    blocks of the store: a list made from them repairs itself on the first use.
    It accepts the points that follow and a query returns exactly the points of
    the range among those that had been written to leaves and the new ones; what
    is lost are the points that were in the leaf in memory.  (The forward query over
    all times of a list that got no point since is left out.)  [last_] is not
    restored: it is 0, so points from before the crash are accepted too.  The leaf
    starts a new chain, whatever children the node above it has. *)
Theorem tree_crash_recovery {B} `{BlockStoreLaws B} impl `{!Crc32cImpl impl} at_ id pts pts2 f b e size rounds fuel
    (s : B) hist k :
  is_u64 id → Forall point_ok (pts ++ pts2) → Forall (λ x, finite x.2) (pts ++ pts2) → ts_sorted (pts ++ pts2) →
  pts ≠ [] → Z.of_nat (length (pts ++ pts2)) < 2 ^ 59 →
  bs_inv (2 * length pts + (416 + 2 * length pts2 + k)) s hist → (31 ≤ fuel)%nat →
  exact_query f b e → pts2 ≠ [] ∨ ¬ (b < e ∧ everything b e) → (0 < size)%nat →
  ∃ l0 rs1 l1 s1 hist1 saved lost ext l2, Tree.make id [] = Some l0 ∧
    append_points impl at_ rounds fuel pts l0 s = Some (rs1, l1, s1) ∧ fine rs1 ∧
    pts = saved ++ lost ∧ Tree.leaf_at l1 = Some ext ∧ Leaf.read_all (le_leaf ext) = Some (kOk, lost) ∧
    Tree.make id (Tree.get_roots l1) = Some l2 ∧ (∃ k1, bs_inv k1 s1 hist1) ∧
    ((∀ a, is_Some (hist1 !! a) → bs_exists a s1 = true) → ∃ M l3, ∀ rounds2, (M ≤ rounds2)%nat →
      Tree.force_init impl at_ rounds2 fuel l2 s1 = Some (l3, s1) ∧ el_last l3 = 0 ∧
      (∃ ext3, Tree.leaf_at l3 = Some ext3 ∧ le_last ext3 = EMPTY_ADDR ∧ le_fanout ext3 = 0) ∧
      ∃ rs4 l4 s4 hist4 op l5 vis N, append_points impl at_ rounds2 fuel pts2 l2 s1 = Some (rs4, l4, s4) ∧ fine rs4 ∧
        (∃ k4, bs_inv k4 s4 hist4) ∧ Tree.query impl at_ rounds2 fuel b e f l4 s4 = Some (op, l5, s4) ∧
        (∀ rounds' fuel', (length (saved ++ pts2) < rounds')%nat → (N ≤ fuel')%nat →
          SBlock.drain impl (at_ 0%nat) s4 rounds' fuel' size op = Some (select f b e vis, kNoData)) ∧
        sublist vis (saved ++ pts2) ∧ ((∀ a, is_Some (hist4 !! a) → bs_exists a s4 = true) → vis = saved ++ pts2)).
Proof.
  intros Hid Hp Hf Hs Hne Hlen Hk Hfuel Hq Hev Hsz. rewrite length_app in Hlen.
  apply Forall_app in Hp as [Hp1 Hp2]. apply Forall_app in Hf as [Hf1 Hf2].
  destruct (fresh_run impl at_ true id Hid rounds fuel pts s hist (416 + 2 * length pts2 + k) Hp1 Hf1)
    as (l0&rs1&l1&s1&hist1&lost&lv&E0&E1&Hrs1&_&Hok&Hc&Hpne&Hk1&Hwt&_); try assumption; [by apply sorted_app_l in Hs|lia|].
  pose proof Hok as [He _ _ _ Hto]. destruct (el_extents l1) as [|[ext|] es] eqn:Ee, (el_rescue l1) as [|r rs] eqn:Er; try (destruct He; fail);
    [by destruct He as [-> _]|]. destruct He as (Hleaf&_&Hlv). destruct (lh_leaf _ _ _ _ Hleaf) as (h&Hinv&_).
  set (saved := points (levels_pieces lv)). assert (Epts : pts = saved ++ lost) by (symmetry; exact Hc).
  assert (Hs2 : ts_sorted (saved ++ pts2)) by (rewrite Epts in Hs; by eapply sorted_drop_middle).
  destruct (levels_length _ _ _ _ _ _ _ Hlv) as [_ Hrs]. pose proof (few_levels lv Hto ltac:(lia)) as Hll.
  eexists l0, rs1, l1, s1, hist1, saved, lost, ext, _. split; [exact E0|]. split; [exact E1|]. split; [exact Hrs1|].
  split; [exact Epts|]. split; [by eapply leaf_at_head|]. split; [by eapply read_all_open|]. split.
  { unfold Tree.make, Tree.get_roots. rewrite Er, decide_False; [reflexivity|]. cbn [length]. lia. }
  split; [eauto|]. intros Hex. destruct (latest saved (sorted_app_l _ _ Hs2)) as (t&Ht1&Ht2).
  destruct (repair_ok impl at_ id _ s1 hist1 Hid Hk1 Hex fuel l1 lost lv t ltac:(lia) Hok) as (M&l3&Hinit&El3&Hext&Hre); try assumption;
    [by rewrite Ee|lia|].
  exists M, l3. intros rounds2 Hr2. specialize (Hinit rounds2 Hr2). split; [by rewrite <- Er|]. split; [exact El3|]. split; [exact Hext|].
  destruct (next_session impl at_ id Hid rounds2 fuel saved pts2 (Tree.set_last t l3) s1 hist1 (2 ^ 60) f b e size k Hre)
    as (rs4&l4&s4&hist4&op&vis&N&E4&Hrs4&Hini&_&Hk4&Eop&Hdr&Hsub&Hall); try assumption; try lia.
  { apply (bs_weaken_by (kept lv)). by rewrite Nat.add_comm. }
  assert (Hi3 : el_initialized l3 = true) by (destruct Hre as (?&Ho&_); exact (proj1 (to_ready _ _ _ _ _ _ Ho))).
  rewrite <- Er. destruct (decide (pts2 = [])) as [->|Hne2].
  - cbn [append_points] in E4. injection E4 as <- <- <-.
    eexists [], _, s1, hist4, op, l3, vis, N. split; [reflexivity|]. split; [constructor|]. split; [exact Hk4|].
    split; [unfold Tree.query; rewrite Hinit; cbn [mbind option_bind]; change (Tree.search b e f l3) with (Tree.search b e f (Tree.set_last t l3)); by rewrite Eop|]. by split_and!.
  - exists rs4, l4, s4, hist4, op, l4, vis, N. rewrite (append_points_init impl at_ rounds2 fuel pts2 _ l3 s1 Hinit Hi3 Hne2).
    rewrite append_points_last in E4; try assumption.
    + split; [exact E4|]. split; [exact Hrs4|]. split; [exact Hk4|].
      split; [unfold Tree.query; rewrite init_done by exact Hini; cbn [mbind option_bind]; by rewrite Eop|]. by split_and!.
    + intros x Hx%head_Some_elem_of. rewrite Forall_forall in Hp2. destruct (Hp2 x Hx) as [[Hx0 _] _]. split; [|exact Hx0].
      apply StronglySorted_app in Hs2 as (Hxy&_&_). destruct Ht2 as [->|(y&Hy&<-)]; [exact Hx0|by apply Hxy].
Qed.

(** ** Witnesses *)

(** A run: a tree is closed and opened again, a point is added, and the program
    stops; the list made from its rescue points finds the three points of the first
    session through a query back. *)
Definition crash_run : option (list Z * option (list point * Status)) :=
  l ← Tree.make 42 [];
  '(_, l, s) ← append_points crc32c_sw (λ _, 0) 1 31 sample_points l (Mem.make false false);
  '(addrs, _, s) ← Tree.close crc32c_sw (λ _, 0) 16 31 l s;
  l ← Tree.make 42 addrs;
  '(_, l, s) ← append_points crc32c_sw (λ _, 0) 1 31 later_points l s;
  l ← Tree.make 42 (Tree.get_roots l);
  '(op, _, s) ← Tree.query crc32c_sw (λ _, 0) 10 31 40 0 None l s;
  Some (Tree.get_roots l, SBlock.drain crc32c_sw 0 s 10 10 10 op).

Lemma tree_crash_recovery_witness :
  (∃ l0 rs1 l1 s1 saved lost ext l2, Tree.make 42 [] = Some l0 ∧
    append_points crc32c_sw (λ _, 0) 1 31 sample_points l0 (Mem.make false false) = Some (rs1, l1, s1) ∧
    sample_points = saved ++ lost ∧ Tree.leaf_at l1 = Some ext ∧ Leaf.read_all (le_leaf ext) = Some (kOk, lost) ∧
    Tree.make 42 (Tree.get_roots l1) = Some l2) ∧
  crash_run = Some ([619; EMPTY_ADDR], Some ([(30, 0); (20, 0x4000000000000000); (10, 0x3FF0000000000000)], kNoData)).
Proof.
  split; [|vm_compute; reflexivity].
  destruct (tree_crash_recovery (B := MemStore) crc32c_sw (λ _, 0) 42 sample_points later_points None 40 10 10 1 31
    (Mem.make false false) ∅ 0) as (l0&rs1&l1&s1&hist1&saved&lost&ext&l2&E0&E1&_&E2&E3&E4&E5&_);
    [by_compute|by_compute|by_compute|repeat constructor; by_compute|done|by_compute|split; [by apply mem_make_inv|done]|lia|done|left; done|lia|].
  exists l0, rs1, l1, s1, saved, lost, ext, l2. split_and!; assumption.
Defined.
