(* ===== verification/Events.v ===== *)
(** * Events: binary values in the tree (nbtree.cc)

    An event is a string of bytes with a timestamp.  It is stored as a run of
    points: a head, at the timestamp rounded down to a microsecond, which holds
    the size and the remainder, and one point per eight bytes at the following
    nanoseconds.  [BinaryDataIterator] puts the events together again. *)
From S2P Require Import Prelude Status ByteStream Base128 VByte DataBlock DataBlockProof IOVec Blocks Volume Crc32c BlockStoreProof MemStore Double SubtreeRef Operator Leaf LeafIter Superblock TreeIter TreeRead Extents.

Notation event := (Z * list Z)%type.

(** [get_direction] of the operators; a chain has that of its first. *)
Fixpoint op_direction (op : RealValuedOperator) : Direction :=
  match op with
  | OpLeaf it => LeafIter.get_direction it
  | OpLeafFilter it => LeafFilterOp.get_direction it
  | OpEmpty b e => direction b e
  | OpSBlock s _ => SBlock.get_direction s
  | OpChain (it :: _) _ => op_direction it
  | OpChain [] _ => FORWARD
  end.

(** ** State *)

(** [buf] is [ts_] and [xs_] up to [cap_].  Before the first head [curr_size_]
    and [outts_] have no value. *)
Record BinaryDataIterator := mkBin {
  bi_base : RealValuedOperator;
  bi_buf : list point;
  bi_pos : nat;
  bi_top : nat;
  bi_curr : list Z;              (* curr_ *)
  bi_head : option (Z * Z);      (* curr_size_, outts_ *)
}.

Module Event.

Definition MAX_EVENT_LEN : Z := 4096.
Definition BUF_SIZE : nat := 513.

(** ** Writing *)

(** [for (i = 0; i < size; i += 8)]: eight bytes at a time, the last ones padded
    with zeros. *)
Fixpoint elements (n : nat) (blob : list Z) : list Z :=
  match n with
  | O => []
  | S n => if decide (blob = []) then [] else le_val (take 8 blob) :: elements n (drop 8 blob)
  end.

Definition head_word (size tsrem : Z) : Z := le_val (le_bytes 4 size ++ le_bytes 4 tsrem).

Section Append.
Context {B : Type} `{BlockStore B}.
Variables (impl : crc32c_impl_t) (at_ : nat → Z) (rounds fuel : nat).

Fixpoint append_elements (xs : list Z) (basets : Z) (outres : NBTreeAppendResult) (l : ExtentsList) (bstore : B)
    : option (NBTreeAppendResult * ExtentsList * B) :=
  match xs with
  | [] => Some (outres, l, bstore)
  | x :: xs =>
    '(res, l, bstore) ← Tree.append impl at_ rounds fuel basets x false l bstore;
    match res with
    | OK => append_elements xs (u64 (basets + 1)) outres l bstore
    | OK_FLUSH_NEEDED => append_elements xs (u64 (basets + 1)) res l bstore
    | _ => Some (res, l, bstore)
    end
  end.

(** [NBTreeExtentsList::append(ts, blob, size)]. *)
Definition append (ts : Z) (blob : list Z) (l : ExtentsList) (bstore : B)
    : option (NBTreeAppendResult * ExtentsList * B) :=
  let size := Z.of_nat (length blob) in
  if decide (size = 0 ∨ MAX_EVENT_LEN < size) then Some (FAIL_BAD_VALUE, l, bstore) else
  let basets := u64 (ts / 1000 * 1000) in
  let tsrem := u32 (ts - basets) in
  '(outres, l, bstore) ← Tree.append impl at_ rounds fuel basets (head_word size tsrem) false l bstore;
  match outres with
  | FAIL_BAD_ID | FAIL_BAD_VALUE | FAIL_LATE_WRITE => Some (outres, l, bstore)
  | _ => append_elements (elements (length blob) blob) (u64 (basets + 1)) outres l bstore
  end.

End Append.

(** ** Reading *)

Definition make (base : RealValuedOperator) : BinaryDataIterator := mkBin base [] 0 0 [] None.

Definition get_direction (it : BinaryDataIterator) : Direction := op_direction (bi_base it).

(** One element: a head starts an event, another one adds to it; the event is
    handed out when it has its size.  Without a head the size is not
    initialised. *)
Definition feed (curr : list Z) (head : option (Z * Z)) (x : point)
    : option (list Z * option (Z * Z) * option event) :=
  let body := le_bytes 8 x.2 in
  if decide (x.1 mod 1000 = 0) then
    Some ([], Some (le_val (take 4 body), u64 (x.1 + le_val (drop 4 body))), None)
  else
    '(curr_size, outts) ← head;
    let niter := Z.to_nat (Z.min 8 (u64 (curr_size - Z.of_nat (length curr)))) in
    let curr := curr ++ take niter body in
    Some (curr, Some (curr_size, outts),
          if decide (curr_size = Z.of_nat (length curr)) then Some (outts, curr) else None).

(** The elements of a backward read up to the last head, each event turned
    round, and the rest. *)
Fixpoint regroup (seg buf : list point) : list point * list point :=
  match buf with
  | [] => ([], seg)
  | x :: buf =>
    if decide (x.1 mod 1000 = 0) then
      let '(ready, tail) := regroup [] buf in (reverse (seg ++ [x]) ++ ready, tail)
    else regroup (seg ++ [x]) buf
  end.

Section Read.
Context {B : Type} `{BlockStore B}.
Variables (impl : crc32c_impl_t) (at_ : Z) (bstore : B).

(** [pos_ == top_]: what is left over is moved to the front and the buffer is
    filled up. *)
Definition refill (fuel : nat) (it : BinaryDataIterator) : option (Status * BinaryDataIterator) :=
  let tail := drop (bi_top it) (bi_buf it) in
  '(status, out, base) ← SBlock.read impl at_ bstore fuel (BUF_SIZE - length tail) (bi_base it);
  let buf := tail ++ out in
  if decide (status = kNoData ∧ buf = [] ∨ status ≠ kNoData ∧ status ≠ kOk) then
    Some (status, mkBin base buf 0 0 (bi_curr it) (bi_head it))
  else
    match op_direction base with
    | BACKWARD =>
      let '(ready, rest) := regroup [] buf in
      let buf := if decide (length buf = length tail ∧ ready = []) then [] else ready ++ rest in
      Some (kOk, mkBin base buf 0 (length ready) (bi_curr it) (bi_head it))
    | FORWARD => Some (kOk, mkBin base buf 0 (length buf) (bi_curr it) (bi_head it))
    end.

(** A round fills the buffer or takes one element. *)
Fixpoint read_loop (rounds fuel size : nat) (it : BinaryDataIterator) (out : list event)
    : option (Status * list event * BinaryDataIterator) :=
  match rounds with
  | O => None
  | S rounds =>
    if decide (size ≤ length out)%nat then Some (kOk, out, it) else
    if decide (bi_pos it = bi_top it) then
      '(status, it) ← refill fuel it;
      if decide (status = kNoData) then Some (status, out, it) else
      if decide (status ≠ kOk) then Some (status, [], it) else
      read_loop rounds fuel size it out
    else
      x ← bi_buf it !! bi_pos it;
      '(curr, head, ev) ← feed (bi_curr it) (bi_head it) x;
      read_loop rounds fuel size (mkBin (bi_base it) (bi_buf it) (bi_pos it + 1) (bi_top it) curr head)
        (out ++ option_list ev)
  end.

Definition read (rounds fuel size : nat) (it : BinaryDataIterator) : option (Status * list event * BinaryDataIterator) :=
  read_loop rounds fuel size it [].

(** ** [BinaryDataFilter::read]; the regular expression is a parameter. *)
Fixpoint filter_loop (rounds fuel size : nat) (match_ : list Z → bool) (it : BinaryDataIterator) (out : list event)
    : option (Status * list event * BinaryDataIterator) :=
  match rounds with
  | O => None
  | S rounds =>
    if decide (size ≤ length out)%nat then Some (kOk, out, it) else
    '(status, evs, it) ← read rounds fuel 1 it;
    if decide (status ≠ kOk ∧ (status = kNoData ∧ evs = [] ∨ status ≠ kNoData)) then Some (status, out, it) else
    filter_loop rounds fuel size match_ it (out ++ filter (λ e, match_ e.2 = true) (take 1 evs))
  end.

End Read.
End Event.
