(* ===== verification/EventsProof.v ===== *)
(** * Events are read back as they were written

    What the iterator hands out depends only on the sequence of points that the
    operator below it delivers, not on how they come in portions; and the points
    of an event, fed one by one, give the event. *)
From stdpp Require Import sorting.
From S2P Require Import Prelude Status ByteStream Base128 VByte DataBlock DataBlockProof IOVec Blocks Volume Crc32c BlockStoreProof MemStore Double SubtreeRef Operator Leaf LeafIter Superblock TreeIter TreeRead Extents Events.

(** ** The direction does not change *)

Ltac bind_inv H :=
  repeat match type of H with
  | (mbind _ ?o = Some _) => let E := fresh "E" in destruct o eqn:E; cbn [mbind option_bind] in H; [|discriminate H]
  | ((let '(_, _) := ?p in _) = Some _) => destruct p
  | ((if ?b then _ else _) = Some _) => destruct b
  end.

Section Direction.
Context {B : Type} `{BlockStore B}.
Variables (impl : crc32c_impl_t) (at_ : Z) (bstore : B).

Lemma leaf_read_direction size it st out it' :
  LeafIter.read size it = Some (st, out, it') → LeafIter.get_direction it' = LeafIter.get_direction it.
Proof. unfold LeafIter.read. intros E. repeat case_decide; by simplify_eq. Qed.

Lemma next_iter_direction s st it s' :
  SBlock.get_next_iter impl at_ bstore s = Some (st, it, s') → SBlock.get_direction s' = SBlock.get_direction s.
Proof.
  unfold SBlock.get_next_iter. intros E.
  assert (Hn : ∀ o s1, SBlock.next_ref s = Some (o, s1) → SBlock.get_direction s1 = SBlock.get_direction s).
  { intros o s1 Hn. unfold SBlock.next_ref in Hn. destruct (SBlock.get_direction s) eqn:Ed;
      repeat case_decide; simplify_option_eq; done. }
  destruct (SBlock.next_ref s) as [[o s1]|] eqn:En; [|discriminate E]. cbn [mbind option_bind] in E.
  specialize (Hn _ _ eq_refl). destruct o; [|by simplify_eq]. bind_inv E. by simplify_eq.
Qed.

Lemma init_direction s st s' :
  SBlock.init impl at_ bstore s = Some (st, s') → SBlock.get_direction s' = SBlock.get_direction s.
Proof. unfold SBlock.init. intros E. bind_inv E; by simplify_eq. Qed.

Lemma chain_loop_S fuel size iters ix status out :
  SBlock.chain_loop impl at_ bstore (S fuel) size iters ix status out =
    if decide (length iters ≤ ix)%nat then Some (status, out, OpChain iters ix) else
    it ← iters !! ix;
    '(status, more, it) ← SBlock.read impl at_ bstore fuel (size - length out) it;
    let out := out ++ more in
    let iters := <[ix := it]> iters in
    if decide (size - length out = 0)%nat then Some (status, out, OpChain iters ix) else
    if decide (status = kNoData ∨ status = kUnavailable) then SBlock.chain_loop impl at_ bstore fuel size iters (ix + 1) status out
    else if decide (status ≠ kOk) then Some (status, out, OpChain iters ix)
    else SBlock.chain_loop impl at_ bstore fuel size iters ix status out.
Proof. reflexivity. Qed.

Lemma read_direction_all fuel :
  (∀ size op st out op', SBlock.read impl at_ bstore fuel size op = Some (st, out, op') → op_direction op' = op_direction op) ∧
  (∀ size s iter status acc st out op', SBlock.iter_loop impl at_ bstore fuel size s iter status acc = Some (st, out, op') →
     op_direction op' = SBlock.get_direction s) ∧
  (∀ size iters ix status acc st out op', SBlock.chain_loop impl at_ bstore fuel size iters ix status acc = Some (st, out, op') →
     op_direction op' = op_direction (OpChain iters ix)).
Proof.
  induction fuel as [|fuel (IHr&IHi&IHc)]; [split_and!; discriminate|]. split_and!.
  - intros size op st out op' E. cbn [SBlock.read] in E. destruct op as [it|it|b e|s iter|iters ix].
    + bind_inv E. simplify_eq. by eapply leaf_read_direction.
    + destruct (LeafFilterOp.read size it) as [[st1 out1] it1] eqn:Er. simplify_eq.
      unfold LeafFilterOp.read in Er. repeat case_decide; by simplify_eq.
    + by simplify_eq.
    + destruct (decide (si_fsm_pos s = 0)).
      * destruct (SBlock.init impl at_ bstore s) as [[st1 s1]|] eqn:Ei; [|discriminate E]. cbn [mbind option_bind] in E.
        pose proof (init_direction _ _ _ Ei) as Hd. simpl. rewrite <- Hd.
        destruct (decide (st1 ≠ kOk)); [by simplify_eq|]. by apply IHi in E.
      * cbn [mbind option_bind] in E. destruct (decide (kOk ≠ kOk)); [by simplify_eq|]. by apply IHi in E.
    + by apply IHc in E.
  - intros size s iter status acc st out op' E. cbn [SBlock.iter_loop] in E. case_decide; [by simplify_eq|].
    destruct (match iter with Some it => _ | None => _ end) as [[[st1 iter1] s1]|] eqn:En; [|discriminate E].
    cbn [mbind option_bind] in E.
    assert (Hd : SBlock.get_direction s1 = SBlock.get_direction s).
    { destruct iter; [by simplify_eq|]. by eapply next_iter_direction. }
    rewrite <- Hd. case_decide; [by apply IHi in E|]. case_decide; [by simplify_eq|]. bind_inv E; first [by simplify_eq|by apply IHi in E].
  - intros size iters ix status acc st out op' E. rewrite chain_loop_S in E. case_decide; [by simplify_eq|].
    destruct (iters !! ix) as [it|] eqn:Hit; [|discriminate E]. cbn [mbind option_bind] in E.
    destruct (SBlock.read impl at_ bstore fuel (size - length acc) it) as [[[st1 more] it1]|] eqn:Er; [|discriminate E].
    cbn [mbind option_bind] in E. apply IHr in Er.
    assert (Hd : ∀ j, op_direction (OpChain (<[ix := it1]> iters) j) = op_direction (OpChain iters ix)).
    { intros j. destruct iters as [|x iters], ix; try done. simpl in Hit |- *. congruence. }
    repeat case_decide; simplify_eq; first [by apply Hd|apply IHc in E; rewrite E; apply Hd].
Qed.

Lemma read_direction fuel size op st out op' :
  SBlock.read impl at_ bstore fuel size op = Some (st, out, op') → op_direction op' = op_direction op.
Proof. apply read_direction_all. Qed.

End Direction.

(** ** The events of a sequence of points *)

Fixpoint feeds (curr : list Z) (head : option (Z * Z)) (pts : list point)
    : option (list event * (list Z * option (Z * Z))) :=
  match pts with
  | [] => Some ([], (curr, head))
  | x :: pts =>
    '(curr, head, ev) ← Event.feed curr head x;
    '(evs, st) ← feeds curr head pts;
    Some (option_list ev ++ evs, st)
  end.

Lemma feeds_app c h pts1 pts2 evs1 c1 h1 evs2 st :
  feeds c h pts1 = Some (evs1, (c1, h1)) → feeds c1 h1 pts2 = Some (evs2, st) →
  feeds c h (pts1 ++ pts2) = Some (evs1 ++ evs2, st).
Proof.
  revert c h evs1. induction pts1 as [|x pts1 IH]; intros c h evs1 E1 E2; simpl in *; [by simplify_eq|].
  destruct (Event.feed c h x) as [[[c' h'] ev]|]; [|done]. simpl in *.
  destruct (feeds c' h' pts1) as [[evs' [c2 h2]]|] eqn:E; [|done]. simpl in E1. simplify_eq.
  by rewrite (IH _ _ _ E E2), <- app_assoc.
Qed.

Section Forward.
Context {B : Type} `{BlockStore B}.
Variables (impl : crc32c_impl_t) (at_ : Z) (bstore : B) (P : RealValuedOperator → list point → Prop).
Hypothesis HP : reads impl at_ bstore P.

(** A forward iterator that has [evs] still to hand out. *)
Definition ahead (it : BinaryDataIterator) (evs : list event) (m : nat) : Prop :=
  ∃ rest st, bi_top it = length (bi_buf it) ∧ (bi_pos it ≤ bi_top it)%nat ∧ op_direction (bi_base it) = FORWARD ∧
    P (bi_base it) rest ∧ feeds (bi_curr it) (bi_head it) (drop (bi_pos it) (bi_buf it) ++ rest) = Some (evs, st) ∧
    m = (2 * length rest + (length (bi_buf it) - bi_pos it))%nat.

Definition forward_ok (size : nat) (it : BinaryDataIterator) (evs out : list event) : Prop :=
  ∃ N st more it' evs' m', (∀ rounds fuel, (N ≤ rounds)%nat → (N ≤ fuel)%nat →
      Event.read_loop impl at_ bstore rounds fuel size it out = Some (st, out ++ more, it')) ∧
    evs = more ++ evs' ∧ ahead it' evs' m' ∧
    (st = kOk ∧ length (out ++ more) = size ∨ st = kNoData ∧ evs' = [] ∧ (length (out ++ more) < size)%nat).

(** One round more. *)
Lemma forward_S size it evs out it1 N1 :
  (∀ rounds fuel, (N1 ≤ fuel)%nat → Event.read_loop impl at_ bstore (S rounds) fuel size it out
    = Event.read_loop impl at_ bstore rounds fuel size it1 out) →
  forward_ok size it1 evs out → forward_ok size it evs out.
Proof.
  intros Er (N&st&more&it'&evs'&m'&E&Hc). exists (S (N + N1)), st, more, it', evs', m'. split; [|done].
  intros [|rounds] fuel Hr Hf; [lia|]. rewrite Er by lia. apply E; lia.
Qed.

Lemma read_forward m size it evs out :
  ahead it evs m → (length out ≤ size)%nat → forward_ok size it evs out.
Proof.
  revert it evs out. induction m as [m IH] using lt_wf_ind. intros it evs out Ha Hout.
  destruct (decide (size ≤ length out)%nat) as [Hfull|Hroom].
  { exists 1%nat, kOk, [], it, evs, m. rewrite app_nil_r. split; [|split; [done|split; [done|left; split; [done|lia]]]].
    intros [|rounds] fuel Hr _; [lia|]. cbn [Event.read_loop]. by rewrite decide_True. }
  destruct Ha as (rest&st&Htop&Hpos&Hdir&Hb&Hfeed&->). destruct (decide (bi_pos it = bi_top it)) as [Hend|Hmore].
  - destruct (HP (bi_base it) rest Event.BUF_SIZE Hb) as (N1&[[st1 got] base1]&E1&rest1&->&_&Hb1&Hc); [unfold Event.BUF_SIZE; lia|].
    rewrite drop_ge in Hfeed by lia. simpl in Hfeed. rewrite length_app in IH.
    assert (Hd1 : op_direction base1 = FORWARD) by (rewrite <- Hdir; eapply read_direction; apply (E1 N1); lia).
    set (it1 := mkBin base1 got 0 (length got) (bi_curr it) (bi_head it)).
    assert (Ha1 : ahead it1 evs (2 * length rest1 + length got)).
    { exists rest1, st. simpl. rewrite Nat.sub_0_r. split_and!; try done; lia. }
    destruct (decide (st1 = kNoData ∧ got = [])) as [[-> ->]|Hgo].
    + destruct Hc as [[? _]|(_&->&_)]; [done|]. simpl in Hfeed. simplify_eq.
      exists (S N1), kNoData, [], it1, [], 0%nat. rewrite app_nil_r. split; [|split; [done|split; [done|right; split_and!; [done|done|lia]]]].
      intros [|rounds] fuel Hr Hf; [lia|]. cbn [Event.read_loop]. rewrite decide_False by lia. rewrite decide_True by done.
      unfold Event.refill. rewrite Htop, drop_ge by lia. cbn [length]. rewrite Nat.sub_0_r, E1 by lia. cbn [mbind option_bind app].
      rewrite decide_True by (by left). cbn [mbind option_bind]. by rewrite decide_True.
    + assert (Hne : got ≠ []) by (destruct Hc as [(_&?&_)|(->&_)]; [done|intros ->; by apply Hgo]).
      assert (Hst : st1 = kOk ∨ st1 = kNoData) by (destruct Hc as [[-> _]|(->&_)]; [by left|by right]).
      assert (0 < length got)%nat by (destruct got; [done|simpl; lia]).
      apply (forward_S size it evs out it1 N1); [|apply (IH (2 * length rest1 + length got)%nat); [lia|done|lia]].
      intros rounds fuel Hf. cbn [Event.read_loop]. rewrite decide_False by lia. rewrite decide_True by done.
      unfold Event.refill. rewrite Htop, drop_ge by lia. cbn [length]. rewrite Nat.sub_0_r, E1 by lia. cbn [mbind option_bind app].
      rewrite decide_False by (intros [?|[H1 H2]]; [done|by destruct Hst]). rewrite Hd1. cbn [mbind option_bind].
      rewrite (decide_False (P := kOk = kNoData)) by done. by rewrite (decide_False (P := kOk ≠ kOk)) by (intros Hx; by apply Hx).
  - destruct (lookup_lt_is_Some_2 (bi_buf it) (bi_pos it)) as [x Hx]; [lia|].
    rewrite (drop_S _ _ _ Hx) in Hfeed. simpl in Hfeed.
    destruct (Event.feed (bi_curr it) (bi_head it) x) as [[[c h] ev]|] eqn:Ef; [|done]. simpl in Hfeed.
    destruct (feeds c h (drop (S (bi_pos it)) (bi_buf it) ++ rest)) as [[evs1 st1]|] eqn:Ef1; [|done]. simpl in Hfeed. simplify_eq.
    assert (Hlen : (length (out ++ option_list ev) ≤ size)%nat) by (rewrite length_app; destruct ev; simpl; lia).
    destruct (IH (2 * length rest + (length (bi_buf it) - (bi_pos it + 1)))%nat ltac:(lia)
      (mkBin (bi_base it) (bi_buf it) (bi_pos it + 1) (bi_top it) c h) evs1 (out ++ option_list ev))
      as (N&st'&more&it'&evs'&m'&E&->&Ha'&Hc); [|done|].
    { exists rest, st. simpl. rewrite Nat.add_1_r. split_and!; try done; lia. }
    exists (S N), st', (option_list ev ++ more), it', evs', m'. rewrite !app_assoc. split; [|split; [done|split; [done|exact Hc]]].
    intros [|rounds] fuel Hr Hf; [lia|]. cbn [Event.read_loop]. rewrite decide_False by lia. rewrite decide_False by done.
    rewrite Hx. cbn [mbind option_bind]. rewrite Ef. cbn [mbind option_bind]. apply E; lia.
Qed.

(** Reading to the end, in portions. *)
Fixpoint event_drain (n rounds fuel size : nat) (it : BinaryDataIterator) : option (list event * Status) :=
  match n with
  | O => None
  | S n =>
    '(st, out, it) ← Event.read impl at_ bstore rounds fuel size it;
    if decide (st ≠ kOk) then Some (out, st) else
    '(rest, st) ← event_drain n rounds fuel size it;
    Some (out ++ rest, st)
  end.

Lemma event_drain_ok size it evs m :
  ahead it evs m → (0 < size)%nat →
  ∃ N, ∀ n rounds fuel, (length evs < n)%nat → (N ≤ rounds)%nat → (N ≤ fuel)%nat →
    event_drain n rounds fuel size it = Some (evs, kNoData).
Proof.
  intros Ha Hsz. remember (length evs) as k eqn:Hk. revert it evs m Ha Hk.
  induction k as [k IH] using lt_wf_ind. intros it evs m Ha ->.
  destruct (read_forward m size it evs [] Ha ltac:(simpl; lia)) as (N1&st&more&it'&evs'&m'&E&->&Ha'&Hc). simpl in Hc, E.
  destruct Hc as [[-> Hl]|(->&->&Hl)].
  - destruct (IH (length evs') ltac:(rewrite length_app; lia) it' evs' m' Ha' eq_refl) as (N2&E2).
    exists (N1 + N2)%nat. intros [|n] rounds fuel Hn Hr Hf; [lia|]. cbn [event_drain]. unfold Event.read. rewrite E by lia.
    cbn [mbind option_bind]. rewrite decide_False by (intros Hx; by apply Hx). rewrite length_app in Hn.
    by rewrite E2 by lia.
  - exists N1. intros [|n] rounds fuel Hn Hr Hf; [lia|]. cbn [event_drain]. unfold Event.read. rewrite E by lia.
    cbn [mbind option_bind]. rewrite decide_True by done. by rewrite app_nil_r.
Qed.

Lemma make_ahead base pts evs st :
  P base pts → op_direction base = FORWARD → feeds [] None pts = Some (evs, st) →
  ahead (Event.make base) evs (2 * length pts).
Proof. intros Hb Hd Hf. exists pts, st. simpl. split_and!; try done; lia. Qed.

End Forward.

(** ** The points of an event *)

Fixpoint stamped (t : Z) (xs : list Z) : list point :=
  match xs with [] => [] | x :: xs => (t, x) :: stamped (t + 1) xs end.

Definition base_of (e : event) : Z := e.1 / 1000 * 1000.
Definition words (e : event) : list Z := Event.elements (length e.2) e.2.
Definition event_points (e : event) : list point :=
  (base_of e, Event.head_word (Z.of_nat (length e.2)) (e.1 mod 1000)) :: stamped (base_of e + 1) (words e).

Definition event_ok (e : event) : Prop :=
  is_u64 e.1 ∧ Forall is_u8 e.2 ∧ (0 < length e.2)%nat ∧ Z.of_nat (length e.2) ≤ Event.MAX_EVENT_LEN.

Lemma take_le_bytes k n v : (k ≤ n)%nat → take k (le_bytes n v) = le_bytes k v.
Proof. revert k v. induction n as [|n IH]; intros [|k] v Hk; try done; [lia|]. simpl. by rewrite IH by lia. Qed.

Lemma take_le_val l n : (length l ≤ n)%nat → Forall is_u8 l → take (length l) (le_bytes n (le_val l)) = l.
Proof. intros Hl Hu. rewrite take_le_bytes by done. by apply le_bytes_val. Qed.

Lemma head_word_parts size tsrem :
  is_u32 size → is_u32 tsrem →
  let body := le_bytes 8 (Event.head_word size tsrem) in
  le_val (take 4 body) = size ∧ le_val (drop 4 body) = tsrem ∧ is_u64 (Event.head_word size tsrem).
Proof.
  intros Hs Ht body. unfold is_u32 in *. unfold Event.head_word in *.
  assert (Hu : Forall is_u8 (le_bytes 4 size ++ le_bytes 4 tsrem)) by (apply Forall_app; split; apply le_bytes_u8).
  assert (Eb : body = le_bytes 4 size ++ le_bytes 4 tsrem).
  { unfold body. rewrite <- (le_bytes_val _ Hu) at 2. by rewrite length_app, !length_le_bytes. }
  rewrite Eb, take_app_length', drop_app_length' by (by rewrite length_le_bytes). rewrite !le_val_bytes_id by lia.
  split_and!; try done. unfold is_u64. pose proof (le_val_range _ Hu) as Hr. rewrite length_app, !length_le_bytes in Hr. exact Hr.
Qed.

Lemma feed_element curr size outts t l :
  t mod 1000 ≠ 0 → Forall is_u8 l → (length l ≤ 8)%nat →
  0 ≤ size - Z.of_nat (length curr) < 2 ^ 64 → Z.min 8 (size - Z.of_nat (length curr)) = Z.of_nat (length l) →
  Event.feed curr (Some (size, outts)) (t, le_val l) =
    Some (curr ++ l, Some (size, outts), if decide (size = Z.of_nat (length (curr ++ l))) then Some (outts, curr ++ l) else None).
Proof.
  intros Ht Hu Hl Hs Hm. unfold Event.feed. cbn [fst snd]. rewrite decide_False by done. cbn [mbind option_bind].
  rewrite u64_id by exact Hs. by rewrite Hm, Nat2Z.id, take_le_val.
Qed.

Lemma feed_elements n blob curr outts t :
  (length blob ≤ n)%nat → blob ≠ [] → Forall is_u8 blob → Z.of_nat (length (curr ++ blob)) < 2 ^ 64 →
  (∀ j, 0 ≤ j ≤ (Z.of_nat (length blob) - 1) / 8 → (t + j) mod 1000 ≠ 0) →
  feeds curr (Some (Z.of_nat (length (curr ++ blob)), outts)) (stamped t (Event.elements n blob)) =
    Some ([(outts, curr ++ blob)], (curr ++ blob, Some (Z.of_nat (length (curr ++ blob)), outts))).
Proof.
  revert blob curr t. induction n as [|n IH]; intros blob curr t Hn Hne Hu Hlen Ht; [destruct blob; [by destruct Hne|simpl in Hn; lia]|].
  cbn [Event.elements]. rewrite decide_False by done. cbn [stamped feeds].
  assert (Ht0 : t mod 1000 ≠ 0).
  { rewrite <- (Z.add_0_r t). apply Ht. split; [lia|]. apply Z.div_pos; [|lia]. assert (length blob ≠ 0%nat) by (intros E; by apply nil_length_inv in E). lia. }
  assert (Hlt : Z.min 8 (Z.of_nat (length (curr ++ blob)) - Z.of_nat (length curr)) = Z.of_nat (length (take 8 blob)))
    by (rewrite length_app, length_take; lia).
  rewrite (feed_element curr _ outts t (take 8 blob) Ht0 (Forall_take _ _ _ Hu)); [|rewrite length_take; lia|rewrite length_app in *; lia|exact Hlt].
  rewrite !length_app in *. rewrite length_take in *.
  cbn [mbind option_bind]. destruct (decide (drop 8 blob = [])) as [Ed|Hd].
  - assert (Hl8 : (length blob ≤ 8)%nat) by (apply (f_equal length) in Ed; rewrite length_drop in Ed; simpl in Ed; lia).
    rewrite Ed, (take_ge blob) by lia. rewrite decide_True by lia. destruct n; [|cbn [Event.elements]; rewrite decide_True by done]; reflexivity.
  - assert (Hl8 : (8 < length blob)%nat).
    { destruct (decide (8 < length blob)%nat); [done|]. rewrite drop_ge in Hd by lia. done. }
    rewrite decide_False by lia.
    specialize (IH (drop 8 blob) (curr ++ take 8 blob) (t + 1)). rewrite <- !app_assoc, take_drop in IH.
    rewrite length_app, length_drop in IH. rewrite IH; [reflexivity|lia|done|by apply Forall_drop|lia|].
    intros j Hj. replace (t + 1 + j) with (t + (1 + j)) by lia. apply Ht.
    replace (Z.of_nat (length blob) - 1) with ((Z.of_nat (length blob - 8) - 1) + 1 * 8) by lia. rewrite Z.div_add by lia. lia.
Qed.

Lemma base_mod e : base_of e mod 1000 = 0.
Proof. unfold base_of. apply Z.mod_mul. lia. Qed.

Lemma feed_event c h e :
  event_ok e → feeds c h (event_points e) = Some ([e], (e.2, Some (Z.of_nat (length e.2), e.1))).
Proof.
  intros (Hts&Hu&Hl&Hm). unfold Event.MAX_EVENT_LEN in Hm. unfold event_points. cbn [feeds]. unfold Event.feed at 1. cbn [fst snd].
  rewrite decide_True by apply base_mod. cbn [mbind option_bind]. pose proof (Z.mod_pos_bound e.1 1000) as Hr.
  destruct (head_word_parts (Z.of_nat (length e.2)) (e.1 mod 1000)) as (E1&E2&_); [unfold is_u32; lia|unfold is_u32; lia|].
  rewrite E1, E2. assert (Ets : base_of e + e.1 mod 1000 = e.1) by (unfold base_of; pose proof (Z.div_mod e.1 1000); lia).
  rewrite Ets, u64_id by exact Hts. unfold words.
  pose proof (feed_elements (length e.2) e.2 [] e.1 (base_of e + 1)) as Hf. cbn [app] in Hf. rewrite Hf; try done.
  - by destruct e.
  - intros E. rewrite E in Hl. simpl in Hl. lia.
  - lia.
  - intros j Hj Hz. assert ((Z.of_nat (length e.2) - 1) / 8 ≤ 511) by (apply (Z.div_le_mono _ 4095 8); lia).
    rewrite <- Z.add_assoc, Z.add_mod, base_mod, Z.add_0_l, Z.mod_mod, Z.mod_small in Hz by lia. lia.
Qed.

Lemma feed_events c h evs : Forall event_ok evs → ∃ st, feeds c h (evs ≫= event_points) = Some (evs, st).
Proof.
  intros He. revert c h. induction He as [|e evs He _ IH]; intros c h; [by eexists|].
  destruct (IH e.2 (Some (Z.of_nat (length e.2), e.1))) as (st&E). exists st.
  change ((e :: evs) ≫= event_points) with (event_points e ++ (evs ≫= event_points)).
  exact (feeds_app _ _ _ _ [e] _ _ _ _ (feed_event c h e He) E).
Qed.
