(* ===== verification/EventsTree.v ===== *)
(** * Events through the tree

    A series of events is written to an empty tree and read back by a query over
    all of it. *)
From stdpp Require Import sorting.
From S2P Require Import Prelude Status ByteStream Base128 VByte DataBlock DataBlockProof IOVec Blocks Volume Crc32c BlockStoreProof MemStore Double SubtreeRef Operator Leaf LeafIter Superblock TreeIter TreeRead Extents Content ExtentsProof TreeProof TreeRun Events EventsProof.

Lemma le_val_app l1 l2 : Forall is_u8 l1 → le_val (l1 ++ l2) = le_val l1 + 2 ^ (8 * Z.of_nat (length l1)) * le_val l2.
Proof.
  induction 1 as [|x l1 Hx _ IH]; [simpl length; change (8 * Z.of_nat 0) with 0; rewrite app_nil_l, Z.pow_0_r; simpl (le_val []); lia|].
  cbn [app length]. rewrite !le_val_cons, IH by done. replace (8 * Z.of_nat (S (length l1))) with (8 + 8 * Z.of_nat (length l1)) by lia.
  rewrite Z.pow_add_r by lia. change (2 ^ 8) with 256. ring.
Qed.

Lemma head_finite size tsrem : 0 ≤ size < 2 ^ 32 → 0 ≤ tsrem < 1000 → finite (Event.head_word size tsrem).
Proof.
  intros Hs Ht. assert (Hv : Event.head_word size tsrem = size + 2 ^ 32 * tsrem).
  { unfold Event.head_word. rewrite le_val_app by apply le_bytes_u8. rewrite length_le_bytes, !le_val_bytes_id by lia. reflexivity. }
  rewrite Hv. split; [unfold is_u64; lia|]. unfold magnitude. rewrite Z.mod_small; unfold SIGN, INF; lia.
Qed.

Lemma length_elements n blob : (length blob ≤ n)%nat → (8 * length (Event.elements n blob) < length blob + 8)%nat.
Proof.
  revert blob. induction n as [|n IH]; intros blob Hn; simpl; [lia|]. case_decide; simpl; [lia|].
  specialize (IH (drop 8 blob)). rewrite length_drop in IH. assert (length blob ≠ 0%nat) by (intros E; by apply nil_length_inv in E). lia.
Qed.

Lemma length_stamped t xs : length (stamped t xs) = length xs.
Proof. revert t. induction xs as [|x xs IH]; intros t; simpl; [done|by rewrite IH]. Qed.

(** An event whose points the tree takes. *)
Definition event_fits (e : event) : Prop := event_ok e ∧ Forall finite (words e) ∧ e.1 + 1000 < 2 ^ 64.

Definition ascii (b : Z) : Prop := 0 ≤ b < 128.

Lemma ascii_val l : Forall ascii l → 0 ≤ 255 * le_val l ≤ 127 * (256 ^ Z.of_nat (length l) - 1).
Proof.
  induction 1 as [|b l Hb _ IH]; [simpl; lia|]. unfold ascii in Hb. rewrite le_val_cons by (unfold is_u8; lia).
  cbn [length]. rewrite Nat2Z.inj_succ, Z.pow_succ_r by lia. lia.
Qed.

Lemma ascii_finite n blob : Forall ascii blob → Forall finite (Event.elements n blob).
Proof.
  revert blob. induction n as [|n IH]; intros blob Hb; simpl; [constructor|]. case_decide; constructor; [|by apply IH, Forall_drop].
  pose proof (ascii_val (take 8 blob) (Forall_take _ _ _ Hb)) as Hv.
  assert (256 ^ Z.of_nat (length (take 8 blob)) ≤ 256 ^ 8) by (apply Z.pow_le_mono_r; [lia|]; rewrite length_take; lia).
  split; [unfold is_u64; lia|]. unfold magnitude. rewrite Z.mod_small; unfold SIGN, INF; lia.
Qed.

(** Text of at most 4096 characters fits. *)
Lemma text_fits e :
  is_u64 e.1 → Forall ascii e.2 → (0 < length e.2)%nat → Z.of_nat (length e.2) ≤ Event.MAX_EVENT_LEN → e.1 + 1000 < 2 ^ 64 →
  event_fits e.
Proof.
  intros Ht Ha Hl Hm Hmax. split; [split_and!; try done|split; [by apply ascii_finite|done]].
  eapply Forall_impl; [exact Ha|]. unfold ascii, is_u8. lia.
Qed.

Section Write.
Context {B : Type} `{BlockStoreLaws B} (impl : crc32c_impl_t) `{!Crc32cImpl impl} (at_ : nat → Z).
Variables (lk : bool) (id : Z) (rounds fuel : nat).
Hypotheses (Hid : is_u64 id) (Hfuel : (31 ≤ fuel)%nat).

(** What a run of [n] appended points leaves. *)
Definition appended (n k : nat) (l : ExtentsList) (hist : gmap Z (list Z)) (old : list point) (lv : list (list child))
    (pts : list point) (t : Z) (l' : ExtentsList) (s' : B) : Prop :=
  ∃ hist' pts' lv', hist ⊆ hist' ∧ tree_ok lk id l' hist' pts' lv' ∧ content pts' lv' = content old lv ++ pts ∧
    (old ≠ [] ∨ pts ≠ [] → pts' ≠ []) ∧ bs_inv (k + kept lv') s' hist' ∧ weight lv' ≤ weight lv + Z.of_nat n ∧
    el_last l' = t ∧ 0 ≤ el_write_count l' ∧
    el_write_count l' + Z.of_nat (kept lv') ≤ el_write_count l + Z.of_nat (kept lv) + 3 * Z.of_nat n.

Definition good (r : NBTreeAppendResult) : Prop := r = OK ∨ r = OK_FLUSH_NEEDED.

Lemma append_elements_ok xs t outres l (s : B) hist old lv k :
  tree_ok lk id l hist old lv → good outres → Forall is_u64 xs → Forall finite xs → el_last l = t - 1 → 0 < t →
  t + Z.of_nat (length xs) < 2 ^ 64 → bs_inv (2 * length xs + k + kept lv) s hist →
  weight lv + Z.of_nat (length xs) ≤ 2 ^ 64 →
  0 ≤ el_write_count l ∧ el_write_count l + Z.of_nat (kept lv) + 3 * Z.of_nat (length xs) < 2 ^ 64 →
  ∃ r l' s', Event.append_elements impl at_ rounds fuel xs t outres l s = Some (r, l', s') ∧ good r ∧
    appended (length xs) k l hist old lv (stamped t xs) (t - 1 + Z.of_nat (length xs)) l' s'.
Proof.
  intros Hok Hout Hu Hf. revert t outres l s hist old lv Hok Hout Hf.
  induction Hu as [|x xs Hx Hu IH]; intros t outres l s hist old lv Hok Hout Hf Hlast Ht Hmax Hk Hwt Hw.
  { exists outres, l, s. split; [reflexivity|]. split; [exact Hout|]. exists hist, old, lv. simpl in *. rewrite app_nil_r.
    split_and!; try done; try lia. by intros [?|?]. }
  apply Forall_cons in Hf as [Hfx Hf]. cbn [length] in *.
  destruct (append_ok impl at_ lk id Hid rounds fuel l s hist old lv t x false (2 * length xs + k)%nat)
    as (r&l1&s1&Ea&Hr&hist1&pts1&lv1&Hsub1&Hok1&Hne1&Hc1&Hk1&Hwt1&Hl1&_&Hw1&Hw2); try assumption; try lia.
  { split; [unfold is_u64; simpl; lia|exact Hx]. }
  { by replace (S (S (2 * length xs + k)) + kept lv)%nat with (2 * S (length xs) + k + kept lv)%nat by lia. }
  simpl in Hl1.
  destruct (IH (t + 1) (match r with OK => outres | _ => r end) l1 s1 hist1 pts1 lv1 Hok1)
    as (r'&l'&s'&E'&Hr'&hist'&pts'&lv'&Hsub'&Hok'&Hc'&Hne'&Hk'&Hwt'&Hl'&Hw3&Hw4); try assumption; try lia.
  { destruct Hr as [->| ->]; [exact Hout|by right]. }
  exists r', l', s'. split; [|split; [exact Hr'|]].
  - cbn [Event.append_elements]. rewrite Ea. cbn [mbind option_bind]. rewrite u64_id by (unfold is_u64; lia).
    destruct Hr as [->| ->]; exact E'.
  - exists hist', pts', lv'. split; [by etransitivity|]. split; [exact Hok'|].
    split; [rewrite Hc', Hc1, <- app_assoc; reflexivity|]. split; [intros _; apply Hne'; by left|]. split; [exact Hk'|].
    split; [lia|]. split; [lia|]. split; lia.
Qed.

Lemma event_append_ok e l (s : B) hist old lv k :
  tree_ok lk id l hist old lv → event_fits e → el_last l < base_of e →
  bs_inv (2 * length (event_points e) + k + kept lv) s hist → weight lv + Z.of_nat (length (event_points e)) ≤ 2 ^ 64 →
  0 ≤ el_write_count l ∧ el_write_count l + Z.of_nat (kept lv) + 3 * Z.of_nat (length (event_points e)) < 2 ^ 64 → 0 ≤ el_last l →
  ∃ r l' s', Event.append impl at_ rounds fuel e.1 e.2 l s = Some (r, l', s') ∧ good r ∧
    appended (length (event_points e)) k l hist old lv (event_points e) (base_of e + Z.of_nat (length (words e))) l' s'.
Proof.
  intros Hok ((Hts&Hu&Hl&Hm)&Hf&Hmax) Hlast Hk Hwt Hw Hl0. unfold Event.MAX_EVENT_LEN in Hm.
  pose proof (Z.mod_pos_bound e.1 1000 ltac:(lia)) as Hr. pose proof (Z.div_mod e.1 1000 ltac:(lia)) as Hdm.
  assert (Hb : base_of e = e.1 - e.1 mod 1000) by (unfold base_of; lia). unfold is_u64 in Hts.
  pose proof (length_elements (length e.2) e.2 ltac:(lia)) as Hwl. fold (words e) in Hwl.
  cbn [event_points length] in *. rewrite length_stamped in *.
  destruct (head_word_parts (Z.of_nat (length e.2)) (e.1 mod 1000)) as (_&_&Hh); [unfold is_u32; lia|unfold is_u32; lia|].
  destruct (append_ok impl at_ lk id Hid rounds fuel l s hist old lv (base_of e) (Event.head_word (Z.of_nat (length e.2)) (e.1 mod 1000)) false
    (2 * length (words e) + k)%nat) as (r&l1&s1&Ea&Hgr&hist1&pts1&lv1&Hsub1&Hok1&Hne1&Hc1&Hk1&Hwt1&Hl1&_&Hw1&Hw2); try assumption; try lia.
  { split; [unfold is_u64; simpl; lia|exact Hh]. }
  { apply head_finite; lia. }
  { by replace (S (S (2 * length (words e) + k)) + kept lv)%nat with (2 * S (length (words e)) + k + kept lv)%nat by lia. }
  simpl in Hl1.
  destruct (append_elements_ok (words e) (base_of e + 1) r l1 s1 hist1 pts1 lv1 k Hok1 Hgr)
    as (r'&l'&s'&E'&Hr'&hist'&pts'&lv'&Hsub'&Hok'&Hc'&Hne'&Hk'&Hwt'&Hl'&Hw3&Hw4); try assumption; try lia.
  { eapply Forall_impl; [exact Hf|]. by intros x [? _]. }
  exists r', l', s'. split; [|split; [exact Hr'|]].
  - unfold Event.append. rewrite decide_False by (unfold Event.MAX_EVENT_LEN; lia). fold (base_of e).
    rewrite (u64_id (base_of e)) by (unfold is_u64; lia). replace (e.1 - base_of e) with (e.1 mod 1000) by lia.
    rewrite u32_id by (unfold is_u32; lia). rewrite Ea. cbn [mbind option_bind]. rewrite u64_id by (unfold is_u64; lia).
    fold (words e). destruct Hgr as [->| ->]; exact E'.
  - exists hist', pts', lv'. split; [by etransitivity|]. split; [exact Hok'|].
    split; [rewrite Hc', Hc1, <- app_assoc; reflexivity|]. split; [intros _; apply Hne'; by left|]. split; [exact Hk'|].
    split; [lia|]. split; [lia|]. split; lia.
Qed.

End Write.

(** ** A series of events *)

Section Series.
Context {B : Type} `{BlockStoreLaws B} (impl : crc32c_impl_t) `{!Crc32cImpl impl} (at_ : nat → Z).
Variables (lk : bool) (id : Z) (rounds fuel : nat).
Hypotheses (Hid : is_u64 id) (Hfuel : (31 ≤ fuel)%nat).

Fixpoint append_events (evs : list event) (l : ExtentsList) (s : B) : option (list NBTreeAppendResult * ExtentsList * B) :=
  match evs with
  | [] => Some ([], l, s)
  | e :: evs =>
    '(r, l, s) ← Event.append impl at_ rounds fuel e.1 e.2 l s;
    '(rs, l, s) ← append_events evs l s;
    Some (r :: rs, l, s)
  end.

(** In different microseconds, in order. *)
Definition spread (evs : list event) : Prop := StronglySorted (λ e1 e2, base_of e1 < base_of e2) evs.

Lemma base_step e1 e2 : base_of e1 < base_of e2 → base_of e1 + 1000 ≤ base_of e2.
Proof. unfold base_of. lia. Qed.

Lemma append_events_ok evs l (s : B) hist old lv k :
  tree_ok lk id l hist old lv → Forall event_fits evs → spread evs → (∀ e, head evs = Some e → el_last l < base_of e) → 0 ≤ el_last l →
  bs_inv (2 * length (evs ≫= event_points) + k + kept lv) s hist → weight lv + Z.of_nat (length (evs ≫= event_points)) ≤ 2 ^ 64 →
  0 ≤ el_write_count l ∧ el_write_count l + Z.of_nat (kept lv) + 3 * Z.of_nat (length (evs ≫= event_points)) < 2 ^ 64 →
  ∃ rs l' s' hist' pts' lv' k', append_events evs l s = Some (rs, l', s') ∧ Forall good rs ∧ tree_ok lk id l' hist' pts' lv' ∧
    content pts' lv' = content old lv ++ (evs ≫= event_points) ∧ (old ≠ [] ∨ evs ≠ [] → pts' ≠ []) ∧ bs_inv k' s' hist'.
Proof.
  intros Hok Hf Hsp. revert l s hist old lv Hok.
  induction Hsp as [|e evs Hsp IH He]; intros l s hist old lv Hok Hh Hl0 Hk Hwt Hw.
  { exists [], l, s, hist, old, lv. eexists. split; [reflexivity|]. rewrite app_nil_r. split; [constructor|]. split; [exact Hok|].
    split; [reflexivity|]. split; [by intros [?|?]|exact Hk]. }
  apply Forall_cons in Hf as [Hfe Hf]. change ((e :: evs) ≫= event_points) with (event_points e ++ (evs ≫= event_points)) in *.
  rewrite length_app in *.
  destruct (event_append_ok impl at_ lk id rounds fuel Hid Hfuel e l s hist old lv (2 * length (evs ≫= event_points) + k)%nat Hok Hfe)
    as (r&l1&s1&Ea&Hr&hist1&pts1&lv1&Hsub1&Hok1&Hc1&Hne1&Hk1&Hwt1&Hl1&Hw1&Hw2); try lia.
  { by apply Hh. }
  { by replace (2 * length (event_points e) + (2 * length (evs ≫= event_points) + k) + kept lv)%nat
      with (2 * (length (event_points e) + length (evs ≫= event_points)) + k + kept lv)%nat by lia. }
  assert (Hb0 : 0 ≤ base_of e) by (specialize (Hh e eq_refl); lia).
  destruct (IH Hf l1 s1 hist1 pts1 lv1 Hok1) as (rs&l'&s'&hist'&pts'&lv'&k'&Es&Hrs&Hok'&Hc'&Hne'&Hk'); try lia.
  { intros e' He'. rewrite Forall_forall in He. apply head_Some_elem_of in He'. specialize (He e' He'). apply base_step in He.
    destruct Hfe as ((_&_&_&Hm)&_). unfold Event.MAX_EVENT_LEN in Hm. pose proof (length_elements (length e.2) e.2 ltac:(lia)) as Hwl.
    fold (words e) in Hwl. lia. }
  { exact Hk1. }
  exists (r :: rs), l', s', hist', pts', lv', k'. cbn [append_events]. rewrite Ea. cbn [mbind option_bind]. rewrite Es.
  split; [reflexivity|]. split; [by constructor|]. split; [exact Hok'|]. split; [rewrite Hc', Hc1, <- app_assoc; reflexivity|].
  split; [|exact Hk']. intros _. apply Hne'. left. apply Hne1. right. discriminate.
Qed.

End Series.

(** The direction of a query is that of its range. *)
Lemma ext_search_direction b e f x op : Tree.ext_search b e f x = Some op → op_direction op = direction b e.
Proof.
  destruct x as [x|x], f as [f|]; cbn [Tree.ext_search].
  - destruct (LeafFilterOp.make b e f (le_leaf x)) as [it|] eqn:E; [|done]. intros [= <-]. unfold LeafFilterOp.make in E.
    bind_inv E; by simplify_eq.
  - destruct (LeafIter.make b e (le_leaf x)) as [it|] eqn:E; [|done]. intros [= <-]. unfold LeafIter.make, LeafIter.init in E.
    cbn [LeafIter.make_delayed li_begin li_end] in E. bind_inv E; by simplify_eq.
  - destruct (SBlock.of_node (se_curr x) b e (Some f)) as [it|] eqn:E; [|done]. intros [= <-]. unfold SBlock.of_node in E.
    bind_inv E; by simplify_eq.
  - destruct (SBlock.of_node (se_curr x) b e None) as [it|] eqn:E; [|done]. intros [= <-]. unfold SBlock.of_node in E.
    bind_inv E; by simplify_eq.
Qed.

Lemma search_direction b e f l op : Tree.search b e f l = Some op → el_extents l ≠ [] → op_direction op = direction b e.
Proof.
  unfold Tree.search. intros E Hne. destruct (el_extents l) as [|x es]; [done|].
  assert (∃ y ys, (if decide (b < e) then reverse (x :: es) else x :: es) = y :: ys) as (y&ys&Ey).
  { case_decide; [|eauto]. destruct (reverse (x :: es)) as [|y ys] eqn:Er; [|eauto]. apply (f_equal length) in Er. by rewrite length_reverse in Er. }
  rewrite Ey in E. cbn [Tree.ext_searches] in E. destruct (Tree.ext_search b e f y) as [op1|] eqn:E1; [|done]. cbn [mbind option_bind] in E.
  apply ext_search_direction in E1. destruct (Tree.ext_searches b e f ys) as [ops|]; [|done]. cbn [mbind option_bind] in E.
  destruct ops; by simplify_eq.
Qed.

Lemma stamped_times t xs x : x ∈ stamped t xs → t ≤ x.1 < t + Z.of_nat (length xs).
Proof.
  revert t. induction xs as [|y xs IH]; intros t Hx; simpl in Hx; [by apply not_elem_of_nil in Hx|].
  apply elem_of_cons in Hx as [->|Hx]; [simpl; lia|]. apply IH in Hx. cbn [length]. lia.
Qed.

Lemma event_times e x : event_fits e → x ∈ event_points e → base_of e ≤ x.1 ≤ base_of e + 512.
Proof.
  intros ((_&_&_&Hm)&_) Hx. unfold Event.MAX_EVENT_LEN in Hm. pose proof (length_elements (length e.2) e.2 ltac:(lia)) as Hwl.
  fold (words e) in Hwl. unfold event_points in Hx. apply elem_of_cons in Hx as [->|Hx]; [simpl; lia|]. apply stamped_times in Hx. lia.
Qed.

(** All the points are in the range. *)
Lemma range_events b e evs :
  Forall event_fits evs → (∀ x, x ∈ evs → b ≤ base_of x ∧ base_of x + 512 < e) → b < e →
  range_points b e (evs ≫= event_points) = evs ≫= event_points.
Proof.
  intros Hf Hr Hbe. unfold range_points. rewrite decide_True by done. apply filter_all. apply Forall_forall.
  intros x Hx. pose proof (proj1 (Forall_forall _ _) Hf) as Hf'. apply list_elem_of_bind in Hx as (y&Hx&Hy). specialize (Hr y Hy). pose proof (event_times y x (Hf' y Hy) Hx). lia.
Qed.

Lemma append_events_fresh {B} `{BlockStore B} impl at_ rounds fuel id evs (s : B) :
  evs ≠ [] → Forall event_fits evs →
  append_events impl at_ rounds fuel evs (mkList [] id 0 [] false 0) s
  = append_events impl at_ rounds fuel evs (mkList [] id 0 [] true 0) s.
Proof.
  intros Hne Hf. destruct Hf as [|e evs Hf _]; [by destruct Hne|]. cbn [append_events].
  assert (Event.append impl at_ rounds fuel e.1 e.2 (mkList [] id 0 [] false 0) s
    = Event.append impl at_ rounds fuel e.1 e.2 (mkList [] id 0 [] true 0) s) as ->; [|reflexivity].
  destruct Hf as ((_&_&Hl&Hm)&_). unfold Event.append. rewrite !decide_False by lia. reflexivity.
Qed.

(** ** Properties *)

(** C17: events come back whole.  Events of 1 to 4096 bytes, in order and in
    different microseconds ([spread]), written to an empty tree, are all accepted; a
    forward query over all of them hands out every event with its timestamp to the
    nanosecond and its bytes, in order and in portions of any size, then
    [NoData], as long as the store keeps its blocks.  The words of an event are
    stored as doubles and must not be NaN or infinite, which no ASCII text is. *)
Theorem event_roundtrip {B} `{BlockStoreLaws B} impl `{!Crc32cImpl impl} at_ id evs b e size rounds fuel (s : B) hist k :
  is_u64 id → Forall event_fits evs → spread evs → evs ≠ [] → (∀ x, x ∈ evs → 0 < base_of x) →
  Z.of_nat (length (evs ≫= event_points)) < 2 ^ 62 → bs_inv (2 * length (evs ≫= event_points) + k) s hist → (31 ≤ fuel)%nat →
  b < e → (∀ x, x ∈ evs → b ≤ base_of x ∧ base_of x + 512 < e) → (0 < size)%nat →
  ∃ l0 rs l s' hist' op, Tree.make id [] = Some l0 ∧
    append_events impl at_ rounds fuel evs l0 s = Some (rs, l, s') ∧ Forall good rs ∧ (∃ k', bs_inv k' s' hist') ∧
    Tree.query impl at_ rounds fuel b e None l s' = Some (op, l, s') ∧
    ((∀ a, is_Some (hist' !! a) → bs_exists a s' = true) → ∃ N, ∀ n rounds' fuel', (length evs < n)%nat → (N ≤ rounds')%nat →
      (N ≤ fuel')%nat → event_drain impl (at_ 0%nat) s' n rounds' fuel' size (Event.make op) = Some (evs, kNoData)).
Proof.
  intros Hid Hf Hsp Hne Hpos Hlen Hk Hfuel Hbe Hr Hsz.
  destruct (append_events_ok impl at_ true id rounds fuel Hid Hfuel evs (mkList [] id 0 [] true 0) s hist [] [] k)
    as (rs&l&s'&hist'&pts'&lv'&k'&E&Hrs&Hok&Hc&Hpne&Hk'); try assumption; try apply fresh_ok.
  { intros x Hx%head_Some_elem_of. by apply Hpos. }
  { done. }
  { by rewrite Nat.add_0_r. }
  { simpl. lia. }
  { cbn [el_write_count]. change (kept []) with 0%nat. lia. }
  assert (Hp : pts' ≠ []) by (apply Hpne; by right).
  destruct (search_view true id impl at_ Hid k' s' hist' Hk' l pts' lv' None b e Hok I (or_introl Hp)) as (op&P&Eop&HP&Hop).
  exists (mkList [] id 0 [] false 0), rs, l, s', hist', op. split; [reflexivity|].
  split; [by rewrite append_events_fresh|]. split; [exact Hrs|]. split; [eauto|]. split.
  { unfold Tree.query, Tree.force_init. rewrite (proj1 (to_ready _ _ _ _ _ _ Hok)). cbn [mbind option_bind]. by rewrite Eop. }
  intros Hex. rewrite (visible_all s' true id l hist' pts' lv' Hok Hex), Hc in Hop.
  change (content [] [] ++ (evs ≫= event_points)) with (evs ≫= event_points) in Hop. unfold select in Hop. rewrite range_events in Hop by assumption.
  assert (Hdir : op_direction op = FORWARD).
  { rewrite (search_direction b e None l op Eop). { unfold direction. by rewrite decide_True. }
    intros Ee. destruct Hok as [He _ _ _ _]. rewrite Ee in He. destruct (el_rescue l); [by destruct He|destruct He]. }
  assert (Hev : Forall event_ok evs) by (eapply Forall_impl; [exact Hf|]; by intros x [? _]).
  destruct (feed_events [] None evs Hev) as (st&Hfeed).
  exact (event_drain_ok impl (at_ 0%nat) s' P HP size _ evs _ (make_ahead P op _ evs st Hop Hdir Hfeed) Hsz).
Qed.

(** ** Witnesses *)

Definition sample_events : list event := [(1234567, [104; 105]); (2000001, [102; 97; 115; 116; 115; 116; 100; 98; 33])].

(** The run that writes and reads them. *)
Definition event_run : option (list event * Status) :=
  l ← Tree.make 42 [];
  '(_, l, s) ← append_events crc32c_sw (λ _, 0) 1 31 sample_events l (Mem.make false false);
  '(op, _, s) ← Tree.query crc32c_sw (λ _, 0) 1 31 1000 3000000 None l s;
  event_drain crc32c_sw 0 s 5 100 100 4 (Event.make op).

Lemma event_roundtrip_witness :
  (∃ l0 rs l s' op, Tree.make 42 [] = Some l0 ∧
    append_events crc32c_sw (λ _, 0) 1 31 sample_events l0 (Mem.make false false) = Some (rs, l, s') ∧
    Tree.query crc32c_sw (λ _, 0) 1 31 1000 3000000 None l s' = Some (op, l, s')) ∧
  event_run = Some (sample_events, kNoData).
Proof.
  split; [|vm_compute; reflexivity].
  destruct (event_roundtrip (B := MemStore) crc32c_sw (λ _, 0) 42 sample_events 1000 3000000 4 1 31
    (Mem.make false false) ∅ 0) as (l0&rs&l&s'&hist'&op&E0&E1&_&_&E2&_).
  - by_compute.
  - repeat constructor; by_compute.
  - repeat constructor; by_compute.
  - done.
  - apply Forall_forall. by_compute.
  - by_compute.
  - split; [by apply mem_make_inv|done].
  - lia.
  - lia.
  - apply (proj1 (Forall_forall (λ x, 1000 ≤ base_of x ∧ base_of x + 512 < 3000000) _)). by_compute.
  - lia.
  - exists l0, rs, l, s', op. split; [exact E0|]. split; [exact E1|exact E2].
Defined.
