(* ===== verification/ColumnStore.v ===== *)
(** * The column store (column_store.cc, column_store.h)

    One tree per series, all over one block store.  A session keeps a cache of
    the trees it has written to: these are the same objects as in the table of the
    store, so the model has one table and the cache is the set of ids in it. *)
From stdpp Require Import gmap.
From S2P Require Import Prelude Status ByteStream Base128 VByte DataBlock DataBlockProof IOVec Blocks Volume Crc32c BlockStoreProof MemStore Double SubtreeRef Operator Leaf LeafIter Superblock TreeIter Extents Events.

(** ** State *)

(** [payload.type]; a tuple of a regular series has [REGULLAR] set as well. *)
Inductive PayloadType := PAYLOAD_FLOAT | PAYLOAD_EVENT | PAYLOAD_TUPLE | PAYLOAD_REGULAR_TUPLE | PAYLOAD_NONE.

#[export] Instance PayloadType_eq_dec : EqDecision PayloadType.
Proof. solve_decision. Defined.

(** [data] is what follows the structure, as much as [payload.size] says: the
    bytes of an event, the values of a tuple. *)
Record Sample := mkSample {
  sa_timestamp : Z;
  sa_paramid : Z;
  sa_type : PayloadType;
  sa_size : Z;
  sa_float64 : Z;
  sa_data : list Z;
}.

(** [sizeof(Sample)]. *)
Definition SAMPLE_SIZE : Z := 32.

Record ColumnStore := mkCS {
  cs_columns : gmap Z ExtentsList;
  cs_rescue : gmap Z (list Z);     (* rescue_points_ *)
}.

Record CStoreSession := mkSession { ss_cache : gset Z }.

Module CStore.

Definition make : ColumnStore := mkCS ∅ ∅.

Definition set_column (id : Z) (t : ExtentsList) (cs : ColumnStore) : ColumnStore :=
  mkCS (<[id := t]> (cs_columns cs)) (cs_rescue cs).

Section Ops.
Context {B : Type} `{BlockStore B}.
Variables (impl : crc32c_impl_t) (at_ : nat → Z) (rounds fuel : nat).

(** ** Columns *)

Definition create_new_column (id : Z) (cs : ColumnStore) (bstore : B) : option (Status * ColumnStore * B) :=
  tree ← Tree.make id [];
  if decide (is_Some (cs_columns cs !! id)) then Some (kBadArg, cs, bstore) else
  '(tree, bstore) ← Tree.force_init impl at_ rounds fuel tree bstore;
  Some (kOk, set_column id tree cs, bstore).

(** [mapping] in the order of its iteration. *)
Fixpoint open_or_restore (mapping : list (Z * list Z)) (force_init : bool) (ids2recover : list Z) (cs : ColumnStore)
    (bstore : B) : option (Status * list Z * ColumnStore * B) :=
  match mapping with
  | [] => Some (kOk, ids2recover, cs, bstore)
  | (id, rescue_points) :: mapping =>
    let repair := match Tree.repair_status rescue_points with REPAIR => true | _ => false end in
    tree ← Tree.make id rescue_points;
    if decide (is_Some (cs_columns cs !! id)) then Some (kBadArg, [], cs, bstore) else
    if force_init || repair then
      '(tree, bstore) ← Tree.force_init impl at_ rounds fuel tree bstore;
      let ids2recover := if repair then ids2recover ++ [id] else ids2recover in
      if force_init then open_or_restore mapping force_init ids2recover (set_column id tree cs) bstore
      else
        '(rplist, tree, bstore) ← Tree.close impl at_ rounds fuel tree bstore;
        open_or_restore mapping force_init ids2recover
          (mkCS (<[id := tree]> (cs_columns cs)) (<[id := rplist]> (cs_rescue cs))) bstore
    else open_or_restore mapping force_init ids2recover (set_column id tree cs) bstore
  end.

(** [close]: of the columns [ids], in that order.  Without an argument they are
    all the columns, in the order of the table's iteration. *)
Fixpoint close (ids : list Z) (result : gmap Z (list Z)) (cs : ColumnStore) (bstore : B)
    : option (gmap Z (list Z) * ColumnStore * B) :=
  match ids with
  | [] => Some (result, cs, bstore)
  | id :: ids =>
    match cs_columns cs !! id with
    | None => close ids result cs bstore
    | Some tree =>
      if el_initialized tree then
        '(addrlist, tree, bstore) ← Tree.close impl at_ rounds fuel tree bstore;
        close ids (<[id := addrlist]> result) (set_column id tree cs) bstore
      else close ids result cs bstore
    end
  end.

Definition get_uncommitted_memory (cs : ColumnStore) : option Z :=
  foldl (λ acc p, total ← acc;
           if el_initialized p.2 then n ← Tree.get_uncommitted_size p.2; Some (u64 (total + n)) else Some total)
    (Some 0) (map_to_list (cs_columns cs)).

(** ** Writing *)

(** The [append] that fits the payload; nothing for another payload. *)
Definition append_sample (sample : Sample) (tree : ExtentsList) (bstore : B)
    : option (NBTreeAppendResult * ExtentsList * B) :=
  match sa_type sample with
  | PAYLOAD_FLOAT => Tree.append impl at_ rounds fuel (sa_timestamp sample) (sa_float64 sample) true tree bstore
  | PAYLOAD_EVENT => Event.append impl at_ rounds fuel (sa_timestamp sample) (sa_data sample) tree bstore
  | _ => Some (OK, tree, bstore)
  end.

(** The new rescue points are handed to the caller when a node was written. *)
Definition new_roots (res : NBTreeAppendResult) (tree : ExtentsList) : option (list Z) :=
  if decide (res = OK_FLUSH_NEEDED) then Some (Tree.get_roots tree) else None.

(** [ColumnStore::write]; the last component says whether the tree was put
    into the cache. *)
Definition write (sample : Sample) (cs : ColumnStore) (bstore : B)
    : option (NBTreeAppendResult * option (list Z) * ColumnStore * B * bool) :=
  let id := sa_paramid sample in
  match cs_columns cs !! id with
  | None => Some (FAIL_BAD_ID, None, cs, bstore, false)
  | Some tree =>
    '(res, tree, bstore) ← append_sample sample tree bstore;
    Some (res, new_roots res tree, set_column id tree cs, bstore, true)
  end.

Definition recovery_write (sample : Sample) (allow_duplicates : bool) (cs : ColumnStore) (bstore : B)
    : option (NBTreeAppendResult * ColumnStore * B) :=
  let id := sa_paramid sample in
  match cs_columns cs !! id with
  | None => Some (FAIL_BAD_ID, cs, bstore)
  | Some tree =>
    '(res, tree, bstore) ← Tree.append impl at_ rounds fuel (sa_timestamp sample) (sa_float64 sample) allow_duplicates tree bstore;
    Some (res, set_column id tree cs, bstore)
  end.

(** [CStoreSession::write].  A tree in the cache is used without looking into
    the table. *)
Definition session_write (sample : Sample) (ss : CStoreSession) (cs : ColumnStore) (bstore : B)
    : option (NBTreeAppendResult * option (list Z) * CStoreSession * ColumnStore * B) :=
  let id := sa_paramid sample in
  match sa_type sample with
  | PAYLOAD_FLOAT | PAYLOAD_EVENT =>
    if decide (id ∈ ss_cache ss) then
      tree ← cs_columns cs !! id;
      '(res, tree, bstore) ← append_sample sample tree bstore;
      Some (res, new_roots res tree, ss, set_column id tree cs, bstore)
    else
      '(res, roots, cs, bstore, cached) ← write sample cs bstore;
      Some (res, roots, if cached : bool then mkSession ({[id]} ∪ ss_cache ss) else ss, cs, bstore)
  | _ => Some (FAIL_BAD_VALUE, None, ss, cs, bstore)
  end.

(** ** Reading *)

(** [iterate]: the operators of the columns, until the first that fails. *)
Fixpoint iterate {Op : Type} (ids : list Z) (fn : ExtentsList → option (Status * option Op))
    (dest : list Op) (cs : ColumnStore) (bstore : B) : option (Status * list Op * ColumnStore * B) :=
  match ids with
  | [] => Some (kOk, dest, cs, bstore)
  | id :: ids =>
    match cs_columns cs !! id with
    | None => Some (kNotFound, dest, cs, bstore)
    | Some tree =>
      '(tree, bstore) ← Tree.force_init impl at_ rounds fuel tree bstore;
      let cs := set_column id tree cs in
      '(s, iter) ← fn tree;
      if decide (s ≠ kOk) then Some (s, dest, cs, bstore) else
      iter ← iter;
      iterate ids fn (dest ++ [iter]) cs bstore
    end
  end.

Definition scan (ids : list Z) (begin_ end_ : Z) (cs : ColumnStore) (bstore : B)
    : option (Status * list RealValuedOperator * ColumnStore * B) :=
  iterate ids (λ elist, op ← Tree.search begin_ end_ None elist; Some (kOk, Some op)) [] cs bstore.

Definition filter (ids : list Z) (begin_ end_ : Z) (filters : gmap Z ValueFilter) (cs : ColumnStore) (bstore : B)
    : option (Status * list RealValuedOperator * ColumnStore * B) :=
  iterate ids (λ elist,
    match filters !! el_id elist with
    | None => Some (kBadArg, None)
    | Some flt =>
      op ← Tree.search begin_ end_ (if decide (vf_mask flt ≠ 0) then Some flt else None) elist;
      Some (kOk, Some op)
    end) [] cs bstore.

End Ops.
End CStore.
