(* ===== verification/ColumnStoreProof.v ===== *)
(** * The column store keeps every series by itself

    The store refines a map from ids to sequences of points: whatever the
    interleaving of writes to the columns, through sessions and their caches, and
    whatever nodes the trees write to the block store they share, each column is
    the sequence of the points it accepted. *)
From stdpp Require Import gmap sorting.
From S2P Require Import Prelude Status ByteStream Base128 VByte DataBlock DataBlockProof IOVec Blocks Volume Crc32c BlockStoreProof MemStore Double SubtreeRef Operator Leaf LeafIter Superblock TreeIter TreeRead Extents Content ExtentsProof TreeProof TreeRun TreeClose TreeOpen TreeRepair Events EventsProof EventsTree ColumnStore.

(** ** The abstract store *)

Notation columns := (gmap Z (list point)).

Inductive verdict := Accepted | Late | BadId | Exists.

Definition last_time (pts : list point) : Z := match last pts with Some x => x.1 | None => 0 end.

(** What is done to a store: through session [i], or past the sessions during
    recovery. *)
Inductive store_op :=
  | Create (id : Z)
  | Write (i : nat) (id ts v : Z)
  | Recover (dup : bool) (id ts v : Z).

Definition is_late (dup : bool) (ts last : Z) : bool := if dup then bool_decide (ts < last) else bool_decide (ts ≤ last).

(** A point is accepted when its series exists and has no later one. *)
Definition spec_write (dup : bool) (id ts v : Z) (m : columns) : verdict * columns :=
  match m !! id with
  | None => (BadId, m)
  | Some pts => if is_late dup ts (last_time pts) then (Late, m) else (Accepted, <[id := pts ++ [(ts, v)]]> m)
  end.

Definition spec_step (o : store_op) (m : columns) : verdict * columns :=
  match o with
  | Create id => if decide (is_Some (m !! id)) then (Exists, m) else (Accepted, <[id := []]> m)
  | Write _ id ts v => spec_write true id ts v m
  | Recover dup id ts v => spec_write dup id ts v m
  end.

Fixpoint spec_run (os : list store_op) (m : columns) : list verdict * columns :=
  match os with
  | [] => ([], m)
  | o :: os => let '(v, m) := spec_step o m in let '(vs, m) := spec_run os m in (v :: vs, m)
  end.

(** The results of the code that a verdict stands for. *)
Definition agrees (v : verdict) (r : NBTreeAppendResult + Status) : Prop :=
  match v, r with
  | Accepted, inl r => r = OK ∨ r = OK_FLUSH_NEEDED
  | Accepted, inr r => r = kOk
  | Late, inl r => r = FAIL_LATE_WRITE
  | BadId, inl r => r = FAIL_BAD_ID
  | Exists, inr r => r = kBadArg
  | _, _ => False
  end.

(** What the operations may be given. *)
Definition op_ok (nsessions : nat) (o : store_op) : Prop :=
  match o with
  | Create id => is_u64 id
  | Write i id ts v => (i < nsessions)%nat ∧ point_ok (ts, v) ∧ finite v
  | Recover _ id ts v => point_ok (ts, v) ∧ finite v
  end.

(** ** Running the code *)

Section Run.
Context {B : Type} `{BlockStore B} (impl : crc32c_impl_t) (at_ : nat → Z) (rounds fuel : nat).

Definition float_sample (id ts v : Z) : Sample := mkSample ts id PAYLOAD_FLOAT SAMPLE_SIZE v [].

(** The sessions of a store, each with a cache of its own. *)
Record world := mkWorld { w_sessions : list CStoreSession; w_store : ColumnStore; w_blocks : B }.

Definition store_step (o : store_op) (w : world) : option ((NBTreeAppendResult + Status) * world) :=
  match o with
  | Create id =>
    '(st, cs, s) ← CStore.create_new_column impl at_ rounds fuel id (w_store w) (w_blocks w);
    Some (inr st, mkWorld (w_sessions w) cs s)
  | Write i id ts v =>
    ss ← w_sessions w !! i;
    '(r, _, ss, cs, s) ← CStore.session_write impl at_ rounds fuel (float_sample id ts v) ss (w_store w) (w_blocks w);
    Some (inl r, mkWorld (<[i := ss]> (w_sessions w)) cs s)
  | Recover dup id ts v =>
    '(r, cs, s) ← CStore.recovery_write impl at_ rounds fuel (float_sample id ts v) dup (w_store w) (w_blocks w);
    Some (inl r, mkWorld (w_sessions w) cs s)
  end.

Fixpoint store_run (os : list store_op) (w : world) : option (list (NBTreeAppendResult + Status) * world) :=
  match os with
  | [] => Some ([], w)
  | o :: os => '(r, w) ← store_step o w; '(rs, w) ← store_run os w; Some (r :: rs, w)
  end.

End Run.
Arguments world : clear implicits.
Arguments mkWorld {B}.

(** ** The invariant *)

Section Invariant.
Context {B : Type} `{BlockStoreLaws B}.

(** [n] bounds the number of writes so far; [lk] says that the store was not
    opened from older blocks: then a column without points is as it was made. *)
Definition column_ok (lk : bool) (hist : gmap Z (list Z)) (n id : Z) (t : ExtentsList) (pts : list point) : Prop :=
  ∃ open lv, tree_ok lk id t hist open lv ∧ content open lv = pts ∧ el_last t = last_time pts ∧ weight lv ≤ n ∧
    0 ≤ el_write_count t ∧ el_write_count t + Z.of_nat (kept lv) ≤ 3 * n ∧
    (lk = true → if decide (pts = []) then t = mkList [] id 0 [] true 0 else open ≠ [] ∧ 0 < el_write_count t).

Definition columns_ok (lk : bool) (hist : gmap Z (list Z)) (n : Z) (cs : ColumnStore) (m : columns) : Prop :=
  ∀ id, match cs_columns cs !! id, m !! id with
    | Some t, Some pts => is_u64 id ∧ column_ok lk hist n id t pts
    | None, None => True
    | _, _ => False
    end.

(** The trees in a cache are trees of the table. *)
Definition caches_ok (m : columns) (sss : list CStoreSession) : Prop :=
  Forall (λ ss, ∀ id, id ∈ ss_cache ss → is_Some (m !! id)) sss.

Definition world_ok (lk : bool) (k : nat) (n : Z) (hist : gmap Z (list Z)) (w : world B) (m : columns) : Prop :=
  columns_ok lk hist n (w_store w) m ∧ caches_ok m (w_sessions w) ∧ bs_inv k (w_blocks w) hist.

Lemma column_mono lk hist hist' n n' id t pts : hist ⊆ hist' → n ≤ n' → column_ok lk hist n id t pts → column_ok lk hist' n' id t pts.
Proof.
  intros Hs Hn (open&lv&Hok&Hc&Hl&Hw&Hwc&Hk&Hnew). exists open, lv. split; [by eapply tree_ok_mono|]. split_and!; try done; lia.
Qed.

Lemma columns_mono lk hist hist' n n' cs m : hist ⊆ hist' → n ≤ n' → columns_ok lk hist n cs m → columns_ok lk hist' n' cs m.
Proof.
  intros Hs Hn Hall id. specialize (Hall id). destruct (cs_columns cs !! id), (m !! id); try done.
  destruct Hall as [? Hcol]. split; [done|]. by eapply column_mono.
Qed.

(** Replacing one column. *)
Lemma columns_update lk hist n cs m id t pts :
  columns_ok lk hist n cs m → is_u64 id → column_ok lk hist n id t pts →
  columns_ok lk hist n (CStore.set_column id t cs) (<[id := pts]> m).
Proof.
  intros Hall Hid Hc id'. cbn [CStore.set_column cs_columns]. destruct (decide (id' = id)) as [->|Hne].
  - rewrite !lookup_insert_eq. exact (conj Hid Hc).
  - rewrite !lookup_insert_ne by done. apply Hall.
Qed.

Lemma set_column_id id t (cs : ColumnStore) : cs_columns cs !! id = Some t → CStore.set_column id t cs = cs.
Proof. intros E. destruct cs. unfold CStore.set_column. simpl in *. by rewrite insert_id. Qed.

Lemma caches_grow m sss id pts : caches_ok m sss → caches_ok (<[id := pts]> m) sss.
Proof.
  intros Hc. eapply Forall_impl; [exact Hc|]. intros ss Hss id' Hin. destruct (decide (id' = id)) as [->|Hne].
  - rewrite lookup_insert_eq. eauto.
  - rewrite lookup_insert_ne by done. by apply Hss.
Qed.

Lemma bs_weaken_le k k' (s : B) hist : (k ≤ k')%nat → bs_inv k' s hist → bs_inv k s hist.
Proof. induction 1 as [|k' _ IH]; [done|]. intros Hs. by apply IH, bs_weaken. Qed.

Lemma columns_none lk hist n cs m id : columns_ok lk hist n cs m → m !! id = None → cs_columns cs !! id = None.
Proof. intros Hall E. specialize (Hall id). rewrite E in Hall. by destruct (cs_columns cs !! id). Qed.

Lemma columns_some lk hist n cs m id pts :
  columns_ok lk hist n cs m → m !! id = Some pts → ∃ t, cs_columns cs !! id = Some t ∧ is_u64 id ∧ column_ok lk hist n id t pts.
Proof. intros Hall E. specialize (Hall id). rewrite E in Hall. destruct (cs_columns cs !! id) as [t|]; [by exists t|done]. Qed.

Lemma last_time_snoc pts x : last_time (pts ++ [x]) = x.1.
Proof. unfold last_time. by rewrite last_snoc. Qed.

End Invariant.

(** ** Steps *)

Lemma kept_bound lk id t hist open lv : tree_ok lk id t hist open lv → weight lv < 2 ^ 64 → (kept lv ≤ 416)%nat.
Proof.
  intros Hok Hw. pose proof (few_levels lv (to_top _ _ _ _ _ _ Hok) Hw) as Hl. destruct Hok as [He _ _ _ _].
  destruct (el_extents t) as [|[x|x] es], (el_rescue t) as [|r rs]; try (destruct He; fail).
  - destruct He as [_ ->]. apply Nat.le_0_l.
  - destruct He as (_&_&Hlv). apply kept_le in Hlv. lia.
Qed.

Section Steps.
Context {B : Type} `{BlockStoreLaws B} (impl : crc32c_impl_t) `{!Crc32cImpl impl} (at_ : nat → Z).
Variables (rounds fuel : nat).
Hypothesis Hfuel : (31 ≤ fuel)%nat.

(** One append takes at most 418 blocks of the store. *)
Lemma column_append lk dup ts v hist n id t pts k (s : B) :
  is_u64 id → column_ok lk hist n id t pts → point_ok (ts, v) → finite v → bs_inv (418 + k) s hist → n < 2 ^ 61 →
  ∃ r t' s' hist', Tree.append impl at_ rounds fuel ts v dup t s = Some (r, t', s') ∧ hist ⊆ hist' ∧ bs_inv k s' hist' ∧
    if is_late dup ts (last_time pts) then r = FAIL_LATE_WRITE ∧ t' = t
    else (r = OK ∨ r = OK_FLUSH_NEEDED) ∧ column_ok lk hist' (n + 1) id t' (pts ++ [(ts, v)]).
Proof.
  intros Hid (open&lv&Hok&Hc&Hl&Hw&Hwc&Hk&_) Hx Hv Hs Hn. rewrite <- Hl.
  destruct (is_late dup ts (el_last t)) eqn:El.
  - exists FAIL_LATE_WRITE, t, s, hist. split; [|split; [done|split; [by eapply bs_weaken_le; [|exact Hs]; lia|done]]].
    unfold Tree.append. rewrite init_done by apply (to_ready _ _ _ _ _ _ Hok). cbn [mbind option_bind].
    unfold Tree.append_ready. unfold is_late in El. by rewrite El.
  - pose proof (kept_bound _ _ _ _ _ _ Hok ltac:(lia)) as Hkb.
    destruct (append_ok impl at_ lk id Hid rounds fuel t s hist open lv ts v dup (416 - kept lv + k)%nat)
      as (r&t'&s'&E&Hr&hist'&open'&lv'&Hsub&Hok'&Hne'&Hc'&Hk'&Hw'&Hl'&_&Hw1&Hw2); try assumption; try lia.
    { unfold is_late in El. destruct dup; apply bool_decide_eq_false in El; lia. }
    { by replace (S (S (416 - kept lv + k)) + kept lv)%nat with (418 + k)%nat by lia. }
    exists r, t', s', hist'. split; [exact E|]. split; [exact Hsub|]. split; [eapply bs_weaken_le; [|exact Hk']; lia|].
    split; [exact Hr|]. exists open', lv'. split; [exact Hok'|]. split; [by rewrite Hc', Hc|].
    split; [by rewrite Hl', last_time_snoc|]. split; [lia|]. split; [lia|]. split; [lia|].
    intros _. rewrite decide_False by (by destruct pts). split; [exact Hne'|lia].
Qed.

(** What a step must establish. *)
Definition step_post (lk : bool) (k : nat) (n : Z) (hist : gmap Z (list Z)) (w : world B) (m : columns) (v : verdict) (m' : columns)
    (out : option ((NBTreeAppendResult + Status) * world B)) : Prop :=
  ∃ r w' hist', out = Some (r, w') ∧ agrees v r ∧ hist ⊆ hist' ∧ world_ok lk k (n + 1) hist' w' m' ∧
    length (w_sessions w') = length (w_sessions w).

Lemma create_step lk k n hist w m id :
  world_ok lk (418 + k) n hist w m → is_u64 id → 0 ≤ n →
  step_post lk k n hist w m (spec_step (Create id) m).1 (spec_step (Create id) m).2 (store_step impl at_ rounds fuel (Create id) w).
Proof.
  intros (Hall&Hca&Hs) Hid Hn. pose proof (bs_weaken_le k (418 + k) _ _ ltac:(lia) Hs) as Hs'. unfold step_post.
  cbn [spec_step store_step]. unfold CStore.create_new_column.
  change (Tree.make id []) with (Some (mkList [] id 0 [] false 0)). cbn [mbind option_bind].
  destruct (decide (is_Some (m !! id))) as [[pts E]|Hno].
  - destruct (columns_some _ _ _ _ _ _ _ Hall E) as (t&Et&_). rewrite decide_True by eauto. cbn [mbind option_bind].
    eexists _, _, hist. split; [reflexivity|]. split; [done|]. split; [done|]. split; [|done].
    split; [|split; [exact Hca|exact Hs']]. apply (columns_mono lk hist hist n); [done|lia|]. destruct w as [sss [cs rp] s]. exact Hall.
  - apply eq_None_not_Some in Hno. rewrite decide_False by (rewrite (columns_none _ _ _ _ _ _ Hall Hno); by intros [? ?]).
    change (Tree.force_init impl at_ rounds fuel (mkList [] id 0 [] false 0) (w_blocks w))
      with (Some (mkList [] id 0 [] true 0, w_blocks w)). cbn [mbind option_bind].
    eexists _, _, hist. split; [reflexivity|]. split; [done|]. split; [done|]. split; [|done].
    split; [|split; [by apply caches_grow|exact Hs']]. apply columns_update; [apply (columns_mono lk hist hist n); [done|lia|exact Hall]|exact Hid|].
    exists [], []. split; [apply fresh_ok|]. split; [done|]. split; [done|]. cbn [el_write_count].
    change (kept []) with 0%nat. change (weight []) with 0. split; [lia|]. split; [lia|]. split; [lia|]. done.
Qed.

(** A step that writes to the table what the append gave. *)
Lemma write_step lk k n hist w m dup id ts v pts t :
  world_ok lk (418 + k) n hist w m → m !! id = Some pts → cs_columns (w_store w) !! id = Some t → point_ok (ts, v) → finite v →
  0 ≤ n < 2 ^ 61 →
  ∃ r t' s' hist', Tree.append impl at_ rounds fuel ts v dup t (w_blocks w) = Some (r, t', s') ∧ hist ⊆ hist' ∧
    agrees (spec_write dup id ts v m).1 (inl r) ∧
    columns_ok lk hist' (n + 1) (CStore.set_column id t' (w_store w)) (spec_write dup id ts v m).2 ∧
    caches_ok (spec_write dup id ts v m).2 (w_sessions w) ∧ is_Some ((spec_write dup id ts v m).2 !! id) ∧ bs_inv k s' hist'.
Proof.
  intros (Hall&Hca&Hs) Em Et Hx Hv Hn. destruct (columns_some _ _ _ _ _ _ _ Hall Em) as (t0&Et0&Hid&Hcol).
  rewrite Et in Et0. injection Et0 as <-.
  destruct (column_append lk dup ts v hist n id t pts k (w_blocks w) Hid Hcol Hx Hv Hs) as (r&t'&s'&hist'&E&Hsub&Hs'&Hr); [lia|].
  pose proof (columns_mono lk hist hist' n (n + 1) _ _ Hsub ltac:(lia) Hall) as Hall'.
  exists r, t', s', hist'. split; [exact E|]. split; [exact Hsub|]. unfold spec_write. rewrite Em.
  destruct (is_late dup ts (last_time pts)).
  - destruct Hr as [-> ->]. split; [done|]. rewrite set_column_id by exact Et. split; [exact Hall'|]. split; [exact Hca|].
    split; [by exists pts|exact Hs'].
  - destruct Hr as [Hr Hc']. split; [exact Hr|]. split; [by apply columns_update|]. split; [by apply caches_grow|].
    split; [cbn [snd]; rewrite lookup_insert_eq; eauto|exact Hs'].
Qed.

Lemma bad_step lk k n hist w m dup id ts v :
  world_ok lk (418 + k) n hist w m → m !! id = None →
  spec_write dup id ts v m = (BadId, m) ∧ world_ok lk k (n + 1) hist w m.
Proof.
  intros (Hall&Hca&Hs) Em. unfold spec_write. rewrite Em. split; [done|]. split; [|split; [exact Hca|]].
  - apply (columns_mono lk hist hist n); [done|lia|exact Hall].
  - eapply bs_weaken_le; [|exact Hs]. lia.
Qed.

Lemma recover_step lk k n hist w m dup id ts v :
  world_ok lk (418 + k) n hist w m → point_ok (ts, v) → finite v → 0 ≤ n < 2 ^ 61 →
  step_post lk k n hist w m (spec_write dup id ts v m).1 (spec_write dup id ts v m).2
    (store_step impl at_ rounds fuel (Recover dup id ts v) w).
Proof.
  intros Hw Hx Hv Hn. unfold step_post. cbn [store_step]. unfold CStore.recovery_write. cbn [float_sample sa_paramid sa_timestamp sa_float64].
  destruct (m !! id) as [pts|] eqn:Em.
  - destruct (columns_some _ _ _ _ _ _ _ (proj1 Hw) Em) as (t&Et&_). rewrite Et.
    destruct (write_step lk k n hist w m dup id ts v pts t Hw Em Et Hx Hv Hn) as (r&t'&s'&hist'&E&Hsub&Hag&Hall&Hca&_&Hs).
    rewrite E. cbn [mbind option_bind]. eexists _, _, hist'. split; [reflexivity|]. split; [exact Hag|]. split; [exact Hsub|].
    split; [|done]. split; [exact Hall|]. by split.
  - rewrite (columns_none _ _ _ _ _ _ (proj1 Hw) Em). cbn [mbind option_bind].
    destruct (bad_step lk k n hist w m dup id ts v Hw Em) as [-> Hw'].
    eexists _, _, hist. split; [reflexivity|]. split; [done|]. split; [done|]. split; [|done]. by destruct w.
Qed.

(** With the tree in the cache or not, a session does the same. *)
Lemma session_write_some id ts v ss cs (s : B) t r t' s' :
  cs_columns cs !! id = Some t → Tree.append impl at_ rounds fuel ts v true t s = Some (r, t', s') →
  ∃ roots ss', CStore.session_write impl at_ rounds fuel (float_sample id ts v) ss cs s
      = Some (r, roots, ss', CStore.set_column id t' cs, s') ∧
    (∀ i, i ∈ ss_cache ss' → i = id ∨ i ∈ ss_cache ss).
Proof.
  intros Et E. unfold CStore.session_write, CStore.write, CStore.append_sample.
  cbn [float_sample sa_paramid sa_timestamp sa_float64 sa_type]. rewrite Et. cbn [mbind option_bind]. rewrite E. cbn [mbind option_bind].
  case_decide; eexists _, _; (split; [reflexivity|]); [by right|]. cbn [ss_cache]. intros i [Hi%elem_of_singleton|Hi]%elem_of_union; auto.
Qed.

Lemma caches_insert m sss i ss : caches_ok m sss → (∀ id, id ∈ ss_cache ss → is_Some (m !! id)) → caches_ok m (<[i := ss]> sss).
Proof. intros Hc Hs. by apply Forall_insert. Qed.

Lemma session_step lk k n hist w m i id ts v :
  world_ok lk (418 + k) n hist w m → (i < length (w_sessions w))%nat → point_ok (ts, v) → finite v → 0 ≤ n < 2 ^ 61 →
  step_post lk k n hist w m (spec_write true id ts v m).1 (spec_write true id ts v m).2
    (store_step impl at_ rounds fuel (Write i id ts v) w).
Proof.
  intros Hw Hi Hx Hv Hn. unfold step_post. cbn [store_step]. apply lookup_lt_is_Some in Hi as [ss Ess]. rewrite Ess. cbn [mbind option_bind].
  pose proof (Forall_lookup_1 _ _ _ _ (proj1 (proj2 Hw)) Ess) as Hss. simpl in Hss.
  destruct (m !! id) as [pts|] eqn:Em.
  - destruct (columns_some _ _ _ _ _ _ _ (proj1 Hw) Em) as (t&Et&_).
    destruct (write_step lk k n hist w m true id ts v pts t Hw Em Et Hx Hv Hn) as (r&t'&s'&hist'&E&Hsub&Hag&Hall&Hca&Hin&Hs).
    destruct (session_write_some id ts v ss _ _ t r t' s' Et E) as (roots&ss'&Ew&Hss'). rewrite Ew. cbn [mbind option_bind].
    eexists _, _, hist'. split; [reflexivity|]. split; [exact Hag|]. split; [exact Hsub|]. split; [|apply length_insert].
    split; [exact Hall|]. split; [|exact Hs]. cbn [w_sessions]. apply caches_insert; [exact Hca|].
    intros i' [->|Hi']%Hss'; [exact Hin|]. exact (Forall_lookup_1 _ _ _ _ Hca Ess i' Hi').
  - unfold CStore.session_write, CStore.write. cbn [float_sample sa_paramid sa_type].
    rewrite decide_False by (intros Hin%Hss; rewrite Em in Hin; by destruct Hin).
    rewrite (columns_none _ _ _ _ _ _ (proj1 Hw) Em). cbn [mbind option_bind].
    destruct (bad_step lk k n hist w m true id ts v Hw Em) as [-> Hw'].
    eexists _, _, hist. split; [reflexivity|]. split; [done|]. split; [done|]. split; [|apply length_insert].
    cbn [snd]. rewrite list_insert_id by exact Ess. by destruct w.
Qed.

Lemma step_ok lk k n hist w m o :
  world_ok lk (418 + k) n hist w m → op_ok (length (w_sessions w)) o → 0 ≤ n < 2 ^ 61 →
  step_post lk k n hist w m (spec_step o m).1 (spec_step o m).2 (store_step impl at_ rounds fuel o w).
Proof.
  intros Hw Ho Hn. destruct o as [id|i id ts v|dup id ts v].
  - apply create_step; [exact Hw|exact Ho|lia].
  - destruct Ho as (Hi&Hx&Hv). by apply session_step.
  - destruct Ho as (Hx&Hv). by apply recover_step.
Qed.

Lemma run_ok lk os k n hist w m :
  world_ok lk (418 * length os + k) n hist w m → Forall (op_ok (length (w_sessions w))) os → 0 ≤ n →
  n + Z.of_nat (length os) ≤ 2 ^ 61 →
  ∃ rs w' hist', store_run impl at_ rounds fuel os w = Some (rs, w') ∧ Forall2 agrees (spec_run os m).1 rs ∧ hist ⊆ hist' ∧
    world_ok lk k (n + Z.of_nat (length os)) hist' w' (spec_run os m).2.
Proof.
  intros Hw Ho. revert n hist w m Hw Ho. induction os as [|o os IH]; intros n hist w m Hw Ho Hn Hmax.
  - exists [], w, hist. split; [done|]. split; [constructor|]. split; [done|]. by rewrite Z.add_0_r.
  - apply Forall_cons in Ho as [Ho Hos]. cbn [length] in *.
    replace (418 * S (length os) + k)%nat with (418 + (418 * length os + k))%nat in Hw by lia.
    destruct (step_ok lk _ n hist w m o Hw Ho) as (r&w1&hist1&E1&Hag&Hsub&Hw1&Hlen); [lia|].
    rewrite <- Hlen in Hos. destruct (IH (n + 1) hist1 w1 (spec_step o m).2 Hw1 Hos) as (rs&w'&hist'&E&Hags&Hsub'&Hw'); [lia..|].
    exists (r :: rs), w', hist'. cbn [store_run spec_run]. rewrite E1. cbn [mbind option_bind]. rewrite E.
    destruct (spec_step o m) as [v m1]. cbn [fst snd] in *. destruct (spec_run os m1) as [vs m']. cbn [fst snd] in *.
    split; [done|]. split; [by constructor|]. split; [by etransitivity|].
    by replace (n + Z.of_nat (S (length os))) with (n + 1 + Z.of_nat (length os)) by lia.
Qed.

End Steps.

(** ** Reading *)

Section Read.
Context {B : Type} `{BlockStoreLaws B} (impl : crc32c_impl_t) `{!Crc32cImpl impl} (at_ : nat → Z).
Variables (lk : bool) (rounds fuel k : nat) (n : Z) (hist : gmap Z (list Z)) (w : world B) (m : columns).
Hypothesis Hw : world_ok lk k n hist w m.

(** The ids up to the first that no column has. *)
Fixpoint known (ids : list Z) : list Z :=
  match ids with
  | [] => []
  | id :: ids => if decide (is_Some (m !! id)) then id :: known ids else []
  end.

(** An operator that delivers the points of series [id] in the range, in
    portions of any size. *)
Definition answers (f : Z → option ValueFilter) (b e id : Z) (op : RealValuedOperator) : Prop :=
  ∃ pts vis, m !! id = Some pts ∧ sublist vis pts ∧
    ((∀ a, is_Some (hist !! a) → bs_exists a (w_blocks w) = true) → vis = pts) ∧
    ∀ size, (0 < size)%nat → ∃ N, ∀ rounds fuel, (length pts < rounds)%nat → (N ≤ fuel)%nat →
      SBlock.drain impl (at_ 0%nat) (w_blocks w) rounds fuel size op = Some (select (f id) b e vis, kNoData).

(** The same of the interface that the operators have for their users. *)
Definition serves (f : Z → option ValueFilter) (b e id : Z) (op : RealValuedOperator) : Prop :=
  ∃ pts vis P, m !! id = Some pts ∧ sublist vis pts ∧ ts_sorted vis ∧
    ((∀ a, is_Some (hist !! a) → bs_exists a (w_blocks w) = true) → vis = pts) ∧
    reads impl (at_ 0%nat) (w_blocks w) P ∧ P op (select (f id) b e vis) ∧ (pts ≠ [] → op_direction op = direction b e).

Lemma serves_answers f b e id op : serves f b e id op → answers f b e id op.
Proof.
  intros (pts&vis&P&Em&Hsub&_&Hvis&HP&Hop&_). exists pts, vis. split; [exact Em|]. split; [exact Hsub|]. split; [exact Hvis|].
  intros size Hsz. destruct (drain_reads impl (at_ 0%nat) (w_blocks w) P op _ size HP Hop Hsz) as (N&HN). exists N.
  intros rounds' fuel' Hr Hf'. apply HN; [exact Hf'|]. apply sublist_length in Hsub. pose proof (length_select (f id) b e vis). lia.
Qed.

(** The queries that the tree answers exactly: see [tree_append_search]; and a
    column whose open leaf has no points is not asked for all of them. *)
Definition query_ok (f : Z → option ValueFilter) (b e id : Z) : Prop :=
  exact_query (f id) b e ∧ (lk = true ∧ m !! id ≠ Some [] ∨ ¬ (b < e ∧ everything b e)).

Lemma column_search f b e id t :
  cs_columns (w_store w) !! id = Some t → query_ok f b e id → is_Some (m !! id) →
  el_initialized t = true ∧ el_id t = id ∧ ∃ op, Tree.search b e (f id) t = Some op ∧ serves f b e id op.
Proof.
  intros Et (Hq&Hne) [pts Em]. destruct Hw as (Hall&_&Hs). destruct (columns_some _ _ _ _ _ _ _ Hall Em) as (t0&Et0&Hid&Hcol).
  rewrite Et in Et0. injection Et0 as <-. destruct Hcol as (open&lv&Hok&Hc&_&_&_&_&Hone).
  destruct (to_ready _ _ _ _ _ _ Hok) as [Hi Hi']. split; [exact Hi|]. split; [exact Hi'|].
  destruct (search_view lk id impl at_ Hid k (w_blocks w) hist Hs t open lv (f id) b e Hok Hq) as (op&P&Eop&HP&Hop).
  { destruct Hne as [[Hlk Hne]|Hne]; [left|by right]. specialize (Hone Hlk). rewrite decide_False in Hone by (intros ->; by destruct Hne).
    exact (proj1 Hone). }
  exists op. split; [exact Eop|]. exists pts, (visible (w_blocks w) open lv), P. split; [exact Em|].
  pose proof (visible_sublist (w_blocks w) open lv) as Hsub. rewrite Hc in Hsub. split; [exact Hsub|].
  split; [|split; [|split; [exact HP|split; [exact Hop|]]]].
  - eapply sorted_sublist; [exact Hsub|]. rewrite <- Hc. exact (to_sorted _ _ _ _ _ _ Hok).
  - intros Hex. by rewrite (visible_all (w_blocks w) lk id t hist open lv Hok Hex).
  - intros Hpts. apply (search_direction b e (f id) t op Eop). intros Ee. apply Hpts. destruct Hok as [He _ _ _ _]. rewrite Ee in He.
    destruct (el_rescue t); [|destruct He]. destruct He as [-> ->]. by rewrite <- Hc.
Qed.

(** [iterate] with a function that gives an operator for every column leaves the
    store as it is. *)
Lemma iterate_each {Op} (fn : ExtentsList → option (Status * option Op)) (Q : Z → Op → Prop) ids dest :
  (∀ id t, id ∈ ids → cs_columns (w_store w) !! id = Some t → is_Some (m !! id) →
    el_initialized t = true ∧ ∃ op, fn t = Some (kOk, Some op) ∧ Q id op) →
  ∃ ops, CStore.iterate impl at_ rounds fuel ids fn dest (w_store w) (w_blocks w)
      = Some (if decide (known ids = ids) then kOk else kNotFound, dest ++ ops, w_store w, w_blocks w) ∧
    Forall2 Q (known ids) ops.
Proof.
  revert dest. induction ids as [|id ids IH]; intros dest Hfn.
  - exists []. rewrite app_nil_r. split; [done|constructor].
  - cbn [CStore.iterate known]. destruct (decide (is_Some (m !! id))) as [Hs|Hno].
    + destruct (Hs) as [pts Em]. destruct (columns_some _ _ _ _ _ _ _ (proj1 Hw) Em) as (t&Et&_). rewrite Et.
      destruct (Hfn id t ltac:(apply elem_of_cons; by left) Et Hs) as (Hi&op&Eop&Ha). rewrite init_done by exact Hi.
      cbn [mbind option_bind]. rewrite Eop. cbn [mbind option_bind].
      rewrite decide_False by (intros Hx; by apply Hx). rewrite set_column_id by exact Et.
      destruct (IH (dest ++ [op])) as (ops&E&Hops); [intros id' t' Hin; apply Hfn; apply elem_of_cons; by right|]. rewrite E.
      exists (op :: ops). rewrite <- app_assoc. split; [|by constructor]. do 4 f_equal. case_decide as H1; case_decide as H2; congruence.
    + apply eq_None_not_Some in Hno. rewrite (columns_none _ _ _ _ _ _ (proj1 Hw) Hno). exists []. rewrite app_nil_r. split; [done|constructor].
Qed.

Lemma iterate_ok (fn : ExtentsList → option (Status * option RealValuedOperator)) f b e ids dest :
  Forall (query_ok f b e) ids →
  (∀ t, el_id t ∈ ids → fn t = (op ← Tree.search b e (f (el_id t)) t; Some (kOk, Some op))) →
  ∃ ops, CStore.iterate impl at_ rounds fuel ids fn dest (w_store w) (w_blocks w)
      = Some (if decide (known ids = ids) then kOk else kNotFound, dest ++ ops, w_store w, w_blocks w) ∧
    Forall2 (serves f b e) (known ids) ops.
Proof.
  intros Hq Hfn. apply iterate_each. intros id t Hin Et Hs. rewrite Forall_forall in Hq.
  destruct (column_search f b e id t Et (Hq id Hin) Hs) as (Hi&<-&op&Eop&Ha). split; [exact Hi|]. exists op.
  rewrite Hfn by exact Hin. by rewrite Eop.
Qed.

End Read.

(** The predicate that [filter] applies to a column. *)
Definition active (filters : gmap Z ValueFilter) (id : Z) : option ValueFilter :=
  flt ← filters !! id; if decide (vf_mask flt ≠ 0) then Some flt else None.

Definition new_world {B} (nsessions : nat) (s : B) : world B := mkWorld (replicate nsessions (mkSession ∅)) CStore.make s.

Lemma new_world_ok {B} `{BlockStoreLaws B} k (s : B) hist nsessions : bs_inv k s hist → world_ok true k 0 hist (new_world nsessions s) ∅.
Proof.
  intros Hs. split; [|split; [|exact Hs]].
  - intros id. simpl. by rewrite !lookup_empty.
  - apply Forall_replicate. intros id Hin. by apply elem_of_empty in Hin.
Qed.

(** ** Properties *)


(** ** Witnesses *)

(** Two series written through two sessions; a late point, an unknown series
    and a series that exists already are refused. *)
Definition sample_ops : list store_op :=
  [Create 1; Create 2; Write 0 1 10 0; Write 1 2 5 0x3FF0000000000000; Write 1 1 20 0x4000000000000000; Write 0 1 15 0;
   Write 0 3 30 0; Create 2; Recover false 2 5 0; Recover true 2 5 0].

