(* ===== verification/ColumnStoreClose.v ===== *)
(** * The column store survives being closed

    [close] writes every column out and returns its rescue points; a store that is
    opened from them has the same columns and goes on from there. *)
From stdpp Require Import gmap sorting.
From S2P Require Import Prelude Status ByteStream Base128 VByte DataBlock DataBlockProof IOVec Blocks Volume Crc32c BlockStoreProof MemStore Double SubtreeRef Operator Leaf LeafIter Superblock TreeIter TreeRead Extents Content ExtentsProof TreeProof TreeRun TreeClose TreeOpen TreeRepair Events ColumnStore ColumnStoreProof.

Section Close.
Context {B : Type} `{BlockStoreLaws B} (impl : crc32c_impl_t) `{!Crc32cImpl impl} (at_ : nat → Z).

(** The rescue points that stand for [pts]. *)
Definition closed_column (hist : gmap Z (list Z)) (id : Z) (pts : list point) (addrs : list Z) : Prop :=
  if decide (pts = []) then addrs = [] else
  ∃ m ref ps, addrs = replicate m EMPTY_ADDR ++ [sr_addr ref] ∧ tree id hist m ref ps ∧ points ps = pts ∧
    sr_addr ref ≠ EMPTY_ADDR ∧ (m ≤ 11)%nat.

Lemma closed_column_mono hist hist' id pts addrs : hist ⊆ hist' → closed_column hist id pts addrs → closed_column hist' id pts addrs.
Proof.
  intros Hs. unfold closed_column. case_decide; [done|]. intros (m&ref&ps&E&Ht&?). exists m, ref, ps. split; [exact E|].
  split; [by eapply tree_mono|done].
Qed.

Lemma close_column n rounds fuel t (s : B) hist id pts k :
  is_u64 id → column_ok true hist n id t pts → n < 2 ^ 50 → bs_inv (446 + k) s hist → (31 ≤ fuel)%nat → (16 ≤ rounds)%nat →
  ∃ addrs t' s' hist', Tree.close impl at_ rounds fuel t s = Some (addrs, t', s') ∧ hist ⊆ hist' ∧ bs_inv k s' hist' ∧
    closed_column hist' id pts addrs.
Proof.
  intros Hid (open&lv&Hok&Hc&_&Hw&Hwc&Hk&Hnew) Hn Hs Hfuel Hr. specialize (Hnew eq_refl). unfold closed_column.
  destruct (decide (pts = [])) as [E|Hne].
  - subst t. exists [], (mkList [] id 0 [] false 0), s, hist. split; [reflexivity|]. split; [done|]. split; [|done].
    eapply bs_weaken_le; [|exact Hs]. lia.
  - destruct Hnew as [Hone Hpos]. pose proof (kept_bound _ _ _ _ _ _ Hok ltac:(lia)) as Hkb.
    destruct (close_ok impl at_ id Hid true 10 rounds fuel t s hist open lv (416 - kept lv + k)%nat Hok Hone)
      as (m&ref&ps&t'&s'&hist'&E&_&_&Hsub&Hs'&Hm&Ht&Ep&Hae); try assumption; try lia.
    { by replace (30 + (416 - kept lv + k) + kept lv)%nat with (446 + k)%nat by lia. }
    exists (replicate m EMPTY_ADDR ++ [sr_addr ref]), t', s', hist'. split; [exact E|]. split; [exact Hsub|].
    split; [eapply bs_weaken_le; [|exact Hs']; lia|]. exists m, ref, ps. rewrite Ep, Hc. by split_and!.
Qed.

Lemma close_columns n rounds fuel (m : columns) ids res cs (s : B) hist k :
  NoDup ids → (31 ≤ fuel)%nat → (16 ≤ rounds)%nat → n < 2 ^ 50 →
  (∀ id, id ∈ ids → ∃ t pts, cs_columns cs !! id = Some t ∧ m !! id = Some pts ∧ is_u64 id ∧ column_ok true hist n id t pts) →
  bs_inv (446 * length ids + k) s hist →
  ∃ res' cs' s' hist', CStore.close impl at_ rounds fuel ids res cs s = Some (res', cs', s') ∧ hist ⊆ hist' ∧ bs_inv k s' hist' ∧
    (∀ id, id ∉ ids → res' !! id = res !! id) ∧
    (∀ id, id ∈ ids → ∃ addrs pts, res' !! id = Some addrs ∧ m !! id = Some pts ∧ closed_column hist' id pts addrs).
Proof.
  intros Hnd Hfuel Hr Hn. revert res cs s hist. induction Hnd as [|id ids Hni Hnd IH]; intros res cs s hist Hcols Hs.
  - exists res, cs, s, hist. split; [done|]. split; [done|]. split; [exact Hs|]. split; [done|]. intros id Hid. by apply not_elem_of_nil in Hid.
  - destruct (Hcols id) as (t&pts&Et&Em&Hid&Hcol); [apply elem_of_cons; by left|].
    destruct (close_column n rounds fuel t s hist id pts (446 * length ids + k) Hid Hcol Hn) as (addrs&t'&s1&hist1&E1&Hsub1&Hs1&Hcl); try assumption.
    { by replace (446 + (446 * length ids + k))%nat with (446 * length (id :: ids) + k)%nat by (simpl; lia). }
    destruct (IH (<[id := addrs]> res) (CStore.set_column id t' cs) s1 hist1) as (res'&cs'&s'&hist'&E&Hsub&Hs'&Hout&Hin).
    { intros id' Hid'. destruct (Hcols id') as (t0&pts0&Et0&Em0&Hid0&Hcol0); [apply elem_of_cons; by right|]. exists t0, pts0.
      cbn [CStore.set_column cs_columns]. rewrite lookup_insert_ne by (intros ->; by destruct Hni).
      split; [exact Et0|]. split; [exact Em0|]. split; [exact Hid0|]. apply (column_mono true hist hist1 n n); [exact Hsub1|lia|exact Hcol0]. }
    { exact Hs1. }
    exists res', cs', s', hist'. split; [|split; [by etransitivity|split; [exact Hs'|split]]].
    + cbn [CStore.close]. rewrite Et. assert (el_initialized t = true) as ->.
      { destruct Hcol as (?&?&Hok&_). exact (proj1 (to_ready _ _ _ _ _ _ Hok)). }
      rewrite E1. cbn [mbind option_bind]. exact E.
    + intros id' Hid'. apply not_elem_of_cons in Hid' as [Hne Hid']. rewrite Hout by exact Hid'. by rewrite lookup_insert_ne.
    + intros id' [->|Hid']%elem_of_cons; [|by apply Hin]. exists addrs, pts. rewrite Hout by exact Hni. rewrite lookup_insert_eq.
      split; [done|]. split; [exact Em|]. by eapply closed_column_mono.
Qed.

(** ** Opening *)

(** The last timestamp is restored from the points. *)
Lemma last_restored (t : Z) (pts : list point) :
  ts_sorted pts → (∀ x, x ∈ pts → 0 ≤ x.1 ≤ t) → (t = 0 ∨ ∃ x, x ∈ pts ∧ x.1 = t) → t = last_time pts.
Proof.
  intros Hs Hle Ht. destruct pts as [|y pts _] using rev_ind.
  - destruct Ht as [->|(x&Hx&_)]; [done|by apply not_elem_of_nil in Hx].
  - rewrite last_time_snoc. assert (Hy : y ∈ pts ++ [y]) by (apply elem_of_app; right; by apply list_elem_of_singleton).
    pose proof (Hle y Hy) as Hyt. apply StronglySorted_app in Hs as (Hxy&_&_).
    destruct Ht as [->|(x&[Hx|Hx%list_elem_of_singleton]%elem_of_app&<-)]; [lia| |by subst].
    specialize (Hxy x y Hx ltac:(by apply list_elem_of_singleton)). lia.
Qed.

Lemma open_column (s : B) hist id pts addrs k :
  is_u64 id → bs_inv k s hist → (∀ a, is_Some (hist !! a) → bs_exists a s = true) → closed_column hist id pts addrs →
  Forall (λ x, 0 ≤ x.1) pts →
  ∃ N t t', Tree.make id addrs = Some t ∧ Tree.repair_status addrs = (if decide (pts = []) then REPAIR else REPAIR_OK) ∧ column_ok false hist (2 ^ 60) id t' pts ∧
    ∀ rounds fuel, (N ≤ fuel)%nat → Tree.force_init impl at_ rounds fuel t s = Some (t', s).
Proof.
  intros Hid Hs Hex Hcl Hpos. unfold closed_column in Hcl. destruct (decide (pts = [])) as [->|Hne].
  - subst addrs. exists 0%nat, (mkList [] id 0 [] false 0), (mkList [] id 0 [] true 0). split; [done|]. split; [done|]. split; [|done].
    exists [], []. split; [apply fresh_ok|]. split; [done|]. split; [done|]. cbn [el_write_count].
    change (kept []) with 0%nat. change (weight []) with 0. split; [lia|]. split; [lia|]. split; [lia|]. done.
  - destruct Hcl as (m&ref&ps&->&Ht&Ep&Hae&Hm).
    destruct (open_closed impl at_ id Hid k s hist Hs Hex m ref ps Ht Hae) as (N&l&(lv&Hok&Hc&Hwc&Hkp&Hwt&Hl)&HN); [lia|].
    exists N, (mkList [] id 0 (replicate m EMPTY_ADDR ++ [sr_addr ref]) false 0), l. split.
    { unfold Tree.make. rewrite decide_False; [reflexivity|]. rewrite length_app, length_replicate. simpl. lia. }
    split; [by apply closed_status|]. split; [|exact HN]. rewrite <- Ep in Hpos |- *.
    exists [], lv. split; [exact Hok|]. split; [exact Hc|]. split.
    { apply last_restored; [rewrite <- Hc; exact (to_sorted _ _ _ _ _ _ Hok)| |exact Hl].
      intros x Hx. split; [by rewrite Forall_forall in Hpos; apply Hpos|]. apply (to_last _ _ _ _ _ _ Hok). by rewrite Hc. }
    split; [|split; [lia|split; [lia|done]]]. etransitivity; [exact Hwt|]. transitivity (32 ^ 12); [apply Z.pow_le_mono_r; lia|lia].
Qed.

(** The series without points: they have no rescue points either, which
    [repair_status] takes for a crash. *)
Definition empties (m : columns) (mapping : list (Z * list Z)) : list Z :=
  filter (λ id, m !! id = Some []) mapping.*1.

(** The columns that [mapping] brings back, added to [done]. *)
Definition restored (m done : columns) (mapping : list (Z * list Z)) : columns :=
  foldl (λ d p, <[p.1 := default [] (m !! p.1)]> d) done mapping.

Lemma open_columns (s : B) hist (m : columns) mapping k :
  bs_inv k s hist → (∀ a, is_Some (hist !! a) → bs_exists a s = true) → NoDup mapping.*1 →
  Forall (λ p, ∃ pts, m !! p.1 = Some pts ∧ is_u64 p.1 ∧ closed_column hist p.1 pts p.2 ∧ Forall (λ x, 0 ≤ x.1) pts) mapping →
  ∃ N, ∀ rounds fuel done ids cs, (N ≤ fuel)%nat → columns_ok false hist (2 ^ 60) cs done →
    (∀ id, id ∈ mapping.*1 → done !! id = None) →
    ∃ cs', CStore.open_or_restore impl at_ rounds fuel mapping true ids cs s = Some (kOk, ids ++ empties m mapping, cs', s) ∧
      columns_ok false hist (2 ^ 60) cs' (restored m done mapping).
Proof.
  intros Hs Hex Hnd Hall. induction Hall as [|[id addrs] mapping (pts&Em&Hid&Hcl&Hpos) Hall IH].
  { exists 0%nat. intros rounds fuel done ids cs _ Hcs _. exists cs. split; [|exact Hcs]. unfold empties. simpl. by rewrite app_nil_r. }
  rewrite fmap_cons in Hnd. cbn [fst snd] in *. apply NoDup_cons in Hnd as [Hni Hnd]. destruct (IH Hnd) as (N1&HN1).
  destruct (open_column s hist id pts addrs k Hid Hs Hex Hcl Hpos) as (N2&t&t'&Et&Hrp&Hcol&HN2). exists (N1 + N2)%nat.
  intros rounds fuel done ids cs Hf Hcs Hfresh.
  destruct (HN1 rounds fuel (<[id := pts]> done) (if decide (pts = []) then ids ++ [id] else ids) (CStore.set_column id t' cs)) as (cs'&E&Hcs'); [lia|by apply columns_update| |].
  { intros id' Hid'. rewrite lookup_insert_ne by (intros ->; by destruct Hni). apply Hfresh. rewrite fmap_cons. apply elem_of_cons. by right. }
  exists cs'. split; [|unfold restored in *; cbn [foldl fst]; rewrite Em; exact Hcs'].
  cbn [CStore.open_or_restore]. rewrite Et. cbn [mbind option_bind].
  rewrite decide_False by (rewrite (columns_none _ _ _ _ _ _ Hcs (Hfresh id ltac:(rewrite fmap_cons; apply elem_of_cons; by left))); by intros [? ?]).
  cbn [orb]. rewrite HN2 by lia. cbn [mbind option_bind]. rewrite Hrp.
  unfold empties in *. rewrite fmap_cons, filter_cons. cbn [fst]. destruct (decide (pts = [])) as [->|Hne].
  - rewrite decide_True by exact Em. rewrite E. by rewrite <- app_assoc.
  - rewrite decide_False by (rewrite Em; congruence). exact E.
Qed.

End Close.

Lemma restored_lookup (m done : columns) mapping id :
  restored m done mapping !! id = if decide (id ∈ mapping.*1) then Some (default [] (m !! id)) else done !! id.
Proof.
  revert done. induction mapping as [|[i addrs] mapping IH]; intros done; unfold restored in *; cbn [foldl fst].
  { by rewrite decide_False by (by intros ?%not_elem_of_nil). }
  rewrite IH, fmap_cons. cbn [fst]. destruct (decide (id ∈ mapping.*1)) as [Hin|Hni].
  - by rewrite decide_True by (apply elem_of_cons; by right).
  - destruct (decide (id = i)) as [->|Hne].
    + rewrite lookup_insert_eq, decide_True by (apply elem_of_cons; by left). done.
    + rewrite lookup_insert_ne by done. rewrite decide_False; [done|]. by intros [?|?]%elem_of_cons.
Qed.

(** All the series come back. *)
Lemma restored_all (m : columns) mapping : (∀ id, id ∈ mapping.*1 ↔ is_Some (m !! id)) → restored m ∅ mapping = m.
Proof.
  intros Hm. apply map_eq. intros id. rewrite restored_lookup. case_decide as Hd; rewrite Hm in Hd.
  - destruct Hd as [pts ->]. done.
  - apply eq_None_not_Some in Hd. by rewrite Hd, lookup_empty.
Qed.

(** Points of the columns have good timestamps. *)
Lemma spec_step_points n o (m : columns) :
  op_ok n o → map_Forall (λ _, Forall (λ x : point, 0 ≤ x.1)) m → map_Forall (λ _, Forall (λ x : point, 0 ≤ x.1)) (spec_step o m).2.
Proof.
  assert (Hw : ∀ dup id ts v, point_ok (ts, v) → map_Forall (λ _, Forall (λ x : point, 0 ≤ x.1)) m →
    map_Forall (λ _, Forall (λ x : point, 0 ≤ x.1)) (spec_write dup id ts v m).2).
  { intros dup id ts v [[Ht _] _] Hm. unfold spec_write. destruct (m !! id) as [pts|] eqn:E; [|exact Hm].
    destruct (is_late _ _ _); [exact Hm|]. apply map_Forall_insert_2; [|exact Hm]. apply Forall_app. split; [by apply (Hm id)|].
    by apply Forall_singleton. }
  intros Ho Hm. destruct o as [id|i id ts v|dup id ts v]; cbn [spec_step].
  - case_decide; [exact Hm|]. by apply map_Forall_insert_2.
  - apply Hw; [exact (proj1 (proj2 Ho))|exact Hm].
  - apply Hw; [exact (proj1 Ho)|exact Hm].
Qed.

Lemma spec_run_points n os (m : columns) :
  Forall (op_ok n) os → map_Forall (λ _, Forall (λ x : point, 0 ≤ x.1)) m →
  map_Forall (λ _, Forall (λ x : point, 0 ≤ x.1)) (spec_run os m).2.
Proof.
  intros Ho. revert m. induction Ho as [|o os Ho _ IH]; intros m Hm; [exact Hm|]. cbn [spec_run].
  pose proof (spec_step_points n o m Ho Hm) as Hm1. destruct (spec_step o m) as [v m1]. specialize (IH m1 Hm1).
  by destruct (spec_run os m1).
Qed.

Lemma spec_run_app os1 os2 (m : columns) : (spec_run (os1 ++ os2) m).2 = (spec_run os2 (spec_run os1 m).2).2.
Proof.
  revert m. induction os1 as [|o os1 IH]; intros m; [done|]. cbn [app spec_run]. destruct (spec_step o m) as [v m1].
  specialize (IH m1). destruct (spec_run (os1 ++ os2) m1), (spec_run os1 m1). exact IH.
Qed.

(** ** Properties *)

(** C5: a database of many series survives being closed and opened again.  After
    any operations on a new store, [close] of its columns, in whatever order the
    table gives them, writes them all to the shared block store; opening a new
    store from the map that it returns succeeds and asks to recover just the
    series that never had a point; then any further operations through new
    sessions have the results of the abstract map, the refusal of late points
    included, and a scan of any range but the forward one over all times delivers
    the points of both lives of each series.  The blocks must all be there when the
    store is opened. *)
Theorem column_store_close_reopen {B} `{BlockStoreLaws B} impl `{!Crc32cImpl impl} at_ os1 os2 n1 n2 all ids b e rounds fuel
    (s : B) hist k :
  let m1 := (spec_run os1 ∅).2 in
  let m := (spec_run (os1 ++ os2) ∅).2 in
  Forall (op_ok n1) os1 → Forall (op_ok n2) os2 → Z.of_nat (length os1) < 2 ^ 50 → Z.of_nat (length os2) ≤ 2 ^ 60 →
  NoDup all → (∀ id, id ∈ all ↔ is_Some (m1 !! id)) →
  bs_inv (418 * length os1 + (446 * length all + (418 * length os2 + k))) s hist → (31 ≤ fuel)%nat → (16 ≤ rounds)%nat →
  Forall (query_ok false m (λ _, None) b e) ids →
  ∃ rs1 w1 res cs s2 hist2, store_run impl at_ rounds fuel os1 (new_world n1 s) = Some (rs1, w1) ∧
    Forall2 agrees (spec_run os1 ∅).1 rs1 ∧
    CStore.close impl at_ rounds fuel all ∅ (w_store w1) (w_blocks w1) = Some (res, cs, s2) ∧ (∃ k2, bs_inv k2 s2 hist2) ∧
    ((∀ a, is_Some (hist2 !! a) → bs_exists a s2 = true) → ∀ mapping, mapping ≡ₚ map_to_list res →
      ∃ N, ∀ fuel2, (N ≤ fuel2)%nat → ∃ cs2 rs2 w2 hist3 ops,
        CStore.open_or_restore impl at_ rounds fuel2 mapping true [] CStore.make s2 = Some (kOk, empties m1 mapping, cs2, s2) ∧
        store_run impl at_ rounds fuel2 os2 (mkWorld (replicate n2 (mkSession ∅)) cs2 s2) = Some (rs2, w2) ∧
        Forall2 agrees (spec_run os2 m1).1 rs2 ∧
        CStore.scan impl at_ rounds fuel2 ids b e (w_store w2) (w_blocks w2)
          = Some (if decide (known m ids = ids) then kOk else kNotFound, ops, w_store w2, w_blocks w2) ∧
        Forall2 (answers impl at_ hist3 w2 m (λ _, None) b e) (known m ids) ops).
Proof.
  intros m1 m Ho1 Ho2 Hl1 Hl2 Hnd Hall Hs Hfuel Hr Hq. pose proof (new_world_ok _ _ _ n1 Hs) as Hw0.
  assert (Ho1' : Forall (op_ok (length (w_sessions (new_world n1 s)))) os1) by (simpl; by rewrite length_replicate).
  destruct (run_ok impl at_ rounds fuel Hfuel true os1 _ 0 hist _ ∅ Hw0 Ho1' ltac:(lia) ltac:(lia)) as (rs1&w1&hist1&E1&Hag1&_&Hw1).
  fold m1 in Hw1. destruct Hw1 as (Hcols1&_&Hs1).
  destruct (close_columns impl at_ (0 + Z.of_nat (length os1)) rounds fuel m1 all ∅ (w_store w1) (w_blocks w1) hist1 (418 * length os2 + k))
    as (res&cs&s2&hist2&E2&_&Hs2&Hout&Hin); try assumption; try lia.
  { intros id Hid. apply Hall in Hid as [pts Em]. destruct (columns_some _ _ _ _ _ _ _ Hcols1 Em) as (t&Et&Hid&Hcol). by exists t, pts. }
  exists rs1, w1, res, cs, s2, hist2. split; [exact E1|]. split; [exact Hag1|]. split; [exact E2|]. split; [eauto|].
  intros Hex mapping Hp.
  assert (Hmem : ∀ id addrs, (id, addrs) ∈ mapping → id ∈ all ∧ res !! id = Some addrs).
  { intros id addrs Hi. rewrite Hp in Hi. apply elem_of_map_to_list in Hi. split; [|exact Hi].
    destruct (decide (id ∈ all)) as [|Hni]; [done|]. rewrite Hout in Hi by done. by rewrite lookup_empty in Hi. }
  pose proof (spec_run_points n1 os1 ∅ Ho1 (map_Forall_empty _)) as Hpts.
  destruct (open_columns impl at_ s2 hist2 m1 mapping _ Hs2 Hex) as (N&HN).
  { rewrite Hp. apply NoDup_fst_map_to_list. }
  { apply Forall_forall. intros [id addrs] Hi. destruct (Hmem id addrs Hi) as [Hia Er].
    destruct (Hin id Hia) as (addrs'&pts&Er'&Em&Hcl). rewrite Er in Er'. injection Er' as <-. exists pts. cbn [fst snd].
    split; [exact Em|]. split; [by destruct (columns_some _ _ _ _ _ _ _ Hcols1 Em) as (?&_&?&_)|]. split; [exact Hcl|]. by apply (Hpts id). }
  exists (N + 31)%nat. intros fuel2 Hf2.
  destruct (HN rounds fuel2 ∅ [] CStore.make) as (cs2&Eo&Hcs2); [lia|intros id; simpl; by rewrite !lookup_empty|intros; apply lookup_empty|].
  rewrite restored_all in Hcs2.
  2: { intros id. rewrite <- Hall. split.
    - intros Hi. apply list_elem_of_fmap in Hi as ([id' addrs]&->&Hi). by apply Hmem in Hi as [? _].
    - intros Hi. destruct (Hin id Hi) as (addrs&_&Er&_). apply list_elem_of_fmap. exists (id, addrs). split; [done|].
      rewrite Hp. by apply elem_of_map_to_list. }
  assert (Hw2 : world_ok false (418 * length os2 + k) (2 ^ 60) hist2 (mkWorld (replicate n2 (mkSession ∅)) cs2 s2) m1).
  { split; [exact Hcs2|]. split; [|exact Hs2]. apply Forall_replicate. intros id Hi. by apply elem_of_empty in Hi. }
  destruct (run_ok impl at_ rounds fuel2 ltac:(lia) false os2 k (2 ^ 60) hist2 _ m1 Hw2) as (rs2&w2&hist3&E3&Hag2&_&Hw3).
  { cbn [w_sessions]. by rewrite length_replicate. }
  { lia. }
  { lia. }
  assert (Em : (spec_run os2 m1).2 = m) by (unfold m, m1; by rewrite spec_run_app). rewrite Em in Hw3.
  destruct (iterate_ok impl at_ false rounds fuel2 k _ hist3 w2 m Hw3
    (λ elist, op ← Tree.search b e None elist; Some (kOk, Some op)) (λ _, None) b e ids [] Hq ltac:(done)) as (ops&Es&Hops).
  exists cs2, rs2, w2, hist3, ops. split; [exact Eo|]. split; [exact E3|]. split; [exact Hag2|]. split; [exact Es|].
  eapply Forall2_impl; [exact Hops|]. apply serves_answers.
Qed.

(** ** Witnesses *)

(** Two series with points and one without; later one more point of a series
    and a late one. *)
Definition first_life : list store_op :=
  [Create 1; Create 2; Create 3; Write 0 1 10 0; Write 0 2 5 0x3FF0000000000000; Write 0 1 20 0x4000000000000000].
Definition second_life : list store_op := [Write 0 1 15 0; Write 0 1 20 0; Write 0 3 7 0].

Lemma column_store_close_reopen_witness :
  ∃ rs1 w1 res cs s2, store_run crc32c_sw (λ _, 0) 16 31 first_life (new_world 1 (Mem.make false false)) = Some (rs1, w1) ∧
    Forall2 agrees (replicate 6 Accepted) rs1 ∧
    CStore.close crc32c_sw (λ _, 0) 16 31 [3; 1; 2] ∅ (w_store w1) (w_blocks w1) = Some (res, cs, s2).
Proof.
  destruct (column_store_close_reopen (B := MemStore) crc32c_sw (λ _, 0) first_life second_life 1 1 [3; 1; 2] [1; 3] 0 100 16 31
    (Mem.make false false) ∅ 0) as (rs1&w1&res&cs&s2&hist2&E1&Hag&E2&_).
  - repeat constructor; by_compute.
  - repeat constructor; by_compute.
  - by_compute.
  - by_compute.
  - apply (bool_decide_unpack _). by_compute.
  - intros id. assert ((spec_run first_life ∅).2 = {[1 := [(10, 0); (20, 0x4000000000000000)]; 2 := [(5, 0x3FF0000000000000)]; 3 := []]}) as ->.
    { apply map_eq. intros i. vm_compute (spec_run first_life ∅). by vm_compute. }
    rewrite !elem_of_cons, !lookup_insert_is_Some, lookup_singleton_is_Some. rewrite elem_of_nil. lia.
  - split; [apply mem_make_inv; by_compute|done].
  - lia.
  - lia.
  - apply Forall_forall. intros id _. split; [exact I|]. right. unfold everything, TS_MAX. lia.
  - exists rs1, w1, res, cs, s2. split; [exact E1|]. split; [exact Hag|exact E2].
Defined.
