(* ===== verification/Merge.v ===== *)
(** * Materializers that merge columns (operators/merge.h)

    Several columns become one sequence of samples in the order of a comparator.
    [MergeMaterializer], [MergeEventMaterializer] and [MergeJoinMaterializer]
    have the same algorithm over different sources, a k-way merge with a heap of
    the first elements; it is written once and instantiated three times.  The
    heap, [boost::heap::skew_heap], is a parameter. *)
From S2P Require Import Prelude Status ByteStream DataBlock Volume Crc32c BlockStoreProof MemStore Double SubtreeRef Operator Leaf LeafIter Superblock TreeIter TreeRead Extents Events ColumnStore.

(** ** Interfaces *)

(** [SeriesOperator<TValue>]; the first argument of [read] bounds its loops. *)
Class SeriesOperator (It V : Type) := {
  so_read : nat → nat → It → option (Status * list (Z * V) * It);
  so_direction : It → Direction;
}.

(** [ColumnMaterializer]; the size is in bytes. *)
Class ColumnMaterializer (M : Type) :=
  cm_read : nat → Z → M → option (Status * list Sample * M).

(** The heap. *)
Class Heap (H A : Type) := {
  heap_new : H;
  heap_push : A → H → H;
  heap_top : H → option A;
  heap_pop : H → H;
}.

(** What is documented of the heap with comparator [cmp]: it holds what was
    pushed, its top is an element that [cmp] puts below no other, and [pop] removes
    that one. *)
Class HeapLaws (H A : Type) `{Heap H A} (cmp : A → A → bool) := {
  heap_elems : H → list A;
  heap_new_elems : heap_elems heap_new = [];
  heap_push_elems x h : heap_elems (heap_push x h) ≡ₚ x :: heap_elems h;
  heap_top_none h : heap_top h = None ↔ heap_elems h = [];
  heap_top_elems h x : heap_top h = Some x → heap_elems h ≡ₚ x :: heap_elems (heap_pop h);
  heap_top_first h x y : heap_top h = Some x → y ∈ heap_elems h → cmp x y = false;
}.

(** ** Keys and comparators *)

(** [std::tuple<Timestamp, ParamId>]. *)
Notation KeyType := (Z * Z)%type (only parsing).

(** [operator<] of tuples. *)
Definition tuple_lt (x y : Z * Z) : bool := bool_decide (x.1 < y.1 ∨ x.1 = y.1 ∧ x.2 < y.2).

Definition swap (x : Z * Z) : Z * Z := (x.2, x.1).

(** The comparators: [true] when [lhs] comes after [rhs]. *)
Definition TimeOrder (dir : Direction) (lhs rhs : KeyType) : bool :=
  match dir with FORWARD => tuple_lt rhs lhs | BACKWARD => tuple_lt lhs rhs end.

Definition SeriesOrder (dir : Direction) (lhs rhs : KeyType) : bool :=
  match dir with FORWARD => tuple_lt (swap rhs) (swap lhs) | BACKWARD => tuple_lt (swap lhs) (swap rhs) end.

Definition MergeJoinOrder (dir : Direction) (lhs rhs : KeyType) : bool :=
  match dir with FORWARD => bool_decide (rhs.1 < lhs.1) | BACKWARD => bool_decide (lhs.1 < rhs.1) end.

(** ** The merge *)

(** [Range]: [ts] and [xs] up to [size], and [pos]. *)
Record Range (X : Type) := mkRange { rg_id : Z; rg_data : list X; rg_pos : nat }.
Arguments mkRange {X}.
Arguments rg_id {X}.
Arguments rg_data {X}.
Arguments rg_pos {X}.

Record HeapItem (X : Type) := mkItem { hi_key : KeyType; hi_value : X; hi_id : Z; hi_index : nat }.
Arguments mkItem {X}.
Arguments hi_key {X}.
Arguments hi_value {X}.
Arguments hi_id {X}.
Arguments hi_index {X}.

Record MergeState (It X : Type) := mkMerge {
  mm_iters : list It;
  mm_ids : list Z;
  mm_forward : bool;
  mm_ranges : list (Range X);
}.
Arguments mkMerge {It X}.
Arguments mm_iters {It X}.
Arguments mm_ids {It X}.
Arguments mm_forward {It X}.
Arguments mm_ranges {It X}.

Module Merge.
Section Merge.
Context {It X H : Type} `{Heap H (HeapItem X)}.

(** Reading from a source into a range; the key and the sample of an element. *)
Variable fetch : nat → It → option (Status * list X * It).
Variable key : Z → X → KeyType.
Variable emit : Z → X → Sample.

Definition RANGE_SIZE : nat := 1024.

Definition range_empty (r : Range X) : bool := bool_decide (length (rg_data r) ≤ rg_pos r)%nat.
Definition advance (r : Range X) : Range X := mkRange (rg_id r) (rg_data r) (rg_pos r + 1).

(** The first element of a range in a heap item; out of range throws. *)
Definition top_item (index : nat) (r : Range X) : option (HeapItem X) :=
  x ← rg_data r !! rg_pos r; Some (mkItem (key (rg_id r) x) x (rg_id r) index).

(** The first call: a range per source, except for those that have nothing. *)
Fixpoint init_ranges (fuel : nat) (iters : list It) (ids : list Z) : option (Status * list It * list (Range X)) :=
  match iters with
  | [] => Some (kOk, [], [])
  | it :: iters =>
    id ← head ids;
    '(status, data, it) ← fetch fuel it;
    if decide (status ≠ kOk ∧ status ≠ kNoData) then Some (status, it :: iters, []) else
    '(st, iters, ranges) ← init_ranges fuel iters (tail ids);
    Some (st, it :: iters, if decide (status = kOk ∨ data ≠ []) then mkRange id data 0 :: ranges else ranges)
  end.

Fixpoint fill_heap (index : nat) (ranges : list (Range X)) (heap : H) : option H :=
  match ranges with
  | [] => Some heap
  | r :: ranges =>
    heap ← (if range_empty r then Some heap else item ← top_item index r; Some (heap_push item heap));
    fill_heap (index + 1) ranges heap
  end.

(** Range [index] after its first element was taken, refilled when it has become
    empty. *)
Definition step_range (fuel index : nat) (iters : list It) (ranges : list (Range X))
    : option (Status * list It * list (Range X)) :=
  r ← ranges !! index;
  let r := advance r in
  if range_empty r then
    it ← iters !! index;
    '(status, data, it) ← fetch fuel it;
    let iters := <[index := it]> iters in
    if decide (status ≠ kOk ∧ status ≠ kNoData) then Some (status, iters, <[index := r]> ranges) else
    Some (kOk, iters, <[index := mkRange (rg_id r) data 0]> ranges)
  else Some (kOk, iters, <[index := r]> ranges).

(** [while(!heap.empty())]; every round writes a sample. *)
Fixpoint merge_loop (rounds fuel : nat) (size outpos : Z) (heap : H) (out : list Sample) (st : MergeState It X)
    : option (Status * list Sample * MergeState It X) :=
  match rounds with
  | O => None
  | S rounds =>
    match heap_top heap with
    | None => Some (kNoData, out, mkMerge [] (mm_ids st) (mm_forward st) [])
    | Some item =>
      let sample := emit (hi_id item) (hi_value item) in
      if decide (size - outpos < sa_size sample) then Some (kOk, out, st) else
      let heap := heap_pop heap in
      '(status, iters, ranges) ← step_range fuel (hi_index item) (mm_iters st) (mm_ranges st);
      let st := mkMerge iters (mm_ids st) (mm_forward st) ranges in
      if decide (status ≠ kOk) then Some (status, [], st) else
      r ← ranges !! hi_index item;
      heap ← (if range_empty r then Some heap
              else item ← top_item (hi_index item) r; Some (heap_push item heap));
      merge_loop rounds fuel size (outpos + sa_size sample) heap (out ++ [sample]) st
    end
  end.

Definition kway_merge (rounds fuel : nat) (size : Z) (st : MergeState It X)
    : option (Status * list Sample * MergeState It X) :=
  if decide (mm_iters st = []) then Some (kNoData, [], st) else
  '(status, st) ←
    (if decide (mm_ranges st = []) then
       '(status, iters, ranges) ← init_ranges fuel (mm_iters st) (mm_ids st);
       Some (status, mkMerge iters (mm_ids st) (mm_forward st) ranges)
     else Some (kOk, st));
  if decide (status ≠ kOk) then Some (status, [], st) else
  heap ← fill_heap 0 (mm_ranges st) heap_new;
  merge_loop rounds fuel size 0 heap [] st.

End Merge.

(** The direction is that of the first source; there are as many ids as
    sources. *)
Definition make {It V} `{SeriesOperator It V} (ids : list Z) (iters : list It) : option (MergeState It (Z * V)) :=
  if decide (length iters = length ids) then
    Some (mkMerge iters ids match iters with it :: _ => bool_decide (so_direction it = FORWARD) | [] => true end [])
  else None.

Definition dir_of (forward : bool) : Direction := if forward then FORWARD else BACKWARD.

Section Instances.
Variables (HF HB : Type).

(** [MergeMaterializer]: points. *)
Definition point_key (id : Z) (x : Z * Z) : KeyType := (x.1, id).
Definition point_sample (id : Z) (x : Z * Z) : Sample := mkSample x.1 id PAYLOAD_FLOAT SAMPLE_SIZE x.2 [].

(** The heaps of the two directions differ in their comparator. *)
Definition read {It} `{SeriesOperator It Z, Heap HF (HeapItem (Z * Z)), Heap HB (HeapItem (Z * Z))} (rounds fuel : nat) (size : Z)
    (st : MergeState It (Z * Z)) : option (Status * list Sample * MergeState It (Z * Z)) :=
  if mm_forward st then kway_merge (H := HF) (λ fuel it, so_read fuel RANGE_SIZE it) point_key point_sample rounds fuel size st
  else kway_merge (H := HB) (λ fuel it, so_read fuel RANGE_SIZE it) point_key point_sample rounds fuel size st.

(** [MergeEventMaterializer]: events, whose samples have different sizes. *)
Definition event_key (id : Z) (x : Z * list Z) : KeyType := (x.1, id).
Definition event_sample (id : Z) (x : Z * list Z) : Sample :=
  mkSample x.1 id PAYLOAD_EVENT (u16 (SAMPLE_SIZE + Z.of_nat (length x.2))) 0 x.2.

Definition read_events {It} `{SeriesOperator It (list Z), Heap HF (HeapItem (Z * list Z)), Heap HB (HeapItem (Z * list Z))} (rounds fuel : nat) (size : Z)
    (st : MergeState It (Z * list Z)) : option (Status * list Sample * MergeState It (Z * list Z)) :=
  if mm_forward st then kway_merge (H := HF) (λ fuel it, so_read fuel RANGE_SIZE it) event_key event_sample rounds fuel size st
  else kway_merge (H := HB) (λ fuel it, so_read fuel RANGE_SIZE it) event_key event_sample rounds fuel size st.

(** [MergeJoinMaterializer]: sequences of samples, which are copied.  A source
    fills a buffer of [RANGE_SIZE * sizeof(Sample)] bytes. *)
Definition make_tord (s : Sample) : KeyType := (sa_timestamp s, sa_paramid s).
Definition make_sord (s : Sample) : KeyType := (sa_paramid s, sa_timestamp s).

Definition make_join {M} (iters : list M) (forward : bool) : MergeState M Sample :=
  mkMerge iters (replicate (length iters) 0) forward [].

Definition read_join {M} `{ColumnMaterializer M, Heap HF (HeapItem Sample), Heap HB (HeapItem Sample)} (make_key : Sample → KeyType)
    (rounds fuel : nat) (size : Z) (st : MergeState M Sample) : option (Status * list Sample * MergeState M Sample) :=
  let fetch := λ fuel it, cm_read fuel (Z.of_nat RANGE_SIZE * SAMPLE_SIZE) it in
  if mm_forward st then kway_merge (H := HF) fetch (λ _, make_key) (λ _ s, s) rounds fuel size st
  else kway_merge (H := HB) fetch (λ _, make_key) (λ _ s, s) rounds fuel size st.

End Instances.
End Merge.
