(* ===== verification/MergeProof.v ===== *)
(** * The k-way merge

    The merge delivers every element of every source once, the elements of a
    source in their order, and all of them in the order of the comparator. *)
From stdpp Require Import sorting.
From S2P Require Import Prelude Status ByteStream DataBlock Volume Crc32c BlockStoreProof MemStore Double SubtreeRef Operator Leaf LeafIter Superblock TreeIter TreeRead Extents Events ColumnStore Merge.

Lemma Forall3_insert {A B C} (R : A → B → C → Prop) l k m i x y z :
  Forall3 R l k m → R x y z → Forall3 R (<[i := x]> l) (<[i := y]> k) (<[i := z]> m).
Proof.
  intros Hall Hr. revert i. induction Hall as [|a b c l k m Ha Hall IH]; intros [|i]; constructor; solve [done|apply IH|assumption].
Qed.

(** ** What is merged *)

Section Spec.
Context {X : Type} (key : Z → X → KeyType) (emit : Z → X → Sample) (cmp : KeyType → KeyType → bool).

(** Columns by their ids, with what is still to come. *)
Notation pending := (list (Z * list X)).

Definition le_key (a b : KeyType) : Prop := cmp a b = false.

(** One element after the other is taken, always one that comes after no other. *)
Inductive merges : pending → list Sample → pending → Prop :=
  | merges_done rems : merges rems [] rems
  | merges_step rems i id x xs out rems' :
      rems !! i = Some (id, x :: xs) →
      (∀ j id' y ys, rems !! j = Some (id', y :: ys) → le_key (key id x) (key id' y)) →
      merges (<[i := (id, xs)]> rems) out rems' → merges rems (emit id x :: out) rems'.

Lemma merges_trans rems out rems' out' rems'' :
  merges rems out rems' → merges rems' out' rems'' → merges rems (out ++ out') rems''.
Proof. induction 1 as [|rems i id x xs out rems' Hi Hle _ IH]; intros Hm; [exact Hm|]. simpl. econstructor; eauto. Qed.

Definition total (rems : pending) : nat := sum_list (length <$> rems.*2).

Lemma total_step rems i id x xs : rems !! i = Some (id, x :: xs) → total rems = S (total (<[i := (id, xs)]> rems)).
Proof.
  revert i. induction rems as [|[id' l] rems IH]; intros [|i] Hi; try done; simpl in Hi.
  - injection Hi as -> ->. reflexivity.
  - change (total ((id', l) :: rems)) with (length l + total rems)%nat.
    change (total (<[S i := (id, xs)]> ((id', l) :: rems))) with (length l + total (<[i := (id, xs)]> rems))%nat.
    rewrite (IH i Hi). lia.
Qed.

Definition exhausted (rems : pending) : Prop := Forall (λ p, p.2 = []) rems.

Lemma exhausted_total rems : exhausted rems ↔ total rems = 0%nat.
Proof.
  unfold exhausted. induction rems as [|[id l] rems IH]; [split; [done|constructor]|].
  change (total ((id, l) :: rems)) with (length l + total rems)%nat. rewrite Forall_cons, IH. cbn [snd].
  split; [intros [-> ->]; done|]. intros Hz. split; [destruct l; [done|simpl in Hz; lia]|lia].
Qed.

(** ** The heap items of the columns *)

Definition head_item (i : nat) (p : Z * list X) : list (HeapItem X) :=
  match p.2 with x :: _ => [mkItem (key p.1 x) x p.1 i] | [] => [] end.

Fixpoint heads (i : nat) (rems : pending) : list (HeapItem X) :=
  match rems with [] => [] | p :: rems => head_item i p ++ heads (S i) rems end.

Lemma elem_heads i rems item :
  item ∈ heads i rems ↔ ∃ j id x xs, rems !! j = Some (id, x :: xs) ∧ item = mkItem (key id x) x id (i + j)%nat.
Proof.
  revert i. induction rems as [|[id l] rems IH]; intros i; cbn [heads].
  { split; [by intros ?%not_elem_of_nil|by intros (j&?&?&?&?&_)]. }
  rewrite elem_of_app, IH. split.
  - intros [Hi|(j&id'&x&xs&Hj&->)]; [|exists (S j), id', x, xs; split; [done|f_equal; lia]].
    destruct l as [|x xs]; [by apply not_elem_of_nil in Hi|]. apply list_elem_of_singleton in Hi as ->.
    exists 0%nat, id, x, xs. split; [done|by rewrite Nat.add_0_r].
  - intros ([|j]&id'&x&xs&Hj&->); simpl in Hj.
    + injection Hj as -> ->. left. rewrite Nat.add_0_r. by apply list_elem_of_singleton.
    + right. exists j, id', x, xs. split; [done|f_equal; lia].
Qed.

Lemma heads_step i rems j id x xs :
  rems !! j = Some (id, x :: xs) →
  ∃ rest, heads i rems ≡ₚ mkItem (key id x) x id (i + j)%nat :: rest ∧
    heads i (<[j := (id, xs)]> rems) ≡ₚ head_item (i + j) (id, xs) ++ rest.
Proof.
  revert i j. induction rems as [|p rems IH]; intros i [|j] Hj; try done; simpl in Hj.
  - injection Hj as ->. exists (heads (S i) rems). rewrite Nat.add_0_r. by split.
  - destruct (IH (S i) j Hj) as (rest&H1&H2). exists (head_item i p ++ rest). cbn [heads list_insert insert].
    replace (i + S j)%nat with (S i + j)%nat by lia. change (<[S j := (id, xs)]> (p :: rems)) with (p :: <[j := (id, xs)]> rems).
    cbn [heads]. rewrite H1, H2. split; [by rewrite Permutation_middle|].
    by rewrite !(assoc_L (++)), (Permutation_app_comm (head_item i p)).
Qed.

Lemma heads_nil i rems : heads i rems = [] → exhausted rems.
Proof.
  revert i. induction rems as [|[id [|x l]] rems IH]; intros i Hi; [constructor| |done]. constructor; [done|exact (IH (S i) Hi)].
Qed.

(** ** Order and completeness of a full merge *)

Hypothesis le_trans : ∀ a b c, le_key a b → le_key b c → le_key a c.

Variable skey : Sample → KeyType.
Hypothesis emit_key : ∀ id x, skey (emit id x) = key id x.

(** The columns are sorted. *)
Definition sorted_in (p : Z * list X) : Prop := StronglySorted le_key (key p.1 <$> p.2).

Lemma sorted_step rems i id x xs :
  Forall sorted_in rems → rems !! i = Some (id, x :: xs) → Forall sorted_in (<[i := (id, xs)]> rems).
Proof.
  intros Hs Hi. apply Forall_insert; [exact Hs|]. pose proof (Forall_lookup_1 _ _ _ _ Hs Hi) as Hp. unfold sorted_in in *. simpl in *.
  by apply StronglySorted_cons in Hp as [_ Hp].
Qed.

(** A key that is not after the heads is not after anything. *)
Lemma merges_bound rems out rems' k0 :
  merges rems out rems' → Forall sorted_in rems →
  (∀ j id y ys, rems !! j = Some (id, y :: ys) → le_key k0 (key id y)) →
  Forall (λ s, le_key k0 (skey s)) out.
Proof.
  induction 1 as [|rems i id x xs out rems' Hi Hle _ IH]; intros Hs Hk; [constructor|].
  pose proof (Hk _ _ _ _ Hi) as Hx. constructor; [by rewrite emit_key|]. apply IH; [by eapply sorted_step|].
  intros j id' y ys Hj. destruct (decide (i = j)) as [<-|Hne].
  - rewrite list_lookup_insert_eq in Hj by (by eapply lookup_lt_Some). injection Hj as <- ->.
    pose proof (Forall_lookup_1 _ _ _ _ Hs Hi) as Hp. unfold sorted_in in Hp. simpl in Hp.
    apply StronglySorted_cons in Hp as [Hp _]. apply Forall_cons in Hp as [Hxy _]. by eapply le_trans.
  - rewrite list_lookup_insert_ne in Hj by done. by eapply Hk.
Qed.

Lemma merges_sorted rems out rems' :
  merges rems out rems' → Forall sorted_in rems → StronglySorted le_key (skey <$> out).
Proof.
  induction 1 as [|rems i id x xs out rems' Hi Hle Hm IH]; intros Hs; [constructor|]. cbn [fmap list_fmap].
  rewrite emit_key. constructor; [apply IH; by eapply sorted_step|]. apply Forall_fmap.
  eapply merges_bound; [exact Hm|by eapply sorted_step|]. intros j id' y ys Hj. destruct (decide (i = j)) as [<-|Hne].
  - rewrite list_lookup_insert_eq in Hj by (by eapply lookup_lt_Some). injection Hj as <- ->.
    pose proof (Forall_lookup_1 _ _ _ _ Hs Hi) as Hp. unfold sorted_in in Hp. simpl in Hp.
    apply StronglySorted_cons in Hp as [Hp _]. by apply Forall_cons in Hp as [Hxy _].
  - rewrite list_lookup_insert_ne in Hj by done. by eapply Hle.
Qed.

Hypothesis emit_id : ∀ id x, sa_paramid (emit id x) = id.

(** The samples of one column, in its order. *)
Lemma merges_column rems out rems' i id xs xs' :
  merges rems out rems' → NoDup rems.*1 → rems !! i = Some (id, xs) → rems' !! i = Some (id, xs') →
  (emit id <$> xs) = filter (λ s, sa_paramid s = id) out ++ (emit id <$> xs').
Proof.
  intros Hm. revert xs. induction Hm as [rems|rems j idj x l out rems' Hj Hle Hm IH]; intros xs Hnd Hi Hi'.
  { rewrite Hi in Hi'. by injection Hi' as <-. }
  assert (Hfst : (<[j := (idj, l)]> rems).*1 = rems.*1).
  { rewrite list_fmap_insert. apply list_insert_id. by rewrite list_lookup_fmap, Hj. }
  rewrite filter_cons, emit_id. destruct (decide (i = j)) as [->|Hne].
  - rewrite Hi in Hj. injection Hj as <- ->. rewrite decide_True by done. cbn [fmap list_fmap app]. f_equal.
    apply IH; [by rewrite Hfst|by rewrite list_lookup_insert_eq by (by eapply lookup_lt_Some)|exact Hi'].
  - rewrite decide_False; [apply IH; [by rewrite Hfst|by rewrite list_lookup_insert_ne|exact Hi']|].
    intros ->. apply Hne. eapply NoDup_lookup; [exact Hnd|rewrite list_lookup_fmap, Hi; done|by rewrite list_lookup_fmap, Hj].
Qed.

Lemma merges_ids rems out rems' : merges rems out rems' → Forall (λ s, sa_paramid s ∈ rems.*1) out ∧ rems'.*1 = rems.*1.
Proof.
  induction 1 as [|rems i id x xs out rems' Hi _ _ [IH1 IH2]]; [done|].
  assert (Hfst : (<[i := (id, xs)]> rems).*1 = rems.*1).
  { rewrite list_fmap_insert. apply list_insert_id. by rewrite list_lookup_fmap, Hi. }
  rewrite Hfst in *. split; [|done]. constructor; [|done]. rewrite emit_id. apply list_elem_of_fmap. exists (id, x :: xs).
  split; [done|by eapply list_elem_of_lookup_2].
Qed.

End Spec.

(** ** The loop *)

(** Heap items are compared by their keys. *)
Definition item_cmp {X} (cmp : KeyType → KeyType → bool) (a b : HeapItem X) : bool := cmp (hi_key a) (hi_key b).

Section Loop.
Context {It X H : Type} `{Heap H (HeapItem X)}.
Variables (fetch : nat → It → option (Status * list X * It)) (key : Z → X → KeyType) (emit : Z → X → Sample).
Variable cmp : KeyType → KeyType → bool.
Context `{!HeapLaws H (HeapItem X) (item_cmp cmp)}.

(** A source with a sequence to deliver. *)
Variable P : It → list X → Prop.

Definition fetches : Prop := ∀ it xs, P it xs →
  ∃ N st data it' rest, (∀ fuel, (N ≤ fuel)%nat → fetch fuel it = Some (st, data, it')) ∧ xs = data ++ rest ∧ P it' rest ∧
    (st = kOk ∧ data ≠ [] ∨ st = kNoData ∧ rest = []).

Hypothesis HP : fetches.

Definition source_ok (it : It) (r : Range X) (p : Z * list X) : Prop :=
  rg_id r = p.1 ∧ ∃ rest, p.2 = drop (rg_pos r) (rg_data r) ++ rest ∧ P it rest ∧ (Merge.range_empty r = true → p.2 = []).

Lemma source_head it r id x xs i :
  source_ok it r (id, x :: xs) → Merge.range_empty r = false ∧ Merge.top_item key i r = Some (mkItem (key id x) x id i).
Proof.
  intros (Hid&rest&Hp&_&He). cbn [fst snd] in *. destruct (Merge.range_empty r) eqn:E; [by specialize (He eq_refl)|]. split; [done|].
  apply bool_decide_eq_false in E. unfold Merge.top_item. rewrite Hid.
  destruct (rg_data r !! rg_pos r) as [y|] eqn:Ey; [|apply lookup_ge_None in Ey; lia].
  rewrite (drop_S _ _ _ Ey) in Hp. by injection Hp as -> _.
Qed.

Lemma source_nil it r id : source_ok it r (id, []) → Merge.range_empty r = true.
Proof.
  intros (_&rest&Hp&_). cbn [snd] in Hp. symmetry in Hp. apply app_eq_nil in Hp as [Hp _].
  apply (f_equal length) in Hp. rewrite length_drop in Hp. unfold Merge.range_empty. apply bool_decide_eq_true. simpl in Hp. lia.
Qed.

Lemma step_range_ok iters ranges rems i id x xs :
  Forall3 source_ok iters ranges rems → rems !! i = Some (id, x :: xs) →
  ∃ N iters' ranges' r', (∀ fuel, (N ≤ fuel)%nat → Merge.step_range fetch fuel i iters ranges = Some (kOk, iters', ranges')) ∧
    ranges' !! i = Some r' ∧ Forall3 source_ok iters' ranges' (<[i := (id, xs)]> rems) ∧
    (∃ it', source_ok it' r' (id, xs)).
Proof.
  intros Hall Hi. destruct (Forall3_lookup_r _ _ _ _ _ _ Hall Hi) as (it&r&Hit&Hr&Hso).
  destruct (source_head it r id x xs 0 Hso) as [Hne _]. destruct Hso as (Hid&rest&Hp&Hrest&_). cbn [fst snd] in *.
  apply bool_decide_eq_false in Hne.
  assert (Hdr : xs = drop (rg_pos r + 1) (rg_data r) ++ rest).
  { destruct (rg_data r !! rg_pos r) as [y|] eqn:Ey; [|apply lookup_ge_None in Ey; lia].
    rewrite (drop_S _ _ _ Ey) in Hp. injection Hp as _ ->. by rewrite Nat.add_1_r. }
  destruct (Merge.range_empty (Merge.advance r)) eqn:Ee.
  - assert (Hdn : drop (rg_pos r + 1) (rg_data r) = []).
    { apply bool_decide_eq_true in Ee. cbn [Merge.advance rg_data rg_pos] in Ee. by apply drop_ge. }
    rewrite Hdn in Hdr. simpl in Hdr. subst rest.
    destruct (HP it xs Hrest) as (N&st&data&it'&rest&Ef&Hxs&Hrest'&Hst).
    exists N, (<[i := it']> iters), (<[i := mkRange (rg_id r) data 0]> ranges), (mkRange (rg_id r) data 0).
    assert (Hnew : source_ok it' (mkRange (rg_id r) data 0) (id, xs)).
    { split; [exact Hid|]. exists rest. cbn [snd rg_pos rg_data]. rewrite drop_0. split; [exact Hxs|]. split; [exact Hrest'|].
      intros He. apply bool_decide_eq_true in He. cbn [rg_data rg_pos] in He. destruct data as [|? ?]; [|simpl in He; lia].
      destruct Hst as [[_ ?]|[_ ->]]; done. }
    split; [|split; [|split; [|by exists it']]].
    + intros fuel Hf. unfold Merge.step_range. rewrite Hr. cbn [mbind option_bind]. rewrite Ee, Hit. cbn [mbind option_bind].
      rewrite Ef by exact Hf. cbn [mbind option_bind]. rewrite decide_False by (destruct Hst as [[-> _]|[-> _]]; by intros [? ?]).
      done.
    + apply list_lookup_insert_eq. by eapply lookup_lt_Some.
    + by apply Forall3_insert.
  - exists 0%nat, iters, (<[i := Merge.advance r]> ranges), (Merge.advance r).
    assert (Hnew : source_ok it (Merge.advance r) (id, xs)).
    { split; [exact Hid|]. exists rest. split; [exact Hdr|]. split; [exact Hrest|]. by rewrite Ee. }
    split; [|split; [|split; [|by exists it]]].
    + intros fuel _. unfold Merge.step_range. rewrite Hr. cbn [mbind option_bind]. by rewrite Ee.
    + apply list_lookup_insert_eq. by eapply lookup_lt_Some.
    + rewrite <- (list_insert_id iters i it Hit). by apply Forall3_insert.
Qed.

(** Where the loop can stop. *)
Definition loop_post (size : Z) (ids : list Z) (fwd : bool) (rems : list (Z * list X)) (outpos : Z) (out : list Sample)
    (r : Status * list Sample * MergeState It X) : Prop :=
  ∃ more rems', merges key emit cmp rems more rems' ∧
    ((∃ iters ranges, r = (kOk, out ++ more, mkMerge iters ids fwd ranges) ∧ Forall3 source_ok iters ranges rems' ∧
       ∃ i id x xs, rems' !! i = Some (id, x :: xs) ∧
         size - outpos - foldr Z.add 0 (sa_size <$> more) < sa_size (emit id x))
     ∨ r = (kNoData, out ++ more, mkMerge [] ids fwd []) ∧ exhausted rems').

Lemma heap_first heap rems item :
  heap_elems heap ≡ₚ heads key 0 rems → heap_top heap = Some item →
  ∃ i id x xs, rems !! i = Some (id, x :: xs) ∧ item = mkItem (key id x) x id i ∧
    (∀ j id' y ys, rems !! j = Some (id', y :: ys) → le_key cmp (key id x) (key id' y)).
Proof.
  intros He Ht. pose proof (heap_top_elems heap item Ht) as Hi.
  assert (Hin : item ∈ heads key 0 rems) by (rewrite <- He, Hi; apply elem_of_cons; by left).
  apply elem_heads in Hin as (i&id&x&xs&Hx&->). exists i, id, x, xs. split; [exact Hx|]. split; [done|].
  intros j id' y ys Hj. apply (heap_top_first (cmp := item_cmp cmp) heap _ (mkItem (key id' y) y id' j) Ht). rewrite He.
  apply elem_heads. by exists j, id', y, ys.
Qed.

(** The heap after a step. *)
Lemma heap_next heap rems item i id x xs :
  heap_elems heap ≡ₚ heads key 0 rems → heap_top heap = Some item → rems !! i = Some (id, x :: xs) →
  item = mkItem (key id x) x id i →
  head_item key i (id, xs) ++ heap_elems (heap_pop heap) ≡ₚ heads key 0 (<[i := (id, xs)]> rems).
Proof.
  intros He Ht Hi ->. destruct (heads_step key 0 rems i id x xs Hi) as (rest&H1&H2). rewrite H2. apply Permutation_app_head.
  pose proof (heap_top_elems heap _ Ht) as Hp. rewrite He, H1 in Hp. by apply Permutation_cons_inv in Hp.
Qed.

Lemma merge_loop_end rems size ids fwd iters ranges heap outpos out :
  heap_top heap = None → heap_elems heap ≡ₚ heads key 0 rems →
  ∃ N r, (∀ rounds fuel, (0 < rounds)%nat → (N ≤ fuel)%nat →
      Merge.merge_loop fetch key emit rounds fuel size outpos heap out (mkMerge iters ids fwd ranges) = Some r) ∧
    loop_post size ids fwd rems outpos out r.
Proof.
  intros Et Hh. exists 0%nat, (kNoData, out, mkMerge [] ids fwd []). split.
  { intros [|rounds] fuel Hr _; [lia|]. cbn [Merge.merge_loop]. by rewrite Et. }
  apply (heap_top_none heap) in Et. rewrite Et in Hh. symmetry in Hh. apply Permutation_nil_r in Hh.
  exists [], rems. split; [constructor|]. right. rewrite app_nil_r. split; [done|]. exact (heads_nil key 0 rems Hh).
Qed.

Lemma merge_loop_ok n rems size ids fwd iters ranges heap outpos out :
  total rems = n → Forall3 source_ok iters ranges rems → heap_elems heap ≡ₚ heads key 0 rems →
  ∃ N r, (∀ rounds fuel, (n < rounds)%nat → (N ≤ fuel)%nat →
      Merge.merge_loop fetch key emit rounds fuel size outpos heap out (mkMerge iters ids fwd ranges) = Some r) ∧
    loop_post size ids fwd rems outpos out r.
Proof.
  revert rems iters ranges heap outpos out. induction n as [|n IH]; intros rems iters ranges heap outpos out Hn Hall Hh;
    (destruct (heap_top heap) as [item|] eqn:Et;
     [destruct (heap_first heap rems item Hh Et) as (i&id&x&xs&Hi&->&Hle)|
      destruct (merge_loop_end rems size ids fwd iters ranges heap outpos out Et Hh) as (N&r&E&Hr); exists N, r; split;
      [intros rounds fuel Hrd; apply E; lia|exact Hr]]).
  { rewrite (total_step _ _ _ _ _ Hi) in Hn. lia. }
  destruct (decide (size - outpos < sa_size (emit id x))) as [Hfull|Hroom].
  { exists 0%nat, (kOk, out, mkMerge iters ids fwd ranges). split.
    - intros [|rounds] fuel Hr _; [lia|]. cbn [Merge.merge_loop]. rewrite Et. cbn [hi_id hi_value]. by rewrite decide_True.
    - exists [], rems. split; [constructor|]. left. exists iters, ranges. rewrite app_nil_r. split; [done|]. split; [exact Hall|].
      exists i, id, x, xs. split; [exact Hi|]. simpl. lia. }
  destruct (step_range_ok iters ranges rems i id x xs Hall Hi) as (N1&iters'&ranges'&r'&Est&Er'&Hall'&it'&Hr').
  pose proof (heap_next heap rems _ i id x xs Hh Et Hi eq_refl) as Hnext.
  assert (∃ heap', (if Merge.range_empty r' then Some (heap_pop heap)
      else item ← Merge.top_item key i r'; Some (heap_push item (heap_pop heap))) = Some heap' ∧
    heap_elems heap' ≡ₚ heads key 0 (<[i := (id, xs)]> rems)) as (heap'&Eh'&Hh').
  { destruct xs as [|y ys].
    - rewrite (source_nil _ _ _ Hr'). by exists (heap_pop heap).
    - destruct (source_head _ _ _ _ _ i Hr') as [-> Ety]. rewrite Ety. cbn [mbind option_bind].
      eexists. split; [reflexivity|]. rewrite (heap_push_elems (cmp := item_cmp cmp)). exact Hnext. }
  pose proof (total_step _ _ _ _ _ Hi) as Htot.
  destruct (IH (<[i := (id, xs)]> rems) iters' ranges' heap' (outpos + sa_size (emit id x)) (out ++ [emit id x])) as (N2&r&El&more&rems'&Hm&Hr);
    [lia|exact Hall'|exact Hh'|].
  exists (N1 + N2)%nat, r. split.
  - intros [|rounds] fuel Hrd Hf; [lia|]. cbn [Merge.merge_loop]. rewrite Et. cbn [hi_id hi_value hi_index].
    rewrite decide_False by exact Hroom. cbn [mm_iters mm_ranges mm_ids mm_forward]. rewrite Est by lia. cbn [mbind option_bind].
    rewrite decide_False by (intros Hx; by apply Hx). rewrite Er'. cbn [mbind option_bind]. rewrite Eh'. cbn [mbind option_bind].
    apply El; lia.
  - exists (emit id x :: more), rems'. split; [by econstructor|].
    replace (out ++ emit id x :: more) with ((out ++ [emit id x]) ++ more) by (by rewrite <- app_assoc).
    destruct Hr as [(it2&rg2&Er&Hall2&j&idj&y&ys&Hj&Hsz)|Hr]; [left|by right]. exists it2, rg2. split; [exact Er|]. split; [exact Hall2|].
    exists j, idj, y, ys. split; [exact Hj|]. cbn [fmap list_fmap foldr]. lia.
Qed.

(** ** A call *)

Lemma fill_heap_ok index iters ranges rems heap :
  Forall3 source_ok iters ranges rems →
  ∃ heap', Merge.fill_heap key index ranges heap = Some heap' ∧ heap_elems heap' ≡ₚ heads key index rems ++ heap_elems heap.
Proof.
  intros Hall. revert index heap. induction Hall as [|it r [id xs] iters ranges rems Hso _ IH]; intros index heap.
  { by exists heap. }
  cbn [Merge.fill_heap heads]. rewrite Nat.add_1_r. destruct xs as [|x xs].
  - rewrite (source_nil _ _ _ Hso). cbn [mbind option_bind]. apply IH.
  - destruct (source_head _ _ _ _ _ index Hso) as [-> Et]. rewrite Et. cbn [mbind option_bind].
    destruct (IH (S index) (heap_push (mkItem (key id x) x id index) heap)) as (heap'&E&Hh). exists heap'. split; [exact E|].
    rewrite Hh, (heap_push_elems (cmp := item_cmp cmp)). simpl. by rewrite Permutation_middle.
Qed.

(** A source before the first call: it has something to deliver. *)
Definition fresh (it : It) (id : Z) (p : Z * list X) : Prop := p.1 = id ∧ P it p.2 ∧ p.2 ≠ [].

Lemma init_ranges_ok iters ids rems :
  Forall3 fresh iters ids rems →
  ∃ N iters' ranges, (∀ fuel, (N ≤ fuel)%nat → Merge.init_ranges fetch fuel iters ids = Some (kOk, iters', ranges)) ∧
    Forall3 source_ok iters' ranges rems.
Proof.
  induction 1 as [|it id [id' xs] iters ids rems (<-&Hit&Hne) _ (N1&iters'&ranges&E&Hall)].
  { exists 0%nat, [], []. split; [done|constructor]. }
  cbn [fst snd] in *. destruct (HP it xs Hit) as (N2&st&data&it'&rest&Ef&Hxs&Hrest&Hst).
  assert (Hd : data ≠ []).
  { destruct Hst as [[_ ?]|[_ ->]]; [done|]. rewrite app_nil_r in Hxs. by rewrite <- Hxs. }
  exists (N1 + N2)%nat, (it' :: iters'), (mkRange id' data 0 :: ranges). split.
  - intros fuel Hf. cbn [Merge.init_ranges head tail]. cbn [mbind option_bind]. rewrite Ef by lia. cbn [mbind option_bind].
    rewrite decide_False by (destruct Hst as [[-> _]|[-> _]]; by intros [? ?]). rewrite E by lia. cbn [mbind option_bind].
    rewrite decide_True by (by right). done.
  - constructor; [|exact Hall]. split; [done|]. exists rest. cbn [snd rg_pos rg_data]. rewrite drop_0. split; [exact Hxs|].
    split; [exact Hrest|]. intros He. apply bool_decide_eq_true in He. destruct data; [done|simpl in He; lia].
Qed.

(** The state of the materializer between calls. *)
Definition merging (ids : list Z) (fwd : bool) (rems : list (Z * list X)) (st : MergeState It X) : Prop :=
  mm_ids st = ids ∧ mm_forward st = fwd ∧
  (mm_iters st = [] ∧ exhausted rems ∨ mm_ranges st = [] ∧ Forall3 fresh (mm_iters st) ids rems ∨
   Forall3 source_ok (mm_iters st) (mm_ranges st) rems).

Definition call_post (size : Z) (ids : list Z) (fwd : bool) (rems : list (Z * list X)) (r : Status * list Sample * MergeState It X) : Prop :=
  let '(st, out, m) := r in ∃ rems', merges key emit cmp rems out rems' ∧ merging ids fwd rems' m ∧
    (st = kOk ∧ (out ≠ [] ∨ ∃ i id x xs, rems' !! i = Some (id, x :: xs) ∧ size < sa_size (emit id x)) ∨ st = kNoData ∧ exhausted rems').

Lemma call_ready size ids fwd rems iters ranges :
  Forall3 source_ok iters ranges rems →
  ∃ N r, (∀ rounds fuel, (total rems < rounds)%nat → (N ≤ fuel)%nat →
      (heap ← Merge.fill_heap key 0 ranges heap_new;
       Merge.merge_loop fetch key emit rounds fuel size 0 heap [] (mkMerge iters ids fwd ranges)) = Some r) ∧
    call_post size ids fwd rems r.
Proof.
  intros Hall. destruct (fill_heap_ok 0 iters ranges rems heap_new Hall) as (heap&Eh&Hh).
  rewrite (heap_new_elems (cmp := item_cmp cmp)), app_nil_r in Hh.
  destruct (merge_loop_ok (total rems) rems size ids fwd iters ranges heap 0 [] eq_refl Hall Hh) as (N&r&E&more&rems'&Hm&Hr).
  exists N, r. split.
  { intros rounds fuel Hrd Hf. rewrite Eh. cbn [mbind option_bind]. by apply E. }
  destruct Hr as [(iters'&ranges'&->&Hall'&i&id&x&xs&Hi&Hsz)|[-> Hex]]; exists rems'; (split; [exact Hm|]).
  - split; [by split; [|split; [|right; right]]|]. left. split; [done|]. destruct more as [|s more]; [|by left]. right.
    exists i, id, x, xs. split; [exact Hi|]. simpl in Hsz. lia.
  - split; [by split; [|split; [|left]]|]. by right.
Qed.

Lemma kway_merge_ok size ids fwd rems st :
  merging ids fwd rems st →
  ∃ N r, (∀ rounds fuel, (total rems < rounds)%nat → (N ≤ fuel)%nat →
      Merge.kway_merge fetch key emit rounds fuel size st = Some r) ∧ call_post size ids fwd rems r.
Proof.
  destruct st as [iters ids' fwd' ranges]. intros (Ei&Ef&Hst). cbn [mm_ids mm_forward mm_iters mm_ranges] in *. subst ids' fwd'.
  unfold Merge.kway_merge. cbn [mm_ids mm_forward mm_iters mm_ranges]. destruct (decide (iters = [])) as [->|Hne].
  { exists 0%nat, (kNoData, [], mkMerge [] ids fwd ranges). split; [done|].
    assert (Hex : exhausted rems).
    { destruct Hst as [[_ ?]|[[_ Hf]|Hf]]; [done|..]; inversion Hf; constructor. }
    exists rems. split; [constructor|]. split; [by split; [|split; [|left]]|by right]. }
  destruct Hst as [[? _]|[[-> Hf]|Hall]]; [done| |].
  - destruct (init_ranges_ok iters ids rems Hf) as (N1&iters'&ranges'&E1&Hall).
    destruct (call_ready size ids fwd rems iters' ranges' Hall) as (N2&r&E2&Hr). exists (N1 + N2)%nat, r. split; [|exact Hr].
    intros rounds fuel Hrd Hfu. rewrite decide_True by done. rewrite E1 by lia. cbn [mbind option_bind]. rewrite decide_False by (intros Hx; by apply Hx).
    cbn [mm_ranges]. apply E2; lia.
  - destruct (call_ready size ids fwd rems iters ranges Hall) as (N&r&E&Hr). exists N, r. split; [|exact Hr].
    intros rounds fuel Hrd Hfu. rewrite decide_False by (intros ->; by inversion Hall; subst). cbn [mbind option_bind].
    rewrite decide_False by (intros Hx; by apply Hx). by apply E.
Qed.
End Loop.

(** ** To the end *)

(** Reading in portions until the status is not [Ok]. *)
Fixpoint cm_drain {M} (rd : M → option (Status * list Sample * M)) (n : nat) (m : M) : option (list Sample * Status) :=
  match n with
  | O => None
  | S n =>
    '(st, out, m) ← rd m;
    if decide (st ≠ kOk) then Some (out, st) else
    '(rest, st) ← cm_drain rd n m;
    Some (out ++ rest, st)
  end.

(** Drains of readers that agree as long as an invariant holds. *)
Lemma cm_drain_ext {M} (I : M → Prop) (rd rd' : M → option (Status * list Sample * M)) n m :
  (∀ m, I m → rd m = rd' m) → (∀ m st out m', I m → rd m = Some (st, out, m') → I m') → I m → cm_drain rd n m = cm_drain rd' n m.
Proof.
  intros Heq Hpres. revert m. induction n as [|n IH]; intros m Hm; [done|]. cbn [cm_drain]. rewrite <- Heq by exact Hm.
  destruct (rd m) as [[[st out] m']|] eqn:E; [|done]. cbn [mbind option_bind]. case_decide; [done|]. by rewrite IH by (by eapply Hpres).
Qed.

(** The direction does not change. *)
Lemma merge_loop_forward {It X H} `{Heap H (HeapItem X)} (fetch : nat → It → option (Status * list X * It)) key emit rounds fuel size outpos heap out st s out' st' :
  Merge.merge_loop fetch key emit rounds fuel size outpos heap out st = Some (s, out', st') → mm_forward st' = mm_forward st.
Proof.
  revert outpos heap out st. induction rounds as [|rounds IH]; intros outpos heap out st E; [done|]. cbn [Merge.merge_loop] in E.
  destruct (heap_top heap) as [item|]; [|by simplify_eq]. case_decide; [by simplify_eq|].
  destruct (Merge.step_range _ _ _ _ _) as [[[status iters] ranges]|]; [|done]. cbn [mbind option_bind] in E.
  case_decide; [by injection E as <- <- <-|]. destruct (ranges !! hi_index item) as [r|]; [|done]. cbn [mbind option_bind] in E.
  destruct (if Merge.range_empty r then _ else _) as [heap'|]; [|done]. cbn [mbind option_bind] in E. by apply IH in E.
Qed.

Lemma kway_forward {It X H} `{Heap H (HeapItem X)} (fetch : nat → It → option (Status * list X * It)) key emit rounds fuel size st s out st' :
  Merge.kway_merge (H := H) fetch key emit rounds fuel size st = Some (s, out, st') → mm_forward st' = mm_forward st.
Proof.
  unfold Merge.kway_merge. intros E. case_decide; [by injection E as <- <- <-|].
  assert (∃ status st1, (if decide (mm_ranges st = []) then
      '(status, iters, ranges) ← Merge.init_ranges fetch fuel (mm_iters st) (mm_ids st);
      Some (status, mkMerge iters (mm_ids st) (mm_forward st) ranges) else Some (kOk, st)) = Some (status, st1) ∧ mm_forward st1 = mm_forward st)
    as (status&st1&E1&Hf).
  { case_decide; [|eauto]. destruct (Merge.init_ranges _ _ _ _) as [[[status iters] ranges]|]; [|done]. cbn [mbind option_bind]. eauto. }
  rewrite E1 in E. cbn [mbind option_bind] in E. clear E1. case_decide; [by injection E as <- <- <-|].
  destruct (Merge.fill_heap _ _ _ _) as [heap|]; [|done]. cbn [mbind option_bind] in E. rewrite <- Hf. by eapply merge_loop_forward.
Qed.

Section Drain.
Context {It X H : Type} `{Heap H (HeapItem X)}.
Variables (fetch : nat → It → option (Status * list X * It)) (key : Z → X → KeyType) (emit : Z → X → Sample).
Variable cmp : KeyType → KeyType → bool.
Context `{!HeapLaws H (HeapItem X) (item_cmp cmp)}.
Variable P : It → list X → Prop.
Hypothesis HP : fetches fetch P.

Definition fits (size : Z) (p : Z * list X) : Prop := Forall (λ x, sa_size (emit p.1 x) ≤ size) p.2.

Lemma merges_total rems out rems' : merges key emit cmp rems out rems' → total rems = (length out + total rems')%nat.
Proof. induction 1 as [|rems i id x xs out rems' Hi _ _ IH]; [done|]. rewrite (total_step _ _ _ _ _ Hi), IH. simpl. lia. Qed.

Lemma merges_fits size rems out rems' : merges key emit cmp rems out rems' → Forall (fits size) rems → Forall (fits size) rems'.
Proof.
  induction 1 as [|rems i id x xs out rems' Hi _ _ IH]; intros Hf; [done|]. apply IH, Forall_insert; [exact Hf|].
  pose proof (Forall_lookup_1 _ _ _ _ Hf Hi) as Hx. by apply Forall_cons in Hx as [_ Hx].
Qed.

Lemma merge_drain size ids fwd rems st :
  merging P ids fwd rems st → Forall (fits size) rems →
  ∃ N out rems', (∀ n fuel, (total rems < n)%nat → (N ≤ fuel)%nat →
      cm_drain (Merge.kway_merge fetch key emit fuel fuel size) n st = Some (out, kNoData)) ∧
    merges key emit cmp rems out rems' ∧ exhausted rems'.
Proof.
  remember (total rems) as k eqn:Hk. revert rems st Hk. induction k as [k IH] using lt_wf_ind. intros rems st -> Hst Hf.
  destruct (kway_merge_ok fetch key emit cmp P HP size ids fwd rems st Hst) as (N1&[[s out] st']&E1&rems1&Hm1&Hst1&Hs).
  pose proof (merges_total _ _ _ Hm1) as Ht. destruct Hs as [[-> Hout]|[-> Hex]].
  - assert (out ≠ []) as Hne.
    { destruct Hout as [?|(i&id&x&xs&Hi&Hsz)]; [done|]. pose proof (merges_fits _ _ _ _ Hm1 Hf) as Hf1.
      pose proof (Forall_lookup_1 _ _ _ _ Hf1 Hi) as Hx. apply Forall_cons in Hx as [Hx _]. simpl in Hx. lia. }
    assert (0 < length out)%nat by (destruct out; [done|simpl; lia]).
    destruct (IH (total rems1) ltac:(lia) rems1 st' eq_refl Hst1 (merges_fits _ _ _ _ Hm1 Hf)) as (N2&out2&rems2&E2&Hm2&Hex).
    exists (S (total rems) + N1 + N2)%nat, (out ++ out2), rems2. split; [|split; [by eapply merges_trans|exact Hex]].
    intros [|n] fuel Hn Hfu; [lia|]. cbn [cm_drain]. rewrite E1 by lia. cbn [mbind option_bind].
    rewrite decide_False by (intros Hx; by apply Hx). by rewrite E2 by lia.
  - exists (S (total rems) + N1)%nat, out, rems1. split; [|by split].
    intros [|n] fuel Hn Hfu; [lia|]. cbn [cm_drain]. rewrite E1 by lia. cbn [mbind option_bind]. by rewrite decide_True.
Qed.

End Drain.

(** ** Orders *)

(** A comparator whose "not after" is transitive. *)
Class MergeOrder (order : Direction → KeyType → KeyType → bool) :=
  order_trans dir a b c : order dir a b = false → order dir b c = false → order dir a c = false.

Lemma tuple_lt_trans a b c : tuple_lt b a = false → tuple_lt c b = false → tuple_lt c a = false.
Proof. unfold tuple_lt. rewrite !bool_decide_eq_false. lia. Qed.

#[export] Instance time_order : MergeOrder TimeOrder.
Proof. intros [] a b c; simpl; intros; by eapply tuple_lt_trans. Qed.
#[export] Instance series_order : MergeOrder SeriesOrder.
Proof. intros [] a b c; simpl; intros; by eapply tuple_lt_trans. Qed.
#[export] Instance merge_join_order : MergeOrder MergeJoinOrder.
Proof. intros [] a b c; simpl; rewrite !bool_decide_eq_false; lia. Qed.

(** ** Points *)

(** An operator that delivers a sequence of points. *)
Definition operates {It V} `{SeriesOperator It V} (P : It → list (Z * V) → Prop) : Prop :=
  ∀ it pts size, P it pts → (0 < size)%nat →
    ∃ N st out it' rest, (∀ fuel, (N ≤ fuel)%nat → so_read fuel size it = Some (st, out, it')) ∧ pts = out ++ rest ∧ P it' rest ∧
      (length out ≤ size)%nat ∧ (st = kOk ∧ out ≠ [] ∧ (rest = [] ∨ length out = size) ∨ st = kNoData ∧ rest = [] ∧ (length out < size)%nat).

Lemma operates_fetches {It V} `{SeriesOperator It V} (P : It → list (Z * V) → Prop) :
  operates P → fetches (λ fuel it, so_read fuel Merge.RANGE_SIZE it) P.
Proof.
  intros HP it xs Hit. destruct (HP it xs Merge.RANGE_SIZE Hit) as (N&st&out&it'&rest&E&Hx&Hit'&_&Hst); [unfold Merge.RANGE_SIZE; lia|].
  exists N, st, out, it', rest. split; [exact E|]. split; [exact Hx|]. split; [exact Hit'|].
  destruct Hst as [(?&?&_)|(?&?&_)]; [by left|by right].
Qed.

Definition sample_key (s : Sample) : KeyType := (sa_timestamp s, sa_paramid s).

(** No sample of [out] comes after a later one. *)
Definition in_order (order : Direction → KeyType → KeyType → bool) (dir : Direction) (out : list Sample) : Prop :=
  StronglySorted (λ a b, order dir a b = false) (sample_key <$> out).

(** The columns are in the order of the merge. *)
Definition column_in_order (order : Direction → KeyType → KeyType → bool) (dir : Direction) (p : Z * list (Z * Z)) : Prop :=
  in_order order dir (Merge.point_sample p.1 <$> p.2).

(** What a merge of columns is. *)
Definition merged {X} (emit : Z → X → Sample) (order : Direction → KeyType → KeyType → bool) (dir : Direction)
    (cols : list (Z * list X)) (out : list Sample) : Prop :=
  in_order order dir out ∧ Forall (λ p, filter (λ s, sa_paramid s = p.1) out = emit p.1 <$> p.2) cols ∧
  Forall (λ s, sa_paramid s ∈ cols.*1) out.

Lemma merges_merged {X} (key : Z → X → KeyType) emit order `{!MergeOrder order} dir cols out rems' :
  (∀ id x, sample_key (emit id x) = key id x) → (∀ id x, sa_paramid (emit id x) = id) →
  merges key emit (order dir) cols out rems' → exhausted rems' → NoDup cols.*1 →
  Forall (λ p, in_order order dir (emit p.1 <$> p.2)) cols → merged emit order dir cols out.
Proof.
  intros Hk Hid Hm Hex Hnd Hs. split; [|split].
  - eapply (merges_sorted key emit (order dir)); [|exact Hk|exact Hm|].
    + intros a b c. apply order_trans.
    + eapply Forall_impl; [exact Hs|]. intros [id xs] Hx. unfold in_order in Hx. unfold sorted_in. cbn [fst snd] in *.
      rewrite <- list_fmap_compose in Hx. erewrite list_fmap_ext; [exact Hx|]. intros i x _. simpl. by rewrite Hk.
  - apply Forall_lookup. intros i [id xs] Hi. cbn [fst snd]. destruct (merges_ids _ _ _ Hid _ _ _ Hm) as [_ Hfst].
    assert (∃ xs', rems' !! i = Some (id, xs')) as [xs' Hi'].
    { assert (Hl : rems'.*1 !! i = Some id) by (rewrite Hfst, list_lookup_fmap, Hi; done).
      rewrite list_lookup_fmap in Hl. destruct (rems' !! i) as [[id' xs']|]; [|done]. simpl in Hl. injection Hl as ->. by exists xs'. }
    rewrite (merges_column key emit (order dir) Hid _ _ _ _ _ _ _ Hm Hnd Hi Hi').
    pose proof (Forall_lookup_1 _ _ _ _ Hex Hi') as Hxs. simpl in Hxs. subst xs'. by rewrite app_nil_r.
  - exact (proj1 (merges_ids key emit (order dir) Hid _ _ _ Hm)).
Qed.
