(* ===== verification/MergeRun.v ===== *)
(** * Merged columns

    The materializers over the k-way merge, from columns of points, of events and
    from the column store; a heap that keeps its promise; and what goes wrong when
    a column is empty. *)
From stdpp Require Import sorting.
From S2P Require Import Prelude Status ByteStream Base128 VByte DataBlock DataBlockProof IOVec Blocks Volume Crc32c BlockStoreProof MemStore Double SubtreeRef Operator Leaf LeafIter Superblock TreeIter TreeRead Extents Content ExtentsProof TreeProof TreeRun Events EventsProof EventsTree ColumnStore ColumnStoreProof Merge MergeProof.

(** ** Sorted lists *)

Lemma sorted_impl {A} (R1 R2 : A → A → Prop) l : (∀ x y, R1 x y → R2 x y) → StronglySorted R1 l → StronglySorted R2 l.
Proof. intros Hr. induction 1; constructor; [done|]. eapply Forall_impl; [done|]. apply Hr. Qed.

Lemma sorted_reverse {A} (R : A → A → Prop) l : StronglySorted (flip R) l → StronglySorted R (reverse l).
Proof.
  induction 1 as [|x l _ IH Hx]; [constructor|]. rewrite reverse_cons. apply StronglySorted_app. split; [|split; [exact IH|repeat constructor]].
  intros y z Hy Hz%list_elem_of_singleton. subst z. rewrite elem_of_reverse in Hy. rewrite Forall_forall in Hx. exact (Hx y Hy).
Qed.

Lemma sorted_fmap {A B} (R : B → B → Prop) (f : A → B) l : StronglySorted (λ x y, R (f x) (f y)) l → StronglySorted R (f <$> l).
Proof. induction 1; constructor; [done|]. by apply Forall_fmap. Qed.

Lemma Forall2_zip {A B} (Q : A → B → Prop) l (ids : list Z) k :
  Forall2 Q l k → length ids = length k → Forall2 (λ x p, Q x p.2) l (zip ids k).
Proof.
  intros Hq. revert ids. induction Hq as [|x y l k Hx _ IH]; intros [|i ids] Hl; try done; constructor; [done|]. apply IH. simpl in Hl. lia.
Qed.

(** ** A heap: a list in the order of insertion *)

Record ListHeap (A : Type) (cmp : A → A → bool) := mkListHeap { lh_items : list A }.
Arguments mkListHeap {A cmp}.
Arguments lh_items {A cmp}.

Section ListHeap.
Context {A : Type} (cmp : A → A → bool).

(** The first of those that come after no other, and the rest. *)
Fixpoint pick (x : A) (l : list A) : A * list A :=
  match l with
  | [] => (x, [])
  | y :: l => if cmp x y then let '(z, l) := pick y l in (z, x :: l) else let '(z, l) := pick x l in (z, y :: l)
  end.

#[export] Instance list_heap : Heap (ListHeap A cmp) A := {
  heap_new := mkListHeap [];
  heap_push x h := mkListHeap (lh_items h ++ [x]);
  heap_top h := match lh_items h with [] => None | x :: l => Some (pick x l).1 end;
  heap_pop h := match lh_items h with [] => h | x :: l => mkListHeap (pick x l).2 end;
}.

Hypothesis cmp_trans : ∀ a b c, cmp a b = false → cmp b c = false → cmp a c = false.
Hypothesis cmp_asym : ∀ a b, cmp a b = true → cmp b a = false.

Lemma pick_perm x l : x :: l ≡ₚ (pick x l).1 :: (pick x l).2.
Proof.
  revert x. induction l as [|y l IH]; intros x; [done|]. cbn [pick]. destruct (cmp x y).
  - specialize (IH y). destruct (pick y l) as [z l']. simpl in *. rewrite IH. apply Permutation_swap.
  - specialize (IH x). destruct (pick x l) as [z l']. simpl in *. rewrite Permutation_swap, IH. apply Permutation_swap.
Qed.

Lemma pick_first x l y : y ∈ x :: l → cmp (pick x l).1 y = false.
Proof.
  assert (Hrefl : ∀ a, cmp a a = false) by (intros a; destruct (cmp a a) eqn:E; [by rewrite <- (cmp_asym _ _ E)|done]).
  revert x y. induction l as [|z l IH]; intros x y Hy; cbn [pick].
  { apply list_elem_of_singleton in Hy as ->. apply Hrefl. }
  destruct (cmp x z) eqn:E.
  - pose proof (IH z) as IHz. destruct (pick z l) as [w l']. simpl in *. apply elem_of_cons in Hy as [->|Hy]; [|by apply IHz].
    apply (cmp_trans _ z); [apply IHz, elem_of_cons; by left|by apply cmp_asym].
  - pose proof (IH x) as IHx. destruct (pick x l) as [w l']. simpl in *. apply elem_of_cons in Hy as [->|Hy]; [apply IHx, elem_of_cons; by left|].
    apply elem_of_cons in Hy as [->|Hy]; [|apply IHx, elem_of_cons; by right].
    apply (cmp_trans _ x); [apply IHx, elem_of_cons; by left|exact E].
Qed.

Lemma list_heap_laws : HeapLaws (ListHeap A cmp) A cmp.
Proof.
  refine {| heap_elems := lh_items |}.
  - done.
  - intros x h. simpl. by rewrite Permutation_app_comm.
  - intros [[|x l]]; simpl; done.
  - intros [[|x l]] y; simpl; [done|]. intros [= <-]. apply pick_perm.
  - intros [[|x l]] z y; simpl; [done|]. intros [= <-]. apply pick_first.
Defined.

End ListHeap.

Lemma tuple_lt_asym a b : tuple_lt a b = true → tuple_lt b a = false.
Proof. unfold tuple_lt. rewrite bool_decide_eq_true, bool_decide_eq_false. lia. Qed.

#[export] Instance time_heap X dir : HeapLaws (ListHeap (HeapItem X) (item_cmp (TimeOrder dir))) (HeapItem X) (item_cmp (TimeOrder dir)).
Proof.
  apply list_heap_laws; unfold item_cmp.
  - intros a b c. apply order_trans.
  - destruct dir; intros a b; apply tuple_lt_asym.
Defined.

(** ** Columns of points *)

Section Points.
Context {It HF HB : Type} `{SeriesOperator It Z, Heap HF (HeapItem (Z * Z)), Heap HB (HeapItem (Z * Z))}.
Context (order : Direction → KeyType → KeyType → bool) `{!MergeOrder order}.
Context `{!HeapLaws HF (HeapItem (Z * Z)) (item_cmp (order FORWARD)), !HeapLaws HB (HeapItem (Z * Z)) (item_cmp (order BACKWARD))}.

Lemma merge_points (P : It → list (Z * Z) → Prop) iters cols dir size :
  operates P → Forall2 (λ it p, P it p.2 ∧ p.2 ≠ []) iters cols → (∀ it, head iters = Some it → so_direction it = dir) →
  NoDup cols.*1 → Forall (column_in_order order dir) cols → SAMPLE_SIZE ≤ size → iters ≠ [] →
  ∃ m N out, Merge.make cols.*1 iters = Some m ∧
    (∀ n fuel, (total cols < n)%nat → (N ≤ fuel)%nat → cm_drain (Merge.read HF HB fuel fuel size) n m = Some (out, kNoData)) ∧
    merged Merge.point_sample order dir cols out.
Proof.
  intros HP Hall Hdir Hnd Hs Hsz Hne. pose proof (operates_fetches P HP) as HPf.
  set (fwd := bool_decide (dir = FORWARD)). set (m := mkMerge iters cols.*1 fwd [] : MergeState It (Z * Z)).
  assert (Hmake : Merge.make cols.*1 iters = Some m).
  { unfold Merge.make. rewrite decide_True by (by rewrite length_fmap; eapply Forall2_length).
    destruct iters as [|it iters]; [done|]. by rewrite (Hdir it eq_refl). }
  assert (Hmg : merging P cols.*1 fwd cols m).
  { split; [done|]. split; [done|]. right. left. split; [done|]. clear - Hall. cbn [mm_iters m].
    induction Hall as [|it p iters cols Hit _ IH]; constructor; [|exact IH]. split; [done|exact Hit]. }
  assert (Hfit : Forall (fits Merge.point_sample size) cols).
  { apply Forall_forall. intros p _. apply Forall_forall. by intros x _. }
  assert (Hfin : ∀ (cmp := order dir) out rems', merges Merge.point_key Merge.point_sample cmp cols out rems' → exhausted rems' →
    merged Merge.point_sample order dir cols out) by (intros cmp out rems' Hm Hex; by eapply merges_merged).
  destruct dir.
  - destruct (merge_drain (H := HF) _ Merge.point_key Merge.point_sample (order FORWARD) P HPf size cols.*1 fwd cols m Hmg Hfit) as (N&out&rems'&E&Hm&Hex).
    exists m, N, out. split; [exact Hmake|]. split; [|by eapply Hfin]. intros n fuel Hn Hf. rewrite <- (E n fuel Hn Hf).
    apply (cm_drain_ext (λ m, mm_forward m = true)); [|intros ? ? ? ? Hm1 E1|done].
    + intros m1 Hm1. unfold Merge.read. by rewrite Hm1.
    + unfold Merge.read in E1. rewrite Hm1 in E1. by rewrite (kway_forward _ _ _ _ _ _ _ _ _ _ E1).
  - destruct (merge_drain (H := HB) _ Merge.point_key Merge.point_sample (order BACKWARD) P HPf size cols.*1 fwd cols m Hmg Hfit) as (N&out&rems'&E&Hm&Hex).
    exists m, N, out. split; [exact Hmake|]. split; [|by eapply Hfin]. intros n fuel Hn Hf. rewrite <- (E n fuel Hn Hf).
    apply (cm_drain_ext (λ m, mm_forward m = false)); [|intros ? ? ? ? Hm1 E1|done].
    + intros m1 Hm1. unfold Merge.read. by rewrite Hm1.
    + unfold Merge.read in E1. rewrite Hm1 in E1. by rewrite (kway_forward _ _ _ _ _ _ _ _ _ _ E1).
Qed.

End Points.

(** ** Columns of the store *)

Section Store.
Context {B : Type} `{BlockStore B} (impl : crc32c_impl_t) (at_ : Z) (s : B).

(** The operators of the tree implement the interface. *)
Definition tree_operator : SeriesOperator RealValuedOperator Z := {|
  so_read := SBlock.read impl at_ s;
  so_direction := op_direction;
|}.

Definition delivers (op : RealValuedOperator) (pts : list (Z * Z)) : Prop := ∃ P, reads impl at_ s P ∧ P op pts.

Lemma tree_operates : operates (H := tree_operator) delivers.
Proof.
  intros op pts size (P&HP&Hop) Hsz. destruct (HP op pts size Hop Hsz) as (N&[[st out] op']&E&rest&Hpts&Hl&Hop'&Hst).
  exists N, st, out, op', rest. split; [exact E|]. split; [exact Hpts|]. split; [by exists P|]. split; [exact Hl|exact Hst].
Qed.

End Store.

Lemma select_in_order f b e id pts : ts_sorted pts → column_in_order TimeOrder (direction b e) (id, select f b e pts).
Proof.
  intros Hs. assert (Hr : StronglySorted (λ x y : point, TimeOrder (direction b e) (x.1, id) (y.1, id) = false) (range_points b e pts)).
  { unfold range_points, direction, ts_sorted in *. case_decide.
    - eapply sorted_sublist; [apply sublist_filter|]. eapply sorted_impl; [|exact Hs].
      intros x y Hxy. unfold TimeOrder, tuple_lt. apply bool_decide_eq_false. simpl in *. lia.
    - apply sorted_reverse. eapply sorted_sublist; [apply sublist_filter|]. eapply sorted_impl; [|exact Hs].
      intros x y Hxy. unfold TimeOrder, tuple_lt, flip. apply bool_decide_eq_false. simpl in *. lia. }
  unfold column_in_order, in_order. cbn [fst snd]. rewrite <- list_fmap_compose. apply sorted_fmap.
  destruct f as [f|]; [|exact Hr]. simpl. eapply sorted_sublist; [apply sublist_filter|exact Hr].
Qed.

(** ** A scan of a store *)

(** What is there of a series: all its points while the store keeps its blocks. *)
Definition visible {B} `{BlockStore B} (m : gmap Z (list (Z * Z))) (hist : gmap Z (list Z)) (s : B) (id : Z) (vis : list (Z * Z)) : Prop :=
  ∃ pts, m !! id = Some pts ∧ sublist vis pts ∧ ((∀ a, is_Some (hist !! a) → bs_exists a s = true) → vis = pts).

(** After any operations, a scan gives an operator for each series that delivers
    the visible points in the range. *)
Lemma scan_delivers {B} `{BlockStoreLaws B} impl `{!Crc32cImpl impl} at_ os nsessions ids b e rounds fuel (s : B) hist k :
  Forall (op_ok nsessions) os → Z.of_nat (length os) ≤ 2 ^ 60 → bs_inv (418 * length os + k) s hist → (31 ≤ fuel)%nat →
  let m := (spec_run os ∅).2 in
  Forall (query_ok true m (λ _, None) b e) ids → known m ids = ids →
  ∃ rs w (hist' : gmap Z (list Z)) ops viss, store_run impl at_ rounds fuel os (new_world nsessions s) = Some (rs, w) ∧
    Forall2 agrees (spec_run os ∅).1 rs ∧ bs_inv k (w_blocks w) hist' ∧
    CStore.scan impl at_ rounds fuel ids b e (w_store w) (w_blocks w) = Some (kOk, ops, w_store w, w_blocks w) ∧
    Forall2 (visible m hist' (w_blocks w)) ids viss ∧ Forall ts_sorted viss ∧
    Forall2 (λ op vis, delivers impl (at_ 0%nat) (w_blocks w) op (range_points b e vis) ∧ (vis ≠ [] → op_direction op = direction b e)) ops viss.
Proof.
  intros Ho Hlen Hs Hfuel m Hq Hknown. pose proof (new_world_ok _ _ _ nsessions Hs) as Hw.
  assert (Ho' : Forall (op_ok (length (w_sessions (new_world nsessions s)))) os) by (simpl; by rewrite length_replicate).
  destruct (run_ok impl at_ rounds fuel Hfuel true os k 0 hist _ ∅ Hw Ho' ltac:(lia) ltac:(lia)) as (rs&w&hist'&E&Hag&_&Hw').
  destruct (iterate_ok impl at_ true rounds fuel k _ hist' w m Hw'
    (λ elist, op ← Tree.search b e None elist; Some (kOk, Some op)) (λ _, None) b e ids [] Hq ltac:(done)) as (ops&Es&Hops).
  rewrite decide_True in Es by exact Hknown. rewrite Hknown in Hops.
  assert (∃ viss, Forall2 (visible m hist' (w_blocks w)) ids viss ∧ Forall ts_sorted viss ∧
    Forall2 (λ op vis, delivers impl (at_ 0%nat) (w_blocks w) op (range_points b e vis) ∧ (vis ≠ [] → op_direction op = direction b e)) ops viss)
    as (viss&Hvis).
  { clear - Hops. induction Hops as [|id op ids ops (pts&vis&P&Em&Hsub&Hs&Hv&HP&Hop&Hd) _ (viss&H1&H2&H3)]; [by exists []|].
    exists (vis :: viss). split; [|split]; constructor; try done; [by exists pts|]. split; [by exists P|].
    intros Hvne. apply Hd. intros ->. by apply sublist_nil_r in Hsub. }
  exists rs, w, hist', ops, viss. split_and!; [exact E|exact Hag|exact (proj2 (proj2 Hw'))|exact Es|apply Hvis|apply Hvis|apply Hvis].
Qed.

(** The columns of a scan are in the order of time. *)
Lemma scan_in_order b e ids (viss : list (list (Z * Z))) : Forall ts_sorted viss →
  Forall (column_in_order TimeOrder (direction b e)) (zip ids (range_points b e <$> viss)).
Proof.
  intros Hsort. revert ids. induction Hsort as [|vis viss Hv _ IH]; intros [|id ids]; try constructor; [|apply IH].
  exact (select_in_order None b e id vis Hv).
Qed.

(** ** Properties *)

(** C13: a merge of columns that are not empty is complete and in order.  Whatever
    operators deliver the columns, in whatever portions, and whatever heap keeps its promise, the
    samples that [MergeMaterializer] writes into buffers of any size of at least
    one sample are in the order of the comparator and, for each series, exactly
    its points in their order; then comes [NoData].  Each column must have a point
    (see [merge_empty_column]). *)
Theorem merge_materializer {It HF HB} `{SeriesOperator It Z, Heap HF (HeapItem (Z * Z)), Heap HB (HeapItem (Z * Z))}
    order `{!MergeOrder order, !HeapLaws HF (HeapItem (Z * Z)) (item_cmp (order FORWARD)),
            !HeapLaws HB (HeapItem (Z * Z)) (item_cmp (order BACKWARD))}
    (P : It → list (Z * Z) → Prop) iters cols dir size :
  operates P → Forall2 (λ it p, P it p.2 ∧ p.2 ≠ []) iters cols → (∀ it, head iters = Some it → so_direction it = dir) →
  NoDup cols.*1 → Forall (column_in_order order dir) cols → SAMPLE_SIZE ≤ size → iters ≠ [] →
  ∃ m N out, Merge.make cols.*1 iters = Some m ∧
    (∀ n fuel, (total cols < n)%nat → (N ≤ fuel)%nat → cm_drain (Merge.read HF HB fuel fuel size) n m = Some (out, kNoData)) ∧
    merged Merge.point_sample order dir cols out.
Proof. exact (merge_points order P iters cols dir size). Qed.

(** C8: a query over several series returns their points in the order of time.
    After any operations on a new column store, a scan of known series whose
    operators go into a [MergeMaterializer] in time order delivers, in buffers of
    any size of at least one sample, the points in the range of all the series
    ordered by timestamp and series (backward for a backward range), each series
    whole as long as the store keeps its blocks.  Each series must have a point in
    the range: with one that has none the merge loses and mislabels points
    ([merge_empty_column]). *)
Theorem column_store_merged_scan {B HF HB} `{BlockStoreLaws B, Heap HF (HeapItem (Z * Z)), Heap HB (HeapItem (Z * Z))}
    `{!HeapLaws HF (HeapItem (Z * Z)) (item_cmp (TimeOrder FORWARD)), !HeapLaws HB (HeapItem (Z * Z)) (item_cmp (TimeOrder BACKWARD))}
    impl `{!Crc32cImpl impl} at_ os nsessions ids b e size rounds fuel (s : B) hist k :
  Forall (op_ok nsessions) os → Z.of_nat (length os) ≤ 2 ^ 60 → bs_inv (418 * length os + k) s hist → (31 ≤ fuel)%nat →
  let m := (spec_run os ∅).2 in
  Forall (query_ok true m (λ _, None) b e) ids → known m ids = ids → ids ≠ [] → NoDup ids → SAMPLE_SIZE ≤ size →
  ∃ rs w (hist' : gmap Z (list Z)) ops viss, store_run impl at_ rounds fuel os (new_world nsessions s) = Some (rs, w) ∧
    Forall2 agrees (spec_run os ∅).1 rs ∧ bs_inv k (w_blocks w) hist' ∧
    CStore.scan impl at_ rounds fuel ids b e (w_store w) (w_blocks w) = Some (kOk, ops, w_store w, w_blocks w) ∧
    Forall2 (visible m hist' (w_blocks w)) ids viss ∧
    (Forall (λ vis, range_points b e vis ≠ []) viss →
      ∃ mm N out, Merge.make (H := tree_operator impl (at_ 0%nat) (w_blocks w)) ids ops = Some mm ∧
        (∀ n fuel', (total (zip ids (range_points b e <$> viss)) < n)%nat → (N ≤ fuel')%nat →
          cm_drain (Merge.read (H := tree_operator impl (at_ 0%nat) (w_blocks w)) HF HB fuel' fuel' size) n mm = Some (out, kNoData)) ∧
        merged Merge.point_sample TimeOrder (direction b e) (zip ids (range_points b e <$> viss)) out).
Proof.
  intros Ho Hlen Hs Hfuel m Hq Hknown Hne Hnd Hsz.
  destruct (scan_delivers impl at_ os nsessions ids b e rounds fuel s hist k Ho Hlen Hs Hfuel Hq Hknown)
    as (rs&w&hist'&ops&viss&E&Hag&Hi&Es&Hvis&Hsort&Hdel).
  exists rs, w, hist', ops, viss. split; [exact E|]. split; [exact Hag|]. split; [exact Hi|]. split; [exact Es|]. split; [exact Hvis|]. intros Hpts.
  assert (Hl : length ids = length (range_points b e <$> viss)) by (rewrite length_fmap; by eapply Forall2_length).
  set (cols := zip ids (range_points b e <$> viss)).
  assert (Hfst : cols.*1 = ids) by (apply fst_zip; lia). rewrite <- Hfst in Hnd.
  assert (Hmk : Merge.make (H := tree_operator impl (at_ 0%nat) (w_blocks w)) ids ops
    = Merge.make (H := tree_operator impl (at_ 0%nat) (w_blocks w)) cols.*1 ops) by (by rewrite Hfst). rewrite Hmk.
  apply (merge_points (H := tree_operator impl (at_ 0%nat) (w_blocks w)) TimeOrder (delivers impl (at_ 0%nat) (w_blocks w))); try done.
  - apply tree_operates.
  - apply (Forall2_zip (λ op pts, delivers impl (at_ 0%nat) (w_blocks w) op pts ∧ pts ≠ [])); [|exact Hl]. clear - Hdel Hpts. induction Hdel as [|op vis ops viss [Hd _] _ IH]; [constructor|].
    apply Forall_cons in Hpts as [Hp Hps]. constructor; [done|by apply IH].
  - intros op Hop. clear - Hop Hdel Hpts. destruct Hdel as [|op' vis ops viss [_ Hd] _]; [done|]. injection Hop as <-. apply Hd.
    apply Forall_cons in Hpts as [Hp _]. intros ->. apply Hp. apply range_nil.
  - by apply scan_in_order.
  - intros ->. apply Forall2_nil_inv_l in Hdel as ->. by apply Forall2_nil_inv_r in Hvis.
Qed.

(** ** Witnesses *)

(** Operators for small examples: lists. *)
Definition list_operator : SeriesOperator (list (Z * Z)) Z := {|
  so_read _ size l := if decide (l = []) then Some (kNoData, [], []) else Some (kOk, take size l, drop size l);
  so_direction _ := FORWARD;
|}.

#[local] Existing Instance list_operator.

Lemma list_operates : operates (λ l pts, l = pts).
Proof.
  intros l pts size -> Hsz. cbn [so_read list_operator]. destruct (decide (pts = [])) as [->|Hne].
  - exists 0%nat, kNoData, [], [], []. split_and!; [done..|simpl; lia|right; split_and!; [done..|simpl; lia]].
  - exists 0%nat, kOk, (take size pts), (drop size pts), (drop size pts). split; [done|]. split; [by rewrite take_drop|]. split; [done|].
    split; [rewrite length_take; lia|]. left. split; [done|]. split; [destruct pts, size; try done; lia|].
    destruct (decide (size ≤ length pts)%nat); [right; rewrite length_take; lia|left; apply drop_ge; lia].
Qed.

Notation TimeHeap dir := (ListHeap (HeapItem (Z * Z)) (item_cmp (TimeOrder dir))).

Definition sample_cols : list (Z * list (Z * Z)) := [(7, [(1, 100); (3, 101); (3, 102)]); (5, [(1, 200); (2, 201); (4, 202)])].

Lemma merge_materializer_witness :
  ∃ m N out, Merge.make [7; 5] [[(1, 100); (3, 101); (3, 102)]; [(1, 200); (2, 201); (4, 202)]] = Some m ∧
    (∀ n fuel, (6 < n)%nat → (N ≤ fuel)%nat →
      cm_drain (Merge.read (TimeHeap FORWARD) (TimeHeap BACKWARD) fuel fuel 70) n m = Some (out, kNoData)) ∧
    merged Merge.point_sample TimeOrder FORWARD sample_cols out.
Proof.
  apply (merge_materializer (HF := TimeHeap FORWARD) (HB := TimeHeap BACKWARD) TimeOrder (λ l pts, l = pts) _ sample_cols FORWARD 70).
  - exact list_operates.
  - repeat constructor; done.
  - done.
  - apply (bool_decide_unpack _). by_compute.
  - repeat constructor; by_compute.
  - by_compute.
  - done.
Defined.

(** Runs, computed. *)
Definition triple (s : Sample) : Z * Z * Z := (sa_timestamp s, sa_paramid s, sa_float64 s).

Definition merge_run `{SeriesOperator (list (Z * Z)) Z} (n : nat) (size : Z) (cols : list (Z * list (Z * Z))) : option (list (Z * Z * Z) * Status) :=
  match Merge.make cols.*1 cols.*2 with
  | None => None
  | Some m =>
    match cm_drain (Merge.read (TimeHeap FORWARD) (TimeHeap BACKWARD) n n size) n m with
    | None => None
    | Some (out, st) => Some (triple <$> out, st)
    end
  end.

Lemma merge_run_ok :
  merge_run 10 70 sample_cols = Some ([(1, 5, 200); (1, 7, 100); (2, 5, 201); (3, 7, 101); (3, 7, 102); (4, 5, 202)], kNoData).
Proof. vm_compute. reflexivity. Qed.

Lemma column_store_merged_scan_witness :
  ∃ rs w ops (viss : list (list (Z * Z))), store_run crc32c_sw (λ _, 0) 1 31 sample_ops (new_world 2 (Mem.make false false)) = Some (rs, w) ∧
    CStore.scan crc32c_sw (λ _, 0) 1 31 [2; 1] 0 100 (w_store w) (w_blocks w) = Some (kOk, ops, w_store w, w_blocks w) ∧
    length viss = 2%nat.
Proof.
  destruct (column_store_merged_scan (B := MemStore) (HF := TimeHeap FORWARD) (HB := TimeHeap BACKWARD) crc32c_sw (λ _, 0)
    sample_ops 2 [2; 1] 0 100 64 1 31 (Mem.make false false) ∅ 0) as (rs&w&hist'&ops&viss&E&_&_&Es&Hvis&_).
  - repeat constructor; by_compute.
  - by_compute.
  - split; [apply mem_make_inv; by_compute|done].
  - lia.
  - apply Forall_forall. intros id _. split; [exact I|]. right. unfold everything, TS_MAX. lia.
  - vm_compute. reflexivity.
  - done.
  - apply (bool_decide_unpack _). by_compute.
  - by_compute.
  - exists rs, w, ops, viss. split; [exact E|]. split; [exact Es|]. by apply Forall2_length in Hvis.
Defined.

(** ** An empty column *)

(** A column that has nothing gets no range, so the ranges after it are refilled
    from the operators before theirs.  Here a read returns one point; the
    operators of the tree return 1024, and the same happens after them.  With an
    empty column in front, the second point of series 1 comes out as a point of
    series 2, whose own second point is lost. *)
Definition slow_operator : SeriesOperator (list (Z * Z)) Z := {|
  so_read _ _ l := match l with [] => Some (kNoData, [], []) | x :: l => Some (kOk, [x], l) end;
  so_direction _ := FORWARD;
|}.

Lemma merge_empty_column :
  merge_run (H := slow_operator) 10 320 [(0, []); (1, [(1, 100); (4, 101)]); (2, [(2, 200); (5, 201)])]
  = Some ([(1, 1, 100); (2, 2, 200); (4, 2, 101)], kNoData).
Proof. vm_compute. reflexivity. Qed.
