(* ===== verification/Materialize.v ===== *)
(** * Other materializers (operators/scan.cc, operators/join.cc)

    [ChainMaterializer] and [EventChainMaterializer] deliver the columns one after
    the other, [JoinConcatMaterializer] other materializers;
    [JoinMaterializer] makes tuples of the values of several series at the same
    time. *)
From S2P Require Import Prelude Status ByteStream DataBlock Volume Crc32c BlockStoreProof MemStore Double SubtreeRef Operator Leaf LeafIter Superblock TreeIter TreeRead Extents Events ColumnStore Merge.

(** ** Chains of columns *)

Record ChainMaterializer (It : Type) := mkChain { ch_iters : list It; ch_ids : list Z; ch_pos : nat }.
Arguments mkChain {It}.
Arguments ch_iters {It}.
Arguments ch_ids {It}.
Arguments ch_pos {It}.

Module Chain.
Section Chain.
Context {It V : Type} `{SeriesOperator It V}.

(** The sample of a value of a series. *)
Variable emit : Z → Z * V → Sample.

Definition make (ids : list Z) (iters : list It) : ChainMaterializer It := mkChain iters ids 0.

(** [while(pos_ < iters_.size())], the same in [ChainMaterializer] and in
    [SeriesOrderAggregateMaterializer]; the samples are made from the values read
    at the end.  [rounds] is the number of columns left, [size]
    the room in samples. *)
Fixpoint read_loop (rounds fuel size : nat) (status : Status) (out : list Sample) (m : ChainMaterializer It)
    : option (Status * list Sample * ChainMaterializer It) :=
  match rounds with
  | O => Some (status, out, m)
  | S rounds =>
    curr ← ch_ids m !! ch_pos m;
    it ← ch_iters m !! ch_pos m;
    '(status, pts, it) ← so_read fuel size it;
    let out := out ++ (emit curr <$> pts) in
    let iters := <[ch_pos m := it]> (ch_iters m) in
    if decide (size - length pts = 0)%nat then Some (status, out, mkChain iters (ch_ids m) (ch_pos m)) else
    let m := mkChain iters (ch_ids m) (ch_pos m + 1) in
    if decide (status = kOk ∨ status = kNoData) then read_loop rounds fuel (size - length pts) status out m
    else Some (status, out, m)
  end.

(** A whole call with room for [size] samples. *)
Definition read_n (fuel size : nat) (m : ChainMaterializer It) : option (Status * list Sample * ChainMaterializer It) :=
  read_loop (length (ch_iters m) - ch_pos m) fuel size kNoData [] m.

End Chain.

(** [ChainMaterializer::read]. *)
Definition read {It} `{SeriesOperator It Z} (fuel : nat) (dest_size : Z) (m : ChainMaterializer It)
    : option (Status * list Sample * ChainMaterializer It) :=
  read_n Merge.point_sample fuel (Z.to_nat (dest_size / SAMPLE_SIZE)) m.
End Chain.

(** ** Chains of event columns *)

(** [ec_curr] is [curr_ts_], [curr_] and [curr_id_] when [available_] is set. *)
Record EventChainMaterializer (It : Type) := mkEvChain {
  ec_iters : list It;
  ec_ids : list Z;
  ec_pos : nat;
  ec_curr : option (Z * list Z * Z);
}.
Arguments mkEvChain {It}.
Arguments ec_iters {It}.
Arguments ec_ids {It}.
Arguments ec_pos {It}.
Arguments ec_curr {It}.

Module EventChain.
Section EventChain.
Context {It : Type} `{SeriesOperator It (list Z)}.

Definition make (ids : list Z) (iters : list It) : EventChainMaterializer It := mkEvChain iters ids 0 None.

(** Writing the current event, when there is room. *)
Definition event_sample (ev : Z * list Z * Z) : Sample :=
  mkSample ev.1.1 ev.2 PAYLOAD_EVENT (u16 (SAMPLE_SIZE + Z.of_nat (length ev.1.2))) 0 ev.1.2.
Definition space_needed (ev : Z * list Z * Z) : Z := u32 (SAMPLE_SIZE + Z.of_nat (length ev.1.2)).

(** A round fetches an event, moves on to the next column, or writes an event. *)
Fixpoint read_loop (rounds fuel : nat) (dest_size : Z) (status : Status) (out : list Sample) (m : EventChainMaterializer It)
    : option (Status * list Sample * EventChainMaterializer It) :=
  match rounds with
  | O => None
  | S rounds =>
    if decide (length (ec_iters m) ≤ ec_pos m)%nat then Some (status, out, m) else
    match ec_curr m with
    | Some ev =>
      if decide (dest_size < space_needed ev) then Some (status, out, m) else
      read_loop rounds fuel (dest_size - space_needed ev) status (out ++ [event_sample ev])
        (mkEvChain (ec_iters m) (ec_ids m) (ec_pos m) None)
    | None =>
      id ← ec_ids m !! ec_pos m;
      it ← ec_iters m !! ec_pos m;
      '(status, evs, it) ← so_read fuel 1 it;
      let iters := <[ec_pos m := it]> (ec_iters m) in
      match evs with
      | [] => read_loop rounds fuel dest_size status out (mkEvChain iters (ec_ids m) (ec_pos m + 1) None)
      | ev :: _ =>
        if decide (status = kNoData ∨ status = kOk) then
          read_loop rounds fuel dest_size status out (mkEvChain iters (ec_ids m) (ec_pos m) (Some (ev.1, ev.2, id)))
        else Some (status, out, mkEvChain iters (ec_ids m) (ec_pos m) None)
      end
    end
  end.

Definition read (rounds fuel : nat) (dest_size : Z) (m : EventChainMaterializer It)
    : option (Status * list Sample * EventChainMaterializer It) :=
  read_loop rounds fuel dest_size kNoData [] m.

End EventChain.
End EventChain.

(** ** Chains of materializers *)

Record JoinConcatMaterializer (M : Type) := mkConcat { jc_iters : list M; jc_ix : nat }.
Arguments mkConcat {M}.
Arguments jc_iters {M}.
Arguments jc_ix {M}.

Module JoinConcat.
Section JoinConcat.
Context {M : Type} `{ColumnMaterializer M}.

Definition make (iters : list M) : JoinConcatMaterializer M := mkConcat iters 0.

(** [while(true)]: a round per materializer that has nothing. *)
Fixpoint read_loop (rounds fuel : nat) (size : Z) (m : JoinConcatMaterializer M)
    : option (Status * list Sample * JoinConcatMaterializer M) :=
  match rounds with
  | O => None
  | S rounds =>
    if decide (length (jc_iters m) ≤ jc_ix m)%nat then Some (kNoData, [], m) else
    it ← jc_iters m !! jc_ix m;
    '(status, out, it) ← cm_read fuel size it;
    let iters := <[jc_ix m := it]> (jc_iters m) in
    if decide (status = kNoData) then
      let m := mkConcat iters (jc_ix m + 1) in
      if decide (out = []) then read_loop rounds fuel size m
      else Some (if decide (jc_ix m = length iters) then kNoData else kOk, out, m)
    else Some (status, out, mkConcat iters (jc_ix m))
  end.

Definition read (fuel : nat) (size : Z) (m : JoinConcatMaterializer M) : option (Status * list Sample * JoinConcatMaterializer M) :=
  read_loop (S (length (jc_iters m))) fuel size m.

End JoinConcat.
End JoinConcat.

(** ** Tuples *)

(** [jm_buffer] are the samples from [buffer_pos_] to [buffer_size_]; each has
    [sizeof(Sample)] bytes. *)
Record JoinMaterializer (It : Type) := mkJoin {
  jm_merge : MergeState It (Z * Z);
  jm_orig_ids : list Z;
  jm_id : Z;
  jm_curr : Z;
  jm_buffer : list Sample;
}.
Arguments mkJoin {It}.
Arguments jm_merge {It}.
Arguments jm_orig_ids {It}.
Arguments jm_id {It}.
Arguments jm_curr {It}.
Arguments jm_buffer {It}.

Module Join.
Section Join.
Context {It HF HB : Type} `{SeriesOperator It Z, Heap HF (HeapItem (Z * Z)), Heap HB (HeapItem (Z * Z))}.

Definition BUFFER_SIZE : Z := 0x1000.

Definition make (ids : list Z) (iters : list It) (id : Z) : option (JoinMaterializer It) :=
  merge ← Merge.make ids iters; Some (mkJoin merge ids id 0 []).

(** [max_ssize_]. *)
Definition max_ssize (m : JoinMaterializer It) : Z := u32 (SAMPLE_SIZE + 8 * Z.of_nat (length (jm_orig_ids m))).

Definition fill_buffer (fuel : nat) (m : JoinMaterializer It) : option (Status * JoinMaterializer It) :=
  '(status, out, merge) ← Merge.read HF HB fuel fuel (BUFFER_SIZE - SAMPLE_SIZE * Z.of_nat (length (jm_buffer m))) (jm_merge m);
  let more := if decide (status = kOk ∨ status = kNoData) then out else [] in
  Some (status, mkJoin merge (jm_orig_ids m) (jm_id m) (jm_curr m) (jm_buffer m ++ more)).

(** How the loop over the ids ends: with a tuple, or with the end of [read]. *)
Inductive outcome := Tuple (ctrl : Z) (values : list Z) | Stop (status : Status).

(** [for (i = 0; i < orig_ids_.size(); i++)]. *)
Fixpoint build (fuel i : nat) (ids : list Z) (ctrl : Z) (values : list Z) (m : JoinMaterializer It)
    : option (outcome * JoinMaterializer It) :=
  match ids with
  | [] => Some (Tuple ctrl values, m)
  | id :: ids =>
    '(stop, m) ←
      (if decide (jm_buffer m = []) then
         '(status, m) ← fill_buffer fuel m;
         Some (if decide (status ≠ kOk ∧ status ≠ kNoData) then Some status
               else if decide (jm_buffer m = []) then Some kNoData else None, m)
       else Some (None, m));
    match stop with
    | Some status => Some (Stop status, m)
    | None =>
      src ← head (jm_buffer m);
      if decide (sa_paramid src ≠ id) then build fuel (i + 1) ids ctrl values m else
      if decide (values ≠ [] ∧ jm_curr m ≠ sa_timestamp src) then Some (Tuple ctrl values, m) else
      let curr := if decide (values = []) then sa_timestamp src else jm_curr m in
      build fuel (i + 1) ids (Z.lor ctrl (u64 (Z.shiftl 1 (Z.of_nat i)))) (values ++ [sa_float64 src])
        (mkJoin (jm_merge m) (jm_orig_ids m) (jm_id m) curr (tail (jm_buffer m)))
    end
  end.

(** [while (pos < (size - max_ssize_))]; the difference is unsigned. *)
Fixpoint read_loop (rounds fuel : nat) (size pos : Z) (out : list Sample) (m : JoinMaterializer It)
    : option (Status * list Sample * JoinMaterializer It) :=
  match rounds with
  | O => None
  | S rounds =>
    if decide (u64 (size - max_ssize m) ≤ pos) then Some (kOk, out, m) else
    '(res, m) ← build fuel 0 (jm_orig_ids m) 0 [] m;
    match res with
    | Stop status => Some (status, if decide (status = kNoData) then out else [], m)
    | Tuple ctrl values =>
      let outsize := SAMPLE_SIZE + 8 * Z.of_nat (length values) in
      let ctrl := Z.lor ctrl (u64 (Z.shiftl (Z.of_nat (length (jm_orig_ids m))) 58)) in
      read_loop rounds fuel size (pos + outsize)
        (out ++ [mkSample (jm_curr m) (jm_id m) PAYLOAD_TUPLE (u16 outsize) ctrl values]) m
    end
  end.

Definition read (rounds fuel : nat) (size : Z) (m : JoinMaterializer It) : option (Status * list Sample * JoinMaterializer It) :=
  read_loop rounds fuel size 0 [] m.

End Join.
End Join.
