(* ===== verification/MaterializeProof.v ===== *)
(** * Chains deliver their columns one after the other *)
From S2P Require Import Prelude Status ByteStream DataBlock Volume Crc32c BlockStoreProof MemStore Double SubtreeRef Operator Leaf LeafIter Superblock TreeIter TreeRead Extents Events ColumnStore Merge MergeProof MergeRun Materialize.

(** What a call of a materializer may return. *)
Definition portion {M} (Q : M → list Sample → Prop) (ss : list Sample) (r : Status * list Sample * M) : Prop :=
  let '(st, out, m) := r in ∃ rest, ss = out ++ rest ∧ Q m rest ∧ (st = kOk ∧ out ≠ [] ∨ st = kNoData ∧ rest = []).

(** A materializer that delivers a sequence of samples. *)
Definition materializes {M} (rd : nat → M → option (Status * list Sample * M)) (Q : M → list Sample → Prop) : Prop :=
  ∀ m ss, Q m ss → ∃ N r, (∀ fuel, (N ≤ fuel)%nat → rd fuel m = Some r) ∧ portion Q ss r.

Lemma materializes_drain {M} (rd : nat → M → option (Status * list Sample * M)) Q m ss :
  materializes rd Q → Q m ss → ∃ N, ∀ n fuel, (length ss < n)%nat → (N ≤ fuel)%nat → cm_drain (rd fuel) n m = Some (ss, kNoData).
Proof.
  intros HQ. remember (length ss) as k eqn:Hk. revert m ss Hk. induction k as [k IH] using lt_wf_ind. intros m ss -> Hm.
  destruct (HQ m ss Hm) as (N1&[[st out] m']&E&rest&->&Hm'&[[-> Hne]|[-> ->]]).
  - assert (0 < length out)%nat by (destruct out; [done|simpl; lia]).
    destruct (IH (length rest) ltac:(rewrite length_app; lia) m' rest eq_refl Hm') as (N2&E2). exists (N1 + N2)%nat.
    intros [|n] fuel Hn Hf; [lia|]. rewrite length_app in Hn. cbn [cm_drain]. rewrite E by lia. cbn [mbind option_bind].
    rewrite decide_False by (intros Hx; by apply Hx). by rewrite E2 by lia.
  - exists N1. intros [|n] fuel Hn Hf; [lia|]. cbn [cm_drain]. rewrite E by lia. cbn [mbind option_bind]. rewrite app_nil_r.
    by rewrite decide_True.
Qed.

(** ** Columns of points *)

Section Chain.
Context {It V : Type} `{SeriesOperator It V} (emit : Z → Z * V → Sample).
Variable P : It → list (Z * V) → Prop.
Hypothesis HP : operates P.

(** The samples of columns, one column after the other. *)
Definition chained (cols : list (Z * list (Z * V))) : list Sample := cols ≫= λ p, emit p.1 <$> p.2.

Definition column_at (it : It) (id : Z) (p : Z * list (Z * V)) : Prop := p.1 = id ∧ P it p.2.

Definition chain_has (m : ChainMaterializer It) (ss : list Sample) : Prop :=
  ∃ cols, Forall3 column_at (drop (ch_pos m) (ch_iters m)) (drop (ch_pos m) (ch_ids m)) cols ∧ ss = chained cols.

Lemma drop_cons_inv {A} n (l : list A) x k : drop n l = x :: k → l !! n = Some x ∧ drop (n + 1) l = k.
Proof.
  intros E. assert (Hx : l !! n = Some x) by (rewrite <- (Nat.add_0_r n), <- lookup_drop, E; done).
  split; [exact Hx|]. rewrite (drop_S _ _ _ Hx) in E. rewrite Nat.add_1_r. by injection E.
Qed.

Lemma ch_loop_ok cols m size status out :
  Forall3 column_at (drop (ch_pos m) (ch_iters m)) (drop (ch_pos m) (ch_ids m)) cols → (0 < size)%nat →
  (status = kNoData ∨ status = kOk ∧ out ≠ []) →
  ∃ N st more m', (∀ fuel, (N ≤ fuel)%nat → Chain.read_loop emit (length cols) fuel size status out m = Some (st, out ++ more, m')) ∧
    ∃ rest, chained cols = more ++ rest ∧ chain_has m' rest ∧ (st = kOk ∧ out ++ more ≠ [] ∨ st = kNoData ∧ rest = []).
Proof.
  revert m size status out. induction cols as [|[id pts] cols IH]; intros m size status out Hall Hsz Hst.
  { exists 0%nat, status, [], m. rewrite app_nil_r. split; [done|]. exists []. split; [done|]. split; [by exists []|].
    destruct Hst as [?|?]; [by right|by left]. }
  inversion Hall as [|it id' p its ids' ps Hcol Hall' E1 E2 E3]; subst. destruct Hcol as [<- Hit]. cbn [fst snd] in *.
  symmetry in E1, E2. apply drop_cons_inv in E1 as [Eit Edr], E2 as [Eid Eds].
  destruct (HP it pts size Hit Hsz) as (N1&st1&got&it'&rest1&E&->&Hit'&Hlen&Hc).
  assert (Hch : chained ((id, got ++ rest1) :: cols) = (emit id <$> got) ++ (emit id <$> rest1) ++ chained cols).
  { unfold chained. cbn [mbind list_bind fst snd]. by rewrite fmap_app, <- app_assoc. }
  assert (Hpos : (ch_pos m < length (ch_iters m))%nat) by (by eapply lookup_lt_Some).
  destruct (decide (size - length got = 0)%nat) as [Hfull|Hroom].
  - exists N1, st1, (emit id <$> got), (mkChain (<[ch_pos m := it']> (ch_iters m)) (ch_ids m) (ch_pos m)). split.
    { intros fuel Hf. cbn [length Chain.read_loop]. rewrite Eid. cbn [mbind option_bind]. rewrite Eit. cbn [mbind option_bind].
      rewrite E by exact Hf. cbn [mbind option_bind]. by rewrite decide_True. }
    assert (got ≠ []) by (intros ->; simpl in Hfull; lia).
    assert (st1 = kOk) as -> by (destruct Hc as [(?&_)|(_&_&?)]; [done|lia]).
    exists ((emit id <$> rest1) ++ chained cols). split; [exact Hch|]. split.
    + exists ((id, rest1) :: cols). split; [|done]. cbn [ch_pos ch_iters ch_ids].
      rewrite (drop_S _ it') by (by rewrite list_lookup_insert_eq). rewrite drop_insert_lt by lia.
      rewrite (drop_S _ _ _ Eid). replace (S (ch_pos m)) with (ch_pos m + 1)%nat by lia. rewrite Edr, Eds. constructor; [done|exact Hall'].
    + left. split; [done|]. destruct out, got; done.
  - assert (rest1 = []) as -> by (destruct Hc as [(_&_&[?|?])|(_&?&_)]; [done|lia|done]).
    set (m1 := mkChain (<[ch_pos m := it']> (ch_iters m)) (ch_ids m) (ch_pos m + 1)).
    destruct (IH m1 (size - length got)%nat st1 (out ++ (emit id <$> got))) as (N2&st&more&m'&E2&rest&Hr&Hm'&Hs).
    + cbn [m1 ch_pos ch_iters ch_ids]. rewrite drop_insert_lt by lia. by rewrite Edr, Eds.
    + lia.
    + destruct Hc as [(->&Hne&_)|(->&_)]; [right|by left]. split; [done|]. destruct out, got; done.
    + exists (N1 + N2)%nat, st, ((emit id <$> got) ++ more), m'. split.
      * intros fuel Hf. cbn [length Chain.read_loop]. rewrite Eid. cbn [mbind option_bind]. rewrite Eit. cbn [mbind option_bind].
        rewrite E by lia. cbn [mbind option_bind]. rewrite decide_False by exact Hroom.
        rewrite decide_True by (destruct Hc as [(->&_)|(->&_)]; [by left|by right]). rewrite app_assoc. apply E2. lia.
      * exists rest. rewrite Hch. simpl. rewrite Hr, app_assoc. split; [done|]. split; [exact Hm'|]. by rewrite app_assoc.
Qed.

Lemma chain_materializes size : (0 < size)%nat → materializes (λ fuel, Chain.read_n emit fuel size) chain_has.
Proof.
  intros Hs m ss (cols&Hall&->).
  destruct (ch_loop_ok cols m _ kNoData [] Hall Hs (or_introl eq_refl)) as (N&st&more&m'&E&Hr).
  exists N, (st, more, m'). split; [|exact Hr]. intros fuel Hf. unfold Chain.read_n.
  assert (Hl : (length (ch_iters m) - ch_pos m = length cols)%nat).
  { pose proof (Forall3_length_lr _ _ _ _ Hall) as Hl. by rewrite length_drop in Hl. }
  rewrite Hl. by apply E.
Qed.

Lemma chain_make_has iters cols : Forall2 (λ it p, P it p.2) iters cols → chain_has (Chain.make cols.*1 iters) (chained cols).
Proof.
  intros Hall. exists cols. split; [|done]. cbn [Chain.make ch_pos ch_iters ch_ids drop].
  induction Hall as [|it p iters cols Hp _ IH]; constructor; [by split|exact IH].
Qed.

End Chain.

(** A buffer has room for a sample. *)
Lemma room_for (dest_size n : Z) : 0 < n ≤ dest_size → (0 < Z.to_nat (dest_size / n))%nat.
Proof. intros Hn. assert (1 ≤ dest_size / n); [|lia]. apply Z.div_le_lower_bound; lia. Qed.

(** ** Columns of events *)

Section EventChain.
Context {It : Type} `{SeriesOperator It (list Z)}.
Variable P : It → list (Z * list Z) → Prop.
Hypothesis HP : operates P.
Variable dest_size : Z.

Definition event_of (id : Z) (ev : Z * list Z) : Z * list Z * Z := (ev.1, ev.2, id).
Definition events_of (cols : list (Z * list (Z * list Z))) : list (Z * list Z * Z) := cols ≫= λ p, event_of p.1 <$> p.2.

Definition ev_column_at (it : It) (id : Z) (p : Z * list (Z * list Z)) : Prop := p.1 = id ∧ P it p.2.

(** The events that are left: the one that is held and those of the columns.
    Each fits into the buffer. *)
Definition ev_left (m : EventChainMaterializer It) (evs : list (Z * list Z * Z)) (ncols : nat) : Prop :=
  ∃ cols, Forall3 ev_column_at (drop (ec_pos m) (ec_iters m)) (drop (ec_pos m) (ec_ids m)) cols ∧ length cols = ncols ∧
    evs = option_list (ec_curr m) ++ events_of cols ∧ (is_Some (ec_curr m) → cols ≠ []).

Definition ev_has (m : EventChainMaterializer It) (ss : list Sample) : Prop :=
  ∃ evs n, ev_left m evs n ∧ ss = EventChain.event_sample <$> evs ∧ Forall (λ ev, EventChain.space_needed ev ≤ dest_size) evs.

Lemma ev_loop_ok w m evs n room status out :
  ev_left m evs n → Forall (λ ev, EventChain.space_needed ev ≤ dest_size) evs → (2 * length evs + n - (if ec_curr m then 1 else 0) < w)%nat →
  (status = kOk ∨ status = kNoData) → (n = 0%nat → status = kNoData) →
  (ec_curr m = None ∨ status = kOk ∨ room = dest_size) → (out = [] → room = dest_size) →
  ∃ N st more m', (∀ rounds fuel, (w ≤ rounds)%nat → (N ≤ fuel)%nat →
      EventChain.read_loop rounds fuel room status out m = Some (st, out ++ more, m')) ∧
    ∃ rest n', (EventChain.event_sample <$> evs) = more ++ (EventChain.event_sample <$> rest) ∧ ev_left m' rest n' ∧
      Forall (λ ev, EventChain.space_needed ev ≤ dest_size) rest ∧ (st = kOk ∧ out ++ more ≠ [] ∨ st = kNoData ∧ rest = []).
Proof.
  revert m evs n room status out. induction w as [|w IH]; intros m evs n room status out Hleft Hfit Hw Hst Hend Hcurr Hroom; [lia|].
  destruct m as [iters ids pos curr]. destruct Hleft as (cols&Hall&Hn&He&Hcne). cbn [ec_iters ec_ids ec_pos ec_curr] in *.
  pose proof (Forall3_length_lr _ _ _ _ Hall) as Hlen. rewrite length_drop in Hlen.
  destruct curr as [ev|].
  - (* an event is held *)
    assert (length cols ≠ 0%nat) by (intros Hz; apply nil_length_inv in Hz; by apply Hcne). subst evs. change (option_list (Some ev) ++ events_of cols) with (ev :: events_of cols) in *.
    cbn [length] in Hw.
    apply Forall_cons in Hfit as [Hev Hfit]. destruct (decide (room < EventChain.space_needed ev)) as [Hfull|Hok].
    + assert (Ho : out ≠ []) by (intros ->; rewrite Hroom in Hfull by done; lia).
      exists 0%nat, status, [], (mkEvChain iters ids pos (Some ev)). rewrite app_nil_r. split.
      { intros [|rounds] fuel Hr _; [lia|]. cbn [EventChain.read_loop ec_iters ec_pos ec_curr]. rewrite decide_False by lia.
        by rewrite decide_True. }
      exists (ev :: events_of cols), n. split; [done|]. split; [by exists cols|]. split; [by constructor|].
      destruct Hcurr as [?|[->|Hr]]; [done|by left|lia].
    + destruct (IH (mkEvChain iters ids pos None) (events_of cols) n (room - EventChain.space_needed ev) status (out ++ [EventChain.event_sample ev]))
        as (N&st&more&m'&E&rest&n'&Hr&Hl&Hf&Hs); [by exists cols; split_and!; try done; intros [? ?]|done|simpl; lia|done|done|by left|by destruct out|].
      exists N, st, (EventChain.event_sample ev :: more), m'. replace (out ++ EventChain.event_sample ev :: more) with ((out ++ [EventChain.event_sample ev]) ++ more) by (by rewrite <- app_assoc).
      split.
      { intros [|rounds] fuel Hrd Hfu; [lia|]. cbn [EventChain.read_loop ec_iters ec_ids ec_pos ec_curr]. rewrite decide_False by lia.
        rewrite decide_False by done. apply E; lia. }
      exists rest, n'. split; [rewrite fmap_cons, Hr; done|]. by split_and!.
  - destruct cols as [|[id pts] cols].
    { (* the end *)
      simpl in Hn, He, Hlen. subst. exists 0%nat, status, [], (mkEvChain iters ids pos None). rewrite app_nil_r. split.
      { intros [|rounds] fuel Hr _; [lia|]. cbn [EventChain.read_loop ec_iters ec_pos ec_curr]. by rewrite decide_True by lia. }
      exists [], 0%nat. split; [done|]. split; [exists []; split_and!; try done; intros [? ?]; done|]. split; [done|]. right. split; [by apply Hend|done]. }
    inversion Hall as [|it id' p its ids' ps Hcol Hall' E1 E2 E3]; subst. destruct Hcol as [<- Hit]. cbn [fst snd] in *.
    symmetry in E1, E2. apply drop_cons_inv in E1 as [Eit Edr], E2 as [Eid Eds].
    assert (Hpos : (pos < length iters)%nat) by (by eapply lookup_lt_Some).
    destruct (HP it pts 1%nat Hit ltac:(lia)) as (N1&st1&got&it'&rest1&E&->&Hit'&Hl1&Hc).
    assert (Hchn : events_of ((id, got ++ rest1) :: cols) = (event_of id <$> got) ++ events_of ((id, rest1) :: cols)).
    { unfold events_of. cbn [mbind list_bind fst snd]. by rewrite fmap_app, <- app_assoc. }
    change (option_list None ++ events_of ((id, got ++ rest1) :: cols)) with (events_of ((id, got ++ rest1) :: cols)) in *.
    rewrite Hchn in *. cbn [length] in Hw.
    assert (Estep : ∀ rounds fuel, (N1 ≤ fuel)%nat → EventChain.read_loop (S rounds) fuel room status out (mkEvChain iters ids pos None) =
      match got with
      | [] => EventChain.read_loop rounds fuel room st1 out (mkEvChain (<[pos := it']> iters) ids (pos + 1) None)
      | ev :: _ => EventChain.read_loop rounds fuel room st1 out (mkEvChain (<[pos := it']> iters) ids pos (Some (event_of id ev)))
      end).
    { intros rounds fuel Hf. cbn [EventChain.read_loop ec_iters ec_ids ec_pos ec_curr]. rewrite decide_False by lia. rewrite Eid.
      cbn [mbind option_bind]. rewrite Eit. cbn [mbind option_bind]. rewrite E by exact Hf. cbn [mbind option_bind]. destruct got; [done|].
      by rewrite decide_True by (destruct Hc as [(->&_)|(->&_)]; [by right|by left]). }
    destruct got as [|ev [|? ?]]; [| |simpl in Hl1; lia].
    + (* the column is done *)
      destruct Hc as [(_&?&_)|(->&->&_)]; [done|].
      change ((event_of id <$> []) ++ events_of ((id, [] ++ []) :: cols)) with (events_of cols) in *.
      change ((event_of id <$> []) ++ events_of ((id, []) :: cols)) with (events_of cols) in *.
      destruct (IH (mkEvChain (<[pos := it']> iters) ids (pos + 1) None) (events_of cols) (length cols) room kNoData out)
        as (N2&st&more&m'&E2&Hr); try done; [|simpl; lia|by right|by left|].
      { exists cols. cbn [ec_iters ec_ids ec_pos ec_curr]. rewrite drop_insert_lt by lia. rewrite Edr, Eds. split_and!; try done. }
      exists (N1 + N2)%nat, st, more, m'. split; [|exact Hr]. intros [|rounds] fuel Hrd Hfu; [lia|]. rewrite Estep by lia. apply E2; lia.
    + (* an event is fetched *)
      destruct Hc as [(->&_)|(_&_&?)]; [|simpl in *; lia]. change ((event_of id <$> [ev]) ++ events_of ((id, rest1) :: cols)) with (event_of id ev :: events_of ((id, rest1) :: cols)) in *.
      cbn [length] in Hw.
      destruct (IH (mkEvChain (<[pos := it']> iters) ids pos (Some (event_of id ev))) (event_of id ev :: events_of ((id, rest1) :: cols)) (S (length cols)) room kOk out)
        as (N2&st&more&m'&E2&Hr); try done; [|simpl in *; lia|by left|by right; left|].
      { exists ((id, rest1) :: cols). cbn [ec_iters ec_ids ec_pos ec_curr]. split_and!; try done.
        rewrite (drop_S _ it') by (by rewrite list_lookup_insert_eq). rewrite drop_insert_lt by lia.
        rewrite (drop_S _ _ _ Eid). replace (S pos) with (pos + 1)%nat by lia. rewrite Edr, Eds. constructor; [done|exact Hall']. }
      exists (N1 + N2)%nat, st, more, m'. split; [|exact Hr]. intros [|rounds] fuel Hrd Hfu; [lia|]. rewrite Estep by lia. apply E2; lia.
Qed.

Lemma event_chain_materializes : materializes (λ fuel, EventChain.read fuel fuel dest_size) ev_has.
Proof.
  intros m ss (evs&n&Hl&->&Hf).
  destruct (ev_loop_ok (S (2 * length evs + n)) m evs n dest_size kNoData [] Hl Hf ltac:(lia) (or_intror eq_refl) ltac:(done) ltac:(by right; right) ltac:(done))
    as (N&st&more&m'&E&rest&n'&Hr&Hl'&Hf'&Hs).
  exists (S (2 * length evs + n) + N)%nat, (st, more, m'). split; [intros fuel Hfu; apply E; lia|].
  exists (EventChain.event_sample <$> rest). split; [exact Hr|]. split; [by exists rest, n'|].
  destruct Hs as [?|[-> ->]]; [by left|by right].
Qed.

End EventChain.

Lemma event_chain_drain {It} `{SeriesOperator It (list Z)} (P : It → list (Z * list Z) → Prop) iters cols dest_size :
  operates P → Forall2 (λ it p, P it p.2) iters cols →
  Forall (λ ev, EventChain.space_needed ev ≤ dest_size) (events_of cols) →
  ∃ N, ∀ n fuel, (length (events_of cols) < n)%nat → (N ≤ fuel)%nat →
    cm_drain (EventChain.read fuel fuel dest_size) n (EventChain.make cols.*1 iters)
      = Some (EventChain.event_sample <$> events_of cols, kNoData).
Proof.
  intros HP Hall Hf.
  destruct (materializes_drain _ (ev_has P dest_size) (EventChain.make cols.*1 iters) (EventChain.event_sample <$> events_of cols)
    (event_chain_materializes P HP dest_size)) as (N&E).
  - exists (events_of cols), (length cols). split; [|done]. exists cols. cbn [EventChain.make ec_iters ec_ids ec_pos ec_curr drop].
    split; [|split; [done|split; [done|by intros [? ?]]]]. clear Hf. induction Hall as [|it p iters cols Hp _ IH]; constructor; [by split|exact IH].
  - exists N. intros n fuel Hn. apply E. by rewrite length_fmap.
Qed.

(** ** Tuples *)

(** The values of the series at a time, some of them missing: as samples, as the
    values of a tuple and as its bitmap, from bit [i] on. *)
Fixpoint row_samples (t : Z) (ids : list Z) (row : list (option Z)) : list Sample :=
  match ids, row with
  | id :: ids, Some v :: row => Merge.point_sample id (t, v) :: row_samples t ids row
  | _ :: ids, None :: row => row_samples t ids row
  | _, _ => []
  end.

Fixpoint row_bits (i : nat) (row : list (option Z)) : Z :=
  match row with
  | [] => 0
  | Some _ :: row => Z.lor (Z.shiftl 1 (Z.of_nat i)) (row_bits (i + 1) row)
  | None :: row => row_bits (i + 1) row
  end.

Definition row_values (row : list (option Z)) : list Z := row ≫= option_list.

(** Bit [j] says whether series [j] has a value. *)
Lemma row_bits_spec i row j :
  Z.testbit (row_bits i row) (Z.of_nat (i + j)) = match row !! j with Some (Some _) => true | _ => false end ∧
  (∀ k, (k < i)%nat → Z.testbit (row_bits i row) (Z.of_nat k) = false).
Proof.
  revert i j. induction row as [|[v|] row IH]; intros i j; cbn [row_bits].
  - split; [by rewrite Z.bits_0|]. intros. by rewrite Z.bits_0.
  - split.
    + rewrite Z.lor_spec, Z.shiftl_spec by lia. destruct j as [|j].
      * rewrite Nat.add_0_r, Z.sub_diag. done.
      * replace (i + S j)%nat with (i + 1 + j)%nat by lia. rewrite (proj1 (IH (i + 1)%nat j)).
        rewrite (Z.bits_above_log2 1) by (simpl; lia). done.
    + intros k Hk. rewrite Z.lor_spec, Z.shiftl_spec by lia. rewrite Z.testbit_neg_r by lia. apply (IH (i + 1)%nat 0%nat). lia.
  - split.
    + destruct j as [|j]; [rewrite Nat.add_0_r; apply (IH (i + 1)%nat 0%nat); lia|].
      replace (i + S j)%nat with (i + 1 + j)%nat by lia. apply (IH (i + 1)%nat j).
    + intros k Hk. apply (IH (i + 1)%nat 0%nat). lia.
Qed.

Section Join.
Context {It HF HB : Type} `{SeriesOperator It Z, Heap HF (HeapItem (Z * Z)), Heap HB (HeapItem (Z * Z))}.

Lemma row_head t ids row s : s ∈ row_samples t ids row → sa_paramid s ∈ ids ∧ sa_timestamp s = t.
Proof.
  revert row. induction ids as [|id ids IH]; intros [|[v|] row] Hs; cbn [row_samples] in Hs; try (by apply not_elem_of_nil in Hs).
  - apply elem_of_cons in Hs as [->|Hs]; [split; [apply elem_of_cons; by left|done]|].
    destruct (IH row Hs) as [? ?]. split; [apply elem_of_cons; by right|done].
  - destruct (IH row Hs) as [? ?]. split; [apply elem_of_cons; by right|done].
Qed.

(** The loop over the ids takes the samples of the row and leaves the next one. *)
Lemma build_row fuel i ids row ctrl values (m : JoinMaterializer It) t next rest :
  NoDup ids → length row = length ids → (i + length ids ≤ 64)%nat → sa_timestamp next ≠ t →
  jm_buffer m = row_samples t ids row ++ next :: rest → (values ≠ [] ∧ jm_curr m = t ∨ values = [] ∧ row_values row ≠ []) →
  Join.build (HF := HF) (HB := HB) fuel i ids ctrl values m
    = Some (Join.Tuple (Z.lor ctrl (row_bits i row)) (values ++ row_values row),
            mkJoin (jm_merge m) (jm_orig_ids m) (jm_id m) t (next :: rest)).
Proof.
  intros Hnd. revert i row ctrl values m. induction Hnd as [|id ids Hni Hnd IH]; intros i row ctrl values m Hl Hi Hnext Hb Hv.
  { destruct row; [|done]. cbn [Join.build row_bits row_samples app] in *. rewrite Z.lor_0_r, app_nil_r.
    destruct Hv as [[_ <-]|[_ ?]]; [|done]. rewrite <- Hb. by destruct m. }
  destruct row as [|o row]; [done|]. simpl in Hl, Hi.
  assert (Hne : jm_buffer m ≠ []) by (rewrite Hb; by destruct (row_samples t (id :: ids) (o :: row))).
  cbn [Join.build]. rewrite decide_False by exact Hne. cbn [mbind option_bind]. destruct o as [v|].
  - cbn [row_samples app] in Hb. rewrite Hb. cbn [head mbind option_bind]. rewrite decide_False by (intros Hx; by apply Hx).
    rewrite decide_False by (intros [Hx Hy]; destruct Hv as [[_ Hc]|[? _]]; [by rewrite Hc in Hy|done]).
    cbn [Merge.point_sample sa_timestamp sa_float64 fst snd tail].
    rewrite u64_id by (unfold is_u64; rewrite Z.shiftl_1_l; split; [apply Z.pow_nonneg; lia|apply Z.pow_lt_mono_r; lia]).
    assert (Hcurr : (if decide (values = []) then t else jm_curr m) = t) by (case_decide; [done|]; by destruct Hv as [[_ ?]|[? _]]).
    rewrite Hcurr. rewrite (IH (i + 1)%nat row); [|lia|lia|done|done|left; split; [by destruct values|done]].
    cbn [row_bits]. rewrite Z.lor_assoc. unfold row_values. cbn [mbind list_bind option_list]. by rewrite <- app_assoc.
  - cbn [row_samples] in Hb. assert (Hrow : row_values (None :: row) = row_values row) by done. rewrite Hrow in *. cbn [row_bits].
    rewrite Hb. destruct (row_samples t ids row) as [|s ss] eqn:Es.
    + (* nothing is left of the row *)
      assert (row_values row = []) as Hrv.
      { clear - Es Hl. assert (length row = length ids) as Hl' by lia. clear Hl. revert row Es Hl'. induction ids as [|id ids IH]; intros [|[v|] row] Es Hl; try done.
        apply (IH row); [exact Es|simpl in Hl; lia]. }
      assert (Hbits : row_bits (i + 1) row = 0).
      { clear - Hrv. generalize (i + 1)%nat. induction row as [|[v|] row IH]; intros n; [done..|]. by apply IH. }
      destruct Hv as [[Hvne Hc]|[_ ?]]; [|done]. cbn [app head mbind option_bind]. case_decide as Hid.
      * rewrite (IH (i + 1)%nat row); [|lia|lia|done|by rewrite Hb, Es|by left]. done.
      * rewrite decide_True by (by rewrite Hc). rewrite Hrv, Hbits, Z.lor_0_r, app_nil_r. do 3 f_equal. destruct m. cbn in *. by subst.
    + cbn [app head mbind option_bind].
      assert (Hs : sa_paramid s ∈ ids) by (apply (row_head t ids row); rewrite Es; apply elem_of_cons; by left).
      rewrite decide_True by (intros Hx; apply Hni; by rewrite <- Hx).
      apply IH; [lia|lia|done|by rewrite Hb, Es|exact Hv].
Qed.

End Join.

(** ** Properties *)

(** C14: a chain delivers the columns one after the other, each whole and in
    order, in buffers of any size of at least one sample, and then [NoData];
    empty columns are passed over. *)
Theorem chain_materializer {It} `{SeriesOperator It Z} (P : It → list (Z * Z) → Prop) iters cols dest_size :
  operates P → Forall2 (λ it p, P it p.2) iters cols → SAMPLE_SIZE ≤ dest_size →
  ∃ N, ∀ n fuel, (length (chained Merge.point_sample cols) < n)%nat → (N ≤ fuel)%nat →
    cm_drain (Chain.read fuel dest_size) n (Chain.make cols.*1 iters) = Some (chained Merge.point_sample cols, kNoData).
Proof.
  intros HP Hall Hsz. apply (materializes_drain _ (chain_has Merge.point_sample P)); [|by apply chain_make_has].
  apply chain_materializes; [exact HP|]. apply room_for. unfold SAMPLE_SIZE in *. lia.
Qed.

(** A row of a join.  When the merged samples of a time come in the order of
    the ids and a sample of another time follows, the loop of [JoinMaterializer]
    takes exactly them: the tuple has the values that are there, in order, the bit
    of series [i] is set just when it has one, and the next sample stays for the
    next tuple. *)
Theorem join_row {It HF HB} `{SeriesOperator It Z, Heap HF (HeapItem (Z * Z)), Heap HB (HeapItem (Z * Z))}
    fuel (m : JoinMaterializer It) row t next rest :
  NoDup (jm_orig_ids m) → length row = length (jm_orig_ids m) → (length (jm_orig_ids m) ≤ 58)%nat → sa_timestamp next ≠ t →
  jm_buffer m = row_samples t (jm_orig_ids m) row ++ next :: rest → row_values row ≠ [] →
  ∃ bits, Join.build (HF := HF) (HB := HB) fuel 0 (jm_orig_ids m) 0 [] m
      = Some (Join.Tuple bits (row_values row), mkJoin (jm_merge m) (jm_orig_ids m) (jm_id m) t (next :: rest)) ∧
    ∀ i, Z.testbit bits (Z.of_nat i) = match row !! i with Some (Some _) => true | _ => false end.
Proof.
  intros Hnd Hl Hmax Hnext Hb Hv. exists (row_bits 0 row). split.
  - rewrite (build_row fuel 0 (jm_orig_ids m) row 0 [] m t next rest); try done; [lia|by right].
  - intros i. exact (proj1 (row_bits_spec 0 row i)).
Qed.

(** ** Witnesses *)

Notation JoinHeap dir := (ListHeap (HeapItem (Z * Z)) (item_cmp (MergeJoinOrder dir))).

Lemma join_row_witness :
  let m := mkJoin (mkMerge [] [1; 2; 3] true []) [1; 2; 3] 9 0
    [Merge.point_sample 1 (5, 10); Merge.point_sample 3 (5, 30); Merge.point_sample 2 (6, 20)] : JoinMaterializer (list (Z * Z)) in
  ∃ bits m', Join.build (H := list_operator) (HF := JoinHeap FORWARD) (HB := JoinHeap BACKWARD) 1 0 [1; 2; 3] 0 [] m
      = Some (Join.Tuple bits [10; 30], m') ∧
    Z.testbit bits 0 = true ∧ Z.testbit bits 1 = false ∧ Z.testbit bits 2 = true.
Proof.
  intros m. destruct (join_row (H := list_operator) (HF := JoinHeap FORWARD) (HB := JoinHeap BACKWARD) 1 m [Some 10; None; Some 30] 5
    (Merge.point_sample 2 (6, 20)) []) as (bits&E&Hb).
  - apply (bool_decide_unpack _). by_compute.
  - done.
  - by_compute.
  - by_compute.
  - done.
  - done.
  - eexists bits, _. split; [exact E|]. exact (conj (Hb 0%nat) (conj (Hb 1%nat) (Hb 2%nat))).
Defined.

Lemma chain_materializer_witness :
  ∃ N, ∀ n fuel, (6 < n)%nat → (N ≤ fuel)%nat →
    cm_drain (Chain.read (H := list_operator) fuel 70) n (Chain.make sample_cols.*1 sample_cols.*2) = Some (chained Merge.point_sample sample_cols, kNoData).
Proof.
  apply (chain_materializer (H := list_operator) (λ l pts, l = pts) sample_cols.*2 sample_cols 70).
  - exact list_operates.
  - repeat constructor.
  - by_compute.
Defined.

(** ** Joins that lose their rows *)

(** A join of two series, read to the end. *)
Definition join_run (cols : list (Z * list (Z * Z))) : option (list (Z * list Z) * Status) :=
  match Join.make (H := list_operator) cols.*1 cols.*2 9 with
  | None => None
  | Some m =>
    match cm_drain (Join.read (H := list_operator) (HF := JoinHeap FORWARD) (HB := JoinHeap BACKWARD) 20 20 1000) 20 m with
    | None => None
    | Some (out, st) => Some ((λ s, (sa_timestamp s, sa_data s)) <$> out, st)
    end
  end.

(** Series with the same timestamps are joined row by row. *)
Lemma join_aligned_run : join_run [(1, [(10, 1); (20, 2)]); (2, [(10, 3); (20, 4)])] = Some ([(10, [1; 3]); (20, [2; 4])], kNoData).
Proof. vm_compute. reflexivity. Qed.

(** The last row is dropped when its last series has no value: the buffer runs
    dry in the middle of the row and [read] returns. *)
Lemma join_loses_last_row : join_run [(1, [(10, 1); (20, 2)]); (2, [(10, 3)])] = Some ([(10, [1; 3])], kNoData).
Proof. vm_compute. reflexivity. Qed.

(** Even a stable heap does not keep the order of the series: of two equal
    timestamps the one that was pushed first comes first, and the values of time
    30 come out as two rows, of which the second is dropped. *)
Lemma join_splits_row :
  join_run [(1, [(20, 1); (30, 2); (40, 5)]); (2, [(10, 3); (30, 4); (40, 6)])]
  = Some ([(10, [3]); (20, [1]); (30, [4]); (30, [2]); (40, [6])], kNoData).
Proof. vm_compute. reflexivity. Qed.
