(* ===== verification/Aggregate.v ===== *)
(** * Aggregating operators over a tree (nbtree.cc, aggregate.cc)

    An [AggregateOperator] delivers aggregates of runs of points.  Over a leaf it
    computes them from the points or takes the metadata; over an inner node it
    combines those of the children, or takes the metadata of a child that lies
    inside the range; [CombineAggregateOperator] adds up the extents of a
    tree.  A group aggregate delivers one aggregate per interval of [step]
    nanoseconds, and joins the parts of an interval that is spread over several
    nodes.  All operators are one type, and [read] is defined by open recursion:
    each loop takes the [read] of the operators below as an argument. *)
From S2P Require Import Prelude Status ByteStream Base128 VByte DataBlock DataBlockProof IOVec Blocks Volume Crc32c BlockStoreProof MemStore Double SubtreeRef Operator Leaf LeafIter Superblock TreeIter.

(** ** State *)

(** [NBTreeLeafGroupAggregator]. *)
Record LeafGroupAggregator := mkLeafGroup {
  lg_iter : LeafIterator;
  lg_cached : bool;       (* enable_cached_metadata_ *)
  lg_meta : SubtreeRef;
  lg_begin : Z;
  lg_end : Z;
  lg_step : Z;            (* Timestamp *)
}.

(** The buffer of the group aggregators over several operators: [rdbuf_],
    [rdpos_]. *)
Record ReadBuffer := mkRdbuf { rb_buf : list AggregationResult; rb_pos : nat }.

(** The classes derived from [NBTreeSBlockIteratorBase<AggregationResult>]. *)
Inductive SBlockKind :=
  | KAggregate                   (* NBTreeSBlockAggregatorImpl *)
  | KGroup (step : Z)            (* NBTreeSBlockGroupAggregator *)
  | KCandlesticks (min_delta : Z) (* NBTreeSBlockCandlesticsIter *).

Inductive AggregateOperator :=
  | AOEmpty (begin_ end_ : Z)
  | AOValue (a : ValueAggregator)
  | AOLeaf (a : LeafAggregator)
  | AOLeafGroup (a : LeafGroupAggregator)
  | AOSBlock (k : SBlockKind) (s : SBlockIter) (iter : option AggregateOperator)
  | AOSBlockGroup (step : Z) (s : SBlockIter) (rd : ReadBuffer) (done : bool) (iter : option AggregateOperator)
  | AORoot (leftmost_leaf_found : bool) (impl : AggregateOperator)  (* NBTreeSBlockAggregator *)
  | AOCombine (iters : list AggregateOperator) (dir : Direction) (iter_index : nat)
  | AOCombineGroup (begin_ end_ step : Z) (iters : list AggregateOperator) (dir : Direction) (iter_index : nat)
      (rd : ReadBuffer)
  | AOFanIn (iters : list AggregateOperator) (dir : Direction) (iter_index : nat)
  | AOFilter (filter : AggregateFilter) (iter : AggregateOperator).

Notation agg_point := (Z * AggregationResult)%type.

(** ** Groups of points *)

(** The distance from [begin] in the direction of the query, and the number of
    the interval it falls in. *)
Definition normts (dir : Direction) (begin_ ts : Z) : Z :=
  match dir with FORWARD => u64 (ts - begin_) | BACKWARD => u64 (begin_ - ts) end.
Definition bin_of (dir : Direction) (begin_ step ts : Z) : Z := normts dir begin_ ts / step.

Definition is_forward (dir : Direction) : bool := match dir with FORWARD => true | BACKWARD => false end.

(** [assert(delta <= step_)]. *)
Definition within_step (step : Z) (a : AggregationResult) : bool := bool_decide (u64 (ag_end a - ag_begin a) ≤ step).

Module LeafGroup.

Definition make (begin_ end_ step : Z) (l : IOVecLeaf) : option LeafGroupAggregator :=
  '(nodemin, nodemax) ← Leaf.get_timestamps l;
  let it := LeafIter.make_delayed begin_ end_ in
  let dir := direction begin_ end_ in
  let inside := match dir with
    | FORWARD => bool_decide (bin_of dir begin_ step nodemin = bin_of dir begin_ step nodemax ∧ begin_ ≤ nodemin ∧ nodemax < end_)
    | BACKWARD => bool_decide (bin_of dir begin_ step nodemin = bin_of dir begin_ step nodemax ∧ nodemax ≤ begin_ ∧ end_ < nodemin)
    end in
  if inside then h ← Leaf.get_leafmeta l; Some (mkLeafGroup it true h begin_ end_ step)
  else it ← LeafIter.init l it; Some (mkLeafGroup it false INIT_SUBTREE_REF begin_ end_ step).

(** The loop over the points: [valcnt], [bin], [outval], and what was written. *)
Fixpoint group_loop (dir : Direction) (begin_ step : Z) (pts : list point) (valcnt : nat) (bin : Z)
    (outval : AggregationResult) (out : list AggregationResult) : option (AggregationResult * list AggregationResult) :=
  match pts with
  | [] => Some (outval, out)
  | (ts, xs) :: pts =>
    let b := bin_of dir begin_ step ts in
    let '(bin, outval, out) :=
      if decide (valcnt = 0)%nat then (b, outval, out)
      else if decide (b ≠ bin) then (b, INIT_AGGRES, out ++ [outval]) else (bin, outval, out) in
    let outval := Agg.add ts xs (is_forward dir) outval in
    if within_step step outval then group_loop dir begin_ step pts (S valcnt) bin outval out else None
  end.

Definition group (dir : Direction) (begin_ step : Z) (pts : list point) : option (list AggregationResult) :=
  '(outval, out) ← group_loop dir begin_ step pts 0 0 INIT_AGGRES [];
  Some (if dlt 0 (ag_cnt outval) then out ++ [outval] else out).

Definition stamp (a : AggregationResult) : agg_point := (ag_begin a, a).

Definition read (size : nat) (a : LeafGroupAggregator) : option (Status * list agg_point * LeafGroupAggregator) :=
  if decide (size = 0)%nat then Some (kBadArg, [], a) else
  if lg_cached a then
    if decide (sr_count (lg_meta a) = 0) then Some (kNoData, [], a) else
    let x := Agg.copy_from (lg_meta a) in
    if within_step (lg_step a) x then
      Some (kOk, [(sr_begin (lg_meta a), x)], mkLeafGroup (lg_iter a) false (lg_meta a) (lg_begin a) (lg_end a) (lg_step a))
    else None
  else
    n ← LeafIter.get_size (lg_iter a);
    if decide (n = 0) then Some (kNoData, [], a) else
    let size_hint := Nat.min (Z.to_nat n) size in
    '(st, pts, it) ← LeafIter.read size_hint (lg_iter a);
    let a := mkLeafGroup it (lg_cached a) (lg_meta a) (lg_begin a) (lg_end a) (lg_step a) in
    if decide (st ≠ kOk) then Some (st, [], a) else
    if decide (pts = []) then Some (kNoData, [], a) else
    if decide (length pts ≠ size_hint) then None else
    out ← group (direction (lg_begin a) (lg_end a)) (lg_begin a) (lg_step a) pts;
    if decide (size < length out)%nat then None else Some (kOk, stamp <$> out, a).

End LeafGroup.

(** ** The buffer that joins groups *)

Module Rdbuf.

Definition RDBUF_SIZE : nat := 0x100.

Definition empty : ReadBuffer := mkRdbuf [] 0.
Definition can_read (rd : ReadBuffer) : bool := bool_decide (rb_pos rd < length (rb_buf rd))%nat.
Definition elements_in_rdbuf (rd : ReadBuffer) : nat := length (rb_buf rd) - rb_pos rd.

(** [rdbuf_.at(pos).combine(x)] with its [assert]; a position from the end on
    holds [INIT_AGGRES], [at] throws from [RDBUF_SIZE] on. *)
Definition put (step : Z) (pos : nat) (x : AggregationResult) (buf : list AggregationResult)
    : option (list AggregationResult) :=
  if decide (RDBUF_SIZE ≤ pos)%nat then None else
  let y := Agg.combine x (default INIT_AGGRES (buf !! pos)) in
  if within_step step y then Some (take pos buf ++ [y]) else None.

Fixpoint put_all (step : Z) (pos : nat) (xs : list AggregationResult) (buf : list AggregationResult)
    : option (list AggregationResult) :=
  match xs with
  | [] => Some buf
  | x :: xs => buf ← put step pos x buf; put_all step (S pos) xs buf
  end.

(** The part of [refill_read_buffer] that joins the results of an operator to the
    buffer: the first one falls into the last one's interval or not. *)
Definition join (dir : Direction) (begin_ step : Z) (xs buf : list AggregationResult) : option (list AggregationResult) :=
  match xs with
  | [] => Some buf
  | first_ :: _ =>
    let pos := match last buf with
      | Some lst => if decide (bin_of dir begin_ step (ag_begin lst) = bin_of dir begin_ step (ag_begin first_))
                    then (length buf - 1)%nat else length buf
      | None => length buf
      end in
    put_all step pos xs buf
  end.

(** What is kept of the buffer when it is refilled: its last element. *)
Definition tail (rd : ReadBuffer) : list AggregationResult := option_list (last (rb_buf rd)).

(** Copying [n] elements to the output. *)
Definition copy (stamp : AggregationResult → agg_point) (n : nat) (rd : ReadBuffer) : list agg_point * ReadBuffer :=
  (stamp <$> take n (drop (rb_pos rd) (rb_buf rd)), mkRdbuf (rb_buf rd) (rb_pos rd + n)).

End Rdbuf.

(** ** Operators over the children of a node *)

Module AggOp.

Section Ops.
Context {B : Type} `{BlockStore B}.
Variables (impl : crc32c_impl_t) (at_ : Z) (bstore : B).

(** An operator over the metadata of a child. *)
Definition of_ref (ref : SubtreeRef) (s : SBlockIter) : AggregateOperator :=
  AOValue (ValueAgg.make (sr_end ref) (Agg.copy_from ref) (SBlock.get_direction s)).

(** [make_leaf_iterator] of the three classes; [leftmost] is the shared flag
    [leftmost_leaf_found_]. *)
Definition make_leaf_iterator (k : SBlockKind) (ref : SubtreeRef) (s : SBlockIter) (leftmost : bool)
    : option (Status * option AggregateOperator * bool) :=
  match k with
  | KAggregate =>
    if negb (bs_exists (sr_addr ref) bstore) then Some (kUnavailable, None, leftmost) else
    '(status, block) ← read_and_check impl at_ (sr_addr ref) bstore;
    if decide (status ≠ kOk) then Some (status, None, leftmost) else
    b ← block; l ← Leaf.load b;
    a ← LeafAgg.make (si_begin s) (si_end s) l;
    Some (kOk, Some (AOLeaf a), true)
  | KGroup step =>
    '(status, block) ← read_and_check impl at_ (sr_addr ref) bstore;
    if decide (status ≠ kOk) then Some (status, None, leftmost) else
    b ← block; l ← Leaf.load b;
    a ← LeafGroup.make (si_begin s) (si_end s) step l;
    Some (kOk, Some (AOLeafGroup a), leftmost)
  | KCandlesticks _ => Some (kOk, Some (of_ref ref s), leftmost)
  end.

(** A child all of whose points fall into one interval, which is not the last
    one of the query. *)
Definition inner_group (step : Z) (ref : SubtreeRef) (s : SBlockIter) : bool :=
  let b := si_begin s in
  let e := si_end s in
  let dir := SBlock.get_direction s in
  let query_boundary := bin_of dir b step e in
  let '(start_bucket, stop_bucket) := match dir with
    | FORWARD => (bin_of dir b step (sr_begin ref), bin_of dir b step (sr_end ref))
    | BACKWARD => (bin_of dir b step (sr_end ref), bin_of dir b step (sr_begin ref))
    end in
  bool_decide (start_bucket = stop_bucket) && bool_decide (stop_bucket ≠ query_boundary).

(** [make_superblock_iterator] of the three classes. *)
Definition make_superblock_iterator (k : SBlockKind) (ref : SubtreeRef) (s : SBlockIter) (leftmost : bool)
    : Status * option AggregateOperator :=
  let mn := Z.min (si_begin s) (si_end s) in
  let mx := Z.max (si_begin s) (si_end s) in
  let below := SBlock.make (sr_addr ref) (si_begin s) (si_end s) None in
  match k with
  | KAggregate =>
    if negb (bs_exists (sr_addr ref) bstore) then (kUnavailable, None)
    else if leftmost && bool_decide (mn ≤ sr_begin ref ∧ sr_end ref < mx) then (kOk, Some (of_ref ref s))
    else (kOk, Some (AOSBlock KAggregate below None))
  | KGroup step =>
    if inner_group step ref s then (kOk, Some (of_ref ref s))
    else (kOk, Some (AOSBlockGroup step below Rdbuf.empty false None))
  | KCandlesticks min_delta =>
    if bool_decide (mn < sr_begin ref ∧ sr_end ref < mx ∧ u64 (mx - mn) < min_delta) then (kOk, Some (of_ref ref s))
    else (kOk, Some (AOSBlock k below None))
  end.

Definition open_child (k : SBlockKind) (ref : SubtreeRef) (s : SBlockIter) (leftmost : bool)
    : option (Status * option AggregateOperator * bool) :=
  if negb (bs_exists (sr_addr ref) bstore) then Some (kUnavailable, None, leftmost) else
  if negb (subtree_in_range ref (Z.min (si_begin s) (si_end s)) (Z.max (si_begin s) (si_end s)))
  then Some (kNotFound, None, leftmost) else
  if decide (sr_type ref = LEAF) then make_leaf_iterator k ref s leftmost
  else let '(status, it) := make_superblock_iterator k ref s leftmost in Some (status, it, leftmost).

Definition get_next_iter (k : SBlockKind) (s : SBlockIter) (leftmost : bool)
    : option (Status * option AggregateOperator * SBlockIter * bool) :=
  '(next, s) ← SBlock.next_ref s;
  match next with
  | None => Some (kNoData, None, s, leftmost)
  | Some ref => '(status, it, leftmost) ← open_child k ref s leftmost; Some (status, it, s, leftmost)
  end.

(** The operator that [iter_] holds, or the next one. *)
Definition current_iter (k : SBlockKind) (s : SBlockIter) (iter : option AggregateOperator) (leftmost : bool)
    : option (Status * option AggregateOperator * SBlockIter * bool) :=
  match iter with
  | Some it => Some (kOk, Some it, s, leftmost)
  | None => get_next_iter k s leftmost
  end.

(** The node is loaded at the first [read]. *)
Definition prepare (s : SBlockIter) : option (Status * SBlockIter) :=
  if decide (si_fsm_pos s = 0) then
    '(status, s) ← SBlock.init impl at_ bstore s;
    Some (status, if decide (status ≠ kOk) then s else SBlock.set_fsm (si_fsm_pos s + 1) s)
  else Some (kOk, s).

Section Loops.

(** [read] of an operator below: size, shared flag, operator. *)
Variable rd : nat → bool → AggregateOperator → option (Status * list agg_point * AggregateOperator * bool).

(** [NBTreeSBlockIteratorBase::iter]. *)
Fixpoint iter_loop (rounds size : nat) (k : SBlockKind) (s : SBlockIter) (iter : option AggregateOperator)
    (leftmost : bool) (status : Status) (out : list agg_point)
    : option (Status * list agg_point * SBlockIter * option AggregateOperator * bool) :=
  match rounds with
  | O => None
  | S rounds =>
    if decide (size ≤ length out)%nat then Some (status, out, s, iter, leftmost) else
    '(status, iter, s, leftmost) ← current_iter k s iter leftmost;
    if decide (status = kNotFound ∨ status = kUnavailable) then iter_loop rounds size k s iter leftmost status out else
    if decide (status ≠ kOk) then Some (status, out, s, iter, leftmost) else
    it ← iter;
    '(status, more, it, leftmost) ← rd (size - length out) leftmost it;
    let out := out ++ more in
    if decide (status = kNoData ∨ status = kUnavailable ∧ SBlock.get_direction s = FORWARD)
    then iter_loop rounds size k s None leftmost status out
    else if decide (status ≠ kOk) then Some (status, out, s, Some it, leftmost)
    else iter_loop rounds size k s (Some it) leftmost status out
  end.

Definition SZBUF : nat := 1024.

(** The loop of [NBTreeSBlockAggregatorImpl::read]: [tss] is the buffer of
    timestamps, of which the element after the last one read is taken. *)
Fixpoint sum_loop (rounds : nat) (s : SBlockIter) (iter : option AggregateOperator) (leftmost : bool) (tss : list Z)
    (outts : Z) (outxs : AggregationResult) (nagg : nat)
    : option (Status * list agg_point * SBlockIter * option AggregateOperator * bool) :=
  match rounds with
  | O => None
  | S rounds =>
    '(status, out, s, iter, leftmost) ← iter_loop rounds SZBUF KAggregate s iter leftmost kNoData [];
    if decide ((status = kOk ∨ status = kNoData) ∧ out ≠ []) then
      let tss := out.*1 ++ drop (length out) tss in
      outts ← tss !! length out;
      sum_loop rounds s iter leftmost tss outts (foldl (λ l r, Agg.combine r l) outxs (out.*2)) (S nagg)
    else if decide (status ≠ kOk ∧ status ≠ kNoData) then Some (status, [], s, iter, leftmost)
    else Some (status, if decide (nagg = 0)%nat then [] else [(outts, outxs)], s, iter, leftmost)
  end.

(** [NBTreeSBlockGroupAggregator::refill_read_buffer], the loop. *)
Fixpoint refill_loop (rounds : nat) (step : Z) (s : SBlockIter) (iter : option AggregateOperator) (leftmost : bool)
    (buf : list AggregationResult) (status : Status)
    : option (Status * list AggregationResult * bool * SBlockIter * option AggregateOperator * bool) :=
  match rounds with
  | O => None
  | S rounds =>
    '(status, iter, s, leftmost) ←
      match iter with
      | Some it => Some (status, Some it, s, leftmost)
      | None => get_next_iter (KGroup step) s leftmost
      end;
    match iter with
    | None =>
      if decide (status = kNotFound ∨ status = kUnavailable) then refill_loop rounds step s iter leftmost buf status
      else Some (status, buf, true, s, iter, leftmost)
    | Some it =>
      if decide (length buf = Rdbuf.RDBUF_SIZE) then Some (status, buf, false, s, iter, leftmost) else
      '(status, xs, it, leftmost) ← rd (Rdbuf.RDBUF_SIZE - length buf) leftmost it;
      buf ← Rdbuf.join (SBlock.get_direction s) (si_begin s) step (xs.*2) buf;
      if decide (status = kNoData) then refill_loop rounds step s None leftmost buf status
      else if decide (status ≠ kOk) then Some (status, buf, false, s, Some it, leftmost)
      else refill_loop rounds step s (Some it) leftmost buf status
    end
  end.

(** [NBTreeSBlockGroupAggregator::copy_to]. *)
Fixpoint copy_loop (rounds size : nat) (step : Z) (s : SBlockIter) (rb : ReadBuffer) (done : bool)
    (iter : option AggregateOperator) (leftmost : bool) (status : Status) (out : list agg_point)
    : option (Status * list agg_point * AggregateOperator * bool) :=
  match rounds with
  | O => None
  | S rounds =>
    if decide (status ≠ kOk ∨ size ≤ length out)%nat then Some (status, out, AOSBlockGroup step s rb done iter, leftmost) else
    let n := Rdbuf.elements_in_rdbuf rb in
    if negb done && bool_decide (n < 2)%nat then
      '(status, buf, stop, s, iter, leftmost) ← refill_loop rounds step s iter leftmost (Rdbuf.tail rb) kNoData;
      let rb := mkRdbuf buf 0 in
      let status := if decide (status = kNoData ∧ Rdbuf.can_read rb = true) then kOk else status in
      copy_loop rounds size step s rb stop iter leftmost status out
    else if done && bool_decide (n = 0)%nat then Some (kNoData, out, AOSBlockGroup step s rb done iter, leftmost)
    else
      let tocopy := Nat.min (if done then n else (n - 1)%nat) (size - length out) in
      let '(xs, rb) := Rdbuf.copy LeafGroup.stamp tocopy rb in
      copy_loop rounds size step s rb done iter leftmost status (out ++ xs)
  end.

(** [CombineAggregateOperator::read], the loop. *)
Fixpoint combine_loop (rounds : nat) (iters : list AggregateOperator) (ix : nat) (leftmost : bool)
    (tsresult : Z) (xsresult : AggregationResult) (nagg : nat)
    : option (Status * list agg_point * list AggregateOperator * nat * bool) :=
  match rounds with
  | O => None
  | S rounds =>
    if decide (length iters ≤ ix)%nat
    then Some (kOk, if decide (nagg = 0)%nat then [] else [(tsresult, xsresult)], iters, ix, leftmost) else
    it ← iters !! ix;
    '(status, xs, it, leftmost) ← rd SZBUF leftmost it;
    let iters := <[ix := it]> iters in
    let '(ts, agg, nagg) := match last xs with
      | Some x => (x.1, foldl (λ l r, Agg.combine r l) xsresult (xs.*2), S nagg)
      | None => (tsresult, xsresult, nagg)
      end in
    if decide (status = kNoData) then combine_loop rounds iters (S ix) leftmost ts agg nagg
    else if decide (status ≠ kOk) then Some (status, [], iters, ix, leftmost)
    else combine_loop rounds iters ix leftmost ts agg nagg
  end.

(** [CombineGroupAggregateOperator::refill_read_buffer], the loop. *)
Fixpoint crefill_loop (rounds : nat) (dir : Direction) (begin_ step : Z) (iters : list AggregateOperator) (ix : nat)
    (leftmost : bool) (buf : list AggregationResult)
    : option (Status * list AggregationResult * list AggregateOperator * nat * bool) :=
  match rounds with
  | O => None
  | S rounds =>
    if decide (length iters ≤ ix ∨ length buf = Rdbuf.RDBUF_SIZE)%nat then Some (kOk, buf, iters, ix, leftmost) else
    it ← iters !! ix;
    '(status, xs, it, leftmost) ← rd (Rdbuf.RDBUF_SIZE - length buf) leftmost it;
    let iters := <[ix := it]> iters in
    buf ← Rdbuf.join dir begin_ step (xs.*2) buf;
    if decide (status = kNoData) then crefill_loop rounds dir begin_ step iters (S ix) leftmost buf
    else if decide (status ≠ kOk) then Some (status, buf, iters, ix, leftmost)
    else crefill_loop rounds dir begin_ step iters ix leftmost buf
  end.

(** The timestamp of an interval. *)
Definition bin_start (dir : Direction) (begin_ step : Z) (a : AggregationResult) : agg_point :=
  let bin := bin_of dir begin_ step (ag_begin a) in
  (match dir with FORWARD => u64 (begin_ + step * bin) | BACKWARD => u64 (begin_ - step * bin) end, a).

(** [CombineGroupAggregateOperator::copy_to]. *)
Fixpoint ccopy_loop (rounds size : nat) (begin_ end_ step : Z) (iters : list AggregateOperator) (dir : Direction)
    (ix : nat) (rb : ReadBuffer) (leftmost : bool) (status : Status) (out : list agg_point)
    : option (Status * list agg_point * AggregateOperator * bool) :=
  match rounds with
  | O => None
  | S rounds =>
    let self rb := AOCombineGroup begin_ end_ step iters dir ix rb in
    if decide (status ≠ kOk ∨ size ≤ length out)%nat then Some (status, out, self rb, leftmost) else
    let n := Rdbuf.elements_in_rdbuf rb in
    let more := bool_decide (ix ≠ length iters) in
    if more && bool_decide (n < 2)%nat then
      '(status, buf, iters, ix, leftmost) ← crefill_loop rounds dir begin_ step iters ix leftmost (Rdbuf.tail rb);
      ccopy_loop rounds size begin_ end_ step iters dir ix (mkRdbuf buf 0) leftmost status out
    else if negb more && bool_decide (n = 0)%nat then Some (status, out, self rb, leftmost)
    else
      let tocopy := Nat.min (if more then (n - 1)%nat else n) (size - length out) in
      let '(xs, rb) := Rdbuf.copy (bin_start dir begin_ step) tocopy rb in
      ccopy_loop rounds size begin_ end_ step iters dir ix rb leftmost status (out ++ xs)
  end.

(** [FanInAggregateOperator::read]: one round over the operators whose pending
    value was used; [None] in the status means that the round went through. *)
Fixpoint fan_round (iters : list AggregateOperator) (pend : list agg_point) (tsmin : Z) (nz total : nat) (leftmost : bool)
    : option (option Status * list AggregateOperator * list agg_point * bool) :=
  match iters, pend with
  | it :: iters, p :: pend =>
    if decide (p.1 = tsmin) then
      '(status, xs, it, leftmost) ← rd 1 leftmost it;
      let '(p, nz) := match xs with x :: _ => (x, nz) | [] => ((TS_MAX, INIT_AGGRES), S nz) end in
      if decide (status ≠ kOk ∧ status ≠ kNoData) then Some (Some status, it :: iters, p :: pend, leftmost) else
      if decide (nz = total) then Some (Some kNoData, it :: iters, p :: pend, leftmost) else
      '(st, its, ps, leftmost) ← fan_round iters pend tsmin nz total leftmost; Some (st, it :: its, p :: ps, leftmost)
    else '(st, its, ps, leftmost) ← fan_round iters pend tsmin nz total leftmost; Some (st, it :: its, p :: ps, leftmost)
  | _, _ => Some (None, iters, pend, leftmost)
  end.

Fixpoint fan_loop (rounds size : nat) (iters : list AggregateOperator) (pend : list agg_point) (tsmin : Z)
    (leftmost : bool) (out : list agg_point) : option (Status * list agg_point * list AggregateOperator * bool) :=
  match rounds with
  | O => None
  | S rounds =>
    if decide (size ≤ length out)%nat then Some (kOk, out, iters, leftmost) else
    '(st, iters, pend, leftmost) ← fan_round iters pend tsmin 0 (length pend) leftmost;
    match st with
    | Some status => Some (status, if decide (status = kNoData) then out else [], iters, leftmost)
    | None =>
      let tsmin := foldl Z.min TS_MAX (pend.*1) in
      if decide (tsmin = TS_MAX) then Some (kNoData, out, iters, leftmost) else
      let xsresult := foldl (λ a p, if decide (p.1 = tsmin) then Agg.combine p.2 a else a) INIT_AGGRES pend in
      fan_loop rounds size iters pend tsmin leftmost (out ++ [(tsmin, xsresult)])
    end
  end.

(** [NBTreeGroupAggregateFilter::read].  Without a result [agg] is not
    initialized: [junk] stands for what it holds. *)
Fixpoint filter_loop (rounds size : nat) (f : AggregateFilter) (junk : agg_point) (it : AggregateOperator)
    (leftmost : bool) (out : list agg_point) : option (Status * list agg_point * AggregateOperator * bool) :=
  match rounds with
  | O => None
  | S rounds =>
    if decide (size ≤ length out)%nat then Some (kOk, out, it, leftmost) else
    '(status, xs, it, leftmost) ← rd 1 leftmost it;
    if decide (status = kOk ∨ status = kNoData) then
      let x := default junk (head xs) in
      let out := if AggFilter.match_ x.2 f then out ++ [x] else out in
      if decide (status = kNoData ∨ xs = []) then Some (kOk, out, it, leftmost)
      else filter_loop rounds size f junk it leftmost out
    else Some (status, [], it, leftmost)
  end.

End Loops.

(** [read] of every operator. *)
Fixpoint read (junk : agg_point) (fuel size : nat) (leftmost : bool) (op : AggregateOperator)
    : option (Status * list agg_point * AggregateOperator * bool) :=
  match fuel with
  | O => None
  | S fuel =>
    let rd := read junk fuel in
    match op with
    | AOEmpty b e => Some (kNoData, [], op, leftmost)
    | AOValue a => let '(st, out, a) := ValueAgg.read size a in Some (st, out, AOValue a, leftmost)
    | AOLeaf a => '(st, out, a) ← LeafAgg.read size a; Some (st, option_list out, AOLeaf a, leftmost)
    | AOLeafGroup a => '(st, out, a) ← LeafGroup.read size a; Some (st, out, AOLeafGroup a, leftmost)
    | AOSBlock KAggregate s iter =>
      if decide (size = 0)%nat then Some (kBadArg, [], op, leftmost) else
      '(status, s) ← prepare s;
      if decide (status ≠ kOk) then Some (status, [], AOSBlock KAggregate s iter, leftmost) else
      '(status, out, s, iter, leftmost) ← sum_loop rd fuel s iter leftmost (replicate SZBUF 0) 0 INIT_AGGRES 0;
      Some (status, out, AOSBlock KAggregate s iter, leftmost)
    | AOSBlock k s iter =>
      '(status, s) ← prepare s;
      if decide (status ≠ kOk) then Some (status, [], AOSBlock k s iter, leftmost) else
      '(status, out, s, iter, leftmost) ← iter_loop rd fuel size k s iter leftmost kNoData [];
      Some (status, out, AOSBlock k s iter, leftmost)
    | AOSBlockGroup step s rb done iter =>
      if decide (size = 0)%nat then Some (kBadArg, [], op, leftmost) else
      '(status, s) ← prepare s;
      if decide (status ≠ kOk) then Some (status, [], AOSBlockGroup step s rb done iter, leftmost) else
      copy_loop rd fuel size step s rb done iter leftmost kOk []
    | AORoot found impl => '(st, out, impl, found) ← rd size found impl; Some (st, out, AORoot found impl, leftmost)
    | AOCombine iters dir ix =>
      if decide (size = 0)%nat then Some (kBadArg, [], op, leftmost) else
      if decide (ix = length iters) then Some (kNoData, [], op, leftmost) else
      '(st, out, iters, ix, leftmost) ← combine_loop rd fuel iters ix leftmost 0 INIT_AGGRES 0;
      Some (st, out, AOCombine iters dir ix, leftmost)
    | AOCombineGroup b e step iters dir ix rb =>
      if decide (size = 0)%nat then Some (kBadArg, [], op, leftmost) else
      ccopy_loop rd fuel size b e step iters dir ix rb leftmost kOk []
    | AOFanIn iters dir ix =>
      if decide (size = 0)%nat then Some (kBadArg, [], op, leftmost) else
      if decide (ix = length iters) then Some (kNoData, [], op, leftmost) else
      '(st, out, iters, leftmost) ← fan_loop rd fuel size iters (replicate (length iters) (TS_MAX, INIT_AGGRES)) TS_MAX leftmost [];
      Some (st, out, AOFanIn iters dir ix, leftmost)
    | AOFilter f it =>
      '(st, out, it, leftmost) ← filter_loop rd fuel size f junk it leftmost [];
      Some (st, out, AOFilter f it, leftmost)
    end
  end.

End Ops.

Fixpoint get_direction (op : AggregateOperator) : Direction :=
  match op with
  | AOEmpty b e => direction b e
  | AOValue a => va_dir a
  | AOLeaf a => LeafIter.get_direction (la_iter a)
  | AOLeafGroup a => LeafIter.get_direction (lg_iter a)
  | AOSBlock _ s _ | AOSBlockGroup _ s _ _ _ => SBlock.get_direction s
  | AORoot _ _ => FORWARD
  | AOCombine _ dir _ | AOCombineGroup _ _ _ _ dir _ _ | AOFanIn _ dir _ => dir
  | AOFilter _ it => get_direction it
  end.

Definition first_direction (iters : list AggregateOperator) : Direction :=
  match iters with [] => FORWARD | it :: _ => get_direction it end.

(** The constructors over several operators. *)
Definition combine (iters : list AggregateOperator) : AggregateOperator := AOCombine iters (first_direction iters) 0.
Definition fan_in (iters : list AggregateOperator) : AggregateOperator := AOFanIn iters (first_direction iters) 0.
Definition combine_group (begin_ end_ step : Z) (iters : list AggregateOperator) : AggregateOperator :=
  AOCombineGroup begin_ end_ step iters (first_direction iters) 0 Rdbuf.empty.

(** [NBTreeSBlockAggregator] over a node in memory. *)
Definition root (sblock : IOVecSuperblock) (begin_ end_ : Z) : option AggregateOperator :=
  let mn := Z.min begin_ end_ in
  let mx := Z.max begin_ end_ in
  s ← SBlock.of_node sblock mn mx None;
  Some (AORoot (bool_decide (mn = 0 ∧ mx = TS_MAX)) (AOSBlock KAggregate s None)).

End AggOp.
