(* ===== verification/AggTree.v ===== *)
(** * Aggregating queries of a tree and of the column store (nbtree.cc,
    column_store.h)

    [aggregate], [group_aggregate], [group_aggregate_filter] and [candlesticks]
    of the extents and of the list of them, and the aggregating queries of the
    column store. *)
From S2P Require Import Prelude Status ByteStream Base128 VByte DataBlock DataBlockProof IOVec Blocks Volume Crc32c BlockStoreProof MemStore Double SubtreeRef Operator Leaf LeafIter Superblock TreeIter Extents ColumnStore Aggregate.

Module AggTree.

(** ** Extents *)

Definition ext_aggregate (begin_ end_ : Z) (x : NBTreeExtent) : option AggregateOperator :=
  match x with
  | LeafExtent e => a ← LeafAgg.make begin_ end_ (le_leaf e); Some (AOLeaf a)
  | SBlockExtent e => AggOp.root (se_curr e) begin_ end_
  end.

Definition ext_group_aggregate (begin_ end_ step : Z) (x : NBTreeExtent) : option AggregateOperator :=
  match x with
  | LeafExtent e => a ← LeafGroup.make begin_ end_ step (le_leaf e); Some (AOLeafGroup a)
  | SBlockExtent e =>
    s ← SBlock.of_node (se_curr e) begin_ end_ None; Some (AOSBlockGroup step s Rdbuf.empty false None)
  end.

Definition ext_candlesticks (begin_ end_ min_delta : Z) (x : NBTreeExtent) : option AggregateOperator :=
  match x with
  | LeafExtent e =>
    h ← Leaf.get_leafmeta (le_leaf e);
    Some (AOValue (ValueAgg.make (sr_end h) (Agg.copy_from h) (direction begin_ end_)))
  | SBlockExtent e =>
    s ← SBlock.of_node (se_curr e) begin_ end_ None; Some (AOSBlock (KCandlesticks min_delta) s None)
  end.

(** ** The list *)

(** The operators of the extents, in the order of the query. *)
Definition operators (op : NBTreeExtent → option AggregateOperator) (begin_ end_ : Z) (l : ExtentsList)
    : option (list AggregateOperator) :=
  match el_extents l with
  | [] => Some [AOEmpty begin_ end_]
  | es => mapM op (if decide (begin_ < end_) then reverse es else es)
  end.

Definition aggregate (begin_ end_ : Z) (l : ExtentsList) : option AggregateOperator :=
  iterators ← operators (ext_aggregate begin_ end_) begin_ end_ l;
  match iterators with [it] => Some it | _ => Some (AggOp.combine iterators) end.

Definition group_aggregate (begin_ end_ step : Z) (l : ExtentsList) : option AggregateOperator :=
  iterators ← operators (ext_group_aggregate begin_ end_ step) begin_ end_ l;
  Some (AggOp.combine_group begin_ end_ step iterators).

Definition group_aggregate_filter (begin_ end_ step : Z) (f : AggregateFilter) (l : ExtentsList) : option AggregateOperator :=
  iter ← group_aggregate begin_ end_ step l; Some (AOFilter f iter).

Definition candlesticks (begin_ end_ min_delta : Z) (l : ExtentsList) : option AggregateOperator :=
  iterators ← operators (ext_candlesticks begin_ end_ min_delta) begin_ end_ l;
  match iterators with [it] => Some it | _ => Some (AggOp.combine iterators) end.

(** The queries initialize the list first. *)
Definition query {B} `{BlockStore B} (impl : crc32c_impl_t) (at_ : nat → Z) (rounds fuel : nat)
    (op : ExtentsList → option AggregateOperator) (l : ExtentsList) (bstore : B)
    : option (AggregateOperator * ExtentsList * B) :=
  '(l, bstore) ← Tree.force_init impl at_ rounds fuel l bstore;
  op ← op l;
  Some (op, l, bstore).

End AggTree.

(** ** [ColumnStore] *)

Module CStoreAgg.
Section Ops.
Context {B : Type} `{BlockStore B}.
Variables (impl : crc32c_impl_t) (at_ : nat → Z) (rounds fuel : nat).

Definition aggregate (ids : list Z) (begin_ end_ : Z) (cs : ColumnStore) (bstore : B)
    : option (Status * list AggregateOperator * ColumnStore * B) :=
  CStore.iterate impl at_ rounds fuel ids
    (λ elist, op ← AggTree.aggregate begin_ end_ elist; Some (kOk, Some op)) [] cs bstore.

Definition group_aggregate (ids : list Z) (begin_ end_ step : Z) (cs : ColumnStore) (bstore : B)
    : option (Status * list AggregateOperator * ColumnStore * B) :=
  CStore.iterate impl at_ rounds fuel ids
    (λ elist, op ← AggTree.group_aggregate begin_ end_ step elist; Some (kOk, Some op)) [] cs bstore.

Definition group_aggfilter (ids : list Z) (begin_ end_ step : Z) (filters : gmap Z AggregateFilter) (cs : ColumnStore)
    (bstore : B) : option (Status * list AggregateOperator * ColumnStore * B) :=
  CStore.iterate impl at_ rounds fuel ids (λ elist,
    match filters !! el_id elist with
    | None => Some (kBadArg, None)
    | Some flt =>
      op ← (if decide (af_bitmap flt ≠ 0) then AggTree.group_aggregate_filter begin_ end_ step flt elist
            else AggTree.group_aggregate begin_ end_ step elist);
      Some (kOk, Some op)
    end) [] cs bstore.

End Ops.
End CStoreAgg.
