(* ===== verification/AggProof.v ===== *)
(** * Aggregates of a range

    [agg_of a pts]: the result [a] is the aggregate of the points [pts], in the
    order of time.  Results of adjacent runs combine; the metadata of a
    subtree is the result for its points; and the operators over a subtree
    deliver the result for the points of the range, whichever of the two ways
    they take at each node. *)
From stdpp Require Import sorting.
From S2P Require Import Prelude Status ByteStream Base128 VByte DataBlock DataBlockProof IOVec Blocks Volume Crc32c BlockStoreProof MemStore Double SubtreeRef Operator Leaf LeafIter Superblock TreeIter TreeRead Content Aggregate.

(** ** What an aggregate says of its points *)

Record agg_of (a : AggregationResult) (pts : list point) : Prop := {
  ao_cnt : ag_cnt a = double_of_u64 (Z.of_nat (length pts));
  ao_sum : adds (pts.*2) (ag_sum a);
  ao_min : ∃ t0, (ag_min a, ag_mints a) = foldl Agg.min_step (DBL_MAX, t0) pts;
  ao_max : ∃ t0, (ag_max a, ag_maxts a) = foldl Agg.max_step (DBL_LOWEST, t0) pts;
  ao_nan : Forall (λ x, is_nan x.2 = false) pts;
  ao_begin : match head pts with Some x => ag_begin a = x.1 ∧ ag_first a = x.2 | None => ag_begin a = TS_MAX end;
  ao_end : match last pts with Some x => ag_end a = x.1 ∧ (ag_end a, ag_last a) ∈ pts | None => ag_end a = 0 end;
}.

(** Points that the operators can tell from no points: the times 0 and the
    largest one stand for none in [INIT_AGGRES]. *)
Record aggregable (pts : list point) : Prop := {
  ro_sorted : ts_sorted pts;
  ro_times : Forall (λ x, 0 < x.1 < TS_MAX) pts;
  ro_length : Z.of_nat (length pts) < 2 ^ 53;
}.

Lemma aggregable_app p1 p2 : aggregable (p1 ++ p2) → aggregable p1 ∧ aggregable p2.
Proof.
  intros [Hs Ht Hl]. rewrite length_app in Hl. apply StronglySorted_app in Hs as (_&H1&H2). apply Forall_app in Ht as [??].
  split; constructor; done || lia.
Qed.

Lemma agg_of_init : agg_of INIT_AGGRES [].
Proof. constructor; simpl; [done|apply adds_nil|by eexists|by eexists|done..]. Qed.

Lemma agg_of_ref ref pts : describes ref pts → pts ≠ [] → Z.of_nat (length pts) < 2 ^ 53 → agg_of (Agg.copy_from ref) pts.
Proof.
  intros Hd Hne Hl. constructor; simpl.
  - rewrite (de_count _ _ Hd), u64_id by (unfold is_u64; lia). done.
  - apply (de_sum _ _ Hd).
  - apply (de_min_time _ _ Hd).
  - apply (de_max_time _ _ Hd).
  - apply Forall_forall. intros x Hx. by apply (de_value _ _ Hd).
  - destruct (head pts) as [x|] eqn:Ex; [|by apply head_None in Ex]. by apply (de_begin _ _ Hd).
  - destruct (last pts) as [x|] eqn:Ex; [|by apply last_None in Ex]. destruct (de_end _ _ Hd x Ex) as [-> ->].
    split; [done|]. rewrite <- surjective_pairing. by apply last_Some_elem_of.
Qed.

(** The metadata of a leaf, with points or without. *)
Lemma agg_of_leaf h pts :
  summarises h pts → Forall (λ x, finite x.2) pts → Z.of_nat (length pts) < 2 ^ 53 →
  (pts = [] → sr_begin h = TS_MAX ∧ sr_end h = 0) → agg_of (Agg.copy_from h) pts.
Proof.
  intros Hs Hf Hl He. constructor; simpl.
  - by rewrite (su_count _ _ Hs).
  - rewrite (su_sum _ _ Hs). apply (adds_foldl _ []), adds_nil.
  - eexists. apply (su_min_time _ _ Hs).
  - eexists. apply (su_max_time _ _ Hs).
  - eapply Forall_impl; [exact Hf|]. intros; by apply finite_not_nan.
  - destruct (head pts) as [x|] eqn:Ex; [by apply (su_begin _ _ Hs)|]. apply head_None in Ex. by apply He.
  - destruct (last pts) as [x|] eqn:Ex; [|apply last_None in Ex; by apply He]. destruct (su_end _ _ Hs x Ex) as [-> ->].
    split; [done|]. rewrite <- surjective_pairing. by apply last_Some_elem_of.
Qed.

Lemma agg_of_math pts a :
  Agg.do_the_math pts false INIT_AGGRES = Some a → Forall (λ x, is_nan x.2 = false) pts →
  Z.of_nat (length pts) < 2 ^ 53 → agg_of a pts.
Proof.
  unfold Agg.do_the_math. intros E Hn Hl. destruct (head pts) as [x|] eqn:Ex; [|done].
  destruct (last pts) as [y|] eqn:Ey; [|done]. cbn [mbind option_bind] in E.
  destruct (foldl Agg.min_step _ _) as [mn mints] eqn:Em, (foldl Agg.max_step _ _) as [mx maxts] eqn:Ema.
  injection E as <-. constructor; simpl.
  - by rewrite dadd_zero_count by lia.
  - apply (adds_foldl _ []), adds_nil.
  - by eexists.
  - by eexists.
  - done.
  - by rewrite Ex.
  - rewrite Ey. split; [done|]. rewrite <- surjective_pairing. by apply last_Some_elem_of.
Qed.

(** The parts of a combination. *)
Lemma combine_parts o a :
  ag_cnt (Agg.combine o a) = dadd (ag_cnt a) (ag_cnt o) ∧ ag_sum (Agg.combine o a) = dadd (ag_sum a) (ag_sum o) ∧
  (ag_min (Agg.combine o a), ag_mints (Agg.combine o a)) = Agg.min_step (ag_min a, ag_mints a) (ag_mints o, ag_min o) ∧
  (ag_max (Agg.combine o a), ag_maxts (Agg.combine o a)) = Agg.max_step (ag_max a, ag_maxts a) (ag_maxts o, ag_max o) ∧
  (ag_begin (Agg.combine o a), ag_first (Agg.combine o a)) =
    (if decide (ag_begin o < ag_begin a) then (ag_begin o, ag_first o) else (ag_begin a, ag_first a)) ∧
  (ag_end (Agg.combine o a), ag_last (Agg.combine o a)) =
    (if decide (ag_end a < ag_end o) then (ag_end o, ag_last o) else (ag_end a, ag_last a)).
Proof.
  unfold Agg.combine. destruct (Agg.min_step _ _), (Agg.max_step _ _). do 2 case_decide; done.
Qed.

Lemma agg_combine_first a1 a2 p1 p2 :
  agg_of a1 p1 → agg_of a2 p2 → aggregable (p1 ++ p2) →
  match head (p1 ++ p2) with
  | Some x => ag_begin (Agg.combine a2 a1) = x.1 ∧ ag_first (Agg.combine a2 a1) = x.2
  | None => ag_begin (Agg.combine a2 a1) = TS_MAX
  end.
Proof.
  intros A1 A2 [Hs Ht _]. pose proof (ao_begin _ _ A1) as B1. pose proof (ao_begin _ _ A2) as B2.
  destruct (combine_parts a2 a1) as (_&_&_&_&E&_). destruct p1 as [|x p1].
  - destruct p2 as [|y p2]; simpl in *.
    + rewrite decide_False in E by (rewrite B1, B2; lia). by injection E as -> _.
    + apply Forall_cons in Ht as [? _]. destruct B2 as [B2 ?].
      rewrite decide_True in E by (rewrite B1, B2; lia). by injection E as -> ->.
  - simpl in *. destruct B1 as [B1 ?]. rewrite decide_False in E; [by injection E as -> ->|]. rewrite B1.
    destruct p2 as [|y p2]; simpl in B2.
    + apply Forall_cons in Ht as [? _]. rewrite B2. lia.
    + destruct B2 as [-> _]. apply StronglySorted_cons in Hs as [Hs _]. rewrite Forall_forall in Hs.
      specialize (Hs y ltac:(set_solver)). lia.
Qed.

Lemma agg_combine_last a1 a2 p1 p2 :
  agg_of a1 p1 → agg_of a2 p2 → aggregable (p1 ++ p2) →
  match last (p1 ++ p2) with
  | Some x => ag_end (Agg.combine a2 a1) = x.1 ∧ (ag_end (Agg.combine a2 a1), ag_last (Agg.combine a2 a1)) ∈ p1 ++ p2
  | None => ag_end (Agg.combine a2 a1) = 0
  end.
Proof.
  intros A1 A2 [Hs Ht _]. pose proof (ao_end _ _ A1) as E1. pose proof (ao_end _ _ A2) as E2.
  destruct (combine_parts a2 a1) as (_&_&_&_&_&E). rewrite Forall_forall in Ht. rewrite E.
  rewrite last_app. destruct (last p2) as [z|] eqn:Ez.
  - destruct E2 as [E2 I2]. pose proof (last_Some_elem_of _ _ Ez) as Hz. pose proof (Ht z ltac:(set_solver)) as Hzt.
    destruct (last p1) as [w|] eqn:Ew.
    + destruct E1 as [E1 I1]. pose proof (last_Some_elem_of _ _ Ew) as Hw.
      assert (w.1 ≤ z.1) by exact (StronglySorted_app_1_elem_of (λ x y : point, x.1 ≤ y.1) p1 p2 w z Hs Hw Hz).
      case_decide; injection E as -> _; (split; [lia|set_solver]).
    + rewrite decide_True in * by lia. injection E as -> _. split; [done|set_solver].
  - destruct (last p1) as [w|] eqn:Ew.
    + destruct E1 as [E1 I1]. pose proof (Ht w ltac:(apply last_Some_elem_of in Ew; set_solver)).
      rewrite decide_False in * by lia. injection E as -> _. split; [done|set_solver].
    + rewrite decide_False in E by lia. by injection E as -> _.
Qed.

Lemma agg_combine a1 a2 p1 p2 : agg_of a1 p1 → agg_of a2 p2 → aggregable (p1 ++ p2) → agg_of (Agg.combine a2 a1) (p1 ++ p2).
Proof.
  intros A1 A2 Hok. pose proof (agg_combine_first _ _ _ _ A1 A2 Hok) as Hfirst.
  pose proof (agg_combine_last _ _ _ _ A1 A2 Hok) as Hlast.
  destruct (combine_parts a2 a1) as (Ec&Es&Em&Ex&_&_). pose proof (ro_length _ Hok) as Hl. rewrite length_app in Hl.
  destruct A1 as [C1 S1 [t1 M1] [u1 X1] N1 _ _], A2 as [C2 S2 [t2 M2] [u2 X2] N2 _ _].
  destruct (Agg.min_fold_le p1 (DBL_MAX, t1) eq_refl N1) as [Hm1 Hm2]. rewrite <- M1 in Hm1, Hm2.
  destruct (Agg.max_fold_ge p1 (DBL_LOWEST, u1) eq_refl N1) as [Hx1 Hx2]. rewrite <- X1 in Hx1, Hx2.
  constructor; [| | | | |done|done].
  - rewrite Ec, C1, C2, length_app, dadd_count by lia. f_equal. lia.
  - rewrite Es, fmap_app. by apply adds_app.
  - exists t1. rewrite Em, foldl_app, <- M1. exact (Agg.min_step_run p2 _ _ _ t2 Hm1 Hm2 N2 M2).
  - exists u1. rewrite Ex, foldl_app, <- X1. exact (Agg.max_step_run p2 _ _ _ u2 Hx1 Hx2 N2 X2).
  - by apply Forall_app.
Qed.

(** Combining a list of results. *)
Lemma agg_combine_all outs rs a p0 :
  Forall2 agg_of outs rs → agg_of a p0 → aggregable (p0 ++ concat rs) → agg_of (foldl (λ l r, Agg.combine r l) a outs) (p0 ++ concat rs).
Proof.
  intros Hf. revert a p0. induction Hf as [|x p outs rs Hx _ IH]; intros a p0 Ha Hok; simpl in *; [by rewrite app_nil_r|].
  rewrite app_assoc in *. apply IH; [|done]. apply agg_combine; [done..|]. by apply aggregable_app in Hok as [? _].
Qed.

(** ** Reading the operators of an aggregate *)

Section Read.
Import AggOp.
Context {B : Type} `{BlockStore B}.
Variables (impl : crc32c_impl_t) (at_ : Z) (bstore : B) (junk : agg_point).

Notation read := (read impl at_ bstore junk).
Notation open_child := (open_child impl at_ bstore KAggregate).
Notation iter_loop := (iter_loop impl at_ bstore).
Notation sum_loop := (sum_loop impl at_ bstore).

(** Nothing is left. *)
Definition spent (op : AggregateOperator) : Prop :=
  ∃ N op', ∀ fuel size leftmost, (N ≤ fuel)%nat → (0 < size)%nat → read fuel size leftmost op = Some (kNoData, [], op', leftmost).

(** One [read] delivers the aggregate of the points, if there are any; a leaf
    without points may deliver the aggregate of none. *)
Definition sums (op : AggregateOperator) (leftmost : bool) (size : nat) (pts : list point) : Prop :=
  ∃ N st out op' leftmost', (∀ fuel, (N ≤ fuel)%nat → read fuel size leftmost op = Some (st, out, op', leftmost')) ∧
    (out = [] ∧ pts = [] ∨ ∃ x, out = [x] ∧ agg_of x.2 pts) ∧ (st = kNoData ∨ st = kOk ∧ spent op').

Definition all_sums (P : AggregateOperator → list point → Prop) : Prop :=
  ∀ op pts leftmost size, P op pts → aggregable pts → (0 < size)%nat → sums op leftmost size pts.

Definition aopens (P : AggregateOperator → list point → Prop) (s : SBlockIter) (ref : SubtreeRef) (pts : list point) : Prop :=
  ∀ leftmost,
  (∃ st, open_child ref s leftmost = Some (st, None, leftmost) ∧ (st = kNotFound ∨ st = kUnavailable) ∧ pts = []) ∨
  (∃ op leftmost', open_child ref s leftmost = Some (kOk, Some op, leftmost') ∧ P op pts).

(** A node whose children are all still to be read. *)
Definition anode (P : AggregateOperator → list point → Prop) (s : SBlockIter) (pts : list point) : Prop :=
  ∃ pss, pos_ok s ∧ SBlock.get_direction s = FORWARD ∧ Forall2 (aopens P s) (pending s) pss ∧ (length pss < SZBUF)%nat ∧ pts = concat pss.

Definition aleaf (a : LeafAggregator) (pts : list point) : Prop :=
  li_begin (la_iter a) < li_end (la_iter a) ∧ Forall (λ x, is_nan x.2 = false) pts ∧
  (la_cached a = true ∧ agg_of (Agg.copy_from (la_meta a)) pts ∧ LeafIter.get_size (la_iter a) = Some 0 ∨
   la_cached a = false ∧ ready (la_iter a) pts ∧ (li_status (la_iter a) = kOk ∨ li_status (la_iter a) = kNoData ∧ pts = [])).

Fixpoint aview (n : nat) (op : AggregateOperator) (pts : list point) : Prop :=
  match n, op with
  | _, AOEmpty _ _ => pts = []
  | _, AOValue a => va_used a = false ∧ agg_of (va_value a) pts
  | O, AOLeaf a => aleaf a pts
  | S n, AOSBlock KAggregate s iter =>
    iter = None ∧ ∃ s', prepare impl at_ bstore s = Some (kOk, s') ∧ anode (aview n) s' pts
  | _, _ => False
  end.

(** *** One operator *)

Lemma sums_empty b e leftmost size : sums (AOEmpty b e) leftmost size [].
Proof. exists 1%nat. eexists _, _, _, _. split; [intros [|fuel] Hf; [lia|done]|]. split; by left. Qed.

Lemma sums_value a pts leftmost size :
  va_used a = false → agg_of (va_value a) pts → (0 < size)%nat → sums (AOValue a) leftmost size pts.
Proof.
  intros Hu Ha Hsz. exists 1%nat. eexists kOk, [_], _, _. split; [|split].
  - intros [|fuel] Hf; [lia|]. cbn [AggOp.read]. unfold ValueAgg.read. rewrite decide_False by lia. by rewrite Hu.
  - right. eexists. split; [done|]. exact Ha.
  - right. split; [done|]. exists 1%nat. eexists. intros [|fuel] size' lm Hf Hs; [lia|]. cbn [AggOp.read]. unfold ValueAgg.read.
    by rewrite decide_False by lia.
Qed.

Lemma spent_leaf it r : LeafIter.get_size it = Some 0 → spent (AOLeaf (mkLeafAgg it false r)).
Proof.
  intros Hz. exists 1%nat. eexists. intros [|fuel] size lm Hf Hs; [lia|]. cbn [AggOp.read]. unfold LeafAgg.read. rewrite decide_False by lia.
  cbn [la_cached la_iter]. rewrite Hz. cbn [mbind option_bind]. by rewrite decide_True by done.
Qed.

(** After all the points of a leaf were read, none is left. *)
Lemma agg_read_spent it rp size r x agg a' :
  li_begin it < li_end it → ready it rp → rp ≠ [] → (0 < size)%nat →
  LeafAgg.read size (mkLeafAgg it false r) = Some (kOk, Some (x, agg), a') →
  ∃ it', a' = mkLeafAgg it' false r ∧ LeafIter.get_size it' = Some 0.
Proof.
  intros Hbe Hr Hne Hsz. pose proof (ready_length _ _ Hr) as Hn. unfold LeafAgg.read.
  rewrite decide_False by lia. cbn [la_cached la_iter la_meta]. unfold LeafIter.get_size at 1.
  destruct Hr as (H1&H2&_). rewrite decide_False by lia. cbn [mbind option_bind].
  assert (0 < length rp)%nat by (destruct rp; [done|simpl; lia]).
  rewrite decide_False by lia. unfold LeafIter.read.
  case_decide; [cbn [mbind option_bind]; by rewrite decide_True by done|].
  rewrite Z2Nat.id, Z.min_id, decide_False by lia. case_decide; [done|]. cbn [mbind option_bind].
  rewrite decide_False by (intros Hx; by apply Hx). case_decide; [done|]. case_decide; [done|].
  destruct (Agg.do_the_math _ _ _); [|done]. cbn [mbind option_bind]. destruct (head _); [|done].
  intros E. injection E as _ _ <-. eexists. split; [done|]. unfold LeafIter.get_size. cbn [li_to li_from].
  rewrite decide_False by lia. f_equal. lia.
Qed.

Lemma sums_leaf a pts leftmost size : aleaf a pts → aggregable pts → (0 < size)%nat → sums (AOLeaf a) leftmost size pts.
Proof.
  intros (Hbe&Hn&Hc) Hok Hsz. destruct a as [it cached r]. cbn [la_iter la_cached la_meta] in *.
  destruct Hc as [(->&Ha&Hz)|(->&Hr&Hst)].
  - exists 1%nat. eexists kOk, [(sr_begin r, Agg.copy_from r)], _, _.
    split; [|split; [right; eexists; split; [reflexivity|exact Ha]|right; split; [done|]]].
    + intros [|fuel] Hf; [lia|]. cbn [AggOp.read]. unfold LeafAgg.read. rewrite decide_False by lia. reflexivity.
    + by apply spent_leaf.
  - destruct (agg_read_slow it pts size r Hbe Hr Hst Hsz) as (a'&Ha). destruct (decide (pts = [])) as [->|Hne].
    + exists 1%nat. eexists kNoData, [], _, _. split; [|split; by left]. intros [|fuel] Hf; [lia|]. cbn [AggOp.read]. by rewrite Ha.
    + destruct Ha as (x&agg&Ex&Em&Er). destruct (agg_read_spent _ _ _ _ _ _ _ Hbe Hr Hne Hsz Er) as (it'&->&Hz).
      exists 1%nat. eexists kOk, [(x.1, agg)], _, _.
      split; [|split; [right; eexists; split; [reflexivity|]|right; split; [done|by apply spent_leaf]]].
      * intros [|fuel] Hf; [lia|]. cbn [AggOp.read]. by rewrite Er.
      * simpl. apply agg_of_math; [done..|apply Hok].
Qed.

(** *** The children of a node *)

(** The rounds of the loop that read one child. *)
Lemma child_round op s leftmost pts size out :
  sums op leftmost (size - length out) pts → (length out + 1 < size)%nat → SBlock.get_direction s = FORWARD →
  ∃ N extra more leftmost', (more = [] ∧ pts = [] ∨ ∃ x, more = [x] ∧ agg_of x.2 pts) ∧ (0 < extra)%nat ∧
    ∀ fuel rounds st0, (N ≤ fuel)%nat →
      iter_loop (read fuel) (extra + rounds) size KAggregate s (Some op) leftmost st0 out
      = iter_loop (read fuel) rounds size KAggregate s None leftmost' kNoData (out ++ more).
Proof.
  intros (N&st&more&op'&lm'&E&Hm&Hst) Hroom Hd.
  assert (Hl : (length more ≤ 1)%nat) by (destruct Hm as [[-> _]|(x&->&_)]; simpl; lia).
  assert (E1 : ∀ fuel n st0, (N ≤ fuel)%nat → iter_loop (read fuel) (S n) size KAggregate s (Some op) leftmost st0 out =
    if decide (st = kNoData ∨ st = kUnavailable ∧ SBlock.get_direction s = FORWARD)
    then iter_loop (read fuel) n size KAggregate s None lm' st (out ++ more)
    else if decide (st ≠ kOk) then Some (st, out ++ more, s, Some op', lm')
    else iter_loop (read fuel) n size KAggregate s (Some op') lm' st (out ++ more)).
  { intros fuel n st0 Hf. cbn [AggOp.iter_loop]. rewrite decide_False by lia. unfold current_iter. cbn [mbind option_bind].
    rewrite decide_False by (intros [?|?]; done). rewrite decide_False by (intros Hx; by apply Hx).
    by rewrite E by lia. }
  destruct Hst as [->|[-> (N2&op2&Hsp)]].
  - exists N, 1%nat, more, lm'. split_and!; [done|lia|]. intros fuel rounds st0 Hf. simpl plus. rewrite E1 by done.
    by rewrite decide_True by (by left).
  - exists (Nat.max N N2), 2%nat, more, lm'. split_and!; [done|lia|]. intros fuel rounds st0 Hf. simpl plus. rewrite E1 by lia.
    rewrite decide_False by (intros [?|[? _]]; done).
    rewrite decide_False by (intros Hx; by apply Hx). cbn [AggOp.iter_loop]. rewrite length_app, decide_False by lia.
    unfold current_iter. cbn [mbind option_bind].
    rewrite decide_False by (intros [?|?]; done). rewrite decide_False by (intros Hx; by apply Hx).
    rewrite Hsp by lia. cbn [mbind option_bind].
    rewrite decide_True by (by left). by rewrite app_nil_r.
Qed.

Lemma iter_loop_sums P pss s leftmost st out size :
  all_sums P → pos_ok s → Forall2 (aopens P s) (pending s) pss → Forall aggregable pss →
  (length out + length pss < size)%nat → SBlock.get_direction s = FORWARD →
  ∃ N p more rs leftmost', (∀ fuel rounds, (N ≤ fuel)%nat → (N ≤ rounds)%nat →
      iter_loop (read fuel) rounds size KAggregate s None leftmost st out
      = Some (kNoData, out ++ more, SBlock.set_pos p s, None, leftmost')) ∧
    pos_ok (SBlock.set_pos p s) ∧ pending (SBlock.set_pos p s) = [] ∧
    Forall2 (λ x r, agg_of x.2 r) more rs ∧ concat rs = concat pss ∧ (length more ≤ length pss)%nat.
Proof.
  intros HP. revert s leftmost st out. induction pss as [|pts pss IH]; intros s leftmost st out Hp Hf Hok Hroom Hd;
    pose proof (next_ref_ok s Hp) as Hn.
  - apply Forall2_nil_inv_r in Hf. rewrite Hf in Hn. exists 1%nat, (si_refs_pos s), [], [], leftmost.
    assert (Es : SBlock.set_pos (si_refs_pos s) s = s) by (by destruct s). rewrite Es. split_and!; [|done..].
    intros fuel [|rounds] _ Hr; [lia|]. cbn [AggOp.iter_loop]. simpl length in Hroom. rewrite decide_False by lia.
    unfold current_iter, get_next_iter. rewrite Hn. cbn [mbind option_bind]. rewrite decide_False by (intros [?|?]; done).
    rewrite decide_True by done. by rewrite app_nil_r.
  - destruct (pending s) as [|r rs0] eqn:Ep; [by apply Forall2_nil_inv_l in Hf|].
    apply Forall2_cons in Hf as [Ho Hf]. apply Forall_cons in Hok as [Hok1 Hok]. simpl length in Hroom.
    destruct Hn as (p&En&Hp'&Ep'). rewrite <- Ep' in Hf.
    assert (Hcur : current_iter impl at_ bstore KAggregate s None leftmost =
      ('(status, it, lm) ← open_child r s leftmost; Some (status, it, SBlock.set_pos p s, lm)))
      by (unfold current_iter, get_next_iter; by rewrite En).
    destruct (Ho leftmost) as [(st1&Eo&Hst&->)|(op&lm&Eo&Hop)].
    + destruct (IH (SBlock.set_pos p s) leftmost st1 out Hp' Hf Hok ltac:(lia) Hd) as (N&p2&more&rs&lm'&E&H1&H2&H3&H4&H5).
      exists (S N), p2, more, rs, lm'. split_and!; [|done..|simpl; lia]. intros fuel [|rounds] Hfu Hr; [lia|].
      cbn [AggOp.iter_loop]. rewrite decide_False by lia. rewrite Hcur, Eo. cbn [mbind option_bind].
      rewrite decide_True by done. apply E; lia.
    + destruct (child_round op (SBlock.set_pos p s) lm pts size out) as (N1&extra&more1&lm1&Hm1&Hex&E2); [apply (HP _ _ _ _ Hop); [done|lia]|lia|done|].
      assert (Hl1 : (length more1 ≤ 1)%nat) by (destruct Hm1 as [[-> _]|(x&->&_)]; simpl; lia).
      destruct (IH (SBlock.set_pos p s) lm1 kNoData (out ++ more1) Hp' Hf Hok) as (N&p2&more&rs&lm'&E&H1&H2&H3&H4&H5);
        [rewrite length_app; lia|done|].
      exists (extra + Nat.max N1 N)%nat, p2, (more1 ++ more), (match more1 with [] => rs | _ => pts :: rs end), lm'.
      split_and!; [|done|done| | |rewrite length_app; simpl; lia].
      * intros fuel rounds Hfu Hr. replace rounds with (extra + (rounds - extra))%nat by lia.
        destruct extra as [|extra]; [lia|]. 
        transitivity (iter_loop (read fuel) (S extra + (rounds - S extra)) size KAggregate (SBlock.set_pos p s) (Some op) lm kOk out).
        { simpl plus. cbn [AggOp.iter_loop]. rewrite !(decide_False (P := (size ≤ length out)%nat)) by lia.
          rewrite Hcur, Eo. reflexivity. }
        rewrite E2, app_assoc by lia. apply E; lia.
      * destruct Hm1 as [[-> _]|(x&->&Hx)]; simpl; [done|by constructor].
      * destruct Hm1 as [[-> ->]|(x&->&Hx)]; simpl; by rewrite H4.
Qed.

Lemma aggregable_concat pss : aggregable (concat pss) → Forall aggregable pss.
Proof. induction pss as [|p pss IH]; [by constructor|]. intros [H1 H2]%aggregable_app. constructor; [done|by apply IH]. Qed.

Lemma sum_loop_ok P s pts leftmost :
  all_sums P → anode P s pts → aggregable pts →
  ∃ N out s' leftmost', (∀ fuel rounds, (N ≤ fuel)%nat → (N ≤ rounds)%nat →
      sum_loop (read fuel) rounds s None leftmost (replicate SZBUF 0) 0 INIT_AGGRES 0 = Some (kNoData, out, s', None, leftmost')) ∧
    (out = [] ∧ pts = [] ∨ ∃ x, out = [x] ∧ agg_of x.2 pts).
Proof.
  intros HP (pss&Hp&Hd&Hf&Hlen&->) Hok.
  destruct (iter_loop_sums P pss s leftmost kNoData [] SZBUF HP Hp Hf (aggregable_concat _ Hok) Hlen Hd)
    as (N&p&out&rs&lm&E&Hp'&Epend&Hout&Ers&Hl). simpl app in E. destruct out as [|x out].
  - apply Forall2_nil_inv_l in Hout as ->. exists (S N), [], (SBlock.set_pos p s), lm.
    split; [|left; by rewrite <- Ers]. intros fuel [|rounds] Hfu Hr; [lia|]. cbn [AggOp.sum_loop]. rewrite E by lia.
    cbn [mbind option_bind]. rewrite decide_False by (by intros [_ ?]). rewrite decide_False by (by intros [_ ?]). done.
  - set (s1 := SBlock.set_pos p s) in *.
    destruct (iter_loop_sums P [] s1 lm kNoData [] SZBUF HP Hp' ltac:(rewrite Epend; constructor) ltac:(constructor)
      ltac:(simpl; unfold SZBUF; lia) Hd) as (N2&p2&out2&rs2&lm2&E2&_&_&_&_&Hl2).
    simpl in Hl2. destruct out2; [|simpl in Hl2; lia].
    set (tss := (x :: out).*1 ++ drop (length (x :: out)) (replicate SZBUF 0)).
    assert (is_Some (tss !! length (x :: out))) as [ts Ets].
    { apply lookup_lt_is_Some. unfold tss. rewrite length_app, length_fmap, length_drop, length_replicate. lia. }
    set (agg := foldl (λ l r, Agg.combine r l) INIT_AGGRES ((x :: out).*2)).
    exists (S (S (Nat.max N N2))), [(ts, agg)], (SBlock.set_pos p2 s1), lm2. split.
    + intros fuel [|[|rounds]] Hfu Hr; [lia|lia|]. cbn [AggOp.sum_loop]. rewrite E by lia. cbn [mbind option_bind].
      rewrite decide_True by (split; [by right|done]). fold tss. rewrite Ets. cbn [mbind option_bind]. rewrite E2 by lia.
      cbn [mbind option_bind]. simpl app. rewrite decide_False by (by intros [_ ?]). by rewrite decide_False by (by intros [_ ?]).
    + right. eexists. split; [done|]. simpl snd. rewrite <- Ers in Hok |- *.
      apply (agg_combine_all ((x :: out).*2) rs INIT_AGGRES []); [|apply agg_of_init|exact Hok].
      apply Forall2_fmap_l. exact Hout.
Qed.

Lemma sums_aview n : all_sums (aview n).
Proof.
  induction n as [|n IH]; intros op pts leftmost size Hv Hok Hsz; destruct op as [b e|a|a|a|k s iter| | | | | |]; try done.
  - simpl in Hv. subst. apply sums_empty.
  - destruct Hv. by apply sums_value.
  - by apply sums_leaf.
  - simpl in Hv. subst. apply sums_empty.
  - destruct Hv. by apply sums_value.
  - destruct k; try done. destruct Hv as (->&s'&Ep&Hv).
    destruct (sum_loop_ok (aview n) s' pts leftmost IH Hv Hok) as (N&out&s2&lm&E&Ho).
    exists (S N), kNoData, out, (AOSBlock KAggregate s2 None), lm. split; [|split; [done|by left]].
    intros [|fuel] Hf; [lia|]. cbn [AggOp.read]. rewrite decide_False by lia. rewrite Ep. cbn [mbind option_bind].
    rewrite decide_False by (intros Hx; by apply Hx). by rewrite E by lia.
Qed.

Lemma sums_root found op pts leftmost size : sums op found size pts → sums (AORoot found op) leftmost size pts.
Proof.
  intros (N&st&out&op'&lm&E&Ho&Hst). exists (S N), st, out, (AORoot lm op'), leftmost. split_and!; [|done|].
  - intros [|fuel] Hf; [lia|]. cbn [AggOp.read]. by rewrite E by lia.
  - destruct Hst as [->|[-> (N2&op2&Hsp)]]; [by left|right; split; [done|]]. exists (S N2), (AORoot lm op2).
    intros [|fuel] size' lm' Hf Hs; [lia|]. cbn [AggOp.read]. by rewrite Hsp by lia.
Qed.

(** *** [CombineAggregateOperator] *)

Notation combine_loop := combine_loop.

(** The state of the accumulator: nothing yet, or the aggregate of [p0]. *)
Definition acc_ok (nagg : nat) (agg : AggregationResult) (p0 : list point) : Prop :=
  agg_of agg p0 ∧ (nagg = 0%nat → p0 = []).

Lemma combine_step it leftmost pts ts agg nagg p0 iters ix :
  sums it leftmost SZBUF pts → iters !! ix = Some it → acc_ok nagg agg p0 → aggregable (p0 ++ pts) →
  ∃ N extra it' leftmost' ts' agg' nagg', acc_ok nagg' agg' (p0 ++ pts) ∧ (0 < extra)%nat ∧
    ∀ fuel rounds, (N ≤ fuel)%nat →
      combine_loop (read fuel) (extra + rounds) iters ix leftmost ts agg nagg
      = combine_loop (read fuel) rounds (<[ix := it']> iters) (S ix) leftmost' ts' agg' nagg'.
Proof.
  intros (N&st&out&op'&lm&E&Ho&Hst) Hit [Hagg Hz] Hok. pose proof (lookup_lt_Some _ _ _ Hit) as Hix.
  set (r := match last out with
    | Some x => (x.1, foldl (λ l r, Agg.combine r l) agg (out.*2), S nagg) | None => (ts, agg, nagg) end).
  assert (Hr : acc_ok r.2 r.1.2 (p0 ++ pts)).
  { destruct Ho as [[-> ->]|(x&->&Hx)]; simpl; [by rewrite app_nil_r|]. split; [|done]. by apply agg_combine. }
  assert (E1 : ∀ fuel n, (N ≤ fuel)%nat → combine_loop (read fuel) (S n) iters ix leftmost ts agg nagg =
    if decide (st = kNoData) then combine_loop (read fuel) n (<[ix := op']> iters) (S ix) lm r.1.1 r.1.2 r.2
    else if decide (st ≠ kOk) then Some (st, [], <[ix := op']> iters, ix, lm)
    else combine_loop (read fuel) n (<[ix := op']> iters) ix lm r.1.1 r.1.2 r.2).
  { intros fuel n Hf. cbn [AggOp.combine_loop]. rewrite decide_False by lia. rewrite Hit. cbn [mbind option_bind].
    rewrite E by done. cbn [mbind option_bind]. unfold r. by destruct (last out). }
  destruct Hst as [->|[-> (N2&op2&Hsp)]].
  - exists N, 1%nat. eexists _, _, _, _, _. split; [exact Hr|]. split; [lia|]. intros fuel rounds Hf. simpl plus.
    rewrite E1 by done. by rewrite decide_True.
  - exists (Nat.max N N2), 2%nat. eexists op2, lm, _, _, _. split; [exact Hr|]. split; [lia|]. intros fuel rounds Hf. simpl plus.
    rewrite E1 by lia. rewrite decide_False by done. rewrite decide_False by (intros Hx; by apply Hx).
    cbn [AggOp.combine_loop]. rewrite length_insert, decide_False by lia. rewrite list_lookup_insert_eq by done.
    cbn [mbind option_bind]. rewrite Hsp by (unfold SZBUF; lia). cbn [mbind option_bind last].
    rewrite decide_True by done. by rewrite list_insert_insert_eq.
Qed.

Lemma combine_loop_ok pss iters ix leftmost ts agg nagg p0 :
  Forall2 (λ it p, ∀ lm, sums it lm SZBUF p) (drop ix iters) pss → (ix ≤ length iters)%nat →
  acc_ok nagg agg p0 → aggregable (p0 ++ concat pss) →
  ∃ N out iters' leftmost', (∀ fuel rounds, (N ≤ fuel)%nat → (N ≤ rounds)%nat →
      combine_loop (read fuel) rounds iters ix leftmost ts agg nagg = Some (kOk, out, iters', length iters, leftmost')) ∧
    length iters' = length iters ∧ (out = [] ∧ p0 ++ concat pss = [] ∨ ∃ x, out = [x] ∧ agg_of x.2 (p0 ++ concat pss)).
Proof.
  revert iters ix leftmost ts agg nagg p0. induction pss as [|pts pss IH]; intros iters ix leftmost ts agg nagg p0 Hf Hix Hacc Hok.
  - apply Forall2_nil_inv_r in Hf. assert (Hend : (length iters ≤ ix)%nat) by (apply (f_equal length) in Hf; rewrite length_drop in Hf; simpl in Hf; lia).
    destruct Hacc as [Hagg Hz]. exists 1%nat. eexists _, iters, leftmost. split_and!; [|done|].
    + intros fuel [|rounds] _ Hr; [lia|]. cbn [AggOp.combine_loop]. rewrite decide_True by done. by replace ix with (length iters) by lia.
    + simpl. rewrite app_nil_r. case_decide as Hn; [left; by rewrite Hz|right; by eexists].
  - destruct (iters !! ix) as [it|] eqn:Hit; [|rewrite drop_ge in Hf by (by apply lookup_ge_None); by apply Forall2_nil_inv_l in Hf].
    rewrite (drop_S _ _ _ Hit) in Hf. apply Forall2_cons in Hf as [Hs Hf]. simpl in Hok. rewrite app_assoc in Hok.
    destruct (combine_step it leftmost pts ts agg nagg p0 iters ix (Hs leftmost) Hit Hacc) as (N1&extra&it'&lm&ts'&agg'&nagg'&Hacc'&Hex&E1);
      [by apply aggregable_app in Hok as [? _]|].
    destruct (IH (<[ix := it']> iters) (S ix) lm ts' agg' nagg' (p0 ++ pts)) as (N&out&iters'&lm'&E&Hl&Ho);
      [by rewrite drop_insert_lt by lia|rewrite length_insert; by apply lookup_lt_Some in Hit|done|done|].
    rewrite length_insert in E, Hl.
    exists (extra + Nat.max N1 N)%nat, out, iters', lm'. split_and!; [|done|simpl; by rewrite app_assoc].
    intros fuel rounds Hfu Hr. replace rounds with (extra + (rounds - extra))%nat by lia. rewrite E1 by lia. apply E; lia.
Qed.

End Read.

(** ** Subtrees *)

Section Subtree.
Import AggOp.
Context {B : Type} `{BlockStoreLaws B}.
Context (impl : crc32c_impl_t) `{!Crc32cImpl impl} (at_ : Z).
Variables (k : nat) (bstore : B) (hist : gmap Z (list Z)) (id : Z).
Hypotheses (Hstore : bs_inv k bstore hist) (Hid : is_u64 id).
(** No block of the tree was recycled. *)
Hypothesis Hall : ∀ addr, is_Some (hist !! addr) → bs_exists addr bstore = true.

Notation aview := (aview impl at_ bstore).
Notation aopens := (aopens impl at_ bstore).

Lemma range_all b e pts : b < e → (∀ x, x ∈ pts → b ≤ x.1 ∧ x.1 < e) → range_points b e pts = pts.
Proof. intros Hbe Hx. unfold range_points. rewrite decide_True by done. by apply filter_all, Forall_forall. Qed.

Lemma leaf_aview l h pts b e :
  leaf_reads l h pts → ts_sorted pts → Forall (λ x, finite x.2) pts → Z.of_nat (length pts) < 2 ^ 53 → b < e →
  (pts = [] → sr_begin h = TS_MAX ∧ sr_end h = 0 ∧ b ≤ TS_MAX ∧ 0 < e) →
  ∃ a, LeafAgg.make b e l = Some a ∧ aview 0 (AOLeaf a) (range_points b e pts).
Proof.
  intros Hl Hs Hf Hlen Hbe Hnil. pose proof Hl as (Er&Eh&Hh). unfold LeafAgg.make, Leaf.get_timestamps.
  rewrite Eh. cbn [mbind option_bind].
  assert (Hn : Forall (λ x, is_nan x.2 = false) (range_points b e pts)).
  { apply Forall_forall. intros x Hx%range_points_in. apply finite_not_nan. by eapply Forall_forall in Hf. }
  case_decide as Hc.
  - assert (Ef : range_points b e pts = pts).
    { apply range_all; [done|]. intros x Hx. pose proof (sorted_ends _ _ _ Hs Hh Hx). lia. }
    eexists. split; [done|]. simpl. split; [simpl; lia|]. rewrite Ef in *. split; [exact Hn|]. left. split_and!; [done| |done].
    apply agg_of_leaf; [done..|]. intros E. destruct (Hnil E) as (?&?&_). done.
  - assert (Hne : pts ≠ []) by (intros E; destruct (Hnil E) as (?&?&?&?); lia).
    destruct (iter_init_ok l h pts b e Hl Hs Hne) as (it&E&Eb&Ee&Hr&_&Hst). unfold LeafIter.make in E. rewrite E.
    cbn [mbind option_bind]. eexists. split; [done|]. split; [simpl; lia|]. split; [exact Hn|]. right. done.
Qed.

Lemma points_leaf addr (pts : list point) : points [([addr], pts)] = pts.
Proof. unfold points. simpl. by rewrite app_nil_r. Qed.

Lemma Forall2_and_r {A C} (P : A → C → Prop) (Q : C → Prop) l l' :
  Forall2 P l l' → Forall Q l' → Forall2 (λ x y, P x y ∧ Q y) l l'.
Proof. induction 1; intros HQ; [constructor|]. apply Forall_cons in HQ as [??]. constructor; eauto. Qed.

Lemma short_parts (pss : list (list piece)) m :
  Z.of_nat (length (concat (points <$> pss))) < m → Forall (λ p, Z.of_nat (length (points p)) < m) pss.
Proof.
  induction pss as [|p pss IH]; [constructor|]. rewrite fmap_cons. cbn [concat]. rewrite length_app.
  intros Hl. constructor; [lia|apply IH; lia].
Qed.

Lemma tree_aopens n ref ps s :
  tree id hist n ref ps → si_begin s < si_end s → Z.of_nat (length (points ps)) < 2 ^ 53 →
  aopens (aview n) s ref (range_points (si_begin s) (si_end s) (points ps)).
Proof.
  revert ref ps s. induction n as [|n IH]; intros ref ps s Ht Hbe Hlen leftmost;
    destruct (tree_common _ _ _ _ _ Ht) as (_&Hs&Hne&Hd&_&Hin); pose proof (Hall _ Hin) as He;
    unfold open_child; rewrite He; simpl negb; cbn iota; rewrite Z.min_l, Z.max_r by lia;
    (destruct (subtree_in_range ref (si_begin s) (si_end s)) eqn:Hr; simpl negb; cbn iota;
      [right|left; exists kNotFound; split_and!; [done|by left|]; apply range_none; intros x Hx;
       pose proof (describes_times _ _ _ Hd Hs Hx); unfold subtree_in_range in Hr;
       rewrite negb_false_iff, orb_true_iff, !bool_decide_eq_true in Hr; lia]).
  - destruct Ht as (_&_&_&_&_&img&h&Ha&Eth&_&Et&pts&Hi&Hsum&Hfin&->). rewrite points_leaf in *.
    rewrite decide_True by done. unfold make_leaf_iterator. rewrite He. simpl negb. cbn iota.
    rewrite (read_leaf impl at_ k bstore hist id Hstore _ _ _ _ Ha He Hi). cbn [mbind option_bind].
    rewrite decide_False by (intros Hx; by apply Hx).
    destruct (leaf_image_read _ _ _ _ Hi Hid) as (l&El&Eh&Er). rewrite El. cbn [mbind option_bind].
    destruct (leaf_aview l h pts (si_begin s) (si_end s)) as (a&Ea&Hv); [by split_and!|done..|]. rewrite Ea.
    cbn [mbind option_bind]. eauto.
  - pose proof Ht as (_&_&_&_&_&img&h&Ha&Eth&_&Et&refs&pss&Hi&_&Hn0&Hrne&Hf&->). rewrite decide_False by (by rewrite Et).
    unfold make_superblock_iterator. rewrite He. simpl negb. cbn iota. rewrite Z.min_l, Z.max_r by lia.
    destruct (leftmost && _) eqn:Hc.
    + eexists _, _. split; [done|]. simpl. split; [done|]. apply andb_true_iff in Hc as [_ Hc%bool_decide_eq_true].
      rewrite range_all; [by apply agg_of_ref|done|]. intros x Hx. pose proof (describes_times _ _ _ Hd Hs Hx). lia.
    + eexists _, _. split; [done|]. split; [done|].
      destruct (super_image_read _ _ _ Hi Hn0) as (sb&El&_&Er&_). pose proof Hi as (?&?&?&?&?&Hrl&_).
      unfold prepare, SBlock.init. simpl. rewrite (read_super impl at_ k bstore hist Hstore _ _ _ _ Ha He Hi). cbn [mbind option_bind].
      rewrite decide_False by (intros Hx; by apply Hx). rewrite El. cbn [mbind option_bind]. rewrite Er. cbn [mbind option_bind].
      rewrite decide_False by (intros Hx; by apply Hx). eexists. split; [done|].
      set (s' := SBlock.set_fsm _ _). rewrite points_under, points_concat in *.
      destruct (start_pending (si_begin s) (si_end s) (sr_addr ref) refs 1 None) as [Hp Epend].
      exists (range_points (si_begin s) (si_end s) <$> (points <$> pss)). split_and!; [exact Hp| | | |].
      * unfold SBlock.get_direction, direction. simpl. by rewrite decide_True.
      * assert (pending s' = refs) as -> by (etransitivity; [exact Epend|by rewrite decide_True]).
        rewrite <- list_fmap_compose. apply Forall2_fmap_r.
        eapply Forall2_impl; [exact (Forall2_and_r _ _ _ _ Hf (short_parts _ _ Hlen))|]. intros r p [Hrp Hl]. by apply (IH r p s').
      * rewrite !length_fmap. apply Forall2_length in Hf. unfold SZBUF. lia.
      * rewrite range_concat. unfold visit. by rewrite decide_True.
Qed.

End Subtree.
