(* ===== verification/AggRun.v ===== *)
(** * Aggregating queries deliver the aggregate of the range

    For a tree in any state it can reach, and for the column store after any
    operations, an aggregate of a range of time is the aggregate of the points
    that were written, although whole subtrees are answered from their
    metadata. *)
From stdpp Require Import gmap sorting.
From S2P Require Import Prelude Status ByteStream Base128 VByte DataBlock DataBlockProof IOVec Blocks Volume Crc32c BlockStoreProof MemStore Double SubtreeRef Operator Leaf LeafIter Superblock TreeIter TreeRead Extents Content ExtentsProof TreeProof TreeRun TreeClose TreeOpen TreeRepair Events EventsProof EventsTree ColumnStore ColumnStoreProof Aggregate AggTree AggProof.

(** A forward range, and points that the aggregates can represent. *)
Definition agg_range (b e : Z) (pts : list point) : Prop :=
  0 ≤ b < e ∧ e ≤ TS_MAX ∧ Forall (λ x, 0 < x.1) (range_points b e pts) ∧ Z.of_nat (length pts) < 2 ^ 53.

Lemma range_in b e pts x : b < e → x ∈ range_points b e pts → b ≤ x.1 < e.
Proof. intros Hbe. unfold range_points. rewrite decide_True by done. by intros [? _]%list_elem_of_filter. Qed.

Lemma range_sorted b e pts : b < e → ts_sorted pts → ts_sorted (range_points b e pts).
Proof.
  intros Hbe Hs. unfold range_points. rewrite decide_True by done. eapply sorted_sublist; [apply sublist_filter|exact Hs].
Qed.

Lemma range_length b e pts : b < e → (length (range_points b e pts) ≤ length pts)%nat.
Proof. intros Hbe. unfold range_points. rewrite decide_True by done. apply length_filter. Qed.

Lemma range_run b e pts : ts_sorted pts → agg_range b e pts → aggregable (range_points b e pts).
Proof.
  intros Hs ([? ?]&He&Ht&Hl). constructor; [by apply range_sorted| |pose proof (range_length b e pts); lia].
  rewrite Forall_forall in *. intros x Hx. specialize (Ht x Hx). pose proof (range_in b e pts x ltac:(lia) Hx). lia.
Qed.

Section Tree.
Context {B : Type} `{BlockStoreLaws B}.
Context (lk : bool) (id : Z) (impl : crc32c_impl_t) `{!Crc32cImpl impl} (at_ : nat → Z) (junk : agg_point).
Variables (k : nat) (bstore : B) (hist : gmap Z (list Z)).
Hypotheses (Hid : is_u64 id) (Hstore : bs_inv k bstore hist).
Hypothesis Hall : ∀ addr, is_Some (hist !! addr) → bs_exists addr bstore = true.

Notation sums := (sums impl (at_ 0%nat) bstore junk).

Lemma leaf_ext_agg x pts b e :
  leaf_holds lk id x pts → ts_sorted pts → 0 ≤ b < e → e ≤ TS_MAX → aggregable (range_points b e pts) → Z.of_nat (length pts) < 2 ^ 53 →
  ∃ op, AggTree.ext_aggregate b e (LeafExtent x) = Some op ∧ ∀ lm size, (0 < size)%nat → sums op lm size (range_points b e pts).
Proof.
  intros Hh Hs [Hb Hbe] He Hok Hlen. destruct (lh_leaf _ _ _ _ Hh) as (h&Hinv&Hsum). pose proof (read_all_open _ _ _ _ Hinv Hid) as Er.
  destruct (leaf_block _ _ _ _ Hinv) as (_&_&Eh&_).
  destruct (leaf_aview impl (at_ 0%nat) bstore (le_leaf x) h pts b e) as (a&Ea&Hv);
    [by split_and!|done|apply (lh_finite _ _ _ _ Hh)|done|done| |].
  { intros ->. destruct (lh_empty _ _ _ _ Hh eq_refl) as (h'&Eh'&?&?). rewrite Eh in Eh'. injection Eh' as <-. lia. }
  exists (AOLeaf a). cbn [AggTree.ext_aggregate]. rewrite Ea. split; [done|]. intros lm size Hsz.
  by apply (sums_aview impl (at_ 0%nat) bstore junk 0).
Qed.

Lemma inner_ext_agg i x cs b e :
  inner_holds lk id hist (S i) x cs → b < e → aggregable (range_points b e (points (level_pieces cs))) →
  Z.of_nat (length (points (level_pieces cs))) < 2 ^ 53 →
  ∃ op, AggTree.ext_aggregate b e (SBlockExtent x) = Some op ∧
    ∀ lm size, (0 < size)%nat → sums op lm size (range_points b e (points (level_pieces cs))).
Proof.
  intros [[h Hs] Hc _ _ _ _ _] Hbe Hok Hlen. cbn [AggTree.ext_aggregate]. unfold AggOp.root, SBlock.of_node.
  rewrite (read_all_ok _ _ _ Hs), Z.min_l, Z.max_r by lia. replace (S i - 1)%nat with i in Hc by lia.
  cbn [mbind option_bind]. rewrite decide_False by (intros Hx; by apply Hx). eexists. split; [reflexivity|]. intros lm size Hsz.
  apply sums_root. apply (sums_aview impl (at_ 0%nat) bstore junk (S i)); [|exact Hok|exact Hsz]. split; [reflexivity|].
  set (s := mkSBlockIter _ _ _ _ _ _ _). exists s. split; [reflexivity|].
  destruct (start_pending b e EMPTY_ADDR (cs.*1) 1 None) as [Hp Epend].
  unfold level_pieces in *. rewrite points_concat in *.
  exists (range_points b e <$> (points <$> cs.*2)). split_and!; [exact Hp| | | |].
  - unfold SBlock.get_direction, direction, s. cbn [si_begin si_end]. by rewrite decide_True.
  - assert (pending s = cs.*1) as -> by (etransitivity; [exact Epend|by rewrite decide_True]).
    rewrite <- list_fmap_compose. apply Forall2_fmap_r.
    eapply Forall2_impl; [exact (Forall2_and_r _ _ _ _ (children_trees _ _ _ _ Hc) (short_parts _ _ Hlen))|]. intros r p [Hrp Hl].
    exact (tree_aopens impl (at_ 0%nat) k bstore hist id Hstore Hid Hall i r p s Hrp Hbe Hl).
  - rewrite !length_fmap. pose proof (si_fan _ _ _ Hs) as Hfan. rewrite length_fmap in Hfan. unfold AggOp.SZBUF. lia.
  - rewrite range_concat. unfold visit. by rewrite decide_True.
Qed.

(** The extents of a tree, from the leaf up, and their points. *)
Definition parts (pts : list point) (lv : list (list child)) : list (list point) :=
  pts :: ((λ cs, points (level_pieces cs)) <$> lv).

Lemma parts_concat pts lv : concat (reverse (parts pts lv)) = content pts lv.
Proof.
  unfold parts, content. rewrite reverse_cons, concat_app. simpl. rewrite app_nil_r. f_equal.
  induction lv as [|cs lv IH]; [done|]. rewrite fmap_cons, reverse_cons, concat_app. simpl. by rewrite points_app, IH, app_nil_r.
Qed.

Definition part_ok (b e : Z) (p : list point) : Prop :=
  ts_sorted p ∧ aggregable (range_points b e p) ∧ Z.of_nat (length p) < 2 ^ 53.

Lemma concat_part_ok b e (l : list (list point)) :
  b < e → ts_sorted (concat l) → aggregable (range_points b e (concat l)) → Z.of_nat (length (concat l)) < 2 ^ 53 → Forall (part_ok b e) l.
Proof.
  intros Hbe. induction l as [|p l IH]; intros Hs Hr Hl; [constructor|]. cbn [concat] in *. rewrite length_app in Hl.
  assert (E : range_points b e (p ++ concat l) = range_points b e p ++ range_points b e (concat l))
    by (unfold range_points; rewrite !decide_True by done; apply filter_app).
  rewrite E in Hr. apply aggregable_app in Hr as [H1 H2]. constructor; [split_and!; [by eapply sorted_app_l|done|lia]|].
  apply IH; [by eapply sorted_app_r|done|lia].
Qed.

Lemma levels_agg i es lv rs b e :
  levels_ok lk id hist (S i) es lv rs → 0 ≤ b < e → Forall (part_ok b e) ((λ cs, points (level_pieces cs)) <$> lv) →
  Forall2 (λ x p, ∃ op, AggTree.ext_aggregate b e x = Some op ∧ ∀ lm size, (0 < size)%nat → sums op lm size (range_points b e p)) es
    ((λ cs, points (level_pieces cs)) <$> lv).
Proof.
  intros Hlv Hbe. revert i lv rs Hlv. induction es as [|[|x] es IH]; intros i [|cs lv] [|r rs]; try done.
  intros (Hh&_&Hlv) Hp. rewrite fmap_cons in *. apply Forall_cons in Hp as [(_&Hok&Hl) Hp].
  constructor; [by eapply inner_ext_agg; [exact Hh|lia|..]|by eapply IH].
Qed.

Lemma mapM_all {A C} (f : A → option C) (Q : C → list point → Prop) l ps :
  Forall2 (λ x p, ∃ y, f x = Some y ∧ Q y p) l ps → ∃ ys, mapM f l = Some ys ∧ Forall2 Q ys ps.
Proof.
  induction 1 as [|x p l ps (y&E&Hy) _ (ys&Es&Hf)]; [by exists []|]. exists (y :: ys). simpl. rewrite E. cbn [mbind option_bind].
  rewrite Es. split; [done|by constructor].
Qed.

(** What an aggregating operator is asked for: one result, and then no more. *)
Definition yields (op : AggregateOperator) (pts : list point) : Prop :=
  ∀ lm, ∃ N st out op' lm',
    (∀ fuel size, (N ≤ fuel)%nat → (0 < size)%nat → AggOp.read impl (at_ 0%nat) bstore junk fuel size lm op = Some (st, out, op', lm')) ∧
    (out = [] ∧ pts = [] ∧ (st = kNoData ∨ st = kOk ∧ spent impl (at_ 0%nat) bstore junk op') ∨
     ∃ x, out = [x] ∧ agg_of x.2 pts ∧ st = kOk).

(** A leaf that has a result says [Ok]. *)
Lemma leaf_result_ok size a st x a' : LeafAgg.read size a = Some (st, Some x, a') → st = kOk.
Proof.
  unfold LeafAgg.read. case_decide; [done|]. destruct (la_cached a); [by intros [= <-]|].
  destruct (LeafIter.get_size _) as [n|]; [|done]. cbn [mbind option_bind]. case_decide; [done|].
  destruct (LeafIter.read _ _) as [[[st1 pts] it]|]; [|done]. cbn [mbind option_bind]. do 3 (case_decide; [done|]).
  destruct (Agg.do_the_math _ _ _); [|done]. cbn [mbind option_bind]. destruct (head pts); [|done]. by intros [= <-].
Qed.

Lemma leaf_any_size size a : (0 < size)%nat → LeafAgg.read size a = LeafAgg.read 1 a.
Proof. intros Hs. unfold LeafAgg.read. by rewrite !decide_False by lia. Qed.

Lemma leaf_yields a pts : (∀ lm size, (0 < size)%nat → sums (AOLeaf a) lm size pts) → yields (AOLeaf a) pts.
Proof.
  intros Hs lm. destruct (Hs lm 1%nat ltac:(lia)) as (N&st&out&op'&lm'&E&Ho&Hst). exists (S N), st, out, op', lm'. split.
  - intros [|fuel] size Hf Hsz; [lia|]. rewrite <- (E (S fuel) ltac:(lia)). cbn [AggOp.read]. by rewrite (leaf_any_size size).
  - destruct Ho as [[-> ->]|(x&->&Hx)]; [by left|]. right. exists x. split; [done|]. split; [exact Hx|].
    specialize (E (S N) ltac:(lia)). cbn [AggOp.read] in E. destruct (LeafAgg.read 1 a) as [[[st1 [y|]] a']|] eqn:Er; [|done..].
    apply leaf_result_ok in Er as ->. cbn [mbind option_bind] in E. by injection E.
Qed.

Lemma combine_yields ops pss :
  Forall2 (λ op p, ∀ lm size, (0 < size)%nat → sums op lm size p) ops pss → ops ≠ [] → aggregable (concat pss) →
  yields (AggOp.combine ops) (concat pss).
Proof.
  intros Hf Hne Hok lm.
  destruct (combine_loop_ok impl (at_ 0%nat) bstore junk pss ops 0 lm 0 INIT_AGGRES 0 []) as (N&out&ops'&lm'&E&Hl&Ho);
    [|lia|split; [apply agg_of_init|done]|exact Hok|].
  { simpl. eapply Forall2_impl; [exact Hf|]. intros op p Hs lm'. apply Hs. unfold AggOp.SZBUF. lia. }
  exists (S N). eexists kOk, out, _, lm'. split.
  - intros [|fuel] size Hfu Hsz; [lia|]. unfold AggOp.combine. cbn [AggOp.read]. rewrite decide_False by lia.
    rewrite decide_False by (destruct ops; simpl; [done|lia]). by rewrite E by lia.
  - destruct Ho as [[-> Ho]|(x&->&Hx)]; [left|right; by exists x]. split_and!; [done..|]. right. split; [done|].
    exists 1%nat. eexists. intros [|fuel] size' lm2 Hfu Hs; [lia|]. cbn [AggOp.read]. rewrite decide_False by lia. by rewrite decide_True.
Qed.

Lemma aggregate_yields l pts lv b e :
  tree_ok lk id l hist pts lv → agg_range b e (content pts lv) →
  ∃ op, AggTree.aggregate b e l = Some op ∧ yields op (range_points b e (content pts lv)).
Proof.
  intros [He Hsort _ _ _] Hr. pose proof (range_run _ _ _ Hsort Hr) as Hok. destruct Hr as (Hbe&Hemax&_&Hlen).
  unfold AggTree.aggregate, AggTree.operators. destruct (el_extents l) as [|[x|x] es] eqn:Ee, (el_rescue l) as [|r rs]; try done.
  - destruct He as [-> ->]. eexists. split; [reflexivity|]. intros lm. exists 1%nat. eexists kNoData, [], _, _.
    split; [intros [|fuel] size Hf Hsz; [lia|done]|]. left. split; [done|]. split; [apply range_nil|by left].
  - destruct He as (Hh&_&Hlv). rewrite decide_True by lia.
    assert (Hparts : Forall (part_ok b e) (reverse (parts pts lv))) by (apply concat_part_ok; rewrite ?parts_concat; done || lia).
    rewrite Forall_reverse in Hparts. apply Forall_cons in Hparts as [(Hs0&Hr0&Hl0) Hparts].
    assert (Hf : Forall2 (λ x p, ∃ op, AggTree.ext_aggregate b e x = Some op ∧
        ∀ lm size, (0 < size)%nat → sums op lm size (range_points b e p)) (reverse (LeafExtent x :: es)) (reverse (parts pts lv))).
    { apply Forall2_reverse. constructor; [by apply leaf_ext_agg|by eapply levels_agg]. }
    destruct (mapM_all _ _ _ _ Hf) as (ops&Em&Hops). rewrite Em. cbn [mbind option_bind].
    rewrite <- parts_concat, range_concat in *. unfold visit in *. rewrite decide_True in * by lia.
    assert (Hops' : Forall2 (λ op p, ∀ lm size, (0 < size)%nat → sums op lm size p) ops (range_points b e <$> reverse (parts pts lv)))
      by (apply Forall2_fmap_r; exact Hops).
    assert (Hne : ops ≠ []) by (intros ->; apply Forall2_nil_inv_l in Hops; by apply (f_equal length) in Hops; rewrite length_reverse in Hops).
    destruct ops as [|op1 [|op2 ops]]; [done| |].
    + eexists. split; [reflexivity|].
      assert (∃ a, op1 = AOLeaf a) as [a ->].
      { apply Forall2_length in Hops. destruct es as [|x2 es]; [|apply Forall2_reverse, Forall2_length in Hf; rewrite !length_reverse in *; simpl in *; lia].
        cbn in Em. destruct (LeafAgg.make b e (le_leaf x)) as [a|]; [|done]. injection Em as <-. by exists a. }
      apply leaf_yields. destruct (range_points b e <$> reverse (parts pts lv)) as [|p [|p2 ps]];
        [by apply Forall2_nil_inv_r in Hops'| |apply Forall2_cons in Hops' as [_ Hx]; by apply Forall2_nil_inv_l in Hx].
      apply Forall2_cons in Hops' as [Hp _]. simpl. rewrite app_nil_r. exact Hp.
    + eexists. split; [reflexivity|]. by apply combine_yields.
Qed.

End Tree.

(** ** A store *)

Lemma aggregate_operators {B} `{BlockStoreLaws B} impl `{!Crc32cImpl impl} at_ junk os nsessions ids b e rounds fuel
    (s : B) hist k :
  Forall (op_ok nsessions) os → Z.of_nat (length os) ≤ 2 ^ 60 → bs_inv (418 * length os + k) s hist → (31 ≤ fuel)%nat →
  let m := (spec_run os ∅).2 in
  (∀ id pts, id ∈ ids → m !! id = Some pts → agg_range b e pts) →
  ∃ rs w hist', store_run impl at_ rounds fuel os (new_world nsessions s) = Some (rs, w) ∧
    hist ⊆ hist' ∧ bs_inv k (w_blocks w) hist' ∧
    ((∀ a, is_Some (hist' !! a) → bs_exists a (w_blocks w) = true) →
     ∃ ops, CStoreAgg.aggregate impl at_ rounds fuel ids b e (w_store w) (w_blocks w)
         = Some (if decide (known m ids = ids) then kOk else kNotFound, ops, w_store w, w_blocks w) ∧
       Forall2 (λ id op, ∃ pts, m !! id = Some pts ∧ yields impl at_ junk (w_blocks w) op (range_points b e pts)) (known m ids) ops).
Proof.
  intros Ho Hlen Hs Hfuel m Hr. pose proof (new_world_ok _ _ _ nsessions Hs) as Hw.
  assert (Ho' : Forall (op_ok (length (w_sessions (new_world nsessions s)))) os) by (simpl; by rewrite length_replicate).
  destruct (run_ok impl at_ rounds fuel Hfuel true os k 0 hist _ ∅ Hw Ho' ltac:(lia) ltac:(lia)) as (rs&w&hist'&E&_&Hsub&Hw').
  exists rs, w, hist'. split; [exact E|]. split; [exact Hsub|]. split; [exact (proj2 (proj2 Hw'))|]. intros Hex.
  apply (iterate_each impl at_ true rounds fuel k _ hist' w m Hw' _ (λ id op, ∃ pts, m !! id = Some pts ∧ _)).
  intros id t Hin Et [pts Em]. destruct (columns_some _ _ _ _ _ _ _ (proj1 Hw') Em) as (t0&Et0&Hid&Hcol).
  rewrite Et in Et0. injection Et0 as <-. destruct Hcol as (open&lv&Hok&Hc&_). split; [exact (proj1 (to_ready _ _ _ _ _ _ Hok))|].
  destruct (aggregate_yields true id impl at_ junk k (w_blocks w) hist' Hid (proj2 (proj2 Hw')) Hex t open lv b e Hok) as (op&Eop&Hy).
  { rewrite Hc. by apply (Hr id). }
  exists op. rewrite Eop. split; [done|]. exists pts. split; [exact Em|]. by rewrite <- Hc.
Qed.

(** ** Properties *)

(** C9: aggregates of the column store.  After any operations on a new store, an
    aggregate over a forward range of time asks every series, up to the first
    unknown id, for an operator; on a store that keeps its blocks one [read] of it
    gives the aggregate of exactly the points of the series in the range: their
    number, the least and the greatest value with the times they were first
    reached, the first point, a latest point, the range of their times, and a sum
    of their values in order; or nothing when there is no such point.  It does not
    matter which subtrees lie inside the range and are answered from the
    metadata of the node above. *)
Theorem column_store_aggregate {B} `{BlockStoreLaws B} impl `{!Crc32cImpl impl} at_ junk os nsessions ids b e rounds fuel
    (s : B) hist k :
  Forall (op_ok nsessions) os → Z.of_nat (length os) ≤ 2 ^ 60 → bs_inv (418 * length os + k) s hist → (31 ≤ fuel)%nat →
  let m := (spec_run os ∅).2 in
  (∀ id pts, id ∈ ids → m !! id = Some pts → agg_range b e pts) →
  ∃ rs w hist', store_run impl at_ rounds fuel os (new_world nsessions s) = Some (rs, w) ∧
    hist ⊆ hist' ∧ bs_inv k (w_blocks w) hist' ∧
    ((∀ a, is_Some (hist' !! a) → bs_exists a (w_blocks w) = true) →
     ∃ ops, CStoreAgg.aggregate impl at_ rounds fuel ids b e (w_store w) (w_blocks w)
         = Some (if decide (known m ids = ids) then kOk else kNotFound, ops, w_store w, w_blocks w) ∧
       Forall2 (λ id op, ∃ pts, m !! id = Some pts ∧ yields impl at_ junk (w_blocks w) op (range_points b e pts)) (known m ids) ops).
Proof. exact (aggregate_operators impl at_ junk os nsessions ids b e rounds fuel s hist k). Qed.

(** A memory store of which nothing was removed keeps its blocks. *)
Lemma mem_keeps k (s : MemStore) hist a :
  bs_inv k s hist → removed_pos_ s = 0 → is_Some (hist !! a) → bs_exists a s = true.
Proof.
  intros [Hi _] Hr [img Ha]. pose proof (Mem.read_ok k s hist a img Hi Ha ltac:(lia)) as Hread.
  rewrite decide_False in Hread; [by destruct Hread|]. destruct (Mem.mi_hist _ _ _ Hi _ _ Ha). lia.
Qed.

Lemma sample_run_keeps :
  match store_run crc32c_sw (λ _, 0) 1 31 sample_ops (new_world 2 (Mem.make false false)) with
  | Some (_, w) => removed_pos_ (w_blocks w) = 0
  | None => False
  end.
Proof. vm_compute. reflexivity. Qed.

Lemma column_store_aggregate_witness :
  ∃ rs w, store_run crc32c_sw (λ _, 0) 1 31 sample_ops (new_world 2 (Mem.make false false)) = Some (rs, w) ∧
    ∃ ops, CStoreAgg.aggregate crc32c_sw (λ _, 0) 1 31 [1; 2] 10 20 (w_store w) (w_blocks w) = Some (kOk, ops, w_store w, w_blocks w) ∧
       Forall2 (λ pts op, yields crc32c_sw (λ _, 0) (0, INIT_AGGRES) (w_blocks w) op pts) [[(10, 0)]; []] ops.
Proof.
  destruct (column_store_aggregate (B := MemStore) crc32c_sw (λ _, 0) (0, INIT_AGGRES) sample_ops 2 [1; 2] 10 20 1 31
    (Mem.make false false) ∅ 0) as (rs&w&hist'&E&_&Hi&Hq).
  - repeat constructor; by_compute.
  - by_compute.
  - split; [apply mem_make_inv; by_compute|done].
  - lia.
  - intros id pts Hin Em. repeat (apply elem_of_cons in Hin as [->|Hin]; [vm_compute in Em; injection Em as <-; by_compute|]).
    by apply not_elem_of_nil in Hin.
  - exists rs, w. split; [exact E|]. pose proof sample_run_keeps as Hrm. rewrite E in Hrm.
    destruct (Hq (λ a, mem_keeps _ _ _ a Hi Hrm)) as (ops&Ea&Hops). exists ops. split; [exact Ea|].
    apply Forall2_cons_inv_l in Hops as (op1&?&(p1&E1&H1)&Hops&->). apply Forall2_cons_inv_l in Hops as (op2&?&(p2&E2&H2)&Hops&->).
    apply Forall2_nil_inv_l in Hops as ->. vm_compute in E1, E2. injection E1 as <-. injection E2 as <-. by repeat constructor.
Defined.
