(* ===== verification/Groups.v ===== *)
(** * Grouping points by interval of time

    [groups f pts] cuts a sequence of points where the value of [f] changes; for
    [f] the number of the interval and points in time order these are the
    intervals that hold points.  [glue] joins the groups of two adjacent
    sequences, which is what the buffers of the group aggregators do. *)
From stdpp Require Import sorting.
From S2P Require Import Prelude DataBlock.

Section Groups.
Variable f : point → Z.

Definition gcons (x : point) (gs : list (list point)) : list (list point) :=
  match gs with
  | (y :: g) :: gs => if decide (f x = f y) then (x :: y :: g) :: gs else [x] :: (y :: g) :: gs
  | _ => [x] :: gs
  end.

Definition groups (pts : list point) : list (list point) := foldr gcons [] pts.
#[local] Arguments groups : simpl never.

Lemma groups_cons x pts : groups (x :: pts) = gcons x (groups pts).
Proof. done. Qed.

(** All points of a group have one number. *)
Definition one_bin (g : list point) : Prop := g ≠ [] ∧ ∀ x y, x ∈ g → y ∈ g → f x = f y.

(** The number of a group. *)
Definition bin_at (g : list point) : option Z := f <$> head g.

Definition glue (gs hs : list (list point)) : list (list point) :=
  match last gs, hs with
  | Some g, h :: hs' => if decide (bin_at g = bin_at h) then removelast gs ++ (g ++ h) :: hs' else gs ++ hs
  | _, _ => gs ++ hs
  end.

Lemma gcons_bins x gs : Forall one_bin gs → Forall one_bin (gcons x gs).
Proof.
  intros Hg. assert (H1 : one_bin [x]).
  { split; [done|]. by intros y z ->%list_elem_of_singleton ->%list_elem_of_singleton. }
  destruct gs as [|[|y g] gs]; simpl; [by constructor|by constructor|]. case_decide as E; [|by constructor].
  apply Forall_cons in Hg as [[_ Hg] Hgs]. constructor; [|done]. split; [done|].
  assert (Hy : ∀ z, z ∈ x :: y :: g → f z = f y).
  { intros z [->|Hz]%elem_of_cons; [done|]. apply Hg; [done|by apply elem_of_cons; left]. }
  intros a b Ha Hb. by rewrite (Hy a Ha), (Hy b Hb).
Qed.

Lemma groups_bins pts : Forall one_bin (groups pts).
Proof. induction pts as [|x pts IH]; [constructor|]. by apply gcons_bins. Qed.

Lemma gcons_concat x gs : concat (gcons x gs) = x :: concat gs.
Proof. destruct gs as [|[|y g] gs]; [done|done|]. simpl. by case_decide. Qed.

Lemma groups_concat pts : concat (groups pts) = pts.
Proof. induction pts as [|x pts IH]; [done|]. by rewrite groups_cons, gcons_concat, IH. Qed.

Lemma groups_nil pts : groups pts = [] → pts = [].
Proof. intros E. by rewrite <- (groups_concat pts), E. Qed.

(** One group. *)
Lemma groups_one g : one_bin g → groups g = [g].
Proof.
  intros [Hne Hg]. induction g as [|x g IH]; [done|]. destruct g as [|y g]; [done|].
  rewrite groups_cons, IH; [|done|].
  - simpl. rewrite decide_True; [done|]. apply Hg; [by apply elem_of_cons; left|by apply elem_of_cons; right; apply elem_of_cons; left].
  - intros a b Ha Hb. apply Hg; by apply elem_of_cons; right.
Qed.

Lemma removelast_cons {A} (x : A) l : l ≠ [] → removelast (x :: l) = x :: removelast l.
Proof. by destruct l. Qed.

Lemma gcons_glue x gs hs : Forall one_bin gs → Forall one_bin hs → gcons x (glue gs hs) = glue (gcons x gs) hs.
Proof.
  intros Hg Hh. destruct gs as [|[|y g] gs]; [|by apply Forall_cons in Hg as [[? _] _]|].
  - destruct hs as [|[|z h] hs]; [done|by apply Forall_cons in Hh as [[? _] _]|]. unfold glue. simpl.
    case_decide as E1; case_decide as E2; try done; exfalso; [apply E2; unfold bin_at; simpl; by rewrite E1|].
    apply E1. unfold bin_at in E2. simpl in E2. congruence.
  - destruct hs as [|h hs].
    + unfold glue. destruct (last ((y :: g) :: gs)), (last (gcons x ((y :: g) :: gs))); by rewrite !app_nil_r.
    + destruct gs as [|g2 gs].
      * destruct h as [|z h]; [by apply Forall_cons in Hh as [[? _] _]|]. unfold glue, bin_at. simpl.
        repeat (case_decide; simpl); try done; congruence.
      * assert (El : last (gcons x ((y :: g) :: g2 :: gs)) = last ((y :: g) :: g2 :: gs)) by (simpl; by case_decide).
        unfold glue. rewrite El. destruct (last ((y :: g) :: g2 :: gs)) as [lg|] eqn:E2; [|by apply last_None in E2].
        case_decide; simpl; by case_decide.
Qed.

Lemma groups_app p q : groups (p ++ q) = glue (groups p) (groups q).
Proof.
  induction p as [|x p IH]; [unfold glue; simpl; by destruct (groups q)|].
  simpl app. rewrite !groups_cons, IH. apply gcons_glue; apply groups_bins.
Qed.

Lemma length_groups_app p q : (length (groups (p ++ q)) ≤ length (groups p) + length (groups q))%nat.
Proof.
  rewrite groups_app. unfold glue. destruct (last (groups p)) as [g|] eqn:Eg; [|by rewrite length_app].
  destruct (groups q) as [|h hs]; [by rewrite length_app|]. case_decide; [|by rewrite length_app].
  apply last_Some in Eg as (gs&->). rewrite removelast_last, !length_app. simpl. lia.
Qed.

(** The end of a sequence of groups that is not yet complete. *)
Lemma glue_app_l gs g hs : glue (gs ++ [g]) hs = gs ++ glue [g] hs.
Proof.
  unfold glue. rewrite last_snoc. simpl last. destruct hs as [|h hs]; [by rewrite <- app_assoc|].
  case_decide; [|by rewrite <- app_assoc]. rewrite removelast_last. simpl. done.
Qed.

Lemma groups_take_concat k pts : groups (concat (take k (groups pts))) = take k (groups pts) ∧
  groups (concat (drop k (groups pts))) = drop k (groups pts).
Proof.
  revert k. induction pts as [|x pts IH]; intros k; [by destruct k|].
  rewrite groups_cons. destruct (groups pts) as [|[|y g] gs] eqn:Eg.
  - by destruct k as [|[|k]].
  - exfalso. pose proof (groups_bins pts) as Hb. rewrite Eg in Hb. by apply Forall_cons in Hb as [[? _] _].
  - destruct (IH 0%nat) as [_ H0]. simpl drop in H0. simpl gcons. case_decide as E.
    + destruct k as [|k]; cbn [take drop concat].
      * split; [done|]. change ((x :: y :: g) ++ concat gs) with (x :: concat ((y :: g) :: gs)).
        rewrite groups_cons, H0. simpl. by rewrite decide_True.
      * destruct (IH (S k)) as [Ht Hd]. split; [|exact Hd].
        change ((x :: y :: g) ++ concat (take k gs)) with (x :: concat (take (S k) ((y :: g) :: gs))).
        rewrite groups_cons, Ht. simpl. by rewrite decide_True.
    + destruct k as [|k]; cbn [take drop].
      * split; [done|]. change (concat ([x] :: (y :: g) :: gs)) with (x :: concat ((y :: g) :: gs)).
        rewrite groups_cons, H0. simpl. by rewrite decide_False.
      * destruct (IH k) as [Ht Hd]. split; [|exact Hd].
        change (concat ([x] :: take k ((y :: g) :: gs))) with (x :: concat (take k ((y :: g) :: gs))).
        rewrite groups_cons, Ht. destruct k; simpl; [done|]. by rewrite decide_False.
Qed.

(** Some groups but the last can be handed out before the rest is known. *)
Lemma groups_split k p q :
  (k < length (groups p))%nat ∨ q = [] →
  groups (p ++ q) = take k (groups p) ++ groups (concat (drop k (groups p)) ++ q).
Proof.
  intros Hk. destruct (groups_take_concat k p) as [_ Hd]. rewrite !groups_app, Hd.
  destruct (decide (q = [])) as [->|Hq].
  { unfold glue. simpl. destruct (last (groups p)), (last (drop k (groups p))); by rewrite !app_nil_r, take_drop. }
  destruct Hk as [Hk|?]; [|done]. destruct (drop k (groups p)) as [|g0 gs0] eqn:Ed.
  { apply (f_equal length) in Ed. rewrite length_drop in Ed. simpl in Ed. lia. }
  rewrite <- (take_drop k (groups p)) at 1. rewrite Ed.
  destruct (exists_last (l := g0 :: gs0)) as (gs1&g1&E1); [done|]. rewrite E1, app_assoc, !glue_app_l. by rewrite app_assoc.
Qed.

(** If the numbers never decrease, those of the groups increase. *)
Lemma bins_in pts i : i ∈ omap bin_at (groups pts) → ∃ y, y ∈ pts ∧ f y = i.
Proof.
  intros (g&Hg&Hi)%list_elem_of_omap. unfold bin_at in Hi. destruct g as [|y g]; [done|]. injection Hi as <-. exists y. split; [|done].
  rewrite <- (groups_concat pts). apply list_elem_of_split in Hg as (l1&l2&->). rewrite concat_app. apply elem_of_app. right.
  apply elem_of_cons. by left.
Qed.

Lemma bins_increase pts : StronglySorted (λ x y, f x ≤ f y) pts → StronglySorted Z.lt (omap bin_at (groups pts)).
Proof.
  induction pts as [|x pts IH]; [constructor|]. intros [Hx Hs]%StronglySorted_cons. specialize (IH Hs).
  pose proof (bins_in pts) as Hin. rewrite groups_cons. destruct (groups pts) as [|[|y g] gs] eqn:Eg.
  - repeat constructor.
  - exfalso. pose proof (groups_bins pts) as Hb. rewrite Eg in Hb. by apply Forall_cons in Hb as [[? _] _].
  - change (omap bin_at ((y :: g) :: gs)) with (f y :: omap bin_at gs) in *. simpl gcons. case_decide as Ef.
    + change (StronglySorted Z.lt (f x :: omap bin_at gs)). by rewrite Ef.
    + change (StronglySorted Z.lt (f x :: f y :: omap bin_at gs)). apply StronglySorted_cons. split; [|exact IH].
      assert (f x < f y).
      { destruct (Hin (f y)) as (z&Hz&Ez); [by left|]. rewrite Forall_forall in Hx. specialize (Hx z Hz). lia. }
      constructor; [done|]. apply StronglySorted_cons in IH as [IH _]. eapply Forall_impl; [exact IH|]. simpl. lia.
Qed.

End Groups.
