(* ===== verification/GroupProof.v ===== *)
(** * Group aggregates

    The operators of a forward group aggregate hand out the aggregates of the
    groups of the points they read: one per interval, in the order of time.
    Between two operators an interval may be cut in two; the buffers join the
    parts, so that the tree as a whole delivers one aggregate for every interval
    that holds points. *)
From stdpp Require Import sorting.
From S2P Require Import Prelude Status ByteStream Base128 VByte DataBlock DataBlockProof IOVec Blocks Volume Crc32c BlockStoreProof MemStore Double SubtreeRef Operator Leaf LeafIter Superblock TreeIter TreeRead Content Aggregate AggProof Groups.

(** ** Counts as doubles *)

Lemma count_rank n : 0 < n < 2 ^ 53 → is_nan (double_of_u64 n) = false ∧ 0 < rank (double_of_u64 n).
Proof.
  intros Hn. unfold double_of_u64. rewrite decide_False, decide_True by lia.
  pose proof (Z.log2_nonneg n). assert (Z.log2 n < 53) by (apply Z.log2_lt_pow2; lia).
  pose proof (Z.log2_spec n ltac:(lia)) as [Hlo Hhi]. set (e := Z.log2 n) in *.
  assert (Hm : 0 < n * 2 ^ (52 - e) < 2 ^ 53).
  { split; [apply Z.mul_pos_pos; [lia|apply Z.pow_pos_nonneg; lia]|].
    replace (2 ^ 53) with (2 ^ Z.succ e * 2 ^ (52 - e)) by (rewrite <- Z.pow_add_r by lia; f_equal; lia).
    apply Z.mul_lt_mono_pos_r; [apply Z.pow_pos_nonneg; lia|done]. }
  set (m := n * 2 ^ (52 - e)) in *. clearbody m e. unfold is_nan, rank, magnitude, negative, SIGN, INF.
  rewrite Z.mod_small by lia. rewrite !bool_decide_eq_false_2 by lia. split; [done|lia].
Qed.

Lemma count_zero n : 0 ≤ n < 2 ^ 53 → deq (double_of_u64 n) 0 = bool_decide (n = 0).
Proof.
  intros Hn. destruct (decide (n = 0)) as [->|Hne]; [done|]. destruct (count_rank n ltac:(lia)) as [H1 H2].
  unfold deq. rewrite H1. change (is_nan 0) with false. change (rank 0) with 0. simpl.
  by rewrite !bool_decide_eq_false_2 by lia.
Qed.

Lemma count_pos n : 0 ≤ n < 2 ^ 53 → dlt 0 (double_of_u64 n) = bool_decide (n ≠ 0).
Proof.
  intros Hn. destruct (decide (n = 0)) as [->|Hne]; [done|]. destruct (count_rank n ltac:(lia)) as [H1 H2].
  unfold dlt. rewrite H1. change (is_nan 0) with false. change (rank 0) with 0. simpl. by rewrite !bool_decide_eq_true_2 by lia.
Qed.

Lemma agg_add a g x :
  agg_of a g → is_nan x.2 = false → aggregable (g ++ [x]) → agg_of (Agg.add x.1 x.2 true a) (g ++ [x]).
Proof.
  intros [Hc Hs [t0 Hm] [u0 Hx] Hn Hb He] Hnx Hok. pose proof (ro_length _ Hok) as Hl. rewrite length_app in Hl. simpl in Hl.
  unfold Agg.add. rewrite Hc, count_zero by lia.
  destruct (Agg.min_step (ag_min a, _) _) as [mn mt] eqn:Em, (Agg.max_step (ag_max a, _) _) as [mx xt] eqn:Ex.
  rewrite <- surjective_pairing in Em, Ex.
  assert (Hf : ∃ f_ b_ l_ e_, (if bool_decide (Z.of_nat (length g) = 0) then (x.2, x.1, ag_last a, ag_end a)
    else (ag_first a, ag_begin a, ag_last a, ag_end a)) = (f_, b_, l_, e_) ∧ ∃ y, head (g ++ [x]) = Some y ∧ b_ = y.1 ∧ f_ = y.2).
  { destruct g as [|y g]; simpl in *; [by eexists _, _, _, _; split; [done|]; exists x|].
    eexists _, _, _, _. split; [done|]. exists y. destruct Hb. by split_and!. }
  destruct Hf as (f_&b_&l_&e_&->&y&Ey&->&->). constructor; simpl.
  - rewrite Hc || idtac. rewrite dadd_count by lia. rewrite length_app. simpl. f_equal. lia.
  - rewrite fmap_app. apply adds_app; [done|apply adds_one].
  - exists t0. rewrite foldl_app, <- Hm. simpl. by rewrite Em.
  - exists u0. rewrite foldl_app, <- Hx. simpl. by rewrite Ex.
  - apply Forall_app. split; [done|by constructor].
  - by rewrite Ey.
  - rewrite last_snoc. split; [done|]. rewrite <- surjective_pairing. apply elem_of_app. right. by apply list_elem_of_singleton.
Qed.

(** ** Groups of a range *)

Section Groups.
Variables (b e step : Z).
Hypotheses (Hb : 0 ≤ b < e) (He : e ≤ TS_MAX) (Hstep : 0 < step ≤ 2 ^ 63).

Notation f := (λ x : point, bin_of FORWARD b step x.1).
Notation groups := (groups f).
Notation one_bin := (one_bin f).

(** Points of the query that can be aggregated. *)
Definition groupable (pts : list point) : Prop := aggregable pts ∧ Forall (λ x, b ≤ x.1 < e ∧ is_nan x.2 = false) pts.

Lemma groupable_app p q : groupable (p ++ q) → groupable p ∧ groupable q.
Proof. intros [[H1 H2]%aggregable_app [H3 H4]%Forall_app]. by split; split. Qed.

Lemma bin_eq ts : b ≤ ts < e → bin_of FORWARD b step ts = (ts - b) / step.
Proof. intros Ht. unfold bin_of, normts. rewrite u64_id; [done|]. unfold is_u64, TS_MAX in *. lia. Qed.

Lemma agg_begin a g x : agg_of a g → head g = Some x → ag_begin a = x.1.
Proof. intros Ha Hx. pose proof (ao_begin _ _ Ha) as Hg. rewrite Hx in Hg. tauto. Qed.

Lemma group_within a g : agg_of a g → one_bin g → groupable g → within_step step a = true.
Proof.
  intros Ha [Hne Hg] [Hok Hin]. destruct g as [|x g]; [done|]. pose proof (ao_end _ _ Ha) as Hend.
  destruct (last (x :: g)) as [y|] eqn:El; [|by apply last_None in El]. destruct Hend as [Ee _].
  rewrite <- (agg_begin a (x :: g) x Ha eq_refl) || idtac. pose proof (agg_begin a (x :: g) x Ha eq_refl) as Eb.
  assert (Hx : x ∈ x :: g) by (apply elem_of_cons; by left). pose proof (last_Some_elem_of _ _ El) as Hy.
  rewrite Forall_forall in Hin. destruct (Hin x Hx) as [Hx1 _], (Hin y Hy) as [Hy1 _].
  pose proof (Hg x y Hx Hy) as Ef. rewrite !bin_eq in Ef by lia.
  assert (x.1 ≤ y.1).
  { pose proof (ro_sorted _ Hok) as Hs. apply elem_of_cons in Hy as [->|Hy]; [lia|].
    apply StronglySorted_cons in Hs as [Hs _]. rewrite Forall_forall in Hs. by apply Hs. }
  unfold within_step. apply bool_decide_eq_true. rewrite Eb, Ee, u64_id by (unfold is_u64, TS_MAX in *; lia).
  pose proof (Z.div_mod (x.1 - b) step ltac:(lia)). pose proof (Z.div_mod (y.1 - b) step ltac:(lia)).
  pose proof (Z.mod_pos_bound (x.1 - b) step ltac:(lia)). pose proof (Z.mod_pos_bound (y.1 - b) step ltac:(lia)). rewrite Ef in *. lia.
Qed.

Lemma group_in pts g : g ∈ groups pts → groupable pts → groupable g.
Proof.
  intros Hg Hp. rewrite <- (groups_concat f pts) in Hp. apply list_elem_of_split in Hg as (l1&l2&El). rewrite El in Hp.
  rewrite concat_app in Hp. apply groupable_app in Hp as [_ Hp]. simpl in Hp. by apply groupable_app in Hp as [? _].
Qed.

Lemma group_bin pts g : g ∈ groups pts → one_bin g.
Proof. intros Hg. pose proof (groups_bins f pts) as Hb'. rewrite Forall_forall in Hb'. by apply Hb'. Qed.

(** *** The points of a leaf *)

(** One more point goes to the last group or starts a new one. *)
Lemma groups_snoc q gs g x :
  groups q = gs ++ [g] → groups (q ++ [x]) = if decide (bin_at f g = Some (f x)) then gs ++ [g ++ [x]] else gs ++ [g; [x]].
Proof.
  intros E. rewrite groups_app, E, glue_app_l. change (groups [x]) with [[x]]. unfold glue. cbn [last].
  change (bin_at f [x]) with (Some (f x)). by destruct (decide (bin_at f g = Some (f x))).
Qed.

Lemma group_loop_ok pts q gs g outval out bin n :
  groups q = gs ++ [g] → Forall2 agg_of out gs → agg_of outval g → bin_at f g = Some bin → groupable (q ++ pts) →
  ∃ outval' out' gs' g', LeafGroup.group_loop FORWARD b step pts (S n) bin outval out = Some (outval', out') ∧
    groups (q ++ pts) = gs' ++ [g'] ∧ Forall2 agg_of out' gs' ∧ agg_of outval' g'.
Proof.
  revert q gs g outval out bin n. induction pts as [|[ts xs] pts IH]; intros q gs g outval out bin n Eg Hout Hval Hbin Hok.
  { exists outval, out, gs, g. by rewrite app_nil_r. }
  replace (q ++ (ts, xs) :: pts) with ((q ++ [(ts, xs)]) ++ pts) in * by (by rewrite <- app_assoc).
  apply groupable_app in Hok as Hok1. destruct Hok1 as [Hok1 _].
  assert (Hx : is_nan xs = false).
  { destruct Hok1 as [_ [_ Hf]%Forall_app]. apply Forall_cons in Hf as [[_ ?] _]. done. }
  pose proof (groups_snoc q gs g (ts, xs) Eg) as Es. rewrite Hbin in Es. cbn [LeafGroup.group_loop]. rewrite (decide_False (P := S n = 0%nat)) by lia.
  set (v := bin_of FORWARD b step ts) in *. simpl fst in Es. fold v in Es.
  destruct (decide (v = bin)) as [Ev|Ev].
  - rewrite (decide_False (P := v ≠ bin)) by (intros Hne; by apply Hne). rewrite decide_True in Es by (by rewrite Ev).
    assert (Hin : g ++ [(ts, xs)] ∈ groups (q ++ [(ts, xs)])) by (rewrite Es; apply elem_of_app; right; by apply list_elem_of_singleton).
    pose proof (group_in _ _ Hin Hok1) as Hg. pose proof (agg_add outval g (ts, xs) Hval Hx (proj1 Hg)) as Hadd.
    simpl is_forward. simpl in Hadd. rewrite (group_within _ _ Hadd (group_bin _ _ Hin) Hg). apply (IH _ gs (g ++ [(ts, xs)])); try done.
    destruct g as [|y g]; [by unfold bin_at in Hbin|]. exact Hbin.
  - rewrite (decide_True (P := v ≠ bin)) by done. rewrite decide_False in Es by congruence.
    assert (Hin : [(ts, xs)] ∈ groups (q ++ [(ts, xs)])) by (rewrite Es; apply elem_of_app; right; apply elem_of_cons; right; by apply list_elem_of_singleton).
    pose proof (group_in _ _ Hin Hok1) as Hg. pose proof (agg_add INIT_AGGRES [] (ts, xs) agg_of_init Hx (proj1 Hg)) as Hadd.
    simpl is_forward. simpl in Hadd. rewrite (group_within _ _ Hadd (group_bin _ _ Hin) Hg).
    apply (IH _ (gs ++ [g]) [(ts, xs)]); [by rewrite Es, <- app_assoc|apply Forall2_app; [done|by constructor]|done|done|done].
Qed.

Lemma leaf_group_ok pts :
  groupable pts → ∃ out, LeafGroup.group FORWARD b step pts = Some out ∧ Forall2 agg_of out (groups pts).
Proof.
  intros Hok. unfold LeafGroup.group. destruct pts as [|[ts xs] pts]; [by exists []|]. cbn [LeafGroup.group_loop].
  rewrite decide_True by done. pose proof (groupable_app [(ts, xs)] pts Hok) as [Hok1 _].
  assert (Hx : is_nan xs = false) by (destruct Hok1 as [_ [[_ ?] _]%Forall_cons]; done).
  pose proof (agg_add INIT_AGGRES [] (ts, xs) agg_of_init Hx (proj1 Hok1)) as Hadd. simpl in Hadd. simpl is_forward.
  assert (Hin : [(ts, xs)] ∈ groups [(ts, xs)]) by (by apply list_elem_of_singleton).
  rewrite (group_within _ _ Hadd (group_bin _ _ Hin) Hok1).
  destruct (group_loop_ok pts [(ts, xs)] [] [(ts, xs)] (Agg.add ts xs true INIT_AGGRES) [] (bin_of FORWARD b step ts) 0)
    as (ov&out&gs&g&E&Eg&Hout&Hov); [done|constructor|done|done|done|]. rewrite E. cbn [mbind option_bind].
  change ([(ts, xs)] ++ pts) with ((ts, xs) :: pts) in Eg. rewrite Eg.
  assert (Hg : g ∈ groups ((ts, xs) :: pts)) by (rewrite Eg; apply elem_of_app; right; by apply list_elem_of_singleton).
  destruct (group_bin _ _ Hg) as [Hne _]. destruct (group_in _ _ Hg Hok) as [Hag _].
  rewrite (ao_cnt _ _ Hov), count_pos by (pose proof (ro_length _ Hag); lia).
  rewrite bool_decide_eq_true_2 by (destruct g; simpl; [done|lia]). eexists. split; [done|]. apply Forall2_app; [done|by constructor].
Qed.

(** *** The buffer *)

Lemma put_ok pos x buf gs r :
  Forall2 agg_of (take pos buf) gs → (pos < Rdbuf.RDBUF_SIZE)%nat → one_bin r → groupable r →
  agg_of (Agg.combine x (default INIT_AGGRES (buf !! pos))) r →
  ∃ buf', Rdbuf.put step pos x buf = Some buf' ∧ Forall2 agg_of buf' (gs ++ [r]).
Proof.
  intros Hf Hpos Hbin Hok Ha. unfold Rdbuf.put. rewrite decide_False by lia. rewrite (group_within _ r Ha Hbin Hok).
  eexists. split; [done|]. apply Forall2_app; [done|by constructor].
Qed.

(** The results after the first go to new positions. *)
Lemma put_all_ok xs hs buf gs :
  Forall2 agg_of buf gs → Forall2 agg_of xs hs → Forall (λ h, one_bin h ∧ groupable h) hs →
  (length buf + length xs ≤ Rdbuf.RDBUF_SIZE)%nat →
  ∃ buf', Rdbuf.put_all step (length buf) xs buf = Some buf' ∧ Forall2 agg_of buf' (gs ++ hs).
Proof.
  intros Hb' Hx. revert buf gs Hb'. induction Hx as [|x h xs hs Hx _ IH]; intros buf gs Hb' Hh Hl.
  { exists buf. by rewrite app_nil_r. }
  apply Forall_cons in Hh as [[Hbin Hok] Hh]. simpl in Hl.
  destruct (put_ok (length buf) x buf gs h) as (buf1&E1&Hf1); [by rewrite firstn_all|lia|done|done| |].
  { rewrite lookup_ge_None_2 by lia. simpl. apply (agg_combine INIT_AGGRES x [] h); [apply agg_of_init|done|apply Hok]. }
  cbn [Rdbuf.put_all]. rewrite E1. cbn [mbind option_bind].
  pose proof (Forall2_length _ _ _ Hf1) as Hl1. rewrite length_app in Hl1. apply Forall2_length in Hb' as Hl0. simpl in Hl1.
  replace (S (length buf)) with (length buf1) by lia.
  destruct (IH buf1 (gs ++ [h]) Hf1 Hh) as (buf'&E&Hf); [lia|]. exists buf'. by rewrite <- app_assoc in Hf.
Qed.

Lemma groups_all pts : groupable pts → Forall (λ h, one_bin h ∧ groupable h) (groups pts).
Proof. intros Hok. apply Forall_forall. intros g Hg. split; [by eapply group_bin|by eapply group_in]. Qed.

Lemma join_ok buf xs p q :
  Forall2 agg_of buf (groups p) → Forall2 agg_of xs (groups q) → groupable (p ++ q) →
  (length buf + length xs ≤ Rdbuf.RDBUF_SIZE)%nat →
  ∃ buf', Rdbuf.join FORWARD b step xs buf = Some buf' ∧ Forall2 agg_of buf' (groups (p ++ q)).
Proof.
  intros Hbuf Hxs Hok Hl. pose proof (groups_all _ Hok) as Hall. rewrite groups_app in *. unfold Rdbuf.join, glue in *.
  pose proof (groupable_app _ _ Hok) as [Hp Hq]. pose proof (groups_all _ Hp) as Hallp. pose proof (groups_all _ Hq) as Hallq.
  destruct Hxs as [|x h xs hs Hx Hxs]; [exists buf; split; [done|]; destruct (last (groups p)); by rewrite app_nil_r|].
  destruct (last (groups p)) as [g|] eqn:Eg.
  - apply last_Some in Eg as (gs&Eg). rewrite Eg in *. apply Forall2_app_inv_r in Hbuf as (buf0&buf1&Hb0&Hb1&->).
    apply Forall2_cons_inv_r in Hb1 as (y&?&Hy&Hnil&->). apply Forall2_nil_inv_r in Hnil as ->. rewrite last_snoc.
    apply Forall_app in Hallp as [_ [[[Hgne _] Hgok] _]%Forall_cons]. apply Forall_cons in Hallq as [[[Hhne _] Hhok] Hallq].
    destruct g as [|gx g]; [done|]. destruct h as [|hx h]; [done|].
    assert (Ebin : bin_at f (gx :: g) = bin_at f (hx :: h) ↔ bin_of FORWARD b step (ag_begin y) = bin_of FORWARD b step (ag_begin x)).
    { rewrite (agg_begin y _ gx Hy eq_refl), (agg_begin x _ hx Hx eq_refl). unfold bin_at. simpl. split; congruence. }
    destruct (decide (bin_at f (gx :: g) = bin_at f (hx :: h))) as [E|E].
    + rewrite decide_True by (by apply Ebin). rewrite removelast_last in *. apply Forall_app in Hall as [_ [[Hbin Hgh] Hall]%Forall_cons].
      rewrite length_app in *. simpl length in *. replace (length buf0 + 1 - 1)%nat with (length buf0) by lia. cbn [Rdbuf.put_all].
      destruct (put_ok (length buf0) x (buf0 ++ [y]) gs ((gx :: g) ++ (hx :: h))) as (buf2&E2&Hf2); [by rewrite take_app_length|lia|done|done| |].
      { rewrite lookup_app_r, Nat.sub_diag by lia. exact (agg_combine y x _ _ Hy Hx (proj1 Hgh)). }
      rewrite E2. cbn [mbind option_bind]. pose proof (Forall2_length _ _ _ Hf2) as Hl2. apply Forall2_length in Hb0 as Hl0.
      rewrite length_app in Hl2. simpl in Hl2. replace (S (length buf0)) with (length buf2) by lia.
      destruct (put_all_ok xs hs buf2 _ Hf2 Hxs Hall) as (buf'&E3&Hf3); [lia|]. exists buf'. split; [done|]. by rewrite <- app_assoc in Hf3.
    + rewrite decide_False by (intros E2; apply E; by apply Ebin).
      apply (put_all_ok (x :: xs) ((hx :: h) :: hs) (buf0 ++ [y]) (gs ++ [gx :: g])); [by apply Forall2_app; [|constructor]|by constructor| |done].
      by apply Forall_app in Hall as [_ ?].
  - apply last_None in Eg. rewrite Eg in *. apply Forall2_nil_inv_r in Hbuf as ->. simpl.
    apply (put_all_ok (x :: xs) (h :: hs) [] []); [constructor|by constructor|done|done].
Qed.

End Groups.
