(* ===== verification/GroupRead.v ===== *)
(** * Reading the operators of a group aggregate

    [gview n op pts]: the operator [op], over a subtree of height [n], has the
    groups of [pts] still to deliver.  A [read] hands out the groups of a prefix;
    the loops that refill and empty the buffers terminate. *)
From stdpp Require Import sorting.
From S2P Require Import Prelude Status ByteStream Base128 VByte DataBlock DataBlockProof IOVec Blocks Volume Crc32c BlockStoreProof MemStore Double SubtreeRef Operator Leaf LeafIter Superblock TreeIter TreeRead Content Aggregate AggProof Groups GroupProof.

Section Read.
Import AggOp.
Context {B : Type} `{BlockStore B}.
Variables (impl : crc32c_impl_t) (at_ : Z) (bstore : B) (junk : agg_point) (b e step : Z).
Hypotheses (Hb : 0 ≤ b < e) (He : e ≤ TS_MAX) (Hstep : 0 < step ≤ 2 ^ 63).

Notation f := (λ x : point, bin_of FORWARD b step x.1).
Notation groups := (groups f).
Notation one_bin := (one_bin f).
Notation groupable := (groupable b e).
Notation read := (read impl at_ bstore junk).
Notation open_child := (open_child impl at_ bstore (KGroup step)).
Notation refill_loop := (refill_loop impl at_ bstore).
Notation copy_loop := (copy_loop impl at_ bstore).

(** The outcome of a call of [read]. *)
Definition gdelivered (P : AggregateOperator → list point → Prop) (size : nat) (pts : list point)
    (st : Status) (out : list agg_point) (op' : AggregateOperator) : Prop :=
  ∃ chunk rest, pts = chunk ++ rest ∧ Forall2 agg_of (out.*2) (groups chunk) ∧ (length out ≤ size)%nat ∧ P op' rest ∧
    (st = kOk ∧ chunk ≠ [] ∨ st = kNoData ∧ rest = []).

Definition all_gsums (P : AggregateOperator → list point → Prop) : Prop :=
  ∀ op pts leftmost size, P op pts → groupable pts → (0 < size)%nat →
    ∃ N st out op' leftmost', (∀ fuel, (N ≤ fuel)%nat → read fuel size leftmost op = Some (st, out, op', leftmost')) ∧
      gdelivered P size pts st out op'.

Definition gopens (P : AggregateOperator → list point → Prop) (s : SBlockIter) (ref : SubtreeRef) (pts : list point) : Prop :=
  ∀ leftmost,
  (∃ st, open_child ref s leftmost = Some (st, None, leftmost) ∧ (st = kNotFound ∨ st = kUnavailable) ∧ pts = []) ∨
  (∃ op leftmost', open_child ref s leftmost = Some (kOk, Some op, leftmost') ∧ P op pts).

(** The operator at hand has [p1] left, the children that follow [pss]. *)
Definition gsource (P : AggregateOperator → list point → Prop) (s : SBlockIter) (iter : option AggregateOperator)
    (p1 : list point) (pss : list (list point)) : Prop :=
  match iter with Some it => P it p1 | None => p1 = [] end ∧ Forall2 (gopens P s) (pending s) pss.

Definition gnode (P : AggregateOperator → list point → Prop) (s : SBlockIter) (rb : ReadBuffer) (done : bool)
    (iter : option AggregateOperator) (pts : list point) : Prop :=
  si_fsm_pos s ≠ 0 ∧ pos_ok s ∧ si_begin s = b ∧ si_end s = e ∧
  ∃ p0 p1 pss, Forall2 agg_of (drop (rb_pos rb) (rb_buf rb)) (groups p0) ∧ pts = p0 ++ p1 ++ concat pss ∧
    if done then p1 = [] ∧ pss = [] else gsource P s iter p1 pss ∧ (rb_buf rb = [] ∨ rb_pos rb < length (rb_buf rb))%nat.

Definition gleaf (a : LeafGroupAggregator) (pts : list point) : Prop :=
  lg_begin a = b ∧ lg_end a = e ∧ lg_step a = step ∧
  (lg_cached a = true ∧ ready (lg_iter a) [] ∧ li_status (lg_iter a) = kNoData ∧
     (pts = [] ∧ sr_count (lg_meta a) = 0 ∨ one_bin pts ∧ agg_of (Agg.copy_from (lg_meta a)) pts ∧ sr_count (lg_meta a) ≠ 0) ∨
   lg_cached a = false ∧ ready (lg_iter a) pts ∧ (li_status (lg_iter a) = kOk ∨ li_status (lg_iter a) = kNoData ∧ pts = [])).

Fixpoint gview (n : nat) (op : AggregateOperator) (pts : list point) : Prop :=
  match n, op with
  | _, AOEmpty _ _ => pts = []
  | _, AOValue a => if va_used a then pts = [] else one_bin pts ∧ agg_of (va_value a) pts
  | O, AOLeafGroup a => gleaf a pts
  | S n, AOSBlockGroup step' s rb done iter =>
    step' = step ∧ ∃ s', prepare impl at_ bstore s = Some (kOk, s') ∧ gnode (gview n) s' rb done iter pts
  | _, _ => False
  end.

(** ** One operator *)

Lemma length_groups pts : (length (groups pts) ≤ length pts)%nat.
Proof.
  induction pts as [|x pts IH]; [done|]. rewrite groups_cons. unfold gcons. destruct (groups pts) as [|[|y g] gs]; simpl in *; [lia|lia|].
  case_decide; simpl in *; lia.
Qed.

(** An operator that has one group to deliver, in one piece. *)
Lemma one_group P pts x op' size :
  agg_of x.2 pts → one_bin pts → P op' [] → (0 < size)%nat → gdelivered P size pts kOk [x] op'.
Proof.
  intros Ha Hbin Hop Hsz. exists pts, []. rewrite app_nil_r. split_and!; [done| |simpl; lia|done|left; split; [done|apply Hbin]].
  rewrite groups_one by done. constructor; [done|constructor].
Qed.

Lemma no_group P op' size : P op' [] → gdelivered P size [] kNoData [] op'.
Proof. intros Hop. exists [], []. split_and!; [done|constructor|simpl; lia|done|by right]. Qed.

Lemma gsums_leaf (P : AggregateOperator → list point → Prop) a pts leftmost size :
  (∀ a pts, gleaf a pts → P (AOLeafGroup a) pts) → gleaf a pts → groupable pts → (0 < size)%nat →
  ∃ N st out op' leftmost', (∀ fuel, (N ≤ fuel)%nat → read fuel size leftmost (AOLeafGroup a) = Some (st, out, op', leftmost')) ∧
    gdelivered P size pts st out op'.
Proof.
  intros HP Hl Hok Hsz. pose proof Hl as (Eb&Ee&Es&Hc). destruct a as [it cached h b' e' step']. simpl in *. subst b' e' step'.
  assert (Hrd : ∀ st out a', LeafGroup.read size (mkLeafGroup it cached h b e step) = Some (st, out, a') →
    gdelivered P size pts st out (AOLeafGroup a') → ∃ N st out op' lm', (∀ fuel, (N ≤ fuel)%nat →
      read fuel size leftmost (AOLeafGroup (mkLeafGroup it cached h b e step)) = Some (st, out, op', lm')) ∧ gdelivered P size pts st out op').
  { intros st out a' E Hd. exists 1%nat, st, out, (AOLeafGroup a'), leftmost. split; [|done].
    intros [|fuel] Hf; [lia|]. cbn [AggOp.read]. by rewrite E. }
  unfold LeafGroup.read in Hrd. cbn [lg_cached lg_meta lg_iter lg_begin lg_end lg_step] in Hrd. rewrite decide_False in Hrd by lia.
  destruct Hc as [(->&Hr&Hst&[[-> Hz]|(Hbin&Ha&Hz)])|(->&Hr&Hst)].
  - eapply Hrd; [by rewrite decide_True by done|]. apply no_group. by apply HP.
  - eapply Hrd; [rewrite decide_False by done; rewrite (group_within b e step Hb He Hstep _ pts Ha Hbin Hok); reflexivity|].
    apply one_group; [exact Ha|exact Hbin| |exact Hsz]. apply HP. split_and!; try done. right. split_and!; [done|done|by right].
  - pose proof (ready_length _ _ Hr) as Hn. pose proof Hr as (H1&H2&_).
    assert (Hg : LeafIter.get_size it = Some (Z.of_nat (length pts))) by (unfold LeafIter.get_size; rewrite decide_False by lia; f_equal; lia).
    rewrite Hg in Hrd. cbn [mbind option_bind] in Hrd. destruct (decide (pts = [])) as [->|Hne].
    { eapply Hrd; [by rewrite decide_True by done|]. apply no_group. by apply HP. }
    assert (0 < length pts)%nat by (destruct pts; [done|simpl; lia]). rewrite decide_False, Nat2Z.id in Hrd by lia.
    destruct (leaf_read_ok impl at_ bstore it pts (Nat.min (length pts) size) Hr Hst ltac:(lia)) as (st&chunk&it'&E&rest&Ep&Hlc&[Hr' Hst']&Hcase).
    rewrite E in Hrd. cbn [mbind option_bind] in Hrd.
    destruct Hcase as [(->&Hcne&Hfull)|(->&->&Hlt)]; [|exfalso; rewrite app_nil_r in Ep; subst chunk; lia].
    rewrite decide_False in Hrd by (intros Hx; by apply Hx). rewrite decide_False in Hrd by done.
    rewrite decide_False in Hrd by (intros Hx; apply Hx; destruct Hfull as [->|?]; [|done]; rewrite app_nil_r in Ep; subst chunk; lia).
    rewrite Ep in Hok. pose proof (groupable_app _ _ _ _ Hok) as [Hokc _].
    destruct (leaf_group_ok b e step Hb He Hstep chunk Hokc) as (out&Eo&Hout).
    assert (Hlo : (length out ≤ size)%nat) by (pose proof (length_groups chunk); apply Forall2_length in Hout; lia).
    unfold direction in Hrd. rewrite decide_True in Hrd by lia. eapply Hrd; [rewrite Eo; cbn [mbind option_bind]; by rewrite decide_False by lia|].
    exists chunk, rest. split_and!; [done| |by rewrite length_fmap| |by left].
    + by rewrite <- list_fmap_compose, (list_fmap_ext _ id), list_fmap_id.
    + apply HP. split_and!; try done. by right.
Qed.

(** ** Refilling the buffer of a node *)

(** A round with the operator at hand. *)
Lemma refill_some fuel rounds s it leftmost buf status st xs it' lm' buf' :
  (length buf < Rdbuf.RDBUF_SIZE)%nat → SBlock.get_direction s = FORWARD → si_begin s = b →
  read fuel (Rdbuf.RDBUF_SIZE - length buf) leftmost it = Some (st, xs, it', lm') →
  Rdbuf.join FORWARD b step (xs.*2) buf = Some buf' →
  refill_loop (read fuel) (S rounds) step s (Some it) leftmost buf status =
    if decide (st = kNoData) then refill_loop (read fuel) rounds step s None lm' buf' st
    else if decide (st ≠ kOk) then Some (st, buf', false, s, Some it', lm')
    else refill_loop (read fuel) rounds step s (Some it') lm' buf' st.
Proof.
  intros Hl Hd Eb Er Ej. cbn [AggOp.refill_loop]. cbn [mbind option_bind]. rewrite decide_False by lia. rewrite Er.
  cbn [mbind option_bind]. rewrite Hd, Eb, Ej. reflexivity.
Qed.

(** What is known after the loop. *)
Definition refilled (P : AggregateOperator → list point → Prop) (s : SBlockIter) (p0 src : list point)
    (st : Status) (buf : list AggregationResult) (stop : bool) (s' : SBlockIter) (iter : option AggregateOperator) : Prop :=
  ∃ q p1 pss, src = q ++ p1 ++ concat pss ∧ Forall2 agg_of buf (groups (p0 ++ q)) ∧
    (∃ p, s' = SBlock.set_pos p s) ∧ pos_ok s' ∧ gsource P s' iter p1 pss ∧
    (stop = true ∧ st = kNoData ∧ p1 = [] ∧ pss = [] ∨ stop = false ∧ st = kOk ∧ length buf = Rdbuf.RDBUF_SIZE).

Lemma refilled_more P s s1 p p0 c src st buf stop s' iter :
  s1 = SBlock.set_pos p s → refilled P s1 (p0 ++ c) src st buf stop s' iter → refilled P s p0 (c ++ src) st buf stop s' iter.
Proof.
  intros -> (q&p1&pss&->&Hb'&[p' ->]&Hp&Hs&Hc). exists (c ++ q), p1, pss. split_and!; try done.
  - by rewrite <- app_assoc.
  - by rewrite app_assoc.
  - by exists p'.
Qed.

Lemma refill_ok P m :
  all_gsums P → ∀ s iter leftmost buf status p0 p1 pss,
  pos_ok s → SBlock.get_direction s = FORWARD → si_begin s = b → gsource P s iter p1 pss →
  Forall2 agg_of buf (groups p0) → groupable (p0 ++ p1 ++ concat pss) → (length buf ≤ Rdbuf.RDBUF_SIZE)%nat →
  (iter ≠ None → length buf = Rdbuf.RDBUF_SIZE → status = kOk) →
  (2 * length (pending s) + (if iter then 1 else 0) + length (p1 ++ concat pss) < m)%nat →
  ∃ N st buf' stop s' iter' leftmost', (∀ fuel rounds, (N ≤ fuel)%nat → (N ≤ rounds)%nat →
      refill_loop (read fuel) rounds step s iter leftmost buf status = Some (st, buf', stop, s', iter', leftmost')) ∧
    refilled P s p0 (p1 ++ concat pss) st buf' stop s' iter'.
Proof.
  intros HP. induction m as [|m IH]; intros s iter leftmost buf status p0 p1 pss Hp Hd Eb [Hit Hps] Hbuf Hok Hl Hst Hm; [lia|].
  assert (Hset : ∀ s : SBlockIter, SBlock.set_pos (si_refs_pos s) s = s) by (by intros []).
  destruct iter as [it|].
  - destruct (decide (length buf = Rdbuf.RDBUF_SIZE)) as [Hfull|Hroom].
    { exists 1%nat, status, buf, false, s, (Some it), leftmost. split.
      - intros fuel [|rounds] _ Hr; [lia|]. cbn [AggOp.refill_loop mbind option_bind]. by rewrite decide_True.
      - exists [], p1, pss. rewrite app_nil_r. split_and!; [done|done|by exists (si_refs_pos s)|done|done|right; split_and!; [done|by apply Hst|done]]. }
    rewrite app_assoc in Hok. pose proof (groupable_app _ _ _ _ Hok) as [Hok01 _]. pose proof (groupable_app _ _ _ _ Hok01) as [_ Hok1].
    destruct (HP it p1 leftmost (Rdbuf.RDBUF_SIZE - length buf)%nat Hit Hok1 ltac:(lia)) as (N1&st1&xs&it1&lm1&E1&chunk&rest&->&Hxs&Hlx&Hit1&Hc).
    rewrite app_assoc in Hok01. pose proof (groupable_app _ _ _ _ Hok01) as [Hok0c _].
    destruct (join_ok b e step Hb He Hstep buf (xs.*2) p0 chunk Hbuf Hxs Hok0c) as (buf1&Ej&Hbuf1); [rewrite length_fmap; lia|].
    assert (Hl1 : (length buf1 ≤ Rdbuf.RDBUF_SIZE)%nat).
    { pose proof (length_groups_app f p0 chunk). apply Forall2_length in Hbuf, Hxs, Hbuf1. rewrite length_fmap in Hxs. lia. }
    rewrite <- !app_assoc, app_assoc in Hok. rewrite <- app_assoc in Hm |- *. rewrite length_app in Hm.
    destruct Hc as [[-> Hcne]|[-> ->]].
    + assert (0 < length chunk)%nat by (destruct chunk; [done|simpl; lia]).
      destruct (IH s (Some it1) lm1 buf1 kOk (p0 ++ chunk) rest pss) as (N&st&buf'&stop&s'&iter'&lm'&E&Hr); try done; [lia|].
      exists (S (Nat.max N1 N)), st, buf', stop, s', iter', lm'. split; [|by apply (refilled_more P s s (si_refs_pos s)); [rewrite Hset|]].
      intros fuel [|rounds] Hf Hr'; [lia|]. erewrite refill_some; [|lia|done|done|apply E1; lia|exact Ej].
      rewrite decide_False by done. rewrite decide_False by (intros Hx; by apply Hx). apply E; lia.
    + destruct (IH s None lm1 buf1 kNoData (p0 ++ chunk) [] pss) as (N&st&buf'&stop&s'&iter'&lm'&E&Hr); try done; [simpl in *; lia|].
      exists (S (Nat.max N1 N)), st, buf', stop, s', iter', lm'. split; [|by apply (refilled_more P s s (si_refs_pos s)); [rewrite Hset|]].
      intros fuel [|rounds] Hf Hr'; [lia|]. erewrite refill_some; [|lia|done|done|apply E1; lia|exact Ej].
      rewrite decide_True by done. apply E; lia.
  - subst p1. pose proof (next_ref_ok s Hp) as Hn. destruct (pending s) as [|r rs] eqn:Ep.
    { apply Forall2_nil_inv_l in Hps as ->. exists 1%nat, kNoData, buf, true, s, None, leftmost. split.
      - intros fuel [|rounds] _ Hr; [lia|]. cbn [AggOp.refill_loop]. unfold get_next_iter. rewrite Hn. cbn [mbind option_bind].
        by rewrite decide_False by (intros [?|?]; done).
      - exists [], [], []. rewrite (app_nil_r p0). split_and!; [done|done|by exists (si_refs_pos s)|done| |by left].
        split; [done|]. rewrite Ep. constructor. }
    destruct Hn as (p&En&Hp'&Ep'). apply Forall2_cons_inv_l in Hps as (pts&pss'&Ho&Hps&->). rewrite <- Ep' in Hps.
    assert (Hnext : get_next_iter impl at_ bstore (KGroup step) s leftmost =
      ('(status, it, lm) ← open_child r s leftmost; Some (status, it, SBlock.set_pos p s, lm))) by (unfold get_next_iter; by rewrite En).
    simpl length in Hm. rewrite length_app in Hm. cbn [concat] in *. rewrite !app_nil_l in *.
    destruct (Ho leftmost) as [(st1&Eo&Hst1&->)|(op&lm&Eo&Hop)].
    + destruct (IH (SBlock.set_pos p s) None leftmost buf st1 p0 [] pss') as (N&st&buf'&stop&s'&iter'&lm'&E&Hr); try done; [simpl in *; rewrite Ep'; lia|].
      exists (S N), st, buf', stop, s', iter', lm'. split.
      * intros fuel [|rounds] Hf Hr'; [lia|]. cbn [AggOp.refill_loop]. rewrite Hnext, Eo. cbn [mbind option_bind].
        rewrite decide_True by done. apply E; lia.
      * rewrite <- (app_nil_r p0) in Hr. by apply (refilled_more P s (SBlock.set_pos p s) p p0 []).
    + destruct (IH (SBlock.set_pos p s) (Some op) lm buf kOk p0 pts pss') as (N&st&buf'&stop&s'&iter'&lm'&E&Hr); try done;
        [rewrite Ep', length_app; lia|].
      exists (S N), st, buf', stop, s', iter', lm'. split.
      * intros fuel [|rounds] Hf Hr'; [lia|]. rewrite <- (E fuel (S rounds)) by lia. cbn [AggOp.refill_loop]. rewrite Hnext, Eo. reflexivity.
      * rewrite <- (app_nil_r p0) in Hr. by apply (refilled_more P s (SBlock.set_pos p s) p p0 []).
Qed.

(** ** Handing out the groups of the buffer *)

Lemma concat_take_pos k p : (0 < k)%nat → p ≠ [] → (0 < length (concat (take k (groups p))))%nat.
Proof.
  intros Hk Hp. destruct (groups p) as [|g gs] eqn:Eg; [by apply groups_nil in Eg|].
  pose proof (groups_bins f p) as Hg. rewrite Eg in Hg. apply Forall_cons in Hg as [[Hne _] _].
  destruct k; [lia|]. simpl. rewrite length_app. destruct g; [done|simpl; lia].
Qed.

(** Some groups [gs] were handed out, [rest] is left, and no interval is cut. *)
Definition emits (pts : list point) (more : list agg_point) (rest : list point) : Prop :=
  ∃ gs, groups pts = gs ++ groups rest ∧ pts = concat gs ++ rest ∧ Forall2 agg_of (more.*2) gs.

Lemma emits_nil pts : emits pts [] pts.
Proof. exists []. split_and!; [done..|constructor]. Qed.

Lemma emits_app pts m1 mid m2 rest : emits pts m1 mid → emits mid m2 rest → emits pts (m1 ++ m2) rest.
Proof.
  intros (g1&E1&->&H1) (g2&E2&->&H2). exists (g1 ++ g2). split_and!.
  - by rewrite E1, E2, app_assoc.
  - by rewrite concat_app, app_assoc.
  - rewrite fmap_app. by apply Forall2_app.
Qed.

Lemma emits_chunk pts more rest : emits pts more rest → ∃ chunk, pts = chunk ++ rest ∧ Forall2 agg_of (more.*2) (groups chunk).
Proof.
  intros (gs&E&->&Hm). exists (concat gs). split; [done|].
  assert (gs = take (length gs) (groups (concat gs ++ rest))) as Eg by (by rewrite E, take_app_length).
  destruct (groups_take_concat f (length gs) (concat gs ++ rest)) as [Ht _]. rewrite <- Eg in Ht. by rewrite Ht.
Qed.

(** Copying [k] elements of the buffer. *)
Lemma copy_emits stamp k rb p0 src :
  (∀ x : AggregationResult, (stamp x).2 = x) → Forall2 agg_of (drop (rb_pos rb) (rb_buf rb)) (groups p0) →
  (k < length (groups p0))%nat ∨ src = [] →
  emits (p0 ++ src) (Rdbuf.copy stamp k rb).1 (concat (drop k (groups p0)) ++ src) ∧
  Forall2 agg_of (drop (rb_pos (Rdbuf.copy stamp k rb).2) (rb_buf (Rdbuf.copy stamp k rb).2)) (groups (concat (drop k (groups p0)))).
Proof.
  intros Hst Hbuf Hk. split.
  - exists (take k (groups p0)). split_and!; [by apply groups_split| |].
    + rewrite app_assoc, <- concat_app, take_drop. by rewrite groups_concat.
    + simpl. rewrite <- list_fmap_compose, (list_fmap_ext _ id), list_fmap_id by (intros; apply Hst). by apply Forall2_take.
  - simpl. rewrite (proj2 (groups_take_concat f k p0)), <- drop_drop. by apply Forall2_drop.
Qed.

Definition flag (done : bool) (rb : ReadBuffer) : nat :=
  if negb done && bool_decide (Rdbuf.elements_in_rdbuf rb < 2)%nat then 1 else 0.

Lemma tail_drop rb : (rb_buf rb = [] ∨ rb_pos rb < length (rb_buf rb))%nat → (Rdbuf.elements_in_rdbuf rb < 2)%nat →
  Rdbuf.tail rb = drop (rb_pos rb) (rb_buf rb).
Proof.
  unfold Rdbuf.elements_in_rdbuf, Rdbuf.tail. destruct rb as [buf pos]. simpl. intros [->|Hl] Hn; [by rewrite drop_nil|].
  destruct (exists_last (l := buf)) as (l&x&->); [intros ->; simpl in Hl; lia|]. rewrite length_app in *. simpl in *.
  rewrite last_snoc. replace pos with (length l) by lia. by rewrite drop_app_length.
Qed.

(** The outcome of the loop. *)
Definition copied (P : AggregateOperator → list point → Prop) (size : nat) (pts : list point) (out more : list agg_point)
    (st : Status) (op' : AggregateOperator) : Prop :=
  ∃ rest, emits pts more rest ∧ (length (out ++ more) ≤ size)%nat ∧
    (∃ s rb done iter, op' = AOSBlockGroup step s rb done iter ∧ gnode P s rb done iter rest) ∧
    (st = kOk ∧ length (out ++ more) = size ∨ st = kNoData ∧ rest = []).

Lemma guard_room size (out : list agg_point) : (length out < size)%nat → ¬ (kOk ≠ kOk ∨ (size ≤ length out)%nat).
Proof. intros Hr [Hx|Hx]; [by apply Hx|lia]. Qed.

Lemma node_forward P s rb done iter pts : gnode P s rb done iter pts → SBlock.get_direction s = FORWARD.
Proof. intros (_&_&Eb&Ee&_). unfold SBlock.get_direction, direction. rewrite Eb, Ee, decide_True by lia. done. Qed.

(** A round that refills the buffer: the node is as before, with a buffer to read
    from, or there was nothing left. *)
Lemma copy_refill P s rb iter leftmost pts :
  all_gsums P → gnode P s rb false iter pts → groupable pts → (Rdbuf.elements_in_rdbuf rb < 2)%nat →
  ∃ N status s' rb' done iter' leftmost', (∀ fuel rounds size out, (N ≤ fuel)%nat → (N ≤ rounds)%nat → (length out < size)%nat →
      copy_loop (read fuel) (S rounds) size step s rb false iter leftmost kOk out =
      copy_loop (read fuel) rounds size step s' rb' done iter' leftmost' status out) ∧
    gnode P s' rb' done iter' pts ∧ (status = kOk ∧ flag done rb' = 0%nat ∨ status = kNoData ∧ pts = []).
Proof.
  intros HP Hnode Hok Hlt. pose proof (node_forward _ _ _ _ _ _ Hnode) as Hd.
  destruct Hnode as (Hfsm&Hp&Eb&Ee&p0&p1&pss&Hbuf&->&Hsrc&Hrb). pose proof (tail_drop rb Hrb Hlt) as Et. rewrite <- Et in Hbuf.
  assert (Hlt' : (length (Rdbuf.tail rb) < 2)%nat) by (rewrite Et, length_drop; exact Hlt).
  destruct (refill_ok P _ HP s iter leftmost (Rdbuf.tail rb) kNoData p0 p1 pss Hp Hd Eb Hsrc Hbuf Hok ltac:(unfold Rdbuf.RDBUF_SIZE; lia)
    ltac:(unfold Rdbuf.RDBUF_SIZE; lia) (Nat.lt_succ_diag_r _)) as (N1&st1&buf1&stop&s1&iter1&lm1&E1&q&p1'&pss'&Eq&Hb1&[pp ->]&Hp1&Hs1&Hc1).
  exists N1, (if decide (st1 = kNoData ∧ Rdbuf.can_read (mkRdbuf buf1 0) = true) then kOk else st1),
    (SBlock.set_pos pp s), (mkRdbuf buf1 0), stop, iter1, lm1. split_and!.
  - intros fuel rounds size out Hf Hr Hroom. cbn [AggOp.copy_loop]. rewrite decide_False by (by apply guard_room).
    simpl negb. rewrite (bool_decide_eq_true_2 _ Hlt). simpl andb. cbn iota. by rewrite E1 by lia.
  - split_and!; try done. exists (p0 ++ q), p1', pss'. split_and!; [done|by rewrite Eq, <- app_assoc|].
    destruct stop; [by destruct Hc1 as [(_&_&?&?)|[? _]]|]. split; [done|]. destruct Hc1 as [[? _]|(_&_&Hl1)]; [done|].
    right. simpl. rewrite Hl1. unfold Rdbuf.RDBUF_SIZE. lia.
  - destruct Hc1 as [(->&->&->&->)|(->&->&Hl1)].
    + simpl in Eq. rewrite app_nil_r in Eq. rewrite Eq. destruct buf1 as [|x buf1].
      * right. rewrite decide_False by (by intros [_ ?]). split; [done|]. apply Forall2_nil_inv_l in Hb1. by apply groups_nil in Hb1.
      * left. rewrite decide_True by (split; [done|by apply bool_decide_eq_true; simpl; lia]). done.
    + left. rewrite decide_False by (by intros [? _]). split; [done|]. unfold flag, Rdbuf.elements_in_rdbuf. simpl. rewrite Hl1.
      by rewrite bool_decide_eq_false_2 by (unfold Rdbuf.RDBUF_SIZE; lia).
Qed.

(** A round that copies, or finds that nothing is left. *)
Lemma copy_round P s rb done iter leftmost pts size out :
  gnode P s rb done iter pts → flag done rb = 0%nat → (length out < size)%nat →
  (done = true ∧ pts = [] ∧ ∀ fuel rounds,
     copy_loop (read fuel) (S rounds) size step s rb done iter leftmost kOk out = Some (kNoData, out, AOSBlockGroup step s rb done iter, leftmost)) ∨
  ∃ more rb' mid, emits pts more mid ∧ (length mid < length pts)%nat ∧ (length (out ++ more) ≤ size)%nat ∧ gnode P s rb' done iter mid ∧
    ∀ fuel rounds, copy_loop (read fuel) (S rounds) size step s rb done iter leftmost kOk out =
      copy_loop (read fuel) rounds size step s rb' done iter leftmost kOk (out ++ more).
Proof.
  intros (Hfsm&Hp&Eb&Ee&p0&p1&pss&Hbuf&->&Hsrc) Hflag Hroom. pose proof (Forall2_length _ _ _ Hbuf) as Hn. rewrite length_drop in Hn.
  unfold flag in Hflag. set (n := Rdbuf.elements_in_rdbuf rb) in *. assert (En : n = length (groups p0)) by exact Hn.
  destruct (negb done && bool_decide (n < 2)%nat) eqn:Hre; [done|].
  destruct (decide (done = true ∧ n = 0%nat)) as [[-> Hz]|Hsome].
  { left. destruct Hsrc as [-> ->]. split_and!; [done| |].
    - rewrite En in Hz. apply nil_length_inv, groups_nil in Hz. by rewrite Hz.
    - intros fuel rounds. cbn [AggOp.copy_loop]. rewrite decide_False by (by apply guard_room). fold n. rewrite Hre.
      by rewrite (bool_decide_eq_true_2 (n = 0%nat) Hz). }
  right. set (k := Nat.min (if done then n else (n - 1)%nat) (size - length out)).
  assert (Hk : (0 < k)%nat ∧ (k ≤ n)%nat ∧ (done = false → k < n)%nat ∧ (n ≠ 0)%nat).
  { unfold k. destruct done; simpl in Hre; [assert (n ≠ 0)%nat by (intros ?; by apply Hsome); split_and!; try done; lia|].
    rewrite bool_decide_eq_false in Hre. split_and!; try done; lia. }
  destruct Hk as (Hk0&Hkn&Hkd&Hn0).
  assert (Hs : (k < length (groups p0))%nat ∨ p1 ++ concat pss = []) by (destruct done; [right; by destruct Hsrc as [-> ->]|left; rewrite <- En; by apply Hkd]).
  destruct (copy_emits LeafGroup.stamp k rb p0 (p1 ++ concat pss) ltac:(done) Hbuf Hs) as [Hem Hbuf'].
  exists (Rdbuf.copy LeafGroup.stamp k rb).1, (Rdbuf.copy LeafGroup.stamp k rb).2, (concat (drop k (groups p0)) ++ p1 ++ concat pss).
  split_and!; [exact Hem| | | |].
  - assert (Hp0 : p0 ≠ []) by (intros ->; by rewrite En in Hn0). pose proof (concat_take_pos k p0 Hk0 Hp0) as Hpos.
    rewrite !length_app.
    assert (length p0 = length (concat (take k (groups p0))) + length (concat (drop k (groups p0))))%nat
      by (rewrite <- length_app, <- concat_app, take_drop, groups_concat; done). lia.
  - rewrite length_app. simpl. rewrite length_fmap, length_take. unfold k. lia.
  - split_and!; try done. exists (concat (drop k (groups p0))), p1, pss. split_and!; [exact Hbuf'|done|].
    destruct done; [done|]. destruct Hsrc as [Hsrc Hrb]. split; [done|]. right. simpl. specialize (Hkd eq_refl).
    unfold n, Rdbuf.elements_in_rdbuf in Hkd. lia.
  - intros fuel rounds. cbn [AggOp.copy_loop]. rewrite decide_False by (by apply guard_room). fold n. rewrite Hre.
    assert (done && bool_decide (n = 0%nat) = false) as -> by (destruct done; [simpl; by apply bool_decide_eq_false_2|done]). done.
Qed.

Lemma copy_ok P size m :
  all_gsums P → ∀ s rb done iter leftmost out pts,
  gnode P s rb done iter pts → groupable pts → (length out ≤ size)%nat → (2 * length pts + flag done rb < m)%nat →
  ∃ N st more op' leftmost', (∀ fuel rounds, (N ≤ fuel)%nat → (N ≤ rounds)%nat →
      copy_loop (read fuel) rounds size step s rb done iter leftmost kOk out = Some (st, out ++ more, op', leftmost')) ∧
    copied P size pts out more st op'.
Proof.
  intros HP. induction m as [|m IH]; intros s rb done iter leftmost out pts Hnode Hok Hout Hm; [lia|].
  destruct (decide (size ≤ length out)%nat) as [Hfull|Hroom].
  { exists 1%nat, kOk, [], (AOSBlockGroup step s rb done iter), leftmost. rewrite app_nil_r. split.
    - intros fuel [|rounds] _ Hr; [lia|]. cbn [AggOp.copy_loop]. by rewrite decide_True by (by right).
    - exists pts. rewrite app_nil_r. split_and!; [apply emits_nil|done|by eexists _, _, _, _|left; split; [done|lia]]. }
  destruct (decide (flag done rb = 0%nat)) as [Hflag|Hflag].
  - destruct (copy_round P s rb done iter leftmost pts size out Hnode Hflag ltac:(lia)) as [(->&->&E)|(more1&rb'&mid&Hem&Hlt&Hl&Hnode'&E1)].
    + exists 1%nat. eexists kNoData, [], _, _. rewrite app_nil_r. split; [intros fuel [|rounds] _ Hr; [lia|]; apply E|].
      exists []. rewrite app_nil_r. split_and!; [apply emits_nil|done|by eexists _, _, _, _|by right].
    + assert (Hok' : groupable mid) by (destruct Hem as (gs&_&->&_); by apply groupable_app in Hok as [_ ?]).
      destruct (IH s rb' done iter leftmost (out ++ more1) mid Hnode' Hok' Hl) as (N&st&more&op'&lm'&E&rest&Hem2&Hl2&Hop&Hc).
      { unfold flag. destruct (_ && _); lia. }
      exists (S N), st, (more1 ++ more), op', lm'. rewrite app_assoc. split.
      * intros fuel [|rounds] Hf Hr; [lia|]. rewrite E1. apply E; lia.
      * exists rest. rewrite app_assoc. split_and!; [by eapply emits_app|done|done|done].
  - assert (Hre : done = false ∧ (Rdbuf.elements_in_rdbuf rb < 2)%nat).
    { unfold flag in Hflag. destruct done; [done|]. simpl in Hflag. case_bool_decide; done. }
    destruct Hre as [-> Hlt].
    destruct (copy_refill P s rb iter leftmost pts HP Hnode Hok Hlt) as (N1&status&s'&rb'&done&iter'&lm&E1&Hnode'&[[-> Hz]|[-> ->]]).
    + assert (flag false rb = 1%nat) by (unfold flag in *; destruct (_ && _); done).
      destruct (IH s' rb' done iter' lm out pts Hnode' Hok Hout ltac:(lia)) as (N&st&more&op'&lm'&E&Hcop).
      exists (S (Nat.max N1 N)), st, more, op', lm'. split; [|done]. intros fuel [|rounds] Hf Hr; [lia|]. rewrite E1 by lia. apply E; lia.
    + exists (S (S N1)). eexists kNoData, [], _, _. rewrite app_nil_r. split.
      * intros fuel [|[|rounds]] Hf Hr; [lia|lia|]. rewrite E1 by lia. cbn [AggOp.copy_loop]. by rewrite decide_True by (by left).
      * exists []. rewrite app_nil_r. split_and!; [apply emits_nil|done|by eexists _, _, _, _|by right].
Qed.

(** ** Every operator over a subtree *)

Lemma gsums_value (P : AggregateOperator → list point → Prop) a pts leftmost size :
  (∀ a pts, (if va_used a then pts = [] else one_bin pts ∧ agg_of (va_value a) pts) → P (AOValue a) pts) →
  (if va_used a then pts = [] else one_bin pts ∧ agg_of (va_value a) pts) → (0 < size)%nat →
  ∃ N st out op' leftmost', (∀ fuel, (N ≤ fuel)%nat → read fuel size leftmost (AOValue a) = Some (st, out, op', leftmost')) ∧
    gdelivered P size pts st out op'.
Proof.
  intros HP Ha Hsz. destruct (va_used a) eqn:Eu.
  - subst. exists 1%nat. eexists _, _, _, _. split; [|apply (no_group P (AOValue a)), HP; by rewrite Eu].
    intros [|fuel] Hf; [lia|]. cbn [AggOp.read]. unfold ValueAgg.read. rewrite decide_False by lia. by rewrite Eu.
  - destruct Ha as [Hbin Ha]. exists 1%nat. eexists _, _, _, _.
    split; [|apply (one_group P pts (va_ts a, va_value a) (AOValue (mkValueAgg (va_ts a) (va_value a) (va_dir a) true))); [done|done|by apply HP|done]].
    intros [|fuel] Hf; [lia|]. cbn [AggOp.read]. unfold ValueAgg.read. rewrite decide_False by lia. by rewrite Eu.
Qed.

Lemma gsums_gview n : all_gsums (gview n).
Proof.
  assert (Hempty : ∀ n b' e' leftmost size, ∃ N st out op' leftmost',
    (∀ fuel, (N ≤ fuel)%nat → read fuel size leftmost (AOEmpty b' e') = Some (st, out, op', leftmost')) ∧ gdelivered (gview n) size [] st out op').
  { intros n0 b' e' lm size. exists 1%nat. eexists _, _, _, _. split; [intros [|fuel] Hf; [lia|done]|]. apply no_group. by destruct n0. }
  induction n as [|n IH]; intros op pts leftmost size Hv Hok Hsz; destruct op as [b' e'|a|a|a| |step' s rb done iter| | | | |];
    try (exfalso; exact Hv).
  - simpl in Hv. subst. apply Hempty.
  - by apply gsums_value.
  - by apply gsums_leaf.
  - simpl in Hv. subst. apply Hempty.
  - by apply gsums_value.
  - destruct Hv as (->&s'&Ep&Hnode).
    destruct (copy_ok (gview n) size _ IH s' rb done iter leftmost [] pts Hnode Hok ltac:(simpl; lia) (Nat.lt_succ_diag_r _))
      as (N&st&more&op'&lm'&E&rest&Hem&Hl&(s2&rb2&d2&it2&->&Hnode2)&Hc).
    exists (S N), st, more, (AOSBlockGroup step s2 rb2 d2 it2), lm'. split.
    + intros [|fuel] Hf; [lia|]. cbn [AggOp.read]. rewrite decide_False by lia. rewrite Ep. cbn [mbind option_bind].
      rewrite decide_False by (intros Hx; by apply Hx). apply E; lia.
    + destruct (emits_chunk _ _ _ Hem) as (chunk&Ech&Hout). exists chunk, rest. split_and!; [done|done|done| |].
      * simpl. split; [done|]. exists s2. split; [|done]. unfold prepare. by rewrite decide_False by apply Hnode2.
      * destruct Hc as [[-> Hlen]|?]; [left; split; [done|]|by right]. intros ->. apply Forall2_length in Hout. rewrite length_fmap in Hout. simpl in *. lia.
Qed.

End Read.
