(* ===== verification/GroupCombine.v ===== *)
(** * [CombineGroupAggregateOperator] over the extents of a tree

    The operator reads the extents one after another, joins the parts of an
    interval that two of them hold, and stamps every aggregate with the start of
    its interval.  Its loops terminate, and reading it in portions of any size
    delivers one aggregate per interval. *)
From stdpp Require Import sorting.
From S2P Require Import Prelude Status ByteStream Base128 VByte DataBlock DataBlockProof IOVec Blocks Volume Crc32c BlockStoreProof MemStore Double SubtreeRef Operator Leaf LeafIter Superblock TreeIter TreeRead Content Aggregate AggProof Groups GroupProof GroupRead.

Section Combine.
Import AggOp.
Context {B : Type} `{BlockStore B}.
Variables (impl : crc32c_impl_t) (at_ : Z) (bstore : B) (junk : agg_point) (b e step : Z).
Hypotheses (Hb : 0 ≤ b < e) (He : e ≤ TS_MAX) (Hstep : 0 < step ≤ 2 ^ 63).

Notation f := (λ x : point, bin_of FORWARD b step x.1).
Notation groups := (groups f).
Notation groupable := (groupable b e).
Notation emits := (emits b step).
Notation read := (read impl at_ bstore junk).
Notation all_gsums := (all_gsums impl at_ bstore junk b e step).

(** ** Refilling the buffer *)

(** A round with the operator at [ix]. *)
Lemma crefill_some fuel rounds iters ix it leftmost buf st xs it' lm' buf' :
  (length buf < Rdbuf.RDBUF_SIZE)%nat → iters !! ix = Some it →
  read fuel (Rdbuf.RDBUF_SIZE - length buf) leftmost it = Some (st, xs, it', lm') →
  Rdbuf.join FORWARD b step (xs.*2) buf = Some buf' →
  crefill_loop (read fuel) (S rounds) FORWARD b step iters ix leftmost buf =
    if decide (st = kNoData) then crefill_loop (read fuel) rounds FORWARD b step (<[ix := it']> iters) (S ix) lm' buf'
    else if decide (st ≠ kOk) then Some (st, buf', <[ix := it']> iters, ix, lm')
    else crefill_loop (read fuel) rounds FORWARD b step (<[ix := it']> iters) ix lm' buf'.
Proof.
  intros Hl Hit Er Ej. pose proof (lookup_lt_Some _ _ _ Hit). cbn [AggOp.crefill_loop]. rewrite decide_False by lia.
  rewrite Hit. cbn [mbind option_bind]. rewrite Er. cbn [mbind option_bind]. rewrite Ej. reflexivity.
Qed.

(** What is known after the loop. *)
Definition crefilled (P : AggregateOperator → list point → Prop) (n : nat) (p0 src : list point)
    (buf : list AggregationResult) (iters : list AggregateOperator) (ix : nat) : Prop :=
  ∃ q pss, src = q ++ concat pss ∧ Forall2 agg_of buf (groups (p0 ++ q)) ∧ Forall2 P (drop ix iters) pss ∧
    length iters = n ∧ (ix = n ∧ pss = [] ∨ (ix < n)%nat ∧ length buf = Rdbuf.RDBUF_SIZE).

Lemma crefilled_more P n p0 c src buf iters ix : crefilled P n (p0 ++ c) src buf iters ix → crefilled P n p0 (c ++ src) buf iters ix.
Proof.
  intros (q&pss&->&Hbuf&Hps&Hl&Hc). exists (c ++ q), pss. split_and!; try done; [by rewrite <- app_assoc|by rewrite app_assoc].
Qed.

Lemma crefill_ok P m :
  all_gsums P → ∀ iters ix leftmost buf p0 pss,
  (ix ≤ length iters)%nat → Forall2 P (drop ix iters) pss → Forall2 agg_of buf (groups p0) → groupable (p0 ++ concat pss) →
  (length buf ≤ Rdbuf.RDBUF_SIZE)%nat → (length pss + length (concat pss) < m)%nat →
  ∃ N buf' iters' ix' leftmost', (∀ fuel rounds, (N ≤ fuel)%nat → (N ≤ rounds)%nat →
      crefill_loop (read fuel) rounds FORWARD b step iters ix leftmost buf = Some (kOk, buf', iters', ix', leftmost')) ∧
    crefilled P (length iters) p0 (concat pss) buf' iters' ix'.
Proof.
  intros HP. induction m as [|m IH]; intros iters ix leftmost buf p0 pss Hix Hps Hbuf Hok Hl Hm; [lia|].
  assert (Hstop : (length iters ≤ ix ∨ length buf = Rdbuf.RDBUF_SIZE)%nat → crefilled P (length iters) p0 (concat pss) buf iters ix →
    ∃ N buf' iters' ix' leftmost', (∀ fuel rounds, (N ≤ fuel)%nat → (N ≤ rounds)%nat →
      crefill_loop (read fuel) rounds FORWARD b step iters ix leftmost buf = Some (kOk, buf', iters', ix', leftmost')) ∧
    crefilled P (length iters) p0 (concat pss) buf' iters' ix').
  { intros Hs Hr. exists 1%nat, buf, iters, ix, leftmost. split; [|exact Hr]. intros fuel [|rounds] _ Hr'; [lia|].
    cbn [AggOp.crefill_loop]. by rewrite decide_True. }
  destruct (decide (length iters ≤ ix)%nat) as [Hend|Hlt].
  { apply Hstop; [by left|]. exists [], pss. rewrite app_nil_r. split_and!; [done..|]. left. split; [lia|].
    rewrite drop_ge in Hps by done. by apply Forall2_nil_inv_l in Hps. }
  destruct (decide (length buf = Rdbuf.RDBUF_SIZE)) as [Hfull|Hroom].
  { apply Hstop; [by right|]. exists [], pss. rewrite app_nil_r. split_and!; [done..|]. right. split; [lia|done]. }
  clear Hstop. destruct (iters !! ix) as [it|] eqn:Hit; [|apply lookup_ge_None in Hit; lia].
  rewrite (drop_S _ _ _ Hit) in Hps. apply Forall2_cons_inv_l in Hps as (pts&pss'&Hpit&Hps&->). cbn [concat] in *.
  rewrite app_assoc in Hok. pose proof (groupable_app _ _ _ _ Hok) as [Hok01 _]. pose proof (groupable_app _ _ _ _ Hok01) as [_ Hok1].
  destruct (HP it pts leftmost (Rdbuf.RDBUF_SIZE - length buf)%nat Hpit Hok1 ltac:(lia)) as (N1&st1&xs&it1&lm1&E1&chunk&rest&->&Hxs&Hlx&Hit1&Hc).
  rewrite app_assoc in Hok01. pose proof (groupable_app _ _ _ _ Hok01) as [Hok0c _].
  destruct (join_ok b e step Hb He Hstep buf (xs.*2) p0 chunk Hbuf Hxs Hok0c) as (buf1&Ej&Hbuf1); [rewrite length_fmap; lia|].
  assert (Hl1 : (length buf1 ≤ Rdbuf.RDBUF_SIZE)%nat).
  { pose proof (length_groups_app f p0 chunk). apply Forall2_length in Hbuf, Hxs, Hbuf1. rewrite length_fmap in Hxs. lia. }
  rewrite <- !app_assoc, app_assoc in Hok. rewrite <- app_assoc in Hm |- *. rewrite length_app in Hm. simpl in Hm.
  destruct Hc as [[-> Hcne]|[-> ->]].
  - assert (0 < length chunk)%nat by (destruct chunk; [done|simpl; lia]).
    destruct (IH (<[ix := it1]> iters) ix lm1 buf1 (p0 ++ chunk) (rest :: pss')) as (N&buf'&iters'&ix'&lm'&E&Hr); try done.
    + by rewrite length_insert.
    + rewrite (drop_S _ it1) by (by apply list_lookup_insert_eq; lia). rewrite drop_insert_lt by lia. by constructor.
    + simpl. lia.
    + rewrite length_insert in Hr. exists (S (Nat.max N1 N)), buf', iters', ix', lm'. split; [|by apply crefilled_more].
      intros fuel [|rounds] Hf Hr'; [lia|]. erewrite crefill_some; [|lia|exact Hit|apply E1; lia|exact Ej].
      rewrite decide_False by done. rewrite decide_False by (intros Hx; by apply Hx). apply E; lia.
  - destruct (IH (<[ix := it1]> iters) (S ix) lm1 buf1 (p0 ++ chunk) pss') as (N&buf'&iters'&ix'&lm'&E&Hr); try done.
    + rewrite length_insert. lia.
    + by rewrite drop_insert_lt by lia.
    + simpl in *. lia.
    + rewrite length_insert in Hr. exists (S (Nat.max N1 N)), buf', iters', ix', lm'. split; [|by apply crefilled_more].
      intros fuel [|rounds] Hf Hr'; [lia|]. erewrite crefill_some; [|lia|exact Hit|apply E1; lia|exact Ej].
      rewrite decide_True by done. apply E; lia.
Qed.

(** ** Handing out the groups *)

Definition cnode (P : AggregateOperator → list point → Prop) (iters : list AggregateOperator) (ix : nat) (rb : ReadBuffer)
    (pts : list point) : Prop :=
  ∃ p0 pss, Forall2 agg_of (drop (rb_pos rb) (rb_buf rb)) (groups p0) ∧ pts = p0 ++ concat pss ∧
    Forall2 P (drop ix iters) pss ∧ (ix ≤ length iters)%nat ∧
    (ix = length iters ∨ rb_buf rb = [] ∨ rb_pos rb < length (rb_buf rb))%nat.

(** The buffer has to be refilled. *)
Definition cflag (iters : list AggregateOperator) (ix : nat) (rb : ReadBuffer) : nat :=
  if bool_decide (ix ≠ length iters) && bool_decide (Rdbuf.elements_in_rdbuf rb < 2)%nat then 1 else 0.

Notation op_of iters ix rb := (AOCombineGroup b e step iters FORWARD ix rb).
Notation ccopy fuel rounds size iters ix rb leftmost out :=
  (ccopy_loop (read fuel) rounds size b e step iters FORWARD ix rb leftmost kOk out).

Lemma ccopy_refill P iters ix rb leftmost pts :
  all_gsums P → cnode P iters ix rb pts → groupable pts → cflag iters ix rb ≠ 0%nat →
  ∃ N iters' ix' rb' leftmost', (∀ fuel rounds size out, (N ≤ fuel)%nat → (N ≤ rounds)%nat → (length out < size)%nat →
      ccopy fuel (S rounds) size iters ix rb leftmost out = ccopy fuel rounds size iters' ix' rb' leftmost' out) ∧
    cnode P iters' ix' rb' pts ∧ cflag iters' ix' rb' = 0%nat.
Proof.
  intros HP (p0&pss&Hbuf&->&Hps&Hix&Hrb) Hok Hflag. unfold cflag in Hflag.
  destruct (bool_decide (ix ≠ length iters)) eqn:Hmore, (bool_decide (Rdbuf.elements_in_rdbuf rb < 2)%nat) eqn:Hfew; try done.
  apply bool_decide_eq_true in Hmore as Hmore', Hfew as Hfew'. destruct Hrb as [?|Hrb]; [done|].
  pose proof (tail_drop rb Hrb Hfew') as Et. rewrite <- Et in Hbuf.
  assert (Hlt' : (length (Rdbuf.tail rb) < 2)%nat) by (rewrite Et, length_drop; exact Hfew').
  destruct (crefill_ok P _ HP iters ix leftmost (Rdbuf.tail rb) p0 pss Hix Hps Hbuf Hok ltac:(unfold Rdbuf.RDBUF_SIZE; lia)
    (Nat.lt_succ_diag_r _)) as (N&buf1&iters1&ix1&lm1&E&q&pss'&Eq&Hb1&Hp1&Hl1&Hc1).
  exists N, iters1, ix1, (mkRdbuf buf1 0), lm1. split_and!.
  - intros fuel rounds size out Hf Hr Hroom. cbn [AggOp.ccopy_loop]. rewrite decide_False by (by apply guard_room).
    rewrite Hmore, Hfew. simpl andb. cbn iota. by rewrite E by lia.
  - exists (p0 ++ q), pss'. split_and!; [done|by rewrite Eq, <- app_assoc|done|lia|].
    destruct Hc1 as [[-> _]|[_ Hfull]]; [by left|right; right]. simpl. rewrite Hfull. unfold Rdbuf.RDBUF_SIZE. lia.
  - unfold cflag, Rdbuf.elements_in_rdbuf. simpl. destruct Hc1 as [[-> _]|[_ Hfull]].
    + by rewrite (bool_decide_eq_false_2 (length iters ≠ _)) by (rewrite Hl1; tauto).
    + rewrite Hfull. by rewrite (bool_decide_eq_false_2 (_ < 2)%nat), andb_false_r by (unfold Rdbuf.RDBUF_SIZE; lia).
Qed.

Lemma bin_start_snd x : (bin_start FORWARD b step x).2 = x.
Proof. done. Qed.

(** Stamped with the start of the interval. *)
Definition stamped (x : agg_point) : Prop := x = bin_start FORWARD b step x.2.

Lemma ccopy_round P iters ix rb leftmost pts size out :
  cnode P iters ix rb pts → cflag iters ix rb = 0%nat → (length out < size)%nat →
  (pts = [] ∧ ∀ fuel rounds, ccopy fuel (S rounds) size iters ix rb leftmost out = Some (kOk, out, op_of iters ix rb, leftmost)) ∨
  ∃ more rb' mid, emits pts more mid ∧ Forall stamped more ∧ (length mid < length pts)%nat ∧ (length (out ++ more) ≤ size)%nat ∧
    cnode P iters ix rb' mid ∧
    ∀ fuel rounds, ccopy fuel (S rounds) size iters ix rb leftmost out = ccopy fuel rounds size iters ix rb' leftmost (out ++ more).
Proof.
  intros (p0&pss&Hbuf&->&Hps&Hix&Hrb) Hflag Hroom. pose proof (Forall2_length _ _ _ Hbuf) as Hn. rewrite length_drop in Hn.
  unfold cflag in Hflag. set (n := Rdbuf.elements_in_rdbuf rb) in *. assert (En : n = length (groups p0)) by exact Hn.
  destruct (bool_decide (ix ≠ length iters) && bool_decide (n < 2)%nat) eqn:Hre; [done|].
  set (more := bool_decide (ix ≠ length iters)) in *.
  assert (Hend : more = false → pss = []).
  { intros Hm. unfold more in Hm. apply bool_decide_eq_false in Hm. rewrite drop_ge in Hps by lia. by apply Forall2_nil_inv_l in Hps. }
  destruct (negb more && bool_decide (n = 0)%nat) eqn:Hdone.
  { left. apply andb_true_iff in Hdone as Hd. destruct Hd as [Hm%negb_true_iff Hz%bool_decide_eq_true]. split.
    - rewrite En in Hz. apply nil_length_inv, groups_nil in Hz. by rewrite Hz, (Hend Hm).
    - intros fuel rounds. cbn [AggOp.ccopy_loop]. rewrite decide_False by (by apply guard_room). fold n more. by rewrite Hre, Hdone. }
  right. set (k := Nat.min (if more then (n - 1)%nat else n) (size - length out)).
  assert (Hk : (0 < k)%nat ∧ (k ≤ n)%nat ∧ (more = true → k < n)%nat ∧ (n ≠ 0)%nat).
  { unfold k. destruct more; simpl in Hre, Hdone.
    - apply bool_decide_eq_false in Hre. split_and!; lia.
    - apply bool_decide_eq_false in Hdone. split_and!; try done; lia. }
  destruct Hk as (Hk0&Hkn&Hkd&Hn0).
  assert (Hs : (k < length (groups p0))%nat ∨ concat pss = []) by (destruct more; [left; rewrite <- En; by apply Hkd|right; by rewrite Hend]).
  destruct (copy_emits b step (bin_start FORWARD b step) k rb p0 (concat pss) bin_start_snd Hbuf Hs) as [Hem Hbuf'].
  exists (Rdbuf.copy (bin_start FORWARD b step) k rb).1, (Rdbuf.copy (bin_start FORWARD b step) k rb).2, (concat (drop k (groups p0)) ++ concat pss).
  split_and!; [exact Hem| | | | |].
  - simpl. apply Forall_fmap, Forall_true. by intros x.
  - assert (Hp0 : p0 ≠ []) by (intros ->; by rewrite En in Hn0). pose proof (concat_take_pos b step k p0 Hk0 Hp0) as Hpos.
    rewrite !length_app.
    assert (length p0 = length (concat (take k (groups p0))) + length (concat (drop k (groups p0))))%nat
      by (rewrite <- length_app, <- concat_app, take_drop, groups_concat; done). lia.
  - rewrite length_app. simpl. rewrite length_fmap, length_take. unfold k. lia.
  - exists (concat (drop k (groups p0))), pss. split_and!; [exact Hbuf'|done|done|done|].
    destruct (decide (ix = length iters)) as [?|Hne]; [by left|right; right]. simpl.
    assert (more = true) as Hm by (by apply bool_decide_eq_true). specialize (Hkd Hm). unfold n, Rdbuf.elements_in_rdbuf in Hkd. lia.
  - intros fuel rounds. cbn [AggOp.ccopy_loop]. rewrite decide_False by (by apply guard_room). fold n more. by rewrite Hre, Hdone.
Qed.

(** The outcome of a [read]. *)
Definition ccopied (P : AggregateOperator → list point → Prop) (size : nat) (pts : list point) (out more : list agg_point)
    (op' : AggregateOperator) : Prop :=
  ∃ rest, emits pts more rest ∧ Forall stamped more ∧ (length (out ++ more) ≤ size)%nat ∧
    (∃ iters ix rb, op' = op_of iters ix rb ∧ cnode P iters ix rb rest) ∧ (length (out ++ more) = size ∨ rest = []).

Lemma ccopy_ok P size m :
  all_gsums P → ∀ iters ix rb leftmost out pts,
  cnode P iters ix rb pts → groupable pts → (length out ≤ size)%nat → (2 * length pts + cflag iters ix rb < m)%nat →
  ∃ N more op' leftmost', (∀ fuel rounds, (N ≤ fuel)%nat → (N ≤ rounds)%nat →
      ccopy fuel rounds size iters ix rb leftmost out = Some (kOk, out ++ more, op', leftmost')) ∧ ccopied P size pts out more op'.
Proof.
  intros HP. induction m as [|m IH]; intros iters ix rb leftmost out pts Hnode Hok Hout Hm; [lia|].
  destruct (decide (size ≤ length out)%nat) as [Hfull|Hroom].
  { exists 1%nat, [], (op_of iters ix rb), leftmost. rewrite app_nil_r. split.
    - intros fuel [|rounds] _ Hr; [lia|]. cbn [AggOp.ccopy_loop]. by rewrite decide_True by (by right).
    - exists pts. rewrite app_nil_r. split_and!; [apply emits_nil|constructor|done|by eexists _, _, _|left; lia]. }
  destruct (decide (cflag iters ix rb = 0%nat)) as [Hflag|Hflag].
  - destruct (ccopy_round P iters ix rb leftmost pts size out Hnode Hflag ltac:(lia)) as [(->&E)|(more1&rb'&mid&Hem&Hst&Hlt&Hl&Hnode'&E1)].
    + exists 1%nat. eexists [], _, _. rewrite app_nil_r. split; [intros fuel [|rounds] _ Hr; [lia|]; apply E|].
      exists []. rewrite app_nil_r. split_and!; [apply emits_nil|constructor|done|by eexists _, _, _|by right].
    + assert (Hok' : groupable mid) by (destruct Hem as (gs&_&->&_); by apply groupable_app in Hok as [_ ?]).
      destruct (IH iters ix rb' leftmost (out ++ more1) mid Hnode' Hok' Hl) as (N&more&op'&lm'&E&rest&Hem2&Hst2&Hl2&Hop&Hc).
      { unfold cflag. destruct (_ && _); lia. }
      exists (S N), (more1 ++ more), op', lm'. rewrite app_assoc. split.
      * intros fuel [|rounds] Hf Hr; [lia|]. rewrite E1. apply E; lia.
      * exists rest. rewrite app_assoc. split_and!; [by eapply emits_app|by apply Forall_app|done|done|done].
  - destruct (ccopy_refill P iters ix rb leftmost pts HP Hnode Hok Hflag) as (N1&iters'&ix'&rb'&lm&E1&Hnode'&Hz).
    assert (cflag iters ix rb = 1%nat) by (unfold cflag in *; destruct (_ && _); done).
    destruct (IH iters' ix' rb' lm out pts Hnode' Hok Hout ltac:(lia)) as (N&more&op'&lm'&E&Hcop).
    exists (S (Nat.max N1 N)), more, op', lm'. split; [|done]. intros fuel [|rounds] Hf Hr; [lia|]. rewrite E1 by lia. apply E; lia.
Qed.

(** ** Reading it to the end *)

(** [read] until nothing comes back. *)
Fixpoint drain_agg (rounds fuel size : nat) (leftmost : bool) (op : AggregateOperator) : option (list agg_point * Status) :=
  match rounds with
  | O => None
  | S rounds =>
    '(st, out, op, leftmost) ← read fuel size leftmost op;
    if decide (out = []) then Some ([], st) else
    '(more, st) ← drain_agg rounds fuel size leftmost op;
    Some (out ++ more, st)
  end.

Lemma drain_combine P size n :
  all_gsums P → (0 < size)%nat → ∀ iters ix rb leftmost pts,
  (length pts ≤ n)%nat → cnode P iters ix rb pts → groupable pts →
  ∃ N out, Forall stamped out ∧ Forall2 agg_of (out.*2) (groups pts) ∧
    ∀ rounds fuel, (length (groups pts) < rounds)%nat → (N ≤ fuel)%nat →
      drain_agg rounds fuel size leftmost (op_of iters ix rb) = Some (out, kOk).
Proof.
  intros HP Hsz. induction n as [n IH] using lt_wf_ind. intros iters ix rb leftmost pts Hn Hnode Hok.
  destruct (ccopy_ok P size _ HP iters ix rb leftmost [] pts Hnode Hok ltac:(simpl; lia) (Nat.lt_succ_diag_r _))
    as (N1&more&op'&lm'&E&rest&(gs&Eg&Ep&Hm)&Hst&Hl&(iters'&ix'&rb'&->&Hnode')&Hc). simpl app in *.
  assert (Er : ∀ fuel, (S N1 ≤ fuel)%nat → read fuel size leftmost (op_of iters ix rb) = Some (kOk, more, op_of iters' ix' rb', lm')).
  { intros [|fuel] Hf; [lia|]. cbn [AggOp.read]. rewrite decide_False by lia. apply E; lia. }
  pose proof (Forall2_length _ _ _ Hm) as Hlen. rewrite length_fmap in Hlen. destruct more as [|x more].
  - destruct gs; [|done]. destruct Hc as [Hc| ->]; [simpl in Hc; lia|]. simpl in Ep. subst pts.
    exists (S N1), []. split_and!; [constructor|apply Forall2_nil; done|]. intros [|rounds] fuel Hr Hf; [lia|].
    cbn [drain_agg]. by rewrite Er by lia.
  - assert (Hlr : (length rest < length pts)%nat).
    { destruct gs as [|g gs]; [done|]. pose proof (groups_bins f pts) as Hbins. rewrite Eg in Hbins.
      apply Forall_cons in Hbins as [[Hg _] _]. rewrite Ep. cbn [concat]. rewrite !length_app. destruct g; [done|simpl; lia]. }
    assert (Hokr : groupable rest) by (rewrite Ep in Hok; by apply groupable_app in Hok as [_ ?]).
    destruct (IH (length rest) ltac:(lia) iters' ix' rb' lm' rest (Nat.le_refl _) Hnode' Hokr) as (N&out&Hso&Ho&Hd).
    exists (S (Nat.max N1 N)), ((x :: more) ++ out). split_and!; [by apply Forall_app|rewrite fmap_app, Eg; by apply Forall2_app|].
    intros [|rounds] fuel Hr Hf; [lia|]. cbn [drain_agg]. rewrite Er by lia. cbn [mbind option_bind]. rewrite decide_False by done.
    rewrite Hd; [done| |lia]. rewrite Eg, length_app in Hr. simpl in Hlen. lia.
Qed.

(** One aggregate for every interval that holds points, with the start of the
    interval, in the order of time. *)
Definition interval_aggregates (out : list agg_point) (pts : list point) : Prop :=
  StronglySorted Z.lt (out.*1) ∧
  ∃ gs, concat gs = pts ∧ Forall2 (λ x g, agg_of x.2 g ∧ g ≠ [] ∧ (∃ i, 0 ≤ i ∧ x.1 = b + step * i) ∧
    ∀ p, p ∈ g → x.1 ≤ p.1 < x.1 + step) out gs.

Lemma stamped_interval x g :
  stamped x → agg_of x.2 g → one_bin f g → groupable g →
  ∃ i, bin_at f g = Some i ∧ x.1 = b + step * i ∧ 0 ≤ i ∧ ∀ p, p ∈ g → x.1 ≤ p.1 < x.1 + step.
Proof.
  intros Hst Ha [Hne Hbin] [_ Hin]. destruct g as [|y g]; [done|]. pose proof (agg_begin b e step Hb Hstep _ _ y Ha eq_refl) as Eb.
  rewrite Forall_forall in Hin. assert (Hy : y ∈ y :: g) by (apply elem_of_cons; by left). destruct (Hin y Hy) as [Hy1 _].
  pose proof (bin_eq b e step Hb He y.1 Hy1) as Ey.
  pose proof (Z.div_mod (y.1 - b) step ltac:(lia)). pose proof (Z.mod_pos_bound (y.1 - b) step ltac:(lia)).
  pose proof (Z.div_pos (y.1 - b) step ltac:(lia) ltac:(lia)).
  exists (f y). assert (Ex : x.1 = b + step * f y).
  { unfold stamped, bin_start in Hst. apply (f_equal fst) in Hst. simpl in Hst. rewrite Hst, Eb, u64_id; [done|]. unfold is_u64, TS_MAX in *. rewrite Ey. nia. }
  split_and!; [done|done|rewrite Ey; lia|]. intros p Hp. specialize (Hbin p y Hp Hy). simpl in Hbin. destruct (Hin p Hp) as [Hp1 _].
  rewrite Ex, <- Hbin, (bin_eq b e step Hb He p.1 Hp1).
  pose proof (Z.div_mod (p.1 - b) step ltac:(lia)). pose proof (Z.mod_pos_bound (p.1 - b) step ltac:(lia)). lia.
Qed.

Lemma intervals_ok out pts :
  Forall stamped out → Forall2 agg_of (out.*2) (groups pts) → groupable pts → interval_aggregates out pts.
Proof.
  intros Hst Hout Hok. pose proof (groups_all b e step _ Hok) as Hall. rewrite Forall2_fmap_l in Hout.
  assert (Hi : Forall2 (λ x g, agg_of x.2 g ∧ one_bin f g ∧ ∃ i, bin_at f g = Some i ∧ x.1 = b + step * i ∧ 0 ≤ i ∧
    ∀ p, p ∈ g → x.1 ≤ p.1 < x.1 + step) out (groups pts)).
  { clear Hok. induction Hout as [|x g out' gs' Ha Hout IH]; [constructor|]. apply Forall_cons in Hst as [Hx Hst], Hall as [[H1 H2] Hall].
    constructor; [split_and!; [done|done|by apply stamped_interval]|by apply IH]. }
  split.
  - assert (E : out.*1 = (λ i, b + step * i) <$> omap (bin_at f) (groups pts)).
    { clear - Hi. induction Hi as [|x g out' gs' (_&_&i&Ei&Ex&_) _ IH]; [done|]. rewrite fmap_cons, IH, Ex. simpl. by rewrite Ei. }
    rewrite E. apply (StronglySorted_fmap _ Z.lt Z.lt); [intros; nia|]. apply bins_increase.
    destruct Hok as [Hok Hin]. pose proof (ro_sorted _ Hok) as Hs. clear - Hs Hin Hb He Hstep. induction Hs as [|x l Hs IH Hx]; [constructor|].
    apply Forall_cons in Hin as [Hx1 Hin]. constructor; [by apply IH|]. rewrite Forall_forall in *. intros y Hy. specialize (Hx y Hy).
    rewrite !(bin_eq b e step Hb He) by (by apply (Hin y Hy) || apply Hx1). apply Z.div_le_mono; lia.
  - exists (groups pts). split; [apply groups_concat|]. eapply Forall2_impl; [exact Hi|].
    intros x g (Ha&[Hne _]&i&_&Ex&Hp&Hg). split_and!; [done|done|by exists i|done].
Qed.

End Combine.
