(* ===== verification/GroupRun.v ===== *)
(** * Group aggregates of a tree

    A forward group aggregate of a tree delivers one aggregate for every interval
    of [step] nanoseconds from [begin] on that holds points of the range, stamped
    with the start of the interval, in portions of any size. *)
From stdpp Require Import gmap sorting.
From S2P Require Import Prelude Status ByteStream Base128 VByte DataBlock DataBlockProof IOVec Blocks Volume Crc32c BlockStoreProof MemStore Double SubtreeRef Operator Leaf LeafIter Superblock TreeIter TreeRead Extents Content ExtentsProof TreeProof TreeRun TreeClose TreeOpen TreeRepair Events EventsProof EventsTree ColumnStore ColumnStoreProof Aggregate AggTree AggProof AggRun Groups GroupProof GroupRead GroupCombine.

(** ** Subtrees *)

Section Subtree.
Import AggOp.
Context {B : Type} `{BlockStoreLaws B}.
Context (impl : crc32c_impl_t) `{!Crc32cImpl impl} (at_ : Z).
Variables (k : nat) (bstore : B) (hist : gmap Z (list Z)) (id b e step : Z).
Hypotheses (Hstore : bs_inv k bstore hist) (Hid : is_u64 id).
Hypothesis Hall : ∀ addr, is_Some (hist !! addr) → bs_exists addr bstore = true.
Hypotheses (Hb : 0 ≤ b < e) (He : e ≤ TS_MAX) (Hstep : 0 < step ≤ 2 ^ 63).

Notation f := (λ x : point, bin_of FORWARD b step x.1).
Notation one_bin := (one_bin f).
Notation gview := (gview impl at_ bstore b e step).
Notation gopens := (gopens impl at_ bstore step).
Notation gnode := (gnode impl at_ bstore b e step).

(** The times are far from the end of the range of 64 bits. *)
Definition early (pts : list point) : Prop := Forall (λ x, 0 ≤ x.1 < 2 ^ 63) pts.

(** Times between two of one interval are in it. *)
Lemma one_interval lo hi pts :
  pts ≠ [] → b ≤ lo → hi < e → (∀ x, x ∈ pts → lo ≤ x.1 ≤ hi) → bin_of FORWARD b step lo = bin_of FORWARD b step hi → one_bin pts.
Proof.
  intros Hne Hlo Hhi Hx Ebin. split; [done|].
  assert (Hc : ∀ x, x ∈ pts → f x = bin_of FORWARD b step lo).
  { intros x Hin. specialize (Hx x Hin). simpl. rewrite !(bin_eq b e) in * by (done || lia).
    pose proof (Z.div_le_mono (lo - b) (x.1 - b) step ltac:(lia) ltac:(lia)).
    pose proof (Z.div_le_mono (x.1 - b) (hi - b) step ltac:(lia) ltac:(lia)). lia. }
  intros x y Hx' Hy'. by rewrite (Hc x Hx'), (Hc y Hy').
Qed.

Lemma leaf_gview l h pts :
  leaf_reads l h pts → ts_sorted pts → Forall (λ x, finite x.2) pts → Z.of_nat (length pts) < 2 ^ 53 →
  (pts = [] → sr_begin h = TS_MAX ∧ sr_end h = 0 ∧ ¬ everything b e) →
  ∃ a, LeafGroup.make b e step l = Some a ∧ gview 0 (AOLeafGroup a) (range_points b e pts).
Proof.
  intros Hl Hs Hf Hlen Hnil. pose proof Hl as (Er&Eh&Hh). unfold LeafGroup.make, Leaf.get_timestamps, direction.
  rewrite Eh. cbn [mbind option_bind]. rewrite decide_True by lia. case_bool_decide as Hc.
  - destruct Hc as (Ebin&Hlo&Hhi). assert (Hin : ∀ x, x ∈ pts → sr_begin h ≤ x.1 ≤ sr_end h) by (intros x Hx; exact (sorted_ends _ _ _ Hs Hh Hx)).
    rewrite range_all by (try lia; intros x Hx; specialize (Hin x Hx); lia). eexists. split; [reflexivity|].
    split_and!; [done..|]. left. split_and!; [done|by split_and!; simpl; try lia|done|].
    destruct (decide (pts = [])) as [->|Hne]; [left; split; [done|apply (su_count _ _ Hh)]|right].
    split_and!; [by apply (one_interval (sr_begin h) (sr_end h))| |simpl; rewrite (su_count _ _ Hh); destruct pts; [done|simpl; lia]].
    apply agg_of_leaf; try done.
  - destruct (decide (pts = [])) as [->|Hne].
    + destruct (Hnil eq_refl) as (Eb&Ee&Hev). rewrite range_nil.
      destruct (empty_leaf_view impl (λ _, at_) bstore l h None b e Eh Eb Ee Er I ltac:(tauto)) as (op&E&Hv).
      destruct (LeafIter.make b e l) as [it|] eqn:Eit; [|done]. injection E as <-. unfold LeafIter.make in Eit. rewrite Eit.
      eexists. split; [reflexivity|]. split_and!; [done..|]. right. by destruct Hv.
    + destruct (iter_init_ok l h pts b e Hl Hs Hne) as (it&E&_&_&Hr&_&Hst). unfold LeafIter.make in E. rewrite E.
      eexists. split; [reflexivity|]. split_and!; [done..|]. by right.
Qed.

(** The metadata of a child is taken only if its points are in one interval of
    the query. *)
Lemma inner_group_ok ref pts s :
  describes ref pts → pts ≠ [] → ts_sorted pts → early pts → si_begin s = b → si_end s = e →
  subtree_in_range ref b e = true → inner_group step ref s = true →
  (∀ x, x ∈ pts → b ≤ x.1 < e) ∧ one_bin pts.
Proof.
  intros Hd Hne Hs Hearly Esb Ese Hin Hg. 
  assert (Hx : ∀ x, x ∈ pts → sr_begin ref ≤ x.1 ≤ sr_end ref) by (intros x Hx; exact (describes_times _ _ _ Hd Hs Hx)).
  assert (Hends : 0 ≤ sr_begin ref ≤ sr_end ref ∧ sr_end ref < 2 ^ 63).
  { destruct pts as [|x pts]; [done|]. destruct (de_begin _ _ Hd x eq_refl) as [-> _].
    destruct (last (x :: pts)) as [y|] eqn:El; [|by apply last_None in El]. destruct (de_end _ _ Hd y El) as [-> _].
    pose proof (last_Some_elem_of _ _ El) as Hy. unfold early in Hearly. rewrite Forall_forall in Hearly.
    pose proof (Hearly x ltac:(apply elem_of_cons; by left)). pose proof (Hearly y Hy).
    destruct (Hx y Hy) as [? _]. destruct (de_begin _ _ Hd x eq_refl) as [E _]. rewrite E in *. lia. }
  unfold subtree_in_range in Hin. rewrite negb_true_iff, orb_false_iff, !bool_decide_eq_false in Hin.
  unfold inner_group, SBlock.get_direction, direction in Hg. rewrite Esb, Ese, decide_True in Hg by lia.
  rewrite andb_true_iff, !bool_decide_eq_true in Hg. destruct Hg as [Hg1 Hg2].
  assert (Hbe : bin_of FORWARD b step e = (e - b) / step) by (unfold bin_of, normts; rewrite u64_id by (unfold is_u64, TS_MAX in *; lia); done).
  assert (Hend : bin_of FORWARD b step (sr_end ref) = (sr_end ref - b) / step).
  { unfold bin_of, normts. rewrite u64_id by (unfold is_u64; lia). done. }
  assert (Hlo : b ≤ sr_begin ref).
  { destruct (decide (b ≤ sr_begin ref)) as [?|Hn]; [done|exfalso].
    assert (Hw : bin_of FORWARD b step (sr_begin ref) = (sr_begin ref - b + 2 ^ 64) / step).
    { unfold bin_of, normts, u64. f_equal. rewrite <- (Z_mod_plus_full (sr_begin ref - b) 1), Z.mod_small; unfold TS_MAX in *; lia. }
    rewrite Hw, Hend in Hg1. pose proof (Z.div_le_mono (sr_end ref - b + step) (sr_begin ref - b + 2 ^ 64) step ltac:(lia) ltac:(lia)) as Hle.
    replace (sr_end ref - b + step) with (sr_end ref - b + 1 * step) in Hle by lia. rewrite Z.div_add in Hle by lia. lia. }
  assert (Hst : bin_of FORWARD b step (sr_begin ref) = (sr_begin ref - b) / step).
  { unfold bin_of, normts. rewrite u64_id by (unfold is_u64; lia). done. }
  assert (Hhi : sr_end ref < e).
  { rewrite Hst, Hend in Hg1. rewrite Hend, Hbe in Hg2. pose proof (Z.div_le_mono (sr_begin ref - b) (e - b) step ltac:(lia) ltac:(lia)).
    destruct (decide (sr_end ref < e)) as [?|Hn]; [done|exfalso].
    pose proof (Z.div_le_mono (e - b) (sr_end ref - b) step ltac:(lia) ltac:(lia)). lia. }
  split; [intros x Hxin; specialize (Hx x Hxin); lia|]. by apply (one_interval (sr_begin ref) (sr_end ref)); try done; congruence.
Qed.

Lemma early_parts (pss : list (list piece)) : early (concat (points <$> pss)) → Forall (λ p, early (points p)) pss.
Proof.
  induction pss as [|p pss IH]; [constructor|]. rewrite fmap_cons. cbn [concat]. intros [H1 H2]%Forall_app.
  constructor; [exact H1|by apply IH].
Qed.

(** A node whose children are opened has the groups of their points to deliver. *)
Lemma start_gnode n addr refs pss fsm :
  Forall2 (λ r p, ∀ s, si_begin s = b → si_end s = e → gopens (gview n) s r (range_points b e p)) refs pss → fsm ≠ 0 →
  ∀ s, s = mkSBlockIter b e addr refs fsm (SBlock.start_pos b e refs) None →
  gnode (gview n) s Rdbuf.empty false None (range_points b e (concat pss)).
Proof.
  intros Hf Hfsm s ->. destruct (start_pending b e addr refs fsm None) as [Hp Epend].
  split_and!; [done|exact Hp|done|done|]. exists [], [], (range_points b e <$> pss). split; [apply Forall2_nil; done|]. split.
  - rewrite range_concat. unfold visit. by rewrite decide_True by lia.
  - split; [|by left]. split; [done|]. rewrite Epend, decide_True by lia. apply Forall2_fmap_r.
    eapply Forall2_impl; [exact Hf|]. intros r p Hrp. by apply Hrp.
Qed.

Lemma tree_gopens n ref ps s :
  tree id hist n ref ps → si_begin s = b → si_end s = e → Z.of_nat (length (points ps)) < 2 ^ 53 → early (points ps) →
  gopens (gview n) s ref (range_points b e (points ps)).
Proof.
  revert ref ps s. induction n as [|n IH]; intros ref ps s Ht Esb Ese Hlen Hea leftmost;
    destruct (tree_common _ _ _ _ _ Ht) as (_&Hs&Hne&Hd&_&Hin); pose proof (Hall _ Hin) as Hex;
    unfold open_child; rewrite Hex, Esb, Ese; simpl negb; cbn iota; rewrite Z.min_l, Z.max_r by lia;
    (destruct (subtree_in_range ref b e) eqn:Hr; simpl negb; cbn iota;
      [right|left; exists kNotFound; split_and!; [done|by left|]; apply range_none; intros x Hx;
       pose proof (describes_times _ _ _ Hd Hs Hx); unfold subtree_in_range in Hr;
       rewrite negb_false_iff, orb_true_iff, !bool_decide_eq_true in Hr; lia]).
  - destruct Ht as (_&_&_&_&_&img&h&Ha&Eth&_&Et&pts&Hi&Hsum&Hfin&->). rewrite points_leaf in *.
    rewrite decide_True by done. unfold make_leaf_iterator.
    rewrite (read_leaf impl at_ k bstore hist id Hstore _ _ _ _ Ha Hex Hi). cbn [mbind option_bind].
    rewrite decide_False by (intros Hx; by apply Hx).
    destruct (leaf_image_read _ _ _ _ Hi Hid) as (l&El&Eh&Er). rewrite El, Esb, Ese. cbn [mbind option_bind].
    destruct (leaf_gview l h pts) as (a&Ea&Hv); [by split_and!|done..|]. rewrite Ea. cbn [mbind option_bind]. eauto.
  - pose proof Ht as (_&_&_&_&_&img&h&Ha&Eth&_&Et&refs&pss&Hi&_&Hn0&Hrne&Hf&->). rewrite decide_False by (by rewrite Et).
    unfold make_superblock_iterator. destruct (inner_group step ref s) eqn:Hc.
    + eexists _, _. split; [done|]. simpl. destruct (inner_group_ok ref _ s Hd Hne Hs Hea Esb Ese Hr Hc) as [Hx Hone].
      rewrite range_all by (lia || done). split; [done|]. by apply agg_of_ref.
    + eexists _, _. split; [done|]. split; [done|].
      destruct (super_image_read _ _ _ Hi Hn0) as (sb&El&_&Er&_). pose proof Hi as (?&?&?&?&?&Hrl&_).
      unfold prepare, SBlock.init. simpl. rewrite (read_super impl at_ k bstore hist Hstore _ _ _ _ Ha Hex Hi). cbn [mbind option_bind].
      rewrite decide_False by (intros Hx; by apply Hx). rewrite El. cbn [mbind option_bind]. rewrite Er. cbn [mbind option_bind].
      rewrite decide_False by (intros Hx; by apply Hx). eexists. split; [done|].
      rewrite points_under, points_concat in *. rewrite Esb, Ese.
      eapply (start_gnode n (sr_addr ref) refs (points <$> pss) 1); [|done|reflexivity]. apply Forall2_fmap_r.
      eapply Forall2_impl; [exact (Forall2_and_r _ _ _ _ (Forall2_and_r _ _ _ _ Hf (short_parts _ _ Hlen)) (early_parts _ Hea))|].
      intros r p [[Hrp Hl] Hp] s' ??. by apply (IH r p s').
Qed.

End Subtree.

(** ** Extents *)

Section Tree.
Context {B : Type} `{BlockStoreLaws B}.
Context (lk : bool) (id : Z) (impl : crc32c_impl_t) `{!Crc32cImpl impl} (at_ : nat → Z) (junk : agg_point).
Variables (k : nat) (bstore : B) (hist : gmap Z (list Z)) (b e step : Z).
Hypotheses (Hid : is_u64 id) (Hstore : bs_inv k bstore hist).
Hypothesis Hall : ∀ addr, is_Some (hist !! addr) → bs_exists addr bstore = true.
Hypotheses (Hb : 0 ≤ b < e) (He : e ≤ TS_MAX) (Hstep : 0 < step ≤ 2 ^ 63).

(** An operator over a subtree of some height. *)
Definition gop (op : AggregateOperator) (pts : list point) : Prop := ∃ n, gview impl (at_ 0%nat) bstore b e step n op pts.

Lemma gsums_gop : all_gsums impl (at_ 0%nat) bstore junk b e step gop.
Proof.
  intros op pts leftmost size [n Hop] Hok Hsz.
  destruct (gsums_gview impl (at_ 0%nat) bstore junk b e step Hb He Hstep n op pts leftmost size Hop Hok Hsz)
    as (N&st&out&op'&lm'&E&chunk&rest&Ep&Ho&Hl&Hop'&Hc).
  exists N, st, out, op', lm'. split; [exact E|]. exists chunk, rest. split_and!; [done..|by exists n|done].
Qed.

Lemma leaf_ext_group x pts :
  leaf_holds lk id x pts → ts_sorted pts → Z.of_nat (length pts) < 2 ^ 53 → (pts = [] → ¬ everything b e) →
  ∃ op, AggTree.ext_group_aggregate b e step (LeafExtent x) = Some op ∧ gop op (range_points b e pts).
Proof.
  intros Hh Hs Hlen Hev. destruct (lh_leaf _ _ _ _ Hh) as (h&Hinv&Hsum). pose proof (read_all_open _ _ _ _ Hinv Hid) as Er.
  destruct (leaf_block _ _ _ _ Hinv) as (_&_&Eh&_).
  destruct (leaf_gview impl (at_ 0%nat) bstore b e step Hb He Hstep (le_leaf x) h pts) as (a&Ea&Hv);
    [by split_and!|done|apply (lh_finite _ _ _ _ Hh)|done| |].
  { intros ->. destruct (lh_empty _ _ _ _ Hh eq_refl) as (h'&Eh'&?&?). rewrite Eh in Eh'. injection Eh' as <-. split_and!; [done|done|by apply Hev]. }
  exists (AOLeafGroup a). cbn [AggTree.ext_group_aggregate]. rewrite Ea. split; [done|by exists 0%nat].
Qed.

Lemma inner_ext_group i x cs :
  inner_holds lk id hist (S i) x cs → Z.of_nat (length (points (level_pieces cs))) < 2 ^ 53 → early (points (level_pieces cs)) →
  ∃ op, AggTree.ext_group_aggregate b e step (SBlockExtent x) = Some op ∧ gop op (range_points b e (points (level_pieces cs))).
Proof.
  intros [[h Hs] Hc _ _ _ _ _] Hlen Hea. cbn [AggTree.ext_group_aggregate]. unfold SBlock.of_node.
  rewrite (read_all_ok _ _ _ Hs). replace (S i - 1)%nat with i in Hc by lia.
  cbn [mbind option_bind]. rewrite decide_False by (intros Hx; by apply Hx). eexists. split; [reflexivity|]. exists (S i). split; [done|].
  eexists. split; [reflexivity|]. unfold level_pieces in *. rewrite points_concat in *.
  eapply (start_gnode impl (at_ 0%nat) bstore b e step Hb i _ (cs.*1) (points <$> cs.*2) 1); [|done|reflexivity]. apply Forall2_fmap_r.
  eapply Forall2_impl;
    [exact (Forall2_and_r _ _ _ _ (Forall2_and_r _ _ _ _ (children_trees _ _ _ _ Hc) (short_parts _ _ Hlen)) (early_parts _ Hea))|].
  intros r p [[Hrp Hl] Hp] s' Es1 Es2.
  exact (tree_gopens impl (at_ 0%nat) k bstore hist id b e step Hstore Hid Hall Hb He Hstep i r p s' Hrp Es1 Es2 Hl Hp).
Qed.

(** The points of a tree are numbers. *)
Lemma content_numbers l pts lv : tree_ok lk id l hist pts lv → Forall (λ x, is_nan x.2 = false) (content pts lv).
Proof.
  intros [Hex _ _ _ _]. unfold content. apply Forall_app.
  assert (Hlv : ∀ i es rs, levels_ok lk id hist (S i) es lv rs → Forall (λ x, is_nan x.2 = false) (points (levels_pieces lv))).
  { clear Hex. intros i es. revert i lv. induction es as [|[|x] es IH]; intros i [|cs lv'] [|r rs]; try done.
    intros (Hh&_&Hrest). simpl. rewrite points_app. apply Forall_app. split; [by eapply IH|].
    destruct Hh as [_ Hc _ _ _ _ _]. replace (S i - 1)%nat with i in Hc by lia. unfold level_pieces. rewrite points_concat.
    pose proof (children_trees _ _ _ _ Hc) as Ht. clear - Ht. induction Ht as [|r p rs ps Hrp _ IH]; [constructor|].
    rewrite fmap_cons. cbn [concat]. apply Forall_app. split; [|exact IH]. destruct (tree_common _ _ _ _ _ Hrp) as (_&_&_&Hd&_).
    apply Forall_forall. intros x Hx. by apply (de_value _ _ Hd). }
  destruct (el_extents l) as [|[x|x] es], (el_rescue l) as [|r rs]; try done; [destruct Hex as [-> ->]; by split|].
  destruct Hex as (Hh&_&Hrest). split; [by eapply Hlv|]. eapply Forall_impl; [apply (lh_finite _ _ _ _ Hh)|]. intros y. apply finite_not_nan.
Qed.

Lemma levels_group i es lv rs :
  levels_ok lk id hist (S i) es lv rs →
  Forall (λ p, Z.of_nat (length p) < 2 ^ 53 ∧ early p) ((λ cs, points (level_pieces cs)) <$> lv) →
  Forall2 (λ x p, ∃ op, AggTree.ext_group_aggregate b e step x = Some op ∧ gop op (range_points b e p)) es
    ((λ cs, points (level_pieces cs)) <$> lv).
Proof.
  intros Hlv. revert i lv rs Hlv. induction es as [|[|x] es IH]; intros i [|cs lv] [|r rs]; try done.
  intros (Hh&_&Hlv) Hp. rewrite fmap_cons in *. apply Forall_cons in Hp as [(Hl&Hea) Hp].
  constructor; [by eapply inner_ext_group|by eapply IH].
Qed.

Lemma ext_group_direction x op : AggTree.ext_group_aggregate b e step x = Some op → AggOp.get_direction op = direction b e.
Proof.
  destruct x as [x|x]; cbn [AggTree.ext_group_aggregate]; intros E.
  - unfold LeafGroup.make in E. destruct (Leaf.get_timestamps (le_leaf x)) as [[lo hi]|]; [|done]. cbn [mbind option_bind] in E.
    set (g := match direction b e with FORWARD => _ | BACKWARD => _ end) in E. destruct g.
    + destruct (Leaf.get_leafmeta (le_leaf x)); [|done]. by injection E as <-.
    + destruct (LeafIter.init (le_leaf x) _) as [it|] eqn:Ei; [|done]. injection E as <-. unfold LeafIter.init in Ei.
      cbn [LeafIter.make_delayed li_begin li_end] in Ei. bind_inv Ei; by simplify_eq.
  - destruct (SBlock.of_node (se_curr x) b e None) as [it|] eqn:Ei; [|done]. injection E as <-. unfold SBlock.of_node in Ei.
    bind_inv Ei; by simplify_eq.
Qed.

(** What a group aggregate delivers, read in portions of any size. *)
Definition gyields (op : AggregateOperator) (pts : list point) : Prop :=
  ∀ lm size, (0 < size)%nat → ∃ N out, interval_aggregates b step out pts ∧
    ∀ rounds fuel, (length pts < rounds)%nat → (N ≤ fuel)%nat →
      drain_agg impl (at_ 0%nat) bstore junk rounds fuel size lm op = Some (out, kOk).

Lemma combine_gyields ops pss :
  Forall2 gop ops pss → AggOp.first_direction ops = FORWARD → groupable b e (concat pss) →
  gyields (AggOp.combine_group b e step ops) (concat pss).
Proof.
  intros Hf Hd Hok lm size Hsz. unfold AggOp.combine_group. rewrite Hd.
  destruct (drain_combine impl (at_ 0%nat) bstore junk b e step Hb He Hstep gop size _ gsums_gop Hsz ops 0 Rdbuf.empty lm
    (concat pss) (Nat.le_refl _)) as (N&out&Hst&Hout&Hdr); [|done|].
  { exists [], pss. split_and!; [by apply Forall2_nil|done|done|lia|right; by left]. }
  exists N, out. split; [by apply (intervals_ok b e)|]. intros rounds fuel Hr Hfu. apply Hdr; [|done].
  pose proof (length_groups b step (concat pss)). lia.
Qed.

Lemma concat_forall {A} (P : A → Prop) (Q : list A → Prop) (l : list (list A)) m :
  (∀ p, Z.of_nat (length p) < m → Forall P p → Q p) → Z.of_nat (length (concat l)) < m → Forall P (concat l) → Forall Q l.
Proof.
  intros HQ. induction l as [|p l IH]; intros Hl Hp; [constructor|]. cbn [concat] in *. rewrite length_app in Hl.
  apply Forall_app in Hp as [H1 H2]. constructor; [apply HQ; [lia|done]|apply IH; [lia|done]].
Qed.

Lemma group_yields l pts lv :
  tree_ok lk id l hist pts lv → agg_range b e (content pts lv) → early (content pts lv) →
  (el_extents l = [] ∨ pts ≠ [] ∨ ¬ everything b e) →
  ∃ op, AggTree.group_aggregate b e step l = Some op ∧ gyields op (range_points b e (content pts lv)).
Proof.
  intros Hok Hr Hea Hev. pose proof (content_numbers _ _ _ Hok) as Hnum. destruct Hok as [Hex Hsort _ _ _].
  pose proof (range_run _ _ _ Hsort Hr) as Hrun. destruct Hr as (_&_&_&Hlen).
  assert (Hgr : groupable b e (range_points b e (content pts lv))).
  { split; [done|]. apply Forall_forall. intros x Hx. split; [by eapply range_in; [lia|]|].
    apply range_points_in in Hx. rewrite Forall_forall in Hnum. by apply Hnum. }
  unfold AggTree.group_aggregate, AggTree.operators. destruct (el_extents l) as [|[x|x] es] eqn:Ee, (el_rescue l) as [|r rs]; try done.
  - destruct Hex as [-> ->]. eexists. split; [reflexivity|]. change (content [] []) with (@nil point) in *. rewrite range_nil in *.
    apply (combine_gyields [AOEmpty b e] [[]]); [repeat constructor; by exists 0%nat| |done]. unfold AggOp.first_direction. simpl.
    unfold direction. by rewrite decide_True by lia.
  - destruct Hex as (Hh&_&Hlv). rewrite decide_True by lia. destruct Hev as [?|Hev]; [done|].
    assert (Hparts : Forall (λ p, Z.of_nat (length p) < 2 ^ 53 ∧ early p) (reverse (parts pts lv)))
      by (eapply concat_forall; rewrite ?parts_concat; [|exact Hlen|exact Hea]; by split).
    rewrite Forall_reverse in Hparts. apply Forall_cons in Hparts as [(Hl0&_) Hparts].
    assert (Hs0 : ts_sorted pts) by (unfold content in Hsort; by eapply sorted_app_r).
    assert (Hf : Forall2 (λ x p, ∃ op, AggTree.ext_group_aggregate b e step x = Some op ∧
        (gop op (range_points b e p) ∧ AggOp.get_direction op = FORWARD)) (reverse (LeafExtent x :: es)) (reverse (parts pts lv))).
    { assert (Hex0 : Forall2 (λ x p, ∃ op, AggTree.ext_group_aggregate b e step x = Some op ∧ gop op (range_points b e p))
        (LeafExtent x :: es) (parts pts lv)).
      { constructor; [|by eapply levels_group]. apply leaf_ext_group; [done..|]. intros ->. by destruct Hev. }
      apply Forall2_reverse. eapply Forall2_impl; [exact Hex0|].
      intros y p (op&Eop&Hop). exists op. split_and!; [done..|]. rewrite (ext_group_direction _ _ Eop). unfold direction.
      by rewrite decide_True by lia. }
    destruct (mapM_all _ (λ op p, gop op (range_points b e p) ∧ AggOp.get_direction op = FORWARD) _ _ Hf) as (ops&->&Hops).
    cbn [mbind option_bind]. eexists. split; [reflexivity|].
    rewrite <- parts_concat, range_concat in *. unfold visit in *. rewrite decide_True in * by lia.
    apply combine_gyields; [apply Forall2_fmap_r; eapply Forall2_impl; [exact Hops|]; by intros ?? [? _]| |done].
    destruct ops as [|op ops]; [done|]. destruct (reverse (parts pts lv)); [by apply Forall2_nil_inv_r in Hops|].
    apply Forall2_cons in Hops as [[_ Hd] _]. exact Hd.
Qed.

End Tree.

(** ** Properties *)

(** C10: group aggregates of the column store.  After any operations on a new
    store, a group aggregate over a forward range of time, with any step up to
    2^63, asks every series, up to the first unknown id, for an operator.  Read in
    portions of any size, on a store that keeps its blocks, it delivers one
    aggregate for each interval [[begin + i * step, begin + (i + 1) * step)] that
    holds points of the range, stamped with the start of the interval, in the order
    of time; each is the aggregate of all points of its interval, whatever leaves
    and subtrees they are spread over, and together they cover the points of the
    range, each once.  No assert is reached and every loop ends. *)
Theorem column_store_group_aggregate {B} `{BlockStoreLaws B} impl `{!Crc32cImpl impl} at_ junk os nsessions ids b e step rounds fuel
    (s : B) hist k :
  Forall (op_ok nsessions) os → Z.of_nat (length os) ≤ 2 ^ 60 → bs_inv (418 * length os + k) s hist → (31 ≤ fuel)%nat →
  0 ≤ b < e → e ≤ TS_MAX → 0 < step ≤ 2 ^ 63 →
  let m := (spec_run os ∅).2 in
  (∀ id pts, id ∈ ids → m !! id = Some pts → agg_range b e pts ∧ early pts) →
  ∃ rs w hist', store_run impl at_ rounds fuel os (new_world nsessions s) = Some (rs, w) ∧
    hist ⊆ hist' ∧ bs_inv k (w_blocks w) hist' ∧
    ((∀ a, is_Some (hist' !! a) → bs_exists a (w_blocks w) = true) →
     ∃ ops, CStoreAgg.group_aggregate impl at_ rounds fuel ids b e step (w_store w) (w_blocks w)
         = Some (if decide (known m ids = ids) then kOk else kNotFound, ops, w_store w, w_blocks w) ∧
       Forall2 (λ id op, ∃ pts, m !! id = Some pts ∧ gyields impl at_ junk (w_blocks w) b step op (range_points b e pts)) (known m ids) ops).
Proof.
  intros Ho Hlen Hs Hfuel Hb He Hstep m Hr. pose proof (new_world_ok _ _ _ nsessions Hs) as Hw.
  assert (Ho' : Forall (op_ok (length (w_sessions (new_world nsessions s)))) os) by (simpl; by rewrite length_replicate).
  destruct (run_ok impl at_ rounds fuel Hfuel true os k 0 hist _ ∅ Hw Ho' ltac:(lia) ltac:(lia)) as (rs&w&hist'&E&_&Hsub&Hw').
  exists rs, w, hist'. split; [exact E|]. split; [exact Hsub|]. split; [exact (proj2 (proj2 Hw'))|]. intros Hex.
  apply (iterate_each impl at_ true rounds fuel k _ hist' w m Hw' _ (λ id op, ∃ pts, m !! id = Some pts ∧ _)).
  intros id t Hin Et [pts Em]. destruct (columns_some _ _ _ _ _ _ _ (proj1 Hw') Em) as (t0&Et0&Hid&Hcol).
  rewrite Et in Et0. injection Et0 as <-. destruct Hcol as (open&lv&Hok&Hc&_&_&_&_&Hone). specialize (Hone eq_refl).
  split; [exact (proj1 (to_ready _ _ _ _ _ _ Hok))|]. destruct (Hr id pts Hin Em) as [Hr1 Hr2]. rewrite <- Hc in Hr1, Hr2.
  destruct (group_yields true id impl at_ junk k (w_blocks w) hist' b e step Hid (proj2 (proj2 Hw')) Hex Hb He Hstep t open lv Hok Hr1 Hr2)
    as (op&Eop&Hy).
  { destruct (decide (pts = [])) as [_|_] in Hone; [left; by rewrite Hone|right; left; apply Hone]. }
  exists op. rewrite Eop. split; [done|]. exists pts. split; [exact Em|]. by rewrite <- Hc.
Qed.

Lemma column_store_group_aggregate_witness :
  ∃ rs w, store_run crc32c_sw (λ _, 0) 1 31 sample_ops (new_world 2 (Mem.make false false)) = Some (rs, w) ∧
    ∃ ops, CStoreAgg.group_aggregate crc32c_sw (λ _, 0) 1 31 [1; 2] 8 20 5 (w_store w) (w_blocks w) = Some (kOk, ops, w_store w, w_blocks w) ∧
       Forall2 (λ pts op, gyields crc32c_sw (λ _, 0) (0, INIT_AGGRES) (w_blocks w) 8 5 op pts) [[(10, 0)]; []] ops.
Proof.
  destruct (column_store_group_aggregate (B := MemStore) crc32c_sw (λ _, 0) (0, INIT_AGGRES) sample_ops 2 [1; 2] 8 20 5 1 31
    (Mem.make false false) ∅ 0) as (rs&w&hist'&E&_&Hi&Hq).
  - repeat constructor; by_compute.
  - by_compute.
  - split; [apply mem_make_inv; by_compute|done].
  - lia.
  - lia.
  - by_compute.
  - lia.
  - intros id pts Hin Em. repeat (apply elem_of_cons in Hin as [->|Hin]; [vm_compute in Em; injection Em as <-; by_compute|]).
    by apply not_elem_of_nil in Hin.
  - exists rs, w. split; [exact E|]. pose proof sample_run_keeps as Hrm. rewrite E in Hrm.
    destruct (Hq (λ a, mem_keeps _ _ _ a Hi Hrm)) as (ops&Ea&Hops). exists ops. split; [exact Ea|].
    apply Forall2_cons_inv_l in Hops as (op1&?&(p1&E1&H1)&Hops&->). apply Forall2_cons_inv_l in Hops as (op2&?&(p2&E2&H2)&Hops&->).
    apply Forall2_nil_inv_l in Hops as ->. vm_compute in E1, E2. injection E1 as <-. injection E2 as <-. by repeat constructor.
Defined.
