(* ===== verification/PList.v ===== *)
(** * Compressed postings lists (invertedindex.h, invertedindex.cc)

    A postings list is a sequence of 64-bit ids in a byte vector: the differences
    of neighbours as base-128 integers.  [CompressedPList] appends to it,
    [CompressedPListConstIterator] decodes it, and the set operations of the
    standard library run over the iterators.  [CMSketch] is the sketch of lists
    that the index can use instead of its table. *)
From stdpp Require Import sorting.
From S2P Require Import Prelude ByteStream Base128.

(** ** Coders ([details::Base128Int], [DeltaStreamWriter], [DeltaStreamReader]) *)

Module Plist.

(** [Base128Int::put] appends to a vector. *)
Fixpoint put_loop (fuel : nat) (value : Z) (vec : list Z) : option (list Z) :=
  match fuel with
  | O => None
  | S fuel =>
    let p := Z.land value 0x7F in
    let value := Z.shiftr value 7 in
    if decide (value ≠ 0) then put_loop fuel value (vec ++ [u8 (Z.lor p 0x80)])
    else Some (vec ++ [u8 p])
  end.

Definition put (value : Z) (vec : list Z) : option (list Z) := put_loop Base128Int.MAX_BYTES value vec.

(** [Base128StreamReader::next]: the decoder is that of the column coder. *)
Definition next : Base128StreamReader.t → option (Z * Base128StreamReader.t) := Base128StreamReader.next.

(** [DeltaStreamReader::next] with its member [prev_]. *)
Definition delta_next (r : Base128StreamReader.t) (prev : Z) : option (Z * Base128StreamReader.t) :=
  '(delta, r) ← next r;
  Some (u64 (prev + delta), r).

End Plist.

(** ** [CompressedPListConstIterator] *)

Record PListIter := mkPIter {
  pi_card : nat;
  pi_reader : Base128StreamReader.t;
  pi_prev : Z;      (* delta_.prev_ *)
  pi_pos : nat;
  pi_curr : Z;
}.

Module PIter.

Definition load (it : PListIter) : option PListIter :=
  if decide (pi_pos it < pi_card it)%nat then
    '(x, r) ← Plist.delta_next (pi_reader it) (pi_prev it);
    Some (mkPIter (pi_card it) r x (pi_pos it) x)
  else Some it.

Definition make (vec : list Z) (c : nat) : option PListIter :=
  load (mkPIter c (Base128StreamReader.mk vec 0) 0 0 0).
Definition make_end (vec : list Z) (c : nat) : PListIter := mkPIter c (Base128StreamReader.mk vec 0) 0 c 0.

Definition deref (it : PListIter) : Z := pi_curr it.
Definition incr (it : PListIter) : option PListIter :=
  load (mkPIter (pi_card it) (pi_reader it) (pi_prev it) (S (pi_pos it)) (pi_curr it)).
Definition neq (a b : PListIter) : bool := bool_decide (pi_pos a ≠ pi_pos b).

End PIter.

(** ** [CompressedPList] *)

Record CompressedPList := mkPList {
  pl_buffer : list Z;
  pl_prev : Z;        (* delta_.prev_ *)
  pl_card : nat;      (* cardinality_ *)
  pl_moved : bool;
}.

Module PList.

Definition make : CompressedPList := mkPList [] 0 0 false.

(** A copy and a moved-to list start again from [prev_ = 0]. *)
Definition copy (p : CompressedPList) : option CompressedPList :=
  if pl_moved p then None else Some (mkPList (pl_buffer p) 0 (pl_card p) false).
Definition move (p : CompressedPList) : option (CompressedPList * CompressedPList) :=
  if pl_moved p then None else Some (mkPList (pl_buffer p) 0 (pl_card p) false, mkPList [] (pl_prev p) (pl_card p) true).
(** Move assignment keeps [prev_]; the two buffers are swapped. *)
Definition assign (self other : CompressedPList) : option (CompressedPList * CompressedPList) :=
  if pl_moved other then None else
  Some (mkPList (pl_buffer other) (pl_prev other) (pl_card other) (pl_moved self),
        mkPList (pl_buffer self) (pl_prev other) (pl_card other) true).

Definition add (x : Z) (p : CompressedPList) : option CompressedPList :=
  if pl_moved p then None else
  vec ← Plist.put (u64 (x - pl_prev p)) (pl_buffer p);
  Some (mkPList vec x (S (pl_card p)) (pl_moved p)).
Definition push_back (x : Z) (p : CompressedPList) : option CompressedPList :=
  if pl_moved p then None else add x p.

Definition cardinality (p : CompressedPList) : option nat := if pl_moved p then None else Some (pl_card p).

Definition begin_ (p : CompressedPList) : option PListIter :=
  if pl_moved p then None else PIter.make (pl_buffer p) (pl_card p).
Definition end_ (p : CompressedPList) : option PListIter :=
  if pl_moved p then None else Some (PIter.make_end (pl_buffer p) (pl_card p)).

(** *** The algorithms of the standard library over the iterators *)

(** [std::copy] into a [back_inserter]. *)
Fixpoint copy_loop (fuel : nat) (first_ last_ : PListIter) (result : CompressedPList) : option CompressedPList :=
  match fuel with
  | O => None
  | S fuel =>
    if PIter.neq first_ last_ then
      result ← push_back (PIter.deref first_) result;
      first_ ← PIter.incr first_;
      copy_loop fuel first_ last_ result
    else Some result
  end.

Fixpoint set_intersection (fuel : nat) (first1 last1 first2 last2 : PListIter) (result : CompressedPList)
    : option CompressedPList :=
  match fuel with
  | O => None
  | S fuel =>
    if PIter.neq first1 last1 && PIter.neq first2 last2 then
      if decide (PIter.deref first1 < PIter.deref first2) then
        first1 ← PIter.incr first1; set_intersection fuel first1 last1 first2 last2 result
      else if decide (PIter.deref first2 < PIter.deref first1) then
        first2 ← PIter.incr first2; set_intersection fuel first1 last1 first2 last2 result
      else
        result ← push_back (PIter.deref first1) result;
        first1 ← PIter.incr first1;
        first2 ← PIter.incr first2;
        set_intersection fuel first1 last1 first2 last2 result
    else Some result
  end.

Fixpoint set_union (fuel : nat) (first1 last1 first2 last2 : PListIter) (result : CompressedPList)
    : option CompressedPList :=
  match fuel with
  | O => None
  | S fuel =>
    if PIter.neq first1 last1 && PIter.neq first2 last2 then
      if decide (PIter.deref first1 < PIter.deref first2) then
        result ← push_back (PIter.deref first1) result;
        first1 ← PIter.incr first1;
        set_union fuel first1 last1 first2 last2 result
      else if decide (PIter.deref first2 < PIter.deref first1) then
        result ← push_back (PIter.deref first2) result;
        first2 ← PIter.incr first2;
        set_union fuel first1 last1 first2 last2 result
      else
        result ← push_back (PIter.deref first1) result;
        first1 ← PIter.incr first1;
        first2 ← PIter.incr first2;
        set_union fuel first1 last1 first2 last2 result
    else
      result ← copy_loop fuel first1 last1 result;
      copy_loop fuel first2 last2 result
  end.

Fixpoint set_difference (fuel : nat) (first1 last1 first2 last2 : PListIter) (result : CompressedPList)
    : option CompressedPList :=
  match fuel with
  | O => None
  | S fuel =>
    if PIter.neq first1 last1 && PIter.neq first2 last2 then
      if decide (PIter.deref first1 < PIter.deref first2) then
        result ← push_back (PIter.deref first1) result;
        first1 ← PIter.incr first1;
        set_difference fuel first1 last1 first2 last2 result
      else if decide (PIter.deref first2 < PIter.deref first1) then
        first2 ← PIter.incr first2; set_difference fuel first1 last1 first2 last2 result
      else
        first1 ← PIter.incr first1;
        first2 ← PIter.incr first2;
        set_difference fuel first1 last1 first2 last2 result
    else copy_loop fuel first1 last1 result
  end.

(** [std::unique_copy]: [x] is the last value that was written. *)
Fixpoint unique_loop (fuel : nat) (x : Z) (next last_ : PListIter) (result : CompressedPList) : option CompressedPList :=
  match fuel with
  | O => None
  | S fuel =>
    next ← PIter.incr next;
    if PIter.neq next last_ then
      if decide (PIter.deref next = x) then unique_loop fuel x next last_ result
      else result ← push_back (PIter.deref next) result; unique_loop fuel (PIter.deref next) next last_ result
    else Some result
  end.

Definition binary (op : nat → PListIter → PListIter → PListIter → PListIter → CompressedPList → option CompressedPList)
    (p q : CompressedPList) : option CompressedPList :=
  first1 ← begin_ p; last1 ← end_ p; first2 ← begin_ q; last2 ← end_ q;
  op (2 * (pl_card p + pl_card q) + 2)%nat first1 last1 first2 last2 make.

Definition and_ : CompressedPList → CompressedPList → option CompressedPList := binary set_intersection.
Definition or_ : CompressedPList → CompressedPList → option CompressedPList := binary set_union.
Definition xor_ : CompressedPList → CompressedPList → option CompressedPList := binary set_difference.

Definition unique (p : CompressedPList) : option CompressedPList :=
  first_ ← begin_ p; last_ ← end_ p;
  if PIter.neq first_ last_ then
    result ← push_back (PIter.deref first_) make;
    unique_loop (S (pl_card p)) (PIter.deref first_) first_ last_ result
  else Some make.

(** The values, in order (the loop [for (it = begin(); it != end(); ++it)]). *)
Fixpoint values_loop (fuel : nat) (it last_ : PListIter) : option (list Z) :=
  match fuel with
  | O => None
  | S fuel =>
    if PIter.neq it last_ then
      it' ← PIter.incr it;
      xs ← values_loop fuel it' last_;
      Some (PIter.deref it :: xs)
    else Some []
  end.

Definition values (p : CompressedPList) : option (list Z) :=
  first_ ← begin_ p; last_ ← end_ p; values_loop (S (pl_card p)) first_ last_.

End PList.

(** ** [CMSketch] *)

Record CMSketch := mkSketch { sk_table : list (list CompressedPList); sk_mask : Z; sk_bits : Z }.

Module Sketch.

Definition N : nat := 3.

(** [log2] of a [double], truncated. *)
Definition make (M : Z) : option CMSketch :=
  let mask := u32 (M - 1) in
  if decide (Z.land mask M ≠ 0) then None else
  Some (mkSketch (replicate N (replicate (Z.to_nat M) PList.make)) mask (Z.log2 mask)).

Definition extracthash (s : CMSketch) (key : Z) (i : nat) : Z :=
  u32 (Z.land (Z.shiftr key (Z.of_nat i * sk_bits s)) (sk_mask s)).

Fixpoint add_rows (s : CMSketch) (key value : Z) (i : nat) (rows : list (list CompressedPList))
    : option (list (list CompressedPList)) :=
  match rows with
  | [] => Some []
  | row :: rows =>
    let hash := Z.to_nat (extracthash s key i) in
    cell ← row !! hash;
    cell ← PList.add value cell;
    rows ← add_rows s key value (S i) rows;
    Some (<[hash := cell]> row :: rows)
  end.

Definition add (key value : Z) (s : CMSketch) : option CMSketch :=
  rows ← add_rows s key value 0 (sk_table s);
  Some (mkSketch rows (sk_mask s) (sk_bits s)).

Definition cell (s : CMSketch) (key : Z) (i : nat) : option CompressedPList :=
  row ← sk_table s !! i; row !! Z.to_nat (extracthash s key i).

Definition extract (value : Z) (s : CMSketch) : option CompressedPList :=
  a ← cell s value 0; b ← cell s value 1; c ← cell s value 2;
  ab ← PList.and_ a b; PList.and_ ab c.

End Sketch.
