(* ===== verification/PListProof.v ===== *)
(** * Postings lists hold what was added, and the set operations are exact

    [holds p vs]: the list [p] decodes to [vs] and can be extended;
    [shows p vs]: it decodes to [vs].  The algorithms of the standard library
    over the iterators keep sorted lists sorted and compute intersection,
    union, difference and removal of duplicates. *)
From stdpp Require Import sorting.
From S2P Require Import Prelude ByteStream Base128 PList.

Fixpoint deltas (prev : Z) (vs : list Z) : list Z :=
  match vs with [] => [] | v :: vs => u64 (v - prev) :: deltas v vs end.

Definition last_value (vs : list Z) : Z := default 0 (last vs).

Definition shows (p : CompressedPList) (vs : list Z) : Prop :=
  pl_moved p = false ∧ pl_card p = length vs ∧ pl_buffer p = Base128StreamWriter.bytes (deltas 0 vs) ∧ Forall is_u64 vs.
Definition holds (p : CompressedPList) (vs : list Z) : Prop := shows p vs ∧ pl_prev p = last_value vs.

(** The vector fits into memory. *)
Definition small (vs : list Z) : Prop := 10 * Z.of_nat (length vs) < 2 ^ 64.

Lemma deltas_app prev vs x : deltas prev (vs ++ [x]) = deltas prev vs ++ [u64 (x - default prev (last vs))].
Proof.
  revert prev. induction vs as [|v vs IH]; intros prev; [done|]. simpl. rewrite IH. rewrite last_cons.
  by destruct (last vs).
Qed.

Lemma deltas_u64 prev vs : Forall is_u64 (deltas prev vs).
Proof. revert prev. induction vs; intros prev; constructor; [apply u64_range|done]. Qed.

Lemma length_deltas prev vs : length (deltas prev vs) = length vs.
Proof. revert prev. induction vs; intros prev; [done|]. simpl. by f_equal. Qed.

Lemma length_stream l : (length (Base128StreamWriter.bytes l) ≤ 10 * length l)%nat.
Proof.
  induction l as [|v l IH]; [done|]. simpl. rewrite length_app. pose proof (Base128Int.bytes_length v). unfold Base128Int.MAX_BYTES in *.
  fold (Base128StreamWriter.bytes l) in *. lia.
Qed.

(** ** Adding *)

Lemma put_loop_bytes n v vec :
  0 ≤ v < 2 ^ (7 * Z.of_nat n) → (1 ≤ n)%nat → Plist.put_loop n v vec = Some (vec ++ Base128Int.bytes_fuel n v).
Proof.
  revert v vec. induction n as [|n IH]; intros v vec Hv Hn; [lia|]. cbn [Plist.put_loop Base128Int.bytes_fuel].
  pose proof (Base128Int.low7_range v) as Hlow. pose proof (Base128Int.lor_high v) as Hor.
  destruct (decide (Z.shiftr v 7 = 0)) as [Hz|Hz].
  - rewrite decide_False by (by intros Hx). unfold u8. rewrite Z.mod_small by lia. done.
  - rewrite decide_True by done. destruct n as [|n].
    { exfalso. apply Hz. rewrite shiftr_div by lia. apply Z.div_small. simpl in Hv. lia. }
    rewrite IH by (try lia; by apply Base128Int.shiftr7_lt). unfold u8. rewrite Z.mod_small by lia. by rewrite <- app_assoc.
Qed.

Lemma put_bytes v vec : is_u64 v → Plist.put v vec = Some (vec ++ Base128Int.bytes v).
Proof. intros Hv. apply put_loop_bytes; [by apply Base128Int.fits_max|unfold Base128Int.MAX_BYTES; lia]. Qed.

Lemma add_holds p vs x : holds p vs → is_u64 x → ∃ p', PList.add x p = Some p' ∧ holds p' (vs ++ [x]).
Proof.
  intros [(Hm&Hc&Hb&Hu) Hp] Hx. unfold PList.add. rewrite Hm, put_bytes by apply u64_range. cbn [mbind option_bind].
  eexists. split; [reflexivity|]. split; [split_and!; simpl|unfold last_value; by rewrite last_snoc].
  - done.
  - rewrite length_app. simpl. lia.
  - rewrite deltas_app, Hb, Hp. unfold Base128StreamWriter.bytes, last_value. rewrite bind_app. simpl. by rewrite app_nil_r.
  - apply Forall_app. split; [done|]. constructor; [done|constructor].
Qed.

Lemma push_back_holds p vs x : holds p vs → is_u64 x → ∃ p', PList.push_back x p = Some p' ∧ holds p' (vs ++ [x]).
Proof. intros Hp Hx. unfold PList.push_back. destruct (Hp) as [(->&_) _]. by apply add_holds. Qed.

Lemma make_holds : holds PList.make [].
Proof. by repeat split. Qed.

Lemma copy_shows p vs : shows p vs → ∃ p', PList.copy p = Some p' ∧ shows p' vs.
Proof. intros (Hm&Hc&Hb&Hu). unfold PList.copy. rewrite Hm. eexists. split; [done|]. by split_and!. Qed.

(** ** Iterators *)

(** [it] stands at the first of the remaining values [vs]. *)
Definition stands (n : nat) (it : PListIter) (vs : list Z) : Prop :=
  pi_card it = n ∧ (pi_pos it + length vs = n)%nat ∧ Forall is_u64 vs ∧
  match vs with
  | [] => True
  | v :: vs => pi_curr it = v ∧ pi_prev it = v ∧ Z.of_nat (length (Base128StreamReader.buf (pi_reader it))) < 2 ^ 64 ∧
    (Base128StreamReader.pos_ (pi_reader it) ≤ length (Base128StreamReader.buf (pi_reader it)))%nat ∧
    drop (Base128StreamReader.pos_ (pi_reader it)) (Base128StreamReader.buf (pi_reader it)) = Base128StreamWriter.bytes (deltas v vs)
  end.

Lemma load_stands n r prev pos vs curr :
  (pos + length vs = n)%nat → Forall is_u64 vs → Z.of_nat (length (Base128StreamReader.buf r)) < 2 ^ 64 →
  (Base128StreamReader.pos_ r ≤ length (Base128StreamReader.buf r))%nat →
  drop (Base128StreamReader.pos_ r) (Base128StreamReader.buf r) = Base128StreamWriter.bytes (deltas prev vs) →
  ∃ it, PIter.load (mkPIter n r prev pos curr) = Some it ∧ stands n it vs.
Proof.
  intros Hn Hu Hb Hp Hd. unfold PIter.load. cbn [pi_pos pi_card pi_reader pi_prev]. destruct vs as [|v vs].
  - rewrite decide_False by (simpl in Hn; lia). eexists. split; [done|]. by split_and!.
  - rewrite decide_True by (simpl in Hn; lia). destruct r as [b p]. simpl in Hb, Hp, Hd. apply Forall_cons in Hu as [Hv Hu].
    unfold Base128StreamWriter.bytes in Hd. simpl in Hd. unfold Plist.delta_next, Plist.next.
    pose proof (Base128Int.bytes_length (u64 (v - prev))) as Hlb. pose proof (f_equal length Hd) as Hl. rewrite length_drop, length_app in Hl.
    rewrite (Base128StreamReader.next_bytes b p _ _ Hb (u64_range _) Hd) by lia. cbn [mbind option_bind].
    assert (u64 (prev + u64 (v - prev)) = v) as ->.
    { unfold u64, is_u64 in *. rewrite Zplus_mod_idemp_r. replace (prev + (v - prev)) with v by lia. by apply Z.mod_small. }
    eexists. split; [reflexivity|]. split_and!; try done; [by constructor|simpl; lia|].
    simpl. rewrite <- drop_drop, Hd, drop_app_length. done.
Qed.

Lemma incr_stands n it v vs : stands n it (v :: vs) → ∃ it', PIter.incr it = Some it' ∧ stands n it' vs.
Proof.
  intros (Hc&Hn&Hu&Ecur&Eprev&Hb&Hp&Hd). unfold PIter.incr. rewrite Hc. apply Forall_cons in Hu as [_ Hu].
  apply load_stands; try done; [simpl in Hn; lia|by rewrite Eprev].
Qed.

Lemma begin_stands p vs : shows p vs → small vs → ∃ it, PList.begin_ p = Some it ∧ stands (length vs) it vs.
Proof.
  intros (Hm&Hc&Hb&Hu) Hs. unfold PList.begin_, PIter.make. rewrite Hm, Hc. apply load_stands; try done.
  - simpl. rewrite Hb. pose proof (length_stream (deltas 0 vs)). rewrite length_deltas in *. unfold small in Hs. lia.
  - simpl. lia.
Qed.

Lemma end_shows p vs : shows p vs → ∃ it, PList.end_ p = Some it ∧ pi_pos it = length vs.
Proof. intros (Hm&Hc&_). unfold PList.end_. rewrite Hm. eexists. split; [done|exact Hc]. Qed.

Lemma neq_stands n it vs last_ : stands n it vs → pi_pos last_ = n → PIter.neq it last_ = bool_decide (vs ≠ []).
Proof.
  intros (_&Hn&_) Hl. unfold PIter.neq. apply bool_decide_ext. rewrite Hl. destruct vs; simpl in Hn; split; intros; try done; lia.
Qed.

Lemma deref_stands n it v vs : stands n it (v :: vs) → PIter.deref it = v.
Proof. by intros (_&_&_&?&_). Qed.

Lemma stands_u64 n it v vs : stands n it (v :: vs) → is_u64 v.
Proof. intros (_&_&Hu&_). by apply Forall_cons in Hu as [? _]. Qed.

Lemma values_loop_ok n fuel it vs last_ :
  stands n it vs → pi_pos last_ = n → (length vs < fuel)%nat → PList.values_loop fuel it last_ = Some vs.
Proof.
  revert it vs. induction fuel as [|fuel IH]; intros it vs Hs Hl Hf; [lia|]. cbn [PList.values_loop].
  rewrite (neq_stands n it vs last_ Hs Hl). destruct vs as [|v vs]; [done|]. rewrite bool_decide_eq_true_2 by done.
  destruct (incr_stands _ _ _ _ Hs) as (it'&->&Hs'). cbn [mbind option_bind]. simpl in Hf. rewrite (IH it' vs Hs' Hl) by lia.
  by rewrite (deref_stands _ _ _ _ Hs).
Qed.

Lemma values_ok p vs : shows p vs → small vs → PList.values p = Some vs.
Proof.
  intros Hs Hsm. unfold PList.values. destruct (begin_stands p vs Hs Hsm) as (it&->&Hit), (end_shows p vs Hs) as (e&->&He).
  cbn [mbind option_bind]. apply (values_loop_ok (length vs)); [done|done|]. destruct Hs as (_&->&_). lia.
Qed.

(** ** Set operations on sorted lists *)

Notation rising := (StronglySorted Z.le).

Lemma rising_below x y ys : rising (y :: ys) → x < y → x ∉ y :: ys.
Proof.
  intros [Hy _]%StronglySorted_cons Hx [->|Hin]%elem_of_cons; [lia|]. rewrite Forall_forall in Hy. specialize (Hy x Hin). lia.
Qed.

Lemma rising_tail y ys : rising (y :: ys) → rising ys.
Proof. by intros [_ ?]%StronglySorted_cons. Qed.

Section SetOps.
Variables (n1 n2 : nat) (last1 last2 : PListIter).
Hypotheses (Hl1 : pi_pos last1 = n1) (Hl2 : pi_pos last2 = n2).

(** The common shape: what is left on both sides, and the result so far. *)
Notation ready f1 xs f2 ys r vs := (stands n1 f1 xs ∧ stands n2 f2 ys ∧ holds r vs).

Lemma copy_loop_ok n last_ fuel first_ xs r vs :
  pi_pos last_ = n → stands n first_ xs → holds r vs → (length xs < fuel)%nat →
  ∃ r', PList.copy_loop fuel first_ last_ r = Some r' ∧ holds r' (vs ++ xs).
Proof.
  intros Hl. revert first_ xs r vs. induction fuel as [|fuel IH]; intros first_ xs r vs Hf Hr Hfu; [lia|]. cbn [PList.copy_loop].
  rewrite (neq_stands n first_ xs last_ Hf Hl). destruct xs as [|x xs]; [exists r; by rewrite app_nil_r|].
  rewrite bool_decide_eq_true_2 by done. rewrite (deref_stands _ _ _ _ Hf).
  destruct (push_back_holds r vs x Hr (stands_u64 _ _ _ _ Hf)) as (r'&->&Hr'), (incr_stands _ _ _ _ Hf) as (f'&->&Hf'). cbn [mbind option_bind].
  destruct (IH f' xs r' (vs ++ [x]) Hf' Hr') as (r2&->&Hr2); [simpl in Hfu; lia|]. exists r2. by rewrite <- app_assoc in Hr2.
Qed.

Lemma set_intersection_ok fuel f1 xs f2 ys r vs :
  ready f1 xs f2 ys r vs → rising xs → rising ys → (length xs + length ys < fuel)%nat →
  ∃ r' zs, PList.set_intersection fuel f1 last1 f2 last2 r = Some r' ∧ holds r' (vs ++ zs) ∧ sublist zs xs ∧ sublist zs ys ∧
    ∀ z, z ∈ zs ↔ z ∈ xs ∧ z ∈ ys.
Proof.
  revert f1 xs f2 ys r vs. induction fuel as [|fuel IH]; intros f1 xs f2 ys r vs (H1&H2&Hr) Sx Sy Hf; [lia|]. cbn [PList.set_intersection].
  rewrite (neq_stands n1 f1 xs last1 H1 Hl1), (neq_stands n2 f2 ys last2 H2 Hl2).
  destruct xs as [|x xs]; [exists r, []; rewrite app_nil_r; split_and!; [done|done|done|apply sublist_nil_l|set_solver]|].
  destruct ys as [|y ys]; [exists r, []; rewrite app_nil_r; split_and!; [done|done|apply sublist_nil_l|done|set_solver]|].
  rewrite !bool_decide_eq_true_2 by done. simpl andb. cbn iota. rewrite (deref_stands _ _ _ _ H1), (deref_stands _ _ _ _ H2).
  simpl in Hf. destruct (incr_stands _ _ _ _ H1) as (f1'&E1&H1'), (incr_stands _ _ _ _ H2) as (f2'&E2&H2').
  destruct (decide (x < y)) as [Hxy|Hxy]; [|destruct (decide (y < x)) as [Hyx|Hyx]].
  - rewrite E1. cbn [mbind option_bind].
    destruct (IH f1' xs f2 (y :: ys) r vs) as (r'&zs&->&Hr'&Hs&Hs2&Hz); [done|by eapply rising_tail|done|simpl; lia|].
    exists r', zs. split_and!; [done|done|by constructor|done|]. intros z. rewrite Hz. pose proof (rising_below x y ys Sy Hxy). set_solver.
  - rewrite E2. cbn [mbind option_bind].
    destruct (IH f1 (x :: xs) f2' ys r vs) as (r'&zs&->&Hr'&Hs&Hs2&Hz); [done|done|by eapply rising_tail|simpl; lia|].
    exists r', zs. split_and!; [done|done|done|by constructor|]. intros z. rewrite Hz. pose proof (rising_below y x xs Sx Hyx). set_solver.
  - assert (x = y) as <- by lia. destruct (push_back_holds r vs x Hr (stands_u64 _ _ _ _ H1)) as (r1&->&Hr1).
    cbn [mbind option_bind]. rewrite E1. cbn [mbind option_bind]. rewrite E2. cbn [mbind option_bind].
    destruct (IH f1' xs f2' ys r1 (vs ++ [x])) as (r'&zs&->&Hr'&Hs&Hs2&Hz); [done|by eapply rising_tail|by eapply rising_tail|lia|].
    exists r', (x :: zs). rewrite <- app_assoc in Hr'. split_and!; [done|done|by constructor|by constructor|]. intros z.
    rewrite !elem_of_cons, Hz. destruct (decide (z = x)); set_solver.
Qed.

Lemma set_union_ok fuel f1 xs f2 ys r vs :
  ready f1 xs f2 ys r vs → rising xs → rising ys → (2 * (length xs + length ys) + 1 < fuel)%nat →
  ∃ r' zs, PList.set_union fuel f1 last1 f2 last2 r = Some r' ∧ holds r' (vs ++ zs) ∧ rising zs ∧
    (length zs ≤ length xs + length ys)%nat ∧ ∀ z, z ∈ zs ↔ z ∈ xs ∨ z ∈ ys.
Proof.
  revert f1 xs f2 ys r vs. induction fuel as [|fuel IH]; intros f1 xs f2 ys r vs (H1&H2&Hr) Sx Sy Hf; [lia|]. cbn [PList.set_union].
  rewrite (neq_stands n1 f1 xs last1 H1 Hl1), (neq_stands n2 f2 ys last2 H2 Hl2).
  assert (Hrest : xs = [] ∨ ys = [] → ∃ r' zs, (result ← PList.copy_loop fuel f1 last1 r; PList.copy_loop fuel f2 last2 result) = Some r' ∧
    holds r' (vs ++ zs) ∧ rising zs ∧ (length zs ≤ length xs + length ys)%nat ∧ ∀ z, z ∈ zs ↔ z ∈ xs ∨ z ∈ ys).
  { intros Hnil. destruct (copy_loop_ok n1 last1 fuel f1 xs r vs Hl1 H1 Hr ltac:(lia)) as (r1&->&Hr1). cbn [mbind option_bind].
    destruct (copy_loop_ok n2 last2 fuel f2 ys r1 _ Hl2 H2 Hr1 ltac:(lia)) as (r2&->&Hr2). exists r2, (xs ++ ys).
    rewrite app_assoc, length_app. split_and!; [done|done| |lia|intros z; by rewrite elem_of_app].
    destruct Hnil as [->| ->]; [done|by rewrite app_nil_r]. }
  destruct xs as [|x xs]; [apply Hrest; by left|]. destruct ys as [|y ys]; [apply Hrest; by right|]. clear Hrest.
  rewrite !bool_decide_eq_true_2 by done. simpl andb. cbn iota. rewrite (deref_stands _ _ _ _ H1), (deref_stands _ _ _ _ H2).
  simpl in Hf. destruct (incr_stands _ _ _ _ H1) as (f1'&E1&H1'), (incr_stands _ _ _ _ H2) as (f2'&E2&H2').
  assert (Hall : ∀ z, z ∈ (x :: xs) ∨ z ∈ (y :: ys) → Z.min x y ≤ z).
  { apply StronglySorted_cons in Sx as [Hx _], Sy as [Hy _]. rewrite Forall_forall in Hx, Hy.
    intros z [[->|Hz]%elem_of_cons|[->|Hz]%elem_of_cons]; [lia|specialize (Hx z Hz); lia|lia|specialize (Hy z Hz); lia]. }
  destruct (decide (x < y)) as [Hxy|Hxy]; [|destruct (decide (y < x)) as [Hyx|Hyx]].
  - destruct (push_back_holds r vs x Hr (stands_u64 _ _ _ _ H1)) as (r1&->&Hr1). cbn [mbind option_bind]. rewrite E1. cbn [mbind option_bind].
    destruct (IH f1' xs f2 (y :: ys) r1 (vs ++ [x])) as (r'&zs&->&Hr'&Hs&Hl&Hz); [done|by eapply rising_tail|done|simpl; lia|].
    exists r', (x :: zs). rewrite <- app_assoc in Hr'. split_and!; [done|done| |simpl in *; lia|intros z; rewrite !elem_of_cons, Hz; set_solver].
    apply StronglySorted_cons. split; [|done]. apply Forall_forall. intros z Hin. apply Hz in Hin. assert (Z.min x y ≤ z) by (apply Hall; set_solver). lia.
  - destruct (push_back_holds r vs y Hr (stands_u64 _ _ _ _ H2)) as (r1&->&Hr1). cbn [mbind option_bind]. rewrite E2. cbn [mbind option_bind].
    destruct (IH f1 (x :: xs) f2' ys r1 (vs ++ [y])) as (r'&zs&->&Hr'&Hs&Hl&Hz); [done|done|by eapply rising_tail|simpl; lia|].
    exists r', (y :: zs). rewrite <- app_assoc in Hr'. split_and!; [done|done| |simpl in *; lia|intros z; rewrite !elem_of_cons, Hz; set_solver].
    apply StronglySorted_cons. split; [|done]. apply Forall_forall. intros z Hin. apply Hz in Hin. assert (Z.min x y ≤ z) by (apply Hall; set_solver). lia.
  - assert (x = y) as <- by lia. destruct (push_back_holds r vs x Hr (stands_u64 _ _ _ _ H1)) as (r1&->&Hr1).
    cbn [mbind option_bind]. rewrite E1. cbn [mbind option_bind]. rewrite E2. cbn [mbind option_bind].
    destruct (IH f1' xs f2' ys r1 (vs ++ [x])) as (r'&zs&->&Hr'&Hs&Hl&Hz); [done|by eapply rising_tail|by eapply rising_tail|lia|].
    exists r', (x :: zs). rewrite <- app_assoc in Hr'. split_and!; [done|done| |simpl in *; lia|intros z; rewrite !elem_of_cons, Hz; set_solver].
    apply StronglySorted_cons. split; [|done]. apply Forall_forall. intros z Hin. apply Hz in Hin. assert (Z.min x x ≤ z) by (apply Hall; set_solver). lia.
Qed.

Lemma set_difference_ok fuel f1 xs f2 ys r vs :
  ready f1 xs f2 ys r vs → StronglySorted Z.lt xs → rising ys → (length xs + length ys + 1 < fuel)%nat →
  ∃ r' zs, PList.set_difference fuel f1 last1 f2 last2 r = Some r' ∧ holds r' (vs ++ zs) ∧ sublist zs xs ∧
    ∀ z, z ∈ zs ↔ z ∈ xs ∧ z ∉ ys.
Proof.
  revert f1 xs f2 ys r vs. induction fuel as [|fuel IH]; intros f1 xs f2 ys r vs (H1&H2&Hr) Sx Sy Hf; [lia|]. cbn [PList.set_difference].
  rewrite (neq_stands n1 f1 xs last1 H1 Hl1), (neq_stands n2 f2 ys last2 H2 Hl2).
  assert (Hrest : xs = [] ∨ ys = [] → ∃ r' zs, PList.copy_loop fuel f1 last1 r = Some r' ∧
    holds r' (vs ++ zs) ∧ sublist zs xs ∧ ∀ z, z ∈ zs ↔ z ∈ xs ∧ z ∉ ys).
  { intros Hnil. destruct (copy_loop_ok n1 last1 fuel f1 xs r vs Hl1 H1 Hr ltac:(lia)) as (r1&->&Hr1).
    exists r1, xs. split_and!; [done|done|done|]. destruct Hnil as [->| ->]; set_solver. }
  destruct xs as [|x xs]; [apply Hrest; by left|]. destruct ys as [|y ys]; [apply Hrest; by right|]. clear Hrest.
  rewrite !bool_decide_eq_true_2 by done. simpl andb. cbn iota. rewrite (deref_stands _ _ _ _ H1), (deref_stands _ _ _ _ H2).
  simpl in Hf. destruct (incr_stands _ _ _ _ H1) as (f1'&E1&H1'), (incr_stands _ _ _ _ H2) as (f2'&E2&H2').
  apply StronglySorted_cons in Sx as Sx'. destruct Sx' as [Hx Sx']. rewrite Forall_forall in Hx.
  destruct (decide (x < y)) as [Hxy|Hxy]; [|destruct (decide (y < x)) as [Hyx|Hyx]].
  - destruct (push_back_holds r vs x Hr (stands_u64 _ _ _ _ H1)) as (r1&->&Hr1). cbn [mbind option_bind]. rewrite E1. cbn [mbind option_bind].
    destruct (IH f1' xs f2 (y :: ys) r1 (vs ++ [x])) as (r'&zs&->&Hr'&Hs&Hz); [done|done|done|simpl; lia|].
    exists r', (x :: zs). rewrite <- app_assoc in Hr'. split_and!; [done|done|by constructor|]. intros z.
    pose proof (rising_below x y ys Sy Hxy). rewrite elem_of_cons, Hz. set_solver.
  - rewrite E2. cbn [mbind option_bind].
    destruct (IH f1 (x :: xs) f2' ys r vs) as (r'&zs&->&Hr'&Hs&Hz); [done|done|by eapply rising_tail|simpl; lia|].
    exists r', zs. split_and!; [done|done|done|]. intros z. rewrite Hz, (not_elem_of_cons ys). split; [|tauto]. intros [Hin ?].
    split; [done|]. split; [|done]. intros ->. apply elem_of_cons in Hin as [->|Hin]; [lia|]. specialize (Hx y Hin). lia.
  - assert (x = y) as <- by lia. rewrite E1. cbn [mbind option_bind]. rewrite E2. cbn [mbind option_bind].
    destruct (IH f1' xs f2' ys r vs) as (r'&zs&->&Hr'&Hs&Hz); [done|done|by eapply rising_tail|lia|].
    exists r', zs. split_and!; [done|done|by constructor|]. intros z. rewrite Hz, elem_of_cons, (not_elem_of_cons ys).
    split; [|tauto]. intros [Hin ?]. split; [by right|]. split; [|done]. intros ->. specialize (Hx x Hin). lia.
Qed.

End SetOps.

Lemma unique_loop_ok n last_ fuel it x xs r vs :
  pi_pos last_ = n → stands n it (x :: xs) → rising (x :: xs) → holds r vs → (length xs < fuel)%nat →
  ∃ r' zs, PList.unique_loop fuel x it last_ r = Some r' ∧ holds r' (vs ++ zs) ∧ StronglySorted Z.lt (x :: zs) ∧
    (length zs ≤ length xs)%nat ∧ ∀ z, z ∈ x :: zs ↔ z ∈ x :: xs.
Proof.
  intros Hl. revert it x xs r vs. induction fuel as [|fuel IH]; intros it x xs r vs Hs Hx Hr Hf; [lia|]. cbn [PList.unique_loop].
  destruct (incr_stands _ _ _ _ Hs) as (it'&->&Hs'). cbn [mbind option_bind]. rewrite (neq_stands n it' xs last_ Hs' Hl).
  destruct xs as [|y xs]; [exists r, []; rewrite app_nil_r; split_and!; [done|done|by repeat constructor|simpl; lia|done]|].
  rewrite bool_decide_eq_true_2 by done. rewrite (deref_stands _ _ _ _ Hs'). simpl in Hf.
  apply StronglySorted_cons in Hx as [Hx Hy]. assert (x ≤ y) by (by apply Forall_cons in Hx as [? _]). case_decide as He.
  - subst y. destruct (IH it' x xs r vs Hs' Hy Hr ltac:(lia)) as (r'&zs&->&Hr'&Hz&Hlz&Hm). exists r', zs.
    split_and!; [done|done|done|simpl; lia|]. intros z. rewrite Hm. set_solver.
  - destruct (push_back_holds r vs y Hr (stands_u64 _ _ _ _ Hs')) as (r1&->&Hr1). cbn [mbind option_bind].
    destruct (IH it' y xs r1 (vs ++ [y]) Hs' Hy Hr1 ltac:(lia)) as (r'&zs&->&Hr'&Hz&Hlz&Hm). exists r', (y :: zs).
    rewrite <- app_assoc in Hr'. split_and!; [done|done| |simpl; lia|intros z; rewrite (elem_of_cons (y :: zs)), Hm; set_solver].
    apply StronglySorted_cons. split; [|done]. constructor; [lia|]. apply StronglySorted_cons in Hz as [Hz _].
    eapply Forall_impl; [exact Hz|]. simpl. lia.
Qed.

(** ** The operations *)

Lemma binary_ready p q xs ys :
  shows p xs → shows q ys → small xs → small ys →
  ∃ f1 l1 f2 l2, PList.begin_ p = Some f1 ∧ PList.end_ p = Some l1 ∧ PList.begin_ q = Some f2 ∧ PList.end_ q = Some l2 ∧
    pi_pos l1 = length xs ∧ pi_pos l2 = length ys ∧ stands (length xs) f1 xs ∧ stands (length ys) f2 ys ∧
    pl_card p = length xs ∧ pl_card q = length ys.
Proof.
  intros Hp Hq Hx Hy. destruct (begin_stands p xs Hp Hx) as (f1&E1&H1), (end_shows p xs Hp) as (l1&E2&H2),
    (begin_stands q ys Hq Hy) as (f2&E3&H3), (end_shows q ys Hq) as (l2&E4&H4).
  exists f1, l1, f2, l2. destruct Hp as (_&?&_), Hq as (_&?&_). by split_and!.
Qed.

Lemma and_ok p q xs ys :
  shows p xs → shows q ys → small xs → small ys → rising xs → rising ys →
  ∃ r zs, PList.and_ p q = Some r ∧ holds r zs ∧ sublist zs xs ∧ sublist zs ys ∧ ∀ z, z ∈ zs ↔ z ∈ xs ∧ z ∈ ys.
Proof.
  intros Hp Hq Hx Hy Sx Sy. destruct (binary_ready p q xs ys Hp Hq Hx Hy) as (f1&l1&f2&l2&E1&E2&E3&E4&L1&L2&H1&H2&Cp&Cq).
  unfold PList.and_, PList.binary. rewrite E1. cbn [mbind option_bind]. rewrite E2. cbn [mbind option_bind]. rewrite E3. cbn [mbind option_bind].
  rewrite E4. cbn [mbind option_bind]. rewrite Cp, Cq.
  destruct (set_intersection_ok (length xs) (length ys) l1 l2 L1 L2 (2 * (length xs + length ys) + 2) f1 xs f2 ys PList.make [])
    as (r&zs&E&Hr&Hs); [split_and!; [done|done|apply make_holds]|done|done|lia|]. rewrite E. by exists r, zs.
Qed.

Lemma or_ok p q xs ys :
  shows p xs → shows q ys → small xs → small ys → rising xs → rising ys →
  ∃ r zs, PList.or_ p q = Some r ∧ holds r zs ∧ rising zs ∧ (length zs ≤ length xs + length ys)%nat ∧ ∀ z, z ∈ zs ↔ z ∈ xs ∨ z ∈ ys.
Proof.
  intros Hp Hq Hx Hy Sx Sy. destruct (binary_ready p q xs ys Hp Hq Hx Hy) as (f1&l1&f2&l2&E1&E2&E3&E4&L1&L2&H1&H2&Cp&Cq).
  unfold PList.or_, PList.binary. rewrite E1. cbn [mbind option_bind]. rewrite E2. cbn [mbind option_bind]. rewrite E3. cbn [mbind option_bind].
  rewrite E4. cbn [mbind option_bind]. rewrite Cp, Cq.
  destruct (set_union_ok (length xs) (length ys) l1 l2 L1 L2 (2 * (length xs + length ys) + 2) f1 xs f2 ys PList.make [])
    as (r&zs&E&Hr&Hs&Hl&Hz); [split_and!; [done|done|apply make_holds]|done|done|lia|]. rewrite E. by exists r, zs.
Qed.

Lemma xor_ok p q xs ys :
  shows p xs → shows q ys → small xs → small ys → StronglySorted Z.lt xs → rising ys →
  ∃ r zs, PList.xor_ p q = Some r ∧ holds r zs ∧ sublist zs xs ∧ ∀ z, z ∈ zs ↔ z ∈ xs ∧ z ∉ ys.
Proof.
  intros Hp Hq Hx Hy Sx Sy. destruct (binary_ready p q xs ys Hp Hq Hx Hy) as (f1&l1&f2&l2&E1&E2&E3&E4&L1&L2&H1&H2&Cp&Cq).
  unfold PList.xor_, PList.binary. rewrite E1. cbn [mbind option_bind]. rewrite E2. cbn [mbind option_bind]. rewrite E3. cbn [mbind option_bind].
  rewrite E4. cbn [mbind option_bind]. rewrite Cp, Cq. destruct (decide (length xs + length ys = 0)%nat) as [Hz|Hz].
  { destruct xs, ys; try done. exists PList.make, []. split_and!; [|apply make_holds|done|set_solver].
    simpl plus. cbn [PList.set_difference]. rewrite (neq_stands 0 f1 [] l1 H1 L1). simpl andb. cbn iota. cbn [PList.copy_loop].
    by rewrite (neq_stands 0 f1 [] l1 H1 L1). }
  destruct (set_difference_ok (length xs) (length ys) l1 l2 L1 L2 (2 * (length xs + length ys) + 2) f1 xs f2 ys PList.make [])
    as (r&zs&E&Hr&Hs&Hz'); [split_and!; [done|done|apply make_holds]|done|done|lia|]. rewrite E. by exists r, zs.
Qed.

Lemma unique_ok p xs :
  shows p xs → small xs → rising xs →
  ∃ r zs, PList.unique p = Some r ∧ holds r zs ∧ StronglySorted Z.lt zs ∧ (length zs ≤ length xs)%nat ∧ ∀ z, z ∈ zs ↔ z ∈ xs.
Proof.
  intros Hp Hx Sx. destruct (begin_stands p xs Hp Hx) as (f&E1&H1), (end_shows p xs Hp) as (l&E2&L). unfold PList.unique.
  rewrite E1. cbn [mbind option_bind]. rewrite E2. cbn [mbind option_bind]. rewrite (neq_stands _ f xs l H1 L).
  destruct xs as [|x xs]; [exists PList.make, []; split_and!; [done|apply make_holds|constructor|done|done]|].
  rewrite bool_decide_eq_true_2 by done. rewrite (deref_stands _ _ _ _ H1).
  destruct (push_back_holds PList.make [] x make_holds (stands_u64 _ _ _ _ H1)) as (r1&->&Hr1). cbn [mbind option_bind].
  assert (pl_card p = length (x :: xs)) as -> by (by destruct Hp as (_&?&_)).
  destruct (unique_loop_ok (length (x :: xs)) l (S (length (x :: xs))) f x xs r1 [x] L H1 Sx Hr1 ltac:(simpl; lia)) as (r&zs&->&Hr&Hs&Hl&Hz).
  exists r, (x :: zs). split_and!; [done|done|done|simpl; lia|done].
Qed.

(** ** Properties *)

(** C24: postings lists.  Ids added to an empty list are decoded exactly, in
    order, whatever they are (differences wrap around).  For two lists of ids in
    rising order the operators that the index uses compute sets: [&] the ids of
    both, [|] the ids of either, [^] the ids of the first (each once) that are not
    in the second, and [unique] each id once; all results are again in rising
    order, so that they can be operands. *)
Theorem plist_operations xs ys :
  Forall is_u64 xs → Forall is_u64 ys → 10 * (Z.of_nat (length xs) + Z.of_nat (length ys)) < 2 ^ 64 →
  ∃ p q, foldl (λ r x, p ← r; PList.add x p) (Some PList.make) xs = Some p ∧ PList.values p = Some xs ∧
    foldl (λ r x, p ← r; PList.add x p) (Some PList.make) ys = Some q ∧ PList.values q = Some ys ∧
    (rising xs → rising ys → ∃ a o u va vo vu,
      PList.and_ p q = Some a ∧ PList.values a = Some va ∧ rising va ∧ (∀ z, z ∈ va ↔ z ∈ xs ∧ z ∈ ys) ∧
      PList.or_ p q = Some o ∧ PList.values o = Some vo ∧ rising vo ∧ (∀ z, z ∈ vo ↔ z ∈ xs ∨ z ∈ ys) ∧
      PList.unique p = Some u ∧ PList.values u = Some vu ∧ StronglySorted Z.lt vu ∧ (∀ z, z ∈ vu ↔ z ∈ xs)) ∧
    (StronglySorted Z.lt xs → rising ys → ∃ d vd,
      PList.xor_ p q = Some d ∧ PList.values d = Some vd ∧ StronglySorted Z.lt vd ∧ (∀ z, z ∈ vd ↔ z ∈ xs ∧ z ∉ ys)).
Proof.
  assert (Hadd : ∀ vs p us, holds p us → Forall is_u64 vs → ∃ p', foldl (λ r x, p ← r; PList.add x p) (Some p) vs = Some p' ∧ holds p' (us ++ vs)).
  { induction vs as [|v vs IH]; intros p us Hp Hu; [exists p; by rewrite app_nil_r|]. apply Forall_cons in Hu as [Hv Hu].
    destruct (add_holds p us v Hp Hv) as (p1&E1&Hp1). simpl. rewrite E1. destruct (IH p1 (us ++ [v]) Hp1 Hu) as (p'&->&Hp').
    exists p'. by rewrite <- app_assoc in Hp'. }
  intros Hx Hy Hl. destruct (Hadd xs PList.make [] make_holds Hx) as (p&Ep&Hp), (Hadd ys PList.make [] make_holds Hy) as (q&Eq&Hq).
  destruct Hp as [Hp _], Hq as [Hq _]. simpl in Hp, Hq.
  assert (Hsx : small xs) by (unfold small; lia). assert (Hsy : small ys) by (unfold small; lia).
  exists p, q. split_and!; [done|by apply values_ok|done|by apply values_ok| |].
  - intros Sx Sy. destruct (and_ok p q xs ys Hp Hq Hsx Hsy Sx Sy) as (a&va&Ea&[Ha _]&Hsub&_&Hma).
    destruct (or_ok p q xs ys Hp Hq Hsx Hsy Sx Sy) as (o&vo&Eo&[Ho _]&Hso&Hlo&Hmo).
    destruct (unique_ok p xs Hp Hsx Sx) as (u&vu&Eu&[Hu _]&Hsu&Hlu&Hmu).
    exists a, o, u, va, vo, vu. apply sublist_length in Hsub as Hla.
    split_and!; try done; try (apply values_ok; [done|unfold small; lia]). by eapply sorted_sublist.
  - intros Sx Sy. destruct (xor_ok p q xs ys Hp Hq Hsx Hsy Sx Sy) as (d&vd&Ed&[Hd _]&Hsub&Hm). apply sublist_length in Hsub as Hld.
    exists d, vd. split_and!; [done|apply values_ok; [done|unfold small; lia]|by eapply sorted_sublist|done].
Qed.

Lemma plist_operations_witness : ∃ p q, PList.values p = Some [3; 5; 9] ∧ PList.values q = Some [5; 2 ^ 63] ∧
  ∃ d vd, PList.xor_ p q = Some d ∧ PList.values d = Some vd ∧ ∀ z, z ∈ vd ↔ z ∈ [3; 5; 9] ∧ z ∉ [5; 2 ^ 63].
Proof.
  destruct (plist_operations [3; 5; 9] [5; 2 ^ 63]) as (p&q&_&Ep&_&Eq&_&Hd); [by_compute..|].
  exists p, q. split; [exact Ep|]. split; [exact Eq|].
  destruct Hd as (d&vd&E&Ev&_&Hm); [repeat constructor; lia|repeat constructor; lia|]. by exists d, vd.
Defined.

(** A copy forgets the last value: what is added to it is decoded relative to
    the wrong one. *)
Lemma plist_copy_add :
  (p ← PList.add 5 PList.make; c ← PList.copy p; c ← PList.add 7 c; PList.values c) = Some [5; 12].
Proof. vm_compute. reflexivity. Qed.
