(* ===== verification/StringPool.v ===== *)
(** * String pools (stringpool.h, stringpool.cc)

    Names are kept in large buffers, the bins, one after another and each ended
    by a NUL.  A name of a [StringPool] has an address, the number of its bin and
    its offset there; a [LegacyStringPool] hands out the names themselves.  A
    [StringT], a pointer and a length, is the list of its characters; the pools
    only grow, so that the characters behind a pointer never change. *)
From stdpp Require Import sorting.
From S2P Require Import Prelude.

Notation chars := (list Z).

(** The characters of a literal. *)
Definition str (s : string) : chars := (λ a, Z.of_nat (Ascii.nat_of_ascii a)) <$> String.list_ascii_of_string s.

(** A [char] as a number: it is signed. *)
Definition i8 (c : Z) : Z := if decide (c < 128) then c else c - 256.

(** ** [StringTools] *)

Module StringTools.

(** djb2; the characters are extended with their sign. *)
Fixpoint hash_loop (s : chars) (hash : Z) : Z :=
  match s with
  | [] => hash
  | c :: s => hash_loop s (u64 (u64 (u64 (Z.shiftl hash 5) + hash) + u64 (i8 c)))
  end.
Definition hash (s : chars) : Z := hash_loop s 5381.

Definition equal (lhs rhs : chars) : bool :=
  if decide (length lhs ≠ length rhs) then false else bool_decide (lhs = rhs).

End StringTools.

(** ** [StringPool] *)

Record StringPool := mkPool { sp_pool : list chars; sp_counter : Z }.

Module Pool.

Definition LIMITS_MAX_SNAME : Z := 0x1000.
Definition MAX_BIN_SIZE : Z := LIMITS_MAX_SNAME * 0x1000.

Definition make : StringPool := mkPool [] 0.

Definition size_of (bin : chars) : Z := Z.of_nat (length bin).

(** The bins with one to write to, a string of [size] characters with its NUL. *)
Definition room (size : Z) (pool : list chars) : list chars :=
  let pool := match pool with [] => [[]] | _ => pool end in
  if decide (MAX_BIN_SIZE < size_of (default [] (last pool)) + size) then pool ++ [[]] else pool.

(** Appending to the last bin. *)
Definition write (s : chars) (pool : list chars) : list chars :=
  removelast pool ++ [default [] (last pool) ++ s ++ [0]].

Definition add (s : chars) (p : StringPool) : option (Z * StringPool) :=
  if decide (s = []) then None else       (* assert(begin < end) *)
  let pool := room (size_of s + 1) (sp_pool p) in
  let bin_index := u32 (Z.of_nat (length pool)) in
  let offset := u32 (size_of (default [] (last pool))) in
  Some (u64 (u64 (bin_index * MAX_BIN_SIZE) + offset), mkPool (write s pool) (sp_counter p + 1)).

(** [strlen] and the characters before the NUL; reading past the bin is
    undefined. *)
Fixpoint c_str (s : chars) : option chars :=
  match s with
  | [] => None
  | c :: s => if decide (c = 0) then Some [] else t ← c_str s; Some (c :: t)
  end.

(** A bad address gives the empty string. *)
Definition str_ (bits : Z) (p : StringPool) : option chars :=
  let ix := bits / MAX_BIN_SIZE in
  let offset := bits mod MAX_BIN_SIZE in
  if decide (ix = 0) then None else       (* assert(ix != 0) *)
  if decide (ix ≤ Z.of_nat (length (sp_pool p))) then
    bin ← sp_pool p !! Z.to_nat (ix - 1);
    if decide (offset < size_of bin) then c_str (drop (Z.to_nat offset) bin) else Some []
  else Some [].

Definition size (p : StringPool) : Z := sp_counter p.
Definition mem_used (p : StringPool) : Z := foldl (λ res bin, res + size_of bin) 0 (sp_pool p).

(** *** Invariant *)

(** The string [s] is at address [id]. *)
Definition stored (p : StringPool) (id : Z) (s : chars) : Prop :=
  ∃ (i off : nat) bin tl, id = (Z.of_nat i + 1) * MAX_BIN_SIZE + Z.of_nat off ∧ sp_pool p !! i = Some bin ∧
    drop off bin = s ++ 0 :: tl ∧ Z.of_nat off < MAX_BIN_SIZE ∧ (off < length bin)%nat.

(** The first address that is not in use. *)
Definition top (p : StringPool) : Z :=
  match last (sp_pool p) with
  | None => MAX_BIN_SIZE
  | Some bin => Z.of_nat (length (sp_pool p)) * MAX_BIN_SIZE + size_of bin
  end.

(** There is room for [k] more bins. *)
Definition pool_ok (k : nat) (p : StringPool) : Prop :=
  Forall (λ bin, size_of bin ≤ MAX_BIN_SIZE) (sp_pool p) ∧ Z.of_nat (length (sp_pool p)) + Z.of_nat k < 2 ^ 32.

(** A name that can be stored: not empty, without NUL, shorter than a bin. *)
Definition name_ok (s : chars) : Prop := s ≠ [] ∧ Forall (λ c, c ≠ 0) s ∧ size_of s < MAX_BIN_SIZE.

Lemma c_str_ok s tl : Forall (λ c, c ≠ 0) s → c_str (s ++ 0 :: tl) = Some s.
Proof.
  induction 1 as [|c s Hc Hs IH]; [done|]. simpl. rewrite decide_False by done. by rewrite IH.
Qed.

Lemma stored_str p id s : stored p id s → Forall (λ c, c ≠ 0) s → str_ id p = Some s.
Proof.
  intros (i&off&bin&tl&->&Hi&Hd&Ho&Hl) Hs. unfold str_.
  assert (0 < MAX_BIN_SIZE) by done.
  rewrite Z.div_add_l, Z.div_small, Z.add_0_r by lia. rewrite (Z.add_comm (_ * _)), Z_mod_plus_full, Z.mod_small by lia.
  apply lookup_lt_Some in Hi as Hlt. rewrite decide_False, decide_True by lia.
  replace (Z.to_nat (Z.of_nat i + 1 - 1)) with i by lia. rewrite Hi. cbn [mbind option_bind]. unfold size_of.
  rewrite decide_True by lia. rewrite Nat2Z.id, Hd. by apply c_str_ok.
Qed.

Lemma room_ok size pool :
  Forall (λ bin, size_of bin ≤ MAX_BIN_SIZE) pool → size ≤ MAX_BIN_SIZE →
  ∃ init bin, room size pool = init ++ [bin] ∧ size_of bin + size ≤ MAX_BIN_SIZE ∧ Forall (λ bin, size_of bin ≤ MAX_BIN_SIZE) init ∧
    (pool = [] ∧ init = [] ∧ bin = [] ∨ pool = init ++ [bin] ∨ pool = init ∧ bin = [] ∧ pool ≠ []).
Proof.
  intros Hf Hs. assert (H0 : size_of [] = 0) by done. unfold room. destruct pool as [|b0 pool0] eqn:Ep.
  - simpl. rewrite decide_False by lia. exists [], []. split_and!; [done|lia|constructor|by left].
  - rewrite <- Ep in *. destruct (exists_last (l := pool)) as (init&bin&E); [by rewrite Ep|].
    assert (last pool = Some bin) as -> by (by rewrite E, last_snoc). simpl default. case_decide as Hc.
    + exists pool, []. split_and!; [done|lia|done|right; right; by rewrite Ep].
    + exists init, bin. split_and!; [done|lia| |by right; left]. rewrite E in Hf. by apply Forall_app in Hf as [? _].
Qed.

Lemma add_ok k p s :
  pool_ok (S k) p → name_ok s →
  ∃ id p', add s p = Some (id, p') ∧ pool_ok k p' ∧ stored p' id s ∧ top p ≤ id < top p' ∧ 0 < id < 2 ^ 64 ∧
    (∀ id' s', stored p id' s' → stored p' id' s') ∧ sp_counter p' = sp_counter p + 1.
Proof.
  intros [Hf Hk] (Hne&Hnul&Hs). unfold add. rewrite decide_False by done.
  destruct (room_ok (size_of s + 1) (sp_pool p) Hf ltac:(lia)) as (init&bin&Er&Hfit&Hfi&Hcase). rewrite Er.
  rewrite last_snoc, length_app. simpl default. simpl length.
  assert (Hlen : Z.of_nat (length init) + 1 ≤ Z.of_nat (length (sp_pool p)) + 1) by (destruct Hcase as [(->&->&_)|[->|(->&_)]]; rewrite ?length_app; simpl; lia).
  assert (Hmax : MAX_BIN_SIZE = 2 ^ 24) by done. unfold size_of in *.
  assert (Hu : u64 (u64 (u32 (Z.of_nat (length init + 1)) * MAX_BIN_SIZE) + u32 (Z.of_nat (length bin))) =
    (Z.of_nat (length init) + 1) * MAX_BIN_SIZE + Z.of_nat (length bin)).
  { rewrite !u32_id by (unfold is_u32; lia). rewrite !u64_id by (unfold is_u64; rewrite ?u64_id by (unfold is_u64; lia); lia). lia. }
  rewrite Hu. eexists _, _. split; [reflexivity|]. unfold write. rewrite removelast_last, last_snoc. simpl default.
  set (bin' := bin ++ s ++ [0]). assert (Hb' : length bin' = (length bin + (length s + 1))%nat) by (unfold bin'; by rewrite !length_app).
  split_and!.
  - split; simpl; [apply Forall_app; split; [done|]; constructor; [unfold size_of; lia|constructor]|rewrite length_app; simpl; lia].
  - exists (length init), (length bin), bin', []. simpl. split_and!; [done|by rewrite list_lookup_middle| |lia|lia].
    unfold bin'. by rewrite drop_app_length.
  - unfold top. destruct Hcase as [(->&->&->)|[->|(->&->&Hp)]]; [simpl; lia| |].
    + rewrite last_snoc, length_app. simpl. unfold size_of. lia.
    + destruct (last init) as [b|] eqn:El; [|apply last_None in El; done]. unfold size_of. simpl.
      apply last_Some in El as (l&->). apply Forall_app in Hfi as [_ Hb]. apply Forall_cons in Hb as [Hb _]. unfold size_of in Hb. rewrite length_app. simpl. lia.
  - unfold top. simpl. rewrite last_snoc, length_app. simpl. unfold size_of. lia.
  - lia.
  - lia.
  - intros id' s' (i&off&b&tl&->&Hi&Hd&Ho&Hl). simpl. destruct Hcase as [(Hn&->&->)|[Hp|(Hp&->&_)]].
    + by rewrite Hn in Hi.
    + rewrite Hp in Hi. apply lookup_app_Some in Hi as [Hi|[Hge Hi]].
      * exists i, off, b, tl. split_and!; try done. simpl. by apply lookup_app_l_Some.
      * apply list_lookup_singleton_Some in Hi as [Hz <-]. exists i, off, bin', (tl ++ s ++ [0]). unfold bin'. split_and!; try done.
        -- simpl. rewrite lookup_app_r by done. by rewrite Hz.
        -- rewrite drop_app_le by lia. by rewrite Hd, <- app_assoc.
        -- rewrite length_app. lia.
    + rewrite Hp in Hi. exists i, off, b, tl. split_and!; try done. simpl. by apply lookup_app_l_Some.
  - done.
Qed.

Lemma make_ok k : Z.of_nat k < 2 ^ 32 → pool_ok k make.
Proof. intros Hk. split; [constructor|simpl; lia]. Qed.

End Pool.

(** ** [LegacyStringPool] *)

Record LegacyStringPool := mkLegacy { lp_pool : list chars; lp_counter : Z }.
Record StringPoolOffset := mkOffset { so_buffer : nat; so_offset : nat }.

Module Legacy.

Definition make : LegacyStringPool := mkLegacy [] 0.

(** An empty string is not stored. *)
Definition add (s : chars) (p : LegacyStringPool) : chars * LegacyStringPool :=
  let pool := match lp_pool p with [] => [[]] | _ => lp_pool p end in
  if decide (s = []) then ([], mkLegacy pool (lp_counter p)) else
  let pool := Pool.room (Pool.size_of s + 1) pool in
  (s, mkLegacy (Pool.write s pool) (lp_counter p + 1)).

Definition size (p : LegacyStringPool) : Z := lp_counter p.

(** The matches of a regular expression in a buffer, which [search] gives as
    ranges, of which those are kept that end where a string ends. *)
Fixpoint keep_matches (buf : chars) (ms : list (nat * nat)) : option (list chars) :=
  match ms with
  | [] => Some []
  | (b, e) :: ms =>
    c ← buf !! e;
    rest ← keep_matches buf ms;
    Some (if decide (c = 0) then take (e - b) (drop b buf) :: rest else rest)
  end.

Fixpoint match_bins (search : chars → list (nat * nat)) (buffers_skip first_row_skip : nat) (bins : list chars)
    : option (list chars) :=
  match bins with
  | [] => Some []
  | bin :: bins =>
    match buffers_skip with
    | O =>
      let buf := drop first_row_skip bin in
      rs ← keep_matches buf (search buf);
      rest ← match_bins search 0 0 bins;
      Some (rs ++ rest)
    | S skip => match_bins search skip first_row_skip bins
    end
  end.

(** The strings found after [offset], the new offset and the number of strings. *)
Definition regex_match (search : chars → list (nat * nat)) (offset : StringPoolOffset) (p : LegacyStringPool)
    : option (list chars * StringPoolOffset * Z) :=
  rs ← match_bins search (so_buffer offset) (so_offset offset) (lp_pool p);
  Some (rs, match last (lp_pool p) with
            | None => mkOffset 0 0
            | Some bin => mkOffset (length (lp_pool p) - 1) (length bin)
            end, size p).

End Legacy.

(** ** Properties *)

(** Adding strings one after another. *)
Fixpoint add_all (ss : list chars) (p : StringPool) : option (list Z * StringPool) :=
  match ss with
  | [] => Some ([], p)
  | s :: ss =>
    '(id, p) ← Pool.add s p;
    '(ids, p) ← add_all ss p;
    Some (id :: ids, p)
  end.

Lemma add_all_ok k ss p :
  Pool.pool_ok (length ss + k) p → Forall Pool.name_ok ss →
  ∃ ids p', add_all ss p = Some (ids, p') ∧ Pool.pool_ok k p' ∧ Forall2 (Pool.stored p') ids ss ∧
    StronglySorted Z.lt ids ∧ Forall (λ id, Pool.top p ≤ id < 2 ^ 64) ids ∧
    (∀ id s, Pool.stored p id s → Pool.stored p' id s) ∧ Pool.size p' = Pool.size p + Z.of_nat (length ss).
Proof.
  revert p. induction ss as [|s ss IH]; intros p Hp Hs.
  { exists [], p. split_and!; [done|done|constructor..|done|simpl; lia]. }
  apply Forall_cons in Hs as [Hs Hss]. destruct (Pool.add_ok (length ss + k) p s Hp Hs) as (id&p1&E1&Hp1&Hst&Ht&Hid&Hmono&Hc).
  destruct (IH p1 Hp1 Hss) as (ids&p'&E&Hp'&Hall&Hsort&Htop&Hmono'&Hc'). exists (id :: ids), p'. cbn [add_all]. rewrite E1.
  cbn [mbind option_bind]. rewrite E. split_and!; [done|done|constructor; [by apply Hmono'|done]| | | |].
  - apply StronglySorted_cons. split; [|done]. eapply Forall_impl; [exact Htop|]. intros x ?. cbv beta in *. lia.
  - constructor; [lia|]. eapply Forall_impl; [exact Htop|]. intros x ?. cbv beta in *. lia.
  - intros id' s' H'. by apply Hmono', Hmono.
  - unfold Pool.size in *. simpl length. lia.
Qed.

(** C25: the string pool keeps every name.  Names without NUL, not empty and
    shorter than a bin, get addresses that are not 0 and rise with every addition,
    over as many bins as are needed; and each address reads as its name, then and
    after everything that is added later. *)
Theorem string_pool_roundtrip ss tt :
  Z.of_nat (length ss + length tt) < 2 ^ 32 → Forall Pool.name_ok ss → Forall Pool.name_ok tt →
  ∃ ids p ids' p', add_all ss Pool.make = Some (ids, p) ∧ add_all tt p = Some (ids', p') ∧
    StronglySorted Z.lt (ids ++ ids') ∧ Forall (λ id, 0 < id < 2 ^ 64) (ids ++ ids') ∧
    Forall2 (λ id s, Pool.str_ id p = Some s) ids ss ∧ Forall2 (λ id s, Pool.str_ id p' = Some s) (ids ++ ids') (ss ++ tt) ∧
    Pool.size p' = Z.of_nat (length ss + length tt).
Proof.
  intros Hn Hs Ht.
  destruct (add_all_ok (length tt + 0) ss Pool.make) as (ids&p&E&Hp&Hst&_&_&_&Hc); [apply Pool.make_ok; lia|done|].
  destruct (add_all_ok 0 tt p Hp Ht) as (ids'&p'&E'&Hp'&Hst'&_&_&Hmono&Hc').
  destruct (add_all_ok 0 (ss ++ tt) Pool.make) as (ids2&p2&E2&_&_&Hsort&Htop&_&_);
    [apply Pool.make_ok; rewrite length_app; lia|by apply Forall_app|].
  assert (Happ : ∀ l1 p0 i1 q1, add_all l1 p0 = Some (i1, q1) → add_all (l1 ++ tt) p0 = ('(i2, q2) ← add_all tt q1; Some (i1 ++ i2, q2))).
  { induction l1 as [|x l1 IH]; intros p0 i1 q1 E0; simpl in *; [injection E0 as <- <-; by destruct (add_all tt p0) as [[]|]|].
    destruct (Pool.add x p0) as [[id pp]|]; [|done]. cbn [mbind option_bind] in *. destruct (add_all l1 pp) as [[i1' q1']|] eqn:El; [|done].
    cbn [mbind option_bind] in E0. injection E0 as <- <-. rewrite (IH _ _ _ El). by destruct (add_all tt q1') as [[]|]. }
  rewrite (Happ _ _ _ _ E), E' in E2. injection E2 as <- <-.
  assert (Hread : ∀ q l i, Forall Pool.name_ok l → Forall2 (Pool.stored q) i l → Forall2 (λ id s, Pool.str_ id q = Some s) i l).
  { intros q l i Hl H2. induction H2 as [|id s i l Hids _ IH]; [constructor|]. apply Forall_cons in Hl as [(_&Hnul&_) Hl].
    constructor; [by apply Pool.stored_str|by apply IH]. }
  exists ids, p, ids', p'. split_and!; [done|done|done| | | |].
  - eapply Forall_impl; [exact Htop|]. change (Pool.top Pool.make) with Pool.MAX_BIN_SIZE. intros id ?. assert (0 < Pool.MAX_BIN_SIZE) by done. cbv beta in *. lia.
  - by apply Hread.
  - apply Forall2_app; apply Hread; try done. eapply Forall2_impl; [exact Hst|]. intros. by apply Hmono.
  - unfold Pool.size in *. simpl in Hc. lia.
Qed.

Lemma string_pool_roundtrip_witness : ∃ ids p ids' p', add_all [str "cpu host=a"; str "mem host=a"] Pool.make = Some (ids, p) ∧
  add_all [str "net host=b"] p = Some (ids', p') ∧
  Forall2 (λ id s, Pool.str_ id p' = Some s) (ids ++ ids') [str "cpu host=a"; str "mem host=a"; str "net host=b"].
Proof.
  destruct (string_pool_roundtrip [str "cpu host=a"; str "mem host=a"] [str "net host=b"]) as (ids&p&ids'&p'&E&E'&_&_&_&H&_);
    [by_compute..|]. by exists ids, p, ids', p'.
Defined.
