(* ===== verification/SeriesName.v ===== *)
(** * Series names (seriesparser.cc, [SeriesParser])

    A series is named by a metric and tags: [metric key=value key=value ...].
    [to_canonical_form] brings a name into its normal form, one space between the
    parts and the tags in the order of their keys; [filter_tags] keeps some of the
    tags.  A pointer into a name is the list of the characters from there on;
    [std::prev(p) == escape_char] says that the character before was a backslash,
    which the loops keep in a flag. *)
From stdpp Require Import sorting.
From S2P Require Import Prelude Status StringPool.

Notation SPACE := 32 (only parsing).
Notation TAB := 9 (only parsing).
Notation EQ := 61 (only parsing).
Notation ESC_CHAR := 92 (only parsing).

(** ** [std::sort]

    The predicate of the tags says of a tag that it is less than itself
    ([sort_pred] below), and for such a predicate the C++ standard promises
    nothing of [std::sort].  So this is the library of GCC ([bits/stl_algo.h]):
    a range of up to [_S_threshold] elements is sorted by [__insertion_sort];
    a longer one goes through [__introsort_loop] first, which stays a parameter
    that nothing is assumed of. *)
Class StdSort := { introsort {A : Type} : (A → A → bool) → list A → option (list A) }.

Definition S_threshold : nat := 16.

(** [__unguarded_linear_insert]: the elements before [val], the last one first;
    [None] when it would run over the beginning of the range. *)
Fixpoint unguarded_linear_insert {A} (cmp : A → A → bool) (val : A) (before : list A) : option (list A) :=
  match before with
  | [] => None
  | next :: rest => if cmp val next then rest ← unguarded_linear_insert cmp val rest; Some (next :: rest) else Some (val :: before)
  end.

(** [__insertion_sort]: an element less than the first one goes to the front. *)
Definition insertion_step {A} (cmp : A → A → bool) (before : option (list A)) (val : A) : option (list A) :=
  before ← before;
  first ← last before;
  if cmp val first then Some (before ++ [val]) else unguarded_linear_insert cmp val before.
Definition insertion_sort {A} (cmp : A → A → bool) (l : list A) : option (list A) :=
  match l with
  | [] => Some []
  | first :: l => sorted ← foldl (insertion_step cmp) (Some [first]) l; Some (reverse sorted)
  end.

Definition std_sort `{StdSort} {A} (cmp : A → A → bool) (l : list A) : option (list A) :=
  if decide (length l ≤ S_threshold)%nat then insertion_sort cmp l else introsort cmp l.

(** For computing with names of any length. *)
#[export] Instance insertion_of_any_length : StdSort := { introsort A := insertion_sort }.

(** A strict weak order of the elements of a list, as far as it compares
    different ones. *)
Record strict_weak {A} (cmp : A → A → bool) (l : list A) : Prop := {
  sw_asym x y : x ∈ l → y ∈ l → x ≠ y → cmp x y = true → cmp y x = false;
  sw_trans x y z : x ∈ l → y ∈ l → z ∈ l → x ≠ y → y ≠ z → x ≠ z → cmp x y = true → cmp y z = true → cmp x z = true;
  sw_equiv x y z : x ∈ l → y ∈ l → z ∈ l → x ≠ y → y ≠ z → x ≠ z →
    cmp x y = false → cmp y x = false → cmp y z = false → cmp z y = false → cmp x z = false;
}.

(** Insertion sort compares only different elements, so such an order is enough. *)
Section Insertion.
Context {A : Type} (cmp : A → A → bool) (l : list A) (Hnd : NoDup l) (Hsw : strict_weak cmp l).

Lemma not_less_trans x y z : x ∈ l → y ∈ l → z ∈ l → x ≠ y → y ≠ z → x ≠ z → cmp x y = false → cmp y z = false → cmp x z = false.
Proof.
  intros Hx Hy Hz N1 N2 N3 E1 E2. destruct (cmp y x) eqn:E3.
  - destruct (cmp x z) eqn:E; [|done]. rewrite <- E2. symmetry. by apply (sw_trans _ _ Hsw y x z).
  - destruct (cmp z y) eqn:E4; [|by apply (sw_equiv _ _ Hsw x y z)].
    destruct (cmp x z) eqn:E; [|done]. rewrite <- E1. symmetry. by apply (sw_trans _ _ Hsw x z y).
Qed.

(** The sorted elements, the last one first. *)
Notation falling := (StronglySorted (λ y x, cmp y x = false)).

Lemma linear_insert_ok before val first :
  (∀ x, x ∈ val :: before → x ∈ l) → NoDup (val :: before) → falling before → last before = Some first → cmp val first = false →
  ∃ before', unguarded_linear_insert cmp val before = Some before' ∧ before' ≡ₚ val :: before ∧ falling before'.
Proof.
  induction before as [|y before IH]; intros Hin Hn Hs Hlast Hc; [done|]. cbn [unguarded_linear_insert].
  apply NoDup_cons in Hn as [Hv Hn]. apply not_elem_of_cons in Hv as [Hvy Hv]. apply NoDup_cons in Hn as [Hy Hn].
  apply StronglySorted_cons in Hs as [Hhd Hs]. destruct (cmp val y) eqn:E.
  - destruct before as [|z before]; [simpl in Hlast; congruence|].
    destruct IH as (b'&->&Hp&Hs'); [set_solver|by constructor|done|done|done|]. exists (y :: b'). split; [done|]. split; [rewrite Hp; apply Permutation_swap|].
    apply StronglySorted_cons. split; [|done]. rewrite Hp. constructor; [|done]. apply (sw_asym _ _ Hsw); set_solver.
  - exists (val :: y :: before). split_and!; [done|done|]. apply StronglySorted_cons. split; [|by apply StronglySorted_cons]. constructor; [done|].
    rewrite Forall_forall in Hhd |- *. intros x Hx. apply (not_less_trans val y x); try done; [set_solver..|]. by apply Hhd.
Qed.

Lemma insertion_step_ok before val :
  before ≠ [] → (∀ x, x ∈ val :: before → x ∈ l) → NoDup (val :: before) → falling before →
  ∃ before', insertion_step cmp (Some before) val = Some before' ∧ before' ≡ₚ val :: before ∧ falling before'.
Proof.
  intros Hne Hin Hn Hs. unfold insertion_step. cbn [mbind option_bind].
  destruct (exists_last Hne) as (pre&first&->). rewrite last_snoc. cbn [mbind option_bind].
  destruct (cmp val first) eqn:E; [|by eapply linear_insert_ok; [..|apply last_snoc|]]. exists ((pre ++ [first]) ++ [val]).
  split; [done|]. split; [by rewrite Permutation_app_comm|].
  apply NoDup_cons in Hn as [Hv Hn]. apply NoDup_app in Hn as (Hnp&Hd&_).
  apply StronglySorted_app_2; [|done|repeat constructor]. intros y x2 Hy ->%list_elem_of_singleton.
  apply elem_of_app in Hy as [Hyp|Hyp]; [|apply list_elem_of_singleton in Hyp as ->; apply (sw_asym _ _ Hsw); set_solver]. destruct (cmp y val) eqn:Ey; [|done].
  rewrite <- (StronglySorted_app_1_elem_of _ _ _ y first Hs Hyp) by (by left). symmetry.
  apply (sw_trans _ _ Hsw y val first); set_solver.
Qed.

Lemma insertions_ok rest before :
  before ≠ [] → (∀ x, x ∈ before ++ rest → x ∈ l) → NoDup (before ++ rest) → falling before →
  ∃ sorted, foldl (insertion_step cmp) (Some before) rest = Some sorted ∧ sorted ≡ₚ before ++ rest ∧ falling sorted.
Proof.
  revert before. induction rest as [|val rest IH]; intros before Hne Hin Hn Hs; [exists before; by rewrite app_nil_r|].
  assert (Hp : before ++ val :: rest ≡ₚ (val :: before) ++ rest) by (symmetry; apply Permutation_middle).
  rewrite Hp in Hn. destruct (insertion_step_ok before val Hne) as (b'&Eb&Hpb&Hsb); [set_solver|by apply NoDup_app in Hn as [? _]|done|].
  cbn [foldl]. rewrite Eb. destruct (IH b') as (sorted&->&Hps&Hss).
  - intros ->. by apply Permutation_nil_l in Hpb.
  - intros x. rewrite Hpb, <- Hp. apply Hin.
  - by rewrite Hpb.
  - done.
  - exists sorted. split_and!; [done| |done]. by rewrite Hps, Hpb, Hp.
Qed.

Lemma insertion_sort_ok : ∃ sorted, insertion_sort cmp l = Some sorted ∧ sorted ≡ₚ l ∧ StronglySorted (λ x y, cmp y x = false) sorted.
Proof.
  assert (Hall : match l with [] => True | first :: rest =>
      ∃ sorted, foldl (insertion_step cmp) (Some [first]) rest = Some sorted ∧ sorted ≡ₚ l ∧ falling sorted end).
  { pose proof insertions_ok as Hins. destruct l as [|first rest]; [done|]. apply (Hins rest [first]); [done|done|done|repeat constructor]. }
  unfold insertion_sort. destruct l as [|first rest]; [exists []; split_and!; [done|done|constructor]|]. destruct Hall as (sorted&->&Hp&Hs).
  exists (reverse sorted). split; [done|]. split; [by rewrite reverse_Permutation, Hp|]. clear - Hs.
  induction Hs as [|y sorted Hs IH Hy]; [constructor|]. rewrite reverse_cons. apply StronglySorted_app_2; [|done|repeat constructor].
  intros x x2 Hx ->%list_elem_of_singleton. rewrite Forall_forall in Hy. apply Hy. by rewrite <- elem_of_reverse.
Qed.
End Insertion.

(** ** Scanning *)

Module Parse.

Definition is_space (c : Z) : bool := bool_decide (c = SPACE ∨ c = TAB).

Fixpoint skip_space (p : chars) : chars :=
  match p with
  | c :: q => if is_space c then skip_space q else p
  | [] => []
  end.

(** The characters before [=], [None] if there is a space or the end before. *)
Fixpoint name_loop (p : chars) : option chars :=
  match p with
  | [] => None
  | c :: q => if decide (c = EQ) then Some [] else if is_space c then None else t ← name_loop q; Some (c :: t)
  end.
Definition get_tag_name (p : chars) : chars := default [] (name_loop p).

(** [copy_until]: what is copied to the output and the pointer it returns;
    [esc]: the character before was a backslash. *)
Fixpoint copy_loop (pattern : Z) (esc : bool) (p : chars) : chars * chars :=
  match p with
  | [] => ([], [])
  | c :: q =>
    if decide (c = pattern) then
      if esc then let '(out, r) := copy_loop pattern false q in (c :: out, r) else ([], p)
    else let '(out, r) := copy_loop pattern (bool_decide (c = ESC_CHAR)) q in (c :: out, r)
  end.
Definition copy_until (pattern : Z) (p : chars) : chars * chars :=
  match p with
  | [] => ([], [])
  | c :: q => let '(out, r) := copy_loop pattern (bool_decide (c = ESC_CHAR)) q in (c :: out, r)
  end.

(** The two loops of [skip_tag]. *)
Fixpoint key_loop (esc : bool) (p : chars) : chars * chars :=
  match p with
  | [] => ([], [])
  | c :: q =>
    if decide (c = EQ) then ([], p)
    else if decide (c = SPACE) then
      if esc then let '(t, r) := key_loop false q in (c :: t, r) else ([], p)
    else let '(t, r) := key_loop (bool_decide (c = ESC_CHAR)) q in (c :: t, r)
  end.
Fixpoint value_loop (esc : bool) (p : chars) : chars * chars :=
  match p with
  | [] => ([], [])
  | c :: q =>
    if decide (c = SPACE) then
      if esc then let '(t, r) := value_loop false q in (c :: t, r) else ([], p)
    else let '(t, r) := value_loop (bool_decide (c = ESC_CHAR)) q in (c :: t, r)
  end.

(** The error flag, the characters that were passed and the pointer returned. *)
Definition skip_tag (begin_ : chars) : bool * chars * chars :=
  let '(key, p) := key_loop false begin_ in
  match key, p with
  | _ :: _, EQ :: _ => let '(val, c) := value_loop false p in (bool_decide (val = []), key ++ val, c)
  | _, _ => (true, begin_, [])
  end.

(** [sort_pred]: both arguments point into one string. *)
Fixpoint pred_loop (lhs rhs : chars) (lenl lenr : nat) : bool :=
  match lenl, lenr with
  | O, _ => false
  | S _, O => true
  | S lenl, S lenr =>
    match lhs, rhs with
    | l :: lhs, r :: rhs =>
      if decide (l = EQ ∨ r = EQ) then bool_decide (l = EQ ∧ r ≠ EQ)
      else if decide (i8 l < i8 r) then true
      else if decide (i8 r < i8 l) then false
      else pred_loop lhs rhs lenl lenr
    | _, _ => true
    end
  end.
Definition sort_pred (lhs rhs : chars) : bool :=
  if decide (length rhs < length lhs)%nat
  then pred_loop lhs rhs (length lhs - length rhs) (length rhs)
  else pred_loop lhs rhs (length lhs) (length rhs - length lhs).

Definition LIMITS_MAX_TAGS : nat := 32.

(** The loop that finds the tags. *)
Fixpoint collect (fuel : nat) (it : chars) (tags : list chars) (error : bool) : option (list chars * bool) :=
  match fuel with
  | O => None
  | S fuel =>
    if decide (it ≠ [] ∧ length tags < LIMITS_MAX_TAGS)%nat then
      let '(error, _, rest) := skip_tag it in
      let rest := skip_space rest in
      if error : bool then Some (tags, true) else collect fuel rest (tags ++ [it]) error
    else Some (tags, error)
  end.

(** [to_canonical_form]: the status, the output and where its tags begin;
    [out_size] is the size of the output buffer. *)
Definition to_canonical_form `{StdSort} (s : chars) (out_size : Z) : option (Status * chars * nat) :=
  let len := Z.of_nat (length s) in
  if decide (Pool.LIMITS_MAX_SNAME < len) then Some (kBadData, [], 0%nat) else
  if decide (out_size < len) then Some (kBadArg, [], 0%nat) else
  let '(metric, it) := copy_until SPACE (skip_space s) in
  let it := skip_space it in
  if decide (it = []) then Some (kBadData, metric, 0%nat) else
  '(tags, error) ← collect (S (length it)) it [] false;
  if error : bool then Some (kBadData, metric, 0%nat) else
  if decide (tags = []) then Some (kBadData, metric, 0%nat) else
  tags ← std_sort sort_pred tags;
  let out := metric ++ concat ((λ tag, SPACE :: (copy_until SPACE tag).1) <$> tags) in
  Some (kOk, out, (length out - length (skip_space (drop (length metric) out)))%nat).

(** [filter_tags]: [inv] keeps the tags that are not in the set. *)
Fixpoint filter_loop (fuel : nat) (it : chars) (tags : gset chars) (inv : bool) (ix_tag : nat) (error : bool) (out : chars)
    : option (nat * bool * chars) :=
  match fuel with
  | O => None
  | S fuel =>
    if decide (it ≠ [] ∧ ix_tag < LIMITS_MAX_TAGS)%nat then
      let '(error, tag, rest) := skip_tag it in
      if error : bool then Some (ix_tag, true, out) else
      let ntags := bool_decide (get_tag_name tag ∈ tags) in
      let keep := xorb inv ntags in
      filter_loop fuel (skip_space rest) tags inv (if keep then S ix_tag else ix_tag) error
        (if keep then out ++ SPACE :: tag else out)
    else Some (ix_tag, error, out)
  end.

Definition filter_tags (input : chars) (tags : gset chars) (inv : bool) : option (Status * chars) :=
  let '(metric, it) := copy_until SPACE (skip_space input) in
  let it := skip_space it in
  if decide (it = []) then Some (kBadData, []) else
  '(ix_tag, error, out) ← filter_loop (S (length it)) it tags inv 0 false metric;
  if error : bool then Some (kBadData, []) else
  if decide (ix_tag = 0)%nat then Some (kBadData, []) else Some (kOk, out).

End Parse.
