(* ===== verification/SeriesNameProof.v ===== *)
(** * The normal form of a series name does not depend on how it is written

    A name is its metric and its tags; whatever the order of the tags and the
    blanks between them, [to_canonical_form] gives the same characters. *)
From stdpp Require Import sorting.
From S2P Require Import Prelude Status StringPool SeriesName.

Section Names.
Import Parse.

(** ** Words *)

(** No space that is not escaped, and no backslash at the end; [esc]: a backslash
    comes before. *)
Fixpoint word (esc : bool) (s : chars) : bool :=
  match s with
  | [] => negb esc
  | c :: s => if decide (c = SPACE) then esc && word false s else word (bool_decide (c = ESC_CHAR)) s
  end.

(** A word ends at the end of the name or before a space. *)
Definition boundary (r : chars) : Prop := r = [] ∨ ∃ q, r = SPACE :: q.

Lemma copy_loop_word esc s r : word esc s = true → boundary r → copy_loop SPACE esc (s ++ r) = (s, r).
Proof.
  revert esc. induction s as [|c s IH]; intros esc Hw Hr.
  - destruct esc; [done|]. by destruct Hr as [->|[q ->]].
  - simpl in *. case_decide as Hc.
    + apply andb_true_iff in Hw as [-> Hw]. by rewrite IH.
    + by rewrite IH.
Qed.

Lemma value_loop_word esc s r : word esc s = true → boundary r → value_loop esc (s ++ r) = (s, r).
Proof.
  revert esc. induction s as [|c s IH]; intros esc Hw Hr.
  - destruct esc; [done|]. by destruct Hr as [->|[q ->]].
  - simpl in *. case_decide as Hc.
    + apply andb_true_iff in Hw as [-> Hw]. by rewrite IH.
    + by rewrite IH.
Qed.

(** A part of a name: a word that does not begin with a blank. *)
Definition part (s : chars) : Prop := ∃ c q, s = c :: q ∧ is_space c = false ∧ word false s = true.

Lemma not_blank c : is_space c = false → c ≠ SPACE.
Proof. unfold is_space. rewrite bool_decide_eq_false. tauto. Qed.

Lemma copy_until_part s r : part s → boundary r → copy_until SPACE (s ++ r) = (s, r).
Proof.
  intros (c&q&->&Hc&Hw) Hr. simpl in *. rewrite decide_False in Hw by (by apply not_blank). by rewrite copy_loop_word.
Qed.

Lemma skip_space_part s r : part s → skip_space (s ++ r) = s ++ r.
Proof. intros (c&q&->&Hc&Hw). simpl. by rewrite Hc. Qed.

Definition blanks (ws : chars) : Prop := Forall (λ c, is_space c = true) ws.

Lemma skip_space_blanks ws s : blanks ws → skip_space (ws ++ s) = skip_space s.
Proof. induction 1 as [|c ws Hc Hw IH]; [done|]. simpl. by rewrite Hc. Qed.

(** ** Tags *)

Notation tag := (chars * chars)%type.
Definition tag_text (t : tag) : chars := t.1 ++ EQ :: t.2.
Definition tag_ok (t : tag) : Prop := EQ ∉ t.1 ∧ t.1 ≠ [] ∧ part (tag_text t) ∧ Forall is_u8 t.1.

Lemma key_loop_word esc k v r :
  EQ ∉ k → word esc (k ++ EQ :: v) = true → key_loop esc (k ++ EQ :: v ++ r) = (k, EQ :: v ++ r) ∧ word false (EQ :: v) = true.
Proof.
  revert esc. induction k as [|c k IH]; intros esc Hk Hw; [done|]. apply not_elem_of_cons in Hk as [Hc Hk]. simpl in *.
  rewrite (decide_False (P := c = EQ)) by done. case_decide as Hs.
  - apply andb_true_iff in Hw as [-> Hw]. destruct (IH false Hk Hw) as [-> ?]. done.
  - destruct (IH _ Hk Hw) as [-> ?]. done.
Qed.

Lemma skip_tag_ok t r : tag_ok t → boundary r → skip_tag (tag_text t ++ r) = (false, tag_text t, r).
Proof.
  intros (Hk&Hne&(c&q&Et&Hc&Hw)&_) Hr. unfold skip_tag, tag_text in *. rewrite <- app_assoc. cbn [app].
  destruct (key_loop_word false t.1 t.2 r Hk Hw) as [-> Hv]. destruct t.1 as [|k0 k] eqn:Ek; [done|].
  change (EQ :: t.2 ++ r) with ((EQ :: t.2) ++ r). rewrite (value_loop_word false _ r Hv Hr). done.
Qed.

(** The rest of a name after the metric: blanks and tags. *)
Definition after_blanks (ts : list (chars * tag)) (trail : chars) : chars :=
  concat ((λ x, SPACE :: x.1 ++ tag_text x.2) <$> ts) ++ trail.
Definition trail_ok (trail : chars) : Prop := trail = [] ∨ ∃ ws, trail = SPACE :: ws ∧ blanks ws.

Lemma after_boundary ts trail : trail_ok trail → boundary (after_blanks ts trail).
Proof.
  intros Ht. destruct ts as [|[ws t] ts]; [destruct Ht as [->|(ws&->&_)]; [by left|right; by exists ws]|]. right. by eexists.
Qed.

Lemma skip_after ws t ts trail :
  blanks ws → tag_ok t → skip_space (after_blanks ((ws, t) :: ts) trail) = tag_text t ++ after_blanks ts trail.
Proof.
  intros Hw (_&_&Hp&_). unfold after_blanks. rewrite fmap_cons. cbn [concat fst snd]. rewrite <- !app_assoc. simpl.
  rewrite <- !app_assoc, skip_space_blanks by done. by apply skip_space_part.
Qed.

Lemma skip_after_nil trail : trail_ok trail → skip_space (after_blanks [] trail) = [].
Proof.
  intros [->|(ws&->&Hw)]; [done|]. unfold after_blanks. simpl. rewrite <- (app_nil_r ws). by rewrite skip_space_blanks.
Qed.

(** The pointers to the tags. *)
Fixpoint pointers (ts : list (chars * tag)) (trail : chars) : list chars :=
  match ts with [] => [] | (_, t) :: ts => (tag_text t ++ after_blanks ts trail) :: pointers ts trail end.

Definition tags_ok (ts : list (chars * tag)) : Prop := Forall (λ x, blanks x.1 ∧ tag_ok x.2) ts.

Lemma collect_ok fuel t ts trail acc error :
  tag_ok t → tags_ok ts → trail_ok trail → (length acc + S (length ts) ≤ LIMITS_MAX_TAGS)%nat → (S (length ts) < fuel)%nat →
  collect fuel (tag_text t ++ after_blanks ts trail) acc error = Some (acc ++ (tag_text t ++ after_blanks ts trail) :: pointers ts trail, false).
Proof.
  revert t ts acc error. induction fuel as [|fuel IH]; intros t ts acc error Ht Hts Htr Hl Hf; [lia|]. cbn [collect].
  rewrite decide_True by (split; [destruct Ht as (_&_&(c&q&->&_)&_); done|lia]).
  rewrite skip_tag_ok by (done || by apply after_boundary). cbn iota beta. destruct ts as [|[ws t'] ts].
  - rewrite skip_after_nil by done. destruct fuel as [|fuel]; [simpl in Hf; lia|]. cbn [collect]. by rewrite decide_False by (by intros [? _]).
  - apply Forall_cons in Hts as [[Hw Ht'] Hts]. rewrite skip_after by done. simpl in Hl, Hf.
    rewrite IH by (try done; rewrite ?length_app; simpl; lia). by rewrite <- app_assoc.
Qed.

(** ** The order of the keys *)

Fixpoint key_lt (a b : chars) : bool :=
  match a, b with
  | _, [] => false
  | [], _ => true
  | x :: a, y :: b => if decide (i8 x < i8 y) then true else if decide (i8 y < i8 x) then false else key_lt a b
  end.

(** The characters before [=]. *)
Fixpoint pkey (p : chars) : chars :=
  match p with [] => [] | c :: p => if decide (c = EQ) then [] else c :: pkey p end.

Lemma pkey_text k r : EQ ∉ k → pkey (k ++ EQ :: r) = k.
Proof. induction k as [|c k IH]; intros Hk; [done|]. apply not_elem_of_cons in Hk as [Hc Hk]. simpl. rewrite decide_False by done. by rewrite IH. Qed.

Lemma key_lt_asym a b : key_lt a b = true → key_lt b a = false.
Proof.
  revert b. induction a as [|x a IH]; intros [|y b]; simpl; try done. repeat case_decide; try done; try lia. apply IH.
Qed.

Lemma key_lt_trans a b c : key_lt a b = true → key_lt b c = true → key_lt a c = true.
Proof.
  revert b c. induction a as [|x a IH]; intros [|y b] [|z c]; simpl; try done. repeat case_decide; try done; try lia. apply IH.
Qed.

Lemma key_lt_total a b : Forall is_u8 a → Forall is_u8 b → key_lt a b = false → key_lt b a = false → a = b.
Proof.
  revert b. induction a as [|x a IH]; intros [|y b]; simpl; try done. intros [Hx Ha]%Forall_cons [Hy Hb]%Forall_cons.
  repeat case_decide; try done; try lia. intros E1 E2. f_equal; [|by apply IH]. unfold i8, is_u8 in *. repeat case_decide; lia.
Qed.

Lemma pred_loop_keys k k' x y lenl lenr :
  EQ ∉ k → EQ ∉ k' → (length k < lenl)%nat → (length k' < lenr)%nat →
  pred_loop (k ++ EQ :: x) (k' ++ EQ :: y) lenl lenr = key_lt k k'.
Proof.
  revert k' lenl lenr. induction k as [|c k IH]; intros [|c' k'] [|lenl] [|lenr] Hk Hk' Hl Hr; simpl in *; try lia.
  - apply not_elem_of_cons in Hk' as [Hc' _]. by apply bool_decide_eq_true_2.
  - apply not_elem_of_cons in Hk as [Hc _]. case_decide as He; [|by destruct He; right]. by apply bool_decide_eq_false_2; intros [? _].
  - apply not_elem_of_cons in Hk as [Hc Hk], Hk' as [Hc' Hk']. rewrite (decide_False (P := c = EQ ∨ c' = EQ)) by (intros [?|?]; done).
    repeat case_decide; try done. apply IH; try done; lia.
Qed.

(** A pointer to a tag, and one to a later tag. *)
Definition points_at (p : chars) : Prop := ∃ k r, p = k ++ EQ :: r ∧ EQ ∉ k ∧ Forall is_u8 k.
Definition earlier (p q : chars) : Prop := (length q + length (pkey p) < length p)%nat.

Lemma sort_pred_keys p q : points_at p → points_at q → earlier p q → sort_pred p q = key_lt (pkey p) (pkey q) ∧ sort_pred q p = key_lt (pkey q) (pkey p).
Proof.
  intros (k&r&->&Hk&_) (k'&r'&->&Hk'&_). unfold earlier. rewrite !pkey_text by done. intros He. unfold sort_pred.
  rewrite decide_True by lia. rewrite decide_False by lia. split; apply pred_loop_keys; try done; rewrite ?length_app in *; simpl in *; lia.
Qed.

Lemma tag_points_at t r : tag_ok t → points_at (tag_text t ++ r) ∧ pkey (tag_text t ++ r) = t.1.
Proof.
  intros (Hk&_&_&Hu). unfold tag_text. rewrite <- app_assoc. cbn [app]. split; [by exists t.1, (t.2 ++ r)|by apply pkey_text].
Qed.

Lemma pointers_facts ts trail :
  tags_ok ts → Forall points_at (pointers ts trail) ∧ StronglySorted earlier (pointers ts trail) ∧
    Forall (λ p, (length p ≤ length (after_blanks ts trail))%nat) (pointers ts trail) ∧
    pkey <$> pointers ts trail = (λ x, x.2.1) <$> ts.
Proof.
  induction ts as [|[ws t] ts IH]; intros Hts; [split_and!; constructor|]. apply Forall_cons in Hts as [[Hw Ht] Hts].
  destruct (IH Hts) as (H1&H2&H3&H4). destruct (tag_points_at t (after_blanks ts trail) Ht) as [Hp Hpk]. cbn [pointers].
  assert (Hlen : length (after_blanks ((ws, t) :: ts) trail) = (S (length ws) + length (tag_text t) + length (after_blanks ts trail))%nat).
  { unfold after_blanks. rewrite fmap_cons. simpl. rewrite !length_app. lia. }
  split_and!; [by constructor| | |].
  - apply StronglySorted_cons. split; [|done]. eapply Forall_impl; [exact H3|]. intros q Hq. cbv beta in Hq. unfold earlier. rewrite Hpk, length_app.
    unfold tag_text. rewrite length_app. simpl. lia.
  - constructor; [rewrite Hlen, length_app; lia|]. eapply Forall_impl; [exact H3|]. intros q Hq. cbv beta in *. lia.
  - rewrite !fmap_cons. simpl. by rewrite Hpk, H4.
Qed.

Lemma earlier_NoDup l : StronglySorted earlier l → NoDup l.
Proof.
  induction 1 as [|p l Hs IH Hp]; [constructor|]. constructor; [|done]. intros Hin. rewrite Forall_forall in Hp. specialize (Hp p Hin).
  unfold earlier in Hp. lia.
Qed.

(** On the pointers to the tags of a name the predicate is the order of the keys. *)
Lemma sort_pred_pointers l x y :
  Forall points_at l → StronglySorted earlier l → x ∈ l → y ∈ l → x ≠ y → sort_pred x y = key_lt (pkey x) (pkey y).
Proof.
  intros Hp Hs. induction Hs as [|p l Hs IH Hhd]; intros Hx Hy Hne; [by apply not_elem_of_nil in Hx|].
  apply Forall_cons in Hp as [Hp Hpl]. rewrite Forall_forall in Hhd, Hpl.
  apply elem_of_cons in Hx as [->|Hx], Hy as [->|Hy]; [done| | |].
  - exact (proj1 (sort_pred_keys p y Hp (Hpl y Hy) (Hhd y Hy))).
  - exact (proj2 (sort_pred_keys p x Hp (Hpl x Hx) (Hhd x Hx))).
  - apply IH; try done. by apply Forall_forall.
Qed.

Lemma sort_pred_weak l : Forall points_at l → StronglySorted earlier l → strict_weak sort_pred l.
Proof.
  intros Hp Hs. assert (Hk := sort_pred_pointers l). split; intros x y.
  - intros Hx Hy Hne. rewrite !Hk by done. apply key_lt_asym.
  - intros z Hx Hy Hz H1 H2 H3. rewrite !Hk by done. apply key_lt_trans.
  - intros z Hx Hy Hz H1 H2 H3. rewrite !Hk by (try done; by apply not_eq_sym).
    assert (Hu : ∀ p, p ∈ l → Forall is_u8 (pkey p)).
    { intros p Hin. rewrite Forall_forall in Hp. destruct (Hp p Hin) as (k&r&->&Hk'&Hu). by rewrite pkey_text. }
    intros E1 E2 E3 E4. by rewrite (key_lt_total _ _ (Hu _ Hx) (Hu _ Hy) E1 E2).
Qed.

(** ** The normal form *)

(** A name as it may be written: blanks, the metric, the tags with blanks before
    each, and blanks. *)
Definition name_text (lead metric : chars) (ts : list (chars * tag)) (trail : chars) : chars :=
  lead ++ metric ++ after_blanks ts trail.

Record name_wf (lead metric : chars) (ts : list (chars * tag)) (trail : chars) : Prop := {
  nw_lead : blanks lead;
  nw_metric : part metric;
  nw_tags : tags_ok ts;
  nw_trail : trail_ok trail;
  nw_some : ts ≠ [];
  nw_few : (length ts ≤ S_threshold)%nat;
  nw_short : Z.of_nat (length (name_text lead metric ts trail)) ≤ Pool.LIMITS_MAX_SNAME;
}.

(** The normal form of a metric and tags in this order. *)
Definition canon (metric : chars) (tags : list chars) : chars := metric ++ concat ((λ t, SPACE :: t) <$> tags).

Notation texts ts := ((λ x, tag_text x.2) <$> ts).
Notation in_order := (StronglySorted (λ x y, key_lt (pkey y) (pkey x) = false)).

Lemma StronglySorted_elems {A} (R S : A → A → Prop) l :
  (∀ x y, x ∈ l → y ∈ l → x ≠ y → R x y → S x y) → NoDup l → StronglySorted R l → StronglySorted S l.
Proof.
  intros HRS Hnd Hs. induction Hs as [|x l Hs IH Hx]; [constructor|]. apply NoDup_cons in Hnd as [Hx' Hnd]. constructor.
  - apply IH; [|done]. intros a b Ha Hb. apply HRS; by right.
  - rewrite Forall_forall in *. intros y Hy. apply HRS; [by left|by right|congruence|by apply Hx].
Qed.

Lemma pointers_texts ts trail :
  tags_ok ts → trail_ok trail → (λ p, (copy_until SPACE p).1) <$> pointers ts trail = texts ts ∧
    Forall (λ p, pkey (copy_until SPACE p).1 = pkey p) (pointers ts trail).
Proof.
  intros Hts Htr. induction ts as [|[ws t] ts IH]; [split; constructor|]. apply Forall_cons in Hts as [[Hw Ht] Hts]. destruct (IH Hts) as [E F].
  cbn [pointers]. rewrite !fmap_cons, E. pose proof Ht as (_&_&Hp&_).
  rewrite copy_until_part by (done || by apply after_boundary). split; [done|]. constructor; [|done].
  rewrite copy_until_part by (done || by apply after_boundary). simpl fst.
  rewrite (proj2 (tag_points_at t _ Ht)). rewrite <- (app_nil_r (tag_text t)). apply (tag_points_at t [] Ht).
Qed.

Lemma canon_length metric ts trail σ lead :
  σ ≡ₚ texts ts → (length (canon metric σ) ≤ length (name_text lead metric ts trail))%nat.
Proof.
  intros Hp. unfold canon, name_text. rewrite !length_app.
  assert (length (concat ((λ t, SPACE :: t) <$> σ)) = length (concat ((λ t, SPACE :: t) <$> texts ts))) as ->.
  { apply Permutation_length. by rewrite Hp. }
  unfold after_blanks. rewrite length_app.
  assert (length (concat ((λ t, SPACE :: t) <$> texts ts)) ≤ length (concat ((λ x, SPACE :: x.1 ++ tag_text x.2) <$> ts)))%nat; [|lia].
  clear Hp. induction ts as [|x ts IH]; [done|]. rewrite !fmap_cons. cbn [concat]. rewrite !length_app. cbn [length]. rewrite !length_app. lia.
Qed.

Context `{StdSort}.

Lemma pointers_length ts trail : length (pointers ts trail) = length ts.
Proof. induction ts as [|[ws t] ts IH]; [done|]. simpl. by rewrite IH. Qed.

Lemma canonical_ok lead metric ts trail out_size :
  name_wf lead metric ts trail → Z.of_nat (length (name_text lead metric ts trail)) ≤ out_size →
  ∃ σ, σ ≡ₚ texts ts ∧ in_order σ ∧
    to_canonical_form (name_text lead metric ts trail) out_size = Some (kOk, canon metric σ, S (length metric)).
Proof.
  intros [Hl Hm Hts Htr Hne Hfew Hsh] Hout. set (ps := pointers ts trail).
  destruct (pointers_facts ts trail Hts) as (F1&F2&_&_). destruct (pointers_texts ts trail Hts Htr) as [T1 T2].
  pose proof (earlier_NoDup _ F2) as Hnd. destruct (insertion_sort_ok sort_pred ps Hnd (sort_pred_weak _ F1 F2)) as (σ0&Esort&Hperm&Hsort).
  set (σ := (λ p, (copy_until SPACE p).1) <$> σ0). assert (Hσ : σ ≡ₚ texts ts) by (rewrite <- T1; by apply fmap_Permutation).
  assert (Hord : in_order σ).
  { apply (StronglySorted_fmap _ (λ x y, key_lt (pkey (copy_until SPACE y).1) (pkey (copy_until SPACE x).1) = false)); [done|].
    eapply StronglySorted_elems; [| |exact Hsort]; [|by rewrite Hperm].
    intros x y Hx Hy Hxy Hp. rewrite Hperm in Hx, Hy. rewrite Forall_forall in T2. rewrite (T2 x Hx), (T2 y Hy).
    by rewrite <- (sort_pred_pointers ps y x F1 F2 Hy Hx (not_eq_sym Hxy)). }
  exists σ. split; [done|]. split; [done|]. unfold to_canonical_form. rewrite !decide_False by lia.
  unfold name_text. rewrite skip_space_blanks, skip_space_part by done. rewrite copy_until_part by (done || by apply after_boundary).
  destruct ts as [|[ws t] ts]; [done|]. apply Forall_cons in Hts as Hts'. destruct Hts' as [[Hw Ht] Hts']. cbn [fst snd] in Hw, Ht.
  rewrite skip_after by done.
  assert (Hnn : tag_text t ++ after_blanks ts trail ≠ []) by (destruct Ht as (_&_&(c&q&Et&_)&_); intros Hx; by rewrite Et in Hx).
  rewrite (decide_False (P := _ = []) _ _ Hnn).
  rewrite collect_ok; [|done|done|done|unfold S_threshold, LIMITS_MAX_TAGS in *; simpl in *; lia| ].
  2:{ apply le_n_S. rewrite length_app. assert (length ts ≤ length (after_blanks ts trail))%nat.
      { unfold after_blanks. rewrite length_app. clear. induction ts as [|x ts IH]; [simpl; lia|]. rewrite fmap_cons. cbn [concat length app]. rewrite length_app. lia. }
      destruct Ht as (_&_&(c&q&->&_)&_). simpl. lia. }
  cbn [mbind option_bind]. rewrite app_nil_l. change ((tag_text t ++ after_blanks ts trail) :: pointers ts trail) with ps.
  rewrite decide_False by done.
  assert (Hshort : (length ps ≤ S_threshold)%nat) by (unfold ps; by rewrite pointers_length).
  unfold std_sort. rewrite (decide_True _ _ Hshort), Esort. cbn [mbind option_bind].
  assert (E : metric ++ concat ((λ tag, SPACE :: (copy_until SPACE tag).1) <$> σ0) = canon metric σ).
  { unfold canon, σ. by rewrite <- list_fmap_compose. }
  rewrite E. do 2 f_equal. unfold canon at 2. rewrite drop_app_length.
  assert (Hfirst : ∃ u r, concat ((λ t, SPACE :: t) <$> σ) = SPACE :: u ++ r ∧ part u).
  { destruct σ as [|u σ'] eqn:Eσ; [by apply Permutation_nil_l in Hσ|]. exists u, (concat ((λ t, SPACE :: t) <$> σ')). split; [done|].
    assert (Hu : u ∈ texts ((ws, t) :: ts)) by (rewrite <- Hσ; by left). apply list_elem_of_fmap in Hu as (x&->&Hx).
    unfold tags_ok in Hts. rewrite Forall_forall in Hts. apply (Hts x Hx). }
  destruct Hfirst as (u&r&Eu&Hu). unfold canon. rewrite Eu. change (skip_space (SPACE :: u ++ r)) with (skip_space (u ++ r)).
  rewrite skip_space_part by done. rewrite !length_app. simpl. rewrite length_app. lia.
Qed.

Lemma texts_keys us : tags_ok us → pkey <$> texts us = (λ x, x.2.1) <$> us.
Proof.
  induction us as [|[ws t] us IH]; [done|]. intros [[_ Ht] Hus]%Forall_cons. rewrite !fmap_cons, IH by done.
  f_equal. simpl. rewrite <- (app_nil_r (tag_text t)). apply (tag_points_at t [] Ht).
Qed.

Lemma texts_u8 us x : tags_ok us → x ∈ texts us → Forall is_u8 (pkey x).
Proof.
  intros Hus (y&->&Hy)%list_elem_of_fmap. unfold tags_ok in Hus. rewrite Forall_forall in Hus. destruct (Hus y Hy) as [_ Ht].
  rewrite <- (app_nil_r (tag_text y.2)), (proj2 (tag_points_at y.2 [] Ht)). apply Ht.
Qed.

(** In order and with different keys means that the keys rise. *)
Lemma in_order_strict us σ :
  tags_ok us → NoDup ((λ x, x.2.1) <$> us) → σ ≡ₚ texts us → in_order σ → StronglySorted (λ x y, key_lt (pkey x) (pkey y) = true) σ.
Proof.
  intros Hus Hnd Hp Ho. assert (Hnk : NoDup (pkey <$> σ)) by (rewrite Hp, texts_keys by done; done).
  eapply StronglySorted_elems; [|exact (NoDup_fmap_1 _ _ Hnk)|exact Ho]. intros x y Hx Hy Hxy Hlt.
  destruct (key_lt (pkey x) (pkey y)) eqn:E; [done|]. exfalso. apply Hxy. rewrite Hp in Hx, Hy.
  assert (pkey x = pkey y) as Exy by (apply key_lt_total; try done; by eapply texts_u8). rewrite <- Hp in Hx, Hy.
  apply list_elem_of_lookup in Hx as (i&Hi), Hy as (j&Hj).
  assert (i = j) as -> by (eapply NoDup_lookup; [exact Hnk|by rewrite list_lookup_fmap, Hi|rewrite list_lookup_fmap, Hj; simpl; by rewrite Exy]).
  congruence.
Qed.

(** ** Property *)

(** C23: the normal form of a series name.  For a metric and tags with different
    keys, however the name is written, with blanks before, between and after its
    parts and the tags in any order, spaces escaped inside the parts, up to 16 tags
    (the number that [std::sort] sorts by insertion; nothing is said of more) and
    4096 characters: [to_canonical_form] succeeds, its output is the metric and
    the tags, each after one space and the keys rising; it is not longer than the
    name, so that it fits the buffer; every other way to write the name has the
    same normal form, and the normal form is its own. *)
Theorem canonical_form_unique lead metric ts trail :
  name_wf lead metric ts trail → NoDup ((λ x, x.2.1) <$> ts) →
  ∃ σ, σ ≡ₚ texts ts ∧ StronglySorted (λ x y, key_lt (pkey x) (pkey y) = true) σ ∧
    to_canonical_form (name_text lead metric ts trail) 0x1000 = Some (kOk, canon metric σ, S (length metric)) ∧
    (length (canon metric σ) ≤ length (name_text lead metric ts trail))%nat ∧
    (∀ lead' ts' trail', name_wf lead' metric ts' trail' → texts ts' ≡ₚ texts ts →
      to_canonical_form (name_text lead' metric ts' trail') 0x1000 = Some (kOk, canon metric σ, S (length metric))) ∧
    to_canonical_form (canon metric σ) 0x1000 = Some (kOk, canon metric σ, S (length metric)).
Proof.
  intros Hwf Hkeys.
  assert (Hk := texts_keys). assert (Hstrict := in_order_strict).
  assert (Hout : ∀ l t r, name_wf l metric t r → Z.of_nat (length (name_text l metric t r)) ≤ 0x1000) by (intros l t r Hw; apply (nw_short _ _ _ _ Hw)).
  destruct (canonical_ok lead metric ts trail 0x1000 Hwf (Hout _ _ _ Hwf)) as (σ&Hσ&Ho&E). exists σ. pose proof (nw_tags _ _ _ _ Hwf) as Hts.
  pose proof (Hstrict ts σ Hts Hkeys Hσ Ho) as Hs.
  assert (Hother : ∀ lead' ts' trail', name_wf lead' metric ts' trail' → texts ts' ≡ₚ texts ts →
      to_canonical_form (name_text lead' metric ts' trail') 0x1000 = Some (kOk, canon metric σ, S (length metric))).
  { intros lead' ts' trail' Hwf' Hp'. destruct (canonical_ok lead' metric ts' trail' 0x1000 Hwf' (Hout _ _ _ Hwf')) as (σ'&Hσ'&Ho'&E').
    pose proof (nw_tags _ _ _ _ Hwf') as Hts'.
    assert (Hnd' : NoDup ((λ x, x.2.1) <$> ts')) by (rewrite <- (Hk ts' Hts'), Hp', (Hk ts Hts); done).
    assert (σ' = σ) as ->; [|done]. eapply StronglySorted_unique; [|exact (Hstrict ts' σ' Hts' Hnd' Hσ' Ho')|exact Hs|].
    - intros x y H1 H2. apply key_lt_asym in H1. congruence.
    - by rewrite Hσ', Hp', Hσ. }
  split_and!; [done|done|done|by apply canon_length|done|].
  assert (Htags : ∃ us, texts us = σ ∧ tags_ok us ∧ Forall (λ x, x.1 = []) us ∧ length us = length ts).
  { assert (Hin : Forall (λ u, ∃ t, u = tag_text t ∧ tag_ok t) σ).
    { rewrite Hσ. apply Forall_forall. intros u (x&->&Hx)%list_elem_of_fmap. unfold tags_ok in Hts. rewrite Forall_forall in Hts. exists x.2. split; [done|]. by apply Hts. }
    apply Permutation_length in Hσ as Hlen. rewrite length_fmap in Hlen. rewrite <- Hlen. clear - Hin.
    induction Hin as [|u σ (t&->&Ht) _ (us&<-&H1&H2&H3)]; [exists []; split_and!; constructor|].
    exists (([], t) :: us). split_and!; [done|constructor; [split; [constructor|done]|done]|by constructor|simpl; lia]. }
  destruct Htags as (us&Eus&Hus&Hws&Hlus).
  assert (Ec : canon metric σ = name_text [] metric us []).
  { unfold canon, name_text, after_blanks. rewrite app_nil_r. simpl. f_equal. rewrite <- Eus. clear - Hws.
    induction Hws as [|[ws t] us Hw _ IH]; [done|]. simpl in Hw. subst ws. rewrite !fmap_cons. cbn [concat fst snd]. by rewrite IH. }
  rewrite Ec at 1. apply Hother; [|by rewrite Eus].
  destruct Hwf as [Hl Hm _ Htr Hne Hfew Hsh]. constructor; [constructor|done|done|by left| |lia|].
  - intros ->. destruct ts; [done|simpl in Hlus; lia].
  - rewrite <- Ec. pose proof (canon_length metric ts trail σ lead Hσ). lia.
Qed.

End Names.

Definition sample_tags : list (chars * (chars * chars)) := [([32; 9], (str "host", str "b\ c")); ([], (str "dc", str "x"))].

Lemma canonical_form_unique_witness : ∃ σ, σ ≡ₚ [str "host=b\ c"; str "dc=x"] ∧
  Parse.to_canonical_form (str "  cpu   " ++ [9] ++ str "host=b\ c dc=x") 0x1000 = Some (kOk, canon (str "cpu") σ, 4%nat) ∧
  Parse.to_canonical_form (str "cpu dc=x host=b\ c ") 0x1000 = Some (kOk, canon (str "cpu") σ, 4%nat).
Proof.
  destruct (canonical_form_unique (str "  ") (str "cpu") sample_tags []) as (σ&Hσ&_&E&_&Hother&_).
  - constructor; try by_compute; try (by left).
    + exists 99, (str "pu"). by_compute.
    + constructor; [split; [by_compute|split_and!; [by_compute..| |by_compute]; exists 104, (str "ost=b\ c"); by_compute]|].
      constructor; [split; [by_compute|split_and!; [by_compute..| |by_compute]; exists 100, (str "c=x"); by_compute]|constructor].
  - by_compute.
  - exists σ. split; [exact Hσ|]. split; [exact E|].
    apply (Hother [] [([], (str "dc", str "x")); ([], (str "host", str "b\ c"))] [32]).
    + constructor; try by_compute.
      * exists 99, (str "pu"). by_compute.
      * constructor; [split; [by_compute|split_and!; [by_compute..| |by_compute]; exists 100, (str "c=x"); by_compute]|].
        constructor; [split; [by_compute|split_and!; [by_compute..| |by_compute]; exists 104, (str "ost=b\ c"); by_compute]|constructor].
      * right. exists []. by_compute.
    + apply Permutation_swap.
Defined.
