(* ===== verification/InvIndex.v ===== *)
(** * The inverted index of series names (invertedindex.h, invertedindex.cc)

    [Index] keeps every series name in a pool and, for each metric and each
    [tag=value] pair, the postings list of the names that have it, under the hash
    of its characters.  Queries combine postings lists and check the names they
    find, since two strings may have one hash.  [SeriesNameTopology] lists
    metrics, tags and values.  Hash tables are finite maps; where the code
    iterates over one, the order is that of the map. *)
From stdpp Require Import sorting.
From S2P Require Import Prelude Status StringPool SeriesName PList.

(** ** Scanning a name in normal form

    These functions do not know escaped spaces. *)

Module Scan.
Import Parse.

Fixpoint key_loop (p : chars) : chars * chars :=
  match p with
  | [] => ([], [])
  | c :: q => if decide (c = EQ) then ([], p) else if is_space c then ([], p) else let '(t, r) := key_loop q in (c :: t, r)
  end.
Fixpoint value_loop (p : chars) : chars * chars :=
  match p with
  | [] => ([], [])
  | c :: q => if decide (c = SPACE) then ([], p) else let '(t, r) := value_loop q in (c :: t, r)
  end.

(** The error flag, the characters passed and the pointer returned. *)
Definition skip_tag (p : chars) : bool * chars * chars :=
  let '(key, q) := key_loop p in
  match q with
  | EQ :: _ => let '(val, c) := value_loop q in (bool_decide (val = []), key ++ val, c)
  | _ => (true, p, [])
  end.

(** The loop to the next space, which does not stop at the end. *)
Fixpoint to_space (p : chars) : option (chars * chars) :=
  match p with
  | [] => None
  | c :: q => if decide (c = SPACE) then Some ([], p) else '(t, r) ← to_space q; Some (c :: t, r)
  end.

Definition skip_metric_name (s : chars) : option chars :=
  match skip_space s with
  | [] => Some []
  | p => '(m, _) ← to_space p; Some m
  end.

Fixpoint split_pair (s : chars) : option (chars * chars) :=
  match s with
  | [] => None
  | c :: s => if decide (c = EQ) then Some ([], s) else '(t, v) ← split_pair s; Some (c :: t, v)
  end.

End Scan.

(** ** [InvertedIndex] *)

Notation InvertedIndex := (gmap Z CompressedPList).

Module Inverted.

Definition add (key value : Z) (table : InvertedIndex) : option InvertedIndex :=
  val ← PList.add value (default PList.make (table !! key));
  Some (<[key := val]> table).

(** A copy of the list. *)
Definition extract (value : Z) (table : InvertedIndex) : option CompressedPList :=
  match table !! value with None => Some PList.make | Some p => PList.copy p end.

End Inverted.

(** [write_tags]: the index and the error flag. *)
Fixpoint write_tags (fuel : nat) (p : chars) (err : bool) (dest : InvertedIndex) (id : Z) : option (bool * InvertedIndex) :=
  match fuel with
  | O => None
  | S fuel =>
    if negb err && bool_decide (p ≠ []) then
      let '(err, tag, rest) := Scan.skip_tag (Parse.skip_space p) in
      dest ← Inverted.add (StringTools.hash tag) id dest;
      write_tags fuel rest err dest id
    else Some (err, dest)
  end.

(** ** [MetricName] and [TagValuePair] *)

Module MetricName.
Definition check (name s : chars) : option bool :=
  m ← Scan.skip_metric_name s;
  Some (if decide (m = []) then false else bool_decide (m = name)).
End MetricName.

Module TagValuePair.

Fixpoint check_loop (fuel : nat) (value p : chars) (error : bool) : option bool :=
  match fuel with
  | O => None
  | S fuel =>
    if negb error && bool_decide (p ≠ []) then
      let '(error, tag, rest) := Scan.skip_tag p in
      if decide (tag = value) then Some true else check_loop fuel value (Parse.skip_space rest) error
    else Some false
  end.

Definition check (value s : chars) : option bool :=
  match Parse.skip_space s with
  | [] => Some false
  | p =>
    '(_, p) ← Scan.to_space p;
    match Parse.skip_space p with
    | [] => Some false
    | p => check_loop (S (length p)) value p false
    end
  end.

End TagValuePair.

(** ** [IndexQueryResults]

    A postings list; [spool_] is the pool of the index, an argument of the
    functions that read names. *)

Module Results.

Definition intersection (r s : CompressedPList) : option CompressedPList := PList.and_ r s.
Definition difference (r s : CompressedPList) : option CompressedPList := PList.xor_ r s.
Definition join (r s : CompressedPList) : option CompressedPList := PList.or_ r s.
Definition unique (r : CompressedPList) : option CompressedPList := PList.unique r.

Section Filter.
Variable pool : StringPool.

(** The ids with whether their name passes. *)
Fixpoint checks (check : chars → option bool) (ids : list Z) : option (list (Z * bool)) :=
  match ids with
  | [] => Some []
  | id :: ids =>
    s ← Pool.str_ id pool;
    ok ← check s;
    rest ← checks check ids;
    Some ((id, ok) :: rest)
  end.

Fixpoint add_ids (ids : list Z) (p : CompressedPList) : option CompressedPList :=
  match ids with
  | [] => Some p
  | id :: ids => p ← PList.add id p; add_ids ids p
  end.

(** [filter] of one value: a new list only if a name fails. *)
Definition filter (check : chars → option bool) (r : CompressedPList) : option CompressedPList :=
  ids ← PList.values r;
  cs ← checks check ids;
  if decide (Forall (λ x, x.2 = true) cs) then PList.copy r
  else add_ids ((base.filter (λ x, x.2 = true) cs).*1) PList.make.

(** One of several values passes. *)
Fixpoint any (cs : list (chars → option bool)) (s : chars) : option bool :=
  match cs with
  | [] => Some false
  | check :: cs => ok ← check s; if ok : bool then Some true else any cs s
  end.

(** [filter] of a vector of values: when a name fails, the flag [add] of the
    second loop is declared inside the loop over the values, which is left with
    [break] as soon as it is set, so that nothing is added. *)
Definition filter_any (cs : list (chars → option bool)) (r : CompressedPList) : option CompressedPList :=
  ids ← PList.values r;
  cs ← checks (any cs) ids;
  if decide (Forall (λ x, x.2 = true) cs) then PList.copy r else Some PList.make.

(** The names of the results. *)
Definition names (r : CompressedPList) : option (list chars) :=
  ids ← PList.values r; mapM (λ id, Pool.str_ id pool) ids.

End Filter.

End Results.

(** ** [SeriesNameTopology] *)

Notation SeriesNameTopology := (gmap chars (gmap chars (gset chars))).

Module Topology.

(** A pair without [=] goes to the empty tag with the empty value. *)
Fixpoint tags_loop (fuel : nat) (p : chars) (error : bool) (tagtable : gmap chars (gset chars)) : option (gmap chars (gset chars)) :=
  match fuel with
  | O => None
  | S fuel =>
    if negb error && bool_decide (p ≠ []) then
      let '(error, tag, rest) := Scan.skip_tag p in
      let '(error, t, v) := match Scan.split_pair tag with Some (t, v) => (error, t, v) | None => (true, [], []) end in
      tags_loop fuel (Parse.skip_space rest) error (<[t := {[v]} ∪ default ∅ (tagtable !! t)]> tagtable)
    else Some tagtable
  end.

Definition add_name (name : chars) (index : SeriesNameTopology) : option SeriesNameTopology :=
  metric ← Scan.skip_metric_name name;
  let tagtable := default ∅ (index !! metric) in
  let p := Parse.skip_space (drop (length metric) name) in
  tagtable ← (if decide (p = []) then Some tagtable else tags_loop (S (length p)) p false tagtable);
  Some (<[metric := tagtable]> index).

Definition list_metric_names (index : SeriesNameTopology) : list chars := (map_to_list index).*1.
Definition list_tags (metric : chars) (index : SeriesNameTopology) : list chars :=
  match index !! metric with None => [] | Some t => (map_to_list t).*1 end.
Definition list_tag_values (metric tag : chars) (index : SeriesNameTopology) : list chars :=
  match index !! metric with
  | None => []
  | Some t => match t !! tag with None => [] | Some vs => elements vs end
  end.

End Topology.

(** ** [Index] *)

Record Index := mkIndex {
  ix_pool : StringPool;
  ix_table : gmap chars Z;
  ix_metrics : InvertedIndex;    (* metrics_names_ *)
  ix_tags : InvertedIndex;       (* tagvalue_pairs_ *)
  ix_topology : SeriesNameTopology;
}.

Module Idx.

Definition make : Index := mkIndex Pool.make ∅ ∅ ∅ ∅.

Definition cardinality (ix : Index) : nat := size (ix_table ix).

Section Append.
Context `{StdSort}.

(** The status and the name as it is stored. *)
Definition append (s : chars) (ix : Index) : option (Status * chars * Index) :=
  '(status, name, tags_begin) ← Parse.to_canonical_form s 0x1000;
  if decide (status ≠ kOk) then Some (status, [], ix) else
  match ix_table ix !! name with
  | Some _ => Some (kOk, name, ix)
  | None =>
    '(id, pool) ← Pool.add name (ix_pool ix);
    let tags := drop tags_begin name in
    '(_, tagvalue_pairs) ← write_tags (S (length tags)) tags false (ix_tags ix) id;
    stored ← Pool.str_ id pool;
    let table := <[stored := id]> (ix_table ix) in
    mname ← Scan.skip_metric_name (take tags_begin name);
    if decide (mname = []) then Some (kBadData, [], mkIndex pool table (ix_metrics ix) tagvalue_pairs (ix_topology ix)) else
    metrics_names ← Inverted.add (StringTools.hash mname) id (ix_metrics ix);
    topology ← Topology.add_name stored (ix_topology ix);
    Some (kOk, stored, mkIndex pool table metrics_names tagvalue_pairs topology)
  end.

End Append.

Definition tagvalue_query (value : chars) (ix : Index) : option CompressedPList :=
  Inverted.extract (StringTools.hash value) (ix_tags ix).
Definition metric_query (value : chars) (ix : Index) : option CompressedPList :=
  Inverted.extract (StringTools.hash value) (ix_metrics ix).
Definition list_metric_names (ix : Index) : list chars := Topology.list_metric_names (ix_topology ix).
Definition list_tags (metric : chars) (ix : Index) : list chars := Topology.list_tags metric (ix_topology ix).
Definition list_tag_values (metric tag : chars) (ix : Index) : list chars := Topology.list_tag_values metric tag (ix_topology ix).

End Idx.

(** ** Queries *)

Inductive IndexQueryNode :=
  | IncludeIfAllTagsMatch (metric : chars) (pairs : list chars)
  | IncludeMany2Many (metric : chars) (tags : list (chars * list chars))   (* a map: keys in rising order *)
  | IncludeIfHasTag (metric : chars) (tagnames : list chars)
  | ExcludeTags (metric : chars) (pairs : list chars)
  | JoinByTags (metrics pairs : list chars).

Module Query.
Section Queries.
Variable ix : Index.
Notation filter := (Results.filter (ix_pool ix)).
Notation filter_any := (Results.filter_any (ix_pool ix)).
Notation tag_checks pairs := (TagValuePair.check <$> pairs).

(** Combining the results so far with those of each pair. *)
Fixpoint fold_pairs (op : CompressedPList → CompressedPList → option CompressedPList) (pairs : list chars)
    (results : CompressedPList) : option CompressedPList :=
  match pairs with
  | [] => Some results
  | tv :: pairs => res ← Idx.tagvalue_query tv ix; results ← op results res; fold_pairs op pairs results
  end.

Definition include_all (metric : chars) (pairs : list chars) : option CompressedPList :=
  results ← Idx.metric_query metric ix;
  results ← fold_pairs Results.intersection pairs results;
  results ← filter (MetricName.check metric) results;
  filter_any (tag_checks pairs) results.

Definition pair_of (tag value : chars) : chars := tag ++ EQ :: value.

Definition join_unique (r s : CompressedPList) : option CompressedPList := r ← Results.join r s; Results.unique r.

(** The loop over the tags: [None] in the place of the result means [first]. *)
Fixpoint many_loop (tags : list (chars * list chars)) (tgv : list chars) (final_res : option CompressedPList)
    : option (list chars * option CompressedPList) :=
  match tags with
  | [] => Some (tgv, final_res)
  | (tag, []) :: tags => many_loop tags tgv final_res
  | (tag, value :: values) :: tags =>
    results ← Idx.tagvalue_query (pair_of tag value) ix;
    results ← fold_pairs join_unique (pair_of tag <$> values) results;
    final_res ← match final_res with None => Some results | Some f => Results.intersection f results end;
    many_loop tags (tgv ++ (pair_of tag <$> value :: values)) (Some final_res)
  end.

Definition many2many (metric : chars) (tags : list (chars * list chars)) : option CompressedPList :=
  '(tgv, final_res) ← many_loop tags [] None;
  allmetric ← Idx.metric_query metric ix;
  match final_res with
  | None => filter (MetricName.check metric) allmetric
  | Some final_res =>
    final_res ← Results.intersection final_res allmetric;
    final_res ← filter (MetricName.check metric) final_res;
    filter_any (tag_checks tgv) final_res
  end.

(** [pairs[tag] = values] in a [std::map], whose keys compare as bytes. *)
Fixpoint string_lt (a b : chars) : bool :=
  match a, b with
  | _, [] => false
  | [], _ => true
  | x :: a, y :: b => if decide (x < y) then true else if decide (y < x) then false else string_lt a b
  end.
Fixpoint map_insert (tag : chars) (values : list chars) (m : list (chars * list chars)) : list (chars * list chars) :=
  match m with
  | [] => [(tag, values)]
  | (t, vs) :: m' =>
    if decide (t = tag) then (tag, values) :: m'
    else if string_lt tag t then (tag, values) :: m
    else (t, vs) :: map_insert tag values m'
  end.

Definition has_tag (metric : chars) (tagnames : list chars) : option CompressedPList :=
  many2many metric (foldl (λ m tag, map_insert tag (Idx.list_tag_values metric tag ix) m) [] tagnames).

Definition exclude (metric : chars) (pairs : list chars) : option CompressedPList :=
  results ← Idx.metric_query metric ix;
  results ← fold_pairs Results.difference pairs results;
  filter (MetricName.check metric) results.

Fixpoint fold_metrics (metrics : list chars) (results : CompressedPList) : option CompressedPList :=
  match metrics with
  | [] => Some results
  | m :: metrics => res ← Idx.metric_query m ix; results ← Results.join results res; fold_metrics metrics results
  end.

(** The differences are computed and not used. *)
Fixpoint discard_pairs (pairs : list chars) (results : CompressedPList) : option unit :=
  match pairs with
  | [] => Some tt
  | tv :: pairs => res ← Idx.tagvalue_query tv ix; _ ← Results.difference results res; discard_pairs pairs results
  end.

Definition join_by_tags (metrics pairs : list chars) : option CompressedPList :=
  results ← fold_metrics metrics PList.make;
  _ ← discard_pairs pairs results;
  results ← filter_any (MetricName.check <$> metrics) results;
  filter_any (tag_checks pairs) results.

Definition query (q : IndexQueryNode) : option CompressedPList :=
  match q with
  | IncludeIfAllTagsMatch metric pairs => include_all metric pairs
  | IncludeMany2Many metric tags => many2many metric tags
  | IncludeIfHasTag metric tagnames => has_tag metric tagnames
  | ExcludeTags metric pairs => exclude metric pairs
  | JoinByTags metrics pairs => join_by_tags metrics pairs
  end.

End Queries.
End Query.
