(* ===== verification/InvIndexProof.v ===== *)
(** * The inverted index finds exactly the series that match

    The index refines the list of the names that were added: [ix_holds ix es].
    Queries over postings lists return the ids of the series that satisfy the
    query, provided that no tag in the index has the hash of a queried pair by
    accident; a metric with the hash of another one is told apart. *)
From stdpp Require Import sorting.
From S2P Require Import Prelude Status StringPool SeriesName SeriesNameProof ByteStream Base128 PList PListProof InvIndex.

(** ** Names without escapes *)

Definition plain_metric (m : chars) : Prop := m ≠ [] ∧ Forall (λ c, Parse.is_space c = false) m.
Definition plain_tag (t : chars) : Prop :=
  ∃ k v, t = k ++ EQ :: v ∧ k ≠ [] ∧ EQ ∉ k ∧ Forall (λ c, Parse.is_space c = false) k ∧ SPACE ∉ v.

(** The tags after the metric of a name in normal form. *)
Definition rest (σ : list chars) : chars := concat ((λ t, SPACE :: t) <$> σ).

Lemma rest_boundary σ : boundary (rest σ).
Proof. destruct σ as [|t σ]; [by left|right; by eexists]. Qed.

Section Scan.

Lemma blank_space c : Parse.is_space c = false → c ≠ SPACE ∧ c ≠ TAB.
Proof. unfold Parse.is_space. rewrite bool_decide_eq_false. tauto. Qed.

Lemma skip_space_first c s : Parse.is_space c = false → Parse.skip_space (c :: s) = c :: s.
Proof. intros Hc. simpl. by rewrite Hc. Qed.

Lemma skip_space_metric m r : plain_metric m → Parse.skip_space (m ++ r) = m ++ r.
Proof. intros [Hne Hf]. destruct m as [|c m]; [done|]. apply Forall_cons in Hf as [Hc _]. by apply skip_space_first. Qed.

Lemma skip_space_tag t r : plain_tag t → Parse.skip_space (t ++ r) = t ++ r.
Proof.
  intros (k&v&->&Hne&_&Hf&_). destruct k as [|c k]; [done|]. apply Forall_cons in Hf as [Hc _]. by apply skip_space_first.
Qed.

Lemma skip_space_rest t σ : plain_tag t → Parse.skip_space (rest (t :: σ)) = t ++ rest σ.
Proof. intros Ht. unfold rest. rewrite fmap_cons. cbn [concat app]. simpl. by apply skip_space_tag. Qed.

Lemma to_space_ok m r : SPACE ∉ m → Scan.to_space (m ++ SPACE :: r) = Some (m, SPACE :: r).
Proof.
  induction m as [|c m IH]; intros Hm; [done|]. apply not_elem_of_cons in Hm as [Hc Hm]. simpl. rewrite decide_False by done. by rewrite IH.
Qed.

Lemma metric_no_space m : plain_metric m → SPACE ∉ m.
Proof. intros [_ Hf] Hin. rewrite Forall_forall in Hf. by destruct (blank_space _ (Hf _ Hin)). Qed.

Lemma skip_metric_ok m r : plain_metric m → Scan.skip_metric_name (m ++ SPACE :: r) = Some m.
Proof.
  intros Hm. unfold Scan.skip_metric_name. rewrite skip_space_metric by done.
  assert (∃ c q, m ++ SPACE :: r = c :: q) as (c&q&E) by (destruct Hm as [Hne _]; destruct m; [done|by eexists _, _]).
  rewrite E. cbn iota. rewrite <- E, to_space_ok by (by apply metric_no_space). done.
Qed.

Lemma scan_value_ok v r : SPACE ∉ v → boundary r → Scan.value_loop (v ++ r) = (v, r).
Proof.
  induction v as [|c v IH]; intros Hv Hr; [by destruct Hr as [->|[q ->]]|]. apply not_elem_of_cons in Hv as [Hc Hv]. simpl.
  rewrite decide_False by done. by rewrite IH.
Qed.

Lemma scan_key_ok k r : EQ ∉ k → Forall (λ c, Parse.is_space c = false) k → Scan.key_loop (k ++ EQ :: r) = (k, EQ :: r).
Proof.
  induction k as [|c k IH]; intros Hk Hf; [done|]. apply not_elem_of_cons in Hk as [Hc Hk]. apply Forall_cons in Hf as [Hb Hf]. simpl.
  rewrite decide_False by done. by rewrite Hb, IH.
Qed.

Lemma scan_tag_ok t r : plain_tag t → boundary r → Scan.skip_tag (t ++ r) = (false, t, r).
Proof.
  intros (k&v&->&Hne&Hk&Hf&Hv) Hr. unfold Scan.skip_tag. rewrite <- app_assoc. cbn [app]. rewrite scan_key_ok by done.
  change (EQ :: v ++ r) with ((EQ :: v) ++ r). rewrite scan_value_ok by (done || by apply not_elem_of_cons). done.
Qed.

Lemma plain_tag_cons t : plain_tag t → ∃ c q, t = c :: q.
Proof. intros (k&v&->&Hne&_). destruct k; [done|]. by eexists _, _. Qed.

Lemma split_pair_ok k v : EQ ∉ k → Scan.split_pair (k ++ EQ :: v) = Some (k, v).
Proof.
  induction k as [|c k IH]; intros Hk; [done|]. apply not_elem_of_cons in Hk as [Hc Hk]. simpl. rewrite decide_False by done. by rewrite IH.
Qed.

(** *** Checks of a name *)

Lemma check_metric_ok name m t σ : plain_metric m → MetricName.check name (m ++ rest (t :: σ)) = Some (bool_decide (m = name)).
Proof.
  intros Hm. unfold MetricName.check, rest. rewrite fmap_cons. cbn [concat app]. rewrite skip_metric_ok by done. cbn [mbind option_bind].
  destruct Hm as [Hne _]. by rewrite decide_False.
Qed.

Lemma check_loop_ok fuel value t σ error :
  error = false → plain_tag t → Forall plain_tag σ → (S (length σ) < fuel)%nat →
  TagValuePair.check_loop fuel value (t ++ rest σ) error = Some (bool_decide (value ∈ t :: σ)).
Proof.
  intros ->. revert t σ. induction fuel as [|fuel IH]; intros t σ Ht Hσ Hf; [lia|]. cbn [TagValuePair.check_loop].
  destruct (plain_tag_cons t Ht) as (c&q&Et). rewrite bool_decide_eq_true_2 by (rewrite Et; done). simpl andb. cbn iota.
  rewrite scan_tag_ok by (done || apply rest_boundary). cbn iota beta. case_decide as He.
  - subst value. by rewrite bool_decide_eq_true_2 by (by left).
  - destruct σ as [|t' σ].
    + change (rest []) with (@nil Z). simpl Parse.skip_space. destruct fuel; [simpl in Hf; lia|]. cbn [TagValuePair.check_loop]. simpl.
      rewrite bool_decide_eq_false_2; [done|]. intros [->|Hx]%elem_of_cons; [done|]. by apply not_elem_of_nil in Hx.
    + apply Forall_cons in Hσ as [Ht' Hσ]. rewrite skip_space_rest by done. simpl in Hf. rewrite IH by (done || lia).
      f_equal. apply bool_decide_ext. rewrite (elem_of_cons (t' :: σ)). intuition congruence.
Qed.

Lemma length_rest σ : (length σ ≤ length (rest σ))%nat.
Proof. induction σ as [|t σ IH]; [done|]. unfold rest in *. rewrite fmap_cons. cbn [concat app length]. rewrite length_app. lia. Qed.

Lemma check_tag_ok value m t σ :
  plain_metric m → plain_tag t → Forall plain_tag σ → TagValuePair.check value (m ++ rest (t :: σ)) = Some (bool_decide (value ∈ t :: σ)).
Proof.
  intros Hm Ht Hσ. unfold TagValuePair.check. rewrite skip_space_metric by done. change (rest (t :: σ)) with (SPACE :: t ++ rest σ).
  assert (∃ c' q', m ++ SPACE :: t ++ rest σ = c' :: q') as (c'&q'&Eq) by (destruct Hm as [Hne _]; destruct m; [done|by eexists _, _]).
  rewrite Eq. cbn iota.
  rewrite <- Eq, to_space_ok by (by apply metric_no_space). cbn [mbind option_bind].
  change (SPACE :: t ++ rest σ) with (rest (t :: σ)). rewrite skip_space_rest by done.
  destruct (plain_tag_cons t Ht) as (c2&q2&Et). assert (t ++ rest σ = c2 :: q2 ++ rest σ) as E2 by (by rewrite Et). rewrite E2. cbn iota.
  rewrite <- E2. apply check_loop_ok; try done. rewrite length_app, Et. pose proof (length_rest σ). simpl. lia.
Qed.

End Scan.

(** ** Postings *)

(** Every list of the table holds the ids that [post] says. *)
Definition inv_ok (table : InvertedIndex) (post : Z → list Z) : Prop := ∀ h, holds (default PList.make (table !! h)) (post h).

Lemma inverted_add key id table post :
  inv_ok table post → is_u64 id →
  ∃ table', Inverted.add key id table = Some table' ∧ inv_ok table' (λ h, post h ++ (if decide (key = h) then [id] else [])).
Proof.
  intros Hi Hid. unfold Inverted.add. destruct (add_holds _ _ id (Hi key) Hid) as (p&->&Hp). cbn [mbind option_bind].
  eexists. split; [reflexivity|]. intros h. destruct (decide (key = h)) as [->|Hne].
  - by rewrite lookup_insert_eq.
  - rewrite lookup_insert_ne by done. rewrite app_nil_r. apply Hi.
Qed.

Lemma inverted_extract h table post : inv_ok table post → ∃ p, Inverted.extract h table = Some p ∧ shows p (post h).
Proof.
  intros Hi. unfold Inverted.extract. specialize (Hi h). destruct (table !! h) as [p|].
  - destruct Hi as [Hs _]. apply (copy_shows _ _ Hs).
  - exists PList.make. split; [done|]. apply Hi.
Qed.

(** The postings of the tags of one name. *)
Definition tag_post (id : Z) (σ : list chars) (h : Z) : list Z := σ ≫= λ t, if decide (StringTools.hash t = h) then [id] else [].

Lemma write_tags_ok fuel σ table post id :
  inv_ok table post → is_u64 id → Forall plain_tag σ → (length σ < fuel)%nat →
  ∃ table', write_tags fuel (rest σ) false table id = Some (false, table') ∧ inv_ok table' (λ h, post h ++ tag_post id σ h).
Proof.
  revert σ table post. induction fuel as [|fuel IH]; intros σ table post Hi Hid Hσ Hf; [lia|]. cbn [write_tags]. destruct σ as [|t σ].
  { exists table. split; [done|]. intros h. unfold tag_post. simpl. by rewrite app_nil_r. }
  apply Forall_cons in Hσ as [Ht Hσ]. rewrite bool_decide_eq_true_2 by done. simpl andb. cbn iota. rewrite skip_space_rest by done.
  rewrite scan_tag_ok by (done || apply rest_boundary). cbn iota beta.
  destruct (inverted_add (StringTools.hash t) id table post Hi Hid) as (t1&->&H1). cbn [mbind option_bind]. simpl in Hf.
  destruct (IH σ t1 _ H1 Hid Hσ ltac:(lia)) as (t2&->&H2). exists t2. split; [done|]. intros h. specialize (H2 h).
  unfold tag_post in *. simpl. by rewrite app_assoc.
Qed.

(** ** The index and the list of its series *)

Record series := mkSeries { se_id : Z; se_metric : chars; se_tags : list chars }.

Definition name_of (e : series) : chars := canon (se_metric e) (se_tags e).

(** A metric and tags that the index can take. *)
Definition series_ok (m : chars) (σ : list chars) : Prop :=
  plain_metric m ∧ Forall plain_tag σ ∧ σ ≠ [] ∧ (length σ ≤ 32)%nat ∧ Pool.name_ok (canon m σ).

Definition metric_post (es : list series) (h : Z) : list Z :=
  es ≫= λ e, if decide (StringTools.hash (se_metric e) = h) then [se_id e] else [].
Definition tags_post (es : list series) (h : Z) : list Z := es ≫= λ e, tag_post (se_id e) (se_tags e) h.

Record ix_holds (k : nat) (ix : Index) (es : list series) : Prop := {
  ih_pool : Pool.pool_ok k (ix_pool ix);
  ih_stored : Forall (λ e, Pool.stored (ix_pool ix) (se_id e) (name_of e)) es;
  ih_ids : StronglySorted Z.lt (se_id <$> es);
  ih_range : Forall (λ e, 0 < se_id e < Pool.top (ix_pool ix) ∧ is_u64 (se_id e)) es;
  ih_table name id : ix_table ix !! name = Some id ↔ ∃ e, e ∈ es ∧ name_of e = name ∧ se_id e = id;
  ih_metrics : inv_ok (ix_metrics ix) (metric_post es);
  ih_tags : inv_ok (ix_tags ix) (tags_post es);
  ih_topology m t v : v ∈ (default ∅ (default ∅ (ix_topology ix !! m) !! t) : gset chars) ↔
    ∃ e u, e ∈ es ∧ se_metric e = m ∧ u ∈ se_tags e ∧ Scan.split_pair u = Some (t, v);
  ih_ok : Forall (λ e, series_ok (se_metric e) (se_tags e)) es;
  ih_size : Z.of_nat (length es) + Z.of_nat k < 2 ^ 32;
}.

Lemma make_holds_index k : Z.of_nat k < 2 ^ 32 → ix_holds k Idx.make [].
Proof.
  intros Hk. split.
  - by apply Pool.make_ok.
  - constructor.
  - constructor.
  - constructor.
  - intros name id. simpl. rewrite lookup_empty. split; [done|]. intros (e&He&_). by apply not_elem_of_nil in He.
  - intros h. simpl. rewrite lookup_empty. apply make_holds.
  - intros h. simpl. rewrite lookup_empty. apply make_holds.
  - intros m t v. simpl. rewrite lookup_empty. simpl. rewrite lookup_empty. simpl. split; [set_solver|]. intros (e&u&He&_). by apply not_elem_of_nil in He.
  - constructor.
  - simpl. lia.
Qed.

Lemma canon_inj m m' σ σ' : series_ok m σ → series_ok m' σ' → canon m σ = canon m' σ' → m = m' ∧ σ = σ'.
Proof.
  intros (Hm&Hσ&Hne&_) (Hm'&Hσ'&Hne'&_) E. destruct σ as [|t σ]; [done|]. destruct σ' as [|t' σ']; [done|].
  change (m ++ SPACE :: (t ++ rest σ) = m' ++ SPACE :: (t' ++ rest σ')) in E.
  pose proof (skip_metric_ok m (t ++ rest σ) Hm) as H1. rewrite E, skip_metric_ok in H1 by done. injection H1 as ->. split; [done|].
  apply app_inv_head in E. injection E as E. clear Hm Hm' Hne Hne'.
  revert t t' σ' Hσ Hσ' E. induction σ as [|u σ IH]; intros t t' σ' [Ht Hσ]%Forall_cons [Ht' Hσ']%Forall_cons E;
    pose proof (λ r, scan_tag_ok t (rest r) Ht (rest_boundary r)) as H1.
  - specialize (H1 []). rewrite E, (scan_tag_ok t' _ Ht' (rest_boundary _)) in H1. injection H1 as -> Er. by destruct σ'.
  - specialize (H1 (u :: σ)). rewrite E, (scan_tag_ok t' _ Ht' (rest_boundary _)) in H1. injection H1 as -> Er. destruct σ' as [|u' σ']; [done|].
    f_equal. change (SPACE :: (u' ++ rest σ') = SPACE :: (u ++ rest σ)) in Er. injection Er as Er. by apply IH.
Qed.

(** *** The topology *)

Lemma tags_loop_ok fuel t σ tab :
  plain_tag t → Forall plain_tag σ → (S (length σ) < fuel)%nat →
  ∃ tab', Topology.tags_loop fuel (t ++ rest σ) false tab = Some tab' ∧
    ∀ k v, v ∈ (default ∅ (tab' !! k) : gset chars) ↔ v ∈ default ∅ (tab !! k) ∨ ∃ u, u ∈ t :: σ ∧ Scan.split_pair u = Some (k, v).
Proof.
  revert t σ tab. induction fuel as [|fuel IH]; intros t σ tab Ht Hσ Hf; [lia|]. cbn [Topology.tags_loop].
  destruct (plain_tag_cons t Ht) as (c&q&Et). rewrite bool_decide_eq_true_2 by (rewrite Et; done). simpl andb. cbn iota.
  rewrite scan_tag_ok by (done || apply rest_boundary). cbn iota beta.
  assert (∃ k0 v0, Scan.split_pair t = Some (k0, v0)) as (k0&v0&Es) by (destruct Ht as (k0&v0&->&_&Hk&_); exists k0, v0; by apply split_pair_ok).
  rewrite Es. set (tab1 := <[k0 := _]> tab).
  assert (H1 : ∀ k v, v ∈ (default ∅ (tab1 !! k) : gset chars) ↔ v ∈ default ∅ (tab !! k) ∨ Scan.split_pair t = Some (k, v)).
  { intros k v. unfold tab1. destruct (decide (k = k0)) as [->|Hne].
    - rewrite lookup_insert_eq. simpl. rewrite elem_of_union, elem_of_singleton, Es. intuition congruence.
    - rewrite lookup_insert_ne by done. rewrite Es. intuition congruence. }
  destruct σ as [|t' σ].
  - change (rest []) with (@nil Z). simpl Parse.skip_space. destruct fuel; [simpl in Hf; lia|]. exists tab1. split; [done|]. intros k v.
    rewrite H1. split; [intros [?|?]; [by left|right; exists t; split; [by left|done]]|].
    intros [?|(u&Hu&?)]; [by left|]. apply list_elem_of_singleton in Hu as ->. by right.
  - apply Forall_cons in Hσ as [Ht' Hσ]. rewrite skip_space_rest by done. simpl in Hf.
    destruct (IH t' σ tab1 Ht' Hσ ltac:(lia)) as (tab'&->&H2). exists tab'. split; [done|]. intros k v. rewrite H2, H1. split.
    + intros [[?|?]|(u&Hu&?)]; [by left|right; exists t; split; [by left|done]|right; exists u; split; [by right|done]].
    + intros [?|(u&[->|Hu]%elem_of_cons&?)]; [by left; left|by left; right|right; by exists u].
Qed.

Lemma add_name_ok m t σ topo :
  plain_metric m → plain_tag t → Forall plain_tag σ →
  ∃ topo', Topology.add_name (m ++ rest (t :: σ)) topo = Some topo' ∧
    ∀ m' k v, v ∈ (default ∅ (default ∅ (topo' !! m') !! k) : gset chars) ↔
      v ∈ default ∅ (default ∅ (topo !! m') !! k) ∨ m' = m ∧ ∃ u, u ∈ t :: σ ∧ Scan.split_pair u = Some (k, v).
Proof.
  intros Hm Ht Hσ. unfold Topology.add_name. pose proof (skip_metric_ok m (t ++ rest σ) Hm) as E.
  change (SPACE :: t ++ rest σ) with (rest (t :: σ)) in E. rewrite E.
  cbn [mbind option_bind]. rewrite drop_app_length, skip_space_rest by done. destruct (plain_tag_cons t Ht) as (c&q&Et).
  rewrite decide_False by (rewrite Et; done).
  destruct (tags_loop_ok (S (length (t ++ rest σ))) t σ (default ∅ (topo !! m)) Ht Hσ) as (tab&->&Htab).
  { rewrite length_app, Et. pose proof (length_rest σ). simpl. lia. }
  cbn [mbind option_bind]. eexists. split; [reflexivity|]. intros m' k v. destruct (decide (m' = m)) as [->|Hne].
  - rewrite lookup_insert_eq. simpl. rewrite Htab. intuition.
  - rewrite lookup_insert_ne by done. intuition.
Qed.

(** *** [append] *)

Section Append.
Context `{StdSort}.

Lemma index_append_ok k ix es s m σ :
  ix_holds (S k) ix es → Parse.to_canonical_form s 0x1000 = Some (kOk, canon m σ, S (length m)) → series_ok m σ →
  (∃ e, e ∈ es ∧ se_metric e = m ∧ se_tags e = σ ∧ Idx.append s ix = Some (kOk, canon m σ, ix)) ∨
  (∃ id ix', Idx.append s ix = Some (kOk, canon m σ, ix') ∧ ix_holds k ix' (es ++ [mkSeries id m σ]) ∧
    ∀ e, e ∈ es → ¬ (se_metric e = m ∧ se_tags e = σ)).
Proof.
  intros Hix Hcan Hok. unfold Idx.append. rewrite Hcan. cbn [mbind option_bind]. rewrite decide_False by (intros Hx; by apply Hx).
  destruct (ix_table ix !! canon m σ) as [id0|] eqn:Et.
  { left. apply (ih_table _ _ _ Hix) in Et as (e&He&En&_). exists e. pose proof (ih_ok _ _ _ Hix) as Hall. rewrite Forall_forall in Hall.
    destruct (canon_inj _ _ _ _ (Hall e He) Hok En). done. }
  right. pose proof Hok as (Hm&Hσ&Hne&Hlen&Hname).
  destruct (Pool.add_ok k (ix_pool ix) (canon m σ) (ih_pool _ _ _ Hix) Hname) as (id&pool&->&Hpool&Hst&Htop&Hid&Hmono&_).
  cbn [mbind option_bind]. destruct σ as [|t σ]; [done|]. apply Forall_cons in Hσ as [Ht Hσ].
  assert (Hu : is_u64 id) by (unfold is_u64; lia).
  assert (Edrop : drop (S (length m)) (canon m (t :: σ)) = t ++ rest σ).
  { change (canon m (t :: σ)) with (m ++ SPACE :: (t ++ rest σ)). rewrite <- Nat.add_1_r, <- drop_drop, drop_app_length. done. }
  assert (Etake : take (S (length m)) (canon m (t :: σ)) = m ++ SPACE :: []).
  { change (canon m (t :: σ)) with (m ++ [SPACE] ++ (t ++ rest σ)). rewrite app_assoc.
    replace (S (length m)) with (length (m ++ [SPACE])) by (rewrite length_app; simpl; lia). by rewrite take_app_length. }
  rewrite Edrop, Etake.
  assert (Hw : ∀ fuel, write_tags (S fuel) (t ++ rest σ) false (ix_tags ix) id = write_tags (S fuel) (rest (t :: σ)) false (ix_tags ix) id).
  { intros fuel. cbn [write_tags]. rewrite skip_space_rest, skip_space_tag by done. destruct (plain_tag_cons t Ht) as (c&q&->). done. }
  rewrite Hw. destruct (write_tags_ok (S (length (t ++ rest σ))) (t :: σ) (ix_tags ix) _ id (ih_tags _ _ _ Hix) Hu) as (tags'&->&Htags);
    [by constructor|rewrite length_app; destruct (plain_tag_cons t Ht) as (c&q&->); pose proof (length_rest σ); simpl; lia|].
  cbn [mbind option_bind]. rewrite (Pool.stored_str _ _ _ Hst) by (apply Hname). cbn [mbind option_bind]. rewrite skip_metric_ok by done.
  cbn [mbind option_bind]. rewrite decide_False by (apply Hm).
  destruct (inverted_add (StringTools.hash m) id (ix_metrics ix) _ (ih_metrics _ _ _ Hix) Hu) as (metrics'&->&Hmet). cbn [mbind option_bind].
  destruct (add_name_ok m t σ (ix_topology ix) Hm Ht Hσ) as (topo'&Etopo&Htopo). change (m ++ rest (t :: σ)) with (canon m (t :: σ)) in Etopo.
  rewrite Etopo. cbn [mbind option_bind]. exists id. eexists. split; [reflexivity|]. split.
  2:{ intros e He [E1 E2]. assert (ix_table ix !! canon m (t :: σ) = Some (se_id e)) as Ex; [|congruence].
      apply (ih_table _ _ _ Hix). exists e. split_and!; [done| |done]. unfold name_of. by rewrite E1, E2. }
  pose proof (ih_range _ _ _ Hix) as Hrange. constructor; simpl.
  - done.
  - apply Forall_app. split; [|by constructor]. eapply Forall_impl; [apply (ih_stored _ _ _ Hix)|]. intros e He. by apply Hmono.
  - rewrite fmap_app. apply StronglySorted_app. split_and!; [|apply (ih_ids _ _ _ Hix)|apply SSorted_cons; constructor].
    intros x y (e&->&He)%list_elem_of_fmap Hy. apply list_elem_of_singleton in Hy as ->. rewrite Forall_forall in Hrange. destruct (Hrange e He). simpl. lia.
  - apply Forall_app. split; [eapply Forall_impl; [exact Hrange|]; intros e [? ?]; cbv beta; split; [lia|done]|].
    constructor; [simpl; split; [lia|done]|constructor].
  - intros name id'. destruct (decide (name = canon m (t :: σ))) as [->|Hn].
    + rewrite lookup_insert_eq. split.
      * intros [= <-]. exists (mkSeries id m (t :: σ)). split_and!; [apply elem_of_app; right; by left|done|done].
      * intros (e&[He|He]%elem_of_app&En&Ei).
        -- assert (ix_table ix !! canon m (t :: σ) = Some (se_id e)) as Ex; [|congruence]. apply (ih_table _ _ _ Hix). by exists e.
        -- apply list_elem_of_singleton in He as ->. by simpl in Ei; subst.
    + rewrite lookup_insert_ne by done. rewrite (ih_table _ _ _ Hix). split.
      * intros (e&He&?). exists e. split; [apply elem_of_app; by left|done].
      * intros (e&[He|He]%elem_of_app&En&Ei); [by exists e|]. apply list_elem_of_singleton in He as ->. by destruct Hn.
  - intros h. specialize (Hmet h). unfold metric_post in *. rewrite bind_app. simpl. by rewrite app_nil_r.
  - intros h. specialize (Htags h). unfold tags_post in *. rewrite bind_app. simpl. by rewrite app_nil_r.
  - intros m' k' v'. rewrite Htopo, (ih_topology _ _ _ Hix). split.
    + intros [(e&u&He&?)|(->&u&Hu'&?)]; [exists e, u; split; [apply elem_of_app; by left|done]|].
      exists (mkSeries id m (t :: σ)), u. split_and!; [apply elem_of_app; right; by left|done|done|done].
    + intros (e&u&[He|He]%elem_of_app&Em&Hu'&Es); [left; by exists e, u|]. apply list_elem_of_singleton in He as ->.
      right. simpl in Em. split; [done|]. by exists u.
  - apply Forall_app. split; [apply (ih_ok _ _ _ Hix)|]. constructor; [done|constructor].
  - rewrite length_app. simpl. pose proof (ih_size _ _ _ Hix). lia.
Qed.

End Append.
