(* ===== verification/InvIndexQuery.v ===== *)
(** * Queries of the inverted index

    [finds r P]: the postings list [r] shows the ids of the series of the index
    that satisfy [P]; each operation on postings lists is one on such predicates. *)
From stdpp Require Import sorting.
From S2P Require Import Prelude Status StringPool SeriesName SeriesNameProof ByteStream Base128 PList PListProof InvIndex InvIndexProof.

Section Finds.
Context (k : nat) (ix : Index) (es : list series) (Hix : ix_holds k ix es).

(** The ids of the series that satisfy [P]. *)
Definition ids_of (vs : list Z) (P : series → Prop) : Prop := ∀ z, z ∈ vs ↔ ∃ e, e ∈ es ∧ se_id e = z ∧ P e.

(** In rising order, at most once for each tag; or once for each series. *)
Definition finds (r : CompressedPList) (P : series → Prop) : Prop :=
  ∃ vs, shows r vs ∧ rising vs ∧ (length vs ≤ 32 * length es)%nat ∧ ids_of vs P.
Definition finds_once (r : CompressedPList) (P : series → Prop) : Prop :=
  ∃ vs, shows r vs ∧ StronglySorted Z.lt vs ∧ ids_of vs P.

Lemma strict_rising vs : StronglySorted Z.lt vs → rising vs.
Proof. induction 1 as [|x vs _ IH Hf]; constructor; [done|]. eapply Forall_impl; [exact Hf|]. intros y ?. cbv beta. lia. Qed.

Lemma strict_nodup vs : StronglySorted Z.lt vs → NoDup vs.
Proof.
  induction 1 as [|x vs _ IH Hf]; [constructor|]. constructor; [|done]. intros Hin. rewrite Forall_forall in Hf. specialize (Hf x Hin). lia.
Qed.

Lemma id_inj e e' : e ∈ es → e' ∈ es → se_id e = se_id e' → e = e'.
Proof.
  intros He He' E. pose proof (strict_nodup _ (ih_ids _ _ _ Hix)) as Hnd. apply list_elem_of_lookup in He as (i&Hi), He' as (j&Hj).
  assert (i = j) as -> by (eapply NoDup_lookup; [exact Hnd|by rewrite list_lookup_fmap, Hi|rewrite list_lookup_fmap, Hj; simpl; by rewrite E]).
  congruence.
Qed.

Lemma once_length vs P : StronglySorted Z.lt vs → ids_of vs P → (length vs ≤ length es)%nat.
Proof.
  intros Hs Hv. rewrite <- (length_fmap se_id es). apply submseteq_length, NoDup_submseteq; [by apply strict_nodup|].
  intros z (e&He&<-&_)%Hv. apply list_elem_of_fmap. by exists e.
Qed.

Lemma finds_small vs n : (length vs ≤ n * length es)%nat → (n ≤ 64)%nat → small vs.
Proof. intros Hl Hn. pose proof (ih_size _ _ _ Hix). unfold small. nia. Qed.

Lemma once_small vs P : StronglySorted Z.lt vs → ids_of vs P → small vs.
Proof. intros Hs Hv. apply (finds_small vs 1); [|lia]. pose proof (once_length vs P Hs Hv). lia. Qed.

Lemma once_finds r P : finds_once r P → finds r P.
Proof. intros (vs&Hs&Hr&Hv). exists vs. split_and!; [done|by apply strict_rising| |done]. pose proof (once_length vs P Hr Hv). lia. Qed.

Lemma ids_and vs us ws P Q : ids_of vs P → ids_of us Q → (∀ z, z ∈ ws ↔ z ∈ vs ∧ z ∈ us) → ids_of ws (λ e, P e ∧ Q e).
Proof.
  intros Hv Hu Hw z. rewrite Hw, (Hv z), (Hu z). split.
  - intros [(e&He&Ee&HP) (e'&He'&Ee'&HQ)]. assert (e = e') as <- by (apply id_inj; congruence). by exists e.
  - intros (e&He&Ee&HP&HQ). split; by exists e.
Qed.

Lemma ids_or vs us ws P Q : ids_of vs P → ids_of us Q → (∀ z, z ∈ ws ↔ z ∈ vs ∨ z ∈ us) → ids_of ws (λ e, P e ∨ Q e).
Proof.
  intros Hv Hu Hw z. rewrite Hw, (Hv z), (Hu z). split.
  - intros [(e&He&Ee&HP)|(e&He&Ee&HQ)]; exists e; by split_and!; [..|tauto].
  - intros (e&He&Ee&[HP|HQ]); [left|right]; by exists e.
Qed.

Lemma ids_diff vs us ws P Q : ids_of vs P → ids_of us Q → (∀ z, z ∈ ws ↔ z ∈ vs ∧ z ∉ us) → ids_of ws (λ e, P e ∧ ¬ Q e).
Proof.
  intros Hv Hu Hw z. rewrite Hw, (Hv z), (Hu z). split.
  - intros [(e&He&Ee&HP) Hn]. exists e. split_and!; [done..|]. intros HQ. apply Hn. by exists e.
  - intros (e&He&Ee&HP&HQ). split; [by exists e|]. intros (e'&He'&Ee'&HQ'). assert (e = e') as <- by (apply id_inj; congruence). done.
Qed.

Lemma ids_ext vs P Q : (∀ e, e ∈ es → P e ↔ Q e) → ids_of vs P → ids_of vs Q.
Proof. intros HPQ Hv z. rewrite (Hv z). split; intros (e&He&Ee&HP); exists e; (split_and!; [done|done|by apply HPQ]). Qed.

Lemma once_ext r P Q : (∀ e, e ∈ es → P e ↔ Q e) → finds_once r P → finds_once r Q.
Proof. intros HPQ (vs&?&?&Hv). exists vs. split_and!; [done..|by eapply ids_ext]. Qed.

(** *** Operations *)

Lemma finds_intersection r s P Q :
  finds r P → finds s Q → ∃ t, Results.intersection r s = Some t ∧ finds t (λ e, P e ∧ Q e) ∧
    (finds_once r P ∨ finds_once s Q → finds_once t (λ e, P e ∧ Q e)).
Proof.
  intros Hr0 Hs0.
  assert (Hand : ∀ vs us, shows r vs → shows s us → rising vs → rising us → small vs → small us → ids_of vs P → ids_of us Q →
    ∃ t ws, Results.intersection r s = Some t ∧ shows t ws ∧ sublist ws vs ∧ sublist ws us ∧ ids_of ws (λ e, P e ∧ Q e)).
  { intros vs us Hv Hu Rv Ru Sv Su Iv Iu. destruct (and_ok r s vs us Hv Hu Sv Su Rv Ru) as (t&ws&E&[Ht _]&H1&H2&Hw).
    exists t, ws. split_and!; [done..|by eapply ids_and]. }
  pose proof Hr0 as (vs&Hv&Rv&Lv&Iv). pose proof Hs0 as (us&Hu&Ru&Lu&Iu).
  pose proof (finds_small vs 32 Lv ltac:(lia)) as Sv. pose proof (finds_small us 32 Lu ltac:(lia)) as Su.
  destruct (Hand vs us Hv Hu Rv Ru Sv Su Iv Iu) as (t&ws&E&Ht&H1&H2&Hw). exists t. split_and!; [done| |].
  - exists ws. split_and!; [done|by eapply sorted_sublist|apply sublist_length in H1; lia|done].
  - intros [(vs'&Hv'&Rv'&Iv')|(us'&Hu'&Ru'&Iu')].
    + destruct (Hand vs' us Hv' Hu (strict_rising _ Rv') Ru (once_small _ _ Rv' Iv') Su Iv' Iu) as (t'&ws'&E'&Ht'&H1'&_&Hw').
      replace t with t' by congruence. exists ws'. split_and!; [done|by eapply sorted_sublist|done].
    + destruct (Hand vs us' Hv Hu' Rv (strict_rising _ Ru') Sv (once_small _ _ Ru' Iu') Iv Iu') as (t'&ws'&E'&Ht'&_&H2'&Hw').
      replace t with t' by congruence. exists ws'. split_and!; [done|by eapply sorted_sublist|done].
Qed.

Lemma finds_join_unique r s P Q :
  finds r P → finds s Q → ∃ t, Query.join_unique r s = Some t ∧ finds_once t (λ e, P e ∨ Q e).
Proof.
  intros (vs&Hv&Rv&Lv&Iv) (us&Hu&Ru&Lu&Iu). unfold Query.join_unique, Results.join, Results.unique.
  destruct (or_ok r s vs us Hv Hu (finds_small vs 32 Lv ltac:(lia)) (finds_small us 32 Lu ltac:(lia)) Rv Ru) as (o&ws&->&[Ho _]&Ro&Lo&Hw).
  cbn [mbind option_bind]. destruct (unique_ok o ws Ho (finds_small ws 64 ltac:(lia) ltac:(lia)) Ro) as (t&zs&->&[Ht _]&Rz&_&Hz).
  exists t. split; [done|]. exists zs. split_and!; [done..|]. eapply ids_or; [exact Iv|exact Iu|]. intros z. by rewrite Hz, Hw.
Qed.

Lemma finds_difference r s P Q :
  finds_once r P → finds s Q → ∃ t, Results.difference r s = Some t ∧ finds_once t (λ e, P e ∧ ¬ Q e).
Proof.
  intros (vs&Hv&Rv&Iv) (us&Hu&Ru&Lu&Iu). unfold Results.difference.
  destruct (xor_ok r s vs us Hv Hu (once_small _ _ Rv Iv) (finds_small us 32 Lu ltac:(lia)) Rv Ru) as (t&ws&->&[Ht _]&Hsub&Hw).
  exists t. split; [done|]. exists ws. split_and!; [done|by eapply sorted_sublist|by eapply ids_diff].
Qed.

(** *** Postings *)

Lemma metric_post_filter (l : list series) h : metric_post l h = se_id <$> filter (λ e, StringTools.hash (se_metric e) = h) l.
Proof.
  unfold metric_post. induction l as [|e l IH]; [done|]. rewrite bind_cons, IH, filter_cons. by destruct (decide (StringTools.hash (se_metric e) = h)).
Qed.

Lemma metric_query_finds m :
  ∃ r, Idx.metric_query m ix = Some r ∧ finds_once r (λ e, StringTools.hash (se_metric e) = StringTools.hash m).
Proof.
  unfold Idx.metric_query. destruct (inverted_extract (StringTools.hash m) _ _ (ih_metrics _ _ _ Hix)) as (r&->&Hr).
  exists r. split; [done|]. rewrite metric_post_filter in Hr. eexists. split_and!; [exact Hr| |].
  - eapply sorted_sublist; [|apply (ih_ids _ _ _ Hix)]. apply fmap_sublist, sublist_filter.
  - intros z. rewrite list_elem_of_fmap. split.
    + intros (e&->&[? ?]%list_elem_of_filter). by exists e.
    + intros (e&He&<-&?). exists e. split; [done|]. by apply list_elem_of_filter.
Qed.

Lemma tag_post_all id σ h : Forall (λ z, z = id) (tag_post id σ h).
Proof.
  unfold tag_post. apply Forall_bind, Forall_forall. intros t _. simpl. case_decide; repeat constructor.
Qed.

Lemma tag_post_length id σ h : (length (tag_post id σ h) ≤ length σ)%nat.
Proof.
  unfold tag_post. induction σ as [|t σ IH]; [done|]. rewrite bind_cons, length_app. simpl. case_decide; simpl; lia.
Qed.

Lemma tag_post_elem id σ h z : z ∈ tag_post id σ h ↔ z = id ∧ ∃ t, t ∈ σ ∧ StringTools.hash t = h.
Proof.
  unfold tag_post. rewrite list_elem_of_bind. split.
  - intros (t&Hz&Ht). case_decide; [|by apply not_elem_of_nil in Hz]. apply list_elem_of_singleton in Hz. split; [done|by exists t].
  - intros (->&t&Ht&Hh). exists t. rewrite decide_True by done. split; [by left|done].
Qed.

Lemma same_rising (vs : list Z) x us : Forall (λ z, z = x) vs → rising us → Forall (λ z, x ≤ z) us → rising (vs ++ us).
Proof.
  intros Hv Ru Hu. induction Hv as [|z vs -> Hv IH]; [done|]. simpl. constructor; [done|]. apply Forall_app. split; [|done].
  eapply Forall_impl; [exact Hv|]. intros z ->. done.
Qed.

Lemma tags_post_rising (l : list series) h : StronglySorted Z.lt (se_id <$> l) → rising (tags_post l h).
Proof.
  induction l as [|e l IH]; [constructor|]. unfold tags_post in *. rewrite fmap_cons, bind_cons. intros [Hf Hs]%StronglySorted_cons.
  eapply same_rising; [apply tag_post_all|by apply IH|]. apply Forall_forall. intros z (e'&Hz&He')%list_elem_of_bind.
  apply tag_post_elem in Hz as [-> _]. rewrite Forall_forall in Hf. assert (se_id e < se_id e'); [|lia]. apply Hf, list_elem_of_fmap. by exists e'.
Qed.

Lemma tags_post_length (l : list series) h :
  Forall (λ e, (length (se_tags e) ≤ 32)%nat) l → (length (tags_post l h) ≤ 32 * length l)%nat.
Proof.
  unfold tags_post. induction 1 as [|e l He _ IH]; [done|]. rewrite bind_cons, length_app. simpl. pose proof (tag_post_length (se_id e) (se_tags e) h). lia.
Qed.

Lemma tagvalue_query_finds tv :
  ∃ r, Idx.tagvalue_query tv ix = Some r ∧ finds r (λ e, ∃ t, t ∈ se_tags e ∧ StringTools.hash t = StringTools.hash tv).
Proof.
  unfold Idx.tagvalue_query. destruct (inverted_extract (StringTools.hash tv) _ _ (ih_tags _ _ _ Hix)) as (r&->&Hr).
  exists r. split; [done|]. eexists. split_and!; [exact Hr|apply tags_post_rising, (ih_ids _ _ _ Hix)| |].
  - apply tags_post_length. eapply Forall_impl; [apply (ih_ok _ _ _ Hix)|]. by intros e (_&_&_&?&_).
  - intros z. unfold tags_post. rewrite list_elem_of_bind. split.
    + intros (e&[-> Ht]%tag_post_elem&He). by exists e.
    + intros (e&He&<-&Ht). exists e. rewrite tag_post_elem. done.
Qed.

(** *** Filters *)

Lemma entry_ok e : e ∈ es → series_ok (se_metric e) (se_tags e) ∧ Pool.str_ (se_id e) (ix_pool ix) = Some (name_of e) ∧ is_u64 (se_id e).
Proof.
  intros He. pose proof (ih_ok _ _ _ Hix) as H1. pose proof (ih_stored _ _ _ Hix) as H2. pose proof (ih_range _ _ _ Hix) as H3.
  rewrite Forall_forall in H1, H2, H3. split_and!; [by apply H1| |by apply H3]. apply Pool.stored_str; [by apply H2|].
  destruct (H1 e He) as (_&_&_&_&_&?&_). done.
Qed.

Section Filters.
Context (Q : series → Prop) `{!∀ e, Decision (Q e)} (check : chars → option bool).
Hypothesis (Hcheck : ∀ e, e ∈ es → check (name_of e) = Some (bool_decide (Q e))).

Lemma checks_ok vs :
  (∀ z, z ∈ vs → ∃ e, e ∈ es ∧ se_id e = z) →
  ∃ cs, Results.checks (ix_pool ix) check vs = Some cs ∧ cs.*1 = vs ∧ ∀ z b, (z, b) ∈ cs → ∃ e, e ∈ es ∧ se_id e = z ∧ b = bool_decide (Q e).
Proof.
  induction vs as [|z vs IH]; intros Hv; [exists []; split_and!; [done..|]; by intros z b ?%not_elem_of_nil|].
  destruct (Hv z ltac:(by left)) as (e&He&Ee). destruct IH as (cs&Ecs&Efst&Hcs); [intros y Hy; apply Hv; by right|].
  simpl. rewrite <- Ee, (proj1 (proj2 (entry_ok e He))). cbn [mbind option_bind]. rewrite Hcheck by done. cbn [mbind option_bind]. rewrite Ecs.
  cbn [mbind option_bind]. eexists. split; [reflexivity|]. split; [rewrite fmap_cons; cbn [fst]; congruence|].
  intros y b [E|?]%elem_of_cons; [injection E as -> ->; by exists e|by apply Hcs].
Qed.

Lemma add_ids_ok ids p us : holds p us → Forall is_u64 ids → ∃ p', Results.add_ids ids p = Some p' ∧ holds p' (us ++ ids).
Proof.
  revert p us. induction ids as [|z ids IH]; intros p us Hp Hu; [exists p; by rewrite app_nil_r|]. apply Forall_cons in Hu as [Hz Hu].
  simpl. destruct (add_holds p us z Hp Hz) as (p1&->&Hp1). cbn [mbind option_bind]. destruct (IH p1 _ Hp1 Hu) as (p'&->&Hp').
  exists p'. by rewrite <- app_assoc in Hp'.
Qed.

Lemma filter_finds r P :
  finds_once r P → ∃ t, Results.filter (ix_pool ix) check r = Some t ∧ finds_once t (λ e, P e ∧ Q e).
Proof.
  intros (vs&Hv&Rv&Iv). unfold Results.filter. rewrite (values_ok _ _ Hv (once_small _ _ Rv Iv)). cbn [mbind option_bind].
  destruct (checks_ok vs) as (cs&->&Efst&Hcs); [intros z (e&He&Ee&_)%Iv; by exists e|]. cbn [mbind option_bind].
  assert (Hin : ∀ z, z ∈ vs ↔ ∃ b, (z, b) ∈ cs).
  { intros z. rewrite <- Efst, list_elem_of_fmap. split; [intros ([z' b]&->&?); by exists b|intros (b&?); by exists (z, b)]. }
  case_decide as Hall.
  - destruct (copy_shows _ _ Hv) as (t&->&Ht). exists t. split; [done|]. exists vs. split_and!; [done..|]. intros z. rewrite (Iv z). split.
    + intros (e&He&Ee&HP). exists e. split_and!; [done..|]. assert (z ∈ vs) as (b&Hb)%Hin by (apply Iv; by exists e).
      destruct (Hcs _ _ Hb) as (e'&He'&Ee'&Eb). rewrite Forall_forall in Hall. specialize (Hall _ Hb). simpl in Hall. subst b.
      symmetry in Eb. apply bool_decide_eq_true in Eb. assert (e = e') as <- by (apply id_inj; congruence). done.
    + intros (e&He&Ee&HP&_). by exists e.
  - set (ids := (filter _ cs).*1).
    assert (Hids : ∀ z, z ∈ ids ↔ (z, true) ∈ cs).
    { intros z. unfold ids. rewrite list_elem_of_fmap. split.
      - intros ([z' b]&->&[Eb ?]%list_elem_of_filter). simpl in Eb. by subst b.
      - intros ?. exists (z, true). split; [done|]. by apply list_elem_of_filter. }
    destruct (add_ids_ok ids PList.make [] make_holds) as (t&->&[Ht _]).
    { apply Forall_forall. intros z (e&He&<-&_)%Hids%Hcs. by apply entry_ok. }
    exists t. split; [done|]. exists ids. split_and!; [done| |].
    + eapply sorted_sublist; [|exact Rv]. rewrite <- Efst. apply fmap_sublist, sublist_filter.
    + intros z. rewrite Hids. split.
      * intros Hz. destruct (Hcs _ _ Hz) as (e&He&Ee&Eb). assert (z ∈ vs) as (e'&He'&Ee'&HP)%Iv by (apply Hin; by exists true).
        assert (e = e') as <- by (apply id_inj; congruence). exists e. split_and!; [done..|]. by apply (bool_decide_eq_true (Q e)).
      * intros (e&He&Ee&HP&HQ). assert (z ∈ vs) as (b&Hb)%Hin by (apply Iv; by exists e).
        destruct (Hcs _ _ Hb) as (e'&He'&Ee'&Eb). assert (e = e') as <- by (apply id_inj; congruence).
        rewrite bool_decide_eq_true_2 in Eb by done. by subst b.
Qed.

End Filters.

(** [filter] of a vector keeps everything when every name passes, else nothing. *)
Lemma filter_any_finds (Q : series → Prop) `{!∀ e, Decision (Q e)} cs r P :
  (∀ e, e ∈ es → Results.any cs (name_of e) = Some (bool_decide (Q e))) → finds_once r P →
  ∃ t, Results.filter_any (ix_pool ix) cs r = Some t ∧
    ((∀ e, e ∈ es → P e → Q e) → finds_once t P) ∧ ((∃ e, e ∈ es ∧ P e ∧ ¬ Q e) → finds_once t (λ _, False)).
Proof.
  intros Hcs (vs&Hv&Rv&Iv). unfold Results.filter_any. rewrite (values_ok _ _ Hv (once_small _ _ Rv Iv)). cbn [mbind option_bind].
  destruct (checks_ok Q (Results.any cs) Hcs vs) as (bs&->&Efst&Hbs); [intros z (e&He&Ee&_)%Iv; by exists e|]. cbn [mbind option_bind].
  assert (Hnone : finds_once PList.make (λ _, False)).
  { exists []. split_and!; [apply make_holds|constructor|]. intros z. split; [by intros ?%not_elem_of_nil|by intros (e&_&_&[])]. }
  case_decide as Hall.
  - destruct (copy_shows _ _ Hv) as (t&->&Ht). exists t. split_and!; [done|by exists vs|]. intros (e&He&HP&HnQ).
    exfalso. assert (se_id e ∈ vs) as Hz by (apply Iv; by exists e). rewrite <- Efst in Hz. apply list_elem_of_fmap in Hz as ([z b]&Ez&Hb).
    destruct (Hbs _ _ Hb) as (e'&He'&Ee'&Eb). assert (e = e') as <- by (apply id_inj; simpl in Ez; congruence).
    rewrite Forall_forall in Hall. specialize (Hall _ Hb). simpl in Hall. subst b. by rewrite bool_decide_eq_false_2 in Eb.
  - exists PList.make. split_and!; [done| |done]. intros Himp. exfalso. apply Hall, Forall_forall. intros [z b] Hb.
    destruct (Hbs _ _ Hb) as (e&He&Ee&->). apply bool_decide_eq_true_2, Himp; [done|].
    assert (z ∈ vs) as (e'&He'&Ee'&HP)%Iv by (rewrite <- Efst; apply list_elem_of_fmap; by exists (z, bool_decide (Q e))).
    by assert (e = e') as <- by (apply id_inj; congruence).
Qed.

(** *** Checks of the names in the index *)

Definition has (p : chars) (e : series) : Prop := p ∈ se_tags e.

Lemma name_check_metric m e : e ∈ es → MetricName.check m (name_of e) = Some (bool_decide (se_metric e = m)).
Proof.
  intros He. destruct (entry_ok e He) as ((Hm&_&Hne&_)&_). unfold name_of. destruct (se_tags e) as [|t σ]; [done|]. by apply check_metric_ok.
Qed.

Lemma name_check_tag p e : e ∈ es → TagValuePair.check p (name_of e) = Some (bool_decide (p ∈ se_tags e)).
Proof.
  intros He. destruct (entry_ok e He) as ((Hm&Hσ&Hne&_)&_). unfold name_of. destruct (se_tags e) as [|t σ]; [done|].
  apply Forall_cons in Hσ as [Ht Hσ]. by apply check_tag_ok.
Qed.

Lemma name_any_tag pairs e :
  e ∈ es → Results.any (TagValuePair.check <$> pairs) (name_of e) = Some (bool_decide (Exists (λ p, p ∈ se_tags e) pairs)).
Proof.
  intros He. induction pairs as [|p pairs IH]; [done|]. simpl. rewrite name_check_tag by done. cbn [mbind option_bind].
  destruct (bool_decide_reflect (p ∈ se_tags e)) as [Hp|Hp].
  - by rewrite bool_decide_eq_true_2 by (by left).
  - etrans; [exact IH|]. f_equal. apply bool_decide_ext. rewrite Exists_cons. tauto.
Qed.

(** *** Folding over pairs

    A queried pair whose hash no other tag of the index has. *)
Definition distinct (p : chars) : Prop := ∀ e t, e ∈ es → t ∈ se_tags e → StringTools.hash t = StringTools.hash p → t = p.

Lemma tag_query_exact p : distinct p → ∃ r, Idx.tagvalue_query p ix = Some r ∧ finds r (has p).
Proof.
  intros Hd. destruct (tagvalue_query_finds p) as (r&E&vs&Hv&Rv&Lv&Iv). exists r. split; [done|]. exists vs. split_and!; [done..|].
  eapply ids_ext; [|exact Iv]. intros e He. unfold has. split; [intros (t&Ht&Hh); by rewrite <- (Hd e t)|intros Hp; by exists p].
Qed.

Lemma fold_intersection pairs r P :
  Forall distinct pairs → finds_once r P →
  ∃ t, Query.fold_pairs ix Results.intersection pairs r = Some t ∧ finds_once t (λ e, P e ∧ Forall (λ p, has p e) pairs).
Proof.
  intros Hd. revert r P. induction Hd as [|p pairs Hp Hd IH]; intros r P Hr.
  - exists r. split; [done|]. eapply once_ext; [|exact Hr]. intros e _. rewrite Forall_nil. tauto.
  - simpl. destruct (tag_query_exact p Hp) as (q&->&Hq). cbn [mbind option_bind].
    destruct (finds_intersection r q _ _ (once_finds _ _ Hr) Hq) as (t&->&_&Ht). cbn [mbind option_bind].
    destruct (IH t _ (Ht (or_introl Hr))) as (u&->&Hu). exists u. split; [done|]. eapply once_ext; [|exact Hu]. intros e _. rewrite Forall_cons. tauto.
Qed.

Lemma fold_difference pairs r P :
  Forall distinct pairs → finds_once r P →
  ∃ t, Query.fold_pairs ix Results.difference pairs r = Some t ∧ finds_once t (λ e, P e ∧ Forall (λ p, ¬ has p e) pairs).
Proof.
  intros Hd. revert r P. induction Hd as [|p pairs Hp Hd IH]; intros r P Hr.
  - exists r. split; [done|]. eapply once_ext; [|exact Hr]. intros e _. rewrite Forall_nil. tauto.
  - simpl. destruct (tag_query_exact p Hp) as (q&->&Hq). cbn [mbind option_bind].
    destruct (finds_difference r q _ _ Hr Hq) as (t&->&Ht). cbn [mbind option_bind].
    destruct (IH t _ Ht) as (u&->&Hu). exists u. split; [done|]. eapply once_ext; [|exact Hu]. intros e _. rewrite Forall_cons. tauto.
Qed.

Lemma fold_join pairs r P :
  Forall distinct pairs → finds r P →
  ∃ t, Query.fold_pairs ix Query.join_unique pairs r = Some t ∧ finds t (λ e, P e ∨ Exists (λ p, has p e) pairs).
Proof.
  intros Hd. revert r P. induction Hd as [|p pairs Hp Hd IH]; intros r P Hr.
  - exists r. split; [done|]. destruct Hr as (vs&?&?&?&Iv). exists vs. split_and!; [done..|]. eapply ids_ext; [|exact Iv].
    intros e _. rewrite Exists_nil. tauto.
  - simpl. destruct (tag_query_exact p Hp) as (q&->&Hq). cbn [mbind option_bind].
    destruct (finds_join_unique r q _ _ Hr Hq) as (t&->&Ht). cbn [mbind option_bind].
    destruct (IH t _ (once_finds _ _ Ht)) as (u&->&vs&?&?&?&Iv). exists u. split; [done|]. exists vs. split_and!; [done..|].
    eapply ids_ext; [|exact Iv]. intros e _. rewrite Exists_cons. tauto.
Qed.

(** *** Each kind of query *)

Notation same_hash m := (λ e, StringTools.hash (se_metric e) = StringTools.hash m).

Lemma metric_filter_finds m r P :
  finds_once r (λ e, P e ∧ StringTools.hash (se_metric e) = StringTools.hash m) →
  ∃ t, Results.filter (ix_pool ix) (MetricName.check m) r = Some t ∧ finds_once t (λ e, se_metric e = m ∧ P e).
Proof.
  intros Hr. destruct (filter_finds (λ e, se_metric e = m) (MetricName.check m) (name_check_metric m) r _ Hr) as (t&->&Ht).
  exists t. split; [done|]. eapply once_ext; [|exact Ht]. intros e _. cbv beta. split; [tauto|]. intros [E HP]. by rewrite E.
Qed.

Lemma exclude_ok m pairs :
  Forall distinct pairs → ∃ r, Query.exclude ix m pairs = Some r ∧ finds_once r (λ e, se_metric e = m ∧ Forall (λ p, ¬ has p e) pairs).
Proof.
  intros Hd. unfold Query.exclude. destruct (metric_query_finds m) as (r0&->&H0). cbn [mbind option_bind].
  destruct (fold_difference pairs r0 _ Hd H0) as (r1&->&H1). cbn [mbind option_bind]. apply metric_filter_finds.
  eapply once_ext; [|exact H1]. intros e _. cbv beta. tauto.
Qed.

Lemma include_all_ok m pairs :
  Forall distinct pairs →
  ∃ r, Query.include_all ix m pairs = Some r ∧ finds_once r (λ e, se_metric e = m ∧ pairs ≠ [] ∧ Forall (λ p, has p e) pairs).
Proof.
  intros Hd. unfold Query.include_all. destruct (metric_query_finds m) as (r0&->&H0). cbn [mbind option_bind].
  destruct (fold_intersection pairs r0 _ Hd H0) as (r1&->&H1). cbn [mbind option_bind].
  destruct (metric_filter_finds m r1 (λ e, Forall (λ p, has p e) pairs)) as (r2&->&H2).
  { eapply once_ext; [|exact H1]. intros e _. cbv beta. tauto. }
  cbn [mbind option_bind].
  destruct (filter_any_finds (λ e, Exists (λ p, p ∈ se_tags e) pairs) (TagValuePair.check <$> pairs) r2 _ (name_any_tag pairs) H2)
    as (t&->&Hall&Hsome). exists t. split; [done|]. destruct pairs as [|p pairs].
  - destruct H2 as (vs&Hv&Rv&Iv). destruct vs as [|z vs].
    + eapply once_ext; [|apply Hall; intros e He HP]; cbv beta.
      * intros e He. split; [|tauto]. intros HP. exfalso. apply (not_elem_of_nil (se_id e)), Iv. by exists e.
      * exfalso. apply (not_elem_of_nil (se_id e)), Iv. by exists e.
    + eapply once_ext; [|apply Hsome]; cbv beta; [intros e _; tauto|].
      destruct (proj1 (Iv z) ltac:(by left)) as (e&He&_&HP). exists e. split; [done|]. split; [done|]. intros Hx. by apply Exists_nil in Hx.
  - eapply once_ext; [|apply Hall]; cbv beta; [intros e _; split; [intros [??]|intros (?&_&?)]; done|].
    intros e _ [_ [Hp _]%Forall_cons]. by left.
Qed.

Definition group_ok (tags : list (chars * list chars)) (e : series) : Prop :=
  Forall (λ g, g.2 = [] ∨ Exists (λ v, has (Query.pair_of g.1 v) e) g.2) tags.
Definition pairs_of (tags : list (chars * list chars)) : list chars := tags ≫= λ g, Query.pair_of g.1 <$> g.2.

(** What the loop over the tags has found. *)
Definition found (final : option CompressedPList) (P : series → Prop) : Prop :=
  match final with None => ∀ e, P e | Some f => finds f P end.

Lemma many_loop_ok tags tgv final P :
  Forall distinct (pairs_of tags) → found final P →
  ∃ final', Query.many_loop ix tags tgv final = Some (tgv ++ pairs_of tags, final') ∧
    match final' with
    | None => final = None ∧ pairs_of tags = []
    | Some f => finds f (λ e, P e ∧ group_ok tags e) ∧ (final = None → pairs_of tags ≠ [])
    end.
Proof.
  revert tgv final P. induction tags as [|[tag vs] tags IH]; intros tgv final P Hd Hf.
  - exists final. simpl. rewrite app_nil_r. split; [done|]. destruct final as [f|]; [|done]. split; [|done].
    destruct Hf as (us&?&?&?&Iu). exists us. split_and!; [done..|]. eapply ids_ext; [|exact Iu]. intros e _. unfold group_ok. rewrite Forall_nil. tauto.
  - unfold pairs_of in *. rewrite bind_cons in *. apply Forall_app in Hd as [Hv Hd]. cbn [fst snd] in *. destruct vs as [|v vs].
    + destruct (IH tgv final P Hd Hf) as (final'&E&Hfin). cbn [Query.many_loop]. exists final'. split; [done|].
      destruct final' as [f|]; [|done]. destruct Hfin as [(us&?&?&?&Iu) Hn]. split; [|done]. exists us. split_and!; [done..|].
      eapply ids_ext; [|exact Iu]. intros e _. unfold group_ok. rewrite Forall_cons. cbn [snd]. tauto.
    + cbn [Query.many_loop]. rewrite fmap_cons in Hv. apply Forall_cons in Hv as [Hp Hv].
      destruct (tag_query_exact _ Hp) as (r0&->&H0). cbn [mbind option_bind]. destruct (fold_join _ r0 _ Hv H0) as (r1&->&H1). cbn [mbind option_bind].
      set (G := λ e, Exists (λ v, has (Query.pair_of tag v) e) (v :: vs)).
      assert (HG : finds r1 G).
      { destruct H1 as (us&?&?&?&Iu). exists us. split_and!; [done..|]. eapply ids_ext; [|exact Iu]. intros e _. unfold G.
        rewrite Exists_cons, Exists_fmap. done. }
      assert (∃ f, (match final with None => Some r1 | Some f => Results.intersection f r1 end) = Some f ∧ finds f (λ e, P e ∧ G e)) as (f&->&Hf').
      { destruct final as [f|].
        - destruct (finds_intersection f r1 _ _ Hf HG) as (t&->&Ht&_). by exists t.
        - exists r1. split; [done|]. destruct HG as (us&?&?&?&Iu). exists us. split_and!; [done..|]. eapply ids_ext; [|exact Iu].
          intros e _. simpl in Hf. specialize (Hf e). tauto. }
      cbn [mbind option_bind].
      destruct (IH (tgv ++ (Query.pair_of tag <$> v :: vs)) (Some f) _ Hd Hf') as (final'&->&Hfin). exists final'. rewrite <- app_assoc.
      split; [done|]. destruct final' as [f'|]; [|by destruct Hfin]. destruct Hfin as [(us&?&?&?&Iu) _]. split; [|done].
      exists us. split_and!; [done..|]. eapply ids_ext; [|exact Iu]. intros e _. unfold group_ok. rewrite Forall_cons. cbn [fst snd].
      fold (G e). split; [tauto|]. intros (?&[?|?]&?); [done|tauto].
Qed.

Lemma many2many_ok m tags :
  Forall distinct (pairs_of tags) → ∃ r, Query.many2many ix m tags = Some r ∧ finds_once r (λ e, se_metric e = m ∧ group_ok tags e).
Proof.
  intros Hd. unfold Query.many2many. destruct (many_loop_ok tags [] None (λ _, True) Hd (λ _, I)) as (final&->&Hfin). simpl app.
  cbn [mbind option_bind]. destruct (metric_query_finds m) as (r0&->&H0). cbn [mbind option_bind]. destruct final as [f|].
  - destruct Hfin as [Hf Hne]. specialize (Hne eq_refl). destruct (finds_intersection f r0 _ _ Hf (once_finds _ _ H0)) as (r1&->&_&H1).
    cbn [mbind option_bind]. destruct (metric_filter_finds m r1 (group_ok tags)) as (r2&->&H2).
    { eapply once_ext; [|apply H1; by right]. intros e _. cbv beta. tauto. }
    cbn [mbind option_bind].
    destruct (filter_any_finds (λ e, Exists (λ p, p ∈ se_tags e) (pairs_of tags)) _ r2 _ (name_any_tag (pairs_of tags)) H2) as (t&->&Hall&_).
    exists t. split; [done|]. apply Hall. intros e _ [_ Hg]. unfold group_ok in Hg. rewrite Forall_forall in Hg.
    destruct (pairs_of tags) as [|p ps] eqn:Ep; [done|]. assert (p ∈ pairs_of tags) as Hp by (rewrite Ep; by left).
    unfold pairs_of in Hp. apply list_elem_of_bind in Hp as (g&Hp&Hin). rewrite <- Ep. apply Exists_exists.
    destruct (Hg g Hin) as [E|(v&Hv&Hh)%Exists_exists]; [rewrite E in Hp; by apply not_elem_of_nil in Hp|].
    exists (Query.pair_of g.1 v). split; [|done]. apply list_elem_of_bind. exists g. split; [|done]. apply list_elem_of_fmap. by exists v.
  - destruct Hfin as [_ Hnil]. apply (metric_filter_finds m r0 (group_ok tags)). eapply once_ext; [|exact H0]. intros e _. cbv beta. split; [|tauto].
    intros Hh. split; [|done]. unfold group_ok. apply Forall_forall. intros g Hg. left. destruct g.2 as [|v vs] eqn:E; [done|].
    exfalso. apply (not_elem_of_nil (Query.pair_of g.1 v)). rewrite <- Hnil. apply list_elem_of_bind. exists g. split; [|done]. rewrite E. by left.
Qed.

(** *** [IncludeIfHasTag] *)

Definition has_key (t : chars) (e : series) : Prop := ∃ v, has (Query.pair_of t v) e.

Lemma split_pair_inv u t v : Scan.split_pair u = Some (t, v) → u = Query.pair_of t v.
Proof.
  revert t. induction u as [|c u IH]; intros t E; [done|]. simpl in E. case_decide as Hc; [injection E as <- <-; by subst c|].
  destruct (Scan.split_pair u) as [[t' v']|] eqn:Eu; [|done]. injection E as <- <-. by rewrite (IH t' eq_refl).
Qed.

Lemma list_tag_values_elem m t v :
  v ∈ Idx.list_tag_values m t ix ↔ ∃ e u, e ∈ es ∧ se_metric e = m ∧ u ∈ se_tags e ∧ Scan.split_pair u = Some (t, v).
Proof.
  rewrite <- (ih_topology _ _ _ Hix m t v). unfold Idx.list_tag_values, Topology.list_tag_values.
  destruct (ix_topology ix !! m) as [tab|]; simpl; [|rewrite lookup_empty; simpl; set_solver].
  destruct (tab !! t) as [vs|]; simpl; [|set_solver]. apply elem_of_elements.
Qed.

Lemma list_tag_values_key m t : EQ ∉ t → ∀ v, v ∈ Idx.list_tag_values m t ix ↔ ∃ e, e ∈ es ∧ se_metric e = m ∧ has (Query.pair_of t v) e.
Proof.
  intros Ht v. rewrite list_tag_values_elem. split.
  - intros (e&u&He&Hm&Hu&->%split_pair_inv). by exists e.
  - intros (e&He&Hm&Hu). exists e, (Query.pair_of t v). split_and!; [done..|]. by apply split_pair_ok.
Qed.

Lemma map_insert_elem (F : chars → list chars) t l g :
  (∀ g, g ∈ l → g.2 = F g.1) → g ∈ Query.map_insert t (F t) l ↔ g = (t, F t) ∨ g ∈ l.
Proof.
  intros Hl. induction l as [|[t' vs] l IH]; simpl; [set_solver|]. assert (vs = F t') as -> by (apply (Hl (t', vs)); by left).
  case_decide as Ht; [subst t'; set_solver|]. destruct (Query.string_lt t t'); [set_solver|].
  rewrite elem_of_cons, IH by (intros; apply Hl; by right). rewrite elem_of_cons. tauto.
Qed.

Lemma insert_all_elem (F : chars → list chars) ts g l :
  (∀ g, g ∈ l → g.2 = F g.1) →
  g ∈ foldl (λ m t, Query.map_insert t (F t) m) l ts ↔ g ∈ l ∨ ∃ t, t ∈ ts ∧ g = (t, F t).
Proof.
  revert l. induction ts as [|t ts IH]; intros l Hl; simpl; [set_solver|]. rewrite IH.
  - rewrite map_insert_elem by done. set_solver.
  - intros g' [->|Hg]%map_insert_elem; [done|by apply Hl|done].
Qed.

Lemma has_tag_ok m ts :
  Forall (λ t, EQ ∉ t) ts → (∀ e p, e ∈ es → has p e → distinct p) →
  ∃ r, Query.has_tag ix m ts = Some r ∧
    finds_once r (λ e, se_metric e = m ∧ ∀ t, t ∈ ts → (∃ e', e' ∈ es ∧ se_metric e' = m ∧ has_key t e') → has_key t e).
Proof.
  intros Hts Hd. rewrite Forall_forall in Hts. unfold Query.has_tag. set (F := λ t, Idx.list_tag_values m t ix). set (tags := foldl _ _ _).
  assert (Htags : ∀ g, g ∈ tags ↔ ∃ t, t ∈ ts ∧ g = (t, F t)).
  { intros g. etrans; [apply (insert_all_elem F ts g []); by intros ? ?%not_elem_of_nil|]. set_solver. }
  destruct (many2many_ok m tags) as (r&->&Hr).
  { apply Forall_forall. intros p (g&Hp&(t&Ht&->)%Htags)%list_elem_of_bind. cbn [fst snd] in Hp.
    apply list_elem_of_fmap in Hp as (v&->&(e&He&_&Hh)%list_tag_values_key); [|by apply Hts]. by eapply Hd. }
  exists r. split; [done|]. eapply once_ext; [|exact Hr]. intros e He. cbv beta. unfold group_ok. rewrite Forall_forall. split.
  - intros [Hm Hg]. split; [done|]. intros t Ht (e'&He'&Hm'&v&Hv).
    destruct (Hg (t, F t)) as [E|(w&_&Hw)%Exists_exists]; [apply Htags; by exists t| |by exists w]. cbn [snd] in E.
    exfalso. apply (not_elem_of_nil v). rewrite <- E. apply list_tag_values_key; [by apply Hts|]. by exists e'.
  - intros [Hm Hg]. split; [done|]. intros g (t&Ht&->)%Htags. cbn [fst snd]. destruct (F t) as [|v vs] eqn:E; [by left|right].
    assert (v ∈ F t) as Hv by (rewrite E; by left). apply list_tag_values_key in Hv as (e'&He'&Hm'&Hv); [|by apply Hts].
    destruct (Hg t Ht) as (w&Hw); [exists e'; split_and!; [done..|]; by exists v|]. apply Exists_exists. exists w. split; [|done].
    rewrite <- E. apply list_tag_values_key; [by apply Hts|]. by exists e.
Qed.

(** ** All queries *)

(** What a query asks for: the series of the metric that have all the pairs; for
    each tag one of its values; each of the tags; none of the pairs.  No meaning
    is written down for [JoinByTags]. *)
Definition matches (q : IndexQueryNode) (e : series) : Prop :=
  match q with
  | IncludeIfAllTagsMatch m pairs => se_metric e = m ∧ Forall (λ p, has p e) pairs
  | IncludeMany2Many m tags => se_metric e = m ∧ Forall (λ g, Exists (λ v, has (Query.pair_of g.1 v) e) g.2) tags
  | IncludeIfHasTag m ts => se_metric e = m ∧ Forall (λ t, has_key t e) ts
  | ExcludeTags m pairs => se_metric e = m ∧ Forall (λ p, ¬ has p e) pairs
  | JoinByTags _ _ => False
  end.

(** The queries that the code answers so.  No pair that it looks up shares its hash
    with another tag of the index: a series found by the hash alone makes the
    check of the names empty the whole result.  There is a pair
    ([IncludeIfAllTagsMatch]), there are values for each tag ([IncludeMany2Many]),
    and each tag is one that some series of the metric has ([IncludeIfHasTag]):
    otherwise nothing is found, or the tag is not looked at. *)
Definition query_ok (q : IndexQueryNode) : Prop :=
  match q with
  | IncludeIfAllTagsMatch _ pairs => pairs ≠ [] ∧ Forall distinct pairs
  | ExcludeTags _ pairs => Forall distinct pairs
  | IncludeMany2Many _ tags => Forall (λ g, g.2 ≠ []) tags ∧ Forall distinct (pairs_of tags)
  | IncludeIfHasTag m ts =>
    Forall (λ t, EQ ∉ t ∧ ∃ e, e ∈ es ∧ se_metric e = m ∧ has_key t e) ts ∧ ∀ e p, e ∈ es → has p e → distinct p
  | JoinByTags _ _ => False
  end.

Lemma query_finds q : query_ok q → ∃ r, Query.query ix q = Some r ∧ finds_once r (matches q).
Proof.
  assert (Hweak : ∀ r P Q, (∃ t, r = Some t ∧ finds_once t P) → (∀ e, e ∈ es → P e ↔ Q e) → ∃ t, r = Some t ∧ finds_once t Q).
  { intros r P Q (t&->&Ht) HPQ. exists t. split; [done|]. by eapply once_ext. }
  destruct q as [m pairs|m tags|m ts|m pairs|ms pairs]; simpl; intros Hq.
  - destruct Hq as [Hne Hd]. eapply Hweak; [by apply include_all_ok|]. intros e _. cbn [matches]. tauto.
  - destruct Hq as [Hne Hd]. eapply Hweak; [by apply many2many_ok|]. intros e _. cbn [matches]. unfold group_ok. rewrite !Forall_forall in *.
    split; intros [Hm Hg]; (split; [done|]); intros g Hin; [destruct (Hg g Hin) as [E|?]; [by destruct (Hne g Hin)|done]|right; by apply Hg].
  - destruct Hq as [Ht Hd]. eapply Hweak; [apply has_tag_ok; [eapply Forall_impl; [exact Ht|by intros t [? _]]|done]|]. intros e _. cbn [matches].
    rewrite Forall_forall in Ht |- *. split; intros [Hm Hg]; (split; [done|]); intros t Hin; [|intros _; by apply Hg]. apply Hg; [done|]. by apply Ht.
  - by apply exclude_ok.
  - done.
Qed.

Lemma finds_names r P :
  finds_once r P → ∃ l, sublist l es ∧ (∀ e, e ∈ l ↔ e ∈ es ∧ P e) ∧ PList.values r = Some (se_id <$> l) ∧
    Results.names (ix_pool ix) r = Some (name_of <$> l).
Proof.
  intros (vs&Hv&Rv&Iv). exists (filter (λ e, se_id e ∈ vs) es). set (l := filter _ es).
  assert (Hl : ∀ e, e ∈ l ↔ e ∈ es ∧ P e).
  { intros e. unfold l. rewrite list_elem_of_filter, (Iv (se_id e)). split; [|intros [? ?]; split; [by exists e|done]].
    intros [(e'&He'&Ee'&HP) He]. by assert (e' = e) as <- by (by apply id_inj). }
  assert (Hsub : sublist l es) by apply sublist_filter.
  assert (E : se_id <$> l = vs).
  { assert (Sl : StronglySorted Z.lt (se_id <$> l)) by (eapply sorted_sublist; [by apply fmap_sublist|apply (ih_ids _ _ _ Hix)]).
    eapply StronglySorted_unique; [|exact Sl|exact Rv|]; [intros x y ? ?; lia|].
    apply NoDup_Permutation; [by apply strict_nodup..|]. intros z. rewrite (Iv z), list_elem_of_fmap. split.
    - intros (e&->&[? ?]%Hl). by exists e.
    - intros (e&He&<-&HP). exists e. split; [done|]. by apply Hl. }
  assert (Ev : PList.values r = Some (se_id <$> l)) by (rewrite E; apply values_ok; [done|by eapply once_small]).
  split_and!; [done..|]. unfold Results.names. rewrite Ev. cbn [mbind option_bind]. apply mapM_Some.
  assert (Hin : ∀ e, e ∈ l → e ∈ es) by (intros e [? _]%Hl; done). clearbody l. clear - Hin Hix. induction l as [|e l IH]; [constructor|].
  rewrite !fmap_cons. constructor; [apply entry_ok, Hin; by left|]. apply IH. intros e' He'. apply Hin. by right.
Qed.

End Finds.

(** ** Appending names *)

Section Append.
Context `{StdSort}.

Fixpoint append_names (ss : list chars) (ix : Index) : option Index :=
  match ss with
  | [] => Some ix
  | s :: ss => '(status, _, ix) ← Idx.append s ix; if decide (status = kOk) then append_names ss ix else None
  end.

(** The name [s] is one with metric [x.1] and tags [x.2]. *)
Definition named (s : chars) (x : chars * list chars) : Prop :=
  Parse.to_canonical_form s 0x1000 = Some (kOk, canon x.1 x.2, S (length x.1)) ∧ series_ok x.1 x.2.
Definition parts (e : series) : chars * list chars := (se_metric e, se_tags e).

Lemma holds_weaken k ix es : ix_holds (S k) ix es → ix_holds k ix es.
Proof.
  intros Hix. destruct Hix as [[Hb Hk] ????????Hz]. constructor; try done; [split; [done|lia]|lia].
Qed.

Lemma append_names_ok ss xs k ix es :
  ix_holds (length ss + k) ix es → NoDup (parts <$> es) → Forall2 named ss xs →
  ∃ ix' es', append_names ss ix = Some ix' ∧ ix_holds k ix' es' ∧ NoDup (parts <$> es') ∧
    ∃ more, es' = es ++ more ∧ sublist (parts <$> more) xs ∧ ∀ x, x ∈ parts <$> es' ↔ x ∈ parts <$> es ∨ x ∈ xs.
Proof.
  intros Hix Hnd Hss. revert ix es Hix Hnd. induction Hss as [|s [m σ] ss xs [Hc Hok] Hss IH]; intros ix es Hix Hnd.
  - exists ix, es. split_and!; [done..|]. exists []. rewrite app_nil_r. split_and!; [done..|]. set_solver.
  - cbn [append_names]. cbn [fst snd] in Hc, Hok. destruct (index_append_ok (length ss + k) ix es s m σ Hix Hc Hok) as [(e&He&Em&Et&->)|(id&ix1&->&H1&Hnew)];
      cbn [mbind option_bind]; rewrite decide_True by done.
    + destruct (IH ix es) as (ix'&es'&->&Hix'&Hnd'&more&->&Hsub&Hin); [by apply holds_weaken|done|]. exists ix', (es ++ more). split_and!; [done..|].
      exists more. split_and!; [done|by constructor|]. intros x. rewrite Hin, elem_of_cons.
      assert ((m, σ) ∈ parts <$> es) by (apply list_elem_of_fmap; exists e; unfold parts; by rewrite Em, Et). split; [tauto|]. intros [?|[->|?]]; tauto.
    + destruct (IH ix1 (es ++ [mkSeries id m σ])) as (ix'&es'&->&Hix'&Hnd'&more&->&Hsub&Hin); [done| |].
      { rewrite fmap_app. apply NoDup_app. split_and!; [done| |apply NoDup_singleton]. intros x (e&->&He)%list_elem_of_fmap Hx.
        apply list_elem_of_singleton in Hx. injection Hx as E1 E2. by apply (Hnew e He). }
      eexists ix', _. split_and!; [done..|]. exists (mkSeries id m σ :: more). rewrite <- app_assoc. split_and!; [done|by constructor|].
      intros x. rewrite app_assoc, Hin, fmap_app, elem_of_app, elem_of_cons. change (parts <$> [mkSeries id m σ]) with [(m, σ)].
      rewrite list_elem_of_singleton. tauto.
Qed.


End Append.

Definition sample_series : list (chars * list chars) :=
  [(str "cpu", [str "dc=x"; str "host=b"]); (str "mem", [str "host=b"]); (str "cpu", [str "dc=x"; str "host=b"])].
Definition sample_query : IndexQueryNode := IncludeMany2Many (str "cpu") [(str "dc", [str "x"; str "y"]); (str "host", [str "b"])].

Lemma plain_tag_pair k v :
  k ≠ [] → bool_decide (EQ ∉ k) = true → bool_decide (SPACE ∉ v) = true → forallb (λ c, negb (Parse.is_space c)) k = true →
  plain_tag (Query.pair_of k v).
Proof.
  intros Hk He%bool_decide_eq_true Hv%bool_decide_eq_true Hf. exists k, v. split_and!; [done..| |done]. apply Forall_forall. intros c Hc.
  rewrite forallb_forall in Hf. specialize (Hf c). rewrite <- list_elem_of_In in Hf. specialize (Hf Hc). by apply negb_true_iff in Hf.
Qed.


(** Two pairs with one hash: the query for [k=bA] finds nothing, although one
    series has it. *)
Lemma index_collision :
  StringTools.hash (str "k=bA") = StringTools.hash (str "k=ab") ∧
  (ix ← append_names [str "cpu k=bA host=b"; str "cpu k=ab host=a"] Idx.make;
   r ← Query.query ix (IncludeMany2Many (str "cpu") [(str "k", [str "bA"])]); PList.values r) = Some [].
Proof. vm_compute. split; reflexivity. Qed.
