(* ===== verification/LogFrame.v ===== *)
(** * Frames of the write-ahead log (input_log.h, [LZ4Volume::Frame]; input_log.cc,
    [MutableEntry])

    A frame is a block of 8192 bytes: a header of 24 and a body that is either
    three arrays (ids, timestamps, values) or a heap of strings that grows from
    the front with a table of 16-byte entries that grows from the back.  The
    header is kept as fields, the body as its bytes; a double is its bit pattern. *)
From S2P Require Import Prelude Status StringPool.

Notation bytes := (list Z).

Record Frame := mkFrame { fr_type : Z; fr_magic : Z; fr_seq : Z; fr_size : Z; fr_body : bytes }.

(** [FrameType] *)
Notation EMPTY := 0 (only parsing).
Notation DATA_ENTRY := 1 (only parsing).
Notation SNAME_ENTRY := 2 (only parsing).
Notation RECOVERY_ENTRY := 4 (only parsing).

Module Frame.

Definition BLOCK_SIZE : nat := Z.to_nat 0x2000.
Definition HEADER_SIZE : nat := 24.
Definition FRAME_TUPLE_SIZE : nat := 24.
Definition NUM_TUPLES : nat := (BLOCK_SIZE - HEADER_SIZE) / FRAME_TUPLE_SIZE.
(** [sizeof(data)] *)
Definition DATA_SIZE : nat := BLOCK_SIZE - HEADER_SIZE.

(** [memset(&frames_[i], 0, BLOCK_SIZE)] *)
Definition cleared : Frame := mkFrame 0 0 0 0 (replicate DATA_SIZE 0).

(** The frame as it sits in memory: the fields of the header are aligned. *)
Definition block (f : Frame) : bytes :=
  le_bytes 1 (fr_type f) ++ [0] ++ le_bytes 2 (fr_magic f) ++ replicate 4 0 ++ le_bytes 8 (fr_seq f) ++
  le_bytes 4 (fr_size f) ++ replicate 4 0 ++ fr_body f.
Definition of_block (b : bytes) : Frame :=
  mkFrame (le_val (take 1 b)) (le_val (take 2 (drop 2 b))) (le_val (take 8 (drop 8 b))) (le_val (take 4 (drop 16 b))) (drop 24 b).

Definition set_type (t : Z) (f : Frame) : Frame := mkFrame t (fr_magic f) (fr_seq f) (fr_size f) (fr_body f).
Definition set_size (n : Z) (f : Frame) : Frame := mkFrame (fr_type f) (fr_magic f) (fr_seq f) n (fr_body f).
Definition set_body (b : bytes) (f : Frame) : Frame := mkFrame (fr_type f) (fr_magic f) (fr_seq f) (fr_size f) b.
Definition stamp (magic seq : Z) (f : Frame) : Frame := mkFrame (fr_type f) magic seq (fr_size f) (fr_body f).

(** A range of the body; outside of it [None]. *)
Definition get (off : Z) (n : nat) (b : bytes) : option bytes :=
  if decide (0 ≤ off ∧ off + Z.of_nat n ≤ Z.of_nat (length b)) then Some (take n (drop (Z.to_nat off) b)) else None.
Definition put (off : Z) (src : bytes) (b : bytes) : option bytes :=
  if decide (0 ≤ off ∧ off + Z.of_nat (length src) ≤ Z.of_nat (length b))
  then Some (take (Z.to_nat off) b ++ src ++ drop (Z.to_nat off + length src) b) else None.
Definition get64 (off : Z) (b : bytes) : option Z := v ← get off 8 b; Some (le_val v).
Definition put64 (off v : Z) (b : bytes) : option bytes := put off (le_bytes 8 v) b.

End Frame.

(** ** Frames of points *)

Module DataEntry.

(** The [k]-th array at [ix]; an index past its end is an error of the program. *)
Definition slot (k : nat) (ix : Z) : option Z :=
  if decide (0 ≤ ix < Z.of_nat Frame.NUM_TUPLES) then Some (8 * (Z.of_nat (k * Frame.NUM_TUPLES) + ix)) else None.

Definition add_point (id timestamp value : Z) (f : Frame) : option Frame :=
  o0 ← slot 0 (fr_size f); o1 ← slot 1 (fr_size f); o2 ← slot 2 (fr_size f);
  b ← Frame.put64 o0 id (fr_body f);
  b ← Frame.put64 o1 timestamp b;
  b ← Frame.put64 o2 value b;
  Some (Frame.set_size (u32 (fr_size f + 1)) (Frame.set_body b f)).

Definition point (ix : Z) (f : Frame) : option (Z * Z * Z) :=
  o0 ← slot 0 ix; o1 ← slot 1 ix; o2 ← slot 2 ix;
  id ← Frame.get64 o0 (fr_body f);
  ts ← Frame.get64 o1 (fr_body f);
  x ← Frame.get64 o2 (fr_body f);
  Some (id, ts, x).

End DataEntry.

(** ** Frames of strings and arrays *)

Module MutableEntry.

(** The position of [vector[i]], for a negative [i]. *)
Definition vec (i : Z) : Z := Z.of_nat Frame.DATA_SIZE + 8 * i.

(** [Bits]: the length in the lower half of the word, the offset in the upper. *)
Definition bits_len (v : Z) : Z := v mod 2 ^ 32.
Definition bits_off (v : Z) : Z := v / 2 ^ 32.
Definition bits (len off : Z) : Z := len + 2 ^ 32 * off.

Definition get_space_and_offset (f : Frame) : option (Z * Z) :=
  let space_left := u32 (Z.of_nat Frame.DATA_SIZE - 16) in
  if decide (0 < fr_size f) then
    let index := fr_size f - 1 in
    v ← Frame.get64 (vec (-1 - index * 2)) (fr_body f);
    let write_offset := u32 (bits_off v + bits_len v) in
    let space_used := write_offset + fr_size f * 16 + 16 in
    Some (write_offset, if decide (space_left < space_used) then 0 else space_left - space_used)
  else Some (0, space_left).

Definition can_write (len : Z) (f : Frame) : option bool :=
  '(_, space_left) ← get_space_and_offset f; Some (bool_decide (len ≤ space_left)).

(** The id and the bytes of an entry. *)
Definition read_string (ix : Z) (f : Frame) : option (Z * bytes) :=
  v ← Frame.get64 (vec (-1 - ix * 2)) (fr_body f);
  id ← Frame.get64 (vec (-2 - ix * 2)) (fr_body f);
  s ← Frame.get (bits_off v) (Z.to_nat (bits_len v)) (fr_body f);
  Some (id, s).

(** The words of a range of bytes. *)
Fixpoint words (n : nat) (s : bytes) : list Z :=
  match n with O => [] | S n => le_val (take 8 s) :: words n (drop 8 s) end.

Definition read_array (ix : Z) (f : Frame) : option (Z * list Z) :=
  '(id, s) ← read_string ix f; Some (id, words (length s / 8) s).

Definition append (id : Z) (sname : bytes) (f : Frame) : option Frame :=
  '(write_offset, _) ← get_space_and_offset f;
  let len := Z.of_nat (length sname) in
  if decide (write_offset + len < Z.of_nat Frame.DATA_SIZE) then
    b ← Frame.put write_offset sname (fr_body f);
    let ix := fr_size f * -2 in
    b ← Frame.put64 (vec (ix - 1)) (bits len write_offset) b;
    b ← Frame.put64 (vec (ix - 2)) id b;
    Some (Frame.set_size (u32 (fr_size f + 1)) (Frame.set_body b f))
  else None.

End MutableEntry.

(** ** Rows *)

(** [InputLogRow] *)
Inductive Payload :=
  | InputLogDataPoint (timestamp value : Z)
  | InputLogSeriesName (value : bytes)
  | InputLogRecoveryInfo (data : list Z).
Record InputLogRow := mkRow { row_id : Z; row_payload : Payload }.

(** The rows of a frame from [ix]; a frame of another type is bad data. *)
Definition frame_row (f : Frame) (ix : Z) : option InputLogRow :=
  if decide (fr_type f = DATA_ENTRY) then '(id, ts, x) ← DataEntry.point ix f; Some (mkRow id (InputLogDataPoint ts x))
  else if decide (fr_type f = SNAME_ENTRY) then '(id, s) ← MutableEntry.read_string ix f; Some (mkRow id (InputLogSeriesName s))
  else '(id, l) ← MutableEntry.read_array ix f; Some (mkRow id (InputLogRecoveryInfo l)).

Definition known_type (f : Frame) : bool :=
  bool_decide (fr_type f = DATA_ENTRY ∨ fr_type f = SNAME_ENTRY ∨ fr_type f = RECOVERY_ENTRY).

Fixpoint frame_rows (f : Frame) (ix : Z) (n : nat) : option (list InputLogRow) :=
  match n with
  | O => Some []
  | S n => r ← frame_row f ix; rs ← frame_rows f (ix + 1) n; Some (r :: rs)
  end.

(** ** What is put into a frame of the log is read from it *)

(** ** Ranges of a body *)

Section Ranges.
Import Frame.

Lemma frame_put_ok off src b :
  0 ≤ off → off + Z.of_nat (length src) ≤ Z.of_nat (length b) →
  ∃ b', put off src b = Some b' ∧ length b' = length b ∧ get off (length src) b' = Some src ∧
    ∀ o n, 0 ≤ o → o + Z.of_nat n ≤ off ∨ off + Z.of_nat (length src) ≤ o → get o n b' = get o n b.
Proof.
  intros H1 H2. unfold put. rewrite decide_True by done. eexists. split; [reflexivity|].
  set (k := Z.to_nat off). assert (Hk : (k + length src ≤ length b)%nat) by lia.
  assert (Hl : length (take k b ++ src ++ drop (k + length src) b) = length b) by (rewrite !length_app, length_take, length_drop; lia).
  split; [done|]. split.
  - unfold get. rewrite Hl, decide_True by lia. fold k. rewrite drop_app_length' by (rewrite length_take; lia). by rewrite take_app_length.
  - intros o n Ho Hdis. unfold get. rewrite Hl. case_decide as Hin; [|done]. f_equal. destruct Hdis as [Hd|Hd].
    + apply list_eq. intros i. destruct (decide (i < n)%nat) as [Hi|Hi].
      * rewrite !lookup_take_lt, !lookup_drop by done. rewrite lookup_app_l by (rewrite length_take; lia). by rewrite lookup_take_lt by lia.
      * by rewrite !lookup_take_ge by lia.
    + rewrite app_assoc, drop_app_ge by (rewrite length_app, length_take; lia). rewrite drop_drop. f_equal. f_equal.
      rewrite length_app, length_take. lia.
Qed.

Lemma put64_ok off v b :
  0 ≤ off → off + 8 ≤ Z.of_nat (length b) → is_u64 v →
  ∃ b', put64 off v b = Some b' ∧ length b' = length b ∧ get64 off b' = Some v ∧
    ∀ o n, 0 ≤ o → o + Z.of_nat n ≤ off ∨ off + 8 ≤ o → get o n b' = get o n b.
Proof.
  intros H1 H2 Hv. unfold put64. destruct (frame_put_ok off (le_bytes 8 v) b) as (b'&->&Hl&Hg&Hd); [done|by rewrite length_le_bytes|].
  rewrite length_le_bytes in *. exists b'. split_and!; [done..| |done]. unfold get64. rewrite Hg. cbn [mbind option_bind].
  by rewrite le_val_bytes_id.
Qed.

Lemma get64_eq o b b' : get o 8 b' = get o 8 b → get64 o b' = get64 o b.
Proof. unfold get64. by intros ->. Qed.

Lemma get_length o n b s : get o n b = Some s → length s = n.
Proof. unfold get. case_decide as H; [|done]. intros [= <-]. rewrite length_take, length_drop. lia. Qed.

Lemma DATA_SIZE_val : Z.of_nat DATA_SIZE = 8168. Proof. by vm_compute. Qed.
Lemma NUM_TUPLES_val : Z.of_nat NUM_TUPLES = 340. Proof. by vm_compute. Qed.

(** *** The frame as a block *)

Definition header_ok (f : Frame) : Prop :=
  is_u8 (fr_type f) ∧ is_u16 (fr_magic f) ∧ is_u64 (fr_seq f) ∧ is_u32 (fr_size f) ∧ length (fr_body f) = DATA_SIZE.

Lemma block_length f : header_ok f → length (block f) = BLOCK_SIZE.
Proof.
  intros (_&_&_&_&Hb). unfold block. rewrite !length_app, !length_le_bytes, !length_replicate, Hb. by vm_compute.
Qed.

Lemma of_block_block f : header_ok f → of_block (block f) = f.
Proof.
  intros (Ht&Hm&Hs&Hz&_). destruct f as [t m s z b]. cbn [fr_type fr_magic fr_seq fr_size fr_body] in *.
  unfold block. cbn [fr_type fr_magic fr_seq fr_size fr_body].
  pose proof (le_val_bytes_id 1 t Ht) as E1. pose proof (le_val_bytes_id 2 m Hm) as E2.
  pose proof (le_val_bytes_id 8 s Hs) as E3. pose proof (le_val_bytes_id 4 z Hz) as E4.
  pose proof (length_le_bytes 1 t) as L1. pose proof (length_le_bytes 2 m) as L2. pose proof (length_le_bytes 8 s) as L3. pose proof (length_le_bytes 4 z) as L4.
  destruct (le_bytes 1 t) as [|t0 [|]]; try done. destruct (le_bytes 2 m) as [|m0 [|m1 [|]]]; try done.
  destruct (le_bytes 8 s) as [|s0 [|s1 [|s2 [|s3 [|s4 [|s5 [|s6 [|s7 [|]]]]]]]]]; try done. destruct (le_bytes 4 z) as [|z0 [|z1 [|z2 [|z3 [|]]]]]; try done.
  cbn [app replicate]. unfold of_block. cbn [take drop]. by rewrite E1, E2, E3, E4.
Qed.

Lemma block_u8 f : Forall is_u8 (fr_body f) → Forall is_u8 (block f).
Proof.
  intros Hb. unfold block. repeat (apply Forall_app; split); try apply le_bytes_u8; try done; repeat constructor; by vm_compute.
Qed.

End Ranges.

(** ** Frames of points *)

Section Points.
Import DataEntry.

Record data_ok (f : Frame) (ps : list (Z * Z * Z)) : Prop := {
  do_body : length (fr_body f) = Frame.DATA_SIZE;
  do_size : fr_size f = Z.of_nat (length ps);
  do_few : (length ps ≤ Frame.NUM_TUPLES)%nat;
  do_point i p : ps !! i = Some p → point (Z.of_nat i) f = Some p;
}.

Lemma slot_ok k ix : 0 ≤ ix < 340 → slot k ix = Some (8 * (340 * Z.of_nat k + ix)).
Proof.
  intros H. unfold slot. pose proof Frame.NUM_TUPLES as _. pose proof NUM_TUPLES_val as E. rewrite decide_True by lia.
  f_equal. rewrite Nat2Z.inj_mul, E. lia.
Qed.

Definition point_ok (p : Z * Z * Z) : Prop := is_u64 p.1.1 ∧ is_u64 p.1.2 ∧ is_u64 p.2.

Lemma entry_point_ok f ps id ts x :
  data_ok f ps → (length ps < Frame.NUM_TUPLES)%nat → point_ok (id, ts, x) →
  ∃ f', add_point id ts x f = Some f' ∧ data_ok f' (ps ++ [(id, ts, x)]) ∧
    fr_type f' = fr_type f ∧ fr_magic f' = fr_magic f ∧ fr_seq f' = fr_seq f.
Proof.
  intros [Hb Hs Hf Hp] Hlt (H1&H2&H3). cbn [fst snd] in *. pose proof NUM_TUPLES_val as EN. pose proof DATA_SIZE_val as ED.
  unfold add_point. rewrite Hs, !slot_ok by lia. cbn [mbind option_bind]. set (n := Z.of_nat (length ps)) in *. assert (Hn : 0 ≤ n < 340) by lia.
  destruct (put64_ok (8 * (340 * Z.of_nat 0 + n)) id (fr_body f)) as (b1&->&L1&G1&D1); [lia|lia|done|]. cbn [mbind option_bind].
  destruct (put64_ok (8 * (340 * Z.of_nat 1 + n)) ts b1) as (b2&->&L2&G2&D2); [lia|lia|done|]. cbn [mbind option_bind].
  destruct (put64_ok (8 * (340 * Z.of_nat 2 + n)) x b2) as (b3&->&L3&G3&D3); [lia|lia|done|]. cbn [mbind option_bind].
  eexists. split; [reflexivity|]. split; [|exact (conj eq_refl (conj eq_refl eq_refl))]. constructor; cbn [fr_body fr_size Frame.set_size Frame.set_body].
  - congruence.
  - rewrite length_app, u32_id by (unfold is_u32; lia). simpl. lia.
  - rewrite length_app. simpl. lia.
  - intros i p. destruct (decide (i = length ps)) as [->|Hne].
    + rewrite lookup_app_r, Nat.sub_diag by done. intros [= <-]. unfold point. fold n. rewrite !slot_ok by lia. cbn [mbind option_bind fr_body Frame.set_size Frame.set_body].
      assert (Frame.get64 (8 * (340 * Z.of_nat 0 + n)) b3 = Some id) as -> by (rewrite <- G1; apply get64_eq; rewrite D3, D2 by lia; done).
      assert (Frame.get64 (8 * (340 * Z.of_nat 1 + n)) b3 = Some ts) as -> by (rewrite <- G2; apply get64_eq; rewrite D3 by lia; done).
      cbn [mbind option_bind]. by rewrite G3.
    + intros Hi. apply lookup_app_Some in Hi as [Hi|[Hge Hi]]; [|apply list_lookup_singleton_Some in Hi; lia].
      pose proof (lookup_lt_Some _ _ _ Hi) as Hlen. rewrite <- (Hp i p Hi). unfold point. rewrite !slot_ok by lia.
      cbn [mbind option_bind fr_body Frame.set_size Frame.set_body].
      rewrite !(get64_eq _ (fr_body f) b3) by (rewrite D3, D2, D1 by lia; done). done.
Qed.

Lemma data_ok_cleared t : data_ok (Frame.set_type t Frame.cleared) [].
Proof. constructor; [by vm_compute|done|simpl; lia|done]. Qed.

End Points.

(** ** Frames of strings *)

Section Blobs.
Import MutableEntry.

Definition total (es : list (Z * bytes)) : Z := Z.of_nat (length (concat es.*2)).

Record blob_ok (f : Frame) (es : list (Z * bytes)) : Prop := {
  bo_body : length (fr_body f) = Frame.DATA_SIZE;
  bo_size : fr_size f = Z.of_nat (length es);
  bo_room : total es + 16 * Z.of_nat (length es) ≤ 8168;
  bo_entry i id s : es !! i = Some (id, s) → ∃ off,
    0 ≤ off ∧ off + Z.of_nat (length s) = total (take (S i) es) ∧
    Frame.get64 (vec (-1 - Z.of_nat i * 2)) (fr_body f) = Some (bits (Z.of_nat (length s)) off) ∧
    Frame.get64 (vec (-2 - Z.of_nat i * 2)) (fr_body f) = Some id ∧ Frame.get off (length s) (fr_body f) = Some s;
}.

Lemma bits_parts len off : 0 ≤ len < 2 ^ 32 → bits_len (bits len off) = len ∧ bits_off (bits len off) = off.
Proof.
  intros H. unfold bits_len, bits_off, bits. split; [rewrite (Z.mul_comm (2 ^ 32)), Z_mod_plus_full; by apply Z.mod_small|].
  rewrite (Z.mul_comm (2 ^ 32)), Z.div_add by done. rewrite Z.div_small by done. lia.
Qed.

Lemma total_app es1 es2 : total (es1 ++ es2) = total es1 + total es2.
Proof. unfold total. rewrite fmap_app, concat_app, length_app. lia. Qed.

Lemma total_take es n : total (take n es) ≤ total es.
Proof. rewrite <- (take_drop n es) at 2. rewrite total_app. unfold total. lia. Qed.

Lemma blob_string f es i id s : blob_ok f es → es !! i = Some (id, s) → read_string (Z.of_nat i) f = Some (id, s).
Proof.
  intros Hf Hi. destruct (bo_entry _ _ Hf i id s Hi) as (off&Ho&Ht&E1&E2&E3). unfold read_string. rewrite E1. cbn [mbind option_bind].
  rewrite E2. cbn [mbind option_bind]. pose proof (total_take es (S i)). pose proof (bo_room _ _ Hf).
  destruct (bits_parts (Z.of_nat (length s)) off) as [-> ->]; [lia|]. by rewrite Nat2Z.id, E3.
Qed.

(** What the frame says is left: 16 bytes less than there is, but for the first. *)
Definition space (es : list (Z * bytes)) : Z :=
  if decide (es = []) then 8152 else Z.max 0 (8136 - total es - 16 * Z.of_nat (length es)).

Lemma blob_space f es : blob_ok f es → get_space_and_offset f = Some (total es, space es).
Proof.
  intros Hf. unfold get_space_and_offset, space. rewrite (bo_size _ _ Hf). pose proof DATA_SIZE_val as ED. rewrite ED.
  change (u32 (8168 - 16)) with 8152. pose proof (bo_room _ _ Hf) as Hr. destruct es as [|e es0] eqn:Ees.
  - rewrite decide_False by (simpl; lia). by rewrite decide_True.
  - rewrite <- Ees in *. assert (Hpos : (0 < length es)%nat) by (rewrite Ees; simpl; lia). rewrite decide_True by lia.
    destruct (lookup_lt_is_Some_2 es (length es - 1)) as [[id s] Hl]; [lia|].
    destruct (bo_entry _ _ Hf _ _ _ Hl) as (off&Ho&Ht&E1&_). rewrite Nat2Z.inj_sub in E1 by lia. change (Z.of_nat 1) with 1 in E1. rewrite E1.
    cbn [mbind option_bind]. rewrite take_ge in Ht by lia.
    assert (0 ≤ total es) by (unfold total; lia). destruct (bits_parts (Z.of_nat (length s)) off) as [-> ->]; [lia|].
    rewrite Ht, u32_id by (unfold is_u32; lia).
    rewrite (decide_False (P := es = [])) by (by rewrite Ees). f_equal. f_equal. case_decide; lia.
Qed.

Lemma blob_append f es id s :
  blob_ok f es → 0 < space es → Z.of_nat (length s) ≤ space es → is_u64 id →
  ∃ f', append id s f = Some f' ∧ blob_ok f' (es ++ [(id, s)]) ∧ fr_type f' = fr_type f ∧ fr_magic f' = fr_magic f ∧ fr_seq f' = fr_seq f.
Proof.
  intros Hf Hpos Hs Hid. unfold append. rewrite (blob_space f es Hf). cbn [mbind option_bind]. pose proof DATA_SIZE_val as ED. rewrite ED.
  pose proof (bo_room _ _ Hf) as Hr. pose proof (bo_body _ _ Hf) as Hb. pose proof (bo_size _ _ Hf) as Hz.
  assert (Ht0 : 0 ≤ total es) by (unfold total; lia). assert (Hn0 : es = [] → total es = 0 ∧ length es = 0%nat) by (intros ->; split; reflexivity).
  set (n := Z.of_nat (length es)) in *. set (len := Z.of_nat (length s)) in *.
  assert (Hroom : total es + len + 16 * (n + 1) ≤ 8168).
  { unfold space in Hs, Hpos. case_decide as He; [destruct (Hn0 He); lia|lia]. }
  assert (Hlen : len = Z.of_nat (length s)) by done. assert (Hpos2 : 0 ≤ n ∧ 0 ≤ len) by lia. rewrite decide_True by lia.
  destruct (frame_put_ok (total es) s (fr_body f)) as (b1&->&L1&G1&D1); [lia|lia|]. cbn [mbind option_bind].
  assert (Hv : ∀ j, vec j = 8168 + 8 * j) by (intros j; unfold vec; rewrite ED; lia).
  assert (Hbits : is_u64 (bits len (total es))) by (unfold is_u64, bits; lia).
  destruct (put64_ok (vec (fr_size f * -2 - 1)) (bits len (total es)) b1) as (b2&->&L2&G2&D2); [rewrite Hv; lia|rewrite Hv; lia|done|].
  cbn [mbind option_bind].
  destruct (put64_ok (vec (fr_size f * -2 - 2)) id b2) as (b3&->&L3&G3&D3); [rewrite Hv; lia|rewrite Hv; lia|done|]. cbn [mbind option_bind].
  rewrite Hv in D2, D3. eexists. split; [reflexivity|]. split; [|exact (conj eq_refl (conj eq_refl eq_refl))]. constructor; cbn [fr_body fr_size Frame.set_size Frame.set_body].
  - congruence.
  - rewrite length_app, u32_id by (unfold is_u32; lia). simpl. lia.
  - rewrite length_app, total_app. unfold total at 2. simpl. rewrite app_nil_r. lia.
  - intros i id' s' Hi. destruct (decide (i = length es)) as [->|Hne].
    + rewrite lookup_app_r, Nat.sub_diag in Hi by done. injection Hi as <- <-. exists (total es). fold n len. split_and!; [lia| | | |].
      * rewrite take_ge by (rewrite length_app; simpl; lia). rewrite total_app. unfold total at 3. simpl. rewrite app_nil_r. done.
      * replace (-1 - n * 2) with (fr_size f * -2 - 1) by lia. by rewrite (get64_eq _ b2 b3) by (rewrite Hv, D3 by lia; done).
      * replace (-2 - n * 2) with (fr_size f * -2 - 2) by lia. done.
      * rewrite D3, D2 by lia. done.
    + apply lookup_app_Some in Hi as [Hi|[Hge Hi]]; [|apply list_lookup_singleton_Some in Hi as [Hi0 _]; lia].
      pose proof (lookup_lt_Some _ _ _ Hi) as Hilen. destruct (bo_entry _ _ Hf i id' s' Hi) as (off&Ho&Et&E1&E2&E3).
      pose proof (total_take es (S i)). exists off. split_and!; [done| | | |].
      * by rewrite take_app_le by lia.
      * rewrite <- E1. apply get64_eq. rewrite D3, D2, D1; [done|rewrite Hv; lia..].
      * rewrite <- E2. apply get64_eq. rewrite D3, D2, D1; [done|rewrite Hv; lia..].
      * rewrite <- E3. rewrite D3, D2, D1; [done|lia..].
Qed.

Lemma blob_ok_cleared t : blob_ok (Frame.set_type t Frame.cleared) [].
Proof. constructor; [by vm_compute|done|by vm_compute|]. intros i id s. by rewrite lookup_nil. Qed.

Lemma words_le l : Forall is_u64 l → words (length l) (concat (le_bytes 8 <$> l)) = l.
Proof.
  induction 1 as [|v l Hv _ IH]; [done|]. rewrite fmap_cons. cbn [concat length words]. rewrite take_app_length' by (by rewrite length_le_bytes).
  rewrite drop_app_length' by (by rewrite length_le_bytes). by rewrite IH, le_val_bytes_id.
Qed.

Lemma length_words l : length (concat (le_bytes 8 <$> l)) = (8 * length l)%nat.
Proof. induction l as [|v l IH]; [done|]. rewrite fmap_cons. cbn [concat length]. rewrite length_app, length_le_bytes, IH. lia. Qed.

End Blobs.

(** ** Bytes stay bytes *)

Section Bytes.

Lemma put_u8 off src b b' : Forall is_u8 src → Forall is_u8 b → Frame.put off src b = Some b' → Forall is_u8 b'.
Proof.
  intros Hs Hb. unfold Frame.put. case_decide; [|done]. intros [= <-]. repeat (apply Forall_app; split); auto using Forall_take, Forall_drop.
Qed.

Lemma put64_u8 off v b b' : Forall is_u8 b → Frame.put64 off v b = Some b' → Forall is_u8 b'.
Proof. intros Hb. apply put_u8; [apply le_bytes_u8|done]. Qed.

Lemma add_point_u8 id ts x f f' : Forall is_u8 (fr_body f) → DataEntry.add_point id ts x f = Some f' → Forall is_u8 (fr_body f').
Proof.
  intros Hb. unfold DataEntry.add_point. pose proof put64_u8 as Hput. revert Hput. generalize Frame.put64. intros put64 Hput E.
  simplify_option_eq. eauto.
Qed.

Lemma append_u8 id s f f' : Forall is_u8 s → Forall is_u8 (fr_body f) → MutableEntry.append id s f = Some f' → Forall is_u8 (fr_body f').
Proof.
  intros Hs Hb. unfold MutableEntry.append. pose proof put64_u8 as Hput. pose proof (put_u8) as Hput'. revert Hput Hput'.
  generalize Frame.put64 Frame.put. intros put64 put Hput Hput' E. destruct (MutableEntry.get_space_and_offset f) as [[off ?]|]; [|done].
  simplify_option_eq. eauto.
Qed.

End Bytes.

(** ** Rows *)

Section Rows.

Definition payload_type (p : Payload) : Z :=
  match p with InputLogDataPoint _ _ => DATA_ENTRY | InputLogSeriesName _ => SNAME_ENTRY | InputLogRecoveryInfo _ => RECOVERY_ENTRY end.

(** Rows that a frame can take. *)
Definition row_ok (r : InputLogRow) : Prop :=
  is_u64 (row_id r) ∧
  match row_payload r with
  | InputLogDataPoint ts x => is_u64 ts ∧ is_u64 x
  | InputLogSeriesName s => Forall is_u8 s ∧ Z.of_nat (length s) ≤ 8152
  | InputLogRecoveryInfo l => Forall is_u64 l ∧ 8 * Z.of_nat (length l) ≤ 8152
  end.

Definition point_row (p : Z * Z * Z) : InputLogRow := mkRow p.1.1 (InputLogDataPoint p.1.2 p.2).
Definition name_row (e : Z * bytes) : InputLogRow := mkRow e.1 (InputLogSeriesName e.2).
Definition array_row (e : Z * list Z) : InputLogRow := mkRow e.1 (InputLogRecoveryInfo e.2).
Definition array_entry (e : Z * list Z) : Z * bytes := (e.1, concat (le_bytes 8 <$> e.2)).

(** The frame holds the rows, which are all of its type. *)
Inductive content (f : Frame) : list InputLogRow → Prop :=
  | content_empty : fr_type f = EMPTY → fr_size f = 0 → content f []
  | content_data ps : fr_type f = DATA_ENTRY → data_ok f ps → content f (point_row <$> ps)
  | content_name es : fr_type f = SNAME_ENTRY → blob_ok f es → content f (name_row <$> es)
  | content_array es : fr_type f = RECOVERY_ENTRY → blob_ok f (array_entry <$> es) → Forall (λ e, Forall is_u64 e.2) es → content f (array_row <$> es).

Record frame_ok (f : Frame) (rows : list InputLogRow) : Prop := {
  fo_content : content f rows;
  fo_body : length (fr_body f) = Frame.DATA_SIZE;
  fo_u8 : Forall is_u8 (fr_body f);
  fo_magic : is_u16 (fr_magic f);
  fo_seq : is_u64 (fr_seq f);
}.

Lemma content_size f rows : content f rows → fr_size f = Z.of_nat (length rows) ∧ (length rows ≤ 511)%nat.
Proof.
  assert (Hb : ∀ es, blob_ok f es → (length es ≤ 511)%nat).
  { intros es Hes. pose proof (bo_room _ _ Hes). unfold total in *. lia. }
  intros [Ht Hs|ps Ht Hp|es Ht He|es Ht He Hu].
  - split; [done|simpl; lia].
  - rewrite length_fmap. split; [apply (do_size _ _ Hp)|]. pose proof (do_few _ _ Hp). pose proof NUM_TUPLES_val. lia.
  - rewrite length_fmap. split; [apply (bo_size _ _ He)|by apply Hb].
  - rewrite length_fmap. pose proof (Hb _ He) as Hl. rewrite length_fmap in Hl. split; [|done]. rewrite (bo_size _ _ He). by rewrite length_fmap.
Qed.

Lemma content_row f rows i r : content f rows → rows !! i = Some r → frame_row f (Z.of_nat i) = Some r.
Proof.
  intros [Ht Hs|ps Ht Hp|es Ht He|es Ht He Hu] Hi; [done|..]; rewrite list_lookup_fmap in Hi; apply fmap_Some in Hi as (e&Hi&->); unfold frame_row; rewrite Ht.
  - rewrite decide_True by done. rewrite (do_point _ _ Hp _ _ Hi). by destruct e as [[??]?].
  - rewrite decide_False, decide_True by done. destruct e as [id s]. by rewrite (blob_string _ _ _ _ _ He Hi).
  - rewrite !decide_False by done. unfold MutableEntry.read_array. destruct e as [id l].
    rewrite (blob_string _ _ _ id (concat (le_bytes 8 <$> l)) He) by (rewrite list_lookup_fmap, Hi; done). cbn [mbind option_bind].
    rewrite length_words, Nat.mul_comm, Nat.div_mul by done. rewrite words_le; [done|]. rewrite Forall_forall in Hu.
    apply (Hu (id, l)). by eapply list_elem_of_lookup_2.
Qed.

Lemma content_rows f rows k n :
  content f rows → (k + n ≤ length rows)%nat → frame_rows f (Z.of_nat k) n = Some (take n (drop k rows)).
Proof.
  intros Hc. revert k. induction n as [|n IH]; intros k Hk; [done|]. cbn [frame_rows].
  destruct (lookup_lt_is_Some_2 rows k) as [r Hr]; [lia|]. rewrite (content_row f rows k r Hc Hr). cbn [mbind option_bind].
  replace (Z.of_nat k + 1) with (Z.of_nat (S k)) by lia. rewrite IH by lia. cbn [mbind option_bind]. by rewrite (drop_S rows r k Hr).
Qed.

Lemma content_known f rows : content f rows → rows ≠ [] → known_type f = true.
Proof. intros [Ht Hs|ps Ht|es Ht|es Ht]; intros Hne; [done|..]; unfold known_type; apply bool_decide_eq_true_2; tauto. Qed.

Lemma frame_header f rows : frame_ok f rows → header_ok f.
Proof.
  intros Hf. destruct (content_size _ _ (fo_content _ _ Hf)) as [Hs Hl]. split_and!; try apply Hf.
  - destruct (fo_content _ _ Hf) as [Ht|? Ht|? Ht|? Ht]; rewrite Ht; by vm_compute.
  - rewrite Hs. unfold is_u32. lia.
Qed.

Lemma content_stamp m s f rows : content f rows → content (Frame.stamp m s f) rows.
Proof.
  intros [Ht Hs|ps Ht [?? ? Hp]|es Ht [??? He]|es Ht [??? He] Hu];
    [by apply content_empty|apply content_data; [done|]|apply content_name; [done|]|apply content_array; [done| |done]]; constructor; try done.
Qed.

Lemma frame_stamp m s f rows : is_u16 m → is_u64 s → frame_ok f rows → frame_ok (Frame.stamp m s f) rows.
Proof. intros Hm Hs [Hc Hb Hu _ _]. constructor; try done. by apply content_stamp. Qed.

Lemma cleared_ok : frame_ok Frame.cleared [].
Proof.
  constructor; [by apply content_empty|by vm_compute| |done|done]. unfold Frame.cleared. cbn [fr_body]. by apply Forall_replicate.
Qed.

(** An empty frame that was given a type. *)
Lemma typed_ok p : frame_ok (Frame.set_type (payload_type p) Frame.cleared) [].
Proof.
  destruct cleared_ok as [_ Hb Hu Hm Hs]. constructor; [|exact Hb|exact Hu|exact Hm|exact Hs]. destruct p; cbn [payload_type].
  - apply (content_data _ []); [done|apply data_ok_cleared].
  - apply (content_name _ []); [done|apply blob_ok_cleared].
  - apply (content_array _ []); [done|apply (blob_ok_cleared RECOVERY_ENTRY)|constructor].
Qed.

End Rows.
