(* ===== verification/LogVolume.v ===== *)
(** * Volumes of the write-ahead log (input_log.cc, [LZ4Volume])

    A volume fills one frame at a time and writes it, compressed, to its file.
    LZ4 is an interface; the directory of the log is a map from names to bytes. *)
From S2P Require Import Prelude Status StringPool LogFrame.

(** ** LZ4 in streaming mode

    Both sides keep state between blocks; [LZ4_resetStream] and
    [LZ4_setStreamDecode] are the initial ones. *)

Definition LZ4_COMPRESSBOUND (n : Z) : Z := n + n / 255 + 16.

Class LZ4 := {
  lz4_stream : Type;
  lz4_decode : Type;
  LZ4_resetStream : lz4_stream;
  LZ4_setStreamDecode : lz4_decode;
  LZ4_compress_fast_continue : lz4_stream → bytes → bytes * lz4_stream;         (* nothing: an error *)
  LZ4_decompress_safe_continue : lz4_decode → bytes → nat → bytes * lz4_decode; (* nothing: an error *)
}.

(** A decoder that has seen the blocks so far decodes the next one; the frames of
    the log are double buffers on both sides. *)
Class LZ4Laws `{LZ4} := {
  lz4_sync : lz4_stream → lz4_decode → Prop;
  lz4_sync_init : lz4_sync LZ4_resetStream LZ4_setStreamDecode;
  lz4_roundtrip e d src : lz4_sync e d → src ≠ [] → Forall is_u8 src →
    (LZ4_compress_fast_continue e src).1 ≠ [] ∧
    Z.of_nat (length (LZ4_compress_fast_continue e src).1) ≤ LZ4_COMPRESSBOUND (Z.of_nat (length src)) ∧
    (LZ4_decompress_safe_continue d (LZ4_compress_fast_continue e src).1 (length src)).1 = src ∧
    lz4_sync (LZ4_compress_fast_continue e src).2 (LZ4_decompress_safe_continue d (LZ4_compress_fast_continue e src).1 (length src)).2;
}.

(** The interface can be implemented: blocks are stored. *)
#[export] Instance lz4_stored : LZ4 :=
  Build_LZ4 unit unit tt tt (λ _ src, (src, tt)) (λ _ src n, (take n src, tt)).

#[export] Instance lz4_stored_laws : LZ4Laws.
Proof.
  refine (Build_LZ4Laws lz4_stored (λ _ _, True) I _). intros e d src _ Hne _. cbn -[LZ4_COMPRESSBOUND]. rewrite take_ge by done.
  split_and!; [done| |done|done]. unfold LZ4_COMPRESSBOUND. pose proof (Z.div_pos (Z.of_nat (length src)) 255). lia.
Qed.

(** ** Files

    The directory, the counter of [LogSequencer], which all shards share, and the
    outcomes of the next writes and flushes: [Some n] for a write that fails after
    [n] bytes or for a flush that fails, and success when none is given. *)
Record World := mkWorld { w_files : gmap chars bytes; w_seq : Z; w_io : list (option nat) }.

Module Io.

(** [LogSequencer::next] *)
Definition next_seq (w : World) : Z * World := (w_seq w, mkWorld (w_files w) (u64 (w_seq w + 1)) (w_io w)).

Definition overwrite (off : nat) (src c : bytes) : bytes := take off c ++ src ++ drop (off + length src) c.

Definition write_file (path : chars) (off : nat) (src : bytes) (w : World) : World :=
  mkWorld (<[path := overwrite off src (default [] (w_files w !! path))]> (w_files w)) (w_seq w) (tail (w_io w)).

(** [_write_frame]: the size, then the bytes; the position moves by what was written. *)
Definition _write_frame (path : chars) (off : nat) (array : bytes) (w : World) : Status * nat * World :=
  let data := le_bytes 4 (Z.of_nat (length array)) ++ array in
  match w_io w with
  | Some n :: _ => (kErrIO, length (take n data), write_file path off (take n data) w)
  | _ => (kOk, length data, write_file path off data w)
  end.

(** [_flush_file]: the file is not buffered, so only the status matters. *)
Definition _flush_file (w : World) : Status * World :=
  (match w_io w with Some _ :: _ => kErrIO | _ => kOk end, mkWorld (w_files w) (w_seq w) (tail (w_io w))).

(** [_read_frame]: a short read is an error, at the end of the file. *)
Definition _read_frame (file : bytes) (off : nat) (array_size : Z) : Status * bytes * nat :=
  let rest := drop off file in
  if decide (length rest < 4)%nat then (kErrIO, [], length file) else
  let size := le_val (take 4 rest) in
  let n := Z.to_nat (Z.min array_size size) in
  if decide (length (drop 4 rest) < n)%nat then (kErrIO, [], length file) else (kOk, take n (drop 4 rest), (off + 4 + n)%nat).

End Io.

(** ** Volumes *)

Section Volume.
Context `{LZ4}.

Record LZ4Volume := mkVol {
  lv_path : chars;
  lv_frames : Frame * Frame;
  lv_pos : bool;                   (* the second frame *)
  lv_stream : lz4_stream;
  lv_decode : lz4_decode;
  lv_opened : bool;                (* file_ *)
  lv_off : nat;                    (* the position in the file *)
  lv_file_size : Z;
  lv_max_file_size : Z;
  lv_bitmap : gset Z;
  lv_is_read_only : bool;
  lv_bytes_to_read : Z;
  lv_elements_to_read : Z;
}.

End Volume.

Module Vol.
Section Vol.
Context `{LZ4}.
Implicit Types (v : LZ4Volume) (w : World).

Definition V1_MAGIC : Z := 1.
Definition BUFFER_SIZE : Z := LZ4_COMPRESSBOUND (Z.of_nat Frame.BLOCK_SIZE).

(** *** Fields *)

(** [frames_[pos_]] *)
Definition frame v : Frame := if lv_pos v then (lv_frames v).2 else (lv_frames v).1.
Definition set_frame (f : Frame) v : LZ4Volume :=
  mkVol (lv_path v) (if lv_pos v then ((lv_frames v).1, f) else (f, (lv_frames v).2)) (lv_pos v) (lv_stream v) (lv_decode v) (lv_opened v)
    (lv_off v) (lv_file_size v) (lv_max_file_size v) (lv_bitmap v) (lv_is_read_only v) (lv_bytes_to_read v) (lv_elements_to_read v).
(** [pos_ = (pos_ + 1) % 2; clear(pos_)] *)
Definition flip v : LZ4Volume :=
  set_frame Frame.cleared
    (mkVol (lv_path v) (lv_frames v) (negb (lv_pos v)) (lv_stream v) (lv_decode v) (lv_opened v)
      (lv_off v) (lv_file_size v) (lv_max_file_size v) (lv_bitmap v) (lv_is_read_only v) (lv_bytes_to_read v) (lv_elements_to_read v)).
Definition set_file (stream : lz4_stream) (off : nat) (size : Z) v : LZ4Volume :=
  mkVol (lv_path v) (lv_frames v) (lv_pos v) stream (lv_decode v) (lv_opened v)
    off size (lv_max_file_size v) (lv_bitmap v) (lv_is_read_only v) (lv_bytes_to_read v) (lv_elements_to_read v).
Definition set_reader (decode : lz4_decode) (off : nat) (todo elements : Z) v : LZ4Volume :=
  mkVol (lv_path v) (lv_frames v) (lv_pos v) (lv_stream v) decode (lv_opened v)
    off (lv_file_size v) (lv_max_file_size v) (lv_bitmap v) (lv_is_read_only v) todo elements.
Definition set_opened (o : bool) v : LZ4Volume :=
  mkVol (lv_path v) (lv_frames v) (lv_pos v) (lv_stream v) (lv_decode v) o
    (lv_off v) (lv_file_size v) (lv_max_file_size v) (lv_bitmap v) (lv_is_read_only v) (lv_bytes_to_read v) (lv_elements_to_read v).
Definition add_id (id : Z) v : LZ4Volume :=
  mkVol (lv_path v) (lv_frames v) (lv_pos v) (lv_stream v) (lv_decode v) (lv_opened v)
    (lv_off v) (lv_file_size v) (lv_max_file_size v) ({[id]} ∪ lv_bitmap v) (lv_is_read_only v) (lv_bytes_to_read v) (lv_elements_to_read v).

(** *** Construction *)

(** For writing: the file is created if it is not there, and not truncated. *)
Definition create (file_name : chars) (volume_size : Z) w : LZ4Volume * World :=
  (mkVol file_name (Frame.cleared, Frame.cleared) false LZ4_resetStream LZ4_setStreamDecode true 0 0 volume_size ∅ false 0 0,
   mkWorld (<[file_name := default [] (w_files w !! file_name)]> (w_files w)) (w_seq w) (w_io w)).

(** For reading, not yet opened. *)
Definition existing (file_name : chars) : LZ4Volume :=
  mkVol file_name (Frame.cleared, Frame.cleared) true LZ4_resetStream LZ4_setStreamDecode false 0 0 0 ∅ true 0 0.

Definition open_ro v w : option LZ4Volume :=
  if lv_opened v then None else if decide (lv_file_size v ≠ 0) then None else
  c ← w_files w !! lv_path v;
  let size := Z.of_nat (length c) in
  Some (mkVol (lv_path v) (lv_frames v) (lv_pos v) (lv_stream v) (lv_decode v) true
    0 size (lv_max_file_size v) (lv_bitmap v) (lv_is_read_only v) size (lv_elements_to_read v)).

(** *** Writing *)

Definition write v w : option (Status * LZ4Volume * World) :=
  if lv_is_read_only v then None else
  let '(seq, w) := Io.next_seq w in
  let f := Frame.stamp V1_MAGIC seq (frame v) in
  let v := set_frame f v in
  let '(buffer, stream) := LZ4_compress_fast_continue (lv_stream v) (Frame.block f) in
  if decide (buffer = []) then None else
  let '(status, n, w) := Io._write_frame (lv_path v) (lv_off v) buffer w in
  if IsOk status then
    let '(status, w) := Io._flush_file w in Some (status, set_file stream (lv_off v + n) (lv_file_size v + Z.of_nat n) v, w)
  else Some (status, set_file stream (lv_off v + n) (lv_file_size v) v, w).

Definition close v w : option (LZ4Volume * World) :=
  '(v, w) ← (if decide (lv_is_read_only v = false ∧ fr_size (frame v) ≠ 0) then '(_, v, w) ← write v w; Some (v, w) else Some (v, w));
  Some (set_opened false v, w).

Definition flush_current_frame (type : Z) v w : option (Status * LZ4Volume * World) :=
  '(status, v, w) ← write v w;
  if IsOk status then
    let v := flip v in
    Some (kOk, set_frame (Frame.set_type type (frame v)) v, w)
  else Some (status, v, w).

Definition require_frame_type (type : Z) v w : option (Status * LZ4Volume * World) :=
  if decide (fr_type (frame v) = EMPTY) then Some (kOk, set_frame (Frame.set_type type (frame v)) v, w)
  else if decide (fr_type (frame v) ≠ type) then flush_current_frame type v w
  else Some (kOk, v, w).

(** [Overflow] when the file has reached its size. *)
Definition full_status v : Status := if decide (lv_max_file_size v ≤ lv_file_size v) then kOverflow else kOk.

(** [append] of a point *)
Definition append_point (id timestamp value : Z) v w : option (Status * LZ4Volume * World) :=
  '(status, v, w) ← require_frame_type DATA_ENTRY v w;
  if negb (IsOk status) then Some (status, v, w) else
  let v := add_id id v in
  f ← DataEntry.add_point id timestamp value (frame v);
  let v := set_frame f v in
  if decide (fr_size f = Z.of_nat Frame.NUM_TUPLES) then
    '(status, v, w) ← write v w;
    if negb (IsOk status) then Some (status, v, w) else
    let v := flip v in
    Some (full_status v, v, w)
  else Some (full_status v, v, w).

Definition SIZE_THRESHOLD : Z := 64.

Definition append_blob (type id : Z) (payload : bytes) v w : option (Status * LZ4Volume * World) :=
  '(status, v, w) ← require_frame_type type v w;
  if negb (IsOk status) then Some (status, v, w) else
  fits ← MutableEntry.can_write (Z.of_nat (length payload)) (frame v);
  '(status, v, w) ← (if fits : bool then Some (kOk, v, w) else flush_current_frame type v w);
  if negb (IsOk status) then Some (status, v, w) else
  f ← MutableEntry.append id payload (frame v);
  let v := set_frame f v in
  more ← MutableEntry.can_write SIZE_THRESHOLD f;
  '(status, v, w) ← (if more : bool then Some (kOk, v, w) else flush_current_frame type v w);
  if negb (IsOk status) then Some (status, v, w) else
  Some (full_status v, v, w).

(** The three overloads of [append]. *)
Definition append (r : InputLogRow) v w : option (Status * LZ4Volume * World) :=
  match row_payload r with
  | InputLogDataPoint timestamp value => append_point (row_id r) timestamp value v w
  | InputLogSeriesName sname => append_blob SNAME_ENTRY (row_id r) sname v w
  | InputLogRecoveryInfo l => append_blob RECOVERY_ENTRY (row_id r) (concat (le_bytes 8 <$> l)) v w
  end.

Definition flush v w : option (Status * LZ4Volume * World) :=
  if decide (fr_size (frame v) ≠ 0) then
    '(status, v, w) ← write v w;
    if negb (IsOk status) then Some (status, v, w) else
    let v := flip v in
    Some (full_status v, v, w)
  else Some (kOk, v, w).

Definition delete_file v w : LZ4Volume * World :=
  (set_opened false v, mkWorld (delete (lv_path v) (w_files w)) (w_seq w) (w_io w)).

(** *** Reading *)

(** [read]: the status, the number of bytes and the volume; what LZ4 does not
    fill of the frame stays cleared. *)
Definition read v w : option (Status * Z * LZ4Volume) :=
  if lv_is_read_only v then
    file ← w_files w !! lv_path v;
    let '(status, buffer, off) := Io._read_frame file (lv_off v) BUFFER_SIZE in
    if negb (IsOk status) then Some (status, 0, set_reader (lv_decode v) off (lv_bytes_to_read v) (lv_elements_to_read v) v) else
    let '(out, decode) := LZ4_decompress_safe_continue (lv_decode v) buffer Frame.BLOCK_SIZE in
    let v := set_reader decode off (lv_bytes_to_read v) (lv_elements_to_read v) v in
    if decide (out = []) then Some (kBadData, 0, v) else
    let f := Frame.of_block (out ++ drop (length out) (Frame.block (frame v))) in
    Some (kOk, Z.of_nat (length buffer) + 4, set_frame f v)
  else None.

(** The next frame is read when the last one is used up; [None] inside: finished. *)
Definition refill v w : option (option Status * LZ4Volume) :=
  if decide (lv_elements_to_read v = 0) then
    if decide (lv_bytes_to_read v ≤ 0) then Some (None, v) else
    '(status, n, v) ← read (flip v) w;
    if negb (IsOk status) then Some (Some status, v) else
    Some (Some kOk, set_reader (lv_decode v) (lv_off v) (lv_bytes_to_read v - n) (fr_size (frame v)) v)
  else Some (Some kOk, v).

(** [read_next] of points: whatever the type of the frame. *)
Fixpoint points (f : Frame) (ix : Z) (n : nat) : option (list (Z * Z * Z)) :=
  match n with
  | O => Some []
  | S n => p ← DataEntry.point ix f; ps ← points f (ix + 1) n; Some (p :: ps)
  end.

Definition take_elements (n : Z) v : LZ4Volume :=
  set_reader (lv_decode v) (lv_off v) (lv_bytes_to_read v) (lv_elements_to_read v - n) v.

Definition read_next_points (buffer_size : Z) v w : option (Status * list (Z * Z * Z) * LZ4Volume) :=
  '(status, v) ← refill v w;
  match status with
  | None => Some (kOk, [], v)
  | Some status =>
    if negb (IsOk status) then Some (status, [], v) else
    let nvalues := Z.min buffer_size (lv_elements_to_read v) in
    ps ← points (frame v) (fr_size (frame v) - lv_elements_to_read v) (Z.to_nat nvalues);
    Some (kOk, ps, take_elements nvalues v)
  end.

Definition read_next (buffer_size : Z) v w : option (Status * list InputLogRow * LZ4Volume) :=
  '(status, v) ← refill v w;
  match status with
  | None => Some (kOk, [], v)
  | Some status =>
    if negb (IsOk status) then Some (status, [], v) else
    let nvalues := Z.min buffer_size (lv_elements_to_read v) in
    if known_type (frame v) then
      rows ← frame_rows (frame v) (fr_size (frame v) - lv_elements_to_read v) (Z.to_nat nvalues);
      Some (kOk, rows, take_elements nvalues v)
    else Some (kBadData, [], v)
  end.

Definition read_next_frame v w : option (Status * option Frame * LZ4Volume) :=
  if decide (lv_bytes_to_read v ≤ 0) then Some (kOk, None, v) else
  '(status, n, v) ← read (flip v) w;
  if negb (IsOk status) then Some (status, None, v) else
  let v := set_reader (lv_decode v) (lv_off v) (lv_bytes_to_read v - n) 0 v in
  Some (kOk, Some (frame v), v).

End Vol.
End Vol.
