(* ===== verification/LogVolumeProof.v ===== *)
(** * A volume of the log is read back as it was written *)
From stdpp Require Import sorting.
From S2P Require Import Prelude Status StringPool LogFrame LogVolume.

Section Volume.
Context `{LZ4Laws}.
Implicit Types (v : LZ4Volume) (w : World).
Import Vol.

(** A frame with the rows it holds. *)
Notation frames := (list (Frame * list InputLogRow)).

Definition rows_of (fs : frames) : list InputLogRow := concat fs.*2.

(** The bytes of frames after the encoder state [e], and the state after them. *)
Fixpoint encoded (e : lz4_stream) (fs : frames) : bytes :=
  match fs with
  | [] => []
  | f :: fs =>
    let '(c, e') := LZ4_compress_fast_continue e (Frame.block f.1) in
    le_bytes 4 (Z.of_nat (length c)) ++ c ++ encoded e' fs
  end.
Fixpoint stream_after (e : lz4_stream) (fs : frames) : lz4_stream :=
  match fs with [] => e | f :: fs => stream_after (LZ4_compress_fast_continue e (Frame.block f.1)).2 fs end.

Definition frames_ok (fs : frames) : Prop := Forall (λ f, frame_ok f.1 f.2) fs.

Lemma encoded_app e fs gs : encoded e (fs ++ gs) = encoded e fs ++ encoded (stream_after e fs) gs.
Proof.
  revert e. induction fs as [|f fs IH]; intros e; [done|]. cbn [app encoded stream_after].
  destruct (LZ4_compress_fast_continue e (Frame.block f.1)) as [c e']. cbn [snd]. by rewrite IH, !app_assoc.
Qed.

Lemma stream_after_app e fs gs : stream_after e (fs ++ gs) = stream_after (stream_after e fs) gs.
Proof. revert e. induction fs as [|f fs IH]; intros e; [done|]. cbn [app stream_after]. apply IH. Qed.

Lemma frame_block f rows : frame_ok f rows → Frame.block f ≠ [] ∧ Forall is_u8 (Frame.block f) ∧ length (Frame.block f) = Frame.BLOCK_SIZE.
Proof.
  intros Hf. pose proof (block_length f (frame_header _ _ Hf)) as Hl. split_and!; [|apply block_u8, Hf|done].
  intros E. rewrite E in Hl. by vm_compute in Hl.
Qed.

(** The encoder after the frames has a decoder in step. *)
Lemma sync_after e d fs : lz4_sync e d → frames_ok fs → ∃ d', lz4_sync (stream_after e fs) d'.
Proof.
  intros Hs Hf. revert e d Hs. induction Hf as [|f fs Hf _ IH]; intros e d Hs; [by exists d|]. cbn [stream_after].
  destruct (frame_block _ _ Hf) as (H1&H2&_). destruct (lz4_roundtrip e d _ Hs H1 H2) as (_&_&_&Hs'). by eapply IH.
Qed.

(** ** Writing *)

(** There is room for one more row of the type of the frame. *)
Definition spacious (f : Frame) : Prop :=
  (fr_type f = DATA_ENTRY → fr_size f < Z.of_nat Frame.NUM_TUPLES) ∧
  (fr_type f = SNAME_ENTRY ∨ fr_type f = RECOVERY_ENTRY → ∀ es, blob_ok f es → 64 ≤ space es).

(** The frames [fs] are in the file of the volume. *)
Record written v w (fs : frames) : Prop := {
  vw_opened : lv_opened v = true;
  vw_ro : lv_is_read_only v = false;
  vw_file : w_files w !! lv_path v = Some (encoded LZ4_resetStream fs);
  vw_stream : lv_stream v = stream_after LZ4_resetStream fs;
  vw_off : lv_off v = length (encoded LZ4_resetStream fs);
  vw_size : lv_file_size v = Z.of_nat (length (encoded LZ4_resetStream fs));
  vw_frames : frames_ok fs;
  vw_io : w_io w = [];
  vw_seq : 0 ≤ w_seq w;
  vw_seqs : Forall (λ f, fr_seq f.1 < w_seq w) fs;
  vw_sorted : StronglySorted (λ f g, fr_seq f.1 < fr_seq g.1) fs;
}.

(** The series of the points among the rows. *)
Definition row_ids (r : InputLogRow) : list Z := match row_payload r with InputLogDataPoint _ _ => [row_id r] | _ => [] end.
Definition data_ids (rows : list InputLogRow) : gset Z := list_to_set (rows ≫= row_ids).

(** The volume has written [fs] and holds [cur]. *)
Record writes v w (fs : frames) (cur : list InputLogRow) : Prop := {
  vw_written : written v w fs;
  vw_cur : frame_ok (frame v) cur;
  vw_room : spacious (frame v);
  vw_bitmap : lv_bitmap v = data_ids (rows_of fs ++ cur);
}.

(** Nothing but the file of the volume, the counter and the volume's own fields. *)
Record same v v' w w' : Prop := {
  sm_path : lv_path v' = lv_path v;
  sm_max : lv_max_file_size v' = lv_max_file_size v;
  sm_files p : p ≠ lv_path v → w_files w' !! p = w_files w !! p;
  sm_seq : w_seq w ≤ w_seq w';
}.

Lemma same_refl v w : same v v w w.
Proof. constructor; done. Qed.
Lemma same_trans v v' v'' w w' w'' : same v v' w w' → same v' v'' w' w'' → same v v'' w w''.
Proof.
  intros [H1 H2 H3 H4] [K1 K2 K3 K4]. constructor; [congruence|congruence| |lia]. intros p Hp. rewrite K3 by congruence. by apply H3.
Qed.

Lemma frame_set f v : frame (set_frame f v) = f.
Proof. unfold frame, set_frame. simpl. by destruct (lv_pos v). Qed.
Lemma frame_flip v : frame (flip v) = Frame.cleared.
Proof. apply frame_set. Qed.

Lemma overwrite_end src c : Io.overwrite (length c) src c = c ++ src.
Proof. unfold Io.overwrite. rewrite take_ge by done. rewrite drop_ge by lia. by rewrite app_nil_r. Qed.

(** What the frames and the bitmap are does not matter to what is written. *)
Lemma written_frame f v w fs : written v w fs → written (set_frame f v) w fs.
Proof. by intros []. Qed.
Lemma written_flip v w fs : written v w fs → written (flip v) w fs.
Proof. by intros []. Qed.
Lemma written_id id v w fs : written v w fs → written (add_id id v) w fs.
Proof. by intros []. Qed.

Lemma write_ok v w fs cur :
  written v w fs → frame_ok (frame v) cur → w_seq w + 1 < 2 ^ 64 →
  ∃ v' w' f, write v w = Some (kOk, v', w') ∧ written v' w' (fs ++ [(f, cur)]) ∧ fr_type f = fr_type (frame v) ∧
    same v v' w w' ∧ w_seq w' = w_seq w + 1 ∧ lv_bitmap v' = lv_bitmap v.
Proof.
  intros [Ho Hr Hf Hs Hoff Hsz Hfs Hio Hseq Hsq Hst] Hc Hlt. unfold write. rewrite Hr. unfold Io.next_seq. cbn [fst snd].
  set (f := Frame.stamp V1_MAGIC (w_seq w) (frame v)).
  assert (Hfok : frame_ok f cur) by (apply frame_stamp; [done|unfold is_u64; lia|done]).
  destruct (sync_after LZ4_resetStream LZ4_setStreamDecode fs lz4_sync_init Hfs) as (d&Hd). cbn [lv_stream set_frame]. rewrite Hs.
  destruct (frame_block _ _ Hfok) as (B1&B2&B3). destruct (lz4_roundtrip _ d (Frame.block f) Hd B1 B2) as (C1&C2&_&_).
  destruct (LZ4_compress_fast_continue (stream_after LZ4_resetStream fs) (Frame.block f)) as [c e'] eqn:Ec. cbn [fst snd] in *.
  rewrite decide_False by done. unfold Io._write_frame. cbn [w_io]. rewrite Hio. unfold IsOk. rewrite bool_decide_eq_true_2 by done.
  unfold Io._flush_file. cbn [w_io Io.write_file]. rewrite ?Hio. cbn [tail].
  eexists _, _, f. split; [reflexivity|].
  assert (Henc : encoded LZ4_resetStream (fs ++ [(f, cur)]) = encoded LZ4_resetStream fs ++ le_bytes 4 (Z.of_nat (length c)) ++ c).
  { rewrite encoded_app. cbn [encoded fst]. rewrite Ec. by rewrite app_nil_r. }
  assert (Hw8 : u64 (w_seq w + 1) = w_seq w + 1) by (apply u64_id; unfold is_u64; lia).
  split; [|split; [done|split; [|split; [by simpl; rewrite Hw8|done]]]].
  - constructor; simpl; try done.
    + rewrite lookup_insert_eq, Hf. simpl. rewrite Hoff, overwrite_end. by rewrite Henc.
    + rewrite stream_after_app. simpl. by rewrite Ec.
    + rewrite Henc, length_app, Hoff. done.
    + rewrite Henc, length_app, Hsz. simpl. lia.
    + apply Forall_app. split; [done|]. by constructor.
    + lia.
    + rewrite Hw8. apply Forall_app. split; [eapply Forall_impl; [exact Hsq|]; intros x Hx; cbv beta in *; lia|]. constructor; [simpl; lia|constructor].
    + apply StronglySorted_app. split_and!; [|done|repeat constructor]. intros x y Hx Hy. apply list_elem_of_singleton in Hy as ->.
      rewrite Forall_forall in Hsq. apply (Hsq x Hx).
  - constructor; simpl; try done; [|rewrite Hw8; lia]. intros p Hp. by rewrite lookup_insert_ne.
Qed.

Lemma rows_of_snoc fs f rows : rows_of (fs ++ [(f, rows)]) = rows_of fs ++ rows.
Proof. unfold rows_of. rewrite fmap_app, concat_app. simpl. by rewrite app_nil_r. Qed.

Lemma data_ids_snoc rows r : data_ids (rows ++ [r]) = list_to_set (row_ids r) ∪ data_ids rows.
Proof. unfold data_ids. rewrite bind_app, list_to_set_app_L. simpl. rewrite app_nil_r. apply union_comm_L. Qed.

Lemma one_id (id : Z) (X : gset Z) : {[id]} ∪ X = list_to_set [id] ∪ X.
Proof. set_solver. Qed.
Lemma no_id (X : gset Z) : X = list_to_set [] ∪ X.
Proof. set_solver. Qed.

(** *** Frames that were just begun *)

Lemma typed_empty p f : frame_ok f [] → fr_type f = EMPTY → frame_ok (Frame.set_type (payload_type p) f) [].
Proof.
  intros [Hc Hb Hu Hm Hs] Ht. destruct (content_size _ _ Hc) as [Hz _]. simpl in Hz. constructor; try done.
  assert (Hblob : blob_ok (Frame.set_type (payload_type p) f) []) by (constructor; [done|done|by vm_compute|]; intros i id x; by rewrite lookup_nil).
  destruct p; cbn [payload_type] in *.
  - apply (content_data _ []); [done|]. constructor; [done|done|simpl; lia|]. intros i q. by rewrite lookup_nil.
  - by apply (content_name _ []).
  - by apply (content_array _ []).
Qed.

Lemma spacious_begun f : fr_size f = 0 → spacious f.
Proof.
  intros Hs. pose proof NUM_TUPLES_val. split; [lia|]. intros _ es Hes. pose proof (bo_size _ _ Hes) as Hz. rewrite Hs in Hz.
  destruct es; [|simpl in Hz; lia]. unfold space. rewrite decide_True by done. lia.
Qed.

Lemma content_inj_nil f rows : content f rows → fr_size f = 0 → rows = [].
Proof. intros Hc Hs. destruct (content_size _ _ Hc) as [Hz _]. destruct rows; [done|simpl in Hz; lia]. Qed.

(** *** Steps

    One operation of the volume: [extra] was added to the rows. *)
Record step v w (fs : frames) (cur : list InputLogRow) v' w' (fs' : frames) (cur' extra : list InputLogRow) : Prop := {
  st_writes : writes v' w' fs' cur';
  st_more : ∃ more, fs' = fs ++ more;
  st_rows : rows_of fs' ++ cur' = rows_of fs ++ cur ++ extra;
  st_same : same v v' w w';
}.

Lemma step_trans v w fs cur v1 w1 fs1 cur1 v2 w2 fs2 cur2 xs ys :
  step v w fs cur v1 w1 fs1 cur1 xs → step v1 w1 fs1 cur1 v2 w2 fs2 cur2 ys → step v w fs cur v2 w2 fs2 cur2 (xs ++ ys).
Proof.
  intros [Hw1 [m1 ->] Hr1 Hs1] [Hw2 [m2 ->] Hr2 Hs2]. constructor; [done|exists (m1 ++ m2); by rewrite app_assoc| |by eapply same_trans].
  rewrite Hr2, !app_assoc. f_equal. by rewrite <- app_assoc.
Qed.

(** Every frame has rows.  A frame that has a type but no rows, which is left when
    a list of strings has no room for more, is written as it is when a row of
    another type comes next. *)
Definition full (fs : frames) : Prop := Forall (λ f, f.2 ≠ []) fs.
Definition gapless v (cur : list InputLogRow) : Prop := cur = [] → fr_type (frame v) = EMPTY.

Lemma snoc_ne {A} (l : list A) x : l ++ [x] ≠ [].
Proof. by destruct l. Qed.
Lemma full_snoc fs f cur : full fs → cur ≠ [] → full (fs ++ [(f, cur)]).
Proof. intros Hfs Hc. apply Forall_app. split; [done|]. by constructor. Qed.

(** The frame may be full. *)
Lemma flush_full_ok p v w fs cur :
  written v w fs → frame_ok (frame v) cur → lv_bitmap v = data_ids (rows_of fs ++ cur) → w_seq w + 1 < 2 ^ 64 →
  ∃ v' w' f, flush_current_frame (payload_type p) v w = Some (kOk, v', w') ∧ writes v' w' (fs ++ [(f, cur)]) [] ∧ same v v' w w' ∧
    frame v' = Frame.set_type (payload_type p) Frame.cleared ∧ w_seq w' = w_seq w + 1.
Proof.
  intros Hw Hc Hbm Hlt. unfold flush_current_frame. destruct (write_ok v w fs cur Hw Hc Hlt) as (v'&w'&f&->&Hw'&_&Hsame&Hseq&Hb).
  cbn [mbind option_bind]. unfold IsOk. rewrite bool_decide_eq_true_2 by done. rewrite frame_flip. eexists _, w', f. split; [reflexivity|].
  rewrite frame_set. split_and!; [| |done|done].
  - constructor; [by apply written_frame, written_flip|rewrite frame_set; apply typed_ok|rewrite frame_set; by apply spacious_begun|].
    rewrite rows_of_snoc, app_nil_r. simpl. by rewrite Hb.
  - destruct Hsame. by constructor.
Qed.

Lemma flush_frame_ok p v w fs cur :
  writes v w fs cur → w_seq w + 1 < 2 ^ 64 →
  ∃ v' w' f, flush_current_frame (payload_type p) v w = Some (kOk, v', w') ∧ step v w fs cur v' w' (fs ++ [(f, cur)]) [] [] ∧
    frame v' = Frame.set_type (payload_type p) Frame.cleared ∧ w_seq w' = w_seq w + 1.
Proof.
  intros [Hw Hc _ Hbm] Hlt. destruct (flush_full_ok p v w fs cur Hw Hc Hbm Hlt) as (v'&w'&f&->&Hw'&Hsame&Hf&Hseq).
  exists v', w', f. split_and!; [done| |done|done]. constructor; [exact Hw'|by eexists|by rewrite rows_of_snoc, !app_nil_r|done].
Qed.

Lemma require_ok p v w fs cur :
  writes v w fs cur → w_seq w + 1 < 2 ^ 64 →
  ∃ v' w' fs' cur', require_frame_type (payload_type p) v w = Some (kOk, v', w') ∧ step v w fs cur v' w' fs' cur' [] ∧
    fr_type (frame v') = payload_type p ∧ w_seq w' ≤ w_seq w + 1 ∧ (gapless v cur → full fs → full fs') ∧ (cur' = cur ∨ cur' = []).
Proof.
  intros Hw Hlt. unfold require_frame_type. case_decide as He; [|case_decide as Ht].
  - destruct Hw as [Hw Hc Hroom Hbm]. assert (Hz : fr_size (frame v) = 0 ∧ cur = []).
    { destruct (fo_content _ _ Hc) as [Ht' Hz|? Ht'|? Ht'|? Ht']; [done|congruence..]. }
    destruct Hz as [Hz ->]. eexists _, w, fs, []. split; [reflexivity|]. rewrite frame_set. split_and!; [|done|lia|done|by left]. constructor.
    + constructor; [by apply written_frame|rewrite frame_set; by apply typed_empty|rewrite frame_set; by apply spacious_begun|done].
    + exists []. by rewrite app_nil_r.
    + done.
    + constructor; done.
  - destruct (flush_frame_ok p v w fs cur Hw Hlt) as (v'&w'&f&->&Hst&Hf&Hseq). exists v', w', (fs ++ [(f, cur)]), []. split_and!; [done|done|by rewrite Hf|lia| |by right].
    intros Hg Hfs. apply full_snoc; [done|]. intros Hn. by apply He, Hg.
  - exists v, w, fs, cur. split_and!; [done| |done|lia|done|by left]. constructor; [done|exists []; by rewrite app_nil_r|by rewrite app_nil_r|apply same_refl].
Qed.

(** *** Appending *)

Lemma IsOk_ok : IsOk kOk = true. Proof. done. Qed.

(** The frame is replaced by one with a row more. *)
Lemma step_row v w fs cur f r :
  writes v w fs cur → frame_ok f (cur ++ [r]) → spacious f →
  step v w fs cur (set_frame f (match row_payload r with InputLogDataPoint _ _ => add_id (row_id r) v | _ => v end)) w fs (cur ++ [r]) [r].
Proof.
  intros [Hw Hc Hroom Hbm] Hf Hs. constructor.
  - constructor; [|by rewrite frame_set|by rewrite frame_set|].
    + apply written_frame. destruct (row_payload r); [by apply written_id|done|done].
    + rewrite app_assoc, data_ids_snoc. unfold row_ids. destruct (row_payload r); cbn [lv_bitmap set_frame add_id]; rewrite Hbm; [apply one_id|apply no_id|apply no_id].
  - exists []. by rewrite app_nil_r.
  - done.
  - destruct r as [id []]; constructor; done.
Qed.

Lemma append_point_frame f cur id ts x :
  frame_ok f cur → fr_type f = DATA_ENTRY → fr_size f < Z.of_nat Frame.NUM_TUPLES → row_ok (mkRow id (InputLogDataPoint ts x)) →
  ∃ f', DataEntry.add_point id ts x f = Some f' ∧ frame_ok f' (cur ++ [mkRow id (InputLogDataPoint ts x)]) ∧
    fr_type f' = DATA_ENTRY ∧ fr_size f' = fr_size f + 1.
Proof.
  intros [Hc Hb Hu Hm Hs] Ht Hlt (H1&H2&H3). destruct (content_size _ _ Hc) as [Hz _]. destruct Hc as [Ht' _|ps _ Hd|es Ht' _|es Ht' _]; try congruence.
  rewrite length_fmap in Hz. destruct (entry_point_ok f ps id ts x Hd) as (f'&E&Hd'&E1&E2&E3); [lia|done|]. exists f'. split; [done|].
  split_and!; [|congruence|rewrite (do_size _ _ Hd'), length_app, Hz; simpl; lia]. constructor.
  - replace ((point_row <$> ps) ++ _) with (point_row <$> ps ++ [(id, ts, x)]) by (by rewrite fmap_app). apply content_data; [congruence|done].
  - apply (do_body _ _ Hd').
  - by eapply add_point_u8.
  - by rewrite E2.
  - by rewrite E3.
Qed.

Lemma append_point_ok v w fs cur id ts x :
  writes v w fs cur → w_seq w + 2 < 2 ^ 64 → row_ok (mkRow id (InputLogDataPoint ts x)) →
  ∃ v' w' fs' cur', append_point id ts x v w = Some (full_status v', v', w') ∧
    step v w fs cur v' w' fs' cur' [mkRow id (InputLogDataPoint ts x)] ∧ w_seq w' ≤ w_seq w + 2 ∧
    (gapless v cur → full fs → full fs') ∧ gapless v' cur'.
Proof.
  intros Hw Hlt Hr. unfold append_point.
  destruct (require_ok (InputLogDataPoint ts x) v w fs cur Hw) as (v1&w1&fs1&cur1&E1&Hst1&Ht1&Hq1&Hg1&_); [lia|]. cbn [payload_type] in *.
  rewrite E1. cbn [mbind option_bind]. rewrite IsOk_ok. simpl negb. cbn iota. pose proof (st_writes _ _ _ _ _ _ _ _ _ Hst1) as Hw1.
  change (frame (add_id id v1)) with (frame v1).
  destruct (append_point_frame (frame v1) cur1 id ts x (vw_cur _ _ _ _ Hw1) Ht1) as (f&->&Hf&Htf&Hzf); [by apply (vw_room _ _ _ _ Hw1)|done|].
  cbn [mbind option_bind]. pose proof (proj1 (vw_room _ _ _ _ Hw1) Ht1) as Hroom1. set (r := mkRow id (InputLogDataPoint ts x)) in *.
  case_decide as Hfull.
  - assert (Hwr : written (set_frame f (add_id id v1)) w1 fs1) by (apply written_frame, written_id, Hw1).
    destruct (write_ok (set_frame f (add_id id v1)) w1 fs1 (cur1 ++ [r]) Hwr) as (v2&w2&g&->&Hw2&_&Hsame&Hseq&Hb); [by rewrite frame_set|lia|].
    cbn [mbind option_bind]. rewrite IsOk_ok. simpl negb. cbn iota. eexists (flip v2), w2, _, []. split; [reflexivity|].
    split; [|split_and!; [lia|intros Hg Hfs; apply full_snoc; [by apply Hg1|apply snoc_ne]|intros _; by rewrite frame_flip]].
    apply (step_trans _ _ _ _ _ _ _ _ _ _ _ _ [] [r] Hst1). constructor.
    + constructor; [by apply written_flip|rewrite frame_flip; apply cleared_ok|rewrite frame_flip; by apply spacious_begun|].
      rewrite rows_of_snoc, app_nil_r. cbn [lv_bitmap flip set_frame].
      rewrite Hb, app_assoc, data_ids_snoc. cbn [lv_bitmap set_frame add_id]. rewrite (vw_bitmap _ _ _ _ Hw1). apply one_id.
    + by eexists.
    + by rewrite rows_of_snoc, app_nil_r.
    + destruct Hsame. by constructor.
  - assert (Hs : spacious f) by (split; [intros _; lia|intros [?|?]; congruence]).
    pose proof (step_row v1 w1 fs1 cur1 f r Hw1 Hf Hs) as Hst2. eexists _, w1, fs1, _. split; [reflexivity|].
    split; [|split_and!; [lia|done|intros Hn; by apply snoc_ne in Hn]].
    by apply (step_trans _ _ _ _ _ _ _ _ _ _ _ _ [] [r] Hst1).
Qed.

(** *** Strings and arrays *)

Definition blob_bytes (p : Payload) : option bytes :=
  match p with
  | InputLogDataPoint _ _ => None
  | InputLogSeriesName s => Some s
  | InputLogRecoveryInfo l => Some (concat (le_bytes 8 <$> l))
  end.

Lemma blob_unique f es es' : blob_ok f es → blob_ok f es' → es = es'.
Proof.
  intros Hf Hf'. assert (Hl : length es = length es') by (pose proof (bo_size _ _ Hf); pose proof (bo_size _ _ Hf'); lia).
  apply (list_eq_same_length _ _ (length es)); [done|done|]. intros i [id s] [id' s'] _ Hi Hi'.
  pose proof (blob_string _ _ _ _ _ Hf Hi) as E. rewrite (blob_string _ _ _ _ _ Hf' Hi') in E. congruence.
Qed.

(** The bytes that a row takes in a list of strings. *)
Definition row_bytes (r : InputLogRow) : Z := match blob_bytes (row_payload r) with Some b => 16 + Z.of_nat (length b) | None => 0 end.
Definition rows_bytes (rows : list InputLogRow) : Z := foldr (λ r n, row_bytes r + n) 0 rows.

Lemma rows_bytes_app rows rows' : rows_bytes (rows ++ rows') = rows_bytes rows + rows_bytes rows'.
Proof. induction rows as [|r rows IH]; simpl; [done|]. rewrite IH. lia. Qed.
Lemma rows_bytes_pos rows : 0 ≤ rows_bytes rows.
Proof. induction rows as [|r rows IH]; simpl; [done|]. unfold row_bytes. destruct (blob_bytes _); lia. Qed.

Lemma entry_bytes {A} (row : A → InputLogRow) (entry : A → Z * bytes) (es : list A) :
  (∀ e, row_bytes (row e) = 16 + Z.of_nat (length (entry e).2)) → rows_bytes (row <$> es) = total (entry <$> es) + 16 * Z.of_nat (length es).
Proof.
  intros Hrow. induction es as [|e es IH]; [done|]. rewrite !fmap_cons. change (entry e :: (entry <$> es)) with ([entry e] ++ (entry <$> es)).
  rewrite total_app. change (rows_bytes (row e :: (row <$> es))) with (row_bytes (row e) + rows_bytes (row <$> es)). rewrite IH, Hrow. unfold total. simpl. rewrite app_nil_r. lia.
Qed.

Lemma content_bytes f rows es :
  content f rows → fr_type f = SNAME_ENTRY ∨ fr_type f = RECOVERY_ENTRY → blob_ok f es → rows_bytes rows = total es + 16 * Z.of_nat (length es).
Proof.
  intros [Ht _|ps Ht _|es' Ht Hes'|es' Ht Hes' _] Hty Hes; try (destruct Hty; congruence).
  - rewrite (entry_bytes name_row id) by (by intros []). by rewrite list_fmap_id, (blob_unique _ _ _ Hes Hes').
  - rewrite (entry_bytes array_row array_entry) by (by intros []). by rewrite (blob_unique _ _ _ Hes Hes'), length_fmap.
Qed.

Lemma blob_can_write f es c : blob_ok f es → MutableEntry.can_write c f = Some (bool_decide (c ≤ space es)).
Proof. intros Hf. unfold MutableEntry.can_write. by rewrite (blob_space f es Hf). Qed.

Lemma concat_le_u8 l : Forall is_u8 (concat (le_bytes 8 <$> l)).
Proof. induction l as [|v l IH]; [constructor|]. rewrite fmap_cons. cbn [concat]. apply Forall_app. split; [apply le_bytes_u8|done]. Qed.

Lemma blob_row_ok r b : row_ok r → blob_bytes (row_payload r) = Some b → is_u64 (row_id r) ∧ Forall is_u8 b ∧ Z.of_nat (length b) ≤ 8152.
Proof.
  intros [Hid Hp] Hb. split; [done|]. destruct (row_payload r); simpl in Hb; [done| |]; injection Hb as <-; [done|].
  split; [apply concat_le_u8|]. rewrite length_words. destruct Hp. lia.
Qed.

(** A frame of the type of the row, as a list of entries; with room, it takes the row. *)
Lemma append_blob_frame f cur r b :
  frame_ok f cur → fr_type f = payload_type (row_payload r) → row_ok r → blob_bytes (row_payload r) = Some b →
  ∃ es, blob_ok f es ∧ (cur = [] → es = []) ∧
    (0 < space es → Z.of_nat (length b) ≤ space es → ∃ f' es', MutableEntry.append (row_id r) b f = Some f' ∧
      frame_ok f' (cur ++ [r]) ∧ blob_ok f' es' ∧ fr_type f' = fr_type f).
Proof.
  intros [Hc Hl Hu Hm Hs] Ht Hr Hb. destruct (blob_row_ok r b Hr Hb) as (Hid&Hub&_).
  assert (Hgo : ∀ es (row : Z * bytes → InputLogRow), blob_ok f es → (∀ f', blob_ok f' (es ++ [(row_id r, b)]) → fr_type f' = fr_type f → content f' (cur ++ [r])) →
    0 < space es → Z.of_nat (length b) ≤ space es → ∃ f' es', MutableEntry.append (row_id r) b f = Some f' ∧ frame_ok f' (cur ++ [r]) ∧ blob_ok f' es' ∧ fr_type f' = fr_type f).
  { intros es row Hes Hcont Hsp Hlen. destruct (blob_append f es (row_id r) b Hes Hsp Hlen Hid) as (f'&E&Hf'&E1&E2&E3).
    exists f', (es ++ [(row_id r, b)]). split_and!; [done| |done|done]. constructor; [by apply Hcont|apply (bo_body _ _ Hf')|by eapply append_u8|by rewrite E2|by rewrite E3]. }
  destruct r as [id p]. cbn [row_id row_payload] in *. destruct Hc as [Ht' _|ps Ht' _|es Ht' Hes|es Ht' Hes Hue];
    (destruct p as [?|s|l]; simpl in Ht, Hb; try congruence); injection Hb as <-.
  - exists es. split_and!; [done|by intros ->%fmap_nil_inv|]. intros H1 H2. apply (Hgo es name_row Hes); [|done|done]. intros f' Hf' Htf.
    change [mkRow id (InputLogSeriesName s)] with (name_row <$> [(id, s)]). rewrite <- fmap_app. apply content_name; [congruence|done].
  - exists (array_entry <$> es). split_and!; [done|by intros ->%fmap_nil_inv|]. intros H1 H2. apply (Hgo _ name_row Hes); [|done|done]. intros f' Hf' Htf.
    change [mkRow id (InputLogRecoveryInfo l)] with (array_row <$> [(id, l)]). rewrite <- fmap_app. apply content_array; [congruence| |].
    + by rewrite fmap_app.
    + apply Forall_app. split; [done|]. constructor; [apply Hr|constructor].
Qed.

Lemma append_blob_ok v w fs cur r b :
  writes v w fs cur → w_seq w + 3 < 2 ^ 64 → row_ok r → blob_bytes (row_payload r) = Some b →
  ∃ v' w' fs' cur', append_blob (payload_type (row_payload r)) (row_id r) b v w = Some (full_status v', v', w') ∧
    step v w fs cur v' w' fs' cur' [r] ∧ w_seq w' ≤ w_seq w + 3 ∧
    (gapless v cur → full fs → full fs') ∧ (rows_bytes (cur ++ [r]) ≤ 8072 → gapless v' cur').
Proof.
  intros Hw Hlt Hr Hb. destruct (blob_row_ok r b Hr Hb) as (_&_&Hlen). unfold append_blob.
  destruct (require_ok (row_payload r) v w fs cur Hw) as (v1&w1&fs1&cur1&->&Hst1&Ht1&Hq1&Hg1&Hcur1); [lia|]. cbn [mbind option_bind].
  rewrite IsOk_ok. simpl negb. cbn iota. pose proof (st_writes _ _ _ _ _ _ _ _ _ Hst1) as Hw1.
  destruct (append_blob_frame (frame v1) cur1 r b (vw_cur _ _ _ _ Hw1) Ht1 Hr Hb) as (es1&Hes1&Hnil1&_).
  assert (Hblob : payload_type (row_payload r) = SNAME_ENTRY ∨ payload_type (row_payload r) = RECOVERY_ENTRY).
  { destruct (row_payload r); [done|by left|by right]. }
  rewrite (blob_can_write _ _ _ Hes1). cbn [mbind option_bind].
  assert (∃ v2 w2 fs2 cur2, (if bool_decide (Z.of_nat (length b) ≤ space es1) then Some (kOk, v1, w1)
      else flush_current_frame (payload_type (row_payload r)) v1 w1) = Some (kOk, v2, w2) ∧ step v1 w1 fs1 cur1 v2 w2 fs2 cur2 [] ∧
      fr_type (frame v2) = payload_type (row_payload r) ∧ w_seq w2 ≤ w_seq w1 + 1 ∧ (∀ es, blob_ok (frame v2) es → 64 ≤ space es ∧ Z.of_nat (length b) ≤ space es) ∧
      (full fs1 → full fs2) ∧ (cur2 = cur1 ∨ cur2 = []))
    as (v2&w2&fs2&cur2&->&Hst2&Ht2&Hq2&Hsp2&Hg2&Hcur2).
  { case_bool_decide as Hfit.
    - exists v1, w1, fs1, cur1. split_and!; [done| |done|lia| |done|by left]; [constructor; [done|exists []; by rewrite app_nil_r|by rewrite app_nil_r|apply same_refl]|].
      intros es Hes. rewrite (blob_unique _ _ _ Hes Hes1). split; [|done]. apply (proj2 (vw_room _ _ _ _ Hw1)); [by rewrite Ht1|done].
    - destruct (flush_frame_ok (row_payload r) v1 w1 fs1 cur1 Hw1) as (v2&w2&f2&->&Hst2&Hf2&Hs2); [lia|].
      exists v2, w2, (fs1 ++ [(f2, cur1)]), []. split_and!; [done|done|by rewrite Hf2|lia| | |by right].
      + intros es Hes. rewrite Hf2 in Hes. rewrite (blob_unique _ _ _ Hes (blob_ok_cleared _)). unfold space. rewrite decide_True by done. lia.
      + intros Hfs. apply full_snoc; [done|]. intros Hn. destruct Hfit. rewrite (Hnil1 Hn). unfold space. by rewrite decide_True. }
  cbn [mbind option_bind]. rewrite IsOk_ok. simpl negb. cbn iota. pose proof (st_writes _ _ _ _ _ _ _ _ _ Hst2) as Hw2.
  destruct (append_blob_frame (frame v2) cur2 r b (vw_cur _ _ _ _ Hw2) Ht2 Hr Hb) as (es2&Hes2&_&Happ).
  destruct (Hsp2 es2 Hes2) as [Hsp Hfit]. destruct Happ as (f&es3&->&Hf&Hes3&Htf); [lia|done|]. cbn [mbind option_bind].
  rewrite (blob_can_write _ _ _ Hes3). cbn [mbind option_bind]. pose proof (step_trans _ _ _ _ _ _ _ _ _ _ _ _ _ _ Hst1 Hst2) as Hst12. simpl app in Hst12.
  case_bool_decide as Hmore.
  - cbn [mbind option_bind]. rewrite IsOk_ok. simpl negb. cbn iota.
    assert (Hs : spacious f) by (split; [rewrite Htf, Ht2; destruct Hblob as [->| ->]; done|intros _ es Hes; by rewrite (blob_unique _ _ _ Hes Hes3)]).
    pose proof (step_row v2 w2 fs2 cur2 f r Hw2 Hf Hs) as Hst3. exists (set_frame f v2), w2, fs2, (cur2 ++ [r]).
    split_and!; [done| |lia|by intros Hg Hfs; apply Hg2, Hg1|intros _ Hn; by apply snoc_ne in Hn].
    apply (step_trans _ _ _ _ _ _ _ _ _ _ _ _ [] [r] Hst12). destruct (row_payload r); [done|exact Hst3|exact Hst3].
  - destruct (flush_full_ok (row_payload r) (set_frame f v2) w2 fs2 (cur2 ++ [r])) as (v3&w3&g&->&Hw3&Hsame&_&Hs3).
    + apply written_frame, Hw2.
    + by rewrite frame_set.
    + cbn [lv_bitmap set_frame]. rewrite app_assoc, data_ids_snoc, (vw_bitmap _ _ _ _ Hw2). unfold row_ids. destruct (row_payload r); [done|apply no_id|apply no_id].
    + lia.
    + cbn [mbind option_bind]. rewrite IsOk_ok. simpl negb. cbn iota. eexists v3, w3, _, [].
      split_and!; [done| |lia|intros Hg Hfs; apply full_snoc; [by apply Hg2, Hg1|apply snoc_ne]|].
      2: { intros Hbytes. destruct Hmore. assert (Hty : fr_type f = SNAME_ENTRY ∨ fr_type f = RECOVERY_ENTRY) by (rewrite Htf, Ht2; done).
        pose proof (content_bytes f (cur2 ++ [r]) es3 (fo_content _ _ Hf) Hty Hes3) as Et. rewrite rows_bytes_app in Hbytes, Et.
        pose proof (rows_bytes_pos cur). assert (rows_bytes cur2 ≤ rows_bytes cur) by (destruct Hcur2 as [->| ->], Hcur1 as [->| ->]; simpl; lia).
        unfold space, SIZE_THRESHOLD. destruct (decide (es3 = [])); lia. }
      apply (step_trans _ _ _ _ _ _ _ _ _ _ _ _ [] [r] Hst12). constructor; [exact Hw3|by eexists|by rewrite rows_of_snoc, app_nil_r|].
      destruct Hsame. by constructor.
Qed.

Lemma volume_append_ok v w fs cur r :
  writes v w fs cur → w_seq w + 3 < 2 ^ 64 → row_ok r →
  ∃ v' w' fs' cur', append r v w = Some (full_status v', v', w') ∧ step v w fs cur v' w' fs' cur' [r] ∧ w_seq w' ≤ w_seq w + 3 ∧
    (gapless v cur → full fs → full fs') ∧ (rows_bytes (cur ++ [r]) ≤ 8072 → gapless v' cur').
Proof.
  intros Hw Hlt Hr. unfold append. destruct r as [id [ts x|s|l]]; cbn [row_payload row_id].
  - destruct (append_point_ok v w fs cur id ts x Hw) as (v'&w'&fs'&cur'&?&?&?&?&?); [lia|done|]. exists v', w', fs', cur'. split_and!; [done|done|lia|done|done].
  - by apply (append_blob_ok v w fs cur (mkRow id (InputLogSeriesName s))).
  - by apply (append_blob_ok v w fs cur (mkRow id (InputLogRecoveryInfo l))).
Qed.

(** *** Flushing and closing *)

(** The frames in a file. *)
Record closed (path : chars) w (fs : frames) : Prop := {
  cl_file : w_files w !! path = Some (encoded LZ4_resetStream fs);
  cl_frames : frames_ok fs;
  cl_seqs : Forall (λ f, fr_seq f.1 < w_seq w) fs;
  cl_sorted : StronglySorted (λ f g, fr_seq f.1 < fr_seq g.1) fs;
}.

Lemma written_closed v w fs : written v w fs → closed (lv_path v) w fs.
Proof. intros []. by constructor. Qed.

Lemma volume_flush_ok v w fs cur :
  writes v w fs cur → w_seq w + 1 < 2 ^ 64 →
  ∃ v' w' fs' st, flush v w = Some (st, v', w') ∧ step v w fs cur v' w' fs' [] [] ∧ w_seq w' ≤ w_seq w + 1 ∧
    (st = full_status v' ∨ st = kOk ∧ fs' = fs) ∧ (full fs → full fs') ∧ (gapless v cur → gapless v' []).
Proof.
  intros Hw Hlt. unfold flush. destruct Hw as [Hw Hc Hroom Hbm]. case_decide as Hz.
  - destruct (write_ok v w fs cur Hw Hc Hlt) as (v'&w'&f&->&Hw'&_&Hsame&Hseq&Hb). cbn [mbind option_bind]. rewrite IsOk_ok. simpl negb. cbn iota.
    eexists (flip v'), w', (fs ++ [(f, cur)]), _. split; [reflexivity|].
    split_and!; [|lia|by left|intros Hfs; apply full_snoc; [done|]; intros ->; by rewrite (proj1 (content_size _ _ (fo_content _ _ Hc))) in Hz|intros _ _; by rewrite frame_flip].
    constructor.
    + constructor; [by apply written_flip|rewrite frame_flip; apply cleared_ok|rewrite frame_flip; by apply spacious_begun|].
      rewrite rows_of_snoc, app_nil_r. cbn [lv_bitmap flip set_frame]. by rewrite Hb.
    + by eexists.
    + by rewrite rows_of_snoc, !app_nil_r.
    + destruct Hsame. by constructor.
  - assert (cur = []) as -> by (apply (content_inj_nil _ _ (fo_content _ _ Hc)); done).
    exists v, w, fs, kOk. split_and!; [done| |lia|by right|done|done]. constructor; [by constructor|exists []; by rewrite app_nil_r|done|apply same_refl].
Qed.

Lemma volume_close_ok v w fs cur :
  writes v w fs cur → w_seq w + 1 < 2 ^ 64 →
  ∃ v' w' more, close v w = Some (v', w') ∧ closed (lv_path v) w' (fs ++ more) ∧ rows_of (fs ++ more) = rows_of fs ++ cur ∧
    same v v' w w' ∧ lv_opened v' = false ∧ lv_bitmap v' = lv_bitmap v ∧ w_io w' = [] ∧ w_seq w' ≤ w_seq w + 1 ∧
    (full fs → full (fs ++ more)).
Proof.
  intros [Hw Hc Hroom Hbm] Hlt. unfold close. case_decide as Hz.
  - destruct (write_ok v w fs cur Hw Hc Hlt) as (v'&w'&f&->&Hw'&_&Hsame&Hseq&Hb). cbn [mbind option_bind].
    eexists _, w', [(f, cur)]. split; [reflexivity|]. split_and!; [|apply rows_of_snoc| |done|done|apply (vw_io _ _ _ Hw')|lia|].
    + rewrite <- (sm_path _ _ _ _ Hsame). by apply written_closed.
    + destruct Hsame. by constructor.
    + intros Hfs. apply full_snoc; [done|]. intros ->. destruct Hz as [_ Hz]. by rewrite (proj1 (content_size _ _ (fo_content _ _ Hc))) in Hz.
  - assert (cur = []) as ->.
    { apply (content_inj_nil _ _ (fo_content _ _ Hc)). destruct (decide (fr_size (frame v) = 0)); [done|]. destruct Hz. split; [apply (vw_ro _ _ _ Hw)|done]. }
    cbn [mbind option_bind]. eexists _, w, []. split; [reflexivity|]. rewrite !app_nil_r. split_and!; [by apply written_closed|done| |done|done|apply (vw_io _ _ _ Hw)|lia|done].
    by constructor.
Qed.

(** ** Reading *)

(** The frames [fs] are still to be read. *)
Record reads v w (fs : frames) : Prop := {
  rd_opened : lv_opened v = true;
  rd_ro : lv_is_read_only v = true;
  rd_file : ∃ file e, w_files w !! lv_path v = Some file ∧ drop (lv_off v) file = encoded e fs ∧ lz4_sync e (lv_decode v);
  rd_left : ∀ e file, w_files w !! lv_path v = Some file → drop (lv_off v) file = encoded e fs → lv_bytes_to_read v = Z.of_nat (length (encoded e fs));
  rd_frames : frames_ok fs;
}.

Lemma open_ro_ok path w fs :
  closed path w fs → ∃ v, open_ro (existing path) w = Some v ∧ reads v w fs ∧ lv_elements_to_read v = 0 ∧ lv_path v = path.
Proof.
  intros [Hf Hfs _ _]. unfold open_ro. cbn [lv_opened existing]. rewrite decide_False by (intros Hx; by apply Hx). cbn [lv_path existing]. rewrite Hf.
  cbn [mbind option_bind]. eexists. split; [reflexivity|]. split; [|done]. constructor; simpl; try done.
  - eexists _, LZ4_resetStream. split_and!; [exact Hf|done|apply lz4_sync_init].
  - intros e file E1 E2. rewrite Hf in E1. injection E1 as <-. by rewrite <- E2.
Qed.

Lemma BUFFER_SIZE_ok (c : bytes) f rows : frame_ok f rows → Z.of_nat (length c) ≤ LZ4_COMPRESSBOUND (Z.of_nat (length (Frame.block f))) → Z.of_nat (length c) ≤ BUFFER_SIZE.
Proof. intros Hf. destruct (frame_block _ _ Hf) as (_&_&->). done. Qed.

Lemma volume_read_ok v w f rows fs :
  reads v w ((f, rows) :: fs) → frame v = Frame.cleared →
  ∃ n v', read v w = Some (kOk, n, v') ∧ frame v' = f ∧ lv_path v' = lv_path v ∧
    ∀ x, reads (set_reader (lv_decode v') (lv_off v') (lv_bytes_to_read v' - n) x v') w fs.
Proof.
  intros [Ho Hr (file&e&Hf&Hd&Hs) Hleft Hfs] Hcl. apply Forall_cons in Hfs as [Hfok Hfs]. cbn [fst snd] in Hfok.
  unfold read. rewrite Hr, Hf. cbn [mbind option_bind]. specialize (Hleft e file Hf Hd). cbn [encoded fst] in Hd, Hleft.
  destruct (frame_block _ _ Hfok) as (B1&B2&B3). destruct (lz4_roundtrip e _ _ Hs B1 B2) as (C1&C2&C3&C4).
  destruct (LZ4_compress_fast_continue e (Frame.block f)) as [c e'] eqn:Ec. cbn [fst snd] in *.
  assert (Hc32 : le_val (le_bytes 4 (Z.of_nat (length c))) = Z.of_nat (length c)).
  { apply le_val_bytes_id. rewrite B3 in C2. split; [lia|]. eapply Z.le_lt_trans; [exact C2|]. by vm_compute. }
  unfold Io._read_frame. rewrite Hd. rewrite decide_False by (rewrite !length_app, length_le_bytes; lia).
  rewrite take_app_length' by (by rewrite length_le_bytes). rewrite drop_app_length' by (by rewrite length_le_bytes). rewrite Hc32.
  rewrite Z.min_r by (by eapply BUFFER_SIZE_ok). rewrite Nat2Z.id. rewrite decide_False by (rewrite length_app; lia). rewrite take_app_length.
  rewrite IsOk_ok. simpl negb. cbn iota. rewrite <- B3.
  destruct (LZ4_decompress_safe_continue (lv_decode v) c (length (Frame.block f))) as [out d'] eqn:Edec. cbn [fst snd] in *. subst out.
  rewrite decide_False by done. change (frame (set_reader _ _ _ _ v)) with (frame v). rewrite Hcl.
  assert (length (Frame.block Frame.cleared) = length (Frame.block f)) as Hlen by (rewrite B3; apply (frame_block _ _ cleared_ok)).
  rewrite drop_ge by lia. rewrite app_nil_r, of_block_block by (by eapply frame_header). eexists _, _. split; [reflexivity|].
  rewrite frame_set. split_and!; [done|done|]. intros x. constructor; simpl; try done.
  - exists file, e'. split_and!; [done| |done]. rewrite <- Nat.add_assoc, <- drop_drop, Hd. rewrite app_assoc. apply drop_app_length'.
    rewrite length_app, length_le_bytes. done.
  - intros e2 file2 E1 E2. rewrite Hf in E1. injection E1 as <-.
    rewrite <- E2, <- Nat.add_assoc, <- drop_drop, Hd, length_drop, Hleft, !length_app, length_le_bytes. lia.
Qed.

Lemma encoded_pos e f fs : (4 ≤ length (encoded e (f :: fs)))%nat.
Proof. cbn [encoded]. destruct (LZ4_compress_fast_continue e (Frame.block f.1)). rewrite length_app, length_le_bytes. lia. Qed.

Lemma reads_left v w fs : reads v w fs → (lv_bytes_to_read v ≤ 0 ↔ fs = []).
Proof.
  intros [Ho Hr (file&e&Hf&Hd&Hs) Hleft Hfs]. rewrite (Hleft e file Hf Hd). destruct fs as [|f fs]; [done|].
  pose proof (encoded_pos e f fs). split; [lia|done].
Qed.

Lemma reads_flip v w fs : reads v w fs → reads (flip v) w fs.
Proof. by intros []. Qed.

Lemma read_next_frame_ok v w f rows fs :
  reads v w ((f, rows) :: fs) → ∃ v', read_next_frame v w = Some (kOk, Some f, v') ∧ reads v' w fs ∧ lv_path v' = lv_path v.
Proof.
  intros Hr. unfold read_next_frame. rewrite decide_False by (by rewrite (reads_left _ _ _ Hr)).
  destruct (volume_read_ok (flip v) w f rows fs (reads_flip _ _ _ Hr) (frame_flip v)) as (n&v'&->&Hf&Hp&Hr'). cbn [mbind option_bind].
  rewrite IsOk_ok. simpl negb. cbn iota. eexists. split; [change (frame (set_reader _ _ _ _ v')) with (frame v'); by rewrite Hf|]. split; [apply Hr'|done].
Qed.

Lemma read_next_frame_end v w : reads v w [] → read_next_frame v w = Some (kOk, None, v).
Proof. intros Hr. unfold read_next_frame. by rewrite decide_True by (by rewrite (reads_left _ _ _ Hr)). Qed.

End Volume.
