(* ===== verification/InputLog.v ===== *)
(** * The write-ahead log (input_log.cc, [InputLog] and [ShardedInputLog])

    A log is a ring of volumes; every shard, used by one thread, has its own.
    Recovery reads the shards together, frame by frame in the order of the
    sequence numbers. *)
From stdpp Require Import sorting.
From S2P Require Import Prelude Status StringPool LogFrame LogVolume.

(** ** File names *)

Module FileName.

(** The decimal digits of a [size_t]. *)
Fixpoint dec_loop (fuel : nat) (n : Z) (acc : chars) : chars :=
  match fuel with
  | O => acc
  | S fuel => let acc := 48 + n mod 10 :: acc in if decide (n / 10 = 0) then acc else dec_loop fuel (n / 10) acc
  end.
Definition dec (n : Z) : chars := dec_loop 20 n [].

Definition get_volume_name (volume_counter stream_id : Z) : chars :=
  str "inputlog" ++ dec volume_counter ++ str "_" ++ dec stream_id ++ str ".ils".

(** [\d+] and the rest. *)
Fixpoint digits (s : chars) : chars * chars :=
  match s with
  | [] => ([], [])
  | c :: q => if decide (48 ≤ c ≤ 57) then let '(d, r) := digits q in (c :: d, r) else ([], s)
  end.
Fixpoint strip (p s : chars) : option chars :=
  match p, s with
  | [], _ => Some s
  | x :: p, y :: s => if decide (x = y) then strip p s else None
  | _, [] => None
  end.

(** The expression at the beginning of [s]; the groups are digits, which the
    character after them ends. *)
Definition match_here (s : chars) : option (chars * chars) :=
  s ← strip (str "inputlog") s;
  let '(d1, s) := digits s in
  if decide (d1 = []) then None else
  s ← strip (str "_") s;
  let '(d2, s) := digits s in
  if decide (d2 = []) then None else
  _ ← strip (str ".ils") s;
  Some (d1, d2).
(** [boost::regex_search]: the first position that matches. *)
Fixpoint search (s : chars) : option (chars * chars) :=
  match match_here s with
  | Some m => Some m
  | None => match s with [] => None | _ :: s => search s end
  end.

(** [boost::lexical_cast<u32>] of digits. *)
Definition lexical_cast (d : chars) : option Z :=
  let v := foldl (λ v c, 10 * v + (c - 48)) 0 d in if decide (v < 2 ^ 32) then Some v else None.

Definition parse_filename (name : chars) : option (Z * Z) :=
  '(d1, d2) ← search name;
  volume_id ← lexical_cast d1;
  stream_id ← lexical_cast d2;
  Some (volume_id, stream_id).

End FileName.

(** ** [InputLog] *)

Section Log.
Context `{LZ4}.

Record InputLog := mkLog {
  il_volumes : list LZ4Volume;      (* the front is the newest, or the next to read *)
  il_counter : Z;
  il_max_volumes : Z;
  il_volume_size : Z;
  il_available : list chars;
  il_stream_id : Z;
}.

End Log.

Module Log.
Section Log.
Context `{LZ4}.
Implicit Types (l : InputLog) (w : World).

Definition set_volumes (vs : list LZ4Volume) l : InputLog :=
  mkLog vs (il_counter l) (il_max_volumes l) (il_volume_size l) (il_available l) (il_stream_id l).

(** *** Writing *)

Definition add_volume l w : InputLog * World :=
  let '(v, w) := Vol.create (FileName.get_volume_name (il_counter l) (il_stream_id l)) (il_volume_size l) w in
  (mkLog (v :: il_volumes l) (il_counter l + 1) (il_max_volumes l) (il_volume_size l) (il_available l) (il_stream_id l), w).

Definition create (nvol svol stream_id : Z) w : InputLog * World := add_volume (mkLog [] 0 nvol svol [] stream_id) w.

Definition remove_last_volume l w : option (InputLog * World) :=
  v ← last (il_volumes l); Some (set_volumes (removelast (il_volumes l)) l, (Vol.delete_file v w).2).

(** The ids of the oldest volume that no other one has, in rising order. *)
Definition detect_stale_ids l : option (list Z) :=
  oldest ← last (il_volumes l);
  let sum := ⋃ (lv_bitmap <$> removelast (il_volumes l)) in
  Some (merge_sort Z.le (elements (lv_bitmap oldest ∖ sum))).

(** The status and the stale ids: they leave the log with the next rotation. *)
Definition on_overflow (status : Status) l : option (list Z) :=
  if decide (status = kOverflow ∧ Z.of_nat (length (il_volumes l)) = il_max_volumes l) then detect_stale_ids l else Some [].

Definition append (r : InputLogRow) l w : option (Status * list Z * InputLog * World) :=
  match il_volumes l with
  | [] => None
  | v :: vs =>
    '(status, v, w) ← Vol.append r v w;
    let l := set_volumes (v :: vs) l in
    stale ← on_overflow status l;
    Some (status, stale, l, w)
  end.

Definition flush l w : option (Status * list Z * InputLog * World) :=
  match il_volumes l with
  | [] => Some (kOk, [], l, w)
  | v :: vs =>
    '(status, v, w) ← Vol.flush v w;
    let l := set_volumes (v :: vs) l in
    stale ← on_overflow status l;
    Some (status, stale, l, w)
  end.

Definition rotate l w : option (InputLog * World) :=
  '(l, w) ← (if decide (il_max_volumes l ≤ Z.of_nat (length (il_volumes l))) then remove_last_volume l w else Some (l, w));
  let '(l, w) := add_volume l w in
  match il_volumes l with
  | v0 :: v1 :: vs => '(v1, w) ← Vol.close v1 w; Some (set_volumes (v0 :: v1 :: vs) l, w)
  | _ => Some (l, w)
  end.

(** The destructor: [~LZ4Volume] of each volume that is open. *)
Fixpoint destroy_volumes (vs : list LZ4Volume) w : option World :=
  match vs with
  | [] => Some w
  | v :: vs => w ← (if lv_opened v then '(_, w) ← Vol.close v w; Some w else Some w); destroy_volumes vs w
  end.
Definition destroy l w : option World := destroy_volumes (il_volumes l) w.

(** *** Reading *)

(** [find_volumes]: the files of the stream in the order of their numbers. *)
Fixpoint string_le (a b : chars) : bool :=
  match a, b with
  | [], _ => true
  | _, [] => false
  | x :: a, y :: b => if decide (x < y) then true else if decide (y < x) then false else string_le a b
  end.
Definition volume_le (a b : Z * chars) : Prop := a.1 < b.1 ∨ a.1 = b.1 ∧ string_le a.2 b.2 = true.
#[export] Instance volume_le_dec : RelDecision volume_le.
Proof. intros a b. unfold volume_le. apply _. Defined.

Definition stream_files (stream_id : Z) (names : list chars) : list (Z * chars) :=
  names ≫= λ fn, match FileName.parse_filename fn with Some (vid, sid) => if decide (sid = stream_id) then [(vid, fn)] else [] | None => [] end.

Definition find_volumes (stream_id : Z) w : list chars :=
  (merge_sort volume_le (stream_files stream_id (map_to_list (w_files w)).*1)).*2.

(** [open_volumes] *)
Definition open_volumes l w : option InputLog :=
  let vs := il_volumes l ++ (Vol.existing <$> il_available l) in
  let counter := il_counter l + Z.of_nat (length (il_available l)) in
  vs ← match vs with
       | v :: vs => if lv_opened v then Some (v :: vs) else v ← Vol.open_ro v w; Some (v :: vs)
       | [] => Some []
       end;
  Some (mkLog vs counter (il_max_volumes l) (il_volume_size l) (il_available l) (il_stream_id l)).

Definition recover (stream_id : Z) w : option InputLog :=
  open_volumes (mkLog [] 0 0 0 (find_volumes stream_id w) stream_id) w.

Definition reopen l w : option InputLog :=
  if decide (il_volume_size l = 0 ∧ il_max_volumes l = 0) then open_volumes (set_volumes [] l) w else None.

Definition delete_files l w : InputLog * World :=
  foldl (λ '(l, w) v, let '(v, w) := Vol.delete_file v w in (set_volumes (il_volumes l ++ [v]) l, w)) (set_volumes [] l, w) (il_volumes l).

Definition opened (v : LZ4Volume) w : option LZ4Volume := if lv_opened v then Some v else Vol.open_ro v w.

(** [read_next] of rows: a volume that gives nothing is left, whatever its status. *)
Fixpoint read_next_loop (buffer_size : Z) (vs : list LZ4Volume) w : option (Status * list InputLogRow * list LZ4Volume) :=
  match vs with
  | [] => Some (kOk, [], [])
  | v :: vs =>
    v ← opened v w;
    '(status, rows, v) ← Vol.read_next buffer_size v w;
    if decide (rows ≠ []) then Some (status, rows, v :: vs) else read_next_loop buffer_size vs w
  end.
Definition read_next (buffer_size : Z) l w : option (Status * list InputLogRow * InputLog) :=
  '(status, rows, vs) ← read_next_loop buffer_size (il_volumes l) w; Some (status, rows, set_volumes vs l).

Fixpoint read_points_loop (buffer_size : Z) (vs : list LZ4Volume) w : option (Status * list (Z * Z * Z) * list LZ4Volume) :=
  match vs with
  | [] => Some (kOk, [], [])
  | v :: vs =>
    v ← opened v w;
    '(status, ps, v) ← Vol.read_next_points buffer_size v w;
    if decide (ps ≠ []) then Some (status, ps, v :: vs) else read_points_loop buffer_size vs w
  end.
Definition read_next_points (buffer_size : Z) l w : option (Status * list (Z * Z * Z) * InputLog) :=
  '(status, ps, vs) ← read_points_loop buffer_size (il_volumes l) w; Some (status, ps, set_volumes vs l).

Fixpoint next_frame_loop (vs : list LZ4Volume) w : option (Status * option Frame * list LZ4Volume) :=
  match vs with
  | [] => Some (kNoData, None, [])
  | v :: vs =>
    v ← opened v w;
    '(status, result, v) ← Vol.read_next_frame v w;
    match result with
    | None => if IsOk status then next_frame_loop vs w else Some (status, None, v :: vs)
    | Some f => if IsOk status then Some (kOk, Some f, v :: vs) else Some (status, None, v :: vs)
    end
  end.
Definition read_next_frame l w : option (Status * option Frame * InputLog) :=
  '(status, f, vs) ← next_frame_loop (il_volumes l) w; Some (status, f, set_volumes vs l).

End Log.
End Log.

(** ** [ShardedInputLog] *)

Section Sharded.
Context `{LZ4}.

(** The frame is the one that the stream returned; it stays until the next call. *)
Record LogBuffer := mkBuffer { bf_pos : Z; bf_status : Status; bf_frame : option Frame }.

Record ShardedInputLog := mkSharded {
  sl_streams : list (option InputLog);
  sl_concurrency : Z;
  sl_read_queue : list LogBuffer;
  sl_read_only : bool;
  sl_read_started : bool;
  sl_buffer_ix : Z;
  sl_nvol : Z;
  sl_svol : Z;
}.

End Sharded.

Module Sharded.
Section Sharded.
Context `{LZ4}.
Implicit Types (s : ShardedInputLog) (w : World).

Definition create (concurrency nvol svol : Z) : ShardedInputLog :=
  mkSharded (replicate (Z.to_nat concurrency) None) concurrency [] false false 0 nvol svol.

(** [get_shard]: the index of the shard, which is created when it is first used. *)
Definition get_shard (i : Z) s w : option (Z * ShardedInputLog * World) :=
  if sl_read_only s then None else
  let ix := i mod Z.of_nat (length (sl_streams s)) in
  stream ← sl_streams s !! Z.to_nat ix;
  match stream with
  | Some _ => Some (ix, s, w)
  | None =>
    let '(l, w) := Log.create (sl_nvol s) (sl_svol s) ix w in
    Some (ix, mkSharded (<[Z.to_nat ix := Some l]> (sl_streams s)) (sl_concurrency s) (sl_read_queue s) (sl_read_only s)
      (sl_read_started s) (sl_buffer_ix s) (sl_nvol s) (sl_svol s), w)
  end.

(** The numbers of streams among the files. *)
Definition stream_ids w : list Z :=
  (map_to_list (w_files w)).*1 ≫= λ fn, match FileName.parse_filename fn with Some (_, sid) => [sid] | None => [] end.
Definition i32 (x : Z) : Z := if decide (x < 2 ^ 31) then x else x - 2 ^ 32.

(** [find_logs]: one more than the largest number, as a signed one. *)
Definition find_logs w : Z := 1 + foldr Z.max (-1) (i32 <$> stream_ids w).

(** For reading; a concurrency of 0 means that of the files. *)
Fixpoint recover_streams (n : nat) (i : Z) w : option (list (option InputLog)) :=
  match n with
  | O => Some []
  | S n => l ← Log.recover i w; ls ← recover_streams n (i + 1) w; Some (Some l :: ls)
  end.
(** [get_concurrency_level]: a name that is not a volume counts as stream 0. *)
Definition get_concurrency_level w : Z := i32 (u32 (1 + foldr Z.max 0 (stream_ids w))).
Definition recover (concurrency : Z) w : option ShardedInputLog :=
  let concurrency := if decide (concurrency = 0) then get_concurrency_level w else concurrency in
  streams ← recover_streams (Z.to_nat concurrency) 0 w;
  Some (mkSharded streams concurrency [] true false 0 0 0).

Definition set_reader (streams : list (option InputLog)) (queue : list LogBuffer) (ix : Z) s : ShardedInputLog :=
  mkSharded streams (sl_concurrency s) queue (sl_read_only s) true ix (sl_nvol s) (sl_svol s).

(** [init_read_buffers] *)
Fixpoint init_buffers (streams : list (option InputLog)) w : option (list (option InputLog) * list LogBuffer) :=
  match streams with
  | [] => Some ([], [])
  | None :: _ => None
  | Some l :: streams =>
    '(status, f, l) ← Log.read_next_frame l w;
    '(streams, queue) ← init_buffers streams w;
    Some (Some l :: streams, mkBuffer 0 status f :: queue)
  end.
Definition init_read_buffers s w : option ShardedInputLog :=
  if sl_read_only s then
    if sl_read_started s then None else
    '(streams, queue) ← init_buffers (sl_streams s) w;
    Some (set_reader streams queue (-1) s)
  else None.

(** A buffer that takes part in the choice. *)
Definition ready (b : LogBuffer) : option (option Frame) :=
  if IsOk (bf_status b) then f ← bf_frame b; Some (if decide (fr_size f ≠ 0) then Some f else None) else Some None.

(** [choose_next]: the first buffer with the smallest sequence number, or -1. *)
Fixpoint choose_loop (queue : list LogBuffer) (ix : Z) (best : option (Z * Z)) : option Z :=
  match queue with
  | [] => Some (match best with None => -1 | Some (res, _) => res end)
  | b :: queue =>
    f ← ready b;
    let best := match f, best with
                | None, _ => best
                | Some f, None => Some (ix, fr_seq f)
                | Some f, Some (res, seq) => if decide (fr_seq f < seq) then Some (ix, fr_seq f) else best
                end in
    choose_loop queue (ix + 1) best
  end.
Definition choose_next (queue : list LogBuffer) : option Z := choose_loop queue 0 None.

Definition refill_buffer (ix : nat) (streams : list (option InputLog)) (queue : list LogBuffer) w
    : option (list (option InputLog) * list LogBuffer) :=
  stream ← streams !! ix;
  l ← stream;
  '(status, f, l) ← Log.read_next_frame l w;
  Some (<[ix := Some l]> streams, <[ix := mkBuffer 0 status f]> queue).

(** The loop of [read_next]: the status, the elements and the state.  [fetch]
    gives the elements of a frame; a frame that has none of them is bad data, and
    the elements so far are dropped. *)
Section Loop.
Context {A : Type} (fetch : Frame → Z → nat → option (option (list A))).

Fixpoint read_loop (fuel : nat) (buffer_size : Z) (out : list A) s w : option (Status * list A * ShardedInputLog) :=
  match fuel with
  | O => None
  | S fuel =>
    if decide (0 ≤ sl_buffer_ix s ∧ 0 < buffer_size) then
      let ix := Z.to_nat (sl_buffer_ix s) in
      b ← sl_read_queue s !! ix;
      f ← bf_frame b;
      if decide (bf_pos b < fr_size f) then
        let toread := Z.min (fr_size f - bf_pos b) buffer_size in
        es ← fetch f (bf_pos b) (Z.to_nat toread);
        match es with
        | Some es =>
          read_loop fuel (buffer_size - toread) (out ++ es)
            (set_reader (sl_streams s) (<[ix := mkBuffer (bf_pos b + toread) (bf_status b) (Some f)]> (sl_read_queue s)) (sl_buffer_ix s) s) w
        | None => Some (kBadData, [], s)
        end
      else
        '(streams, queue) ← refill_buffer ix (sl_streams s) (sl_read_queue s) w;
        next ← choose_next queue;
        let s := set_reader streams queue next s in
        if decide (next < 0) then Some (kNoData, out, s) else read_loop fuel buffer_size out s w
    else Some (kOk, out, s)
  end.

Definition read_next_of (fuel : nat) (buffer_size : Z) s w : option (Status * list A * ShardedInputLog) :=
  let buffer_size := Z.min (2 ^ 32 - 1) buffer_size in
  s ← (if sl_read_started s then Some s else init_read_buffers s w);
  if decide (sl_buffer_ix s < 0) then
    next ← choose_next (sl_read_queue s);
    let s := set_reader (sl_streams s) (sl_read_queue s) next s in
    if decide (next < 0) then Some (kNoData, [], s) else read_loop fuel buffer_size [] s w
  else read_loop fuel buffer_size [] s w.

End Loop.

(** The overload for rows looks at the type of a frame, the one for points does not. *)
Definition fetch_rows (f : Frame) (pos : Z) (n : nat) : option (option (list InputLogRow)) :=
  if known_type f then rows ← frame_rows f pos n; Some (Some rows) else Some None.
Definition fetch_points (f : Frame) (pos : Z) (n : nat) : option (option (list (Z * Z * Z))) :=
  ps ← Vol.points f pos n; Some (Some ps).
Definition read_next := read_next_of fetch_rows.
Definition read_next_points := read_next_of fetch_points.

(** The streams are opened anew; the buffers, which point into the old ones, and
    the position stay. *)
Definition reopen s w : option ShardedInputLog :=
  if sl_read_only s then
    streams ← recover_streams (Z.to_nat (sl_concurrency s)) 0 w;
    Some (mkSharded streams (sl_concurrency s) (sl_read_queue s) true (sl_read_started s) (sl_buffer_ix s) (sl_nvol s) (sl_svol s))
  else None.

(** A stream that was not created is a null pointer. *)
Fixpoint delete_streams (streams : list (option InputLog)) w : option (list (option InputLog) * World) :=
  match streams with
  | [] => Some ([], w)
  | None :: _ => None
  | Some l :: streams => let '(l, w) := Log.delete_files l w in '(ls, w) ← delete_streams streams w; Some (Some l :: ls, w)
  end.
Definition delete_files s w : option (ShardedInputLog * World) :=
  '(streams, w) ← delete_streams (sl_streams s) w;
  Some (mkSharded streams (sl_concurrency s) (sl_read_queue s) (sl_read_only s) (sl_read_started s) (sl_buffer_ix s) (sl_nvol s) (sl_svol s), w).

Fixpoint destroy_streams (streams : list (option InputLog)) w : option World :=
  match streams with
  | [] => Some w
  | None :: streams => destroy_streams streams w
  | Some l :: streams => w ← Log.destroy l w; destroy_streams streams w
  end.
Definition destroy s w : option World := destroy_streams (sl_streams s) w.

End Sharded.
End Sharded.
