(* ===== verification/InputLogRead.v ===== *)
(** * Reading the shards of the log together *)
From stdpp Require Import sorting.
From S2P Require Import Prelude Status StringPool LogFrame LogVolume LogVolumeProof InputLog.

Notation frames := (list (Frame * list InputLogRow)).

(** ** The order of recovery

    From the first frames of the streams the one with the smallest number is
    taken, until no frame is left. *)
Inductive merged : list frames → frames → Prop :=
  | merged_nil ss : Forall (λ fs, fs = []) ss → merged ss []
  | merged_cons ss i f fs out :
      ss !! i = Some (f :: fs) → (∀ j g gs, ss !! j = Some (g :: gs) → fr_seq f.1 ≤ fr_seq g.1) →
      merged (<[i := fs]> ss) out → merged ss (f :: out).

Lemma elem_of_concat {A} (x : A) (ls : list (list A)) : x ∈ concat ls ↔ ∃ l, x ∈ l ∧ l ∈ ls.
Proof.
  induction ls as [|l ls IH]; cbn [concat]; [split; [by intros ?%not_elem_of_nil|by intros (l&_&?%not_elem_of_nil)]|].
  rewrite elem_of_app, IH. split.
  - intros [Hx|(l'&Hx&Hl)]; [exists l; split; [done|by left]|exists l'; split; [done|by right]].
  - intros (l'&Hx&[->|Hl]%elem_of_cons); [by left|right; by exists l'].
Qed.

Lemma merged_perm ss out : merged ss out → out ≡ₚ concat ss.
Proof.
  induction 1 as [ss Hnil|ss i f fs out Hi _ _ IH].
  - induction Hnil as [|fs ss -> _ IH]; done.
  - rewrite IH. pose proof (lookup_lt_Some _ _ _ Hi) as Hlt. rewrite <- (take_drop_middle ss i (f :: fs) Hi) at 2.
    rewrite insert_take_drop by done. rewrite !concat_app. cbn [concat app]. by rewrite Permutation_middle.
Qed.

Lemma concat_tail_length (ss : list frames) ix f fs : ss !! ix = Some (f :: fs) → length (concat ss) = S (length (concat (<[ix := fs]> ss))).
Proof.
  intros Hi. pose proof (lookup_lt_Some _ _ _ Hi) as Hlt. rewrite <- (take_drop_middle ss ix (f :: fs) Hi) at 1.
  rewrite insert_take_drop by done. rewrite !concat_app. cbn [concat app]. rewrite !length_app. simpl. rewrite !length_app. lia.
Qed.

Lemma min_head (ss : list frames) :
  Forall (λ fs, fs = []) ss ∨ ∃ i f fs, ss !! i = Some (f :: fs) ∧ ∀ j g gs, ss !! j = Some (g :: gs) → fr_seq f.1 ≤ fr_seq g.1.
Proof.
  induction ss as [|fs ss [Hnil|(i&f&fs'&Hi&Hmin)]]; [by left|..]; destruct fs as [|h hs].
  - left. by constructor.
  - right. exists 0%nat, h, hs. split; [done|]. intros [|j] g gs Hj; [by injection Hj as <- <-|]. rewrite Forall_lookup in Hnil. by specialize (Hnil j _ Hj).
  - right. exists (S i), f, fs'. split; [done|]. intros [|j] g gs Hj; [done|]. by apply (Hmin j g gs).
  - right. destruct (decide (fr_seq f.1 ≤ fr_seq h.1)).
    + exists (S i), f, fs'. split; [done|]. intros [|j] g gs Hj; [by injection Hj as <- <-|]. by apply (Hmin j g gs).
    + exists 0%nat, h, hs. split; [done|]. intros [|j] g gs Hj; [by injection Hj as <- <-|]. pose proof (Hmin j g gs Hj). lia.
Qed.

Lemma merged_exists ss : ∃ out, merged ss out.
Proof.
  remember (length (concat ss)) as n eqn:En. revert ss En. induction n as [|n IH]; intros ss En; destruct (min_head ss) as [Hnil|(i&f&fs&Hi&Hmin)].
  - exists []. by apply merged_nil.
  - rewrite (concat_tail_length ss i f fs Hi) in En. lia.
  - exists []. by apply merged_nil.
  - rewrite (concat_tail_length ss i f fs Hi) in En. destruct (IH (<[i := fs]> ss)) as (out&Hm); [lia|]. exists (f :: out). by eapply merged_cons.
Qed.

Notation seq_sorted := (StronglySorted (λ f g : Frame * list InputLogRow, fr_seq f.1 < fr_seq g.1)).

(** Streams whose numbers rise give frames whose numbers do not fall. *)
Lemma merged_sorted ss out :
  merged ss out → Forall seq_sorted ss → StronglySorted (λ f g, fr_seq f.1 ≤ fr_seq g.1) out.
Proof.
  induction 1 as [ss Hnil|ss i f fs out Hi Hmin Hm IH]; intros Hs; [constructor|]. rewrite Forall_lookup in Hs.
  pose proof (Hs i _ Hi) as [Hf Hfs]%StronglySorted_cons. constructor.
  - apply IH. apply Forall_insert; [|done]. by apply Forall_lookup.
  - apply Forall_forall. intros g Hg. rewrite (merged_perm _ _ Hm) in Hg. apply elem_of_concat in Hg as (gs&Hg&Hgs).
    apply list_elem_of_lookup in Hgs as (j&Hj). destruct (decide (j = i)) as [->|Hne].
    + rewrite list_lookup_insert_eq in Hj by (by eapply lookup_lt_Some). injection Hj as <-. rewrite Forall_forall in Hf. specialize (Hf g Hg). lia.
    + rewrite list_lookup_insert_ne in Hj by done. destruct gs as [|h gs]; [by apply not_elem_of_nil in Hg|].
      pose proof (Hmin j h gs Hj). apply elem_of_cons in Hg as [->|Hg]; [done|]. pose proof (Hs j _ Hj) as [Hh _]%StronglySorted_cons.
      rewrite Forall_forall in Hh. specialize (Hh g Hg). lia.
Qed.

Section Read.
Context `{LZ4Laws}.
Implicit Types (w : World).

(** ** One stream *)

(** A volume that is open, or not yet. *)
Definition volume_reads (v : LZ4Volume) w (fs : frames) : Prop :=
  reads v w fs ∨ ∃ path, v = Vol.existing path ∧ closed path w fs.

(** The frames that the volumes still have, empty ones among them. *)
Definition log_reads (l : InputLog) w (fs : frames) : Prop :=
  ∃ fss, Forall2 (λ v fs, volume_reads v w fs) (il_volumes l) fss ∧ concat fss = fs.

Lemma opened_ok v w fs : volume_reads v w fs → ∃ v', Log.opened v w = Some v' ∧ reads v' w fs.
Proof.
  intros [Hr|(path&->&Hc)]; unfold Log.opened.
  - rewrite (rd_opened _ _ _ Hr). by exists v.
  - cbn [lv_opened Vol.existing]. destruct (open_ro_ok path w fs Hc) as (v'&->&Hr&_). by exists v'.
Qed.

Lemma next_frame_ok vs w fss :
  Forall2 (λ v fs, volume_reads v w fs) vs fss →
  match concat fss with
  | [] => Log.next_frame_loop vs w = Some (kNoData, None, [])
  | (f, rows) :: fs => ∃ vs' fss', Log.next_frame_loop vs w = Some (kOk, Some f, vs') ∧ frame_ok f rows ∧
      Forall2 (λ v fs, volume_reads v w fs) vs' fss' ∧ concat fss' = fs
  end.
Proof.
  induction 1 as [|v fs vs fss Hv Hvs IH]; [done|]. cbn [concat Log.next_frame_loop].
  destruct (opened_ok v w fs Hv) as (v1&->&Hr). cbn [mbind option_bind]. destruct fs as [|[f rows] fs].
  - rewrite (read_next_frame_end v1 w Hr). cbn [mbind option_bind]. rewrite IsOk_ok. exact IH.
  - pose proof (rd_frames _ _ _ Hr) as [Hf _]%Forall_cons. destruct (read_next_frame_ok v1 w f rows fs Hr) as (v2&->&Hr2&_).
    cbn [mbind option_bind]. rewrite IsOk_ok. cbn [app]. exists (v2 :: vs), (fs :: fss). split_and!; [done|done| |done]. constructor; [by left|done].
Qed.

Lemma log_next_frame_ok l w f rows fs :
  log_reads l w ((f, rows) :: fs) → ∃ l', Log.read_next_frame l w = Some (kOk, Some f, l') ∧ log_reads l' w fs ∧ frame_ok f rows.
Proof.
  intros (fss&Hv&E). pose proof (next_frame_ok _ _ _ Hv) as Hn. rewrite E in Hn. destruct Hn as (vs'&fss'&En&Hf&Hv'&E'). unfold Log.read_next_frame.
  rewrite En. cbn [mbind option_bind]. eexists. split; [reflexivity|]. split; [|done]. by exists fss'.
Qed.

Lemma log_next_frame_end l w : log_reads l w [] → ∃ l', Log.read_next_frame l w = Some (kNoData, None, l') ∧ log_reads l' w [].
Proof.
  intros (fss&Hv&E). pose proof (next_frame_ok _ _ _ Hv) as Hn. rewrite E in Hn. unfold Log.read_next_frame. rewrite Hn. cbn [mbind option_bind].
  eexists. split; [reflexivity|]. exists []. split; [constructor|done].
Qed.

(** A frame without rows ends the stream for the readers of the shards. *)
Definition gap (fs : frames) : Prop := match fs with [] => True | f :: _ => f.2 = [] end.
Definition log_gives (l : InputLog) w (fs : frames) : Prop := ∃ more, log_reads l w (fs ++ more) ∧ gap more.

Lemma log_gives_next l w f rows fs :
  log_gives l w ((f, rows) :: fs) → ∃ l', Log.read_next_frame l w = Some (kOk, Some f, l') ∧ log_gives l' w fs ∧ frame_ok f rows.
Proof.
  intros (more&Hl&Hgap). destruct (log_next_frame_ok l w f rows (fs ++ more) Hl) as (l'&->&Hl'&Hf). exists l'. split_and!; [done| |done]. by exists more.
Qed.

Lemma log_gives_end l w :
  log_gives l w [] → ∃ st f l', Log.read_next_frame l w = Some (st, f, l') ∧ Sharded.ready (mkBuffer 0 st f) = Some None.
Proof.
  intros ([|[f rows] more]&Hl&Hgap).
  - destruct (log_next_frame_end l w Hl) as (l'&->&_). by eexists _, _, l'.
  - destruct (log_next_frame_ok l w f rows more Hl) as (l'&->&_&Hf). eexists _, _, l'. split; [done|]. unfold Sharded.ready. cbn [bf_status bf_frame].
    rewrite IsOk_ok. cbn [mbind option_bind]. rewrite decide_False; [done|]. rewrite (proj1 (content_size _ _ (fo_content _ _ Hf))). simpl in Hgap. subst rows. by intros Hx; apply Hx.
Qed.

(** ** The shards *)

(** The first frame of the stream is in the buffer, read up to [p]. *)
Definition shard_ok w (stream : option InputLog) (b : LogBuffer) (p : Z) (fs : frames) : Prop :=
  ∃ l, stream = Some l ∧
  match fs with
  | [] => Sharded.ready b = Some None
  | (f, rows) :: fs => b = mkBuffer p kOk (Some f) ∧ frame_ok f rows ∧ log_gives l w fs
  end.

Record pending (streams : list (option InputLog)) (queue : list LogBuffer) w (pos : nat → Z) (ss : list frames) : Prop := {
  pd_streams : length streams = length ss;
  pd_queue : length queue = length ss;
  pd_shard i fs : ss !! i = Some fs → ∃ stream b, streams !! i = Some stream ∧ queue !! i = Some b ∧ shard_ok w stream b (pos i) fs;
  pd_rows : Forall full ss;
}.

(** The rest of the queue after the first [k] buffers. *)
Lemma choose_loop_ok streams queue w pos ss k best :
  pending streams queue w pos ss → (k ≤ length ss)%nat →
  match best with
  | None => ∀ j fs, (j < k)%nat → ss !! j = Some fs → fs = []
  | Some (ix, seq) => ∃ i f fs, ix = Z.of_nat i ∧ seq = fr_seq f.1 ∧ ss !! i = Some (f :: fs) ∧
      ∀ j g gs, (j < k)%nat → ss !! j = Some (g :: gs) → fr_seq f.1 ≤ fr_seq g.1
  end →
  (Sharded.choose_loop (drop k queue) (Z.of_nat k) best = Some (-1) ∧ Forall (λ fs, fs = []) ss) ∨
  ∃ i f fs, Sharded.choose_loop (drop k queue) (Z.of_nat k) best = Some (Z.of_nat i) ∧ ss !! i = Some (f :: fs) ∧
    ∀ j g gs, ss !! j = Some (g :: gs) → fr_seq f.1 ≤ fr_seq g.1.
Proof.
  intros Hp. remember (length ss - k)%nat as n eqn:En. revert k best En. induction n as [|n IH]; intros k best En Hk Hb.
  - rewrite drop_ge by (rewrite (pd_queue _ _ _ _ _ Hp); lia). cbn [Sharded.choose_loop]. destruct best as [[ix seq]|].
    + right. destruct Hb as (i&f&fs&->&->&Hi&Hmin). exists i, f, fs. split_and!; [done|done|]. intros j g gs Hj. apply (Hmin j g gs); [|done].
      apply lookup_lt_Some in Hj. lia.
    + left. split; [done|]. apply Forall_lookup. intros j fs Hj. apply (Hb j fs); [|done]. apply lookup_lt_Some in Hj. lia.
  - destruct (lookup_lt_is_Some_2 ss k) as [fs Hfs]; [lia|]. destruct (pd_shard _ _ _ _ _ Hp k fs Hfs) as (stream&b&_&Hq&l&_&Hsh).
    rewrite (drop_S _ _ _ Hq). cbn [Sharded.choose_loop]. replace (Z.of_nat k + 1) with (Z.of_nat (S k)) by lia.
    destruct fs as [|[f rows] fs].
    + rewrite Hsh. cbn [mbind option_bind].
      apply IH; [lia|lia|]. destruct best as [[ix seq]|].
      * destruct Hb as (i&f&fs&->&->&Hi&Hmin). exists i, f, fs. split_and!; [done..|]. intros j g gs Hj Hg. destruct (decide (j = k)) as [->|]; [congruence|].
        apply (Hmin j g gs); [lia|done].
      * intros j fs Hj Hjs. destruct (decide (j = k)) as [->|]; [congruence|]. apply (Hb j); [lia|done].
    + destruct Hsh as (->&Hf&_). unfold Sharded.ready. cbn [bf_status bf_frame]. rewrite IsOk_ok. cbn [mbind option_bind].
      pose proof (pd_rows _ _ _ _ _ Hp) as Hne. rewrite Forall_lookup in Hne. pose proof (Hne k _ Hfs) as [Hrows _]%Forall_cons. cbn [snd] in Hrows.
      rewrite decide_True by (rewrite (proj1 (content_size _ _ (fo_content _ _ Hf))); destruct rows; [done|simpl; lia]).
      apply IH; [lia|lia|]. destruct best as [[ix seq]|].
      * destruct Hb as (i&g&gs&->&->&Hi&Hmin). case_decide as Hlt.
        -- exists k, (f, rows), fs. split_and!; [done..|]. intros j h hs Hj Hh. destruct (decide (j = k)) as [->|]; [rewrite Hfs in Hh; by injection Hh as <- <-|].
           pose proof (Hmin j h hs ltac:(lia) Hh). simpl. lia.
        -- exists i, g, gs. split_and!; [done..|]. intros j h hs Hj Hh. destruct (decide (j = k)) as [->|]; [rewrite Hfs in Hh; injection Hh as <- <-; simpl in *; lia|].
           apply (Hmin j h hs); [lia|done].
      * exists k, (f, rows), fs. split_and!; [done..|]. intros j h hs Hj Hh. destruct (decide (j = k)) as [->|]; [rewrite Hfs in Hh; by injection Hh as <- <-|].
        pose proof (Hb j _ ltac:(lia) Hh). done.
Qed.

Lemma choose_next_ok streams queue w pos ss :
  pending streams queue w pos ss →
  (Sharded.choose_next queue = Some (-1) ∧ Forall (λ fs, fs = []) ss) ∨
  ∃ i f fs, Sharded.choose_next queue = Some (Z.of_nat i) ∧ ss !! i = Some (f :: fs) ∧ ∀ j g gs, ss !! j = Some (g :: gs) → fr_seq f.1 ≤ fr_seq g.1.
Proof.
  intros Hp. apply (choose_loop_ok streams queue w pos ss 0 None Hp); [lia|]. intros j fs Hj. lia.
Qed.

(** ** The loop *)

Notation pos_at ix p := (λ j : nat, if decide (j = ix) then p else 0).

(** The frame of buffer [ix] was chosen and is read up to [p]. *)
Record at_frame (s : ShardedInputLog) w (ss : list frames) (ix : nat) (p : Z) (f : Frame) (rows : list InputLogRow) (fs : frames) : Prop := {
  af_ix : sl_buffer_ix s = Z.of_nat ix;
  af_started : sl_read_started s = true;
  af_pending : pending (sl_streams s) (sl_read_queue s) w (pos_at ix p) ss;
  af_frame : ss !! ix = Some ((f, rows) :: fs);
  af_pos : 0 ≤ p ≤ Z.of_nat (length rows);
  af_min j g gs : ss !! j = Some (g :: gs) → fr_seq f ≤ fr_seq g.1;
}.

(** The rows that are left, in the order of recovery. *)
Definition rest_rows (ss : list frames) (ix : nat) (p : Z) (rows : list InputLogRow) (fs : frames) (R : list InputLogRow) : Prop :=
  ∃ out, merged (<[ix := fs]> ss) out ∧ R = drop (Z.to_nat p) rows ++ rows_of out.

(** Nothing is left. *)
Record at_end (s : ShardedInputLog) w : Prop := {
  ae_ix : sl_buffer_ix s = -1;
  ae_started : sl_read_started s = true;
  ae_pending : ∃ ss, pending (sl_streams s) (sl_read_queue s) w (λ _, 0) ss ∧ Forall (λ fs, fs = []) ss;
}.

Lemma pending_ext streams queue w pos pos' ss :
  (∀ i f fs, ss !! i = Some (f :: fs) → pos i = pos' i) → pending streams queue w pos ss → pending streams queue w pos' ss.
Proof.
  intros He [H1 H2 H3 H4]. constructor; try done. intros i fs Hi. destruct (H3 i fs Hi) as (stream&b&Hs&Hq&l&Hl&Hsh). exists stream, b. split_and!; [done..|].
  exists l. split; [done|]. destruct fs as [|[f rows] fs]; [done|]. by rewrite <- (He i _ _ Hi).
Qed.

(** After [k] elements of the frame. *)
Lemma at_frame_advance s w ss ix p f rows fs p' :
  at_frame s w ss ix p f rows fs → 0 ≤ p' ≤ Z.of_nat (length rows) →
  at_frame (Sharded.set_reader (sl_streams s) (<[ix := mkBuffer p' kOk (Some f)]> (sl_read_queue s)) (sl_buffer_ix s) s) w ss ix p' f rows fs.
Proof.
  intros [Hix Hst [H1 H2 H3 H4] Hf Hpos Hmin] Hp'. constructor; simpl; try done. constructor; try done; [by rewrite length_insert|].
  pose proof (lookup_lt_Some _ _ _ Hf) as Hlt. intros i gs Hi. destruct (H3 i gs Hi) as (stream&b&Hs&Hq&l&Hl&Hsh). destruct (decide (i = ix)) as [->|Hne].
  - rewrite Hf in Hi. injection Hi as <-. destruct Hsh as (->&Hfok&Hr). exists stream, (mkBuffer p' kOk (Some f)).
    split_and!; [done|apply list_lookup_insert_eq; lia|]. exists l. done.
  - exists stream, b. split_and!; [done|by rewrite list_lookup_insert_ne|]. exists l. split; [done|].
    destruct gs as [|[g grows] gs]; [done|]. by destruct (decide (i = ix)).
Qed.

(** The frame is used up and the next one is chosen. *)
Lemma shards_refill_ok s w ss ix f rows fs :
  at_frame s w ss ix (Z.of_nat (length rows)) f rows fs →
  ∃ streams queue next, Sharded.refill_buffer ix (sl_streams s) (sl_read_queue s) w = Some (streams, queue) ∧
    Sharded.choose_next queue = Some next ∧
    let s' := Sharded.set_reader streams queue next s in
    (next = -1 ∧ Forall (λ fs, fs = []) (<[ix := fs]> ss) ∧ at_end s' w) ∨
    (0 ≤ next ∧ ∃ ix' f' rows' fs', at_frame s' w (<[ix := fs]> ss) ix' 0 f' rows' fs').
Proof.
  intros [Hix Hst Hp Hf Hpos Hmin]. pose proof Hp as [H1 H2 H3 H4]. pose proof (lookup_lt_Some _ _ _ Hf) as Hlt.
  destruct (H3 ix _ Hf) as (stream&b&Hs&Hq&l&->&->&Hfok&Hr). unfold Sharded.refill_buffer. rewrite Hs. cbn [mbind option_bind].
  assert (∃ st fr l', Log.read_next_frame l w = Some (st, fr, l') ∧ shard_ok w (Some l') (mkBuffer 0 st fr) 0 fs) as (st&fr&l'&->&Hsh).
  { destruct fs as [|[g grows] fs].
    - destruct (log_gives_end l w Hr) as (st&fr&l'&->&Hr'). exists st, fr, l'. split; [reflexivity|]. by exists l'.
    - destruct (log_gives_next l w g grows fs Hr) as (l'&->&Hr'&Hg). eexists _, _, l'. split; [reflexivity|]. by exists l'. }
  cbn [mbind option_bind]. set (streams := <[ix := Some l']> (sl_streams s)). set (queue := <[ix := mkBuffer 0 st fr]> (sl_read_queue s)).
  assert (Hp' : pending streams queue w (λ _, 0) (<[ix := fs]> ss)).
  { constructor; [unfold streams; rewrite !length_insert; done|unfold queue; rewrite !length_insert; done| |].
    - intros i gs Hi. destruct (decide (i = ix)) as [->|Hne].
      + rewrite list_lookup_insert_eq in Hi by done. injection Hi as <-. exists (Some l'), (mkBuffer 0 st fr).
        split_and!; [apply list_lookup_insert_eq; lia|apply list_lookup_insert_eq; lia|done].
      + rewrite list_lookup_insert_ne in Hi by done. destruct (H3 i gs Hi) as (stream&b&Hs'&Hq'&Hsh'). exists stream, b.
        unfold streams, queue. rewrite !list_lookup_insert_ne by done. split_and!; [done|done|]. by destruct (decide (i = ix)).
    - apply Forall_insert; [done|]. rewrite Forall_lookup in H4. by pose proof (H4 ix _ Hf) as [_ ?]%Forall_cons. }
  exists streams, queue. destruct (choose_next_ok streams queue w _ _ Hp') as [[-> Hnil]|(i&[f' rows']&fs'&->&Hi&Hmin')].
  - exists (-1). split_and!; [done..|]. left. split_and!; [done|done|]. constructor; [done|done|]. by eexists.
  - exists (Z.of_nat i). split_and!; [done..|]. right. split; [lia|]. exists i, f', rows', fs'. constructor; try done; [|lia].
    eapply pending_ext; [|exact Hp']. intros j g gs _. by destruct (decide (j = i)).
Qed.

(** What one call gives: all that was asked for, or what was left. *)
Definition call_result (s : ShardedInputLog) w (k : Z) (st : Status) (xs : list InputLogRow) (ss : list frames) (ix : nat) (p : Z) rows fs : Prop :=
  (st = kOk ∧ Z.of_nat (length xs) = k ∧ ∃ ss' ix' p' f' rows' fs', at_frame s w ss' ix' p' f' rows' fs' ∧
    (length (concat ss') ≤ length (concat ss))%nat ∧ ∀ R, rest_rows ss' ix' p' rows' fs' R → rest_rows ss ix p rows fs (xs ++ R)) ∨
  (st = kNoData ∧ Z.of_nat (length xs) < k ∧ at_end s w ∧ rest_rows ss ix p rows fs xs).

Lemma fetch_rows_ok f rows p n :
  frame_ok f rows → rows ≠ [] → 0 ≤ p → 0 ≤ n → p + n ≤ Z.of_nat (length rows) →
  Sharded.fetch_rows f p (Z.to_nat n) = Some (Some (take (Z.to_nat n) (drop (Z.to_nat p) rows))).
Proof.
  intros Hf Hne Hp Hn Hle. unfold Sharded.fetch_rows. rewrite (content_known _ _ (fo_content _ _ Hf)) by done.
  pose proof (content_rows _ _ (Z.to_nat p) (Z.to_nat n) (fo_content _ _ Hf)) as E. rewrite Z2Nat.id in E by done. by rewrite E by lia.
Qed.

Lemma read_loop_ok fuel k acc s w ss ix p f rows fs :
  at_frame s w ss ix p f rows fs → 0 ≤ k → (2 * length (concat ss) + (if decide (p < Z.of_nat (length rows))%Z then 1 else 0) < fuel)%nat →
  ∃ st xs s', Sharded.read_loop Sharded.fetch_rows fuel k acc s w = Some (st, acc ++ xs, s') ∧ call_result s' w k st xs ss ix p rows fs.
Proof.
  revert k acc s ss ix p f rows fs. induction fuel as [|fuel IH]; intros k acc s ss ix p f rows fs Hat Hk Hfuel; [lia|]. cbn [Sharded.read_loop].
  pose proof Hat as [Hix Hst Hp Hf Hpos Hmin]. destruct (decide (k = 0)) as [->|Hk0].
  { rewrite decide_False by lia. exists kOk, [], s. rewrite app_nil_r. split; [done|]. left. split_and!; [done|done|].
    exists ss, ix, p, f, rows, fs. split_and!; [done|done|]. done. }
  rewrite decide_True by lia. rewrite Hix, Nat2Z.id. destruct (pd_shard _ _ _ _ _ Hp ix _ Hf) as (stream&b&Hs&Hq&l&->&->&Hfok&Hr). rewrite decide_True in Hq by done.
  rewrite Hq. cbn [mbind option_bind bf_frame bf_pos bf_status]. destruct (content_size _ _ (fo_content _ _ Hfok)) as [Hsz _]. rewrite Hsz.
  destruct (decide (p < Z.of_nat (length rows))) as [Hlt|Hge].
  - pose proof (pd_rows _ _ _ _ _ Hp) as Hne. rewrite Forall_lookup in Hne. pose proof (Hne ix _ Hf) as [Hrows _]%Forall_cons. cbn [snd] in Hrows.
    set (n := Z.min (Z.of_nat (length rows) - p) k). rewrite (fetch_rows_ok f rows p n) by (done || lia). cbn [mbind option_bind].
    set (xs := take (Z.to_nat n) (drop (Z.to_nat p) rows)). assert (Hxs : Z.of_nat (length xs) = n) by (unfold xs; rewrite length_take, length_drop; lia).
    pose proof (at_frame_advance s w ss ix p f rows fs (p + n) Hat ltac:(lia)) as Hat'. rewrite Hix in Hat'.
    assert (Hrest : ∀ R, rest_rows ss ix (p + n) rows fs R → rest_rows ss ix p rows fs (xs ++ R)).
    { intros R (out&Hm&->). exists out. split; [done|]. rewrite app_assoc. f_equal. unfold xs.
      replace (Z.to_nat (p + n)) with (Z.to_nat p + Z.to_nat n)%nat by lia. rewrite <- drop_drop. by rewrite take_drop. }
    set (s' := Sharded.set_reader _ _ _ s) in *. destruct (decide (k - n = 0)) as [Hz|Hz].
    + destruct fuel as [|fuel]; [lia|]. rewrite Hz. cbn [Sharded.read_loop]. rewrite (decide_False (P := 0 ≤ sl_buffer_ix s' ∧ 0 < 0)) by lia.
      exists kOk, xs, s'. split; [done|]. left. split_and!; [done|lia|]. exists ss, ix, (p + n), f, rows, fs. split_and!; [done|done|done].
    + destruct (IH (k - n) (acc ++ xs) s' ss ix (p + n) f rows fs Hat') as (st&ys&s2&->&Hres); [lia|rewrite decide_False by lia; lia|].
      exists st, (xs ++ ys), s2. rewrite <- app_assoc. split; [done|]. destruct Hres as [(->&Hl&ss'&ix'&p'&f'&rows'&fs'&Hat2&Hle&HR)|(->&Hl&He&HR)].
      * left. rewrite length_app. split_and!; [done|lia|]. exists ss', ix', p', f', rows', fs'. split_and!; [done|done|]. intros R HR'.
        rewrite <- app_assoc. by apply Hrest, HR.
      * right. rewrite length_app. split_and!; [done|lia|done|]. by apply Hrest.
  - assert (p = Z.of_nat (length rows)) as -> by lia. destruct (shards_refill_ok s w ss ix f rows fs Hat) as (streams&queue&next&->&Enext&Hcase).
    cbn [mbind option_bind]. rewrite Enext. cbn [mbind option_bind].
    cbv zeta in Hcase. set (s' := Sharded.set_reader streams queue next s) in *.
    assert (Hdrop : drop (Z.to_nat (Z.of_nat (length rows))) rows = []) by (rewrite Nat2Z.id; by apply drop_ge).
    destruct Hcase as [(->&Hnil&He)|(Hnext&ix'&f'&rows'&fs'&Hat')].
    + rewrite decide_True by lia. exists kNoData, [], s'. rewrite app_nil_r. split; [done|]. right. split_and!; [done|simpl; lia|done|].
      exists []. rewrite Hdrop. split; [by apply merged_nil|done].
    + rewrite decide_False by lia. rewrite (concat_tail_length _ _ _ _ Hf) in Hfuel.
      destruct (IH k acc s' (<[ix := fs]> ss) ix' 0 f' rows' fs' Hat' Hk) as (st&xs&s2&->&Hres); [case_decide; lia|]. exists st, xs, s2. split; [done|].
      assert (Hrest : ∀ R, rest_rows (<[ix := fs]> ss) ix' 0 rows' fs' R → rest_rows ss ix (Z.of_nat (length rows)) rows fs R).
      { intros R (out&Hm&->). exists ((f', rows') :: out). rewrite Hdrop. split; [|unfold rows_of; done].
        eapply merged_cons; [apply (af_frame _ _ _ _ _ _ _ _ Hat')|apply (af_min _ _ _ _ _ _ _ _ Hat')|done]. }
      destruct Hres as [(->&Hl&ss'&ix2&p'&f2&rows2&fs2&Hat2&Hle&HR)|(->&Hl&He&HR)].
      * left. split_and!; [done|done|]. exists ss', ix2, p', f2, rows2, fs2. split_and!; [done|rewrite (concat_tail_length _ _ _ _ Hf); lia|]. intros R HR'. by apply Hrest, HR.
      * right. split_and!; [done|done|done|]. by apply Hrest.
Qed.

(** ** Reading everything

    The loops of [Storage] over the log: calls until one has no data. *)
Fixpoint drain (calls fuel : nat) (k : Z) (s : ShardedInputLog) w : option (list InputLogRow) :=
  match calls with
  | O => None
  | S calls =>
    '(status, rows, s) ← Sharded.read_next fuel k s w;
    if decide (status = kOk ∨ status = kNoData ∧ rows ≠ []) then rest ← drain calls fuel k s w; Some (rows ++ rest)
    else if decide (status = kNoData) then Some [] else None
  end.

Lemma drain_end calls fuel k s w : at_end s w → drain (S calls) fuel k s w = Some [].
Proof.
  intros [Hix Hst (ss&Hp&Hnil)]. cbn [drain]. unfold Sharded.read_next, Sharded.read_next_of. rewrite Hst. cbn [mbind option_bind]. rewrite Hix.
  rewrite decide_True by lia. destruct (choose_next_ok _ _ _ _ _ Hp) as [[-> _]|(i&f&fs&_&Hi&_)].
  - cbn [mbind option_bind]. rewrite decide_True by lia. cbn [mbind option_bind]. rewrite decide_False by (intros [?|[_ ?]]; done). by rewrite decide_True.
  - rewrite Forall_lookup in Hnil. by specialize (Hnil i _ Hi).
Qed.

Lemma drain_frame calls fuel k s w ss ix p f rows fs R :
  at_frame s w ss ix p f rows fs → 0 < k → (2 * length (concat ss) + 1 < fuel)%nat → rest_rows ss ix p rows fs R → (S (length R) < calls)%nat →
  ∃ xs, drain calls fuel k s w = Some xs ∧ rest_rows ss ix p rows fs xs.
Proof.
  intros Hat Hk. revert s ss ix p f rows fs R Hat. induction calls as [|calls IH]; intros s ss ix p f rows fs R Hat Hfuel HR Hcalls; [lia|]. cbn [drain].
  unfold Sharded.read_next, Sharded.read_next_of. rewrite (af_started _ _ _ _ _ _ _ _ Hat). cbn [mbind option_bind]. rewrite (af_ix _ _ _ _ _ _ _ _ Hat).
  rewrite decide_False by lia. set (kk := Z.min (2 ^ 32 - 1) k). destruct (read_loop_ok fuel kk [] s w ss ix p f rows fs Hat) as (st&xs&s'&->&Hres); [lia|case_decide; lia|].
  cbn [mbind option_bind app]. assert (Hlen : ∀ R', rest_rows ss ix p rows fs R' → length R' = length R).
  { intros R' (out'&Hm'&->). destruct HR as (out&Hm&->). rewrite !length_app. f_equal. unfold rows_of. apply merged_perm in Hm, Hm'.
    apply Permutation_length. by rewrite Hm', Hm. }
  destruct Hres as [(->&Hl&ss'&ix'&p'&f'&rows'&fs'&Hat2&Hle&Hrest)|(->&Hl&He&Hrest)].
  - rewrite decide_True by (by left). destruct (merged_exists (<[ix' := fs']> ss')) as (out2&Hm2).
    assert (HR2 : rest_rows ss' ix' p' rows' fs' (drop (Z.to_nat p') rows' ++ rows_of out2)) by (by exists out2).
    pose proof (Hlen _ (Hrest _ HR2)) as Hl2. rewrite length_app in Hl2.
    destruct (IH s' ss' ix' p' f' rows' fs' _ Hat2 ltac:(lia) HR2) as (ys&->&Hys); [lia|]. cbn [mbind option_bind]. exists (xs ++ ys). split; [done|]. by apply Hrest.
  - destruct calls as [|calls]; [lia|]. case_decide as Hd.
    + rewrite (drain_end calls fuel k s' w He). cbn [mbind option_bind]. exists xs. by rewrite app_nil_r.
    + rewrite decide_True by done. exists []. split; [done|]. destruct xs as [|x xs]; [done|]. destruct Hd. right. done.
Qed.

Lemma init_buffers_ok streams w ss :
  Forall2 (λ stream fs, ∃ l, stream = Some l ∧ log_gives l w fs) streams ss → Forall full ss →
  ∃ streams' queue, Sharded.init_buffers streams w = Some (streams', queue) ∧ pending streams' queue w (λ _, 0) ss.
Proof.
  intros Hs. induction Hs as [|stream fs streams ss (l&->&Hl) Hs IH]; intros Hne; [by exists [], []; split; [done|constructor]|].
  apply Forall_cons in Hne as [Hn Hne]. destruct (IH Hne) as (streams'&queue&E&[H1 H2 H3 H4]). cbn [Sharded.init_buffers].
  assert (∃ st fr l', Log.read_next_frame l w = Some (st, fr, l') ∧ shard_ok w (Some l') (mkBuffer 0 st fr) 0 fs) as (st&fr&l'&->&Hsh).
  { destruct fs as [|[g grows] fs].
    - destruct (log_gives_end l w Hl) as (st&fr&l'&->&Hr'). exists st, fr, l'. split; [reflexivity|]. by exists l'.
    - destruct (log_gives_next l w g grows fs Hl) as (l'&->&Hr'&Hg). eexists _, _, l'. split; [reflexivity|]. by exists l'. }
  cbn [mbind option_bind]. rewrite E. cbn [mbind option_bind]. eexists _, _. split; [reflexivity|]. constructor; simpl; [lia|lia| |by constructor].
  intros [|i] gs Hi; [injection Hi as <-; by eexists _, _|]. by apply H3.
Qed.

(** All rows before the gaps are read, frame by frame in the order of recovery. *)
Lemma log_drain_ok calls fuel k s w ss :
  Forall2 (λ stream fs, ∃ l, stream = Some l ∧ log_gives l w fs) (sl_streams s) ss → Forall full ss →
  sl_read_only s = true → sl_read_started s = false → 0 < k →
  (2 * length (concat ss) + 1 < fuel)%nat → (S (length (rows_of (concat ss))) < calls)%nat →
  ∃ out, drain calls fuel k s w = Some (rows_of out) ∧ merged ss out.
Proof.
  intros Hs Hne Hro Hst Hk Hfuel Hcalls. destruct (init_buffers_ok _ _ _ Hs Hne) as (streams&queue&Einit&Hp).
  set (s1 := Sharded.set_reader streams queue (-1) s).
  assert (Hfirst : ∀ n, drain (S n) fuel k s w = drain (S n) fuel k s1 w).
  { intros n. cbn [drain]. unfold Sharded.read_next, Sharded.read_next_of. rewrite Hst. unfold Sharded.init_read_buffers. rewrite Hro, Hst, Einit. done. }
  destruct calls as [|calls]; [lia|]. rewrite Hfirst. destruct (choose_next_ok _ _ _ _ _ Hp) as [[_ Hnil]|(i&[f rows]&fs&Ec&Hi&Hmin)].
  - exists []. split; [|by apply merged_nil]. apply drain_end. constructor; [done|done|]. by exists ss.
  - set (s2 := Sharded.set_reader streams queue (Z.of_nat i) s1).
    assert (Hat : at_frame s2 w ss i 0 f rows fs).
    { constructor; try done; [|lia]. eapply pending_ext; [|exact Hp]. intros j g gs _. by destruct (decide (j = i)). }
    assert (Hsecond : drain (S calls) fuel k s1 w = drain (S calls) fuel k s2 w).
    { assert (Sharded.read_next fuel k s1 w = Sharded.read_next fuel k s2 w) as E; [|cbn [drain]; by rewrite E].
      unfold Sharded.read_next, Sharded.read_next_of, s2, s1. cbn [sl_read_started sl_buffer_ix sl_read_queue sl_streams Sharded.set_reader mbind option_bind].
      rewrite (decide_True (P := -1 < 0)) by lia. rewrite Ec. cbn [mbind option_bind]. by rewrite !(decide_False (P := Z.of_nat i < 0)) by lia. }
    rewrite Hsecond. destruct (merged_exists (<[i := fs]> ss)) as (out&Hm).
    destruct (drain_frame (S calls) fuel k s2 w ss i 0 f rows fs (rows ++ rows_of out) Hat Hk Hfuel) as (xs&->&out'&Hm'&->); [by exists out| |].
    + pose proof (merged_perm _ _ (merged_cons ss i (f, rows) fs out Hi Hmin Hm)) as Hperm.
      assert (length (rows ++ rows_of out) = length (rows_of (concat ss))) as ->; [|lia].
      change (rows ++ rows_of out) with (rows_of ((f, rows) :: out)). unfold rows_of. apply Permutation_length. by rewrite Hperm.
    + exists ((f, rows) :: out'). split; [done|]. by eapply merged_cons.
Qed.

End Read.
