(* ===== verification/InputLogProof.v ===== *)
(** * Rows written to the shards of the log are recovered *)
From stdpp Require Import sorting.
From S2P Require Import Prelude Status StringPool LogFrame LogVolume LogVolumeProof InputLog InputLogRead.

(** ** Names of volumes *)

Section Names.
Import FileName.

Definition is_digit (c : Z) : Prop := 48 ≤ c ≤ 57.
Definition value (v : Z) (d : chars) : Z := foldl (λ v c, 10 * v + (c - 48)) v d.

Lemma dec_loop_ok fuel n acc :
  0 ≤ n < 10 ^ Z.of_nat fuel → (0 < fuel)%nat →
  ∃ d, dec_loop fuel n acc = d ++ acc ∧ d ≠ [] ∧ Forall is_digit d ∧ ∀ v, value v d = v * 10 ^ Z.of_nat (length d) + n.
Proof.
  revert n acc. induction fuel as [|fuel IH]; intros n acc Hn Hf; [lia|]. cbn [dec_loop]. pose proof (Z.mod_pos_bound n 10 ltac:(lia)) as Hm.
  pose proof (Z.div_mod n 10 ltac:(lia)) as Hd. case_decide as Hz.
  - exists [48 + n mod 10]. split_and!; [done|done|constructor; [unfold is_digit; lia|constructor]|]. intros v. simpl. lia.
  - replace (Z.of_nat (S fuel)) with (Z.succ (Z.of_nat fuel)) in Hn by lia. rewrite Z.pow_succ_r in Hn by lia.
    destruct fuel as [|fuel]; [simpl in Hn; lia|].
    destruct (IH (n / 10) (48 + n mod 10 :: acc)) as (d&->&Hne&Hdig&Hv); [split; [apply Z.div_pos; lia|apply Z.div_lt_upper_bound; lia]|lia|].
    exists (d ++ [48 + n mod 10]). rewrite <- app_assoc. split_and!; [done|by destruct d| |].
    + apply Forall_app. split; [done|]. constructor; [unfold is_digit; lia|constructor].
    + intros v. unfold value in *. rewrite foldl_app, Hv, length_app. simpl length. rewrite Nat2Z.inj_add, Z.pow_add_r by lia. simpl. lia.
Qed.

Lemma dec_ok n : 0 ≤ n < 2 ^ 32 → dec n ≠ [] ∧ Forall is_digit (dec n) ∧ lexical_cast (dec n) = Some n.
Proof.
  intros Hn. destruct (dec_loop_ok 20 n []) as (d&E&Hne&Hd&Hv); [lia|lia|]. rewrite app_nil_r in E. unfold dec. rewrite E. split_and!; [done|done|].
  unfold lexical_cast. fold (value 0 d). rewrite Hv. rewrite decide_True by lia. done.
Qed.

Lemma digits_ok d c r : Forall is_digit d → ¬ is_digit c → digits (d ++ c :: r) = (d, c :: r).
Proof.
  intros Hd Hc. induction Hd as [|x d Hx _ IH]; simpl; [by rewrite decide_False by apply Hc|]. rewrite decide_True by apply Hx. by rewrite IH.
Qed.

Lemma strip_ok p s : strip p (p ++ s) = Some s.
Proof. induction p as [|x p IH]; simpl; [by destruct s|]. by rewrite decide_True. Qed.

Lemma parse_volume_name c sid : 0 ≤ c < 2 ^ 32 → 0 ≤ sid < 2 ^ 32 → parse_filename (get_volume_name c sid) = Some (c, sid).
Proof.
  intros Hc Hs. destruct (dec_ok c Hc) as (N1&D1&L1), (dec_ok sid Hs) as (N2&D2&L2). unfold parse_filename, get_volume_name.
  assert (Hm : match_here (str "inputlog" ++ dec c ++ str "_" ++ dec sid ++ str ".ils") = Some (dec c, dec sid)).
  { unfold match_here. rewrite strip_ok. cbn [mbind option_bind].
    change (str "_" ++ dec sid ++ str ".ils") with (95 :: dec sid ++ str ".ils"). rewrite digits_ok by (done || unfold is_digit; lia).
    rewrite decide_False by done. change (95 :: dec sid ++ str ".ils") with (str "_" ++ dec sid ++ str ".ils"). rewrite strip_ok. cbn [mbind option_bind].
    change (str ".ils") with (46 :: str "ils"). rewrite digits_ok by (done || unfold is_digit; lia). rewrite decide_False by done. done. }
  change (str "inputlog" ++ dec c ++ str "_" ++ dec sid ++ str ".ils") with (105 :: str "nputlog" ++ dec c ++ str "_" ++ dec sid ++ str ".ils") in *.
  cbn [search]. rewrite Hm. cbn [mbind option_bind]. rewrite L1. cbn [mbind option_bind]. by rewrite L2.
Qed.

End Names.

(** ** One log being written *)

Section Write.
Context `{LZ4Laws}.
Implicit Types (w : World) (v : LZ4Volume) (l : InputLog).

Notation name sid c := (FileName.get_volume_name c sid).
Definition of_stream (sid : Z) (fn : chars) : Prop := ∃ vid, FileName.parse_filename fn = Some (vid, sid).

Lemma name_of_stream sid c : 0 ≤ sid < 2 ^ 32 → 0 ≤ c < 2 ^ 32 → of_stream sid (name sid c).
Proof. intros Hs Hc. exists c. by apply parse_volume_name. Qed.

Lemma name_inj sid c c' : 0 ≤ sid < 2 ^ 32 → 0 ≤ c < 2 ^ 32 → 0 ≤ c' < 2 ^ 32 → name sid c = name sid c' → c = c'.
Proof. intros Hs Hc Hc' E. pose proof (parse_volume_name c sid Hc Hs) as E1. rewrite E, (parse_volume_name c' sid Hc' Hs) in E1. congruence. Qed.

(** A volume that was closed. *)
Record past (sid : Z) w (c : Z) v (fs : frames) : Prop := {
  pa_path : lv_path v = name sid c;
  pa_opened : lv_opened v = false;
  pa_closed : closed (name sid c) w fs;
  pa_bitmap : lv_bitmap v = data_ids (rows_of fs);
}.

(** The volumes from number [c] down. *)
Fixpoint older (sid : Z) w (c : Z) (vs : list LZ4Volume) (fss : list frames) : Prop :=
  match vs, fss with
  | [], [] => True
  | v :: vs, fs :: fss => 0 ≤ c ∧ past sid w c v fs ∧ older sid w (c - 1) vs fss
  | _, _ => False
  end.

Record log_writes (sid : Z) l w (fs : frames) (cur : list InputLogRow) (fss : list frames) : Prop := {
  lw_sid : il_stream_id l = sid ∧ 0 ≤ sid < 2 ^ 32;
  lw_counter : 0 < il_counter l;
  lw_volumes : ∃ v vs, il_volumes l = v :: vs ∧ writes v w fs cur ∧ lv_path v = name sid (il_counter l - 1) ∧ older sid w (il_counter l - 2) vs fss;
  lw_files fn : of_stream sid fn → is_Some (w_files w !! fn) → ∃ c, fn = name sid c ∧ il_counter l - Z.of_nat (length (il_volumes l)) ≤ c < il_counter l;
}.

(** The world changed, but not for this stream. *)
Record untouched (sid : Z) w w' : Prop := {
  un_files fn : of_stream sid fn → w_files w' !! fn = w_files w !! fn;
  un_seq : w_seq w ≤ w_seq w';
  un_io : w_io w' = [];
}.

Lemma closed_keep path w w' fs : closed path w fs → w_files w' !! path = w_files w !! path → w_seq w ≤ w_seq w' → closed path w' fs.
Proof.
  intros [H1 H2 H3 H4] Hf Hs. constructor; [by rewrite Hf|done| |done]. eapply Forall_impl; [exact H3|]. intros f ?. cbv beta in *. lia.
Qed.

Lemma older_keep sid w w' c vs fss :
  older sid w c vs fss → (∀ c', 0 ≤ c' ≤ c → w_files w' !! name sid c' = w_files w !! name sid c') → w_seq w ≤ w_seq w' → older sid w' c vs fss.
Proof.
  revert c fss. induction vs as [|v vs IH]; intros c [|fs fss] Hold Hf Hs; try done. destruct Hold as (Hc&[H1 H2 H3 H4]&Hold). split_and!; [done| |].
  - constructor; try done. eapply closed_keep; [exact H3|apply Hf; lia|done].
  - apply IH; [done| |done]. intros c' Hc'. apply Hf. lia.
Qed.

Lemma writes_keep v w w' fs cur :
  writes v w fs cur → w_files w' !! lv_path v = w_files w !! lv_path v → w_seq w ≤ w_seq w' → w_io w' = [] → writes v w' fs cur.
Proof.
  intros [[] ? ? ?] Hf Hs Hio. constructor; try done. constructor; try done; [by rewrite Hf|lia|].
  eapply Forall_impl; [eassumption|]. intros f ?. cbv beta in *. lia.
Qed.

Lemma log_keep sid l w w' fs cur fss :
  log_writes sid l w fs cur fss → il_counter l ≤ 2 ^ 32 → untouched sid w w' → log_writes sid l w' fs cur fss.
Proof.
  intros [[Hid Hsid] Hc (v&vs&Hv&Hw&Hp&Hold) Hfiles] Hmax [Hf Hs Hio]. constructor; [done|done| |].
  - exists v, vs. split_and!; [done| |done|].
    + eapply writes_keep; [exact Hw| |done|done]. rewrite Hp. apply Hf, name_of_stream; lia.
    + eapply older_keep; [exact Hold| |done]. intros c' Hc'. apply Hf, name_of_stream; lia.
  - intros fn Hst Hsome. apply Hfiles; [done|]. by rewrite <- Hf.
Qed.

(** What an operation of this log may change. *)
Record touches (sid : Z) w w' : Prop := {
  to_files fn : ¬ of_stream sid fn → w_files w' !! fn = w_files w !! fn;
  to_seq : w_seq w ≤ w_seq w';
  to_io : w_io w' = [];
}.

Lemma touches_trans sid w1 w2 w3 : touches sid w1 w2 → touches sid w2 w3 → touches sid w1 w3.
Proof. intros [H1 H2 H3] [K1 K2 K3]. constructor; [|lia|done]. intros fn Hfn. by rewrite K1, H1. Qed.

Lemma touches_untouched sid sid' w w' : touches sid w w' → sid ≠ sid' → untouched sid' w w'.
Proof. intros [H1 H2 H3] Hne. constructor; [|done|done]. intros fn (vid&E). apply H1. intros (vid'&E'). congruence. Qed.

Lemma same_touches sid v v' w w' :
  same v v' w w' → of_stream sid (lv_path v) → w_io w' = [] → touches sid w w'.
Proof. intros [H1 H2 H3 H4] Hst Hio. constructor; [|done|done]. intros fn Hfn. apply H3. by intros ->. Qed.

Definition log_gapless l (cur : list InputLogRow) : Prop := match il_volumes l with [] => False | v :: _ => gapless v cur end.

(** *** Creating *)

Lemma log_add_volume_ok sid l w :
  il_stream_id l = sid → 0 ≤ sid < 2 ^ 32 → 0 ≤ il_counter l < 2 ^ 32 → w_files w !! name sid (il_counter l) = None → w_io w = [] → 0 ≤ w_seq w →
  ∃ v l' w', Log.add_volume l w = (l', w') ∧ il_volumes l' = v :: il_volumes l ∧ il_counter l' = il_counter l + 1 ∧
    il_max_volumes l' = il_max_volumes l ∧ il_volume_size l' = il_volume_size l ∧ il_stream_id l' = sid ∧
    lv_path v = name sid (il_counter l) ∧ writes v w' [] [] ∧ gapless v [] ∧ w_seq w' = w_seq w ∧ w_io w' = [] ∧ w_files w' = <[name sid (il_counter l) := []]> (w_files w).
Proof.
  intros Hid Hsid Hc Hnone Hio Hseq. unfold Log.add_volume, Vol.create. rewrite Hid. eexists _, _, _. split; [reflexivity|]. simpl. rewrite Hnone. simpl.
  split_and!; try done. constructor; [|apply cleared_ok|by apply spacious_begun|done].
  constructor; simpl; try done; first [by rewrite lookup_insert_eq|apply Forall_nil_2|constructor].
Qed.

Lemma log_create_ok nvol svol sid w :
  0 ≤ sid < 2 ^ 32 → w_io w = [] → 0 ≤ w_seq w → (∀ fn, of_stream sid fn → w_files w !! fn = None) →
  ∃ l w', Log.create nvol svol sid w = (l, w') ∧ log_writes sid l w' [] [] [] ∧ il_max_volumes l = nvol ∧ il_counter l = 1 ∧
    log_gapless l [] ∧ touches sid w w' ∧ w_seq w' = w_seq w.
Proof.
  intros Hsid Hio Hseq Hnone. unfold Log.create.
  destruct (log_add_volume_ok sid (mkLog [] 0 nvol svol [] sid) w) as (v&l'&w'&->&Hv&Hc&Hm&_&Hs&Hp&Hw&Hg&Hq&Hio'&Hf); [done|done|simpl; lia|apply Hnone, name_of_stream; simpl; lia|done|done|].
  simpl in *. exists l', w'. split; [done|]. split_and!; [|done|done|unfold log_gapless; by rewrite Hv| |done].
  - constructor; [done|lia| |].
    + exists v, []. rewrite Hc. split_and!; [done|done|done|done].
    + intros fn Hst Hsome. rewrite Hf in Hsome. destruct (decide (fn = name sid 0)) as [->|Hne]; [exists 0; rewrite Hv, Hc; simpl; split; [done|lia]|].
      rewrite lookup_insert_ne, (Hnone fn Hst) in Hsome by done. by destruct Hsome.
  - constructor; [|lia|done]. intros fn Hfn. rewrite Hf. apply lookup_insert_ne. intros <-. apply Hfn, name_of_stream; lia.
Qed.

(** *** Appending and rotating *)

Lemma on_overflow_ok st l v vs : ∃ stale, Log.on_overflow st (Log.set_volumes (v :: vs) l) = Some stale.
Proof.
  unfold Log.on_overflow, Log.detect_stale_ids. case_decide; [|by eexists]. simpl il_volumes.
  destruct (last (v :: vs)) as [o|] eqn:El; [|by apply last_None in El]. by eexists.
Qed.

(** The front volume has changed. *)
Lemma log_front sid l w fs cur fss v vs v' w' fs' cur' :
  log_writes sid l w fs cur fss → il_counter l ≤ 2 ^ 32 → il_volumes l = v :: vs → writes v' w' fs' cur' → same v v' w w' →
  log_writes sid (Log.set_volumes (v' :: vs) l) w' fs' cur' fss ∧ touches sid w w'.
Proof.
  intros [[Hid Hsid] Hc (v0&vs0&Hv0&Hw&Hp&Hold) Hfiles] Hmax Hv Hw' Hsame. rewrite Hv in Hv0. injection Hv0 as <- <-.
  assert (Hst : of_stream sid (lv_path v)) by (rewrite Hp; apply name_of_stream; lia). split; [|by eapply same_touches; [..|apply Hw']].
  constructor; simpl; [done|done| |].
  - exists v', vs. split_and!; [done|done|by rewrite (sm_path _ _ _ _ Hsame)|]. eapply older_keep; [exact Hold| |apply Hsame].
    intros c' Hc'. apply (sm_files _ _ _ _ Hsame). rewrite Hp. intros E. apply name_inj in E; lia.
  - intros fn Hfn Hsome. rewrite Hv in Hfiles. apply Hfiles; [done|]. destruct (decide (fn = lv_path v)) as [->|Hne].
    + destruct Hw as [Hwr _ _ _]. rewrite (vw_file _ _ _ Hwr). by eexists.
    + by rewrite <- (sm_files _ _ _ _ Hsame) by done.
Qed.

Lemma log_append_ok sid l w fs cur fss r :
  log_writes sid l w fs cur fss → il_counter l ≤ 2 ^ 32 → row_ok r → w_seq w + 3 < 2 ^ 64 →
  ∃ st stale l' w' fs' cur', Log.append r l w = Some (st, stale, l', w') ∧ log_writes sid l' w' fs' cur' fss ∧
    rows_of fs' ++ cur' = rows_of fs ++ cur ++ [r] ∧ touches sid w w' ∧ w_seq w' ≤ w_seq w + 3 ∧
    il_counter l' = il_counter l ∧ il_max_volumes l' = il_max_volumes l ∧
    (log_gapless l cur → full fs → full fs') ∧ (rows_bytes (cur ++ [r]) ≤ 8072 → log_gapless l' cur').
Proof.
  intros Hlw Hmax Hr Hseq. pose proof (lw_volumes _ _ _ _ _ _ Hlw) as (v&vs&Hv&Hw&_&_). unfold Log.append. rewrite Hv.
  destruct (volume_append_ok v w fs cur r Hw Hseq Hr) as (v'&w'&fs'&cur'&->&[Hw' _ Hrows Hsame]&Hq&Hg1&Hg2). cbn [mbind option_bind].
  destruct (on_overflow_ok (Vol.full_status v') l v' vs) as (stale&->). cbn [mbind option_bind].
  destruct (log_front sid l w fs cur fss v vs v' w' fs' cur' Hlw Hmax Hv Hw' Hsame) as [Hlw' Ht].
  eexists _, stale, _, w', fs', cur'. split; [reflexivity|]. unfold log_gapless. rewrite Hv. done.
Qed.

Lemma log_flush_ok sid l w fs cur fss :
  log_writes sid l w fs cur fss → il_counter l ≤ 2 ^ 32 → w_seq w + 1 < 2 ^ 64 →
  ∃ st stale l' w' fs', Log.flush l w = Some (st, stale, l', w') ∧ log_writes sid l' w' fs' [] fss ∧
    rows_of fs' = rows_of fs ++ cur ∧ touches sid w w' ∧ w_seq w' ≤ w_seq w + 1 ∧
    il_counter l' = il_counter l ∧ il_max_volumes l' = il_max_volumes l ∧ (full fs → full fs') ∧ (log_gapless l cur → log_gapless l' []).
Proof.
  intros Hlw Hmax Hseq. pose proof (lw_volumes _ _ _ _ _ _ Hlw) as (v&vs&Hv&Hw&_&_). unfold Log.flush. rewrite Hv.
  destruct (volume_flush_ok v w fs cur Hw Hseq) as (v'&w'&fs'&st&->&[Hw' _ Hrows Hsame]&Hq&_&Hg1&Hg2). cbn [mbind option_bind].
  destruct (on_overflow_ok st l v' vs) as (stale&->). cbn [mbind option_bind].
  destruct (log_front sid l w fs cur fss v vs v' w' fs' [] Hlw Hmax Hv Hw' Hsame) as [Hlw' Ht].
  rewrite !app_nil_r in Hrows. eexists st, stale, _, w', fs'. split; [reflexivity|]. unfold log_gapless. rewrite Hv. done.
Qed.

Lemma older_length sid w c vs fss : older sid w c vs fss → length vs = length fss ∧ (vs ≠ [] → Z.of_nat (length vs) ≤ c + 1).
Proof.
  revert c fss. induction vs as [|v vs IH]; intros c [|fs fss] Hold; try done. destruct Hold as (Hc&_&Hold). destruct (IH _ _ Hold) as [Hl Hb].
  simpl. split; [lia|]. intros _. destruct vs; [simpl; lia|]. specialize (Hb ltac:(done)). simpl in *. lia.
Qed.

Lemma older_removelast sid w c vs fss :
  older sid w c vs fss → vs ≠ [] →
  ∃ o, last vs = Some o ∧ lv_path o = name sid (c - Z.of_nat (length vs) + 1) ∧ older sid w c (removelast vs) (removelast fss).
Proof.
  revert c fss. induction vs as [|v vs IH]; intros c [|fs fss] Hold Hne; try done. destruct Hold as (Hc&Hp&Hold). destruct vs as [|v2 vs].
  - destruct fss as [|]; [|done]. exists v. split_and!; [done| |done]. rewrite (pa_path _ _ _ _ _ Hp). simpl. f_equal. lia.
  - destruct fss as [|fs2 fss]; [done|]. destruct (IH (c - 1) (fs2 :: fss) Hold ltac:(done)) as (o&El&Ep&Hold'). exists o. split_and!; [done| |done].
    rewrite Ep. simpl length. f_equal. lia.
Qed.

(** The oldest volume goes when there are as many as there may be. *)
Lemma remove_last_ok sid l w fs cur fss :
  log_writes sid l w fs cur fss → il_counter l ≤ 2 ^ 32 → (1 < length (il_volumes l))%nat →
  ∃ l' w', Log.remove_last_volume l w = Some (l', w') ∧ log_writes sid l' w' fs cur (removelast fss) ∧ touches sid w w' ∧ w_seq w' = w_seq w ∧
    il_counter l' = il_counter l ∧ il_max_volumes l' = il_max_volumes l ∧ S (length (il_volumes l')) = length (il_volumes l).
Proof.
  intros [[Hid Hsid] Hc (v&vs&Hv&Hw&Hp&Hold) Hfiles] Hmax Hlen. unfold Log.remove_last_volume. rewrite Hv in *. simpl in Hlen.
  assert (Hne : vs ≠ []) by (destruct vs; [simpl in Hlen; lia|done]). destruct (older_removelast _ _ _ _ _ Hold Hne) as (o&El&Ep&Hold').
  destruct (older_length _ _ _ _ _ Hold) as [_ Hb]. specialize (Hb Hne). set (n := Z.of_nat (length vs)) in *.
  assert (Hn : 0 < n) by (unfold n; destruct vs; [done|simpl; lia]).
  assert (last (v :: vs) = Some o) as -> by (destruct vs; done). cbn [mbind option_bind Vol.delete_file snd]. rewrite Ep.
  set (dead := name sid (il_counter l - 2 - n + 1)). assert (Hdead : ∀ c, il_counter l - n ≤ c < il_counter l → name sid c ≠ dead).
  { intros c Hcr E. apply name_inj in E; lia. }
  assert (Hrl : removelast (v :: vs) = v :: removelast vs) by (destruct vs; done).
  assert (Hlr : S (length (removelast vs)) = length vs).
  { destruct (exists_last Hne) as (init&z&->). rewrite removelast_last, length_app. simpl. lia. }
  rewrite Hrl. eexists _, _. split; [reflexivity|]. split_and!; [|constructor; simpl; [|lia|apply Hw]|done|done|done|simpl; lia].
  - constructor; simpl; [done|done| |].
    + exists v, (removelast vs). split_and!; [done| |done|].
      * eapply writes_keep; [exact Hw| |simpl; lia|apply Hw]. simpl. rewrite Hp. apply lookup_delete_ne. intros E. symmetry in E. revert E. apply Hdead. lia.
      * assert (Hk : ∀ c vs fss, older sid w c vs fss → il_counter l - n ≤ c - Z.of_nat (length vs) + 1 → c < il_counter l →
          older sid (mkWorld (delete dead (w_files w)) (w_seq w) (w_io w)) c vs fss).
        { intros c us. revert c. induction us as [|u us IHu]; intros c [|gs gss] Ho Hge Hlt; try done. destruct Ho as (Hc0&[]&Ho). simpl in Hge. split_and!; [done| |].
          - constructor; try done. eapply closed_keep; [eassumption| |simpl; lia]. simpl. apply lookup_delete_ne. intros E. symmetry in E. revert E. apply Hdead. lia.
          - apply IHu; [done|lia|lia]. }
        apply Hk; [done|lia|lia].
    + intros fn Hfn Hsome. destruct (decide (fn = dead)) as [->|Hfd]; [rewrite lookup_delete_eq in Hsome; by destruct Hsome|].
      rewrite lookup_delete_ne in Hsome by done. destruct (Hfiles fn Hfn Hsome) as (c&->&Hcr). exists c. split; [done|]. simpl in *.
      assert (c ≠ il_counter l - 2 - n + 1) by (intros ->; by apply Hfd). lia.
  - intros fn Hfn. apply lookup_delete_ne. intros <-. apply Hfn, name_of_stream; lia.
Qed.

Lemma rotate_ok sid l w fs cur fss :
  log_writes sid l w fs cur fss → il_counter l < 2 ^ 32 → 2 ≤ il_max_volumes l → w_seq w + 1 < 2 ^ 64 →
  ∃ l' w' more, Log.rotate l w = Some (l', w') ∧
    log_writes sid l' w' [] [] ((fs ++ more) :: if decide (il_max_volumes l ≤ Z.of_nat (length (il_volumes l))) then removelast fss else fss) ∧
    rows_of (fs ++ more) = rows_of fs ++ cur ∧ touches sid w w' ∧ w_seq w' ≤ w_seq w + 1 ∧
    il_counter l' = il_counter l + 1 ∧ il_max_volumes l' = il_max_volumes l ∧ (full fs → full (fs ++ more)) ∧ log_gapless l' [].
Proof.
  intros Hlw Hmax Hmv Hseq. unfold Log.rotate.
  assert (∃ l1 w1 fss1, (if decide (il_max_volumes l ≤ Z.of_nat (length (il_volumes l))) then Log.remove_last_volume l w else Some (l, w)) = Some (l1, w1) ∧
    log_writes sid l1 w1 fs cur fss1 ∧ fss1 = (if decide (il_max_volumes l ≤ Z.of_nat (length (il_volumes l))) then removelast fss else fss) ∧
    touches sid w w1 ∧ w_seq w1 = w_seq w ∧ il_counter l1 = il_counter l ∧ il_max_volumes l1 = il_max_volumes l ∧ (length (il_volumes l1) ≤ length (il_volumes l))%nat)
    as (l1&w1&fss1&->&Hlw1&<-&Ht1&Hq1&Hc1&Hm1&Hn1).
  { case_decide as Hfull.
    - destruct (remove_last_ok sid l w fs cur fss Hlw) as (l1&w1&->&Hlw1&Ht1&Hq1&Hc1&Hm1&Hn1); [lia|lia|]. exists l1, w1, (removelast fss). split_and!; try done. lia.
    - exists l, w, fss. split_and!; try done. destruct Hlw as [_ _ (v&vs&_&Hw&_) _]. constructor; [done|lia|apply Hw]. }
  cbn [mbind option_bind]. destruct Hlw1 as [[Hid Hsid] Hcp (v&vs&Hv&Hw&Hp&Hold) Hfiles].
  assert (Hnone : w_files w1 !! name sid (il_counter l1) = None).
  { destruct (w_files w1 !! name sid (il_counter l1)) eqn:E; [|done]. destruct (Hfiles (name sid (il_counter l1))) as (c&Ec&Hcr); [apply name_of_stream; lia|by rewrite E|].
    assert (0 ≤ il_counter l1 - Z.of_nat (length (il_volumes l1))).
    { rewrite Hv. simpl. destruct (older_length _ _ _ _ _ Hold) as [_ Hb]. destruct vs; [simpl; lia|]. specialize (Hb ltac:(done)). simpl in *. lia. }
    apply name_inj in Ec; lia. }
  destruct (log_add_volume_ok sid l1 w1 Hid Hsid) as (v0&l2&w2&->&Hv2&Hc2&Hm2&_&Hs2&Hp0&Hw0&Hg0&Hq2&Hio2&Hf2); [lia|done|apply Hw|apply Hw|].
  rewrite Hv2, Hv.
  assert (Hkeep : ∀ c, 0 ≤ c < il_counter l1 → w_files w2 !! name sid c = w_files w1 !! name sid c).
  { intros c Hcr. rewrite Hf2. apply lookup_insert_ne. intros E. apply name_inj in E; lia. }
  assert (Hw2 : writes v w2 fs cur) by (eapply writes_keep; [exact Hw|rewrite Hp; apply Hkeep; lia|lia|done]).
  destruct (volume_close_ok v w2 fs cur Hw2) as (v1&w3&more&->&Hcl&Hrows&Hsame&Hop&Hbm&Hio3&Hq3&Hg3); [lia|]. cbn [mbind option_bind].
  assert (Ht3 : touches sid w w3).
  { eapply touches_trans; [exact Ht1|]. eapply touches_trans with w2.
    - constructor; [|lia|done]. intros fn Hfn. rewrite Hf2. apply lookup_insert_ne. intros <-. apply Hfn, name_of_stream; lia.
    - eapply same_touches; [exact Hsame| |done]. rewrite Hp. apply name_of_stream; lia. }
  eexists _, w3, more. split; [reflexivity|]. split_and!; [|done|done|lia|simpl; lia|simpl; congruence|done|done].
  assert (Hp3 : lv_path v1 = lv_path v) by apply Hsame.
  constructor; simpl; [done|lia| |].
  - exists v0, (v1 :: vs). split_and!; [done| |rewrite Hp0, Hc2; f_equal; lia|].
    + eapply writes_keep; [exact Hw0| |apply Hsame|done]. apply (sm_files _ _ _ _ Hsame). rewrite Hp0, Hp. intros E. apply name_inj in E; lia.
    + rewrite Hc2. replace (il_counter l1 + 1 - 2) with (il_counter l1 - 1) by lia. simpl. split_and!; [lia| |].
      * constructor; [by rewrite Hp3|done|by rewrite <- Hp|]. rewrite Hbm, Hrows. apply Hw.
      * replace (il_counter l1 - 1 - 1) with (il_counter l1 - 2) by lia. eapply older_keep; [exact Hold| |pose proof (sm_seq _ _ _ _ Hsame); lia].
        intros c Hcr. rewrite (sm_files _ _ _ _ Hsame), Hkeep; [done|lia|]. rewrite Hp. intros E. apply name_inj in E; lia.
  - intros fn Hfn Hsome. destruct (decide (fn = name sid (il_counter l1))) as [->|Hn0]; [exists (il_counter l1); split; [done|lia]|].
    assert (is_Some (w_files w1 !! fn)) as Hs1.
    { destruct (decide (fn = lv_path v)) as [->|Hnv]; [destruct Hw as [Hwr _ _ _]; rewrite (vw_file _ _ _ Hwr); by eexists|].
      rewrite (sm_files _ _ _ _ Hsame) in Hsome by done. by rewrite Hf2, lookup_insert_ne in Hsome. }
    destruct (Hfiles fn Hfn Hs1) as (c&->&Hcr). exists c. split; [done|]. rewrite Hv in Hcr. simpl in *. lia.
Qed.

End Write.

(** ** A closed log is found and opened again *)

(** ** The order of files *)

Section Order.
Import Log.

Lemma string_le_refl a : string_le a a = true.
Proof. induction a as [|x a IH]; [done|]. simpl. rewrite !decide_False by lia. done. Qed.

Lemma string_le_total a b : string_le a b = true ∨ string_le b a = true.
Proof.
  revert b. induction a as [|x a IH]; intros [|y b]; [by left..|by right|]. simpl.
  destruct (decide (x < y)); [by left|]. destruct (decide (y < x)); [by right|]. apply IH.
Qed.

Lemma string_le_antisym a b : string_le a b = true → string_le b a = true → a = b.
Proof.
  revert b. induction a as [|x a IH]; intros [|y b]; try done. simpl. destruct (decide (x < y)), (decide (y < x)); try done; [lia|].
  intros E1 E2. rewrite (IH b E1 E2). f_equal. lia.
Qed.

Lemma string_le_trans a b c : string_le a b = true → string_le b c = true → string_le a c = true.
Proof.
  revert b c. induction a as [|x a IH]; intros [|y b] [|z c]; try done. simpl.
  destruct (decide (x < y)), (decide (y < x)), (decide (y < z)), (decide (z < y)), (decide (x < z)), (decide (z < x)); try done; try lia. apply IH.
Qed.

#[export] Instance volume_le_total : Total volume_le.
Proof.
  intros [c a] [d b]. unfold volume_le. simpl. destruct (Z.lt_trichotomy c d) as [?|[->|?]]; [by left; left| |by right; left].
  destruct (string_le_total a b); [left|right]; by right.
Qed.
#[export] Instance volume_le_trans : Transitive volume_le.
Proof.
  intros [c a] [d b] [e z]. unfold volume_le. simpl. intros [?|[-> ?]] [?|[-> ?]]; [left; lia|by left|by left|]. right. split; [done|]. by eapply string_le_trans.
Qed.
#[export] Instance volume_le_antisym : AntiSymm (=) volume_le.
Proof.
  intros [c a] [d b]. unfold volume_le. simpl. intros [?|[-> ?]] [?|[? ?]]; try lia. f_equal. by apply string_le_antisym.
Qed.

End Order.

(** ** A closed log *)

Section Recover.
Context `{LZ4Laws}.
Implicit Types (w : World) (l : InputLog).

Notation name sid c := (FileName.get_volume_name c sid).

(** The volumes of the stream, from the oldest. *)
Record log_closed (sid : Z) w (c0 : Z) (fss : list frames) : Prop := {
  lc_range : 0 ≤ sid < 2 ^ 32 ∧ 0 ≤ c0 ∧ c0 + Z.of_nat (length fss) ≤ 2 ^ 32;
  lc_volume i fs : fss !! i = Some fs → closed (name sid (c0 + Z.of_nat i)) w fs;
  lc_files fn : of_stream sid fn → is_Some (w_files w !! fn) → ∃ c, fn = name sid c ∧ c0 ≤ c < c0 + Z.of_nat (length fss);
}.

Lemma older_closed sid w c vs fss i fs : older sid w c vs fss → fss !! i = Some fs → closed (name sid (c - Z.of_nat i)) w fs.
Proof.
  revert c fss i. induction vs as [|v vs IH]; intros c [|gs fss] i Hold Hi; try done. destruct Hold as (_&Hp&Hold). destruct i as [|i].
  - injection Hi as <-. rewrite Z.sub_0_r. apply Hp.
  - replace (c - Z.of_nat (S i)) with (c - 1 - Z.of_nat i) by lia. by eapply IH.
Qed.

Lemma older_destroy sid w c vs fss w' : older sid w c vs fss → Log.destroy_volumes vs w' = Some w'.
Proof.
  revert c fss. induction vs as [|v vs IH]; intros c [|gs fss] Hold; try done. destruct Hold as (_&Hp&Hold). simpl. rewrite (pa_opened _ _ _ _ _ Hp).
  cbn [mbind option_bind]. by eapply IH.
Qed.

Lemma destroy_ok sid l w fs cur fss :
  log_writes sid l w fs cur fss → il_counter l ≤ 2 ^ 32 → w_seq w + 1 < 2 ^ 64 →
  ∃ w' more, Log.destroy l w = Some w' ∧ log_closed sid w' (il_counter l - 1 - Z.of_nat (length fss)) (reverse ((fs ++ more) :: fss)) ∧
    rows_of (fs ++ more) = rows_of fs ++ cur ∧ touches sid w w' ∧ w_seq w' ≤ w_seq w + 1 ∧ (full fs → full (fs ++ more)).
Proof.
  intros [[Hid Hsid] Hc (v&vs&Hv&Hw&Hp&Hold) Hfiles] Hmax Hseq. unfold Log.destroy. rewrite Hv. cbn [Log.destroy_volumes].
  rewrite (vw_opened _ _ _ (vw_written _ _ _ _ Hw)). destruct (volume_close_ok v w fs cur Hw Hseq) as (v'&w'&more&->&Hcl&Hrows&Hsame&_&_&Hio&Hq&Hg).
  cbn [mbind option_bind]. rewrite (older_destroy _ _ _ _ _ w' Hold). exists w', more. destruct (older_length _ _ _ _ _ Hold) as [Hlen Hb].
  rewrite Hv in Hfiles. simpl in Hfiles. assert (Hpos : Z.of_nat (length vs) ≤ il_counter l - 1) by (destruct vs; [simpl; lia|specialize (Hb ltac:(done)); lia]).
  assert (Hold' : older sid w' (il_counter l - 2) vs fss).
  { eapply older_keep; [exact Hold| |apply Hsame]. intros c Hcr. apply (sm_files _ _ _ _ Hsame). rewrite Hp. intros E. apply name_inj in E; lia. }
  split_and!; [done| |done|eapply same_touches; [exact Hsame| |done]; rewrite Hp; apply name_of_stream; lia|done|done]. constructor.
  - rewrite length_reverse. simpl. lia.
  - intros i gs Hi. pose proof (lookup_lt_Some _ _ _ Hi) as Hlt. rewrite length_reverse in Hlt. simpl in Hlt. rewrite reverse_lookup in Hi by done. simpl length in Hi.
    destruct (S (length fss) - S i)%nat as [|k] eqn:Ek.
    + injection Hi as <-. replace (il_counter l - 1 - Z.of_nat (length fss) + Z.of_nat i) with (il_counter l - 1) by lia. by rewrite <- Hp.
    + pose proof (older_closed _ _ _ _ _ k gs Hold' Hi) as Hgs. by replace (il_counter l - 1 - Z.of_nat (length fss) + Z.of_nat i) with (il_counter l - 2 - Z.of_nat k) by lia.
  - intros fn Hfn Hsome. rewrite length_reverse. simpl. destruct (Hfiles fn Hfn) as (c&->&Hcr); [|exists c; split; [done|lia]].
    destruct (decide (fn = lv_path v)) as [->|Hne]; [rewrite (vw_file _ _ _ (vw_written _ _ _ _ Hw)); by eexists|].
    by rewrite <- (sm_files _ _ _ _ Hsame) by done.
Qed.

(** ** Finding the volumes *)

#[local] Existing Instance Log.volume_le_dec.

Lemma stream_files_elem sid names vid fn :
  (vid, fn) ∈ Log.stream_files sid names ↔ fn ∈ names ∧ FileName.parse_filename fn = Some (vid, sid).
Proof.
  unfold Log.stream_files. rewrite list_elem_of_bind. split.
  - intros (gn&Hin&Hgn). destruct (FileName.parse_filename gn) as [[vid' sid']|] eqn:E; [|by apply not_elem_of_nil in Hin].
    case_decide as Hs; [|by apply not_elem_of_nil in Hin]. apply list_elem_of_singleton in Hin. injection Hin as -> ->. by subst sid'.
  - intros [Hin E]. exists fn. rewrite E, decide_True by done. split; [by apply list_elem_of_singleton|done].
Qed.

Lemma stream_files_nodup sid names : NoDup names → NoDup (Log.stream_files sid names).
Proof.
  induction 1 as [|fn names Hin Hnd IH]; [constructor|].
  change (Log.stream_files sid (fn :: names)) with (match FileName.parse_filename fn with Some (vid, sid') => if decide (sid' = sid) then [(vid, fn)] else [] | None => [] end
    ++ Log.stream_files sid names).
  destruct (FileName.parse_filename fn) as [[vid sid']|]; [|done]. case_decide; [|done]. cbn [app]. apply NoDup_cons. split; [|done].
  rewrite stream_files_elem. by intros [? _].
Qed.

Lemma rising_names sid n c0 : StronglySorted Log.volume_le ((λ c, (c, name sid c)) <$> seqZ c0 (Z.of_nat n)).
Proof.
  revert c0. induction n as [|n IH]; intros c0; [constructor|]. rewrite seqZ_cons by lia. replace (Z.pred (Z.of_nat (S n))) with (Z.of_nat n) by lia.
  rewrite fmap_cons. constructor; [apply IH|]. apply Forall_fmap, Forall_forall. intros c Hc%elem_of_seqZ. left. simpl. lia.
Qed.

Lemma find_volumes_ok sid w c0 fss :
  log_closed sid w c0 fss → Log.find_volumes sid w = (λ c, name sid c) <$> seqZ c0 (Z.of_nat (length fss)).
Proof.
  intros [(Hsid&Hc0&Hmax) Hvol Hfiles]. unfold Log.find_volumes.
  assert (merge_sort Log.volume_le (Log.stream_files sid (map_to_list (w_files w)).*1) = (λ c, (c, name sid c)) <$> seqZ c0 (Z.of_nat (length fss))) as ->;
    [|by rewrite <- list_fmap_compose].
  apply (StronglySorted_unique Log.volume_le); [apply Sorted_StronglySorted; [apply _|]; apply Sorted_merge_sort, _|apply rising_names|].
  rewrite merge_sort_Permutation. apply NoDup_Permutation.
  - apply stream_files_nodup, NoDup_fst_map_to_list.
  - apply NoDup_fmap; [by intros c c' [= ? _]|apply NoDup_seqZ].
  - intros [vid fn]. rewrite stream_files_elem, !list_elem_of_fmap. split.
    + intros [([fn' b]&->&Hb%elem_of_map_to_list) E]. simpl in *.
      destruct (Hfiles fn') as (c&->&Hcr); [by exists vid|by eexists|]. rewrite parse_volume_name in E by lia. injection E as <-.
      exists c. split; [done|]. apply elem_of_seqZ. lia.
    + intros (c&[= -> ->]&Hcr%elem_of_seqZ). split; [|apply parse_volume_name; lia].
      destruct (lookup_lt_is_Some_2 fss (Z.to_nat (c - c0))) as [fs Hfs]; [lia|]. pose proof (Hvol _ _ Hfs) as Hcl.
      replace (c0 + Z.of_nat (Z.to_nat (c - c0))) with c in Hcl by lia.
      exists (name sid c, encoded LZ4_resetStream fs). split; [done|]. apply elem_of_map_to_list, Hcl.
Qed.

(** The log that is opened for reading has all frames. *)
Lemma recover_ok sid w c0 fss : log_closed sid w c0 fss → ∃ l, Log.recover sid w = Some l ∧ log_reads l w (concat fss).
Proof.
  intros Hcl. unfold Log.recover. rewrite (find_volumes_ok _ _ _ _ Hcl). unfold Log.open_volumes. cbn [il_volumes il_available app].
  assert (Hall : Forall2 (λ v fs, ∃ path, v = Vol.existing path ∧ closed path w fs) (Vol.existing <$> ((λ c, name sid c) <$> seqZ c0 (Z.of_nat (length fss)))) fss).
  { apply Forall2_same_length_lookup. rewrite !length_fmap, length_seqZ, Nat2Z.id. split; [done|]. intros i v fs Hv Hfs.
    rewrite !list_lookup_fmap in Hv. destruct (seqZ c0 (Z.of_nat (length fss)) !! i) as [c|] eqn:Ec; [|done]. injection Hv as <-.
    apply lookup_seqZ in Ec as [-> _]. eexists. split; [done|]. by apply (lc_volume _ _ _ _ Hcl). }
  assert (Hmap : ∀ vs gss, Forall2 (λ v fs, ∃ path, v = Vol.existing path ∧ closed path w fs) vs gss → Forall2 (λ v fs, volume_reads v w fs) vs gss).
  { intros vs gss Hvs. eapply Forall2_impl; [exact Hvs|]. intros v fs Hv. by right. }
  destruct Hall as [|v fs vs gss (path&->&Hp) Hvs].
  - cbn [mbind option_bind]. eexists. split; [reflexivity|]. by exists [].
  - cbn [lv_opened Vol.existing]. destruct (open_ro_ok path w fs Hp) as (v&->&Hr&_). cbn [mbind option_bind]. eexists. split; [reflexivity|].
    exists (fs :: gss). split; [|done]. constructor; [by left|by apply Hmap].
Qed.

End Recover.
