(* ===== verification/InputLogRun.v ===== *)
(** * From the sessions of a database to its recovery

    The threads of the database write rows to their shards; the log is closed,
    found by the next start and read. *)
From S2P Require Import Prelude Status StringPool LogFrame LogVolume LogVolumeProof InputLog InputLogRead InputLogProof.

(** What a thread does to its shard: [StorageSession] writes a row, or is closed. *)
Inductive LogOp := LogRow (thread : Z) (r : InputLogRow) | LogClose (thread : Z).

Module LogSession.
Section LogSession.
Context `{LZ4}.
Implicit Types (l : InputLog) (s : ShardedInputLog) (w : World).

(** A log that is full is rotated. *)
Definition write_row (r : InputLogRow) l w : option (list Z * InputLog * World) :=
  '(res, staleids, l, w) ← Log.append r l w;
  '(l, w) ← (if decide (res = kOverflow) then Log.rotate l w else Some (l, w));
  Some (staleids, l, w).

(** The destructor of [StorageSession]. *)
Definition close (l : InputLog) w : option (list Z * InputLog * World) :=
  '(res, staleids, l, w) ← Log.flush l w;
  Some (if decide (res = kOverflow) then staleids else [], l, w).

Definition set_stream (ix : Z) l s : ShardedInputLog :=
  mkSharded (<[Z.to_nat ix := Some l]> (sl_streams s)) (sl_concurrency s) (sl_read_queue s) (sl_read_only s)
    (sl_read_started s) (sl_buffer_ix s) (sl_nvol s) (sl_svol s).

(** [get_input_log] gives a thread the shard of its number; a session that has
    not written a row has no shard to flush. *)
Definition op (o : LogOp) s w : option (list Z * ShardedInputLog * World) :=
  match o with
  | LogRow thread r =>
    '(ix, s, w) ← Sharded.get_shard thread s w;
    stream ← sl_streams s !! Z.to_nat ix;
    l ← stream;
    '(staleids, l, w) ← write_row r l w;
    Some (staleids, set_stream ix l s, w)
  | LogClose thread =>
    let ix := thread mod Z.of_nat (length (sl_streams s)) in
    stream ← sl_streams s !! Z.to_nat ix;
    match stream with
    | Some l => '(staleids, l, w) ← close l w; Some (staleids, set_stream ix l s, w)
    | None => Some ([], s, w)
    end
  end.

Fixpoint run (ops : list LogOp) s w : option (ShardedInputLog * World) :=
  match ops with
  | [] => Some (s, w)
  | o :: ops => '(_, s, w) ← op o s w; run ops s w
  end.

(** [Storage::run_recovery]: the logs are read if there are any, in portions of
    4096 rows. *)
Definition recover_rows (calls fuel : nat) w : option (list InputLogRow) :=
  let ccr := Sharded.find_logs w in
  if decide (0 < ccr) then s ← Sharded.recover ccr w; drain calls fuel 4096 s w else Some [].

End LogSession.
End LogSession.

(** The rows of shard [i] of [n]. *)
Definition op_rows (n i : Z) (o : LogOp) : list InputLogRow :=
  match o with LogRow thread r => if decide (thread mod n = i) then [r] else [] | LogClose _ => [] end.
Definition shard_rows (n : Z) (ops : list LogOp) (i : Z) : list InputLogRow := ops ≫= op_rows n i.
Definition op_ok (o : LogOp) : Prop := match o with LogRow _ r => row_ok r | LogClose _ => True end.

#[export] Instance op_ok_dec o : Decision (op_ok o).
Proof. destruct o as [thread [id []]|]; unfold op_ok, row_ok, is_u64, is_u8; simpl; apply _. Defined.

Section Run.
Context `{LZ4Laws}.
Implicit Types (w : World) (l : InputLog) (s : ShardedInputLog).

Lemma rows_of_app fs gs : rows_of (fs ++ gs) = rows_of fs ++ rows_of gs.
Proof. unfold rows_of. by rewrite fmap_app, concat_app. Qed.

Lemma full_app fs gs : full (fs ++ gs) ↔ full fs ∧ full gs.
Proof. apply Forall_app. Qed.

(** ** One shard *)

(** The shard was given the rows [h]: the oldest may be gone with their volume. *)
Definition shard_writes (sid nvol : Z) l w (h : list InputLogRow) : Prop :=
  ∃ fs cur fss lost, log_writes sid l w fs cur fss ∧ il_max_volumes l = nvol ∧
    h = lost ++ rows_of (concat (reverse fss) ++ fs) ++ cur ∧ (il_counter l ≤ nvol → lost = []) ∧
    (rows_bytes h ≤ 8072 → full (concat (reverse fss) ++ fs) ∧ log_gapless l cur).

Lemma log_length sid l w fs cur fss : log_writes sid l w fs cur fss → length (il_volumes l) = S (length fss) ∧ Z.of_nat (length (il_volumes l)) ≤ il_counter l.
Proof.
  intros [_ Hc (v&vs&Hv&_&_&Hold) _]. destruct (older_length _ _ _ _ _ Hold) as [Hl Hb]. rewrite Hv. simpl. split; [lia|].
  destruct vs; [simpl; lia|]. specialize (Hb ltac:(done)). lia.
Qed.

Lemma shard_rotate_ok sid nvol l w h :
  shard_writes sid nvol l w h → il_counter l < 2 ^ 32 → 2 ≤ nvol → w_seq w + 1 < 2 ^ 64 →
  ∃ l' w', Log.rotate l w = Some (l', w') ∧ shard_writes sid nvol l' w' h ∧ touches sid w w' ∧ w_seq w' ≤ w_seq w + 1 ∧ il_counter l' = il_counter l + 1.
Proof.
  intros (fs&cur&fss&lost&Hlw&Hm&Hh&Hlost&Hfull) Hc Hn Hseq. destruct (log_length _ _ _ _ _ _ Hlw) as [Hlen Hle].
  destruct (rotate_ok sid l w fs cur fss Hlw Hc) as (l'&w'&more&->&Hlw'&Hrows&Ht&Hq&Hc'&Hm'&Hg&Hgl); [lia|lia|]. exists l', w'. split_and!; [done| |done|done|done].
  assert (∃ gone fss', fss = fss' ++ gone ∧ (if decide (il_max_volumes l ≤ Z.of_nat (length (il_volumes l))) then removelast fss else fss) = fss' ∧
    (il_counter l < nvol → gone = [])) as (gone&fss'&Efss&Eif&Hgone).
  { case_decide as Hd; [|exists [], fss; split_and!; [by rewrite app_nil_r|done|done]]. destruct (exists_last (l := fss)) as (init&z&->); [intros ->; simpl in Hlen; lia|].
    exists [z], init. split_and!; [done|apply removelast_last|lia]. }
  rewrite Eif in Hlw'. exists [], [], ((fs ++ more) :: fss'), (lost ++ rows_of (concat (reverse gone))).
  assert (Ecat : concat (reverse fss) = concat (reverse gone) ++ concat (reverse fss')) by (by rewrite Efss, reverse_app, concat_app).
  split_and!; [done|congruence| | |].
  - rewrite !app_nil_r, reverse_cons, concat_app. simpl. rewrite app_nil_r, rows_of_app, Hrows, Hh, Ecat, !rows_of_app, <- !app_assoc. done.
  - intros Hle'. rewrite Hlost, Hgone by lia. done.
  - intros Hb. destruct (Hfull Hb) as [Hf Hgap]. split; [|done]. apply full_app in Hf as [Hf1 Hf2]. rewrite Ecat in Hf1. apply full_app in Hf1 as [_ Hf1].
    rewrite app_nil_r, reverse_cons, concat_app. simpl. rewrite app_nil_r. apply full_app. split; [done|by apply Hg].
Qed.

Lemma write_row_ok sid nvol l w h r :
  shard_writes sid nvol l w h → il_counter l < 2 ^ 32 → 2 ≤ nvol → row_ok r → w_seq w + 4 < 2 ^ 64 →
  ∃ stale l' w', LogSession.write_row r l w = Some (stale, l', w') ∧ shard_writes sid nvol l' w' (h ++ [r]) ∧ touches sid w w' ∧
    w_seq w' ≤ w_seq w + 4 ∧ il_counter l' ≤ il_counter l + 1.
Proof.
  intros (fs&cur&fss&lost&Hlw&Hm&Hh&Hlost&Hfull) Hc Hn Hr Hseq. unfold LogSession.write_row.
  destruct (log_append_ok sid l w fs cur fss r Hlw) as (st&stale&l1&w1&fs1&cur1&->&Hlw1&Hrows&Ht1&Hq1&Hc1&Hm1&Hg1&Hg2); [lia|done|lia|]. cbn [mbind option_bind].
  assert (Hsw : shard_writes sid nvol l1 w1 (h ++ [r])).
  { exists fs1, cur1, fss, lost. split_and!; [done|congruence| |by rewrite Hc1|].
    - rewrite Hh, !rows_of_app, <- !app_assoc. do 2 f_equal. by rewrite Hrows.
    - intros Hb. rewrite rows_bytes_app in Hb. pose proof (rows_bytes_pos [r]). destruct Hfull as [Hf Hgap]; [lia|]. apply full_app in Hf as [Hf1 Hf2]. split.
      + apply full_app. split; [done|by apply Hg1].
      + apply Hg2. rewrite rows_bytes_app. rewrite Hh, !rows_bytes_app in Hb. pose proof (rows_bytes_pos lost).
        pose proof (rows_bytes_pos (rows_of (concat (reverse fss) ++ fs))). lia. }
  case_decide as Hov.
  - destruct (shard_rotate_ok sid nvol l1 w1 (h ++ [r]) Hsw) as (l2&w2&->&Hsw2&Ht2&Hq2&Hc2); [lia|done|lia|]. cbn [mbind option_bind].
    exists stale, l2, w2. split_and!; [done|done|by eapply touches_trans|lia|lia].
  - exists stale, l1, w1. split_and!; [done|done|done|lia|lia].
Qed.

Lemma session_close_ok sid nvol l w h :
  shard_writes sid nvol l w h → il_counter l ≤ 2 ^ 32 → w_seq w + 1 < 2 ^ 64 →
  ∃ stale l' w', LogSession.close l w = Some (stale, l', w') ∧ shard_writes sid nvol l' w' h ∧ touches sid w w' ∧
    w_seq w' ≤ w_seq w + 1 ∧ il_counter l' = il_counter l.
Proof.
  intros (fs&cur&fss&lost&Hlw&Hm&Hh&Hlost&Hfull) Hc Hseq. unfold LogSession.close.
  destruct (log_flush_ok sid l w fs cur fss Hlw Hc Hseq) as (st&stale&l1&w1&fs1&->&Hlw1&Hrows&Ht1&Hq1&Hc1&Hm1&Hg1&Hg2). cbn [mbind option_bind].
  eexists _, l1, w1. split_and!; [reflexivity| |done|done|done]. exists fs1, [], fss, lost. split_and!; [done|congruence| |by rewrite Hc1|].
  - rewrite Hh, !rows_of_app, Hrows, app_nil_r, <- !app_assoc. done.
  - intros Hb. destruct (Hfull Hb) as [Hf Hgap]. apply full_app in Hf as [Hf1 Hf2]. split; [apply full_app; split; [done|by apply Hg1]|by apply Hg2].
Qed.

(** ** The shards *)

Definition shard_state (nvol : Z) (stream : option InputLog) w (i : Z) (h : list InputLogRow) (n : Z) : Prop :=
  match stream with
  | Some l => shard_writes i nvol l w h ∧ il_counter l ≤ 1 + n
  | None => h = [] ∧ ∀ fn, of_stream i fn → w_files w !! fn = None
  end.

(** After [n] operations, with the rows [h i] for shard [i]. *)
Record sharded_writes s w (nvol : Z) (size : nat) (h : Z → list InputLogRow) (n : Z) : Prop := {
  sw_size : length (sl_streams s) = size;
  sw_ro : sl_read_only s = false;
  sw_nvol : sl_nvol s = nvol;
  sw_io : w_io w = [];
  sw_seq : 0 ≤ w_seq w;
  sw_rest sid fn : Z.of_nat size ≤ sid → of_stream sid fn → w_files w !! fn = None;
  sw_shard i stream : sl_streams s !! i = Some stream → shard_state nvol stream w (Z.of_nat i) (h (Z.of_nat i)) n;
}.

Lemma shard_state_keep nvol stream w w' i h n n' :
  shard_state nvol stream w i h n → untouched i w w' → n ≤ n' → n' < 2 ^ 32 - 1 → shard_state nvol stream w' i h n'.
Proof.
  intros Hs Hu Hn Hmax. destruct stream as [l|]; simpl in *.
  - destruct Hs as [(fs&cur&fss&lost&Hlw&Hrest) Hc]. split; [|lia]. exists fs, cur, fss, lost. split; [|done]. eapply log_keep; [done|lia|done].
  - destruct Hs as [-> Hnone]. split; [done|]. intros fn Hfn. rewrite (un_files _ _ _ Hu fn Hfn). by apply Hnone.
Qed.

(** One shard has changed. *)
Lemma sharded_set s w nvol size h n i l w' h' :
  sharded_writes s w nvol size h n → (i < size)%nat → shard_writes (Z.of_nat i) nvol l w' (h' (Z.of_nat i)) → il_counter l ≤ 2 + n →
  touches (Z.of_nat i) w w' → (∀ j, j ≠ Z.of_nat i → h' j = h j) → n + 1 < 2 ^ 32 - 1 →
  sharded_writes (LogSession.set_stream (Z.of_nat i) l s) w' nvol size h' (n + 1).
Proof.
  intros [H1 H2 H3 H4 H5 H5' H6] Hi Hl Hc Ht Hh Hmax. pose proof Ht as [_ Hseq Hio]. constructor; simpl; try done; [by rewrite length_insert|lia| |].
  { intros sid fn Hsid Hfn. rewrite (un_files _ _ _ (touches_untouched _ sid _ _ Ht ltac:(lia)) fn Hfn). by eapply H5'. }
  intros j stream Hj. rewrite Nat2Z.id in Hj. destruct (decide (j = i)) as [->|Hne].
  - rewrite list_lookup_insert_eq in Hj by lia. injection Hj as <-. split; [done|lia].
  - rewrite list_lookup_insert_ne in Hj by done. rewrite Hh by lia. eapply shard_state_keep; [by apply H6| |lia|lia].
    eapply touches_untouched; [done|lia].
Qed.

Lemma get_shard_ok thread s w nvol size h n :
  sharded_writes s w nvol size h n → (0 < size)%nat → Z.of_nat size ≤ 2 ^ 32 → 0 ≤ n → n < 2 ^ 32 - 1 →
  let ix := thread mod Z.of_nat size in
  ∃ s' w' l, Sharded.get_shard thread s w = Some (ix, s', w') ∧ sl_streams s' !! Z.to_nat ix = Some (Some l) ∧
    sharded_writes s' w' nvol size h n ∧ w_seq w' = w_seq w.
Proof.
  intros Hsw Hsize H32 Hn Hmax ix. pose proof (Z.mod_pos_bound thread (Z.of_nat size) ltac:(lia)) as Hix. fold ix in Hix. pose proof Hsw as [H1 H2 H3 H4 H5 H5' H6].
  unfold Sharded.get_shard. rewrite H2, H1. fold ix. destruct (lookup_lt_is_Some_2 (sl_streams s) (Z.to_nat ix)) as [stream Hs]; [lia|].
  rewrite Hs. cbn [mbind option_bind]. destruct stream as [l|]; [by exists s, w, l|]. destruct (H6 _ _ Hs) as [Hh Hnone]. rewrite Z2Nat.id in Hh, Hnone by lia.
  destruct (log_create_ok (sl_nvol s) (sl_svol s) ix w) as (l&w'&->&Hlw&Hm&Hc&Hg&Ht&Hq); [lia|done|done|done|]. eexists _, w', l. split; [reflexivity|].
  pose proof Ht as [_ Hseq Hio]. split_and!; [simpl; apply list_lookup_insert_eq; lia| |done]. constructor; simpl; try done; [by rewrite length_insert|lia| |].
  { intros sid fn Hsid Hfn. rewrite (un_files _ _ _ (touches_untouched _ sid _ _ Ht ltac:(lia)) fn Hfn). by eapply H5'. }
  intros j stream Hj. destruct (decide (j = Z.to_nat ix)) as [->|Hne].
  - rewrite list_lookup_insert_eq in Hj by lia. injection Hj as <-. rewrite Z2Nat.id by lia. split; [|lia]. exists [], [], [], [].
    split_and!; [done|congruence|by rewrite Hh|done|]. intros _. split; [apply Forall_nil_2|done].
  - rewrite list_lookup_insert_ne in Hj by done. eapply shard_state_keep; [by apply H6| |lia|lia]. eapply touches_untouched; [done|lia].
Qed.

Lemma op_step o s w nvol size h n :
  sharded_writes s w nvol size h n → (0 < size)%nat → Z.of_nat size ≤ 2 ^ 32 → 0 ≤ n → n + 1 < 2 ^ 32 - 1 → 2 ≤ nvol → w_seq w + 4 < 2 ^ 64 → op_ok o →
  ∃ stale s' w', LogSession.op o s w = Some (stale, s', w') ∧ sharded_writes s' w' nvol size (λ i, h i ++ op_rows (Z.of_nat size) i o) (n + 1) ∧ w_seq w' ≤ w_seq w + 4.
Proof.
  intros Hsw Hsize H32 Hn Hmax Hnv Hseq Ho. destruct o as [thread r|thread]; cbn [LogSession.op];
    pose proof (Z.mod_pos_bound thread (Z.of_nat size) ltac:(lia)) as Hix.
  - destruct (get_shard_ok thread s w nvol size h n Hsw) as (s1&w1&l&->&Hl&Hsw1&Hq1); [lia..|]. cbn [mbind option_bind].
    rewrite Hl. cbn [mbind option_bind]. destruct (sw_shard _ _ _ _ _ _ Hsw1 _ _ Hl) as [Hshard Hc]. set (i := Z.to_nat (thread mod Z.of_nat size)) in *.
    assert (Ei : thread mod Z.of_nat size = Z.of_nat i) by lia. rewrite Ei.
    destruct (write_row_ok (Z.of_nat i) nvol l w1 (h (Z.of_nat i)) r Hshard) as (stale&l'&w2&->&Hshard2&Ht&Hq2&Hc2); [lia|done|done|lia|]. cbn [mbind option_bind].
    eexists stale, _, w2. split; [reflexivity|]. split; [|lia]. eapply sharded_set; [exact Hsw1|lia| |lia|done| |lia].
    + simpl. by rewrite decide_True.
    + intros j Hj. simpl. rewrite decide_False by lia. by rewrite app_nil_r.
  - rewrite (sw_size _ _ _ _ _ _ Hsw). set (i := Z.to_nat (thread mod Z.of_nat size)) in *. assert (Ei : thread mod Z.of_nat size = Z.of_nat i) by lia. rewrite Ei.
    destruct (lookup_lt_is_Some_2 (sl_streams s) i) as [stream Hs]; [rewrite (sw_size _ _ _ _ _ _ Hsw); lia|]. rewrite Hs. cbn [mbind option_bind].
    assert (Hsame : ∀ j, h j ++ op_rows (Z.of_nat size) j (LogClose thread) = h j) by (intros j; apply app_nil_r).
    destruct stream as [l|].
    + destruct (sw_shard _ _ _ _ _ _ Hsw _ _ Hs) as [Hshard Hc].
      destruct (session_close_ok (Z.of_nat i) nvol l w (h (Z.of_nat i)) Hshard) as (stale&l'&w2&->&Hshard2&Ht&Hq2&Hc2); [lia|lia|]. cbn [mbind option_bind].
      eexists stale, _, w2. split; [reflexivity|]. split; [|lia]. eapply sharded_set; [exact Hsw|lia|by rewrite Hsame|lia|done|by intros|lia].
    + exists [], s, w. split; [done|]. split; [|lia]. destruct Hsw as [H1 H2 H3 H4 H5 H5' H6]. constructor; try done. intros j stream Hj. rewrite Hsame.
      pose proof (H6 j stream Hj) as Hst. destruct stream; simpl in *; [|done]. split; [apply Hst|lia].
Qed.

Lemma session_run_ok ops s w nvol size h n :
  sharded_writes s w nvol size h n → (0 < size)%nat → Z.of_nat size ≤ 2 ^ 32 → 0 ≤ n → n + Z.of_nat (length ops) < 2 ^ 32 - 1 → 2 ≤ nvol →
  w_seq w + 4 * Z.of_nat (length ops) < 2 ^ 64 → Forall op_ok ops →
  ∃ s' w', LogSession.run ops s w = Some (s', w') ∧ w_seq w' ≤ w_seq w + 4 * Z.of_nat (length ops) ∧
    sharded_writes s' w' nvol size (λ i, h i ++ shard_rows (Z.of_nat size) ops i) (n + Z.of_nat (length ops)).
Proof.
  intros Hsw Hsize H32 Hn Hmax Hnv. revert s w h n Hsw Hn Hmax. induction ops as [|o ops IH]; intros s w h n Hsw Hn Hmax Hseq Hops.
  - exists s, w. split_and!; [done|simpl; lia|]. destruct Hsw as [H1 H2 H3 H4 H5 H5' H6]. constructor; try done. intros i stream Hi. rewrite app_nil_r.
    pose proof (H6 i stream Hi) as Hst. destruct stream; simpl in *; [|done]. split; [apply Hst|lia].
  - apply Forall_cons in Hops as [Ho Hops]. simpl length in *. cbn [LogSession.run].
    destruct (op_step o s w nvol size h n Hsw) as (stale&s1&w1&->&Hsw1&Hq1); [lia..|done|]. cbn [mbind option_bind].
    destruct (IH s1 w1 _ _ Hsw1) as (s2&w2&->&Hq2&Hsw2); [lia|lia|lia|done|]. exists s2, w2. split_and!; [done|lia|].
    destruct Hsw2 as [H1 H2 H3 H4 H5 H5' H6]. constructor; try done. intros i stream Hi. specialize (H6 i stream Hi).
    replace (n + Z.of_nat (S (length ops))) with (n + 1 + Z.of_nat (length ops)) by lia.
    change (shard_rows (Z.of_nat size) (o :: ops) (Z.of_nat i)) with (op_rows (Z.of_nat size) (Z.of_nat i) o ++ shard_rows (Z.of_nat size) ops (Z.of_nat i)).
    by rewrite app_assoc.
Qed.

(** ** Closing and recovering *)

Definition shard_closed (nvol : Z) w (i : Z) (h : list InputLogRow) (n : Z) : Prop :=
  ∃ c0 fss lost, log_closed i w c0 fss ∧ h = lost ++ rows_of (concat fss) ∧ (n < nvol → lost = []) ∧
    (rows_bytes h ≤ 8072 → full (concat fss)) ∧ (fss = [] → h = []).

Lemma shard_closed_keep nvol w w' i h n : shard_closed nvol w i h n → untouched i w w' → shard_closed nvol w' i h n.
Proof.
  intros (c0&fss&lost&[Hr Hv Hf]&Hrest) [U1 U2 U3]. exists c0, fss, lost. split; [|done]. constructor; [done| |].
  - intros j fs Hj. pose proof (lookup_lt_Some _ _ _ Hj). eapply closed_keep; [by apply Hv|apply U1, name_of_stream; lia|done].
  - intros fn Hfn Hs. apply Hf; [done|]. by rewrite <- U1.
Qed.

Lemma shard_absent nvol w i n : 0 ≤ i < 2 ^ 32 → (∀ fn, of_stream i fn → w_files w !! fn = None) → shard_closed nvol w i [] n.
Proof.
  intros Hi Hnone. exists 0, [], []. split_and!; [|done|done|intros _; apply Forall_nil_2|done]. constructor; [simpl; lia|done|].
  intros fn Hfn Hs. rewrite (Hnone fn Hfn) in Hs. by destruct Hs.
Qed.

Lemma shard_destroy_ok nvol l w i h n :
  shard_writes i nvol l w h → il_counter l ≤ 1 + n → n < 2 ^ 32 - 1 → w_seq w + 1 < 2 ^ 64 →
  ∃ w', Log.destroy l w = Some w' ∧ shard_closed nvol w' i h n ∧ touches i w w' ∧ w_seq w' ≤ w_seq w + 1.
Proof.
  intros (fs&cur&fss&lost&Hlw&Hm&Hh&Hlost&Hfull) Hc Hn Hseq.
  destruct (destroy_ok i l w fs cur fss Hlw) as (w'&more&->&Hcl&Hrows&Ht&Hq&Hg); [lia|done|]. exists w'. split_and!; [done| |done|done].
  exists (il_counter l - 1 - Z.of_nat (length fss)), (reverse ((fs ++ more) :: fss)), lost.
  assert (Ecat : concat (reverse ((fs ++ more) :: fss)) = concat (reverse fss) ++ fs ++ more) by (rewrite reverse_cons, concat_app; simpl; by rewrite app_nil_r).
  rewrite Ecat. split_and!; [done| |intros ?; apply Hlost; lia| |].
  - rewrite Hh, !rows_of_app, <- !app_assoc. do 2 f_equal. by rewrite <- Hrows, rows_of_app.
  - intros Hb. destruct (Hfull Hb) as [Hf _]. apply full_app in Hf as [Hf1 Hf2]. apply full_app. split; [done|by apply Hg].
  - rewrite reverse_cons. intros Hx. by apply snoc_ne in Hx.
Qed.

Lemma destroy_streams_ok streams k w nvol h n :
  w_io w = [] → w_seq w + Z.of_nat (length streams) < 2 ^ 64 → n < 2 ^ 32 - 1 → 0 ≤ k → k + Z.of_nat (length streams) ≤ 2 ^ 32 →
  (∀ j stream, streams !! j = Some stream → shard_state nvol stream w (k + Z.of_nat j) (h (k + Z.of_nat j)) n) →
  ∃ w', Sharded.destroy_streams streams w = Some w' ∧
    (∀ j, (j < length streams)%nat → shard_closed nvol w' (k + Z.of_nat j) (h (k + Z.of_nat j)) n) ∧
    (∀ i, i < k ∨ k + Z.of_nat (length streams) ≤ i → untouched i w w').
Proof.
  revert k w. induction streams as [|stream streams IH]; intros k w Hio Hseq Hn Hk H32 Hst.
  { exists w. split_and!; [done|simpl; lia|]. intros i _. constructor; [done|lia|done]. }
  simpl length in *. cbn [Sharded.destroy_streams]. pose proof (Hst 0%nat stream eq_refl) as Hhead. rewrite Z.add_0_r in Hhead.
  assert (∃ w1, (match stream with Some l => Log.destroy l w | None => Some w end) = Some w1 ∧ shard_closed nvol w1 k (h k) n ∧ touches k w w1 ∧ w_seq w1 ≤ w_seq w + 1)
    as (w1&E1&Hcl&Ht&Hq).
  { destruct stream as [l|]; simpl in Hhead.
    - destruct Hhead as [Hl Hc]. by apply (shard_destroy_ok nvol l w k (h k) n); [..|lia].
    - destruct Hhead as [-> Hnone]. exists w. split_and!; [done|apply shard_absent; [lia|done]|constructor; [done|lia|done]|lia]. }
  pose proof Ht as [_ Hseq1 Hio1].
  destruct (IH (k + 1) w1) as (w'&E&Hcls&Hun); [done|lia|done|lia|lia| |].
  { intros j st Hj. replace (k + 1 + Z.of_nat j) with (k + Z.of_nat (S j)) by lia. eapply shard_state_keep; [by apply Hst| |lia|lia].
    eapply touches_untouched; [done|lia]. }
  exists w'. split_and!.
  - destruct stream as [l|]; [|injection E1 as ->; done]. rewrite E1. cbn [mbind option_bind]. done.
  - intros [|j] Hj.
    + rewrite Z.add_0_r. eapply shard_closed_keep; [done|]. apply Hun. lia.
    + replace (k + Z.of_nat (S j)) with (k + 1 + Z.of_nat j) by lia. apply Hcls. lia.
  - intros i Hi. destruct (touches_untouched k i w w1 Ht ltac:(lia)) as [U1 U2 U3]. destruct (Hun i ltac:(lia)) as [V1 V2 V3].
    constructor; [|lia|done]. intros fn Hfn. by rewrite V1, U1.
Qed.

(** The frames up to the first one without rows. *)
Lemma split_gap (fs : frames) : ∃ a b, fs = a ++ b ∧ full a ∧ gap b ∧ (full fs → b = []).
Proof.
  induction fs as [|[f rows] fs (a&b&->&Ha&Hb&Hf)]; [exists [], []; split_and!; [done|apply Forall_nil_2|done|done]|].
  destruct rows as [|r rows].
  - exists [], ((f, []) :: a ++ b). split_and!; [done|apply Forall_nil_2|done|]. intros [Hx _]%Forall_cons. by destruct Hx.
  - exists ((f, r :: rows) :: a), b. split_and!; [done|by constructor|done|]. intros [_ Hx]%Forall_cons. by apply Hf.
Qed.

(** What recovery gives of the rows [h] of a shard. *)
Definition recovered (nvol n : Z) (h : list InputLogRow) (fs : frames) : Prop :=
  ∃ lost tail, h = lost ++ rows_of fs ++ tail ∧ (n < nvol → lost = []) ∧ (rows_bytes h ≤ 8072 → tail = []).

Lemma recover_streams_ok count k w nvol h n :
  (∀ j, (j < count)%nat → shard_closed nvol w (k + Z.of_nat j) (h (k + Z.of_nat j)) n) →
  ∃ streams ss, Sharded.recover_streams count k w = Some streams ∧
    Forall2 (λ stream fs, ∃ l, stream = Some l ∧ log_gives l w fs) streams ss ∧ Forall full ss ∧ length ss = count ∧
    (∀ j fs, ss !! j = Some fs → recovered nvol n (h (k + Z.of_nat j)) fs).
Proof.
  revert k. induction count as [|count IH]; intros k Hcl; [by exists [], []|].
  destruct (IH (k + 1)) as (streams&ss&E&Hg&Hf&Hlen&Hr).
  { intros j Hj. replace (k + 1 + Z.of_nat j) with (k + Z.of_nat (S j)) by lia. apply Hcl. lia. }
  destruct (Hcl 0%nat ltac:(lia)) as (c0&fss&lost&Hlc&Hh&Hlost&Hfull&_). rewrite Z.add_0_r in *. destruct (recover_ok k w c0 fss Hlc) as (l&El&Hl).
  destruct (split_gap (concat fss)) as (a&b&Eab&Ha&Hb&Hfb). cbn [Sharded.recover_streams]. rewrite El. cbn [mbind option_bind]. rewrite E. cbn [mbind option_bind].
  exists (Some l :: streams), (a :: ss). split_and!; [done| |by constructor|simpl; by rewrite Hlen|].
  - constructor; [|done]. exists l. split; [done|]. exists b. by rewrite <- Eab.
  - intros [|j] fs Hj.
    + injection Hj as <-. rewrite Z.add_0_r. exists lost, (rows_of b). split_and!; [by rewrite <- rows_of_app, <- Eab|done|]. intros Hx. by rewrite (Hfb (Hfull Hx)).
    + replace (k + Z.of_nat (S j)) with (k + 1 + Z.of_nat j) by lia. by apply Hr.
Qed.

(** ** The number of shards *)

Lemma stream_ids_elem w sid : sid ∈ Sharded.stream_ids w ↔ ∃ fn, of_stream sid fn ∧ is_Some (w_files w !! fn).
Proof.
  unfold Sharded.stream_ids. rewrite list_elem_of_bind. split.
  - intros (fn&Hin&([fn' b]&->&Hb%elem_of_map_to_list)%list_elem_of_fmap). simpl in Hin. destruct (FileName.parse_filename fn') as [[vid sid']|] eqn:E; [|by apply not_elem_of_nil in Hin].
    apply list_elem_of_singleton in Hin as ->. exists fn'. split; [by exists vid|by eexists].
  - intros (fn&(vid&E)&b&Hb). exists fn. rewrite E. split; [by apply list_elem_of_singleton|]. apply list_elem_of_fmap. exists (fn, b). split; [done|]. by apply elem_of_map_to_list.
Qed.

Lemma foldr_max_ge (xs : list Z) x : x ∈ xs → x ≤ foldr Z.max (-1) xs.
Proof. induction 1 as [x xs|x y xs _ IH]; simpl; lia. Qed.
Lemma foldr_max_le (xs : list Z) b : -1 ≤ b → (∀ x, x ∈ xs → x ≤ b) → foldr Z.max (-1) xs ≤ b.
Proof.
  intros Hb Hl. induction xs as [|x xs IH]; simpl; [lia|]. apply Z.max_lub; [apply Hl; by left|]. apply IH. intros y Hy. apply Hl. by right.
Qed.

Lemma find_logs_ge w sid fn : of_stream sid fn → is_Some (w_files w !! fn) → sid < 2 ^ 31 → sid < Sharded.find_logs w.
Proof.
  intros Hfn Hs Hsid. unfold Sharded.find_logs. enough (sid ≤ foldr Z.max (-1) (Sharded.i32 <$> Sharded.stream_ids w)) by lia. apply foldr_max_ge.
  apply list_elem_of_fmap. exists sid. split; [unfold Sharded.i32; by rewrite decide_True|]. apply stream_ids_elem. by exists fn.
Qed.

Lemma find_logs_le w size :
  0 ≤ size < 2 ^ 31 → (∀ sid fn, size ≤ sid → of_stream sid fn → w_files w !! fn = None) → Sharded.find_logs w ≤ size.
Proof.
  intros Hsize Hnone. unfold Sharded.find_logs. enough (foldr Z.max (-1) (Sharded.i32 <$> Sharded.stream_ids w) ≤ size - 1) by lia. apply foldr_max_le; [lia|].
  intros x (sid&->&(fn&Hfn&Hs)%stream_ids_elem)%list_elem_of_fmap. destruct (decide (sid < size)) as [Hlt|Hge]; [unfold Sharded.i32; rewrite decide_True by lia; lia|].
  rewrite (Hnone sid fn) in Hs by (done || lia). by destruct Hs.
Qed.

Lemma create_sharded concurrency nvol svol w :
  w_io w = [] → 0 ≤ w_seq w → (∀ sid fn, of_stream sid fn → w_files w !! fn = None) →
  sharded_writes (Sharded.create concurrency nvol svol) w nvol (Z.to_nat concurrency) (λ _, []) 0.
Proof.
  intros Hio Hseq Hnone. constructor; simpl; try done; [apply length_replicate|intros sid fn _; by apply Hnone|].
  intros i stream [-> _]%lookup_replicate. split; [done|]. intros fn Hfn. by eapply Hnone.
Qed.

(** A shard without files has no rows. *)
Lemma no_files nvol w i h n : shard_closed nvol w i h n → Sharded.find_logs w ≤ i → i < 2 ^ 31 → h = [].
Proof.
  intros (c0&fss&lost&Hlc&_&_&_&Hnil) Hle Hi. apply Hnil. destruct fss as [|fs fss]; [done|]. exfalso. pose proof (lc_range _ _ _ _ Hlc) as (Hsid&Hc0&Hmax). simpl in Hmax.
  pose proof (lc_volume _ _ _ _ Hlc 0%nat fs eq_refl) as Hcl. rewrite Z.add_0_r in Hcl.
  pose proof (find_logs_ge w i (FileName.get_volume_name c0 i)) as Hge. rewrite (cl_file _ _ _ Hcl) in Hge. specialize (Hge ltac:(apply name_of_stream; lia) ltac:(by eexists) Hi). lia.
Qed.

Lemma recover_rows_ok w nvol h n size :
  (∀ j, (j < size)%nat → shard_closed nvol w (Z.of_nat j) (h (Z.of_nat j)) n) → Sharded.find_logs w ≤ Z.of_nat size < 2 ^ 31 →
  ∃ ss N, (∀ calls fuel, (N ≤ calls)%nat → (N ≤ fuel)%nat → ∃ out, merged ss out ∧ LogSession.recover_rows calls fuel w = Some (rows_of out)) ∧
    ∀ i, 0 ≤ i < Z.of_nat size → recovered nvol n (h i) (default [] (ss !! Z.to_nat i)).
Proof.
  intros Hcl Hle. unfold LogSession.recover_rows. set (ccr := Sharded.find_logs w) in *.
  destruct (recover_streams_ok (Z.to_nat ccr) 0 w nvol h n) as (streams&ss&E&Hg&Hf&Hlen&Hr); [intros j Hj; apply (Hcl j); lia|].
  exists ss, (2 * length (concat ss) + length (rows_of (concat ss)) + 3)%nat. split.
  - intros calls fuel Hcalls Hfuel. destruct (decide (0 < ccr)) as [Hpos|Hz].
    + set (s := mkSharded streams ccr [] true false 0 0 0). unfold Sharded.recover. rewrite decide_False by lia. rewrite E. cbn [mbind option_bind].
      destruct (log_drain_ok calls fuel 4096 s w ss) as (out&Hd&Hm); [done|done|done|done|lia|lia|lia|]. exists out. done.
    + exists []. split; [|done]. apply merged_nil. destruct ss; [constructor|simpl in Hlen; lia].
  - intros i Hi. destruct (ss !! Z.to_nat i) as [fs|] eqn:Ei; [pose proof (Hr _ _ Ei) as Hx; by rewrite Z.add_0_l, Z2Nat.id in Hx by lia|].
    apply lookup_ge_None in Ei. pose proof (Hcl (Z.to_nat i) ltac:(lia)) as Hx. rewrite Z2Nat.id in Hx by lia.
    rewrite (no_files nvol w i (h i) n Hx) by (fold ccr; lia). by exists [], [].
Qed.

(** C6: rows that threads write to the log are recovered.  Whatever rows the
    threads of a database write, in any order, the log takes them, rotates when a
    volume is full, is closed, is found again and is read: each shard gives its rows
    in their order, without those of the volumes that were rotated away (none if
    there were fewer operations than volumes) and without those after a frame that
    holds no row (none if the names and rescue points of the shard take at most
    8072 bytes); the shards are merged by the numbers of their frames. *)
Theorem input_log_recovery (concurrency nvol svol : Z) (ops : list LogOp) w :
  0 < concurrency < 2 ^ 31 → 2 ≤ nvol → Forall op_ok ops → Z.of_nat (length ops) < 2 ^ 32 - 1 →
  w_io w = [] → 0 ≤ w_seq w → w_seq w + 4 * Z.of_nat (length ops) + concurrency < 2 ^ 64 → (∀ sid fn, of_stream sid fn → w_files w !! fn = None) →
  ∃ s w1 w2 ss N, LogSession.run ops (Sharded.create concurrency nvol svol) w = Some (s, w1) ∧ Sharded.destroy s w1 = Some w2 ∧
    (∀ calls fuel, (N ≤ calls)%nat → (N ≤ fuel)%nat → ∃ out, merged ss out ∧ LogSession.recover_rows calls fuel w2 = Some (rows_of out)) ∧
    ∀ i, 0 ≤ i < concurrency → recovered nvol (Z.of_nat (length ops)) (shard_rows concurrency ops i) (default [] (ss !! Z.to_nat i)).
Proof.
  intros Hc Hnv Hops Hlen Hio Hseq Hmax Hnone. pose proof (create_sharded concurrency nvol svol w Hio Hseq Hnone) as Hsw.
  destruct (session_run_ok ops _ w nvol _ _ 0 Hsw) as (s&w1&->&Hq&Hsw1); [lia|lia|lia|lia|done|lia|done|]. rewrite Z2Nat.id in Hsw1 by lia. cbn [app] in Hsw1.
  pose proof Hsw1 as [S1 _ _ S4 S5 S6 S7]. rewrite Z2Nat.id in S6 by lia.
  destruct (destroy_streams_ok (sl_streams s) 0 w1 nvol (shard_rows concurrency ops) (0 + Z.of_nat (length ops))) as (w2&E2&Hcl&Hun); [done|lia|lia|lia|lia|done|].
  destruct (recover_rows_ok w2 nvol (shard_rows concurrency ops) (0 + Z.of_nat (length ops)) (Z.to_nat concurrency)) as (ss&N&Hrec&Hshard).
  - intros j Hj. apply (Hcl j). lia.
  - split; [|lia]. rewrite Z2Nat.id by lia. apply find_logs_le; [lia|]. intros sid fn Hsid Hfn. rewrite (un_files _ _ _ (Hun sid ltac:(lia)) fn Hfn). by eapply S6.
  - exists s, w1, w2, ss, N. split_and!; [done|done|done|]. intros i Hi. apply Hshard. lia.
Qed.

End Run.

(** ** Examples *)

Definition point (id timestamp : Z) : InputLogRow := mkRow id (InputLogDataPoint timestamp (10 * timestamp)).
Definition empty_world : World := mkWorld ∅ 0 [].
Definition log_roundtrip (concurrency nvol svol : Z) (ops : list LogOp) : option (list InputLogRow) :=
  '(s, w) ← LogSession.run ops (Sharded.create concurrency nvol svol) empty_world; w ← Sharded.destroy s w; LogSession.recover_rows 100 100 w.

Definition two_threads : list LogOp :=
  [LogRow 0 (mkRow 7 (InputLogSeriesName (str "cpu host=a"))); LogRow 1 (point 8 100); LogRow 0 (point 7 101); LogClose 1; LogRow 3 (point 8 102);
   LogRow 0 (mkRow 7 (InputLogRecoveryInfo [5; 6])); LogClose 0].

Example two_threads_rows :
  log_roundtrip 2 3 1000 two_threads =
  Some [mkRow 7 (InputLogSeriesName (str "cpu host=a")); point 7 101; point 8 100; point 8 102; mkRow 7 (InputLogRecoveryInfo [5; 6])].
Proof. vm_compute. reflexivity. Qed.

(** A frame of names that has no room for 64 bytes more is written and a new one
    is begun; a point writes that frame, which holds nothing, and recovery takes it
    for the end of the shard. *)
Definition gap_ops : list LogOp :=
  [LogRow 0 (mkRow 1 (InputLogSeriesName (replicate 4040 97))); LogRow 0 (mkRow 2 (InputLogSeriesName (replicate 4030 98))); LogRow 0 (point 1 100); LogRow 0 (point 2 101)].
Lemma input_log_gap_loses : fmap (map row_id) (log_roundtrip 1 3 1000000 gap_ops) = Some [1; 2] ∧ row_id <$> shard_rows 1 gap_ops 0 = [1; 2; 1; 2].
Proof. split; vm_compute; reflexivity. Qed.

Lemma input_log_recovery_witness :
  ∃ s w1 w2 ss N, LogSession.run two_threads (Sharded.create 2 8 1000) empty_world = Some (s, w1) ∧ Sharded.destroy s w1 = Some w2 ∧
    (∀ calls fuel, (N ≤ calls)%nat → (N ≤ fuel)%nat → ∃ out, merged ss out ∧ LogSession.recover_rows calls fuel w2 = Some (rows_of out)) ∧
    ∀ i, 0 ≤ i < 2 → recovered 8 7 (shard_rows 2 two_threads i) (default [] (ss !! Z.to_nat i)).
Proof.
  apply (input_log_recovery 2 8 1000 two_threads empty_world); [lia|lia| |by vm_compute|done|by vm_compute|by vm_compute|intros sid fn _; apply lookup_empty].
  apply (bool_decide_unpack _). vm_compute. exact I.
Defined.

(** A series whose points are in the oldest volume and in a newer one is not
    stale: with two volumes of one frame, the first point of series 8 leaves the log
    and no id is reported. *)
Fixpoint stale_of (ops : list LogOp) (s : ShardedInputLog) (w : World) : option (list Z) :=
  match ops with
  | [] => Some []
  | o :: ops => '(stale, s, w) ← LogSession.op o s w; rest ← stale_of ops s w; Some (stale ++ rest)
  end.
Definition evict_ops : list LogOp := [LogRow 0 (point 8 100); LogRow 0 (point 8 101); LogRow 0 (point 8 102)].
Lemma input_log_evicts_active :
  stale_of evict_ops (Sharded.create 1 2 0) empty_world = Some [] ∧ log_roundtrip 1 2 0 evict_ops = Some [point 8 102].
Proof. split; vm_compute; reflexivity. Qed.
