(* ===== verification/Matcher.v ===== *)
(** * Series names and ids (seriesparser.cc, storage.cc)

    [SeriesMatcher], the registry of all series; [PlainSeriesMatcher], the one of a
    session or a query; [GroupByTag]; how sessions resolve names and how recovery
    restores them from the log. *)
From stdpp Require Import sorting.
From S2P Require Import Prelude Status StringPool SeriesName PList InvIndex LogFrame.

(** [i64] and [u64] of the same bits. *)
Definition i64 (x : Z) : Z := if decide (x < 2 ^ 63) then x else x - 2 ^ 64.

(** [Status::Code] *)
Definition Code (s : Status) : Z :=
  match s with
  | kOk => 0 | kOutOfRange => 1 | kOverflow => 2 | kFileSeekError => 3 | kFileWriteError => 4 | kBadArg => 5
  | kBadData => 6 | kNoData => 7 | kUnavailable => 8 | kNotFound => 9 | kNoMemory => 10 | kEAccess => 11
  | kErrIO => 12 | kRegullarExpected => 13 | kHighCardinality => 14 | kMissingDataNotSupported => 15 | kQueryParsingError => 16 | kTimeout => 17
  | kRetry => 18 | kGeneral => 19 | kLateWrite => 20 | kNotPermitted => 21 | kBusy => 22 | kInternal => 23
  | kUnknown => 24
  end.

Definition FASTSTDB_STARTING_SERIES_ID : Z := 1024.

(** ** [SeriesMatcher] *)

(** A [StringT] is its characters; the null one has none.  The hash tables compare
    characters. *)
Record SeriesMatcher := mkMatcher {
  sm_index : Index;
  sm_table : gmap chars Z;
  sm_inv_table : gmap Z chars;
  sm_series_id : Z;
  sm_names : list (chars * Z);     (* recently added *)
}.

Module SMatcher.
Section SMatcher.
Context `{StdSort}.

Definition make (starting_id : Z) : option SeriesMatcher :=
  if decide (starting_id = 0) then None else Some (mkMatcher Idx.make ∅ ∅ starting_id []).

(** The id is negative for an event, whose name begins with an exclamation mark. *)
Definition add (s : chars) (m : SeriesMatcher) : option (Z * SeriesMatcher) :=
  c ← head s;
  let prev_id := sm_series_id m in
  let id := if decide (c = 33) then -1 * prev_id else prev_id in
  '(status, sname, index) ← Idx.append s (sm_index m);
  if IsOk status then
    Some (id, mkMatcher index (<[sname := id]> (sm_table m)) (<[id := sname]> (sm_inv_table m)) (prev_id + 1) (sm_names m ++ [(sname, id)]))
  else Some (0, mkMatcher index (sm_table m) (sm_inv_table m) id (sm_names m)).

(** [_add]: the counter and the list of new names stay. *)
Definition _add (s : chars) (id : Z) (m : SeriesMatcher) : option SeriesMatcher :=
  '(status, sname, index) ← Idx.append s (sm_index m);
  Some (mkMatcher index (<[sname := id]> (sm_table m)) (<[id := sname]> (sm_inv_table m)) (sm_series_id m) (sm_names m)).
Definition _add_string (series : chars) (id : Z) (m : SeriesMatcher) : option SeriesMatcher :=
  if decide (series = []) then Some m else _add series id m.

Definition match_ (s : chars) (m : SeriesMatcher) : Z := default 0 (sm_table m !! s).
Definition id2str (tokenid : Z) (m : SeriesMatcher) : chars := default [] (sm_inv_table m !! tokenid).

Definition pull_new_names (m : SeriesMatcher) : list (chars * Z) * SeriesMatcher :=
  (sm_names m, mkMatcher (sm_index m) (sm_table m) (sm_inv_table m) (sm_series_id m) []).

Definition get_all_ids (m : SeriesMatcher) : list Z := merge_sort Z.le (map_to_list (sm_inv_table m)).*1.

Definition search (q : IndexQueryNode) (m : SeriesMatcher) : option (list (chars * Z)) :=
  resultset ← Query.query (sm_index m) q;
  names ← Results.names (ix_pool (sm_index m)) resultset;
  mapM (λ s, id ← sm_table m !! s; Some (s, id)) names.

(** The names that begin with the prefix. *)
Definition keep_prefix (p : chars) (l : list chars) : list chars := filter (λ s, take (length p) s = p) l.
Definition suggest_metric (prefix : chars) (m : SeriesMatcher) : list chars :=
  keep_prefix prefix (Idx.list_metric_names (sm_index m)).
Definition suggest_tags (metric tag_prefix : chars) (m : SeriesMatcher) : list chars :=
  keep_prefix tag_prefix (Idx.list_tags metric (sm_index m)).
Definition suggest_tag_values (metric tag value_prefix : chars) (m : SeriesMatcher) : list chars :=
  keep_prefix value_prefix (Idx.list_tag_values metric tag (sm_index m)).

End SMatcher.
End SMatcher.

(** ** [PlainSeriesMatcher] *)

Record PlainSeriesMatcher := mkPlain {
  pm_pool : LegacyStringPool;
  pm_table : gmap chars Z;
  pm_inv_table : gmap Z chars;
  pm_series_id : Z;
  pm_names : list (chars * Z);
}.

Module PMatcher.

Definition make (starting_id : Z) : option PlainSeriesMatcher :=
  if decide (starting_id = 0) then None else Some (mkPlain Legacy.make ∅ ∅ starting_id []).

Definition add (s : chars) (m : PlainSeriesMatcher) : Z * PlainSeriesMatcher :=
  let id := pm_series_id m in
  let '(pstr, pool) := Legacy.add s (pm_pool m) in
  (id, mkPlain pool (<[pstr := id]> (pm_table m)) (<[id := pstr]> (pm_inv_table m)) (id + 1) (pm_names m ++ [(pstr, id)])).

Definition _add (s : chars) (id : Z) (m : PlainSeriesMatcher) : PlainSeriesMatcher :=
  let '(pstr, pool) := Legacy.add s (pm_pool m) in
  mkPlain pool (<[pstr := id]> (pm_table m)) (<[id := pstr]> (pm_inv_table m)) (pm_series_id m) (pm_names m).
Definition _add_string (series : chars) (id : Z) (m : PlainSeriesMatcher) : PlainSeriesMatcher :=
  if decide (series = []) then m else _add series id m.

Definition match_ (s : chars) (m : PlainSeriesMatcher) : Z := default 0 (pm_table m !! s).
Definition id2str (tokenid : Z) (m : PlainSeriesMatcher) : chars := default [] (pm_inv_table m !! tokenid).

Definition pull_new_names (m : PlainSeriesMatcher) : list (chars * Z) * PlainSeriesMatcher :=
  (pm_names m, mkPlain (pm_pool m) (pm_table m) (pm_inv_table m) (pm_series_id m) []).
Definition get_all_ids (m : PlainSeriesMatcher) : list Z := merge_sort Z.le (map_to_list (pm_inv_table m)).*1.

(** [rx] is the search of the regular expression in a buffer. *)
Definition regex_match (rx : chars → list (nat * nat)) (offset : StringPoolOffset) (m : PlainSeriesMatcher)
    : option (list (chars * Z) * StringPoolOffset * Z) :=
  '(res, offset, prevsize) ← Legacy.regex_match rx offset (pm_pool m);
  series ← mapM (λ s, id ← pm_table m !! s; Some (s, id)) res;
  Some (series, offset, prevsize).

End PMatcher.

(** ** [GroupByTag] *)

Inductive GroupByOpType := PIVOT | GROUP.

Record GroupByTag := mkGroupBy { gb_ids : gmap Z Z; gb_local : PlainSeriesMatcher; gb_snames : gset chars }.

Module GroupBy.
Section GroupBy.
Context (matcher : SeriesMatcher) (metrics funcs tags : list chars) (op : GroupByOpType).

(** [cpu key=val] becomes [cpu:max key=val]. *)
Fixpoint upto_space (s : chars) : option (chars * chars) :=
  match s with
  | [] => None
  | c :: q => if decide (c = SPACE) then Some ([], s) else '(a, b) ← upto_space q; Some (c :: a, b)
  end.
Definition add_func (mindex : nat) (result : chars) : option chars :=
  if decide (funcs = []) then Some result else
  fname ← funcs !! mindex;
  Some (match upto_space result with Some (a, b) => a ++ [58] ++ fname ++ b | None => result end).

Definition add_item (mindex : nat) (item : chars * Z) (g : GroupByTag) : option GroupByTag :=
  '(status, result) ← Parse.filter_tags item.1 (list_to_set tags) (match op with GROUP => true | PIVOT => false end);
  if IsOk status then
    result ← add_func mindex result;
    if decide (result ∈ gb_snames g) then
      let localid := PMatcher.match_ result (gb_local g) in
      if decide (localid = 0) then None else
      Some (mkGroupBy (<[u64 item.2 := u64 localid]> (gb_ids g)) (gb_local g) (gb_snames g))
    else
      let '(localid, local) := PMatcher.add result (gb_local g) in
      Some (mkGroupBy (<[u64 item.2 := u64 localid]> (gb_ids g)) local ({[PMatcher.id2str localid local]} ∪ gb_snames g))
  else Some g.

Fixpoint add_items (mindex : nat) (items : list (chars * Z)) (g : GroupByTag) : option GroupByTag :=
  match items with [] => Some g | item :: items => g ← add_item mindex item g; add_items mindex items g end.

Fixpoint refresh_loop (mindex : nat) (ms : list chars) (g : GroupByTag) : option GroupByTag :=
  match ms with
  | [] => Some g
  | metric :: ms =>
    results ← SMatcher.search (IncludeIfHasTag metric tags) matcher;
    g ← add_items mindex results g;
    refresh_loop (S mindex) ms g
  end.

Definition make : option GroupByTag := local ← PMatcher.make 1; refresh_loop 0 metrics (mkGroupBy ∅ local ∅).

End GroupBy.
End GroupBy.

(** ** Columns

    What the registry asks of the column store: a column that is not there can be
    created. *)
Class Columns (C : Type) := {
  create_new_column : Z → C → option (Status * C);
  has_column : Z → C → Prop;
}.
Class ColumnsLaws (C : Type) `{Columns C} : Prop := {
  columns_create id c : ¬ has_column id c → ∃ c', create_new_column id c = Some (kOk, c') ∧ ∀ j, has_column j c' ↔ j = id ∨ has_column j c;
}.

(** ** Resolving names *)

Section Names.
Context {C : Type} `{Columns C} `{StdSort}.

(** The parts of [Storage] that know series; [nm_rescue] are the rescue points that
    wait to be written to the metadata storage. *)
Record Names := mkNames { nm_matcher : SeriesMatcher; nm_columns : C; nm_rescue : gmap Z (list Z) }.

(** [Storage::init_series_id]: the status, whether the series is new, and its id. *)
Definition storage_init_series_id (s : chars) (local : PlainSeriesMatcher) (st : Names)
    : option (Status * bool * option Z * PlainSeriesMatcher * Names) :=
  let id := u64 (SMatcher.match_ s (nm_matcher st)) in
  '(create_new, id, st) ← (if decide (id = 0) then
      '(id, m) ← SMatcher.add s (nm_matcher st);
      Some (true, u64 id, mkNames m (nm_columns st) (<[u64 id := []]> (nm_rescue st)))
    else Some (false, id, st));
  '(status, st) ← (if create_new : bool then
      '(status, cs) ← create_new_column id (nm_columns st); Some (status, mkNames (nm_matcher st) cs (nm_rescue st))
    else Some (kOk, st));
  if decide (status = kOk) then Some (kOk, create_new, Some id, PMatcher._add s (i64 id) local, st)
  else Some (status, false, None, local, st).

(** A name in normal form: its id and the rows for the log. *)
Definition resolve (s : chars) (local : PlainSeriesMatcher) (st : Names)
    : option (Status * option Z * list InputLogRow * PlainSeriesMatcher * Names) :=
  let id := u64 (PMatcher.match_ s local) in
  if decide (id = 0) then
    '(status, create_new, paramid, local, st) ← storage_init_series_id s local st;
    rows ← (if create_new : bool then id ← paramid; Some [mkRow id (InputLogSeriesName s)] else Some []);
    Some (status, paramid, rows, local, st)
  else Some (kOk, Some id, [], local, st).

(** [StorageSession::init_series_id] *)
Definition init_series_id (s : chars) (local : PlainSeriesMatcher) (st : Names)
    : option (Status * option Z * list InputLogRow * PlainSeriesMatcher * Names) :=
  '(status, ob, _) ← Parse.to_canonical_form s Pool.LIMITS_MAX_SNAME;
  if decide (status = kOk) then resolve ob local st else Some (status, None, [], local, st).

(** [StorageSession::get_series_ids]: the ids of a name with one metric or several,
    separated by bars; an error is a negative number.  An id that was not
    initialized is not defined. *)
Definition BAR : Z := 124.
Fixpoint next_metric (s : chars) : chars * chars :=
  match s with
  | [] => ([], [])
  | c :: q => if decide (c = BAR) then ([], q) else let '(a, b) := next_metric q in (c :: a, b)
  end.

Fixpoint ids_loop (nmetric : nat) (it tagline : chars) (local : PlainSeriesMatcher) (st : Names)
    : option (list Z * list InputLogRow * PlainSeriesMatcher * Names) :=
  match nmetric with
  | O => Some ([], [], local, st)
  | S nmetric =>
    let '(metric, it) := next_metric it in
    '(_, paramid, rows, local, st) ← resolve (metric ++ tagline) local st;
    id ← paramid;
    '(ids, more, local, st) ← ids_loop nmetric it tagline local st;
    Some (id :: ids, rows ++ more, local, st)
  end.

Definition get_series_ids (s : chars) (ids_size : Z) (local : PlainSeriesMatcher) (st : Names)
    : option (Z * list Z * list InputLogRow * PlainSeriesMatcher * Names) :=
  '(status, ob, ksbegin) ← Parse.to_canonical_form s Pool.LIMITS_MAX_SNAME;
  if decide (status ≠ kOk) then Some (-1 * Code status, [], [], local, st) else
  let nmetric := (length (filter (λ c, c = BAR) (take ksbegin ob)) + 1)%nat in
  if decide (ids_size < Z.of_nat nmetric) then Some (-1 * Code kBadArg, [], [], local, st) else
  '(ids, rows, local, st) ← (if decide (nmetric = 1)%nat then
      '(_, paramid, rows, local, st) ← resolve ob local st; id ← paramid; Some ([id], rows, local, st)
    else ids_loop nmetric (take (ksbegin - 1) ob) (drop (ksbegin - 1) ob) local st);
  Some (Z.of_nat nmetric, ids, rows, local, st).

(** [get_series_name]: the length, what was written to the buffer, the session. *)
Definition storage_get_series_name (id buffer_size : Z) (local : PlainSeriesMatcher) (st : Names) : Z * chars * PlainSeriesMatcher :=
  let s := SMatcher.id2str (i64 id) (nm_matcher st) in
  if decide (s = []) then (0, [], local) else
  let local := PMatcher._add s (i64 id) local in
  if decide (buffer_size < Z.of_nat (length s)) then (-1 * Z.of_nat (length s), [], local) else (Z.of_nat (length s), s, local).
(** A name that the session knows is copied whatever the size of the buffer is. *)
Definition get_series_name (id buffer_size : Z) (local : PlainSeriesMatcher) (st : Names) : option (Z * chars * PlainSeriesMatcher) :=
  let s := PMatcher.id2str (i64 id) local in
  if decide (s = []) then Some (storage_get_series_name id buffer_size local st) else
  if decide (buffer_size < Z.of_nat (length s)) then None else Some (Z.of_nat (length s), s, local).

(** ** Recovery of names and rescue points from the log *)

(** The state of the visitor of [run_inputlog_metadata_recovery]. *)
Record Recovery := mkRecovery { rv_names : Names; rv_mapping : gmap Z (list Z); rv_restored_ids : list Z }.

Definition visit_name (curr_id : Z) (sname : chars) (r : Recovery) : option Recovery :=
  let st := rv_names r in
  if decide (SMatcher.id2str (i64 curr_id) (nm_matcher st) ≠ []) then Some r else
  if decide (SMatcher.match_ sname (nm_matcher st) = 0) then
    m ← SMatcher._add_string sname (i64 curr_id) (nm_matcher st);
    '(_, cs) ← create_new_column curr_id (nm_columns st);
    Some (mkRecovery (mkNames m cs (<[curr_id := []]> (nm_rescue st))) (rv_mapping r) (rv_restored_ids r ++ [curr_id]))
  else Some r.

Definition max_element (l : list Z) : Z := foldr Z.max 0 l.

(** The rescue points of the log replace those of the metadata if they are newer. *)
Definition newer (top_addr : Z) (current data : list Z) : bool :=
  if decide (data = []) then false else
  if decide (current = []) then true else
  if decide (length data < length current)%nat then false else
  negb (bool_decide (top_addr ≤ max_element data) || bool_decide (max_element data < max_element current)).

Definition visit_rescue (top_addr curr_id : Z) (data : list Z) (r : Recovery) : Recovery :=
  let st := rv_names r in
  if decide (SMatcher.id2str (i64 curr_id) (nm_matcher st) = []) then r else
  if match rv_mapping r !! curr_id with Some current => newer top_addr current data | None => true end then
    mkRecovery (mkNames (nm_matcher st) (nm_columns st) (<[curr_id := data]> (nm_rescue st))) (<[curr_id := data]> (rv_mapping r)) (rv_restored_ids r)
  else r.

Definition visit (top_addr : Z) (row : InputLogRow) (r : Recovery) : option Recovery :=
  match row_payload row with
  | InputLogDataPoint _ _ => Some r
  | InputLogSeriesName sname => visit_name (row_id row) sname r
  | InputLogRecoveryInfo data => Some (visit_rescue top_addr (row_id row) data r)
  end.

Fixpoint visit_rows (top_addr : Z) (rows : list InputLogRow) (r : Recovery) : option Recovery :=
  match rows with [] => Some r | row :: rows => r ← visit top_addr row r; visit_rows top_addr rows r end.

End Names.
