(* ===== verification/MatcherProof.v ===== *)
(** * Series keep their ids *)
From S2P Require Import Prelude Status StringPool SeriesName SeriesNameProof PList InvIndex InvIndexProof InvIndexQuery LogFrame Matcher.

Notation series_key := (chars * list chars)%type.
Notation cname x := (canon x.1 x.2).

Section Matcher.
Context `{StdSort}.

(** A name of the series [x]: its normal form is the metric and the sorted tags of
    [x], and the normal form is its own. *)
Definition request (s : chars) (x : series_key) : Prop := named s x ∧ named (cname x) x.

(** ** The registry *)

(** The series [es] with their ids are registered; [k] more names fit. *)
Record registered (k : nat) (m : SeriesMatcher) (es : list (series_key * Z)) : Prop := {
  rg_index : ∃ ses, ix_holds k (sm_index m) ses ∧ parts <$> ses = es.*1;
  rg_series : NoDup es.*1;
  rg_ids : NoDup es.*2;
  rg_ok : Forall (λ e, series_ok e.1.1 e.1.2) es;
  rg_range : Forall (λ e, e.2 ≠ 0 ∧ Z.abs e.2 < 2 ^ 63) es;
  rg_table s id : sm_table m !! s = Some id ↔ ∃ x, (x, id) ∈ es ∧ s = cname x;
  rg_inv id s : sm_inv_table m !! id = Some s ↔ ∃ x, (x, id) ∈ es ∧ s = cname x;
}.

Lemma cname_ne x : series_ok x.1 x.2 → cname x ≠ [].
Proof. intros (_&_&_&_&Hn&_). done. Qed.

Lemma cname_inj x y : series_ok x.1 x.2 → series_ok y.1 y.2 → cname x = cname y → x = y.
Proof. intros Hx Hy E. destruct (canon_inj _ _ _ _ Hx Hy E). destruct x, y. simpl in *. congruence. Qed.

Lemma elem_fst (es : list (series_key * Z)) x : x ∈ es.*1 ↔ ∃ id, (x, id) ∈ es.
Proof.
  rewrite list_elem_of_fmap. split; [intros ([y id]&->&Hin); by exists id|intros (id&Hin); by exists (x, id)].
Qed.
Lemma elem_snd (es : list (series_key * Z)) id : id ∈ es.*2 ↔ ∃ x, (x, id) ∈ es.
Proof.
  rewrite list_elem_of_fmap. split; [intros ([y i]&->&Hin); by exists y|intros (x&Hin); by exists (x, id)].
Qed.

Lemma nodup_fmap_inj {A B} (f : A → B) (l : list A) a b : NoDup (f <$> l) → a ∈ l → b ∈ l → f a = f b → a = b.
Proof.
  intros Hnd (i&Hi)%list_elem_of_lookup (j&Hj)%list_elem_of_lookup E.
  assert (i = j) as -> by (eapply NoDup_lookup; [exact Hnd|by rewrite list_lookup_fmap, Hi|rewrite list_lookup_fmap, Hj; simpl; by rewrite E]). congruence.
Qed.

Lemma id_of_series k m es x id id' : registered k m es → (x, id) ∈ es → (x, id') ∈ es → id = id'.
Proof. intros Hr H1 H2. assert ((x, id) = (x, id')) as [= <-]; [|done]. by eapply (nodup_fmap_inj fst); [apply (rg_series _ _ _ Hr)|..]. Qed.
Lemma series_of_id k m es x y id : registered k m es → (x, id) ∈ es → (y, id) ∈ es → x = y.
Proof. intros Hr H1 H2. assert ((x, id) = (y, id)) as [= <-]; [|done]. by eapply (nodup_fmap_inj snd); [apply (rg_ids _ _ _ Hr)|..]. Qed.

Lemma registered_range k m es x id : registered k m es → (x, id) ∈ es → id ≠ 0 ∧ Z.abs id < 2 ^ 63.
Proof. intros Hr Hin. pose proof (rg_range _ _ _ Hr) as Hf. rewrite Forall_forall in Hf. by apply (Hf _ Hin). Qed.
Lemma registered_ok k m es x id : registered k m es → (x, id) ∈ es → series_ok x.1 x.2.
Proof. intros Hr Hin. pose proof (rg_ok _ _ _ Hr) as Hf. rewrite Forall_forall in Hf. by apply (Hf _ Hin). Qed.

Lemma match_ok k m es x id : registered k m es → (x, id) ∈ es → SMatcher.match_ (cname x) m = id.
Proof. intros Hr Hin. unfold SMatcher.match_. rewrite (proj2 (rg_table _ _ _ Hr (cname x) id)); [done|]. by exists x. Qed.
Lemma match_new k m es x : registered k m es → series_ok x.1 x.2 → x ∉ es.*1 → SMatcher.match_ (cname x) m = 0.
Proof.
  intros Hr Hx Hnew. unfold SMatcher.match_. destruct (sm_table m !! cname x) as [id|] eqn:E; [|done]. apply (rg_table _ _ _ Hr) in E as (y&Hy&E).
  apply cname_inj in E as <-; [|done|by eapply registered_ok]. destruct Hnew. apply elem_fst. by exists id.
Qed.
Lemma id2str_ok k m es x id : registered k m es → (x, id) ∈ es → SMatcher.id2str id m = cname x.
Proof. intros Hr Hin. unfold SMatcher.id2str. rewrite (proj2 (rg_inv _ _ _ Hr id (cname x))); [done|]. by exists x. Qed.
Lemma id2str_new k m es id : registered k m es → id ∉ es.*2 → SMatcher.id2str id m = [].
Proof.
  intros Hr Hnew. unfold SMatcher.id2str. destruct (sm_inv_table m !! id) as [s|] eqn:E; [|done]. apply (rg_inv _ _ _ Hr) in E as (y&Hy&_).
  destruct Hnew. apply elem_snd. by exists y.
Qed.

Lemma registered_weaken k m es : registered (S k) m es → registered k m es.
Proof. intros [(ses&Hix&E) ? ? ? ? ? ?]. constructor; try done. exists ses. split; [by apply holds_weaken|done]. Qed.

(** Entering a series in the index and in the tables. *)
Lemma register_ok k m es x id :
  registered (S k) m es → named (cname x) x → x ∉ es.*1 → id ∉ es.*2 → id ≠ 0 → Z.abs id < 2 ^ 63 →
  ∃ index, Idx.append (cname x) (sm_index m) = Some (kOk, cname x, index) ∧
    ∀ n names, registered k (mkMatcher index (<[cname x := id]> (sm_table m)) (<[id := cname x]> (sm_inv_table m)) n names) (es ++ [(x, id)]).
Proof.
  intros Hr [Hc Hok] Hnew Hid Hz Hmax. pose proof Hr as [(ses&Hix&Eses) Hnd Hndi Hall Hrange Ht Hi].
  destruct (index_append_ok k (sm_index m) ses (cname x) x.1 x.2 Hix Hc Hok) as [(e&He&Em&Et&_)|(nid&index&Ea&Hix'&_)].
  { destruct Hnew. rewrite <- Eses. apply list_elem_of_fmap. exists e. split; [|done]. unfold parts. rewrite Em, Et. by destruct x. }
  exists index. split; [done|]. intros n names. constructor; simpl.
  - eexists. split; [exact Hix'|]. rewrite !fmap_app, Eses. by destruct x.
  - rewrite fmap_app. apply NoDup_app. split_and!; [done| |apply NoDup_singleton]. intros y Hy Hy'. apply list_elem_of_singleton in Hy' as ->. done.
  - rewrite fmap_app. apply NoDup_app. split_and!; [done| |apply NoDup_singleton]. intros y Hy Hy'. apply list_elem_of_singleton in Hy' as ->. done.
  - apply Forall_app. split; [done|]. by constructor.
  - apply Forall_app. split; [done|]. by constructor.
  - intros s i. destruct (decide (s = cname x)) as [->|Hne].
    + rewrite lookup_insert_eq. split; [intros [= <-]; exists x; split; [apply elem_of_app; right; by left|done]|].
      intros (y&[Hy|Hy]%elem_of_app&E); [|apply list_elem_of_singleton in Hy; by injection Hy as _ <-].
      apply cname_inj in E as <-; [|done|by eapply registered_ok]. destruct Hnew. apply elem_fst. by exists i.
    + rewrite lookup_insert_ne by done. rewrite Ht. split; [intros (y&Hy&E); exists y; split; [apply elem_of_app; by left|done]|].
      intros (y&[Hy|Hy]%elem_of_app&E); [by exists y|]. apply list_elem_of_singleton in Hy. injection Hy as -> _. done.
  - intros i s. destruct (decide (i = id)) as [->|Hne].
    + rewrite lookup_insert_eq. split; [intros [= <-]; exists x; split; [apply elem_of_app; right; by left|done]|].
      intros (y&[Hy|Hy]%elem_of_app&E); [|apply list_elem_of_singleton in Hy; injection Hy as ->; by rewrite E].
      destruct Hid. apply elem_snd. by exists y.
    + rewrite lookup_insert_ne by done. rewrite Hi. split; [intros (y&Hy&E); exists y; split; [apply elem_of_app; by left|done]|].
      intros (y&[Hy|Hy]%elem_of_app&E); [by exists y|]. apply list_elem_of_singleton in Hy. injection Hy as _ ->. done.
Qed.

(** The counter is past all ids. *)
Definition counted (m : SeriesMatcher) (es : list (series_key * Z)) : Prop :=
  0 < sm_series_id m ∧ Forall (λ e, Z.abs e.2 < sm_series_id m) es.

(** The next id: negative for an event. *)
Definition next_id (m : SeriesMatcher) (x : series_key) : Z := if decide (head x.1 = Some 33) then - sm_series_id m else sm_series_id m.

Lemma add_new_ok k m es x :
  registered (S k) m es → counted m es → sm_series_id m < 2 ^ 63 → named (cname x) x → x ∉ es.*1 →
  ∃ m', SMatcher.add (cname x) m = Some (next_id m x, m') ∧ registered k m' (es ++ [(x, next_id m x)]) ∧
    counted m' (es ++ [(x, next_id m x)]) ∧ sm_series_id m' = sm_series_id m + 1.
Proof.
  intros Hr [Hpos Hcnt] Hmax Hn Hnew. assert (Habs : Z.abs (next_id m x) = sm_series_id m) by (unfold next_id; case_decide; lia).
  destruct (register_ok k m es x (next_id m x) Hr Hn Hnew) as (index&Ea&Hreg); [|lia|lia|].
  { intros (y&Hy)%elem_snd. rewrite Forall_forall in Hcnt. specialize (Hcnt _ Hy). simpl in Hcnt. lia. }
  destruct Hn as [_ ([Hm _]&_)]. unfold SMatcher.add. destruct x as [[|c met] tags]; [done|]. cbn [fst snd] in *.
  change (head (canon (c :: met) tags)) with (Some c). cbn [mbind option_bind]. rewrite Ea. cbn [mbind option_bind]. unfold IsOk. rewrite bool_decide_eq_true_2 by done.
  assert (Eid : (if decide (c = 33) then -1 * sm_series_id m else sm_series_id m) = next_id m (c :: met, tags)).
  { unfold next_id. cbn [fst head]. destruct (decide (c = 33)) as [->|Hc]; [rewrite decide_True by done; lia|]. rewrite decide_False by congruence. done. }
  rewrite Eid. eexists. split; [reflexivity|]. split_and!; [apply Hreg| |done]. split; [simpl; lia|]. simpl. apply Forall_app. split.
  - eapply Forall_impl; [exact Hcnt|]. intros e ?. cbv beta in *. lia.
  - constructor; [simpl; lia|constructor].
Qed.

(** ** Sessions *)

Lemma i64_u64 x : Z.abs x < 2 ^ 63 → i64 (u64 x) = x.
Proof.
  intros Hx. unfold i64, u64. destruct (decide (0 ≤ x)).
  - rewrite Z.mod_small by lia. by rewrite decide_True by lia.
  - rewrite <- (Z_mod_plus_full x 1), Z.mod_small by lia. rewrite decide_False by lia. lia.
Qed.
Lemma u64_inj x y : Z.abs x < 2 ^ 63 → Z.abs y < 2 ^ 63 → u64 x = u64 y → x = y.
Proof. intros Hx Hy E. rewrite <- (i64_u64 x Hx), E. by apply i64_u64. Qed.
Lemma u64_nonzero x : x ≠ 0 → Z.abs x < 2 ^ 63 → u64 x ≠ 0.
Proof. intros Hz Hx E. apply Hz, u64_inj; [done|done|by rewrite E]. Qed.

Context {C : Type} `{ColumnsLaws C}.
Implicit Types (st : Names (C := C)) (l : PlainSeriesMatcher).

Record names_ok (k : nat) st (es : list (series_key * Z)) : Prop := {
  no_registered : registered k (nm_matcher st) es;
  no_counted : counted (nm_matcher st) es;
  no_bound : sm_series_id (nm_matcher st) + Z.of_nat k < 2 ^ 63;
  no_columns id : has_column id (nm_columns st) ↔ ∃ x i, (x, i) ∈ es ∧ id = u64 i;
}.

(** What a session knows is registered. *)
Record session_ok l (es : list (series_key * Z)) : Prop := {
  so_table s id : pm_table l !! s = Some id → ∃ x, (x, id) ∈ es ∧ s = cname x;
  so_inv id s : pm_inv_table l !! id = Some s → ∃ x, (x, id) ∈ es ∧ s = cname x;
}.

Lemma session_mono l es more : session_ok l es → session_ok l (es ++ more).
Proof.
  intros [K1 K2]. constructor; [intros s id Hs; destruct (K1 s id Hs) as (x&Hx&E)|intros id s Hs; destruct (K2 id s Hs) as (x&Hx&E)];
    exists x; split; [apply elem_of_app; by left|done|apply elem_of_app; by left|done].
Qed.

Lemma session_add l es x id : session_ok l es → (x, id) ∈ es → series_ok x.1 x.2 → session_ok (PMatcher._add (cname x) id l) es.
Proof.
  intros [K1 K2] Hin Hok. unfold PMatcher._add, Legacy.add. rewrite decide_False by (by apply cname_ne). constructor; simpl; intros a b.
  - destruct (decide (a = cname x)) as [->|Hne]; [rewrite lookup_insert_eq; intros [= <-]; by exists x|rewrite lookup_insert_ne by done; apply K1].
  - destruct (decide (a = id)) as [->|Hne]; [rewrite lookup_insert_eq; intros [= <-]; by exists x|rewrite lookup_insert_ne by done; apply K2].
Qed.

(** The row of the log for a new series. *)
Definition name_row (x : series_key) (id : Z) : InputLogRow := mkRow (u64 id) (InputLogSeriesName (cname x)).

Definition resolved (es es' : list (series_key * Z)) (x : series_key) (id : Z) (rows : list InputLogRow) : Prop :=
  (es' = es ∧ (x, id) ∈ es ∧ rows = []) ∨ (x ∉ es.*1 ∧ es' = es ++ [(x, id)] ∧ rows = [name_row x id]).

Lemma storage_init_ok k st es l x :
  names_ok (S k) st es → session_ok l es → named (cname x) x →
  ∃ b id l' st' es', storage_init_series_id (cname x) l st = Some (kOk, b, Some (u64 id), l', st') ∧ names_ok k st' es' ∧ session_ok l' es' ∧
    resolved es es' x id (if b then [name_row x id] else []).
Proof.
  intros [Hreg Hcnt Hbd Hcol] Hl Hn. pose proof Hn as [_ Hok]. unfold storage_init_series_id.
  destruct (decide (x ∈ es.*1)) as [(id&Hin)%elem_fst|Hnew].
  - destruct (registered_range _ _ _ _ _ Hreg Hin) as [Hz Habs]. rewrite (match_ok _ _ _ _ _ Hreg Hin), decide_False by (by apply u64_nonzero).
    cbn [mbind option_bind]. rewrite decide_True by done. rewrite i64_u64 by done. eexists false, id, _, st, es. split; [reflexivity|].
    split_and!; [constructor; [by apply registered_weaken|done|lia|done]|by apply session_add|by left].
  - rewrite (match_new _ _ _ _ Hreg Hok Hnew). rewrite decide_True by done.
    destruct (add_new_ok k (nm_matcher st) es x Hreg Hcnt) as (m'&->&Hreg'&Hcnt'&Hid'); [lia|done|done|]. cbn [mbind option_bind nm_columns].
    set (id := next_id (nm_matcher st) x) in *. assert (Hin : (x, id) ∈ es ++ [(x, id)]) by (apply elem_of_app; right; by left).
    destruct (registered_range _ _ _ _ _ Hreg' Hin) as [Hz Habs].
    destruct (columns_create (u64 id) (nm_columns st)) as (c'&->&Hc').
    { intros (y&i&Hy&E)%Hcol. pose proof (registered_range _ _ _ _ _ Hreg Hy) as [_ Hi]. apply u64_inj in E as <-; [|done|done].
      destruct Hcnt as [_ Hf]. rewrite Forall_forall in Hf. specialize (Hf _ Hy). simpl in Hf. unfold id, next_id in Hf. case_decide; lia. }
    cbn [mbind option_bind]. rewrite decide_True by done. rewrite i64_u64 by done. eexists true, id, _, _, (es ++ [(x, id)]). split; [reflexivity|].
    split_and!; [|by apply session_add; [apply session_mono|..]|by right]. constructor; cbn [nm_matcher nm_columns]; [done|done|lia|].
    intros j. rewrite Hc', Hcol. split.
    + intros [->|(y&i&Hy&->)]; [by exists x, id|exists y, i; split; [apply elem_of_app; by left|done]].
    + intros (y&i&[Hy|Hy]%elem_of_app&->); [right; by exists y, i|]. apply list_elem_of_singleton in Hy. injection Hy as _ <-. by left.
Qed.

Lemma resolve_ok k st es l x :
  names_ok (S k) st es → session_ok l es → named (cname x) x →
  ∃ id rows l' st' es', resolve (cname x) l st = Some (kOk, Some (u64 id), rows, l', st') ∧ names_ok k st' es' ∧ session_ok l' es' ∧ resolved es es' x id rows.
Proof.
  intros Hst Hl Hn. unfold resolve, PMatcher.match_. pose proof Hst as [Hreg Hcnt Hbd Hcol]. destruct (pm_table l !! cname x) as [id|] eqn:E.
  - apply (so_table _ _ Hl) in E as (y&Hy&E). apply cname_inj in E as <-; [|apply Hn|by eapply registered_ok].
    destruct (registered_range _ _ _ _ _ Hreg Hy) as [Hz Habs]. simpl. rewrite decide_False by (by apply u64_nonzero). exists id, [], l, st, es.
    split_and!; [done|constructor; [by apply registered_weaken|done|lia|done]|done|by left].
  - change (u64 (default 0 None)) with 0. rewrite decide_True by done. destruct (storage_init_ok k st es l x Hst Hl Hn) as (b&id&l'&st'&es'&->&Hst'&Hl'&Hres). cbn [mbind option_bind].
    exists id, (if b then [name_row x id] else []), l', st', es'. split_and!; [by destruct b|done|done|done].
Qed.

End Matcher.
