(* ===== verification/MatcherRun.v ===== *)
(** * Names, ids and columns across sessions and recovery *)
From S2P Require Import Prelude Status Crc32c MemStore Extents ColumnStore StringPool SeriesName SeriesNameProof PList InvIndex InvIndexProof InvIndexQuery LogFrame Matcher MatcherProof.

Section Run.
Context `{StdSort} {C : Type} `{ColumnsLaws C}.
Implicit Types (st : Names (C := C)) (l : PlainSeriesMatcher).

(** The sessions ask for names, one after another: the ids and the rows of the log. *)
Fixpoint run_requests (reqs : list (nat * chars)) (ss : list PlainSeriesMatcher) st
    : option (list Z * list InputLogRow * list PlainSeriesMatcher * Names) :=
  match reqs with
  | [] => Some ([], [], ss, st)
  | (j, s) :: reqs =>
    l ← ss !! j;
    '(_, paramid, rows, l, st) ← init_series_id s l st;
    id ← paramid;
    '(ids, more, ss, st) ← run_requests reqs (<[j := l]> ss) st;
    Some (id :: ids, rows ++ more, ss, st)
  end.

Definition new_session : PlainSeriesMatcher := mkPlain Legacy.make ∅ ∅ FASTSTDB_STARTING_SERIES_ID [].
Definition new_names (c : C) : Names := mkNames (mkMatcher Idx.make ∅ ∅ FASTSTDB_STARTING_SERIES_ID []) c ∅.

Lemma init_series_ok k st es l s x :
  names_ok (S k) st es → session_ok l es → request s x →
  ∃ id rows l' st' es', init_series_id s l st = Some (kOk, Some (u64 id), rows, l', st') ∧ names_ok k st' es' ∧ session_ok l' es' ∧ resolved es es' x id rows.
Proof.
  intros Hst Hl [[Hc _] Hn]. unfold init_series_id. change Pool.LIMITS_MAX_SNAME with 0x1000. rewrite Hc. cbn [mbind option_bind].
  rewrite decide_True by done. by apply resolve_ok.
Qed.

Lemma run_requests_ok reqs xs k ss st es :
  names_ok (length reqs + k) st es → Forall (λ l, session_ok l es) ss → Forall2 (λ r x, (r.1 < length ss)%nat ∧ request r.2 x) reqs xs →
  ∃ ids rows ss' st' es', run_requests reqs ss st = Some (ids, rows, ss', st') ∧ names_ok k st' es' ∧ Forall (λ l, session_ok l es') ss' ∧
    (∃ more, es' = es ++ more ∧ rows = (λ e, name_row e.1 e.2) <$> more ∧ Forall (λ e, e.1 ∈ xs) more) ∧
    Forall2 (λ a x, ∃ id, a = u64 id ∧ (x, id) ∈ es') ids xs.
Proof.
  intros Hst Hss Hreqs. revert ss st es Hst Hss Hreqs. revert xs. induction reqs as [|[j s] reqs IH]; intros xs ss st es Hst Hss Hreqs.
  { apply Forall2_nil_inv_l in Hreqs as ->. exists [], [], ss, st, es. split_and!; [done|done|done| |constructor]. exists []. split_and!; [by rewrite app_nil_r|done|constructor]. }
  apply Forall2_cons_inv_l in Hreqs as (x&xs'&[Hj Hx]&Hreqs&->). cbn [fst snd] in *. simpl length in Hst. cbn [run_requests].
  destruct (lookup_lt_is_Some_2 ss j Hj) as [l Hl]. rewrite Hl. cbn [mbind option_bind]. pose proof Hss as Hss0. rewrite Forall_lookup in Hss0.
  destruct (init_series_ok (length reqs + k) st es l s x Hst (Hss0 _ _ Hl) Hx) as (id&rows&l1&st1&es1&->&Hst1&Hl1&Hres). cbn [mbind option_bind].
  assert (∃ more1, es1 = es ++ more1 ∧ rows = (λ e, name_row e.1 e.2) <$> more1 ∧ Forall (λ e, e.1 ∈ x :: xs') more1 ∧ (x, id) ∈ es1) as (more1&->&->&Hm1&Hin).
  { destruct Hres as [(->&Hin&->)|(_&->&->)]; [exists []; split_and!; [by rewrite app_nil_r|done|constructor|done]|].
    exists [(x, id)]. split_and!; [done|done|constructor; [by left|constructor]|apply elem_of_app; right; by left]. }
  destruct (IH xs' (<[j := l1]> ss) st1 (es ++ more1)) as (ids&rows&ss'&st'&es'&->&Hst'&Hss'&(more&->&->&Hm)&Hids); [done| | |].
  { apply Forall_insert; [|done]. eapply Forall_impl; [exact Hss|]. intros l0 ?. by apply session_mono. }
  { eapply Forall2_impl; [exact Hreqs|]. intros [j' s'] y [? ?]. by rewrite length_insert. }
  cbn [mbind option_bind]. eexists _, _, ss', st', _. split_and!; [reflexivity|done|done| |].
  - exists (more1 ++ more). rewrite fmap_app. split_and!; [by rewrite app_assoc|done|]. apply Forall_app. split; [done|].
    eapply Forall_impl; [exact Hm|]. intros e ?. by right.
  - constructor; [|done]. exists id. split; [done|]. apply elem_of_app. by left.
Qed.

Lemma new_names_ok k c : Z.of_nat k < 2 ^ 32 → (∀ id, ¬ has_column id c) → names_ok k (new_names c) [].
Proof.
  intros Hk Hc. constructor; cbn [nm_matcher nm_columns new_names].
  - constructor; simpl; [exists []; split; [by apply make_holds_index|done]|constructor|constructor|constructor|constructor|..];
      intros a b; rewrite lookup_empty; (split; [done|]); intros (x&Hx&_); by apply not_elem_of_nil in Hx.
  - split; [done|constructor].
  - simpl. unfold FASTSTDB_STARTING_SERIES_ID. lia.
  - intros id. split; [intros Hx; by destruct (Hc id)|]. intros (x&i&Hx&_). by apply not_elem_of_nil in Hx.
Qed.

Lemma new_sessions_ok n : Forall (λ l, session_ok l []) (replicate n new_session).
Proof. apply Forall_replicate. constructor; intros a b; simpl; by rewrite lookup_empty. Qed.

(** Every request has its id in [es], which are all the series asked for. *)
Lemma run_new_ok n reqs xs c :
  Forall2 (λ r x, (r.1 < n)%nat ∧ request r.2 x) reqs xs → Z.of_nat (length reqs) < 2 ^ 32 → (∀ id, ¬ has_column id c) →
  ∃ ids ss st es, run_requests reqs (replicate n new_session) (new_names c) = Some (ids, (λ e, name_row e.1 e.2) <$> es, ss, st) ∧ names_ok 0 st es ∧
    Forall (λ l, session_ok l es) ss ∧ Forall2 (λ a x, ∃ id, a = u64 id ∧ (x, id) ∈ es) ids xs ∧ ∀ x, x ∈ xs ↔ x ∈ es.*1.
Proof.
  intros Hreqs Hlen Hc. destruct (run_requests_ok reqs xs 0 (replicate n new_session) (new_names c) []) as (ids&rows&ss&st&es&E&Hst&Hss&(more&->&->&Hm)&Hids).
  - apply new_names_ok; [lia|done].
  - apply new_sessions_ok.
  - by rewrite length_replicate.
  - exists ids, ss, st, more. split_and!; [done|done|done|done|]. intros x. split.
    + intros (i&Hi)%list_elem_of_lookup. destruct (Forall2_lookup_r _ _ _ _ _ Hids Hi) as (a&_&id&_&Hin). apply elem_fst. by exists id.
    + intros (id&Hin)%elem_fst. rewrite Forall_forall in Hm. apply (Hm _ Hin).
Qed.

(** C18: series and ids.  Sessions ask for series by name, in any order, however
    the names are written: every request succeeds; two requests, of the same session
    or of different ones, get the same id if and only if they name the same series;
    the column of the series exists, the registry gives its name back, and the log
    gets one row for every series, with its name and its id. *)
Theorem series_ids n reqs xs c :
  Forall2 (λ r x, (r.1 < n)%nat ∧ request r.2 x) reqs xs → Z.of_nat (length reqs) < 2 ^ 32 → (∀ id, ¬ has_column id c) →
  ∃ ids rows ss st, run_requests reqs (replicate n new_session) (new_names c) = Some (ids, rows, ss, st) ∧ length ids = length reqs ∧
    (∀ i j a b x y, ids !! i = Some a → xs !! i = Some x → ids !! j = Some b → xs !! j = Some y → (a = b ↔ x = y)) ∧
    (∀ i a x, ids !! i = Some a → xs !! i = Some x →
      a ≠ 0 ∧ has_column a (nm_columns st) ∧ SMatcher.match_ (cname x) (nm_matcher st) = i64 a ∧ SMatcher.id2str (i64 a) (nm_matcher st) = cname x) ∧
    NoDup (row_id <$> rows) ∧
    (∀ r, r ∈ rows ↔ ∃ i a x, ids !! i = Some a ∧ xs !! i = Some x ∧ r = mkRow a (InputLogSeriesName (cname x))).
Proof.
  intros Hreqs Hlen Hc. destruct (run_new_ok n reqs xs c Hreqs Hlen Hc) as (ids&ss&st&es&E&Hst&_&Hids&Hxs).
  pose proof (no_registered _ _ _ Hst) as Hreg.
  assert (Hat : ∀ i a x, ids !! i = Some a → xs !! i = Some x → ∃ id, a = u64 id ∧ (x, id) ∈ es ∧ id ≠ 0 ∧ Z.abs id < 2 ^ 63).
  { intros i a x Ha Hx. destruct (Forall2_lookup_lr _ _ _ _ _ _ Hids Ha Hx) as (id&->&Hin). exists id. split_and!; [done|done|..]; by eapply registered_range. }
  eexists ids, _, ss, st. split; [exact E|]. split_and!.
  - by rewrite (Forall2_length _ _ _ Hids), (Forall2_length _ _ _ Hreqs).
  - intros i j a b x y Ha Hx Hb Hy. destruct (Hat i a x Ha Hx) as (id&->&Hin&_&Hid), (Hat j b y Hb Hy) as (id'&->&Hin'&_&Hid'). split.
    + intros Eu. apply u64_inj in Eu as <-; [|done|done]. by eapply series_of_id.
    + intros <-. f_equal. by eapply id_of_series.
  - intros i a x Ha Hx. destruct (Hat i a x Ha Hx) as (id&->&Hin&Hz&Hid). rewrite i64_u64 by done. split_and!.
    + by apply u64_nonzero.
    + apply (no_columns _ _ _ Hst). by exists x, id.
    + by eapply match_ok.
    + by eapply id2str_ok.
  - rewrite <- list_fmap_compose. assert (Hnd : NoDup (u64 <$> es.*2)).
    { pose proof (rg_ids _ _ _ Hreg) as Hi. pose proof (rg_range _ _ _ Hreg) as Hr. clear -Hi Hr. induction es as [|[x id] es IH]; [constructor|].
      apply NoDup_cons in Hi as [Hn Hi]. apply Forall_cons in Hr as [[_ Hid] Hr]. rewrite !fmap_cons. apply NoDup_cons. split; [|by apply IH].
      intros (i&Ei&Hin)%list_elem_of_fmap. apply Hn. simpl in *. enough (id = i) as -> by done. apply u64_inj; [done| |done].
      apply list_elem_of_fmap in Hin as ([y i']&->&Hy). rewrite Forall_forall in Hr. apply (Hr _ Hy). }
    rewrite <- list_fmap_compose in Hnd. exact Hnd.
  - intros r. rewrite list_elem_of_fmap. split.
    + intros ([x id]&->&Hin). assert (Hx : x ∈ xs) by (apply Hxs, elem_fst; by exists id). apply list_elem_of_lookup in Hx as (i&Hi).
      destruct (Forall2_lookup_r _ _ _ _ _ Hids Hi) as (a&Ha&id'&->&Hin'). exists i, (u64 id'), x. split_and!; [done|done|].
      unfold name_row. simpl. by rewrite (id_of_series _ _ _ _ _ _ Hreg Hin Hin').
    + intros (i&a&x&Ha&Hx&->). destruct (Hat i a x Ha Hx) as (id&->&Hin&_). exists (x, id). split; [done|done].
Qed.

(** ** Searching *)

Lemma search_names m es k ses q :
  registered k m es → ix_holds k (sm_index m) ses → parts <$> ses = es.*1 → query_ok ses q →
  ∃ found, SMatcher.search q m = Some found ∧ ∀ s id, (s, id) ∈ found ↔ ∃ e, e ∈ ses ∧ matches q e ∧ s = name_of e ∧ (parts e, id) ∈ es.
Proof.
  intros Hreg Hix Eses Hq. unfold SMatcher.search. destruct (query_finds k (sm_index m) ses Hix q Hq) as (r&->&Hr).
  destruct (finds_names k (sm_index m) ses Hix r _ Hr) as (l&_&Hl&_&Hn). cbn [mbind option_bind]. rewrite Hn. cbn [mbind option_bind].
  assert (Hall : ∀ e, e ∈ l → ∃ id, (parts e, id) ∈ es).
  { intros e [He _]%Hl. apply elem_fst. rewrite <- Eses. apply list_elem_of_fmap. by exists e. }
  assert (∃ found, mapM (λ s, id ← sm_table m !! s; Some (s, id)) (name_of <$> l) = Some found ∧
    ∀ s id, (s, id) ∈ found ↔ ∃ e, e ∈ l ∧ s = name_of e ∧ (parts e, id) ∈ es) as (found&->&Hf).
  { clear -Hall Hreg. induction l as [|e l IH]; [exists []; split; [done|]; intros s id; split; [by intros ?%not_elem_of_nil|intros (e&He&_); by apply not_elem_of_nil in He]|].
    destruct IH as (found&E&Hf); [intros e' He'; apply Hall; by right|]. destruct (Hall e ltac:(by left)) as (id&Hin). rewrite fmap_cons. cbn [mapM].
    rewrite (proj2 (rg_table _ _ _ Hreg (name_of e) id)) by (by exists (parts e)). cbn [mbind option_bind]. rewrite E. cbn [mbind option_bind].
    exists ((name_of e, id) :: found). split; [done|]. intros s i. rewrite elem_of_cons, Hf. split.
    - intros [[= -> ->]|(e'&He'&?&?)]; [exists e; split_and!; [by left|done|done]|exists e'; split_and!; [by right|done|done]].
    - intros (e'&[->|He']%elem_of_cons&->&Hin'); [left; f_equal; by eapply id_of_series|right; by exists e']. }
  exists found. split; [done|]. intros s id. rewrite Hf. split.
  - intros (e&[He Hm]%Hl&->&Hin). by exists e.
  - intros (e&He&Hm&->&Hin). exists e. split_and!; [by apply Hl|done|done].
Qed.


(** ** Recovery *)

(** The series [es0], some of [es], are known again. *)
Record recovering (k : nat) st (es es0 : list (series_key * Z)) : Prop := {
  rc_registered : registered k (nm_matcher st) es0;
  rc_part e : e ∈ es0 → e ∈ es;
  rc_columns id : has_column id (nm_columns st) ↔ ∃ x i, (x, i) ∈ es0 ∧ id = u64 i;
}.

Lemma visit_name_ok k r m es es0 kk x id :
  recovering (S k) (rv_names r) es es0 → registered kk m es → (x, id) ∈ es → named (cname x) x →
  ∃ r' es1, visit_name (u64 id) (cname x) r = Some r' ∧ recovering k (rv_names r') es es1 ∧ (x, id) ∈ es1 ∧ ∀ e, e ∈ es0 → e ∈ es1.
Proof.
  intros [Hreg Hpart Hcol] Hes Hin Hn. destruct (registered_range _ _ _ _ _ Hes Hin) as [Hz Hid]. unfold visit_name. rewrite i64_u64 by done.
  destruct (decide (id ∈ es0.*2)) as [(y&Hy)%elem_snd|Hnew].
  - rewrite (id2str_ok _ _ _ _ _ Hreg Hy), decide_True by (eapply cname_ne, registered_ok; [exact Hreg|exact Hy]).
    assert (y = x) as -> by (eapply (series_of_id kk m es); [done|by apply Hpart|done]).
    exists r, es0. split_and!; [done|constructor; [by apply registered_weaken|done|done]|done|done].
  - rewrite (id2str_new _ _ _ _ Hreg Hnew). rewrite decide_False by (intros Hx; by apply Hx).
    assert (Hx : x ∉ es0.*1) by (intros (i&Hi)%elem_fst; rewrite (id_of_series _ _ _ _ _ _ Hes Hin (Hpart _ Hi)) in Hnew; apply Hnew, elem_snd; by exists x).
    rewrite (match_new _ _ _ _ Hreg (proj2 Hn) Hx). rewrite decide_True by done. unfold SMatcher._add_string. rewrite decide_False by (apply cname_ne, Hn).
    unfold SMatcher._add. destruct (register_ok k _ es0 x id Hreg Hn Hx Hnew Hz Hid) as (index&->&Hreg'). cbn [mbind option_bind].
    destruct (columns_create (u64 id) (nm_columns (rv_names r))) as (c'&->&Hc').
    { intros (y&i&Hy&E)%Hcol. apply u64_inj in E as <-; [|done|apply (registered_range _ _ _ _ _ Hreg Hy)]. apply Hnew, elem_snd. by exists y. }
    cbn [mbind option_bind]. eexists _, (es0 ++ [(x, id)]). split; [reflexivity|]. split_and!.
    + constructor; simpl; [apply Hreg'|intros e [He| ->%list_elem_of_singleton]%elem_of_app; [by apply Hpart|done]|].
      intros j. rewrite Hc', Hcol. split.
      * intros [->|(y&i&Hy&->)]; [exists x, id; split; [apply elem_of_app; right; by left|done]|exists y, i; split; [apply elem_of_app; by left|done]].
      * intros (y&i&[Hy|Hy]%elem_of_app&->); [right; by exists y, i|]. apply list_elem_of_singleton in Hy. injection Hy as _ <-. by left.
    + apply elem_of_app. right. by left.
    + intros e He. apply elem_of_app. by left.
Qed.

(** Rows of points and of rescue points may be among those of names. *)
Definition name_rows_of (rows : list InputLogRow) (es : list (series_key * Z)) : Prop :=
  Forall (λ r, ∀ s, row_payload r = InputLogSeriesName s → ∃ x id, (x, id) ∈ es ∧ r = name_row x id) rows.

Lemma visit_rows_ok rows top r m es es0 kk k :
  recovering (length rows + k) (rv_names r) es es0 → registered kk m es → Forall (λ e, named (cname e.1) e.1) es → name_rows_of rows es →
  ∃ r' es1, visit_rows top rows r = Some r' ∧ recovering k (rv_names r') es es1 ∧ (∀ e, e ∈ es0 → e ∈ es1) ∧
    ∀ x id, name_row x id ∈ rows → (x, id) ∈ es → (x, id) ∈ es1.
Proof.
  intros Hr Hes Hn Hrows. revert r es0 Hr. induction Hrows as [|row rows Hrow _ IH]; intros r es0 Hr.
  { exists r, es0. split_and!; [done|done|done|]. intros x id Hx. by apply not_elem_of_nil in Hx. }
  simpl length in Hr. cbn [visit_rows].
  assert (∃ r1 es1, visit top row r = Some r1 ∧ recovering (length rows + k) (rv_names r1) es es1 ∧ (∀ e, e ∈ es0 → e ∈ es1) ∧
    ∀ x id, row = name_row x id → (x, id) ∈ es → (x, id) ∈ es1) as (r1&es1&->&Hr1&Hsub1&Hin1).
  { assert (Hweak : recovering (length rows + k) (rv_names r) es es0) by (destruct Hr; constructor; [by apply registered_weaken|done|done]).
    unfold visit. destruct (row_payload row) as [ts v|s|data] eqn:Ep.
    - exists r, es0. split_and!; [done|done|done|]. intros x id ->. done.
    - destruct (Hrow s eq_refl) as (x&id&Hin&->). injection Ep as <-. rewrite Forall_forall in Hn.
      destruct (visit_name_ok (length rows + k) r m es es0 kk x id Hr Hes Hin (Hn _ Hin)) as (r1&es1&E&Hr1&Hin1&Hsub). exists r1, es1. split_and!; [exact E|done|done|].
      intros y i [= Eu Ec] Hy. apply u64_inj in Eu as <-; [|by eapply registered_range..]. by rewrite <- (series_of_id _ _ _ _ _ _ Hes Hin Hy).
    - eexists _, es0. split; [reflexivity|]. split_and!; [|done|intros x id ->; done]. unfold visit_rescue. case_decide; [done|]. destruct (match rv_mapping r !! row_id row with Some _ => _ | None => _ end); [destruct Hweak; by constructor|done]. }
  cbn [mbind option_bind]. destruct (IH r1 es1 Hr1) as (r2&es2&->&Hr2&Hsub2&Hin2). exists r2, es2. split_and!; [done|done|intros e He; by apply Hsub2, Hsub1|].
  intros x id [<-|Hx]%elem_of_cons Hin; [apply Hsub2; by apply Hin1|by apply Hin2].
Qed.

(** C19: names are recovered from the log.  From the rows of the log, in any order,
    with repetitions and among rows of other kinds, a new database gets every series
    back under its id, with its column. *)
Theorem series_recovered n reqs xs c :
  Forall2 (λ r x, (r.1 < n)%nat ∧ request r.2 x) reqs xs → Z.of_nat (length reqs) < 2 ^ 32 → (∀ id, ¬ has_column id c) →
  ∃ ids rows ss st, run_requests reqs (replicate n new_session) (new_names c) = Some (ids, rows, ss, st) ∧
    ∀ top mapping log, Z.of_nat (length log) < 2 ^ 32 → (∀ r, r ∈ rows → r ∈ log) →
      (∀ r s, r ∈ log → row_payload r = InputLogSeriesName s → r ∈ rows) →
      ∃ rv, visit_rows top log (mkRecovery (new_names c) mapping []) = Some rv ∧
        ∀ i a x, ids !! i = Some a → xs !! i = Some x → has_column a (nm_columns (rv_names rv)) ∧
          SMatcher.match_ (cname x) (nm_matcher (rv_names rv)) = i64 a ∧ SMatcher.id2str (i64 a) (nm_matcher (rv_names rv)) = cname x.
Proof.
  intros Hreqs Hlen Hc. destruct (run_new_ok n reqs xs c Hreqs Hlen Hc) as (ids&ss&st&es&E&Hst&_&Hids&Hxs).
  pose proof (no_registered _ _ _ Hst) as Hreg. eexists ids, _, ss, st. split; [exact E|]. intros top mapping log Hlog Hall Honly.
  destruct (new_names_ok (length log) c) as [Hreg0 _ _ Hcol0]; [lia|done|].
  destruct (visit_rows_ok log top (mkRecovery (new_names c) mapping []) (nm_matcher st) es [] 0 0) as (rv&es1&->&Hrv&_&Hin1).
  - rewrite Nat.add_0_r. constructor; [exact Hreg0|by intros e ?%not_elem_of_nil|exact Hcol0].
  - done.
  - apply Forall_forall. intros e He. assert (Hx : e.1 ∈ xs) by (apply Hxs, list_elem_of_fmap; by exists e). apply list_elem_of_lookup in Hx as (i&Hi).
    by destruct (Forall2_lookup_r _ _ _ _ _ Hreqs Hi) as (?&_&_&_&Hn).
  - apply Forall_forall. intros r Hr s Hs. specialize (Honly r s Hr Hs). apply list_elem_of_fmap in Honly as ([x id]&->&Hin). by exists x, id.
  - exists rv. split; [done|]. intros i a x Ha Hx. destruct (Forall2_lookup_lr _ _ _ _ _ _ Hids Ha Hx) as (id&->&Hin).
    assert (Hin' : (x, id) ∈ es1) by (apply Hin1; [|done]; apply Hall, list_elem_of_fmap; by exists (x, id)).
    rewrite i64_u64 by (apply (registered_range _ _ _ _ _ Hreg Hin)). destruct Hrv as [Hreg1 _ Hcol1]. split_and!; [apply Hcol1; by exists x, id|by eapply match_ok|by eapply id2str_ok].
Qed.

End Run.

(** ** The column store is such an interface *)

Section CStoreColumns.
Context {B : Type} `{BlockStore B} (impl : crc32c_impl_t) (at_ : nat → Z) (rounds fuel : nat).

#[export] Instance cstore_columns : Columns (ColumnStore * B) := {
  create_new_column id c := '(status, cs, bstore) ← CStore.create_new_column impl at_ rounds fuel id c.1 c.2; Some (status, (cs, bstore));
  has_column id c := is_Some (cs_columns c.1 !! id);
}.

#[export] Instance cstore_columns_laws : ColumnsLaws (ColumnStore * B).
Proof.
  constructor. intros id [cs s] Hno. cbn [create_new_column cstore_columns fst snd]. cbn [has_column cstore_columns fst] in *. unfold CStore.create_new_column.
  change (Tree.make id []) with (Some (mkList [] id 0 [] false 0)). cbn [mbind option_bind]. rewrite decide_False by done.
  change (Tree.force_init impl at_ rounds fuel (mkList [] id 0 [] false 0) s) with (Some (mkList [] id 0 [] true 0, s)). cbn [mbind option_bind].
  eexists. split; [reflexivity|]. intros j. simpl. destruct (decide (j = id)) as [->|Hne].
  - rewrite lookup_insert_eq. split; [by left|by eexists].
  - rewrite lookup_insert_ne by done. split; [by right|by intros [?|?]].
Qed.

End CStoreColumns.

(** ** Examples *)

#[local] Instance mem_columns : Columns (ColumnStore * MemStore) := cstore_columns crc32c_sw (λ _, 0) 1 31.
#[local] Instance mem_columns_laws : ColumnsLaws (ColumnStore * MemStore) := cstore_columns_laws crc32c_sw (λ _, 0) 1 31.
Definition new_store : ColumnStore * MemStore := (CStore.make, Mem.make false false).

Lemma new_store_empty id : ¬ has_column id new_store.
Proof. simpl. rewrite lookup_empty. by intros [? ?]. Qed.

Definition sample_reqs : list (nat * chars) := [(0%nat, str "cpu host=b dc=x"); (1%nat, str " mem  host=b"); (1%nat, str "cpu dc=x  host=b")].
Definition sample_keys : list series_key :=
  [(str "cpu", [str "dc=x"; str "host=b"]); (str "mem", [str "host=b"]); (str "cpu", [str "dc=x"; str "host=b"])].

Lemma sample_reqs_ok : Forall2 (λ r x, (r.1 < 2)%nat ∧ request r.2 x) sample_reqs sample_keys.
Proof.
  assert (plain_tag (str "dc=x")) by (apply (plain_tag_pair (str "dc") (str "x")); by_compute).
  assert (plain_tag (str "host=b")) by (apply (plain_tag_pair (str "host") (str "b")); by_compute).
  assert (Hok1 : series_ok (str "cpu") [str "dc=x"; str "host=b"]).
  { split_and!; [split; [discriminate|by_compute]|repeat (apply Forall_cons; split; [assumption|]); apply Forall_nil; exact I|discriminate|by_compute|by_compute]. }
  assert (Hok2 : series_ok (str "mem") [str "host=b"]).
  { split_and!; [split; [discriminate|by_compute]|repeat (apply Forall_cons; split; [assumption|]); apply Forall_nil; exact I|discriminate|by_compute|by_compute]. }
  repeat (apply Forall2_cons; split; [split; [simpl; lia|split; (split; [vm_compute; reflexivity|assumption])]|]). constructor.
Defined.

Lemma series_ids_witness : ∃ ids rows ss st,
  run_requests sample_reqs (replicate 2 new_session) (new_names new_store) = Some (ids, rows, ss, st) ∧ length ids = 3%nat ∧ NoDup (row_id <$> rows).
Proof.
  destruct (series_ids 2 sample_reqs sample_keys new_store sample_reqs_ok) as (ids&rows&ss&st&E&Hl&_&_&Hn&_); [by_compute|apply new_store_empty|].
  exists ids, rows, ss, st. exact (conj E (conj Hl Hn)).
Defined.


Lemma series_recovered_witness : ∃ ids rows ss st rv,
  run_requests sample_reqs (replicate 2 new_session) (new_names new_store) = Some (ids, rows, ss, st) ∧
  visit_rows 0 rows (mkRecovery (new_names new_store) ∅ []) = Some rv ∧
  ∀ i a x, ids !! i = Some a → sample_keys !! i = Some x → SMatcher.match_ (cname x) (nm_matcher (rv_names rv)) = i64 a.
Proof.
  destruct (series_recovered 2 sample_reqs sample_keys new_store sample_reqs_ok) as (ids&rows&ss&st&E&Hrec); [by_compute|apply new_store_empty|].
  destruct (Hrec 0 ∅ rows) as (rv&Erv&Hrv); [|done|done|exists ids, rows, ss, st, rv; split_and!; [exact E|exact Erv|intros i a x Ha Hx; apply (Hrv i a x Ha Hx)]].
  assert (Hlen : (λ r, length r.1.1.2) <$> run_requests sample_reqs (replicate 2 new_session) (new_names new_store) = Some 2%nat) by (vm_compute; reflexivity).
  rewrite E in Hlen. injection Hlen as ->. lia.
Defined.

(** Ids in the order of the first requests. *)
Example sample_ids : (λ r, r.1.1.1) <$> run_requests sample_reqs (replicate 2 new_session) (new_names new_store) = Some [1024; 1025; 1024].
Proof. vm_compute. reflexivity. Qed.

(** A name that the index does not take leaves a negative counter if it is the
    name of an event: the next series gets the id of an event. *)
Lemma event_counter_negative :
  ('(id, m) ← SMatcher.add (str "!e") (nm_matcher (new_names new_store)); '(id', _) ← SMatcher.add (str "cpu host=a") m; Some (id, id')) = Some (0, -1024).
Proof. vm_compute. reflexivity. Qed.

(** The counter does not know recovered ids: after recovery of series 1024 the
    first new series is refused, and from then on its name stands for series 1024. *)
Definition recovered_twice : option (Status * option Z) :=
  rv ← visit_rows 0 [mkRow 1024 (InputLogSeriesName (str "cpu host=a"))] (mkRecovery (new_names new_store) ∅ []);
  '(status, _, _, l, st) ← init_series_id (str "mem host=b") new_session (rv_names rv);
  '(_, paramid, _, _, _) ← init_series_id (str "mem host=b") l st;
  Some (status, paramid).
Lemma recovered_id_taken : recovered_twice = Some (kBadArg, Some 1024).
Proof. vm_compute. reflexivity. Qed.
