(* ===== verification/GroupBy.v ===== *)
(** * Grouping of series by tags

    [GroupByTag] maps the series of a query to local ids: two series share an id
    exactly if the same name is left of them. *)
From S2P Require Import Prelude Status StringPool SeriesName SeriesNameProof PList InvIndex InvIndexProof InvIndexQuery LogFrame Matcher MatcherProof MatcherRun.

Section Group.
Context (matcher : SeriesMatcher) (metrics funcs tags : list chars) (op : GroupByOpType).

(** The name that is left of an item: [None] if it has none. *)
Definition group_name (mindex : nat) (s : chars) : option (option chars) :=
  '(status, result) ← Parse.filter_tags s (list_to_set tags) (match op with GROUP => true | PIVOT => false end);
  if IsOk status then result ← GroupBy.add_func funcs mindex result; Some (Some result) else Some None.

(** The local ids are distinct numbers from 1 on, and the names have theirs. *)
Record group_ok (g : GroupByTag) (named : list (chars * Z)) : Prop := {
  gk_counter : 0 < pm_series_id (gb_local g) ∧ pm_series_id (gb_local g) ≤ 1 + Z.of_nat (length named);
  gk_range s i : pm_table (gb_local g) !! s = Some i → 0 < i < pm_series_id (gb_local g);
  gk_inj s s' i : pm_table (gb_local g) !! s = Some i → pm_table (gb_local g) !! s' = Some i → s = s';
  gk_inv s i : pm_table (gb_local g) !! s = Some i → pm_inv_table (gb_local g) !! i = Some s;
  gk_snames s : s ∈ gb_snames g ↔ is_Some (pm_table (gb_local g) !! s);
  gk_named s i : (s, i) ∈ named → is_Some (pm_table (gb_local g) !! s);
  gk_ids id a : gb_ids g !! id = Some a ↔ ∃ s i, (s, i) ∈ named ∧ id = u64 i ∧ ∃ l, pm_table (gb_local g) !! s = Some l ∧ a = u64 l;
}.

Lemma legacy_add s p : (Legacy.add s p).1 = s.
Proof. unfold Legacy.add. case_decide; by subst. Qed.

Lemma add_item_ok mindex s id g named :
  group_ok g named → u64 id ∉ (λ e, u64 e.2) <$> named → Z.of_nat (length named) < 2 ^ 62 →
  match group_name mindex s with
  | None => True
  | Some None => GroupBy.add_item funcs tags op mindex (s, id) g = Some g
  | Some (Some r) => ∃ g', GroupBy.add_item funcs tags op mindex (s, id) g = Some g' ∧ group_ok g' (named ++ [(r, id)])
  end.
Proof.
  intros [[Hc0 Hc1] Hr Hj Hv Hs Hn Hi] Hnew Hlen. unfold group_name, GroupBy.add_item. cbn [fst snd].
  destruct (Parse.filter_tags s _ _) as [[status result]|]; cbn [mbind option_bind]; [|done]. destruct (IsOk status); [|done].
  destruct (GroupBy.add_func funcs mindex result) as [r|]; cbn [mbind option_bind]; [|done].
  assert (Hids : ∀ (T : gmap chars Z) l, T !! r = Some l → (∀ s0 i, (s0, i) ∈ named → T !! s0 = pm_table (gb_local g) !! s0) → ∀ j a,
    <[u64 id := u64 l]> (gb_ids g) !! j = Some a ↔ ∃ s0 i, (s0, i) ∈ named ++ [(r, id)] ∧ j = u64 i ∧ ∃ l0, T !! s0 = Some l0 ∧ a = u64 l0).
  { intros T l HT Hold j a. destruct (decide (j = u64 id)) as [->|Hne].
    - rewrite lookup_insert_eq. split; [intros [= <-]; exists r, id; split_and!; [apply elem_of_app; right; by left|done|by exists l]|].
      intros (s0&i&[Hin|Hin]%elem_of_app&Eu&l0&E&->); [destruct Hnew; apply list_elem_of_fmap; by exists (s0, i)|].
      apply list_elem_of_singleton in Hin. injection Hin as -> ->. congruence.
    - rewrite lookup_insert_ne by done. rewrite Hi. split.
      + intros (s0&i&Hin&->&l0&E&->). exists s0, i. split_and!; [apply elem_of_app; by left|done|]. exists l0. by rewrite (Hold s0 i Hin).
      + intros (s0&i&[Hin|Hin]%elem_of_app&->&l0&E&->); [exists s0, i; split_and!; [done|done|]; exists l0; by rewrite <- (Hold s0 i Hin)|].
        apply list_elem_of_singleton in Hin. by injection Hin as _ ->. }
  destruct (decide (r ∈ gb_snames g)) as [Hin|Hout].
  - apply Hs in Hin as [l Hl]. unfold PMatcher.match_. rewrite Hl. simpl. pose proof (Hr _ _ Hl). rewrite decide_False by lia. eexists. split; [reflexivity|].
    constructor; simpl; [rewrite length_app; simpl; lia|done|done|done|done| |by apply Hids].
    intros s0 i [Hin|Hin]%elem_of_app; [by eapply Hn|]. apply list_elem_of_singleton in Hin. injection Hin as -> _. by exists l.
  - unfold PMatcher.add. pose proof (legacy_add r (pm_pool (gb_local g))) as El. destruct (Legacy.add r (pm_pool (gb_local g))) as [pstr pool]. cbn [fst] in El. subst pstr.
    set (n := pm_series_id (gb_local g)) in *. assert (Hnone : pm_table (gb_local g) !! r = None).
    { destruct (pm_table (gb_local g) !! r) eqn:E; [|done]. destruct Hout. apply Hs. by eexists. }
    eexists. split; [reflexivity|]. unfold PMatcher.id2str. cbn [pm_inv_table]. rewrite lookup_insert_eq. cbn [default]. constructor; simpl.
    + rewrite length_app. simpl. lia.
    + intros s0 i. destruct (decide (s0 = r)) as [->|Hne]; [rewrite lookup_insert_eq; intros [= <-]; lia|rewrite lookup_insert_ne by done]. intros E. pose proof (Hr _ _ E). lia.
    + intros s0 s1 i. destruct (decide (s0 = r)) as [->|H0], (decide (s1 = r)) as [->|H1]; [done|..]; rewrite ?lookup_insert_eq, ?lookup_insert_ne by done.
      * intros [= <-] E. pose proof (Hr _ _ E). lia.
      * intros E [= <-]. pose proof (Hr _ _ E). lia.
      * apply Hj.
    + intros s0 i. destruct (decide (s0 = r)) as [->|Hne]; [rewrite lookup_insert_eq; intros [= <-]; apply lookup_insert_eq|rewrite lookup_insert_ne by done].
      intros E. pose proof (Hr _ _ E). rewrite lookup_insert_ne by lia. by apply Hv.
    + intros s0. rewrite elem_of_union, elem_of_singleton, Hs. destruct (decide (s0 = r)) as [->|Hne]; [rewrite lookup_insert_eq; split; [by eexists|by left]|].
      rewrite lookup_insert_ne by done. tauto.
    + intros s0 i [Hin|Hin]%elem_of_app.
      * destruct (decide (s0 = r)) as [->|Hne]; [rewrite lookup_insert_eq; by eexists|rewrite lookup_insert_ne by done]. by eapply Hn.
      * apply list_elem_of_singleton in Hin. injection Hin as -> _. rewrite lookup_insert_eq. by eexists.
    + apply Hids; [apply lookup_insert_eq|]. intros s0 i Hin. rewrite lookup_insert_ne; [done|]. intros ->. destruct (Hn _ _ Hin). congruence.
Qed.

(** The names that are left of the items, with the ids of the items. *)
Fixpoint group_names (mindex : nat) (items : list (chars * Z)) : option (list (chars * Z)) :=
  match items with
  | [] => Some []
  | (s, id) :: items => r ← group_name mindex s; rest ← group_names mindex items; Some (match r with Some r => (r, id) :: rest | None => rest end)
  end.
Fixpoint all_group_names (mindex : nat) (rss : list (list (chars * Z))) : option (list (chars * Z)) :=
  match rss with
  | [] => Some []
  | items :: rss => a ← group_names mindex items; b ← all_group_names (S mindex) rss; Some (a ++ b)
  end.

Notation distinct_ids l := (NoDup ((λ e : chars * Z, u64 e.2) <$> l)).

Lemma add_items_ok mindex items g named more :
  group_ok g named → group_names mindex items = Some more → distinct_ids (named ++ more) → Z.of_nat (length (named ++ more)) < 2 ^ 62 →
  ∃ g', GroupBy.add_items funcs tags op mindex items g = Some g' ∧ group_ok g' (named ++ more).
Proof.
  revert g named more. induction items as [|[s id] items IH]; intros g named more Hg Hm Hnd Hlen; cbn [group_names] in Hm.
  { injection Hm as <-. rewrite app_nil_r in *. by exists g. }
  destruct (group_name mindex s) as [r|] eqn:Er; [|done]. cbn [mbind option_bind] in Hm. destruct (group_names mindex items) as [rest|] eqn:Erest; [|done].
  cbn [mbind option_bind] in Hm. injection Hm as <-. cbn [GroupBy.add_items]. destruct r as [r|].
  - pose proof (add_item_ok mindex s id g named Hg) as Hadd. rewrite Er in Hadd. rewrite length_app in Hlen. destruct Hadd as (g1&->&Hg1); [|lia|].
    { rewrite fmap_app in Hnd. apply NoDup_app in Hnd as (_&Hd&_). intros Hin. apply (Hd _ Hin). by left. }
    cbn [mbind option_bind]. destruct (IH g1 (named ++ [(r, id)]) rest Hg1 eq_refl) as (g2&->&Hg2); [by rewrite <- app_assoc|rewrite !length_app in *; simpl in *; lia|].
    exists g2. by rewrite <- app_assoc in Hg2.
  - pose proof (add_item_ok mindex s id g named Hg) as Hadd. rewrite Er in Hadd.
    destruct (decide (u64 id ∈ (λ e : chars * Z, u64 e.2) <$> named)) as [Hin|Hout].
    + assert (GroupBy.add_item funcs tags op mindex (s, id) g = Some g) as ->.
      { revert Er. unfold group_name, GroupBy.add_item. cbn [fst snd]. destruct (Parse.filter_tags s _ _) as [[st res]|]; cbn [mbind option_bind]; [|done].
        destruct (IsOk st); [|done]. by destruct (GroupBy.add_func funcs mindex res). }
      cbn [mbind option_bind]. by apply IH.
    + rewrite Hadd by (done || (rewrite length_app in Hlen; lia)). cbn [mbind option_bind]. by apply IH.
Qed.

Lemma refresh_ok rss ms mindex g named more :
  group_ok g named → Forall2 (λ metric rs, SMatcher.search (IncludeIfHasTag metric tags) matcher = Some rs) ms rss →
  all_group_names mindex rss = Some more → distinct_ids (named ++ more) → Z.of_nat (length (named ++ more)) < 2 ^ 62 →
  ∃ g', GroupBy.refresh_loop matcher funcs tags op mindex ms g = Some g' ∧ group_ok g' (named ++ more).
Proof.
  intros Hg Hs. revert mindex g named more Hg. induction Hs as [|metric rs ms rss Hsearch _ IH]; intros mindex g named more Hg Hm Hnd Hlen; cbn [all_group_names] in Hm.
  { injection Hm as <-. rewrite app_nil_r. by exists g. }
  destruct (group_names mindex rs) as [a|] eqn:Ea; [|done]. cbn [mbind option_bind] in Hm. destruct (all_group_names (S mindex) rss) as [b|] eqn:Eb; [|done].
  cbn [mbind option_bind] in Hm. injection Hm as <-. cbn [GroupBy.refresh_loop]. rewrite Hsearch. cbn [mbind option_bind]. rewrite app_assoc in Hnd, Hlen.
  destruct (add_items_ok mindex rs g named a Hg Ea) as (g1&->&Hg1); [|rewrite !length_app in *; lia|].
  { rewrite fmap_app in Hnd. by apply NoDup_app in Hnd as (?&_&_). }
  cbn [mbind option_bind]. destruct (IH (S mindex) g1 (named ++ a) b Hg1 Eb Hnd Hlen) as (g2&->&Hg2). exists g2. by rewrite app_assoc.
Qed.

(** *** The names that are left

    Of a series, given by its metric and its tags, [GROUP] keeps the tags that are
    not named and [PIVOT] those that are; the name of the function joins the
    metric; nothing is left of a series without a tag to keep. *)
Definition kept (σ : list chars) : list chars :=
  match op with GROUP => filter (λ t, pkey t ∉ tags) σ | PIVOT => filter (λ t, pkey t ∈ tags) σ end.
Definition group_metric (mindex : nat) (m : chars) : chars :=
  match funcs !! mindex with Some f => m ++ [58] ++ f | None => m end.
Definition left_of (mindex : nat) (e : series_key * Z) : list (chars * Z) :=
  match kept e.1.2 with [] => [] | _ => [(canon (group_metric mindex e.1.1) (kept e.1.2), e.2)] end.
Fixpoint all_left (mindex : nat) (rss : list (list (series_key * Z))) : list (chars * Z) :=
  match rss with [] => [] | rs :: rss => (rs ≫= left_of mindex) ++ all_left (S mindex) rss end.

(** Series as they are found: the metric has no space, the keys no blank. *)
Definition item_ok (e : series_key * Z) : Prop :=
  part e.1.1 ∧ SPACE ∉ e.1.1 ∧ Forall (λ t, ∃ kv, t = tag_text kv ∧ tag_ok kv ∧ Forall (λ c, Parse.is_space c = false) kv.1) e.1.2 ∧
    e.1.2 ≠ [] ∧ (length e.1.2 ≤ Parse.LIMITS_MAX_TAGS)%nat.
Definition text (e : series_key * Z) : chars * Z := (cname e.1, e.2).

Notation all_text rss := ((λ rs : list (series_key * Z), text <$> rs) <$> rss).

Lemma tag_name_ok kv : tag_ok kv → Forall (λ c, Parse.is_space c = false) kv.1 → Parse.get_tag_name (tag_text kv) = pkey (tag_text kv).
Proof.
  intros (Hk&_) Hs. unfold tag_text, Parse.get_tag_name. rewrite pkey_text by done.
  assert (Parse.name_loop (kv.1 ++ EQ :: kv.2) = Some kv.1) as ->; [|done].
  induction Hs as [|c k Hc Hs IH]; [done|]. apply not_elem_of_cons in Hk as [Hce Hk]. simpl. rewrite decide_False by done. by rewrite Hc, IH.
Qed.

Lemma filter_loop_ok fuel kv kvs S inv n error out :
  Forall (λ kv, tag_ok kv ∧ Forall (λ c, Parse.is_space c = false) kv.1) (kv :: kvs) →
  (n + length (kv :: kvs) ≤ Parse.LIMITS_MAX_TAGS)%nat → (length (kv :: kvs) < fuel)%nat →
  let K := filter (λ t, xorb inv (bool_decide (pkey t ∈ S)) = true) (tag_text <$> kv :: kvs) in
  Parse.filter_loop fuel (tag_text kv ++ rest (tag_text <$> kvs)) S inv n error out = Some ((n + length K)%nat, false, out ++ rest K).
Proof.
  revert kv kvs n error out. induction fuel as [|fuel IH]; intros kv kvs n error out Hok Hn Hf; [simpl in Hf; lia|]. cbn zeta.
  apply Forall_cons in Hok as [[Ht Hs] Hok]. cbn [Parse.filter_loop].
  rewrite decide_True by (split; [destruct Ht as (_&_&(c&q&->&_)&_); done|simpl in Hn; lia]).
  rewrite (skip_tag_ok kv _ Ht) by apply rest_boundary. cbn iota beta. rewrite (tag_name_ok kv Ht Hs).
  rewrite fmap_cons, filter_cons. destruct kvs as [|kv' kvs].
  - destruct fuel as [|fuel]; [simpl in Hf; lia|]. cbn [fmap list_fmap rest concat Parse.skip_space Parse.filter_loop].
    rewrite decide_False by (by intros [? _]). destruct (xorb _ _); [rewrite (decide_True (P := true = true)) by done|rewrite (decide_False (P := false = true)) by done];
      unfold rest; simpl; rewrite ?app_nil_r; do 3 f_equal; lia.
  - assert (Hnext : Parse.skip_space (rest (tag_text <$> kv' :: kvs)) = tag_text kv' ++ rest (tag_text <$> kvs)).
    { apply Forall_cons in Hok as [[(_&_&Hp&_) _] _]. rewrite fmap_cons. unfold rest. rewrite fmap_cons. cbn [concat app]. change (SPACE :: tag_text ?k ++ ?r) with ([SPACE] ++ tag_text k ++ r).
      rewrite skip_space_blanks by (by repeat constructor). by apply skip_space_part. }
    rewrite Hnext. rewrite IH; [|done|cbn [length] in *; destruct (xorb inv (bool_decide (pkey (tag_text kv) ∈ S))); lia|cbn [length] in *; lia]. cbn zeta.
    destruct (xorb _ _); [rewrite (decide_True (P := true = true)) by done|rewrite (decide_False (P := false = true)) by done]; [|done].
    cbn [length]. do 2 f_equal; [f_equal; lia|]. unfold rest. rewrite fmap_cons. cbn [concat]. by rewrite <- app_assoc.
Qed.

Lemma filter_tags_ok e S inv :
  item_ok e → let K := filter (λ t, xorb inv (bool_decide (pkey t ∈ S)) = true) e.1.2 in
  Parse.filter_tags (cname e.1) S inv = Some (match K with [] => (kBadData, []) | _ => (kOk, canon e.1.1 K) end).
Proof.
  destruct e as [[m σ] id]. unfold item_ok. cbn [fst snd]. intros (Hm&_&Hσ&Hne&Hlen). cbn zeta.
  assert (∃ kvs, σ = tag_text <$> kvs ∧ Forall (λ kv, tag_ok kv ∧ Forall (λ c, Parse.is_space c = false) kv.1) kvs) as (kvs&->&Hkvs).
  { clear Hne Hlen. induction Hσ as [|t σ (kv&->&Hkv) _ (kvs&->&Hkvs)]; [by exists []|]. exists (kv :: kvs). split; [done|by constructor]. }
  destruct kvs as [|kv kvs]; [done|]. rewrite length_fmap in Hlen. unfold Parse.filter_tags. change (canon m ?s) with (m ++ rest s).
  rewrite skip_space_part, copy_until_part by (done || apply rest_boundary).
  assert (Hnext : Parse.skip_space (rest (tag_text <$> kv :: kvs)) = tag_text kv ++ rest (tag_text <$> kvs)).
  { apply Forall_cons in Hkvs as [[(_&_&Hp&_) _] _]. rewrite fmap_cons. unfold rest. rewrite fmap_cons. cbn [concat app]. change (SPACE :: tag_text ?k ++ ?r) with ([SPACE] ++ tag_text k ++ r).
      rewrite skip_space_blanks by (by repeat constructor). by apply skip_space_part. }
  rewrite Hnext. assert (Hnn : tag_text kv ++ rest (tag_text <$> kvs) ≠ []) by (apply Forall_cons in Hkvs as [[(_&_&(c&q&->&_)&_) _] _]; done).
  rewrite (decide_False (P := _ = []) _ _ Hnn). rewrite filter_loop_ok; [|done|done|].
  2:{ rewrite length_app. pose proof (length_rest (tag_text <$> kvs)) as Hl. rewrite length_fmap in Hl.
      apply Forall_cons in Hkvs as [[(_&_&(c&q&->&_)&_) _] _]. simpl. lia. }
  cbn zeta. set (K := filter _ _). cbn [mbind option_bind]. destruct K as [|u K]; [by rewrite decide_True|]. by rewrite decide_False.
Qed.

Lemma kept_filter σ : filter (λ t, xorb (match op with GROUP => true | PIVOT => false end) (bool_decide (pkey t ∈ (list_to_set tags : gset chars))) = true) σ = kept σ.
Proof.
  unfold kept. destruct op; apply list_filter_iff; intros t; case_bool_decide as Ht; rewrite elem_of_list_to_set in Ht; simpl; naive_solver.
Qed.

Lemma upto_space_ok m r : SPACE ∉ m → GroupBy.upto_space (m ++ SPACE :: r) = Some (m, SPACE :: r).
Proof.
  induction m as [|c m IH]; intros Hm; [done|]. apply not_elem_of_cons in Hm as [Hc Hm]. simpl. rewrite decide_False by done. by rewrite IH.
Qed.

Lemma group_name_ok mindex e :
  item_ok e → funcs = [] ∨ (mindex < length funcs)%nat →
  group_name mindex (cname e.1) = Some (match kept e.1.2 with [] => None | _ => Some (canon (group_metric mindex e.1.1) (kept e.1.2)) end).
Proof.
  intros He Hf. unfold group_name. rewrite filter_tags_ok by done. cbn zeta. rewrite kept_filter. destruct (kept e.1.2) as [|t K]; [done|].
  cbn [mbind option_bind IsOk]. unfold IsOk. rewrite bool_decide_eq_true_2 by done. unfold GroupBy.add_func, group_metric. case_decide as Ef.
  - by rewrite Ef, lookup_nil.
  - destruct Hf as [?|Hf]; [done|]. apply lookup_lt_is_Some in Hf as [f ->]. cbn [mbind option_bind]. unfold canon. rewrite fmap_cons. cbn [concat app].
    destruct He as (_&Hm&_). rewrite upto_space_ok by done. by rewrite <- !app_assoc.
Qed.

Lemma group_names_ok mindex rs :
  Forall item_ok rs → funcs = [] ∨ (mindex < length funcs)%nat → group_names mindex (text <$> rs) = Some (rs ≫= left_of mindex).
Proof.
  intros Hok Hf. induction Hok as [|e rs He _ IH]; [done|]. rewrite fmap_cons, bind_cons. unfold text at 1. cbn [group_names].
  rewrite group_name_ok, IH by done. cbn [mbind option_bind]. assert (Hl : left_of mindex e = match kept e.1.2 with [] => [] | _ => [(canon (group_metric mindex e.1.1) (kept e.1.2), e.2)] end) by done.
  rewrite Hl. by destruct (kept e.1.2).
Qed.

Lemma all_group_names_ok mindex rss :
  Forall (Forall item_ok) rss → funcs = [] ∨ (mindex + length rss ≤ length funcs)%nat → all_group_names mindex (all_text rss) = Some (all_left mindex rss).
Proof.
  intros Hok. revert mindex. induction Hok as [|rs rss Hrs _ IH]; intros mindex Hf; [done|]. rewrite fmap_cons. cbn [all_group_names all_left length] in *.
  rewrite group_names_ok by (done || (destruct Hf; [by left|right; lia])). cbn [mbind option_bind]. by rewrite IH by (destruct Hf; [by left|right; lia]).
Qed.

Lemma all_left_ids rss mindex : sublist ((λ e : chars * Z, u64 e.2) <$> all_left mindex rss) ((λ e : series_key * Z, u64 e.2) <$> concat rss).
Proof.
  revert mindex. induction rss as [|rs rss IH]; intros mindex; [constructor|]. cbn [all_left concat]. rewrite !fmap_app. apply sublist_app; [|done].
  induction rs as [|e rs IHr]; [constructor|]. rewrite bind_cons, fmap_app, fmap_cons. unfold left_of at 1. destruct (kept e.1.2); [by apply sublist_cons|by apply sublist_skip].
Qed.


End Group.

(** Two hosts of one data centre, grouped by data centre. *)
Definition no_hosts : SeriesMatcher := nm_matcher (new_names (C := unit) tt).
Definition hosts : SeriesMatcher :=
  default no_hosts ('(_, m) ← SMatcher.add (str "cpu dc=x host=a") no_hosts; '(_, m) ← SMatcher.add (str "cpu dc=x host=b") m;
    '(_, m) ← SMatcher.add (str "cpu dc=y host=c") m; Some m).

Definition host_series : list (series_key * Z) :=
  [((str "cpu", [str "dc=x"; str "host=a"]), 1024); ((str "cpu", [str "dc=x"; str "host=b"]), 1025); ((str "cpu", [str "dc=y"; str "host=c"]), 1026)].

Lemma plain_item m kvs id :
  bool_decide (m ≠ [] ∧ SPACE ∉ m ∧ kvs ≠ [] ∧ (length kvs ≤ 32)%nat ∧ Forall (λ c, Parse.is_space c = false) m ∧
    Forall (λ kv, kv.1 ≠ [] ∧ EQ ∉ kv.1 ∧ Forall (λ c, Parse.is_space c = false) kv.1 ∧ Forall is_u8 kv.1 ∧ word false (tag_text kv) = true) kvs) = true →
  word false m = true → item_ok ((m, tag_text <$> kvs), id).
Proof.
  intros (Hm&Hs&Hne&Hl&Hf&Hkv)%bool_decide_eq_true Hw. unfold item_ok. cbn [fst snd]. split_and!.
  - destruct m as [|c m]; [done|]. exists c, m. apply Forall_cons in Hf as [Hc _]. done.
  - done.
  - apply Forall_fmap. eapply Forall_impl; [exact Hkv|]. intros kv (Hk&He&Hb&Hu&Hwk). exists kv. split_and!; [done|split_and!; [done..| |done]|done].
    destruct kv as [[|c k] v]; [done|]. exists c, (k ++ EQ :: v). apply Forall_cons in Hb as [Hc _]. done.
  - by destruct kvs.
  - by rewrite length_fmap.
Qed.


(** One metric with two functions: both searches find the same series, and the
    local id of the second function takes the place of the first. *)
Lemma group_two_functions :
  (g ← GroupBy.make hosts [str "cpu"; str "cpu"] [str "min"; str "max"] [str "dc"] PIVOT;
   l ← gb_ids g !! 1024; Some (PMatcher.id2str (i64 l) (gb_local g), map_size (gb_ids g))) = Some (str "cpu:max dc=x", 3%nat).
Proof. vm_compute. reflexivity. Qed.
