(* ===== verification/LogReplay.v ===== *)
(** * Replaying the points of the log (storage.cc, [run_inputlog_recovery])

    The points of the log are written to the columns again; those that a column
    has are refused, and no point is added twice. *)
From stdpp Require Import sorting.
From S2P Require Import Prelude Status StringPool LogFrame ByteStream Base128 VByte DataBlock DataBlockProof IOVec Blocks Volume Crc32c BlockStoreProof MemStore Double SubtreeRef Extents TreeProof Events ColumnStore ColumnStoreProof ColumnStoreClose.

(** ** The visitor *)

Record Replay := mkReplay { rp_updated_ids : gset Z; rp_nsamples : Z; rp_nlost : Z }.

Module Replayer.
Section Replayer.
Context {B : Type} `{BlockStore B} (impl : crc32c_impl_t) (at_ : nat → Z) (rounds fuel : nat) (idfilter : gset Z).

(** Duplicates are refused until a point of the series was accepted.  The result
    says whether to proceed. *)
Definition visit_point (id ts v : Z) (r : Replay) (cs : ColumnStore) (bstore : B) : option (bool * Replay * ColumnStore * B) :=
  '(result, cs, bstore) ← CStore.recovery_write impl at_ rounds fuel (float_sample id ts v) (bool_decide (id ∈ rp_updated_ids r)) cs bstore;
  match result with
  | FAIL_BAD_VALUE => Some (false, r, cs, bstore)
  | FAIL_BAD_ID => Some (true, mkReplay (rp_updated_ids r) (rp_nsamples r) (rp_nlost r + 1), cs, bstore)
  | OK | OK_FLUSH_NEEDED => Some (true, mkReplay ({[id]} ∪ rp_updated_ids r) (rp_nsamples r + 1) (rp_nlost r), cs, bstore)
  | FAIL_LATE_WRITE => Some (true, r, cs, bstore)
  end.

Definition visit (row : InputLogRow) (r : Replay) (cs : ColumnStore) (bstore : B) : option (bool * Replay * ColumnStore * B) :=
  match row_payload row with
  | InputLogDataPoint ts v => visit_point (row_id row) ts v r cs bstore
  | InputLogSeriesName _ | InputLogRecoveryInfo _ => Some (true, r, cs, bstore)
  end.

(** The rows of one portion; the last one decides whether to proceed. *)
Fixpoint portion (rows : list InputLogRow) (proceed : bool) (r : Replay) (cs : ColumnStore) (bstore : B) : option (bool * Replay * ColumnStore * B) :=
  match rows with
  | [] => Some (proceed, r, cs, bstore)
  | row :: rows =>
    if decide (row_id row ∈ idfilter) then '(proceed, r, cs, bstore) ← visit row r cs bstore; portion rows proceed r cs bstore
    else portion rows proceed r cs bstore
  end.

(** What [read_next] delivers, portion by portion. *)
Fixpoint replay (portions : list (list InputLogRow)) (r : Replay) (cs : ColumnStore) (bstore : B) : option (Replay * ColumnStore * B) :=
  match portions with
  | [] => Some (r, cs, bstore)
  | rows :: portions =>
    '(proceed, r, cs, bstore) ← portion rows true r cs bstore;
    if proceed : bool then replay portions r cs bstore else Some (r, cs, bstore)
  end.

End Replayer.
End Replayer.

(** ** The same on the abstract store *)

Definition row_points (id : Z) (row : InputLogRow) : list point :=
  match row_payload row with InputLogDataPoint ts v => if decide (row_id row = id) then [(ts, v)] else [] | _ => [] end.
(** The points of a series in the log. *)
Definition logged (id : Z) (rows : list InputLogRow) : list point := rows ≫= row_points id.

(** The writes to the store that the rows are, and the columns after them. *)
Fixpoint replay_ops (idfilter updated : gset Z) (rows : list InputLogRow) (m : columns) : list store_op * columns :=
  match rows with
  | [] => ([], m)
  | row :: rows =>
    match row_payload row with
    | InputLogDataPoint ts v =>
      if decide (row_id row ∈ idfilter) then
        let o := Recover (bool_decide (row_id row ∈ updated)) (row_id row) ts v in
        let '(verdict, m) := spec_step o m in
        let updated := match verdict with Accepted => {[row_id row]} ∪ updated | _ => updated end in
        let '(os, m) := replay_ops idfilter updated rows m in (o :: os, m)
      else replay_ops idfilter updated rows m
    | _ => replay_ops idfilter updated rows m
    end
  end.

(** The points [l] after those of the column, [u] when one of them was accepted. *)
Fixpoint add_new (u : bool) (p l : list point) : list point :=
  match l with
  | [] => p
  | x :: l => if is_late u x.1 (last_time p) then add_new u p l else add_new true (p ++ [x]) l
  end.

Lemma replay_column idfilter updated rows m id :
  (replay_ops idfilter updated rows m).2 !! id =
  (λ p, if decide (id ∈ idfilter) then add_new (bool_decide (id ∈ updated)) p (logged id rows) else p) <$> m !! id.
Proof.
  revert updated m. induction rows as [|row rows IH]; intros updated m; cbn [replay_ops].
  { destruct (m !! id) as [p|] eqn:E; cbn [snd fmap option_fmap option_map]; rewrite E; [|done]. by destruct (decide (id ∈ idfilter)). }
  change (logged id (row :: rows)) with (row_points id row ++ logged id rows). unfold row_points.
  destruct (row_payload row) as [ts v|s|l] eqn:Ep; [|apply IH|apply IH]. destruct (decide (row_id row ∈ idfilter)) as [Hin|Hout].
  - destruct (spec_step _ m) as [verdict m1] eqn:Es. destruct (replay_ops idfilter _ rows m1) as [os m2] eqn:Er. cbn [snd].
    assert (E2 : m2 = (replay_ops idfilter (match verdict with Accepted => {[row_id row]} ∪ updated | _ => updated end) rows m1).2) by (by rewrite Er).
    rewrite E2, IH. clear E2 Er IH. cbn [spec_step] in Es. unfold spec_write in Es. destruct (decide (row_id row = id)) as [Eid|Hne].
    + rewrite Eid in *. destruct (decide (id ∈ idfilter)) as [_|?]; [|done]. cbn [app add_new fst]. destruct (m !! id) as [p|] eqn:E; [|injection Es as <- <-; by rewrite E].
      cbn [fmap option_fmap option_map]. destruct (is_late _ ts (last_time p)); injection Es as <- <-; [by rewrite E|].
      rewrite lookup_insert_eq. cbn [fmap option_fmap option_map]. do 2 f_equal. apply bool_decide_eq_true_2. set_solver.
    + cbn [app]. assert (Em : m1 !! id = m !! id) by (destruct (m !! row_id row) as [p|]; [destruct (is_late _ _ _)|]; injection Es as <- <-; [done|by apply lookup_insert_ne|done]).
      rewrite Em. assert (Eu : bool_decide (id ∈ match verdict with Accepted => {[row_id row]} ∪ updated | _ => updated end) = bool_decide (id ∈ updated)).
      { apply bool_decide_ext. destruct verdict; set_solver. }
      by rewrite Eu.
  - rewrite IH. destruct (decide (row_id row = id)) as [<-|Hne]; [|done]. by destruct (decide (row_id row ∈ idfilter)).
Qed.

(** Points in time order: those after the last one of the column are added. *)
Fixpoint drop_old (t : Z) (l : list point) : list point :=
  match l with [] => [] | x :: q => if decide (x.1 ≤ t) then drop_old t q else l end.

Lemma rising_sorted (l : list point) : StronglySorted (λ x y : point, x.1 < y.1) l → StronglySorted (λ x y : point, x.1 ≤ y.1) l.
Proof. induction 1 as [|x l _ IH Hx]; constructor; [done|]. eapply Forall_impl; [exact Hx|]. intros y ?. cbv beta in *. lia. Qed.

Lemma add_new_all p l : StronglySorted (λ x y : point, x.1 ≤ y.1) l → Forall (λ x, last_time p ≤ x.1) l → add_new true p l = p ++ l.
Proof.
  intros Hs. revert p. induction Hs as [|x l Hs IH Hx]; intros p Hl; [by rewrite app_nil_r|]. apply Forall_cons in Hl as [Hp Hl]. cbn [add_new is_late].
  rewrite bool_decide_eq_false_2 by lia. rewrite IH; [by rewrite <- app_assoc|]. by rewrite last_time_snoc.
Qed.

Lemma add_new_sorted p l : StronglySorted (λ x y : point, x.1 ≤ y.1) l → add_new false p l = p ++ drop_old (last_time p) l.
Proof.
  intros Hs. induction Hs as [|x l Hs IH Hx]; [by rewrite app_nil_r|]. cbn [add_new is_late drop_old]. destruct (decide (x.1 ≤ last_time p)) as [Hle|Hgt].
  - by rewrite bool_decide_eq_true_2.
  - rewrite bool_decide_eq_false_2 by done. rewrite add_new_all; [by rewrite <- app_assoc|done|]. by rewrite last_time_snoc.
Qed.

Lemma drop_old_prefix (p q : list point) :
  StronglySorted (λ x y : point, x.1 < y.1) (p ++ q) → (p = [] → Forall (λ x, 0 < x.1) q) → drop_old (last_time p) (p ++ q) = q.
Proof.
  intros Hs Hq. assert (Hskip : ∀ a b t, Forall (λ x : point, x.1 ≤ t) a → drop_old t (a ++ b) = drop_old t b).
  { intros a b t Ha. induction Ha as [|x a Hx _ IH]; [done|]. cbn [app drop_old]. by rewrite decide_True. }
  assert (Hhead : ∀ b t, Forall (λ x : point, t < x.1) b → drop_old t b = b).
  { intros [|x b] t Hb; [done|]. apply Forall_cons in Hb as [Hx _]. cbn [drop_old]. by rewrite decide_False by lia. }
  destruct p as [|x p _] using rev_ind; [apply Hhead, Hq; done|]. rewrite last_time_snoc. apply StronglySorted_app in Hs as (Hc&Hp&_).
  rewrite Hskip; [apply Hhead, Forall_forall; intros y Hy; apply Hc; [apply elem_of_app; right; by left|done]|].
  apply StronglySorted_app in Hp as (Hc'&_&_). apply Forall_app. split; [|constructor; [lia|constructor]].
  apply Forall_forall. intros y Hy. specialize (Hc' y x Hy ltac:(by left)). lia.
Qed.

(** ** The code does what the abstract store does *)

Section Code.
Context {B : Type} `{BlockStoreLaws B} (impl : crc32c_impl_t) `{!Crc32cImpl impl} (at_ : nat → Z) (rounds fuel : nat).
Hypothesis Hfuel : (31 ≤ fuel)%nat.

(** The points of the rows are numbers with a time. *)
Definition row_fine (row : InputLogRow) : Prop :=
  match row_payload row with InputLogDataPoint ts v => point_ok (ts, v) ∧ finite v | _ => True end.

Lemma portion_ok lk idfilter rows r k n hist w m :
  world_ok lk (418 * length rows + k) n hist w m → Forall row_fine rows → 0 ≤ n → n + Z.of_nat (length rows) ≤ 2 ^ 61 →
  ∃ r' w' hist' rs, Replayer.portion impl at_ rounds fuel idfilter rows true r (w_store w) (w_blocks w) = Some (true, r', w_store w', w_blocks w') ∧
    hist ⊆ hist' ∧ w_sessions w' = w_sessions w ∧ store_run impl at_ rounds fuel (replay_ops idfilter (rp_updated_ids r) rows m).1 w = Some (rs, w') ∧
    world_ok lk k (n + Z.of_nat (length rows)) hist' w' (replay_ops idfilter (rp_updated_ids r) rows m).2 ∧
    ∀ rest, replay_ops idfilter (rp_updated_ids r) (rows ++ rest) m =
      let '(os, m1) := replay_ops idfilter (rp_updated_ids r) rows m in let '(os', m2) := replay_ops idfilter (rp_updated_ids r') rest m1 in (os ++ os', m2).
Proof.
  intros Hw Hrows. revert r n hist w m Hw. induction Hrows as [|row rows Hrow _ IH]; intros r n hist w m Hw Hn Hmax; simpl length in *.
  { exists r, w, hist, []. rewrite Z.add_0_r. split_and!; [done|done|done|done|exact Hw|]. intros rest. cbn [app replay_ops]. by destruct (replay_ops _ _ rest m). }
  assert (Hskip : world_ok lk (418 * length rows + k) (n + 1) hist w m).
  { destruct Hw as (Hall&Hca&Hs). split_and!; [eapply columns_mono; [done| |exact Hall]; lia|exact Hca|eapply bs_weaken_le; [|exact Hs]; lia]. }
  replace (n + Z.of_nat (S (length rows))) with (n + 1 + Z.of_nat (length rows)) by lia. cbn [Replayer.portion replay_ops app]. unfold Replayer.visit, row_fine in *.
  destruct (row_payload row) as [ts v|s|l] eqn:Ep; [|destruct (decide (row_id row ∈ idfilter)); cbn [mbind option_bind]; apply IH; (exact Hskip || lia)..].
  destruct (decide (row_id row ∈ idfilter)) as [Hin|Hout]; [|apply IH; (exact Hskip || lia)].
  set (dup := bool_decide (row_id row ∈ rp_updated_ids r)). destruct Hrow as [Hx Hv].
  replace (418 * S (length rows) + k)%nat with (418 + (418 * length rows + k))%nat in Hw by lia.
  destruct (recover_step impl at_ rounds fuel Hfuel lk (418 * length rows + k) n hist w m dup (row_id row) ts v Hw Hx Hv ltac:(lia))
    as (res&w1&hist1&E1&Hag&Hsub1&Hw1&Hlen1).
  cbn [store_step] in E1. unfold Replayer.visit_point. fold dup. cbn [spec_step]. destruct (CStore.recovery_write _ _ _ _ _ _ _ _) as [[[result cs1] s1]|] eqn:Erw; [|done].
  cbn [mbind option_bind] in *. injection E1 as <- <-. cbn [w_sessions] in Hlen1. destruct (spec_write dup (row_id row) ts v m) as [verdict m1] eqn:Es. cbn [fst snd] in *.
  set (w1 := mkWorld (w_sessions w) cs1 s1) in *.
  assert (Hstep : store_step impl at_ rounds fuel (Recover dup (row_id row) ts v) w = Some (inl result, w1)) by (cbn [store_step]; by rewrite Erw).
  set (u := match verdict with Accepted => {[row_id row]} ∪ rp_updated_ids r | _ => rp_updated_ids r end).
  assert (∃ r1, (match result with
      | FAIL_BAD_VALUE => Some (false, r, cs1, s1)
      | FAIL_BAD_ID => Some (true, mkReplay (rp_updated_ids r) (rp_nsamples r) (rp_nlost r + 1), cs1, s1)
      | OK | OK_FLUSH_NEEDED => Some (true, mkReplay ({[row_id row]} ∪ rp_updated_ids r) (rp_nsamples r + 1) (rp_nlost r), cs1, s1)
      | FAIL_LATE_WRITE => Some (true, r, cs1, s1)
      end) = Some (true, r1, cs1, s1) ∧ rp_updated_ids r1 = u) as (r1&Er1&Eu).
  { destruct verdict; cbn [agrees] in Hag; [destruct Hag as [->| ->]; by eexists|subst result; by eexists|subst result; by eexists|done]. }
  rewrite Er1. cbn [mbind option_bind]. destruct (IH r1 (n + 1) hist1 w1 m1 Hw1) as (r2&w2&hist2&rs&Ep2&Hsub2&Hss&Erun&Hw2&Happ); [lia|lia|].
  cbn [w_store w_blocks] in Ep2. rewrite Eu in *. fold u.
  destruct (replay_ops idfilter u rows m1) as [os m2] eqn:Eops. cbn [fst snd] in *.
  exists r2, w2, hist2, (inl result :: rs). split_and!; [exact Ep2|by transitivity hist1|by rewrite Hss| |exact Hw2|].
  - cbn [store_run]. rewrite Hstep. cbn [mbind option_bind]. by rewrite Erun.
  - intros rest. rewrite (Happ rest). by destruct (replay_ops idfilter (rp_updated_ids r2) rest m2).
Qed.

Lemma store_run_app os os' w w1 w2 rs rs' :
  store_run impl at_ rounds fuel os w = Some (rs, w1) → store_run impl at_ rounds fuel os' w1 = Some (rs', w2) →
  store_run impl at_ rounds fuel (os ++ os') w = Some (rs ++ rs', w2).
Proof.
  revert w rs. induction os as [|o os IH]; intros w rs E E'; [by injection E as <- <-|]. cbn [app store_run] in *.
  destruct (store_step impl at_ rounds fuel o w) as [[x w0]|]; [|done]. cbn [mbind option_bind] in *.
  destruct (store_run impl at_ rounds fuel os w0) as [[xs w3]|] eqn:E0; [|done]. cbn [mbind option_bind] in E. injection E as <- ->.
  by rewrite (IH w0 xs E0 E').
Qed.

Lemma replay_ok lk idfilter portions r k n hist w m :
  world_ok lk (418 * length (concat portions) + k) n hist w m → Forall row_fine (concat portions) → 0 ≤ n → n + Z.of_nat (length (concat portions)) ≤ 2 ^ 61 →
  ∃ r' w' rs, Replayer.replay impl at_ rounds fuel idfilter portions r (w_store w) (w_blocks w) = Some (r', w_store w', w_blocks w') ∧
    store_run impl at_ rounds fuel (replay_ops idfilter (rp_updated_ids r) (concat portions) m).1 w = Some (rs, w').
Proof.
  revert r n hist w m. induction portions as [|rows portions IH]; intros r n hist w m Hw Hfine Hn Hmax; cbn [concat Replayer.replay] in *.
  { by exists r, w, []. }
  rewrite length_app in *. apply Forall_app in Hfine as [Hf1 Hf2].
  replace (418 * (length rows + length (concat portions)) + k)%nat with (418 * length rows + (418 * length (concat portions) + k))%nat in Hw by lia.
  destruct (portion_ok lk idfilter rows r _ n hist w m Hw Hf1) as (r1&w1&hist1&rs&->&_&_&Erun&Hw1&Happ); [lia|lia|]. cbn [mbind option_bind].
  destruct (IH r1 _ hist1 w1 _ Hw1 Hf2) as (r2&w2&rs2&->&Erun2); [lia|lia|]. rewrite (Happ (concat portions)).
  destruct (replay_ops idfilter (rp_updated_ids r) rows m) as [os m1]. cbn [fst snd] in *.
  destruct (replay_ops idfilter (rp_updated_ids r1) (concat portions) m1) as [os2 m2]. cbn [fst snd] in *.
  exists r2, w2, (rs ++ rs2). split; [done|]. by eapply store_run_app.
Qed.

End Code.

(** The writes of the rows are legal, and have the effect that was computed along. *)
Lemma replay_ops_ok idfilter updated rows m nsessions :
  Forall row_fine rows → Forall (op_ok nsessions) (replay_ops idfilter updated rows m).1 ∧
    (spec_run (replay_ops idfilter updated rows m).1 m).2 = (replay_ops idfilter updated rows m).2 ∧
    (length (replay_ops idfilter updated rows m).1 ≤ length rows)%nat.
Proof.
  intros Hrows. revert updated m. induction Hrows as [|row rows Hrow _ IH]; intros updated m; cbn [replay_ops length]; [split_and!; [apply Forall_nil_2|done|done]|].
  unfold row_fine in Hrow. assert (Hskip := IH updated m). destruct (row_payload row) as [ts v|s|l]; [|split_and!; [apply Hskip|apply Hskip|destruct Hskip; lia]..].
  destruct (decide (row_id row ∈ idfilter)); [|split_and!; [apply Hskip|apply Hskip|destruct Hskip; lia]].
  destruct (spec_step _ m) as [verdict m1] eqn:Es. specialize (IH (match verdict with Accepted => {[row_id row]} ∪ updated | _ => updated end) m1).
  destruct (replay_ops idfilter _ rows m1) as [os m2]. cbn [fst snd] in *. destruct IH as (H1&H2&H3). split_and!; [|..|simpl; lia].
  - apply Forall_cons. split; [exact Hrow|exact H1].
  - cbn [spec_run]. rewrite Es. destruct (spec_run os m1) as [vs m3]. exact H2.
Qed.

(** C7: replaying the log.  After any operations on a new store the points of the
    log are replayed, in portions of any sizes: the store is then the one after the
    same operations and some further writes, so that everything proved of stores
    holds of it.  A column of the filter gets the points of its series that it does
    not refuse as late, other columns stay; in particular a column that holds the
    first points of its series in the log holds all of them afterwards, if the
    times of the series rise strictly (and, for an empty column, are not 0).  A
    point with the time of the last one in the column is not recovered before a
    later one was: see [replay_loses_duplicate]. *)
Theorem log_replay {B} `{BlockStoreLaws B} impl `{!Crc32cImpl impl} at_ os nsessions idfilter portions rounds fuel (s : B) hist k :
  Forall (op_ok nsessions) os → Forall row_fine (concat portions) → Z.of_nat (length os) + Z.of_nat (length (concat portions)) ≤ 2 ^ 60 →
  bs_inv (418 * (length os + length (concat portions)) + k) s hist → (31 ≤ fuel)%nat →
  let rows := concat portions in
  let m := (spec_run os ∅).2 in
  ∃ rs w r w' os' rs', store_run impl at_ rounds fuel os (new_world nsessions s) = Some (rs, w) ∧
    Replayer.replay impl at_ rounds fuel idfilter portions (mkReplay ∅ 0 0) (w_store w) (w_blocks w) = Some (r, w_store w', w_blocks w') ∧
    Forall (op_ok nsessions) os' ∧ store_run impl at_ rounds fuel (os ++ os') (new_world nsessions s) = Some (rs', w') ∧
    let m' := (spec_run (os ++ os') ∅).2 in
    (∀ id, m' !! id = (λ p, if decide (id ∈ idfilter) then add_new false p (logged id rows) else p) <$> m !! id) ∧
    (∀ id p q, id ∈ idfilter → m !! id = Some p → logged id rows = p ++ q → StronglySorted (λ x y : point, x.1 < y.1) (p ++ q) →
      (p = [] → Forall (λ x, 0 < x.1) q) → m' !! id = Some (p ++ q)).
Proof.
  intros Ho Hfine Hlen Hs Hfuel rows m.
  replace (418 * (length os + length (concat portions)) + k)%nat with (418 * length os + (418 * length (concat portions) + k))%nat in Hs by lia.
  pose proof (new_world_ok _ _ _ nsessions Hs) as Hw.
  assert (Ho' : Forall (op_ok (length (w_sessions (new_world nsessions s)))) os) by (simpl; by rewrite length_replicate).
  destruct (run_ok impl at_ rounds fuel Hfuel true os _ 0 hist _ ∅ Hw Ho' ltac:(lia) ltac:(lia)) as (rs&w&hist'&E&_&_&Hw'). fold m in Hw'.
  destruct (replay_ok impl at_ rounds fuel Hfuel true idfilter portions (mkReplay ∅ 0 0) k _ hist' w m Hw' Hfine ltac:(lia) ltac:(lia)) as (r&w'&rs'&Er&Erun).
  cbn [rp_updated_ids] in Erun. destruct (replay_ops_ok idfilter ∅ rows m nsessions Hfine) as (Hops&Hspec&_).
  exists rs, w, r, w', (replay_ops idfilter ∅ rows m).1, (rs ++ rs'). split; [exact E|]. split; [exact Er|]. split; [exact Hops|].
  split; [by eapply store_run_app|]. cbn zeta. rewrite spec_run_app. fold m. rewrite Hspec.
  assert (Hcol : ∀ id, (replay_ops idfilter ∅ rows m).2 !! id = (λ p, if decide (id ∈ idfilter) then add_new false p (logged id rows) else p) <$> m !! id) by
    (intros id; by rewrite replay_column, bool_decide_eq_false_2 by (apply not_elem_of_empty)).
  split; [exact Hcol|]. intros id p q Hid Em El Hsort Hp. rewrite Hcol, Em. cbn [fmap option_fmap option_map]. rewrite decide_True by done.
  rewrite El, add_new_sorted, drop_old_prefix; [done|done|done|]. by apply rising_sorted.
Qed.

(** A column that holds the first of two points of the log. *)
Definition replay_sample : list (list InputLogRow) :=
  [[mkRow 1 (InputLogDataPoint 10 0); mkRow 7 (InputLogDataPoint 11 0)]; [mkRow 1 (InputLogDataPoint 20 0)]].

Lemma log_replay_witness : ∃ rs w r w' os' rs',
  store_run crc32c_sw (λ _, 0) 1 31 [Create 1; Write 0 1 10 0] (new_world 1 (Mem.make false false)) = Some (rs, w) ∧
  Replayer.replay crc32c_sw (λ _, 0) 1 31 {[1; 7]} replay_sample (mkReplay ∅ 0 0) (w_store w) (w_blocks w) = Some (r, w_store w', w_blocks w') ∧
  store_run crc32c_sw (λ _, 0) 1 31 ([Create 1; Write 0 1 10 0] ++ os') (new_world 1 (Mem.make false false)) = Some (rs', w') ∧
  (spec_run ([Create 1; Write 0 1 10 0] ++ os') ∅).2 !! 1 = Some [(10, 0); (20, 0)].
Proof.
  destruct (log_replay (B := MemStore) crc32c_sw (λ _, 0) [Create 1; Write 0 1 10 0] 1 {[1; 7]} replay_sample 1 31 (Mem.make false false) ∅ 0)
    as (rs&w&r&w'&os'&rs'&E&Er&_&Erun&_&Hpre).
  - repeat constructor; by_compute.
  - repeat (apply Forall_cons_2; [split; by_compute|]). apply Forall_nil_2.
  - by_compute.
  - split; [apply mem_make_inv; by_compute|done].
  - lia.
  - exists rs, w, r, w', os', rs'. split; [exact E|]. split; [exact Er|]. split; [exact Erun|].
    apply (Hpre 1 [(10, 0)] [(20, 0)]); [set_solver|reflexivity|reflexivity| |done].
    apply SSorted_cons; [apply SSorted_cons; constructor|constructor; [simpl; lia|constructor]].
Defined.

(** Two points with one time: the column has the first of them, the replay reads
    both and accepts none, so the second is lost. *)
Lemma replay_loses_duplicate :
  ('(_, w) ← store_run crc32c_sw (λ _, 0) 1 31 [Create 1; Write 0 1 10 0] (new_world 1 (Mem.make false false));
   '(r, _, _) ← Replayer.replay crc32c_sw (λ _, 0) 1 31 {[1]} [[mkRow 1 (InputLogDataPoint 10 0); mkRow 1 (InputLogDataPoint 10 0x3FF0000000000000)]]
     (mkReplay ∅ 0 0) (w_store w) (w_blocks w); Some (rp_nsamples r)) = Some 0 ∧
  (replay_ops {[1]} ∅ [mkRow 1 (InputLogDataPoint 10 0); mkRow 1 (InputLogDataPoint 10 0x3FF0000000000000)] {[1 := [(10, 0)]]}).2 !! 1 = Some [(10, 0)].
Proof. vm_compute. split; reflexivity. Qed.
