(* ===== verification/AggMaterialize.v ===== *)
(** * Materializers of aggregates (operators/aggregate.cc, operators/aggregate.h, tuples.h)

    Aggregating operators become samples: one value of each series
    ([AggregateMaterializer]), tuples of several functions of each aggregate series
    by series ([SeriesOrderAggregateMaterializer]) or merged by time
    ([TimeOrderAggregateMaterializer]). *)
From S2P Require Import Prelude Status ByteStream DataBlock Crc32c Volume BlockStoreProof MemStore Double SubtreeRef Operator Leaf LeafIter Superblock TreeIter TreeRead Extents Events ColumnStore Merge MergeProof MergeRun Materialize MaterializeProof.

(** [enum class AggregationFunction]. *)
Inductive AggregationFunction :=
  | FMIN | FMAX | FSUM | FCNT | FMIN_TIMESTAMP | FMAX_TIMESTAMP | FMEAN | FLAST | FFIRST | FLAST_TIMESTAMP | FFIRST_TIMESTAMP.

#[export] Instance AggregationFunction_eq_dec : EqDecision AggregationFunction.
Proof. solve_decision. Defined.

(** ** Tuples *)

Module TupleOutputUtils.

(** The bits of [float64] of a tuple: a bit per element below, their number in the
    upper six bits. *)
Definition get_flags (tup : list AggregationFunction) : Z :=
  Z.lor (u64 (u64 (Z.shiftl 1 (Z.of_nat (length tup))) - 1)) (u64 (Z.shiftl (Z.of_nat (length tup)) 58)).

(** [bitmap] is a [u32]. *)
Definition get_size_and_bitmap (value : Z) : Z * Z :=
  (u32 (Z.shiftr value 58), u32 (Z.land 0x3ffffffffffffff value)).

Definition get (res : AggregationResult) (afunc : AggregationFunction) : Z :=
  match afunc with
  | FCNT => ag_cnt res
  | FSUM => ag_sum res
  | FMIN => ag_min res
  | FMIN_TIMESTAMP => double_of_u64 (ag_mints res)
  | FMAX => ag_max res
  | FMAX_TIMESTAMP => double_of_u64 (ag_maxts res)
  | FMEAN => ddiv (ag_sum res) (ag_cnt res)
  | FLAST => ag_last res
  | FFIRST => ag_first res
  | FLAST_TIMESTAMP => double_of_u64 (ag_end res)
  | FFIRST_TIMESTAMP => double_of_u64 (ag_begin res)
  end.

Definition set_tuple (comp : list AggregationFunction) (res : AggregationResult) : list Z := get res <$> comp.

Definition get_tuple_size (tup : list AggregationFunction) : Z := SAMPLE_SIZE + 8 * Z.of_nat (length tup).

(** The marks of a tuple of one element. *)
Definition ONE_ELEMENT : Z := 0x400000000000001.

Definition is_one_element_tuple (s : Sample) : bool :=
  match sa_type s with PAYLOAD_TUPLE => bool_decide (sa_float64 s = ONE_ELEMENT) | _ => false end.

(** The assertions of the two accessors are failures. *)
Definition get_first_value (s : Sample) : option Z :=
  if is_one_element_tuple s then head (sa_data s) else None.
Definition set_first_value (s : Sample) (x : Z) : option Sample :=
  if is_one_element_tuple s then
    Some (mkSample (sa_timestamp s) (sa_paramid s) (sa_type s) (sa_size s) (sa_float64 s) (<[0%nat := x]> (sa_data s)))
  else None.

Definition copy_sample (src : Sample) (dest_size : Z) : option Sample :=
  if decide (dest_size < Z.max (sa_size src) SAMPLE_SIZE) then None else Some src.

End TupleOutputUtils.

(** ** One value of each series *)

Record AggregateMaterializer (It : Type) := mkAggMat {
  am_iters : list It;
  am_ids : list Z;
  am_pos : nat;
  am_func : list AggregationFunction;
}.
Arguments mkAggMat {It}.
Arguments am_iters {It}.
Arguments am_ids {It}.
Arguments am_pos {It}.
Arguments am_func {It}.

Module AggMat.
Section AggMat.
Context {It : Type} `{SeriesOperator It AggregationResult}.

(** What [float64] of the local sample holds before it is assigned, per
    series. *)
Variable garbage : nat → Z.

Definition make (ids : list Z) (it : list It) (func : list AggregationFunction) : AggregateMaterializer It := mkAggMat it ids 0 func.

(** The [switch]: timestamp, type and value of the sample. *)
Definition component (fun_ : AggregationFunction) (destval : AggregationResult) (old : Z) : Z * PayloadType * Z :=
  match fun_ with
  | FMIN => (ag_mints destval, PAYLOAD_FLOAT, ag_min destval)
  | FMIN_TIMESTAMP => (ag_mints destval, PAYLOAD_FLOAT, double_of_u64 (ag_mints destval))
  | FMAX => (ag_maxts destval, PAYLOAD_FLOAT, ag_max destval)
  | FMAX_TIMESTAMP => (ag_maxts destval, PAYLOAD_FLOAT, double_of_u64 (ag_maxts destval))
  | FSUM => (ag_end destval, PAYLOAD_FLOAT, ag_sum destval)
  | FCNT => (ag_end destval, PAYLOAD_FLOAT, ag_cnt destval)
  | FMEAN => (ag_end destval, PAYLOAD_FLOAT, ddiv (ag_sum destval) (ag_cnt destval))
  | FLAST => (ag_end destval, PAYLOAD_FLOAT, ag_last destval)
  | FFIRST => (ag_begin destval, PAYLOAD_FLOAT, ag_first destval)
  | FLAST_TIMESTAMP => (ag_end destval, PAYLOAD_NONE, old)
  | FFIRST_TIMESTAMP => (ag_begin destval, PAYLOAD_NONE, old)
  end.

Definition agg_sample (id : Z) (fun_ : AggregationFunction) (old : Z) (destval : AggregationResult) : Sample :=
  let '(ts, type, value) := component fun_ destval old in mkSample ts id type SAMPLE_SIZE value [].

(** [while(pos_ < iters_.size())].  There is room for one result, so an operator
    that has more writes outside; one that has none and does not say [NoData] is
    asked again. *)
Fixpoint read_loop (rounds fuel : nat) (size : Z) (status : Status) (out : list Sample) (m : AggregateMaterializer It)
    : option (Status * list Sample * AggregateMaterializer It) :=
  match rounds with
  | O => None
  | S rounds =>
    if decide (length (am_iters m) ≤ am_pos m)%nat then Some (status, out, m) else
    it ← am_iters m !! am_pos m;
    '(status, res, it) ← so_read fuel (Z.to_nat size) it;
    let iters := <[am_pos m := it]> (am_iters m) in
    let next := mkAggMat iters (am_ids m) (am_pos m + 1) (am_func m) in
    match res with
    | [] =>
      if decide (status = kNoData) then read_loop rounds fuel size status out next
      else read_loop rounds fuel size status out (mkAggMat iters (am_ids m) (am_pos m) (am_func m))
    | [(_, destval)] =>
      id ← am_ids m !! am_pos m;
      fun_ ← am_func m !! am_pos m;
      let out := out ++ [agg_sample id fun_ (garbage (am_pos m)) destval] in
      let size := u64 (size - SAMPLE_SIZE) in
      if decide (size < SAMPLE_SIZE) then Some (status, out, next) else
      if decide (status = kNoData ∨ status = kOk) then read_loop rounds fuel size status out next
      else Some (status, out, next)
    | _ => None
    end
  end.

Definition read (rounds fuel : nat) (size : Z) (m : AggregateMaterializer It) : option (Status * list Sample * AggregateMaterializer It) :=
  read_loop rounds fuel size kNoData [] m.

End AggMat.
End AggMat.

(** ** Tuples of each series *)

Module SeriesOrderAgg.
Section SeriesOrderAgg.
Context {It : Type} `{SeriesOperator It AggregationResult}.
Variable tuple_ : list AggregationFunction.

Definition tuple_sample (id : Z) (x : Z * AggregationResult) : Sample :=
  mkSample x.1 id PAYLOAD_REGULAR_TUPLE (u16 (TupleOutputUtils.get_tuple_size tuple_)) (TupleOutputUtils.get_flags tuple_)
    (TupleOutputUtils.set_tuple tuple_ x.2).

(** [SeriesOrderAggregateMaterializer::read]; the loop is that of the chain. *)
Definition read (fuel : nat) (dest_size : Z) (m : ChainMaterializer It) : option (Status * list Sample * ChainMaterializer It) :=
  Chain.read_n tuple_sample fuel (Z.to_nat (dest_size / TupleOutputUtils.get_tuple_size tuple_)) m.

End SeriesOrderAgg.
End SeriesOrderAgg.

(** ** Tuples merged by time *)

Module TimeOrderAgg.
Section TimeOrderAgg.
Context {It : Type} `{SeriesOperator It AggregationResult}.
Variable tuple_ : list AggregationFunction.

Definition series_materializer : ColumnMaterializer (ChainMaterializer It) := SeriesOrderAgg.read tuple_.

(** A materializer of one series for each; no operator at all fails the
    assertion. *)
Definition make (ids : list Z) (it : list It) : option (MergeState (ChainMaterializer It) Sample) :=
  first ← head it;
  iters ← mapM (λ p : nat * Z, agg ← it !! p.1; Some (Chain.make [p.2] [agg])) (imap pair ids);
  Some (Merge.make_join iters (bool_decide (so_direction first = FORWARD))).

Definition read (HF HB : Type) `{Heap HF (HeapItem Sample), Heap HB (HeapItem Sample)} (rounds fuel : nat) (size : Z)
    (m : MergeState (ChainMaterializer It) Sample) : option (Status * list Sample * MergeState (ChainMaterializer It) Sample) :=
  Merge.read_join (H := series_materializer) HF HB Merge.make_tord rounds fuel size m.

End TimeOrderAgg.
End TimeOrderAgg.

(** ** Materialized aggregates

    What the materializers of aggregates deliver, for operators that keep the
    contract of aggregating operators; and an operator for which
    [AggregateMaterializer::read] does not end. *)

(** ** Marks of tuples *)

(** The marks give back the number of elements and a bit for each, as long as
    there are at most 32. *)
Lemma tuple_flags tup :
  (length tup ≤ 32)%nat →
  TupleOutputUtils.get_size_and_bitmap (TupleOutputUtils.get_flags tup) = (Z.of_nat (length tup), 2 ^ Z.of_nat (length tup) - 1).
Proof.
  intros Hl. remember (length tup) as n eqn:En. unfold TupleOutputUtils.get_size_and_bitmap, TupleOutputUtils.get_flags. rewrite <- En. clear En tup.
  do 33 (destruct n as [|n]; [vm_compute; reflexivity|]). lia.
Qed.

(** The bitmap is cut to 32 bits, though the marks have room for 58. *)
Lemma tuple_bitmap_cut :
  TupleOutputUtils.get_size_and_bitmap (TupleOutputUtils.get_flags (replicate 33 FMIN)) = (33, 2 ^ 32 - 1).
Proof. vm_compute. reflexivity. Qed.

(** ** One value of each series *)

Section AggMat.
Context {It : Type} `{SeriesOperator It AggregationResult}.
Variable garbage : nat → Z.

(** The contract of the operators of an aggregate: one result with [Ok] or none;
    an operator that says [Ok] without a result says [NoData] the next time. *)
Definition answered (it : It) (r : option AggregationResult) : Prop :=
  ∃ N st out it', (∀ fuel size, (N ≤ fuel)%nat → (0 < size)%nat → so_read fuel size it = Some (st, out, it')) ∧
    match r with
    | Some a => ∃ ts, out = [(ts, a)] ∧ st = kOk
    | None => out = [] ∧ (st = kNoData ∨ st = kOk ∧
        ∃ N it'', ∀ fuel size, (N ≤ fuel)%nat → (0 < size)%nat → so_read fuel size it' = Some (kNoData, [], it''))
    end.

(** The series of the query: id, function, result. *)
Notation result := (Z * AggregationFunction * option AggregationResult)%type.

(** A sample for each series that has a result; [i] is the position of the first
    one. *)
Fixpoint agg_samples (i : nat) (rs : list result) : list Sample :=
  match rs with
  | [] => []
  | (id, f, r) :: rs => option_list (AggMat.agg_sample id f (garbage i) <$> r) ++ agg_samples (i + 1) rs
  end.

Definition agg_has (m : AggregateMaterializer It) (ss : list Sample) : Prop :=
  ∃ rs, Forall2 (λ it r, answered it r.2) (drop (am_pos m) (am_iters m)) rs ∧ drop (am_pos m) (am_ids m) = rs.*1.*1 ∧
    drop (am_pos m) (am_func m) = rs.*1.*2 ∧ ss = agg_samples (am_pos m) rs.

(** A round that passes a series without a result. *)
Lemma agg_loop_none it m size : am_iters m !! am_pos m = Some it → answered it None → SAMPLE_SIZE ≤ size →
  ∃ N k it', ∀ rounds fuel status out, (N ≤ fuel)%nat →
    AggMat.read_loop garbage (k + rounds) fuel size status out m
    = AggMat.read_loop garbage rounds fuel size kNoData out (mkAggMat (<[am_pos m := it']> (am_iters m)) (am_ids m) (am_pos m + 1) (am_func m)).
Proof.
  intros Hit (N&st&out&it1&E&->&Hst) Hsz. assert (Hn : (0 < Z.to_nat size)%nat) by (unfold SAMPLE_SIZE in *; lia).
  pose proof (lookup_lt_Some _ _ _ Hit) as Hpos. destruct Hst as [->|(->&N2&it2&E2)].
  - exists N, 1%nat, it1. intros rounds fuel status out' Hf. cbn [Nat.add AggMat.read_loop].
    rewrite decide_False by lia. rewrite Hit. cbn [mbind option_bind]. rewrite E by done. cbn [mbind option_bind]. by rewrite decide_True.
  - exists (N + N2)%nat, 2%nat, it2. intros rounds fuel status out' Hf. cbn [Nat.add AggMat.read_loop].
    rewrite decide_False by lia. rewrite Hit. cbn [mbind option_bind]. rewrite E by (done || lia). cbn [mbind option_bind].
    rewrite decide_False by done. cbn [am_iters am_pos am_ids am_func]. rewrite decide_False by (rewrite length_insert; lia).
    rewrite list_lookup_insert_eq by lia. cbn [mbind option_bind]. rewrite E2 by (done || lia). cbn [mbind option_bind].
    rewrite decide_True by done. by rewrite list_insert_insert_eq.
Qed.

Lemma agg_loop_ok rs m size status out :
  Forall2 (λ it r, answered it r.2) (drop (am_pos m) (am_iters m)) rs → drop (am_pos m) (am_ids m) = rs.*1.*1 →
  drop (am_pos m) (am_func m) = rs.*1.*2 → SAMPLE_SIZE ≤ size < 2 ^ 64 → (status = kNoData ∨ status = kOk ∧ out ≠ []) →
  ∃ N st more m', (∀ rounds fuel, (N ≤ rounds)%nat → (N ≤ fuel)%nat →
      AggMat.read_loop garbage rounds fuel size status out m = Some (st, out ++ more, m')) ∧
    ∃ rest, agg_samples (am_pos m) rs = more ++ rest ∧ agg_has m' rest ∧ (st = kOk ∧ out ++ more ≠ [] ∨ st = kNoData ∧ rest = []).
Proof.
  revert m size status out. induction rs as [|[[id f] r] rs IH]; intros m size status out Hall Hids Hfn Hsz Hst.
  { apply Forall2_nil_inv_r in Hall as Hd. assert (Hend : (length (am_iters m) ≤ am_pos m)%nat).
    { apply (f_equal length) in Hd. rewrite length_drop in Hd. simpl in Hd. lia. }
    exists 1%nat, status, [], m. rewrite app_nil_r. split; [intros [|rounds] fuel Hr Hf; [lia|]; cbn [AggMat.read_loop]; by rewrite decide_True|].
    exists []. split; [done|]. split; [exists []; by rewrite Hd|]. destruct Hst as [?|?]; [by right|by left]. }
  apply Forall2_cons_inv_r in Hall as (it&its&Hit&Hall&Edr). apply drop_cons_inv in Edr as [Eit Edr].
  simpl in Hids, Hfn. apply drop_cons_inv in Hids as [Eid Hids]. apply drop_cons_inv in Hfn as [Efn Hfn].
  pose proof (lookup_lt_Some _ _ _ Eit) as Hpos. cbn [snd] in Hit.
  assert (Hnext : ∀ it', Forall2 (λ it r, answered it r.2) (drop (am_pos m + 1) (<[am_pos m := it']> (am_iters m))) rs).
  { intros it'. rewrite drop_insert_lt by lia. by rewrite Edr. }
  destruct r as [a|].
  - destruct Hit as (N1&st1&out1&it'&E&ts&->&->).
    set (m1 := mkAggMat (<[am_pos m := it']> (am_iters m)) (am_ids m) (am_pos m + 1) (am_func m)).
    set (smp := AggMat.agg_sample id f (garbage (am_pos m)) a).
    assert (Hstep : ∀ rounds fuel, (N1 ≤ fuel)%nat → AggMat.read_loop garbage (S rounds) fuel size status out m =
      if decide (u64 (size - SAMPLE_SIZE) < SAMPLE_SIZE) then Some (kOk, out ++ [smp], m1)
      else AggMat.read_loop garbage rounds fuel (u64 (size - SAMPLE_SIZE)) kOk (out ++ [smp]) m1).
    { intros rounds fuel Hf. cbn [AggMat.read_loop]. rewrite decide_False by lia. rewrite Eit. cbn [mbind option_bind].
      rewrite E by (done || unfold SAMPLE_SIZE in *; lia). cbn [mbind option_bind]. rewrite Eid. cbn [mbind option_bind]. rewrite Efn.
      cbn [mbind option_bind]. case_decide; [done|]. by rewrite decide_True by (by right). }
    assert (Hu : u64 (size - SAMPLE_SIZE) = size - SAMPLE_SIZE) by (apply u64_id; unfold is_u64, SAMPLE_SIZE in *; lia).
    rewrite Hu in Hstep. destruct (decide (size - SAMPLE_SIZE < SAMPLE_SIZE)) as [Hfull|Hroom].
    + exists (S N1), kOk, [smp], m1. split; [intros [|rounds] fuel Hr Hf; [lia|]; apply Hstep; lia|].
      exists (agg_samples (am_pos m + 1) rs). split; [done|]. split; [exists rs; cbn [m1 am_iters am_pos am_ids am_func]; split_and!; [apply Hnext|exact Hids|exact Hfn|done]|]. left. split; [done|]. by destruct out.
    + destruct (IH m1 (size - SAMPLE_SIZE) kOk (out ++ [smp])) as (N2&st&more&m'&E2&rest&Hr&Hm'&Hs);
        [apply Hnext|exact Hids|exact Hfn|unfold SAMPLE_SIZE in *; lia|right; split; [done|by destruct out]|].
      exists (S (N1 + N2)), st, (smp :: more), m'. split.
      * intros [|rounds] fuel Hr' Hf; [lia|]. rewrite Hstep by lia. rewrite E2 by lia. by rewrite <- app_assoc.
      * exists rest. split; [cbn [agg_samples]; simpl; f_equal; exact Hr|]. split; [exact Hm'|]. by rewrite <- app_assoc in Hs.
  - destruct (agg_loop_none it m size Eit Hit ltac:(lia)) as (N1&k&it'&E1).
    destruct (IH (mkAggMat (<[am_pos m := it']> (am_iters m)) (am_ids m) (am_pos m + 1) (am_func m)) size kNoData out)
      as (N2&st&more&m'&E2&Hr); [apply Hnext|exact Hids|exact Hfn|exact Hsz|by left|].
    exists (k + (N1 + N2))%nat, st, more, m'. split; [|exact Hr].
    intros rounds fuel Hr' Hf. replace rounds with (k + (rounds - k))%nat by lia. rewrite E1 by lia. apply E2; lia.
Qed.

Lemma agg_materializes size : SAMPLE_SIZE ≤ size < 2 ^ 64 → materializes (λ fuel, AggMat.read garbage fuel fuel size) agg_has.
Proof.
  intros Hsz m ss (rs&Hall&Hids&Hfn&->).
  destruct (agg_loop_ok rs m size kNoData [] Hall Hids Hfn Hsz (or_introl eq_refl)) as (N&st&more&m'&E&Hr).
  exists N, (st, more, m'). split; [|exact Hr]. intros fuel Hf. by apply E.
Qed.

Lemma agg_make_has iters rs :
  Forall2 (λ it r, answered it r.2) iters rs → agg_has (AggMat.make rs.*1.*1 iters rs.*1.*2) (agg_samples 0 rs).
Proof. intros Hall. by exists rs. Qed.

(** An operator that keeps failing without a result is asked again and again: no
    number of rounds is enough. *)
Lemma agg_read_stuck it st size ids func rounds fuel :
  so_read fuel (Z.to_nat size) it = Some (st, [], it) → st ≠ kNoData → AggMat.read garbage rounds fuel size (AggMat.make ids [it] func) = None.
Proof.
  intros E Hst. unfold AggMat.read, AggMat.make. generalize kNoData at 1 as status. induction rounds as [|rounds IH]; intros status; [done|].
  cbn [AggMat.read_loop am_iters am_pos length]. rewrite decide_False by lia. cbn [lookup list_lookup mbind option_bind]. rewrite E.
  cbn [mbind option_bind]. rewrite decide_False by done. apply IH.
Qed.

End AggMat.

(** ** Materializers merged by time *)

(** Columns whose elements are samples already. *)
Definition lift {V} (emit : Z → Z * V → Sample) (cols : list (Z * list (Z * V))) : list (Z * list Sample) :=
  (λ p : Z * list (Z * V), (0, emit p.1 <$> p.2)) <$> cols.

Lemma lift_lookup {V} (emit : Z → Z * V → Sample) (cols : list (Z * list (Z * V))) i id s ss :
  lift emit cols !! i = Some (id, s :: ss) → ∃ id' x xs, cols !! i = Some (id', x :: xs) ∧ id = 0 ∧ s = emit id' x ∧ ss = emit id' <$> xs.
Proof.
  unfold lift. rewrite list_lookup_fmap. destruct (cols !! i) as [[id' [|x xs]]|]; simpl; [done| |done].
  intros [= <- <- <-]. by exists id', x, xs.
Qed.

Lemma lift_total {V} (emit : Z → Z * V → Sample) cols : total (lift emit cols) = total cols.
Proof. unfold total, lift. induction cols as [|[id xs] cols IH]; [done|]. simpl. rewrite length_fmap. f_equal. exact IH. Qed.

(** A merge of samples is a merge of what they were made from. *)
Lemma merges_lift {V} (emit : Z → Z * V → Sample) cmp cols out rems' :
  merges (λ _, Merge.make_tord) (λ _ s, s) cmp (lift emit cols) out rems' →
  ∃ cols', rems' = lift emit cols' ∧ merges (λ id x, sample_key (emit id x)) emit cmp cols out cols'.
Proof.
  intros Hm. remember (lift emit cols) as rems eqn:Er. revert cols Er.
  induction Hm as [rems|rems i id s ss out rems' Hi Hle _ IH]; intros cols ->; [exists cols; split; [done|constructor]|].
  destruct (lift_lookup _ _ _ _ _ _ Hi) as (id'&x&xs&Hc&->&->&->).
  destruct (IH (<[i := (id', xs)]> cols)) as (cols'&->&Hm'); [unfold lift; by rewrite list_fmap_insert|].
  exists cols'. split; [done|]. econstructor; [exact Hc| |exact Hm'].
  intros j id2 y ys Hj. apply (Hle j 0 (emit id2 y) (emit id2 <$> ys)). unfold lift. by rewrite list_lookup_fmap, Hj.
Qed.

Section Joined.
Context {M V HF HB : Type} `{ColumnMaterializer M, Heap HF (HeapItem Sample), Heap HB (HeapItem Sample)}.
Context `{!HeapLaws HF (HeapItem Sample) (item_cmp (TimeOrder FORWARD)), !HeapLaws HB (HeapItem Sample) (item_cmp (TimeOrder BACKWARD))}.
Variables (emit : Z → Z * V → Sample) (P : M → list Sample → Prop).

Notation fetch := (λ fuel it, cm_read fuel (Z.of_nat Merge.RANGE_SIZE * SAMPLE_SIZE) it).

Lemma merge_join_drain iters cols dir size :
  fetches fetch P → Forall2 (λ it p, P it (emit p.1 <$> p.2) ∧ p.2 ≠ []) iters cols → NoDup cols.*1 →
  Forall (λ p, in_order TimeOrder dir (emit p.1 <$> p.2)) cols → (∀ id x, sa_paramid (emit id x) = id) →
  (∀ id x, sa_size (emit id x) ≤ size) →
  ∃ N out, (∀ n fuel, (total cols < n)%nat → (N ≤ fuel)%nat →
      cm_drain (Merge.read_join HF HB Merge.make_tord fuel fuel size) n (Merge.make_join iters (bool_decide (dir = FORWARD))) = Some (out, kNoData)) ∧
    merged emit TimeOrder dir cols out.
Proof.
  intros HP Hall Hnd Hs Hid Hfit. set (fwd := bool_decide (dir = FORWARD)). set (m := Merge.make_join iters fwd).
  assert (Hmg : merging P (replicate (length iters) 0) fwd (lift emit cols) m).
  { split; [done|]. split; [done|]. right. left. split; [done|]. cbn [m Merge.make_join mm_iters]. clear - Hall.
    induction Hall as [|it p iters cols [Hit Hne] _ IH]; constructor; [|exact IH]. split; [done|]. split; [exact Hit|].
    cbn [snd]. by destruct p.2. }
  assert (Hf : Forall (fits (λ _ s, s) size) (lift emit cols)).
  { apply Forall_fmap, Forall_forall. intros p _. apply Forall_fmap, Forall_forall. intros x _. apply Hfit. }
  assert (Hfin : ∀ out rems', merges (λ _, Merge.make_tord) (λ _ s, s) (TimeOrder dir) (lift emit cols) out rems' → exhausted rems' →
    merged emit TimeOrder dir cols out).
  { intros out rems' Hm Hex. destruct (merges_lift _ _ _ _ _ Hm) as (cols'&->&Hm'). apply (merges_merged (λ id x, sample_key (emit id x)) emit TimeOrder dir cols out cols'); [done|exact Hid|exact Hm'| |exact Hnd|exact Hs].
    unfold exhausted, lift in *. rewrite Forall_fmap in Hex. eapply Forall_impl; [exact Hex|]. intros p Hp. simpl in Hp. by destruct p.2. }
  rewrite <- (lift_total emit cols).
  assert (Hrun : ∀ H' `{Heap H' (HeapItem Sample)}, HeapLaws H' (HeapItem Sample) (item_cmp (TimeOrder dir)) →
    (∀ m, mm_forward m = fwd → ∀ fuel, Merge.read_join HF HB Merge.make_tord fuel fuel size m
       = Merge.kway_merge (H := H') fetch (λ _, Merge.make_tord) (λ _ s, s) fuel fuel size m) →
    ∃ N out, (∀ n fuel, (total (lift emit cols) < n)%nat → (N ≤ fuel)%nat →
      cm_drain (Merge.read_join HF HB Merge.make_tord fuel fuel size) n m = Some (out, kNoData)) ∧ merged emit TimeOrder dir cols out).
  { intros H' HH HL Heq.
    destruct (merge_drain (H := H') fetch (λ _, Merge.make_tord) (λ _ s, s) (TimeOrder dir) P HP size _ fwd _ m Hmg Hf) as (N&out&rems'&E&Hm&Hex).
    exists N, out. split; [|by eapply Hfin]. intros n fuel Hn Hfu. rewrite <- (E n fuel Hn Hfu).
    apply (cm_drain_ext (λ m, mm_forward m = fwd)); [|intros ? ? ? ? Hm1 E1|done].
    - intros m1 Hm1. by apply Heq.
    - rewrite (Heq _ Hm1) in E1. by rewrite (kway_forward _ _ _ _ _ _ _ _ _ _ E1). }
  destruct dir.
  - apply (Hrun HF _ _). intros m1 Hm1 fuel. unfold Merge.read_join. by rewrite Hm1.
  - apply (Hrun HB _ _). intros m1 Hm1 fuel. unfold Merge.read_join. by rewrite Hm1.
Qed.

End Joined.

(** A materializer as a source of a merge. *)
Lemma materializes_fetches {M} (rd : nat → M → option (Status * list Sample * M)) Q : materializes rd Q → fetches rd Q.
Proof.
  intros HQ m ss Hm. destruct (HQ m ss Hm) as (N&[[st out] m']&E&rest&Hss&Hm'&Hst). exists N, st, out, m', rest. by split_and!.
Qed.
