(* ===== verification/QueryNodes.v ===== *)
(** * Processing nodes (query/queryprocessor_framework.cc, query/query_processing/, query/queryprocessor.cc)

    What a query does with the samples after they were read: a chain of nodes, each
    of which may change a sample, drop it, end the query or fail.  A sample is
    copied into a [MutableSample], whose components are addressed by their column.
    The last node belongs to the cursor and is an interface. *)
From stdpp Require Import gmap.
From Stdlib Require Import SpecFloat.
From S2P Require Import Prelude Status Double Operator ColumnStore Merge MergeProof MergeRun Materialize MaterializeProof AggMaterialize.

(** ** Arithmetic *)

Definition dmul (x y : Z) : Z := bits_of_sf (SFmul 53 1024 (sf_of_bits x) (sf_of_bits y)).

(** [std::abs]. *)
Definition dabs (x : Z) : Z := magnitude x.

(** 1.0 and the number of nanoseconds in a second. *)
Definition ONE : Z := double_of_u64 1.
Definition NSEC : Z := double_of_u64 1000000000.

(** ** [MutableSample] *)

Record MutableSample := mkMut {
  ms_sample : Sample;
  ms_size : Z;
  ms_bitmap : Z;  (* u32 *)
  ms_istuple : bool;
}.

(** Where a component is: the value of the sample, or an element of the data. *)
Inductive Component := Scalar | Element (offset : nat).

Module Mut.

(** [1024 + sizeof(Sample)]. *)
Definition MAX_SIZE : Z := 1024 + SAMPLE_SIZE.

Definition is_tuple (t : PayloadType) : bool := match t with PAYLOAD_TUPLE | PAYLOAD_REGULAR_TUPLE => true | _ => false end.

(** A sample that is larger than the buffer is copied past its end. *)
Definition make (source : Sample) : option MutableSample :=
  if decide (MAX_SIZE < Z.max SAMPLE_SIZE (sa_size source)) then None else
  if is_tuple (sa_type source) then
    let '(size, bitmap) := TupleOutputUtils.get_size_and_bitmap (sa_float64 source) in
    Some (mkMut source size bitmap true)
  else Some (mkMut source 1 1 false).

(** The tuple becomes one element, 0. *)
Definition collapse (m : MutableSample) : MutableSample :=
  if negb (ms_istuple m) || bool_decide (ms_size m = 1) then m else
  let s := ms_sample m in
  mkMut (mkSample (sa_timestamp s) (sa_paramid s) (sa_type s) (SAMPLE_SIZE + 8) TupleOutputUtils.ONE_ELEMENT [0]) 1 1 (ms_istuple m).

(** [64 - __builtin_clzll(value)]. *)
Definition count_ones (value : Z) : Z := if decide (value = 0) then 0 else Z.log2 value + 1.

(** [operator[]]; the inner [None] is the null pointer, the outer one a shift by
    the width of the type or more. *)
Definition index (i : Z) (m : MutableSample) : option (option Component) :=
  if ms_istuple m then
    if decide (32 ≤ i) then None else
    let bit := u32 (Z.shiftl 1 i) in
    if decide (Z.land (ms_bitmap m) bit ≠ 0) then
      Some (Some (Element (Z.to_nat (count_ones (Z.land (u32 (bit - 1)) (ms_bitmap m))))))
    else Some None
  else Some (if decide (i = 0) then Some Scalar else None).

(** Reading and writing through the pointer; past the data is nothing that was
    written. *)
Definition load (c : Component) (m : MutableSample) : option Z :=
  match c with Scalar => Some (sa_float64 (ms_sample m)) | Element o => sa_data (ms_sample m) !! o end.

Definition store (c : Component) (x : Z) (m : MutableSample) : MutableSample :=
  let s := ms_sample m in
  mkMut match c with
        | Scalar => mkSample (sa_timestamp s) (sa_paramid s) (sa_type s) (sa_size s) x (sa_data s)
        | Element o => mkSample (sa_timestamp s) (sa_paramid s) (sa_type s) (sa_size s) (sa_float64 s) (<[o := x]> (sa_data s))
        end (ms_size m) (ms_bitmap m) (ms_istuple m).

(** The value at a column, if there is one. *)
Definition get (i : Z) (m : MutableSample) : option (option Z) :=
  c ← index i m; match c with None => Some None | Some c => x ← load c m; Some (Some x) end.

Definition get_timestamp (m : MutableSample) : Z := sa_timestamp (ms_sample m).
Definition get_paramid (m : MutableSample) : Z := sa_paramid (ms_sample m).

End Mut.

(** ** Nodes *)

(** The state of a node per series and column. *)
Notation table X := (gmap (Z * Z) X) (only parsing).

Inductive MathOp := Sum | Diff | Mul | Divide.

Record EWMA := mkEWMA { ew_warmup : Z; ew_value : Z; ew_decay : Z }.
Record SMA := mkSMA { sm_capacity : nat; sm_buffer : list Z; sm_sum : Z }.
Record TopContext := mkTop { tc_last_xs : Z; tc_last_ts : Z; tc_sum : Z; tc_id : Z }.

Inductive Node :=
  | Absolute
  | Limiter (limit offset counter : Z)
  | MathOperation (op : MathOp) (ignore_missing : bool)
  | SimpleRate (table_ : table (Z * Z))
  | CumulativeSum (table_ : table Z)
  | Scale (weights : list Z)
  | EWMAPrediction (decay : Z) (delta : bool) (swind : table EWMA)
  | SMAPrediction (width : nat) (delta : bool) (swind : table SMA)
  | CMAPrediction (swind : table (Z * Z))
  | TopN (n : nat) (table_ : gmap Z TopContext)
  | FilterById (op : Z → bool).

(** What becomes of a sample: it goes to the next node, it is answered here, or
    the error goes to the next node and the query ends. *)
Inductive action := Pass (m : MutableSample) | Answer (goon : bool) | Failure (status : Status).

Module Ewma.
Definition WARMUP : Z := 10.
Definition make (decay : Z) : EWMA := mkEWMA 0 0 decay.

Definition mix (value decay old : Z) : Z := dadd (dmul value decay) (dmul old (dsub ONE decay)).

Definition add (value : Z) (e : EWMA) : EWMA :=
  if decide (ew_warmup e < WARMUP) then mkEWMA (ew_warmup e + 1) (dadd (ew_value e) value) (ew_decay e) else
  if decide (ew_warmup e = WARMUP) then
    let mean := ddiv (dadd (ew_value e) value) (double_of_u64 (ew_warmup e + 1)) in
    mkEWMA (ew_warmup e + 1) (mix value (ew_decay e) mean) (ew_decay e)
  else mkEWMA (ew_warmup e) (mix value (ew_decay e) (ew_value e)) (ew_decay e).

Definition get (default_value : Z) (e : EWMA) : Z := if decide (ew_warmup e ≤ WARMUP) then default_value else ew_value e.
End Ewma.

Module Sma.
(** [boost::circular_buffer<double>(n)] is empty and has room for [n]. *)
Definition make (n : nat) : SMA := mkSMA n [] 0.

(** The circular buffer drops its first element when it is full. *)
Definition push_back (n : nat) (l : list Z) (x : Z) : list Z :=
  if decide (n = 0)%nat then l else if decide (length l < n)%nat then l ++ [x] else tail l ++ [x].

Definition add (value : Z) (s : SMA) : SMA :=
  let '(buf, sum) := match sm_buffer s with old :: rest => (rest, dsub (sm_sum s) old) | [] => ([], sm_sum s) end in
  mkSMA (sm_capacity s) (push_back (sm_capacity s) buf value) (dadd sum value).

Definition get (s : SMA) : Z := ddiv (sm_sum s) (double_of_u64 (Z.of_nat (length (sm_buffer s)))).
End Sma.

Module QNode.

(** The loops over the components: [f] gets the column, the value and the state and
    gives the new ones. *)
Fixpoint each {T} (f : Z → Z → T → Z * T) (n : nat) (ix : Z) (t : T) (m : MutableSample) : option (MutableSample * T) :=
  match n with
  | O => Some (m, t)
  | S n =>
    c ← Mut.index ix m;
    match c with
    | None => each f n (ix + 1) t m
    | Some c => x ← Mut.load c m; let '(x, t) := f ix x t in each f n (ix + 1) t (Mut.store c x m)
    end
  end.

Definition map_values {T} (f : Z → Z → T → Z * T) (t : T) (m : MutableSample) : option (MutableSample * T) :=
  each f (Z.to_nat (ms_size m)) 0 t m.

(** [MathOperation<Op>]. *)
Definition operation (op : MathOp) (lhs rhs : Z) : Z :=
  match op with Sum => dadd lhs rhs | Diff => dsub lhs rhs | Mul => dmul lhs rhs | Divide => ddiv lhs rhs end.
Definition unit (op : MathOp) : Z := match op with Sum | Diff => 0 | Mul | Divide => ONE end.

Fixpoint fold (op : MathOp) (ignore_missing : bool) (n : nat) (ix acc : Z) (m : MutableSample) : option Z :=
  match n with
  | O => Some acc
  | S n =>
    v ← Mut.get ix m;
    let x := match v with Some x => x | None => if ignore_missing then unit op else QNAN end in
    fold op ignore_missing n (ix + 1) (operation op acc x) m
  end.

Definition math (op : MathOp) (ignore_missing : bool) (m : MutableSample) : option MutableSample :=
  acc ← fold op ignore_missing (Z.to_nat (ms_size m)) 0 (unit op) m;
  let m := Mut.collapse m in
  c ← Mut.index 0 m; c ← c; Some (Mut.store c acc m).

(** [SimpleRate::put], one value. *)
Definition rate (id newT ix newX : Z) (t : table (Z * Z)) : Z * table (Z * Z) :=
  let '(oldT, oldX) := default (0, 0) (t !! (id, ix)) in
  (dmul (ddiv (dsub newX oldX) (double_of_u64 (u64 (newT - oldT)))) NSEC, <[(id, ix) := (newT, newX)]> t).

(** [CumulativeSum::put], one value. *)
Definition cusum (id ix cur : Z) (t : table Z) : Z * table Z :=
  let sum := dadd cur (default 0 (t !! (id, ix))) in (sum, <[(id, ix) := sum]> t).

Definition ewma (decay : Z) (delta : bool) (id ix value : Z) (t : table EWMA) : Z * table EWMA :=
  let e := default (Ewma.make decay) (t !! (id, ix)) in
  let exp := Ewma.get value e in
  (if delta then dsub value exp else exp, <[(id, ix) := Ewma.add value e]> t).

Definition sma (width : nat) (delta : bool) (id ix value : Z) (t : table SMA) : Z * table SMA :=
  let s := default (Sma.make width) (t !! (id, ix)) in
  let exp := Sma.get s in
  (if delta then dsub value exp else exp, <[(id, ix) := Sma.add value s]> t).

(** [CMAPrediction::put], one value. *)
Definition cma (id ix value : Z) (t : table (Z * Z)) : Z * table (Z * Z) :=
  let '(sum, cnt) := default (0, 0) (t !! (id, ix)) in
  let sum := dadd sum value in
  let cnt := u64 (cnt + 1) in
  (ddiv sum (double_of_u64 cnt), <[(id, ix) := (dadd sum value, u64 (cnt + 1))]> t).

(** [TopN::put]. *)
Definition top (m : MutableSample) (t : gmap Z TopContext) : option (gmap Z TopContext) :=
  let ts := Mut.get_timestamp m in
  let key := Mut.get_paramid m in
  match t !! key with
  | None => Some (<[key := mkTop 0 0 0 key]> t)
  | Some ctx =>
    v ← Mut.get 0 m;
    match v with
    | None => Some t
    | Some x =>
      let delta := ddiv (double_of_u64 (u64 (ts - tc_last_ts ctx))) NSEC in
      Some (<[key := mkTop x ts (dadd (tc_sum ctx) (dmul delta (tc_last_xs ctx))) (tc_id ctx)]> t)
    end
  end.

(** The samples that [TopN::complete] makes of the contexts in their order. *)
Definition top_sample (ctx : TopContext) : Sample := mkSample (tc_last_ts ctx) (tc_id ctx) PAYLOAD_FLOAT SAMPLE_SIZE (tc_sum ctx) [].

Definition is_regular (m : MutableSample) : bool := match sa_type (ms_sample m) with PAYLOAD_REGULAR_TUPLE => true | _ => false end.
Definition is_float (m : MutableSample) : bool := match sa_type (ms_sample m) with PAYLOAD_FLOAT => true | _ => false end.

(** [put] of the nodes, up to the call of the next one. *)
Definition absolute_put (m : MutableSample) : option (action * Node) :=
  '(m, _) ← map_values (λ _ x t, (dabs x, t)) () m; Some (Pass m, Absolute).

Definition limiter_put (limit offset counter : Z) (m : MutableSample) : option (action * Node) :=
  if decide (counter < offset) then Some (Answer true, Limiter limit offset counter)
  else if decide (limit ≤ counter) then Some (Answer false, Limiter limit offset counter)
  else Some (Pass m, Limiter limit offset (u64 (counter + 1))).

Definition math_put (op : MathOp) (ignore_missing : bool) (m : MutableSample) : option (action * Node) :=
  m ← math op ignore_missing m; Some (Pass m, MathOperation op ignore_missing).

Definition rate_put (t : table (Z * Z)) (m : MutableSample) : option (action * Node) :=
  '(m, t) ← map_values (rate (Mut.get_paramid m) (Mut.get_timestamp m)) t m; Some (Pass m, SimpleRate t).

Definition cusum_put (t : table Z) (m : MutableSample) : option (action * Node) :=
  '(m, t) ← map_values (cusum (Mut.get_paramid m)) t m; Some (Pass m, CumulativeSum t).

Definition scale_put (weights : list Z) (m : MutableSample) : option (action * Node) :=
  let size := Nat.min (Z.to_nat (ms_size m)) (length weights) in
  '(m, _) ← each (λ ix x t, (dmul x (default 0 (weights !! Z.to_nat ix)), t)) size 0 () m; Some (Pass m, Scale weights).

Definition ewma_put (decay : Z) (delta : bool) (t : table EWMA) (m : MutableSample) : option (action * Node) :=
  if is_regular m then '(m, t) ← map_values (ewma decay delta (Mut.get_paramid m)) t m; Some (Pass m, EWMAPrediction decay delta t)
  else Some (Failure kRegullarExpected, EWMAPrediction decay delta t).

Definition sma_put (width : nat) (delta : bool) (t : table SMA) (m : MutableSample) : option (action * Node) :=
  if is_regular m then '(m, t) ← map_values (sma width delta (Mut.get_paramid m)) t m; Some (Pass m, SMAPrediction width delta t)
  else Some (Failure kRegullarExpected, SMAPrediction width delta t).

Definition cma_put (t : table (Z * Z)) (m : MutableSample) : option (action * Node) :=
  '(m, t) ← map_values (cma (Mut.get_paramid m)) t m; Some (Pass m, CMAPrediction t).

Definition top_put (k : nat) (t : gmap Z TopContext) (m : MutableSample) : option (action * Node) :=
  if is_float m then t ← top m t; Some (Answer true, TopN k t) else Some (Failure kHighCardinality, TopN k t).

Definition filter_put (op : Z → bool) (m : MutableSample) : option (action * Node) :=
  Some (if op (Mut.get_paramid m) then Pass m else Answer true, FilterById op).

(** [Node::put]. *)
Definition put (n : Node) : MutableSample → option (action * Node) :=
  match n with
  | Absolute => absolute_put
  | Limiter limit offset counter => limiter_put limit offset counter
  | MathOperation op ignore_missing => math_put op ignore_missing
  | SimpleRate t => rate_put t
  | CumulativeSum t => cusum_put t
  | Scale weights => scale_put weights
  | EWMAPrediction decay delta t => ewma_put decay delta t
  | SMAPrediction width delta t => sma_put width delta t
  | CMAPrediction t => cma_put t
  | TopN k t => top_put k t
  | FilterById op => filter_put op
  end.

(** The constructors of [SMAPrediction] do not set [next_]. *)
Definition has_next (n : Node) : bool := match n with SMAPrediction _ _ _ => false | _ => true end.

Definition TERMINAL : Z := 2.
Definition GROUP_BY_REQUIRED : Z := 1.
Definition get_requirements (n : Node) : Z := match n with FilterById _ => 0 | _ => TERMINAL end.

End QNode.

(** ** Chains of nodes *)

(** The last node of a query, that of the cursor. *)
Class LastNode (S : Type) := {
  ln_put : MutableSample → S → bool * S;
  ln_complete : S → S;
  ln_set_error : Status → S → S;
}.

Module Pipe.
Section Pipe.
Context {S : Type} `{LastNode S}.

(** [std::sort] of the contexts of [TopN] by their sums, the largest first: an
    unspecified one of the orders that are sorted. *)
Variable sort : list TopContext → list TopContext.

Fixpoint set_error (nodes : list Node) (status : Status) (s : S) : option S :=
  match nodes with
  | [] => Some (ln_set_error status s)
  | n :: nodes => if QNode.has_next n then set_error nodes status s else None
  end.

Fixpoint put (nodes : list Node) (m : MutableSample) (s : S) : option (bool * list Node * S) :=
  match nodes with
  | [] => let '(b, s) := ln_put m s in Some (b, [], s)
  | n :: nodes =>
    '(act, n) ← QNode.put n m;
    match act with
    | Answer b => Some (b, n :: nodes, s)
    | Pass m => if QNode.has_next n then '(b, nodes, s) ← put nodes m s; Some (b, n :: nodes, s) else None
    | Failure status => if QNode.has_next n then s ← set_error nodes status s; Some (false, n :: nodes, s) else None
    end
  end.

(** Samples one after the other, until one is refused. *)
Fixpoint put_samples (ss : list Sample) (nodes : list Node) (s : S) : option (list Node * S) :=
  match ss with
  | [] => Some (nodes, s)
  | x :: ss =>
    m ← Mut.make x;
    '(b, nodes, s) ← put nodes m s;
    if b : bool then put_samples ss nodes s else Some (nodes, s)
  end.

(** [count] is the number of nodes, which stays the same. *)
Fixpoint complete_loop (count : nat) (nodes : list Node) (s : S) : option S :=
  match count, nodes with
  | O, [] => Some (ln_complete s)
  | Datatypes.S count, n :: nodes =>
    if QNode.has_next n then
      '(nodes, s) ← match n with
                    | TopN k t => put_samples (QNode.top_sample <$> take k (sort (map_to_list t).*2)) nodes s
                    | _ => Some (nodes, s)
                    end;
      complete_loop count nodes s
    else None
  | _, _ => None
  end.

Definition complete (nodes : list Node) (s : S) : option S := complete_loop (length nodes) nodes s.

(** ** [ScanQueryProcessor] *)

(** The constructor accepts nodes with these requirements: [None] is an
    exception. *)
Definition validate (requirements : list Z) (group_by_time : bool) : option unit :=
  if decide (requirements = []) then None else
  if group_by_time && existsb (λ r, bool_decide (Z.land r QNode.GROUP_BY_REQUIRED ≠ 0)) requirements then None else
  (fix check (rs : list Z) (nnormal : nat) : option unit :=
     match rs with
     | [] => Some ()
     | r :: rs =>
       if decide (Z.land r QNode.TERMINAL ≠ 0) then if decide (nnormal ≠ 0)%nat then None else check rs nnormal
       else check rs (nnormal + 1)%nat
     end) (reverse requirements) 0%nat.

Definition processor_put (sample : Sample) (nodes : list Node) (s : S) : option (bool * list Node * S) :=
  m ← Mut.make sample; put nodes m s.

End Pipe.
End Pipe.

(** ** Processing nodes: what becomes of the values

    The components of a tuple, what the nodes make of them, and where they do
    something else than they mean to. *)

(** ** Components *)

(** A sample whose columns all have a value. *)
Definition full (m : MutableSample) (xs : list Z) : Prop :=
  if ms_istuple m then
    (length xs ≤ 32)%nat ∧ ms_size m = Z.of_nat (length xs) ∧ ms_bitmap m = 2 ^ Z.of_nat (length xs) - 1 ∧ sa_data (ms_sample m) = xs
  else ms_size m = 1 ∧ xs = [sa_float64 (ms_sample m)].

(** Where the columns are when none is missing, computed for all lengths. *)
Definition full_index (n i : nat) : bool :=
  let s := mkSample 0 0 PAYLOAD_TUPLE 0 0 [] in
  match Mut.index (Z.of_nat i) (mkMut s (Z.of_nat n) (2 ^ Z.of_nat n - 1) true) with
  | Some None => bool_decide (n ≤ i)%nat
  | Some (Some (Element o)) => bool_decide (i < n ∧ o = i)%nat
  | _ => false
  end.

Lemma full_index_all : forallb (λ n, forallb (full_index n) (seq 0 32)) (seq 0 33) = true.
Proof. vm_compute. reflexivity. Qed.

Lemma full_index_ok m xs i : ms_istuple m = true → full m xs → (i < 32)%nat →
  Mut.index (Z.of_nat i) m = Some (if decide (i < length xs)%nat then Some (Element i) else None).
Proof.
  unfold full. intros Ht Hf Hi. rewrite Ht in Hf. destruct Hf as (Hl&Hs&Hb&_).
  assert (Hx : full_index (length xs) i = true).
  { pose proof full_index_all as Ha. rewrite forallb_forall in Ha. specialize (Ha (length xs)). rewrite forallb_forall in Ha.
    apply Ha; apply in_seq; lia. }
  unfold full_index, Mut.index in *. rewrite Ht, Hb. cbn [ms_istuple ms_bitmap] in Hx. case_decide; [lia|]. case_decide.
  - apply bool_decide_eq_true in Hx as [Hi' Ho]. rewrite decide_True by exact Hi'. by rewrite Ho.
  - apply bool_decide_eq_true in Hx. by rewrite decide_False by lia.
Qed.

(** The value at a column. *)
Lemma full_get m xs i : full m xs → (i < 32)%nat → Mut.get (Z.of_nat i) m = Some (xs !! i).
Proof.
  intros Hf Hi. unfold Mut.get. destruct (ms_istuple m) eqn:Ht.
  - rewrite (full_index_ok m xs) by done. cbn [mbind option_bind]. unfold full in Hf. rewrite Ht in Hf. destruct Hf as (_&_&_&Hd).
    case_decide as Hlt; [|by rewrite lookup_ge_None_2 by lia]. cbn [Mut.load]. rewrite Hd.
    apply lookup_lt_is_Some in Hlt as [x Hx]. by rewrite Hx.
  - unfold full in Hf. rewrite Ht in Hf. destruct Hf as [_ ->]. unfold Mut.index. rewrite Ht. cbn [mbind option_bind]. case_decide as H0.
    + by replace i with 0%nat by lia.
    + destruct i; [lia|done].
Qed.

(** The values of a full sample replaced. *)
Definition put_values (xs : list Z) (m : MutableSample) : MutableSample :=
  let s := ms_sample m in
  if ms_istuple m then mkMut (mkSample (sa_timestamp s) (sa_paramid s) (sa_type s) (sa_size s) (sa_float64 s) xs) (ms_size m) (ms_bitmap m) true
  else mkMut (mkSample (sa_timestamp s) (sa_paramid s) (sa_type s) (sa_size s) (default 0 (head xs)) (sa_data s)) (ms_size m) (ms_bitmap m) false.

(** One value after the other, with the state. *)
Fixpoint map_state {T} (f : Z → Z → T → Z * T) (ix : Z) (t : T) (xs : list Z) : list Z * T :=
  match xs with
  | [] => ([], t)
  | x :: xs => let '(y, t) := f ix x t in let '(ys, t) := map_state f (ix + 1) t xs in (y :: ys, t)
  end.

Lemma each_tuple {T} (f : Z → Z → T → Z * T) done_ rest t m :
  ms_istuple m = true → full m (done_ ++ rest) →
  QNode.each f (length rest) (Z.of_nat (length done_)) t m =
    let '(ys, t') := map_state f (Z.of_nat (length done_)) t rest in Some (put_values (done_ ++ ys) m, t').
Proof.
  revert done_ t m. induction rest as [|x rest IH]; intros done_ t m Ht Hf.
  - cbn [length QNode.each map_state]. f_equal. f_equal. unfold put_values, full in *. rewrite Ht in *. destruct Hf as (_&_&_&<-).
    destruct m as [[] ? ? ?]. cbn in *. by subst.
  - cbn [length QNode.each map_state]. pose proof Hf as Hf0. unfold full in Hf0. rewrite Ht in Hf0. destruct Hf0 as (Hl&Hs&Hb&Hd).
    rewrite length_app in Hl. cbn [length] in Hl. rewrite (full_index_ok m (done_ ++ x :: rest)) by (done || lia).
    rewrite decide_True by (rewrite length_app; cbn [length]; lia). cbn [mbind option_bind Mut.load]. rewrite Hd.
    rewrite list_lookup_middle by done. cbn [mbind option_bind]. destruct (f (Z.of_nat (length done_)) x t) as [y t1].
    assert (Hst : full (Mut.store (Element (length done_)) y m) ((done_ ++ [y]) ++ rest) ∧ ms_istuple (Mut.store (Element (length done_)) y m) = true).
    { unfold full, Mut.store. cbn [ms_istuple ms_size ms_bitmap ms_sample sa_data]. rewrite Ht. split; [|done]. rewrite Hd.
      rewrite !length_app in *. cbn [length] in *. split_and!; [lia|rewrite Hs; lia|rewrite Hb; do 2 f_equal; lia|].
      rewrite insert_app_r_alt by lia. rewrite Nat.sub_diag. simpl. by rewrite <- app_assoc. }
    destruct Hst as [Hst Hti]. specialize (IH (done_ ++ [y]) t1 _ Hti Hst). rewrite length_app in IH. cbn [length] in IH.
    replace (Z.of_nat (length done_ + 1)) with (Z.of_nat (length done_) + 1) in IH by lia. rewrite IH.
    destruct (map_state f (Z.of_nat (length done_) + 1) t1 rest) as [ys t2]. f_equal. f_equal.
    unfold put_values. rewrite Hti, Ht. cbn [Mut.store ms_sample ms_size ms_bitmap sa_timestamp sa_paramid sa_type sa_size sa_float64]. by rewrite <- app_assoc.
Qed.

(** The nodes that go over the components apply their function to every value. *)
Lemma map_values_full {T} (f : Z → Z → T → Z * T) t m xs : full m xs →
  QNode.map_values f t m = let '(ys, t') := map_state f 0 t xs in Some (put_values ys m, t').
Proof.
  intros Hf. unfold QNode.map_values. destruct (ms_istuple m) eqn:Ht.
  - pose proof Hf as Hf0. unfold full in Hf0. rewrite Ht in Hf0. destruct Hf0 as (_&->&_). rewrite Nat2Z.id. by apply (each_tuple f [] xs).
  - unfold full in Hf. rewrite Ht in Hf. destruct Hf as [-> ->]. change (Z.to_nat 1) with 1%nat. cbn [QNode.each map_state].
    unfold Mut.index. rewrite Ht. cbn [mbind option_bind]. rewrite decide_True by done. cbn [Mut.load mbind option_bind].
    destruct (f 0 (sa_float64 (ms_sample m)) t) as [y t1]. unfold put_values. rewrite Ht. unfold Mut.store. cbn. by rewrite Ht.
Qed.

(** The sample of an aggregate has a value in every column. *)
Lemma tuple_full fs id (x : Z * AggregationResult) :
  (length fs ≤ 32)%nat →
  ∃ m, Mut.make (SeriesOrderAgg.tuple_sample fs id x) = Some m ∧ ms_sample m = SeriesOrderAgg.tuple_sample fs id x ∧ ms_istuple m = true ∧
    full m (TupleOutputUtils.set_tuple fs x.2).
Proof.
  intros Hl. unfold Mut.make. cbn [SeriesOrderAgg.tuple_sample sa_type sa_size sa_float64 Mut.is_tuple].
  rewrite decide_False.
  - rewrite tuple_flags by done. eexists. split; [reflexivity|]. split; [done|]. split; [done|]. unfold full. cbn [ms_istuple ms_size ms_bitmap ms_sample sa_data].
    unfold TupleOutputUtils.set_tuple. rewrite length_fmap. by split_and!.
  - unfold TupleOutputUtils.get_tuple_size, Mut.MAX_SIZE, SAMPLE_SIZE, u16. rewrite Z.mod_small by lia. lia.
Qed.

(** ** Chains *)

(** A last node that takes everything. *)
Definition recorder : LastNode (list MutableSample) := {|
  ln_put m s := (true, s ++ [m]);
  ln_complete s := s;
  ln_set_error _ s := s;
|}.

(** ** [CumulativeSum] *)

Definition is_scalar (s : Sample) : Prop := sa_type s = PAYLOAD_FLOAT ∧ sa_size s = SAMPLE_SIZE.

Lemma scalar_make s : is_scalar s → Mut.make s = Some (mkMut s 1 1 false).
Proof. intros [Ht Hs]. unfold Mut.make. rewrite Ht, Hs. by rewrite decide_False by (unfold Mut.MAX_SIZE, SAMPLE_SIZE; lia). Qed.

Definition values_of (id : Z) (ss : list Sample) : list Z := sa_float64 <$> filter (λ s, sa_paramid s = id) ss.

(** The sum in the order of the node: the newest value on the left. *)
Definition running (xs : list Z) : Z := foldl (λ acc x, dadd x acc) 0 xs.

Lemma running_snoc xs x : running (xs ++ [x]) = dadd x (running xs).
Proof. unfold running. by rewrite foldl_app. Qed.

Lemma values_snoc id ss s : values_of id (ss ++ [s]) = values_of id ss ++ if decide (sa_paramid s = id) then [sa_float64 s] else [].
Proof. unfold values_of. rewrite filter_app, filter_cons, filter_nil, fmap_app. by destruct (decide (sa_paramid s = id)). Qed.

Definition with_value (x : Z) (s : Sample) : Sample :=
  mkSample (sa_timestamp s) (sa_paramid s) (sa_type s) (sa_size s) x (sa_data s).

(** What the node delivers for the samples after [past]. *)
Fixpoint running_samples (past ss : list Sample) : list MutableSample :=
  match ss with
  | [] => []
  | s :: ss => mkMut (with_value (running (values_of (sa_paramid s) (past ++ [s]))) s) 1 1 false :: running_samples (past ++ [s]) ss
  end.

Lemma cusum_put_ok past t s out :
  is_scalar s → (∀ id, default 0 (t !! (id, 0)) = running (values_of id past)) →
  ∃ t', Pipe.put (H := recorder) [CumulativeSum t] (mkMut s 1 1 false) out
      = Some (true, [CumulativeSum t'], out ++ [mkMut (with_value (running (values_of (sa_paramid s) (past ++ [s]))) s) 1 1 false]) ∧
    ∀ id, default 0 (t' !! (id, 0)) = running (values_of id (past ++ [s])).
Proof.
  intros Hs Ht. cbn [Pipe.put QNode.put]. unfold QNode.cusum_put. rewrite (map_values_full _ _ _ [sa_float64 s]) by done. cbn [map_state QNode.cusum].
  unfold Mut.get_paramid. cbn [ms_sample]. rewrite Ht. cbn [mbind option_bind QNode.has_next ln_put recorder].
  assert (Hr : running (values_of (sa_paramid s) (past ++ [s])) = dadd (sa_float64 s) (running (values_of (sa_paramid s) past))).
  { rewrite values_snoc, decide_True by done. apply running_snoc. }
  eexists. split; [rewrite Hr; reflexivity|]. intros id. destruct (decide (id = sa_paramid s)) as [->|Hne].
  - rewrite lookup_insert_eq. cbn [default]. by rewrite Hr.
  - rewrite lookup_insert_ne by congruence. rewrite Ht, values_snoc, decide_False by done. by rewrite app_nil_r.
Qed.

Lemma cusum_run past t ss out :
  Forall is_scalar ss → (∀ id, default 0 (t !! (id, 0)) = running (values_of id past)) →
  ∃ t', Pipe.put_samples (H := recorder) ss [CumulativeSum t] out = Some ([CumulativeSum t'], out ++ running_samples past ss).
Proof.
  intros Hs. revert past t out. induction Hs as [|s ss Hs _ IH]; intros past t out Ht.
  - exists t. cbn [Pipe.put_samples running_samples]. by rewrite app_nil_r.
  - destruct (cusum_put_ok past t s out Hs Ht) as (t1&E&Ht1). destruct (IH _ t1 (out ++ [mkMut (with_value (running (values_of (sa_paramid s) (past ++ [s]))) s) 1 1 false]) Ht1) as (t'&E').
    exists t'. cbn [Pipe.put_samples running_samples]. rewrite (scalar_make s Hs). cbn [mbind option_bind]. rewrite E. cbn [mbind option_bind].
    rewrite E'. by rewrite <- app_assoc.
Qed.

(** ** [Limiter] *)

Definition limiter_passes (limit counter : Z) (n : nat) : nat := Nat.min n (Z.to_nat (limit - counter)).

(** A query with an offset returns nothing: the samples before the offset are
    not counted. *)
Lemma limiter_offset_stuck limit offset ss out :
  0 < offset → Forall is_scalar ss →
  Pipe.put_samples (H := recorder) ss [Limiter limit offset 0] out = Some ([Limiter limit offset 0], out).
Proof.
  intros Ho. induction 1 as [|s ss Hs _ IH]; [done|]. cbn [Pipe.put_samples]. rewrite (scalar_make s Hs). cbn [mbind option_bind Pipe.put QNode.put]. unfold QNode.limiter_put.
  rewrite decide_True by done. exact IH.
Qed.

Lemma limiter_run limit counter ss out :
  0 ≤ counter ≤ limit → limit < 2 ^ 64 → Forall is_scalar ss →
  ∃ c, Pipe.put_samples (H := recorder) ss [Limiter limit 0 counter] out
    = Some ([Limiter limit 0 c], out ++ ((λ s, mkMut s 1 1 false) <$> take (Z.to_nat (limit - counter)) ss)).
Proof.
  intros Hc Hl Hs. revert counter out Hc. induction Hs as [|s ss Hs _ IH]; intros counter out Hc.
  - exists counter. rewrite take_nil. by rewrite app_nil_r.
  - cbn [Pipe.put_samples]. rewrite (scalar_make s Hs). cbn [mbind option_bind Pipe.put QNode.put]. unfold QNode.limiter_put. rewrite decide_False by lia. case_decide as Hfull.
    + exists counter. replace (limit - counter) with 0 by lia. by rewrite app_nil_r.
    + cbn [mbind option_bind QNode.has_next ln_put recorder].
      rewrite (u64_id (counter + 1)) by (unfold is_u64; lia).
      destruct (IH (counter + 1) (out ++ [mkMut s 1 1 false]) ltac:(lia)) as (c&E). exists c. rewrite E.
      replace (Z.to_nat (limit - counter)) with (S (Z.to_nat (limit - (counter + 1)))) by lia. simpl. by rewrite <- app_assoc.
Qed.

(** ** Nodes that do something else *)

(** A column after a missing one is taken from a wrong place: with the columns 2
    and 3 of four present, column 3 is looked for behind the two values. *)
Lemma sparse_component :
  let s := mkSample 0 0 PAYLOAD_TUPLE 48 (Z.lor (Z.shiftl 4 58) 12) [10; 20] in
  ∃ m, Mut.make s = Some m ∧ Mut.get 2 m = Some (Some 10) ∧ Mut.index 3 m = Some (Some (Element 3)) ∧ Mut.get 3 m = None.
Proof. eexists. vm_compute. done. Qed.

(** An event of more than 1024 bytes does not fit into the copy. *)
Lemma long_event_overflows s : sa_size s = SAMPLE_SIZE + 1025 → Mut.make s = None.
Proof. intros Hs. unfold Mut.make. rewrite Hs. by rewrite decide_True by (unfold Mut.MAX_SIZE, SAMPLE_SIZE; lia). Qed.

(** The moving average of a window of any width is the last value: the buffer
    starts empty and an element is removed for each that comes. *)
Lemma sma_keeps_one width xs x s :
  (0 < width)%nat → foldl (λ s x, Sma.add x s) (Sma.make width) (xs ++ [x]) = s → sm_buffer s = [x].
Proof.
  intros Hw <-. rewrite foldl_app. cbn [foldl].
  assert (Hinv : ∀ xs s, sm_capacity s = width → (length (sm_buffer s) ≤ 1)%nat →
    sm_capacity (foldl (λ s x, Sma.add x s) s xs) = width ∧ (length (sm_buffer (foldl (λ s x, Sma.add x s) s xs)) ≤ 1)%nat).
  { clear xs x. induction xs as [|y xs IH]; intros s Hc Hl; [done|]. cbn [foldl]. apply IH; unfold Sma.add; destruct (sm_buffer s) as [|o [|]];
      cbn [length] in *; try lia; cbn [sm_capacity sm_buffer]; try done; unfold Sma.push_back; rewrite decide_False by lia; cbn [length];
      rewrite decide_True by lia; simpl; lia. }
  destruct (Hinv xs (Sma.make width) eq_refl ltac:(simpl; lia)) as [Hc Hl]. set (s := foldl _ _ _) in *.
  unfold Sma.add. destruct (sm_buffer s) as [|o [|]]; cbn [length] in *; try lia; cbn [sm_buffer]; unfold Sma.push_back;
    rewrite decide_False by lia; cbn [length]; by rewrite decide_True by lia.
Qed.

(** A chain with a moving average cannot go on to the next node. *)
Lemma sma_no_next {S} `{LastNode S} width delta t nodes m xs s :
  full m xs → QNode.is_regular m = true → Pipe.put (SMAPrediction width delta t :: nodes) m s = None.
Proof.
  intros Hf Hr. cbn [Pipe.put QNode.put]. unfold QNode.sma_put. rewrite Hr. rewrite (map_values_full _ _ _ xs Hf). by destruct (map_state _ _ _ _).
Qed.

(** The cumulative average counts every value twice but the last: for 4, 4, 8 the
    third result is 24/5 and not 16/3. *)
Lemma cma_counts_twice :
  let d := double_of_u64 in
  (map_state (λ _ x t, QNode.cma 1 0 x t) 0 ∅ [d 4; d 4; d 8]).1 = [d 4; d 4; ddiv (d 24) (d 5)].
Proof. vm_compute. reflexivity. Qed.

(** [TopN] does not keep the first value of a series: the area under 10 during the
    first second does not count. *)
Lemma top_forgets_first :
  let d := double_of_u64 in
  let smp ts x := mkMut (mkSample ts 1 PAYLOAD_FLOAT SAMPLE_SIZE (d x) []) 1 1 false in
  (t1 ← QNode.top (smp 0 10) ∅; t2 ← QNode.top (smp 1000000000 10) t1; tc_sum <$> t2 !! 1) = Some 0.
Proof. vm_compute. reflexivity. Qed.

(** A node that requires grouping is refused when there is grouping, and accepted
    without. *)
Lemma group_by_check_inverted :
  let reqs := [Z.lor QNode.GROUP_BY_REQUIRED QNode.TERMINAL] in Pipe.validate reqs true = None ∧ Pipe.validate reqs false = Some ().
Proof. vm_compute. done. Qed.

(** ** Properties *)

(** C15: the columns of an aggregate.  A sample that a materializer makes of an
    aggregate and up to 32 functions arrives at the processing nodes with as many
    columns, column [i] being function [i] of the aggregate and no column after
    them; a node that goes over the columns ([abs], [rate], [cusum], [cma] and the
    predictions) applies its function once to each value, in the order of the
    columns, and changes nothing else of the sample.  It says where every value is
    in spite of [count_ones], which is not a population count (see
    [sparse_component]). *)
Theorem tuple_components {T} (f : Z → Z → T → Z * T) t fs id (x : Z * AggregationResult) :
  (length fs ≤ 32)%nat →
  ∃ m, Mut.make (SeriesOrderAgg.tuple_sample fs id x) = Some m ∧ ms_size m = Z.of_nat (length fs) ∧
    (∀ i, (i < 32)%nat → Mut.get (Z.of_nat i) m = Some (TupleOutputUtils.get x.2 <$> fs !! i)) ∧
    QNode.map_values f t m
      = let '(ys, t') := map_state f 0 t (TupleOutputUtils.get x.2 <$> fs) in Some (put_values ys m, t').
Proof.
  intros Hl. destruct (tuple_full fs id x Hl) as (m&E&_&Ht&Hf). exists m. split; [exact E|]. split; [|split].
  - pose proof Hf as Hf0. unfold full in Hf0. rewrite Ht in Hf0. destruct Hf0 as (_&->&_). unfold TupleOutputUtils.set_tuple. by rewrite length_fmap.
  - intros i Hi. rewrite (full_get m _ i Hf Hi). unfold TupleOutputUtils.set_tuple. by rewrite list_lookup_fmap.
  - by apply map_values_full.
Qed.

(** C16: cumulative sums.  A query of plain values with a [cusum] node answers
    every sample with the same time and series and, as its value, the sum of the
    values of the series so far, however the samples of several series are
    interleaved; no sample is lost. *)
Theorem cumulative_sum ss :
  Forall is_scalar ss →
  ∃ t, Pipe.put_samples (H := recorder) ss [CumulativeSum ∅] [] = Some ([CumulativeSum t], running_samples [] ss) ∧
    length (running_samples [] ss) = length ss ∧
    ∀ k s, ss !! k = Some s →
      running_samples [] ss !! k = Some (mkMut (with_value (running (values_of (sa_paramid s) (take (k + 1) ss))) s) 1 1 false).
Proof.
  intros Hs. destruct (cusum_run [] ∅ ss [] Hs) as (t&E); [intros id; by rewrite lookup_empty|]. exists t. split; [exact E|]. split.
  - clear. generalize (@nil Sample). induction ss as [|s ss IH]; intros past; [done|]. simpl. by rewrite IH.
  - intros k s Hk. replace (take (k + 1) ss) with ([] ++ take (k + 1) ss) by done. revert Hk. generalize (@nil Sample) as past. clear.
    revert k. induction ss as [|s' ss IH]; intros [|k] past Hk; [done..| |].
    + simpl in Hk. injection Hk as ->. done.
    + simpl in Hk. simpl. rewrite (IH k (past ++ [s']) Hk). by rewrite <- app_assoc.
Qed.

(** ** Witnesses *)

Lemma tuple_components_witness :
  ∃ m, Mut.make (SeriesOrderAgg.tuple_sample [FMIN; FMAX] 7 (5, mkAgg 1 2 3 4 5 6 7 8 9 10)) = Some m ∧ Mut.get 1 m = Some (Some 4) ∧ Mut.get 2 m = Some None.
Proof.
  destruct (tuple_components (λ _ x t, (x, t)) () [FMIN; FMAX] 7 (5, mkAgg 1 2 3 4 5 6 7 8 9 10)) as (m&E&_&Hg&_); [simpl; lia|].
  exists m. split; [exact E|]. split; [exact (Hg 1%nat ltac:(lia))|exact (Hg 2%nat ltac:(lia))].
Defined.

Lemma cumulative_sum_witness :
  let d := double_of_u64 in
  let smp id x := mkSample 0 id PAYLOAD_FLOAT SAMPLE_SIZE (d x) [] in
  ∃ t, Pipe.put_samples (H := recorder) [smp 1 1; smp 2 10; smp 1 2] [CumulativeSum ∅] []
    = Some ([CumulativeSum t], [mkMut (smp 1 1) 1 1 false; mkMut (smp 2 10) 1 1 false; mkMut (smp 1 3) 1 1 false]).
Proof.
  intros d smp. destruct (cumulative_sum [smp 1 1; smp 2 10; smp 1 2]) as (t&E&_); [repeat constructor|]. exists t. rewrite E. vm_compute. reflexivity.
Defined.
