(* ===== verification/QueryPlan.v ===== *)
(** * Query plans (query/queryplan.cc)

    A request becomes a plan of two steps: the first asks the column store for an
    operator per series, the second makes a materializer of the operators.  The
    executor runs the plan and hands the samples to the processing nodes.  The
    heaps of the merges and the regular expressions are parameters. *)
From stdpp Require Import gmap.
From S2P Require Import Prelude Status ByteStream DataBlock Volume Crc32c BlockStoreProof MemStore Double SubtreeRef Operator Leaf LeafIter Superblock TreeIter TreeRead Extents Events ColumnStore Aggregate AggTree Merge Materialize AggMaterialize QueryNodes.

(** ** Requests (queryprocessor_framework.h) *)

Inductive OrderBy := SERIES | TIME.

#[export] Instance OrderBy_eq_dec : EqDecision OrderBy.
Proof. solve_decision. Defined.

(** [qp::Filter]; the flags are bits. *)
Record QFilter := mkQFilter { qf_enabled : bool; qf_flags : Z; qf_gt : Z; qf_lt : Z; qf_ge : Z; qf_le : Z }.

Record ReshapeRequest := mkRequest {
  rq_agg_enabled : bool;
  rq_agg_func : list AggregationFunction;
  rq_agg_step : Z;
  rq_columns : list (list Z);
  rq_filters : list QFilter;
  rq_filter_rule : Mode;
  rq_begin : Z;
  rq_end : Z;
  rq_events : bool;
  rq_regex : list Z;
  rq_group_by : option (gmap Z Z);  (* transient_map, when enabled *)
  rq_order_by : OrderBy;
}.

(** ** Operators *)

(** A [RealValuedOperator]: of a tree, or a [GroupAggregateConverter]. *)
Inductive RealOp := TreeOp (op : RealValuedOperator) | ConvertOp (func : AggregationFunction) (op : AggregateOperator) (leftmost : bool).

(** A [BinaryDataOperator]. *)
Inductive EventOp := EventScan (it : BinaryDataIterator) | EventFilter (regex : list Z) (it : BinaryDataIterator).

(** An [AggregateOperator] and the flag that its reads share. *)
Notation AggOperator := (AggregateOperator * bool)%type (only parsing).

Module Operators.
Section Operators.
Context {B : Type} `{BlockStore B}.
Variables (impl : crc32c_impl_t) (at_ : Z) (bstore : B) (junk : agg_point).

Definition agg_operator : SeriesOperator AggOperator AggregationResult := {|
  so_read fuel size it :=
    '(st, out, op, lm) ← AggOp.read impl at_ bstore junk fuel size it.2 it.1; Some (st, out, (op, lm));
  so_direction it := AggOp.get_direction it.1;
|}.

(** [GroupAggregateConverter::read]: [n] is the room that is left. *)
Fixpoint convert_loop (n fuel : nat) (func : AggregationFunction) (op : AggregateOperator) (lm : bool) (out : list (Z * Z))
    : option (Status * list (Z * Z) * RealOp) :=
  match n with
  | O => Some (kOk, out, ConvertOp func op lm)
  | S n =>
    '(status, res, op, lm) ← AggOp.read impl at_ bstore junk fuel 1 lm op;
    match res with
    | [(ts, xs)] => convert_loop n fuel func op lm (out ++ [(ts, TupleOutputUtils.get xs func)])
    | [] => Some (status, if decide (status = kOk ∨ status = kNoData) then out else [], ConvertOp func op lm)
    | _ => None
    end
  end.

Definition real_operator : SeriesOperator RealOp Z := {|
  so_read fuel size it :=
    match it with
    | TreeOp op => '(st, out, op) ← SBlock.read impl at_ bstore fuel size op; Some (st, out, TreeOp op)
    | ConvertOp func op lm => convert_loop size fuel func op lm []
    end;
  so_direction it := match it with TreeOp op => op_direction op | ConvertOp _ op _ => AggOp.get_direction op end;
|}.

(** The regular expressions. *)
Variable regex_search : list Z → list Z → bool.

Definition event_operator : SeriesOperator EventOp (list Z) := {|
  so_read fuel size it :=
    match it with
    | EventScan it => '(st, out, it) ← Event.read impl at_ bstore fuel fuel size it; Some (st, out, EventScan it)
    | EventFilter regex it =>
      '(st, out, it) ← Event.filter_loop impl at_ bstore fuel fuel size (regex_search regex) it []; Some (st, out, EventFilter regex it)
    end;
  so_direction it := match it with EventScan it | EventFilter _ it => Event.get_direction it end;
|}.

End Operators.
End Operators.

(** ** The first step: operators of the column store *)

Inductive ProcessingPrelude :=
  | ScanProcessingStep (begin_ end_ : Z) (ids : list Z)
  | ScanEventsProcessingStep (begin_ end_ : Z) (regex : list Z) (ids : list Z)
  | FilterProcessingStep (begin_ end_ : Z) (filters : gmap Z ValueFilter) (ids : list Z)
  | AggregateProcessingStep (begin_ end_ : Z) (ids : list Z)
  | GroupAggregateProcessingStep (begin_ end_ step : Z) (ids : list Z) (fn : AggregationFunction)
  | GroupAggregateFilterProcessingStep (begin_ end_ step : Z) (filters : gmap Z AggregateFilter) (ids : list Z) (fn : AggregationFunction).

(** [scanlist_] or [agglist_] of a step. *)
Inductive Scanned :=
  | Points (l : list RealValuedOperator)
  | EventLists (l : list EventOp)
  | Aggregates (l : list AggregateOperator)
  | Groups (fn : AggregationFunction) (l : list AggregateOperator).

Module Prelude1.

(** The constructors with filters: the filter of each id, the first one if an id
    is there twice; too few filters are read past the end. *)
Fixpoint insert_filters {F} (ids : list Z) (flt : list F) (m : gmap Z F) : option (gmap Z F) :=
  match ids, flt with
  | [], _ => Some m
  | id :: ids, f :: flt => insert_filters ids flt (if decide (is_Some (m !! id)) then m else <[id := f]> m)
  | _ :: _, [] => None
  end.

Section Apply.
Context {B : Type} `{BlockStore B}.
Variables (impl : crc32c_impl_t) (at_ : nat → Z) (rounds fuel : nat).

(** [ColumnStore::scan_events] and [filter_events]. *)
Definition scan_events (ids : list Z) (begin_ end_ : Z) (regex : option (list Z)) (cs : ColumnStore) (bstore : B)
    : option (Status * list EventOp * ColumnStore * B) :=
  CStore.iterate impl at_ rounds fuel ids (λ elist,
    op ← Tree.search begin_ end_ None elist;
    let it := Event.make op in
    Some (kOk, Some match regex with None => EventScan it | Some r => EventFilter r it end)) [] cs bstore.

(** [apply] of the steps. *)
Notation applied := (option (Status * Scanned * ColumnStore * B)) (only parsing).

Definition scan_apply (b e : Z) (ids : list Z) (cs : ColumnStore) (bstore : B) : applied :=
  '(st, l, cs, bstore) ← CStore.scan impl at_ rounds fuel ids b e cs bstore; Some (st, Points l, cs, bstore).

Definition scan_events_apply (b e : Z) (regex : list Z) (ids : list Z) (cs : ColumnStore) (bstore : B) : applied :=
  '(st, l, cs, bstore) ← scan_events ids b e (if decide (regex = []) then None else Some regex) cs bstore;
  Some (st, EventLists l, cs, bstore).

Definition filter_apply (b e : Z) (filters : gmap Z ValueFilter) (ids : list Z) (cs : ColumnStore) (bstore : B) : applied :=
  '(st, l, cs, bstore) ← CStore.filter impl at_ rounds fuel ids b e filters cs bstore; Some (st, Points l, cs, bstore).

Definition aggregate_apply (b e : Z) (ids : list Z) (cs : ColumnStore) (bstore : B) : applied :=
  '(st, l, cs, bstore) ← CStoreAgg.aggregate impl at_ rounds fuel ids b e cs bstore; Some (st, Aggregates l, cs, bstore).

Definition group_apply (b e step : Z) (ids : list Z) (fn : AggregationFunction) (cs : ColumnStore) (bstore : B) : applied :=
  '(st, l, cs, bstore) ← CStoreAgg.group_aggregate impl at_ rounds fuel ids b e step cs bstore; Some (st, Groups fn l, cs, bstore).

Definition group_filter_apply (b e step : Z) (filters : gmap Z AggregateFilter) (ids : list Z) (fn : AggregationFunction)
    (cs : ColumnStore) (bstore : B) : applied :=
  '(st, l, cs, bstore) ← CStoreAgg.group_aggfilter impl at_ rounds fuel ids b e step filters cs bstore; Some (st, Groups fn l, cs, bstore).

(** [ProcessingPrelude::apply]. *)
Definition apply (p : ProcessingPrelude) : ColumnStore → B → applied :=
  match p with
  | ScanProcessingStep b e ids => scan_apply b e ids
  | ScanEventsProcessingStep b e regex ids => scan_events_apply b e regex ids
  | FilterProcessingStep b e filters ids => filter_apply b e filters ids
  | AggregateProcessingStep b e ids => aggregate_apply b e ids
  | GroupAggregateProcessingStep b e step ids fn => group_apply b e step ids fn
  | GroupAggregateFilterProcessingStep b e step filters ids fn => group_filter_apply b e step filters ids fn
  end.

End Apply.

(** [extract_result] for the three kinds of operators: [NoData] for another kind
    and for no operator at all. *)
Definition nonempty {A} (l : list A) : Status * list A := if decide (l = []) then (kNoData, []) else (kOk, l).

Definition extract_real (s : Scanned) : Status * list RealOp :=
  match s with
  | Points l => nonempty (TreeOp <$> l)
  | Groups fn l => nonempty ((λ op, ConvertOp fn op false) <$> l)
  | _ => (kNoData, [])
  end.

Definition extract_agg (s : Scanned) : Status * list AggregateOperator :=
  match s with Aggregates l | Groups _ l => nonempty l | _ => (kNoData, []) end.

Definition extract_events (s : Scanned) : Status * list EventOp :=
  match s with EventLists l => nonempty l | _ => (kNoData, []) end.

End Prelude1.

(** ** The second step: a materializer of the operators *)

Inductive MaterializationStep :=
  | MergeBy (order : OrderBy) (ids : list Z)
  | MergeEventsBy (order : OrderBy) (ids : list Z)
  | ChainStep (ids : list Z)
  | EventChainStep (ids : list Z)
  | AggregateStep (ids : list Z) (fn : list AggregationFunction)
  | AggregateCombiner (ids : list Z) (fn : list AggregationFunction)
  | GroupAggregateCombiner (order : OrderBy) (ids : list Z) (fn : list AggregationFunction)
  | JoinStep (ids : list Z) (cardinality : nat) (order : OrderBy) (begin_ end_ : Z)
  | SeriesOrderAggregate (ids : list Z) (fn : list AggregationFunction)
  | TimeOrderAggregate (ids : list Z) (fn : list AggregationFunction).

(** The [ColumnMaterializer]s of the plans. *)
Inductive Column :=
  | MergeColumn (order : OrderBy) (m : MergeState RealOp (Z * Z))
  | MergeEventColumn (order : OrderBy) (m : MergeState EventOp (Z * list Z))
  | ChainColumn (m : ChainMaterializer RealOp)
  | EventChainColumn (m : EventChainMaterializer EventOp)
  | AggregateColumn (m : AggregateMaterializer AggOperator)
  | SeriesAggColumn (tuple_ : list AggregationFunction) (m : ChainMaterializer AggOperator)
  | TimeAggColumn (tuple_ : list AggregationFunction) (m : MergeState (ChainMaterializer AggOperator) Sample)
  | JoinConcatColumn (m : JoinConcatMaterializer (JoinMaterializer RealOp))
  | MergeJoinColumn (m : MergeState (JoinMaterializer RealOp) Sample).

Module Step2.

(** [groupings[id].push_back(it)] in a [std::map], in the order of its keys. *)
Fixpoint group_push {A} (id : Z) (x : A) (l : list (Z * list A)) : list (Z * list A) :=
  match l with
  | [] => [(id, [x])]
  | (k, xs) :: l =>
    if decide (id = k) then (k, xs ++ [x]) :: l
    else if decide (id < k) then (id, [x]) :: (k, xs) :: l
    else (k, xs) :: group_push id x l
  end.

(** The loop over [ids_]; [iters.at(i)] throws when there are more ids than
    operators. *)
Fixpoint group_ops {A} (ids : list Z) (iters : list A) (l : list (Z * list A)) : option (list (Z * list A)) :=
  match ids, iters with
  | [], _ => Some l
  | id :: ids, it :: iters => group_ops ids iters (group_push id it l)
  | _ :: _, [] => None
  end.

(** [functions[id] = fn_.at(i)]. *)
Fixpoint group_functions (ids : list Z) (fn : list AggregationFunction) (m : gmap Z AggregationFunction)
    : option (gmap Z AggregationFunction) :=
  match ids, fn with
  | [], _ => Some m
  | id :: ids, f :: fn => group_functions ids fn (<[id := f]> m)
  | _ :: _, [] => None
  end.

Definition with_flag (op : AggregateOperator) : AggOperator := (op, false).

Section Apply.
Context {B : Type} `{BlockStore B}.
Variables (impl : crc32c_impl_t) (at_ : Z) (bstore : B) (junk : agg_point) (regex_search : list Z → list Z → bool).

#[local] Instance real_op : SeriesOperator RealOp Z := Operators.real_operator impl at_ bstore junk.
#[local] Instance agg_op : SeriesOperator AggOperator AggregationResult := Operators.agg_operator impl at_ bstore junk.
#[local] Instance event_op : SeriesOperator EventOp (list Z) := Operators.event_operator impl at_ bstore regex_search.

(** [GroupAggregateCombiner_Initializer<order>::make_materializer], which is what
    the two orders do without grouping too. *)
Definition make_materializer (order : OrderBy) (ids : list Z) (agglist : list AggregateOperator) (fn : list AggregationFunction)
    : option Column :=
  match order with
  | SERIES => Some (SeriesAggColumn fn (Chain.make ids (with_flag <$> agglist)))
  | TIME => m ← TimeOrderAgg.make ids (with_flag <$> agglist); Some (TimeAggColumn fn m)
  end.

(** The loop of [Join::apply] over [ids_], from number [i]. *)
Fixpoint joins (i : nat) (ids : list Z) (cardinality : nat) (scanlist : list RealOp) : option (list (JoinMaterializer RealOp)) :=
  match ids with
  | [] => Some []
  | id :: ids =>
    let ixs := seq (i * cardinality) cardinality in
    joined ← mapM (λ ix, scanlist !! ix) ixs;
    it ← Join.make (Z.of_nat <$> ixs) joined id;
    its ← joins (i + 1) ids cardinality scanlist;
    Some (it :: its)
  end.

(** The operators of the first step go into a materializer; no operators end the
    query with the status of [extract_result], and [None] is an exception. *)
Notation made := (option (Status * option Column)) (only parsing).

Definition with_ops {A} (r : Status * list A) (f : list A → option Column) : made :=
  if decide (r.1 ≠ kOk) then Some (r.1, None) else c ← f r.2; Some (kOk, Some c).

(** [apply] of the steps. *)
Definition merge_apply (order : OrderBy) (ids : list Z) (p : Scanned) : made :=
  with_ops (Prelude1.extract_real p) (λ iters, m ← Merge.make ids iters; Some (MergeColumn order m)).

Definition merge_events_apply (order : OrderBy) (ids : list Z) (p : Scanned) : made :=
  with_ops (Prelude1.extract_events p) (λ iters, m ← Merge.make ids iters; Some (MergeEventColumn order m)).

Definition chain_apply (ids : list Z) (p : Scanned) : made :=
  with_ops (Prelude1.extract_real p) (λ iters, Some (ChainColumn (Chain.make ids iters))).

Definition event_chain_apply (ids : list Z) (p : Scanned) : made :=
  with_ops (Prelude1.extract_events p) (λ iters, Some (EventChainColumn (EventChain.make ids iters))).

Definition aggregate_apply (ids : list Z) (fn : list AggregationFunction) (p : Scanned) : made :=
  with_ops (Prelude1.extract_agg p) (λ iters, Some (AggregateColumn (AggMat.make ids (with_flag <$> iters) fn))).

Definition combiner_apply (ids : list Z) (fn : list AggregationFunction) (p : Scanned) : made :=
  with_ops (Prelude1.extract_agg p) (λ iters,
    groupings ← group_ops ids iters [];
    functions ← group_functions ids fn ∅;
    fns ← mapM (λ kv : Z * list AggregateOperator, functions !! kv.1) groupings;
    Some (AggregateColumn (AggMat.make groupings.*1 ((λ kv, with_flag (AggOp.combine kv.2)) <$> groupings) fns))).

Definition group_combiner_apply (order : OrderBy) (ids : list Z) (fn : list AggregationFunction) (p : Scanned) : made :=
  with_ops (Prelude1.extract_agg p) (λ iters,
    groupings ← group_ops ids iters [];
    make_materializer order groupings.*1 ((λ kv, AggOp.fan_in kv.2) <$> groupings) fn).

Definition join_apply (ids : list Z) (cardinality : nat) (order : OrderBy) (b e : Z) (p : Scanned) : made :=
  with_ops (Prelude1.extract_real p) (λ scanlist,
    iters ← joins 0 ids cardinality scanlist;
    Some match order with
         | SERIES => JoinConcatColumn (JoinConcat.make iters)
         | TIME => MergeJoinColumn (Merge.make_join iters (bool_decide (b < e)))
         end).

Definition series_aggregate_apply (ids : list Z) (fn : list AggregationFunction) (p : Scanned) : made :=
  with_ops (Prelude1.extract_agg p) (λ iters, make_materializer SERIES ids iters fn).

Definition time_aggregate_apply (ids : list Z) (fn : list AggregationFunction) (p : Scanned) : made :=
  with_ops (Prelude1.extract_agg p) (λ iters, make_materializer TIME ids iters fn).

(** [MaterializationStep::apply]. *)
Definition apply (s : MaterializationStep) : Scanned → made :=
  match s with
  | MergeBy order ids => merge_apply order ids
  | MergeEventsBy order ids => merge_events_apply order ids
  | ChainStep ids => chain_apply ids
  | EventChainStep ids => event_chain_apply ids
  | AggregateStep ids fn => aggregate_apply ids fn
  | AggregateCombiner ids fn => combiner_apply ids fn
  | GroupAggregateCombiner order ids fn => group_combiner_apply order ids fn
  | JoinStep ids cardinality order b e => join_apply ids cardinality order b e
  | SeriesOrderAggregate ids fn => series_aggregate_apply ids fn
  | TimeOrderAggregate ids fn => time_aggregate_apply ids fn
  end.

(** ** Reading *)

(** A heap for every comparator, and what the local samples of
    [AggregateMaterializer] hold before they are assigned. *)
Context (HP : ∀ X : Type, (KeyType → KeyType → bool) → Type) `{∀ X cmp, Heap (HP X cmp) (HeapItem X)} (garbage : nat → Z).

Definition comparator (order : OrderBy) : Direction → KeyType → KeyType → bool :=
  match order with SERIES => SeriesOrder | TIME => TimeOrder end.

#[local] Instance join_materializer : ColumnMaterializer (JoinMaterializer RealOp) :=
  λ fuel size m, Join.read (HF := HP (Z * Z) (MergeJoinOrder FORWARD)) (HB := HP (Z * Z) (MergeJoinOrder BACKWARD)) fuel fuel size m.

(** [read] of every materializer. *)
Definition read (fuel : nat) (size : Z) (c : Column) : option (Status * list Sample * Column) :=
  match c with
  | MergeColumn order m =>
    '(st, out, m) ← Merge.read (HP _ (comparator order FORWARD)) (HP _ (comparator order BACKWARD)) fuel fuel size m;
    Some (st, out, MergeColumn order m)
  | MergeEventColumn order m =>
    '(st, out, m) ← Merge.read_events (HP _ (comparator order FORWARD)) (HP _ (comparator order BACKWARD)) fuel fuel size m;
    Some (st, out, MergeEventColumn order m)
  | ChainColumn m => '(st, out, m) ← Chain.read fuel size m; Some (st, out, ChainColumn m)
  | EventChainColumn m => '(st, out, m) ← EventChain.read fuel fuel size m; Some (st, out, EventChainColumn m)
  | AggregateColumn m => '(st, out, m) ← AggMat.read garbage fuel fuel size m; Some (st, out, AggregateColumn m)
  | SeriesAggColumn t m => '(st, out, m) ← SeriesOrderAgg.read t fuel size m; Some (st, out, SeriesAggColumn t m)
  | TimeAggColumn t m =>
    '(st, out, m) ← TimeOrderAgg.read t (HP _ (TimeOrder FORWARD)) (HP _ (TimeOrder BACKWARD)) fuel fuel size m;
    Some (st, out, TimeAggColumn t m)
  | JoinConcatColumn m => '(st, out, m) ← JoinConcat.read fuel size m; Some (st, out, JoinConcatColumn m)
  | MergeJoinColumn m =>
    '(st, out, m) ← Merge.read_join (HP _ (TimeOrder FORWARD)) (HP _ (TimeOrder BACKWARD)) Merge.make_tord fuel fuel size m;
    Some (st, out, MergeJoinColumn m)
  end.

End Apply.
End Step2.

(** ** The plans *)

(** [TwoStepQueryPlan]. *)
Record QueryPlan := mkPlan { qp_prelude : ProcessingPrelude; qp_mater : MaterializationStep }.

Module Builder.
Section Builder.

(** The constructor of [AggregateFilter] does not set the mode. *)
Variable mode0 : Mode.

Definition GT : Z := 1.
Definition LT : Z := 2.
Definition GE : Z := 4.
Definition LE : Z := 8.

Definition filtering_enabled (flt : list QFilter) : bool := existsb qf_enabled flt.

Definition flag (f bit : Z) : bool := bool_decide (Z.land f bit ≠ 0).

(** The bounds of a filter, as the three conversions below set them. *)
Definition value_filter (f : QFilter) : ValueFilter :=
  let flt := if flag (qf_flags f) GT then Filter.greater_than (qf_gt f) Filter.make
             else if flag (qf_flags f) GE then Filter.greater_or_equal (qf_ge f) Filter.make else Filter.make in
  if flag (qf_flags f) LT then Filter.less_than (qf_lt f) flt
  else if flag (qf_flags f) LE then Filter.less_or_equal (qf_le f) flt else flt.

Fixpoint convert_filters (fltlist : list QFilter) : Status * list ValueFilter :=
  match fltlist with
  | [] => (kOk, [])
  | f :: fltlist =>
    let flt := value_filter f in
    if Filter.validate flt then let '(st, l) := convert_filters fltlist in (st, flt :: l) else (kBadArg, [])
  end.

(** The component that a function filters by; the others have none. *)
Definition filter_component (fun_ : AggregationFunction) : option nat :=
  match fun_ with FMIN => Some MIN | FMAX => Some MAX | FMEAN => Some AVG | _ => None end.

Definition convert_aggregate_filter (filter : QFilter) (fun_ : AggregationFunction) : Status * AggregateFilter :=
  let aggflt := AggFilter.make mode0 in
  if qf_enabled filter then
    let flt := value_filter filter in
    if Filter.validate flt then
      match filter_component fun_ with
      | Some c => (kOk, (AggFilter.set_filter (Z.of_nat c) flt aggflt).2)
      | None => (kBadArg, aggflt)
      end
    else (kBadArg, aggflt)
  else (kOk, aggflt).

(** The loop of [convert_aggregate_filters]: one filter for all the functions. *)
Fixpoint combine_filters (fltlist : list QFilter) (funclst : list AggregationFunction) (aggflt : AggregateFilter)
    : Status * AggregateFilter :=
  match fltlist, funclst with
  | filter :: fltlist, fun_ :: funclst =>
    if qf_enabled filter then
      let flt := value_filter filter in
      if Filter.validate flt then
        match filter_component fun_ with
        | Some c => combine_filters fltlist funclst (AggFilter.set_filter (Z.of_nat c) flt aggflt).2
        | None => (kBadArg, aggflt)
        end
      else (kBadArg, aggflt)
    else combine_filters fltlist funclst aggflt
  | _, _ => (kOk, aggflt)
  end.

Definition convert_aggregate_filters (fltlist : list QFilter) (funclst : list AggregationFunction) : Status * list AggregateFilter :=
  if decide (length fltlist ≠ length funclst) then (kBadArg, []) else
  let '(st, f) := combine_filters fltlist funclst (AggFilter.make mode0) in
  if decide (st ≠ kOk) then (st, []) else (kOk, [f]).

(** The filters of the columns for every row of the first column; [flt.at(ixcol)]
    throws when there are fewer filters than columns. *)
Definition layout {F} (columns : list (list Z)) (flt : list F) : option (list F) :=
  ids ← head columns;
  if decide (ids = []) then Some [] else
  if decide (length flt < length columns)%nat then None else
  Some (concat (replicate (length ids) (take (length columns) flt))).

Definition set_mode (m : Mode) (f : AggregateFilter) : AggregateFilter := mkAggFilter (af_filters f) (af_bitmap f) m.

Definition layout_filters (req : ReshapeRequest) : option (Status * list ValueFilter) :=
  let '(s, flt) := convert_filters (rq_filters req) in
  if decide (s ≠ kOk) then Some (kBadArg, []) else
  if decide (flt = []) then Some (kBadArg, []) else
  l ← layout (rq_columns req) flt; Some (kOk, l).

Definition layout_aggregate_filters (req : ReshapeRequest) : option (Status * list AggregateFilter) :=
  let '(s, flt) := convert_aggregate_filters (rq_filters req) (rq_agg_func req) in
  if decide (s ≠ kOk) then Some (kBadArg, []) else
  if decide (flt = []) then Some (kBadArg, []) else
  l ← layout (rq_columns req) (set_mode (rq_filter_rule req) <$> flt); Some (kOk, l).

Fixpoint convert_each (fltlist : list QFilter) (fun_ : AggregationFunction) (m : Mode) : Status * list AggregateFilter :=
  match fltlist with
  | [] => (kOk, [])
  | it :: fltlist =>
    let '(s, flt) := convert_aggregate_filter it fun_ in
    if decide (s ≠ kOk) then (kBadArg, []) else
    let '(s, l) := convert_each fltlist fun_ m in (s, set_mode m flt :: l)
  end.

Definition layout_aggregate_join_filters (req : ReshapeRequest) : option (Status * list AggregateFilter) :=
  match rq_agg_func req with
  | [fun_] =>
    let '(s, colfilters) := convert_each (rq_filters req) fun_ (rq_filter_rule req) in
    if decide (s ≠ kOk) then Some (kBadArg, []) else
    if decide (colfilters = [] ∨ length colfilters ≠ length (rq_columns req)) then Some (kBadArg, []) else
    l ← layout (rq_columns req) colfilters; Some (kOk, l)
  | _ => Some (kBadArg, [])
  end.

(** The ids of the groups: a series that is in no group is left out. *)
Definition group_ids (transient_map : gmap Z Z) (ids : list Z) : list Z := omap (λ id, transient_map !! id) ids.

(** A plan, a refused request, or an exception. *)
Notation built := (option (Status * option QueryPlan)) (only parsing).
Definition bad_arg : built := Some (kBadArg, None).
Definition plan (p : ProcessingPrelude) (m : MaterializationStep) : built := Some (kOk, Some (mkPlan p m)).

(** A first stage that may be refused. *)
Definition then_plan (p : option (option ProcessingPrelude)) (m : MaterializationStep) : built :=
  match p with None => None | Some None => bad_arg | Some (Some p) => plan p m end.

(** The stage over [ids], filtered or not. *)
Definition point_stage (req : ReshapeRequest) (ids : list Z) : option (option ProcessingPrelude) :=
  if filtering_enabled (rq_filters req) then
    '(s, flt) ← layout_filters req;
    if decide (s ≠ kOk) then Some None else
    filters ← Prelude1.insert_filters ids flt ∅;
    Some (Some (FilterProcessingStep (rq_begin req) (rq_end req) filters ids))
  else Some (Some (ScanProcessingStep (rq_begin req) (rq_end req) ids)).

Definition scan_query_plan (req : ReshapeRequest) : built :=
  if decide (rq_agg_enabled req = true ∨ length (rq_columns req) ≠ 1%nat) then bad_arg else
  ids ← head (rq_columns req);
  then_plan (point_stage req ids)
    match rq_group_by req with
    | Some tm => MergeBy (rq_order_by req) (group_ids tm ids)
    | None => match rq_order_by req with SERIES => ChainStep ids | TIME => MergeBy TIME ids end
    end.

Definition scan_events_query_plan (req : ReshapeRequest) : built :=
  if decide (rq_agg_enabled req = true ∨ length (rq_columns req) ≠ 1%nat) then bad_arg else
  ids ← head (rq_columns req);
  plan (ScanEventsProcessingStep (rq_begin req) (rq_end req) (rq_regex req) ids)
    match rq_group_by req with
    | Some tm => MergeEventsBy (rq_order_by req) (group_ids tm ids)
    | None => match rq_order_by req with SERIES => EventChainStep ids | TIME => MergeEventsBy TIME ids end
    end.

Definition aggregate_query_plan (req : ReshapeRequest) : built :=
  if decide (rq_order_by req = TIME ∨ rq_agg_enabled req = false ∨ rq_agg_step req ≠ 0) then bad_arg else
  ids ← head (rq_columns req);
  plan (AggregateProcessingStep (rq_begin req) (rq_end req) ids)
    match rq_group_by req with
    | Some tm => AggregateCombiner (group_ids tm ids) (rq_agg_func req)
    | None => AggregateStep ids (rq_agg_func req)
    end.

(** The ids of a join, row by row. *)
Definition join_ids (columns : list (list Z)) : option (list Z) :=
  first ← head columns;
  rows ← mapM (λ i, mapM (λ c : list Z, c !! i) columns) (seq 0 (length first));
  Some (concat rows).

Definition join_query_plan (req : ReshapeRequest) : built :=
  if decide (rq_group_by req ≠ None ∨ (length (rq_columns req) < 2)%nat) then bad_arg else
  t1ids ← join_ids (rq_columns req);
  first ← head (rq_columns req);
  let mater := JoinStep first (length (rq_columns req)) (rq_order_by req) (rq_begin req) (rq_end req) in
  if rq_agg_enabled req then
    if filtering_enabled (rq_filters req) then
      '(s, flt) ← layout_aggregate_join_filters req;
      if decide (s ≠ kOk) then bad_arg else
      fn ← head (rq_agg_func req);
      filters ← Prelude1.insert_filters t1ids flt ∅;
      plan (GroupAggregateFilterProcessingStep (rq_begin req) (rq_end req) (rq_agg_step req) filters t1ids fn) mater
    else
      fn ← head (rq_agg_func req);
      plan (GroupAggregateProcessingStep (rq_begin req) (rq_end req) (rq_agg_step req) t1ids fn) mater
  else then_plan (point_stage req t1ids) mater.

Definition group_aggregate_query_plan (req : ReshapeRequest) : built :=
  if decide (rq_agg_enabled req = false ∨ rq_agg_step req = 0) then bad_arg else
  ids ← head (rq_columns req);
  let mater := match rq_group_by req with
    | Some tm => GroupAggregateCombiner (rq_order_by req) (group_ids tm ids) (rq_agg_func req)
    | None => match rq_order_by req with
              | SERIES => SeriesOrderAggregate ids (rq_agg_func req)
              | TIME => TimeOrderAggregate ids (rq_agg_func req)
              end
    end in
  if filtering_enabled (rq_filters req) then
    '(s, flt) ← layout_aggregate_filters req;
    if decide (s ≠ kOk) then bad_arg else
    filters ← Prelude1.insert_filters ids flt ∅;
    plan (GroupAggregateFilterProcessingStep (rq_begin req) (rq_end req) (rq_agg_step req) filters ids FFIRST) mater
  else plan (GroupAggregateProcessingStep (rq_begin req) (rq_end req) (rq_agg_step req) ids FFIRST) mater.

(** [QueryPlanBuilder::create]. *)
Definition create (req : ReshapeRequest) : built :=
  if rq_agg_enabled req then
    if decide (rq_agg_step req = 0) then aggregate_query_plan req
    else if decide (length (rq_columns req) = 1%nat) then group_aggregate_query_plan req
    else join_query_plan req
  else if decide (1 < length (rq_columns req))%nat then join_query_plan req
  else if rq_events req then scan_events_query_plan req
  else scan_query_plan req.

End Builder.
End Builder.

(** ** The executor *)

(** [IStreamProcessor]. *)
Class StreamProcessor (S : Type) := {
  sp_put : Sample → S → option (bool * S);
  sp_set_error : Status → S → option S;
}.

(** [ScanQueryProcessor]: a chain of nodes and the last one. *)
Definition scan_processor {S} `{LastNode S} : StreamProcessor (list Node * S) := {|
  sp_put x s := '(b, nodes, t) ← Pipe.processor_put x s.1 s.2; Some (b, (nodes, t));
  sp_set_error st s := t ← Pipe.set_error s.1 st s.2; Some (s.1, t);
|}.

Module Executor.
Section Executor.
Context {S : Type} `{StreamProcessor S}.

(** Samples one after the other; [false] when the client stopped. *)
Fixpoint put_all (ss : list Sample) (s : S) : option (bool * S) :=
  match ss with
  | [] => Some (true, s)
  | x :: ss => '(b, s) ← sp_put x s; if b : bool then put_all ss s else Some (false, s)
  end.

Context {B : Type} `{BlockStore B}.
Context (HP : ∀ X : Type, (KeyType → KeyType → bool) → Type) `{∀ X cmp, Heap (HP X cmp) (HeapItem X)}.
Variables (impl : crc32c_impl_t) (at_ : nat → Z) (rounds fuel rfuel : nat) (junk : agg_point) (regex_search : list Z → list Z → bool)
  (garbage : nat → Z).

(** [dest_size]. *)
Definition DEST_SIZE : Z := 0x1000.

(** [while (status == Ok)]; [n] bounds the number of reads, [rfuel] the loops of
    each. *)
Fixpoint read_loop (n : nat) (bstore : B) (c : Column) (s : S) : option S :=
  match n with
  | O => None
  | Datatypes.S n =>
    '(status, out, c) ← Step2.read impl (at_ 0%nat) bstore junk regex_search HP garbage rfuel DEST_SIZE c;
    if decide (status ≠ kOk ∧ status ≠ kNoData ∧ status ≠ kUnavailable) then sp_set_error status s else
    '(goon, s) ← put_all out s;
    if negb goon then Some s else
    if decide (status = kOk) then read_loop n bstore c s else Some s
  end.

(** [TwoStepQueryPlan::execute]. *)
Definition execute_plan (p : QueryPlan) (cs : ColumnStore) (bstore : B) : option (Status * option Column * ColumnStore * B) :=
  '(status, scanned, cs, bstore) ← Prelude1.apply impl at_ rounds fuel (qp_prelude p) cs bstore;
  if decide (status ≠ kOk) then Some (status, None, cs, bstore) else
  '(status, column) ← Step2.apply impl (at_ 0%nat) bstore junk regex_search (qp_mater p) scanned;
  Some (status, column, cs, bstore).

(** [QueryPlanExecutor::execute]. *)
Definition execute (n : nat) (p : QueryPlan) (cs : ColumnStore) (bstore : B) (s : S) : option (S * ColumnStore * B) :=
  '(status, column, cs, bstore) ← execute_plan p cs bstore;
  if decide (status ≠ kOk) then s ← sp_set_error status s; Some (s, cs, bstore) else
  c ← column;
  s ← read_loop n bstore c s;
  Some (s, cs, bstore).

End Executor.
End Executor.
