(* ===== verification/QueryPlanProof.v ===== *)
(** * Queries from the request to the processing nodes

    What [QueryPlanBuilder::create] and [QueryPlanExecutor::execute] do together
    with the column store, for selections and for aggregates. *)
From stdpp Require Import gmap sorting.
From S2P Require Import Prelude Status ByteStream Base128 VByte DataBlock DataBlockProof IOVec Blocks Volume Crc32c BlockStoreProof MemStore Double SubtreeRef Operator Leaf LeafIter Superblock TreeIter TreeRead Extents Content ExtentsProof TreeProof TreeRun Events EventsProof EventsTree ColumnStore ColumnStoreProof Aggregate AggTree AggProof AggRun Merge MergeProof MergeRun Materialize MaterializeProof AggMaterialize QueryNodes QueryPlan.

(** ** The executor *)

Section Put.
Context {S : Type} `{StreamProcessor S}.

Lemma put_all_app l1 l2 (s : S) :
  Executor.put_all (l1 ++ l2) s = '(goon, s) ← Executor.put_all l1 s; if goon : bool then Executor.put_all l2 s else Some (false, s).
Proof.
  revert s. induction l1 as [|x l1 IH]; intros s; [done|]. cbn [app Executor.put_all]. destruct (sp_put x s) as [[[] s']|]; [|done..].
  cbn [mbind option_bind]. apply IH.
Qed.

End Put.

(** A reader inside a constructor. *)
Lemma cm_drain_wrap {M N} (K : M → N) (rd : M → option (Status * list Sample * M)) (rd' : N → option (Status * list Sample * N)) n m :
  (∀ m, rd' (K m) = '(st, out, m) ← rd m; Some (st, out, K m)) → cm_drain rd' n (K m) = cm_drain rd n m.
Proof.
  intros Heq. revert m. induction n as [|n IH]; intros m; [done|]. cbn [cm_drain]. rewrite Heq. destruct (rd m) as [[[st out] m']|]; [|done].
  cbn [mbind option_bind]. case_decide; [done|]. by rewrite IH.
Qed.

Section Run.
Context {S : Type} `{StreamProcessor S} {B : Type} `{BlockStore B}.
Context (HP : ∀ X : Type, (KeyType → KeyType → bool) → Type) `{HH : ∀ X cmp, Heap (HP X cmp) (HeapItem X)}.
Variables (impl : crc32c_impl_t) (at_ : nat → Z) (rounds fuel rfuel : nat) (junk : agg_point) (regex_search : list Z → list Z → bool)
  (garbage : nat → Z).

Notation column_read bstore := (Step2.read impl (at_ 0%nat) bstore junk regex_search HP garbage rfuel Executor.DEST_SIZE).
Notation execute := (Executor.execute HP impl at_ rounds fuel rfuel junk regex_search garbage).

(** A column that can be read to its end is handed over as a whole, up to where
    the client stops. *)
Lemma read_loop_drain n bstore c (s : S) out :
  cm_drain (column_read bstore) n c = Some (out, kNoData) →
  Executor.read_loop HP impl at_ rfuel junk regex_search garbage n bstore c s = snd <$> Executor.put_all out s.
Proof.
  revert c s out. induction n as [|n IH]; intros c s out E; [done|]. cbn [cm_drain] in E. cbn [Executor.read_loop].
  destruct (column_read bstore c) as [[[st more] c']|]; [|done]. cbn [mbind option_bind] in E |- *. case_decide as Hst.
  - injection E as -> ->. rewrite decide_False by (intros (_&Hx&_); by apply Hx).
    destruct (Executor.put_all out s) as [[[] s']|]; [|done..]. cbn [mbind option_bind negb fmap option_fmap option_map snd]. by rewrite decide_False.
  - assert (st = kOk) as -> by (destruct (decide (st = kOk)); [done|by destruct Hst]).
    destruct (cm_drain (column_read bstore) n c') as [[rest st]|] eqn:Ed; [|done]. cbn [mbind option_bind] in E. injection E as <- ->.
    rewrite decide_False by (intros (Hx&_); by apply Hx). rewrite put_all_app.
    destruct (Executor.put_all more s) as [[[] s']|]; [|done..]. cbn [mbind option_bind negb]. rewrite decide_True by done. by apply IH.
Qed.

(** A whole query: the operators of the store, the materializer, the samples. *)
Lemma execute_ok n p cs bstore scanned c out (s : S) :
  Prelude1.apply impl at_ rounds fuel (qp_prelude p) cs bstore = Some (kOk, scanned, cs, bstore) →
  Step2.apply impl (at_ 0%nat) bstore junk regex_search (qp_mater p) scanned = Some (kOk, Some c) →
  cm_drain (column_read bstore) n c = Some (out, kNoData) →
  execute n p cs bstore s = r ← Executor.put_all out s; Some (r.2, cs, bstore).
Proof.
  intros E1 E2 E3. unfold Executor.execute, Executor.execute_plan. rewrite E1. cbn [mbind option_bind].
  rewrite decide_False by (intros Hx; by apply Hx). rewrite E2. cbn [mbind option_bind]. rewrite decide_False by (intros Hx; by apply Hx).
  rewrite (read_loop_drain _ _ _ _ _ E3). by destruct (Executor.put_all out s).
Qed.

(** ** Operators of the plans *)

Definition tree_points (bstore : B) (it : RealOp) (pts : list (Z * Z)) : Prop :=
  ∃ op, it = TreeOp op ∧ delivers impl (at_ 0%nat) bstore op pts.

Lemma tree_points_operates bstore :
  operates (H := Operators.real_operator impl (at_ 0%nat) bstore junk) (tree_points bstore).
Proof.
  intros it pts size (op&->&Hop) Hsz.
  destruct (tree_operates impl (at_ 0%nat) bstore op pts size Hop Hsz) as (N&st&out&op'&rest&E&Hpts&Hop'&Hr).
  exists N, st, out, (TreeOp op'), rest. split; [|split; [exact Hpts|split; [by exists op'|exact Hr]]].
  intros fuel0 Hf. cbn [so_read Operators.real_operator]. specialize (E fuel0 Hf). cbn [so_read tree_operator] in E. by rewrite E.
Qed.

Lemma yields_answered bstore op pts :
  yields impl at_ junk bstore op pts →
  ∃ r, answered (H := Operators.agg_operator impl (at_ 0%nat) bstore junk) (Step2.with_flag op) r ∧
    match r with Some a => agg_of a pts | None => pts = [] end.
Proof.
  intros Hy. destruct (Hy false) as (N&st&out&op'&lm'&E&Hr).
  assert (E' : ∀ fuel0 size, (N ≤ fuel0)%nat → (0 < size)%nat →
    so_read (SeriesOperator := Operators.agg_operator impl (at_ 0%nat) bstore junk) fuel0 size (Step2.with_flag op) = Some (st, out, (op', lm'))).
  { intros fuel0 size Hf Hs. cbn [so_read Operators.agg_operator Step2.with_flag fst snd]. by rewrite E. }
  destruct Hr as [(->&Hp&Hst)|([ts a]&->&Ha&->)].
  - exists None. split; [|exact Hp]. exists N, st, [], (op', lm'). split; [exact E'|]. split; [done|].
    destruct Hst as [->|(->&N2&op2&E2)]; [by left|right]. split; [done|]. exists N2, (op2, lm'). intros fuel0 size Hf Hs.
    cbn [so_read Operators.agg_operator fst snd]. by rewrite E2.
  - exists (Some a). split; [|exact Ha]. exists N, kOk, [(ts, a)], (op', lm'). split; [exact E'|]. by exists ts.
Qed.

End Run.

(** ** Selections *)

(** A plain selection: points of one metric, no filter, no groups. *)
Definition selects (req : ReshapeRequest) (ids : list Z) : Prop :=
  rq_agg_enabled req = false ∧ rq_columns req = [ids] ∧ Builder.filtering_enabled (rq_filters req) = false ∧ rq_events req = false ∧
  rq_group_by req = None.

Definition select_plan (req : ReshapeRequest) (ids : list Z) : QueryPlan :=
  mkPlan (ScanProcessingStep (rq_begin req) (rq_end req) ids)
    match rq_order_by req with SERIES => ChainStep ids | TIME => MergeBy TIME ids end.

Lemma create_select mode0 req ids : selects req ids → Builder.create mode0 req = Some (kOk, Some (select_plan req ids)).
Proof.
  intros (Ha&Hc&Hf&He&Hg). unfold Builder.create. rewrite Ha, Hc. cbn [length]. rewrite decide_False by lia. rewrite He.
  unfold Builder.scan_query_plan. rewrite Ha, Hc. cbn [length]. rewrite decide_False by (intros [?|?]; [done|lia]).
  cbn [head mbind option_bind]. unfold Builder.point_stage. rewrite Hf, Hg. reflexivity.
Qed.

(** What a selection delivers: the columns one after the other, or merged. *)
Definition selected (order : OrderBy) (dir : Direction) (cols : list (Z * list (Z * Z))) (out : list Sample) : Prop :=
  match order with
  | SERIES => out = chained Merge.point_sample cols
  | TIME => merged Merge.point_sample TimeOrder dir cols out
  end.

Section Select.
Context {B : Type} `{BlockStore B}.
Context (HP : ∀ X : Type, (KeyType → KeyType → bool) → Type) `{HH : ∀ X cmp, Heap (HP X cmp) (HeapItem X)}.
Context `{HL : ∀ dir, HeapLaws (HP (Z * Z) (TimeOrder dir)) (HeapItem (Z * Z)) (item_cmp (TimeOrder dir))}.
Variables (impl : crc32c_impl_t) (at_ : nat → Z) (junk : agg_point) (regex_search : list Z → list Z → bool) (garbage : nat → Z).

(** The second step of a selection and its materializer. *)
Lemma select_column bstore order dir ids ops cols :
  Forall2 (λ op p, delivers impl (at_ 0%nat) bstore op p.2) ops cols → cols.*1 = ids → NoDup ids → ops ≠ [] →
  (order = TIME → Forall (λ p, p.2 ≠ []) cols ∧ Forall (column_in_order TimeOrder dir) cols ∧ ∀ op, head ops = Some op → op_direction op = dir) →
  ∃ c N out, Step2.apply impl (at_ 0%nat) bstore junk regex_search
      match order with SERIES => ChainStep ids | TIME => MergeBy TIME ids end (Points ops) = Some (kOk, Some c) ∧
    (∀ n rfuel, (total cols < n)%nat → (N ≤ rfuel)%nat →
      cm_drain (Step2.read impl (at_ 0%nat) bstore junk regex_search HP garbage rfuel Executor.DEST_SIZE) n c = Some (out, kNoData)) ∧
    selected order dir cols out.
Proof.
  intros Hdel <- Hnd Hne Htime.
  assert (Hx : Prelude1.extract_real (Points ops) = (kOk, TreeOp <$> ops)).
  { cbn [Prelude1.extract_real]. unfold Prelude1.nonempty. by rewrite decide_False by (by destruct ops). }
  assert (Hops : Forall2 (λ it p, tree_points impl at_ bstore it p.2) (TreeOp <$> ops) cols).
  { apply Forall2_fmap_l. eapply Forall2_impl; [exact Hdel|]. intros op p Hop. by exists op. }
  pose proof (tree_points_operates impl at_ junk bstore) as Hoper. destruct order.
  - destruct (materializes_drain _ _ _ _ (chain_materializes (H := Operators.real_operator impl (at_ 0%nat) bstore junk) Merge.point_sample
      (tree_points impl at_ bstore) Hoper (Z.to_nat (Executor.DEST_SIZE / SAMPLE_SIZE)) ltac:(vm_compute; lia))
      (chain_make_has Merge.point_sample _ _ _ Hops)) as (N&E).
    exists (ChainColumn (Chain.make cols.*1 (TreeOp <$> ops))), N, (chained Merge.point_sample cols). split; [|split; [|done]].
    + cbn [Step2.apply]. unfold Step2.chain_apply, Step2.with_ops. rewrite Hx. cbn [fst snd]. by rewrite decide_False by (intros Hk; by apply Hk).
    + intros n rfuel Hn Hf. assert (Ht : length (chained Merge.point_sample cols) = total cols).
      { clear. unfold total, chained. induction cols as [|p cols IH]; [done|]. cbn [mbind list_bind]. rewrite length_app, length_fmap. simpl. f_equal. exact IH. }
      rewrite <- (E n rfuel ltac:(lia) Hf). apply (cm_drain_wrap ChainColumn). done.
  - destruct (Htime eq_refl) as (Hpts&Hord&Hdir).
    destruct (merge_points (H := Operators.real_operator impl (at_ 0%nat) bstore junk) (HF := HP (Z * Z) (TimeOrder FORWARD))
      (HB := HP (Z * Z) (TimeOrder BACKWARD)) TimeOrder (tree_points impl at_ bstore) (TreeOp <$> ops) cols dir Executor.DEST_SIZE Hoper)
      as (m&N&out&Em&E&Hm); [| |done|done|by vm_compute|by destruct ops|].
    { clear - Hops Hpts. induction Hops as [|it p its cols Hp _ IH]; [constructor|]. apply Forall_cons in Hpts as [? ?]. constructor; [done|by apply IH]. }
    { intros it Hit. destruct ops as [|op ops]; [done|]. injection Hit as <-. by apply Hdir. }
    exists (MergeColumn TIME m), N, out. split; [|split; [|exact Hm]].
    + cbn [Step2.apply]. unfold Step2.merge_apply, Step2.with_ops. rewrite Hx. cbn [fst snd]. rewrite decide_False by (intros Hk; by apply Hk). unfold Step2.real_op. by rewrite Em.
    + intros n rfuel Hn Hf. rewrite <- (E n rfuel Hn Hf). apply (cm_drain_wrap (MergeColumn TIME)). done.
Qed.

End Select.

(** ** Aggregates *)

Definition aggregates (req : ReshapeRequest) (ids : list Z) : Prop :=
  rq_agg_enabled req = true ∧ rq_agg_step req = 0 ∧ rq_order_by req = SERIES ∧ rq_columns req = [ids] ∧ rq_group_by req = None ∧
  length (rq_agg_func req) = length ids.

Definition aggregate_plan (req : ReshapeRequest) (ids : list Z) : QueryPlan :=
  mkPlan (AggregateProcessingStep (rq_begin req) (rq_end req) ids) (AggregateStep ids (rq_agg_func req)).

Lemma create_aggregate mode0 req ids : aggregates req ids → Builder.create mode0 req = Some (kOk, Some (aggregate_plan req ids)).
Proof.
  intros (Ha&Hs&Ho&Hc&Hg&_). unfold Builder.create. rewrite Ha, Hs. rewrite decide_True by done.
  unfold Builder.aggregate_query_plan. rewrite Ha, Hs, Ho, Hc, Hg. rewrite decide_False by (intros [?|[?|?]]; done). reflexivity.
Qed.

Lemma aggregate_column {B} `{BlockStore B} (HP : ∀ X : Type, (KeyType → KeyType → bool) → Type) `{HH : ∀ X cmp, Heap (HP X cmp) (HeapItem X)}
    impl at_ junk regex_search garbage (bstore : B) ids fs ops rs :
  Forall2 (λ op r, answered (H := Operators.agg_operator impl (at_ 0%nat) bstore junk) (Step2.with_flag op) r) ops rs →
  length ids = length rs → length fs = length rs → ops ≠ [] →
  ∃ c N, Step2.apply impl (at_ 0%nat) bstore junk regex_search (AggregateStep ids fs) (Aggregates ops) = Some (kOk, Some c) ∧
    (∀ n rfuel, (length rs < n)%nat → (N ≤ rfuel)%nat →
      cm_drain (Step2.read impl (at_ 0%nat) bstore junk regex_search HP garbage rfuel Executor.DEST_SIZE) n c
      = Some (agg_samples garbage 0 (zip (zip ids fs) rs), kNoData)).
Proof.
  intros Hops Hi Hf Hne. set (rows := zip (zip ids fs) rs).
  assert (H1 : rows.*1 = zip ids fs) by (apply fst_zip; rewrite length_zip_with; lia).
  assert (H2 : rows.*2 = rs) by (apply snd_zip; rewrite length_zip_with; lia).
  assert (Hids : rows.*1.*1 = ids) by (rewrite H1; apply fst_zip; lia).
  assert (Hfs : rows.*1.*2 = fs) by (rewrite H1; apply snd_zip; lia).
  assert (Hall : Forall2 (λ it r, answered (H := Operators.agg_operator impl (at_ 0%nat) bstore junk) it r.2) (Step2.with_flag <$> ops) rows).
  { apply Forall2_fmap_l. rewrite <- H2, Forall2_fmap_r in Hops. exact Hops. }
  destruct (materializes_drain _ _ _ _ (agg_materializes (H := Operators.agg_operator impl (at_ 0%nat) bstore junk) garbage Executor.DEST_SIZE
    ltac:(vm_compute; done)) (agg_make_has garbage _ _ Hall)) as (N&E). rewrite Hids, Hfs in E.
  exists (AggregateColumn (AggMat.make ids (Step2.with_flag <$> ops) fs)), N. split.
  - assert (Hx : Prelude1.extract_agg (Aggregates ops) = (kOk, ops)).
    { cbn [Prelude1.extract_agg]. unfold Prelude1.nonempty. by rewrite decide_False. }
    cbn [Step2.apply]. unfold Step2.aggregate_apply, Step2.with_ops. rewrite Hx. cbn [fst snd]. by rewrite decide_False by (intros Hk; by apply Hk).
  - intros n rfuel Hn Hfu. rewrite <- (E n rfuel); [apply (cm_drain_wrap AggregateColumn); done| |exact Hfu].
    assert (Hle : ∀ i l, (length (agg_samples garbage i l) ≤ length l)%nat).
    { clear. intros i l. revert i. induction l as [|[[id f] [a|]] l IH]; intros i; simpl; [done| |]; specialize (IH (i + 1)%nat); lia. }
    specialize (Hle 0%nat rows). unfold rows in *. rewrite !length_zip_with in Hle. lia.
Qed.

(** ** Properties *)

(** C11: a selection from end to end.  After any operations on a new store, a
    request for points of known series in a range is turned into a plan, and
    running the plan hands to the processing nodes, in this order and until a node
    refuses one, the samples of the series one after the other, each in the order of
    the range, or, when ordered by time, all of them merged by timestamp and
    series; of each series all the points in the range as long as the store keeps
    its blocks.  Then the query ends; the store is as before.  Ordered by time each
    series must have a point in the range (see [merge_empty_column]). *)
Theorem query_select {B S} `{BlockStoreLaws B, StreamProcessor S}
    (HP : ∀ X : Type, (KeyType → KeyType → bool) → Type) `{HH : ∀ X cmp, Heap (HP X cmp) (HeapItem X)}
    `{HL : ∀ dir, HeapLaws (HP (Z * Z)%type (TimeOrder dir)) (HeapItem (Z * Z)) (item_cmp (TimeOrder dir))}
    impl `{!Crc32cImpl impl} at_ junk regex_search garbage mode0 os nsessions req ids rounds fuel (s : B) hist k (proc : S) :
  Forall (op_ok nsessions) os → Z.of_nat (length os) ≤ 2 ^ 60 → bs_inv (418 * length os + k) s hist → (31 ≤ fuel)%nat →
  let m := (spec_run os ∅).2 in
  let b := rq_begin req in
  let e := rq_end req in
  selects req ids → Forall (query_ok true m (λ _, None) b e) ids → known m ids = ids → ids ≠ [] → NoDup ids →
  ∃ plan rs w hist' viss, Builder.create mode0 req = Some (kOk, Some plan) ∧
    store_run impl at_ rounds fuel os (new_world nsessions s) = Some (rs, w) ∧ bs_inv k (w_blocks w) hist' ∧
    Forall2 (visible m hist' (w_blocks w)) ids viss ∧
    let cols := zip ids (range_points b e <$> viss) in
    ((rq_order_by req = TIME → Forall (λ vis, range_points b e vis ≠ []) viss) →
     ∃ N out, selected (rq_order_by req) (direction b e) cols out ∧
       ∀ n rfuel, (total cols < n)%nat → (N ≤ rfuel)%nat →
         Executor.execute HP impl at_ rounds fuel rfuel junk regex_search garbage n plan (w_store w) (w_blocks w) proc
         = r ← Executor.put_all out proc; Some (r.2, w_store w, w_blocks w)).
Proof.
  intros Ho Hlen Hs Hfuel m b e Hreq Hq Hknown Hne Hnd.
  destruct (scan_delivers impl at_ os nsessions ids b e rounds fuel s hist k Ho Hlen Hs Hfuel Hq Hknown)
    as (rs&w&hist'&ops&viss&E&_&Hi&Es&Hvis&Hsort&Hdel).
  exists (select_plan req ids), rs, w, hist', viss. split; [by apply create_select|]. split; [exact E|]. split; [exact Hi|]. split; [exact Hvis|].
  intros cols Hpts.
  assert (Hl : length ids = length (range_points b e <$> viss)) by (rewrite length_fmap; by eapply Forall2_length).
  assert (Hfst : cols.*1 = ids) by (apply fst_zip; lia).
  destruct (select_column HP impl at_ junk regex_search garbage (w_blocks w) (rq_order_by req) (direction b e) ids ops cols) as (c&N&out&Ec&Ed&Hout).
  - apply (Forall2_zip (λ op pts, delivers impl (at_ 0%nat) (w_blocks w) op pts)); [|exact Hl]. apply Forall2_fmap_r.
    eapply Forall2_impl; [exact Hdel|]. by intros ?? [? _].
  - exact Hfst.
  - exact Hnd.
  - intros ->. apply Forall2_nil_inv_l in Hdel as ->. by apply Forall2_nil_inv_r in Hvis.
  - intros Ht. specialize (Hpts Ht). split; [|split].
    + unfold cols. clear - Hpts. revert ids. induction Hpts as [|vis viss Hv _ IH]; intros [|id ids]; try constructor; [exact Hv|apply IH].
    + by apply scan_in_order.
    + intros op Hop. destruct Hdel as [|op' vis ops viss [_ Hd] _]; [done|]. injection Hop as <-. apply Hd.
      apply Forall_cons in Hpts as [Hp _]. intros ->. apply Hp, range_nil.
  - exists N, out. split; [exact Hout|]. intros n rfuel Hn Hf.
    apply (execute_ok HP impl at_ rounds fuel rfuel junk regex_search garbage n (select_plan req ids) _ _ (Points ops) c out proc).
    + cbn [select_plan qp_prelude Prelude1.apply]. unfold Prelude1.scan_apply. fold b e. by rewrite Es.
    + exact Ec.
    + by apply Ed.
Qed.

(** C12: an aggregate from end to end.  After any operations on a new store that
    keeps its blocks, a request for one function of each of several known series
    over a forward range is turned into a plan, and running the plan ends and hands
    to the processing nodes one sample for each series, in the order of the request
    and until a node refuses one: its id, and the time and value that the function
    has of the aggregate of exactly the points in the range.  A series without such
    a point has no sample, or one of the aggregate of no points. *)
Theorem query_aggregate {B S} `{BlockStoreLaws B, StreamProcessor S}
    (HP : ∀ X : Type, (KeyType → KeyType → bool) → Type) `{HH : ∀ X cmp, Heap (HP X cmp) (HeapItem X)}
    impl `{!Crc32cImpl impl} at_ junk regex_search garbage mode0 os nsessions req ids rounds fuel (s : B) hist k (proc : S) :
  Forall (op_ok nsessions) os → Z.of_nat (length os) ≤ 2 ^ 60 → bs_inv (418 * length os + k) s hist → (31 ≤ fuel)%nat →
  let m := (spec_run os ∅).2 in
  let b := rq_begin req in
  let e := rq_end req in
  aggregates req ids → (∀ id pts, id ∈ ids → m !! id = Some pts → agg_range b e pts) → known m ids = ids → ids ≠ [] →
  ∃ plan rs w hist', Builder.create mode0 req = Some (kOk, Some plan) ∧
    store_run impl at_ rounds fuel os (new_world nsessions s) = Some (rs, w) ∧ bs_inv k (w_blocks w) hist' ∧
    ((∀ a, is_Some (hist' !! a) → bs_exists a (w_blocks w) = true) →
     ∃ N results,
       Forall2 (λ id r, ∃ pts, m !! id = Some pts ∧
         match r with Some a => agg_of a (range_points b e pts) | None => range_points b e pts = [] end) ids results ∧
       ∀ n rfuel, (length ids < n)%nat → (N ≤ rfuel)%nat →
         Executor.execute HP impl at_ rounds fuel rfuel junk regex_search garbage n plan (w_store w) (w_blocks w) proc
         = r ← Executor.put_all (agg_samples garbage 0 (zip (zip ids (rq_agg_func req)) results)) proc; Some (r.2, w_store w, w_blocks w)).
Proof.
  intros Ho Hlen Hs Hfuel m b e Hreq Hr Hknown Hne.
  destruct (aggregate_operators impl at_ junk os nsessions ids b e rounds fuel s hist k Ho Hlen Hs Hfuel Hr) as (rs&w&hist'&E&_&Hi&Hops).
  exists (aggregate_plan req ids), rs, w, hist'. split; [by apply create_aggregate|]. split; [exact E|]. split; [exact Hi|]. intros Hkeep.
  destruct (Hops Hkeep) as (ops&Ea&Hy). fold m in Ea, Hy. rewrite decide_True in Ea by exact Hknown. rewrite Hknown in Hy.
  assert (∃ results, Forall2 (λ id r, ∃ pts, m !! id = Some pts ∧
      match r with Some a => agg_of a (range_points b e pts) | None => range_points b e pts = [] end) ids results ∧
    Forall2 (λ op r, answered (H := Operators.agg_operator impl (at_ 0%nat) (w_blocks w) junk) (Step2.with_flag op) r) ops results)
    as (results&Hres&Hans).
  { clear - Hy. induction Hy as [|id op ids ops (pts&Em&Hp) _ (results&H1&H2)]; [by exists []|].
    destruct (yields_answered impl at_ junk (w_blocks w) op _ Hp) as (r&Ha&Hr). exists (r :: results). split; constructor; [by exists pts|done..]. }
  pose proof (Forall2_length _ _ _ Hres) as Hl. destruct Hreq as (_&_&_&_&_&Hfn).
  destruct (aggregate_column HP impl at_ junk regex_search garbage (w_blocks w) ids (rq_agg_func req) ops results Hans) as (c&N&Ec&Ed); [lia|lia| |].
  { intros ->. apply Forall2_nil_inv_l in Hans as ->. by apply Forall2_nil_inv_r in Hres. }
  exists N, results. split; [exact Hres|]. intros n rfuel Hn Hf.
  apply (execute_ok HP impl at_ rounds fuel rfuel junk regex_search garbage n (aggregate_plan req ids) _ _ (Aggregates ops) c).
  - cbn [aggregate_plan qp_prelude Prelude1.apply]. unfold Prelude1.aggregate_apply. fold b e. by rewrite Ea.
  - exact Ec.
  - apply Ed; [lia|exact Hf].
Qed.

(** ** Witnesses *)

(** A heap for every comparator, and a processor that takes everything. *)
Definition SampleHeap (X : Type) (cmp : KeyType → KeyType → bool) : Type := ListHeap (HeapItem X) (item_cmp cmp).

#[local] Instance sample_heap X cmp : Heap (SampleHeap X cmp) (HeapItem X) := list_heap (item_cmp cmp).

#[local] Instance sample_heap_laws dir :
  HeapLaws (SampleHeap (Z * Z) (TimeOrder dir)) (HeapItem (Z * Z)) (item_cmp (TimeOrder dir)) := time_heap (Z * Z) dir.

Definition sample_processor : StreamProcessor (list Sample) := {|
  sp_put x s := Some (true, s ++ [x]);
  sp_set_error _ s := Some s;
|}.

Definition sample_request (agg : bool) (order : OrderBy) (fs : list AggregationFunction) (b e : Z) : ReshapeRequest :=
  mkRequest agg fs 0 [[2; 1]] [] ALL b e false [] None order.

Lemma put_all_taken l s : Executor.put_all (H := sample_processor) l s = Some (true, s ++ l).
Proof. revert s. induction l as [|x l IH]; intros s; [by rewrite app_nil_r|]. cbn. rewrite IH. by rewrite <- app_assoc. Qed.

Definition sample_execute {B} `{BlockStore B} (n rfuel : nat) (plan : QueryPlan) (cs : ColumnStore) (bstore : B)
    : option (list Sample * ColumnStore * B) :=
  Executor.execute (H := sample_processor) SampleHeap crc32c_sw (λ _, 0) 1 31 rfuel (0, INIT_AGGRES) (λ _ _, true) (λ _, 0) n plan cs bstore [].

Lemma query_select_witness :
  ∃ plan rs w, Builder.create ALL (sample_request false SERIES [] 0 100) = Some (kOk, Some plan) ∧
    store_run crc32c_sw (λ _, 0) 1 31 sample_ops (new_world 2 (Mem.make false false)) = Some (rs, w) ∧
    ∃ N, ∀ rfuel, (N ≤ rfuel)%nat → sample_execute 5 rfuel plan (w_store w) (w_blocks w)
      = Some ([Merge.point_sample 2 (5, 0x3FF0000000000000); Merge.point_sample 2 (5, 0); Merge.point_sample 1 (10, 0);
               Merge.point_sample 1 (20, 0x4000000000000000)], w_store w, w_blocks w).
Proof.
  destruct (query_select (B := MemStore) (H1 := sample_processor) SampleHeap crc32c_sw (λ _, 0) (0, INIT_AGGRES) (λ _ _, true) (λ _, 0) ALL
    sample_ops 2 (sample_request false SERIES [] 0 100) [2; 1] 1 31 (Mem.make false false) ∅ 0 []) as (plan&rs&w&hist'&viss&Ec&E&Hi&Hvis&Hrun).
  - repeat constructor; by_compute.
  - by_compute.
  - split; [apply mem_make_inv; by_compute|done].
  - lia.
  - repeat split.
  - apply Forall_forall. intros id _. split; [exact I|]. right. unfold everything, TS_MAX. simpl. lia.
  - vm_compute. reflexivity.
  - done.
  - apply (bool_decide_unpack _). by_compute.
  - exists plan, rs, w. split; [exact Ec|]. split; [exact E|]. destruct Hrun as (N&out&Hout&Hex); [done|]. exists N. intros rfuel Hf.
    pose proof sample_run_keeps as Hrm. rewrite E in Hrm. pose proof (λ a, mem_keeps _ _ _ a Hi Hrm) as Hkeep.
    apply Forall2_cons_inv_l in Hvis as (v2&?&(p2&E2&_&Hv2)&Hvis&->). apply Forall2_cons_inv_l in Hvis as (v1&?&(p1&E1&_&Hv1)&Hvis&->).
    apply Forall2_nil_inv_l in Hvis as ->. rewrite (Hv1 Hkeep), (Hv2 Hkeep) in Hout, Hex. vm_compute in E1, E2. injection E1 as <-. injection E2 as <-.
    cbn [sample_request rq_order_by selected] in Hout. unfold sample_execute. rewrite Hex; [|by_compute|exact Hf]. rewrite put_all_taken, Hout. vm_compute. reflexivity.
Defined.

Lemma query_aggregate_witness :
  ∃ plan rs w, Builder.create ALL (sample_request true SERIES [FMAX; FCNT] 10 30) = Some (kOk, Some plan) ∧
    store_run crc32c_sw (λ _, 0) 1 31 sample_ops (new_world 2 (Mem.make false false)) = Some (rs, w) ∧
    ∃ N results, Forall2 (λ pts r, match r with Some a => agg_of a pts | None => pts = [] end) [[]; [(10, 0); (20, 0x4000000000000000)]] results ∧
      ∀ rfuel, (N ≤ rfuel)%nat → sample_execute 5 rfuel plan (w_store w) (w_blocks w)
        = Some (agg_samples (λ _, 0) 0 (zip [(2, FMAX); (1, FCNT)] results), w_store w, w_blocks w).
Proof.
  destruct (query_aggregate (B := MemStore) (H1 := sample_processor) SampleHeap crc32c_sw (λ _, 0) (0, INIT_AGGRES) (λ _ _, true) (λ _, 0) ALL
    sample_ops 2 (sample_request true SERIES [FMAX; FCNT] 10 30) [2; 1] 1 31 (Mem.make false false) ∅ 0 []) as (plan&rs&w&hist'&Ec&E&Hi&Hrun).
  - repeat constructor; by_compute.
  - by_compute.
  - split; [apply mem_make_inv; by_compute|done].
  - lia.
  - repeat split.
  - intros id pts Hin Em. repeat (apply elem_of_cons in Hin as [->|Hin]; [vm_compute in Em; injection Em as <-; by_compute|]).
    by apply not_elem_of_nil in Hin.
  - vm_compute. reflexivity.
  - done.
  - exists plan, rs, w. split; [exact Ec|]. split; [exact E|]. pose proof sample_run_keeps as Hrm. rewrite E in Hrm.
    destruct (Hrun (λ a, mem_keeps _ _ _ a Hi Hrm)) as (N&results&Hres&Hex). exists N, results. split.
    + apply Forall2_cons_inv_l in Hres as (r2&?&(p2&E2&H2)&Hres&->). apply Forall2_cons_inv_l in Hres as (r1&?&(p1&E1&H1)&Hres&->).
      apply Forall2_nil_inv_l in Hres as ->. vm_compute in E1, E2. injection E1 as <-. injection E2 as <-. by repeat constructor.
    + intros rfuel Hf. unfold sample_execute. rewrite Hex; [|simpl; lia|exact Hf]. by rewrite put_all_taken.
Defined.

(** ** A filter for one of two metrics *)

(** The parser makes a filter for every metric of a join and enables those of the
    query.  A request whose filters are not all enabled is refused: the others have
    no bounds, and that is not valid. *)
Lemma partial_filter_refused :
  Builder.create ALL (mkRequest false [] 0 [[1]; [2]] [mkQFilter true Builder.GT 0 0 0 0; mkQFilter false 0 0 0 0 0] ALL 0 10 false [] None SERIES)
  = Some (kBadArg, None).
Proof. vm_compute. reflexivity. Qed.
